(* ===== verification/_CoqProject ===== *)
-Q . S2P
Prelude.v
Bytes.v
Text.v
Frame.v
Codec.v
Control.v
Handshake.v
Release.v
Bitmap.v
BuddyTree.v
Buddy.v
Budget.v
Float64.v
Pressure.v
Pool.v
Parse.v
IpcConfig.v
Config.v
ConfigSafe.v
Endpoint.v
PoolInv.v
PoolOps.v
PoolRun.v
PoolSafe.v
Connection.v
ConnectionWire.v
ConnectionRun.v
ConnectionInv.v
ConnectionSafe.v
BatchWrite.v
ClientCalls.v
ClientCallsInv.v
ClientCallsSafe.v
Scheduler.v
SchedulerRun.v
ChunkOrdering.v
Assembler.v
AssemblerPool.v
AssemblerSpec.v
Registry.v
RegistryStore.v
RegistryOps.v
RegistryRun.v
RegistryInv.v
RegistrySpec.v
RegistrySafe.v
RouteTable.v
RouteSync.v
RouteInv.v
Locked.v
Mesh.v
MeshInv.v
MeshSafe.v
MeshLeave.v
MeshSync.v
ConnPool.v
ConnPoolSafe.v
Authority.v
AuthoritySafe.v
CallScope.v
Retention.v
Host.v
HostSafe.v
ClientRefs.v
ClientCache.v
ClientCacheSafe.v
Errors.v
Catalog.v
HostCatalog.v
HostCatalogSafe.v
RouteBinding.v
RouteBindingSafe.v
RelayClient.v
RelayClientSafe.v
RelayControl.v
