(* ===== verification/Prelude.v ===== *)
(** * Verification of C-Two

    C-Two connects resources across processes and machines.  A host process serves
    routes; a client calls them through shared memory and a local socket on the same
    machine (IPC), or through a relay over HTTP; relays form a mesh that gossips which
    routes exist where.  This development models the native core of the repository
    (core/ under src/) at the level of its data structures and locked sections, and proves
    the properties the rest of the program relies on.

    ** Parts of the program and how they interact

    - c2-contract and c2-config (core/foundation) validate names, hashes and
      identifiers.  Every decoder and every table below admits text only through them.
      c2-config also resolves the policies of servers, clients and relays from code and
      environment, and derives the names of local endpoints.
    - c2-mem (core/foundation) owns shared memory: a buddy allocator inside a segment, a
      budget that all backings are charged to, a pressure engine that decides whether one
      more backing may be mapped, the pool that serves requests from segments,
      dedicated mappings and files, and the budget of inputs retained by calls.
    - c2-wire (core/protocol) defines the IPC frames and their payloads, the control
      state of one physical connection (loans of shared memory and their release), and
      the reassembly of chunked messages, which stores chunks in the pool of c2-mem.
    - c2-server (core/transport) registers routes while it starts, serves and stops,
      schedules calls of a route and orders the admission of chunked requests in front of
      the chunk registry.
    - c2-ipc (core/transport) is the client side: a cache of connections shared under
      counted leases, with a record of every close until it is observed; on a connection,
      the calls with the tasks that write and read its stream; and the directory of the
      routes of the host, from which callers acquire bindings.
    - c2-core (core/runtime) orchestrates them; the scope of a call arbitrates between
      its transport, its result and its deadline.
    - c2-http (core/transport) is the relay: the route table, the gossip between relays,
      the authority that registers and withdraws local routes, and the pool of IPC
      connections to local owners; and it is the client of relays: resolution of routes
      with its cache, the choice of a target, and calls with their retries.

    ** Conventions

    [Prelude] has the result monad [res E A] (a value, an error, or a panic), machine
    integers as [Z] with their wrap-around or their overflow panic written out, and the
    generic lemmas, hints and tactics.  Strings are UTF-8 byte lists.  A method that runs
    under a mutex is a function on the state behind it; what the code drops after
    unlocking is returned, to be dropped by a later step.  Where threads share a
    component, a world collects the state and the tokens that exist, a step is one locked
    section, and theorems quantify over all runs, that is, over all interleavings.  Where a
    handler takes the lock several times ([Mesh]) it is a program of sections ([Locked]),
    and the world has the handlers in flight with what each still has to do.
    Clocks, the answers of the operating system and of the network are arguments.
    Libraries are parameters: SHA-256 and URL parsing for the mesh, with injectivity of
    the digest on the texts at hand as a hypothesis of convergence only; SHA-256 for
    endpoints, with its length; JSON, with its round trip; reading environment files.

    ** Files

    - [Prelude], [Bytes]: the shared library.
    - [Text]: c2-contract/src/lib.rs and c2-config/src/identity.rs.
    - [Parse] (reading integers and decimals as the standard library does), [IpcConfig]
      (c2-config/src/ipc.rs, relay.rs, timeout.rs, remote.rs, call.rs: policies, defaults
      and checks), [Config] (resolver.rs and the pool projections of ipc.rs) with its
      guarantees in [ConfigSafe], and [Endpoint] (local.rs).
    - [Frame] (frame.rs, flags.rs, msg_type.rs), [Codec] (buddy.rs, chunk/header.rs,
      shutdown_control.rs), [Control] (control.rs), [Handshake] (handshake.rs) and
      [Release] (release.rs): the wire formats of c2-wire.  The class [CodecLaws] of
      [Codec] is what a decoder at an offset promises.
    - [Bitmap] (alloc/bitmap.rs), [BuddyTree] (the geometry the proofs use) and [Buddy]
      (alloc/buddy.rs): the allocator.
    - [Budget] (budget.rs), [Float64] (binary64 arithmetic), [Pressure] (pressure.rs).
    - [Pool] (pool.rs, handle.rs, dedicated.rs, buddy_segment.rs, spill.rs,
      segment/unix.rs, config.rs), with its invariant in [PoolInv], its operations
      against it in [PoolOps], its runs in [PoolRun] and its guarantees in [PoolSafe].
    - [Connection] (connection/mod.rs), the release prefix in [ConnectionWire], runs in
      [ConnectionRun], the invariant in [ConnectionInv], guarantees in [ConnectionSafe].
    - [BatchWrite] (c2-ipc/src/connection.rs, the loop of [write_batch]), [ClientCalls]
      (c2-ipc/src/connection.rs and client.rs: callers, writer, reader and the end of a
      connection over the state of [Connection]), its invariant in [ClientCallsInv] and
      guarantees in [ClientCallsSafe].  [RouteBinding] (c2-ipc/src/client.rs: method
      tables, the directory and the operations on routes, against the host of
      [HostCatalog]) and its guarantees in [RouteBindingSafe].
    - [Scheduler] (scheduler.rs, admission.rs) and [SchedulerRun]; [ChunkOrdering]
      (chunk_ordering.rs); [Host] (c2-server/src/server.rs, dispatcher.rs: registration,
      start and shutdown over the admission state and schedulers of [Scheduler]) and
      [HostSafe].
    - [Errors] (c2-error/src/lib.rs), [Catalog] (route_catalog_control.rs,
      registration_control.rs) and [HostCatalog] (c2-server/src/server.rs: handshake
      acknowledgement, catalog answers, attestation, admission of a call by its identity),
      with guarantees in [HostCatalogSafe].  JSON is the class [Json], whose law is that
      what was written reads back.
    - [ClientRefs] and [ClientCache] (c2-ipc/src/pool.rs, the policies of
      c2-config/src/ipc.rs and memory.rs): the references of one connection action by
      action, and the cache over them, where an acquisition or a release is one step;
      guarantees in [ClientCacheSafe].
    - [CallScope] (c2-core/src/call_scope.rs, c2-config/src/call.rs and timeout.rs) and
      [Retention] (c2-mem/src/retention.rs).
    - [Assembler] (assembler.rs, chunk/backing.rs) over the class [ReassemblyPool], which
      [AssemblerPool] shows the memory pool to implement; guarantees in [AssemblerSpec].
    - [Registry] (chunk/registry.rs), its storage in [RegistryStore], its operations in
      [RegistryOps], runs in [RegistryRun], the invariant of claims and times in
      [RegistryInv], the abstract table in [RegistrySpec], guarantees in [RegistrySafe].
    - [RouteTable] (relay/route_table.rs, relay/types.rs), [RouteSync] (relay/types.rs,
      relay/peer.rs), the table's invariant in [RouteInv].
    - [Locked]: tasks as programs of sections under a lock, their interleavings, and
      invariants of runs.
    - [Mesh] (relay/peer_handlers.rs, relay/authority.rs, relay/background.rs): handlers
      and periodic tasks as such programs over the table; what each section does to it in
      [MeshInv]; guarantees in [MeshSafe], [MeshLeave] and [MeshSync].
    - [ConnPool] (relay/conn_pool.rs) and [ConnPoolSafe]; [Authority] (relay/authority.rs
      and the parts of relay/state.rs it calls) and [AuthoritySafe], which run the table,
      the pool and the authority together.
    - [RelayClient] (client/relay_aware.rs, client/http_client.rs, payload.rs: calls,
      selection and responses, as computations that ask the outside) with its guarantees
      in [RelayClientSafe], and [RelayControl] (client/control.rs: the cache of
      resolutions and registration requests).

    ** What the theorems show

    - Allocation ([Buddy], [Budget], [Pressure], [PoolSafe]): blocks never overlap and
      allocation fails only when it must; after all releases a segment is whole again;
      budgets are conserved; the pool behaves as separate buffers, never panics whatever
      the operating system answers, charges exactly what it maps, and fences handles of
      earlier generations.
    - Wire formats ([Frame], [Control], [Handshake], [Release]): decoders accept exactly
      what encoders produce for admitted values, and never panic on any input.
    - Connections ([ConnectionSafe]): no assertion fails in any run; every loaned
      allocation is in one place and freed once; a published loan settles only through a
      release or the end of the peer; an ended connection can always be closed.
    - Scheduling ([SchedulerRun], [ChunkOrdering]): writers are exclusive, limits hold,
      activation is first come first served, earlier generations are fenced.
    - Hosts ([HostSafe]): a route name has at most one owner, reservations of an ended
      admission never register, and no route leaves the dispatcher while it admits work.
    - What hosts tell peers ([HostCatalogSafe], [Errors]): every answer is accepted by the
      decoder of the peer and says what the host holds; the catalog and the admission of
      calls agree; a registered name is never forgotten; errors survive the wire.
    - Policies ([ConfigSafe], [IpcConfig], [Endpoint]): a server policy is resolved exactly
      from the values that are well formed and valid, in their order of precedence; what
      is resolved can be used; a relay always generates an identity the mesh accepts;
      endpoints are separate where their roots or identities are.
    - Calls of a client ([ClientCallsSafe], [BatchWrite]): a failure told as one before
      dispatch is never one of a call that was sent; every call returns once its
      connection has ended; frames are counted as written when they are, whatever the
      stream takes at a time.
    - Routes of a client ([RouteBindingSafe]): a call through a binding reaches the method
      it names of the one route it was acquired for, or is refused; every operation ends;
      an open route is acquired.
    - Connections of a client ([ClientRefs], [ClientCacheSafe]): expiry is exact under
      lock-free releases; no open connection is lost; leases have the requested policy
      and epoch; a sealed cache that is drained has closed everything.
    - Calls ([CallScope], [Retention]): a call has one outcome however its participants
      race, each of which answers within seven actions; retained inputs are charged
      exactly.
    - Reassembly ([AssemblerSpec], [RegistrySafe]): chunks in any order give back the
      message; budget and counters are exact; the registry refines a table from request
      to chunks; a request gets at most one error reply; skipped sweeps miss nothing.
    - The mesh ([MeshSafe], [MeshLeave], [MeshSync]): the table keeps its type in every
      interleaving; a relay speaks only for its own routes; deleted routes stay deleted;
      resolution is exact; a route outlives its owner only through an announcement between
      the two sections of a leave, which [leave_race_blocks_joins] shows to block joins; one
      digest exchange that nothing interrupts converges.
    - The relay's owners ([ConnPoolSafe], [AuthoritySafe]): active requests are exactly
      the live leases; an owner token fences its owner; an owner that shows life is not
      displaced; registered routes keep the slot of their endpoint, except in the race
      that [removal_race_strands_route] exhibits.
    - Clients of relays ([RelayClientSafe], [RelayControl]): a request is posted again only
      after a stale route, and told as undelivered only if every post was; targets are
      usable; a call through a well outside is answered; the cache of resolutions is the
      history of answers; requests are repeated only after failures.

    ** Bounds and fuel

    Definitions recurse on their data.  Six take fuel: [utf8_decode] the length of the
    text, since each step consumes a byte ([utf8_decode_fuel_enough]); [prewarm] at least
    the number of segments asked for, which [prewarm_terminates] proves to suffice;
    [decimal] twenty digits, enough for 64 bits ([decimal_read]); [hex_digits] the digits
    of 32 bits; [from_utf8_lossy] the length of the text, since each step consumes a byte
    ([lossy_fuel_enough]); and [pass_frames] the length of the bytes, since each step
    passes a frame of four bytes or more ([pass_frames_spec]).  Nothing else is bounded:
    theorems hold for all lengths of runs.

    ** Not modelled

    - The tasks around the locked sections: sockets and HTTP (opening connections and
      calls in chunks or streams in c2-ipc, c2-local, the connection, dispatch and write
      tasks of c2-server, the router and server of c2-http, the pool of its HTTP clients),
      timers, wake-ups and the orchestration of c2-core.  They are asynchronous I/O over
      the states modelled here; what they may do to these states is covered by quantifying
      over all interleavings.
    - More than one accept loop of one server at a time: its users start one for each
      start of the server.
    - Mappings of the memory of another process (c2-mem peer.rs), the C ABI
      (c2-mem-ffi) and the system calls themselves.
    - JSON, environment files, contract descriptors and release metadata (validation of
      JSON documents), code generation, the command line, the language bindings, tools and
      examples: their behaviour is that of libraries and of text they emit.
    - Tracing, error message texts and test hooks.  Error values are structured. *)

From stdpp Require Export base gmap list strings fin_maps fin_sets sorting.
From coqutil Require Export Byte Word.LittleEndianList.
From Stdlib Require Export ZArith Lia.
From Stdlib Require Strings.Byte.

#[global] Open Scope Z_scope.

(** ** Results of fallible code

    [res E A] is the result of a Rust function that returns [Result<A, E>]:
    [Ok], [Err], or [Panic] for an index or slice out of range, an arithmetic
    underflow, a failed [assert!], [expect] or [unwrap]. *)

Inductive res (E A : Type) : Type :=
| Ok (a : A)
| Err (e : E)
| Panic.
Arguments Ok {E A} a.
Arguments Err {E A} e.
Arguments Panic {E A}.

Definition res_bind {E A B} (m : res E A) (f : A → res E B) : res E B :=
  match m with
  | Ok a => f a
  | Err e => Err e
  | Panic => Panic
  end.

(** [map_err]: Rust's [Result::map_err]. *)
Definition map_err {E F A} (f : E → F) (m : res E A) : res F A :=
  match m with
  | Ok a => Ok a
  | Err e => Err (f e)
  | Panic => Panic
  end.

Declare Scope res_scope.
Delimit Scope res_scope with res.
Notation "'let?' x ':=' m 'in' k" := (res_bind m (fun x => k))
  (at level 200, x name, m at level 100, k at level 200, right associativity) : res_scope.
Notation "'let?' ' p ':=' m 'in' k" := (res_bind m (fun x => match x with p => k end))
  (at level 200, p strict pattern, m at level 100, k at level 200, right associativity) : res_scope.
Notation "m ';?' k" := (res_bind m (fun _ => k))
  (at level 199, k at level 200, right associativity) : res_scope.
#[global] Open Scope res_scope.

(** [assert b]: continue when [b], panic otherwise. *)
Definition guard_panic {E} (b : bool) : res E unit := if b then Ok tt else Panic.
Definition guard_err {E} (b : bool) (e : E) : res E unit := if b then Err e else Ok tt.

Definition is_ok {E A} (m : res E A) : bool := if m is Ok _ then true else false.

(** [safe m Q]: [m] does not panic, and its [Ok] value satisfies [Q]. *)
Definition safe {E A} (m : res E A) (Q : A → Prop) : Prop :=
  match m with
  | Ok a => Q a
  | Err _ => True
  | Panic => False
  end.

(** ** Machine integers *)

Definition U8_MAX : Z := 255.
Definition U16_MAX : Z := 65535.
Definition U32_MAX : Z := 4294967295.
Definition U64_MAX : Z := 18446744073709551615.
(** [usize] and [isize] of the 64-bit targets the crates are built for. *)
Definition USIZE_MAX : Z := U64_MAX.
Definition ISIZE_MAX : Z := 9223372036854775807.

Definition wrap_u32 (z : Z) : Z := z mod 2 ^ 32.
Definition wrap_u64 (z : Z) : Z := z mod 2 ^ 64.

(** [checked_add], [checked_sub], [checked_mul] and [saturating_add] at a width
    given by its maximum. *)
Definition checked_add (max a b : Z) : option Z := if a + b <=? max then Some (a + b) else None.
Definition checked_sub (a b : Z) : option Z := if b <=? a then Some (a - b) else None.
Definition checked_mul (max a b : Z) : option Z := if a * b <=? max then Some (a * b) else None.
Definition saturating_add (max a b : Z) : Z := Z.min max (a + b).
Definition saturating_sub (a b : Z) : Z := Z.max 0 (a - b).

(** ** Byte buffers

    A [&[u8]] is a [list byte]; a [usize] offset into it is a [Z]. *)

Notation bytes := (list byte).

#[export] Instance byte_eq_decision : EqDecision Byte.byte := Strings.Byte.byte_eq_dec.

#[export] Program Instance byte_countable : Countable Byte.byte :=
  inj_countable Strings.Byte.to_N Strings.Byte.of_N _.
Next Obligation. intros b. apply Strings.Byte.of_to_N. Qed.

Definition blen {A} (l : list A) : Z := Z.of_nat (length l).

Definition u8 (b : byte) : Z := byte.unsigned b.

(** [buf[i]] and [buf[a..b]], with the panic of Rust's bounds check. *)
Definition index {E A} (l : list A) (i : Z) : res E A :=
  if (0 <=? i) && (i <? blen l) then
    match l !! Z.to_nat i with Some x => Ok x | None => Panic end
  else Panic.

Definition slice {E A} (l : list A) (a b : Z) : res E (list A) :=
  if (0 <=? a) && (a <=? b) && (b <=? blen l)
  then Ok (take (Z.to_nat (b - a)) (drop (Z.to_nat a) l))
  else Panic.

(** [to_le_bytes] / [from_le_bytes] of an unsigned [n]-byte integer. *)
Definition to_le (n : nat) (v : Z) : bytes := le_split n v.
Definition from_le (bs : bytes) : Z := le_combine bs.
#[global] Arguments to_le : simpl never.
#[global] Arguments from_le : simpl never.

(** [buf[off..off + bs.len()].copy_from_slice(bs)]. *)
Definition store {E A} (buf : list A) (off : Z) (bs : list A) : res E (list A) :=
  if (0 <=? off) && (off + blen bs <=? blen buf)
  then Ok (take (Z.to_nat off) buf ++ bs ++ drop (Z.to_nat (off + blen bs)) buf)
  else Panic.

(** [u16::from_le_bytes(buf[off..off+2])] and its wider siblings. *)
Definition read_le {E} (n : nat) (buf : bytes) (off : Z) : res E Z :=
  let? bs := slice buf off (off + Z.of_nat n) in Ok (from_le bs).

(** [at_off buf off bs]: the bytes [bs] stand in [buf] at offset [off]. *)
Definition at_off {A} (buf : list A) (off : Z) (bs : list A) : Prop :=
  ∃ pre post, buf = pre ++ bs ++ post ∧ off = blen pre.

(** ** Lemmas on results *)

Create HintDb c2.

Section res_lemmas.
Context {E : Type}.

Lemma safe_ok {A} (a : A) (Q : A → Prop) : Q a → safe (E:=E) (Ok a) Q.
Proof. done. Qed.

Lemma safe_bind {A B} (m : res E A) (f : A → res E B) (Q : A → Prop) (R : B → Prop) :
  safe m Q → (∀ a, Q a → safe (f a) R) → safe (res_bind m f) R.
Proof. destruct m; simpl; auto. Qed.

Lemma safe_mono {A} (m : res E A) (Q R : A → Prop) :
  safe m Q → (∀ a, Q a → R a) → safe m R.
Proof. destruct m; simpl; auto. Qed.

Lemma safe_map_err {F A} (g : F → E) (m : res F A) (Q : A → Prop) :
  safe m Q → safe (map_err g m) Q.
Proof. by destruct m. Qed.

Lemma safe_not_panic {A} (m : res E A) (Q : A → Prop) : safe m Q → m ≠ Panic.
Proof. by destruct m. Qed.

Lemma safe_guard_err b (e : E) (Q : unit → Prop) : (b = false → Q tt) → safe (guard_err b e) Q.
Proof. destruct b; simpl; auto. Qed.

Lemma bind_ok {A B} (m : res E A) (f : A → res E B) b :
  res_bind m f = Ok b ↔ ∃ a, m = Ok a ∧ f a = Ok b.
Proof. destruct m; simpl; naive_solver. Qed.

Lemma map_err_ok {F A} (g : E → F) (m : res E A) a : map_err g m = Ok a ↔ m = Ok a.
Proof. destruct m; simpl; naive_solver. Qed.

Lemma guard_err_ok b (e : E) u : guard_err b e = Ok u ↔ b = false.
Proof. destruct b, u; simpl; naive_solver. Qed.

Lemma guard_panic_ok b u : guard_panic (E:=E) b = Ok u ↔ b = true.
Proof. destruct b, u; simpl; naive_solver. Qed.
End res_lemmas.

(** [res_inv H]: take a chain of [let?] that returned [Ok] apart, step by step. *)
Ltac res_inv_one H :=
  match type of H with
  | res_bind _ _ = Ok _ =>
      let a := fresh "v" in let H1 := fresh "Hs" in
      apply bind_ok in H as (a & H1 & H); res_inv_one H1
  | map_err _ _ = Ok _ => apply map_err_ok in H; res_inv_one H
  | guard_err _ _ = Ok _ => apply guard_err_ok in H
  | guard_panic _ = Ok _ => apply guard_panic_ok in H
  | (let '(_, _) := ?p in _) = Ok _ => destruct p; res_inv_one H
  | _ => idtac
  end.
Ltac res_inv H := repeat (res_inv_one H; cbv beta iota zeta in H; try (progress simpl in H; res_inv_one H)).

(** ** Lemmas on lengths, slices and offsets *)

Lemma blen_nonneg {A} (l : list A) : 0 <= blen l.
Proof. unfold blen. lia. Qed.

Lemma blen_app {A} (l k : list A) : blen (l ++ k) = blen l + blen k.
Proof. unfold blen. rewrite length_app. lia. Qed.

Lemma blen_cons {A} (x : A) l : blen (x :: l) = 1 + blen l.
Proof. unfold blen. simpl. lia. Qed.

Lemma blen_nil {A} : blen (@nil A) = 0.
Proof. done. Qed.

Lemma blen_to_le n v : blen (to_le n v) = Z.of_nat n.
Proof. unfold blen, to_le. by rewrite length_le_split. Qed.

Lemma blen_0_nil {A} (l : list A) : blen l = 0 → l = [].
Proof. destruct l; [done|]. rewrite blen_cons. pose proof (blen_nonneg l). lia. Qed.

#[export] Hint Rewrite @blen_app @blen_cons @blen_nil @blen_to_le : blen.
#[export] Hint Resolve blen_nonneg : c2.

Ltac blen_solve :=
  autorewrite with blen in *;
  repeat match goal with
  | |- context [blen ?l] => lazymatch goal with H : 0 <= blen l |- _ => fail | _ => pose proof (blen_nonneg l) end
  | H : context [blen ?l] |- _ => lazymatch goal with H : 0 <= blen l |- _ => fail | _ => pose proof (blen_nonneg l) end
  end; lia.

Lemma u8_range b : 0 <= u8 b < 256.
Proof. apply byte.unsigned_range. Qed.

Lemma u8_of_Z z : 0 <= z < 256 → u8 (byte.of_Z z) = z.
Proof. intros. unfold u8. rewrite byte.unsigned_of_Z. unfold byte.wrap. by rewrite Z.mod_small. Qed.

Lemma of_Z_u8 b : byte.of_Z (u8 b) = b.
Proof. apply byte.of_Z_unsigned. Qed.

Lemma from_to_le n v : 0 <= v < 2 ^ (Z.of_nat n * 8) → from_le (to_le n v) = v.
Proof. intros. unfold from_le, to_le. rewrite le_combine_split. by apply Z.mod_small. Qed.

Lemma from_to_le_wrap n v : from_le (to_le n v) = v mod 2 ^ (Z.of_nat n * 8).
Proof. apply le_combine_split. Qed.

Lemma to_from_le n bs : length bs = n → to_le n (from_le bs) = bs.
Proof. apply split_le_combine'. Qed.

Lemma from_le_range bs : 0 <= from_le bs < 2 ^ (8 * blen bs).
Proof. apply le_combine_bound. Qed.

Lemma at_off_app {A} (buf : list A) off (a b : list A) :
  at_off buf off (a ++ b) ↔ at_off buf off a ∧ at_off buf (off + blen a) b.
Proof.
  split.
  - intros (pre & post & -> & ->). split.
    + exists pre, (b ++ post). by rewrite <-!app_assoc.
    + exists (pre ++ a), post. rewrite blen_app. by rewrite <-!app_assoc.
  - intros [(pre & post & -> & ->) (pre' & post' & Hb & Hlen)].
    assert (pre' = pre ++ a ∧ b ++ post' = post) as [-> <-].
    { rewrite app_assoc in Hb. symmetry in Hb.
      apply app_inj_1 in Hb; [naive_solver|].
      unfold blen in Hlen. rewrite length_app. lia. }
    exists pre, post'. by rewrite <-!app_assoc.
Qed.

Lemma at_off_cons {A} (buf : list A) off x (b : list A) :
  at_off buf off (x :: b) ↔ at_off buf off [x] ∧ at_off buf (off + 1) b.
Proof. change (x :: b) with ([x] ++ b). by rewrite at_off_app. Qed.

Lemma at_off_whole {A} (buf : list A) : at_off buf 0 buf.
Proof. exists [], []. by rewrite app_nil_r. Qed.

Lemma at_off_mid {A} (pre bs post : list A) : at_off (pre ++ bs ++ post) (blen pre) bs.
Proof. by exists pre, post. Qed.

Lemma at_off_nil {A} (buf : list A) off : 0 <= off <= blen buf → at_off buf off [].
Proof.
  intros. exists (take (Z.to_nat off) buf), (drop (Z.to_nat off) buf). simpl.
  rewrite take_drop. split; [done|]. unfold blen in *. rewrite length_take. lia.
Qed.

Lemma at_off_bounds {A} (buf : list A) off bs :
  at_off buf off bs → 0 <= off ∧ off + blen bs <= blen buf.
Proof. intros (pre & post & -> & ->). blen_solve. Qed.

Lemma index_at_off {E A} (buf : list A) off x : at_off buf off [x] → index (E:=E) buf off = Ok x.
Proof.
  intros (pre & post & -> & ->). unfold index.
  destruct (_ && _) eqn:Hb; [|blen_solve].
  unfold blen. rewrite Nat2Z.id.
  simpl. by rewrite (list_lookup_middle pre post x (length pre) eq_refl).
Qed.

Lemma slice_at_off {E A} (buf : list A) off bs e :
  at_off buf off bs → e = off + blen bs → slice (E:=E) buf off e = Ok bs.
Proof.
  intros (pre & post & -> & ->) ->. unfold slice.
  destruct (_ && _) eqn:Hb; [|blen_solve].
  replace (Z.to_nat (blen pre + blen bs - blen pre)) with (length bs) by (unfold blen; lia).
  replace (Z.to_nat (blen pre)) with (length pre) by (unfold blen; lia).
  by rewrite drop_app_length, take_app_length.
Qed.

Lemma slice_ok {E A} (buf : list A) a b bs :
  slice (E:=E) buf a b = Ok bs → at_off buf a bs ∧ b = a + blen bs.
Proof.
  unfold slice. destruct (_ && _) eqn:Hb; [|done]. intros [= <-].
  rewrite !andb_true_iff, !Z.leb_le in Hb. destruct Hb as [[? ?] ?]. split.
  - exists (take (Z.to_nat a) buf), (drop (Z.to_nat (b - a)) (drop (Z.to_nat a) buf)). split.
    + by rewrite !take_drop.
    + unfold blen in *. rewrite length_take. lia.
  - unfold blen in *. rewrite length_take, length_drop. lia.
Qed.

Lemma index_ok {E A} (buf : list A) i x :
  index (E:=E) buf i = Ok x → at_off buf i [x].
Proof.
  unfold index. destruct (_ && _) eqn:Hb; [|done].
  rewrite andb_true_iff, Z.leb_le, Z.ltb_lt in Hb. destruct Hb.
  destruct (buf !! Z.to_nat i) eqn:Hl; [|done]. intros [= <-].
  exists (take (Z.to_nat i) buf), (drop (S (Z.to_nat i)) buf). split.
  - simpl. by rewrite (take_drop_middle _ _ _ Hl).
  - apply lookup_lt_Some in Hl. unfold blen in *. rewrite length_take. lia.
Qed.

Lemma store_mid {E A} (pre old post bs : list A) off :
  off = blen pre → blen old = blen bs → store (E:=E) (pre ++ old ++ post) off bs = Ok (pre ++ bs ++ post).
Proof.
  intros -> Hlen. unfold store. destruct (_ && _) eqn:Hb; [|blen_solve].
  unfold blen in *. rewrite Nat2Z.id, take_app_length.
  replace (Z.to_nat (Z.of_nat (length pre) + Z.of_nat (length bs))) with (length (pre ++ old))
    by (rewrite length_app; lia).
  by rewrite (app_assoc pre old post), drop_app_length.
Qed.

Lemma safe_slice {E A} (buf : list A) a b :
  0 <= a → a <= b → b <= blen buf →
  safe (E:=E) (slice buf a b) (fun bs => at_off buf a bs ∧ blen bs = b - a).
Proof.
  intros. destruct (slice buf a b) eqn:Hs; simpl; [|done|].
  - apply slice_ok in Hs as [? ->]. split; [done|lia].
  - unfold slice in Hs. destruct (_ && _) eqn:Hb; [done|lia].
Qed.

Lemma safe_index {E A} (buf : list A) i :
  0 <= i < blen buf → safe (E:=E) (index buf i) (fun x => at_off buf i [x]).
Proof.
  intros [? ?]. destruct (index buf i) eqn:Hs; simpl; [by apply index_ok in Hs|done|].
  unfold index in Hs.
  destruct (_ && _) eqn:Hb; [|lia].
  destruct (buf !! Z.to_nat i) eqn:Hl; [done|].
  apply lookup_ge_None in Hl. unfold blen in *. lia.
Qed.

Lemma safe_read_le {E} n buf off :
  0 <= off → off + Z.of_nat n <= blen buf →
  safe (E:=E) (read_le n buf off) (fun v => 0 <= v < 2 ^ (8 * Z.of_nat n) ∧ at_off buf off (to_le n v)).
Proof.
  intros. eapply safe_bind; [apply safe_slice; lia|].
  intros bs [Hat Hlen]. simpl.
  assert (length bs = n) as Hn by (unfold blen in Hlen; lia). split.
  - rewrite <-Hn. apply from_le_range.
  - by rewrite to_from_le.
Qed.

Lemma read_le_at_off {E} n buf off v :
  at_off buf off (to_le n v) → read_le (E:=E) n buf off = Ok (v mod 2 ^ (Z.of_nat n * 8)).
Proof.
  intros H. unfold read_le.
  rewrite (slice_at_off _ _ _ _ H) by (by rewrite blen_to_le).
  simpl. by rewrite from_to_le_wrap.
Qed.

Lemma read_le_at_off_small {E} n buf off v :
  at_off buf off (to_le n v) → 0 <= v < 2 ^ (Z.of_nat n * 8) → read_le (E:=E) n buf off = Ok v.
Proof. intros H ?. rewrite (read_le_at_off _ _ _ _ H). by rewrite Z.mod_small. Qed.

Lemma read_le_ok {E} n buf off v :
  read_le (E:=E) n buf off = Ok v → at_off buf off (to_le n v) ∧ 0 <= v < 2 ^ (Z.of_nat n * 8).
Proof.
  unfold read_le. intros (bs & Hs & [= <-])%bind_ok.
  apply slice_ok in Hs as [Hat Hlen]. assert (length bs = n) as Hn by (unfold blen in Hlen; lia).
  rewrite to_from_le by done. split; [done|].
  pose proof (from_le_range bs). rewrite <-Hn. unfold blen in *. by rewrite Z.mul_comm.
Qed.

Lemma at_off_prefix {A} (buf x : list A) : at_off buf 0 x ↔ ∃ rest, buf = x ++ rest.
Proof.
  split.
  - intros (pre & post & -> & H). symmetry in H. apply blen_0_nil in H as ->. by exists post.
  - intros [rest ->]. by exists [], rest.
Qed.

Lemma at_off_full {A} (buf x : list A) : at_off buf 0 x → blen x = blen buf → buf = x.
Proof.
  intros [rest ->]%at_off_prefix H. rewrite blen_app in H.
  assert (rest = []) as -> by (apply blen_0_nil; lia). by rewrite app_nil_r.
Qed.

Lemma at_off_drop {A} (buf : list A) off x :
  at_off buf off x → 0 <= off ∧ ∃ pre, blen pre = off ∧ at_off buf 0 (pre ++ x).
Proof.
  intros (pre & post & -> & ->). split; [apply blen_nonneg|].
  exists pre. split; [done|]. apply at_off_prefix. exists post. by rewrite <-app_assoc.
Qed.

Lemma at_off_eq {A} (buf : list A) off off' x : at_off buf off x → off = off' → at_off buf off' x.
Proof. by intros H <-. Qed.

Lemma at_off_inj {A} (buf : list A) off x y :
  at_off buf off x → at_off buf off y → blen x = blen y → x = y.
Proof.
  intros (pre & post & -> & ->) (pre' & post' & Heq & Hlen) Hxy.
  apply app_inj_1 in Heq as [-> Heq]; [|unfold blen in *; lia].
  apply app_inj_1 in Heq as [-> _]; [done|unfold blen in *; lia].
Qed.

Lemma existsb_false {A} (f : A → bool) l : existsb f l = false ↔ ∀ x, x ∈ l → f x = false.
Proof.
  induction l as [|a l IH]; simpl.
  - split; [intros _ x Hx; by apply elem_of_nil in Hx | done].
  - rewrite orb_false_iff, IH. split.
    + intros [Ha Hl] x [->|Hx]%elem_of_cons; auto.
    + intros H. split; [apply H; left|intros x Hx; apply H; by right].
Qed.

(** A one-bit mask test is [testbit]. *)
Lemma land_bit w k : 0 <= k → negb (Z.land w (Z.shiftl 1 k) =? 0) = Z.testbit w k.
Proof.
  intros Hk. rewrite Z.shiftl_1_l. destruct (Z.testbit w k) eqn:Hb.
  - apply negb_true_iff, Z.eqb_neq. intros H0. apply (f_equal (fun z => Z.testbit z k)) in H0.
    rewrite Z.land_spec, Z.pow2_bits_true, Hb, Z.bits_0 in H0 by done. done.
  - apply negb_false_iff, Z.eqb_eq, Z.bits_inj'. intros i Hi.
    rewrite Z.land_spec, Z.pow2_bits_eqb, Z.bits_0 by done.
    destruct (Z.eqb_spec k i) as [<-|]; [by rewrite Hb|by rewrite andb_false_r].
Qed.

(** [at_split H]: break [at_off buf off (a ++ b ++ ...)] into its pieces, with
    every offset computed. *)
Ltac at_split H :=
  repeat lazymatch type of H with
  | at_off _ _ (_ ++ _) =>
      let H1 := fresh "Hat" in rewrite at_off_app in H; destruct H as [H1 H]
  | at_off _ _ (_ :: []) => fail
  | at_off _ _ (_ :: _) =>
      let H1 := fresh "Hat" in rewrite at_off_cons in H; destruct H as [H1 H]
  end; autorewrite with blen in *; cbn [Z.of_nat Pos.of_succ_nat Pos.succ Z.add Pos.add] in *.

(** [res_sat]: turn every successful read in the context into where its bytes
    stand; [at_solve]: prove an [at_off] of concatenated pieces from such facts. *)
Ltac res_sat :=
  repeat match goal with
  | H : read_le _ _ _ = Ok _ |- _ => apply read_le_ok in H as [? ?]
  | H : slice _ _ _ = Ok _ |- _ => apply slice_ok in H as [? ?]
  | H : index _ _ = Ok _ |- _ => apply index_ok in H
  end.

Ltac at_solve :=
  repeat lazymatch goal with
  | |- at_off _ _ (_ ++ _) => apply at_off_app; split
  | |- at_off _ _ (_ :: []) => fail
  | |- at_off _ _ (_ :: _) => apply at_off_cons; split
  end; autorewrite with blen;
  match goal with
  | H : at_off ?b ?o ?x |- at_off ?b ?o' ?x => apply (at_off_eq b o o' x H); first [lia | blen_solve]
  end.

(** Evaluate the closed powers of two left by [read_le_ok]. *)
Ltac norm_pow :=
  repeat match goal with
  | H : context [2 ^ (Z.of_nat ?n * 8)] |- _ =>
      let v := eval vm_compute in (2 ^ (Z.of_nat n * 8)) in
      change (2 ^ (Z.of_nat n * 8)) with v in H
  | |- context [2 ^ (Z.of_nat ?n * 8)] =>
      let v := eval vm_compute in (2 ^ (Z.of_nat n * 8)) in
      change (2 ^ (Z.of_nat n * 8)) with v
  end.

(** ** Sums over lists *)

Definition sum_over {A} (f : A → Z) (l : list A) : Z := foldr (fun x n => f x + n) 0 l.

Lemma sum_over_app {A} (f : A → Z) l l' : sum_over f (l ++ l') = sum_over f l + sum_over f l'.
Proof. induction l; simpl; [done|]. unfold sum_over in *. simpl. lia. Qed.

Lemma sum_over_perm {A} (f : A → Z) l l' : l ≡ₚ l' → sum_over f l = sum_over f l'.
Proof. unfold sum_over. induction 1; simpl; lia. Qed.

Lemma sum_over_nonneg {A} (f : A → Z) l : (∀ x, 0 <= f x) → 0 <= sum_over f l.
Proof. intros Hf. unfold sum_over. induction l as [|x l IH]; simpl; [lia|]. specialize (Hf x). lia. Qed.

Lemma sum_over_ext {A} (f g : A → Z) l : (∀ x, x ∈ l → f x = g x) → sum_over f l = sum_over g l.
Proof.
  intros Hfg. unfold sum_over. induction l as [|x l IH]; simpl; [done|].
  rewrite (Hfg x) by left. rewrite IH; [done|]. intros y Hy. apply Hfg. by right.
Qed.

Lemma sum_over_const {A} (c : Z) (l : list A) : sum_over (fun _ => c) l = blen l * c.
Proof. unfold sum_over, blen. induction l as [|x l IH]; simpl length; cbn [foldr]; lia. Qed.

Lemma sum_over_add {A} (f g : A → Z) l : sum_over (fun x => f x + g x) l = sum_over f l + sum_over g l.
Proof. unfold sum_over. induction l as [|x l IH]; simpl; lia. Qed.
