(* ===== verification/Bytes.v ===== *)
(** Overwriting a span of a buffer, as copying into a mutable slice does. *)

From S2P Require Import Prelude.

Definition splice (buf : bytes) (off : Z) (d : bytes) : bytes :=
  take (Z.to_nat off) buf ++ d ++ drop (Z.to_nat (off + blen d)) buf.

Lemma blen_splice buf off d :
  0 <= off → off + blen d <= blen buf → blen (splice buf off d) = blen buf.
Proof.
  intros. unfold splice, blen in *. rewrite !length_app, length_take, length_drop. lia.
Qed.

Lemma splice_here buf off d :
  0 <= off → off + blen d <= blen buf → at_off (splice buf off d) off d.
Proof.
  intros. exists (take (Z.to_nat off) buf), (drop (Z.to_nat (off + blen d)) buf). split; [done|].
  unfold blen in *. rewrite length_take. lia.
Qed.

Lemma take_splice buf off d n :
  0 <= off → off + blen d <= Z.of_nat n ∧ (n <= length buf)%nat →
  take n (splice buf off d) = splice (take n buf) off d.
Proof.
  intros Ho [Hd Hn]. unfold splice, blen in *. rewrite take_take, skipn_firstn_comm.
  rewrite firstn_app, length_take, (take_ge (take _ _)) by (rewrite length_take; lia).
  replace (Z.to_nat off `min` n)%nat with (Z.to_nat off) by lia. f_equal.
  rewrite firstn_app, take_ge by lia. f_equal. f_equal. lia.
Qed.

(** A write leaves spans before and after it alone. *)
Lemma splice_frame buf off d o x :
  0 <= off → off + blen d <= blen buf → at_off buf o x → o + blen x <= off ∨ off + blen d <= o →
  at_off (splice buf off d) o x.
Proof.
  intros Ho Hd (pre & post & -> & ->) [Hb|Ha]; unfold splice; pose proof (blen_nonneg d).
  - exists pre, (take (Z.to_nat off - length (pre ++ x)) post
                 ++ d ++ drop (Z.to_nat (off + blen d)) (pre ++ x ++ post)).
    split; [|done]. rewrite (app_assoc pre x post) at 1. rewrite take_app_ge, <-!app_assoc; [done|].
    unfold blen in *. rewrite length_app. lia.
  - exists (take (Z.to_nat off) (pre ++ x ++ post) ++ d ++ drop (Z.to_nat (off + blen d)) pre), post.
    rewrite drop_app_le by (unfold blen in *; lia). rewrite <-!app_assoc. split; [done|].
    rewrite !blen_app in *. unfold blen in *. rewrite length_take, length_drop, !length_app. lia.
Qed.


Lemma store_splice {E} buf off d :
  0 <= off → off + blen d <= blen buf → store (E:=E) buf off d = Ok (splice buf off d).
Proof. intros. unfold store. destruct (_ && _) eqn:Hb; [done|lia]. Qed.

(** A span within bounds, as a slice and as a position. *)
Lemma span_at (buf : bytes) off n :
  0 <= off → 0 <= n → off + n <= blen buf → at_off buf off (take (Z.to_nat n) (drop (Z.to_nat off) buf)).
Proof.
  intros. exists (take (Z.to_nat off) buf), (drop (Z.to_nat n) (drop (Z.to_nat off) buf)). split.
  - by rewrite take_drop, take_drop.
  - unfold blen in *. rewrite length_take. lia.
Qed.

Lemma blen_span (buf : bytes) off n :
  0 <= off → 0 <= n → off + n <= blen buf → blen (take (Z.to_nat n) (drop (Z.to_nat off) buf)) = n.
Proof. intros. unfold blen in *. rewrite length_take, length_drop. lia. Qed.

Lemma slice_span {E} (buf : bytes) off n :
  0 <= off → 0 <= n → off + n <= blen buf →
  slice (E:=E) buf off (off + n) = Ok (take (Z.to_nat n) (drop (Z.to_nat off) buf)).
Proof.
  intros. unfold slice. destruct (_ && _) eqn:Hb; [|lia]. do 3 f_equal. lia.
Qed.

(** Writing one span leaves a disjoint one alone. *)
Lemma slice_splice_frame {E} buf off d o n :
  0 <= off → off + blen d <= blen buf → 0 <= o → 0 <= n → o + n <= blen buf →
  o + n <= off ∨ off + blen d <= o →
  slice (E:=E) (splice buf off d) o (o + n) = slice buf o (o + n).
Proof.
  intros ? ? ? ? ? Hor. rewrite (slice_span buf) by done.
  pose proof (splice_frame buf off d o _ ltac:(done) ltac:(done) (span_at buf o n ltac:(done) ltac:(done) ltac:(done))) as Hat.
  apply slice_at_off; [apply Hat|]; by rewrite blen_span.
Qed.

Lemma slice_splice_here {E} buf off d :
  0 <= off → off + blen d <= blen buf → slice (E:=E) (splice buf off d) off (off + blen d) = Ok d.
Proof. intros. apply slice_at_off; [by apply splice_here|done]. Qed.
