(* ===== verification/Text.v ===== *)
(** Text admission: the [str] operations the crates use and the validators of
    [core/foundation/c2-contract/src/lib.rs] and
    [core/foundation/c2-config/src/identity.rs].

    A Rust [&str] is its UTF-8 byte string ([str]); [utf8_decode] is the
    decoder behind [core::str::from_utf8] and [str::chars].  An error value
    keeps the structured data the source formats into a message; [Display] is
    not modelled. *)

From S2P Require Import Prelude.

Notation str := (list byte).

(** A literal of the source. *)
Definition text (s : string) : str := String.list_byte_of_string s.

(** ** UTF-8 *)

Definition is_cont (b : byte) : bool := (128 <=? u8 b) && (u8 b <? 192).

(** Decode one scalar value from the front: shortest form only, no surrogates,
    nothing above U+10FFFF. *)
Definition next_char (bs : bytes) : option (Z * bytes) :=
  match bs with
  | [] => None
  | b0 :: r =>
      let x := u8 b0 in
      if x <? 128 then Some (x, r)
      else if (194 <=? x) && (x <? 224) then
        match r with
        | b1 :: r' =>
            if is_cont b1 then Some ((x - 192) * 64 + (u8 b1 - 128), r') else None
        | _ => None
        end
      else if (224 <=? x) && (x <? 240) then
        match r with
        | b1 :: b2 :: r' =>
            let v := (x - 224) * 4096 + (u8 b1 - 128) * 64 + (u8 b2 - 128) in
            if is_cont b1 && is_cont b2 && (2048 <=? v) && negb ((55296 <=? v) && (v <? 57344))
            then Some (v, r') else None
        | _ => None
        end
      else if (240 <=? x) && (x <? 245) then
        match r with
        | b1 :: b2 :: b3 :: r' =>
            let v := (x - 240) * 262144 + (u8 b1 - 128) * 4096
                     + (u8 b2 - 128) * 64 + (u8 b3 - 128) in
            if is_cont b1 && is_cont b2 && is_cont b3 && (65536 <=? v) && (v <? 1114112)
            then Some (v, r') else None
        | _ => None
        end
      else None
  end.

(** Every step of the decoder consumes a byte, so the length is enough fuel. *)
Fixpoint utf8_decode_fuel (fuel : nat) (bs : bytes) : option (list Z) :=
  match bs, fuel with
  | [], _ => Some []
  | _, O => None
  | _, S fuel' =>
      match next_char bs with
      | Some (c, rest) =>
          match utf8_decode_fuel fuel' rest with
          | Some cs => Some (c :: cs)
          | None => None
          end
      | None => None
      end
  end.

Definition utf8_decode (bs : bytes) : option (list Z) := utf8_decode_fuel (length bs) bs.

(** The type invariant of a Rust [str]. *)
Definition utf8_valid (bs : bytes) : bool := if utf8_decode bs is Some _ then true else false.

(** [str::chars]; the default is never used on a valid [str]. *)
Definition chars (s : str) : list Z := default [] (utf8_decode s).

(** [core::str::from_utf8]: the bytes themselves, when they are valid. *)
Definition from_utf8 {E} (bs : bytes) (e : E) : res E str :=
  if utf8_valid bs then Ok bs else Err e.

(** [char::is_whitespace] (Unicode White_Space) and [char::is_control] (Cc). *)
Definition is_whitespace (c : Z) : bool :=
  ((9 <=? c) && (c <=? 13)) || (c =? 32) || (c =? 133) || (c =? 160) || (c =? 5760)
  || ((8192 <=? c) && (c <=? 8202)) || (c =? 8232) || (c =? 8233) || (c =? 8239)
  || (c =? 8287) || (c =? 12288).

Definition is_control (c : Z) : bool :=
  ((0 <=? c) && (c <=? 31)) || ((127 <=? c) && (c <=? 159)).

Fixpoint trim_start (cs : list Z) : list Z :=
  match cs with
  | [] => []
  | c :: cs' => if is_whitespace c then trim_start cs' else cs
  end.

Definition trim (cs : list Z) : list Z := reverse (trim_start (reverse (trim_start cs))).

(** [value.trim() != value], on the decoded characters. *)
Definition has_surrounding_ws (s : str) : bool := negb (bool_decide (trim (chars s) = chars s)).

(** [value.contains(c)] and [value.chars().any(char::is_control)]. *)
Definition contains_char (s : str) (c : Z) : bool := existsb (Z.eqb c) (chars s).
Definition any_control (s : str) : bool := existsb is_control (chars s).

Definition ch_slash : Z := 47.
Definition ch_backslash : Z := 92.

(** ** c2-contract *)

Definition MAX_WIRE_TEXT_BYTES : Z := U8_MAX.
Definition CONTRACT_HASH_HEX_BYTES : Z := 64.
Definition MAX_CONTRACT_METHODS : Z := 256.

Inductive ContractFingerprintField := AbiHash | SignatureHash.

Inductive ContractLimitMetric := SourceBytes | JsonValues | JsonDepth | Methods | NestedFastDbBytes.

Inductive ContractReleaseRefField :=
| ContractSchema | CrmNamespace | CrmName | CrmVersion | DescriptorSha256.

Inductive ContractError :=
| Empty (field : string)
| TooLong (field : string) (max actual : Z)
| SurroundingWhitespace (field : string)
| ControlCharacter (field : string)
| Separator (field : string)
| InvalidHash (field : string)
| InvalidJson (message : str)
| LimitExceeded (metric : ContractLimitMetric) (limit observed : Z) (path : str)
| InvalidDescriptor (path message : str)
| FingerprintMismatch (field : ContractFingerprintField) (expected actual : str)
| InvalidReleaseRefJson (message : str)
| InvalidReleaseRef (path message : str)
| ReleaseRefMismatch (field : ContractReleaseRefField) (expected actual : str).

Record ExpectedRouteContract := {
  erc_route_name : str;
  erc_crm_ns : str;
  erc_crm_name : str;
  erc_crm_ver : str;
  erc_abi_hash : str;
  erc_signature_hash : str }.

Definition validate_wire_len (field : string) (value : str) : res ContractError unit :=
  let actual := blen value in
  guard_err (MAX_WIRE_TEXT_BYTES <? actual) (TooLong field MAX_WIRE_TEXT_BYTES actual).

Definition validate_contract_text_field (field : string) (value : str) : res ContractError unit :=
  guard_err (bool_decide (value = [])) (Empty field) ;?
  validate_wire_len field value ;?
  guard_err (has_surrounding_ws value) (SurroundingWhitespace field) ;?
  guard_err (any_control value) (ControlCharacter field) ;?
  guard_err (contains_char value ch_slash || contains_char value ch_backslash) (Separator field).

Definition validate_route_text_field (field : string) (value : str) : res ContractError unit :=
  guard_err (bool_decide (value = [])) (Empty field) ;?
  validate_wire_len field value ;?
  guard_err (has_surrounding_ws value) (SurroundingWhitespace field) ;?
  guard_err (any_control value) (ControlCharacter field) ;?
  guard_err (contains_char value ch_backslash) (Separator field).

Definition validate_call_route_key (field : string) (value : str) : res ContractError unit :=
  validate_route_text_field field value.

Definition validate_crm_tag (crm_ns crm_name crm_ver : str) : res ContractError unit :=
  validate_contract_text_field "crm namespace" crm_ns ;?
  validate_contract_text_field "crm name" crm_name ;?
  validate_contract_text_field "crm version" crm_ver.

(** [u8::is_ascii_hexdigit] and [u8::is_ascii_uppercase]. *)
Definition is_ascii_hexdigit (b : byte) : bool :=
  ((48 <=? u8 b) && (u8 b <=? 57)) || ((65 <=? u8 b) && (u8 b <=? 70))
  || ((97 <=? u8 b) && (u8 b <=? 102)).
Definition is_ascii_uppercase (b : byte) : bool := (65 <=? u8 b) && (u8 b <=? 90).

Definition validate_contract_hash (field : string) (value : str) : res ContractError unit :=
  guard_err (negb (blen value =? CONTRACT_HASH_HEX_BYTES)
             || negb (forallb (fun b => is_ascii_hexdigit b && negb (is_ascii_uppercase b)) value))
            (InvalidHash field).

Definition validate_expected_route_contract (e : ExpectedRouteContract) : res ContractError unit :=
  validate_call_route_key "route name" (erc_route_name e) ;?
  validate_crm_tag (erc_crm_ns e) (erc_crm_name e) (erc_crm_ver e) ;?
  validate_contract_hash "abi_hash" (erc_abi_hash e) ;?
  validate_contract_hash "signature_hash" (erc_signature_hash e).

(** ** c2-config identifiers *)

Inductive IdError :=
| IdEmpty (label : string)
| IdWhitespace (label : string)
| IdSeparator (label : string)
| IdControl (label : string)
| IdTooLong (label : string).

Definition str_dot : str := [byte.of_Z 46].
Definition str_dotdot : str := [byte.of_Z 46; byte.of_Z 46].

Definition validate_id (label : string) (value : str) : res IdError unit :=
  guard_err (bool_decide (value = [])) (IdEmpty label) ;?
  guard_err (has_surrounding_ws value) (IdWhitespace label) ;?
  guard_err (bool_decide (value = str_dot) || bool_decide (value = str_dotdot)
             || contains_char value ch_slash || contains_char value ch_backslash)
            (IdSeparator label) ;?
  guard_err (any_control value) (IdControl label).

Definition validate_server_id (server_id : str) : res IdError unit :=
  validate_id "server_id" server_id.

Definition validate_relay_id (relay_id : str) : res IdError unit :=
  validate_id "relay_id" relay_id ;?
  guard_err (255 <? blen relay_id) (IdTooLong "relay_id").

(** [validate_route_uid], which control.rs, handshake.rs, registration_control.rs
    and route_catalog_control.rs each define with the same body. *)
Inductive UidError :=
| UidEmpty
| UidTooLong (actual max : Z)
| UidInvalidCharacter.

Definition uid_bad_byte (b : byte) : bool :=
  (u8 b <=? 32) || (u8 b =? ch_slash) || (u8 b =? ch_backslash).

Definition validate_route_uid (value : str) : res UidError unit :=
  guard_err (bool_decide (value = [])) UidEmpty ;?
  guard_err (MAX_WIRE_TEXT_BYTES <? blen value) (UidTooLong (blen value) MAX_WIRE_TEXT_BYTES) ;?
  guard_err (existsb uid_bad_byte value) UidInvalidCharacter.

(** ** Numbers *)

(** [to_string] of unsigned integers: the decimal digits, most significant first. *)
Fixpoint decimal_digits (fuel : nat) (n : Z) : str :=
  match fuel with
  | O => []
  | S fuel => (if n <? 10 then [] else decimal_digits fuel (n / 10)) ++ [byte.of_Z (48 + n mod 10)]
  end.
(** Twenty digits hold any [u64]. *)
Definition decimal (n : Z) : str := decimal_digits 20 n.

(** ** Specification of admitted text *)

(** What an admitted wire text is, without the order of the checks: at most 255
    bytes, first and last character not white space, and no character that is a
    control character or one of [seps]. *)
Definition valid_text (seps : list Z) (s : str) : Prop :=
  s ≠ [] ∧ blen s <= MAX_WIRE_TEXT_BYTES
  ∧ (∀ c, head (chars s) = Some c ∨ last (chars s) = Some c → is_whitespace c = false)
  ∧ (∀ c, c ∈ chars s → is_control c = false ∧ c ∉ seps).

(** ** Lemmas *)

(** Twenty digits write every integer of 64 bits. *)
Lemma decimal_digits_read fuel n :
  0 <= n < 10 ^ Z.of_nat fuel → (0 < fuel)%nat → fold_left (fun v b => 10 * v + (u8 b - 48)) (decimal_digits fuel n) 0 = n.
Proof.
  revert n. induction fuel as [|fuel IH]; intros n Hn Hf; [lia|]. cbn [decimal_digits]. pose proof (Z.mod_pos_bound n 10 ltac:(lia)).
  pose proof (Z.div_mod n 10 ltac:(lia)).
  rewrite fold_left_app. cbn. rewrite u8_of_Z by lia. destruct (n <? 10) eqn:E.
  - cbn. rewrite Z.mod_small by lia. lia.
  - rewrite Nat2Z.inj_succ, Z.pow_succ_r in Hn by lia. destruct fuel as [|fuel]; [lia|].
    rewrite IH; [lia| |lia]. split; [apply Z.div_pos; lia|apply Z.div_lt_upper_bound; lia].
Qed.

Lemma decimal_read n : 0 <= n < 2 ^ 64 → fold_left (fun v b => 10 * v + (u8 b - 48)) (decimal n) 0 = n.
Proof. intros. apply decimal_digits_read; lia. Qed.

Lemma next_char_shrinks bs c rest : next_char bs = Some (c, rest) → (length rest < length bs)%nat.
Proof.
  unfold next_char. intros H. repeat case_match; simplify_eq/=; lia.
Qed.

Lemma utf8_decode_fuel_enough bs n m :
  (length bs <= n)%nat → (length bs <= m)%nat → utf8_decode_fuel n bs = utf8_decode_fuel m bs.
Proof.
  revert m bs. induction n as [|n IH]; intros m bs Hn Hm.
  - destruct bs; simpl in *; [by destruct m|lia].
  - destruct bs as [|b r]; [by destruct m|].
    destruct m as [|m]; simpl in Hm; [lia|].
    cbn [utf8_decode_fuel].
    destruct (next_char (b :: r)) as [[c rest]|] eqn:Hc; [|done].
    apply next_char_shrinks in Hc. simpl in *.
    rewrite (IH m rest) by lia. done.
Qed.

Lemma utf8_decode_cons b r :
  utf8_decode (b :: r) =
    match next_char (b :: r) with
    | Some (c, rest) => (c ::.) <$> utf8_decode rest
    | None => None
    end.
Proof.
  unfold utf8_decode at 1. cbn [length utf8_decode_fuel].
  destruct (next_char (b :: r)) as [[c rest]|] eqn:Hc; [|done].
  apply next_char_shrinks in Hc. simpl in Hc.
  unfold utf8_decode. rewrite (utf8_decode_fuel_enough rest (length r) (length rest)) by lia.
  by destruct (utf8_decode_fuel _ rest).
Qed.

Lemma trim_start_id cs : trim_start cs = cs ↔ (∀ c, head cs = Some c → is_whitespace c = false).
Proof.
  assert (∀ l, length (trim_start l) <= length l)%nat as Hle.
  { intros l. induction l as [|a l IH]; simpl; [done|]. destruct (is_whitespace a); simpl; lia. }
  destruct cs as [|c cs]; simpl; [naive_solver|].
  destruct (is_whitespace c) eqn:Hw; split; intros H.
  - pose proof (Hle cs). apply (f_equal length) in H. simpl in H. lia.
  - specialize (H c eq_refl). congruence.
  - intros c' [= <-]. done.
  - done.
Qed.

Lemma trim_start_suffix cs : ∃ k, cs = k ++ trim_start cs.
Proof.
  induction cs as [|c cs [k IH]]; simpl; [by exists []|].
  destruct (is_whitespace c); [|by exists []].
  exists (c :: k). simpl. by rewrite <-IH.
Qed.

(** Trimming is the identity exactly when neither end is white space. *)
Lemma trim_id cs :
  trim cs = cs ↔ (∀ c, head cs = Some c ∨ last cs = Some c → is_whitespace c = false).
Proof.
  unfold trim. split.
  - intros H.
    assert (trim_start cs = cs) as H1.
    { destruct (trim_start_suffix cs) as [k Hk].
      destruct (trim_start_suffix (reverse (trim_start cs))) as [k' Hk'].
      apply (f_equal length) in Hk, Hk', H.
      rewrite length_reverse in H, Hk'. rewrite !length_app in *.
      destruct (trim_start_suffix cs) as [[|a k2] Hk2]; [done|].
      apply (f_equal length) in Hk2. rewrite length_app in Hk2. simpl in Hk2. lia. }
    rewrite H1 in H. rewrite trim_start_id in H1.
    apply (f_equal reverse) in H. rewrite reverse_involutive in H.
    rewrite trim_start_id in H. intros c [Hc|Hc]; [by apply H1|].
    apply H. by rewrite head_reverse.
  - intros H. assert (trim_start cs = cs) as ->.
    { apply trim_start_id. intros c Hc. apply H. by left. }
    assert (trim_start (reverse cs) = reverse cs) as ->.
    { apply trim_start_id. intros c Hc. apply H. right. by rewrite head_reverse in Hc. }
    apply reverse_involutive.
Qed.

Lemma has_surrounding_ws_false s :
  has_surrounding_ws s = false ↔
  (∀ c, head (chars s) = Some c ∨ last (chars s) = Some c → is_whitespace c = false).
Proof. unfold has_surrounding_ws. rewrite negb_false_iff, bool_decide_eq_true. apply trim_id. Qed.

Lemma contains_char_false s c : contains_char s c = false ↔ c ∉ chars s.
Proof.
  unfold contains_char. rewrite existsb_false. split.
  - intros H Hin. specialize (H c Hin). lia.
  - intros H x Hx. apply Z.eqb_neq. intros <-. done.
Qed.

Lemma validate_wire_len_ok f s u : validate_wire_len f s = Ok u ↔ blen s <= MAX_WIRE_TEXT_BYTES.
Proof. unfold validate_wire_len. rewrite guard_err_ok. lia. Qed.

Lemma seq_ok {E} (m : res E unit) (k : res E unit) u :
  (m ;? k) = Ok u ↔ m = Ok tt ∧ k = Ok u.
Proof. rewrite bind_ok. split; [intros ([] & ? & ?)|intros [? ?]; exists tt]; done. Qed.

(** A name validator never panics: it is a chain of guards. *)
Lemma safe_seq {E} (m k : res E unit) (Q : unit → Prop) :
  safe m (fun _ => True) → safe k Q → safe (m ;? k) Q.
Proof. intros. by eapply safe_bind. Qed.

Ltac safe_guards :=
  repeat first
    [ apply safe_seq
    | apply safe_guard_err; auto
    | progress unfold validate_wire_len, validate_call_route_key, validate_crm_tag,
        validate_contract_text_field, validate_route_text_field, validate_contract_hash,
        validate_server_id, validate_id, validate_route_uid ].

Lemma validate_call_route_key_safe f s : safe (validate_call_route_key f s) (fun _ => True).
Proof. safe_guards. Qed.
Lemma validate_crm_tag_safe a b c : safe (validate_crm_tag a b c) (fun _ => True).
Proof. safe_guards. Qed.
Lemma validate_contract_hash_safe f s : safe (validate_contract_hash f s) (fun _ => True).
Proof. safe_guards. Qed.
Lemma validate_server_id_safe s : safe (validate_server_id s) (fun _ => True).
Proof. safe_guards. Qed.
Lemma validate_route_uid_safe s : safe (validate_route_uid s) (fun _ => True).
Proof. safe_guards. Qed.
#[export] Hint Resolve validate_call_route_key_safe validate_crm_tag_safe
  validate_contract_hash_safe validate_server_id_safe validate_route_uid_safe : c2.

Lemma valid_text_route s :
  valid_text [ch_backslash] s ↔
    s ≠ [] ∧ blen s <= MAX_WIRE_TEXT_BYTES ∧ has_surrounding_ws s = false
    ∧ any_control s = false ∧ contains_char s ch_backslash = false.
Proof.
  unfold valid_text, any_control. rewrite has_surrounding_ws_false, contains_char_false, existsb_false.
  set_solver.
Qed.

Lemma valid_text_contract s :
  valid_text [ch_slash; ch_backslash] s ↔
    s ≠ [] ∧ blen s <= MAX_WIRE_TEXT_BYTES ∧ has_surrounding_ws s = false
    ∧ any_control s = false
    ∧ contains_char s ch_slash || contains_char s ch_backslash = false.
Proof.
  unfold valid_text, any_control.
  rewrite has_surrounding_ws_false, orb_false_iff, !contains_char_false, existsb_false.
  set_solver.
Qed.

Lemma validate_contract_text_field_ok f s :
  validate_contract_text_field f s = Ok tt ↔ valid_text [ch_slash; ch_backslash] s.
Proof.
  unfold validate_contract_text_field.
  rewrite !seq_ok, !guard_err_ok, validate_wire_len_ok, bool_decide_eq_false, valid_text_contract.
  done.
Qed.

Lemma validate_call_route_key_ok f s :
  validate_call_route_key f s = Ok tt ↔ valid_text [ch_backslash] s.
Proof.
  unfold validate_call_route_key, validate_route_text_field.
  rewrite !seq_ok, !guard_err_ok, validate_wire_len_ok, bool_decide_eq_false, valid_text_route.
  done.
Qed.

Lemma validate_crm_tag_ok a b c :
  validate_crm_tag a b c = Ok tt ↔
    valid_text [ch_slash; ch_backslash] a ∧ valid_text [ch_slash; ch_backslash] b
    ∧ valid_text [ch_slash; ch_backslash] c.
Proof. unfold validate_crm_tag. by rewrite !seq_ok, !validate_contract_text_field_ok. Qed.

(** A lower-case hexadecimal digit. *)
Definition lower_hex (b : byte) : Prop := 48 <= u8 b <= 57 ∨ 97 <= u8 b <= 102.

Lemma validate_contract_hash_ok f s :
  validate_contract_hash f s = Ok tt ↔ blen s = CONTRACT_HASH_HEX_BYTES ∧ Forall lower_hex s.
Proof.
  unfold validate_contract_hash. rewrite guard_err_ok, orb_false_iff, !negb_false_iff, Z.eqb_eq.
  apply and_iff_compat_l. rewrite forallb_forall, Forall_forall.
  setoid_rewrite list_elem_of_In.
  split; intros H b Hb; specialize (H b Hb);
    unfold is_ascii_hexdigit, is_ascii_uppercase, lower_hex in *; lia.
Qed.

Lemma validate_route_uid_ok s :
  validate_route_uid s = Ok tt ↔
    s ≠ [] ∧ blen s <= MAX_WIRE_TEXT_BYTES ∧ existsb uid_bad_byte s = false.
Proof.
  unfold validate_route_uid. by rewrite !seq_ok, !guard_err_ok, bool_decide_eq_false, Z.ltb_ge.
Qed.

(** A route contract is admitted exactly when its route name, CRM tag and
    hashes have the documented shape: bounded text with no white space at either
    end, no control characters and no separators (a route name may contain a
    slash), and 64 lower-case hexadecimal digits for each hash. *)
Theorem expected_route_contract_spec (e : ExpectedRouteContract) :
  validate_expected_route_contract e = Ok tt ↔
    valid_text [ch_backslash] (erc_route_name e)
    ∧ (valid_text [ch_slash; ch_backslash] (erc_crm_ns e)
       ∧ valid_text [ch_slash; ch_backslash] (erc_crm_name e)
       ∧ valid_text [ch_slash; ch_backslash] (erc_crm_ver e))
    ∧ (blen (erc_abi_hash e) = CONTRACT_HASH_HEX_BYTES ∧ Forall lower_hex (erc_abi_hash e))
    ∧ (blen (erc_signature_hash e) = CONTRACT_HASH_HEX_BYTES ∧ Forall lower_hex (erc_signature_hash e)).
Proof.
  unfold validate_expected_route_contract.
  by rewrite !seq_ok, validate_call_route_key_ok, validate_crm_tag_ok, !validate_contract_hash_ok.
Qed.
