(* ===== verification/Frame.v ===== *)
(** The frame envelope of the IPC wire protocol:
    [core/protocol/c2-wire/src/flags.rs], [frame.rs] and [msg_type.rs]. *)

From S2P Require Import Prelude Text.

(** ** Flags (flags.rs) *)

Definition FLAG_RESPONSE : Z := Z.shiftl 1 1.
Definition FLAG_HANDSHAKE : Z := Z.shiftl 1 2.
Definition FLAG_CTRL : Z := Z.shiftl 1 4.
Definition FLAG_BUDDY : Z := Z.shiftl 1 6.
Definition FLAG_CALL_V2 : Z := Z.shiftl 1 7.
Definition FLAG_REPLY_V2 : Z := Z.shiftl 1 8.
Definition FLAG_CHUNKED : Z := Z.shiftl 1 9.
Definition FLAG_CHUNK_LAST : Z := Z.shiftl 1 10.
Definition FLAG_SIGNAL : Z := Z.shiftl 1 11.

Definition is_response (flags : Z) : bool := negb (Z.land flags FLAG_RESPONSE =? 0).
Definition is_handshake (flags : Z) : bool := negb (Z.land flags FLAG_HANDSHAKE =? 0).
Definition is_ctrl (flags : Z) : bool := negb (Z.land flags FLAG_CTRL =? 0).
Definition is_buddy (flags : Z) : bool := negb (Z.land flags FLAG_BUDDY =? 0).
Definition is_call_v2 (flags : Z) : bool := negb (Z.land flags FLAG_CALL_V2 =? 0).
Definition is_reply_v2 (flags : Z) : bool := negb (Z.land flags FLAG_REPLY_V2 =? 0).
Definition is_signal_flag (flags : Z) : bool := negb (Z.land flags FLAG_SIGNAL =? 0).
Definition is_chunked (flags : Z) : bool := negb (Z.land flags FLAG_CHUNKED =? 0).
Definition is_chunk_last (flags : Z) : bool := negb (Z.land flags FLAG_CHUNK_LAST =? 0).

(** ** Frame header (frame.rs) *)

Definition HEADER_SIZE : Z := 16.

Record FrameHeader := {
  total_len : Z;   (* u32 *)
  request_id : Z;  (* u64 *)
  flags : Z        (* u32 *) }.

Definition body_len (h : FrameHeader) : Z := total_len h.

Definition payload_len (h : FrameHeader) : Z :=
  if 12 <=? total_len h then total_len h - 12 else 0.

(** [DecodeError]; [Reason] is the structured value behind an [InvalidText]
    reason string. *)
Inductive Reason :=
| RText (text : string)
| RContract (e : ContractError)
| RId (e : IdError)
| RUid (e : UidError).

Inductive DecodeError :=
| BufferTooShort (need have : Z)
| Truncated (field : string) (need have : Z)
| InvalidValue (field : string) (value : Z)
| InvalidText (field : string) (reason : Reason)
| Utf8Error.

Definition encode_frame_parts (request_id frame_flags : Z) (parts : list bytes) : bytes :=
  let payload_len := foldr (fun part n => blen part + n) 0 parts in
  let total_len := wrap_u32 (12 + payload_len) in
  to_le 4 total_len ++ to_le 8 request_id ++ to_le 4 frame_flags ++ concat parts.

Definition encode_frame (request_id frame_flags : Z) (payload : bytes) : bytes :=
  encode_frame_parts request_id frame_flags [payload].

Definition decode_total_len (buf : bytes) : res DecodeError (Z * bytes) :=
  guard_err (blen buf <? 4) (BufferTooShort 4 (blen buf)) ;?
  let? total_len := read_le 4 buf 0 in
  let? rest := slice buf 4 (blen buf) in
  Ok (total_len, rest).

Definition decode_frame_body (body : bytes) (total_len : Z) : res DecodeError (FrameHeader * bytes) :=
  guard_err (blen body <? 12) (BufferTooShort 12 (blen body)) ;?
  let? request_id := read_le 8 body 0 in
  let? frame_flags := read_le 4 body 8 in
  let? payload := slice body 12 (blen body) in
  Ok ({| total_len := total_len; request_id := request_id; flags := frame_flags |}, payload).

Definition decode_frame (buf : bytes) : res DecodeError (FrameHeader * bytes) :=
  let? '(total_len, body) := decode_total_len buf in
  let expected := total_len in
  guard_err (blen body <? expected) (Truncated "frame body" expected (blen body)) ;?
  let? frame := slice body 0 expected in
  decode_frame_body frame total_len.

(** ** Message types (msg_type.rs) *)

Inductive MsgType :=
| Ping | Pong | CrmCall | CrmReply | ShutdownClient | ShutdownAck | Disconnect | DisconnectAck
| PendingRouteAttest | PendingRouteAttestAck | RouteList | RouteListAck | RouteLookup
| RouteLookupAck | RouteNackMsg | Release.

#[export] Instance MsgType_eq_dec : EqDecision MsgType.
Proof. solve_decision. Defined.

Definition as_byte (t : MsgType) : Z :=
  match t with
  | Ping => 0x01
  | Pong => 0x02
  | CrmCall => 0x03
  | CrmReply => 0x04
  | ShutdownClient => 0x05
  | ShutdownAck => 0x07
  | Disconnect => 0x08
  | DisconnectAck => 0x09
  | PendingRouteAttest => 0x0A
  | PendingRouteAttestAck => 0x0B
  | RouteList => 0x0E
  | RouteListAck => 0x0F
  | RouteLookup => 0x10
  | RouteLookupAck => 0x11
  | RouteNackMsg => 0x15
  | Release => 0x17
  end.

Definition from_byte (b : Z) : option MsgType :=
  match b with
  | 0x01 => Some Ping
  | 0x02 => Some Pong
  | 0x03 => Some CrmCall
  | 0x04 => Some CrmReply
  | 0x05 => Some ShutdownClient
  | 0x07 => Some ShutdownAck
  | 0x08 => Some Disconnect
  | 0x09 => Some DisconnectAck
  | 0x0A => Some PendingRouteAttest
  | 0x0B => Some PendingRouteAttestAck
  | 0x0E => Some RouteList
  | 0x0F => Some RouteListAck
  | 0x10 => Some RouteLookup
  | 0x11 => Some RouteLookupAck
  | 0x15 => Some RouteNackMsg
  | 0x17 => Some Release
  | _ => None
  end.

Definition is_signal (t : MsgType) : bool :=
  match t with
  | Ping | Pong | ShutdownClient | ShutdownAck | Disconnect | DisconnectAck => true
  | _ => false
  end.

Definition SIGNAL_SIZE : Z := 1.
Definition PING_BYTES : bytes := [byte.of_Z (as_byte Ping)].
Definition PONG_BYTES : bytes := [byte.of_Z (as_byte Pong)].
Definition SHUTDOWN_CLIENT_BYTES : bytes := [byte.of_Z (as_byte ShutdownClient)].
Definition SHUTDOWN_ACK_BYTES : bytes := [byte.of_Z (as_byte ShutdownAck)].
Definition DISCONNECT_BYTES : bytes := [byte.of_Z (as_byte Disconnect)].
Definition DISCONNECT_ACK_BYTES : bytes := [byte.of_Z (as_byte DisconnectAck)].

(** ** Lemmas *)

(** A header whose fields fit their machine widths. *)
Definition header_fits (rid fl : Z) (payload : bytes) : Prop :=
  0 <= rid < 2 ^ 64 ∧ 0 <= fl < 2 ^ 32 ∧ 12 + blen payload < 2 ^ 32.

Lemma parts_len (parts : list bytes) :
  foldr (fun part n => blen part + n) 0 parts = blen (concat parts).
Proof. induction parts; simpl; [done|]. rewrite IHparts. by rewrite blen_app. Qed.

Lemma encode_frame_parts_concat rid fl parts :
  encode_frame_parts rid fl parts = encode_frame rid fl (concat parts).
Proof.
  unfold encode_frame, encode_frame_parts. rewrite !parts_len.
  simpl. by rewrite !app_nil_r.
Qed.

Lemma encode_frame_eq rid fl payload :
  encode_frame rid fl payload =
    to_le 4 (wrap_u32 (12 + blen payload)) ++ to_le 8 rid ++ to_le 4 fl ++ payload.
Proof. unfold encode_frame, encode_frame_parts. simpl. by rewrite Z.add_0_r, app_nil_r. Qed.

Lemma blen_encode_frame rid fl payload : blen (encode_frame rid fl payload) = HEADER_SIZE + blen payload.
Proof. rewrite encode_frame_eq. unfold HEADER_SIZE. blen_solve. Qed.

(** Decoding any 16-byte header followed by enough bytes: the length field alone
    decides where the payload ends. *)
Lemma decode_frame_head t rid fl rest :
  0 <= rid < 2 ^ 64 → 0 <= fl < 2 ^ 32 → 0 <= t < 2 ^ 32 → t <= 12 + blen rest →
  decode_frame (to_le 4 t ++ to_le 8 rid ++ to_le 4 fl ++ rest) =
    if t <? 12 then Err (BufferTooShort 12 t)
    else Ok ({| total_len := t; request_id := rid; flags := fl |}, take (Z.to_nat (t - 12)) rest).
Proof.
  intros Hr Hf Ht Hl.
  pose proof (at_off_whole (to_le 4 t ++ to_le 8 rid ++ to_le 4 fl ++ rest)) as Hat.
  rewrite at_off_app in Hat. destruct Hat as [Hat4 Hbody]. rewrite blen_to_le in Hbody.
  change (0 + Z.of_nat 4) with 4 in Hbody.
  unfold decode_frame, decode_total_len.
  rewrite (proj2 (Z.ltb_ge _ _)) by blen_solve. cbn [guard_err res_bind].
  rewrite (read_le_at_off_small _ _ _ _ Hat4) by (norm_pow; lia). cbn [res_bind].
  rewrite (slice_at_off _ _ _ _ Hbody) by blen_solve. cbn [res_bind].
  rewrite (proj2 (Z.ltb_ge _ _)) by blen_solve. cbn [guard_err res_bind].
  set (body := to_le 8 rid ++ to_le 4 fl ++ rest).
  assert (slice (E:=DecodeError) body 0 t = Ok (take (Z.to_nat t) body)) as ->.
  { unfold slice. destruct (_ && _) eqn:Hb; [by rewrite Z.sub_0_r, drop_0|].
    subst body. autorewrite with blen in Hb. pose proof (blen_nonneg rest). rewrite !andb_false_iff, !Z.leb_gt in Hb. lia. }
  cbn [res_bind]. unfold decode_frame_body.
  assert (blen (take (Z.to_nat t) body) = t) as Hlen.
  { subst body. unfold blen in *. rewrite length_take, !length_app.
    rewrite (length_le_split 8), (length_le_split 4). lia. }
  rewrite Hlen. destruct (Z.ltb_spec t 12); [done|]. cbn [guard_err res_bind].
  assert (take (Z.to_nat t) body = to_le 8 rid ++ to_le 4 fl ++ take (Z.to_nat (t - 12)) rest) as Htk.
  { subst body. rewrite !take_app, !(length_le_split 8), !(length_le_split 4).
    rewrite (take_ge (le_split 8 rid)), (take_ge (le_split 4 fl)) by (rewrite length_le_split; lia).
    repeat f_equal. lia. }
  rewrite Htk in Hlen |- *.
  pose proof (at_off_whole (to_le 8 rid ++ to_le 4 fl ++ take (Z.to_nat (t - 12)) rest)) as Hw.
  at_split Hw.
  rewrite (read_le_at_off_small _ _ _ _ Hat) by (norm_pow; lia). cbn [res_bind].
  rewrite (read_le_at_off_small _ _ _ _ Hat0) by (norm_pow; lia). cbn [res_bind].
  by rewrite (slice_at_off _ _ _ _ Hw) by blen_solve.
Qed.

Lemma decode_frame_encode rid fl payload rest :
  header_fits rid fl payload →
  decode_frame (encode_frame rid fl payload ++ rest) =
    Ok ({| total_len := 12 + blen payload; request_id := rid; flags := fl |}, payload).
Proof.
  intros (Hr & Hf & Hl). rewrite encode_frame_eq, <-!app_assoc.
  unfold wrap_u32. rewrite Z.mod_small by blen_solve.
  rewrite decode_frame_head by blen_solve.
  rewrite (proj2 (Z.ltb_ge _ _)) by blen_solve.
  rewrite take_app_le by (unfold blen; lia). rewrite take_ge by (unfold blen; lia). done.
Qed.

Lemma decode_frame_sound buf h payload :
  decode_frame buf = Ok (h, payload) →
  header_fits (request_id h) (flags h) payload ∧ total_len h = 12 + blen payload
  ∧ ∃ rest, buf = encode_frame (request_id h) (flags h) payload ++ rest.
Proof.
  unfold decode_frame. intros H. apply bind_ok in H as ([t body] & Ht & H).
  unfold decode_total_len in Ht. res_inv Ht. injection Ht as -> ->.
  res_inv H. unfold decode_frame_body in H. res_inv H. injection H as <- <-.
  res_sat. norm_pow. cbn [total_len request_id flags] in *.
  assert (v1 = to_le 8 v3 ++ to_le 4 v4 ++ v5) as ->.
  { apply at_off_full; [at_solve|blen_solve]. }
  apply at_off_prefix in H7 as [rest ->].
  split; [split_and!; blen_solve|]. split; [blen_solve|]. exists rest.
  rewrite encode_frame_eq. unfold wrap_u32. rewrite Z.mod_small by blen_solve.
  replace t with (12 + blen v5) in H3 by blen_solve.
  apply at_off_full; [|blen_solve].
  rewrite <-!app_assoc. rewrite <-!app_assoc in H9. rewrite at_off_app, blen_to_le. done.
Qed.

Lemma decode_frame_safe buf : safe (decode_frame buf) (fun _ => True).
Proof.
  unfold decode_frame, decode_total_len, decode_frame_body.
  eapply (safe_bind _ _ (fun p => 0 <= p.1)).
  { eapply safe_bind; [apply (safe_guard_err _ _ (fun _ => 4 <= blen buf)); lia|].
    intros [] ?. eapply safe_bind; [apply safe_read_le; lia|]. intros t [? _].
    eapply safe_bind; [apply safe_slice; lia|]. intros rest _. simpl. lia. }
  intros [t body] Ht. simpl in Ht.
  eapply safe_bind; [apply (safe_guard_err _ _ (fun _ => t <= blen body)); lia|]. intros [] ?.
  eapply safe_bind; [apply safe_slice; lia|]. intros frame [_ Hfr].
  eapply safe_bind; [apply (safe_guard_err _ _ (fun _ => 12 <= blen frame)); lia|]. intros [] ?.
  eapply safe_bind; [apply safe_read_le; lia|]. intros ? _.
  eapply safe_bind; [apply safe_read_le; lia|]. intros ? _.
  eapply safe_bind; [apply safe_slice; lia|]. done.
Qed.

(** ** Properties *)

(** A buffer decodes to a frame exactly when it starts with that frame's
    encoding, written from the payload in any number of parts: the decoder inverts
    the encoder, accepts no other bytes, leaves what follows the frame alone, and
    never panics. *)
Theorem decode_frame_iff (buf : bytes) (h : FrameHeader) (payload : bytes) :
  decode_frame buf ≠ Panic ∧
  (decode_frame buf = Ok (h, payload) ↔
    header_fits (request_id h) (flags h) payload ∧ total_len h = 12 + blen payload
    ∧ ∃ parts rest, concat parts = payload
        ∧ buf = encode_frame_parts (request_id h) (flags h) parts ++ rest).
Proof.
  split; [eapply safe_not_panic, decode_frame_safe|]. split.
  - intros (Hfit & Ht & rest & ->)%decode_frame_sound. split_and!; [done|done|].
    exists [payload], rest. split; [apply app_nil_r|done].
  - intros (Hfit & Ht & parts & rest & <- & ->). rewrite encode_frame_parts_concat.
    rewrite decode_frame_encode by done. destruct h; simpl in *. by rewrite Ht.
Qed.

(** What the 32-bit length field does to a payload of any size: the encoder
    writes the body length modulo 2^32, so decoding returns the payload itself
    below 4 GiB - 12 bytes, and a proper prefix of it, or a too-short error, above. *)
Theorem frame_length_wraps (rid fl : Z) (payload : bytes) :
  0 <= rid < 2 ^ 64 → 0 <= fl < 2 ^ 32 →
  let t := (12 + blen payload) mod 2 ^ 32 in
  decode_frame (encode_frame rid fl payload) =
    if t <? 12 then Err (BufferTooShort 12 t)
    else Ok ({| total_len := t; request_id := rid; flags := fl |},
             take (Z.to_nat (t - 12)) payload).
Proof.
  intros Hr Hf t. rewrite encode_frame_eq. apply decode_frame_head; [done|done| |].
  - apply Z.mod_pos_bound. lia.
  - apply Z.mod_le; [|lia]. pose proof (blen_nonneg payload). lia.
Qed.

Lemma frame_length_wraps_witness :
  decode_frame (encode_frame 7 FLAG_CALL_V2 [Byte.x61; Byte.x62]) =
    Ok ({| total_len := 14; request_id := 7; flags := FLAG_CALL_V2 |}, [Byte.x61; Byte.x62]).
Proof.
  refine (frame_length_wraps 7 FLAG_CALL_V2 [Byte.x61; Byte.x62] _ _); unfold FLAG_CALL_V2; vm_compute; split; congruence.
Defined.

(** Message type bytes: [as_byte] and [from_byte] are inverse, so the
    discriminants are distinct and no unknown byte maps to a type. *)
Theorem msg_type_roundtrip (b : Z) (t : MsgType) : from_byte b = Some t ↔ b = as_byte t.
Proof.
  split.
  - unfold from_byte. intros H. repeat case_match; simplify_eq; done.
  - intros ->. by destruct t.
Qed.

(** Each frame predicate tests its own bit of the flag word and nothing else,
    for every flag word. *)
Theorem flag_predicates_test_one_bit (f : Z) :
  [is_response f; is_handshake f; is_ctrl f; is_buddy f; is_call_v2 f; is_reply_v2 f;
   is_chunked f; is_chunk_last f; is_signal_flag f]
  = Z.testbit f <$> [1; 2; 4; 6; 7; 8; 9; 10; 11].
Proof.
  simpl. repeat f_equal; apply land_bit; lia.
Qed.
