(* ===== verification/Codec.v ===== *)
(** Fixed-size payload codecs of c2-wire: the shared-memory pointer of a buddy
    payload (buddy.rs), the chunk headers (chunk/header.rs) and the one-byte
    shutdown signals (shutdown_control.rs).  [CodecLaws] states what a decoder at
    an offset promises; the variable-size codecs are instances of it as well. *)

From S2P Require Import Prelude.
From S2P Require Import Frame.

(** ** What a decoder promises

    [dec buf off] returns a value and the number of bytes it used.  It never
    panics, and it succeeds exactly where a well-formed value is written. *)
Class CodecLaws {A} (enc : A → bytes) (wf : A → Prop)
    (dec : bytes → Z → res DecodeError (A * Z)) : Prop := {
  codec_safe buf off : 0 <= off → safe (dec buf off) (fun _ => True);
  codec_exact buf off a n :
    0 <= off → dec buf off = Ok (a, n) ↔ wf a ∧ at_off buf off (enc a) ∧ n = blen (enc a) }.

Section codec_laws.
Context {A} {enc : A → bytes} {wf : A → Prop} {dec} `{!CodecLaws enc wf dec}.

Lemma codec_not_panic buf off : 0 <= off → dec buf off ≠ Panic.
Proof. intros Hoff. eapply safe_not_panic. by apply codec_safe. Qed.

Lemma codec_roundtrip a pre rest :
  wf a → dec (pre ++ enc a ++ rest) (blen pre) = Ok (a, blen (enc a)).
Proof.
  intros Hwf. apply codec_exact; [apply blen_nonneg|]. split_and!; [done| |done].
  apply at_off_mid.
Qed.

(** No encoding is a proper prefix of another, so a stream has one reading. *)
Lemma codec_prefix_free a b ra rb :
  wf a → wf b → enc a ++ ra = enc b ++ rb → a = b ∧ ra = rb.
Proof.
  intros Ha Hb Heq. pose proof (codec_roundtrip a [] ra Ha) as H1.
  pose proof (codec_roundtrip b [] rb Hb) as H2. simpl in *. rewrite Heq in H1.
  rewrite H1 in H2. by simplify_eq.
Qed.

Lemma codec_inj a b : wf a → wf b → enc a = enc b → a = b.
Proof.
  intros Ha Hb Heq. apply (codec_prefix_free a b [] []); [done..|]. by rewrite Heq.
Qed.
End codec_laws.

(** Run a decoder over bytes whose places are known. *)
Ltac at_pick :=
  match goal with
  | H : at_off ?b ?o ?x |- at_off ?b ?o' ?y => eapply (at_off_eq b o o' x H); first [lia | blen_solve]
  end.
Ltac rd_guard := rewrite (proj2 (Z.ltb_ge _ _)) by blen_solve; cbn [guard_err res_bind].
Ltac rd_le :=
  erewrite read_le_at_off_small; [cbn [res_bind] | at_pick | norm_pow; lia].

(** ** Buddy payload (buddy.rs) *)

Definition BUDDY_PAYLOAD_SIZE : Z := 23.
Definition SHM_KIND_BUDDY : Z := 0.
Definition SHM_KIND_DEDICATED : Z := 1.

Record BuddyPayload := {
  bp_seg_idx : Z;
  bp_generation : Z;
  bp_offset : Z;
  bp_data_size : Z;
  bp_is_dedicated : bool;
  bp_loan_id : Z }.

#[export] Instance BuddyPayload_eq_dec : EqDecision BuddyPayload.
Proof. solve_decision. Defined.

Definition encode_buddy_payload (bp : BuddyPayload) : bytes :=
  to_le 2 (bp_seg_idx bp) ++ to_le 4 (bp_generation bp) ++ to_le 4 (bp_offset bp)
  ++ to_le 4 (bp_data_size bp)
  ++ [byte.of_Z (if bp_is_dedicated bp then SHM_KIND_DEDICATED else SHM_KIND_BUDDY)]
  ++ to_le 8 (bp_loan_id bp).

Definition decode_buddy_payload (buf : bytes) : res DecodeError (BuddyPayload * Z) :=
  guard_err (blen buf <? BUDDY_PAYLOAD_SIZE) (BufferTooShort BUDDY_PAYLOAD_SIZE (blen buf)) ;?
  let? seg_idx := read_le 2 buf 0 in
  let? generation := read_le 4 buf 2 in
  let? offset := read_le 4 buf 6 in
  let? data_size := read_le 4 buf 10 in
  let? kind := index buf 14 in
  let? is_dedicated :=
    if u8 kind =? SHM_KIND_BUDDY then Ok false
    else if u8 kind =? SHM_KIND_DEDICATED then Ok true
    else Err (InvalidValue "SHM kind" (u8 kind)) in
  guard_err (generation =? 0) (InvalidValue "backing generation" generation) ;?
  let? loan_id := read_le 8 buf 15 in
  guard_err (loan_id =? 0) (InvalidValue "loan id" loan_id) ;?
  Ok ({| bp_seg_idx := seg_idx; bp_generation := generation; bp_offset := offset;
         bp_data_size := data_size; bp_is_dedicated := is_dedicated; bp_loan_id := loan_id |},
      BUDDY_PAYLOAD_SIZE).

(** The field widths of the struct, and the two fields that are never zero. *)
Definition buddy_payload_wf (bp : BuddyPayload) : Prop :=
  0 <= bp_seg_idx bp < 2 ^ 16 ∧ 0 < bp_generation bp < 2 ^ 32 ∧ 0 <= bp_offset bp < 2 ^ 32
  ∧ 0 <= bp_data_size bp < 2 ^ 32 ∧ 0 < bp_loan_id bp < 2 ^ 64.

(** ** Chunk headers (chunk/header.rs) *)

Definition CHUNK_HEADER_SIZE : Z := 4.

Definition encode_chunk_header (chunk_idx total_chunks : Z) : bytes :=
  to_le 2 chunk_idx ++ to_le 2 total_chunks.

Definition decode_chunk_header (buf : bytes) (offset : Z) : res DecodeError (Z * Z * Z) :=
  let remaining := saturating_sub (blen buf) offset in
  guard_err (remaining <? CHUNK_HEADER_SIZE) (BufferTooShort CHUNK_HEADER_SIZE remaining) ;?
  let? chunk_idx := read_le 2 buf offset in
  let? total_chunks := read_le 2 buf (offset + 2) in
  Ok (chunk_idx, total_chunks, CHUNK_HEADER_SIZE).

Definition REPLY_CHUNK_META_SIZE : Z := 16.

Definition encode_reply_chunk_meta (total_size total_chunks chunk_idx : Z) : bytes :=
  to_le 8 total_size ++ to_le 4 total_chunks ++ to_le 4 chunk_idx.

Definition decode_reply_chunk_meta (buf : bytes) (offset : Z)
    : res DecodeError (Z * Z * Z * Z) :=
  let remaining := saturating_sub (blen buf) offset in
  guard_err (remaining <? REPLY_CHUNK_META_SIZE) (BufferTooShort REPLY_CHUNK_META_SIZE remaining) ;?
  let? total_size := read_le 8 buf offset in
  let? total_chunks := read_le 4 buf (offset + 8) in
  let? chunk_idx := read_le 4 buf (offset + 12) in
  Ok (total_size, total_chunks, chunk_idx, REPLY_CHUNK_META_SIZE).

(** ** Shutdown signals (shutdown_control.rs) *)

Inductive ShutdownError := NotOneShutdownAckByte | NotOneShutdownClientByte.

Definition encode_shutdown_ack : bytes := SHUTDOWN_ACK_BYTES.
Definition decode_shutdown_ack (payload : bytes) : res ShutdownError unit :=
  guard_err (negb (bool_decide (payload = SHUTDOWN_ACK_BYTES))) NotOneShutdownAckByte.

Definition encode_shutdown_initiate : bytes := SHUTDOWN_CLIENT_BYTES.
Definition decode_shutdown_initiate (payload : bytes) : res ShutdownError unit :=
  guard_err (negb (bool_decide (payload = SHUTDOWN_CLIENT_BYTES))) NotOneShutdownClientByte.

(** ** Proofs *)

Lemma blen_encode_buddy_payload bp : blen (encode_buddy_payload bp) = BUDDY_PAYLOAD_SIZE.
Proof. unfold encode_buddy_payload. by autorewrite with blen. Qed.

Lemma safe_if_err {E A} (b : bool) (m k : res E A) Q :
  (b = true → safe m Q) → (b = false → safe k Q) → safe (if b then m else k) Q.
Proof. destruct b; auto. Qed.

Lemma decode_buddy_payload_safe buf : safe (decode_buddy_payload buf) (fun _ => True).
Proof.
  unfold decode_buddy_payload, BUDDY_PAYLOAD_SIZE.
  eapply safe_bind; [apply (safe_guard_err _ _ (fun _ => 23 <= blen buf)); lia|]. intros [] ?.
  do 4 (eapply safe_bind; [apply safe_read_le; lia|]; intros ? _).
  eapply safe_bind; [apply safe_index; lia|]. intros kind _.
  eapply (safe_bind _ _ (fun _ => True)); [by repeat case_match|]. intros d _.
  eapply (safe_bind _ _ (fun _ => True)); [by apply safe_guard_err|]. intros [] _.
  eapply safe_bind; [apply safe_read_le; lia|]; intros ? _.
  eapply (safe_bind _ _ (fun _ => True)); [by apply safe_guard_err|]. done.
Qed.

Lemma decode_buddy_payload_sound buf bp n :
  decode_buddy_payload buf = Ok (bp, n) →
  buddy_payload_wf bp ∧ n = BUDDY_PAYLOAD_SIZE ∧ ∃ rest, buf = encode_buddy_payload bp ++ rest.
Proof.
  unfold decode_buddy_payload. intros H. res_inv H. res_sat. simplify_eq.
  norm_pow. unfold buddy_payload_wf; cbn. split; [lia|]. split; [done|].
  apply at_off_prefix. unfold encode_buddy_payload; cbn.
  match goal with H : at_off _ 14 [?b] |- context [byte.of_Z ?z] =>
    assert (byte.of_Z z = b) as ->;
      [rewrite <-(of_Z_u8 b); unfold SHM_KIND_BUDDY, SHM_KIND_DEDICATED in *; repeat case_match; simplify_eq; f_equal; lia|]
  end.
  at_solve.
Qed.

Lemma decode_buddy_payload_encode bp rest :
  buddy_payload_wf bp →
  decode_buddy_payload (encode_buddy_payload bp ++ rest) = Ok (bp, BUDDY_PAYLOAD_SIZE).
Proof.
  intros (Hs & Hg & Ho & Hd & Hl). unfold decode_buddy_payload, BUDDY_PAYLOAD_SIZE.
  pose proof (proj2 (at_off_prefix _ _) (ex_intro _ rest eq_refl) : at_off (encode_buddy_payload bp ++ rest) 0 _) as Hat.
  remember (encode_buddy_payload bp ++ rest) as buf.
  pose proof (at_off_bounds _ _ _ Hat). rewrite blen_encode_buddy_payload in H. unfold BUDDY_PAYLOAD_SIZE in *.
  unfold encode_buddy_payload in Hat. clear Heqbuf. at_split Hat.
  rd_guard. do 4 rd_le. rewrite (index_at_off _ _ _ Hat4). cbn [res_bind].
  rewrite u8_of_Z by (destruct (bp_is_dedicated bp); unfold SHM_KIND_BUDDY, SHM_KIND_DEDICATED; lia).
  rewrite (proj2 (Z.eqb_neq (bp_generation bp) 0)) by lia.
  destruct bp as [? ? ? ? [] ?]; cbn in *; rd_le;
    by rewrite (proj2 (Z.eqb_neq _ _)) by lia.
Qed.

#[export] Instance chunk_header_codec :
  CodecLaws (uncurry encode_chunk_header)
    (fun '(i, t) => 0 <= i < 2 ^ 16 ∧ 0 <= t < 2 ^ 16) decode_chunk_header.
Proof.
  split; unfold decode_chunk_header, saturating_sub, CHUNK_HEADER_SIZE.
  - intros buf off ?.
    eapply safe_bind; [apply (safe_guard_err _ _ (fun _ => 4 <= blen buf - off)); lia|]. intros [] ?.
    do 2 (eapply safe_bind; [apply safe_read_le; lia|]; intros ? _). done.
  - intros buf off [i t] n ?. simpl. unfold encode_chunk_header. split.
    + intros H'. res_inv H'. res_sat. simplify_eq. norm_pow. split; [lia|]. split; [at_solve|done].
    + intros ((Hi & Ht) & Hat & ->). pose proof (at_off_bounds _ _ _ Hat). at_split Hat.
      rd_guard. do 2 rd_le. done.
Qed.

#[export] Instance reply_chunk_meta_codec :
  CodecLaws (fun '(s, t, i) => encode_reply_chunk_meta s t i)
    (fun '(s, t, i) => 0 <= s < 2 ^ 64 ∧ 0 <= t < 2 ^ 32 ∧ 0 <= i < 2 ^ 32) decode_reply_chunk_meta.
Proof.
  split; unfold decode_reply_chunk_meta, saturating_sub, REPLY_CHUNK_META_SIZE.
  - intros buf off ?.
    eapply safe_bind; [apply (safe_guard_err _ _ (fun _ => 16 <= blen buf - off)); lia|]. intros [] ?.
    do 3 (eapply safe_bind; [apply safe_read_le; lia|]; intros ? _). done.
  - intros buf off [[s t] i] n ?. unfold encode_reply_chunk_meta. split.
    + intros H'. res_inv H'. res_sat. simplify_eq. norm_pow. split; [lia|]. split; [at_solve|done].
    + intros ((Hs & Hi & Ht) & Hat & ->). pose proof (at_off_bounds _ _ _ Hat). at_split Hat.
      rd_guard. do 3 rd_le. done.
Qed.

(** ** Properties *)

(** The 23-byte shared-memory pointer: decoding succeeds exactly on the
    encodings of payloads with a nonzero backing generation and a nonzero loan id,
    returns the payload and the bytes used, and never panics, so no pointer to
    generation or loan zero enters the receiver. *)
Theorem buddy_payload_exact (buf : bytes) (bp : BuddyPayload) (n : Z) :
  decode_buddy_payload buf ≠ Panic ∧
  (decode_buddy_payload buf = Ok (bp, n) ↔
    buddy_payload_wf bp ∧ n = BUDDY_PAYLOAD_SIZE ∧ ∃ rest, buf = encode_buddy_payload bp ++ rest).
Proof.
  split; [eapply safe_not_panic, decode_buddy_payload_safe|]. split.
  - apply decode_buddy_payload_sound.
  - intros (? & -> & rest & ->). by apply decode_buddy_payload_encode.
Qed.

(** Chunk headers and reply chunk metadata: at any offset, each decoder
    succeeds exactly where its encoder's bytes stand, whatever surrounds them, and
    never panics, also for offsets past the end. *)
Theorem chunk_headers_exact (buf : bytes) (off a b s n : Z) :
  0 <= off →
  (decode_chunk_header buf off = Ok (a, b, n) ↔
    (0 <= a < 2 ^ 16 ∧ 0 <= b < 2 ^ 16) ∧ at_off buf off (encode_chunk_header a b) ∧ n = 4)
  ∧ (decode_reply_chunk_meta buf off = Ok (s, a, b, n) ↔
    (0 <= s < 2 ^ 64 ∧ 0 <= a < 2 ^ 32 ∧ 0 <= b < 2 ^ 32)
    ∧ at_off buf off (encode_reply_chunk_meta s a b) ∧ n = 16)
  ∧ decode_chunk_header buf off ≠ Panic ∧ decode_reply_chunk_meta buf off ≠ Panic.
Proof.
  intros Hoff. split_and!.
  - by rewrite (codec_exact (dec:=decode_chunk_header) buf off (a, b) n Hoff).
  - by rewrite (codec_exact (dec:=decode_reply_chunk_meta) buf off (s, a, b) n Hoff).
  - by apply codec_not_panic.
  - by apply codec_not_panic.
Qed.

Lemma chunk_headers_exact_witness :
  let buf := Byte.x00 :: encode_chunk_header 3 9 in decode_chunk_header buf 1 = Ok (3, 9, 4).
Proof.
  intros buf. apply (chunk_headers_exact buf 1 3 9 0 4); [lia|]. split; [lia|]. split; [|done].
  apply (at_off_mid [Byte.x00] (encode_chunk_header 3 9) []).
Defined.
