(* ===== verification/Control.v ===== *)
(** Call and reply control of c2-wire (control.rs): the routing metadata that
    travels in front of a call or reply payload. *)

From S2P Require Import Prelude.
From S2P Require Import Text.
From S2P Require Import Frame.
From S2P Require Import Codec.

(** ** Data *)

Inductive EncodeError :=
| EncFieldTooLong (field : string) (max actual : Z)
| EncInvalidText (field : string) (reason : Reason)
| EncBufferTooShort (field : string) (need have : Z).

Definition STATUS_SUCCESS : Z := 0.
Definition STATUS_ERROR : Z := 1.
Definition STATUS_ROUTE_NOT_FOUND : Z := 2.

Record RouteCallIdentity := {
  route_name : str;
  route_uid : str;
  crm_ns : str;
  crm_name : str;
  crm_ver : str;
  abi_hash : str;
  signature_hash : str }.

Record CallControl := { identity : RouteCallIdentity; method_idx : Z }.

Definition identity_fields (i : RouteCallIdentity) : list str :=
  [route_name i; route_uid i; crm_ns i; crm_name i; crm_ver i; abi_hash i; signature_hash i].

Definition CALL_TEXT_FIELDS : list string :=
  ["route_name"; "route_uid"; "crm_ns"; "crm_name"; "crm_ver"; "abi_hash"; "signature_hash"]%string.

(** ** Text fields *)

Definition text_length (field : string) (value : str) : res EncodeError Z :=
  if blen value <=? U8_MAX then Ok (blen value)
  else Err (EncFieldTooLong field U8_MAX (blen value)).

Definition push_text (buf : bytes) (field : string) (value : str) : res EncodeError bytes :=
  let? len := text_length field value in
  Ok ((buf ++ [byte.of_Z len]) ++ value).

(** [value.len() as u8] is the conversion [byte.of_Z]. *)
Definition write_text (buf : bytes) (offset : Z) (value : str) : res EncodeError (bytes * Z) :=
  let? buf := store buf offset [byte.of_Z (blen value)] in
  let start := offset + 1 in
  let end_ := start + blen value in
  let? buf := store buf start value in
  Ok (buf, end_).

Definition check_write_capacity (buf : bytes) (offset need : Z) (field : string)
    : res EncodeError unit :=
  let have := saturating_sub (blen buf) offset in
  guard_err (have <? need) (EncBufferTooShort field need have).

Definition check_remaining (buf : bytes) (offset need : Z) (field : string)
    : res DecodeError unit :=
  let remaining := saturating_sub (blen buf) offset in
  guard_err (remaining <? need) (Truncated field need remaining).

(** [read_text] returns the text and the advanced offset. *)
Definition read_text (buf : bytes) (offset : Z) (field : string) : res DecodeError (str * Z) :=
  check_remaining buf offset 1 field ;?
  let? b := index buf offset in
  let len := u8 b in
  let offset := offset + 1 in
  check_remaining buf offset len field ;?
  let? raw := slice buf offset (offset + len) in
  let? value := from_utf8 raw Utf8Error in
  let offset := offset + len in
  guard_err (bool_decide (value = [])) (InvalidText field (RText "must not be empty")) ;?
  Ok (value, offset).

(** ** Call control *)

Definition encoded_call_control_len (i : RouteCallIdentity) : Z :=
  7 + 2 + foldr (fun value n => blen value + n) 0 (identity_fields i).

Fixpoint push_texts (buf : bytes) (fields : list (string * str)) : res EncodeError bytes :=
  match fields with
  | [] => Ok buf
  | (field, value) :: rest => let? buf := push_text buf field value in push_texts buf rest
  end.

Definition encode_call_control (i : RouteCallIdentity) (method_idx : Z) : res EncodeError bytes :=
  let? buf := push_texts [] (zip CALL_TEXT_FIELDS (identity_fields i)) in
  Ok (buf ++ to_le 2 method_idx).

Fixpoint check_text_lengths (fields : list (string * str)) : res EncodeError unit :=
  match fields with
  | [] => Ok tt
  | (field, value) :: rest => let? _ := text_length field value in check_text_lengths rest
  end.

Fixpoint write_texts (buf : bytes) (cursor : Z) (values : list str) : res EncodeError (bytes * Z) :=
  match values with
  | [] => Ok (buf, cursor)
  | value :: rest => let? '(buf, cursor) := write_text buf cursor value in write_texts buf cursor rest
  end.

(** The caller's buffer is part of the result; both error returns precede the
    first write, so on [Err] the buffer is the caller's own. *)
Definition encode_call_control_into (buf : bytes) (offset : Z) (i : RouteCallIdentity)
    (method_idx : Z) : res EncodeError (bytes * Z) :=
  check_text_lengths (zip CALL_TEXT_FIELDS (identity_fields i)) ;?
  let len := encoded_call_control_len i in
  check_write_capacity buf offset len "call_control" ;?
  let? '(buf, cursor) := write_texts buf offset (identity_fields i) in
  let? buf := store buf cursor (to_le 2 method_idx) in
  Ok (buf, len).

Definition decode_call_control (buf : bytes) (offset : Z) : res DecodeError (CallControl * Z) :=
  let remaining := saturating_sub (blen buf) offset in
  guard_err (remaining <? 9) (BufferTooShort 9 remaining) ;?
  let cursor := offset in
  let? '(route_name, cursor) := read_text buf cursor "route_name" in
  map_err (fun e => InvalidText "route_name" (RContract e))
    (validate_call_route_key "route_name" route_name) ;?
  let? '(route_uid, cursor) := read_text buf cursor "route_uid" in
  map_err (fun e => InvalidText "route_uid" (RUid e)) (validate_route_uid route_uid) ;?
  let? '(crm_ns, cursor) := read_text buf cursor "crm_ns" in
  let? '(crm_name, cursor) := read_text buf cursor "crm_name" in
  let? '(crm_ver, cursor) := read_text buf cursor "crm_ver" in
  map_err (fun e => InvalidText "crm tag" (RContract e)) (validate_crm_tag crm_ns crm_name crm_ver) ;?
  let? '(abi_hash, cursor) := read_text buf cursor "abi_hash" in
  map_err (fun e => InvalidText "abi_hash" (RContract e))
    (validate_contract_hash "abi_hash" abi_hash) ;?
  let? '(signature_hash, cursor) := read_text buf cursor "signature_hash" in
  map_err (fun e => InvalidText "signature_hash" (RContract e))
    (validate_contract_hash "signature_hash" signature_hash) ;?
  check_remaining buf cursor 2 "method_idx" ;?
  let? method_idx := read_le 2 buf cursor in
  let cursor := cursor + 2 in
  Ok ({| identity := {| route_name := route_name; route_uid := route_uid; crm_ns := crm_ns;
                        crm_name := crm_name; crm_ver := crm_ver; abi_hash := abi_hash;
                        signature_hash := signature_hash |};
         method_idx := method_idx |}, cursor - offset).

(** ** Reply control *)

Inductive ReplyControl :=
| RSuccess
| RouteNotFound (route_name : str)
| RError (err_data : bytes).

Definition encode_reply_control (ctrl : ReplyControl) : bytes :=
  match ctrl with
  | RSuccess => [byte.of_Z STATUS_SUCCESS]
  | RouteNotFound route_name =>
      [byte.of_Z STATUS_ROUTE_NOT_FOUND] ++ to_le 4 (wrap_u32 (blen route_name)) ++ route_name
  | RError err_data =>
      [byte.of_Z STATUS_ERROR] ++ to_le 4 (wrap_u32 (blen err_data)) ++ err_data
  end.

Definition decode_reply_control (buf : bytes) (offset : Z) : res DecodeError (ReplyControl * Z) :=
  let remaining := saturating_sub (blen buf) offset in
  guard_err (remaining <? 1) (BufferTooShort 1 0) ;?
  let? status := index buf offset in
  if u8 status =? STATUS_SUCCESS then Ok (RSuccess, 1)
  else if u8 status =? STATUS_ERROR then
    guard_err (remaining <? 5) (Truncated "reply control error_len" 5 remaining) ;?
    let? err_len := read_le 4 buf (offset + 1) in
    let total := 5 + err_len in
    guard_err (remaining <? total) (Truncated "reply control error_data" total remaining) ;?
    let? err_data := slice buf (offset + 5) (offset + 5 + err_len) in
    Ok (RError err_data, total)
  else if u8 status =? STATUS_ROUTE_NOT_FOUND then
    guard_err (remaining <? 5) (Truncated "reply control route_len" 5 remaining) ;?
    let? route_len := read_le 4 buf (offset + 1) in
    let total := 5 + route_len in
    guard_err (remaining <? total) (Truncated "reply control route_name" total remaining) ;?
    let? raw := slice buf (offset + 5) (offset + 5 + route_len) in
    let? route_name := from_utf8 raw Utf8Error in
    map_err (fun e => InvalidText "route_name" (RContract e))
      (validate_call_route_key "route_name" route_name) ;?
    Ok (RouteNotFound route_name, total)
  else Err (InvalidValue "reply status" (u8 status)).

(** ** Well-formed values and their bytes *)

Definition text_field (s : str) : bytes := byte.of_Z (blen s) :: s.
#[global] Arguments text_field : simpl never.

(** A text that fits its length byte and is UTF-8, as every Rust [str] is. *)
Definition wire_text (s : str) : Prop := s ≠ [] ∧ blen s <= U8_MAX ∧ utf8_valid s = true.

Definition identity_wf (i : RouteCallIdentity) : Prop :=
  Forall wire_text (identity_fields i)
  ∧ validate_call_route_key "route_name" (route_name i) = Ok tt
  ∧ validate_route_uid (route_uid i) = Ok tt
  ∧ validate_crm_tag (crm_ns i) (crm_name i) (crm_ver i) = Ok tt
  ∧ validate_contract_hash "abi_hash" (abi_hash i) = Ok tt
  ∧ validate_contract_hash "signature_hash" (signature_hash i) = Ok tt.

Definition call_control_wf (c : CallControl) : Prop :=
  identity_wf (identity c) ∧ 0 <= method_idx c < 2 ^ 16.

Definition call_control_bytes (c : CallControl) : bytes :=
  concat (text_field <$> identity_fields (identity c)) ++ to_le 2 (method_idx c).

Definition reply_control_wf (r : ReplyControl) : Prop :=
  match r with
  | RSuccess => True
  | RouteNotFound name => utf8_valid name = true ∧ validate_call_route_key "route_name" name = Ok tt
  | RError data => blen data < 2 ^ 32
  end.

(** ** Text field lemmas *)

Lemma blen_text_field s : blen (text_field s) = 1 + blen s.
Proof. apply blen_cons. Qed.
#[export] Hint Rewrite blen_text_field : blen.

Lemma from_utf8_ok {E} bs (e : E) s : from_utf8 bs e = Ok s ↔ s = bs ∧ utf8_valid bs = true.
Proof. unfold from_utf8. destruct (utf8_valid bs); naive_solver. Qed.

Lemma safe_from_utf8 {E} bs (e : E) : safe (from_utf8 bs e) (fun s => s = bs ∧ utf8_valid bs = true).
Proof. unfold from_utf8. by destruct (utf8_valid bs) eqn:?. Qed.

Lemma safe_check_remaining buf off n f :
  0 <= off → safe (check_remaining buf off n f) (fun _ => n <= 0 ∨ off + n <= blen buf).
Proof. intros. apply safe_guard_err. unfold saturating_sub. lia. Qed.

Lemma read_text_safe buf off f :
  0 <= off → safe (read_text buf off f) (fun p => off <= p.2).
Proof.
  intros Hoff. unfold read_text.
  eapply safe_bind; [by apply safe_check_remaining|]. intros [] ?.
  eapply safe_bind; [apply safe_index; lia|]. intros b _. pose proof (u8_range b).
  eapply safe_bind; [apply safe_check_remaining; lia|]. intros [] ?.
  eapply safe_bind; [apply safe_slice; [lia|lia|]|].
  { pose proof (blen_nonneg buf). lia. }
  intros raw _. eapply safe_bind; [apply safe_from_utf8|]. intros s _.
  eapply (safe_bind _ _ (fun _ => True)); [by apply safe_guard_err|]. intros [] _. simpl. lia.
Qed.

Lemma read_text_ok buf off f s off' :
  read_text buf off f = Ok (s, off') →
  wire_text s ∧ at_off buf off (text_field s) ∧ off' = off + 1 + blen s.
Proof.
  unfold read_text, wire_text, text_field, U8_MAX. intros H. res_inv H. simplify_eq.
  match goal with H : from_utf8 _ _ = Ok _ |- _ => apply from_utf8_ok in H as [-> Hu] end.
  res_sat. match goal with H : at_off _ _ [?b] |- _ => pose proof (u8_range b) end.
  assert (u8 v0 = blen v2) as Hlen by lia.
  rewrite bool_decide_eq_false in *. split; [split_and!; [done|lia|done]|]. split; [|lia].
  rewrite <-Hlen, of_Z_u8. at_solve.
Qed.

Lemma read_text_at buf off f s :
  at_off buf off (text_field s) → wire_text s → read_text buf off f = Ok (s, off + 1 + blen s).
Proof.
  unfold read_text, check_remaining, saturating_sub, wire_text, text_field, U8_MAX.
  intros Hat (Hne & Hl & Hu). pose proof (at_off_bounds _ _ _ Hat) as Hb.
  autorewrite with blen in Hb. pose proof (blen_nonneg s).
  apply at_off_cons in Hat as [Hat1 Hat2].
  rd_guard. rewrite (index_at_off _ _ _ Hat1). cbn [res_bind]. rewrite u8_of_Z by lia.
  rd_guard. rewrite (slice_at_off _ _ _ _ Hat2) by lia. cbn [res_bind].
  unfold from_utf8. rewrite Hu. cbn [res_bind].
  by rewrite bool_decide_eq_false_2.
Qed.

(** ** Encoding *)

Lemma text_length_ok f s n : text_length f s = Ok n ↔ blen s <= U8_MAX ∧ n = blen s.
Proof. unfold text_length. destruct (Z.leb_spec (blen s) U8_MAX); split; intros; simplify_eq; naive_solver lia. Qed.

(** The push loop appends the fields, or stops at the first one that is too long. *)
Lemma push_texts_spec buf l :
  push_texts buf l = (check_text_lengths l ;? Ok (buf ++ concat (text_field <$> l.*2))).
Proof.
  revert buf. induction l as [|[f s] l IH]; intros buf; simpl; [by rewrite app_nil_r|].
  unfold push_text. destruct (text_length f s) as [n|e|] eqn:Hn; simpl; [|done..].
  apply text_length_ok in Hn as [_ ->]. rewrite IH.
  destruct (check_text_lengths l); simpl; [|done..].
  unfold text_field at 2. by rewrite <-!app_assoc.
Qed.

Lemma check_text_lengths_ok l u :
  check_text_lengths l = Ok u ↔ Forall (fun p => blen p.2 <= U8_MAX) l.
Proof.
  destruct u. induction l as [|[f s] l IH]; simpl; [by split; constructor|].
  rewrite bind_ok, Forall_cons, <-IH. setoid_rewrite text_length_ok. naive_solver.
Qed.

Lemma check_text_lengths_safe l : safe (check_text_lengths l) (fun _ => True).
Proof.
  induction l as [|[f s] l IH]; simpl; [done|]. eapply (safe_bind _ _ (fun _ => True)); [|done].
  unfold text_length. by case_match.
Qed.

Lemma write_texts_spec pre old post values :
  blen old = foldr (fun s n => 1 + blen s + n) 0 values →
  write_texts (pre ++ old ++ post) (blen pre) values =
    Ok (pre ++ concat (text_field <$> values) ++ post, blen pre + blen old).
Proof.
  revert pre old. induction values as [|s values IH]; intros pre old Hlen; simpl in *.
  { apply blen_0_nil in Hlen as ->. by rewrite blen_nil, Z.add_0_r. }
  assert (0 <= foldr (fun s n => 1 + blen s + n) 0 values) as Hpos.
  { clear. induction values; simpl; [lia|]. pose proof (blen_nonneg a). lia. }
  destruct old as [|o old]; [rewrite blen_nil in Hlen; pose proof (blen_nonneg s); lia|].
  rewrite blen_cons in *.
  rewrite <-(take_drop (length s) old) in Hlen |- *.
  set (old1 := take (length s) old) in *. set (old2 := drop (length s) old) in *.
  assert (blen old1 = blen s) as H1.
  { subst old1 old2. unfold blen in *. rewrite length_take. rewrite length_app, length_take, length_drop in Hlen. lia. }
  unfold write_text. rewrite blen_app in Hlen |- *.
  change (o :: (old1 ++ old2)) with ([o] ++ (old1 ++ old2)).
  rewrite <-!(app_assoc [o]), (store_mid pre [o]) by done. cbn [res_bind].
  rewrite <-!app_assoc.
  rewrite (app_assoc pre [_]), (store_mid _ old1) by blen_solve. cbn [res_bind].
  rewrite (app_assoc _ s (old2 ++ post)).
  replace (blen pre + 1 + blen s) with (blen ((pre ++ [byte.of_Z (blen s)]) ++ s)) by blen_solve.
  rewrite IH by lia. f_equal. unfold text_field at 2. f_equal; [|blen_solve].
  by rewrite <-!app_assoc.
Qed.

Lemma blen_call_control_bytes c :
  blen (call_control_bytes c) = encoded_call_control_len (identity c).
Proof.
  unfold call_control_bytes, encoded_call_control_len. simpl. blen_solve.
Qed.

Lemma encode_call_control_eq i idx :
  encode_call_control i idx =
    (check_text_lengths (zip CALL_TEXT_FIELDS (identity_fields i)) ;?
     Ok (call_control_bytes {| identity := i; method_idx := idx |})).
Proof.
  unfold encode_call_control. rewrite push_texts_spec.
  by destruct (check_text_lengths _).
Qed.

(** ** Call control is a codec *)

Ltac rd_text := erewrite read_text_at; [cbn [res_bind] | at_pick | done].

Lemma safe_bind_true {E A B} (m : res E A) (f : A → res E B) (R : B → Prop) :
  safe m (fun _ => True) → (∀ a, safe (f a) R) → safe (res_bind m f) R.
Proof. intros ? H. eapply safe_bind; [done|]. intros a _. apply H. Qed.

Lemma decode_call_control_safe buf off :
  0 <= off → safe (decode_call_control buf off) (fun _ => True).
Proof.
  intros Hoff. unfold decode_call_control.
  apply safe_bind_true; [by apply safe_guard_err|intros _].
  repeat first
    [ apply safe_bind_true;
      [apply safe_map_err; auto with c2|intros _]
    | eapply safe_bind; [apply read_text_safe; lia|]; intros [? ?] ?; simpl in * ].
  eapply safe_bind; [apply safe_check_remaining; lia|]. intros [] ?.
  eapply safe_bind; [apply safe_read_le; lia|]. done.
Qed.

Lemma decode_call_control_sound buf off c n :
  decode_call_control buf off = Ok (c, n) →
  call_control_wf c ∧ at_off buf off (call_control_bytes c) ∧ n = blen (call_control_bytes c).
Proof.
  unfold decode_call_control. intros H. res_inv H.
  repeat match goal with
  | H : read_text _ _ _ = Ok _ |- _ => apply read_text_ok in H as (? & ? & ->)
  | u : unit |- _ => destruct u
  end. res_sat. simplify_eq. norm_pow.
  unfold call_control_wf, identity_wf, call_control_bytes; cbn.
  split; [split_and!; [unfold identity_fields; by rewrite !Forall_cons|done..|lia|lia]|]. rewrite app_nil_r.
  split; [|blen_solve]. rewrite <-!app_assoc. at_solve.
Qed.

Lemma decode_call_control_at buf off c :
  call_control_wf c → at_off buf off (call_control_bytes c) →
  decode_call_control buf off = Ok (c, blen (call_control_bytes c)).
Proof.
  intros ((Hw & Hn & Hu & Ht & Ha & Hs) & Hidx) Hat. pose proof (at_off_bounds _ _ _ Hat) as Hb.
  unfold identity_fields in Hw. rewrite !Forall_cons in Hw. destruct Hw as (? & ? & ? & ? & ? & ? & ? & _).
  rewrite blen_call_control_bytes in Hb |- *. unfold encoded_call_control_len in *. cbn in Hb.
  unfold call_control_bytes in Hat. cbn in Hat. rewrite app_nil_r, <-!app_assoc in Hat.
  destruct c as [i idx]; cbn in *.
  unfold decode_call_control, check_remaining, saturating_sub.
  autorewrite with blen in *. at_split Hat.
  rd_guard. rd_text. rewrite Hn. cbn [map_err res_bind].
  rd_text. rewrite Hu. cbn [map_err res_bind].
  do 3 rd_text. rewrite Ht. cbn [map_err res_bind].
  rd_text. rewrite Ha. cbn [map_err res_bind].
  rd_text. rewrite Hs. cbn [map_err res_bind].
  rd_guard. rd_le. f_equal. f_equal; [by destruct i|lia].
Qed.

#[export] Instance call_control_codec :
  CodecLaws call_control_bytes call_control_wf decode_call_control.
Proof.
  split; [apply decode_call_control_safe|]. intros buf off c n Hoff. split.
  - apply decode_call_control_sound.
  - intros (? & ? & ->). by apply decode_call_control_at.
Qed.

(** ** Reply control is a codec *)

Lemma decode_reply_control_safe buf off :
  0 <= off → safe (decode_reply_control buf off) (fun _ => True).
Proof.
  intros Hoff. unfold decode_reply_control, saturating_sub.
  eapply safe_bind; [apply (safe_guard_err _ _ (fun _ => 1 <= blen buf - off)); lia|]. intros [] ?.
  eapply safe_bind; [apply safe_index; lia|]. intros status _.
  apply safe_if_err; [done|intros _]. apply safe_if_err; intros _; [|apply safe_if_err; intros _; [|done]].
  all: eapply safe_bind; [apply (safe_guard_err _ _ (fun _ => 5 <= blen buf - off)); lia|]; intros [] ?.
  all: eapply safe_bind; [apply safe_read_le; lia|]; intros len [? _].
  all: eapply safe_bind; [apply (safe_guard_err _ _ (fun _ => 5 + len <= blen buf - off)); lia|]; intros [] ?.
  all: eapply safe_bind; [apply safe_slice; lia|]; intros raw _; try done.
  eapply safe_bind; [apply safe_from_utf8|]. intros name _.
  apply safe_bind_true; [apply safe_map_err; auto with c2|done].
Qed.

Lemma byte_of_status b z : (u8 b =? z) = true → b = byte.of_Z z.
Proof. intros <-%Z.eqb_eq. by rewrite of_Z_u8. Qed.

Lemma route_key_len f s : validate_call_route_key f s = Ok tt → blen s <= 255.
Proof. by intros (_ & ? & _)%validate_call_route_key_ok. Qed.

Lemma decode_reply_control_sound buf off r n :
  decode_reply_control buf off = Ok (r, n) →
  reply_control_wf r ∧ at_off buf off (encode_reply_control r) ∧ n = blen (encode_reply_control r).
Proof.
  unfold decode_reply_control. intros H. res_inv H.
  destruct (u8 _ =? STATUS_SUCCESS) eqn:H0; [|destruct (u8 _ =? STATUS_ERROR) eqn:H1;
    [|destruct (u8 _ =? STATUS_ROUTE_NOT_FOUND) eqn:H2; [|done]]]; res_inv H;
    repeat match goal with
    | H : from_utf8 _ _ = Ok _ |- _ => apply from_utf8_ok in H as [-> ?]
    | H : (u8 _ =? _) = true |- _ => apply byte_of_status in H
    | u : unit |- _ => destruct u
    end; res_sat; simplify_eq; norm_pow; cbn -[app].
  - split_and!; [done| |done]. at_solve.
  - unfold wrap_u32. rewrite Z.mod_small by lia. split; [lia|].
    match goal with H : _ + 5 + ?n = _ + blen ?d |- _ => assert (n = blen d) as -> by lia end.
    split; [at_solve|blen_solve].
  - unfold wrap_u32. rewrite Z.mod_small by lia. split; [done|].
    match goal with H : _ + 5 + ?n = _ + blen ?d |- _ => assert (n = blen d) as -> by lia end.
    split; [at_solve|blen_solve].
Qed.

Lemma decode_reply_control_at buf off r :
  reply_control_wf r → at_off buf off (encode_reply_control r) →
  decode_reply_control buf off = Ok (r, blen (encode_reply_control r)).
Proof.
  intros Hwf Hat. pose proof (at_off_bounds _ _ _ Hat) as Hb.
  unfold decode_reply_control, saturating_sub. destruct r as [|name|data]; cbn -[app] in *.
  - autorewrite with blen in *. rd_guard. by rewrite (index_at_off _ _ _ Hat).
  - destruct Hwf as [Hu Hk]. pose proof (route_key_len _ _ Hk). pose proof (blen_nonneg name).
    unfold wrap_u32 in *. rewrite Z.mod_small in * by lia. autorewrite with blen in *. at_split Hat.
    rd_guard. rewrite (index_at_off _ _ _ Hat0). cbn -[read_le slice Z.add Z.ltb].
    rd_guard. rd_le. rd_guard. rewrite (slice_at_off _ _ name) by (first [at_pick|lia]).
    cbn [res_bind]. unfold from_utf8. rewrite Hu. cbn [res_bind]. rewrite Hk. cbn [map_err res_bind].
    f_equal. f_equal. lia.
  - pose proof (blen_nonneg data).
    unfold wrap_u32 in *. rewrite Z.mod_small in * by lia. autorewrite with blen in *. at_split Hat.
    rd_guard. rewrite (index_at_off _ _ _ Hat0). cbn -[read_le slice Z.add Z.ltb].
    rd_guard. rd_le. rd_guard. rewrite (slice_at_off _ _ data) by (first [at_pick|lia]).
    cbn [res_bind]. f_equal. f_equal. lia.
Qed.

#[export] Instance reply_control_codec :
  CodecLaws encode_reply_control reply_control_wf decode_reply_control.
Proof.
  split; [apply decode_reply_control_safe|]. intros buf off r n Hoff. split.
  - apply decode_reply_control_sound.
  - intros (? & ? & ->). by apply decode_reply_control_at.
Qed.

(** Writing the fields and then the index replaces one range of the buffer. *)
Lemma write_call_control buf off c :
  0 <= off → blen (call_control_bytes c) <= Z.max 0 (blen buf - off) →
  (let? '(buf, cursor) := write_texts buf off (identity_fields (identity c)) in
   let? buf := store buf cursor (to_le 2 (method_idx c)) in
   Ok (buf, blen (call_control_bytes c)))
  = Ok (take (Z.to_nat off) buf ++ call_control_bytes c
        ++ drop (Z.to_nat (off + blen (call_control_bytes c))) buf, blen (call_control_bytes c)).
Proof.
  intros Hoff Hcap. set (n := blen (call_control_bytes c)) in *.
  assert (9 <= n) as Hn.
  { subst n. rewrite blen_call_control_bytes. unfold encoded_call_control_len. cbn. blen_solve. }
  assert (∃ pre old o2 post, buf = pre ++ old ++ o2 ++ post ∧ blen pre = off
            ∧ blen old = n - 2 ∧ blen o2 = 2) as (pre & old & o2 & post & -> & <- & Ho & Ho2).
  { exists (take (Z.to_nat off) buf), (take (Z.to_nat (n - 2)) (drop (Z.to_nat off) buf)),
      (take 2 (drop (Z.to_nat (n - 2)) (drop (Z.to_nat off) buf))),
      (drop 2 (drop (Z.to_nat (n - 2)) (drop (Z.to_nat off) buf))).
    rewrite !take_drop. unfold blen in *. rewrite !length_take, !length_drop. split; [done|lia]. }
  rewrite write_texts_spec.
  2: { rewrite Ho. subst n. rewrite blen_call_control_bytes. unfold encoded_call_control_len. cbn. lia. }
  cbn [res_bind].
  replace (blen pre + blen old) with (blen (pre ++ concat (text_field <$> identity_fields (identity c)))).
  2: { rewrite Ho. subst n. rewrite blen_call_control_bytes. unfold encoded_call_control_len. cbn. blen_solve. }
  rewrite (app_assoc pre), (store_mid _ o2) by (done || (rewrite blen_to_le; lia)). cbn [res_bind].
  do 2 f_equal. unfold blen at 1. rewrite Nat2Z.id, take_app_length.
  assert (drop (Z.to_nat (blen pre + n)) (pre ++ old ++ o2 ++ post) = post) as ->.
  { rewrite (app_assoc old), (app_assoc pre). apply drop_app_length'.
    rewrite !length_app. unfold blen in *. lia. }
  unfold call_control_bytes. by rewrite <-!app_assoc.
Qed.

Lemma and_iff_under (A B C : Prop) : (A → (B ↔ C)) → A ∧ B ↔ A ∧ C.
Proof. tauto. Qed.

(** ** Properties *)

(** Call control: decoding at an offset never panics and succeeds exactly
    where the encoder's bytes of an admitted identity (every text UTF-8, nonempty
    and at most 255 bytes; route name, route uid, CRM tag and hashes accepted by
    their validators) and a 16-bit method index stand. *)
Theorem call_control_exact (buf : bytes) (off : Z) (c : CallControl) (n : Z) :
  0 <= off →
  decode_call_control buf off ≠ Panic ∧
  (decode_call_control buf off = Ok (c, n) ↔
    call_control_wf c
    ∧ ∃ bs, encode_call_control (identity c) (method_idx c) = Ok bs
            ∧ at_off buf off bs ∧ n = blen bs).
Proof.
  intros Hoff. split; [by apply codec_not_panic|].
  rewrite (codec_exact (dec:=decode_call_control) buf off c n Hoff). apply and_iff_under.
  intros Hwf. rewrite encode_call_control_eq.
  assert (check_text_lengths (zip CALL_TEXT_FIELDS (identity_fields (identity c))) = Ok tt) as ->.
  { apply check_text_lengths_ok. destruct Hwf as [[Hw _] _]. unfold identity_fields in *.
    rewrite !Forall_cons in Hw. unfold wire_text in Hw. cbn. rewrite !Forall_cons. naive_solver. }
  destruct c. cbn [res_bind identity method_idx]. naive_solver.
Qed.

(** Encoding a call control into a caller's buffer agrees with the encoder
    that returns a fresh vector: the same error for a text that is too long, an
    error when the buffer has too little room, and otherwise exactly those bytes at
    the offset with every other byte of the buffer left alone.  It never panics,
    and errors are found before the first write. *)
Theorem encode_call_control_into_spec (buf : bytes) (off : Z) (i : RouteCallIdentity) (idx : Z) :
  0 <= off →
  encode_call_control_into buf off i idx =
    (let? bs := encode_call_control i idx in
     let have := Z.max 0 (blen buf - off) in
     if have <? blen bs then Err (EncBufferTooShort "call_control" (blen bs) have)
     else Ok (take (Z.to_nat off) buf ++ bs ++ drop (Z.to_nat (off + blen bs)) buf, blen bs)).
Proof.
  intros Hoff. rewrite encode_call_control_eq. unfold encode_call_control_into.
  destruct (check_text_lengths _) as [[]|e|]; cbn [res_bind]; [|done..].
  set (c := {| identity := i; method_idx := idx |}).
  unfold check_write_capacity, saturating_sub.
  change (encoded_call_control_len i) with (encoded_call_control_len (identity c)).
  rewrite <-(blen_call_control_bytes c).
  destruct (Z.ltb_spec (Z.max 0 (blen buf - off)) (blen (call_control_bytes c))) as [|Hcap];
    cbn [guard_err res_bind]; [done|].
  by apply (write_call_control buf off c).
Qed.

Definition sample_identity : RouteCallIdentity := {|
  route_name := [Byte.x67; Byte.x2f; Byte.x61];
  route_uid := [Byte.x75; Byte.x31];
  crm_ns := [Byte.x6e];
  crm_name := [Byte.x43];
  crm_ver := [Byte.x31];
  abi_hash := replicate 64 Byte.x61;
  signature_hash := replicate 64 Byte.x30 |}.

Lemma call_control_exact_witness :
  let bs := call_control_bytes {| identity := sample_identity; method_idx := 5 |} in
  decode_call_control bs 0 = Ok ({| identity := sample_identity; method_idx := 5 |}, blen bs).
Proof.
  intros bs. apply (call_control_exact bs 0); [lia|]. split.
  - split; [|cbn; lia]. split; [repeat (constructor; [split_and!; vm_compute; congruence|]); constructor|].
    split_and!; vm_compute; reflexivity.
  - exists bs. split; [vm_compute; reflexivity|]. split; [apply at_off_whole|done].
Defined.

Lemma encode_call_control_into_witness :
  ∃ out, encode_call_control_into (replicate 200 Byte.x00) 3 sample_identity 5 = Ok (out, 145).
Proof.
  rewrite (encode_call_control_into_spec (replicate 200 Byte.x00) 3 sample_identity 5 ltac:(lia)).
  eexists. vm_compute. reflexivity.
Defined.

(** Reply control: decoding at an offset never panics and succeeds exactly
    where the encoding of a success, of an error with fewer than 2^32 bytes, or of a
    missing route with an admitted name stands. *)
Theorem reply_control_exact (buf : bytes) (off : Z) (r : ReplyControl) (n : Z) :
  0 <= off →
  decode_reply_control buf off ≠ Panic ∧
  (decode_reply_control buf off = Ok (r, n) ↔
    reply_control_wf r ∧ at_off buf off (encode_reply_control r)
    ∧ n = blen (encode_reply_control r)).
Proof.
  intros Hoff. split; [by apply codec_not_panic|].
  apply (codec_exact (dec:=decode_reply_control) buf off r n Hoff).
Qed.

Lemma reply_control_exact_witness :
  let bs := encode_reply_control (RError [Byte.x61; Byte.x62]) in
  decode_reply_control bs 0 = Ok (RError [Byte.x61; Byte.x62], 7).
Proof.
  intros bs. apply (reply_control_exact bs 0); [lia|].
  split_and!; [vm_compute; reflexivity|apply at_off_whole|reflexivity].
Defined.
