(* ===== verification/Handshake.v ===== *)
(** Connection handshake of c2-wire (handshake.rs): the permanent version preamble,
    and the client and server metadata exchanged after it. *)

From S2P Require Import Prelude.
From S2P Require Import Text.
From S2P Require Import Frame.
From S2P Require Import Codec.
From S2P Require Import Control.

(** ** Version preamble *)

Definition HANDSHAKE_VERSION : Z := 15.
Definition VERSION_PREAMBLE_BODY_LEN : Z := 21.

Inductive VersionPreambleKind := Hello | Accepted | VersionMismatch.

#[export] Instance VersionPreambleKind_eq_dec : EqDecision VersionPreambleKind.
Proof. solve_decision. Defined.

(** [kind as u8] of the [repr(u8)] enum. *)
Definition preamble_kind_byte (kind : VersionPreambleKind) : Z :=
  match kind with Hello => 1 | Accepted => 2 | VersionMismatch => 3 end.

(** [b"C2IP"] *)
Definition PREAMBLE_MAGIC : bytes := [Byte.x43; Byte.x32; Byte.x49; Byte.x50].

(** The 25-byte array, from the writes at [..4], [12], [16..20], [20] and [21..]. *)
Definition encode_version_preamble (kind : VersionPreambleKind) : bytes :=
  to_le 4 VERSION_PREAMBLE_BODY_LEN
  ++ replicate 8 Byte.x00
  ++ [byte.of_Z (if bool_decide (kind = Hello) then 4 else 6)] ++ replicate 3 Byte.x00
  ++ PREAMBLE_MAGIC
  ++ [byte.of_Z (preamble_kind_byte kind)]
  ++ to_le 4 HANDSHAKE_VERSION.

Fixpoint check_expected (checks : list (string * Z * Z)) : res DecodeError unit :=
  match checks with
  | [] => Ok tt
  | (field, value, expected) :: rest =>
      guard_err (negb (value =? expected)) (InvalidValue field value) ;? check_expected rest
  end.

Definition validate_version_preamble_header (header : bytes) (response : bool)
    : res DecodeError unit :=
  let? length := read_le 4 header 0 in
  let? request_id := read_le 8 header 4 in
  let? flags := read_le 4 header 12 in
  check_expected
    [("version preamble length"%string, length, VERSION_PREAMBLE_BODY_LEN);
     ("version preamble request id"%string, request_id, 0);
     ("version preamble flags"%string, flags, if response then 6 else 4)].

Definition decode_version_preamble_payload (payload : bytes)
    : res DecodeError (VersionPreambleKind * Z) :=
  let? magic := slice payload 0 4 in
  guard_err (negb (bool_decide (magic = PREAMBLE_MAGIC)))
    (InvalidText "version preamble magic" (RText "expected C2IP")) ;?
  let? k := index payload 4 in
  let? kind :=
    if u8 k =? 1 then Ok Hello
    else if u8 k =? 2 then Ok Accepted
    else if u8 k =? 3 then Ok VersionMismatch
    else Err (InvalidValue "version preamble kind" (u8 k)) in
  let? version := read_le 4 payload 5 in
  guard_err (version =? 0) (InvalidValue "protocol version" 0) ;?
  Ok (kind, version).

(** ** Metadata *)

Definition CAP_SHM_REQUEST : Z := Z.shiftl 1 3.
Definition CAP_SHM_RESPONSE : Z := Z.shiftl 1 4.
Definition MAX_ROUTES : Z := 64.
Definition MAX_METHODS : Z := MAX_CONTRACT_METHODS.

Record MethodEntry := { me_name : str; me_index : Z }.

Record RouteInfo := {
  ri_name : str;
  ri_route_uid : str;
  ri_crm_ns : str;
  ri_crm_name : str;
  ri_crm_ver : str;
  ri_abi_hash : str;
  ri_signature_hash : str;
  ri_max_payload_size : Z;
  ri_methods : list MethodEntry }.

Record ServerIdentity := { server_id : str; server_instance_id : str }.

Record Handshake := {
  hs_prefix : str;
  capability_flags : Z;
  server_identity : option ServerIdentity;
  hs_routes : list RouteInfo }.

(** *** Encoding *)

(** [push_text] of handshake.rs, with the body of control.rs's. *)
Definition hs_push_text (buf : bytes) (field : string) (value : str) : res EncodeError bytes :=
  if blen value <=? U8_MAX then Ok ((buf ++ [byte.of_Z (blen value)]) ++ value)
  else Err (EncFieldTooLong field U8_MAX (blen value)).

Definition push_count (buf : bytes) (field : string) (count : Z) : res EncodeError bytes :=
  if count <=? U16_MAX then Ok (buf ++ to_le 2 count)
  else Err (EncFieldTooLong field U16_MAX count).

Definition encode_client_handshake (capability_flags : Z) (prefix : str) : res EncodeError bytes :=
  let? buf := hs_push_text [] "prefix" prefix in
  Ok (buf ++ to_le 2 capability_flags).

Fixpoint push_methods (buf : bytes) (methods : list MethodEntry) : res EncodeError bytes :=
  match methods with
  | [] => Ok buf
  | m :: rest =>
      let? buf := hs_push_text buf "method name" (me_name m) in
      push_methods (buf ++ to_le 2 (me_index m)) rest
  end.

Fixpoint hs_push_texts (buf : bytes) (fields : list (string * str)) : res EncodeError bytes :=
  match fields with
  | [] => Ok buf
  | (field, text) :: rest => let? buf := hs_push_text buf field text in hs_push_texts buf rest
  end.

Fixpoint push_routes (buf : bytes) (routes : list RouteInfo) : res EncodeError bytes :=
  match routes with
  | [] => Ok buf
  | r :: rest =>
      let? buf := hs_push_texts buf
        [("route name"%string, ri_name r); ("route_uid"%string, ri_route_uid r);
         ("crm_ns"%string, ri_crm_ns r); ("crm_name"%string, ri_crm_name r);
         ("crm_ver"%string, ri_crm_ver r); ("abi_hash"%string, ri_abi_hash r);
         ("signature_hash"%string, ri_signature_hash r)] in
      let buf := buf ++ to_le 8 (ri_max_payload_size r) in
      let? buf := push_count buf "method count" (blen (ri_methods r)) in
      let? buf := push_methods buf (ri_methods r) in
      push_routes buf rest
  end.

Definition encode_server_handshake (capability_flags : Z) (routes : list RouteInfo) (prefix : str)
    (identity : ServerIdentity) : res EncodeError bytes :=
  let? buf := encode_client_handshake capability_flags prefix in
  let? buf := hs_push_text buf "server_id" (server_id identity) in
  let? buf := hs_push_text buf "server_instance_id" (server_instance_id identity) in
  let? buf := push_count buf "route count" (blen routes) in
  push_routes buf routes.

(** *** Decoding *)

(** [check_remaining] of handshake.rs; [buf.len() - off] underflows past the end. *)
Definition hs_check_remaining (buf : bytes) (off need : Z) (field : string) : res DecodeError unit :=
  if blen buf <? off + need then
    guard_panic (off <=? blen buf) ;? Err (Truncated field need (blen buf - off))
  else Ok tt.

Definition read_u16 (buf : bytes) (off : Z) : res DecodeError Z := read_le 2 buf off.
Definition read_u64 (buf : bytes) (off : Z) : res DecodeError Z := read_le 8 buf off.
Definition read_str (buf : bytes) (off len : Z) : res DecodeError str :=
  let? raw := slice buf off (off + len) in from_utf8 raw Utf8Error.

(** The length byte and the text after it, as every text of the decoder is read;
    the advanced offset is returned with the text. *)
Definition read_name (buf : bytes) (off : Z) (len_field field : string)
    : res DecodeError (str * Z) :=
  hs_check_remaining buf off 1 len_field ;?
  let? b := index buf off in
  let len := u8 b in
  let off := off + 1 in
  hs_check_remaining buf off len field ;?
  let? value := read_str buf off len in
  Ok (value, off + len).

Definition invalid {A} (field : string) (m : res ContractError A) : res DecodeError A :=
  map_err (fun e => InvalidText field (RContract e)) m.

(** [for _ in 0..count] around a decoding step that advances the offset. *)
Fixpoint decode_times {A} (dec : bytes → Z → res DecodeError (A * Z)) (count : nat)
    (buf : bytes) (off : Z) : res DecodeError (list A * Z) :=
  match count with
  | O => Ok ([], off)
  | S count =>
      let? '(a, off) := dec buf off in
      let? '(l, off) := decode_times dec count buf off in
      Ok (a :: l, off)
  end.

Definition decode_method (buf : bytes) (off : Z) : res DecodeError (MethodEntry * Z) :=
  let? '(m_name, off) := read_name buf off "method name_len" "method name" in
  hs_check_remaining buf off 2 "method index" ;?
  let? m_idx := read_u16 buf off in
  Ok ({| me_name := m_name; me_index := m_idx |}, off + 2).

Definition decode_route (buf : bytes) (off : Z) : res DecodeError (RouteInfo * Z) :=
  let? '(r_name, off) := read_name buf off "route name_len" "route name" in
  invalid "route_name" (validate_call_route_key "route_name" r_name) ;?
  let? '(route_uid, off) := read_name buf off "route_uid length" "route_uid" in
  map_err (fun e => InvalidText "route_uid" (RUid e)) (validate_route_uid route_uid) ;?
  let? '(crm_ns, off) := read_name buf off "crm namespace length" "crm namespace" in
  let? '(crm_name, off) := read_name buf off "crm name length" "crm name" in
  let? '(crm_ver, off) := read_name buf off "crm version length" "crm version" in
  invalid "crm tag" (validate_crm_tag crm_ns crm_name crm_ver) ;?
  let? '(abi_hash, off) := read_name buf off "abi_hash length" "abi_hash" in
  invalid "abi_hash" (validate_contract_hash "abi_hash" abi_hash) ;?
  let? '(signature_hash, off) := read_name buf off "signature_hash length" "signature_hash" in
  invalid "signature_hash" (validate_contract_hash "signature_hash" signature_hash) ;?
  hs_check_remaining buf off 8 "max_payload_size" ;?
  let? max_payload_size := read_u64 buf off in
  let off := off + 8 in
  guard_err (max_payload_size =? 0) (InvalidValue "max_payload_size" max_payload_size) ;?
  hs_check_remaining buf off 2 "method count" ;?
  let? m_count := read_u16 buf off in
  let off := off + 2 in
  guard_err (MAX_METHODS <? m_count) (InvalidValue "method count" m_count) ;?
  let? '(methods, off) := decode_times decode_method (Z.to_nat m_count) buf off in
  Ok ({| ri_name := r_name; ri_route_uid := route_uid; ri_crm_ns := crm_ns;
         ri_crm_name := crm_name; ri_crm_ver := crm_ver; ri_abi_hash := abi_hash;
         ri_signature_hash := signature_hash; ri_max_payload_size := max_payload_size;
         ri_methods := methods |}, off).

Definition decode_server_part (buf : bytes) (off : Z)
    : res DecodeError (ServerIdentity * list RouteInfo * Z) :=
  let? '(server_id, off) := read_name buf off "server_id length" "server_id" in
  let? '(server_instance_id, off) :=
    read_name buf off "server_instance_id length" "server_instance_id" in
  map_err (fun e => InvalidText "server_id" (RId e)) (validate_server_id server_id) ;?
  map_err (fun e => InvalidText "server_instance_id" (RId e))
    (validate_server_id server_instance_id) ;?
  hs_check_remaining buf off 2 "route count" ;?
  let? route_count := read_u16 buf off in
  let off := off + 2 in
  guard_err (MAX_ROUTES <? route_count) (InvalidValue "route count" route_count) ;?
  let? '(routes, off) := decode_times decode_route (Z.to_nat route_count) buf off in
  Ok ({| server_id := server_id; server_instance_id := server_instance_id |}, routes, off).

(** [!(CAP_SHM_REQUEST | CAP_SHM_RESPONSE)] at 16 bits. *)
Definition UNKNOWN_CAPABILITIES : Z := U16_MAX - Z.lor CAP_SHM_REQUEST CAP_SHM_RESPONSE.

Definition decode_handshake (buf : bytes) (response : bool) : res DecodeError Handshake :=
  let len := blen buf in
  guard_err (len <? 3) (BufferTooShort 3 len) ;?
  let? '(prefix, off) := read_name buf 0 "prefix length" "prefix" in
  hs_check_remaining buf off 2 "capability flags" ;?
  let? capability_flags := read_u16 buf off in
  let off := off + 2 in
  guard_err (negb (Z.land capability_flags UNKNOWN_CAPABILITIES =? 0))
    (InvalidValue "capability flags" capability_flags) ;?
  if negb response then
    guard_err (negb (off =? len)) (InvalidValue "trailing bytes" (len - off)) ;?
    Ok {| hs_prefix := prefix; capability_flags := capability_flags;
          server_identity := None; hs_routes := [] |}
  else
    let? '(identity, routes, off) := decode_server_part buf off in
    guard_err (negb (off =? len)) (InvalidValue "trailing bytes" (len - off)) ;?
    Ok {| hs_prefix := prefix; capability_flags := capability_flags;
          server_identity := Some identity; hs_routes := routes |}.

(** ** What a metadata parser promises *)

(** [dec buf off] returns a value and the offset after it: within the buffer it
    does not panic, and it succeeds exactly where a well-formed value stands. *)
Class ParserLaws {A} (enc : A → bytes) (wf : A → Prop)
    (dec : bytes → Z → res DecodeError (A * Z)) : Prop := {
  parser_safe buf off : 0 <= off <= blen buf → dec buf off ≠ Panic;
  parser_sound buf off a off' :
    0 <= off <= blen buf → dec buf off = Ok (a, off') →
    wf a ∧ at_off buf off (enc a) ∧ off' = off + blen (enc a);
  parser_at buf off a :
    at_off buf off (enc a) → wf a → dec buf off = Ok (a, off + blen (enc a)) }.

Section parser_laws.
Context {A} {enc : A → bytes} {wf : A → Prop} {dec} `{!ParserLaws enc wf dec}.

Lemma parser_safe_post buf off :
  0 <= off <= blen buf → safe (dec buf off) (fun p => off <= p.2 <= blen buf).
Proof.
  intros Hoff. pose proof (parser_safe buf off Hoff) as Hp.
  destruct (dec buf off) as [[a off']|e|] eqn:Hd; simpl; [|done..].
  apply parser_sound in Hd as (_ & Hat & ->); [|done]. apply at_off_bounds in Hat. blen_solve.
Qed.

#[export] Instance decode_times_laws count :
  ParserLaws (fun l => concat (enc <$> l)) (fun l => length l = count ∧ Forall wf l)
    (decode_times dec count).
Proof.
  split.
  - intros buf off Hoff. eapply safe_not_panic with (Q := fun _ => True).
    revert off Hoff. induction count as [|count IH]; intros off Hoff; simpl; [done|].
    eapply safe_bind; [by apply parser_safe_post|]. intros [a off'] ?; simpl in *.
    eapply safe_bind; [apply IH; lia|]. by intros [] ?.
  - intros buf off l off' Hoff. revert off l off' Hoff.
    induction count as [|count IH]; intros off l off' Hoff H; simpl in H.
    + simplify_eq. simpl. split; [done|]. split; [|cbn; rewrite blen_nil; lia].
      by apply at_off_nil.
    + res_inv H. simplify_eq.
      match goal with H : dec _ _ = Ok _ |- _ => apply parser_sound in H as (? & Hat & ->); [|done] end.
      pose proof (at_off_bounds _ _ _ Hat).
      match goal with H : decode_times _ _ _ _ = Ok _ |- _ => apply IH in H as ([<- ?] & ? & ->); [|blen_solve] end.
      cbn. rewrite at_off_app, blen_app. split_and!; [done|by constructor|done|done|lia].
  - intros buf off l Hat [<- Hwf]. revert off Hat.
    induction Hwf as [|a l Ha Hl IH]; intros off Hat; cbn in *; [by rewrite Z.add_0_r|].
    apply at_off_app in Hat as [Hat1 Hat2]. rewrite (parser_at buf off a Hat1 Ha). cbn [res_bind].
    rewrite (IH _ Hat2). cbn [res_bind]. rewrite blen_app. do 2 f_equal. lia.
Qed.
End parser_laws.

(** ** Texts *)

(** A UTF-8 text, possibly empty, that fits its length byte. *)
Definition name_text (s : str) : Prop := blen s <= U8_MAX ∧ utf8_valid s = true.

Lemma safe_hs_check_remaining buf off need f :
  off <= blen buf → safe (hs_check_remaining buf off need f) (fun _ => off + need <= blen buf).
Proof.
  intros. unfold hs_check_remaining. destruct (Z.ltb_spec (blen buf) (off + need)); simpl; [|lia].
  by rewrite (proj2 (Z.leb_le _ _)).
Qed.

Lemma hs_check_remaining_ok buf off need f :
  off + need <= blen buf → hs_check_remaining buf off need f = Ok tt.
Proof. intros. unfold hs_check_remaining. by rewrite (proj2 (Z.ltb_ge _ _)). Qed.

Lemma read_name_ok buf off lf f s off' :
  read_name buf off lf f = Ok (s, off') →
  name_text s ∧ at_off buf off (text_field s) ∧ off' = off + blen (text_field s).
Proof.
  unfold read_name, read_str, name_text, text_field, U8_MAX. intros H. res_inv H. simplify_eq.
  match goal with H : from_utf8 _ _ = Ok _ |- _ => apply from_utf8_ok in H as [-> Hu] end.
  res_sat. match goal with H : at_off _ _ [?b] |- _ => pose proof (u8_range b) end.
  match goal with H : _ + u8 ?b = _ + blen ?s |- _ => assert (u8 b = blen s) as Hlen by lia end.
  rewrite <-Hlen, of_Z_u8. split; [split; [lia|done]|]. split; [at_solve|blen_solve].
Qed.

Lemma read_name_at lf f buf off s :
  at_off buf off (text_field s) → name_text s →
  read_name buf off lf f = Ok (s, off + blen (text_field s)).
Proof.
  unfold read_name, read_str, name_text, text_field, U8_MAX.
  intros Hat [Hl Hu]. pose proof (at_off_bounds _ _ _ Hat) as Hb.
  autorewrite with blen in *. pose proof (blen_nonneg s).
  apply at_off_cons in Hat as [Hat1 Hat2].
  rewrite hs_check_remaining_ok by lia. cbn [res_bind].
  rewrite (index_at_off _ _ _ Hat1). cbn [res_bind]. rewrite u8_of_Z by lia.
  rewrite hs_check_remaining_ok by lia. cbn [res_bind].
  rewrite (slice_at_off _ _ _ _ Hat2) by lia. cbn [res_bind].
  unfold from_utf8. rewrite Hu. cbn [res_bind]. do 2 f_equal. lia.
Qed.

#[export] Instance read_name_laws lf f :
  ParserLaws text_field name_text (fun buf off => read_name buf off lf f).
Proof.
  split.
  - intros buf off Hoff. unfold read_name, read_str. eapply safe_not_panic with (Q := fun _ => True).
    eapply safe_bind; [apply safe_hs_check_remaining; lia|]. intros [] ?.
    eapply safe_bind; [apply safe_index; lia|]. intros b _. pose proof (u8_range b).
    eapply safe_bind; [apply safe_hs_check_remaining; lia|]. intros [] ?.
    apply safe_bind_true; [|done]. eapply safe_bind; [apply safe_slice; lia|].
    intros raw _. eapply safe_mono; [apply safe_from_utf8|done].
  - intros buf off s off' _. apply read_name_ok.
  - apply read_name_at.
Qed.

(** Step through a parser: sound and complete directions. *)
Ltac ps_rd := erewrite read_name_at; [cbn [res_bind] | at_pick | done].
Ltac ps_chk := rewrite hs_check_remaining_ok by blen_solve; cbn [res_bind].
Ltac ps_sound :=
  repeat match goal with
  | u : unit |- _ => destruct u
  | H : read_name _ _ _ _ = Ok _ |- _ => apply read_name_ok in H as (? & ? & ->)
  end; unfold read_u16, read_u64 in *; res_sat; simplify_eq; norm_pow.
Ltac ps_loop :=
  match goal with
  | Hr : at_off ?buf ?o (to_le 2 _), H : decode_times _ _ ?buf (?o + 2) = Ok _ |- _ =>
      apply (parser_sound (dec := decode_times _ _)) in H as ([? ?] & ? & ->);
      [|apply at_off_bounds in Hr; blen_solve]
  end.
Ltac ps_safe :=
  repeat first
    [ apply safe_bind_true; [apply safe_map_err; auto with c2|intros _]
    | eapply safe_bind; [apply (parser_safe_post (dec := fun b o => read_name b o _ _)); lia|];
      intros [? ?] ?; simpl in *
    | eapply safe_bind; [apply safe_hs_check_remaining; lia|]; intros [] ?
    | eapply safe_bind; [apply safe_read_le; lia|]; intros ? [? _]
    | apply safe_bind_true; [by apply safe_guard_err|intros _] ].

(** ** Methods, routes and the server part *)

Definition method_wf (m : MethodEntry) : Prop := name_text (me_name m) ∧ 0 <= me_index m < 2 ^ 16.
Definition method_bytes (m : MethodEntry) : bytes := text_field (me_name m) ++ to_le 2 (me_index m).

#[export] Instance decode_method_laws : ParserLaws method_bytes method_wf decode_method.
Proof.
  split; unfold decode_method, method_bytes, method_wf.
  - intros buf off Hoff. eapply safe_not_panic with (Q := fun _ => True). ps_safe. done.
  - intros buf off m off' _ H. res_inv H. ps_sound. cbn.
    split; [split; [done|lia]|]. split; [at_solve|blen_solve].
  - intros buf off [s i] Hat [Hs Hi]. cbn in *. pose proof (at_off_bounds _ _ _ Hat).
    autorewrite with blen in *. at_split Hat. ps_rd. ps_chk. unfold read_u16. rd_le.
    do 2 f_equal. blen_solve.
Qed.

Definition ri_texts (r : RouteInfo) : list str :=
  [ri_name r; ri_route_uid r; ri_crm_ns r; ri_crm_name r; ri_crm_ver r; ri_abi_hash r;
   ri_signature_hash r].

(** What a decoded route satisfies: admitted texts, a nonzero payload limit, and at
    most [MAX_METHODS] methods. *)
Definition route_wf (r : RouteInfo) : Prop :=
  Forall name_text (ri_texts r)
  ∧ validate_call_route_key "route_name" (ri_name r) = Ok tt
  ∧ validate_route_uid (ri_route_uid r) = Ok tt
  ∧ validate_crm_tag (ri_crm_ns r) (ri_crm_name r) (ri_crm_ver r) = Ok tt
  ∧ validate_contract_hash "abi_hash" (ri_abi_hash r) = Ok tt
  ∧ validate_contract_hash "signature_hash" (ri_signature_hash r) = Ok tt
  ∧ 0 < ri_max_payload_size r < 2 ^ 64
  ∧ blen (ri_methods r) <= MAX_METHODS
  ∧ Forall method_wf (ri_methods r).

Definition route_bytes (r : RouteInfo) : bytes :=
  concat (text_field <$> ri_texts r) ++ to_le 8 (ri_max_payload_size r)
  ++ to_le 2 (blen (ri_methods r)) ++ concat (method_bytes <$> ri_methods r).

#[export] Instance decode_route_laws : ParserLaws route_bytes route_wf decode_route.
Proof.
  split; unfold decode_route, invalid.
  - intros buf off Hoff. eapply safe_not_panic with (Q := fun _ => True). ps_safe.
    eapply safe_bind; [apply parser_safe_post; lia|]. by intros [] ?.
  - intros buf off r off' _ H. res_inv H. ps_sound. ps_loop.
    unfold route_wf, route_bytes, ri_texts, MAX_METHODS, MAX_CONTRACT_METHODS in *. cbn.
    match goal with H : length ?l = Z.to_nat ?n |- _ =>
      assert (blen l = n) as -> by (unfold blen; lia) end.
    split; [rewrite !Forall_cons; split_and!; done || lia|].
    rewrite app_nil_r, <-!app_assoc. split; [at_solve|blen_solve].
  - intros buf off r Hat (Ht & Hn & Hu & Hc & Ha & Hs & Hp & Hm & Hms).
    unfold ri_texts, route_bytes, MAX_METHODS, MAX_CONTRACT_METHODS in *.
    rewrite !Forall_cons in Ht. destruct Ht as (? & ? & ? & ? & ? & ? & ? & _).
    cbn in Hat |- *. rewrite app_nil_r, <-!app_assoc in *. pose proof (at_off_bounds _ _ _ Hat).
    autorewrite with blen in *. at_split Hat. pose proof (blen_nonneg (ri_methods r)).
    ps_rd. rewrite Hn. cbn [map_err res_bind]. ps_rd. rewrite Hu. cbn [map_err res_bind].
    do 3 ps_rd. rewrite Hc. cbn [map_err res_bind]. ps_rd. rewrite Ha. cbn [map_err res_bind].
    ps_rd. rewrite Hs. cbn [map_err res_bind].
    ps_chk. unfold read_u64, read_u16. rd_le. rewrite (proj2 (Z.eqb_neq _ _)) by lia. cbn [guard_err res_bind].
    ps_chk. rd_le. rd_guard. erewrite (parser_at (dec := decode_times _ _));
      [cbn [res_bind] | at_pick | split; [unfold blen; lia|done]].
    f_equal. f_equal; [by destruct r|blen_solve].
Qed.

Definition identity_part_wf (i : ServerIdentity) : Prop :=
  name_text (server_id i) ∧ name_text (server_instance_id i)
  ∧ validate_server_id (server_id i) = Ok tt ∧ validate_server_id (server_instance_id i) = Ok tt.

Definition server_part_wf (p : ServerIdentity * list RouteInfo) : Prop :=
  identity_part_wf p.1 ∧ blen p.2 <= MAX_ROUTES ∧ Forall route_wf p.2.

Definition server_part_bytes (p : ServerIdentity * list RouteInfo) : bytes :=
  text_field (server_id p.1) ++ text_field (server_instance_id p.1)
  ++ to_le 2 (blen p.2) ++ concat (route_bytes <$> p.2).

#[export] Instance decode_server_part_laws :
  ParserLaws server_part_bytes server_part_wf decode_server_part.
Proof.
  split; unfold decode_server_part.
  - intros buf off Hoff. eapply safe_not_panic with (Q := fun _ => True). ps_safe.
    eapply safe_bind; [apply parser_safe_post; lia|]. by intros [] ?.
  - intros buf off [i rs] off' _ H. res_inv H. ps_sound. ps_loop.
    unfold server_part_wf, identity_part_wf, server_part_bytes, MAX_ROUTES in *. cbn.
    match goal with H : length ?l = Z.to_nat ?n |- _ =>
      assert (blen l = n) as -> by (unfold blen; lia) end.
    split; [split_and!; done || lia|]. split; [at_solve|blen_solve].
  - intros buf off [i rs] Hat ((Hi1 & Hi2 & Hv1 & Hv2) & Hr & Hrs).
    unfold server_part_bytes, MAX_ROUTES in *. cbn in *. pose proof (at_off_bounds _ _ _ Hat).
    autorewrite with blen in *. at_split Hat. pose proof (blen_nonneg rs).
    do 2 ps_rd. rewrite Hv1, Hv2. cbn [map_err res_bind]. ps_chk. unfold read_u16. rd_le. rd_guard.
    erewrite (parser_at (dec := decode_times _ _));
      [cbn [res_bind] | at_pick | split; [unfold blen; lia|done]].
    f_equal. f_equal; [by destruct i|blen_solve].
Qed.

(** ** Encoder equations *)

Lemma hs_push_text_ok buf f s : blen s <= U8_MAX → hs_push_text buf f s = Ok (buf ++ text_field s).
Proof.
  intros. unfold hs_push_text. rewrite (proj2 (Z.leb_le _ _)) by done. by rewrite <-app_assoc.
Qed.

Lemma hs_push_texts_ok buf l :
  Forall (fun p => blen p.2 <= U8_MAX) l →
  hs_push_texts buf l = Ok (buf ++ concat (text_field <$> l.*2)).
Proof.
  intros H. revert buf. induction H as [|[f s] l Hs _ IH]; intros buf; cbn; [by rewrite app_nil_r|].
  rewrite hs_push_text_ok by done. cbn. by rewrite IH, <-app_assoc.
Qed.

Lemma push_methods_ok buf ms :
  Forall method_wf ms → push_methods buf ms = Ok (buf ++ concat (method_bytes <$> ms)).
Proof.
  intros H. revert buf. induction H as [|m ms Hm _ IH]; intros buf; cbn; [by rewrite app_nil_r|].
  rewrite hs_push_text_ok by apply Hm. cbn. rewrite IH. unfold method_bytes at 2. by rewrite <-!app_assoc.
Qed.

Lemma push_routes_ok buf rs :
  Forall route_wf rs → push_routes buf rs = Ok (buf ++ concat (route_bytes <$> rs)).
Proof.
  intros H. revert buf. induction H as [|r rs Hr _ IH]; intros buf; cbn [push_routes].
  { by rewrite app_nil_r. }
  destruct Hr as (Ht & _ & _ & _ & _ & _ & _ & Hm & Hms).
  unfold MAX_METHODS, MAX_CONTRACT_METHODS in Hm.
  rewrite hs_push_texts_ok.
  2: { unfold ri_texts, name_text in Ht. rewrite !Forall_cons in Ht. rewrite !Forall_cons. naive_solver. }
  cbn [res_bind]. unfold push_count. rewrite (proj2 (Z.leb_le _ _)) by (unfold U16_MAX; lia).
  cbn [res_bind]. rewrite push_methods_ok by done. cbn [res_bind]. rewrite IH.
  cbn. unfold route_bytes at 2. cbn. by rewrite <-!app_assoc.
Qed.

(** ** Whole metadata *)

Definition client_bytes (caps : Z) (prefix : str) : bytes := text_field prefix ++ to_le 2 caps.

Definition caps_wf (caps : Z) : Prop :=
  0 <= caps < 2 ^ 16 ∧ Z.land caps UNKNOWN_CAPABILITIES = 0.

Lemma decode_handshake_safe buf response : safe (decode_handshake buf response) (fun _ => True).
Proof.
  unfold decode_handshake.
  eapply safe_bind; [apply (safe_guard_err _ _ (fun _ => 3 <= blen buf)); lia|]. intros [] ?.
  ps_safe. apply safe_if_err; intros _.
  - apply safe_bind_true; [by apply safe_guard_err|done].
  - eapply safe_bind; [apply parser_safe_post; lia|]. intros [[] ?] ?.
    apply safe_bind_true; [by apply safe_guard_err|done].
Qed.

Lemma decode_client_iff buf h :
  decode_handshake buf false = Ok h ↔
    name_text (hs_prefix h) ∧ caps_wf (capability_flags h) ∧ server_identity h = None
    ∧ hs_routes h = [] ∧ buf = client_bytes (capability_flags h) (hs_prefix h).
Proof.
  unfold decode_handshake, caps_wf, client_bytes. cbn [negb]. split.
  - intros H. res_inv H. ps_sound. cbn. split_and!; [done|lia|lia|lia|done|done|].
    apply at_off_full; [at_solve|blen_solve].
  - intros (Hp & (Hc & Hl) & Hi & Hr & Hb).
    assert (at_off buf 0 (client_bytes (capability_flags h) (hs_prefix h))) as Hat
      by (rewrite Hb; apply at_off_whole).
    apply (f_equal blen) in Hb. unfold client_bytes in Hat. autorewrite with blen in Hb. at_split Hat.
    rd_guard. ps_rd. ps_chk. unfold read_u16. rd_le. rewrite Hl. cbn.
    rewrite (proj2 (Z.eqb_eq _ _)) by blen_solve. cbn.
    destruct h; cbn in *. by rewrite Hi, Hr.
Qed.

Lemma decode_server_iff buf h :
  decode_handshake buf true = Ok h ↔
    ∃ i, name_text (hs_prefix h) ∧ caps_wf (capability_flags h) ∧ server_identity h = Some i
    ∧ server_part_wf (i, hs_routes h)
    ∧ buf = client_bytes (capability_flags h) (hs_prefix h) ++ server_part_bytes (i, hs_routes h).
Proof.
  unfold decode_handshake, caps_wf, client_bytes. cbn [negb]. split.
  - intros H. res_inv H. ps_sound. eexists. cbn.
    match goal with
    | Hr : at_off ?buf ?o (to_le 2 _), H : decode_server_part ?buf (?o + 2) = Ok _ |- _ =>
        apply (parser_sound (dec := decode_server_part)) in H as (? & ? & ->);
        [|apply at_off_bounds in Hr; blen_solve]
    end.
    split_and!; [done|lia|lia|lia|done|done|]. apply at_off_full; [at_solve|blen_solve].
  - intros (i & Hp & (Hc & Hl) & Hi & Hr & Hb).
    assert (at_off buf 0 (client_bytes (capability_flags h) (hs_prefix h)
              ++ server_part_bytes (i, hs_routes h))) as Hat by (rewrite Hb; apply at_off_whole).
    apply (f_equal blen) in Hb. unfold client_bytes in Hat.
    rewrite <-app_assoc in Hat. autorewrite with blen in Hb. at_split Hat.
    rd_guard. ps_rd. ps_chk. unfold read_u16. rd_le. rewrite Hl. cbn [Z.eqb negb guard_err res_bind].
    erewrite (parser_at (dec := decode_server_part)); [cbn [res_bind] | at_pick | done].
    rewrite (proj2 (Z.eqb_eq _ _)) by blen_solve. cbn.
    destruct h; cbn in *. by rewrite Hi.
Qed.

Lemma encode_client_eq caps prefix :
  name_text prefix → encode_client_handshake caps prefix = Ok (client_bytes caps prefix).
Proof. intros [Hp _]. unfold encode_client_handshake. by rewrite hs_push_text_ok. Qed.

Lemma encode_server_eq caps prefix i rs :
  name_text prefix → server_part_wf (i, rs) →
  encode_server_handshake caps rs prefix i = Ok (client_bytes caps prefix ++ server_part_bytes (i, rs)).
Proof.
  intros Hp ((Hi1 & Hi2 & _) & Hr & Hrs). unfold encode_server_handshake, MAX_ROUTES in *. cbn in *.
  rewrite encode_client_eq by done. cbn [res_bind].
  rewrite hs_push_text_ok by apply Hi1. cbn [res_bind].
  rewrite hs_push_text_ok by apply Hi2. cbn [res_bind].
  unfold push_count. rewrite (proj2 (Z.leb_le _ _)) by (unfold U16_MAX; lia). cbn [res_bind].
  rewrite push_routes_ok by done. unfold server_part_bytes. by rewrite <-!app_assoc.
Qed.

(** Reading a text back in two ways gives the same text. *)
Lemma text_field_prefix s t x y :
  name_text s → name_text t → text_field s ++ x = text_field t ++ y → s = t ∧ x = y.
Proof.
  intros [Hs _] [Ht _] Heq. unfold text_field, U8_MAX in *. simpl in Heq.
  injection Heq as Hb Heq. apply (f_equal u8) in Hb.
  pose proof (blen_nonneg s). pose proof (blen_nonneg t). rewrite !u8_of_Z in Hb by lia.
  apply app_inj_1 in Heq; [done|]. unfold blen in Hb. lia.
Qed.

Lemma check_expected_ok l :
  check_expected l = Ok tt ↔ Forall (fun c => c.1.2 = c.2) l.
Proof.
  induction l as [|[[f v] e] l IH]; simpl; [by split; constructor|].
  rewrite seq_ok, guard_err_ok, negb_false_iff, Z.eqb_eq, Forall_cons, IH. done.
Qed.

Lemma check_expected_safe l : safe (check_expected l) (fun _ => True).
Proof. induction l as [|[[f v] e] l IH]; simpl; [done|]. apply safe_seq; [by apply safe_guard_err|done]. Qed.

Lemma preamble_header_iff header response :
  blen header = 16 →
  validate_version_preamble_header header response = Ok tt ↔
    header = to_le 4 VERSION_PREAMBLE_BODY_LEN ++ to_le 8 0 ++ to_le 4 (if response then 6 else 4).
Proof.
  intros Hl. unfold validate_version_preamble_header, VERSION_PREAMBLE_BODY_LEN. split.
  - intros H. res_inv H. rewrite !negb_false_iff, !Z.eqb_eq in *. subst. res_sat.
    apply at_off_full; [at_solve|blen_solve].
  - intros Hh. pose proof (at_off_whole header) as Hat. rewrite Hh in Hat at 2. clear Hh. at_split Hat.
    do 2 rd_le. erewrite read_le_at_off_small; [cbn [res_bind]|at_pick|norm_pow; destruct response; lia].
    by apply check_expected_ok; repeat constructor.
Qed.

Lemma preamble_payload_iff payload kind v :
  blen payload = 9 →
  decode_version_preamble_payload payload = Ok (kind, v) ↔
    0 < v < 2 ^ 32 ∧ payload = PREAMBLE_MAGIC ++ [byte.of_Z (preamble_kind_byte kind)] ++ to_le 4 v.
Proof.
  intros Hl. unfold decode_version_preamble_payload. split.
  - intros H. res_inv H. res_sat. norm_pow. simplify_eq.
    rewrite negb_false_iff, bool_decide_eq_true in *. simplify_eq. split; [lia|].
    match goal with H : at_off _ 4 [?b] |- _ =>
      assert (byte.of_Z (preamble_kind_byte kind) = b) as ->
        by (rewrite <-(of_Z_u8 b); repeat case_match; simplify_eq; f_equal; simpl; lia)
    end.
    apply at_off_full; [|blen_solve]. unfold PREAMBLE_MAGIC in *. cbn -[app].
    apply at_off_app. split; [done|at_solve].
  - intros [Hv Hp]. pose proof (at_off_whole payload) as Hat. rewrite Hp in Hat at 2. clear Hp.
    apply at_off_app in Hat as [Hm Hat]. change (0 + blen PREAMBLE_MAGIC) with 4 in Hat.
    rewrite (slice_at_off _ _ _ _ Hm) by done. cbn [res_bind].
    rewrite bool_decide_eq_true_2 by done. cbn [negb guard_err res_bind].
    apply at_off_app in Hat as [Hk Hat]. rewrite (index_at_off _ _ _ Hk). cbn [res_bind].
    rewrite blen_cons, blen_nil in Hat. change (4 + (1 + 0)) with 5 in Hat.
    rewrite u8_of_Z by (destruct kind; simpl; lia).
    erewrite (read_le_at_off_small 4 payload 5 v) by (done || (norm_pow; lia)).
    destruct kind; cbn; by rewrite (proj2 (Z.eqb_neq v 0)) by lia.
Qed.

(** ** Properties *)

(** Server metadata: decoding in the response direction never panics, and it
    succeeds exactly on the encoder's output for a bounded prefix, known capability
    bits, admitted server identities and at most 64 admitted routes of at most 256
    methods, with no trailing bytes; it returns those values. *)
Theorem server_handshake_exact (buf : bytes) (h : Handshake) :
  decode_handshake buf true ≠ Panic ∧
  (decode_handshake buf true = Ok h ↔
    ∃ i, server_identity h = Some i ∧ name_text (hs_prefix h) ∧ caps_wf (capability_flags h)
      ∧ server_part_wf (i, hs_routes h)
      ∧ encode_server_handshake (capability_flags h) (hs_routes h) (hs_prefix h) i = Ok buf).
Proof.
  split; [eapply safe_not_panic, decode_handshake_safe|]. rewrite decode_server_iff.
  split; intros (i & ? & ? & ? & ? & Hb); exists i; split_and!; try done.
  - by rewrite encode_server_eq, Hb.
  - rewrite encode_server_eq in Hb by done. by injection Hb as <-.
Qed.

(** Client metadata: decoding in the request direction never panics, and it
    succeeds exactly on the client encoder's output for a bounded prefix and known
    capability bits, with no identity and no routes. *)
Theorem client_handshake_exact (buf : bytes) (h : Handshake) :
  decode_handshake buf false ≠ Panic ∧
  (decode_handshake buf false = Ok h ↔
    server_identity h = None ∧ hs_routes h = [] ∧ name_text (hs_prefix h)
    ∧ caps_wf (capability_flags h)
    ∧ encode_client_handshake (capability_flags h) (hs_prefix h) = Ok buf).
Proof.
  split; [eapply safe_not_panic, decode_handshake_safe|]. rewrite decode_client_iff.
  split; [intros (? & ? & ? & ? & Hb)|intros (? & ? & ? & ? & Hb)]; split_and!; try done.
  - by rewrite encode_client_eq, Hb.
  - rewrite encode_client_eq in Hb by done. by injection Hb as <-.
Qed.

(** No metadata is valid in both directions: client metadata cannot pass for a
    server acknowledgement, nor the reverse. *)
Theorem handshake_directions_disjoint (buf : bytes) (h : Handshake) :
  decode_handshake buf false = Ok h → is_ok (decode_handshake buf true) = false.
Proof.
  intros (Hp & _ & _ & _ & ->)%decode_client_iff.
  destruct (decode_handshake _ true) as [h'|e|] eqn:H; [|done..].
  apply decode_server_iff in H as (i & Hp' & _ & _ & _ & Heq).
  unfold client_bytes in Heq. rewrite <-app_assoc in Heq.
  apply text_field_prefix in Heq as [_ Heq]; [|done..]. apply (f_equal blen) in Heq.
  unfold server_part_bytes in Heq. blen_solve.
Qed.

Lemma handshake_directions_disjoint_witness :
  decode_handshake [Byte.x01; Byte.x61; Byte.x18; Byte.x00] true
  = Err (Truncated "server_id length" 1 0) ∧
  is_ok (decode_handshake [Byte.x01; Byte.x61; Byte.x18; Byte.x00] true) = false.
Proof.
  split; [vm_compute; reflexivity|].
  apply (handshake_directions_disjoint _
    {| hs_prefix := [Byte.x61]; capability_flags := 24; server_identity := None; hs_routes := [] |}).
  vm_compute. reflexivity.
Defined.

(** The permanent preamble: for a 16-byte header and a 9-byte payload, the
    header check accepts exactly the fixed length, request id 0 and the flags of the
    direction, the payload decoder returns kind [k] and version [v] exactly on the
    magic, [k] and a nonzero 32-bit [v], and the encoder's 25 bytes pass both checks
    with this implementation's version; nothing panics. *)
Theorem version_preamble_exact (header payload : bytes) (response : bool)
    (kind : VersionPreambleKind) (v : Z) :
  blen header = 16 → blen payload = 9 →
  validate_version_preamble_header header response ≠ Panic
  ∧ decode_version_preamble_payload payload ≠ Panic
  ∧ (validate_version_preamble_header header response = Ok tt ↔
       header = take 16 (encode_version_preamble (if response then Accepted else Hello)))
  ∧ (decode_version_preamble_payload payload = Ok (kind, v) ↔
       0 < v < 2 ^ 32 ∧ payload = PREAMBLE_MAGIC ++ [byte.of_Z (preamble_kind_byte kind)] ++ to_le 4 v)
  ∧ drop 16 (encode_version_preamble kind)
    = PREAMBLE_MAGIC ++ [byte.of_Z (preamble_kind_byte kind)] ++ to_le 4 HANDSHAKE_VERSION.
Proof.
  intros Hh Hp. split_and!.
  - eapply safe_not_panic with (Q := fun _ => True). unfold validate_version_preamble_header.
    do 3 (eapply safe_bind; [apply safe_read_le; lia|]; intros ? _). apply check_expected_safe.
  - eapply safe_not_panic with (Q := fun _ => True). unfold decode_version_preamble_payload.
    eapply safe_bind; [apply safe_slice; lia|]. intros magic _.
    apply safe_bind_true; [by apply safe_guard_err|intros _].
    eapply safe_bind; [apply safe_index; lia|]. intros k _.
    apply safe_bind_true; [by repeat case_match|intros ?].
    eapply safe_bind; [apply safe_read_le; lia|]. intros ? _.
    apply safe_bind_true; [by apply safe_guard_err|done].
  - rewrite preamble_header_iff by done. by destruct response.
  - by apply preamble_payload_iff.
  - by destruct kind.
Qed.

Lemma version_preamble_exact_witness :
  validate_version_preamble_header (take 16 (encode_version_preamble Hello)) false = Ok tt
  ∧ decode_version_preamble_payload (drop 16 (encode_version_preamble Hello)) = Ok (Hello, 15).
Proof.
  destruct (version_preamble_exact (take 16 (encode_version_preamble Hello))
    (drop 16 (encode_version_preamble Hello)) false Hello 15 eq_refl eq_refl)
    as (_ & _ & [_ Hh] & [_ Hp] & _).
  split; [apply Hh; reflexivity|apply Hp; split; [lia|reflexivity]].
Defined.
