(* ===== verification/Release.v ===== *)
(** Release records of c2-wire (release.rs): one bounded frame that returns
    shared-memory loans to their owner. *)

From S2P Require Import Prelude.
From S2P Require Import Frame.
From S2P Require Import Codec.
From S2P Require Import Control.

Definition IPC_RELEASE_BATCH_CAPACITY : Z := 64.

(** The fixed array and the number of entries in use. *)
Record ReleaseBatch := { rb_array : list Z; rb_count : Z }.

Definition ReleaseBatch_new (ids : list Z) : res EncodeError ReleaseBatch :=
  guard_err (bool_decide (ids = []))
    (EncInvalidText "release count" (RText "must be at least one")) ;?
  guard_err (IPC_RELEASE_BATCH_CAPACITY <? blen ids)
    (EncFieldTooLong "release count" IPC_RELEASE_BATCH_CAPACITY (blen ids)) ;?
  let? array := store (replicate (Z.to_nat IPC_RELEASE_BATCH_CAPACITY) 0) 0 ids in
  Ok {| rb_array := array; rb_count := blen ids |}.

Definition rb_ids (batch : ReleaseBatch) : list Z := take (Z.to_nat (rb_count batch)) (rb_array batch).

Definition release_flags (response : bool) : Z :=
  Z.lor FLAG_CTRL (if response then FLAG_RESPONSE else 0).

Definition append_release_frame (buf : bytes) (ids : list Z) (response : bool) : bytes :=
  buf
  ++ to_le 4 (wrap_u32 (14 + 8 * wrap_u32 (blen ids)))
  ++ to_le 8 0
  ++ to_le 4 (release_flags response)
  ++ [byte.of_Z (as_byte Release); byte.of_Z (blen ids)]
  ++ concat (to_le 8 <$> ids).

Definition encode_release_frame (batch : ReleaseBatch) (response : bool) : bytes :=
  append_release_frame [] (rb_ids batch) response.

(** [chunks_exact(8)]: at most one chunk per byte, so [length l] rounds reach the
    remainder. *)
Fixpoint chunks_exact8 (rounds : nat) (l : bytes) : list bytes :=
  match rounds with
  | O => []
  | S rounds => if 8 <=? blen l then take 8 l :: chunks_exact8 rounds (drop 8 l) else []
  end.

(** [for (id, bytes) in ids.iter_mut().zip(chunks)]. *)
Fixpoint fill_ids (ids : list Z) (chunks : list bytes) : list Z :=
  match ids, chunks with
  | _ :: ids, c :: chunks => from_le c :: fill_ids ids chunks
  | _, _ => ids
  end.

Definition decode_release_frame (header : FrameHeader) (payload : bytes)
    (response handshake_done : bool) : res DecodeError ReleaseBatch :=
  guard_err (negb handshake_done) (InvalidValue "release before handshake" 0) ;?
  guard_err (negb (request_id header =? 0)) (InvalidValue "release request id" (request_id header)) ;?
  let expected_flags := release_flags response in
  guard_err (negb (flags header =? expected_flags)) (InvalidValue "release flags" (flags header)) ;?
  guard_err (blen payload <? 2) (BufferTooShort 2 (blen payload)) ;?
  let? p0 := index payload 0 in
  guard_err (negb (u8 p0 =? as_byte Release)) (InvalidValue "release type" (u8 p0)) ;?
  let? p1 := index payload 1 in
  let count := u8 p1 in
  guard_err (negb ((1 <=? count) && (count <=? IPC_RELEASE_BATCH_CAPACITY)))
    (InvalidValue "release count" count) ;?
  let expected := 2 + 8 * count in
  guard_err (negb (blen payload =? expected) || negb (total_len header =? 12 + expected))
    (InvalidValue "release length" (total_len header)) ;?
  let? tail := slice payload 2 (blen payload) in
  Ok {| rb_array := fill_ids (replicate (Z.to_nat IPC_RELEASE_BATCH_CAPACITY) 0)
                      (chunks_exact8 (length tail) tail);
        rb_count := count |}.

(** ** Well-formed batches *)

(** What [ReleaseBatch::new] builds: the given ids, then zeros up to the capacity. *)
Definition batch_of (ids : list Z) : ReleaseBatch :=
  {| rb_array := ids ++ replicate (Z.to_nat (64 - blen ids)) 0; rb_count := blen ids |}.

Definition ids_wf (ids : list Z) : Prop :=
  1 <= blen ids <= IPC_RELEASE_BATCH_CAPACITY ∧ Forall (fun i => 0 <= i < 2 ^ 64) ids.

Lemma new_batch ids :
  1 <= blen ids <= IPC_RELEASE_BATCH_CAPACITY → ReleaseBatch_new ids = Ok (batch_of ids).
Proof.
  unfold IPC_RELEASE_BATCH_CAPACITY. intros Hl. unfold ReleaseBatch_new, IPC_RELEASE_BATCH_CAPACITY.
  rewrite bool_decide_eq_false_2 by (intros ->; rewrite blen_nil in Hl; lia). cbn [guard_err res_bind]. rd_guard.
  unfold batch_of. rewrite <-(app_nil_l (replicate _ 0)).
  replace (Z.to_nat 64) with (length ids + Z.to_nat (64 - blen ids))%nat by (unfold blen in *; lia).
  rewrite replicate_add, (store_mid [] (replicate (length ids) 0)); [done|done|].
  unfold blen. by rewrite length_replicate.
Qed.

Lemma rb_ids_batch_of ids : rb_ids (batch_of ids) = ids.
Proof. unfold rb_ids, batch_of, blen. simpl. by rewrite Nat2Z.id, take_app_length. Qed.

Lemma blen_ids_bytes (ids : list Z) : blen (concat (to_le 8 <$> ids)) = 8 * blen ids.
Proof.
  induction ids as [|i ids IH]; cbn; [done|]. rewrite blen_app, blen_to_le, IH, blen_cons. lia.
Qed.

Lemma chunks_of_ids n (ids : list Z) :
  (length ids <= n)%nat → chunks_exact8 n (concat (to_le 8 <$> ids)) = to_le 8 <$> ids.
Proof.
  revert n. induction ids as [|i ids IH]; intros n Hn; destruct n; cbn [length] in Hn; try done; try lia.
  cbn [fmap list_fmap concat chunks_exact8].
  rewrite (proj2 (Z.leb_le _ _)) by blen_solve.
  rewrite take_app_length', drop_app_length' by (symmetry; apply length_le_split).
  f_equal. apply IH. lia.
Qed.

Lemma fill_ids_chunks (ids : list Z) k :
  Forall (fun i => 0 <= i < 2 ^ 64) ids →
  fill_ids (replicate (length ids + k) 0) (to_le 8 <$> ids) = ids ++ replicate k 0.
Proof.
  induction 1 as [|i ids Hi _ IH]; cbn; [by destruct k|].
  rewrite from_to_le by (norm_pow; lia). by rewrite IH.
Qed.

(** Every byte string of a multiple of eight bytes is the bytes of some ids. *)
Lemma bytes_are_ids n (l : bytes) :
  length l = (8 * n)%nat →
  ∃ ids, length ids = n ∧ Forall (fun i => 0 <= i < 2 ^ 64) ids ∧ l = concat (to_le 8 <$> ids).
Proof.
  revert l. induction n as [|n IH]; intros l Hl.
  - exists []. destruct l; [done|simpl in Hl; lia].
  - destruct (IH (drop 8 l)) as (ids & Hn & Hr & Hd); [rewrite length_drop; lia|].
    exists (from_le (take 8 l) :: ids). split_and!.
    + simpl. lia.
    + constructor; [|done]. pose proof (from_le_range (take 8 l)) as Hf.
      unfold blen in Hf. rewrite length_take in Hf. replace (8 `min` length l)%nat with 8%nat in Hf by lia. done.
    + cbn. rewrite to_from_le, <-Hd by (rewrite length_take; lia). by rewrite take_drop.
Qed.

Definition release_header (ids : list Z) (response : bool) : FrameHeader :=
  {| total_len := 14 + 8 * blen ids; request_id := 0; flags := release_flags response |}.

Definition release_payload (ids : list Z) : bytes :=
  [byte.of_Z (as_byte Release); byte.of_Z (blen ids)] ++ concat (to_le 8 <$> ids).

Lemma blen_release_payload ids : blen (release_payload ids) = 2 + 8 * blen ids.
Proof. unfold release_payload. rewrite blen_app, blen_ids_bytes, !blen_cons, blen_nil. lia. Qed.

Lemma append_release_frame_eq buf ids response :
  blen ids <= 64 →
  append_release_frame buf ids response = buf ++ encode_frame 0 (release_flags response) (release_payload ids).
Proof.
  intros Hl. unfold append_release_frame. rewrite encode_frame_eq, blen_release_payload.
  pose proof (blen_nonneg ids). unfold wrap_u32. rewrite (Z.mod_small (blen ids)) by lia.
  replace (12 + (2 + 8 * blen ids)) with (14 + 8 * blen ids) by lia. done.
Qed.

Lemma release_flags_fit response : 0 <= release_flags response < 2 ^ 32.
Proof. by destruct response. Qed.

Lemma decode_release_at ids response :
  ids_wf ids →
  decode_release_frame (release_header ids response) (release_payload ids) response true = Ok (batch_of ids).
Proof.
  intros [Hl Hi]. unfold IPC_RELEASE_BATCH_CAPACITY in Hl.
  pose proof (at_off_whole (release_payload ids)) as Hat. unfold release_payload in Hat at 2.
  pose proof (blen_release_payload ids) as Hlen.
  remember (release_payload ids) as payload eqn:Hp. clear Hp.
  unfold decode_release_frame, release_header, IPC_RELEASE_BATCH_CAPACITY. cbn [request_id flags total_len].
  rewrite !Z.eqb_refl. cbn [negb guard_err res_bind].
  simpl app in Hat. apply at_off_cons in Hat as [H0 Hat]. apply at_off_cons in Hat as [H1 Hat].
  rd_guard. rewrite (index_at_off _ _ _ H0). cbn [res_bind].
  rewrite u8_of_Z by (cbn; lia). rewrite Z.eqb_refl. cbn [negb guard_err res_bind].
  rewrite (index_at_off _ _ _ H1). cbn [res_bind]. rewrite u8_of_Z by lia.
  destruct (negb (_ && _)) eqn:E1; [lia|]. destruct (_ || _) eqn:E2; [lia|]. cbn [guard_err res_bind].
  rewrite (slice_at_off _ _ _ _ Hat) by (rewrite blen_ids_bytes; lia). cbn [res_bind].
  pose proof (blen_ids_bytes ids) as Hb. unfold blen in Hb. rewrite chunks_of_ids by lia.
  replace (Z.to_nat 64) with (length ids + Z.to_nat (64 - blen ids))%nat by (unfold blen in *; lia).
  by rewrite fill_ids_chunks.
Qed.

Lemma decode_release_sound h payload response hs b :
  decode_release_frame h payload response hs = Ok b →
  hs = true ∧ ∃ ids, ids_wf ids ∧ b = batch_of ids ∧ h = release_header ids response
                     ∧ payload = release_payload ids.
Proof.
  intros H. assert (decode_release_frame h payload response hs = Ok b) as Hcopy by done.
  unfold decode_release_frame, IPC_RELEASE_BATCH_CAPACITY in H. res_inv H. res_sat. simplify_eq.
  match goal with H : at_off _ 0 [?x], H' : at_off _ 1 [?y] |- _ => rename x into b0, y into b1 end.
  match goal with H : at_off _ 2 ?t |- _ => rename t into tail end.
  destruct (bytes_are_ids (Z.to_nat (u8 b1)) tail) as (ids & Hn & Hr & ->).
  { pose proof (u8_range b1). unfold blen in *. lia. }
  assert (u8 b1 = blen ids) as Hc by (pose proof (u8_range b1); unfold blen; lia).
  assert (ids_wf ids) as Hwf by (split; [unfold IPC_RELEASE_BATCH_CAPACITY; lia|done]).
  assert (payload = release_payload ids) as ->.
  { unfold release_payload. rewrite <-Hc, of_Z_u8.
    replace (byte.of_Z (as_byte Release)) with b0 by (rewrite <-(of_Z_u8 b0); f_equal; cbn; lia).
    apply at_off_full; [at_solve|]. rewrite blen_app, blen_ids_bytes, !blen_cons, blen_nil. lia. }
  assert (h = release_header ids response) as ->.
  { destruct h; unfold release_header; cbn in *. f_equal; lia. }
  destruct hs; [|done]. rewrite decode_release_at in Hcopy by done. split; [done|].
  exists ids. split_and!; [done|congruence|done|done].
Qed.

(** ** Properties *)

(** Release frames: decoding accepts exactly the header and payload of a batch
    of 1 to 64 loan ids sent in the expected direction after the handshake, and
    returns those ids in wire order; it never panics.  The encoder's bytes of such a
    batch, followed by anything, parse back through the frame decoder. *)
Theorem release_frame_exact (h : FrameHeader) (payload : bytes) (response hs : bool)
    (b : ReleaseBatch) :
  decode_release_frame h payload response hs ≠ Panic
  ∧ (decode_release_frame h payload response hs = Ok b ↔
      hs = true ∧ ∃ ids, ids_wf ids ∧ ReleaseBatch_new ids = Ok b
        ∧ (∀ rest, decode_frame (encode_release_frame b response ++ rest) = Ok (h, payload))).
Proof.
  split.
  - eapply safe_not_panic with (Q := fun _ => True). unfold decode_release_frame.
    do 3 (apply safe_bind_true; [by apply safe_guard_err|intros _]).
    eapply safe_bind; [apply (safe_guard_err _ _ (fun _ => 2 <= blen payload)); lia|]. intros [] ?.
    eapply safe_bind; [apply safe_index; lia|]. intros p0 _.
    apply safe_bind_true; [by apply safe_guard_err|intros _].
    eapply safe_bind; [apply safe_index; lia|]. intros p1 _.
    do 2 (apply safe_bind_true; [by apply safe_guard_err|intros _]).
    eapply safe_bind; [apply safe_slice; lia|done].
  - assert (∀ ids rest, ids_wf ids →
      decode_frame (encode_release_frame (batch_of ids) response ++ rest)
      = Ok (release_header ids response, release_payload ids)) as Hframe.
    { intros ids rest [Hl _]. unfold IPC_RELEASE_BATCH_CAPACITY in Hl.
      pose proof (blen_release_payload ids) as Hlen.
      unfold encode_release_frame. rewrite rb_ids_batch_of, append_release_frame_eq by lia.
      rewrite app_nil_l, decode_frame_encode.
      - rewrite Hlen. unfold release_header. do 3 f_equal. lia.
      - split; [lia|]. split; [apply release_flags_fit|]. lia. }
    split.
    + intros (-> & ids & Hwf & -> & -> & ->)%decode_release_sound. split; [done|]. exists ids.
      rewrite new_batch by apply Hwf. auto.
    + intros (-> & ids & Hwf & Hb & Hd). rewrite new_batch in Hb by apply Hwf. injection Hb as <-.
      specialize (Hd []). rewrite Hframe in Hd by done. injection Hd as <- <-.
      by apply decode_release_at.
Qed.
