(* ===== verification/Bitmap.v ===== *)
(** One level of free bits of the buddy tree (c2-mem, alloc/bitmap.rs): 64-bit
    words scanned from the lowest bit. *)

From S2P Require Import Prelude.

(** ** 64-bit words *)

Fixpoint ctz_pos (p : positive) : Z :=
  match p with xO p => 1 + ctz_pos p | _ => 0 end.

(** [u64::trailing_zeros]. *)
Definition trailing_zeros (w : Z) : Z := match w with Zpos p => ctz_pos p | _ => 64 end.

(** [word & !(1 << bit)] and [word | (1 << bit)]. *)
Definition clear_bit (w bit : Z) : Z := Z.land w (Z.lxor U64_MAX (Z.shiftl 1 bit)).
Definition set_bit (w bit : Z) : Z := Z.lor w (Z.shiftl 1 bit).

(** [n.div_ceil(d)]. *)
Definition div_ceil (n d : Z) : Z := (n + d - 1) / d.

(** ** LevelBitmap *)

Record LevelBitmap := { words : list Z; num_blocks : Z }.

Definition LevelBitmap_new (num_blocks : Z) : LevelBitmap :=
  {| words := replicate (Z.to_nat (div_ceil num_blocks 64)) 0; num_blocks := num_blocks |}.

(** The scan of [alloc_one]: the words already passed are in front of the result. *)
Fixpoint scan_words (ws : list Z) (index : Z) : option (Z * list Z) :=
  match ws with
  | [] => None
  | w :: rest =>
      if negb (w =? 0) then
        let bit := trailing_zeros w in
        Some (index * 64 + bit, clear_bit w bit :: rest)
      else
        match scan_words rest (index + 1) with
        | Some (b, rest) => Some (b, w :: rest)
        | None => None
        end
  end.

Definition alloc_one (bm : LevelBitmap) : option (Z * LevelBitmap) :=
  match scan_words (words bm) 0 with
  | Some (b, ws) => Some (b, {| words := ws; num_blocks := num_blocks bm |})
  | None => None
  end.

(** The bounds of [debug_assert!] and of the word index; both panic. *)
Definition free_one {E} (bm : LevelBitmap) (block : Z) : res E LevelBitmap :=
  guard_panic (block <? num_blocks bm) ;?
  let? w := index (words bm) (block / 64) in
  Ok {| words := <[Z.to_nat (block / 64) := set_bit w (block mod 64)]> (words bm);
        num_blocks := num_blocks bm |}.

Definition is_free {E} (bm : LevelBitmap) (block : Z) : res E bool :=
  guard_panic (block <? num_blocks bm) ;?
  let? w := index (words bm) (block / 64) in
  Ok (negb (Z.land w (Z.shiftl 1 (block mod 64)) =? 0)).

Definition mark_used {E} (bm : LevelBitmap) (block : Z) : res E LevelBitmap :=
  guard_panic (block <? num_blocks bm) ;?
  let? w := index (words bm) (block / 64) in
  Ok {| words := <[Z.to_nat (block / 64) := clear_bit w (block mod 64)]> (words bm);
        num_blocks := num_blocks bm |}.

(** [num_levels]; [ilog2] panics on zero, as does the division. *)
Definition num_levels {E} (data_size min_block : Z) : res E Z :=
  guard_panic (0 <? min_block) ;?
  guard_panic (0 <? data_size / min_block) ;?
  Ok (Z.log2 (data_size / min_block) + 1).

(** ** The set of free blocks a bitmap stands for *)

(** Bit [b] of the concatenated words. *)
Definition bit_at (ws : list Z) (b : Z) : bool :=
  match ws !! Z.to_nat (b / 64) with Some w => Z.testbit w (b mod 64) | None => false end.

Definition free (bm : LevelBitmap) (b : Z) : Prop := 0 <= b ∧ bit_at (words bm) b = true.

Record bm_wf (bm : LevelBitmap) : Prop := {
  bm_pos : 0 <= num_blocks bm;
  bm_len : blen (words bm) = div_ceil (num_blocks bm) 64;
  bm_words : Forall (fun w => 0 <= w < 2 ^ 64) (words bm);
  bm_tail b : free bm b → b < num_blocks bm }.

(** ** Bits *)

Lemma ctz_pos_spec p :
  0 <= ctz_pos p ∧ Z.testbit (Zpos p) (ctz_pos p) = true
  ∧ ∀ k, 0 <= k < ctz_pos p → Z.testbit (Zpos p) k = false.
Proof.
  induction p as [p _|p (IH0 & IH1 & IH2)|]; simpl ctz_pos; [split_and!; [lia|done|lia]| |split_and!; [lia|done|lia]].
  split_and!; [lia| |].
  - rewrite (Pos2Z.inj_xO p). replace (1 + ctz_pos p) with (Z.succ (ctz_pos p)) by lia.
    by rewrite Z.double_bits_succ.
  - intros k Hk. rewrite (Pos2Z.inj_xO p). destruct (Z.eq_dec k 0) as [->|]; [done|].
    replace k with (Z.succ (k - 1)) by lia. rewrite Z.double_bits_succ. apply IH2. lia.
Qed.

Lemma testbit_u64_max k : 0 <= k < 64 → Z.testbit U64_MAX k = true.
Proof. intros. change U64_MAX with (Z.ones 64). apply Z.ones_spec_low. lia. Qed.

Lemma testbit_range w k : 0 <= w < 2 ^ 64 → 64 <= k → Z.testbit w k = false.
Proof.
  intros [Hw0 Hw] Hk. destruct (Z.eq_dec w 0) as [->|]; [apply Z.bits_0|].
  apply Z.bits_above_log2; [done|]. apply Z.log2_lt_pow2; [lia|].
  eapply Z.lt_le_trans; [exact Hw|]. apply Z.pow_le_mono_r; lia.
Qed.

Lemma range_of_bits w : 0 <= w → (∀ k, 64 <= k → Z.testbit w k = false) → w < 2 ^ 64.
Proof.
  intros H0 Hb. destruct (Z.eq_dec w 0) as [->|]; [lia|].
  apply Z.log2_lt_pow2; [lia|]. destruct (Z.lt_ge_cases (Z.log2 w) 64) as [|Hge]; [done|].
  specialize (Hb _ Hge). rewrite Z.bit_log2 in Hb by lia. done.
Qed.

Lemma testbit_clear w k i :
  0 <= w < 2 ^ 64 → 0 <= k < 64 → 0 <= i → Z.testbit (clear_bit w k) i = Z.testbit w i && negb (i =? k).
Proof.
  intros Hw Hk Hi. unfold clear_bit. rewrite Z.land_spec, Z.lxor_spec, Z.shiftl_1_l.
  destruct (Z.lt_ge_cases i 64) as [Hlt|Hge].
  - rewrite testbit_u64_max, Z.pow2_bits_eqb by lia. rewrite (Z.eqb_sym k). by destruct (i =? k).
  - by rewrite testbit_range by lia.
Qed.

Lemma testbit_set w k i :
  0 <= k → Z.testbit (set_bit w k) i = Z.testbit w i || (i =? k).
Proof.
  intros Hk. unfold set_bit. rewrite Z.lor_spec, Z.shiftl_1_l.
  rewrite Z.pow2_bits_eqb by lia. by rewrite (Z.eqb_sym k).
Qed.

Lemma clear_bit_range w k : 0 <= w < 2 ^ 64 → 0 <= k < 64 → 0 <= clear_bit w k < 2 ^ 64.
Proof.
  intros Hw Hk. assert (0 <= clear_bit w k).
  { unfold clear_bit. apply Z.land_nonneg. lia. }
  split; [done|]. apply range_of_bits; [done|]. intros i Hi.
  rewrite testbit_clear, testbit_range by lia. done.
Qed.

Lemma set_bit_range w k : 0 <= w < 2 ^ 64 → 0 <= k < 64 → 0 <= set_bit w k < 2 ^ 64.
Proof.
  intros Hw Hk. assert (0 <= set_bit w k).
  { unfold set_bit. apply Z.lor_nonneg. rewrite Z.shiftl_1_l. split; [lia|]. apply Z.pow_nonneg. lia. }
  split; [done|]. apply range_of_bits; [done|]. intros i Hi.
  rewrite testbit_set, testbit_range by lia. apply Z.eqb_neq. lia.
Qed.

(** ** Words and blocks *)

Lemma bit_at_insert ws b v c w :
  0 <= b → 0 <= c → ws !! Z.to_nat (b / 64) = Some w →
  bit_at (<[Z.to_nat (b / 64) := v]> ws) c =
    if c / 64 =? b / 64 then Z.testbit v (c mod 64) else bit_at ws c.
Proof.
  intros Hb Hc Hw. unfold bit_at. pose proof (Z.div_pos b 64 Hb). pose proof (Z.div_pos c 64 Hc).
  destruct (Z.eqb_spec (c / 64) (b / 64)) as [->|Hne].
  - rewrite list_lookup_insert_eq; [done|by apply lookup_lt_Some in Hw].
  - rewrite list_lookup_insert_ne by lia. done.
Qed.

Lemma block_word bm b :
  bm_wf bm → 0 <= b < num_blocks bm →
  ∃ w, words bm !! Z.to_nat (b / 64) = Some w ∧ 0 <= w < 2 ^ 64
       ∧ ∀ E, index (E:=E) (words bm) (b / 64) = Ok w.
Proof.
  intros [Hp Hl Hw _] Hb. unfold div_ceil in Hl.
  assert (0 <= b / 64 < blen (words bm)) as Hi.
  { rewrite Hl. split; [apply Z.div_pos; lia|]. apply Z.div_lt_upper_bound; [lia|].
    pose proof (Z.mul_succ_div_gt (num_blocks bm + 64 - 1) 64). lia. }
  unfold blen in Hi.
  destruct (lookup_lt_is_Some_2 (words bm) (Z.to_nat (b / 64))) as [w Hlk]; [lia|].
  exists w. split_and!; [done|by eapply (Forall_lookup_1 _ _ _ _ Hw Hlk)..|].
  intros E. unfold index, blen. rewrite Hlk. by rewrite (proj2 (Z.leb_le _ _)), (proj2 (Z.ltb_lt _ _)) by lia.
Qed.

Lemma same_block b c : 0 <= b → 0 <= c → c / 64 = b / 64 → c mod 64 = b mod 64 ↔ c = b.
Proof. intros. pose proof (Z.div_mod b 64). pose proof (Z.div_mod c 64). lia. Qed.

(** Replacing the word of block [b] by one that differs only in its bit. *)
Lemma update_block bm b (set : bool) v w :
  bm_wf bm → 0 <= b < num_blocks bm → words bm !! Z.to_nat (b / 64) = Some w →
  0 <= v < 2 ^ 64 →
  (∀ i, 0 <= i < 64 → Z.testbit v i = if i =? b mod 64 then set else Z.testbit w i) →
  let bm' := {| words := <[Z.to_nat (b / 64) := v]> (words bm); num_blocks := num_blocks bm |} in
  bm_wf bm' ∧ ∀ c, free bm' c ↔ if set then free bm c ∨ c = b else free bm c ∧ c ≠ b.
Proof.
  intros Hwf Hb Hlk Hv Hbits bm'.
  assert (∀ c, free bm' c ↔ if set then free bm c ∨ c = b else free bm c ∧ c ≠ b) as Hfree.
  { intros c. unfold free. simpl. destruct (decide (0 <= c)) as [Hc|]; [|destruct set; lia].
    rewrite (bit_at_insert (words bm) b v c w) by (done || lia).
    destruct (Z.eqb_spec (c / 64) (b / 64)) as [Heq|Hne].
    - rewrite Hbits by (apply Z.mod_pos_bound; lia).
      pose proof (same_block b c ltac:(lia) Hc Heq).
      assert (bit_at (words bm) c = Z.testbit w (c mod 64)) as -> by (unfold bit_at; by rewrite Heq, Hlk).
      destruct (Z.eqb_spec (c mod 64) (b mod 64)); destruct set; naive_solver.
    - assert (c ≠ b) by congruence. destruct set; naive_solver. }
  split; [|done]. destruct Hwf as [Hp Hl Hw Ht]. split; simpl; [done| | |].
  - unfold blen in *. by rewrite length_insert.
  - by apply Forall_insert.
  - intros c Hf. apply Hfree in Hf. destruct set; [destruct Hf as [Hf| ->]|destruct Hf as [Hf _]]; auto; lia.
Qed.

Lemma free_one_spec {E} bm b :
  bm_wf bm → 0 <= b < num_blocks bm →
  ∃ bm', free_one (E:=E) bm b = Ok bm' ∧ bm_wf bm' ∧ num_blocks bm' = num_blocks bm
         ∧ ∀ c, free bm' c ↔ free bm c ∨ c = b.
Proof.
  intros Hwf Hb. destruct (block_word bm b Hwf Hb) as (w & Hlk & Hw & Hi).
  assert (0 <= b mod 64 < 64) as Hm by (apply Z.mod_pos_bound; lia).
  unfold free_one. rewrite (proj2 (Z.ltb_lt _ _)) by lia. simpl. rewrite Hi. simpl.
  destruct (update_block bm b true (set_bit w (b mod 64)) w Hwf Hb Hlk) as [Hwf' Hf].
  - by apply set_bit_range.
  - intros i ?. rewrite testbit_set by lia. by destruct (i =? b mod 64), (Z.testbit w i).
  - eexists. split; [done|]. split; [done|]. by split.
Qed.

Lemma mark_used_spec {E} bm b :
  bm_wf bm → 0 <= b < num_blocks bm →
  ∃ bm', mark_used (E:=E) bm b = Ok bm' ∧ bm_wf bm' ∧ num_blocks bm' = num_blocks bm
         ∧ ∀ c, free bm' c ↔ free bm c ∧ c ≠ b.
Proof.
  intros Hwf Hb. destruct (block_word bm b Hwf Hb) as (w & Hlk & Hw & Hi).
  assert (0 <= b mod 64 < 64) as Hm by (apply Z.mod_pos_bound; lia).
  unfold mark_used. rewrite (proj2 (Z.ltb_lt _ _)) by lia. simpl. rewrite Hi. simpl.
  destruct (update_block bm b false (clear_bit w (b mod 64)) w Hwf Hb Hlk) as [Hwf' Hf].
  - by apply clear_bit_range.
  - intros i ?. rewrite testbit_clear by lia. by destruct (i =? b mod 64), (Z.testbit w i).
  - eexists. split; [done|]. split; [done|]. by split.
Qed.

Lemma is_free_spec {E} bm b :
  bm_wf bm → 0 <= b < num_blocks bm →
  ∃ r, is_free (E:=E) bm b = Ok r ∧ (r = true ↔ free bm b).
Proof.
  intros Hwf Hb. destruct (block_word bm b Hwf Hb) as (w & Hlk & Hw & Hi).
  assert (0 <= b mod 64 < 64) as Hm by (apply Z.mod_pos_bound; lia).
  unfold is_free. rewrite (proj2 (Z.ltb_lt _ _)) by lia. simpl. rewrite Hi. simpl.
  eexists. split; [done|]. rewrite land_bit by lia. unfold free, bit_at. rewrite Hlk.
  split; [split; [lia|done]|by intros [_ ?]].
Qed.

Lemma bit_at_cons w ws c :
  0 <= c → bit_at (w :: ws) c = if c <? 64 then Z.testbit w c else bit_at ws (c - 64).
Proof.
  intros Hc. unfold bit_at. destruct (Z.ltb_spec c 64).
  - by rewrite (Z.div_small c), (Z.mod_small c) by lia.
  - replace (c / 64) with (1 + (c - 64) / 64) by (rewrite <-Z.div_add_l by lia; f_equal; lia).
    replace ((c - 64) mod 64) with (c mod 64) by
      (symmetry; replace (c - 64) with (c + (-1) * 64) by lia; apply Z.mod_add; lia).
    assert (0 <= (c - 64) / 64) by (apply Z.div_pos; lia).
    by replace (Z.to_nat (1 + (c - 64) / 64)) with (S (Z.to_nat ((c - 64) / 64))) by lia.
Qed.

Lemma trailing_zeros_spec w :
  0 <= w < 2 ^ 64 → w ≠ 0 →
  0 <= trailing_zeros w < 64 ∧ Z.testbit w (trailing_zeros w) = true
  ∧ ∀ k, 0 <= k < trailing_zeros w → Z.testbit w k = false.
Proof.
  intros Hw Hne. destruct w as [|p|p]; [done| |lia].
  destruct (ctz_pos_spec p) as (H0 & H1 & H2). simpl trailing_zeros. split_and!; [done| |done|done].
  destruct (Z.lt_ge_cases (ctz_pos p) 64) as [|Hge]; [done|].
  by rewrite (testbit_range _ _ Hw Hge) in H1.
Qed.

(** The scan takes the lowest set bit and clears it. *)
Lemma scan_words_spec ws base :
  Forall (fun w => 0 <= w < 2 ^ 64) ws →
  match scan_words ws base with
  | None => ∀ c, bit_at ws c = false
  | Some (b, ws') =>
      ∃ b0, b = base * 64 + b0 ∧ 0 <= b0 ∧ bit_at ws b0 = true ∧ length ws' = length ws
      ∧ Forall (fun w => 0 <= w < 2 ^ 64) ws'
      ∧ (∀ c, 0 <= c < b0 → bit_at ws c = false)
      ∧ ∀ c, 0 <= c → bit_at ws' c = bit_at ws c && negb (c =? b0)
  end.
Proof.
  intros Hws. revert base. induction Hws as [|w ws Hw Hws IH]; intros base; simpl; [done|].
  destruct (Z.eqb_spec w 0) as [->|Hne]; simpl.
  - specialize (IH (base + 1)). destruct (scan_words ws (base + 1)) as [[b ws']|].
    + destruct IH as (b0 & -> & Hb0 & Hbit & Hl & Hr & Hlow & Hc). exists (64 + b0).
      split_and!; [lia|lia| |simpl; lia|by constructor| |].
      * rewrite bit_at_cons, (proj2 (Z.ltb_ge _ _)) by lia. by replace (64 + b0 - 64) with b0 by lia.
      * intros c Hcr. rewrite bit_at_cons by lia. destruct (Z.ltb_spec c 64); [apply Z.bits_0|].
        apply Hlow. lia.
      * intros c Hcr. rewrite !bit_at_cons by lia.
        destruct (Z.ltb_spec c 64); [by rewrite Z.bits_0|]. rewrite Hc by lia. f_equal. lia.
    + intros c. destruct (decide (0 <= c)).
      * rewrite bit_at_cons by done. case_match; [apply Z.bits_0|apply IH].
      * unfold bit_at. replace (Z.to_nat (c / 64)) with 0%nat by (assert (c / 64 < 0) by (apply Z.div_lt_upper_bound; lia); lia).
        simpl. apply Z.bits_0.
  - destruct (trailing_zeros_spec w Hw Hne) as (Hr & Hbit & Hlow).
    exists (trailing_zeros w). split_and!; [done|lia| |done| | |].
    + by rewrite bit_at_cons, (proj2 (Z.ltb_lt _ _)) by lia.
    + constructor; [by apply clear_bit_range|done].
    + intros c Hc. rewrite bit_at_cons, (proj2 (Z.ltb_lt _ _)) by lia. by apply Hlow.
    + intros c Hc. rewrite !bit_at_cons by lia. destruct (Z.ltb_spec c 64).
      * by apply testbit_clear.
      * rewrite (proj2 (Z.eqb_neq c _)) by lia. by rewrite andb_true_r.
Qed.

Lemma alloc_one_spec bm :
  bm_wf bm →
  match alloc_one bm with
  | None => ∀ c, ¬ free bm c
  | Some (b, bm') =>
      free bm b ∧ (∀ c, free bm c → b <= c) ∧ bm_wf bm' ∧ num_blocks bm' = num_blocks bm
      ∧ ∀ c, free bm' c ↔ free bm c ∧ c ≠ b
  end.
Proof.
  intros [Hp Hl Hw Ht]. unfold alloc_one. pose proof (scan_words_spec (words bm) 0 Hw) as Hs.
  destruct (scan_words (words bm) 0) as [[b ws']|].
  2: { intros c [_ Hc]. by rewrite Hs in Hc. }
  destruct Hs as (b0 & -> & Hb0 & Hbit & Hlen & Hw' & Hlow & Hc). simpl.
  assert (∀ c, free {| words := ws'; num_blocks := num_blocks bm |} c ↔ free bm c ∧ c ≠ b0) as Hfree.
  { intros c. unfold free. simpl. destruct (decide (0 <= c)); [|naive_solver].
    rewrite Hc, andb_true_iff, negb_true_iff, Z.eqb_neq by done. tauto. }
  split_and!; [done| | |done|done].
  - intros c [Hc0 Hcb]. destruct (Z.lt_ge_cases c b0); [|done]. by rewrite Hlow in Hcb by lia.
  - split; simpl; [done|unfold blen in *; lia|done|]. intros c [Hf _]%Hfree. by apply Ht.
Qed.

Lemma new_bitmap_spec n :
  0 <= n → bm_wf (LevelBitmap_new n) ∧ num_blocks (LevelBitmap_new n) = n
           ∧ ∀ c, ¬ free (LevelBitmap_new n) c.
Proof.
  intros Hn. assert (∀ c, ¬ free (LevelBitmap_new n) c) as Hf.
  { intros c [_ Hc]. unfold bit_at in Hc. destruct (words _ !! _) eqn:Hl; [|done].
    apply lookup_replicate in Hl as [-> _]. by rewrite Z.bits_0 in Hc. }
  assert (0 <= div_ceil n 64) by (apply Z.div_pos; lia).
  split_and!; [|done|done]. split; simpl; [done| | |].
  - unfold blen. rewrite length_replicate. lia.
  - apply Forall_replicate. lia.
  - intros b Hb. by destruct (Hf b).
Qed.

(** ** Property *)

(** A level's words behave as a set of free blocks.  From a well-formed bitmap,
    [alloc_one] takes the smallest free block and only that one, and returns nothing
    only when no block is free; on a block of the level, [free_one], [mark_used] and
    [is_free] never panic and add, remove and test exactly that block; a new bitmap
    is empty.  Well-formedness (words of 64 bits, no bit past the last block) is
    preserved throughout. *)
Theorem level_bitmap_refines_set (bm : LevelBitmap) (b : Z) :
  bm_wf bm → 0 <= b < num_blocks bm →
  match alloc_one bm with
  | None => ∀ c, ¬ free bm c
  | Some (a, bm') =>
      free bm a ∧ (∀ c, free bm c → a <= c) ∧ bm_wf bm' ∧ ∀ c, free bm' c ↔ free bm c ∧ c ≠ a
  end
  ∧ (∃ bm', free_one (E:=unit) bm b = Ok bm' ∧ bm_wf bm' ∧ ∀ c, free bm' c ↔ free bm c ∨ c = b)
  ∧ (∃ bm', mark_used (E:=unit) bm b = Ok bm' ∧ bm_wf bm' ∧ ∀ c, free bm' c ↔ free bm c ∧ c ≠ b)
  ∧ (∃ r, is_free (E:=unit) bm b = Ok r ∧ (r = true ↔ free bm b))
  ∧ (∀ n, 0 <= n → bm_wf (LevelBitmap_new n) ∧ ∀ c, ¬ free (LevelBitmap_new n) c).
Proof.
  intros Hwf Hb. split_and!.
  - pose proof (alloc_one_spec bm Hwf) as Ha. destruct (alloc_one bm) as [[a bm']|]; [|done].
    by destruct Ha as (? & ? & ? & _ & ?).
  - destruct (free_one_spec (E:=unit) bm b Hwf Hb) as (bm' & ? & ? & _ & ?). by exists bm'.
  - destruct (mark_used_spec (E:=unit) bm b Hwf Hb) as (bm' & ? & ? & _ & ?). by exists bm'.
  - by apply is_free_spec.
  - intros n Hn. by destruct (new_bitmap_spec n Hn) as (? & _ & ?).
Qed.

Lemma level_bitmap_refines_set_witness :
  ∃ bm', free_one (E:=unit) (LevelBitmap_new 131) 130 = Ok bm'
         ∧ ∀ c, free bm' c ↔ free (LevelBitmap_new 131) c ∨ c = 130.
Proof.
  destruct (new_bitmap_spec 131 ltac:(lia)) as (Hwf & Hn & _).
  destruct (level_bitmap_refines_set (LevelBitmap_new 131) 130 Hwf ltac:(simpl; lia))
    as (_ & (bm' & Hf & _ & Hc) & _).
  by exists bm'.
Defined.
