(* ===== verification/BuddyTree.v ===== *)
(** Geometry of the buddy tree: free blocks and live blocks partition the leaves.
    The allocator's loops are sequences of four moves on such partitions: take a
    free block, split a held block, merge a held block with its buddy, and give a
    held block back. *)

From S2P Require Import Prelude.

Section tree.
Context (L : nat).

(** A block is a level (0 is the whole segment, [L] the leaves) and an index; the
    block of level [l] over leaf [x] is [anc x l]. *)
Notation block := (nat * Z)%type.

Definition pow (n : nat) : Z := 2 ^ Z.of_nat n.
Definition anc (x : Z) (l : nat) : Z := x / pow (L - l).
Definition leaf (x : Z) : Prop := 0 <= x < pow L.
Definition valid (b : block) : Prop := (b.1 <= L)%nat ∧ 0 <= b.2 < pow b.1.

Implicit Types (F : nat → Z → Prop) (A : list block).

(** [F] are the free blocks, [A] the live ones. *)
Record part F A : Prop := {
  part_valid_free l i : F l i → valid (l, i);
  part_valid_live b : b ∈ A → valid b;
  part_nodup : NoDup A;
  part_excl l i : F l i → (l, i) ∉ A;
  part_cover x : leaf x → ∃ l, (l <= L)%nat ∧ (F l (anc x l) ∨ (l, anc x l) ∈ A);
  part_disj x l1 l2 : leaf x →
    F l1 (anc x l1) ∨ (l1, anc x l1) ∈ A → F l2 (anc x l2) ∨ (l2, anc x l2) ∈ A → l1 = l2;
  part_coal l i : F l i → (0 < l)%nat → ¬ F l (Z.lxor i 1) }.

(** Partitions are about the extension of [F]. *)
#[export] Instance part_proper :
  Proper (pointwise_relation nat (pointwise_relation Z iff) ==> eq ==> iff) part.
Proof.
  intros F F' HF A ? <-.
  assert (∀ F F', (∀ l i, F l i ↔ F' l i) → part F A → part F' A) as Himp.
  { clear. intros F F' HF []. split; intros *; rewrite <-?HF; eauto.
    - intros Hx. destruct (part_cover0 x Hx) as (l & ? & ?). exists l. by rewrite <-HF. }
  split; apply Himp; intros l i; [|symmetry]; apply HF.
Qed.

(** ** Arithmetic of ancestors *)

Lemma pow_pos n : 0 < pow n.
Proof. apply Z.pow_pos_nonneg; lia. Qed.

Lemma pow_S n : pow (S n) = 2 * pow n.
Proof. unfold pow. rewrite Nat2Z.inj_succ, Z.pow_succ_r by lia. done. Qed.

Lemma pow_add n m : pow (n + m) = pow n * pow m.
Proof. unfold pow. rewrite Nat2Z.inj_add. apply Z.pow_add_r; lia. Qed.

Lemma pow_split l : (l <= L)%nat → pow L = pow l * pow (L - l).
Proof. intros. rewrite <-pow_add. f_equal. lia. Qed.

Lemma anc_up x l : (l < L)%nat → anc x l = anc x (S l) / 2.
Proof.
  intros Hl. unfold anc. replace (L - l)%nat with (S (L - S l)) by lia. rewrite pow_S.
  pose proof (pow_pos (L - S l)). rewrite Z.div_div by lia. f_equal. lia.
Qed.

Lemma anc_children x l i :
  (l < L)%nat → anc x l = i ↔ anc x (S l) = 2 * i ∨ anc x (S l) = 2 * i + 1.
Proof.
  intros Hl. rewrite anc_up by done.
  pose proof (Z.div_mod (anc x (S l)) 2 ltac:(lia)).
  pose proof (Z.mod_pos_bound (anc x (S l)) 2 ltac:(lia)). lia.
Qed.

Lemma anc_valid x l : leaf x → (l <= L)%nat → valid (l, anc x l).
Proof.
  intros Hx Hl. split; [done|]. simpl. unfold anc, leaf in *. pose proof (pow_pos (L - l)).
  rewrite (pow_split l) in Hx by done. split; [apply Z.div_pos; lia|].
  apply Z.div_lt_upper_bound; lia.
Qed.

(** Every block covers a leaf: its first one. *)
Lemma first_leaf l i : valid (l, i) → leaf (i * pow (L - l)) ∧ anc (i * pow (L - l)) l = i.
Proof.
  intros [Hl Hi]. simpl in *. pose proof (pow_pos (L - l)). split.
  - unfold leaf. rewrite (pow_split l) by done. nia.
  - unfold anc. apply Z.div_mul. lia.
Qed.

Lemma anc_mono x y l1 l2 :
  (l1 <= l2)%nat → (l2 <= L)%nat → anc x l2 = anc y l2 → anc x l1 = anc y l1.
Proof.
  intros Hle Hl Heq. induction Hle as [|l2 Hle IH]; [done|].
  apply IH; [lia|]. rewrite (anc_up x), (anc_up y) by lia. by rewrite Heq.
Qed.

Lemma buddy_cases i : Z.lxor i 1 = if Z.even i then i + 1 else i - 1.
Proof.
  assert (∀ j, Z.lxor (2 * j) 1 = 2 * j + 1) as He.
  { intros j. rewrite Z.add_nocarry_lxor; [done|]. apply Z.bits_inj'. intros k Hk.
    rewrite Z.land_spec, Z.bits_0. destruct (Z.eq_dec k 0) as [->|].
    - by rewrite Z.testbit_even_0.
    - change 1 with (2 ^ 0). rewrite Z.pow2_bits_false by lia. apply andb_false_r. }
  destruct (Z.even i) eqn:Hev.
  - apply Z.even_spec in Hev as [j ->]. apply He.
  - assert (Z.odd i = true) as Ho by (by rewrite <-Z.negb_even, Hev). apply Z.odd_spec in Ho as [j ->].
    rewrite <-He at 1. rewrite Z.lxor_assoc, Z.lxor_nilpotent, Z.lxor_0_r. lia.
Qed.

Lemma buddy_invol i : Z.lxor (Z.lxor i 1) 1 = i.
Proof. by rewrite Z.lxor_assoc, Z.lxor_nilpotent, Z.lxor_0_r. Qed.

(** The two children of [i / 2] are [i] and its buddy. *)
Lemma buddy_children i j :
  j = 2 * (i / 2) ∨ j = 2 * (i / 2) + 1 ↔ j = i ∨ j = Z.lxor i 1.
Proof.
  rewrite buddy_cases. destruct (Z.even i) eqn:Hev.
  - apply Z.even_spec in Hev as [k ->]. rewrite (Z.mul_comm 2 k), Z.div_mul by lia. lia.
  - assert (Z.odd i = true) as Ho by (by rewrite <-Z.negb_even, Hev). apply Z.odd_spec in Ho as [k ->].
    replace ((2 * k + 1) / 2) with k by (apply (Z.div_unique _ 2 k 1); lia). lia.
Qed.

Lemma buddy_valid l i : (0 < l)%nat → valid (l, i) → valid (l, Z.lxor i 1).
Proof.
  intros Hl [HL Hi]. split; [done|]. simpl in *. rewrite buddy_cases.
  destruct l as [|l]; [lia|]. rewrite pow_S in *.
  destruct (Z.even i) eqn:Hev.
  - apply Z.even_spec in Hev as [k ->]. lia.
  - assert (Z.odd i = true) as Ho by (by rewrite <-Z.negb_even, Hev). apply Z.odd_spec in Ho as [k ->]. lia.
Qed.

(** ** The four moves *)

Definition rm F (b : block) : nat → Z → Prop := fun l i => F l i ∧ (l, i) ≠ b.
Definition add F (b : block) : nat → Z → Prop := fun l i => F l i ∨ (l, i) = b.

Lemma part_take F A b : part F A → F b.1 b.2 → part (rm F b) (b :: A).
Proof.
  destruct b as [d j]. simpl. intros [Hvf Hvl Hnd Hex Hco Hdi Hcl] Hb. unfold rm. split.
  - intros l i [? _]. auto.
  - intros b [->|?]%elem_of_cons; auto.
  - constructor; [by apply Hex|done].
  - intros l i [Hf Hne]. rewrite not_elem_of_cons. auto.
  - intros x Hx. destruct (Hco x Hx) as (l & Hl & Hor). exists l. split; [done|].
    rewrite elem_of_cons. destruct (decide ((l, anc x l) = (d, j))); tauto.
  - intros x l1 l2 Hx. rewrite !elem_of_cons.
    assert (∀ k, (k, anc x k) = (d, j) → F k (anc x k)) as Heq by (intros k [= -> ->]; done).
    intros H1 H2. apply (Hdi x); [done| |]; [specialize (Heq l1)|specialize (Heq l2)]; tauto.
  - intros l i [Hf _] Hl [Hf' _]. by apply (Hcl l i).
Qed.

(** Blocks over one leaf: at most one of them, so a held block excludes others. *)
Lemma part_held_unique F A l i x l' :
  part F ((l, i) :: A) → leaf x → anc x l = i →
  F l' (anc x l') ∨ (l', anc x l') ∈ A → False.
Proof.
  intros [Hvf Hvl Hnd Hex Hco Hdi Hcl] Hx Hi Hor. apply NoDup_cons in Hnd as [Hni _].
  assert (l' = l) as ->.
  { apply (Hdi x); [done| |]; rewrite elem_of_cons; [tauto|]. subst i. auto. }
  destruct Hor as [Hf|Ha]; [|by subst]. apply Hex in Hf. subst i. apply Hf. left.
Qed.

Lemma part_split F A l i :
  part F ((l, i) :: A) → (l < L)%nat →
  part (add F (S l, 2 * i + 1)) ((S l, 2 * i) :: A).
Proof.
  intros HP Hl. pose proof (fun x l' => part_held_unique F A l i x l' HP) as Huniq.
  destruct HP as [Hvf Hvl Hnd Hex Hco Hdi Hcl]. unfold add.
  assert (valid (l, i)) as [_ Hvi] by (apply Hvl; left). simpl in Hvi.
  assert (∀ j, j = 2 * i ∨ j = 2 * i + 1 → valid (S l, j)) as Hvc.
  { intros j Hj. split; [simpl; lia|]. simpl. rewrite pow_S. lia. }
  assert (∀ j, j = 2 * i ∨ j = 2 * i + 1 → ¬ F (S l) j ∧ (S l, j) ∉ A) as Hnew.
  { intros j Hj. destruct (first_leaf (S l) j (Hvc j Hj)) as [Hx Ha].
    rewrite <-Ha. split; intros H'; (apply (Huniq _ (S l) Hx); [|tauto]);
      apply anc_children; [done|by rewrite Ha|done|by rewrite Ha]. }
  split.
  - intros l' i' [?|[= -> ->]]; auto.
  - intros b [->|Hb]%elem_of_cons; [auto|]. apply Hvl. by right.
  - apply NoDup_cons in Hnd as [_ Hnd]. constructor; [|done]. apply Hnew. lia.
  - intros l' i' [Hf|[= -> ->]]; rewrite not_elem_of_cons.
    + split; [|by apply Hex, not_elem_of_cons in Hf as [_ ?]]. intros [= -> ->]. by destruct (Hnew (2 * i) ltac:(lia)).
    + split; [intros [=]; lia|]. apply Hnew. lia.
  - intros x Hx. destruct (decide (anc x l = i)) as [Hi|Hi].
    + exists (S l). split; [done|]. apply anc_children in Hi; [|done]. rewrite elem_of_cons.
      destruct Hi as [-> | ->]; auto.
    + destruct (Hco x Hx) as (l' & Hl' & Hor). exists l'. split; [done|].
      rewrite elem_of_cons. destruct Hor as [?|[Heq|?]%elem_of_cons]; [by left; left| |by right; right].
      injection Heq as -> Heq. by destruct Hi.
  - intros x l1 l2 Hx H1 H2.
    assert (∀ k, (F k (anc x k) ∨ (k, anc x k) = (S l, 2 * i + 1)) ∨ (k, anc x k) ∈ (S l, 2 * i) :: A →
      (anc x l = i ∧ k = S l) ∨ (anc x l ≠ i ∧ (F k (anc x k) ∨ (k, anc x k) ∈ A))) as Hcase.
    { intros k Hk. destruct (decide (anc x l = i)) as [Hi|Hi].
      - left. split; [done|]. destruct Hk as [[Hk|[= -> _]]|[[= -> _]|Hk]%elem_of_cons]; try done;
          destruct (Huniq x k Hx Hi); auto.
      - right. split; [done|]. destruct Hk as [[Hk|[= -> Hk]]|[[= -> Hk]|Hk]%elem_of_cons]; auto;
          destruct Hi; apply anc_children; auto. }
    apply Hcase in H1, H2. destruct H1 as [[? ->]|[? H1]], H2 as [[? ->]|[? H2]]; try done.
    apply (Hdi x); [done| |]; rewrite elem_of_cons; tauto.
  - intros l' i' Hf Hl' Hb.
    assert (Z.lxor (2 * i + 1) 1 = 2 * i) as Hbud.
    { rewrite buddy_cases, (Z.add_comm _ 1), Z.even_add_mul_2. simpl. lia. }
    destruct Hf as [Hf|[= -> ->]], Hb as [Hb|Hb].
    + by apply (Hcl l' i').
    + injection Hb as -> Hb. apply (f_equal (fun z => Z.lxor z 1)) in Hb. rewrite buddy_invol, Hbud in Hb. subst.
      by destruct (Hnew (2 * i) ltac:(lia)).
    + rewrite Hbud in Hb. by destruct (Hnew (2 * i) ltac:(lia)).
    + injection Hb as Hb. lia.
Qed.
Lemma part_merge F A l i :
  part F ((l, i) :: A) → (0 < l)%nat → F l (Z.lxor i 1) →
  part (rm F (l, Z.lxor i 1)) ((pred l, i / 2) :: A).
Proof.
  intros HP Hl Hb. pose proof (fun x l' => part_held_unique F A l i x l' HP) as Huniq.
  destruct HP as [Hvf Hvl Hnd Hex Hco Hdi Hcl]. unfold rm.
  destruct l as [|l]; [lia|]. simpl pred.
  assert (valid (S l, i)) as Hvi by (apply Hvl; left). destruct Hvi as [HlL Hvi]. simpl in HlL, Hvi.
  assert (valid (l, i / 2)) as Hvp.
  { split; [simpl; lia|]. simpl. rewrite pow_S in Hvi. split; [apply Z.div_pos; lia|].
    apply Z.div_lt_upper_bound; lia. }
  (* the parent covers exactly the leaves of the block and of its buddy *)
  assert (∀ x, leaf x → anc x l = i / 2 ↔ anc x (S l) = i ∨ anc x (S l) = Z.lxor i 1) as Hpar.
  { intros x Hx. rewrite anc_children by lia. apply buddy_children. }
  (* and no other block lies over them *)
  assert (∀ x k, leaf x → anc x l = i / 2 →
    (F k (anc x k) ∧ (k, anc x k) ≠ (S l, Z.lxor i 1)) ∨ (k, anc x k) ∈ A → False) as Hnone.
  { intros x k Hx Hi Hk. apply (Hpar x Hx) in Hi as [Hi|Hi].
    - apply (Huniq x k Hx Hi). tauto.
    - assert (k = S l) as ->.
      { apply (Hdi x); [done| |rewrite Hi; by left]. rewrite elem_of_cons. tauto. }
      rewrite Hi in Hk. destruct Hk as [[_ Hk]|Hk]; [done|]. apply (Hex _ _ Hb). by right. }
  split.
  - intros l' i' [? _]. auto.
  - intros b [->|?]%elem_of_cons; [done|]. apply Hvl. by right.
  - apply NoDup_cons in Hnd as [_ Hnd]. constructor; [|done]. intros Hin.
    destruct (first_leaf l (i / 2) Hvp) as [Hx Ha].
    apply (Hnone _ l Hx Ha). right. by rewrite Ha.
  - intros l' i' [Hf Hne]. rewrite not_elem_of_cons. split.
    + intros [= -> ->]. destruct (first_leaf l (i / 2) Hvp) as [Hx Ha].
      apply (Hnone _ l Hx Ha). left. by rewrite Ha.
    + apply Hex, not_elem_of_cons in Hf as [_ ?]. done.
  - intros x Hx. destruct (decide (anc x l = i / 2)) as [Hi|Hi].
    + exists l. split; [lia|]. right. rewrite Hi. left.
    + destruct (Hco x Hx) as (k & Hk & Hor). exists k. split; [done|].
      assert (∀ j, (k, anc x k) = (S l, j) → j ≠ i ∧ j ≠ Z.lxor i 1) as Hnij.
      { intros j [= -> Hj]. split; intros ->; apply Hi, Hpar; auto. }
      rewrite elem_of_cons. destruct Hor as [Hf|[Heq|?]%elem_of_cons]; [|by destruct (Hnij i)|tauto].
      left. split; [done|]. intros Heq. by destruct (Hnij _ Heq).
  - intros x l1 l2 Hx H1 H2. rewrite elem_of_cons in H1, H2.
    assert (∀ k, (F k (anc x k) ∧ (k, anc x k) ≠ (S l, Z.lxor i 1)) ∨
        ((k, anc x k) = (l, i / 2) ∨ (k, anc x k) ∈ A) →
      (anc x l = i / 2 ∧ k = l) ∨ (anc x l ≠ i / 2 ∧ (F k (anc x k) ∨ (k, anc x k) ∈ A))) as Hcase.
    { intros k Hk. destruct (decide (anc x l = i / 2)) as [Hi|Hi].
      - left. split; [done|]. destruct Hk as [Hk|[[= -> _]|Hk]]; [|done|];
          destruct (Hnone x k Hx Hi); tauto.
      - right. split; [done|]. destruct Hk as [Hk|[[= -> ?]|Hk]]; [tauto|done|tauto]. }
    apply Hcase in H1, H2. destruct H1 as [[? ->]|[? H1]], H2 as [[? ->]|[? H2]]; try done.
    apply (Hdi x); [done| |]; rewrite elem_of_cons; tauto.
  - intros l' i' [Hf _] Hl' [Hf' _]. by apply (Hcl l' i').
Qed.

Lemma part_give F A l i :
  part F ((l, i) :: A) → ((0 < l)%nat → ¬ F l (Z.lxor i 1)) → part (add F (l, i)) A.
Proof.
  intros [Hvf Hvl Hnd Hex Hco Hdi Hcl] Hb. unfold add. apply NoDup_cons in Hnd as [Hni Hnd].
  split.
  - intros l' i' [?|[= -> ->]]; [auto|]. apply Hvl. left.
  - intros b ?. apply Hvl. by right.
  - done.
  - intros l' i' [Hf|[= -> ->]]; [|done]. by apply Hex, not_elem_of_cons in Hf as [_ ?].
  - intros x Hx. destruct (Hco x Hx) as (k & Hk & Hor). exists k. split; [done|].
    rewrite elem_of_cons in Hor. tauto.
  - intros x l1 l2 Hx H1 H2. apply (Hdi x); [done| |]; rewrite elem_of_cons; tauto.
  - intros l' i' Hf Hl' Hf'.
    destruct Hf as [Hf|[= -> ->]], Hf' as [Hf'|Hf'].
    + by apply (Hcl l' i').
    + injection Hf' as -> <-. apply (Hb Hl'). by rewrite buddy_invol.
    + by apply Hb.
    + injection Hf' as Hf'. rewrite buddy_cases in Hf'. destruct (Z.even i); lia.
Qed.
(** ** No fragmentation below a free region *)

Lemma buddy_even i : Z.lxor (2 * i) 1 = 2 * i + 1.
Proof. rewrite buddy_cases, Z.even_mul. done. Qed.

(** A block none of whose leaves is live lies inside one free block. *)
Lemma part_complete F A t i :
  part F A → valid (t, i) →
  (∀ x l, leaf x → anc x t = i → (l, anc x l) ∉ A) →
  ∃ l, (l <= t)%nat ∧ F l (anc (i * pow (L - t)) l).
Proof.
  intros HP. remember (L - t)%nat as n eqn:Hn. revert t i Hn.
  induction n as [|n IH]; intros t i Hn Hv Hfree; destruct (first_leaf t i Hv) as [Hx Ha].
  - destruct (part_cover _ _ HP _ Hx) as (l & Hl & [Hf|Hin]); [|by apply Hfree in Hin].
    rewrite <-Hn in Hf. exists l. split; [|done]. destruct Hv as [Ht _]. simpl in Ht. lia.
  - destruct Hv as [Ht Hi]. simpl in Ht, Hi. assert (t < L)%nat as HtL by lia.
    assert (∀ j, j = 2 * i ∨ j = 2 * i + 1 →
      ∃ l, (l <= S t)%nat ∧ F l (anc (j * pow n) l)) as Hchild.
    { intros j Hj. apply (IH (S t)); [lia| |].
      - split; simpl; [lia|]. rewrite pow_S. lia.
      - intros x l Hlx Hax. apply Hfree; [done|]. apply anc_children; [done|]. by rewrite Hax. }
    assert (∀ j, j = 2 * i ∨ j = 2 * i + 1 → leaf (j * pow n) ∧ anc (j * pow n) (S t) = j) as Hleaf.
    { intros j Hj. replace n with (L - S t)%nat by lia. apply first_leaf.
      split; simpl; [lia|]. rewrite pow_S. lia. }
    rewrite pow_S. replace (i * (2 * pow n)) with (2 * i * pow n) by lia.
    destruct (Hchild (2 * i)) as (l0 & Hl0 & Hf0); [by left|].
    destruct (decide (l0 <= t)%nat) as [|Hgt]; [by exists l0|]. assert (l0 = S t) as -> by lia.
    destruct (Hchild (2 * i + 1)) as (l1 & Hl1 & Hf1); [by right|].
    destruct (decide (l1 <= t)%nat) as [|Hgt1].
    { exists l1. split; [done|]. revert Hf1. rewrite (anc_mono _ (2 * i * pow n) l1 t); [done|done|lia|].
      rewrite !(anc_up _ t) by done. destruct (Hleaf (2 * i)) as [_ ->]; [by left|].
      destruct (Hleaf (2 * i + 1)) as [_ ->]; [by right|].
      Z.div_mod_to_equations. lia. }
    assert (l1 = S t) as -> by lia.
    destruct (Hleaf (2 * i)) as [_ He]; [by left|]. destruct (Hleaf (2 * i + 1)) as [_ Ho]; [by right|].
    rewrite He in Hf0. rewrite Ho, <-buddy_even in Hf1.
    by destruct (part_coal _ _ HP _ _ Hf0 ltac:(lia)).
Qed.

(** With nothing live, the whole segment is one free block. *)
Lemma part_empty F l i : part F [] → F l i ↔ (l, i) = (0%nat, 0).
Proof.
  intros HP. destruct (part_complete F [] 0 0 HP) as (l0 & Hl0 & Hf0).
  { split; simpl; [lia|]. pose proof (pow_pos 0). lia. }
  { set_solver. }
  assert (l0 = 0%nat) as -> by lia.
  assert (F 0%nat 0) as H0. { revert Hf0. unfold anc. by rewrite Z.mul_0_l, Z.div_0_l by (pose proof (pow_pos (L - 0)); lia). }
  split; [|by intros [= -> ->]]. intros Hf. pose proof (part_valid_free _ _ HP _ _ Hf) as Hv.
  destruct (first_leaf l i Hv) as [Hx Ha]. pose proof (anc_valid _ 0 Hx ltac:(lia)) as [_ Hz].
  simpl in Hz. assert (l = 0%nat) as ->.
  { apply (part_disj _ _ HP _ _ _ Hx); left; [by rewrite Ha|].
    by replace (anc (i * pow (L - l)) 0) with 0 by (unfold pow in *; simpl in *; lia). }
  rewrite Ha in Hz. f_equal. unfold pow in Hz. simpl in Hz. lia.
Qed.

(** ** Sizes *)

Definition bsize (b : block) : Z := pow (L - b.1).
Definition total A : Z := foldr (fun b n => bsize b + n) 0 A.
Definition leaves (b : block) : list Z := seqZ (b.2 * bsize b) (bsize b).

Lemma elem_of_leaves b x : valid b → x ∈ leaves b ↔ leaf x ∧ anc x b.1 = b.2.
Proof.
  destruct b as [l i]. intros Hv. unfold leaves, bsize. simpl. pose proof (pow_pos (L - l)).
  rewrite elem_of_seqZ. destruct Hv as [Hl Hi]. simpl in *. unfold anc. split.
  - intros Hx. assert (x / pow (L - l) = i) as -> by (symmetry; apply Z.div_unique with (x - i * pow (L - l)); lia).
    split; [|done]. unfold leaf. rewrite (pow_split l) by done. nia.
  - intros [_ <-]. pose proof (Z.mul_div_le x (pow (L - l)) ltac:(lia)).
    pose proof (Z.mul_succ_div_gt x (pow (L - l)) ltac:(lia)). lia.
Qed.

Lemma total_le F A : part F A → total A <= pow L.
Proof.
  intros HP. assert (total A = blen (A ≫= leaves)) as ->.
  { clear HP. induction A as [|b A IH]; cbn; [done|]. rewrite blen_app, <-IH. f_equal.
    unfold leaves, blen. rewrite length_seqZ. pose proof (pow_pos (L - b.1)). unfold bsize. lia. }
  assert (NoDup (A ≫= leaves)) as Hnd.
  { apply NoDup_bind.
    - intros b1 b2 x H1 H2 Hx1 Hx2. apply elem_of_leaves in Hx1 as [Hx Ha1]; [|by apply (part_valid_live _ _ HP)].
      apply elem_of_leaves in Hx2 as [_ Ha2]; [|by apply (part_valid_live _ _ HP)].
      destruct b1 as [l1 i1], b2 as [l2 i2]; simpl in *. subst.
      assert (l1 = l2) as -> by (apply (part_disj _ _ HP x); auto). done.
    - intros b _. apply NoDup_seqZ.
    - apply (part_nodup _ _ HP). }
  assert (length (A ≫= leaves) <= length (seqZ 0 (pow L)))%nat as Hlen.
  { apply NoDup_incl_length; [by apply NoDup_ListNoDup|]. intros x Hx.
    apply list_elem_of_In in Hx. apply list_elem_of_In.
    apply list_elem_of_bind in Hx as (b & Hx & Hb).
    apply elem_of_leaves in Hx as [Hx _]; [|by apply (part_valid_live _ _ HP)].
    apply elem_of_seqZ. unfold leaf in Hx. lia. }
  rewrite length_seqZ in Hlen. unfold blen. pose proof (pow_pos L). lia.
Qed.
End tree.
