(* ===== verification/Buddy.v ===== *)
(** The buddy allocator of c2-mem (alloc/buddy.rs).  The state behind the mutex is
    the state of the model: each method is one critical section.  [free_bytes],
    [alloc_count] and the bitmaps are checked against the list of live allocations,
    which the code does not keep. *)

From S2P Require Import Prelude.
From S2P Require Import Bitmap.
From S2P Require Import BuddyTree.

Definition SEGMENT_VERSION : Z := 4.

Record Allocation := { offset : Z; actual_size : Z; level : nat }.

Record BuddyLayout := { bl_data_size : Z; bl_total_size : Z }.

#[export] Instance Allocation_eq_dec : EqDecision Allocation.
Proof. solve_decision. Defined.

(** [State], and the allocator around it; the raw base pointer is not modelled. *)
Record BuddyState := { bitmaps : list LevelBitmap; alloc_count : Z; free_bytes : Z }.
Record BuddyAllocator := { data_size : Z; min_block : Z; bstate : BuddyState }.

(** [usize::is_power_of_two] and [usize::checked_next_power_of_two]. *)
Definition is_power_of_two (n : Z) : bool := (0 <? n) && (2 ^ Z.log2 n =? n).
Definition checked_next_power_of_two (n : Z) : option Z :=
  let p := if n <=? 1 then 1 else 2 ^ Z.log2_up n in
  if p <=? USIZE_MAX then Some p else None.

(** [bitmaps[level]], which panics past the last level. *)
Definition bitmap_at {E} (bms : list LevelBitmap) (level : nat) : res E LevelBitmap :=
  match bms !! level with Some bm => Ok bm | None => Panic end.

Definition init (layout : BuddyLayout) (min_block : Z) : res unit BuddyAllocator :=
  let? levels := num_levels (bl_data_size layout) min_block in
  let bitmaps := (fun level => LevelBitmap_new (Z.shiftl 1 (Z.of_nat level))) <$> seq 0 (Z.to_nat levels) in
  let? bm0 := bitmap_at bitmaps 0 in
  let? bm0 := free_one bm0 0 in
  Ok {| data_size := bl_data_size layout;
        min_block := min_block;
        bstate := {| bitmaps := <[0%nat := bm0]> bitmaps;
                     alloc_count := 0;
                     free_bytes := bl_data_size layout |} |}.

Definition checked_layout (min_data_capacity min_block : Z) : option BuddyLayout :=
  if (min_block =? 0) || negb (is_power_of_two min_block) then None
  else match checked_next_power_of_two min_data_capacity with
  | None => None
  | Some data_size =>
      if (min_data_capacity =? 0) || (U32_MAX <? data_size) || (ISIZE_MAX <? data_size)
         || (data_size <? min_block)
      then None
      else Some {| bl_data_size := data_size; bl_total_size := data_size |}
  end.

(** [(0..=target_level).rev().find_map(...)]: [Err] is the [None] of the search. *)
Fixpoint find_donor (bms : list LevelBitmap) (level : nat) : res unit (nat * Z * list LevelBitmap) :=
  let? bm := bitmap_at bms level in
  match alloc_one bm with
  | Some (index, bm) => Ok (level, index, <[level := bm]> bms)
  | None => match level with
            | O => Err tt
            | S level => find_donor bms level
            end
  end.

(** [for level in donor_level + 1..=target_level], [count] rounds from [level]. *)
Fixpoint split_down (count level : nat) (index : Z) (bms : list LevelBitmap)
    : res unit (Z * list LevelBitmap) :=
  match count with
  | O => Ok (index, bms)
  | S count =>
      let level := S level in
      let index := index * 2 in
      let? bm := bitmap_at bms level in
      let? bm := free_one bm (index + 1) in
      split_down count level index (<[level := bm]> bms)
  end.

(** [Err tt] is [None]; it leaves the state as it was. *)
Definition alloc (a : BuddyAllocator) (size : Z) : res unit (Allocation * BuddyAllocator) :=
  guard_err ((size =? 0) || (data_size a <? size)) tt ;?
  match checked_next_power_of_two size with
  | None => Err tt
  | Some p =>
      let actual_size := Z.max p (min_block a) in
      guard_panic (0 <? data_size a / actual_size) ;?
      let target_level := Z.to_nat (Z.log2 (data_size a / actual_size)) in
      let st := bstate a in
      let? '(donor_level, index, bms) := find_donor (bitmaps st) target_level in
      let? '(index, bms) := split_down (target_level - donor_level) donor_level index bms in
      guard_panic (alloc_count st + 1 <=? U32_MAX) ;?
      guard_panic (actual_size <=? free_bytes st) ;?
      Ok ({| offset := wrap_u32 (index * actual_size);
             actual_size := wrap_u32 actual_size;
             level := Z.to_nat (Z.of_nat target_level mod 2 ^ 16) |},
          {| data_size := data_size a; min_block := min_block a;
             bstate := {| bitmaps := bms; alloc_count := alloc_count st + 1;
                          free_bytes := free_bytes st - actual_size |} |})
  end.

(** The merge loop, from the block just marked free. *)
Fixpoint merge_up (level : nat) (index : Z) (bms : list LevelBitmap) : res unit (list LevelBitmap) :=
  match level with
  | O => Ok bms
  | S up =>
      let? bm := bitmap_at bms level in
      let? buddy_free := is_free bm (Z.lxor index 1) in
      if buddy_free then
        let? bm := mark_used bm index in
        let? bm := mark_used bm (Z.lxor index 1) in
        let bms := <[level := bm]> bms in
        let index := index / 2 in
        let? bm := bitmap_at bms up in
        let? bm := free_one bm index in
        merge_up up index (<[up := bm]> bms)
      else Ok bms
  end.

(** [free] of buddy.rs. *)
Definition buddy_free (a : BuddyAllocator) (offset : Z) (level : nat) : res unit BuddyAllocator :=
  let size := Z.shiftr (data_size a) (Z.of_nat level) in
  guard_panic (0 <? size) ;?
  let index := offset / size in
  let st := bstate a in
  let? bm := bitmap_at (bitmaps st) level in
  let? bm := free_one bm index in
  guard_panic (1 <=? alloc_count st) ;?
  guard_panic (free_bytes st + size <=? U64_MAX) ;?
  let? bms := merge_up level index (<[level := bm]> (bitmaps st)) in
  Ok {| data_size := data_size a; min_block := min_block a;
        bstate := {| bitmaps := bms; alloc_count := alloc_count st - 1;
                     free_bytes := free_bytes st + size |} |}.

(** ** Levels of bitmaps *)

Section levels.
Context (L : nat).
Implicit Types (bms : list LevelBitmap) (bm : LevelBitmap).

Definition levels_ok bms : Prop :=
  length bms = S L ∧ ∀ l bm, bms !! l = Some bm → bm_wf bm ∧ num_blocks bm = pow l.

(** The free blocks recorded by the bitmaps. *)
Definition ffree bms (l : nat) (i : Z) : Prop := ∃ bm, bms !! l = Some bm ∧ free bm i.

Lemma bitmap_at_ok {E} bms l :
  levels_ok bms → (l <= L)%nat →
  ∃ bm, bms !! l = Some bm ∧ bitmap_at (E:=E) bms l = Ok bm ∧ bm_wf bm ∧ num_blocks bm = pow l.
Proof.
  intros [Hlen Hok] Hl. destruct (lookup_lt_is_Some_2 bms l) as [bm Hbm]; [lia|].
  exists bm. unfold bitmap_at. rewrite Hbm. destruct (Hok l bm Hbm). done.
Qed.

Lemma levels_insert bms l bm :
  levels_ok bms → (l <= L)%nat → bm_wf bm → num_blocks bm = pow l →
  levels_ok (<[l := bm]> bms)
  ∧ ∀ k i, ffree (<[l := bm]> bms) k i ↔ if decide (k = l) then free bm i else ffree bms k i.
Proof.
  intros [Hlen Hok] Hl Hwf Hn. split; [split|].
  - by rewrite length_insert.
  - intros k bm' Hk. destruct (decide (k = l)) as [->|].
    + rewrite list_lookup_insert_eq in Hk by lia. by simplify_eq.
    + rewrite list_lookup_insert_ne in Hk by done. by apply Hok.
  - intros k i. unfold ffree. destruct (decide (k = l)) as [->|].
    + rewrite list_lookup_insert_eq by lia. naive_solver.
    + by rewrite list_lookup_insert_ne.
Qed.

Lemma ffree_at bms l bm i : bms !! l = Some bm → ffree bms l i ↔ free bm i.
Proof. intros H. unfold ffree. rewrite H. naive_solver. Qed.

(** Setting and clearing one block of a level. *)
Lemma levels_free_one bms l i bm :
  levels_ok bms → valid L (l, i) → bms !! l = Some bm →
  ∃ bm', free_one (E:=unit) bm i = Ok bm' ∧ levels_ok (<[l := bm']> bms)
    ∧ ∀ k c, ffree (<[l := bm']> bms) k c ↔ add (ffree bms) (l, i) k c.
Proof.
  intros Hok [Hl Hi] Hbm. simpl in *. destruct Hok as [Hlen Hok].
  destruct (Hok l bm Hbm) as [Hwf Hn].
  destruct (free_one_spec (E:=unit) bm i Hwf) as (bm' & Hf & Hwf' & Hn' & Hc); [by rewrite Hn|].
  exists bm'. split; [done|]. destruct (levels_insert bms l bm') as [Hok' Hff]; [done|done|done|congruence|].
  split; [done|]. intros k c. rewrite Hff. unfold add. destruct (decide (k = l)) as [->|].
  - rewrite Hc, (ffree_at bms l bm) by done. naive_solver.
  - naive_solver.
Qed.

(** Taking the first free block of the level the search has reached. *)
Lemma take_donor bms l bm j bm' :
  levels_ok bms → (l <= L)%nat → bms !! l = Some bm → alloc_one bm = Some (j, bm') →
  ffree bms l j ∧ levels_ok (<[l := bm']> bms)
  ∧ (∀ k i, ffree (<[l := bm']> bms) k i ↔ rm (ffree bms) (l, j) k i)
  ∧ (∀ i, ffree bms l i → j <= i).
Proof.
  intros Hok Hl Hbm Ha. destruct (proj2 Hok l bm Hbm) as [Hwf Hn].
  pose proof (alloc_one_spec bm Hwf) as Hs. rewrite Ha in Hs. destruct Hs as (Hf & Hmin & Hwf' & Hn' & Hc).
  destruct (levels_insert bms l bm') as [Hok' Hff]; [done|done|done|congruence|].
  split_and!; [by eapply ffree_at|done| |].
  - intros k i. rewrite Hff. unfold rm. case_decide as Hd; [subst|naive_solver].
    rewrite Hc, (ffree_at bms l bm) by done. naive_solver.
  - intros i. rewrite (ffree_at bms l bm) by done. apply Hmin.
Qed.

Lemma find_donor_spec bms t :
  levels_ok bms → (t <= L)%nat →
  match find_donor bms t with
  | Panic => False
  | Err _ => ∀ l i, (l <= t)%nat → ¬ ffree bms l i
  | Ok (d, j, bms') =>
      (d <= t)%nat ∧ ffree bms d j ∧ levels_ok bms'
      ∧ (∀ l i, ffree bms' l i ↔ rm (ffree bms) (d, j) l i)
      ∧ (∀ l i, (d < l <= t)%nat → ¬ ffree bms l i) ∧ (∀ i, ffree bms d i → j <= i)
  end.
Proof.
  intros Hok. induction t as [|t IH]; intros Ht; cbn [find_donor];
    destruct (bitmap_at_ok (E:=unit) bms _ Hok Ht) as (bm & Hbm & -> & Hwf & Hn); cbn [res_bind];
    pose proof (alloc_one_spec bm Hwf) as Hs; destruct (alloc_one bm) as [[j bm']|] eqn:Ha.
  - destruct (take_donor bms 0 bm j bm') as (? & ? & ? & ?); [done..|]. split_and!; try done. lia.
  - intros l i Hl. assert (l = 0%nat) as -> by lia. rewrite (ffree_at bms 0 bm) by done. apply Hs.
  - destruct (take_donor bms (S t) bm j bm') as (? & ? & ? & ?); [done..|]. split_and!; try done. lia.
  - specialize (IH ltac:(lia)). assert (∀ i, ¬ ffree bms (S t) i) as Hno.
    { intros i. rewrite (ffree_at bms (S t) bm) by done. apply Hs. }
    destruct (find_donor bms t) as [[[d j] bms']|[]|]; [|intros l i Hl|done].
    + destruct IH as (? & ? & ? & ? & Hbetween & ?). split_and!; [lia|done|done|done| |done].
      intros l i Hl. destruct (decide (l = S t)) as [->|]; [done|]. apply Hbetween. lia.
    + destruct (decide (l = S t)) as [->|]; [done|]. apply IH. lia.
Qed.

Lemma part_ext F F' A : (∀ l i, F' l i ↔ F l i) → part L F A → part L F' A.
Proof. intros HF HP. by rewrite (part_proper L F' F HF A A eq_refl). Qed.

Lemma split_down_spec count bms l i A :
  levels_ok bms → (l + count <= L)%nat → part L (ffree bms) ((l, i) :: A) →
  ∃ bms', split_down count l i bms = Ok (i * pow count, bms') ∧ levels_ok bms'
          ∧ part L (ffree bms') (((l + count)%nat, i * pow count) :: A).
Proof.
  revert bms l i. induction count as [|count IH]; intros bms l i Hok Hl HP; cbn [split_down].
  - exists bms. rewrite Nat.add_0_r. replace (i * pow 0) with i by (unfold pow; simpl; lia). done.
  - pose proof (part_split L _ _ _ _ HP ltac:(lia)) as HP'.
    destruct (bitmap_at_ok (E:=unit) bms (S l) Hok) as (bm & Hbm & -> & Hwf & Hn); [lia|]. cbn [res_bind].
    destruct (levels_free_one bms (S l) (i * 2 + 1) bm) as (bm' & -> & Hok' & Hff); [done| |done|].
    { rewrite (Z.mul_comm i 2). apply (part_valid_free _ _ _ HP'). by right. }
    cbn [res_bind]. destruct (IH (<[S l := bm']> bms) (S l) (i * 2) Hok') as (bms' & -> & Hok'' & HP'').
    { lia. }
    { rewrite (Z.mul_comm i 2) in *. by apply (part_ext _ _ _ Hff). }
    exists bms'. rewrite pow_S. replace (i * (2 * pow count)) with (i * 2 * pow count) by lia.
    by replace (l + S count)%nat with (S l + count)%nat by lia.
Qed.

(** Clearing a block and its buddy, and marking the parent, from bitmaps in which
    both are free. *)
Lemma merge_step bms l i bm :
  levels_ok bms → (S l <= L)%nat → valid L (S l, i) → bms !! S l = Some bm →
  ∃ bm1 bm2 bm0 bm3,
    mark_used (E:=unit) bm i = Ok bm1 ∧ mark_used (E:=unit) bm1 (Z.lxor i 1) = Ok bm2
    ∧ bitmap_at (E:=unit) (<[S l := bm2]> bms) l = Ok bm0 ∧ free_one (E:=unit) bm0 (i / 2) = Ok bm3
    ∧ levels_ok (<[l := bm3]> (<[S l := bm2]> bms))
    ∧ ∀ k c, ffree (<[l := bm3]> (<[S l := bm2]> bms)) k c ↔
        add (rm (rm (ffree bms) (S l, i)) (S l, Z.lxor i 1)) (l, i / 2) k c.
Proof.
  intros Hok HL Hv Hbm. destruct (proj2 Hok _ _ Hbm) as [Hwf Hn].
  destruct (buddy_valid L (S l) i ltac:(lia) Hv) as [_ Hb]. destruct Hv as [_ Hi]. simpl in Hb, Hi.
  destruct (mark_used_spec (E:=unit) bm i Hwf) as (bm1 & H1 & Hwf1 & Hn1 & Hc1); [by rewrite Hn|].
  destruct (mark_used_spec (E:=unit) bm1 (Z.lxor i 1) Hwf1) as (bm2 & H2 & Hwf2 & Hn2 & Hc2).
  { by rewrite Hn1, Hn. }
  destruct (levels_insert bms (S l) bm2) as [Hok2 Hff2]; [done|done|done|congruence|].
  destruct (bitmap_at_ok (E:=unit) (<[S l := bm2]> bms) l Hok2) as (bm0 & Hbm0 & H0 & _); [lia|].
  destruct (levels_free_one (<[S l := bm2]> bms) l (i / 2) bm0) as (bm3 & H3 & Hok3 & Hff3); [done| |done|].
  { split; [simpl; lia|]. simpl. rewrite pow_S in Hi. split; [apply Z.div_pos; lia|].
    apply Z.div_lt_upper_bound; lia. }
  exists bm1, bm2, bm0, bm3. split_and!; try done. intros k c. rewrite Hff3. unfold add, rm.
  rewrite Hff2. case_decide as Hd.
  - subst k. rewrite Hc2, Hc1, (ffree_at bms (S l) bm) by done.
    assert (∀ a, (S l, c) ≠ (S l, a) ↔ c ≠ a) as Hne by (intros a; split; congruence).
    rewrite !Hne. tauto.
  - assert (∀ a, (k, c) ≠ (S l, a)) as Hne by congruence. pose proof (Hne i). pose proof (Hne (Z.lxor i 1)). tauto.
Qed.

Lemma merge_up_spec l i bms A :
  levels_ok bms → ffree bms l i → part L (rm (ffree bms) (l, i)) ((l, i) :: A) →
  ∃ bms', merge_up l i bms = Ok bms' ∧ levels_ok bms' ∧ part L (ffree bms') A.
Proof.
  revert i bms. induction l as [|l IH]; intros i bms Hok Hf HP; cbn [merge_up].
  - exists bms. split; [done|]. split; [done|].
    eapply part_ext; [|apply (part_give L _ _ _ _ HP); lia].
    intros k c. unfold add, rm. destruct (decide ((k, c) = (0%nat, i))) as [[= -> ->]|]; naive_solver.
  - pose proof (part_valid_live _ _ _ HP (S l, i) ltac:(left)) as Hv.
    pose proof (buddy_valid L (S l) i ltac:(lia) Hv) as Hvb.
    destruct (bitmap_at_ok (E:=unit) bms (S l) Hok ltac:(apply Hv)) as (bm & Hbm & -> & Hwf & Hn).
    cbn [res_bind]. destruct (is_free_spec (E:=unit) bm (Z.lxor i 1) Hwf) as (r & -> & Hr).
    { rewrite Hn. apply Hvb. }
    cbn [res_bind]. rewrite <-(ffree_at bms (S l) bm) in Hr by done. destruct r.
    + destruct (merge_step bms l i bm Hok) as (bm1 & bm2 & bm0 & bm3 & -> & H2 & H0 & H3 & Hok3 & Hff3);
        [apply Hv|done|done|].
      cbn [res_bind]. rewrite H2. cbn [res_bind]. rewrite H0. cbn [res_bind]. rewrite H3. cbn [res_bind].
      assert (part L (rm (rm (ffree bms) (S l, i)) (S l, Z.lxor i 1)) ((l, i / 2) :: A)) as HPm.
      { apply (part_merge L _ _ (S l)); [done|lia|]. split; [by apply Hr|].
        intros [= Heq]. rewrite buddy_cases in Heq. destruct (Z.even i); lia. }
      apply IH; [done|apply Hff3; by right|]. eapply part_ext; [|exact HPm].
      intros k c. unfold rm at 1. rewrite Hff3. unfold add. split; [naive_solver|]. intros HG.
      split; [by left|]. intros [= -> ->]. apply (part_excl _ _ _ HPm _ _ HG). left.
    + exists bms. split; [done|]. split; [done|].
      eapply part_ext; [|apply (part_give L _ _ _ _ HP)].
      * intros k c. unfold add, rm. destruct (decide ((k, c) = (S l, i))) as [[= -> ->]|]; naive_solver.
      * intros _ [Hfb _]. apply Hr in Hfb. done.
Qed.
End levels.

(** ** The allocator's invariant *)

Section allocator.
Context (L m : nat).
Implicit Types (a : BuddyAllocator) (A : list (nat * Z)).

(** The allocation that names a block: leaves are [2^m] bytes. *)
Definition block_alloc (b : nat * Z) : Allocation :=
  {| offset := b.2 * pow (L - b.1 + m); actual_size := pow (L - b.1 + m); level := b.1 |}.

Record ba_inv a A : Prop := {
  inv_width : (L + m <= 31)%nat;
  inv_data : data_size a = pow (L + m);
  inv_min : min_block a = pow m;
  inv_levels : levels_ok L (bitmaps (bstate a));
  inv_part : part L (ffree (bitmaps (bstate a))) A;
  inv_count : alloc_count (bstate a) = blen A;
  inv_bytes : free_bytes (bstate a) = data_size a - total L A * pow m }.

Lemma pow_mono n k : (n <= k)%nat → pow n <= pow k.
Proof. intros. unfold pow. apply Z.pow_le_mono_r; lia. Qed.

Lemma pow_31 n : (n <= 31)%nat → pow n <= 2 ^ 31.
Proof. intros. change (2 ^ 31) with (pow 31). by apply pow_mono. Qed.

Lemma next_pow2_spec size n :
  0 < size <= pow n → (n <= 31)%nat →
  ∃ k, (k <= n)%nat ∧ checked_next_power_of_two size = Some (pow k) ∧ size <= pow k
       ∧ (k = 0%nat ∨ pow (pred k) < size).
Proof.
  intros Hs Hn. unfold checked_next_power_of_two, USIZE_MAX, U64_MAX. pose proof (pow_31 n Hn).
  destruct (Z.leb_spec size 1).
  - exists 0%nat. split_and!; [lia|done|unfold pow; simpl; lia|by left].
  - destruct (Z.log2_up_spec size) as [Hlo Hhi]; [lia|]. pose proof (Z.log2_up_pos size ltac:(lia)).
    assert (Z.log2_up size <= Z.of_nat n) as Hk.
    { apply Z.log2_up_le_pow2; unfold pow in *; lia. }
    assert (2 ^ Z.log2_up size = pow (Z.to_nat (Z.log2_up size))) as Hp.
    { unfold pow. f_equal. lia. }
    pose proof (pow_31 (Z.to_nat (Z.log2_up size)) ltac:(lia)).
    rewrite Hp in *. exists (Z.to_nat (Z.log2_up size)).
    split_and!; [lia|by rewrite (proj2 (Z.leb_le _ _)) by lia|done|right].
    replace (pow (pred (Z.to_nat (Z.log2_up size)))) with (2 ^ Z.pred (Z.log2_up size)); [done|].
    unfold pow. f_equal. lia.
Qed.

(** The level a request of [size] bytes is served from. *)
Lemma target_spec a A size :
  ba_inv a A → 0 < size <= data_size a →
  ∃ t, (t <= L)%nat
    ∧ (∃ p, checked_next_power_of_two size = Some p ∧ Z.max p (min_block a) = pow (L - t + m))
    ∧ size <= pow (L - t + m)
    ∧ 0 < data_size a / pow (L - t + m)
    ∧ Z.to_nat (Z.log2 (data_size a / pow (L - t + m))) = t
    ∧ (t = L ∨ pow (L - t + m) < 2 * size).
Proof.
  intros Hinv Hs. rewrite (inv_data _ _ Hinv), (inv_min _ _ Hinv) in *.
  destruct (next_pow2_spec size (L + m) Hs (inv_width _ _ Hinv)) as (k & Hk & Hp & Hle & Hmin).
  exists (L + m - max k m)%nat. replace (L - (L + m - max k m) + m)%nat with (max k m) by lia.
  assert (Z.max (pow k) (pow m) = pow (max k m)) as Hmax.
  { destruct (Nat.le_ge_cases k m) as [H|H]; pose proof (pow_mono _ _ H);
      [rewrite Nat.max_r by done|rewrite Nat.max_l by done]; lia. }
  assert (pow (L + m) / pow (max k m) = pow (L + m - max k m)) as Hdiv.
  { pose proof (pow_pos (max k m)). rewrite <-(Z.div_mul (pow (L + m - max k m)) (pow (max k m))) by lia.
    f_equal. rewrite <-pow_add. f_equal. lia. }
  rewrite Hdiv. split_and!.
  - lia.
  - exists (pow k). done.
  - pose proof (pow_mono k (max k m) ltac:(lia)). lia.
  - apply pow_pos.
  - unfold pow. rewrite Z.log2_pow2 by lia. lia.
  - destruct (decide (k <= m)%nat); [left; lia|right].
    rewrite Nat.max_l by lia. destruct Hmin as [->|Hmin]; [lia|].
    destruct k as [|k]; [lia|]. rewrite pow_S. simpl in Hmin. lia.
Qed.

Lemma total_bytes a A : ba_inv a A → total L A * pow m <= data_size a.
Proof.
  intros Hinv. rewrite (inv_data _ _ Hinv), pow_add.
  pose proof (total_le L _ _ (inv_part _ _ Hinv)). pose proof (pow_pos m). nia.
Qed.

Lemma blen_le_total A : (∀ b, b ∈ A → valid L b) → blen A <= total L A.
Proof.
  induction A as [|b A IH]; intros Hv; [done|]. rewrite blen_cons. simpl.
  assert (0 < bsize L b) by apply pow_pos. specialize (IH ltac:(intros; apply Hv; by right)). lia.
Qed.

Lemma count_bound F A : (L + m <= 31)%nat → part L F A → blen A <= 2 ^ 31.
Proof.
  intros Hw HP. pose proof (blen_le_total A (part_valid_live _ _ _ HP)).
  pose proof (total_le L _ _ HP). pose proof (pow_31 L ltac:(lia)). lia.
Qed.

(** ** alloc *)

Lemma alloc_spec a A size :
  ba_inv a A → 0 <= size →
  match alloc a size with
  | Panic => False
  | Err _ => size = 0 ∨ data_size a < size
             ∨ ∃ t p, (t <= L)%nat ∧ checked_next_power_of_two size = Some p
                      ∧ Z.max p (min_block a) = pow (L - t + m)
                      ∧ ∀ l i, (l <= t)%nat → ¬ ffree (bitmaps (bstate a)) l i
  | Ok (x, a') => ∃ t i, x = block_alloc (t, i) ∧ ba_inv a' ((t, i) :: A)
                  ∧ (∃ p, checked_next_power_of_two size = Some p ∧ Z.max p (min_block a) = actual_size x)
                  ∧ size <= actual_size x ∧ (t = L ∨ actual_size x < 2 * size) ∧ 0 < size
                  ∧ data_size a' = data_size a ∧ min_block a' = min_block a
  end.
Proof.
  intros Hinv Hs0. unfold alloc. destruct (_ || _) eqn:Hg; cbn [guard_err res_bind]; [lia|].
  destruct (target_spec a A size Hinv) as (t & Ht & (p & Hp & Hmax) & Hle & Hpos & Hlog & Hmin); [lia|].
  rewrite Hp, Hmax.
  rewrite (proj2 (Z.ltb_lt _ _)) by done. cbn [guard_panic res_bind]. rewrite Hlog.
  pose proof (find_donor_spec L _ t (inv_levels _ _ Hinv) Ht) as Hd.
  destruct (find_donor _ t) as [[[d j] bms]|[]|]; cbn [res_bind];
    [|right; right; by exists t, p|done].
  destruct Hd as (Hdt & Hf & Hok & Hff & _ & _).
  pose proof (part_take L _ _ (d, j) (inv_part _ _ Hinv) Hf) as HP.
  destruct (split_down_spec L (t - d) bms d j A Hok) as (bms' & -> & Hok' & HP'); [lia| |].
  { by apply (part_ext L _ _ _ Hff). }
  replace (d + (t - d))%nat with t in HP' by lia. set (i := j * pow (t - d)) in *. cbn [res_bind].
  pose proof (count_bound _ _ (inv_width _ _ Hinv) HP') as Hc. rewrite blen_cons in Hc.
  pose proof (total_le L _ _ HP') as Htot. simpl in Htot. unfold bsize in Htot. simpl in Htot.
  pose proof (pow_pos m). rewrite (inv_count _ _ Hinv), (inv_bytes _ _ Hinv), (inv_data _ _ Hinv), (pow_add L m).
  rewrite (pow_add (L - t) m) in *. unfold U32_MAX.
  rewrite (proj2 (Z.leb_le (blen A + 1) _)) by lia.
  rewrite (proj2 (Z.leb_le (pow (L - t) * pow m) _)) by nia. cbn [guard_panic res_bind].
  pose proof (part_valid_live _ _ _ HP' (t, i) ltac:(left)) as [_ Hi]. simpl in Hi.
  pose proof (pow_31 (L + m) (inv_width _ _ Hinv)) as H31. rewrite pow_add, (pow_split L t Ht) in H31.
  pose proof (pow_pos (L - t)). pose proof (pow_pos t).
  exists t, i. unfold wrap_u32. rewrite !Z.mod_small by nia.
  replace (Z.to_nat (Z.of_nat t mod 2 ^ 16)) with t
    by (rewrite Z.mod_small; [lia|]; pose proof (inv_width _ _ Hinv); lia).
  split_and!; [unfold block_alloc; simpl; by rewrite pow_add| |by exists p|done|done|lia|done|done].
  split; simpl; try done.
  - apply (inv_width _ _ Hinv).
  - by rewrite pow_add.
  - apply (inv_min _ _ Hinv).
  - rewrite blen_cons. lia.
  - unfold bsize. simpl. lia.
Qed.

(** ** free *)

Lemma total_perm A A' : A ≡ₚ A' → total L A = total L A'.
Proof. induction 1; simpl; lia. Qed.

Lemma ba_inv_perm a A A' : A ≡ₚ A' → ba_inv a A → ba_inv a A'.
Proof.
  intros Hp [Hw Hd Hmn Hl [] Hc Hb]. split; try done.
  - split; intros *; rewrite <-?Hp; eauto.
    intros Hx. destruct (part_cover x Hx) as (l & Hl' & Hor). exists l. by rewrite <-Hp.
  - unfold blen in *. by rewrite <-Hp.
  - by rewrite <-(total_perm A A' Hp).
Qed.

Lemma buddy_free_spec a A l i :
  ba_inv a ((l, i) :: A) →
  ∃ a', buddy_free a (offset (block_alloc (l, i))) l = Ok a' ∧ ba_inv a' A
        ∧ data_size a' = data_size a ∧ min_block a' = min_block a.
Proof.
  intros Hinv. pose proof (inv_part _ _ Hinv) as HP.
  pose proof (part_valid_live _ _ _ HP (l, i) ltac:(left)) as Hv.
  assert (Z.shiftr (data_size a) (Z.of_nat l) = pow (L - l + m)) as Hsz.
  { destruct Hv as [Hl _]. simpl in Hl. rewrite (inv_data _ _ Hinv), Z.shiftr_div_pow2 by lia.
    change (2 ^ Z.of_nat l) with (pow l). pose proof (pow_pos l).
    rewrite <-(Z.div_mul (pow (L - l + m)) (pow l)) by lia. f_equal. rewrite <-pow_add. f_equal. lia. }
  pose proof (pow_pos (L - l + m)) as Hpos. pose proof (pow_pos m).
  unfold buddy_free, block_alloc. cbn [offset fst snd]. rewrite Hsz.
  rewrite (proj2 (Z.ltb_lt _ _)) by done. cbn [guard_panic res_bind]. rewrite Z.div_mul by lia.
  destruct (bitmap_at_ok L (E:=unit) _ l (inv_levels _ _ Hinv) (proj1 Hv)) as (bm & Hbm & -> & _ & _).
  cbn [res_bind].
  destruct (levels_free_one L _ l i bm (inv_levels _ _ Hinv) Hv Hbm) as (bm' & -> & Hok & Hff).
  cbn [res_bind]. rewrite (inv_count _ _ Hinv), (inv_bytes _ _ Hinv), blen_cons.
  pose proof (blen_nonneg A). rewrite (proj2 (Z.leb_le _ _)) by lia. cbn [guard_panic res_bind].
  pose proof (pow_31 (L + m) (inv_width _ _ Hinv)). pose proof (inv_data _ _ Hinv) as Hd.
  cbn [total foldr]. fold (total L A). unfold bsize. cbn [fst]. rewrite (pow_add (L - l) m) in *.
  assert (0 <= total L A).
  { clear. induction A as [|b A IH]; simpl; [lia|]. assert (0 < bsize L b) by apply pow_pos. lia. }
  unfold U64_MAX. rewrite (proj2 (Z.leb_le _ _)) by nia. cbn [guard_panic res_bind].
  destruct (merge_up_spec L l i (<[l := bm']> (bitmaps (bstate a))) A Hok) as (bms' & -> & Hok' & HP').
  { apply Hff. by right. }
  { eapply part_ext; [|exact HP]. intros k c. unfold rm. rewrite Hff. unfold add. split; [tauto|].
    intros HF. split; [by left|]. intros Heq. injection Heq as -> ->.
    apply (part_excl _ _ _ HP _ _ HF). left. }
  cbn [res_bind]. eexists. split; [done|]. split; [|done]. split; simpl; try done.
  - apply (inv_width _ _ Hinv).
  - apply (inv_min _ _ Hinv).
  - lia.
  - lia.
Qed.

(** ** init *)

Lemma init_spec layout :
  (L + m <= 31)%nat → bl_data_size layout = pow (L + m) →
  ∃ a, init layout (pow m) = Ok a ∧ ba_inv a [].
Proof.
  intros Hw Hd. unfold init, num_levels. rewrite Hd. pose proof (pow_pos m). pose proof (pow_pos L).
  rewrite (proj2 (Z.ltb_lt _ _)) by done. cbn [guard_panic res_bind].
  rewrite pow_add, Z.div_mul by lia. rewrite (proj2 (Z.ltb_lt _ _)) by done. cbn [guard_panic res_bind].
  replace (Z.to_nat (Z.log2 (pow L) + 1)) with (S L) by (unfold pow; rewrite Z.log2_pow2; lia).
  set (bms := _ <$> seq 0 (S L)).
  assert (levels_ok L bms ∧ ∀ l i, ¬ ffree bms l i) as [Hok Hno].
  { assert (∀ l bm, bms !! l = Some bm → bm_wf bm ∧ num_blocks bm = pow l ∧ ∀ i, ¬ free bm i) as Hl.
    { intros l bm Hbm. apply list_lookup_fmap_Some in Hbm as (l' & -> & Hl').
      apply lookup_seq in Hl' as [-> _]. rewrite Z.shiftl_1_l. simpl.
      destruct (new_bitmap_spec (2 ^ Z.of_nat l)) as (? & ? & ?); [pose proof (pow_pos l); unfold pow in *; lia|done]. }
    split; [split|].
    - unfold bms. by rewrite length_fmap, length_seq.
    - intros l bm Hbm. by destruct (Hl l bm Hbm) as (? & ? & _).
    - intros l i (bm & Hbm & Hf). by destruct (Hl l bm Hbm) as (_ & _ & Hn); destruct (Hn i). }
  destruct (bitmap_at_ok L (E:=unit) bms 0 Hok) as (bm0 & Hbm0 & -> & _ & _); [lia|]. cbn [res_bind].
  destruct (levels_free_one L bms 0 0 bm0 Hok) as (bm' & -> & Hok' & Hff); [|done|].
  { split; simpl; [lia|]. unfold pow; simpl; lia. }
  cbn [res_bind]. eexists. split; [done|]. split; simpl; try done; [by rewrite pow_add| |lia].
  eapply part_ext; [exact Hff|]. unfold add. split.
  - intros l i [?|[= -> ->]]; [by destruct (Hno l i)|]. split; simpl; [lia|]. unfold pow; simpl; lia.
  - set_solver.
  - constructor.
  - set_solver.
  - intros x Hx. exists 0%nat. split; [lia|]. left. right. unfold anc. rewrite Nat.sub_0_r, Z.div_small; [done|].
    exact Hx.
  - intros x l1 l2 _ H1 H2. pose proof (Hno l1 (anc L x l1)). pose proof (Hno l2 (anc L x l2)).
    destruct H1 as [[?|[= -> _]]|?]; [done| |set_solver]. destruct H2 as [[?|[= -> _]]|?]; [done|done|set_solver].
  - intros l i [?|[= -> ->]] Hl; [by destruct (Hno l i)|lia].
Qed.
End allocator.

(** ** Layouts *)

Lemma is_power_of_two_spec n : is_power_of_two n = true ↔ ∃ k, n = pow k.
Proof.
  unfold is_power_of_two. rewrite andb_true_iff, Z.ltb_lt, Z.eqb_eq. split.
  - intros [Hn He]. exists (Z.to_nat (Z.log2 n)). unfold pow. rewrite Z2Nat.id by apply Z.log2_nonneg. done.
  - intros [k ->]. split; [apply pow_pos|]. unfold pow. by rewrite Z.log2_pow2 by lia.
Qed.

(** The exponents of a layout are unique and bounded by the [u32] offsets. *)
Lemma checked_layout_iff cap mb lay :
  0 <= cap → 0 <= mb →
  checked_layout cap mb = Some lay ↔
    ∃ k m, mb = pow m ∧ (m <= k)%nat ∧ (k <= 31)%nat ∧ 0 < cap <= pow k
      ∧ (k = 0%nat ∨ pow (pred k) < cap) ∧ lay = {| bl_data_size := pow k; bl_total_size := pow k |}.
Proof.
  intros Hc Hm. unfold checked_layout. split.
  - destruct (_ || negb _) eqn:Hg; [done|]. apply orb_false_iff in Hg as [_ Hg].
    apply negb_false_iff, is_power_of_two_spec in Hg as [m ->].
    destruct (checked_next_power_of_two cap) as [d|] eqn:Hd; [|done].
    destruct (_ || (d <? pow m)) eqn:Hg; [done|]. intros [= <-].
    assert (0 < cap) by lia. unfold U32_MAX in Hg.
    assert (cap <= d) as Hcd.
    { unfold checked_next_power_of_two in Hd. destruct (Z.leb_spec cap 1); repeat case_match; simplify_eq; [lia|].
      by destruct (Z.log2_up_spec cap) as [_ ?]; [lia|]. }
    assert (cap <= pow 31) as H31.
    { destruct (Z.le_gt_cases cap (pow 31)); [done|]. exfalso.
      unfold checked_next_power_of_two in Hd. rewrite (proj2 (Z.leb_gt cap 1)) in Hd by (unfold pow in *; simpl in *; lia).
      assert (31 < Z.log2_up cap) by (apply Z.log2_up_lt_pow2; first [assumption|lia]).
      assert (2 ^ 32 <= 2 ^ Z.log2_up cap) by (apply Z.pow_le_mono_r; lia).
      repeat case_match; simplify_eq; lia. }
    destruct (next_pow2_spec cap 31) as (k & Hk & Hp & Hle & Hmin); [done|lia|].
    rewrite Hd in Hp. injection Hp as ->. exists k, m. split_and!; try done.
    destruct (Nat.le_gt_cases m k) as [|Hlt]; [done|]. pose proof (pow_mono (S k) m ltac:(lia)) as Hpm.
    rewrite pow_S in Hpm. pose proof (pow_pos k). lia.
  - intros (k & m & -> & Hmk & Hk & Hcap & Hmin & ->).
    pose proof (pow_pos m). pose proof (pow_31 k Hk). pose proof (pow_mono m k Hmk).
    rewrite (proj2 (Z.eqb_neq _ _)), (proj2 (is_power_of_two_spec _)) by (eauto; lia). simpl.
    destruct (next_pow2_spec cap k) as (k' & Hk' & -> & Hle & Hmin'); [done|lia|].
    assert (k' = k) as ->.
    { destruct Hmin as [->|Hmin]; [lia|]. destruct (Nat.le_gt_cases k k') as [|Hlt]; [lia|].
      pose proof (pow_mono k' (pred k) ltac:(lia)). lia. }
    unfold U32_MAX, ISIZE_MAX. destruct (_ || _) eqn:Hg; [lia|done].
Qed.

(** ** Reachable allocators *)

(** An allocator reached from its initialisation by allocations and by releases of
    live allocations, with the live ones.  Releasing passes the offset and level of
    a live allocation, as the contract of [free] requires. *)
Inductive reach (cap mb : Z) : BuddyAllocator → list Allocation → Prop :=
| reach_init lay a : checked_layout cap mb = Some lay → init lay mb = Ok a → reach cap mb a []
| reach_alloc a live size x a' :
    reach cap mb a live → 0 <= size → alloc a size = Ok (x, a') → reach cap mb a' (x :: live)
| reach_free a live x live' a' :
    reach cap mb a live → live ≡ₚ x :: live' → buddy_free a (offset x) (level x) = Ok a' →
    reach cap mb a' live'.

Lemma reach_inv cap mb a live :
  0 <= cap → 0 <= mb → reach cap mb a live →
  ∃ L m A, live = block_alloc L m <$> A ∧ ba_inv L m a A.
Proof.
  intros Hc Hm. induction 1 as [lay a Hl Hi|a live size x a' _ IH Hs Ha|a live x live' a' _ IH Hp Hf].
  - apply checked_layout_iff in Hl as (k & m & -> & Hmk & Hk & _ & _ & ->); [|done..].
    exists (k - m)%nat, m, []. split; [done|].
    destruct (init_spec (k - m) m {| bl_data_size := pow k; bl_total_size := pow k |}) as (a' & Hi' & Hinv);
      [lia|simpl; f_equal; lia|]. by rewrite Hi in Hi'; simplify_eq.
  - destruct IH as (L & m & A & -> & Hinv). pose proof (alloc_spec L m a A size Hinv Hs) as Hspec.
    rewrite Ha in Hspec. destruct Hspec as (t & i & -> & Hinv' & _). by exists L, m, ((t, i) :: A).
  - destruct IH as (L & m & A & -> & Hinv). symmetry in Hp.
    apply Permutation_map_inv in Hp as (A2 & Heq & Hp2). destruct A2 as [|[l i] A2]; [done|].
    simpl in Heq. injection Heq as -> ->.
    destruct (buddy_free_spec L m a A2 l i) as (a'' & Hf' & Hinv' & _); [by eapply ba_inv_perm|].
    exists L, m, A2. split; [done|]. cbn [level block_alloc fst] in Hf.
    rewrite Hf' in Hf. by injection Hf as <-.
Qed.

(** Byte ranges. *)
Definition overlaps (y : Allocation) (lo n : Z) : Prop :=
  offset y < lo + n ∧ lo < offset y + actual_size y.
#[export] Instance overlaps_dec y lo n : Decision (overlaps y lo n).
Proof. apply _. Defined.

Section bytes.
Context (L m : nat).

(** Blocks overlap as bytes exactly when some leaf lies in both. *)
Lemma overlaps_leaf b c :
  valid L b → valid L c →
  overlaps (block_alloc L m b) (offset (block_alloc L m c)) (actual_size (block_alloc L m c)) ↔
  ∃ x, leaf L x ∧ anc L x b.1 = b.2 ∧ anc L x c.1 = c.2.
Proof.
  intros Hb Hc. unfold overlaps, block_alloc. simpl. rewrite !pow_add.
  pose proof (pow_pos m). pose proof (pow_pos (L - b.1)). pose proof (pow_pos (L - c.1)).
  assert (∀ x, (leaf L x ∧ anc L x b.1 = b.2 ∧ anc L x c.1 = c.2) ↔ x ∈ leaves L b ∧ x ∈ leaves L c) as Hiff.
  { intros x. rewrite !elem_of_leaves by done. tauto. }
  setoid_rewrite Hiff. unfold leaves, bsize. setoid_rewrite elem_of_seqZ. split.
  - intros [? ?]. exists (Z.max (b.2 * pow (L - b.1)) (c.2 * pow (L - c.1))). nia.
  - intros (x & Hx1 & Hx2). nia.
Qed.

(** Two live blocks that overlap are the same block. *)
Lemma live_overlap F A b c :
  part L F A → b ∈ A → c ∈ A →
  overlaps (block_alloc L m b) (offset (block_alloc L m c)) (actual_size (block_alloc L m c)) → b = c.
Proof.
  intros HP Hb Hc. rewrite overlaps_leaf by (by apply (part_valid_live _ _ _ HP)).
  intros (x & Hx & H1 & H2). destruct b as [l i], c as [k j]; simpl in *.
  assert (l = k) as -> by (apply (part_disj _ _ _ HP x); [done|right; by rewrite H1|right; by rewrite H2]).
  congruence.
Qed.

(** A new allocation overlaps none of the live ones. *)
Lemma fresh_disjoint F A b :
  part L F (b :: A) →
  Forall (fun y => ¬ overlaps y (offset (block_alloc L m b)) (actual_size (block_alloc L m b)))
    (block_alloc L m <$> A).
Proof.
  intros HP. apply Forall_fmap, Forall_forall. intros c Hc Hov. simpl in Hov.
  assert (c = b) as -> by (apply (live_overlap _ _ _ _ HP); [by right|left|done]).
  pose proof (part_nodup _ _ _ HP) as Hnd. by apply NoDup_cons in Hnd as [? _].
Qed.

(** A block with no live overlap lies in a free block of its own level or above. *)
Lemma no_overlap_free F A t i :
  part L F A → valid L (t, i) →
  ¬ Exists (fun y => overlaps y (offset (block_alloc L m (t, i))) (actual_size (block_alloc L m (t, i))))
      (block_alloc L m <$> A) →
  ∃ l j, (l <= t)%nat ∧ F l j.
Proof.
  intros HP Hv Hno. destruct (part_complete L F A t i HP Hv) as (l & Hl & Hf); [|by eauto].
  intros x l Hx Ha Hin. apply Hno, Exists_fmap, Exists_exists. exists (l, anc L x l). split; [done|].
  apply overlaps_leaf; [by apply (part_valid_live _ _ _ HP)|done|]. by exists x.
Qed.
End bytes.

(** ** Properties *)

(** C1 A successful allocation, in any state the allocator can reach: the block is
    at least as large as the request and less than twice as large unless it is one
    minimal block, is aligned to its size, lies inside the segment, and shares no
    byte with a live allocation. *)
Theorem buddy_alloc_sound (cap mb : Z) (a a' : BuddyAllocator) (live : list Allocation)
    (size : Z) (x : Allocation) :
  0 <= cap → 0 <= mb → reach cap mb a live → 0 <= size → alloc a size = Ok (x, a') →
  0 < size <= actual_size x ∧ (actual_size x = min_block a ∨ actual_size x < 2 * size)
  ∧ offset x mod actual_size x = 0 ∧ 0 <= offset x ∧ offset x + actual_size x <= data_size a
  ∧ Forall (fun y => ¬ overlaps y (offset x) (actual_size x)) live.
Proof.
  intros Hc Hm Hr Hs Ha. destruct (reach_inv _ _ _ _ Hc Hm Hr) as (L & m & A & -> & Hinv).
  pose proof (alloc_spec L m a A size Hinv Hs) as Hspec. rewrite Ha in Hspec.
  destruct Hspec as (t & i & -> & Hinv' & _ & Hle & Hmin & Hpos & Hd & Hmb).
  pose proof (inv_part _ _ _ _ Hinv') as HP.
  pose proof (part_valid_live _ _ _ HP (t, i) ltac:(left)) as [Ht Hi]. simpl in Ht, Hi.
  pose proof (pow_pos (L - t + m)). split_and!; simpl in *; [lia|done| | | | |].
  - destruct Hmin as [->|?]; [left|by right]. rewrite (inv_min _ _ _ _ Hinv). f_equal. lia.
  - apply Z.mod_mul. lia.
  - nia.
  - rewrite (inv_data _ _ _ _ Hinv), !pow_add, (pow_split L t Ht).
    pose proof (pow_pos m). pose proof (pow_pos (L - t)). nia.
  - by apply (fresh_disjoint L m _ A (t, i) HP).
Qed.

(** C2 The allocator refuses only what cannot be served: in any reachable state,
    for a positive request that fits the segment, it never panics, and it returns nothing
    exactly when every aligned range of the rounded size overlaps a live allocation.
    Merging on release therefore never leaves usable space unreachable. *)
Theorem buddy_alloc_complete (cap mb : Z) (a : BuddyAllocator) (live : list Allocation) (size : Z) :
  0 <= cap → 0 <= mb → reach cap mb a live → 0 < size <= data_size a →
  alloc a size ≠ Panic ∧
  ∃ p, checked_next_power_of_two size = Some p ∧
    let n := Z.max p (min_block a) in
    (alloc a size = Err tt ↔
      ∀ k, 0 <= k → (k + 1) * n <= data_size a → Exists (fun y => overlaps y (k * n) n) live).
Proof.
  intros Hc Hm Hr Hs. destruct (reach_inv _ _ _ _ Hc Hm Hr) as (L & m & A & -> & Hinv).
  pose proof (alloc_spec L m a A size Hinv ltac:(lia)) as Hspec.
  destruct (target_spec L m a A size Hinv Hs) as (t & Ht & (p & Hp & Hmax) & _).
  split; [by intros HP; rewrite HP in Hspec|]. exists p. split; [done|]. simpl. rewrite Hmax.
  pose proof (pow_pos (L - t + m)). pose proof (pow_pos m). pose proof (pow_pos (L - t)).
  assert (∀ k, 0 <= k → (k + 1) * pow (L - t + m) <= data_size a ↔ valid L (t, k)) as Hval.
  { intros k. unfold valid. simpl. rewrite (inv_data _ _ _ _ Hinv), !pow_add, (pow_split L t Ht). nia. }
  split.
  - intros He k Hk Hkd. rewrite He in Hspec. destruct Hspec as [?|[?|(t' & p' & Ht' & Hp' & Hmax' & Hno)]]; [lia..|].
    rewrite Hp in Hp'. injection Hp' as <-. rewrite Hmax in Hmax'.
    assert (t' = t) as -> by (unfold pow in Hmax'; apply Z.pow_inj_r in Hmax'; lia).
    destruct (decide (Exists (fun y => overlaps y (k * pow (L - t + m)) (pow (L - t + m))) (block_alloc L m <$> A)))
      as [|Hne]; [done|]. destruct (no_overlap_free L m _ A t k (inv_part _ _ _ _ Hinv)) as (l & j & Hl & Hf).
    { by apply Hval. } { done. } by destruct (Hno l j Hl).
  - intros Hall. destruct (alloc a size) as [[x a']|[]|]; [|done..].
    destruct Hspec as (t' & i & -> & Hinv' & (p' & Hp' & Hmax') & _ & _ & _ & _).
    rewrite Hp in Hp'. injection Hp' as <-. simpl in Hmax'. rewrite Hmax in Hmax'.
    pose proof (inv_part _ _ _ _ Hinv') as HP.
    pose proof (part_valid_live _ _ _ HP (t', i) ltac:(left)) as Hv.
    assert (t' = t) as -> by (destruct Hv as [? _]; simpl in *; unfold pow in Hmax'; apply Z.pow_inj_r in Hmax'; lia).
    assert (0 <= i ∧ (i + 1) * pow (L - t + m) <= data_size a) as [Hi0 Hi1].
    { destruct Hv as [_ Hi]. simpl in Hi. split; [lia|]. apply Hval; [lia|]. by split. }
    specialize (Hall i Hi0 Hi1). apply Exists_exists in Hall as (y & Hy & Hov).
    pose proof (fresh_disjoint L m _ A (t, i) HP) as Hf. rewrite Forall_forall in Hf. by apply (Hf y Hy) in Hov.
Qed.

(** Accounting and release in every reachable state: [alloc_count] is the number
    of live allocations, [free_bytes] is the segment less their sizes, and releasing
    any live allocation succeeds without a panic. *)
Theorem buddy_accounting (cap mb : Z) (a : BuddyAllocator) (live : list Allocation) :
  0 <= cap → 0 <= mb → reach cap mb a live →
  alloc_count (bstate a) = blen live
  ∧ free_bytes (bstate a) = data_size a - foldr (fun x n => actual_size x + n) 0 live
  ∧ ∀ x, x ∈ live → ∃ a', buddy_free a (offset x) (level x) = Ok a'.
Proof.
  intros Hc Hm Hr. destruct (reach_inv _ _ _ _ Hc Hm Hr) as (L & m & A & -> & Hinv). split_and!.
  - rewrite (inv_count _ _ _ _ Hinv). unfold blen. by rewrite length_fmap.
  - rewrite (inv_bytes _ _ _ _ Hinv). f_equal. clear.
    unfold total. induction A as [|b A IH]; [done|]. cbn in *.
    rewrite Z.mul_add_distr_r, IH. unfold bsize. rewrite pow_add. lia.
  - intros x ([l i] & -> & Hin)%list_elem_of_fmap.
    apply elem_of_Permutation in Hin as [A' Hp].
    destruct (buddy_free_spec L m a A' l i) as (a' & Hf & _); [by eapply ba_inv_perm|].
    exists a'. exact Hf.
Qed.

(** Nothing is lost: once every allocation has been released, in whatever order,
    all bytes are free and one request for the whole segment succeeds at offset 0. *)
Theorem buddy_restored (cap mb : Z) (a : BuddyAllocator) :
  0 <= cap → 0 <= mb → reach cap mb a [] →
  free_bytes (bstate a) = data_size a ∧ alloc_count (bstate a) = 0
  ∧ ∃ a', alloc a (data_size a)
          = Ok ({| offset := 0; actual_size := data_size a; level := 0 |}, a').
Proof.
  intros Hc Hm Hr. destruct (reach_inv _ _ _ _ Hc Hm Hr) as (L & m & A & HA & Hinv).
  symmetry in HA. apply fmap_nil_inv in HA as ->.
  pose proof (inv_data _ _ _ _ Hinv) as Hd. pose proof (pow_pos (L + m)) as Hpos.
  split; [rewrite (inv_bytes _ _ _ _ Hinv); simpl; lia|]. split; [by rewrite (inv_count _ _ _ _ Hinv)|].
  assert (0 < data_size a <= data_size a) as Hs by lia.
  destruct (target_spec L m a [] (data_size a) Hinv Hs) as (t & Ht & (p & Hp & Hmax) & Hle & _ & _ & _).
  assert (t = 0%nat) as ->.
  { rewrite Hd in Hle. destruct t; [done|]. pose proof (pow_mono (L - S t + m) (L + m - 1) ltac:(lia)).
    replace (L + m)%nat with (S (L + m - 1)) in Hle by lia. rewrite pow_S in Hle.
    pose proof (pow_pos (L + m - 1)). lia. }
  pose proof (alloc_spec L m a [] (data_size a) Hinv ltac:(lia)) as Hspec.
  pose proof (part_empty L _ 0 0 (inv_part _ _ _ _ Hinv)) as [_ Hwhole]. specialize (Hwhole eq_refl).
  destruct (alloc a (data_size a)) as [[x a']|[]|]; [|exfalso|done].
  - destruct Hspec as (t & i & -> & Hinv' & (p' & Hp' & Hmax') & _).
    rewrite Hp in Hp'. injection Hp' as <-. rewrite Hmax in Hmax'. simpl in Hmax'.
    pose proof (part_valid_live _ _ _ (inv_part _ _ _ _ Hinv') (t, i) ltac:(left)) as [Ht' Hi]. simpl in Ht', Hi.
    assert (t = 0%nat) as -> by (unfold pow in Hmax'; apply Z.pow_inj_r in Hmax'; lia).
    assert (i = 0) as -> by (unfold pow in Hi; simpl in Hi; lia).
    exists a'. unfold block_alloc. simpl. rewrite Nat.sub_0_r, Hd. done.
  - destruct Hspec as [?|[?|(t' & p' & Ht' & _ & _ & Hno)]]; [lia..|]. apply (Hno 0%nat 0); [lia|done].
Qed.

(** C40 A layout is granted exactly for a positive capacity whose next power of two
    fits the 32-bit offsets and is no smaller than the power-of-two minimal block;
    the segment is that power of two. *)
Theorem checked_layout_exact (cap mb : Z) (lay : BuddyLayout) :
  0 <= cap → 0 <= mb →
  checked_layout cap mb = Some lay ↔
    ∃ k m, mb = 2 ^ Z.of_nat m ∧ (m <= k)%nat ∧ (k <= 31)%nat ∧ 0 < cap <= 2 ^ Z.of_nat k
      ∧ (k = 0%nat ∨ 2 ^ Z.of_nat (pred k) < cap)
      ∧ lay = {| bl_data_size := 2 ^ Z.of_nat k; bl_total_size := 2 ^ Z.of_nat k |}.
Proof. apply checked_layout_iff. Qed.

Lemma checked_layout_exact_witness :
  checked_layout 8193 4096 = Some {| bl_data_size := 16384; bl_total_size := 16384 |}.
Proof.
  apply (checked_layout_exact 8193 4096); [lia..|]. exists 14%nat, 12%nat.
  split_and!; [reflexivity|lia|lia|lia|vm_compute; congruence|right; reflexivity|reflexivity].
Defined.

(** A segment of four minimal blocks, for the witnesses. *)
Definition get {E A} (d : A) (r : res E A) : A := match r with Ok x => x | _ => d end.
Definition sample_layout : BuddyLayout := {| bl_data_size := 16384; bl_total_size := 16384 |}.
Definition sample_nil : BuddyAllocator :=
  {| data_size := 0; min_block := 0;
     bstate := {| bitmaps := []; alloc_count := 0; free_bytes := 0 |} |}.
Definition sample_0 : BuddyAllocator := get sample_nil (init sample_layout 4096).
Definition sample_x : Allocation := {| offset := 0; actual_size := 8192; level := 1 |}.
Definition sample_1 : BuddyAllocator := (get (sample_x, sample_nil) (alloc sample_0 5000)).2.
Definition sample_y : Allocation := {| offset := 8192; actual_size := 4096; level := 2 |}.
Definition sample_2 : BuddyAllocator := (get (sample_x, sample_nil) (alloc sample_1 1)).2.

Lemma sample_reach_0 : reach 8193 4096 sample_0 [].
Proof. by apply (reach_init 8193 4096 sample_layout); vm_compute. Qed.

Lemma sample_reach_1 : reach 8193 4096 sample_1 [sample_x].
Proof. apply (reach_alloc 8193 4096 sample_0 [] 5000); [apply sample_reach_0|lia|by vm_compute]. Qed.

Lemma buddy_alloc_sound_witness :
  alloc sample_1 1 = Ok (sample_y, sample_2) ∧ 0 < 1 <= 4096 ∧ 8192 + 4096 <= 16384.
Proof.
  assert (alloc sample_1 1 = Ok (sample_y, sample_2)) as Ha by (vm_compute; reflexivity).
  destruct (buddy_alloc_sound 8193 4096 sample_1 sample_2 [sample_x] 1 sample_y ltac:(lia) ltac:(lia)
    sample_reach_1 ltac:(lia) Ha) as (Hs & _ & _ & _ & Hd & _).
  split; [exact Ha|]. split; [exact Hs|]. vm_compute. congruence.
Defined.

Lemma buddy_alloc_complete_witness :
  alloc sample_1 16384 = Err tt ∧ alloc sample_1 16384 ≠ Panic.
Proof.
  split; [vm_compute; reflexivity|].
  apply (buddy_alloc_complete 8193 4096 sample_1 [sample_x] 16384 ltac:(lia) ltac:(lia) sample_reach_1).
  vm_compute. split; congruence.
Defined.

Lemma buddy_accounting_witness :
  alloc_count (bstate sample_1) = 1 ∧ ∃ a', buddy_free sample_1 0 1 = Ok a'.
Proof.
  destruct (buddy_accounting 8193 4096 sample_1 [sample_x] ltac:(lia) ltac:(lia) sample_reach_1)
    as (Hc & _ & Hf).
  split; [exact Hc|]. apply (Hf sample_x). left.
Defined.

Lemma buddy_restored_witness :
  ∃ a', alloc sample_0 16384 = Ok ({| offset := 0; actual_size := 16384; level := 0 |}, a').
Proof.
  destruct (buddy_restored 8193 4096 sample_0 ltac:(lia) ltac:(lia) sample_reach_0) as (_ & _ & Ha).
  exact Ha.
Defined.
