(* ===== verification/Budget.v ===== *)
(** Memory budget cells of c2-mem (budget.rs): three finite byte budgets, and the
    move-only reservations that charge them.  Each method is one critical section of
    the accounting mutex; the live reservations are the guards that exist. *)

From S2P Require Import Prelude.

Inductive BudgetKind := KShm | KFile | KReassembly.

#[export] Instance BudgetKind_eq_dec : EqDecision BudgetKind.
Proof. solve_decision. Defined.

Definition label (k : BudgetKind) : string :=
  match k with KShm => "shm" | KFile => "file" | KReassembly => "reassembly" end.

(** [BudgetCell]; [BudgetCellSnapshot] has the same fields. *)
Record BudgetCell := {
  limit_bytes : Z;
  used_bytes : Z;
  peak_bytes : Z;
  rejected_allocations : Z;
  rejected_bytes : Z }.

Record BudgetError := { be_cell : BudgetKind; be_requested : Z; be_used : Z; be_limit : Z }.

Record BudgetCells := { shm : BudgetCell; file : BudgetCell; reassembly : BudgetCell }.

(** A live [BudgetReservation] guard. *)
Record BudgetReservation := { br_kind : BudgetKind; br_bytes : Z }.

#[export] Instance BudgetReservation_eq_dec : EqDecision BudgetReservation.
Proof. solve_decision. Defined.

Definition BudgetCell_new (limit : Z) : BudgetCell :=
  {| limit_bytes := limit; used_bytes := 0; peak_bytes := 0; rejected_allocations := 0;
     rejected_bytes := 0 |}.

(** The cell after the attempt, and its result. *)
Definition try_reserve (c : BudgetCell) (kind : BudgetKind) (bytes : Z)
    : BudgetCell * res BudgetError unit :=
  match checked_add U64_MAX (used_bytes c) bytes with
  | Some new_used =>
      if new_used <=? limit_bytes c then
        ({| limit_bytes := limit_bytes c; used_bytes := new_used;
            peak_bytes := if peak_bytes c <? new_used then new_used else peak_bytes c;
            rejected_allocations := rejected_allocations c;
            rejected_bytes := rejected_bytes c |}, Ok tt)
      else
        ({| limit_bytes := limit_bytes c; used_bytes := used_bytes c; peak_bytes := peak_bytes c;
            rejected_allocations := saturating_add U64_MAX (rejected_allocations c) 1;
            rejected_bytes := saturating_add U64_MAX (rejected_bytes c) bytes |},
         Err {| be_cell := kind; be_requested := bytes; be_used := used_bytes c;
                be_limit := limit_bytes c |})
  | None =>
      ({| limit_bytes := limit_bytes c; used_bytes := used_bytes c; peak_bytes := peak_bytes c;
          rejected_allocations := saturating_add U64_MAX (rejected_allocations c) 1;
          rejected_bytes := saturating_add U64_MAX (rejected_bytes c) bytes |},
       Err {| be_cell := kind; be_requested := bytes; be_used := used_bytes c;
              be_limit := limit_bytes c |})
  end.

(** [BudgetCell::release]: an underflow panics. *)
Definition release (c : BudgetCell) (bytes : Z) : res BudgetError BudgetCell :=
  match checked_sub (used_bytes c) bytes with
  | Some used => Ok {| limit_bytes := limit_bytes c; used_bytes := used; peak_bytes := peak_bytes c;
                       rejected_allocations := rejected_allocations c;
                       rejected_bytes := rejected_bytes c |}
  | None => Panic
  end.

Definition get_cell (cs : BudgetCells) (k : BudgetKind) : BudgetCell :=
  match k with KShm => shm cs | KFile => file cs | KReassembly => reassembly cs end.

Definition set_cell (cs : BudgetCells) (k : BudgetKind) (c : BudgetCell) : BudgetCells :=
  match k with
  | KShm => {| shm := c; file := file cs; reassembly := reassembly cs |}
  | KFile => {| shm := shm cs; file := c; reassembly := reassembly cs |}
  | KReassembly => {| shm := shm cs; file := file cs; reassembly := c |}
  end.

Definition MemoryBudget_new (shm_limit file_limit reassembly_limit : Z) : BudgetCells :=
  {| shm := BudgetCell_new shm_limit; file := BudgetCell_new file_limit;
     reassembly := BudgetCell_new reassembly_limit |}.

Definition reserve (cs : BudgetCells) (kind : BudgetKind) (bytes : Z)
    : BudgetCells * res BudgetError BudgetReservation :=
  let '(c, r) := try_reserve (get_cell cs kind) kind bytes in
  (set_cell cs kind c, let? _ := r in Ok {| br_kind := kind; br_bytes := bytes |}).

(** [Drop for BudgetReservation]. *)
Definition drop_reservation (cs : BudgetCells) (g : BudgetReservation) : res BudgetError BudgetCells :=
  let? c := release (get_cell cs (br_kind g)) (br_bytes g) in Ok (set_cell cs (br_kind g) c).

(** [BudgetObserver::used_bytes]. *)
Definition observer_used_bytes (cs : BudgetCells) : Z :=
  saturating_add U64_MAX (saturating_add U64_MAX (used_bytes (shm cs)) (used_bytes (file cs)))
    (used_bytes (reassembly cs)).

(** ** Runs *)

(** What a run has done so far, per cell: the largest use seen, and the number and
    bytes of its rejected attempts. *)
Record History := { h_max : BudgetKind → Z; h_rejects : BudgetKind → Z; h_rejected : BudgetKind → Z }.

Definition upd (f : BudgetKind → Z) (k : BudgetKind) (v : Z) : BudgetKind → Z :=
  fun j => if decide (j = k) then v else f j.

(** Runs of a budget with limits [lim]: reservations by any owner, and drops of live
    guards in any order. *)
Inductive run (lim : BudgetKind → Z) : BudgetCells → list BudgetReservation → History → Prop :=
| run_new :
    run lim (MemoryBudget_new (lim KShm) (lim KFile) (lim KReassembly)) []
      {| h_max := fun _ => 0; h_rejects := fun _ => 0; h_rejected := fun _ => 0 |}
| run_reserve_ok cs live h k n cs' g :
    run lim cs live h → 0 <= n <= U64_MAX → reserve cs k n = (cs', Ok g) →
    run lim cs' (g :: live)
      {| h_max := upd (h_max h) k (Z.max (h_max h k) (used_bytes (get_cell cs' k)));
         h_rejects := h_rejects h; h_rejected := h_rejected h |}
| run_reserve_err cs live h k n cs' e :
    run lim cs live h → 0 <= n <= U64_MAX → reserve cs k n = (cs', Err e) →
    run lim cs' live
      {| h_max := h_max h; h_rejects := upd (h_rejects h) k (h_rejects h k + 1);
         h_rejected := upd (h_rejected h) k (h_rejected h k + n) |}
| run_drop cs live live' h g cs' :
    run lim cs live h → live ≡ₚ g :: live' → drop_reservation cs g = Ok cs' →
    run lim cs' live' h.

(** Bytes of the live guards of one cell. *)
Definition charged (k : BudgetKind) (live : list BudgetReservation) : Z :=
  foldr (fun g n => (if decide (br_kind g = k) then br_bytes g else 0) + n) 0 live.

(** One cell against the bytes charged to it and its history. *)
Record cell_inv (lim : Z) (c : BudgetCell) (used max rejects rejected : Z) : Prop := {
  ci_limit : limit_bytes c = lim;
  ci_used : used_bytes c = used;
  ci_bound : 0 <= used <= max;
  ci_max : max <= lim;
  ci_peak : peak_bytes c = max;
  ci_counts : 0 <= rejects ∧ 0 <= rejected;
  ci_rejects : rejected_allocations c = Z.min U64_MAX rejects;
  ci_rejected : rejected_bytes c = Z.min U64_MAX rejected }.

Definition budget_inv (lim : BudgetKind → Z) (cs : BudgetCells) (live : list BudgetReservation)
    (h : History) : Prop :=
  Forall (fun g => 0 <= br_bytes g) live
  ∧ ∀ k, cell_inv (lim k) (get_cell cs k) (charged k live) (h_max h k) (h_rejects h k) (h_rejected h k).

Lemma get_set_cell cs k c j :
  get_cell (set_cell cs k c) j = if decide (j = k) then c else get_cell cs j.
Proof. by destruct j, k. Qed.

Lemma charged_perm k l l' : l ≡ₚ l' → charged k l = charged k l'.
Proof. induction 1; simpl; lia. Qed.

Lemma charged_nonneg k l : Forall (fun g => 0 <= br_bytes g) l → 0 <= charged k l.
Proof. induction 1; simpl; [lia|]. case_decide; lia. Qed.

(** An attempt succeeds exactly when the cell has room. *)
Lemma reserve_cases cs k n lim :
  limit_bytes (get_cell cs k) = lim → lim <= U64_MAX →
  let c := get_cell cs k in
  reserve cs k n =
    if used_bytes c + n <=? lim then
      (set_cell cs k {| limit_bytes := lim; used_bytes := used_bytes c + n;
         peak_bytes := Z.max (peak_bytes c) (used_bytes c + n);
         rejected_allocations := rejected_allocations c; rejected_bytes := rejected_bytes c |},
       Ok {| br_kind := k; br_bytes := n |})
    else
      (set_cell cs k {| limit_bytes := lim; used_bytes := used_bytes c; peak_bytes := peak_bytes c;
         rejected_allocations := Z.min U64_MAX (rejected_allocations c + 1);
         rejected_bytes := Z.min U64_MAX (rejected_bytes c + n) |},
       Err {| be_cell := k; be_requested := n; be_used := used_bytes c; be_limit := lim |}).
Proof.
  intros <- Hmax c. unfold reserve, try_reserve, checked_add, saturating_add. fold c in Hmax |- *.
  destruct (Z.leb_spec (used_bytes c + n) U64_MAX); destruct (Z.leb_spec (used_bytes c + n) (limit_bytes c));
    try lia; try done. simpl.
  repeat f_equal. destruct (Z.ltb_spec (peak_bytes c) (used_bytes c + n)); lia.
Qed.

(** What a reservation does to the used bytes of every cell. *)
Lemma reserve_used cells k n :
  let '(cells', r) := reserve cells k n in
  (∀ j, limit_bytes (get_cell cells' j) = limit_bytes (get_cell cells j))
  ∧ match r with
    | Ok g => g = {| br_kind := k; br_bytes := n |}
              ∧ used_bytes (get_cell cells' k) = used_bytes (get_cell cells k) + n
              ∧ used_bytes (get_cell cells k) + n <= limit_bytes (get_cell cells k)
              ∧ ∀ j, j ≠ k → get_cell cells' j = get_cell cells j
    | Err _ => ∀ j, used_bytes (get_cell cells' j) = used_bytes (get_cell cells j)
    | Panic => False
    end.
Proof.
  unfold reserve, try_reserve, checked_add.
  destruct (_ <=? U64_MAX); [destruct (Z.leb_spec (used_bytes (get_cell cells k) + n) (limit_bytes (get_cell cells k)))|];
    simpl; (split; [intros j|]); try (intros j); rewrite ?get_set_cell; try (by case_decide; subst).
  split_and!; [done| |done|].
  - by rewrite decide_True.
  - intros j Hj. rewrite get_set_cell. by rewrite decide_False.
Qed.

Lemma run_inv lim cs live h :
  (∀ k, 0 <= lim k <= U64_MAX) → run lim cs live h → budget_inv lim cs live h.
Proof.
  intros Hlim. induction 1 as [|cs live h k n cs' g _ [Hb IH] Hn Hr|cs live h k n cs' e _ [Hb IH] Hn Hr
                              |cs live live' h g cs' _ [Hb IH] Hp Hd].
  - split; [constructor|]. intros k. specialize (Hlim k). by destruct k; split; simpl in *; lia.
  - pose proof (IH k) as [Hl Hu Hbd Hm Hp Hc Hr1 Hr2].
    rewrite (reserve_cases cs k n (lim k) Hl ltac:(apply Hlim)) in Hr. simpl in Hr.
    destruct (Z.leb_spec (used_bytes (get_cell cs k) + n) (lim k)); [|done]. injection Hr as <- <-.
    split; [by constructor; [simpl; lia|]|]. intros j. simpl. unfold upd. rewrite !get_set_cell.
    rewrite (decide_True (P := k = k)) by done.
    destruct (decide (j = k)) as [->|Hne].
    + rewrite decide_True by done. by split; simpl; lia.
    + rewrite decide_False by done. apply IH.
  - pose proof (IH k) as [Hl Hu Hbd Hm Hp Hc Hr1 Hr2].
    rewrite (reserve_cases cs k n (lim k) Hl ltac:(apply Hlim)) in Hr. simpl in Hr.
    destruct (Z.leb_spec (used_bytes (get_cell cs k) + n) (lim k)); [done|]. injection Hr as <- <-.
    split; [done|]. intros j. simpl. unfold upd. rewrite !get_set_cell.
    destruct (decide (j = k)) as [->|Hne]; [|apply IH]. by split; simpl; lia.
  - rewrite Hp in Hb. apply Forall_cons in Hb as [Hg Hb].
    unfold drop_reservation, release, checked_sub in Hd.
    destruct (Z.leb_spec (br_bytes g) (used_bytes (get_cell cs (br_kind g)))); [|done].
    simpl in Hd. injection Hd as <-. split; [done|]. intros j. rewrite get_set_cell.
    specialize (IH j). pose proof (charged_perm j _ _ Hp) as Hc. simpl in Hc.
    pose proof (charged_nonneg j live' Hb).
    destruct IH as [Hl Hu Hbd Hm Hpk Hct Hr1 Hr2].
    destruct (decide (j = br_kind g)) as [->|Hne].
    + rewrite decide_True in Hc by done. by split; simpl; lia.
    + rewrite decide_False in Hc by done. by split; simpl; try done; lia.
Qed.

(** Dropping a live guard never underflows its cell. *)
Lemma drop_ok lim cs live h g :
  budget_inv lim cs live h → g ∈ live → ∃ cs', drop_reservation cs g = Ok cs'.
Proof.
  intros [Hb Hi] [live' Hp]%elem_of_Permutation. destruct (Hi (br_kind g)) as [_ Hu _ _ _ _ _ _].
  unfold drop_reservation, release, checked_sub. rewrite Hu, (charged_perm _ _ _ Hp). simpl.
  rewrite decide_True by done. rewrite Hp in Hb. apply Forall_cons in Hb as [_ Hb].
  pose proof (charged_nonneg (br_kind g) live' Hb). rewrite (proj2 (Z.leb_le _ _)) by lia. by eexists.
Qed.

(** ** Properties *)

(** Conservation: after any interleaving of reservations and drops, each cell's
    used bytes are exactly the bytes of the live guards that charge it and never
    exceed its limit; the peak is the largest use the run has seen; the rejection
    counters are the true counts, saturated at the largest [u64]; and dropping any
    live guard succeeds without underflow. *)
Theorem budget_conservation (lim : BudgetKind → Z) (cs : BudgetCells)
    (live : list BudgetReservation) (h : History) (k : BudgetKind) :
  (∀ k, 0 <= lim k <= U64_MAX) → run lim cs live h →
  let c := get_cell cs k in
  used_bytes c = charged k live ∧ used_bytes c <= limit_bytes c ∧ limit_bytes c = lim k
  ∧ peak_bytes c = h_max h k ∧ used_bytes c <= peak_bytes c
  ∧ rejected_allocations c = Z.min U64_MAX (h_rejects h k)
  ∧ rejected_bytes c = Z.min U64_MAX (h_rejected h k)
  ∧ ∀ g, g ∈ live → ∃ cs', drop_reservation cs g = Ok cs'.
Proof.
  intros Hlim Hr c. pose proof (run_inv _ _ _ _ Hlim Hr) as Hinv.
  destruct (proj2 Hinv k). subst c. split_and!; [done|lia|done|done|lia|done|done|].
  intros g. by apply (drop_ok lim cs live h).
Qed.

(** Admission is exact and local: an attempt is admitted exactly when the bytes
    in use and the request together fit the limit (a sum past [u64] is refused, not
    wrapped), a refusal reports the use and limit it saw and charges nothing, and in
    both cases the other two cells are unchanged. *)
Theorem reserve_exact (lim : BudgetKind → Z) (cs : BudgetCells) (live : list BudgetReservation)
    (h : History) (k : BudgetKind) (n : Z) :
  (∀ k, 0 <= lim k <= U64_MAX) → run lim cs live h → 0 <= n <= U64_MAX →
  let '(cs', r) := reserve cs k n in
  r = (if charged k live + n <=? lim k then Ok {| br_kind := k; br_bytes := n |}
       else Err {| be_cell := k; be_requested := n; be_used := charged k live; be_limit := lim k |})
  ∧ used_bytes (get_cell cs' k) = charged k live + (if charged k live + n <=? lim k then n else 0)
  ∧ ∀ j, j ≠ k → get_cell cs' j = get_cell cs j.
Proof.
  intros Hlim Hr Hn. pose proof (run_inv _ _ _ _ Hlim Hr) as Hinv.
  destruct (proj2 Hinv k) as [Hl Hu _ _ _ _ _ _].
  rewrite (reserve_cases cs k n (lim k) Hl ltac:(apply Hlim)). simpl. rewrite Hu.
  assert (∀ c j, j ≠ k → get_cell (set_cell cs k c) j = get_cell cs j) as Hother.
  { intros c j Hne. by rewrite get_set_cell, decide_False. }
  destruct (Z.leb_spec (charged k live + n) (lim k)); split_and!; auto;
    rewrite get_set_cell, decide_True by done; simpl; lia.
Qed.

Definition sample_lim : BudgetKind → Z := fun _ => 100.
Definition sample_guard : BudgetReservation := {| br_kind := KFile; br_bytes := 60 |}.
Definition sample_cells : BudgetCells := (reserve (MemoryBudget_new 100 100 100) KFile 60).1.
Definition sample_history : History :=
  {| h_max := upd (fun _ => 0) KFile (Z.max 0 60); h_rejects := fun _ => 0; h_rejected := fun _ => 0 |}.

Lemma sample_budget_run : run sample_lim sample_cells [sample_guard] sample_history.
Proof.
  assert (0 <= 60 <= U64_MAX) as Hn by (vm_compute; split; congruence).
  exact (run_reserve_ok sample_lim _ [] _ KFile 60 _ sample_guard (run_new sample_lim) Hn eq_refl).
Qed.

Lemma budget_conservation_witness :
  used_bytes (file sample_cells) = 60 ∧ ∃ cs', drop_reservation sample_cells sample_guard = Ok cs'.
Proof.
  destruct (budget_conservation sample_lim sample_cells [sample_guard] sample_history KFile
    ltac:(intros []; vm_compute; split; congruence) sample_budget_run) as (Hu & _ & _ & _ & _ & _ & _ & Hd).
  split; [exact Hu|apply Hd; left].
Defined.

Lemma reserve_exact_witness :
  (reserve sample_cells KFile 41).2
  = Err {| be_cell := KFile; be_requested := 41; be_used := 60; be_limit := 100 |}.
Proof.
  pose proof (reserve_exact sample_lim sample_cells [sample_guard] sample_history KFile 41
    ltac:(intros []; vm_compute; split; congruence) sample_budget_run
    ltac:(vm_compute; split; congruence)) as H.
  destruct (reserve sample_cells KFile 41) as [cs' r]. destruct H as [-> _]. reflexivity.
Defined.
