(* ===== verification/Float64.v ===== *)
(** Binary64 arithmetic as the crates use it, over the specification floats of the
    standard library at precision 53 and maximal exponent 1024, rounding to nearest,
    ties to even; and the order of the finite values. *)

From S2P Require Import Prelude.
From Stdlib Require Export Floats.SpecFloat.

Notation f64 := spec_float.

Definition f64_mul : f64 → f64 → f64 := SFmul 53 1024.
Definition f64_add : f64 → f64 → f64 := SFadd 53 1024.
(** [n as f64] for an unsigned integer. *)
Definition f64_of_u64 (n : Z) : f64 := binary_normalize 53 1024 n 0 false.
(** [f as u64]: truncation, saturating at both ends; NaN becomes 0. *)
Definition f64_as_u64 (f : f64) : Z :=
  match f with
  | S754_finite false m e => Z.min U64_MAX (Z.shiftl (Zpos m) e)
  | S754_infinity false => U64_MAX
  | _ => 0
  end.
Definition f64_is_finite (f : f64) : bool :=
  match f with S754_zero _ | S754_finite _ _ _ => true | _ => false end.
Definition f64_is_nan (f : f64) : bool := match f with S754_nan => true | _ => false end.
(** [f64::max]: the other operand when one is not a number. *)
Definition f64_max (x y : f64) : f64 :=
  if f64_is_nan x then y else if f64_is_nan y then x else if SFltb x y then y else x.
Definition f64_zero : f64 := S754_zero false.
Definition f64_one : f64 := S754_finite false 4503599627370496 (-52).

(** [n / d] rounded to the nearest integer, ties to even. *)
Definition div_round_even (n d : Z) : Z :=
  let q := n / d in
  let r := 2 * (n mod d) in
  if r <? d then q else if d <? r then q + 1 else if Z.even q then q else q + 1.

Definition NANOS_PER_SEC : Z := 1000000000.

(** [Duration::try_from_secs_f64] in nanoseconds. *)
Definition duration_from_secs (f : f64) : option Z :=
  match f with
  | S754_zero _ => Some 0
  | S754_finite false m e =>
      let nanos := if 0 <=? e then Zpos m * 2 ^ e * NANOS_PER_SEC
                   else div_round_even (Zpos m * NANOS_PER_SEC) (2 ^ (- e)) in
      if nanos <? (U64_MAX + 1) * NANOS_PER_SEC then Some nanos else None
  | _ => None
  end.

(** ** Order *)

(** Finite floats compare as triples do: sign, exponent, mantissa. *)
Definition f64_key (f : f64) : Z * Z * Z :=
  match f with
  | S754_finite false m e => (1, e, Zpos m)
  | S754_finite true m e => (-1, - e, Zneg m)
  | _ => (0, 0, 0)
  end.
Definition key_lt (a b : Z * Z * Z) : Prop :=
  let '(a1, a2, a3) := a in let '(b1, b2, b3) := b in
  a1 < b1 ∨ (a1 = b1 ∧ (a2 < b2 ∨ (a2 = b2 ∧ a3 < b3))).

Lemma compare_key x y :
  f64_is_finite x = true → f64_is_finite y = true →
  match SFcompare x y with
  | Some Lt => key_lt (f64_key x) (f64_key y)
  | Some Eq => f64_key x = f64_key y
  | Some Gt => key_lt (f64_key y) (f64_key x)
  | None => False
  end.
Proof.
  destruct x as [sx|sx| |sx mx ex], y as [sy|sy| |sy my ey]; try done; intros _ _; simpl.
  - destruct sy; simpl; lia.
  - destruct sx; simpl; lia.
  - destruct sx, sy; simpl; try lia.
    + destruct (Z.compare_spec ex ey); [|simpl; lia..]. change (Pos.compare_cont Eq mx my) with (Pos.compare mx my).
      subst. destruct (Pos.compare_spec mx my); simpl; subst; try done; lia.
    + destruct (Z.compare_spec ex ey); [|simpl; lia..]. change (Pos.compare_cont Eq mx my) with (Pos.compare mx my).
      subst. destruct (Pos.compare_spec mx my); simpl; subst; try done; lia.
Qed.

(** [a <= b] and [a < b] of finite floats. *)
Lemma f64_lt_spec x y : f64_is_finite x = true → f64_is_finite y = true → SFltb x y = true ↔ key_lt (f64_key x) (f64_key y).
Proof.
  intros Hx Hy. pose proof (compare_key x y Hx Hy) as Hc. unfold SFltb, key_lt in *.
  destruct (SFcompare x y) as [[]|]; [|done| |done]; destruct (f64_key x) as [[]], (f64_key y) as [[]]; split; try done; intros;
    simplify_eq; lia.
Qed.
Lemma f64_le_spec x y : f64_is_finite x = true → f64_is_finite y = true → SFleb x y = true ↔ ¬ key_lt (f64_key y) (f64_key x).
Proof.
  intros Hx Hy. pose proof (compare_key x y Hx Hy) as Hc. unfold SFleb, key_lt in *.
  destruct (SFcompare x y) as [[]|]; [| | |done]; destruct (f64_key x) as [[]], (f64_key y) as [[]]; split; try done; intros;
    simplify_eq; lia.
Qed.

Lemma f64_le_not_lt x y :
  f64_is_finite x = true → f64_is_finite y = true → SFleb x y = negb (SFltb y x).
Proof.
  intros Hx Hy. pose proof (f64_le_spec x y Hx Hy) as Hl. pose proof (f64_lt_spec y x Hy Hx) as Hr.
  destruct (SFleb x y), (SFltb y x); try done; exfalso; naive_solver.
Qed.

Section order.
Context (x y z : f64) (Hx : f64_is_finite x = true) (Hy : f64_is_finite y = true) (Hz : f64_is_finite z = true).

Lemma f64_lt_irrefl : SFltb x x = false.
Proof using Hx. apply not_true_is_false. rewrite f64_lt_spec by done. unfold key_lt. destruct (f64_key x) as [[]]. lia. Qed.
Lemma f64_le_refl : SFleb x x = true.
Proof using Hx. apply f64_le_spec; [done|done|]. unfold key_lt. destruct (f64_key x) as [[]]. lia. Qed.
Lemma f64_le_trans : SFleb x y = true → SFleb y z = true → SFleb x z = true.
Proof using All.
  rewrite !f64_le_spec by done. unfold key_lt. destruct (f64_key x) as [[]], (f64_key y) as [[]], (f64_key z) as [[]]. lia.
Qed.
Lemma f64_lt_le_trans : SFltb x y = true → SFleb y z = true → SFltb x z = true.
Proof using All.
  rewrite !f64_lt_spec, f64_le_spec by done. unfold key_lt. destruct (f64_key x) as [[]], (f64_key y) as [[]], (f64_key z) as [[]]. lia.
Qed.
Lemma f64_le_lt_trans : SFleb x y = true → SFltb y z = true → SFltb x z = true.
Proof using All.
  rewrite !f64_lt_spec, f64_le_spec by done. unfold key_lt. destruct (f64_key x) as [[]], (f64_key y) as [[]], (f64_key z) as [[]]. lia.
Qed.
Lemma f64_lt_le : SFltb x y = true → SFleb x y = true.
Proof using Hx Hy.
  rewrite f64_lt_spec, f64_le_spec by done. unfold key_lt. destruct (f64_key x) as [[]], (f64_key y) as [[]]. lia.
Qed.
Lemma f64_le_total : SFleb x y = true ∨ SFleb y x = true.
Proof using Hx Hy.
  rewrite !f64_le_spec by done. unfold key_lt. destruct (f64_key x) as [[]], (f64_key y) as [[]]. lia.
Qed.
End order.

Lemma f64_max_ge x y : f64_is_finite x = true → f64_is_finite y = true → SFleb x (f64_max x y) = true ∧ SFleb y (f64_max x y) = true.
Proof.
  intros Hx Hy. assert (f64_max x y = if SFltb x y then y else x) as ->.
  { unfold f64_max. destruct x, y; done. }
  destruct (SFltb x y) eqn:Hlt; split; first [by apply f64_le_refl | by apply f64_lt_le | by rewrite f64_le_not_lt, Hlt].
Qed.
