(* ===== verification/Pressure.v ===== *)
(** The creation-time memory pressure engine of c2-mem (pressure.rs), which decides
    whether one more shared-memory backing may be mapped. *)

From S2P Require Import Prelude.
From S2P Require Import Float64.

(** ** The engine *)

(** [SAMPLE_TTL] in nanoseconds. *)
Definition SAMPLE_TTL : Z := NANOS_PER_SEC.
(** 0.8 *)
Definition RECOVERY_FACTOR : f64 := S754_finite false 7205759403792794 (-53).

(** What the process reads at a creation seam: the clock, and the available physical
    memory the operating system would report if asked. *)
Record Sample := { s_now : Z; s_available : Z }.

Record PressureEngine := {
  threshold : f64;
  observation : option (Z * Z);
  pressured_for : option Z;
  denials : Z }.

Inductive DenyReason := ForcedAway | UnderPressure (candidate available : Z) (recovering : bool).
Inductive PressureDecision := PressureAdmit | PressureDeny (reason : DenyReason).

Definition PressureEngine_new (threshold : f64) : PressureEngine :=
  {| threshold := threshold; observation := None; pressured_for := None; denials := 0 |}.

(** [Instant::duration_since] saturates at zero. *)
Definition duration_since (now earlier : Z) : Z := Z.max 0 (now - earlier).

Definition current_available (s : Sample) (e : PressureEngine) : PressureEngine * Z :=
  let fresh :=
    ({| threshold := threshold e; observation := Some (s_available s, s_now s);
        pressured_for := pressured_for e; denials := denials e |}, s_available s) in
  match observation e with
  | Some (available, observed_at) =>
      if duration_since (s_now s) observed_at <? SAMPLE_TTL then (e, available) else fresh
  | None => fresh
  end.

(** The largest candidate a bar admits. *)
Definition bar (threshold : f64) (available : Z) (recovering : bool) : Z :=
  f64_as_u64 (f64_mul (f64_of_u64 available)
                (if recovering then f64_mul threshold RECOVERY_FACTOR else threshold)).

Definition evaluate (s : Sample) (e : PressureEngine) (candidate : Z) : PressureEngine * PressureDecision :=
  if negb (f64_is_finite (threshold e)) || SFleb (threshold e) f64_zero then
    ({| threshold := threshold e; observation := observation e; pressured_for := pressured_for e;
        denials := saturating_add U64_MAX (denials e) 1 |}, PressureDeny ForcedAway)
  else if SFleb f64_one (threshold e) then (e, PressureAdmit)
  else
    let '(e, available) := current_available s e in
    let latched := pressured_for e in
    let recovering := match latched with Some denied => denied <=? candidate | None => false end in
    if candidate <=? bar (threshold e) available recovering then
      ({| threshold := threshold e; observation := observation e;
          pressured_for := if recovering then None else latched; denials := denials e |},
       PressureAdmit)
    else
      ({| threshold := threshold e; observation := observation e;
          pressured_for := Some (Z.max (default 0 latched) candidate);
          denials := saturating_add U64_MAX (denials e) 1 |},
       PressureDeny (UnderPressure candidate available recovering)).

(** ** Runs *)

(** A run of creation attempts, newest first: what each asked for and what it got. *)
Record Attempt := { at_sample : Sample; at_candidate : Z; at_decision : PressureDecision }.

Inductive pressure_run (t : f64) : PressureEngine → list Attempt → Prop :=
| pressure_start : pressure_run t (PressureEngine_new t) []
| pressure_attempt e log s c e' d :
    pressure_run t e log → 0 <= c → evaluate s e c = (e', d) →
    pressure_run t e' ({| at_sample := s; at_candidate := c; at_decision := d |} :: log).

Definition denied (a : Attempt) : bool := if at_decision a is PressureDeny _ then true else false.

(** The largest denied candidate since the last recovery, the admission of a candidate
    at least that large; computed from the log alone. *)
Fixpoint latch (log : list Attempt) : option Z :=
  match log with
  | [] => None
  | a :: log =>
      let l := latch log in
      if denied a then Some (Z.max (default 0 l) (at_candidate a))
      else match l with Some x => if x <=? at_candidate a then None else l | None => None end
  end.

(** The observation in force after a log: the newest sample that the one before it was
    too old to serve. *)
Fixpoint observed (log : list Attempt) : option (Z * Z) :=
  match log with
  | [] => None
  | a :: log =>
      match observed log with
      | Some (v, t) => if duration_since (s_now (at_sample a)) t <? SAMPLE_TTL then Some (v, t)
                       else Some (s_available (at_sample a), s_now (at_sample a))
      | None => Some (s_available (at_sample a), s_now (at_sample a))
      end
  end.

Definition heuristic_on (t : f64) : bool :=
  f64_is_finite t && negb (SFleb t f64_zero) && negb (SFleb f64_one t).

Definition denial_count (log : list Attempt) : Z := Z.of_nat (length (filter (fun a => denied a = true) log)).

Lemma evaluate_threshold s e c : threshold (evaluate s e c).1 = threshold e.
Proof. unfold evaluate, current_available. repeat case_match; simplify_eq/=; done. Qed.

Lemma evaluate_denials s e c n :
  denials e = Z.min U64_MAX n → 0 <= n →
  denials (evaluate s e c).1
  = Z.min U64_MAX (n + if (evaluate s e c).2 is PressureDeny _ then 1 else 0).
Proof.
  intros Hd Hn. unfold evaluate, current_available, saturating_add.
  repeat case_match; simplify_eq/=; lia.
Qed.

(** The three regimes of [evaluate]. *)
Lemma evaluate_forced s e c :
  f64_is_finite (threshold e) = false ∨ SFleb (threshold e) f64_zero = true →
  (evaluate s e c).2 = PressureDeny ForcedAway ∧ observation (evaluate s e c).1 = observation e.
Proof. intros H. unfold evaluate. by destruct (threshold e), H as [H|H]; simpl in *; rewrite ?H, ?orb_true_r. Qed.

Lemma evaluate_on s e c :
  heuristic_on (threshold e) = true →
  let '(e', d) := evaluate s e c in
  ∃ v t, observation e' = Some (v, t)
    ∧ (observation e = Some (v, t) ∧ duration_since (s_now s) t < SAMPLE_TTL
       ∨ (v, t) = (s_available s, s_now s)
         ∧ ∀ v' t', observation e = Some (v', t') → SAMPLE_TTL <= duration_since (s_now s) t')
    ∧ let recovering := match pressured_for e with Some x => x <=? c | None => false end in
      (d = PressureAdmit ↔ c <= bar (threshold e) v recovering)
      ∧ pressured_for e' = match d with
                           | PressureAdmit => if recovering then None else pressured_for e
                           | PressureDeny _ => Some (Z.max (default 0 (pressured_for e)) c)
                           end.
Proof.
  unfold heuristic_on, evaluate. intros Hon. apply andb_true_iff in Hon as [Hon H1].
  apply andb_true_iff in Hon as [Hf H0]. rewrite Hf, (proj1 (negb_true_iff _) H0), (proj1 (negb_true_iff _) H1).
  simpl. unfold current_available.
  destruct (observation e) as [[v t]|] eqn:Ho.
  - destruct (Z.ltb_spec (duration_since (s_now s) t) SAMPLE_TTL).
    + destruct (_ <=? bar _ _ _) eqn:Hb; simpl; exists v, t; split; try done; (split; [by left|]).
      * by apply Z.leb_le in Hb.
      * apply Z.leb_gt in Hb. split; [|done]. split; [done|lia].
    + simpl. destruct (_ <=? bar _ _ _) eqn:Hb; simpl; exists (s_available s), (s_now s);
        split; try done; (split; [right; split; [done|]; intros ? ? [= <- <-]; done|]).
      * by apply Z.leb_le in Hb.
      * apply Z.leb_gt in Hb. split; [|done]. split; [done|lia].
  - simpl. destruct (_ <=? bar _ _ _) eqn:Hb; simpl; exists (s_available s), (s_now s);
      split; try done; (split; [by right|]).
    + by apply Z.leb_le in Hb.
    + apply Z.leb_gt in Hb. split; [|done]. split; [done|lia].
Qed.

Lemma evaluate_off s e c :
  f64_is_finite (threshold e) = true → SFleb f64_one (threshold e) = true →
  evaluate s e c = (e, PressureAdmit).
Proof.
  intros Hf H1. unfold evaluate. rewrite Hf, H1.
  by replace (SFleb (threshold e) f64_zero) with false by (by destruct (threshold e) as [|[]| |[]]).
Qed.

Record run_state (t : f64) (e : PressureEngine) (log : list Attempt) : Prop := {
  rs_threshold : threshold e = t;
  rs_denials : denials e = Z.min U64_MAX (denial_count log);
  rs_observed : if heuristic_on t then observation e = observed log else observation e = None;
  rs_latch : heuristic_on t = true → pressured_for e = latch log }.

Lemma denial_count_cons a log : denial_count (a :: log) = denial_count log + if denied a then 1 else 0.
Proof. unfold denial_count. rewrite filter_cons. repeat case_decide; destruct (denied a); simpl in *; first [done|lia]. Qed.

(** An observation step of a run. *)
Lemma observed_step s e c log v t d :
  observation e = observed log →
  observation e = Some (v, t) ∧ duration_since (s_now s) t < SAMPLE_TTL
  ∨ (v, t) = (s_available s, s_now s)
    ∧ (∀ v' t', observation e = Some (v', t') → SAMPLE_TTL <= duration_since (s_now s) t') →
  observed ({| at_sample := s; at_candidate := c; at_decision := d |} :: log) = Some (v, t).
Proof.
  intros Ho Hs. simpl. rewrite <-Ho. destruct Hs as [[-> Hlt]|[[= -> ->] Hold]].
  - by apply Z.ltb_lt in Hlt as ->.
  - destruct (observation e) as [[v' t']|]; [|done].
    destruct (Z.ltb_spec (duration_since (s_now s) t') SAMPLE_TTL); [|done].
    specialize (Hold _ _ eq_refl). lia.
Qed.

Lemma not_on_observation s e c :
  heuristic_on (threshold e) = false → observation (evaluate s e c).1 = observation e.
Proof.
  unfold heuristic_on, evaluate. destruct (f64_is_finite _), (SFleb _ f64_zero), (SFleb f64_one _); done.
Qed.

Lemma pressure_run_state t e log : pressure_run t e log → run_state t e log.
Proof.
  induction 1 as [|e log s c e' d _ [Ht Hd Ho Hl] Hc He].
  { split; try done. by destruct (heuristic_on t). }
  pose proof (evaluate_threshold s e c) as Ht'. rewrite He in Ht'. simpl in Ht'.
  pose proof (evaluate_denials s e c _ Hd) as Hd'. rewrite He in Hd'. simpl in Hd'.
  split.
  - congruence.
  - rewrite Hd', denial_count_cons; [by destruct d|]. unfold denial_count. lia.
  - destruct (heuristic_on t) eqn:Hon.
    + rewrite <-Ht in Hon. pose proof (evaluate_on s e c Hon) as Hev. rewrite He in Hev.
      destruct Hev as (v & tm & -> & Hs & _). symmetry. by eapply observed_step.
    + rewrite <-Ho. rewrite <-Ht in Hon. by rewrite <-(not_on_observation s e c Hon), He.
  - intros Hon. specialize (Hl Hon). rewrite <-Ht in Hon.
    pose proof (evaluate_on s e c Hon) as Hev. rewrite He in Hev.
    destruct Hev as (v & tm & _ & _ & _ & ->). rewrite Hl. simpl. unfold denied. simpl.
    destruct d; [|done]. by destruct (latch log).
Qed.

(** The pressure decision in every run of creation attempts.  With a threshold
    between 0 and 1 a candidate is admitted exactly when it fits the bar for the
    observation in force, which is at most [SAMPLE_TTL] old; the stricter recovery bar
    applies exactly to candidates at least as large as the largest one denied since the
    last recovery.  A threshold of 1 or more admits everything and leaves the engine
    alone; zero, negative and non-finite ones deny everything and never take a sample.
    [denials] counts the denials, saturating. *)
Theorem pressure_decision_exact (t : f64) (e : PressureEngine) (log : list Attempt) (s : Sample) (c : Z) :
  pressure_run t e log → 0 <= c →
  denials e = Z.min U64_MAX (denial_count log)
  ∧ (heuristic_on t = true →
      ∃ v tm, observed ({| at_sample := s; at_candidate := c; at_decision := PressureAdmit |} :: log) = Some (v, tm)
        ∧ duration_since (s_now s) tm < SAMPLE_TTL
        ∧ ((evaluate s e c).2 = PressureAdmit ↔
             c <= bar t v (match latch log with Some x => x <=? c | None => false end)))
  ∧ (f64_is_finite t = true → SFleb f64_one t = true → evaluate s e c = (e, PressureAdmit))
  ∧ (f64_is_finite t = false ∨ SFleb t f64_zero = true →
      (evaluate s e c).2 = PressureDeny ForcedAway ∧ observation e = None).
Proof.
  intros Hrun Hc. destruct (pressure_run_state t e log Hrun) as [Ht Hd Ho Hl]. split; [done|].
  rewrite <-Ht in *. split_and!.
  - intros Hon. rewrite Hon in Ho. specialize (Hl Hon). pose proof (evaluate_on s e c Hon) as Hev.
    destruct (evaluate s e c) as [e' d]. destruct Hev as (v & tm & _ & Hs & Hd' & _).
    exists v, tm. split; [by eapply observed_step|]. rewrite <-Hl. split; [|exact Hd'].
    destruct Hs as [[_ ?]|[[= -> ->] _]]; [done|]. unfold duration_since. rewrite Z.sub_diag. done.
  - apply evaluate_off.
  - intros Hf. split; [by apply evaluate_forced|]. unfold heuristic_on in Ho.
    destruct Hf as [Hf|Hf]; rewrite Hf in Ho; [done|]. by rewrite andb_false_r in Ho.
Qed.

(** 0.5 *)
Definition sample_half : f64 := S754_finite false 4503599627370496 (-53).
Definition sample_reading (now : Z) : Sample := {| s_now := now; s_available := 1000 |}.
Definition sample_engine : PressureEngine := (evaluate (sample_reading 0) (PressureEngine_new sample_half) 600).1.
Definition sample_log : list Attempt :=
  [{| at_sample := sample_reading 0; at_candidate := 600;
      at_decision := PressureDeny (UnderPressure 600 1000 false) |}].

(** 600 of 1000 available bytes are denied at one half; 450 pass as a smaller candidate. *)
Lemma pressure_decision_exact_witness :
  latch sample_log = Some 600
  ∧ (evaluate (sample_reading 5) sample_engine 450).2 = PressureAdmit
  ∧ denials sample_engine = Z.min U64_MAX (denial_count sample_log).
Proof.
  split; [reflexivity|].
  assert (Hrun : pressure_run sample_half sample_engine sample_log)
    by (eapply pressure_attempt; [apply pressure_start|lia|reflexivity]).
  destruct (pressure_decision_exact sample_half sample_engine sample_log (sample_reading 5) 450 Hrun ltac:(lia))
    as (Hd & Hon & _).
  split; [|exact Hd]. destruct (Hon eq_refl) as (v & tm & Ho & _ & Hiff).
  simpl in Ho. injection Ho as <- <-. apply Hiff. vm_compute. discriminate.
Defined.
