(* ===== verification/Pool.v ===== *)
(** The memory pool of c2-mem (pool.rs): buddy segments, dedicated segments and file
    spill behind one fallback chain, with their allocation handles (handle.rs), backing
    creators (buddy_segment.rs, dedicated.rs, segment/unix.rs, spill.rs) and statistics
    (config.rs).  Mapped memory is a byte list; dropping a backing returns its budget
    reservation. *)

From S2P Require Import Prelude.
From S2P Require Import Buddy.
From S2P Require Import Budget.
From S2P Require Import Float64.
From S2P Require Import Pressure.

(** ** Configuration and allocations *)

(** [PoolConfig] of c2-config, less the spill directory. *)
Record PoolConfig := {
  segment_size : Z;
  min_block_size : Z;
  max_segments : Z;
  max_dedicated_segments : Z;
  buddy_idle_decay_secs : f64;
  spill_threshold : f64;
  buddy_enabled : bool;
  min_retained_segments : Z }.

Record PoolAllocation := {
  seg_idx : Z;
  generation : Z;
  pa_offset : Z;
  pa_actual_size : Z;
  pa_level : nat;
  is_dedicated : bool }.

Inductive OtherReason :=
| BuddyExhausted
| DedicatedExhausted
| SizeUnaddressable (size : Z)
| GeometryUnsupported
| RegionFailed
| SpillFailed.

Inductive BackingError :=
| BackingBudget (e : BudgetError)
| BackingPressure (r : DenyReason)
| BackingOther (r : OtherReason).

Inductive ConfigError :=
| BadMinBlock (n : Z)
| MinBlockTooLarge (n : Z)
| SegmentTooSmall (segment min_block : Z)
| BadGeometry (segment min_block : Z)
| TooManySegments
| RetainedAboveMax (retained max : Z)
| TooManyDedicated
| DecayNotFinite
| DecayNotRepresentable.

(** The errors of the public methods, by reason. *)
Inductive PoolError :=
| PeerPool
| ZeroBytes
| Backing (e : BackingError)
| NoShmCapacity (size : Z)
| StaleGeneration
| InvalidSegment
| OwnerMismatch
| CannotGrowHandle (new_len len : Z)
| BuddyDisabled
| RetentionDisabled
| AboveMaxSegments (count max : Z)
| PrefixTooLong (len : Z)
| InvalidConfig (e : ConfigError)
| EmptySpan
| SpanOverflow
| SpanOutside (start fin span : Z).

(** ** Backings *)

(** An owner's buddy segment: the local allocator, the mapped bytes and the charge. *)
Record BuddySegment := { bs_alloc : BuddyAllocator; bs_mem : bytes; bs_guard : BudgetReservation }.
Record DedicatedSegment := { ds_mem : bytes; ds_guard : BudgetReservation }.
Record DedicatedEntry := { de_segment : DedicatedSegment; de_generation : Z }.
Record SpillMapping := { sm_mem : bytes; sm_guard : BudgetReservation }.

Definition bs_size (s : BuddySegment) : Z := blen (bs_mem s).
Definition ds_size (s : DedicatedSegment) : Z := blen (ds_mem s).
(** [segment.allocator().alloc_count()]. *)
Definition seg_count (s : BuddySegment) : Z := alloc_count (bstate (bs_alloc s)).

Inductive HandleBacking :=
| Shm (allocation : PoolAllocation) (owner : Z) (len : Z)
| FileSpill (mmap : SpillMapping) (len : Z).
Notation MemHandle := HandleBacking.

(** [MemHandle::len]. *)
Definition handle_length (h : MemHandle) : Z := match h with Shm _ _ len | FileSpill _ len => len end.
Definition is_file_spill (h : MemHandle) : bool := if h is FileSpill _ _ then true else false.
Definition shm_allocation (h : MemHandle) : option PoolAllocation :=
  match h with Shm a _ _ => Some a | FileSpill _ _ => None end.
Definition is_buddy (h : MemHandle) : bool :=
  match shm_allocation h with Some a => negb (is_dedicated a) | None => false end.
Definition handle_is_dedicated (h : MemHandle) : bool :=
  match shm_allocation h with Some a => is_dedicated a | None => false end.
(** [MemHandle::trim_to]. *)
Definition handle_trim_to (h : MemHandle) (new_len : Z) : res PoolError MemHandle :=
  guard_err (handle_length h <? new_len) (CannotGrowHandle new_len (handle_length h)) ;?
  Ok match h with Shm a o _ => Shm a o new_len | FileSpill m _ => FileSpill m new_len end.
Definition into_handle (a : PoolAllocation) (len owner : Z) : MemHandle := Shm a owner len.

(** What the operating system answers during one call: the clock at the collection,
    the readings at the two creation seams, the page size, whether a region with the
    name of this kind, slot and generation can be created and mapped, and whether a
    spill file can. *)
Record Env := {
  gc_now : Z;
  buddy_sample : Sample;
  dedicated_sample : Sample;
  sysconf_pagesize : Z;
  shm_create : bool → Z → Z → bool;
  spill_create : bool }.

Definition native_page_size (env : Env) : option Z :=
  if 0 <? sysconf_pagesize env then Some (sysconf_pagesize env) else None.

Definition round_payload_to_page (data_size page_size : Z) : option Z :=
  if data_size =? 0 then None
  else
    let remainder := data_size mod page_size in
    match (if remainder =? 0 then Some data_size else checked_add USIZE_MAX data_size (page_size - remainder)) with
    | Some padded => if padded <=? ISIZE_MAX then Some padded else None
    | None => None
    end.

Definition required_shm_size (env : Env) (data_size : Z) : option Z :=
  match native_page_size env with Some page => round_payload_to_page data_size page | None => None end.

(** [ShmRegion::create]: a fresh region reads as zeros. *)
Definition ShmRegion_create (env : Env) (dedicated : bool) (idx gen size : Z) : option bytes :=
  if (size =? 0) || (ISIZE_MAX <? size) then None
  else if shm_create env dedicated idx gen then Some (replicate (Z.to_nat size) Byte.x00) else None.

Definition BuddySegment_create (env : Env) (idx gen size min_block : Z) (guard : BudgetReservation)
    : res BackingError BuddySegment :=
  match checked_layout size min_block with
  | None => Err (BackingOther GeometryUnsupported)
  | Some layout =>
      match ShmRegion_create env false idx gen (bl_total_size layout) with
      | None => Err (BackingOther RegionFailed)
      | Some mem =>
          match init layout min_block with
          | Ok a => Ok {| bs_alloc := a; bs_mem := mem; bs_guard := guard |}
          | _ => Panic
          end
      end
  end.

Definition DedicatedSegment_create (env : Env) (idx gen data_size : Z) (guard : BudgetReservation)
    : res BackingError DedicatedSegment :=
  match required_shm_size env data_size with
  | None => Err (BackingOther GeometryUnsupported)
  | Some size =>
      match ShmRegion_create env true idx gen size with
      | None => Err (BackingOther RegionFailed)
      | Some mem => Ok {| ds_mem := mem; ds_guard := guard |}
      end
  end.

Definition create_file_spill (env : Env) (size : Z) : option bytes :=
  if (size =? 0) || (ISIZE_MAX <? size) then None
  else if spill_create env then Some (replicate (Z.to_nat size) Byte.x00) else None.

(** ** The pool *)

Record TierCounters := {
  buddy_reused_allocs : Z;
  buddy_expanded_allocs : Z;
  dedicated_allocs : Z;
  file_spill_allocs : Z }.

Record MemPool := {
  config : PoolConfig;
  segments : list (option BuddySegment);
  generations : list Z;
  is_peer : bool;
  dedicated : gmap Z DedicatedEntry;
  incarnation : Z;
  dedicated_generations : list Z;
  idle_since : list (option Z);
  retain_idle_backing : bool;
  budget : option BudgetCells;
  pressure : PressureEngine;
  counters : TierCounters }.

(** Assignments to fields. *)
Definition set_segments (p : MemPool) (segs : list (option BuddySegment)) (idle : list (option Z)) : MemPool :=
  {| config := config p; segments := segs; generations := generations p; is_peer := is_peer p;
     dedicated := dedicated p; incarnation := incarnation p;
     dedicated_generations := dedicated_generations p; idle_since := idle;
     retain_idle_backing := retain_idle_backing p; budget := budget p; pressure := pressure p;
     counters := counters p |}.
Definition set_generations (p : MemPool) (gens : list Z) : MemPool :=
  {| config := config p; segments := segments p; generations := gens; is_peer := is_peer p;
     dedicated := dedicated p; incarnation := incarnation p;
     dedicated_generations := dedicated_generations p; idle_since := idle_since p;
     retain_idle_backing := retain_idle_backing p; budget := budget p; pressure := pressure p;
     counters := counters p |}.
Definition set_dedicated (p : MemPool) (d : gmap Z DedicatedEntry) (gens : list Z) : MemPool :=
  {| config := config p; segments := segments p; generations := generations p; is_peer := is_peer p;
     dedicated := d; incarnation := incarnation p; dedicated_generations := gens;
     idle_since := idle_since p; retain_idle_backing := retain_idle_backing p; budget := budget p;
     pressure := pressure p; counters := counters p |}.
Definition set_cells (p : MemPool) (cells : BudgetCells) : MemPool :=
  {| config := config p; segments := segments p; generations := generations p; is_peer := is_peer p;
     dedicated := dedicated p; incarnation := incarnation p;
     dedicated_generations := dedicated_generations p; idle_since := idle_since p;
     retain_idle_backing := retain_idle_backing p; budget := Some cells; pressure := pressure p;
     counters := counters p |}.
Definition set_retain (p : MemPool) (retain : bool) : MemPool :=
  {| config := config p; segments := segments p; generations := generations p; is_peer := is_peer p;
     dedicated := dedicated p; incarnation := incarnation p;
     dedicated_generations := dedicated_generations p; idle_since := idle_since p;
     retain_idle_backing := retain; budget := budget p; pressure := pressure p;
     counters := counters p |}.
Definition set_pressure (p : MemPool) (e : PressureEngine) : MemPool :=
  {| config := config p; segments := segments p; generations := generations p; is_peer := is_peer p;
     dedicated := dedicated p; incarnation := incarnation p;
     dedicated_generations := dedicated_generations p; idle_since := idle_since p;
     retain_idle_backing := retain_idle_backing p; budget := budget p; pressure := e;
     counters := counters p |}.
Definition set_counters (p : MemPool) (c : TierCounters) : MemPool :=
  {| config := config p; segments := segments p; generations := generations p; is_peer := is_peer p;
     dedicated := dedicated p; incarnation := incarnation p;
     dedicated_generations := dedicated_generations p; idle_since := idle_since p;
     retain_idle_backing := retain_idle_backing p; budget := budget p; pressure := pressure p;
     counters := c |}.
Definition count_reused (c : TierCounters) : TierCounters :=
  {| buddy_reused_allocs := saturating_add U64_MAX (buddy_reused_allocs c) 1;
     buddy_expanded_allocs := buddy_expanded_allocs c; dedicated_allocs := dedicated_allocs c;
     file_spill_allocs := file_spill_allocs c |}.
Definition count_expanded (c : TierCounters) : TierCounters :=
  {| buddy_reused_allocs := buddy_reused_allocs c;
     buddy_expanded_allocs := saturating_add U64_MAX (buddy_expanded_allocs c) 1;
     dedicated_allocs := dedicated_allocs c; file_spill_allocs := file_spill_allocs c |}.
Definition count_dedicated (c : TierCounters) : TierCounters :=
  {| buddy_reused_allocs := buddy_reused_allocs c; buddy_expanded_allocs := buddy_expanded_allocs c;
     dedicated_allocs := saturating_add U64_MAX (dedicated_allocs c) 1;
     file_spill_allocs := file_spill_allocs c |}.
Definition count_spill (c : TierCounters) : TierCounters :=
  {| buddy_reused_allocs := buddy_reused_allocs c; buddy_expanded_allocs := buddy_expanded_allocs c;
     dedicated_allocs := dedicated_allocs c;
     file_spill_allocs := saturating_add U64_MAX (file_spill_allocs c) 1 |}.

(** A call that changes the pool and returns a value or an error; only a panic leaves
    no pool behind. *)
Notation outcome E A := (res Empty_set (MemPool * (A + E))).
(** [expect] and [unwrap]. *)
Definition expect {E A} (m : res E A) : res Empty_set A :=
  match m with Ok x => Ok x | _ => Panic end.
Definition expect_some {E A} (o : option A) : res E A := match o with Some x => Ok x | None => Panic end.

(** ** Construction *)

Definition validate_duration_secs (secs : f64) : res ConfigError unit :=
  guard_err (negb (f64_is_finite secs)) DecayNotFinite ;?
  if SFltb secs f64_zero then Ok tt
  else match duration_from_secs secs with Some _ => Ok tt | None => Err DecayNotRepresentable end.

Definition validate_config (c : PoolConfig) : res ConfigError unit :=
  guard_err ((min_block_size c =? 0) || negb (is_power_of_two (min_block_size c)))
    (BadMinBlock (min_block_size c)) ;?
  match checked_mul USIZE_MAX (min_block_size c) 2 with
  | None => Err (MinBlockTooLarge (min_block_size c))
  | Some min_segment_size =>
      guard_err (segment_size c <? min_segment_size)
        (SegmentTooSmall (segment_size c) (min_block_size c)) ;?
      match checked_layout (segment_size c) (min_block_size c) with
      | None => Err (BadGeometry (segment_size c) (min_block_size c))
      | Some _ =>
          guard_err (U16_MAX + 1 <? max_segments c) TooManySegments ;?
          guard_err (max_segments c <? min_retained_segments c)
            (RetainedAboveMax (min_retained_segments c) (max_segments c)) ;?
          guard_err (U16_MAX + 1 <? max_dedicated_segments c) TooManyDedicated ;?
          validate_duration_secs (buddy_idle_decay_secs c)
      end
  end.

Definition MAX_SHM_PREFIX_LEN : Z := 255.

(** [fresh]: the incarnation the process-wide counter hands out. *)
Definition with_identity (c : PoolConfig) (prefix_len : Z) (peer : bool) (b : option BudgetCells) (fresh : Z)
    : res PoolError MemPool :=
  guard_err (MAX_SHM_PREFIX_LEN <? prefix_len) (PrefixTooLong prefix_len) ;?
  let? _ := map_err InvalidConfig (validate_config c) in
  Ok {| config := c; segments := []; generations := []; is_peer := peer; dedicated := ∅;
        incarnation := fresh; dedicated_generations := []; idle_since := [];
        retain_idle_backing := true; budget := b; pressure := PressureEngine_new (spill_threshold c);
        counters := {| buddy_reused_allocs := 0; buddy_expanded_allocs := 0; dedicated_allocs := 0;
                       file_spill_allocs := 0 |} |}.

Definition open_peer (c : PoolConfig) (prefix_len fresh : Z) : res PoolError MemPool :=
  with_identity c prefix_len true None fresh.
(** The prefix gains an underscore, eight digits of the process id and a 32-digit uuid. *)
Definition new_with_prefix_and_budget (c : PoolConfig) (prefix_len : Z) (b : BudgetCells) (fresh : Z)
    : res PoolError MemPool :=
  with_identity c (prefix_len + 41) false (Some b) fresh.

(** ** Identity *)

Definition segment (p : MemPool) (idx : nat) : option BuddySegment := mjoin (segments p !! idx).
Definition segment_count (p : MemPool) : Z := Z.of_nat (length (omap id (segments p))).
Definition segment_generation (p : MemPool) (idx : nat) : option Z :=
  match segment p idx with Some _ => generations p !! idx | None => None end.

Definition validate_generation (p : MemPool) (idx gen : Z) (ded : bool) : res PoolError unit :=
  let current := if ded then de_generation <$> dedicated p !! idx
                 else segment_generation p (Z.to_nat idx) in
  guard_err ((U16_MAX <? idx) || (gen =? 0) || negb (bool_decide (current = Some gen))) StaleGeneration.

Definition validate_handle_owner (p : MemPool) (h : MemHandle) : res PoolError unit :=
  match h with
  | Shm _ owner _ =>
      guard_err (is_peer p) PeerPool ;?
      guard_err (negb (owner =? incarnation p)) OwnerMismatch
  | FileSpill _ _ => Ok tt
  end.

(** [data_ptr]: the mapped bytes the pointer is into, and its offset in them. *)
Definition data_ptr (p : MemPool) (a : PoolAllocation) : res PoolError (bytes * Z) :=
  validate_generation p (seg_idx a) (generation a) (is_dedicated a) ;?
  if is_dedicated a then
    match dedicated p !! seg_idx a with
    | Some e => Ok (ds_mem (de_segment e), 0)
    | None => Err InvalidSegment
    end
  else
    match segment p (Z.to_nat (seg_idx a)) with
    | Some s => Ok (bs_mem s, pa_offset a)
    | None => Err InvalidSegment
    end.

Definition validate_handle (p : MemPool) (h : MemHandle) : res PoolError unit :=
  validate_handle_owner p h ;?
  match h with Shm a _ _ => let? _ := data_ptr p a in Ok tt | FileSpill _ _ => Ok tt end.

(** Building a slice from a pointer and a length outside the mapping is undefined
    behaviour; it is a [Panic] here, and so excluded wherever no panic is proved. *)
Definition checked_handle_slice (p : MemPool) (h : MemHandle) : res PoolError bytes :=
  validate_handle_owner p h ;?
  match h with
  | Shm a _ len => let? '(mem, off) := data_ptr p a in slice mem off (off + len)
  | FileSpill m len => slice (sm_mem m) 0 len
  end.

Definition handle_slice (p : MemPool) (h : MemHandle) : res Empty_set bytes :=
  expect (checked_handle_slice p h).
Definition copy_handle_data (p : MemPool) (h : MemHandle) : res PoolError bytes :=
  checked_handle_slice p h.

(** [data] copied to offset [off] of the [len] bytes at [base]. *)
Definition write_span {E} (mem : bytes) (base len off : Z) (data : bytes) : res E bytes :=
  let? span := slice mem base (base + len) in
  let? span := store span off data in
  store mem base span.

(** [handle_slice_mut(h)[off..off + data.len()].copy_from_slice(data)]: the pool and
    the handle afterwards. *)
Definition handle_slice_mut (p : MemPool) (h : MemHandle) (off : Z) (data : bytes)
    : res Empty_set (MemPool * MemHandle) :=
  let? _ := expect (validate_handle_owner p h) in
  match h with
  | Shm a _ len =>
      let? '(mem, base) := expect (data_ptr p a) in
      let? mem := write_span mem base len off data in
      Ok (if is_dedicated a then
            match dedicated p !! seg_idx a with
            | Some e => set_dedicated p
                (<[seg_idx a := {| de_segment := {| ds_mem := mem; ds_guard := ds_guard (de_segment e) |};
                                   de_generation := de_generation e |}]> (dedicated p))
                (dedicated_generations p)
            | None => p
            end
          else
            match segment p (Z.to_nat (seg_idx a)) with
            | Some s => set_segments p
                (<[Z.to_nat (seg_idx a) := Some {| bs_alloc := bs_alloc s; bs_mem := mem; bs_guard := bs_guard s |}]>
                   (segments p)) (idle_since p)
            | None => p
            end, h)
  | FileSpill m len =>
      let? mem := write_span (sm_mem m) 0 len off data in
      Ok (p, FileSpill {| sm_mem := mem; sm_guard := sm_guard m |} len)
  end.

(** ** Backing creation *)

(** Dropping a reservation returns it to the budget it was made in. *)
Definition drop_guard (p : MemPool) (g : BudgetReservation) : res Empty_set MemPool :=
  let? cells := expect_some (budget p) in
  let? cells := expect (drop_reservation cells g) in
  Ok (set_cells p cells).

Definition reserve_backing (p : MemPool) (kind : BudgetKind) (bytes : Z)
    : outcome BudgetError BudgetReservation :=
  let? cells := expect_some (budget p) in
  let '(cells, r) := reserve cells kind bytes in
  match r with
  | Ok g => Ok (set_cells p cells, inl g)
  | Err e => Ok (set_cells p cells, inr e)
  | Panic => Panic
  end.

(** The first slot that is not live and whose generation can still advance. *)
Definition free_slot (live : nat → bool) (gens : list Z) (limit : Z) : option (nat * Z) :=
  head (omap (fun idx => if live idx then None
                         else (fun g => (idx, g)) <$> checked_add U32_MAX (default 0 (gens !! idx)) 1)
             (seq 0 (Z.to_nat limit))).

(** [Vec::resize] to at least [n] elements. *)
Definition grow {A} (n : nat) (d : A) (l : list A) : list A := l ++ replicate (n - length l) d.

Definition create_segment (env : Env) (p : MemPool) : outcome BackingError (nat * BuddySegment) :=
  match free_slot (fun idx => bool_decide (is_Some (segment p idx))) (generations p)
          (max_segments (config p)) with
  | None => Ok (p, inr (BackingOther BuddyExhausted))
  | Some (idx, gen) =>
      let? layout := expect_some (checked_layout (segment_size (config p)) (min_block_size (config p))) in
      let '(e, d) := evaluate (buddy_sample env) (pressure p) (bl_total_size layout) in
      let p := set_pressure p e in
      match d with
      | PressureDeny r => Ok (p, inr (BackingPressure r))
      | PressureAdmit =>
          let? '(p, r) := reserve_backing p KShm (bl_total_size layout) in
          match r with
          | inr e => Ok (p, inr (BackingBudget e))
          | inl g =>
              match BuddySegment_create env (Z.of_nat idx) gen (segment_size (config p))
                      (min_block_size (config p)) g with
              | Ok s => Ok (set_generations p (<[idx := gen]> (grow (S idx) 0 (generations p))), inl (idx, s))
              | Err e => let? p := drop_guard p g in Ok (p, inr e)
              | Panic => Panic
              end
          end
      end
  end.

Definition install_segment (p : MemPool) (idx : nat) (s : BuddySegment) : res Empty_set MemPool :=
  let idle := if (length (segments p) <=? idx)%nat
              then take (S idx) (grow (S idx) None (idle_since p)) else idle_since p in
  guard_panic (Z.of_nat idx <? blen idle) ;?
  Ok (set_segments p (<[idx := Some s]> (grow (S idx) None (segments p))) (<[idx := None]> idle)).

Definition alloc_dedicated (env : Env) (p : MemPool) (size : Z) : outcome BackingError PoolAllocation :=
  match free_slot (fun idx => bool_decide (is_Some (dedicated p !! Z.of_nat idx)))
          (dedicated_generations p) (max_dedicated_segments (config p)) with
  | None => Ok (p, inr (BackingOther DedicatedExhausted))
  | Some (idx, gen) =>
      match required_shm_size env size with
      | None => Ok (p, inr (BackingOther (SizeUnaddressable size)))
      | Some backing =>
          if U32_MAX <? backing then Ok (p, inr (BackingOther (SizeUnaddressable size)))
          else
            let '(e, d) := evaluate (dedicated_sample env) (pressure p) backing in
            let p := set_pressure p e in
            match d with
            | PressureDeny r => Ok (p, inr (BackingPressure r))
            | PressureAdmit =>
                let? '(p, r) := reserve_backing p KShm backing in
                match r with
                | inr e => Ok (p, inr (BackingBudget e))
                | inl g =>
                    match DedicatedSegment_create env (Z.of_nat idx) gen size g with
                    | Ok s =>
                        let p := set_dedicated p
                          (<[Z.of_nat idx := {| de_segment := s; de_generation := gen |}]> (dedicated p))
                          (<[idx := gen]> (grow (S idx) 0 (dedicated_generations p))) in
                        Ok (set_counters p (count_dedicated (counters p)),
                            inl {| seg_idx := Z.of_nat idx; generation := gen; pa_offset := 0;
                                   pa_actual_size := wrap_u32 backing; pa_level := 0;
                                   is_dedicated := true |})
                    | Err e => let? p := drop_guard p g in Ok (p, inr e)
                    | Panic => Panic
                    end
                end
            end
      end
  end.

Definition alloc_file_spill (env : Env) (p : MemPool) (size : Z) : outcome BackingError MemHandle :=
  let? '(p, r) := reserve_backing p KFile size in
  match r with
  | inr e => Ok (p, inr (BackingBudget e))
  | inl g =>
      match create_file_spill env size with
      | Some mem => Ok (set_counters p (count_spill (counters p)),
                        inl (FileSpill {| sm_mem := mem; sm_guard := g |} size))
      | None => let? p := drop_guard p g in Ok (p, inr (BackingOther SpillFailed))
      end
  end.

(** ** Reuse, expansion and collection *)

Definition buddy_block_limit (p : MemPool) : res Empty_set Z :=
  if negb (buddy_enabled (config p)) || (max_segments (config p) =? 0) then Ok 0
  else let? layout := expect_some (checked_layout (segment_size (config p)) (min_block_size (config p))) in
       Ok (bl_data_size layout).

(** The first segment that serves [size], from index [idx] on. *)
Fixpoint reuse_scan (idx : nat) (segs : list (option BuddySegment)) (size : Z)
    : res Empty_set (option (nat * Allocation * BuddySegment)) :=
  match segs with
  | [] => Ok None
  | None :: segs => reuse_scan (S idx) segs size
  | Some s :: segs =>
      match Buddy.alloc (bs_alloc s) size with
      | Ok (x, a) => Ok (Some (idx, x, {| bs_alloc := a; bs_mem := bs_mem s; bs_guard := bs_guard s |}))
      | Err _ => reuse_scan (S idx) segs size
      | Panic => Panic
      end
  end.

Definition pool_allocation (idx : nat) (gen : Z) (x : Allocation) : PoolAllocation :=
  {| seg_idx := Z.of_nat idx; generation := gen; pa_offset := offset x; pa_actual_size := actual_size x;
     pa_level := level x; is_dedicated := false |}.

Definition try_buddy_reuse (p : MemPool) (size : Z) : res Empty_set (MemPool * option PoolAllocation) :=
  let? r := reuse_scan 0 (segments p) size in
  match r with
  | None => Ok (p, None)
  | Some (idx, x, s) =>
      let p := set_segments p (<[idx := Some s]> (segments p)) (<[idx := None]> (idle_since p)) in
      let p := set_counters p (count_reused (counters p)) in
      let? gen := index (generations p) (Z.of_nat idx) in
      Ok (p, Some (pool_allocation idx gen x))
  end.

Definition expand_buddy (env : Env) (p : MemPool) (size : Z) : res Empty_set (MemPool * option PoolAllocation) :=
  let? '(p, r) := create_segment env p in
  match r with
  | inr _ => Ok (p, None)
  | inl (idx, s) =>
      let? '(x, a) := expect (Buddy.alloc (bs_alloc s) size) in
      let? p := install_segment p idx {| bs_alloc := a; bs_mem := bs_mem s; bs_guard := bs_guard s |} in
      let p := set_counters p (count_expanded (counters p)) in
      let? gen := index (generations p) (Z.of_nat idx) in
      Ok (p, Some (pool_allocation idx gen x))
  end.

(** [self.segments[index].take()], which unmaps it, and [self.idle_since[index] = None]. *)
Definition take_segment (p : MemPool) (idx : nat) : res Empty_set MemPool :=
  let? p := match segment p idx with
            | Some s => drop_guard p (bs_guard s)
            | None => Ok p
            end in
  guard_panic (Z.of_nat idx <? blen (idle_since p)) ;?
  Ok (set_segments p (<[idx := None]> (segments p)) (<[idx := None]> (idle_since p))).

(** The loop of [gc_buddy] over the indices below [n], highest first. *)
Fixpoint gc_loop (n : nat) (now delay live removed : Z) (p : MemPool) : res Empty_set (MemPool * Z) :=
  match n with
  | O => Ok (p, removed)
  | S idx =>
      if live <=? min_retained_segments (config p) then Ok (p, removed)
      else
        let? s := index (segments p) (Z.of_nat idx) in
        match s with
        | None => gc_loop idx now delay live removed p
        | Some s =>
            if negb (seg_count s =? 0) then Ok (p, removed)
            else
              let? since := index (idle_since p) (Z.of_nat idx) in
              let idle_at := default now since in
              let p := set_segments p (segments p) (<[idx := Some idle_at]> (idle_since p)) in
              if duration_since now idle_at <? delay then Ok (p, removed)
              else let? p := take_segment p idx in
                   gc_loop idx now delay (live - 1) (removed + 1) p
        end
  end.

Definition gc_buddy (now : Z) (p : MemPool) : res Empty_set (MemPool * Z) :=
  let? delay := (if SFltb (buddy_idle_decay_secs (config p)) f64_zero then Ok 0
                 else expect_some (duration_from_secs (buddy_idle_decay_secs (config p)))) in
  gc_loop (length (segments p)) now delay (segment_count p) 0 p.

(** ** Allocation *)

Definition alloc_shm (env : Env) (p : MemPool) (size : Z) : outcome BackingError PoolAllocation :=
  let? max_buddy := buddy_block_limit p in
  if (0 <? max_buddy) && (size <=? max_buddy) then
    let? '(p, r) := try_buddy_reuse p size in
    match r with
    | Some a => Ok (p, inl a)
    | None =>
        let? '(p, _) := gc_buddy (gc_now env) p in
        let? '(p, r) := expand_buddy env p size in
        match r with
        | Some a => Ok (p, inl a)
        | None => alloc_dedicated env p size
        end
    end
  else alloc_dedicated env p size.

Definition alloc (env : Env) (p : MemPool) (size : Z) : outcome PoolError PoolAllocation :=
  if is_peer p then Ok (p, inr PeerPool)
  else if size =? 0 then Ok (p, inr ZeroBytes)
  else let? '(p, r) := alloc_shm env p size in
       Ok (p, match r with inl a => inl a | inr e => inr (Backing e) end).

Definition alloc_shm_handle (env : Env) (p : MemPool) (size : Z) : outcome PoolError MemHandle :=
  let? '(p, r) := alloc env p size in
  Ok (p, match r with inl a => inl (into_handle a size (incarnation p)) | inr e => inr e end).

Definition alloc_handle (env : Env) (p : MemPool) (size : Z) : outcome PoolError MemHandle :=
  if is_peer p then Ok (p, inr PeerPool)
  else if size =? 0 then Ok (p, inr ZeroBytes)
  else
    let? '(p, r) := alloc_shm env p size in
    match r with
    | inl a => Ok (p, inl (into_handle a size (incarnation p)))
    | inr _ =>
        let? '(p, r) := alloc_file_spill env p size in
        Ok (p, match r with inl h => inl h | inr e => inr (Backing e) end)
    end.

Definition try_alloc_shm (env : Env) (p : MemPool) (size : Z) : outcome PoolError MemHandle :=
  if is_peer p then Ok (p, inr PeerPool)
  else if size =? 0 then Ok (p, inr ZeroBytes)
  else let? '(p, r) := alloc_shm env p size in
       Ok (p, match r with
              | inl a => inl (into_handle a size (incarnation p))
              | inr _ => inr (NoShmCapacity size)
              end).

(** ** Release *)

Definition free_buddy (now : Z) (p : MemPool) (a : PoolAllocation) : res Empty_set MemPool :=
  let idx := Z.to_nat (seg_idx a) in
  let? s := expect_some (segment p idx) in
  let? b := expect (buddy_free (bs_alloc s) (pa_offset a) (pa_level a)) in
  let s := {| bs_alloc := b; bs_mem := bs_mem s; bs_guard := bs_guard s |} in
  let p := set_segments p (<[idx := Some s]> (segments p)) (idle_since p) in
  if seg_count s =? 0 then
    if retain_idle_backing p then
      guard_panic (Z.of_nat idx <? blen (idle_since p)) ;?
      Ok (set_segments p (segments p) (<[idx := Some now]> (idle_since p)))
    else take_segment p idx
  else Ok p.

(** [MemPool::free]. *)
Definition pool_free (now : Z) (p : MemPool) (a : PoolAllocation) : outcome PoolError unit :=
  if is_peer p then Ok (p, inr PeerPool)
  else
    match validate_generation p (seg_idx a) (generation a) (is_dedicated a) with
    | Err e => Ok (p, inr e)
    | Panic => Panic
    | Ok _ =>
        if is_dedicated a then
          let? p := match dedicated p !! seg_idx a with
                    | Some e => drop_guard p (ds_guard (de_segment e))
                    | None => Ok p
                    end in
          Ok (set_dedicated p (delete (seg_idx a) (dedicated p)) (dedicated_generations p), inl tt)
        else let? p := free_buddy now p a in Ok (p, inl tt)
    end.

Definition free_at (now : Z) (p : MemPool) (idx gen off : Z) (lvl : nat) (ded : bool) : outcome PoolError unit :=
  pool_free now p {| seg_idx := idx; generation := gen; pa_offset := off; pa_actual_size := 0;
                     pa_level := lvl; is_dedicated := ded |}.

(** The handle is consumed; a file spill drops its mapping and charge. *)
Definition release_handle (now : Z) (p : MemPool) (h : MemHandle) : res Empty_set MemPool :=
  let? _ := expect (validate_handle_owner p h) in
  match h with
  | Shm a _ _ =>
      let? '(p, r) := pool_free now p a in
      match r with inl _ => Ok p | inr _ => Panic end
  | FileSpill m _ => drop_guard p (sm_guard m)
  end.

(** ** Retention and prewarming *)

(** The loop of [set_idle_backing_retention] over the indices below [n], from [idx] on. *)
Fixpoint drop_idle (n idx : nat) (p : MemPool) : res Empty_set MemPool :=
  match n with
  | O => Ok p
  | S n =>
      let? p := (match segment p idx with
                 | Some s => if seg_count s =? 0 then take_segment p idx else Ok p
                 | None => Ok p
                 end) in
      drop_idle n (S idx) p
  end.

Definition set_idle_backing_retention (p : MemPool) (retain : bool) : res Empty_set MemPool :=
  let p := set_retain p retain in
  if retain then Ok p else drop_idle (length (segments p)) 0 p.

(** The prewarming loop; [envs] answers each creation.  [None] when the fuel runs out. *)
Fixpoint prewarm (fuel : nat) (envs : nat → Env) (count : Z) (p : MemPool)
    : res Empty_set (option (MemPool * (unit + BackingError))) :=
  if segment_count p <? count then
    match fuel with
    | O => Ok None
    | S fuel =>
        let? '(p, r) := create_segment (envs fuel) p in
        match r with
        | inr e => Ok (Some (p, inr e))
        | inl (idx, s) => let? p := install_segment p idx s in prewarm fuel envs count p
        end
    end
  else Ok (Some (p, inl tt)).

Definition ensure_buddy_segments (fuel : nat) (envs : nat → Env) (p : MemPool) (count : Z)
    : res Empty_set (option (MemPool * (unit + PoolError))) :=
  if is_peer p then Ok (Some (p, inr PeerPool))
  else if negb (buddy_enabled (config p)) then Ok (Some (p, inr BuddyDisabled))
  else if (0 <? count) && negb (retain_idle_backing p) then Ok (Some (p, inr RetentionDisabled))
  else if max_segments (config p) <? count
       then Ok (Some (p, inr (AboveMaxSegments count (max_segments (config p)))))
  else let? r := prewarm fuel envs count p in
       Ok ((fun '(p, r) => (p, match r with inl _ => inl tt | inr e => inr (Backing e) end)) <$> r).

(** ** Observation *)

Record PoolStats := {
  total_segments : Z;
  dedicated_segments : Z;
  stats_alloc_count : Z;
  buddy_data_bytes : Z;
  buddy_occupied_bytes : Z;
  buddy_idle_bytes : Z;
  dedicated_mapped_bytes : Z;
  dedicated_active_count : Z;
  dedicated_active_bytes : Z;
  stats_counters : TierCounters;
  pressure_denied_backings : Z;
  utilization_ratio : f64 }.

(** The unsigned subtraction panics when there is more idle than there is. *)
Definition stats (p : MemPool) : res Empty_set PoolStats :=
  let segs := omap id (segments p) in
  let data := sum_over bs_size segs in
  let idle := sum_over (fun s => free_bytes (bstate (bs_alloc s))) segs in
  let mapped := sum_over (fun e => ds_size (de_segment e.2)) (map_to_list (dedicated p)) in
  guard_panic (idle <=? data) ;?
  Ok {| total_segments := segment_count p;
        dedicated_segments := Z.of_nat (size (dedicated p));
        stats_alloc_count := sum_over seg_count segs + Z.of_nat (size (dedicated p));
        buddy_data_bytes := data;
        buddy_occupied_bytes := data - idle;
        buddy_idle_bytes := idle;
        dedicated_mapped_bytes := mapped;
        dedicated_active_count := Z.of_nat (size (dedicated p));
        dedicated_active_bytes := mapped;
        stats_counters := counters p;
        pressure_denied_backings := denials (pressure p);
        utilization_ratio := if data =? 0 then f64_zero
                             else SFdiv 53 1024 (f64_of_u64 (data - idle)) (f64_of_u64 data) |}.

Definition check_span (span start len : Z) : res PoolError unit :=
  guard_err (len =? 0) EmptySpan ;?
  match checked_add USIZE_MAX start len with
  | None => Err SpanOverflow
  | Some fin => guard_err ((span <? fin) || (ISIZE_MAX <? fin)) (SpanOutside start fin span)
  end.
