(* ===== verification/Parse.v ===== *)
(** Text that the crates read and write beyond validation: UTF-8 encoding, [str::trim],
    and the [parse] of unsigned integers and of floating point numbers. *)

From S2P Require Import Prelude.
From S2P Require Import Float64.
From S2P Require Import Text.

(** ** UTF-8 *)

(** A Unicode scalar value. *)
Definition scalar (c : Z) : Prop := 0 <= c < 1114112 ∧ ¬ (55296 <= c < 57344).

Definition encode_char (c : Z) : bytes :=
  byte.of_Z <$>
    (if c <? 128 then [c]
     else if c <? 2048 then [192 + c / 64; 128 + c mod 64]
     else if c <? 65536 then [224 + c / 4096; 128 + (c / 64) mod 64; 128 + c mod 64]
     else [240 + c / 262144; 128 + (c / 4096) mod 64; 128 + (c / 64) mod 64; 128 + c mod 64]).

Definition utf8_encode (cs : list Z) : bytes := concat (encode_char <$> cs).

(** [str::trim] *)
Definition trim_str (s : str) : str := utf8_encode (trim (chars s)).

(** [str::split(',')] *)
Fixpoint split_on (sep : Z) (s : str) : list str :=
  match s with
  | [] => [[]]
  | b :: s =>
      if u8 b =? sep then [] :: split_on sep s
      else match split_on sep s with
           | piece :: rest => (b :: piece) :: rest
           | [] => [[b]]
           end
  end.

(** [u8::to_ascii_lowercase] *)
Definition to_ascii_lowercase (s : str) : str :=
  (fun b => if is_ascii_uppercase b then byte.of_Z (u8 b + 32) else b) <$> s.

(** ** Numbers *)

Definition digit (b : byte) : option Z := if (48 <=? u8 b) && (u8 b <=? 57) then Some (u8 b - 48) else None.

(** The digits at the front of a text: their value, their number and the rest. *)
Fixpoint take_digits (acc n : Z) (s : str) : Z * Z * str :=
  match s with
  | [] => (acc, n, [])
  | b :: r => match digit b with Some d => take_digits (acc * 10 + d) (n + 1) r | None => (acc, n, s) end
  end.

(** [parse] of an unsigned integer whose largest value is [max]. *)
Definition parse_unsigned (max : Z) (s : str) : option Z :=
  let body := match s with b :: r => if u8 b =? 43 then r else s | [] => [] end in
  let '(v, n, rest) := take_digits 0 0 body in
  if (n =? 0) || negb (bool_decide (rest = [])) || (max <? v) then None else Some v.

(** [m * 10 ^ e], rounded to the nearest binary64, ties to even: a quotient of more than
    sixty bits with a sticky bit below it rounds as the exact value does. *)
Definition f64_of_decimal (neg : bool) (m e : Z) : f64 :=
  let signed v := if neg then - v else v in
  if m =? 0 then S754_zero neg
  else if 0 <=? e then binary_normalize 53 1024 (signed (m * 10 ^ e)) 0 neg
  else
    let d := 10 ^ (- e) in
    let k := Z.max 0 (64 + Z.log2 d - Z.log2 m) in
    let q := m * 2 ^ k / d in
    let sticky := if (m * 2 ^ k) mod d =? 0 then 0 else 1 in
    binary_normalize 53 1024 (signed (2 * q + sticky)) (- k - 1) neg.

Definition named_float (neg : bool) (s : str) : option f64 :=
  let l := to_ascii_lowercase s in
  if bool_decide (l = [Byte.x6e; Byte.x61; Byte.x6e]) then Some S754_nan
  else if bool_decide (l = [Byte.x69; Byte.x6e; Byte.x66])
          || bool_decide (l = [Byte.x69; Byte.x6e; Byte.x66; Byte.x69; Byte.x6e; Byte.x69; Byte.x74; Byte.x79])
  then Some (S754_infinity neg)
  else None.

(** The sign in front of a number, if any. *)
Definition split_sign (s : str) : bool * str :=
  match s with
  | b :: r => if u8 b =? 45 then (true, r) else if u8 b =? 43 then (false, r) else (false, s)
  | [] => (false, s)
  end.

(** The exponent after a mantissa; [Some 0] where there is none. *)
Definition parse_exponent (s : str) : option Z :=
  match s with
  | [] => Some 0
  | b :: r =>
      if (u8 b =? 101) || (u8 b =? 69) then
        let '(neg, r) := split_sign r in
        let '(v, n, rest) := take_digits 0 0 r in
        if (n =? 0) || negb (bool_decide (rest = [])) then None else Some (if neg then - v else v)
      else None
  end.

(** [parse::<f64>]: a mantissa with at least one digit, before or after the point, and an
    optional exponent; or the name of a value that is not finite. *)
Definition parse_f64 (s : str) : option f64 :=
  let '(neg, body) := split_sign s in
  let '(whole, n, rest) := take_digits 0 0 body in
  let '(m, frac, rest) :=
    match rest with
    | b :: r => if u8 b =? 46 then take_digits whole 0 r else (whole, 0, rest)
    | [] => (whole, 0, rest)
    end in
  if n + frac =? 0 then named_float neg body
  else (fun e => f64_of_decimal neg m (e - frac)) <$> parse_exponent rest.

(** ** Lemmas *)

(** Decide the comparisons of integers that [lia] decides. *)
Ltac z_bools :=
  repeat match goal with
  | |- context [?a <? ?b] => first [rewrite (proj2 (Z.ltb_lt a b)) by lia | rewrite (proj2 (Z.ltb_ge a b)) by lia]
  | |- context [?a <=? ?b] => first [rewrite (proj2 (Z.leb_le a b)) by lia | rewrite (proj2 (Z.leb_gt a b)) by lia]
  | |- context [?a =? ?b] => first [rewrite (proj2 (Z.eqb_eq a b)) by lia | rewrite (proj2 (Z.eqb_neq a b)) by lia]
  end.

Lemma div4096 c : c / 64 / 64 = c / 4096.
Proof. rewrite Z.div_div by lia. done. Qed.
Lemma div262144 c : c / 4096 / 64 = c / 262144.
Proof. rewrite Z.div_div by lia. done. Qed.
Lemma div64_4096 c : c / 64 / 4096 = c / 262144.
Proof. rewrite Z.div_div by lia. done. Qed.

Lemma next_encode c r : scalar c → next_char (encode_char c ++ r) = Some (c, r).
Proof.
  intros [Hc Hs]. pose proof (Z.div_mod c 64 ltac:(lia)) as D1. pose proof (Z.mod_pos_bound c 64 ltac:(lia)) as B1.
  pose proof (Z.div_mod (c / 64) 64 ltac:(lia)) as D2. pose proof (Z.mod_pos_bound (c / 64) 64 ltac:(lia)) as B2.
  pose proof (Z.div_mod (c / 4096) 64 ltac:(lia)) as D3. pose proof (Z.mod_pos_bound (c / 4096) 64 ltac:(lia)) as B3.
  rewrite div4096 in *. rewrite div262144 in *. unfold encode_char, next_char, is_cont. assert (c < 55296 ∨ 57344 <= c) as Hsur by lia.
  destruct (c <? 128) eqn:H1; [|destruct (c <? 2048) eqn:H2; [|destruct (c <? 65536) eqn:H3]]; cbn [fmap list_fmap app];
    rewrite ?u8_of_Z by lia.
  - by rewrite H1.
  - z_bools. cbn. f_equal. f_equal. lia.
  - set (v := (224 + c / 4096 - 224) * 4096 + _ * 64 + _). assert (v = c) as -> by lia.
    destruct Hsur; z_bools; done.
  - set (v := (240 + c / 262144 - 240) * 262144 + _ * 4096 + _ * 64 + _). assert (v = c) as -> by lia. z_bools. done.
Qed.

Lemma base64 a b : 0 <= b < 64 → (a * 64 + b) / 64 = a ∧ (a * 64 + b) mod 64 = b.
Proof.
  intros Hb. split; [symmetry; apply (Z.div_unique_pos _ _ _ b); lia|symmetry; apply (Z.mod_unique_pos _ _ a); lia].
Qed.

Lemma lead_byte b k : byte.of_Z (k + (u8 b - k)) = b.
Proof. replace (k + (u8 b - k)) with (u8 b) by lia. apply of_Z_u8. Qed.

Lemma next_scalar bs c r : next_char bs = Some (c, r) → scalar c ∧ bs = encode_char c ++ r.
Proof.
  unfold next_char, is_cont, scalar, encode_char. destruct bs as [|b0 bs]; [done|]. pose proof (u8_range b0).
  destruct (u8 b0 <? 128) eqn:E0; [|destruct ((194 <=? u8 b0) && (u8 b0 <? 224)) eqn:E1;
    [|destruct ((224 <=? u8 b0) && (u8 b0 <? 240)) eqn:E2; [|destruct ((240 <=? u8 b0) && (u8 b0 <? 245)) eqn:E3; [|done]]]].
  - intros [= <- <-]. rewrite E0. cbn. rewrite of_Z_u8. split; [lia|done].
  - destruct bs as [|b1 bs]; [done|]. destruct ((128 <=? u8 b1) && (u8 b1 <? 192)) eqn:C1; [|done].
    intros [= <- <-]. destruct (base64 (u8 b0 - 192) (u8 b1 - 128)) as [Hd Hm]; [lia|].
    split; [lia|]. z_bools. rewrite Hd, Hm. cbn [fmap list_fmap app]. by rewrite !lead_byte.
  - destruct bs as [|b1 [|b2 bs]]; [done..|]. set (v := _ + _ + _). match goal with |- (if ?b then _ else _) = _ → _ => destruct b eqn:C1; [|done] end.
    intros [= <- <-]. assert (Hv : v = ((u8 b0 - 224) * 64 + (u8 b1 - 128)) * 64 + (u8 b2 - 128)) by lia.
    destruct (base64 ((u8 b0 - 224) * 64 + (u8 b1 - 128)) (u8 b2 - 128)) as [Hd Hm]; [lia|]. rewrite <-Hv in Hd, Hm.
    destruct (base64 (u8 b0 - 224) (u8 b1 - 128)) as [Hd' Hm']; [lia|]. rewrite <-Hd in Hd', Hm'. rewrite div4096 in Hd'.
    split; [lia|]. z_bools. rewrite Hd', Hm', Hm. cbn [fmap list_fmap app]. by rewrite !lead_byte.
  - destruct bs as [|b1 [|b2 [|b3 bs]]]; [done..|]. set (v := _ + _ + _ + _). match goal with |- (if ?b then _ else _) = _ → _ => destruct b eqn:C1; [|done] end.
    intros [= <- <-].
    assert (Hv : v = (((u8 b0 - 240) * 64 + (u8 b1 - 128)) * 64 + (u8 b2 - 128)) * 64 + (u8 b3 - 128)) by lia.
    destruct (base64 (((u8 b0 - 240) * 64 + (u8 b1 - 128)) * 64 + (u8 b2 - 128)) (u8 b3 - 128)) as [Hd Hm]; [lia|].
    rewrite <-Hv in Hd, Hm.
    destruct (base64 ((u8 b0 - 240) * 64 + (u8 b1 - 128)) (u8 b2 - 128)) as [Hd1 Hm1]; [lia|]. rewrite <-Hd in Hd1, Hm1.
    destruct (base64 (u8 b0 - 240) (u8 b1 - 128)) as [Hd2 Hm2]; [lia|]. rewrite <-Hd1 in Hd2, Hm2.
    rewrite !div4096 in *. rewrite div64_4096 in Hd2.
    split; [lia|]. z_bools. rewrite Hd2, Hm2, Hm1, Hm. cbn [fmap list_fmap app].
    by rewrite !lead_byte.
Qed.

Lemma encode_char_nonempty c : encode_char c ≠ [].
Proof. unfold encode_char. repeat case_match; done. Qed.

(** Texts and their characters determine each other. *)
Lemma decode_encode_chars cs : Forall scalar cs → utf8_decode (utf8_encode cs) = Some cs.
Proof.
  induction 1 as [|c cs Hc _ IH]; [done|]. change (utf8_encode (c :: cs)) with (encode_char c ++ utf8_encode cs).
  pose proof (next_encode c (utf8_encode cs) Hc) as Hn. pose proof (encode_char_nonempty c).
  destruct (encode_char c ++ utf8_encode cs) as [|b r] eqn:E; [by apply app_eq_nil in E as []|].
  by rewrite utf8_decode_cons, Hn, IH.
Qed.

Lemma encode_decode_chars s cs : utf8_decode s = Some cs → Forall scalar cs ∧ utf8_encode cs = s.
Proof.
  revert s. induction cs as [|c cs IH]; intros [|b s] Hs; [done|..]; try done.
  - rewrite utf8_decode_cons in Hs. destruct (next_char _) as [[? ?]|]; [|done]. by destruct (utf8_decode _).
  - rewrite utf8_decode_cons in Hs. destruct (next_char (b :: s)) as [[c' r]|] eqn:En; [|done]. cbn in Hs.
    destruct (utf8_decode r) as [cs'|] eqn:Er; [|done]. injection Hs as -> ->.
    apply next_scalar in En as [Hc ->]. destruct (IH _ Er) as [? <-]. split; [by constructor|done].
Qed.

Lemma chars_encode cs : Forall scalar cs → chars (utf8_encode cs) = cs.
Proof. intros H. unfold chars. by rewrite decode_encode_chars. Qed.

Lemma utf8_encode_app a b : utf8_encode (a ++ b) = utf8_encode a ++ utf8_encode b.
Proof. unfold utf8_encode. by rewrite fmap_app, concat_app. Qed.

Lemma trim_infix cs : ∃ a b, cs = a ++ trim cs ++ b.
Proof.
  destruct (trim_start_suffix cs) as [a Ha]. destruct (trim_start_suffix (reverse (trim_start cs))) as [b Hb].
  exists a, (reverse b). unfold trim. rewrite Ha at 1. f_equal.
  apply (f_equal reverse) in Hb. by rewrite reverse_involutive, reverse_app in Hb.
Qed.

(** Neither end of a trimmed text is white space. *)
Lemma trim_idemp cs : trim (trim cs) = trim cs.
Proof.
  assert (Hh : ∀ l c, head (trim_start l) = Some c → is_whitespace c = false).
  { induction l as [|a l IH]; cbn; [done|]. intros c. destruct (is_whitespace a) eqn:E; [apply IH|]. cbn. congruence. }
  apply trim_id. intros c [Hc|Hc]; unfold trim in Hc.
  - apply (Hh cs). destruct (trim_start_suffix (reverse (trim_start cs))) as [k Hk].
    apply (f_equal reverse) in Hk. rewrite reverse_involutive, reverse_app in Hk. rewrite Hk.
    destruct (reverse (trim_start (reverse (trim_start cs)))); [done|]. exact Hc.
  - rewrite last_reverse in Hc. by eapply Hh.
Qed.

(** ** Numbers written are read *)

Lemma take_digits_app acc n s r : Forall (fun b => is_Some (digit b)) s → (∀ b, head r = Some b → digit b = None) →
  take_digits acc n (s ++ r) = (fold_left (fun v b => 10 * v + (u8 b - 48)) s acc, n + blen s, r).
Proof.
  intros Hs Hr. revert acc n. induction Hs as [|b s [d Hd] _ IH]; intros acc n; cbn [app take_digits fold_left].
  - rewrite blen_nil, Z.add_0_r. destruct r as [|b r]; cbn; [done|]. by rewrite (Hr b).
  - rewrite Hd, IH, blen_cons. unfold digit in Hd. destruct (_ && _); [|done]. injection Hd as <-.
    do 2 f_equal; [|lia]. f_equal. lia.
Qed.

Lemma digit_of d : 0 <= d < 10 → digit (byte.of_Z (48 + d)) = Some d.
Proof. intros Hd. unfold digit. rewrite u8_of_Z by lia. z_bools. cbn. f_equal. lia. Qed.

Lemma decimal_all_digits fuel n : 0 <= n → Forall (fun b => is_Some (digit b)) (decimal_digits fuel n).
Proof.
  revert n. induction fuel as [|fuel IH]; intros n Hn; cbn [decimal_digits]; [constructor|].
  apply Forall_app. split; [destruct (n <? 10); [constructor|apply IH, Z.div_pos; lia]|].
  apply Forall_singleton. rewrite digit_of; [done|]. apply Z.mod_pos_bound. lia.
Qed.

Lemma parse_decimal max n : 0 <= n < 2 ^ 64 → parse_unsigned max (decimal n) = if n <=? max then Some n else None.
Proof.
  intros Hn. pose proof (decimal_all_digits 20 n ltac:(lia)) as Hd. fold (decimal n) in Hd.
  assert (Hne : decimal n ≠ []) by (intros E; apply app_eq_nil in E as [_ E]; discriminate E).
  unfold parse_unsigned. destruct (decimal n) as [|b s] eqn:E; [done|].
  apply Forall_cons in Hd as [[d Hb] Hs].
  assert (u8 b =? 43 = false) as -> by (unfold digit in Hb; destruct (_ && _) eqn:Eb; [|done]; apply Z.eqb_neq; lia).
  rewrite <-(app_nil_r (b :: s)), take_digits_app by (done || (constructor; [by eexists|done])).
  rewrite <-E, decimal_read by lia. rewrite bool_decide_true by done. rewrite E, blen_cons. pose proof (blen_nonneg s).
  rewrite (proj2 (Z.eqb_neq _ _)) by lia. destruct (Z.leb_spec n max); z_bools; done.
Qed.

(** Readings at the edges of the formats. *)
Example parse_f64_samples :
  parse_f64 (String.list_byte_of_string "0.8") = Some (S754_finite false 7205759403792794 (-53))
  ∧ parse_f64 (String.list_byte_of_string "-1e-3") = Some (S754_finite true 4611686018427388 (-62))
  ∧ parse_f64 (String.list_byte_of_string "+.5E+1") = Some (S754_finite false 5629499534213120 (-50))
  ∧ parse_f64 (String.list_byte_of_string "1e400") = Some (S754_infinity false)
  ∧ parse_f64 (String.list_byte_of_string ".") = None ∧ parse_f64 (String.list_byte_of_string "1e") = None
  ∧ parse_f64 (String.list_byte_of_string "-Infinity") = Some (S754_infinity true)
  ∧ parse_f64 (String.list_byte_of_string "4.9e-324") = Some (S754_finite false 1 (-1074))
  ∧ parse_unsigned U64_MAX (String.list_byte_of_string "18446744073709551616") = None
  ∧ parse_unsigned U64_MAX (String.list_byte_of_string "+7") = Some 7 ∧ parse_unsigned U64_MAX (String.list_byte_of_string "-0") = None.
Proof. vm_compute. repeat split. Qed.
