(* ===== verification/IpcConfig.v ===== *)
(** The policies of IPC endpoints and relays (c2-config, ipc.rs, memory.rs, relay.rs,
    remote.rs, timeout.rs and call.rs): their records and defaults, what their validation
    accepts, and the identity a relay gives itself. *)

From S2P Require Import Prelude.
From S2P Require Import Float64.
From S2P Require Import Text.
From S2P Require Import Parse.
From S2P Require Import Buddy.

(** ** Records *)

Record BaseIpcConfig := {
  write_timeout_secs : f64;
  pool_enabled : bool;
  pool_segment_size : Z;
  max_pool_segments : Z;
  max_dedicated_segments : Z;
  spill_threshold : f64;
  pool_prewarm_segments : Z;
  pool_min_retained_segments : Z;
  reassembly_segment_size : Z;
  reassembly_max_segments : Z;
  max_total_chunks : Z;
  chunk_gc_interval_secs : f64;
  chunk_threshold_ratio : f64;
  chunk_assembler_timeout_secs : f64;
  max_reassembly_bytes : Z;
  chunk_size : Z;
  shm_backing_budget_bytes : Z;
  file_backing_budget_bytes : Z;
  live_reassembly_budget_bytes : Z }.

Record ClientIpcConfig := { base : BaseIpcConfig; shm_threshold : Z; pool_decay_seconds : f64 }.

Record MemoryBudgetLimits := { limit_shm : Z; limit_file : Z; limit_reassembly : Z }.
#[export] Instance limits_eq : EqDecision MemoryBudgetLimits.
Proof. solve_decision. Defined.

Definition memory_budget_limits (c : ClientIpcConfig) : MemoryBudgetLimits :=
  {| limit_shm := shm_backing_budget_bytes (base c); limit_file := file_backing_budget_bytes (base c);
     limit_reassembly := live_reassembly_budget_bytes (base c) |}.

Definition f64_30 : f64 := S754_finite false 8444249301319680 (-48).
Definition f64_0_8 : f64 := S754_finite false 7205759403792794 (-53).
Definition f64_5 : f64 := S754_finite false 5629499534213120 (-50).
Definition f64_0_9 : f64 := S754_finite false 8106479329266893 (-53).
Definition f64_60 : f64 := S754_finite false 8444249301319680 (-47).
Definition GIB : Z := 2 ^ 30.

Definition BaseIpcConfig_default : BaseIpcConfig :=
  {| write_timeout_secs := f64_30; pool_enabled := true; pool_segment_size := 268435456; max_pool_segments := 4;
     max_dedicated_segments := 4; spill_threshold := f64_0_8; pool_prewarm_segments := 0; pool_min_retained_segments := 0;
     reassembly_segment_size := 64 * 1024 * 1024; reassembly_max_segments := 4; max_total_chunks := 512;
     chunk_gc_interval_secs := f64_5; chunk_threshold_ratio := f64_0_9; chunk_assembler_timeout_secs := f64_60;
     max_reassembly_bytes := 8589934592; chunk_size := 131072; shm_backing_budget_bytes := 8 * GIB;
     file_backing_budget_bytes := 16 * GIB; live_reassembly_budget_bytes := 8 * GIB |}.

Definition ClientIpcConfig_default : ClientIpcConfig :=
  {| base := BaseIpcConfig_default; shm_threshold := 4096; pool_decay_seconds := f64_60 |}.

Record ServerIpcConfig := {
  sv_base : BaseIpcConfig;
  sv_shm_threshold : Z;
  sv_max_frame_size : Z;
  sv_max_payload_size : Z;
  sv_max_pending_requests : Z;
  sv_max_execution_workers : Z;
  sv_pool_decay_seconds : f64 }.

(** [available.clamp(4, 64)], where [None] is a parallelism the system does not report. *)
Definition MAX_EXECUTION_WORKERS : Z := 64.
Definition default_max_execution_workers (available : option Z) : Z :=
  Z.min MAX_EXECUTION_WORKERS (Z.max 4 (default 4 available)).

Definition ServerIpcConfig_default (available : option Z) : ServerIpcConfig :=
  {| sv_base := BaseIpcConfig_default; sv_shm_threshold := 4096; sv_max_frame_size := 2147483648;
     sv_max_payload_size := 17179869184; sv_max_pending_requests := 1024;
     sv_max_execution_workers := default_max_execution_workers available; sv_pool_decay_seconds := f64_60 |}.

Record CallExecutionLimits := { max_outstanding_calls : Z; retained_input_budget_bytes : Z }.

Definition CallExecutionLimits_default : CallExecutionLimits :=
  {| max_outstanding_calls := 1024; retained_input_budget_bytes := 16 * GIB |}.

(** ** Timeouts *)

Inductive TimeoutError := NotANumber | Infinite | Negative | NotRepresentable.

(** Nanoseconds of [Duration::new(i64::MAX as u64, 999_999_999)]. *)
Definition MAX_TIMEOUT : Z := (2 ^ 63 - 1) * NANOS_PER_SEC + 999999999.

Definition validate_timeout (timeout : Z) : res TimeoutError unit := guard_err (MAX_TIMEOUT <? timeout) NotRepresentable.

Definition timeout_from_seconds (seconds : f64) : res TimeoutError Z :=
  guard_err (f64_is_nan seconds) NotANumber ;?
  guard_err (match seconds with S754_infinity _ => true | _ => false end) Infinite ;?
  guard_err (SFltb seconds f64_zero) Negative ;?
  match duration_from_secs seconds with
  | None => Err NotRepresentable
  | Some timeout => validate_timeout timeout ;? Ok timeout
  end.

(** ** Validation *)

Definition MAX_IPC_POOL_SEGMENTS : Z := 255.
Definition IPC_RELEASE_BATCH : Z := 64.
Definition MIN_IPC_FRAME_SIZE : Z := 8 + 4 + 1 + 1 + 8 * IPC_RELEASE_BATCH.

(** The check that fails, by its field. *)
Inductive InvalidConfig :=
| NotFinitePositive (field : string)
| NotDuration (field : string)
| OutOfRange (field : string)
| MustBePositive (field : string)
| MustBeFinite (field : string)
| ExceedsMax (field limit : string)
| NeedsPool
| FrameTooSmall
| BadRelayId (e : IdError)
| NotMilliseconds.

Definition check_duration (field : string) (secs : f64) : res InvalidConfig unit :=
  match duration_from_secs secs with Some _ => Ok tt | None => Err (NotDuration field) end.

Definition not_positive (x : f64) : bool := SFleb x f64_zero.

Definition validate_base (c : BaseIpcConfig) : res InvalidConfig unit :=
  guard_err (negb (f64_is_finite (write_timeout_secs c)) || not_positive (write_timeout_secs c)) (NotFinitePositive "write_timeout_secs") ;?
  check_duration "write_timeout_secs" (write_timeout_secs c) ;?
  guard_err (negb (f64_is_finite (spill_threshold c))
             || negb (SFleb f64_zero (spill_threshold c) && SFleb (spill_threshold c) f64_one)) (OutOfRange "spill_threshold") ;?
  guard_err (U16_MAX + 1 <? max_dedicated_segments c) (OutOfRange "max_dedicated_segments") ;?
  guard_err (pool_segment_size c =? 0) (MustBePositive "pool_segment_size") ;?
  guard_err (match checked_next_power_of_two (pool_segment_size c) with None => true | Some size => U32_MAX <? size end)
    (OutOfRange "pool_segment_size") ;?
  guard_err (negb ((1 <=? max_pool_segments c) && (max_pool_segments c <=? MAX_IPC_POOL_SEGMENTS))) (OutOfRange "max_pool_segments") ;?
  guard_err (max_pool_segments c <? pool_prewarm_segments c) (ExceedsMax "pool_prewarm_segments" "max_pool_segments") ;?
  guard_err (negb (pool_enabled c) && (0 <? pool_prewarm_segments c)) NeedsPool ;?
  guard_err (max_pool_segments c <? pool_min_retained_segments c) (ExceedsMax "pool_min_retained_segments" "max_pool_segments") ;?
  guard_err (reassembly_max_segments c <? pool_min_retained_segments c)
    (ExceedsMax "pool_min_retained_segments" "reassembly_max_segments") ;?
  guard_err (reassembly_segment_size c =? 0) (MustBePositive "reassembly_segment_size") ;?
  guard_err (negb ((1 <=? reassembly_max_segments c) && (reassembly_max_segments c <=? MAX_IPC_POOL_SEGMENTS)))
    (OutOfRange "reassembly_max_segments") ;?
  guard_err (chunk_size c =? 0) (MustBePositive "chunk_size") ;?
  guard_err (negb (f64_is_finite (chunk_gc_interval_secs c))) (MustBeFinite "chunk_gc_interval_secs") ;?
  guard_err (not_positive (chunk_gc_interval_secs c)) (MustBePositive "chunk_gc_interval_secs") ;?
  check_duration "chunk_gc_interval_secs" (chunk_gc_interval_secs c) ;?
  guard_err (negb (f64_is_finite (chunk_threshold_ratio c))) (MustBeFinite "chunk_threshold_ratio") ;?
  guard_err (not_positive (chunk_threshold_ratio c) || SFltb f64_one (chunk_threshold_ratio c)) (OutOfRange "chunk_threshold_ratio") ;?
  guard_err (negb (f64_is_finite (chunk_assembler_timeout_secs c))) (MustBeFinite "chunk_assembler_timeout_secs") ;?
  guard_err (not_positive (chunk_assembler_timeout_secs c)) (MustBePositive "chunk_assembler_timeout_secs") ;?
  check_duration "chunk_assembler_timeout_secs" (chunk_assembler_timeout_secs c) ;?
  guard_err (max_reassembly_bytes c =? 0) (MustBePositive "max_reassembly_bytes").

Definition validate_decay (secs : f64) : res InvalidConfig unit :=
  guard_err (negb (f64_is_finite secs)) (MustBeFinite "pool_decay_seconds") ;? check_duration "pool_decay_seconds" secs.

Definition validate_server (c : ServerIpcConfig) : res InvalidConfig unit :=
  validate_base (sv_base c) ;?
  guard_err (sv_max_frame_size c <? MIN_IPC_FRAME_SIZE) FrameTooSmall ;?
  guard_err (sv_max_payload_size c =? 0) (MustBePositive "max_payload_size") ;?
  guard_err (sv_max_execution_workers c =? 0) (MustBePositive "max_execution_workers") ;?
  guard_err (sv_max_frame_size c <? sv_shm_threshold c) (ExceedsMax "shm_threshold" "max_frame_size") ;?
  validate_decay (sv_pool_decay_seconds c).

Definition validate_client (c : ClientIpcConfig) : res InvalidConfig unit :=
  validate_base (base c) ;? validate_decay (pool_decay_seconds c).

(** ** Relays *)

Definition DEFAULT_REMOTE_PAYLOAD_CHUNK_SIZE : Z := 1024 * 1024.
Definition MAX_REMOTE_PAYLOAD_CHUNK_SIZE : Z := 128 * 1024 * 1024.

Definition validate_remote_payload_chunk_size (value : Z) : res InvalidConfig unit :=
  guard_err (value =? 0) (MustBePositive "remote_payload_chunk_size") ;?
  guard_err (MAX_REMOTE_PAYLOAD_CHUNK_SIZE <? value) (OutOfRange "remote_payload_chunk_size").

(** Durations are nanoseconds. *)
Record RelayConfig := {
  rel_upstream_ipc : ClientIpcConfig;
  rel_bind : str;
  rel_relay_id : str;
  rel_advertise_url : str;
  rel_seeds : list str;
  rel_idle_timeout_secs : Z;
  rel_anti_entropy_interval : Z;
  rel_heartbeat_interval : Z;
  rel_heartbeat_miss_threshold : Z;
  rel_dead_peer_probe_interval : Z;
  rel_seed_retry_interval : Z;
  rel_use_proxy : bool;
  rel_remote_payload_chunk_size : Z }.

Definition validate_relay (c : RelayConfig) : res InvalidConfig unit :=
  validate_client (rel_upstream_ipc c) ;?
  map_err BadRelayId (validate_relay_id (rel_relay_id c)) ;?
  guard_err (negb (rel_idle_timeout_secs c =? 0) && (U64_MAX <? rel_idle_timeout_secs c * 1000)) NotMilliseconds ;?
  validate_remote_payload_chunk_size (rel_remote_payload_chunk_size c).

(** *** The identity a relay generates *)

Definition char_underscore : Z := 95.
Definition sanitize (c : Z) : Z := if is_control c || (c =? ch_slash) || (c =? ch_backslash) then char_underscore else c.

(** A name that cannot stand for a host is replaced. *)
Definition or_relay (host : list Z) : list Z :=
  if bool_decide (host = []) || bool_decide (host = [46]) || bool_decide (host = [46; 46]) then u8 <$> text "relay" else host.

(** [truncate] at the last character boundary that is not past [max] bytes. *)
Fixpoint truncate_chars (max : Z) (cs : list Z) : list Z :=
  match cs with
  | [] => []
  | c :: cs => if blen (encode_char c) <=? max then c :: truncate_chars (max - blen (encode_char c)) cs else []
  end.

Definition build_generated_relay_id (host : str) (pid : Z) (suffix : str) : str :=
  let tail := text "_" ++ decimal pid ++ text "_" ++ suffix in
  let host := or_relay (sanitize <$> trim (chars host)) in
  let max_host_bytes := Z.max 1 (saturating_sub 255 (blen tail)) in
  let host := if max_host_bytes <? blen (utf8_encode host) then or_relay (trim (truncate_chars max_host_bytes host)) else host in
  utf8_encode host ++ tail.

Definition RelayConfig_default (host : str) (pid : Z) (uuid8 : str) : RelayConfig :=
  {| rel_upstream_ipc := ClientIpcConfig_default; rel_bind := text "0.0.0.0:8080";
     rel_relay_id := build_generated_relay_id host pid uuid8; rel_advertise_url := []; rel_seeds := []; rel_idle_timeout_secs := 60;
     rel_anti_entropy_interval := 60 * NANOS_PER_SEC; rel_heartbeat_interval := 5 * NANOS_PER_SEC; rel_heartbeat_miss_threshold := 3;
     rel_dead_peer_probe_interval := 30 * NANOS_PER_SEC; rel_seed_retry_interval := 10 * NANOS_PER_SEC; rel_use_proxy := false;
     rel_remote_payload_chunk_size := DEFAULT_REMOTE_PAYLOAD_CHUNK_SIZE |}.

(** [rsplit_once]: around the last occurrence. *)
Fixpoint rsplit_once (sep : Z) (s : str) : option (str * str) :=
  match s with
  | [] => None
  | b :: s =>
      match rsplit_once sep s with
      | Some (front, rest) => Some (b :: front, rest)
      | None => if u8 b =? sep then Some ([], s) else None
      end
  end.

Definition effective_advertise_url (c : RelayConfig) : str :=
  if negb (bool_decide (rel_advertise_url c = [])) then rel_advertise_url c
  else
    match rsplit_once 58 (rel_bind c) with
    | Some (host, port) =>
        let host := if bool_decide (host = text "0.0.0.0") || bool_decide (host = text "::") then text "127.0.0.1" else host in
        text "http://" ++ host ++ text ":" ++ port
    | None => text "http://127.0.0.1:" ++ rel_bind c
    end.

(** ** The generated identity is valid *)

Lemma sanitize_scalar c : scalar c → scalar (sanitize c).
Proof. intros Hc. unfold sanitize. case_match; [|done]. unfold scalar, char_underscore. lia. Qed.

Lemma sanitize_plain c : is_control (sanitize c) = false ∧ sanitize c ≠ ch_slash ∧ sanitize c ≠ ch_backslash.
Proof.
  unfold sanitize. destruct (is_control c || (c =? ch_slash) || (c =? ch_backslash)) eqn:E; [done|].
  apply orb_false_iff in E as [[Hc Hs]%orb_false_iff Hb]. split; [done|]. split; by apply Z.eqb_neq.
Qed.

Lemma sanitize_ws c : is_whitespace c = false → is_whitespace (sanitize c) = false.
Proof. intros Hc. unfold sanitize. by case_match. Qed.

(** A name of a host that an identity may start with: no separators or control characters,
    and white space at neither end. *)
Definition host_ok (cs : list Z) : Prop :=
  cs ≠ [] ∧ Forall (fun c => scalar c ∧ is_control c = false ∧ c ≠ ch_slash ∧ c ≠ ch_backslash) cs
  ∧ (∀ c, head cs = Some c → is_whitespace c = false).

Lemma relay_ok : host_ok (u8 <$> text "relay").
Proof.
  change (u8 <$> text "relay") with [114; 101; 108; 97; 121]. split; [done|]. split; [|by intros c [= <-]].
  repeat (apply Forall_cons; split; [split; [unfold scalar; lia|done]|]). apply Forall_nil_2.
Qed.

Lemma or_relay_ok cs :
  Forall (fun c => scalar c ∧ is_control c = false ∧ c ≠ ch_slash ∧ c ≠ ch_backslash) cs →
  (∀ c, head cs = Some c → is_whitespace c = false) → host_ok (or_relay cs).
Proof.
  intros Hf Hh. unfold or_relay. case_bool_decide as He; [apply relay_ok|]. cbn. destruct (_ || _); [apply relay_ok|]. by split.
Qed.

Lemma truncate_prefix max cs : ∃ rest, cs = truncate_chars max cs ++ rest.
Proof.
  revert max. induction cs as [|c cs IH]; intros max; cbn; [by exists []|].
  destruct (_ <=? max); [|by exists (c :: cs)]. destruct (IH (max - blen (encode_char c))) as [rest Hr].
  exists rest. cbn. by rewrite <-Hr.
Qed.

Lemma truncate_length max cs : 0 <= max → blen (utf8_encode (truncate_chars max cs)) <= max.
Proof.
  revert max. induction cs as [|c cs IH]; intros max Hm; cbn [truncate_chars]; [done|].
  destruct (blen (encode_char c) <=? max) eqn:E; [|done]. apply Z.leb_le in E.
  change (utf8_encode (c :: ?l)) with (encode_char c ++ utf8_encode l). rewrite blen_app.
  specialize (IH (max - blen (encode_char c))). lia.
Qed.

Lemma trim_chars_ok (P : Z → Prop) cs : Forall P cs → Forall P (trim cs) ∧ (∀ c, head (trim cs) = Some c → is_whitespace c = false).
Proof.
  intros Hp. split.
  - destruct (trim_infix cs) as (a & b & Hab). rewrite Hab in Hp. by apply Forall_app in Hp as [_ [? _]%Forall_app].
  - intros c Hc. apply (proj1 (trim_id (trim cs)) (trim_idemp cs)). by left.
Qed.

Lemma trim_bytes cs : blen (utf8_encode (trim cs)) <= blen (utf8_encode cs).
Proof.
  destruct (trim_infix cs) as (a & b & Hab). rewrite Hab at 2. rewrite !utf8_encode_app, !blen_app.
  pose proof (blen_nonneg (utf8_encode a)). pose proof (blen_nonneg (utf8_encode b)). lia.
Qed.

(** What the process appends to the name of its host. *)
Definition tail_ok (s : str) : Prop :=
  Forall (fun b => 33 <= u8 b <= 126 ∧ u8 b ≠ ch_slash ∧ u8 b ≠ ch_backslash) s.

Lemma ascii_chars s : Forall (fun b => u8 b < 128) s → utf8_encode (u8 <$> s) = s ∧ Forall scalar (u8 <$> s).
Proof.
  induction 1 as [|b s Hb _ [IH1 IH2]]; [by split|]. pose proof (u8_range b). cbn [fmap list_fmap].
  change (utf8_encode (?c :: ?l)) with (encode_char c ++ utf8_encode l). split.
  - rewrite IH1. unfold encode_char. rewrite (proj2 (Z.ltb_lt _ _)) by lia. cbn. by rewrite of_Z_u8.
  - constructor; [unfold scalar; lia|done].
Qed.

Lemma generated_host_ok (host tail : str) :
  Forall scalar (chars host) → 0 <= blen tail <= 200 →
  let h := or_relay (sanitize <$> trim (chars host)) in
  let max := Z.max 1 (saturating_sub 255 (blen tail)) in
  let h := if max <? blen (utf8_encode h) then or_relay (trim (truncate_chars max h)) else h in
  host_ok h ∧ blen (utf8_encode h) + blen tail <= 255.
Proof.
  intros Hsc Ht h max. assert (Hh : host_ok h).
  { destruct (trim_chars_ok scalar (chars host) Hsc) as [Hf Hw]. apply or_relay_ok.
    - apply Forall_fmap. eapply Forall_impl; [exact Hf|]. intros c Hc. cbn. split; [by apply sanitize_scalar|apply sanitize_plain].
    - intros c Hc. destruct (trim (chars host)) as [|c' l]; [done|]. injection Hc as <-. by apply sanitize_ws, Hw. }
  assert (Hmax : max = 255 - blen tail) by (subst max; unfold saturating_sub; lia). destruct (max <? _) eqn:E; [|split; [done|lia]].
  destruct Hh as (_ & Hf & _). destruct (truncate_prefix max h) as [rest Hr].
  assert (Hp : Forall (fun c => scalar c ∧ is_control c = false ∧ c ≠ ch_slash ∧ c ≠ ch_backslash) (truncate_chars max h)).
  { rewrite Hr in Hf. by apply Forall_app in Hf as [? _]. }
  destruct (trim_chars_ok _ _ Hp) as [Hf' Hw']. split; [by apply or_relay_ok|].
  pose proof (trim_bytes (truncate_chars max h)). pose proof (truncate_length max h ltac:(lia)).
  unfold or_relay. destruct (_ || _); [|lia]. change (blen (utf8_encode (u8 <$> text "relay"))) with 5. lia.
Qed.

Lemma joined_id_valid cs (tail : str) :
  host_ok cs → tail ≠ [] → tail_ok tail → blen (utf8_encode cs) + blen tail <= 255 →
  (∃ c rest, tail = c :: rest ∧ u8 c ≠ 46) → validate_relay_id (utf8_encode cs ++ tail) = Ok tt.
Proof.
  intros (Hne & Hf & Hw) Htne Ht Hlen (b & rest & -> & Hb).
  destruct (ascii_chars (b :: rest)) as [He Hsc]; [eapply Forall_impl; [exact Ht|]; cbn; intros; lia|].
  set (tail := b :: rest) in *. assert (Hchars : chars (utf8_encode cs ++ tail) = cs ++ (u8 <$> tail)).
  { rewrite <-He at 1. rewrite <-utf8_encode_app. apply chars_encode. apply Forall_app. split; [|done].
    eapply Forall_impl; [exact Hf|]. by intros c [? _]. }
  assert (Hplain : ∀ c, c ∈ cs ++ (u8 <$> tail) → is_control c = false ∧ c ≠ ch_slash ∧ c ≠ ch_backslash).
  { intros c [Hc|Hc]%elem_of_app.
    - rewrite Forall_forall in Hf. by apply Hf.
    - apply list_elem_of_fmap in Hc as (x & -> & Hx). unfold tail_ok in Ht. rewrite Forall_forall in Ht. specialize (Ht x Hx).
      split; [unfold is_control; z_bools; done|tauto]. }
  assert (Hdot : ∀ s, Forall (fun x => u8 x = 46) s → utf8_encode cs ++ tail ≠ s).
  { intros s Hs Heq. rewrite <-Heq in Hs. apply Forall_app in Hs as [_ [? _]%Forall_cons]. done. }
  unfold validate_relay_id, validate_id. rewrite !seq_ok, !guard_err_ok, !orb_false_iff, !bool_decide_eq_false, Z.ltb_ge, blen_app.
  unfold any_control, contains_char. rewrite has_surrounding_ws_false, !existsb_false, Hchars.
  assert (Happ : utf8_encode cs ++ tail ≠ []) by (intros E; apply app_eq_nil in E as [_ E]; done).
  split_and!; [done| | | | | |intros c Hc; by apply Hplain|lia].
  - intros c [Hc|Hc].
    + apply Hw. destruct cs; [done|exact Hc].
    + rewrite last_app in Hc. destruct (last (u8 <$> tail)) as [x|] eqn:El; [|by apply last_None, fmap_nil_inv in El].
      injection Hc as <-. rewrite fmap_last in El. apply fmap_Some in El as (y & Hy & ->). unfold tail_ok in Ht. rewrite Forall_forall in Ht.
      specialize (Ht y). apply last_Some_elem_of in Hy. specialize (Ht Hy). unfold is_whitespace. z_bools. done.
  - apply Hdot. by repeat constructor.
  - apply Hdot. by repeat constructor.
  - intros c Hc. apply Z.eqb_neq. apply Hplain in Hc. intuition congruence.
  - intros c Hc. apply Z.eqb_neq. apply Hplain in Hc. intuition congruence.
Qed.

Lemma decimal_length fuel n : blen (decimal_digits fuel n) <= Z.of_nat fuel.
Proof.
  revert n. induction fuel as [|fuel IH]; intros n; cbn [decimal_digits]; [done|]. rewrite blen_app.
  change (blen [_]) with 1. specialize (IH (n / 10)). destruct (n <? 10); [change (blen []) with 0|]; lia.
Qed.

Lemma generated_tail_ok pid suffix :
  0 <= pid → tail_ok suffix → tail_ok (text "_" ++ decimal pid ++ text "_" ++ suffix).
Proof.
  intros Hp Hs. unfold tail_ok in *. rewrite !Forall_app. split_and!; try done; [by repeat constructor| |by repeat constructor].
  eapply Forall_impl; [by apply (decimal_all_digits 20 pid)|]. intros b [d Hd]. unfold digit in Hd.
  destruct (_ && _) eqn:E; [|done]. unfold ch_slash, ch_backslash. lia.
Qed.

(** The identity a relay generates for itself is always one the mesh accepts, whatever the
    name of the host is: white space, separators and control characters are removed or
    replaced, a name that is too long is cut at a character boundary, and a name that is
    not usable is replaced; so the default configuration of a relay is always valid. *)
Theorem generated_relay_id_valid (host : str) (pid : Z) (suffix : str) :
  utf8_valid host = true → 0 <= pid < 2 ^ 32 → tail_ok suffix → blen suffix = 8 →
  validate_relay_id (build_generated_relay_id host pid suffix) = Ok tt
  ∧ validate_relay (RelayConfig_default host pid suffix) = Ok tt.
Proof.
  intros Hu Hp Hs Hl.
  assert (Hid : validate_relay_id (build_generated_relay_id host pid suffix) = Ok tt).
  { unfold build_generated_relay_id. set (tail := text "_" ++ _). cbn zeta.
    assert (Hlen : 0 <= blen tail <= 200).
    { split; [apply blen_nonneg|]. subst tail. rewrite !blen_app, Hl. pose proof (decimal_length 20 pid) as Hd. fold (decimal pid) in Hd.
      change (blen (text "_")) with 1. lia. }
    destruct (generated_host_ok host tail) as [Hh Hb]; [|done|].
    { unfold utf8_valid in Hu. unfold chars. destruct (utf8_decode host) as [cs|] eqn:E; [|done]. by apply encode_decode_chars in E as [? _]. }
    apply joined_id_valid; [exact Hh|done|apply generated_tail_ok; [lia|done]|exact Hb|]. by eexists _, _. }
  split; [exact Hid|]. unfold validate_relay. cbn [rel_upstream_ipc rel_relay_id rel_idle_timeout_secs rel_remote_payload_chunk_size RelayConfig_default].
  rewrite Hid. vm_compute. done.
Qed.

Lemma generated_relay_witness :
  validate_relay_id (build_generated_relay_id (text " a/b ") 7 (text "0123abcd")) = Ok tt
  ∧ build_generated_relay_id (text " a/b ") 7 (text "0123abcd") = text "a_b_7_0123abcd".
Proof.
  split; [|vm_compute; reflexivity].
  apply generated_relay_id_valid; [vm_compute; reflexivity|lia| |reflexivity].
  unfold tail_ok. refine (bool_decide_unpack _ _). vm_compute. exact I.
Defined.

(** Every default is valid. *)
Lemma defaults_valid available :
  validate_server (ServerIpcConfig_default available) = Ok tt ∧ validate_client ClientIpcConfig_default = Ok tt.
Proof.
  split; [|by vm_compute]. unfold validate_server. cbn [sv_base sv_max_frame_size sv_max_payload_size sv_max_execution_workers sv_shm_threshold
    sv_pool_decay_seconds ServerIpcConfig_default].
  assert (validate_base BaseIpcConfig_default = Ok tt) as -> by (by vm_compute). cbn [res_bind].
  assert (default_max_execution_workers available =? 0 = false) as ->.
  { apply Z.eqb_neq. unfold default_max_execution_workers, MAX_EXECUTION_WORKERS. lia. }
  by vm_compute.
Qed.
