(* ===== verification/Config.v ===== *)
(** Resolution of configurations (c2-config, resolver.rs): values given in code go before
    the process environment, which goes before the environment file, which goes before
    the defaults; and the policies of the pools they lead to (ipc.rs). *)

From S2P Require Import Prelude.
From S2P Require Import Float64.
From S2P Require Import Text.
From S2P Require Import Parse.
From S2P Require Import Buddy.
From S2P Require Import Pool.
From S2P Require Import IpcConfig.

(** *** The names of the fields code may give *)

Definition BASE_IPC_OVERRIDE_KEYS : list string :=
  ["write_timeout"; "max_dedicated_segments"; "spill_threshold"; "pool_enabled"; "pool_segment_size"; "max_pool_segments";
   "pool_prewarm_segments"; "pool_min_retained_segments"; "reassembly_segment_size"; "reassembly_max_segments"; "max_total_chunks";
   "chunk_gc_interval"; "chunk_threshold_ratio"; "chunk_assembler_timeout"; "max_reassembly_bytes"; "chunk_size";
   "shm_backing_budget_bytes"; "file_backing_budget_bytes"; "live_reassembly_budget_bytes"]%string.
Definition SERVER_IPC_OVERRIDE_KEYS : list string :=
  BASE_IPC_OVERRIDE_KEYS ++ ["max_frame_size"; "max_payload_size"; "max_pending_requests"; "max_execution_workers"; "pool_decay_seconds"]%string.
Definition CLIENT_IPC_OVERRIDE_KEYS : list string := BASE_IPC_OVERRIDE_KEYS ++ ["pool_decay_seconds"]%string.

(** ** Sources *)

Notation EnvMap := (gmap str str).

Inductive EnvFilePolicy := FromC2EnvFile | FileDisabled | FilePath (path : str).
Record ConfigSources := { env_file : EnvFilePolicy; process_env : EnvMap }.

(** What reading an environment file gives: its items, in which [None] is one that does not
    parse. *)
Inductive EnvFile := FileMissing | FileUnreadable | FileItems (items : list (option (str * str))).

Inductive ConfigError :=
| EnvFileUnreadable
| EnvFileMalformed
| NotUnsigned (key : string)
| NotNumber (key : string)
| NotFinite (key : string)
| NotBoolean (key : string)
| EmptyValue (key : string)
| BadTimeout (name : string) (e : TimeoutError)
| BadMillis (name : string)
| ZeroThreshold
| PoolMemoryOverflow
| Rejected (e : InvalidConfig).

Fixpoint insert_items (env : EnvMap) (items : list (option (str * str))) : res ConfigError EnvMap :=
  match items with
  | [] => Ok env
  | Some (key, value) :: items => insert_items (<[key := value]> env) items
  | None :: _ => Err EnvFileMalformed
  end.

Definition env_file_path (s : ConfigSources) : option str :=
  match env_file s with
  | FileDisabled => None
  | FilePath path => Some path
  | FromC2EnvFile =>
      match trim_str <$> process_env s !! text "C2_ENV_FILE" with
      | Some path => if bool_decide (path = []) then None else Some path
      | None => Some (text ".env")
      end
  end.

(** [read] stands for the library that reads environment files. *)
Definition resolve_env (read : str → EnvFile) (s : ConfigSources) : res ConfigError EnvMap :=
  let? env :=
    match env_file_path s with
    | None => Ok ∅
    | Some path =>
        match read path with
        | FileMissing => Ok ∅
        | FileUnreadable => Err EnvFileUnreadable
        | FileItems items => insert_items ∅ items
        end
    end in
  Ok (process_env s ∪ env).

(** ** Values *)

Section Values.
Context (env : EnvMap).

Definition clean_string (value : option str) : option str :=
  value ≫= fun v => let v := trim_str v in if bool_decide (v = []) then None else Some v.

Definition optional_string (key : string) : option str := clean_string (env !! text key).

(** [optional_*(key).transpose()] *)
Definition parse_optional {A} (parse : str → res ConfigError A) (key : string) : res ConfigError (option A) :=
  match optional_string key with
  | None => Ok None
  | Some value => let? v := parse value in Ok (Some v)
  end.

Definition or_error {A} (o : option A) (e : ConfigError) : res ConfigError A := match o with Some x => Ok x | None => Err e end.

Definition optional_u64 (key : string) := parse_optional (fun v => or_error (parse_unsigned U64_MAX v) (NotUnsigned key)) key.
Definition optional_u32 (key : string) := parse_optional (fun v => or_error (parse_unsigned U32_MAX v) (NotUnsigned key)) key.
Definition optional_f64 (key : string) :=
  parse_optional (fun v => let? x := or_error (parse_f64 v) (NotNumber key) in
                           guard_err (negb (f64_is_finite x)) (NotFinite key) ;? Ok x) key.

Definition parse_bool (key : string) (value : str) : res ConfigError bool :=
  let v := to_ascii_lowercase (trim_str value) in
  if bool_decide (v ∈ [text "1"; text "true"; text "yes"]) then Ok true
  else if bool_decide (v ∈ [text "0"; text "false"; text "no"]) then Ok false
  else Err (NotBoolean key).
Definition optional_bool (key : string) := parse_optional (parse_bool key) key.

Definition parse_list (value : str) : list str := filter (fun v => v ≠ []) (trim_str <$> split_on 44 value).
Definition optional_list (key : string) : option (list str) := parse_list <$> optional_string key.

(** ** Fields *)

(** The value in code, else that of the environment, which is read even when it is not
    used, else the default. *)
Definition resolve_field {A} (code : option A) (from_env : res ConfigError (option A)) (dflt : A) : res ConfigError A :=
  let? e := from_env in Ok (default dflt (match code with Some v => Some v | None => e end)).

(** A value whose environment variable is not read when it is given in code. *)
Definition code_or_env {A} (code : option A) (from_env : res ConfigError (option A)) (dflt : A) : res ConfigError A :=
  match code with Some v => Ok v | None => let? e := from_env in Ok (default dflt e) end.
End Values.

(** The fields that the overrides of servers and clients share. *)
Record BaseIpcOverrides := {
  o_write_timeout_secs : option f64;
  o_max_dedicated_segments : option Z;
  o_spill_threshold : option f64;
  o_pool_enabled : option bool;
  o_pool_segment_size : option Z;
  o_max_pool_segments : option Z;
  o_pool_prewarm_segments : option Z;
  o_pool_min_retained_segments : option Z;
  o_reassembly_segment_size : option Z;
  o_reassembly_max_segments : option Z;
  o_max_total_chunks : option Z;
  o_chunk_gc_interval_secs : option f64;
  o_chunk_threshold_ratio : option f64;
  o_chunk_assembler_timeout_secs : option f64;
  o_max_reassembly_bytes : option Z;
  o_chunk_size : option Z;
  o_shm_backing_budget_bytes : option Z;
  o_file_backing_budget_bytes : option Z;
  o_live_reassembly_budget_bytes : option Z }.

Record ServerIpcConfigOverrides := {
  so_base : BaseIpcOverrides;
  so_max_frame_size : option Z;
  so_max_payload_size : option Z;
  so_max_pending_requests : option Z;
  so_max_execution_workers : option Z;
  so_pool_decay_seconds : option f64 }.

Record ClientIpcConfigOverrides := { co_base : BaseIpcOverrides; co_pool_decay_seconds : option f64 }.

(** [resolve_ipc_fields!(base, ..)] *)
Definition resolve_base (env : EnvMap) (o : BaseIpcOverrides) (d : BaseIpcConfig) : res ConfigError BaseIpcConfig :=
  let? v1 := resolve_field (o_write_timeout_secs o) (optional_f64 env "C2_IPC_WRITE_TIMEOUT") (write_timeout_secs d) in
  let? v2 := resolve_field (o_max_dedicated_segments o) (optional_u32 env "C2_IPC_MAX_DEDICATED_SEGMENTS") (IpcConfig.max_dedicated_segments d) in
  let? v3 := resolve_field (o_spill_threshold o) (optional_f64 env "C2_IPC_SPILL_THRESHOLD") (IpcConfig.spill_threshold d) in
  let? v4 := resolve_field (o_pool_enabled o) (optional_bool env "C2_IPC_POOL_ENABLED") (pool_enabled d) in
  let? v5 := resolve_field (o_pool_segment_size o) (optional_u64 env "C2_IPC_POOL_SEGMENT_SIZE") (pool_segment_size d) in
  let? v6 := resolve_field (o_max_pool_segments o) (optional_u32 env "C2_IPC_MAX_POOL_SEGMENTS") (max_pool_segments d) in
  let? v7 := resolve_field (o_pool_prewarm_segments o) (optional_u32 env "C2_IPC_POOL_PREWARM_SEGMENTS") (pool_prewarm_segments d) in
  let? v8 := resolve_field (o_pool_min_retained_segments o) (optional_u32 env "C2_IPC_POOL_MIN_RETAINED_SEGMENTS") (pool_min_retained_segments d) in
  let? v9 := resolve_field (o_reassembly_segment_size o) (optional_u64 env "C2_IPC_REASSEMBLY_SEGMENT_SIZE") (reassembly_segment_size d) in
  let? v10 := resolve_field (o_reassembly_max_segments o) (optional_u32 env "C2_IPC_REASSEMBLY_MAX_SEGMENTS") (reassembly_max_segments d) in
  let? v11 := resolve_field (o_max_total_chunks o) (optional_u32 env "C2_IPC_MAX_TOTAL_CHUNKS") (max_total_chunks d) in
  let? v12 := resolve_field (o_chunk_gc_interval_secs o) (optional_f64 env "C2_IPC_CHUNK_GC_INTERVAL") (chunk_gc_interval_secs d) in
  let? v13 := resolve_field (o_chunk_threshold_ratio o) (optional_f64 env "C2_IPC_CHUNK_THRESHOLD_RATIO") (chunk_threshold_ratio d) in
  let? v14 := resolve_field (o_chunk_assembler_timeout_secs o) (optional_f64 env "C2_IPC_CHUNK_ASSEMBLER_TIMEOUT") (chunk_assembler_timeout_secs d) in
  let? v15 := resolve_field (o_max_reassembly_bytes o) (optional_u64 env "C2_IPC_MAX_REASSEMBLY_BYTES") (max_reassembly_bytes d) in
  let? v16 := resolve_field (o_chunk_size o) (optional_u64 env "C2_IPC_CHUNK_SIZE") (chunk_size d) in
  let? v17 := resolve_field (o_shm_backing_budget_bytes o) (optional_u64 env "C2_IPC_SHM_BACKING_BUDGET_BYTES") (shm_backing_budget_bytes d) in
  let? v18 := resolve_field (o_file_backing_budget_bytes o) (optional_u64 env "C2_IPC_FILE_BACKING_BUDGET_BYTES") (file_backing_budget_bytes d) in
  let? v19 := resolve_field (o_live_reassembly_budget_bytes o) (optional_u64 env "C2_IPC_LIVE_REASSEMBLY_BUDGET_BYTES") (live_reassembly_budget_bytes d) in
  Ok {| write_timeout_secs := v1; pool_enabled := v4; pool_segment_size := v5; max_pool_segments := v6;
        IpcConfig.max_dedicated_segments := v2; IpcConfig.spill_threshold := v3; pool_prewarm_segments := v7; pool_min_retained_segments := v8;
        reassembly_segment_size := v9; reassembly_max_segments := v10; max_total_chunks := v11; chunk_gc_interval_secs := v12;
        chunk_threshold_ratio := v13; chunk_assembler_timeout_secs := v14; max_reassembly_bytes := v15; chunk_size := v16;
        shm_backing_budget_bytes := v17; file_backing_budget_bytes := v18; live_reassembly_budget_bytes := v19 |}.

Definition validate_pool_memory_product (c : BaseIpcConfig) : res ConfigError unit :=
  guard_err (U64_MAX <? pool_segment_size c * max_pool_segments c) PoolMemoryOverflow.

(** [available]: the parallelism of the host, where the system reports it. *)
Definition resolve_server_ipc_config (available : option Z) (env : EnvMap) (o : ServerIpcConfigOverrides) (shm_threshold : Z)
    : res ConfigError ServerIpcConfig :=
  let d := ServerIpcConfig_default available in
  let? b := resolve_base env (so_base o) (sv_base d) in
  let? frame := resolve_field (so_max_frame_size o) (optional_u64 env "C2_IPC_MAX_FRAME_SIZE") (sv_max_frame_size d) in
  let? payload := resolve_field (so_max_payload_size o) (optional_u64 env "C2_IPC_MAX_PAYLOAD_SIZE") (sv_max_payload_size d) in
  let? pending := resolve_field (so_max_pending_requests o) (optional_u32 env "C2_IPC_MAX_PENDING_REQUESTS") (sv_max_pending_requests d) in
  let? workers := resolve_field (so_max_execution_workers o) (optional_u32 env "C2_IPC_MAX_EXECUTION_WORKERS") (sv_max_execution_workers d) in
  let? decay := resolve_field (so_pool_decay_seconds o) (optional_f64 env "C2_IPC_POOL_DECAY_SECONDS") (sv_pool_decay_seconds d) in
  let c := {| sv_base := b; sv_shm_threshold := shm_threshold; sv_max_frame_size := frame; sv_max_payload_size := payload;
              sv_max_pending_requests := pending; sv_max_execution_workers := workers; sv_pool_decay_seconds := decay |} in
  validate_pool_memory_product b ;?
  map_err Rejected (validate_server c) ;?
  Ok c.

Definition resolve_client_ipc_config (env : EnvMap) (o : ClientIpcConfigOverrides) (shm_threshold : Z) : res ConfigError ClientIpcConfig :=
  let d := ClientIpcConfig_default in
  let? b := resolve_base env (co_base o) (base d) in
  let? decay := resolve_field (co_pool_decay_seconds o) (optional_f64 env "C2_IPC_POOL_DECAY_SECONDS") (pool_decay_seconds d) in
  let c := {| base := b; shm_threshold := shm_threshold; pool_decay_seconds := decay |} in
  validate_pool_memory_product b ;?
  map_err Rejected (validate_client c) ;?
  Ok c.

Definition resolve_shm_threshold (env : EnvMap) (code : option Z) : res ConfigError Z :=
  let? v := code_or_env code (optional_u64 env "C2_SHM_THRESHOLD") 4096 in
  guard_err (v =? 0) ZeroThreshold ;? Ok v.

Definition resolve_remote_payload_chunk_size (env : EnvMap) (code : option Z) : res ConfigError Z :=
  let? v := code_or_env code (optional_u64 env "C2_REMOTE_PAYLOAD_CHUNK_SIZE") DEFAULT_REMOTE_PAYLOAD_CHUNK_SIZE in
  map_err Rejected (validate_remote_payload_chunk_size v) ;? Ok v.

Definition resolve_relay_use_proxy (env : EnvMap) (code : option bool) : res ConfigError bool :=
  code_or_env code (optional_bool env "C2_RELAY_USE_PROXY") false.

Definition duration_from_seconds (name : string) (secs : f64) : res ConfigError Z := map_err (BadTimeout name) (timeout_from_seconds secs).

Definition f64_300 : f64 := S754_finite false 5277655813324800 (-44).

Definition resolve_relay_call_timeout_secs (env : EnvMap) : res ConfigError f64 :=
  let? t := optional_f64 env "C2_RELAY_CALL_TIMEOUT" in
  let timeout := default f64_300 t in
  let? _ := duration_from_seconds "C2_RELAY_CALL_TIMEOUT" timeout in
  Ok timeout.

Record ResolvedRelayClientConfig := { rc_use_proxy : bool; rc_call_timeout_secs : f64; rc_remote_payload_chunk_size : Z }.

Definition resolve_relay_client_config (env : EnvMap) (chunk : option Z) : res ConfigError ResolvedRelayClientConfig :=
  let? proxy := resolve_relay_use_proxy env None in
  let? timeout := resolve_relay_call_timeout_secs env in
  let? chunk := resolve_remote_payload_chunk_size env chunk in
  Ok {| rc_use_proxy := proxy; rc_call_timeout_secs := timeout; rc_remote_payload_chunk_size := chunk |}.

(** *** Limits of calls: an empty value is refused, zero closes the dimension. *)

Definition call_execution_limit_from_env (env : EnvMap) (key : string) : res ConfigError (option Z) :=
  match env !! text key with
  | None => Ok None
  | Some raw =>
      let value := trim_str raw in
      guard_err (bool_decide (value = [])) (EmptyValue key) ;?
      let? v := or_error (parse_unsigned U64_MAX value) (NotUnsigned key) in
      Ok (Some v)
  end.

Definition resolve_call_execution_limits (read : str → EnvFile) (s : ConfigSources) (outstanding retained : option Z)
    : res ConfigError CallExecutionLimits :=
  let? env := resolve_env read s in
  let? a := code_or_env outstanding (call_execution_limit_from_env env "C2_CALL_MAX_OUTSTANDING")
              (max_outstanding_calls CallExecutionLimits_default) in
  let? b := code_or_env retained (call_execution_limit_from_env env "C2_CALL_RETAINED_INPUT_BUDGET_BYTES")
              (retained_input_budget_bytes CallExecutionLimits_default) in
  Ok {| max_outstanding_calls := a; retained_input_budget_bytes := b |}.

(** *** Relays *)

Record RelayConfigOverrides := {
  ro_bind : option str;
  ro_relay_id : option str;
  ro_advertise_url : option str;
  ro_seeds : option (list str);
  ro_idle_timeout_secs : option Z;
  ro_anti_entropy_interval_secs : option f64 }.

Definition validate_millis_timeout (name : string) (secs : Z) : res ConfigError Z :=
  guard_err (U64_MAX <? secs * 1000) (BadMillis name) ;? Ok secs.

(** The environment and then the code replace the value before. *)
Definition later {A} (new : option A) (old : A) : A := default old new.
Definition later_checked {A B} (check : A → res ConfigError B) (new : option A) (old : B) : res ConfigError B :=
  match new with Some v => check v | None => Ok old end.

Definition resolve_relay_server_config (env : EnvMap) (o : RelayConfigOverrides) (d : RelayConfig) : res ConfigError RelayConfig :=
  let? idle := optional_u64 env "C2_RELAY_IDLE_TIMEOUT" in
  let? idle := later_checked (validate_millis_timeout "C2_RELAY_IDLE_TIMEOUT") idle (rel_idle_timeout_secs d) in
  let? interval := optional_f64 env "C2_RELAY_ANTI_ENTROPY_INTERVAL" in
  let? interval := later_checked (duration_from_seconds "C2_RELAY_ANTI_ENTROPY_INTERVAL") interval (rel_anti_entropy_interval d) in
  let? idle := later_checked (validate_millis_timeout "idle_timeout_secs") (ro_idle_timeout_secs o) idle in
  let? interval := later_checked (duration_from_seconds "anti_entropy_interval_secs") (ro_anti_entropy_interval_secs o) interval in
  let c :=
    {| rel_upstream_ipc := rel_upstream_ipc d;
       rel_bind := later (clean_string (ro_bind o)) (later (optional_string env "C2_RELAY_BIND") (rel_bind d));
       rel_relay_id := later (clean_string (ro_relay_id o)) (later (optional_string env "C2_RELAY_ID") (rel_relay_id d));
       rel_advertise_url := later (clean_string (ro_advertise_url o)) (later (optional_string env "C2_RELAY_ADVERTISE_URL") (rel_advertise_url d));
       rel_seeds := later (ro_seeds o) (later (optional_list env "C2_RELAY_SEEDS") (rel_seeds d));
       rel_idle_timeout_secs := idle; rel_anti_entropy_interval := interval; rel_heartbeat_interval := rel_heartbeat_interval d;
       rel_heartbeat_miss_threshold := rel_heartbeat_miss_threshold d; rel_dead_peer_probe_interval := rel_dead_peer_probe_interval d;
       rel_seed_retry_interval := rel_seed_retry_interval d; rel_use_proxy := rel_use_proxy d;
       rel_remote_payload_chunk_size := rel_remote_payload_chunk_size d |} in
  map_err Rejected (validate_relay c) ;?
  Ok c.

Record RuntimeConfigOverrides := {
  rt_relay : RelayConfigOverrides;
  rt_server_ipc : ServerIpcConfigOverrides;
  rt_client_ipc : ClientIpcConfigOverrides;
  rt_shm_threshold : option Z;
  rt_relay_use_proxy : option bool;
  rt_remote_payload_chunk_size : option Z }.

(** [d]: the default configuration, with the identity it generates. *)
Definition resolve_relay_server (read : str → EnvFile) (s : ConfigSources) (o : RuntimeConfigOverrides) (d : RelayConfig) : res ConfigError RelayConfig :=
  let? env := resolve_env read s in
  let? relay := resolve_relay_server_config env (rt_relay o) d in
  let? proxy := resolve_relay_use_proxy env (rt_relay_use_proxy o) in
  let? chunk := resolve_remote_payload_chunk_size env (rt_remote_payload_chunk_size o) in
  let? threshold := resolve_shm_threshold env (rt_shm_threshold o) in
  let? upstream := resolve_client_ipc_config env (rt_client_ipc o) threshold in
  let c :=
    {| rel_upstream_ipc := upstream; rel_bind := rel_bind relay; rel_relay_id := rel_relay_id relay;
       rel_advertise_url := rel_advertise_url relay; rel_seeds := rel_seeds relay; rel_idle_timeout_secs := rel_idle_timeout_secs relay;
       rel_anti_entropy_interval := rel_anti_entropy_interval relay; rel_heartbeat_interval := rel_heartbeat_interval relay;
       rel_heartbeat_miss_threshold := rel_heartbeat_miss_threshold relay; rel_dead_peer_probe_interval := rel_dead_peer_probe_interval relay;
       rel_seed_retry_interval := rel_seed_retry_interval relay; rel_use_proxy := proxy; rel_remote_payload_chunk_size := chunk |} in
  map_err Rejected (validate_relay c) ;?
  Ok c.

Definition resolve_server_ipc (read : str → EnvFile) (available : option Z) (s : ConfigSources) (o : ServerIpcConfigOverrides)
    (global : RuntimeConfigOverrides) : res ConfigError ServerIpcConfig :=
  let? env := resolve_env read s in
  let? threshold := resolve_shm_threshold env (rt_shm_threshold global) in
  resolve_server_ipc_config available env o threshold.

Definition resolve_client_ipc (read : str → EnvFile) (s : ConfigSources) (o : ClientIpcConfigOverrides)
    (global : RuntimeConfigOverrides) : res ConfigError ClientIpcConfig :=
  let? env := resolve_env read s in
  let? threshold := resolve_shm_threshold env (rt_shm_threshold global) in
  resolve_client_ipc_config env o threshold.

Definition resolve_relay_client (read : str → EnvFile) (s : ConfigSources) (chunk : option Z) : res ConfigError ResolvedRelayClientConfig :=
  let? env := resolve_env read s in
  resolve_relay_client_config env chunk.

Definition resolve_relay_anchor_address (read : str → EnvFile) (s : ConfigSources) : res ConfigError (option str) :=
  let? env := resolve_env read s in
  Ok (optional_string env "C2_RELAY_ANCHOR_ADDRESS").

(** ** The pools a policy leads to *)

(** Both roles of [ipc.rs], with the idle window of the tuning; spill directories are not
    modelled. *)
Definition pool_config (c : BaseIpcConfig) (segment max : Z) (decay : f64) : PoolConfig :=
  {| segment_size := segment; min_block_size := 4096; max_segments := max;
     Pool.max_dedicated_segments := IpcConfig.max_dedicated_segments c; buddy_idle_decay_secs := decay;
     Pool.spill_threshold := IpcConfig.spill_threshold c; buddy_enabled := pool_enabled c;
     min_retained_segments := pool_min_retained_segments c |}.
Definition primary_pool_config (c : BaseIpcConfig) (decay : f64) : PoolConfig := pool_config c (pool_segment_size c) (max_pool_segments c) decay.
Definition reassembly_pool_config (c : BaseIpcConfig) (decay : f64) : PoolConfig :=
  pool_config c (reassembly_segment_size c) (reassembly_max_segments c) decay.
