(* ===== verification/ConfigSafe.v ===== *)
(** What resolving a configuration gives: where each of its values comes from, that it is
    valid, and that the pools and the release frames it leads to fit. *)

From S2P Require Import Prelude.
From S2P Require Import Float64.
From S2P Require Import Text.
From S2P Require Import Parse.
From S2P Require Import Frame.
From S2P Require Import Codec.
From S2P Require Import Release.
From S2P Require Import BuddyTree.
From S2P Require Import Buddy.
From S2P Require Import Pool.
From S2P Require Import IpcConfig.
From S2P Require Import Config.

(** ** The environment *)

(** The last item of a file that gives a key. *)
Fixpoint last_item (key : str) (items : list (str * str)) : option str :=
  match items with
  | [] => None
  | (k, v) :: items =>
      match last_item key items with
      | Some v' => Some v'
      | None => if bool_decide (k = key) then Some v else None
      end
  end.

Lemma insert_items_spec items env env' :
  insert_items env items = Ok env' ↔
  ∃ pairs, items = Some <$> pairs ∧ (∀ key, env' !! key = match last_item key pairs with Some v => Some v | None => env !! key end).
Proof.
  revert env. induction items as [|[[k v]|] items IH]; intros env; cbn [insert_items].
  - split.
    + intros [= <-]. by exists [].
    + intros ([|p pairs] & Hp & H); [|done]. f_equal. apply map_eq. intros key. by rewrite H.
  - rewrite IH. split.
    + intros (pairs & -> & H). exists ((k, v) :: pairs). split; [done|]. intros key. rewrite H. cbn [last_item].
      destruct (last_item key pairs); [done|]. case_bool_decide; subst; [by rewrite lookup_insert_eq|by rewrite lookup_insert_ne].
    + intros ([|[k' v'] pairs] & Hp & H); [done|]. injection Hp as <- <- ->. exists pairs. split; [done|]. intros key. rewrite H. cbn [last_item].
      destruct (last_item key pairs); [done|]. case_bool_decide; subst; [by rewrite lookup_insert_eq|by rewrite lookup_insert_ne].
  - split; [done|]. intros ([|p pairs] & Hp & _); done.
Qed.

(** What the file of a policy holds: nothing where there is no file. *)
Definition file_pairs (read : str → EnvFile) (s : ConfigSources) (pairs : list (str * str)) : Prop :=
  match env_file_path s with
  | None => pairs = []
  | Some path =>
      match read path with
      | FileMissing => pairs = []
      | FileUnreadable => False
      | FileItems items => items = Some <$> pairs
      end
  end.

Lemma file_env_spec read s env :
  match env_file_path s with
  | None => Ok ∅
  | Some path =>
      match read path with
      | FileMissing => Ok ∅
      | FileUnreadable => Err EnvFileUnreadable
      | FileItems items => insert_items ∅ items
      end
  end = Ok env ↔ ∃ pairs, file_pairs read s pairs ∧ ∀ key, env !! key = last_item key pairs.
Proof.
  assert (He : (Ok ∅ : res ConfigError EnvMap) = Ok env ↔ ∃ pairs, pairs = [] ∧ ∀ key, env !! key = last_item key pairs).
  { split; [intros [= <-]; by exists []|]. intros (pairs & -> & H). f_equal. symmetry. apply map_eq. intros key. by rewrite H. }
  unfold file_pairs. destruct (env_file_path s) as [path|]; [|done]. destruct (read path) as [| |items]; [done| |].
  - split; [done|]. by intros (pairs & [] & _).
  - rewrite insert_items_spec. f_equiv. intros pairs. f_equiv. split; intros H key; rewrite H, ?lookup_empty; by destruct (last_item key pairs).
Qed.

Lemma last_item_map (pairs : list (str * str)) (key : str) : (list_to_map (reverse pairs) : EnvMap) !! key = last_item key pairs.
Proof.
  induction pairs as [|[k v] pairs IH]; cbn [last_item]; [done|].
  rewrite reverse_cons, list_to_map_app, lookup_union, IH. change (list_to_map [(k, v)]) with (<[k := v]> ∅ : EnvMap).
  destruct (last_item key pairs) as [x|]; [by destruct ((<[k := v]> ∅ : EnvMap) !! key)|].
  rewrite (left_id_L None _). case_bool_decide; subst; [by rewrite lookup_insert_eq|by rewrite lookup_insert_ne].
Qed.

(** The process environment goes before the file. *)
Lemma resolve_env_spec read s env :
  resolve_env read s = Ok env ↔
  ∃ pairs, file_pairs read s pairs
    ∧ ∀ key, env !! key = match process_env s !! key with Some v => Some v | None => last_item key pairs end.
Proof.
  unfold resolve_env. rewrite bind_ok. split.
  - intros (file & Hf & [= <-]). apply file_env_spec in Hf as (pairs & Hp & H). exists pairs. split; [done|]. intros key.
    rewrite lookup_union, H. by destruct (process_env s !! key), (last_item key pairs).
  - intros (pairs & Hp & H). exists (list_to_map (reverse pairs)). split.
    + apply file_env_spec. exists pairs. split; [done|]. apply last_item_map.
    + f_equal. apply map_eq. intros key. rewrite H, lookup_union, last_item_map.
      by destruct (process_env s !! key), (last_item key pairs).
Qed.

(** ** Where the values come from *)

(** A field: its name in code, its value there, the reader of its environment variable, and
    its value in the configuration. *)
Record Field (O C : Type) := field {
  f_type : Type;
  f_name : string;
  f_code : O → option f_type;
  f_read : EnvMap → string → res ConfigError (option f_type);
  f_get : C → f_type }.
Arguments field {O C f_type}.
Arguments f_type {O C}.
Arguments f_name {O C}.
Arguments f_code {O C}.
Arguments f_read {O C}.
Arguments f_get {O C}.

Definition upper (c : Ascii.ascii) : Ascii.ascii :=
  let n := Ascii.N_of_ascii c in if (97 <=? n)%N && (n <=? 122)%N then Ascii.ascii_of_N (n - 32) else c.
Fixpoint uppercase (s : string) : string :=
  match s with String.EmptyString => String.EmptyString | String.String c s => String.String (upper c) (uppercase s) end.

(** The environment variable of a field. *)
Definition env_key (name : string) : string := String.append "C2_IPC_" (uppercase name).

(** The value is that of the code, else that of the environment, else the default, and the
    environment variable is well formed in each case. *)
Definition comes_from {O C : Type} (env : EnvMap) (o : O) (d c : C) (f : Field O C) : Prop :=
  ∃ e, f_read f env (env_key (f_name f)) = Ok e
     ∧ f_get f c = default (f_get f d) (match f_code f o with Some v => Some v | None => e end).

Definition base_fields : list (Field BaseIpcOverrides BaseIpcConfig) :=
  [field "write_timeout" o_write_timeout_secs optional_f64 write_timeout_secs;
   field "max_dedicated_segments" o_max_dedicated_segments optional_u32 IpcConfig.max_dedicated_segments;
   field "spill_threshold" o_spill_threshold optional_f64 IpcConfig.spill_threshold;
   field "pool_enabled" o_pool_enabled optional_bool pool_enabled;
   field "pool_segment_size" o_pool_segment_size optional_u64 pool_segment_size;
   field "max_pool_segments" o_max_pool_segments optional_u32 max_pool_segments;
   field "pool_prewarm_segments" o_pool_prewarm_segments optional_u32 pool_prewarm_segments;
   field "pool_min_retained_segments" o_pool_min_retained_segments optional_u32 pool_min_retained_segments;
   field "reassembly_segment_size" o_reassembly_segment_size optional_u64 reassembly_segment_size;
   field "reassembly_max_segments" o_reassembly_max_segments optional_u32 reassembly_max_segments;
   field "max_total_chunks" o_max_total_chunks optional_u32 max_total_chunks;
   field "chunk_gc_interval" o_chunk_gc_interval_secs optional_f64 chunk_gc_interval_secs;
   field "chunk_threshold_ratio" o_chunk_threshold_ratio optional_f64 chunk_threshold_ratio;
   field "chunk_assembler_timeout" o_chunk_assembler_timeout_secs optional_f64 chunk_assembler_timeout_secs;
   field "max_reassembly_bytes" o_max_reassembly_bytes optional_u64 max_reassembly_bytes;
   field "chunk_size" o_chunk_size optional_u64 chunk_size;
   field "shm_backing_budget_bytes" o_shm_backing_budget_bytes optional_u64 shm_backing_budget_bytes;
   field "file_backing_budget_bytes" o_file_backing_budget_bytes optional_u64 file_backing_budget_bytes;
   field "live_reassembly_budget_bytes" o_live_reassembly_budget_bytes optional_u64 live_reassembly_budget_bytes].

Definition server_fields : list (Field ServerIpcConfigOverrides ServerIpcConfig) :=
  [field "max_frame_size" so_max_frame_size optional_u64 sv_max_frame_size;
   field "max_payload_size" so_max_payload_size optional_u64 sv_max_payload_size;
   field "max_pending_requests" so_max_pending_requests optional_u32 sv_max_pending_requests;
   field "max_execution_workers" so_max_execution_workers optional_u32 sv_max_execution_workers;
   field "pool_decay_seconds" so_pool_decay_seconds optional_f64 sv_pool_decay_seconds].

Definition client_fields : list (Field ClientIpcConfigOverrides ClientIpcConfig) :=
  [field "pool_decay_seconds" co_pool_decay_seconds optional_f64 pool_decay_seconds].

Lemma resolve_field_ok {A : Type} (code : option A) from_env dflt v :
  resolve_field code from_env dflt = Ok v ↔
  ∃ e, from_env = Ok e ∧ v = default dflt (match code with Some v => Some v | None => e end).
Proof. unfold resolve_field. rewrite bind_ok. f_equiv. intros e. split; intros [-> H]; (split; [done|congruence]). Qed.

Lemma comes_from_field {O C : Type} (env : EnvMap) (o : O) (d c : C) f :
  comes_from env o d c f ↔ resolve_field (f_code f o) (f_read f env (env_key (f_name f))) (f_get f d) = Ok (f_get f c).
Proof. by rewrite resolve_field_ok. Qed.

Lemma resolve_base_exact env o d c : resolve_base env o d = Ok c ↔ Forall (comes_from env o d c) base_fields.
Proof.
  unfold resolve_base. split.
  - do 19 (rewrite bind_ok; intros (? & ? & Hk); revert Hk). intros [= <-].
    repeat (apply Forall_cons; split; [apply comes_from_field; assumption|]). by apply Forall_nil.
  - intros H. do 19 (apply Forall_cons in H as [?Hf%comes_from_field H]; apply bind_ok; eexists; split; [exact Hf|]; clear Hf).
    by destruct c.
Qed.

Lemma memory_product_ok c u : validate_pool_memory_product c = Ok u ↔ pool_segment_size c * max_pool_segments c <= U64_MAX.
Proof. unfold validate_pool_memory_product. by rewrite guard_err_ok, Z.ltb_ge. Qed.

Lemma server_config_exact available env o threshold c :
  resolve_server_ipc_config available env o threshold = Ok c ↔
  Forall (comes_from env (so_base o) BaseIpcConfig_default (sv_base c)) base_fields
  ∧ Forall (comes_from env o (ServerIpcConfig_default available) c) server_fields
  ∧ sv_shm_threshold c = threshold ∧ pool_segment_size (sv_base c) * max_pool_segments (sv_base c) <= U64_MAX
  ∧ validate_server c = Ok tt.
Proof.
  unfold resolve_server_ipc_config. cbn zeta. rewrite bind_ok. split.
  - intros (b & Hb & Hk). revert Hk. do 5 (rewrite bind_ok; intros (? & ? & Hk); revert Hk).
    rewrite bind_ok. intros (? & Hm & Hk). revert Hk. rewrite bind_ok. intros ([] & Hv%map_err_ok & [= <-]).
    apply memory_product_ok in Hm. apply resolve_base_exact in Hb. split_and!; [done| |done..].
    repeat (apply Forall_cons; split; [apply comes_from_field; assumption|]). by apply Forall_nil.
  - intros (Hb & H & Ht & Hm & Hv). exists (sv_base c). split; [by apply resolve_base_exact|].
    do 5 (apply Forall_cons in H as [?Hf%comes_from_field H]; apply bind_ok; eexists; split; [exact Hf|]; clear Hf).
    apply bind_ok. exists tt. split; [by apply memory_product_ok|]. destruct c; cbn in *; subst. by rewrite Hv.
Qed.

Lemma client_config_exact env o threshold c :
  resolve_client_ipc_config env o threshold = Ok c ↔
  Forall (comes_from env (co_base o) BaseIpcConfig_default (base c)) base_fields
  ∧ Forall (comes_from env o ClientIpcConfig_default c) client_fields
  ∧ shm_threshold c = threshold ∧ pool_segment_size (base c) * max_pool_segments (base c) <= U64_MAX
  ∧ validate_client c = Ok tt.
Proof.
  unfold resolve_client_ipc_config. cbn zeta. rewrite bind_ok. split.
  - intros (b & Hb & Hk). revert Hk. rewrite bind_ok. intros (? & ? & Hk). revert Hk.
    rewrite bind_ok. intros (? & Hm & Hk). revert Hk. rewrite bind_ok. intros ([] & Hv%map_err_ok & [= <-]).
    apply memory_product_ok in Hm. apply resolve_base_exact in Hb. split_and!; [done| |done..].
    apply Forall_singleton, comes_from_field. assumption.
  - intros (Hb & H & Ht & Hm & Hv). exists (base c). split; [by apply resolve_base_exact|].
    apply Forall_singleton, comes_from_field in H. apply bind_ok. eexists. split; [exact H|].
    apply bind_ok. exists tt. split; [by apply memory_product_ok|]. destruct c; cbn in *; subst. by rewrite Hv.
Qed.

Lemma code_or_env_ok {A : Type} (code : option A) from_env dflt v :
  code_or_env code from_env dflt = Ok v ↔
  match code with Some x => v = x | None => ∃ e, from_env = Ok e ∧ v = default dflt e end.
Proof.
  unfold code_or_env. destruct code as [x|]; [split; congruence|]. rewrite bind_ok. f_equiv. intros e.
  split; intros [-> H]; (split; [done|congruence]).
Qed.

(** The threshold is shared by both roles: in code, else in the environment, else 4096. *)
Definition threshold_from (env : EnvMap) (code : option Z) (v : Z) : Prop :=
  v ≠ 0 ∧ match code with Some x => v = x | None => ∃ e, optional_u64 env "C2_SHM_THRESHOLD" = Ok e ∧ v = default 4096 e end.

Lemma resolve_threshold_ok env code v : resolve_shm_threshold env code = Ok v ↔ threshold_from env code v.
Proof.
  unfold resolve_shm_threshold, threshold_from. rewrite <-code_or_env_ok, bind_ok. split.
  - intros (x & Hx & H). apply bind_ok in H as (? & Hz%guard_err_ok & [= <-]). apply Z.eqb_neq in Hz. done.
  - intros [Hz Hx]. exists v. split; [done|]. by rewrite (proj2 (Z.eqb_neq _ _)).
Qed.

(** ** Pools and frames *)

Lemma next_power_bound n p : checked_next_power_of_two n = Some p → p <= U32_MAX → n <= 2 ^ 31.
Proof.
  unfold checked_next_power_of_two. destruct (n <=? 1) eqn:E; [apply Z.leb_le in E; lia|]. apply Z.leb_gt in E.
  destruct (_ <=? _); [|done]. intros [= <-] Hp. destruct (Z.log2_up_spec n) as [_ Hn]; [lia|].
  assert (Z.log2_up n <= 31).
  { destruct (Z.le_gt_cases (Z.log2_up n) 31) as [|Hgt]; [done|].
    assert (2 ^ 32 <= 2 ^ Z.log2_up n) by (apply Z.pow_le_mono_r; lia). unfold U32_MAX in Hp. lia. }
  etransitivity; [exact Hn|]. apply Z.pow_le_mono_r; lia.
Qed.

Lemma layout_4096 n : 8192 <= n → is_Some (checked_layout n 4096) ↔ n <= 2 ^ 31.
Proof.
  intros Hn. split.
  - intros [lay H]. apply checked_layout_iff in H as (k & m & _ & _ & Hk & Hc & _); [|lia..]. pose proof (pow_31 k Hk). lia.
  - intros Hle. destruct (next_pow2_spec n 31) as (k & Hk & _ & Hp & Hmin); [unfold pow; lia|lia|].
    eexists. apply checked_layout_iff; [lia..|]. exists k, 12%nat. split_and!; [done| |done|lia|lia|done|done].
    destruct (Nat.le_gt_cases 12 k) as [|Hlt]; [done|]. pose proof (pow_mono k 11 ltac:(lia)) as Hpm. unfold pow in *. lia.
Qed.

(** What the pools need of a valid policy. *)
Lemma valid_base_pools c :
  validate_base c = Ok tt →
  pool_segment_size c <= 2 ^ 31 ∧ 1 <= max_pool_segments c <= 255 ∧ 1 <= reassembly_max_segments c <= 255
  ∧ pool_min_retained_segments c <= max_pool_segments c ∧ pool_min_retained_segments c <= reassembly_max_segments c
  ∧ pool_prewarm_segments c <= max_pool_segments c ∧ (pool_enabled c = false → pool_prewarm_segments c <= 0)
  ∧ IpcConfig.max_dedicated_segments c <= U16_MAX + 1.
Proof.
  unfold validate_base. rewrite !seq_ok, !guard_err_ok.
  intros (_ & _ & _ & Hd & _ & Hn & Hp & Hw & He & Hr & Hr' & _ & Hm & _). unfold MAX_IPC_POOL_SEGMENTS in *.
  destruct (checked_next_power_of_two _) as [p|] eqn:En; [|done]. apply Z.ltb_ge in Hn. pose proof (next_power_bound _ _ En Hn).
  split_and!; try lia. intros E. rewrite E in He. cbn in He. lia.
Qed.

Lemma valid_decay secs : validate_decay secs = Ok tt → validate_duration_secs secs = Ok tt.
Proof.
  unfold validate_decay, validate_duration_secs, check_duration. rewrite seq_ok, guard_err_ok. intros [-> Hd]. cbn [res_bind guard_err].
  destruct (SFltb _ _); [done|]. by destruct (duration_from_secs secs).
Qed.

Lemma pool_config_valid c segment max decay :
  1 <= max <= 255 → pool_min_retained_segments c <= max → IpcConfig.max_dedicated_segments c <= U16_MAX + 1 →
  validate_decay decay = Ok tt →
  validate_config (pool_config c segment max decay) = Ok tt ↔ 8192 <= segment <= 2 ^ 31.
Proof.
  intros Hmax Hret Hded Hdec%valid_decay. unfold validate_config.
  cbn [segment_size min_block_size max_segments Pool.max_dedicated_segments buddy_idle_decay_secs min_retained_segments pool_config].
  change (checked_mul USIZE_MAX 4096 2) with (Some 8192). change ((4096 =? 0) || negb (is_power_of_two 4096)) with false.
  cbn [guard_err res_bind]. rewrite seq_ok, guard_err_ok, Z.ltb_ge.
  split; [intros [Hs H]|intros [Hs Hle]]; (split; [done|]).
  - apply layout_4096; [done|]. by destruct (checked_layout segment 4096).
  - destruct (proj2 (layout_4096 segment Hs) Hle) as [lay ->]. rewrite Hdec. unfold U16_MAX in *. z_bools. done.
Qed.

Lemma release_frame_length ids batch response :
  ReleaseBatch_new ids = Ok batch → blen (encode_release_frame batch response) = 4 + (14 + 8 * blen ids) ∧ blen ids <= 64.
Proof.
  intros H. assert (Hl : 1 <= blen ids <= IPC_RELEASE_BATCH_CAPACITY).
  { unfold ReleaseBatch_new in H. rewrite !bind_ok in H. destruct H as (? & He%guard_err_ok & H). apply bind_ok in H as (? & Hc%guard_err_ok & _).
    apply Z.ltb_ge in Hc. split; [|done]. destruct ids; [done|]. rewrite blen_cons. pose proof (blen_nonneg ids). lia. }
  rewrite new_batch in H by done. injection H as <-. unfold IPC_RELEASE_BATCH_CAPACITY in Hl. split; [|lia].
  unfold encode_release_frame. rewrite rb_ids_batch_of, append_release_frame_eq by lia.
  rewrite app_nil_l, encode_frame_eq, !blen_app, !blen_to_le, blen_release_payload. lia.
Qed.

(** ** Guarantees *)

(** C34 A server policy is resolved exactly when every environment variable of a field is well
    formed and the values, each the one given in code, else that of the process
    environment, else that of the last line of the environment file, else the default,
    make a valid policy.  A malformed variable fails even where code gives the field, but
    for the threshold of shared memory, whose variable is not read then; and the variable
    of a field is named after it. *)
Theorem server_resolution_exact read available s o g c :
  (resolve_server_ipc read available s o g = Ok c ↔
   ∃ pairs env, file_pairs read s pairs
     ∧ (∀ key, env !! key = match process_env s !! key with Some v => Some v | None => last_item key pairs end)
     ∧ threshold_from env (rt_shm_threshold g) (sv_shm_threshold c)
     ∧ Forall (comes_from env (so_base o) BaseIpcConfig_default (sv_base c)) base_fields
     ∧ Forall (comes_from env o (ServerIpcConfig_default available) c) server_fields
     ∧ pool_segment_size (sv_base c) * max_pool_segments (sv_base c) <= U64_MAX
     ∧ validate_server c = Ok tt)
  ∧ (f_name <$> base_fields) ++ (f_name <$> server_fields) = SERVER_IPC_OVERRIDE_KEYS.
Proof.
  split; [|reflexivity]. unfold resolve_server_ipc. rewrite bind_ok. split.
  - intros (env & (pairs & Hp & He)%resolve_env_spec & H). apply bind_ok in H as (t & Ht%resolve_threshold_ok & H).
    apply server_config_exact in H as (Hb & Hs & <- & Hm & Hv). by exists pairs, env.
  - intros (pairs & env & Hp & He & Ht & Hb & Hs & Hm & Hv). exists env. split; [apply resolve_env_spec; by exists pairs|].
    apply bind_ok. exists (sv_shm_threshold c). split; [by apply resolve_threshold_ok|]. by apply server_config_exact.
Qed.

(** A resolved server policy can be used: the pool of responses accepts it exactly when a
    segment has room for two blocks, that of reassembly when moreover its segments fit 32-bit
    offsets; segments to prewarm are there to be mapped; the server has a worker; and every
    release frame, the full batch included, fits the frames the server accepts. *)
Theorem resolved_server_usable read available s o g c :
  resolve_server_ipc read available s o g = Ok c →
  (validate_config (primary_pool_config (sv_base c) (sv_pool_decay_seconds c)) = Ok tt ↔ 8192 <= pool_segment_size (sv_base c))
  ∧ (validate_config (reassembly_pool_config (sv_base c) (sv_pool_decay_seconds c)) = Ok tt
     ↔ 8192 <= reassembly_segment_size (sv_base c) <= 2 ^ 31)
  ∧ (0 < pool_prewarm_segments (sv_base c) → pool_enabled (sv_base c) = true ∧ pool_prewarm_segments (sv_base c) <= max_pool_segments (sv_base c))
  ∧ sv_max_execution_workers c ≠ 0 ∧ sv_shm_threshold c ≠ 0 ∧ sv_shm_threshold c <= sv_max_frame_size c
  ∧ (∀ ids batch response, ReleaseBatch_new ids = Ok batch → blen (encode_release_frame batch response) - 4 <= sv_max_frame_size c).
Proof.
  unfold resolve_server_ipc. rewrite bind_ok. intros (env & _ & H). apply bind_ok in H as (t & [Ht _]%resolve_threshold_ok & H).
  apply server_config_exact in H as (_ & _ & <- & _ & H). unfold validate_server in H. rewrite !seq_ok, !guard_err_ok in H.
  destruct H as (Hb & Hf & _ & Hw & Hx & Hd). apply valid_base_pools in Hb as (Hseg & Hmp & Hmr & Hrp & Hrr & Hpw & Hoff & Hded).
  apply Z.ltb_ge in Hf, Hx. apply Z.eqb_neq in Hw. unfold MIN_IPC_FRAME_SIZE, IPC_RELEASE_BATCH in Hf. split_and!; try done.
  - unfold primary_pool_config. rewrite pool_config_valid by done. lia.
  - unfold reassembly_pool_config. by rewrite pool_config_valid.
  - intros Hpos. destruct (pool_enabled (sv_base c)); [done|]. specialize (Hoff eq_refl). lia.
  - intros ids batch response Hn. destruct (release_frame_length _ _ response Hn) as [-> Hl]. lia.
Qed.

(** A policy for the witnesses: one field in code, one in the process environment, which
    goes before the file, and one in the file. *)
Definition no_base_overrides : BaseIpcOverrides :=
  Build_BaseIpcOverrides None None None None None None None None None None None None None None None None None None None.
Definition no_relay_overrides : RelayConfigOverrides := Build_RelayConfigOverrides None None None None None None.
Definition no_server_overrides : ServerIpcConfigOverrides := Build_ServerIpcConfigOverrides no_base_overrides None None None None None.
Definition no_client_overrides : ClientIpcConfigOverrides := Build_ClientIpcConfigOverrides no_base_overrides None.
Definition no_overrides : RuntimeConfigOverrides :=
  Build_RuntimeConfigOverrides no_relay_overrides no_server_overrides no_client_overrides None None None.

Definition sample_sources : ConfigSources :=
  {| env_file := FromC2EnvFile; process_env := {[ text "C2_IPC_CHUNK_SIZE" := text " 4096 "; text "C2_IPC_MAX_FRAME_SIZE" := text "  " ]} |}.
Definition sample_read (path : str) : EnvFile :=
  if bool_decide (path = text ".env")
  then FileItems [Some (text "C2_IPC_CHUNK_SIZE", text "1"); Some (text "C2_IPC_POOL_SEGMENT_SIZE", text "8192")]
  else FileMissing.
Definition sample_server : ServerIpcConfigOverrides := Build_ServerIpcConfigOverrides no_base_overrides None None (Some 7) None None.

Definition sample_config : ServerIpcConfig :=
  match resolve_server_ipc sample_read (Some 2) sample_sources sample_server no_overrides with
  | Ok c => c
  | _ => ServerIpcConfig_default None
  end.

Lemma resolved_server_usable_witness :
  validate_config (primary_pool_config (sv_base sample_config) f64_60) = Ok tt
  ∧ (pool_segment_size (sv_base sample_config), chunk_size (sv_base sample_config), sv_max_pending_requests sample_config,
     sv_max_frame_size sample_config, sv_max_execution_workers sample_config) = (8192, 4096, 7, 2147483648, 4).
Proof.
  split; [|vm_compute; reflexivity].
  destruct (resolved_server_usable sample_read (Some 2) sample_sources sample_server no_overrides sample_config) as [[_ H] _];
    [vm_compute; reflexivity|].
  assert (sv_pool_decay_seconds sample_config = f64_60) as Hd by (vm_compute; reflexivity). rewrite Hd in H. apply H. apply Z.leb_le. vm_compute. reflexivity.
Defined.

(** ** Text of the environment *)

Lemma text_chars (s : str) : utf8_valid s = true → trim (chars s) = chars s → trim_str s = s.
Proof.
  unfold utf8_valid, trim_str, chars. destruct (utf8_decode s) as [cs|] eqn:E; [|done]. intros _ ->. by apply encode_decode_chars in E as [_ ?].
Qed.

Lemma decimal_trim n : 0 <= n → trim_str (decimal n) = decimal n.
Proof.
  intros Hn. pose proof (decimal_all_digits 20 n Hn) as Hd. fold (decimal n) in Hd.
  assert (Hr : Forall (fun b => 48 <= u8 b <= 57) (decimal n)).
  { eapply Forall_impl; [exact Hd|]. intros b [d E]. unfold digit in E. destruct (_ && _) eqn:B; [lia|done]. }
  destruct (ascii_chars (decimal n)) as [He Hs]; [eapply Forall_impl; [exact Hr|]; cbn; lia|].
  assert (Hc : chars (decimal n) = u8 <$> decimal n) by (rewrite <-He at 1; by apply chars_encode).
  apply text_chars.
  - unfold utf8_valid. rewrite <-He. by rewrite decode_encode_chars.
  - apply trim_id. rewrite Hc. intros c Hin. assert (c ∈ u8 <$> decimal n) as (b & -> & Hb)%list_elem_of_fmap.
    { destruct Hin as [H|H]; [by apply head_Some_elem_of|by apply last_Some_elem_of]. }
    rewrite Forall_forall in Hr. specialize (Hr b Hb). unfold is_whitespace. z_bools. done.
Qed.

(** Integers written into the environment are read back exactly: the decimal text of a
    number is the number where it fits the field and is refused where it does not; a blank
    variable is the same as none, except for the limits of calls, where it is refused. *)
Theorem env_integer_exact (env : EnvMap) (key : string) (n : Z) (s : str) :
  0 <= n < 2 ^ 64 → env !! text key = Some s →
  (s = decimal n → optional_u64 env key = Ok (Some n)
    ∧ optional_u32 env key = (if n <=? U32_MAX then Ok (Some n) else Err (NotUnsigned key))
    ∧ call_execution_limit_from_env env key = Ok (Some n))
  ∧ (trim_str s = [] → optional_u64 env key = Ok None ∧ optional_u32 env key = Ok None ∧ optional_f64 env key = Ok None
    ∧ optional_bool env key = Ok None ∧ call_execution_limit_from_env env key = Err (EmptyValue key)).
Proof.
  intros Hn Hk. split.
  - intros ->. pose proof (decimal_trim n ltac:(lia)) as Ht. assert (Hne : decimal n ≠ []) by (intros E; apply app_eq_nil in E as [_ E]; discriminate E).
    unfold optional_u64, optional_u32, call_execution_limit_from_env, parse_optional, optional_string, clean_string. rewrite Hk.
    cbn [mbind option_bind]. rewrite Ht, !bool_decide_false by done. rewrite !parse_decimal by done. unfold U64_MAX.
    rewrite (proj2 (Z.leb_le n _)) by lia. split_and!; [done| |done]. by destruct (n <=? U32_MAX).
  - intros Ht. unfold optional_u64, optional_u32, optional_f64, optional_bool, call_execution_limit_from_env, parse_optional, optional_string, clean_string.
    rewrite Hk. cbn [mbind option_bind]. rewrite Ht. done.
Qed.

Lemma env_integer_witness :
  optional_u32 {[ text "C2_IPC_MAX_POOL_SEGMENTS" := decimal 4294967296 ]} "C2_IPC_MAX_POOL_SEGMENTS" = Err (NotUnsigned "C2_IPC_MAX_POOL_SEGMENTS").
Proof.
  destruct (env_integer_exact {[ text "C2_IPC_MAX_POOL_SEGMENTS" := decimal 4294967296 ]} "C2_IPC_MAX_POOL_SEGMENTS" 4294967296 (decimal 4294967296))
    as [H _]; [lia|vm_compute; reflexivity|]. destruct (H eq_refl) as (_ & H2 & _). exact H2.
Defined.
