(* ===== verification/Endpoint.v ===== *)
(** Local endpoints on Unix (c2-config, local.rs): the directory a runtime is given, the
    identity of its namespace, and the path of the socket of a logical address. *)

From S2P Require Import Prelude.
From S2P Require Import Float64.
From S2P Require Import Text.
From S2P Require Import Parse.
From S2P Require Import IpcConfig.
From S2P Require Import Config.

Local Open Scope Z_scope.

(** ** Paths *)

(** The components of an absolute path after its root: separators that follow each other
    count once and [.] does not count. *)
Definition components (path : str) : list str := filter (fun c => c ≠ [] ∧ c ≠ text ".") (split_on ch_slash path).

Definition is_absolute (path : str) : bool := match path with b :: _ => u8 b =? ch_slash | [] => false end.

(** [PathBuf] of components under the root. *)
Fixpoint join_components (cs : list str) : str :=
  match cs with
  | [] => []
  | [c] => c
  | c :: cs => c ++ text "/" ++ join_components cs
  end.
Definition collect (cs : list str) : str := text "/" ++ join_components cs.

(** [PathBuf::join] of a relative name. *)
Definition path_join (root name : str) : str :=
  match last root with
  | Some b => if u8 b =? ch_slash then root ++ name else root ++ text "/" ++ name
  | None => name
  end.

(** ** Contexts *)

Inductive RootError := RootEmpty | RootNul | RootNotUtf8 | RootNotAbsolute | RootHasParent.

Definition validate_unix_root (root : str) : res RootError str :=
  guard_err (bool_decide (root = [])) RootEmpty ;?
  guard_err (existsb (fun b => u8 b =? 0) root) RootNul ;?
  guard_err (negb (utf8_valid root)) RootNotUtf8 ;?
  guard_err (negb (is_absolute root)) RootNotAbsolute ;?
  guard_err (existsb (fun c => bool_decide (c = text "..")) (components root)) RootHasParent ;?
  let normalized := collect (components root) in
  guard_err (negb (utf8_valid normalized)) RootNotUtf8 ;?
  Ok normalized.

Inductive LocalEndpointPlatform :=
| UnixManaged (root : str) (uid : Z)
| WindowsNamedPipe (user_scope_id : str).

Record LocalEndpointContext := { platform : LocalEndpointPlatform; namespace_id : str }.

Definition hex_digit (d : Z) : byte := byte.of_Z (if d <? 10 then 48 + d else 87 + d).
(** [{byte:02x}] of each byte *)
Definition hex (bs : bytes) : str := concat ((fun b => [hex_digit (u8 b / 16); hex_digit (u8 b mod 16)]) <$> bs).

(** [{uid:x}], with fuel for the eight digits of a [u32]. *)
Fixpoint hex_digits (fuel : nat) (n : Z) : str :=
  match fuel with
  | O => []
  | S fuel => (if n <? 16 then [] else hex_digits fuel (n / 16)) ++ [hex_digit (n mod 16)]
  end.
Definition hex_u32 (n : Z) : str := hex_digits 8 n.

Definition UNIX_NAMESPACE_FORMAT_VERSION : Z := 3.
Definition NAMESPACE_ID_DOMAIN : str := text "c2.local-endpoint-namespace.v1".

(** A field and, before it, its length. *)
Definition feed (f : bytes) : bytes := to_le 8 (blen f) ++ f.

(** The bytes that identify a namespace. *)
Definition namespace_preimage (p : LocalEndpointPlatform) : bytes :=
  feed NAMESPACE_ID_DOMAIN ++
  match p with
  | UnixManaged root uid => feed (text "unix-filesystem") ++ feed root ++ feed (to_le 4 uid)
  | WindowsNamedPipe scope => feed (text "windows-named-pipe") ++ feed scope
  end.

Record LocalEndpoint := { ep_address : str; ep_os_name : str; ep_context : LocalEndpointContext }.

Inductive EndpointError := NotIpcAddress | BadServerId (e : IdError) | NotUnix.

(** [strip_prefix] *)
Fixpoint strip_prefix (prefix s : str) : option str :=
  match prefix, s with
  | [], _ => Some s
  | a :: prefix, b :: s => if bool_decide (a = b) then strip_prefix prefix s else None
  | _ :: _, [] => None
  end.

Definition validate_address (address : str) : res EndpointError str :=
  match strip_prefix (text "ipc://") address with
  | None => Err NotIpcAddress
  | Some server_id => map_err BadServerId (validate_server_id server_id) ;? Ok server_id
  end.

(** [sha256]: the digest of the library; [uid]: the effective user of the process. *)
Section Digest.
Context (sha256 : bytes → bytes) (uid : Z).

Definition compute_namespace_id (p : LocalEndpointPlatform) : str := hex (sha256 (namespace_preimage p)).

Definition LocalEndpointContext_new (p : LocalEndpointPlatform) : LocalEndpointContext :=
  {| platform := p; namespace_id := compute_namespace_id p |}.

Definition with_unix_root (root : str) : res RootError LocalEndpointContext :=
  let? root := validate_unix_root root in
  Ok (LocalEndpointContext_new (UnixManaged root uid)).

Definition default_for_platform : res RootError LocalEndpointContext :=
  with_unix_root (text "/tmp/c2-v" ++ decimal UNIX_NAMESPACE_FORMAT_VERSION ++ text "-" ++ hex_u32 uid).

Definition endpoint_identity (server_id : str) : str := hex (take 16 (sha256 server_id)).

Definition derive_os_name (p : LocalEndpointPlatform) (server_id : str) : res EndpointError str :=
  match p with
  | UnixManaged root _ => Ok (path_join root (endpoint_identity server_id))
  | WindowsNamedPipe _ => Err NotUnix
  end.

Definition endpoint (c : LocalEndpointContext) (address : str) : res EndpointError LocalEndpoint :=
  let? server_id := validate_address address in
  let? name := derive_os_name (platform c) server_id in
  Ok {| ep_address := address; ep_os_name := name; ep_context := c |}.

Inductive LocalConfigError :=
| SourcesError (e : ConfigError)
| IpcRootEmpty
| BadRoot (from_code : bool) (e : RootError)
| NoDefault (e : RootError).

(** An explicit root goes before [C2_IPC_ROOT], whose bytes are not trimmed, and that before
    the default. *)
Definition resolve_local_endpoint (read : str → EnvFile) (s : ConfigSources) (unix_root : option str)
    : res LocalConfigError LocalEndpointContext :=
  let? env := map_err SourcesError (resolve_env read s) in
  match unix_root with
  | Some root => map_err (BadRoot true) (with_unix_root root)
  | None =>
      match env !! text "C2_IPC_ROOT" with
      | Some raw =>
          guard_err (bool_decide (raw = [])) IpcRootEmpty ;?
          map_err (BadRoot false) (with_unix_root raw)
      | None => map_err NoDefault default_for_platform
      end
  end.
End Digest.

(** ** Splitting and joining *)

Definition no_slash (c : str) : Prop := Forall (fun b => u8 b ≠ ch_slash) c.

(** Components a path may have after normalization. *)
Definition plain (c : str) : Prop := no_slash c ∧ c ≠ [] ∧ c ≠ text ".".

Lemma join_cons c cs : cs ≠ [] → join_components (c :: cs) = c ++ text "/" ++ join_components cs.
Proof. by destruct cs. Qed.

Lemma split_nonempty sep s : split_on sep s ≠ [].
Proof. destruct s as [|b s]; cbn; [done|]. destruct (_ =? _); [done|]. by destruct (split_on sep s). Qed.

Lemma split_join s : join_components (split_on ch_slash s) = s ∧ Forall no_slash (split_on ch_slash s).
Proof.
  induction s as [|b s [IH1 IH2]]; cbn [split_on]; [by repeat constructor|].
  pose proof (split_nonempty ch_slash s) as Hne. destruct (u8 b =? ch_slash) eqn:E.
  - split; [|by repeat constructor]. rewrite join_cons, IH1 by done. apply Z.eqb_eq in E. cbn. f_equal.
    rewrite <-(of_Z_u8 b), E. reflexivity.
  - destruct (split_on ch_slash s) as [|piece rest]; [done|]. apply Forall_cons in IH2 as [Hp Hr]. apply Z.eqb_neq in E.
    split; [|by repeat constructor]. subst s. by destruct rest.
Qed.

Lemma split_no_slash c : no_slash c → split_on ch_slash c = [c].
Proof.
  induction 1 as [|b c Hb _ IH]; [done|]. cbn. by rewrite (proj2 (Z.eqb_neq _ _)), IH.
Qed.

Lemma split_sep c s : no_slash c → split_on ch_slash (c ++ text "/" ++ s) = c :: split_on ch_slash s.
Proof. induction 1 as [|b c Hb _ IH]; [done|]. cbn [app split_on]. by rewrite (proj2 (Z.eqb_neq _ _)), IH. Qed.

Lemma join_split cs : Forall no_slash cs → cs ≠ [] → split_on ch_slash (join_components cs) = cs.
Proof.
  induction 1 as [|c cs Hc Hcs IH]; [done|]. intros _. destruct (decide (cs = [])) as [->|Hne]; [by apply split_no_slash|].
  by rewrite join_cons, split_sep, IH.
Qed.

Lemma components_plain s : Forall plain (components s).
Proof.
  destruct (split_join s) as [_ Hs]. unfold components. rewrite Forall_forall in Hs |- *. intros c [Hc Hin]%list_elem_of_filter.
  split; [by apply Hs|done].
Qed.

Lemma components_slash s : components (text "/" ++ s) = components s.
Proof. reflexivity. Qed.

Lemma filter_all {A} (P : A → Prop) `{!∀ x, Decision (P x)} l : Forall P l → filter P l = l.
Proof. induction 1 as [|x l Hx _ IH]; [done|]. by rewrite filter_cons_True, IH. Qed.

(** Paths under the root and their components determine each other. *)
Lemma components_collect cs : Forall plain cs → components (collect cs) = cs.
Proof.
  intros Hp. unfold collect. rewrite components_slash. destruct (decide (cs = [])) as [->|Hne]; [done|].
  unfold components. rewrite join_split; [|by eapply Forall_impl; [exact Hp|]; intros c []|done].
  apply filter_all. eapply Forall_impl; [exact Hp|]. by intros c [_ ?].
Qed.

Lemma collect_inj cs cs' : Forall plain cs → Forall plain cs' → collect cs = collect cs' → cs = cs'.
Proof. intros H H' E. by rewrite <-(components_collect cs), E, components_collect. Qed.

Lemma join_snoc cs c : cs ≠ [] → join_components (cs ++ [c]) = join_components cs ++ text "/" ++ c.
Proof.
  induction cs as [|x cs IH]; [done|]. intros _. cbn [app]. rewrite join_cons by (by destruct cs).
  destruct (decide (cs = [])) as [->|Hne]; [done|]. by rewrite IH, join_cons, <-!(assoc_L (++)).
Qed.

Lemma join_last cs b : Forall plain cs → last (join_components cs) = Some b → u8 b ≠ ch_slash.
Proof.
  induction 1 as [|c cs [Hs [Hne _]] Hcs IH]; [done|]. destruct (decide (cs = [])) as [->|Hc].
  - cbn. intros Hl. unfold no_slash in Hs. rewrite Forall_forall in Hs. apply Hs. by apply last_Some_elem_of.
  - rewrite join_cons by done. rewrite !last_app. destruct (last (join_components cs)) as [x|] eqn:E; [by intros [= ->]; apply IH|].
    apply last_None in E. destruct cs as [|c' cs]; [done|]. apply Forall_cons in Hcs as [(_ & Hn & _) _].
    destruct cs; cbn in E; [done|]. by apply app_eq_nil in E as [? _].
Qed.

Lemma path_join_collect cs name : Forall plain cs → path_join (collect cs) name = collect (cs ++ [name]).
Proof.
  intros Hp. destruct (decide (cs = [])) as [->|Hne]; [done|]. unfold path_join, collect. rewrite last_app.
  destruct (last (join_components cs)) as [b|] eqn:E.
  - rewrite (proj2 (Z.eqb_neq _ _)) by (by eapply join_last). by rewrite join_snoc, <-(assoc_L (++)).
  - apply last_None in E. destruct cs as [|c cs]; [done|]. apply Forall_cons in Hp as [(_ & Hn & _) _].
    destruct cs; cbn in E; [done|]. by apply app_eq_nil in E as [? _].
Qed.

(** ** Components of valid text are valid text *)

Lemma valid_encode s : utf8_valid s = true ↔ ∃ cs, Forall scalar cs ∧ s = utf8_encode cs.
Proof.
  unfold utf8_valid. split.
  - destruct (utf8_decode s) as [cs|] eqn:E; [|done]. intros _. exists cs. by apply encode_decode_chars in E as [? <-].
  - intros (cs & Hs & ->). by rewrite decode_encode_chars.
Qed.

Lemma valid_app a b : utf8_valid a = true → utf8_valid b = true → utf8_valid (a ++ b) = true.
Proof.
  rewrite !valid_encode. intros (ca & Ha & ->) (cb & Hb & ->). exists (ca ++ cb). split; [by apply Forall_app|]. by rewrite utf8_encode_app.
Qed.

(** A byte below 128 is a whole character. *)
Lemma encode_char_ascii c a b y : scalar c → encode_char c = a ++ b :: y → u8 b < 128 → a = [] ∧ y = [].
Proof.
  intros [Hc _] He Hb. unfold encode_char in He.
  pose proof (Z.mod_pos_bound c 64 ltac:(lia)). pose proof (Z.mod_pos_bound (c / 64) 64 ltac:(lia)).
  pose proof (Z.mod_pos_bound (c / 4096) 64 ltac:(lia)).
  assert (c / 64 < 17408 ∧ c / 4096 < 272 ∧ c / 262144 < 5) as (? & ? & ?) by (split_and!; apply Z.div_lt_upper_bound; lia).
  assert (0 <= c / 64 ∧ 0 <= c / 4096 ∧ 0 <= c / 262144) as (? & ? & ?) by (split_and!; apply Z.div_pos; lia).
  assert (c < 2048 → c / 64 < 32) by (intros; apply Z.div_lt_upper_bound; lia).
  assert (c < 65536 → c / 4096 < 16) by (intros; apply Z.div_lt_upper_bound; lia).
  destruct (Z.ltb_spec c 128); [|destruct (Z.ltb_spec c 2048); [|destruct (Z.ltb_spec c 65536)]]; cbn [fmap list_fmap] in He;
    repeat (destruct a as [|? a]; [injection He as ? ?; subst; try done; exfalso; rewrite u8_of_Z in Hb; lia|
      cbn [app] in He; injection He as _ He]); by destruct a.
Qed.

Lemma valid_split a b : utf8_valid (a ++ text "/" ++ b) = true → utf8_valid a = true ∧ utf8_valid b = true.
Proof.
  rewrite (valid_encode (_ ++ _)). intros (cs & Hs & He). revert a He. induction Hs as [|c cs Hc Hcs IH]; intros a He; [by destruct a|].
  change (utf8_encode (c :: cs)) with (encode_char c ++ utf8_encode cs) in He. symmetry in He.
  apply app_eq_app in He as (l & [[Ha Hl]|[Ha Hl]]).
  - destruct l as [|x l].
    + rewrite app_nil_r in Ha. cbn in Hl. subst a. destruct (IH []) as [_ Hb]; [done|]. split; [|done].
      rewrite valid_encode. exists [c]. split; [by constructor|]. cbn. by rewrite app_nil_r.
    + injection Hl as <- Hl. destruct (encode_char_ascii _ _ _ _ Hc Ha) as [-> ->]; [done|]. split; [done|].
      rewrite valid_encode. exists cs. split; [done|]. done.
  - destruct (IH l) as [Hv Hb]; [done|]. split; [|done]. subst a. apply valid_app; [|done].
    rewrite valid_encode. exists [c]. split; [by constructor|]. cbn. by rewrite app_nil_r.
Qed.

Lemma valid_join cs : utf8_valid (join_components cs) = true ↔ Forall (fun c => utf8_valid c = true) cs.
Proof.
  induction cs as [|c cs IH]; [done|]. rewrite Forall_cons, <-IH. destruct (decide (cs = [])) as [->|Hne]; [by split; [|intros []]|].
  rewrite join_cons by done. split; [apply valid_split|]. intros [? ?]. by repeat apply valid_app.
Qed.

Lemma valid_components s : utf8_valid s = true → utf8_valid (collect (components s)) = true.
Proof.
  destruct (split_join s) as [Hj _]. rewrite <-Hj at 1. rewrite valid_join. intros Hf. apply valid_app; [done|]. apply valid_join.
  unfold components. rewrite Forall_forall in Hf |- *. intros c [_ Hc]%list_elem_of_filter. by apply Hf.
Qed.

(** ** Digests *)

Lemma hex_digit_inj d e : 0 <= d < 16 → 0 <= e < 16 → hex_digit d = hex_digit e → d = e.
Proof.
  intros Hd He H. apply (f_equal u8) in H. unfold hex_digit in H.
  destruct (Z.ltb_spec d 10), (Z.ltb_spec e 10); rewrite !u8_of_Z in H by lia; lia.
Qed.

Lemma hex_inj a b : hex a = hex b → a = b.
Proof.
  revert b. induction a as [|x a IH]; intros [|y b]; [done..|]. intros H. unfold hex in H. cbn [fmap list_fmap concat app] in H.
  injection H as H1 H2 H. f_equal; [|by apply IH]. pose proof (u8_range x). pose proof (u8_range y).
  apply hex_digit_inj in H1; [|split; [apply Z.div_pos|apply Z.div_lt_upper_bound]; lia..].
  apply hex_digit_inj in H2; [|apply Z.mod_pos_bound; lia..].
  rewrite <-(of_Z_u8 x), <-(of_Z_u8 y), (Z.div_mod (u8 x) 16), (Z.div_mod (u8 y) 16) by lia. congruence.
Qed.

Lemma hex_digit_range d : 0 <= d < 16 → 48 <= u8 (hex_digit d) <= 57 ∨ 97 <= u8 (hex_digit d) <= 102.
Proof. intros Hd. unfold hex_digit. destruct (Z.ltb_spec d 10); rewrite u8_of_Z by lia; lia. Qed.

Lemma hex_bytes bs : Forall (fun b => 48 <= u8 b <= 57 ∨ 97 <= u8 b <= 102) (hex bs).
Proof.
  induction bs as [|b bs IH]; [constructor|]. pose proof (u8_range b). unfold hex. cbn [fmap list_fmap concat app].
  repeat (constructor; [apply hex_digit_range; first [apply Z.mod_pos_bound; lia|split; [apply Z.div_pos|apply Z.div_lt_upper_bound]; lia]|]).
  exact IH.
Qed.

Lemma feed_inj a b x y : blen a < 2 ^ 64 → blen b < 2 ^ 64 → feed a ++ x = feed b ++ y → a = b ∧ x = y.
Proof.
  intros Ha Hb H. unfold feed in H. rewrite <-!(assoc_L (++)) in H.
  apply app_inj_1 in H as [Hl H]; [|unfold to_le; by rewrite !length_le_split]. apply (f_equal from_le) in Hl.
  rewrite !from_to_le in Hl by (pose proof (blen_nonneg a); pose proof (blen_nonneg b); lia).
  apply app_inj_1 in H; [done|]. unfold blen in Hl. lia.
Qed.

(** ** Guarantees *)

(** What a root must be. *)
Definition root_ok (root : str) : Prop :=
  Forall (fun b => u8 b ≠ 0) root ∧ utf8_valid root = true ∧ is_absolute root = true ∧ text ".." ∉ components root.

Lemma validate_root_ok root r : validate_unix_root root = Ok r ↔ root_ok root ∧ r = collect (components root).
Proof.
  unfold validate_unix_root, root_ok. rewrite !bind_ok. split.
  - intros (? & _ & H). apply bind_ok in H as (? & Hn%guard_err_ok & H). apply bind_ok in H as (? & Hu%guard_err_ok%negb_false_iff & H).
    apply bind_ok in H as (? & Ha%guard_err_ok%negb_false_iff & H). apply bind_ok in H as (? & Hp%guard_err_ok & H).
    apply bind_ok in H as (? & _ & [= <-]). rewrite existsb_false in Hn. rewrite existsb_false in Hp. split; [|done]. split_and!; [|done..|].
    + apply Forall_forall. intros b Hb. by apply Z.eqb_neq, Hn.
    + intros Hin. specialize (Hp _ Hin). by apply bool_decide_eq_false in Hp.
  - intros [(Hn & Hu & Ha & Hp) ->]. exists tt. split; [apply guard_err_ok, bool_decide_eq_false; by intros ->|].
    repeat (apply bind_ok; exists tt; split; [apply guard_err_ok|]); [| | | | |done].
    + apply existsb_false. intros b Hb. rewrite Forall_forall in Hn. by apply Z.eqb_neq, Hn.
    + by rewrite Hu.
    + by rewrite Ha.
    + apply existsb_false. intros c Hc. apply bool_decide_eq_false. by intros ->.
    + by rewrite valid_components.
Qed.

Lemma no_nul_join cs : Forall (Forall (fun b => u8 b ≠ 0)) cs → Forall (fun b => u8 b ≠ 0) (join_components cs).
Proof.
  induction 1 as [|c cs Hc Hcs IH]; [constructor|]. destruct (decide (cs = [])) as [->|Hne]; [done|]. rewrite join_cons by done.
  apply Forall_app. split; [done|]. by constructor.
Qed.

Lemma no_nul_split cs : Forall (fun b => u8 b ≠ 0) (join_components cs) → Forall (Forall (fun b => u8 b ≠ 0)) cs.
Proof.
  induction cs as [|c cs IH]; [constructor|]. destruct (decide (cs = [])) as [->|Hne]; [by repeat constructor|]. rewrite join_cons by done.
  intros [? H]%Forall_app. apply Forall_cons. split; [done|]. apply IH. by apply Forall_cons in H as [_ ?].
Qed.

Lemma normalized_ok root : root_ok root → root_ok (collect (components root)).
Proof.
  intros (Hn & Hu & Ha & Hp). split_and!; [|by apply valid_components|done|].
  - constructor; [done|]. apply no_nul_join. destruct (split_join root) as [Hj _]. rewrite <-Hj in Hn. apply no_nul_split in Hn.
    rewrite Forall_forall in Hn |- *. unfold components. intros c [_ Hc]%list_elem_of_filter. by apply Hn.
  - by rewrite components_collect by apply components_plain.
Qed.

(** A root is accepted exactly when it is absolute valid text without NUL bytes or [..]
    components, and what is kept of it is its components: repeated and trailing separators
    and [.] do not make another root, normalizing again changes nothing, and the result
    is always valid text. *)
Theorem root_normalization (root other r : str) :
  (validate_unix_root root = Ok r ↔ root_ok root ∧ r = collect (components root))
  ∧ (validate_unix_root root = Ok r → validate_unix_root r = Ok r ∧ components r = components root
     ∧ (validate_unix_root other = Ok r ↔ root_ok other ∧ components other = components root)).
Proof.
  split; [apply validate_root_ok|]. intros [Hr ->]%validate_root_ok. pose proof (components_collect _ (components_plain root)) as Hc.
  split_and!; [|done|].
  - apply validate_root_ok. split; [by apply normalized_ok|]. by rewrite Hc.
  - rewrite validate_root_ok. split; intros [Ho H]; (split; [done|]); [|by rewrite H].
    apply collect_inj in H; [done|apply components_plain..].
Qed.

Lemma identity_plain sha256 id : (∀ m, length (sha256 m) = 32%nat) → plain (endpoint_identity sha256 id).
Proof.
  intros Hs. unfold endpoint_identity. pose proof (Hs id). destruct (sha256 id) as [|a [|b l]]; [done..|].
  split; [|done]. eapply Forall_impl; [apply hex_bytes|]. unfold ch_slash. cbn. intros. lia.
Qed.

Lemma preimage_unix_inj r1 u1 r2 u2 :
  0 <= u1 < 2 ^ 32 → 0 <= u2 < 2 ^ 32 → blen r1 < 2 ^ 64 → blen r2 < 2 ^ 64 →
  namespace_preimage (UnixManaged r1 u1) = namespace_preimage (UnixManaged r2 u2) → r1 = r2 ∧ u1 = u2.
Proof.
  intros H1 H2 Hr1 Hr2 H. unfold namespace_preimage in H. apply app_inv_head in H. apply app_inv_head in H.
  apply feed_inj in H as [-> H]; [|done..]. split; [done|]. unfold feed in H. rewrite !blen_to_le in H. apply app_inv_head in H.
  apply (f_equal from_le) in H. by rewrite !from_to_le in H by lia.
Qed.

Lemma strip_prefix_some prefix s rest : strip_prefix prefix s = Some rest ↔ s = prefix ++ rest.
Proof.
  revert s. induction prefix as [|a prefix IH]; intros s; cbn; [split; congruence|].
  destruct s as [|b s]; [done|]. case_bool_decide as E; [subst; rewrite IH; split; congruence|]. split; congruence.
Qed.

(** The socket of an endpoint is named after the components of its root and the digest of its
    server identity. *)
Lemma context_endpoint sha256 uid root address c e :
  with_unix_root sha256 uid root = Ok c → endpoint sha256 c address = Ok e →
  ∃ id, address = text "ipc://" ++ id ∧ validate_server_id id = Ok tt
    ∧ c = LocalEndpointContext_new sha256 (UnixManaged (collect (components root)) uid)
    ∧ ep_os_name e = collect (components root ++ [endpoint_identity sha256 id]).
Proof.
  unfold with_unix_root. rewrite bind_ok. intros (r & [_ ->]%validate_root_ok & [= <-]) He.
  unfold endpoint in He. apply bind_ok in He as (id & Ha & He). apply bind_ok in He as (name & Hd & [= <-]).
  unfold validate_address in Ha. destruct (strip_prefix _ _) as [id'|] eqn:Es; [|done]. apply strip_prefix_some in Es.
  apply bind_ok in Ha as ([] & Hv%map_err_ok & [= <-]). exists id'. split_and!; [done..|]. cbn [ep_os_name derive_os_name platform LocalEndpointContext_new] in Hd |- *.
  injection Hd as <-. apply path_join_collect, components_plain.
Qed.

Lemma filter_join_length (P : str → Prop) `{!∀ x, Decision (P x)} cs :
  blen (join_components (filter P cs)) <= blen (join_components cs).
Proof.
  assert (Hj : ∀ c l, blen (join_components (c :: l)) = blen c + match l with [] => 0 | _ => 1 + blen (join_components l) end).
  { intros c [|x l]; [cbn [join_components]; lia|]. rewrite join_cons, !blen_app by done. change (blen (text "/")) with 1. lia. }
  induction cs as [|c cs IH]; [done|]. rewrite filter_cons. pose proof (blen_nonneg c). pose proof (blen_nonneg (join_components cs)).
  destruct (decide (P c)).
  - rewrite !Hj. revert IH. destruct (filter P cs) eqn:E, cs; intros IH; [lia..|done|lia].
  - rewrite Hj. destruct cs; [|lia]. change (blen (join_components (filter P []))) with 0. lia.
Qed.

Lemma collect_length root : blen (collect (components root)) <= 1 + blen root.
Proof.
  unfold collect, components. rewrite blen_app. change (blen (text "/")) with 1.
  pose proof (filter_join_length (fun c => c ≠ [] ∧ c ≠ text ".") (split_on ch_slash root)) as H.
  rewrite (proj1 (split_join root)) in H. lia.
Qed.

(** C35 Endpoints are separate: two endpoints have the same socket path exactly when their roots
    have the same components and the digests of their server identities agree on the bytes
    that name a socket; and two namespaces have the same identifier exactly when the digest
    is the same of inputs that are the same only for the same root and user. *)
Theorem endpoints_separate (sha256 : bytes → bytes) (u1 u2 : Z) (root1 root2 a1 a2 : str) c1 c2 e1 e2 :
  (∀ m, length (sha256 m) = 32%nat) → 0 <= u1 < 2 ^ 32 → 0 <= u2 < 2 ^ 32 →
  blen root1 < 2 ^ 63 → blen root2 < 2 ^ 63 →
  with_unix_root sha256 u1 root1 = Ok c1 → with_unix_root sha256 u2 root2 = Ok c2 →
  endpoint sha256 c1 a1 = Ok e1 → endpoint sha256 c2 a2 = Ok e2 →
  ∃ id1 id2, a1 = text "ipc://" ++ id1 ∧ a2 = text "ipc://" ++ id2 ∧ validate_server_id id1 = Ok tt ∧ validate_server_id id2 = Ok tt
  ∧ (ep_os_name e1 = ep_os_name e2 ↔ components root1 = components root2 ∧ take 16 (sha256 id1) = take 16 (sha256 id2))
  ∧ (namespace_id c1 = namespace_id c2 ↔
     sha256 (namespace_preimage (platform c1)) = sha256 (namespace_preimage (platform c2)))
  ∧ (namespace_preimage (platform c1) = namespace_preimage (platform c2) ↔ components root1 = components root2 ∧ u1 = u2).
Proof.
  intros Hs Hu1 Hu2 Hl1 Hl2 Hc1 Hc2 He1 He2.
  destruct (context_endpoint sha256 u1 root1 a1 c1 e1 Hc1 He1) as (id1 & -> & Hv1 & -> & Hn1).
  destruct (context_endpoint sha256 u2 root2 a2 c2 e2 Hc2 He2) as (id2 & -> & Hv2 & -> & Hn2).
  exists id1, id2. split_and!; [done..| | |].
  - rewrite Hn1, Hn2. split.
    + intros H. apply collect_inj in H; [|by apply Forall_app; split; [apply components_plain|apply Forall_singleton, identity_plain]..].
      apply app_inj_2 in H as [H H']; [|done]. injection H' as H'. by apply hex_inj in H'.
    + intros [-> H]. unfold endpoint_identity. by rewrite H.
  - cbn. split; [apply hex_inj|]. unfold compute_namespace_id. by intros ->.
  - cbn [platform LocalEndpointContext_new]. split; [|by intros [-> ->]]. intros H.
    pose proof (collect_length root1). pose proof (collect_length root2).
    apply preimage_unix_inj in H as [H ->]; [|lia..]. split; [|done]. apply collect_inj in H; [done|apply components_plain..].
Qed.

(** A digest for the witness: the front of its input. *)
Definition sample_sha (m : bytes) : bytes := take 32 (m ++ replicate 32 Byte.x00).
Lemma sample_sha_length m : length (sample_sha m) = 32%nat.
Proof. unfold sample_sha. rewrite length_take, length_app, length_replicate. lia. Qed.

Definition context_of (r : res RootError LocalEndpointContext) : LocalEndpointContext :=
  match r with Ok c => c | _ => LocalEndpointContext_new sample_sha (WindowsNamedPipe []) end.
Definition endpoint_of (c : LocalEndpointContext) (r : res EndpointError LocalEndpoint) : LocalEndpoint :=
  match r with Ok e => e | _ => {| ep_address := []; ep_os_name := []; ep_context := c |} end.

Lemma endpoints_separate_witness :
  let c1 := context_of (with_unix_root sample_sha 7 (text "/a//b/./")) in
  let c2 := context_of (with_unix_root sample_sha 7 (text "/a/b")) in
  let e1 := endpoint_of c1 (endpoint sample_sha c1 (text "ipc://x")) in
  let e2 := endpoint_of c2 (endpoint sample_sha c2 (text "ipc://x")) in
  ep_os_name e1 = ep_os_name e2 ∧ ep_os_name e1 = text "/a/b/78000000000000000000000000000000".
Proof.
  intros c1 c2 e1 e2. split; [|vm_compute; reflexivity].
  destruct (endpoints_separate sample_sha 7 7 (text "/a//b/./") (text "/a/b") (text "ipc://x") (text "ipc://x") c1 c2 e1 e2)
    as (id1 & id2 & H1 & H2 & _ & _ & [_ H] & _);
    [apply sample_sha_length|lia|lia|reflexivity|reflexivity|vm_compute; reflexivity..|].
  apply H. split; [vm_compute; reflexivity|]. assert (id1 = id2) as -> by (eapply app_inv_head; by rewrite <-H1). reflexivity.
Defined.

(** *** The default directory *)

Lemma hex_digits_ascii fuel n : 0 <= n → Forall (fun b => 48 <= u8 b <= 57 ∨ 97 <= u8 b <= 102) (hex_digits fuel n).
Proof.
  revert n. induction fuel as [|fuel IH]; intros n Hn; cbn [hex_digits]; [constructor|]. apply Forall_app. split.
  - destruct (n <? 16); [constructor|]. apply IH, Z.div_pos; lia.
  - apply Forall_singleton, hex_digit_range, Z.mod_pos_bound. lia.
Qed.

Lemma hex_digits_inj fuel n m :
  0 <= n < 16 ^ Z.of_nat fuel → 0 <= m < 16 ^ Z.of_nat fuel → hex_digits fuel n = hex_digits fuel m → n = m.
Proof.
  revert n m. induction fuel as [|fuel IH]; intros n m Hn Hm; [cbn in *; lia|]. cbn [hex_digits].
  replace (16 ^ Z.of_nat (S fuel)) with (16 * 16 ^ Z.of_nat fuel) in * by (rewrite Nat2Z.inj_succ, Z.pow_succ_r by lia; done).
  intros [H Hd]%app_inj_2; [|done]. injection Hd as Hd. apply hex_digit_inj in Hd; [|apply Z.mod_pos_bound; lia..].
  assert (Hq : n / 16 = m / 16); [|rewrite (Z.div_mod n 16), (Z.div_mod m 16) by lia; congruence].
  assert (∀ k, 0 <= k < 16 * 16 ^ Z.of_nat fuel → 0 <= k / 16 < 16 ^ Z.of_nat fuel) as Hb.
  { intros k Hk. split; [apply Z.div_pos; lia|apply Z.div_lt_upper_bound; lia]. }
  assert (∀ k, 16 <= k → k < 16 * 16 ^ Z.of_nat fuel → hex_digits fuel (k / 16) ≠ []) as Hne.
  { intros k Hk Hlt. destruct fuel; [cbn in Hlt; lia|]. cbn [hex_digits]. by intros [_ ?]%app_eq_nil. }
  destruct (Z.ltb_spec n 16), (Z.ltb_spec m 16).
  - rewrite !Z.div_small by lia. done.
  - exfalso. apply (Hne m); [lia..|done].
  - exfalso. apply (Hne n); [lia..|done].
  - by apply IH; [apply Hb..|].
Qed.

Definition default_root (uid : Z) : str := collect [text "tmp"; text "c2-v3-" ++ hex_u32 uid].

Lemma default_root_plain uid : 0 <= uid → Forall plain [text "tmp"; text "c2-v3-" ++ hex_u32 uid].
Proof.
  intros Hu. assert (Ht : no_slash (text "tmp")) by (refine (bool_decide_unpack _ _); vm_compute; exact I).
  assert (Hc : no_slash (text "c2-v3-")) by (refine (bool_decide_unpack _ _); vm_compute; exact I).
  apply Forall_cons. split; [done|]. apply Forall_singleton. split; [|done]. apply Forall_app. split; [done|].
  eapply Forall_impl; [by apply hex_digits_ascii|]. unfold ch_slash. cbn. intros. lia.
Qed.

(** A process always has a default namespace, under a directory of its own user: the
    defaults of two users never coincide. *)
Theorem default_context_exact (sha256 : bytes → bytes) (uid other : Z) :
  0 <= uid < 2 ^ 32 → 0 <= other < 2 ^ 32 →
  default_for_platform sha256 uid = Ok (LocalEndpointContext_new sha256 (UnixManaged (default_root uid) uid))
  ∧ (default_root uid = default_root other ↔ uid = other).
Proof.
  intros Hu Ho. split.
  - unfold default_for_platform, with_unix_root.
    change (text "/tmp/c2-v" ++ decimal UNIX_NAMESPACE_FORMAT_VERSION ++ text "-" ++ hex_u32 uid) with (default_root uid).
    assert (validate_unix_root (default_root uid) = Ok (default_root uid)) as ->; [|done].
    pose proof (components_collect _ (default_root_plain uid ltac:(lia))) as Hc. apply validate_root_ok. fold (default_root uid) in Hc.
    assert (Ha : Forall (fun b => 0 < u8 b < 128) (default_root uid)).
    { change (default_root uid) with (text "/tmp/c2-v3-" ++ hex_u32 uid). apply Forall_app. split; [refine (bool_decide_unpack _ _); vm_compute; exact I|].
      eapply Forall_impl; [apply hex_digits_ascii; lia|]. cbn. intros. lia. }
    rewrite Hc. split; [|done]. split_and!; [|apply valid_encode|done|].
    + eapply Forall_impl; [exact Ha|]. cbn. intros. lia.
    + destruct (ascii_chars (default_root uid)) as [He Hs]; [eapply Forall_impl; [exact Ha|]; cbn; intros; lia|].
      exists (u8 <$> default_root uid). by rewrite He.
    + rewrite Hc. by intros [E|[E|E%elem_of_nil]%elem_of_cons]%elem_of_cons.
  - split; [|by intros ->]. intros H. apply collect_inj in H; [|apply default_root_plain; lia..]. injection H as H.
    by apply hex_digits_inj in H.
Qed.

Lemma default_context_witness : default_root 1000 = text "/tmp/c2-v3-3e8" ∧ default_root 1000 ≠ default_root 0.
Proof.
  split; [vm_compute; reflexivity|]. destruct (default_context_exact sample_sha 1000 0) as [_ [H _]]; [lia..|].
  intros E. discriminate (H E).
Defined.
