(* ===== verification/PoolInv.v ===== *)
(** The invariant of an owner pool against the handles that are live and the budget
    charges of others, and its preservation by each step of the pool's operations. *)

From S2P Require Import Prelude.
From S2P Require Import BuddyTree.
From S2P Require Import Buddy.
From S2P Require Import Budget.
From S2P Require Import Float64.
From S2P Require Import Pressure.
From S2P Require Import Pool.

(** ** What the live handles hold *)

(** The buddy allocation a handle holds in segment [i]. *)
Definition buddy_at (i : nat) (h : MemHandle) : option Allocation :=
  match h with
  | Shm a _ _ =>
      if negb (is_dedicated a) && (seg_idx a =? Z.of_nat i)
      then Some {| offset := pa_offset a; actual_size := pa_actual_size a; level := pa_level a |}
      else None
  | FileSpill _ _ => None
  end.
(** The dedicated allocation a handle holds in slot [k]. *)
Definition slot_at (k : Z) (h : MemHandle) : option PoolAllocation :=
  match h with
  | Shm a _ _ => if is_dedicated a && (seg_idx a =? k) then Some a else None
  | FileSpill _ _ => None
  end.
Definition on_segment (i : nat) (live : list MemHandle) : list Allocation := omap (buddy_at i) live.
Definition on_slot (k : Z) (live : list MemHandle) : list PoolAllocation := omap (slot_at k) live.
#[global] Arguments on_segment _ _ : simpl never.
#[global] Arguments on_slot _ _ : simpl never.
Definition file_at (h : MemHandle) : Z := match h with FileSpill m _ => blen (sm_mem m) | Shm _ _ _ => 0 end.

Definition seg_number (segs : list (option BuddySegment)) : Z := Z.of_nat (length (omap id segs)).
Definition ded_bytes (d : gmap Z DedicatedEntry) : Z :=
  sum_over (fun e => ds_size (de_segment e.2)) (map_to_list d).
Definition file_bytes (live : list MemHandle) : Z := sum_over file_at live.

(** ** The invariant *)

Section inv.
Context (L m : nat).

(** Bytes of one segment. *)
Definition span : Z := pow (L + m).

Record geometry (c : PoolConfig) : Prop := {
  g_valid : validate_config c = Ok tt;
  g_min : min_block_size c = pow m;
  g_layout : checked_layout (segment_size c) (min_block_size c)
             = Some {| bl_data_size := span; bl_total_size := span |};
  g_width : (L + m <= 31)%nat;
  g_max : max_segments c <= U16_MAX + 1;
  g_dedicated : max_dedicated_segments c <= U16_MAX + 1;
  g_retained : 0 <= min_retained_segments c <= max_segments c }.

(** A mapped segment that holds the allocations [xs]. *)
Definition seg_ok (s : BuddySegment) (xs : list Allocation) : Prop :=
  ∃ A, ba_inv L m (bs_alloc s) A ∧ xs ≡ₚ (block_alloc L m <$> A)
    ∧ blen (bs_mem s) = span ∧ bs_guard s = {| br_kind := KShm; br_bytes := span |}.

(** The generation of the slot of every live buddy allocation. *)
Definition gen_live (gens : list Z) (live : list MemHandle) : Prop :=
  ∀ a o n, Shm a o n ∈ live → is_dedicated a = false →
    0 <= seg_idx a ∧ 0 < generation a ∧ gens !! Z.to_nat (seg_idx a) = Some (generation a).

Definition slot_holds (so : option BuddySegment) (xs : list Allocation) : Prop :=
  match so with Some s => seg_ok s xs | None => xs = [] end.

Record buddy_inv (segs : list (option BuddySegment)) (gens : list Z) (idle : list (option Z))
    (live : list MemHandle) : Prop := {
  bi_idle : length idle = length segs;
  bi_gens : (length segs <= length gens)%nat;
  bi_max : blen segs <= U16_MAX + 1;
  bi_range : Forall (fun g => 0 <= g <= U32_MAX) gens;
  bi_pos i s : mjoin (segs !! i) = Some s → ∃ g, gens !! i = Some g ∧ 0 < g;
  bi_seg i : slot_holds (mjoin (segs !! i)) (on_segment i live);
  bi_live : gen_live gens live }.

Definition entry_ok (k : Z) (dgens : list Z) (live : list MemHandle) (e : DedicatedEntry) : Prop :=
  0 <= k <= U16_MAX ∧ ds_guard (de_segment e) = {| br_kind := KShm; br_bytes := ds_size (de_segment e) |}
  ∧ 0 < de_generation e ∧ dgens !! Z.to_nat k = Some (de_generation e)
  ∧ ∃ a, on_slot k live = [a] ∧ generation a = de_generation e ∧ pa_offset a = 0
         ∧ pa_actual_size a = ds_size (de_segment e).

Record ded_inv (d : gmap Z DedicatedEntry) (dgens : list Z) (live : list MemHandle) : Prop := {
  di_range : Forall (fun g => 0 <= g <= U32_MAX) dgens;
  di_slot k : match d !! k with Some e => entry_ok k dgens live e | None => on_slot k live = [] end }.

Definition handle_ok (inc : Z) (h : MemHandle) : Prop :=
  match h with
  | Shm a o n => o = inc ∧ 0 <= n <= pa_actual_size a
  | FileSpill s n => 0 <= n <= blen (sm_mem s)
                     ∧ sm_guard s = {| br_kind := KFile; br_bytes := blen (sm_mem s) |}
  end.

(** The bytes charged to each cell: the pool's own and those of others. *)
Definition own_bytes (p : MemPool) (live : list MemHandle) (k : BudgetKind) : Z :=
  match k with
  | KShm => seg_number (segments p) * span + ded_bytes (dedicated p)
  | KFile => file_bytes live
  | KReassembly => 0
  end.

Definition budget_ok (b : option BudgetCells) (own extra : BudgetKind → Z) : Prop :=
  ∃ cells, b = Some cells
    ∧ ∀ k, 0 <= extra k ∧ used_bytes (get_cell cells k) = own k + extra k
           ∧ used_bytes (get_cell cells k) <= limit_bytes (get_cell cells k).

Record pool_inv (p : MemPool) (live : list MemHandle) (extra : BudgetKind → Z) : Prop := {
  pi_peer : is_peer p = false;
  pi_config : geometry (config p);
  pi_buddy : buddy_inv (segments p) (generations p) (idle_since p) live;
  pi_dedicated : ded_inv (dedicated p) (dedicated_generations p) live;
  pi_handles : Forall (handle_ok (incarnation p)) live;
  pi_budget : budget_ok (budget p) (own_bytes p live) extra }.

(** ** Lists of handles *)

Lemma on_segment_cons i h live :
  on_segment i (h :: live)
  = match buddy_at i h with Some x => x :: on_segment i live | None => on_segment i live end.
Proof. done. Qed.

Lemma on_slot_cons k h live :
  on_slot k (h :: live) = match slot_at k h with Some x => x :: on_slot k live | None => on_slot k live end.
Proof. done. Qed.

Lemma on_segment_perm i live live' : live ≡ₚ live' → on_segment i live ≡ₚ on_segment i live'.
Proof. intros H. unfold on_segment. by rewrite H. Qed.

Lemma on_slot_perm k live live' : live ≡ₚ live' → on_slot k live ≡ₚ on_slot k live'.
Proof. intros H. unfold on_slot. by rewrite H. Qed.

Lemma seg_ok_perm s xs ys : xs ≡ₚ ys → seg_ok s xs → seg_ok s ys.
Proof. intros Hp (A & ? & Hx & ?). exists A. by rewrite <-Hp. Qed.

Lemma slot_holds_perm so xs ys : xs ≡ₚ ys → slot_holds so xs → slot_holds so ys.
Proof.
  intros Hp. destruct so as [s|]; simpl; [by apply seg_ok_perm|].
  intros ->. by apply Permutation_nil_l in Hp.
Qed.

Lemma gen_live_perm gens live live' : live ≡ₚ live' → gen_live gens live → gen_live gens live'.
Proof. intros Hp H a o n Hin. apply (H a o n). by rewrite Hp. Qed.

Lemma buddy_inv_perm segs gens idle live live' :
  live ≡ₚ live' → buddy_inv segs gens idle live → buddy_inv segs gens idle live'.
Proof.
  intros Hp []. split; try done.
  - intros i. eapply slot_holds_perm; [by apply on_segment_perm|done].
  - by eapply gen_live_perm.
Qed.

Lemma ded_inv_perm d dgens live live' : live ≡ₚ live' → ded_inv d dgens live → ded_inv d dgens live'.
Proof.
  intros Hp [Hr Hs]. split; [done|]. intros k. specialize (Hs k). pose proof (on_slot_perm k _ _ Hp) as Hk.
  destruct (d !! k) as [e|].
  - destruct Hs as (? & ? & ? & ? & a & Ha & ?). rewrite Ha in Hk. apply Permutation_singleton_l in Hk.
    split_and!; try done; try lia. by exists a.
  - rewrite Hs in Hk. by apply Permutation_nil_l in Hk.
Qed.

Lemma pool_inv_perm p live live' extra : live ≡ₚ live' → pool_inv p live extra → pool_inv p live' extra.
Proof.
  intros Hp []. split; try done.
  - by eapply buddy_inv_perm.
  - by eapply ded_inv_perm.
  - by rewrite <-Hp.
  - destruct pi_budget0 as (cells & Hb & Hk). exists cells. split; [done|]. intros k.
    unfold own_bytes, file_bytes in *. rewrite <-(sum_over_perm file_at _ _ Hp). apply Hk.
Qed.

(** ** Updating one segment slot *)

Lemma buddy_inv_update segs gens idle live segs' gens' idle' live' i so :
  buddy_inv segs gens idle live →
  length idle' = length segs' → (length segs' <= length gens')%nat → blen segs' <= U16_MAX + 1 →
  Forall (fun g => 0 <= g <= U32_MAX) gens' →
  (∀ j, mjoin (segs' !! j) = if decide (j = i) then so else mjoin (segs !! j)) →
  (∀ j g, gens !! j = Some g → j ≠ i → gens' !! j = Some g) →
  (is_Some so → ∃ g, gens' !! i = Some g ∧ 0 < g) →
  slot_holds so (on_segment i live') →
  (∀ j, j ≠ i → on_segment j live' ≡ₚ on_segment j live) →
  gen_live gens' live' →
  buddy_inv segs' gens' idle' live'.
Proof.
  intros [Hid Hge Hmx Hrg Hps Hsg Hlv] ? ? ? ? Hsegs Hgens Hi Hso Hj ?. split; try done.
  - intros j s. rewrite Hsegs. case_decide as Hd; [subst j; intros ->; by apply Hi|].
    intros (g & Hg & Hpos)%Hps. exists g. split; [by apply Hgens|done].
  - intros j. rewrite Hsegs. case_decide as Hd; [by subst j|].
    eapply slot_holds_perm; [symmetry; by apply Hj|apply Hsg].
Qed.

(** Replacing an installed segment; the slot stays mapped or is unmapped. *)
Lemma buddy_inv_replace segs gens idle live idle' live' i s so :
  buddy_inv segs gens idle live → mjoin (segs !! i) = Some s → length idle' = length idle →
  slot_holds so (on_segment i live') → (∀ j, j ≠ i → on_segment j live' ≡ₚ on_segment j live) →
  gen_live gens live' →
  buddy_inv (<[i := so]> segs) gens idle' live'.
Proof.
  intros HI Hs Hid Hso Hj Hlv. pose proof HI as [Hi0 ? ? ? Hps _ _].
  assert (i < length segs)%nat as Hlt.
  { apply lookup_lt_is_Some. destruct (segs !! i); [by eexists|done]. }
  apply (buddy_inv_update segs gens idle live _ _ _ _ i so); rewrite ?length_insert; try done; try lia.
  - unfold blen in *. by rewrite length_insert.
  - intros j. case_decide as Hd; [subst j; by rewrite list_lookup_insert_eq by done|].
    by rewrite list_lookup_insert_ne by done.
  - intros _. by eapply Hps.
Qed.

Lemma index_nat {E A} (l : list A) i x : l !! i = Some x → index (E:=E) l (Z.of_nat i) = Ok x.
Proof.
  intros Hi. pose proof (lookup_lt_Some _ _ _ Hi). unfold index, blen. rewrite Nat2Z.id, Hi.
  destruct (_ && _) eqn:Hb; [done|lia].
Qed.

(** ** Slots *)

Lemma free_slot_spec lv gens limit idx gen :
  free_slot lv gens limit = Some (idx, gen) →
  Z.of_nat idx < limit ∧ lv idx = false ∧ gen = default 0 (gens !! idx) + 1 ∧ gen <= U32_MAX.
Proof.
  unfold free_slot. intros Hh. apply head_Some_elem_of, list_elem_of_omap in Hh as (i & Hi & Hf).
  apply elem_of_seq in Hi. destruct (lv i) eqn:Hl; [done|]. unfold checked_add in Hf.
  destruct (Z.leb_spec (default 0 (gens !! i) + 1) U32_MAX); [|done].
  simpl in Hf. injection Hf as <- <-. split_and!; [lia|done..].
Qed.

Lemma length_grow {A} n (d : A) l : length (grow n d l) = Nat.max n (length l).
Proof. unfold grow. rewrite length_app, length_replicate. lia. Qed.

Lemma grow_lookup {A} n (d : A) l j x : l !! j = Some x → grow n d l !! j = Some x.
Proof. apply lookup_app_l_Some. Qed.

Lemma grow_none (segs : list (option BuddySegment)) n j : mjoin (grow n None segs !! j) = mjoin (segs !! j).
Proof.
  unfold grow. destruct (decide (j < length segs)%nat).
  - by rewrite lookup_app_l by done.
  - rewrite lookup_app_r, (lookup_ge_None_2 segs) by lia. simpl.
    destruct (replicate _ _ !! _) as [[]|] eqn:E; try done. by apply lookup_replicate in E as [? _].
Qed.

Lemma seg_number_grow n segs : seg_number (grow n None segs) = seg_number segs.
Proof.
  unfold seg_number, grow. rewrite omap_app, length_app.
  assert (∀ k, omap id (replicate k (@None BuddySegment)) = []) as -> by (intros k; by induction k).
  simpl. lia.
Qed.

Definition one {A} (o : option A) : Z := if o is Some _ then 1 else 0.

Lemma seg_number_insert segs i so :
  (i < length segs)%nat →
  seg_number (<[i := so]> segs) = seg_number segs - one (mjoin (segs !! i)) + one so.
Proof.
  intros Hi. destruct (lookup_lt_is_Some_2 segs i Hi) as [x Hx]. rewrite Hx. unfold seg_number.
  rewrite insert_take_drop by done.
  replace (length (omap id segs)) with (length (omap id (take i segs ++ x :: drop (S i) segs)))
    by (by rewrite take_drop_middle).
  rewrite !omap_app, !length_app. destruct so, x; cbn; lia.
Qed.

Lemma range_insert gens i g :
  Forall (fun g => 0 <= g <= U32_MAX) gens → 0 <= g <= U32_MAX →
  Forall (fun g => 0 <= g <= U32_MAX) (<[i := g]> (grow (S i) 0 gens)).
Proof.
  intros Hg Hr. apply Forall_insert; [|done]. unfold grow. apply Forall_app. split; [done|].
  apply Forall_replicate. unfold U32_MAX. lia.
Qed.

Lemma default_range (gens : list Z) i :
  Forall (fun g => 0 <= g <= U32_MAX) gens → 0 <= default 0 (gens !! i).
Proof.
  intros Hg. destruct (gens !! i) as [g|] eqn:Hi; simpl; [|lia].
  rewrite Forall_lookup in Hg. destruct (Hg i g Hi). lia.
Qed.

Lemma gens_insert gens i g j : gens !! j = Some g → j ≠ i → ∀ v, <[i := v]> (grow (S i) 0 gens) !! j = Some g.
Proof. intros Hj Hne v. rewrite list_lookup_insert_ne by done. by apply grow_lookup. Qed.

Lemma gens_here gens i v : <[i := v]> (grow (S i) 0 gens) !! i = Some v.
Proof. apply list_lookup_insert_eq. rewrite length_grow. lia. Qed.

Lemma gens_advance gens idx gen i :
  default 0 (gens !! idx) <= gen →
  default 0 (gens !! i) <= default 0 (<[idx := gen]> (grow (S idx) 0 gens) !! i).
Proof.
  intros Hg. destruct (decide (i = idx)) as [->|Hne]; [by rewrite gens_here|].
  rewrite list_lookup_insert_ne by done. unfold grow.
  destruct (gens !! i) as [v|] eqn:Hv; [by rewrite (lookup_app_l_Some _ _ _ _ Hv)|].
  rewrite lookup_app_r by (by apply lookup_ge_None). simpl.
  destruct (replicate _ 0 !! _) as [v|] eqn:E; [by apply lookup_replicate in E as [-> _]|done].
Qed.

(** ** Budget *)

Lemma budget_ok_shift b own own' extra extra' :
  budget_ok b own extra → (∀ k, 0 <= extra' k) → (∀ k, own' k + extra' k = own k + extra k) →
  budget_ok b own' extra'.
Proof.
  intros (cells & -> & Hk) Hx Ho. exists cells. split; [done|]. intros k.
  destruct (Hk k) as (? & -> & ?). specialize (Hx k). specialize (Ho k). lia.
Qed.

Lemma upd_eq f k v : upd f k v k = v.
Proof. unfold upd. by rewrite decide_True. Qed.
Lemma upd_ne f k v j : j ≠ k → upd f k v j = f j.
Proof. intros. unfold upd. by rewrite decide_False. Qed.

Lemma pool_inv_cells p live extra cells extra' :
  pool_inv p live extra → budget_ok (Some cells) (own_bytes p live) extra' →
  pool_inv (set_cells p cells) live extra'.
Proof. by intros [] Hb; split. Qed.

Lemma inv_reserve p live extra k n :
  pool_inv p live extra → 0 <= n →
  ∃ cells r, reserve_backing p k n = Ok (set_cells p cells, r)
    ∧ match r with
      | inl g => g = {| br_kind := k; br_bytes := n |}
                 ∧ pool_inv (set_cells p cells) live (upd extra k (extra k + n))
      | inr _ => pool_inv (set_cells p cells) live extra
      end.
Proof.
  intros HI Hn. destruct (pi_budget _ _ _ HI) as (cells & Hb & Hk).
  unfold reserve_backing. rewrite Hb. simpl. pose proof (reserve_used cells k n) as Hr.
  destruct (reserve cells k n) as [cells' r]. destruct Hr as [Hlim Hr].
  destruct r as [g|e|]; [| |done].
  - destruct Hr as (-> & Hu & Hle & Hne). exists cells', (inl {| br_kind := k; br_bytes := n |}). split; [done|]. split; [done|].
    eapply pool_inv_cells; [done|]. exists cells'. split; [done|]. intros j. rewrite Hlim.
    destruct (Hk j) as (? & Hj & ?). destruct (decide (j = k)) as [->|Hd].
    + rewrite upd_eq. lia.
    + rewrite upd_ne, Hne by done. done.
  - exists cells', (inr e). split; [done|]. eapply pool_inv_cells; [done|].
    exists cells'. split; [done|]. intros j. rewrite Hr, Hlim. apply Hk.
Qed.

(** Returning a charge that [extra] or the pool's own bytes account for. *)
Lemma drop_guard_ok p own extra k n :
  budget_ok (budget p) own extra → 0 <= n <= own k + extra k →
  ∃ cells, drop_guard p {| br_kind := k; br_bytes := n |} = Ok (set_cells p cells)
    ∧ ∀ own' extra', (∀ j, 0 <= extra' j) →
        (∀ j, own' j + extra' j = own j + extra j - if decide (j = k) then n else 0) →
        budget_ok (Some cells) own' extra'.
Proof.
  intros (cells & Hb & Hk) Hn. unfold drop_guard, drop_reservation, release, checked_sub. rewrite Hb. simpl.
  destruct (Hk k) as (? & Hu & ?). rewrite Hu, (proj2 (Z.leb_le _ _)) by lia. simpl.
  eexists. split; [done|]. intros own' extra' Hx Ho. eexists. split; [done|]. intros j.
  rewrite get_set_cell. specialize (Hx j). specialize (Ho j). destruct (Hk j) as (? & ? & ?).
  case_decide; subst; simpl; lia.
Qed.

Lemma inv_drop_extra p live extra k n :
  pool_inv p live (upd extra k (extra k + n)) → 0 <= n → (∀ j, 0 <= extra j) →
  ∃ cells, drop_guard p {| br_kind := k; br_bytes := n |} = Ok (set_cells p cells)
    ∧ pool_inv (set_cells p cells) live extra.
Proof.
  intros HI Hn Hx.
  assert (0 <= own_bytes p live k) as Ho.
  { unfold own_bytes, ded_bytes, file_bytes, seg_number. pose proof (pow_pos (L + m)). fold span in *.
    destruct k; [|apply sum_over_nonneg; intros []; unfold file_at; pose proof (blen_nonneg (A:=byte)); eauto; lia|lia].
    assert (0 <= sum_over (fun e : Z * DedicatedEntry => ds_size (de_segment e.2)) (map_to_list (dedicated p)));
      [|nia]. apply sum_over_nonneg. intros. apply blen_nonneg. }
  destruct (drop_guard_ok p (own_bytes p live) (upd extra k (extra k + n)) k n (pi_budget _ _ _ HI)) as (cells & Hd & Hb).
  { rewrite upd_eq. specialize (Hx k). lia. }
  exists cells. split; [done|]. eapply pool_inv_cells; [done|]. apply Hb; [done|]. intros j.
  unfold upd. case_decide; subst; lia.
Qed.

(** ** What a step keeps *)

(** The mapped bytes an allocation lies in. *)
Definition view (p : MemPool) (a : PoolAllocation) : option bytes :=
  if is_dedicated a then (fun e => ds_mem (de_segment e)) <$> dedicated p !! seg_idx a
  else bs_mem <$> segment p (Z.to_nat (seg_idx a)).

(** Generation [g] of a slot is over and will not come back. *)
Definition retired (p : MemPool) (ded : bool) (k g : Z) : Prop :=
  if ded then g <= default 0 (dedicated_generations p !! Z.to_nat k)
              ∧ (de_generation <$> dedicated p !! k) ≠ Some g
  else g <= default 0 (generations p !! Z.to_nat k) ∧ segment_generation p (Z.to_nat k) ≠ Some g.

(** The newest generation a slot has had. *)
Definition latest (p : MemPool) (ded : bool) (k : Z) : Z :=
  if ded then default 0 (dedicated_generations p !! Z.to_nat k)
  else default 0 (generations p !! Z.to_nat k).

Record keeps (live : list MemHandle) (p p' : MemPool) : Prop := {
  k_config : config p' = config p;
  k_incarnation : incarnation p' = incarnation p;
  k_view a o n : Shm a o n ∈ live → view p' a = view p a;
  k_latest ded k : latest p ded k <= latest p' ded k;
  k_retired ded k g : retired p ded k g → retired p' ded k g }.

Lemma keeps_refl live p : keeps live p p.
Proof. by split. Qed.

Lemma keeps_trans live p1 p2 p3 : keeps live p1 p2 → keeps live p2 p3 → keeps live p1 p3.
Proof.
  intros [] []. split; intros; try congruence; eauto; [by erewrite k_view1, k_view0 by done|].
  etrans; [apply k_latest0|apply k_latest1].
Qed.

Lemma keeps_perm live live' p p' : live ≡ₚ live' → keeps live p p' → keeps live' p p'.
Proof. intros Hp []. split; try done. intros a o n Hin. eapply k_view0. by rewrite Hp. Qed.

Lemma keeps_incl live live' p p' : (∀ h, h ∈ live' → h ∈ live) → keeps live p p' → keeps live' p p'.
Proof. intros Hp []. split; try done. intros a o n Hin. eapply k_view0. by apply Hp. Qed.

(** Steps that touch neither memory nor identity. *)
Lemma keeps_same live p p' :
  config p' = config p → incarnation p' = incarnation p → segments p' = segments p →
  generations p' = generations p → dedicated p' = dedicated p →
  dedicated_generations p' = dedicated_generations p → keeps live p p'.
Proof.
  intros Hc Hi Hs Hg Hd Hdg. split; try done.
  - intros a o n _. unfold view, segment. by rewrite Hs, Hd.
  - intros ded k. unfold latest. by rewrite Hg, Hdg.
  - intros ded k g. unfold retired, segment_generation, segment. by rewrite Hs, Hg, Hd, Hdg.
Qed.

Lemma pool_inv_same p p' live extra :
  pool_inv p live extra → is_peer p' = is_peer p → config p' = config p → incarnation p' = incarnation p →
  segments p' = segments p → generations p' = generations p → dedicated p' = dedicated p →
  dedicated_generations p' = dedicated_generations p → length (idle_since p') = length (idle_since p) →
  budget p' = budget p → pool_inv p' live extra.
Proof.
  intros [Hp Hc [] Hd Hh Hb] Hp' Hc' Hi Hs Hg Hd' Hdg Hid Hb'. split.
  - congruence.
  - congruence.
  - rewrite Hs, Hg. split; try done. congruence.
  - by rewrite Hd', Hdg.
  - by rewrite Hi.
  - rewrite Hb'. unfold own_bytes in *. by rewrite Hs, Hd'.
Qed.

Lemma on_segment_elem a o n live :
  Shm a o n ∈ live → is_dedicated a = false → 0 <= seg_idx a →
  {| offset := pa_offset a; actual_size := pa_actual_size a; level := pa_level a |}
    ∈ on_segment (Z.to_nat (seg_idx a)) live.
Proof.
  intros Hin Hd Hk. apply list_elem_of_omap. exists (Shm a o n). split; [done|]. simpl.
  rewrite Hd, Z2Nat.id by lia. by rewrite Z.eqb_refl.
Qed.

(** Changing segment slot [i], whose memory stays or is not in use. *)
Lemma view_segment p p' gens idle live i so :
  buddy_inv (segments p) gens idle live → dedicated p' = dedicated p →
  (∀ j, segment p' j = if decide (j = i) then so else segment p j) →
  bs_mem <$> so = bs_mem <$> segment p i ∨ on_segment i live = [] →
  ∀ a o n, Shm a o n ∈ live → view p' a = view p a.
Proof.
  intros HI Hd Hs Hor a o n Hin. unfold view. destruct (is_dedicated a) eqn:Ha; [by rewrite Hd|].
  rewrite Hs. case_decide as Hi; [|done]. destruct Hor as [->|Hnil]; [by rewrite Hi|].
  destruct (bi_live _ _ _ _ HI _ _ _ Hin Ha) as (Hk & _). pose proof (on_segment_elem _ _ _ _ Hin Ha Hk) as He.
  rewrite Hi, Hnil in He. by apply elem_of_nil in He.
Qed.

(** A buddy slot whose generation stays put keeps what is retired. *)
Lemma retired_segment p p' i so :
  generations p' = generations p → dedicated p' = dedicated p →
  dedicated_generations p' = dedicated_generations p →
  (∀ j, segment p' j = if decide (j = i) then so else segment p j) →
  (is_Some so → is_Some (segment p i)) →
  ∀ ded k g, retired p ded k g → retired p' ded k g.
Proof.
  intros Hg Hd Hdg Hs Hso [] k g; unfold retired; [by rewrite Hd, Hdg|]. rewrite Hg.
  intros [Hle Hne]. split; [done|]. unfold segment_generation in *. rewrite Hs, Hg.
  case_decide as Hi; [|done]. destruct so as [s|]; [|done].
  destruct Hso as [s' Hs']; [done|]. rewrite <-Hi in Hs'. by rewrite Hs' in Hne.
Qed.

Lemma segment_insert p p' i so :
  segments p' = <[i := so]> (segments p) → (i < length (segments p))%nat →
  ∀ j, segment p' j = if decide (j = i) then so else segment p j.
Proof.
  intros Hs Hi j. unfold segment. rewrite Hs. case_decide as Hd.
  - subst j. by rewrite list_lookup_insert_eq.
  - by rewrite list_lookup_insert_ne.
Qed.

Lemma segment_lt p i s : segment p i = Some s → (i < length (segments p))%nat.
Proof. unfold segment. intros H. apply lookup_lt_is_Some. destruct (segments p !! i); [by eexists|done]. Qed.

(** Replacing the segment in slot [i] and the live handles at once. *)
Lemma inv_replace p p' live live' extra extra' i s so :
  pool_inv p live extra → segment p i = Some s →
  p' = set_segments p (<[i := so]> (segments p)) (idle_since p') →
  length (idle_since p') = length (idle_since p) →
  slot_holds so (on_segment i live') → (∀ j, j ≠ i → on_segment j live' ≡ₚ on_segment j live) →
  (∀ k, on_slot k live' = on_slot k live) → gen_live (generations p) live' →
  Forall (handle_ok (incarnation p)) live' → file_bytes live' = file_bytes live →
  (∀ k, 0 <= extra' k) →
  (∀ k, extra' k = extra k + if decide (k = KShm) then (1 - one so) * span else 0) →
  pool_inv p' live' extra'.
Proof.
  intros [Hp Hc Hb [Hdr Hds] Hh Hbud] Hs -> Hid Hso Hj Hk Hg Hh' Hf Hx Hx'. split; simpl; try done.
  - by eapply buddy_inv_replace.
  - split; [done|]. intros k. specialize (Hds k). unfold entry_ok in *. by rewrite Hk.
  - eapply budget_ok_shift; [done..|]. intros k. unfold own_bytes. simpl.
    rewrite Hf, Hx', seg_number_insert by (by eapply segment_lt). unfold segment in Hs. rewrite Hs.
    destruct k; simpl; repeat case_decide; try done; simpl; lia.
Qed.

(** ** Unmapping an idle segment *)

Lemma seg_live p live extra i s :
  pool_inv p live extra → segment p i = Some s → seg_ok s (on_segment i live).
Proof.
  intros HI Hs. pose proof (bi_seg _ _ _ _ (pi_buddy _ _ _ HI) i) as Hseg.
  fold (segment p i) in Hseg. by rewrite Hs in Hseg.
Qed.

Lemma idle_holds_nothing p live extra i s :
  pool_inv p live extra → segment p i = Some s → seg_count s = 0 → on_segment i live = [].
Proof.
  intros HI Hs Hc. destruct (seg_live _ _ _ _ _ HI Hs) as (A & Hinv & Hp & _).
  unfold seg_count in Hc. rewrite (inv_count _ _ _ _ Hinv) in Hc. apply blen_0_nil in Hc as ->.
  by apply Permutation_nil_r in Hp.
Qed.

Lemma take_segment_spec p live extra i s :
  pool_inv p live extra → segment p i = Some s → seg_count s = 0 →
  ∃ p', take_segment p i = Ok p' ∧ pool_inv p' live extra ∧ keeps live p p'
    ∧ length (segments p') = length (segments p) ∧ segment_count p' = segment_count p - 1
    ∧ segment p' i = None ∧ (∀ j, j ≠ i → segment p' j = segment p j)
    ∧ retain_idle_backing p' = retain_idle_backing p.
Proof.
  intros HI Hs Hc. pose proof (segment_lt _ _ _ Hs) as Hlt.
  pose proof (idle_holds_nothing _ _ _ _ _ HI Hs Hc) as Hnil.
  pose proof (pi_buddy _ _ _ HI) as Hb.
  destruct (seg_live _ _ _ _ _ HI Hs) as (A & _ & _ & _ & Hg).
  unfold take_segment. rewrite Hs, Hg.
  pose proof (pi_budget _ _ _ HI) as Hbud.
  assert (1 <= seg_number (segments p)) as Hone.
  { pose proof (seg_number_insert (segments p) i None Hlt) as Hn. unfold segment in Hs. rewrite Hs in Hn.
    unfold seg_number in *. simpl in Hn. lia. }
  assert (0 < span) by apply pow_pos.
  assert (0 <= ded_bytes (dedicated p)) by (apply sum_over_nonneg; intros; apply blen_nonneg).
  destruct Hbud as (cells0 & Hb0 & Hk). pose proof (Hk KShm) as (Hx & _ & _).
  destruct (drop_guard_ok p (own_bytes p live) extra KShm span) as (cells & -> & Hok).
  { exists cells0. done. } { simpl. nia. }
  cbn [res_bind]. cbn [set_cells idle_since]. pose proof (bi_idle _ _ _ _ Hb) as Hid.
  unfold blen. rewrite (proj2 (Z.ltb_lt _ _)) by lia. cbn [guard_panic res_bind].
  eexists. split; [done|]. cbn [set_cells set_segments].
  set (p' := set_segments _ _ _).
  assert (∀ j, segment p' j = if decide (j = i) then None else segment p j) as Hseg
    by (by apply segment_insert).
  split_and!.
  - destruct HI as [? ? ? [? Hds] ? _]. split; simpl; try done.
    + eapply (buddy_inv_replace _ _ _ _ _ _ i s None Hb); try done; [by rewrite length_insert|].
      by apply bi_live in Hb.
    + apply Hok; [intros j; apply Hk|]. intros j. unfold own_bytes. simpl.
      rewrite seg_number_insert by done. unfold segment in Hs. rewrite Hs. destruct j; simpl; lia.
  - split; try done.
    + eapply view_segment; [done|done|exact Hseg|by right].
    + eapply retired_segment; [done..|exact Hseg|]. by intros [].
  - simpl. by rewrite length_insert.
  - unfold segment_count. simpl. pose proof (seg_number_insert (segments p) i None Hlt) as Hn.
    unfold segment in Hs. rewrite Hs in Hn. unfold seg_number in Hn. simpl in Hn. rewrite Hn. lia.
  - rewrite Hseg. by rewrite decide_True.
  - intros j Hj. rewrite Hseg. by rewrite decide_False.
  - done.
Qed.

(** A step of maintenance: the live handles and the charges of others are untouched. *)
Definition maintains (live : list MemHandle) (extra : BudgetKind → Z) (p p' : MemPool) : Prop :=
  pool_inv p' live extra ∧ keeps live p p' ∧ retain_idle_backing p' = retain_idle_backing p.

Lemma maintains_trans live extra p1 p2 p3 :
  maintains live extra p1 p2 → maintains live extra p2 p3 → maintains live extra p1 p3.
Proof. intros (_ & Hk1 & Hr1) (HI & Hk2 & Hr2). split_and!; [done|by eapply keeps_trans|congruence]. Qed.

Lemma gc_loop_spec live extra now delay n p removed :
  pool_inv p live extra → (n <= length (segments p))%nat →
  ∃ p' r, gc_loop n now delay (segment_count p) removed p = Ok (p', r) ∧ maintains live extra p p'
    ∧ segment_count p' + r = segment_count p + removed
    ∧ (segment_count p' = segment_count p ∨ min_retained_segments (config p) <= segment_count p').
Proof.
  revert p removed. induction n as [|i IH]; intros p removed HI Hn; simpl.
  { exists p, removed. split; [done|]. split_and!; [by split_and!; [|apply keeps_refl|]|lia|by left]. }
  destruct (Z.leb_spec (segment_count p) (min_retained_segments (config p))).
  { exists p, removed. split; [done|]. split_and!; [by split_and!; [|apply keeps_refl|]|lia|by left]. }
  destruct (lookup_lt_is_Some_2 (segments p) i) as [so Hso]; [lia|].
  rewrite (index_nat _ _ _ Hso). cbn [res_bind].
  destruct so as [s|]; [|apply IH; [done|lia]].
  destruct (Z.eqb_spec (seg_count s) 0) as [Hc|]; cbn [negb].
  2:{ exists p, removed. split; [done|]. split_and!; [by split_and!; [|apply keeps_refl|]|lia|by left]. }
  pose proof (bi_idle _ _ _ _ (pi_buddy _ _ _ HI)) as Hid.
  destruct (lookup_lt_is_Some_2 (idle_since p) i) as [since Hsi]; [lia|].
  rewrite (index_nat _ _ _ Hsi). cbn [res_bind].
  set (p1 := set_segments p _ _).
  assert (maintains live extra p p1) as Hm1.
  { split_and!; [|by apply keeps_same|done]. apply (pool_inv_same p); try done. simpl. by rewrite length_insert. }
  destruct (_ <? delay).
  { exists p1, removed. split; [done|]. split; [done|]. split; [done|by left]. }
  destruct Hm1 as (HI1 & Hk1 & Hr1).
  destruct (take_segment_spec p1 live extra i s HI1) as (p2 & -> & HI2 & Hk2 & Hl2 & Hc2 & _ & _ & Hr2); [|done|].
  { unfold segment. simpl. by rewrite Hso. }
  cbn [res_bind]. change (segment_count p1) with (segment_count p) in Hc2. rewrite <-Hc2.
  destruct (IH p2 (removed + 1) HI2) as (p' & r & -> & (HI' & Hk' & Hr') & Hcnt & Hmin); [rewrite Hl2; simpl; lia|].
  exists p', r. split; [done|]. split_and!.
  - split_and!; [done|by eapply keeps_trans, keeps_trans|congruence].
  - lia.
  - right. rewrite (k_config _ _ _ Hk2) in Hmin. simpl in Hmin. lia.
Qed.

Lemma decay_ok c :
  geometry c →
  ∃ delay, (if SFltb (buddy_idle_decay_secs c) f64_zero then Ok 0
            else expect_some (E:=Empty_set) (duration_from_secs (buddy_idle_decay_secs c))) = Ok delay.
Proof.
  intros [Hv _ Hl _ _ _ _]. unfold validate_config in Hv. rewrite Hl in Hv.
  apply bind_ok in Hv as (? & _ & Hv). destruct (checked_mul _ _ _); [|done].
  do 4 apply bind_ok in Hv as (? & _ & Hv). unfold validate_duration_secs in Hv.
  apply bind_ok in Hv as (? & _ & Hv). destruct (SFltb _ _); [by exists 0|].
  destruct (duration_from_secs _) as [d|]; [by exists d|done].
Qed.

Lemma gc_buddy_spec live extra now p :
  pool_inv p live extra →
  ∃ p' r, gc_buddy now p = Ok (p', r) ∧ maintains live extra p p'
    ∧ segment_count p' + r = segment_count p
    ∧ (segment_count p' = segment_count p ∨ min_retained_segments (config p) <= segment_count p').
Proof.
  intros HI. unfold gc_buddy. destruct (decay_ok _ (pi_config _ _ _ HI)) as [delay ->]. cbn [res_bind].
  destruct (gc_loop_spec live extra now delay (length (segments p)) p 0 HI) as (p' & r & -> & Hm & Hc & Hmin); [lia|].
  exists p', r. split; [done|]. split; [done|]. split; [lia|done].
Qed.

Lemma drop_idle_spec live extra n i p :
  pool_inv p live extra →
  ∃ p', drop_idle n i p = Ok p' ∧ maintains live extra p p'
    ∧ (∀ j, (i <= j < i + n)%nat → match segment p' j with Some s => seg_count s ≠ 0 | None => True end)
    ∧ (∀ j, ¬ (i <= j < i + n)%nat → segment p' j = segment p j).
Proof.
  revert i p. induction n as [|n IH]; intros i p HI; simpl.
  { exists p. split; [done|]. split_and!; [by split_and!; [|apply keeps_refl|]|intros; lia|done]. }
  assert (∃ p1, (match segment p i with
                 | Some s => if seg_count s =? 0 then take_segment p i else Ok p
                 | None => Ok p end) = Ok p1 ∧ maintains live extra p p1
            ∧ (match segment p1 i with Some s => seg_count s ≠ 0 | None => True end)
            ∧ (∀ j, j ≠ i → segment p1 j = segment p j)) as (p1 & -> & Hm1 & Hi1 & Hj1).
  { assert (maintains live extra p p) as Href by (split_and!; [done|apply keeps_refl|done]).
    destruct (segment p i) as [s|] eqn:Hs; [|exists p; by rewrite Hs].
    destruct (Z.eqb_spec (seg_count s) 0) as [Hc|]; [|exists p; by rewrite Hs].
    destruct (take_segment_spec p live extra i s HI Hs Hc) as (p1 & -> & HI1 & Hk1 & _ & _ & Hn & Hj & Hr).
    exists p1. rewrite Hn. done. }
  cbn [res_bind]. pose proof Hm1 as (HI1 & _).
  destruct (IH (S i) p1 HI1) as (p' & -> & Hm' & Hin & Hout). exists p'. split; [done|]. split_and!.
  - by eapply maintains_trans.
  - intros j Hj. destruct (decide (j = i)) as [->|]; [|apply Hin; lia]. rewrite Hout by lia. done.
  - intros j Hj. rewrite Hout by lia. apply Hj1. lia.
Qed.
End inv.
