(* ===== verification/PoolOps.v ===== *)
(** The operations of the memory pool against its invariant: each one returns, keeps
    the invariant, and leaves the memory of the other live handles alone. *)

From S2P Require Import Prelude.
From S2P Require Import BuddyTree.
From S2P Require Import Buddy.
From S2P Require Import Budget.
From S2P Require Import Float64.
From S2P Require Import Pressure.
From S2P Require Import Pool.
From S2P Require Import PoolInv.

Section ops.
Context (L m : nat).
Notation span := (span L m).
Notation pool_inv := (pool_inv L m).
Notation maintains := (maintains L m).

(** ** Reusing a mapped segment *)

Lemma reuse_scan_spec segs size k :
  (∀ i s, mjoin (segs !! i) = Some s → ∃ A, ba_inv L m (bs_alloc s) A) → 0 <= size →
  match reuse_scan k segs size with
  | Ok None => ∀ i s, mjoin (segs !! i) = Some s → Buddy.alloc (bs_alloc s) size = Err tt
  | Ok (Some (j, x, s')) =>
      ∃ i s a, j = (k + i)%nat ∧ segs !! i = Some (Some s) ∧ Buddy.alloc (bs_alloc s) size = Ok (x, a)
        ∧ s' = {| bs_alloc := a; bs_mem := bs_mem s; bs_guard := bs_guard s |}
        ∧ ∀ i' s1, (i' < i)%nat → mjoin (segs !! i') = Some s1 → Buddy.alloc (bs_alloc s1) size = Err tt
  | _ => False
  end.
Proof.
  intros Hok Hs. revert k. induction segs as [|so segs IH]; intros k; simpl; [by intros [] ?|].
  assert (∀ i s, mjoin (segs !! i) = Some s → ∃ A, ba_inv L m (bs_alloc s) A) as Hok'
    by (intros i s Hi; by apply (Hok (S i))).
  specialize (IH Hok' (S k)).
  assert ((∀ s, so = Some s → Buddy.alloc (bs_alloc s) size = Err tt) →
          match reuse_scan (S k) segs size with
          | Ok None => ∀ i s, mjoin ((so :: segs) !! i) = Some s → Buddy.alloc (bs_alloc s) size = Err tt
          | Ok (Some (j, x, s')) =>
              ∃ i s a, j = (k + i)%nat ∧ (so :: segs) !! i = Some (Some s) ∧ Buddy.alloc (bs_alloc s) size = Ok (x, a)
                ∧ s' = {| bs_alloc := a; bs_mem := bs_mem s; bs_guard := bs_guard s |}
                ∧ ∀ i' s1, (i' < i)%nat → mjoin ((so :: segs) !! i') = Some s1 → Buddy.alloc (bs_alloc s1) size = Err tt
          | _ => False
          end) as Hskip.
  { intros Hso. destruct (reuse_scan (S k) segs size) as [[[[j x] s']|]|[]|]; [| |done].
    - destruct IH as (i & s & a & -> & Hi & Ha & -> & Hlt). exists (S i), s, a. split_and!; try done; [lia|].
      intros [|i'] s1 Hi' Hs1; [by apply Hso|]. apply (Hlt i'); [lia|done].
    - intros [|i] s Hi; [by apply Hso|by apply (IH i)]. }
  destruct so as [s|]; [|by apply Hskip]. destruct (Hok 0%nat s eq_refl) as [A HA].
  pose proof (alloc_spec L m (bs_alloc s) A size HA Hs) as Hspec.
  destruct (Buddy.alloc (bs_alloc s) size) as [[x a]|[]|] eqn:Ha; [|by apply Hskip; intros ? [= <-]|done].
  exists 0%nat, s, a. split_and!; try done; intros; lia.
Qed.

Lemma segment_some p i s : segments p !! i = Some (Some s) → segment p i = Some s.
Proof. unfold segment. by intros ->. Qed.

Lemma all_ba_inv p live extra i s :
  pool_inv p live extra → mjoin (segments p !! i) = Some s → ∃ A, ba_inv L m (bs_alloc s) A.
Proof. intros HI Hs. destruct (seg_live L m _ _ _ _ _ HI Hs) as (A & ? & _). by exists A. Qed.

Lemma gen_live_cons gens live h :
  gen_live gens live →
  (∀ a o n, h = Shm a o n → is_dedicated a = false →
     0 <= seg_idx a ∧ 0 < generation a ∧ gens !! Z.to_nat (seg_idx a) = Some (generation a)) →
  gen_live gens (h :: live).
Proof. intros Hl Hh a o n [<-|Hin]%elem_of_cons; [by apply (Hh a o n)|by apply (Hl a o n)]. Qed.

(** Handing out a block of a mapped segment. *)
Lemma inv_hand_out p live extra i s size x a idle :
  pool_inv p live extra → segment p i = Some s → 0 <= size → Buddy.alloc (bs_alloc s) size = Ok (x, a) →
  length idle = length (idle_since p) →
  ∃ gen, generations p !! i = Some gen
    ∧ let p' := set_segments p (<[i := Some {| bs_alloc := a; bs_mem := bs_mem s; bs_guard := bs_guard s |}]>
                                  (segments p)) idle in
      pool_inv p' (Shm (pool_allocation i gen x) (incarnation p) size :: live) extra ∧ keeps live p p'.
Proof.
  intros HI Hs Hsz Ha Hid. pose proof (pi_buddy _ _ _ _ _ HI) as Hb.
  destruct (bi_pos _ _ _ _ _ _ Hb i s Hs) as (gen & Hg & Hpos). exists gen. split; [done|].
  destruct (seg_live L m _ _ _ _ _ HI Hs) as (A & HA & Hp & Hmem & Hgd).
  pose proof (alloc_spec L m (bs_alloc s) A size HA Hsz) as Hspec. rewrite Ha in Hspec.
  destruct Hspec as (t & j & -> & HA' & _ & Hle & _). intros p'. set (h := Shm _ _ _).
  assert (buddy_at i h = Some (block_alloc L m (t, j))) as Hat.
  { simpl. rewrite Z.eqb_refl. done. }
  split.
  - eapply (inv_replace L m p p' live _ extra extra i s); try done.
    + cbn [slot_holds]. exists ((t, j) :: A). split; [done|]. split; [|done].
      rewrite on_segment_cons, Hat. simpl. by f_equiv.
    + intros k Hk. rewrite on_segment_cons. replace (buddy_at k h) with (@None Allocation); [done|].
      symmetry. simpl. destruct (Z.eqb_spec (Z.of_nat i) (Z.of_nat k)); [lia|done].
    + apply gen_live_cons; [by apply (bi_live _ _ _ _ _ _ Hb)|]. intros a' o n [= <- <- <-] _. simpl.
      rewrite Nat2Z.id. split_and!; [lia|done..].
    + constructor; [|apply (pi_handles _ _ _ _ _ HI)]. simpl. split; [done|]. simpl in Hle. lia.
    + destruct (pi_budget _ _ _ _ _ HI) as (? & _ & Hk). intros k. apply Hk.
    + intros k. simpl. case_decide; lia.
  - pose proof (segment_insert p p' i _ eq_refl (segment_lt _ _ _ Hs)) as Hseg. split; try done.
    + eapply view_segment; [done..|exact Hseg|]. left. by rewrite Hs.
    + eapply retired_segment; [done..|exact Hseg|]. by eauto.
Qed.

(** A new handle [h] of length [size]. *)
Definition hands_out (live : list MemHandle) (extra : BudgetKind → Z) (size : Z) (p p' : MemPool)
    (h : MemHandle) : Prop :=
  pool_inv p' (h :: live) extra ∧ keeps live p p' ∧ handle_length h = size.

Lemma hands_out_shm live extra size p p' a :
  hands_out live extra size p p' (Shm a (incarnation p) size) → incarnation p' = incarnation p.
Proof. intros (_ & Hk & _). apply (k_incarnation _ _ _ Hk). Qed.

Lemma hands_out_same live extra size p p1 p2 h :
  hands_out live extra size p p1 h → is_peer p2 = is_peer p1 → config p2 = config p1 →
  incarnation p2 = incarnation p1 → segments p2 = segments p1 → generations p2 = generations p1 →
  dedicated p2 = dedicated p1 → dedicated_generations p2 = dedicated_generations p1 →
  idle_since p2 = idle_since p1 → budget p2 = budget p1 → hands_out live extra size p p2 h.
Proof.
  intros (HI & Hk & Hl) ? ? ? ? ? ? ? Hid ?. split_and!; [|eapply keeps_trans; [done|by apply keeps_same]|done].
  eapply pool_inv_same; try done. by rewrite Hid.
Qed.

Lemma hands_out_trans live extra size p1 p2 p3 h :
  maintains live extra p1 p2 → hands_out live extra size p2 p3 h → hands_out live extra size p1 p3 h.
Proof. intros (_ & Hk & _) (HI & Hk' & Hl). split_and!; [done|by eapply keeps_trans|done]. Qed.

Lemma try_buddy_reuse_spec live extra size p :
  pool_inv p live extra → 0 <= size →
  ∃ p' r, try_buddy_reuse p size = Ok (p', r)
    ∧ match r with
      | None => p' = p ∧ ∀ i s, segment p i = Some s → Buddy.alloc (bs_alloc s) size = Err tt
      | Some a => hands_out live extra size p p' (Shm a (incarnation p) size)
                  ∧ budget p' = budget p ∧ pressure p' = pressure p ∧ segment_count p' = segment_count p
                  ∧ is_dedicated a = false
      end.
Proof.
  intros HI Hs. unfold try_buddy_reuse.
  pose proof (reuse_scan_spec (segments p) size 0 (fun i s => all_ba_inv p live extra i s HI) Hs) as Hr.
  destruct (reuse_scan 0 (segments p) size) as [[[[j x] s']|]|[]|]; [| |done]; cbn [res_bind].
  - destruct Hr as (i & s & a & -> & Hi & Ha & -> & _). simpl in *.
    destruct (inv_hand_out p live extra i s size x a (<[i := None]> (idle_since p)) HI (segment_some _ _ _ Hi) Hs Ha)
      as (gen & Hg & HI' & Hk); [by rewrite length_insert|].
    cbn [generations set_segments set_counters]. rewrite (index_nat _ _ _ Hg). cbn [res_bind].
    eexists _, (Some _). split; [done|]. split_and!; try done.
    + eapply hands_out_same; [split_and!; [exact HI'|exact Hk|done]|done..].
    + unfold segment_count. simpl. pose proof (seg_number_insert (segments p) i
        (Some {| bs_alloc := a; bs_mem := bs_mem s; bs_guard := bs_guard s |})) as Hn.
      rewrite Hi in Hn. unfold seg_number in Hn. rewrite Hn by (by eapply lookup_lt_Some). simpl. lia.
  - exists p, None. done.
Qed.

(** ** Mapping a new segment *)

Lemma geometry_span p live extra : pool_inv p live extra → 0 < span <= 2 ^ 31.
Proof.
  intros HI. split; [apply pow_pos|]. apply pow_31. apply (g_width _ _ _ (pi_config _ _ _ _ _ HI)).
Qed.

Lemma BuddySegment_create_spec env c idx gen :
  geometry L m c →
  match BuddySegment_create env idx gen (segment_size c) (min_block_size c) {| br_kind := KShm; br_bytes := span |} with
  | Ok s => ba_inv L m (bs_alloc s) [] ∧ blen (bs_mem s) = span ∧ bs_guard s = {| br_kind := KShm; br_bytes := span |}
  | Err _ => True
  | Panic => False
  end.
Proof.
  intros [_ Hmin Hl Hw _ _ _]. unfold BuddySegment_create. rewrite Hl. simpl.
  unfold ShmRegion_create. destruct (_ || _); [done|]. destruct (shm_create _ _ _ _); [|done].
  destruct (init_spec L m {| bl_data_size := span; bl_total_size := span |} Hw eq_refl) as (a & Hi & Ha).
  rewrite Hmin, Hi. simpl. split_and!; try done. unfold blen. rewrite length_replicate.
  pose proof (pow_pos (L + m)). unfold PoolInv.span. lia.
Qed.

Lemma own_set_pressure p e live : own_bytes L m (set_pressure p e) live = own_bytes L m p live.
Proof. done. Qed.

(** Advancing the generation of an unmapped slot. *)
Lemma inv_advance p live extra idx gen :
  pool_inv p live extra → segment p idx = None → gen = default 0 (generations p !! idx) + 1 → gen <= U32_MAX →
  pool_inv (set_generations p (<[idx := gen]> (grow (S idx) 0 (generations p)))) live extra.
Proof.
  intros [Hp Hc Hb Hd Hh Hbud] Hs Hg Hmax. split; simpl; try done.
  pose proof Hb as [Hid Hge Hmx Hrg Hps Hsg Hlv].
  assert (on_segment idx live = []) as Hnil. { specialize (Hsg idx). fold (segment p idx) in Hsg. by rewrite Hs in Hsg. }
  pose proof (default_range (generations p) idx Hrg).
  apply (buddy_inv_update L m _ _ _ _ _ _ _ _ idx None Hb); try done.
  - rewrite length_insert, length_grow. lia.
  - apply range_insert; [done|lia].
  - intros j. case_decide as Hj; [subst j; exact Hs|done].
  - intros j g Hj Hne. by apply gens_insert.
  - intros a o n Hin Ha. destruct (Hlv a o n Hin Ha) as (? & ? & Hg'). split_and!; [done..|].
    apply gens_insert; [done|]. intros Hi. pose proof (on_segment_elem _ _ _ _ Hin Ha ltac:(done)) as He.
    rewrite Hi, Hnil in He. by apply elem_of_nil in He.
Qed.

(** The state between the creation of segment [s] for slot [idx] and its installation:
    the charge is not yet the pool's, the generation has advanced. *)
Definition created (live : list MemHandle) (extra : BudgetKind → Z) (p p1 : MemPool) (idx : nat)
    (s : BuddySegment) : Prop :=
  let gen := default 0 (generations p !! idx) + 1 in
  pool_inv p1 live (upd extra KShm (extra KShm + span))
  ∧ segment p idx = None ∧ Z.of_nat idx < max_segments (config p)
  ∧ config p1 = config p ∧ incarnation p1 = incarnation p ∧ segments p1 = segments p
  ∧ generations p1 = <[idx := gen]> (grow (S idx) 0 (generations p))
  ∧ dedicated p1 = dedicated p ∧ dedicated_generations p1 = dedicated_generations p
  ∧ retain_idle_backing p1 = retain_idle_backing p
  ∧ seg_ok L m s [] ∧ ba_inv L m (bs_alloc s) [].

Lemma extra_nonneg p live extra k : pool_inv p live extra → 0 <= extra k.
Proof. intros HI. destruct (pi_budget _ _ _ _ _ HI) as (? & _ & Hk). apply Hk. Qed.

Lemma create_segment_spec env live extra p :
  pool_inv p live extra →
  ∃ p1 r, create_segment env p = Ok (p1, r)
    ∧ match r with inr _ => maintains live extra p p1 ∧ segments p1 = segments p | inl (idx, s) => created live extra p p1 idx s end.
Proof.
  intros HI. unfold create_segment. destruct (free_slot _ _ _) as [[idx gen]|] eqn:Hslot.
  2:{ eexists _, (inr _). split; [done|]. split; [|done]. split_and!; [done|apply keeps_refl|done]. }
  apply free_slot_spec in Hslot as (Hlt & Hno & Hgen & Hmax).
  assert (segment p idx = None) as Hnone.
  { apply bool_decide_eq_false in Hno. by destruct (segment p idx); [destruct Hno|]. }
  pose proof (pi_config _ _ _ _ _ HI) as Hc. rewrite (g_layout _ _ _ Hc). cbn [expect_some res_bind bl_total_size].
  destruct (evaluate _ _ _) as [e d]. set (p0 := set_pressure p e).
  assert (pool_inv p0 live extra) as HI0 by (by apply (pool_inv_same L m p)).
  assert (keeps live p p0) as Hk0 by (by apply keeps_same).
  destruct d as [|r]; [|eexists _, (inr _); split; [done|]; by split_and!].
  pose proof (geometry_span _ _ _ HI) as Hsp.
  destruct (inv_reserve L m p0 live extra KShm span HI0) as (cells & r & -> & Hr); [lia|]. cbn [res_bind].
  set (p1 := set_cells p0 cells) in *. assert (keeps live p p1) as Hk1 by (by apply keeps_same).
  destruct r as [g|e0]; [|eexists _, (inr _); split; [done|]; by split_and!].
  destruct Hr as [-> HI1]. change (config p1) with (config p).
  pose proof (BuddySegment_create_spec env (config p) (Z.of_nat idx) gen Hc) as Hcr.
  destruct (BuddySegment_create _ _ _ _ _ _) as [s|e0|]; [| |done].
  - destruct Hcr as (Ha & Hmem & Hg). eexists _, (inl _). split; [done|]. unfold created. simpl. rewrite <-Hgen.
    split_and!; try done; [exact (inv_advance p1 live _ idx gen HI1 Hnone Hgen Hmax)|]. by exists [].
  - destruct (inv_drop_extra L m p1 live extra KShm span HI1) as (cells' & -> & HI2); [lia| |].
    { intros j. by eapply extra_nonneg. }
    eexists _, (inr _). split; [done|]. split; [|done]. split_and!; [done|by apply keeps_same|done].
Qed.

Lemma keeps_install live extra p p1 p2 idx s :
  pool_inv p live extra → created live extra p p1 idx s →
  config p2 = config p1 → incarnation p2 = incarnation p1 → generations p2 = generations p1 →
  dedicated p2 = dedicated p1 → dedicated_generations p2 = dedicated_generations p1 →
  (∀ j, segment p2 j = if decide (j = idx) then Some s else segment p j) →
  keeps live p p2.
Proof.
  intros HI (_ & Hn & _ & Hc & Hi & _ & Hg & Hd & Hdg & _) Hc2 Hi2 Hg2 Hd2 Hdg2 Hseg.
  pose proof (pi_buddy _ _ _ _ _ HI) as Hb. split; [congruence|congruence| | |].
  - eapply view_segment; [done|congruence|exact Hseg|]. right.
    pose proof (bi_seg _ _ _ _ _ _ Hb idx) as H. fold (segment p idx) in H. by rewrite Hn in H.
  - intros [] k; unfold latest; [by rewrite Hdg2, Hdg|]. rewrite Hg2, Hg. apply gens_advance. lia.
  - intros [] k g; unfold retired; [by rewrite Hd2, Hdg2, Hd, Hdg|]. unfold segment_generation.
    rewrite Hseg, Hg2, Hg. set (i := Z.to_nat k). intros [Hle Hne]. split.
    { etrans; [exact Hle|]. apply gens_advance. lia. }
    case_decide as Hi'; [rewrite Hi' in *; rewrite gens_here; intros [= Heq]; lia|].
    rewrite list_lookup_insert_ne by done. unfold segment_generation in Hne.
    destruct (segment p i) as [s0|] eqn:Hsi; [|done].
    destruct (bi_pos _ _ _ _ _ _ Hb i s0 Hsi) as (g0 & Hg0 & _). rewrite Hg0 in Hne. by rewrite (grow_lookup _ _ _ _ _ Hg0).
Qed.

Lemma install_segment_spec live extra p p1 idx s :
  pool_inv p live extra → created live extra p p1 idx s →
  ∃ segs idle,
    (∀ s', install_segment p1 idx s' = Ok (set_segments p1 (<[idx := Some s']> segs) idle))
    ∧ let p2 := set_segments p1 (<[idx := Some s]> segs) idle in
      maintains live extra p p2 ∧ segment p2 idx = Some s ∧ segment_count p2 = segment_count p + 1
      ∧ (idx < length segs)%nat.
Proof.
  intros HI Hcr. pose proof Hcr as (HI1 & Hn & Hlt & Hc & Hi & Hs & Hg & Hd & Hdg & Hr & Hok & Ha).
  pose proof (pi_buddy _ _ _ _ _ HI1) as Hb1. pose proof Hb1 as [Hid Hge Hmx Hrg Hps Hsg Hlv].
  set (segs := grow (S idx) None (segments p1)).
  set (idle := <[idx := None]> (if (length (segments p1) <=? idx)%nat
                 then take (S idx) (grow (S idx) None (idle_since p1)) else idle_since p1)).
  assert (length segs = Nat.max (S idx) (length (segments p1))) as Hlseg by apply length_grow.
  assert (length idle = length segs) as Hlidle.
  { unfold idle. rewrite length_insert, Hlseg. destruct (Nat.leb_spec (length (segments p1)) idx); [|lia].
    rewrite length_take, length_grow. lia. }
  exists segs, idle. split.
  { intros s'. unfold install_segment. rewrite (proj2 (Z.ltb_lt _ _)); [done|].
    unfold idle in Hlidle. rewrite length_insert in Hlidle. unfold blen. rewrite Hlidle. lia. }
  intros p2.
  assert (∀ j, mjoin (<[idx := Some s]> segs !! j) = if decide (j = idx) then Some s else mjoin (segments p1 !! j)) as Hseg.
  { intros j. case_decide as Hj.
    - subst j. rewrite list_lookup_insert_eq by lia. done.
    - rewrite list_lookup_insert_ne by done. apply grow_none. }
  pose proof (g_max _ _ _ (pi_config _ _ _ _ _ HI)) as Hgmax.
  assert (mjoin (segments p1 !! idx) = None) as Hn1 by (rewrite Hs; exact Hn).
  assert (on_segment idx live = []) as Hnil by (specialize (Hsg idx); by rewrite Hn1 in Hsg).
  assert (keeps live p p2) as Hk.
  { eapply keeps_install; [done|exact Hcr|done..|]. intros j. unfold segment. rewrite <-Hs. apply Hseg. }
  assert (seg_number (<[idx := Some s]> segs) = seg_number (segments p1) + 1) as Hnum.
  { rewrite seg_number_insert by lia. unfold segs. rewrite grow_none, Hn1, seg_number_grow. simpl. lia. }
  split_and!.
  - split_and!; [|done|done]. destruct HI1 as [? ? _ ? ? Hbud]. split; simpl; try done.
    + apply (buddy_inv_update L m _ _ _ _ _ _ _ _ idx (Some s) Hb1); try done.
      * rewrite length_insert. lia.
      * rewrite length_insert, Hlseg, Hg, length_insert, length_grow. rewrite Hg, length_insert, length_grow in Hge. lia.
      * unfold blen in *. rewrite length_insert, Hlseg. lia.
      * intros _. rewrite Hg, gens_here. eexists. split; [done|].
        pose proof (default_range (generations p) idx (bi_range _ _ _ _ _ _ (pi_buddy _ _ _ _ _ HI))). lia.
      * by rewrite Hnil.
    + eapply budget_ok_shift; [done|intros k; by eapply extra_nonneg|]. intros k. unfold own_bytes. simpl.
      rewrite Hnum. destruct k; simpl; [rewrite upd_eq; lia|by rewrite upd_ne|by rewrite upd_ne].
  - unfold segment. simpl. rewrite Hseg. by rewrite decide_True.
  - unfold segment_count. simpl. unfold seg_number in Hnum. rewrite Hnum, Hs. done.
  - lia.
Qed.

(** A fresh segment serves any request up to its size. *)
Lemma fresh_alloc a size :
  ba_inv L m a [] → 0 < size <= span → ∃ x a', Buddy.alloc a size = Ok (x, a').
Proof.
  intros Ha Hs. pose proof (alloc_spec L m a [] size Ha ltac:(lia)) as Hspec.
  destruct (Buddy.alloc a size) as [[x a']|[]|]; [by eauto| |done]. exfalso.
  pose proof (inv_data _ _ _ _ Ha) as Hd. fold span in Hd.
  destruct Hspec as [?|[?|(t & _ & _ & _ & _ & Hno)]]; [lia|lia|].
  apply (Hno 0%nat 0); [lia|]. by apply (part_empty L _ _ _ (inv_part _ _ _ _ Ha)).
Qed.

Lemma expand_buddy_spec env live extra size p :
  pool_inv p live extra → 0 < size <= span →
  ∃ p' r, expand_buddy env p size = Ok (p', r)
    ∧ match r with
      | None => maintains live extra p p'
      | Some a => hands_out live extra size p p' (Shm a (incarnation p) size) ∧ is_dedicated a = false
                  ∧ segment_count p' = segment_count p + 1
      end.
Proof.
  intros HI Hs. unfold expand_buddy. destruct (create_segment_spec env live extra p HI) as (p1 & r & -> & Hr).
  cbn [res_bind]. destruct r as [[idx s]|e]; [|by eexists _, None; destruct Hr].
  destruct (install_segment_spec live extra p p1 idx s HI Hr) as (segs & idle & Hinst & Hm & Hseg & Hcnt & Hlt).
  destruct Hr as (_ & _ & _ & _ & Hinc & _ & _ & _ & _ & _ & _ & Ha).
  destruct (fresh_alloc _ size Ha Hs) as (x & a & Hal). rewrite Hal. cbn [expect res_bind]. rewrite Hinst.
  cbn [res_bind]. set (p2 := set_segments p1 _ idle) in *. destruct Hm as (HI2 & Hk2 & _).
  destruct (inv_hand_out p2 live extra idx s size x a idle HI2 Hseg ltac:(lia) Hal) as (gen & Hg & HI3 & Hk3); [done|].
  cbn [generations set_segments set_counters]. change (generations p2) with (generations p1) in Hg.
  rewrite (index_nat _ _ _ Hg). cbn [res_bind]. eexists _, (Some _). split; [done|].
  assert (segments p2 = <[idx := Some s]> segs) as Hs2 by done.
  rewrite Hs2, list_insert_insert_eq in HI3, Hk3. change (incarnation p2) with (incarnation p1) in HI3.
  rewrite Hinc in HI3. split_and!; [|done|].
  - eapply hands_out_same; [split_and!; [exact HI3|by eapply keeps_trans|done]|done..].
  - rewrite <-Hcnt. unfold segment_count. simpl.
    fold (seg_number (<[idx := Some s]> segs)).
    match goal with |- Z.of_nat (length (omap id ?l)) = _ => fold (seg_number l) end.
    by rewrite !seg_number_insert by done.
Qed.

(** ** Dedicated segments *)

Lemma ded_bytes_insert d k e : d !! k = None → ded_bytes (<[k := e]> d) = ds_size (de_segment e) + ded_bytes d.
Proof. intros Hk. unfold ded_bytes. rewrite (sum_over_perm _ _ _ (map_to_list_insert d k e Hk)). done. Qed.

Lemma ded_bytes_delete d k e : d !! k = Some e → ded_bytes d = ds_size (de_segment e) + ded_bytes (delete k d).
Proof.
  intros Hk. rewrite <-(insert_delete_id d k e Hk) at 1. apply ded_bytes_insert. apply lookup_delete_eq.
Qed.

Lemma required_shm_size_spec env size backing :
  required_shm_size env size = Some backing → 0 <= size → 0 < size <= backing ∧ backing <= ISIZE_MAX.
Proof.
  unfold required_shm_size, native_page_size, round_payload_to_page, checked_add. intros H Hs.
  destruct (Z.ltb_spec 0 (sysconf_pagesize env)); [|done].
  destruct (Z.eqb_spec size 0); [done|]. pose proof (Z.mod_pos_bound size (sysconf_pagesize env)).
  repeat case_match; simplify_eq; lia.
Qed.

Lemma DedicatedSegment_create_spec env idx gen size g :
  0 <= size →
  match DedicatedSegment_create env idx gen size g with
  | Ok s => required_shm_size env size = Some (ds_size s) ∧ ds_guard s = g
  | Err _ => True
  | Panic => False
  end.
Proof.
  intros Hs. unfold DedicatedSegment_create. destruct (required_shm_size env size) as [n|] eqn:Hn; [|done].
  unfold ShmRegion_create. destruct (_ || _) eqn:Hg; [done|]. destruct (shm_create _ _ _ _); [|done].
  apply required_shm_size_spec in Hn; [|done]. split; [|done]. unfold ds_size, blen. simpl.
  rewrite length_replicate. f_equal. lia.
Qed.

(** Adding a dedicated entry and the handle that owns it. *)
Lemma inv_add_dedicated p live extra idx gen s size :
  pool_inv p live (upd extra KShm (extra KShm + ds_size s)) → (∀ k, 0 <= extra k) →
  dedicated p !! Z.of_nat idx = None → Z.of_nat idx < max_dedicated_segments (config p) →
  gen = default 0 (dedicated_generations p !! idx) + 1 → gen <= U32_MAX →
  ds_guard s = {| br_kind := KShm; br_bytes := ds_size s |} → 0 <= size <= ds_size s →
  let p' := set_dedicated p (<[Z.of_nat idx := {| de_segment := s; de_generation := gen |}]> (dedicated p))
              (<[idx := gen]> (grow (S idx) 0 (dedicated_generations p))) in
  hands_out live extra size p p'
    (Shm {| seg_idx := Z.of_nat idx; generation := gen; pa_offset := 0; pa_actual_size := ds_size s;
            pa_level := 0; is_dedicated := true |} (incarnation p) size).
Proof.
  intros [Hp Hc Hb Hd Hh Hbud] Hx Hn Hlt Hgen Hmax Hg Hs p'. set (h := Shm _ _ _).
  pose proof (g_dedicated _ _ _ Hc). pose proof Hd as [Hr Hds].
  pose proof (default_range (dedicated_generations p) idx Hr).
  assert (∀ i, on_segment i (h :: live) = on_segment i live) as Hseg by done.
  assert (∀ k, on_slot k (h :: live) = if decide (k = Z.of_nat idx) then [{| seg_idx := Z.of_nat idx; generation := gen;
      pa_offset := 0; pa_actual_size := ds_size s; pa_level := 0; is_dedicated := true |}] else on_slot k live) as Hslot.
  { intros k. rewrite on_slot_cons. simpl. destruct (Z.eqb_spec (Z.of_nat idx) k) as [<-|]; case_decide; try lia; [|done].
    specialize (Hds (Z.of_nat idx)). by rewrite Hn in Hds; rewrite Hds. }
  split_and!; [| |done].
  - split; simpl; try done.
    + destruct Hb as [? ? ? ? ? Hsg Hlv]. split; try done. by apply gen_live_cons; [|intros ? ? ? [= <- <- <-]].
    + split; [apply range_insert; [done|lia]|]. intros k. specialize (Hds k).
      destruct (decide (k = Z.of_nat idx)) as [->|Hne].
      * rewrite lookup_insert_eq. split_and!; simpl; try done; try lia.
        { by rewrite Nat2Z.id, gens_here. }
        rewrite Hslot, decide_True by done. eexists. split; [done|]. done.
      * rewrite lookup_insert_ne by done. destruct (dedicated p !! k) as [e|] eqn:He.
        { destruct Hds as (? & ? & ? & Hdg & ?). unfold entry_ok. rewrite Hslot, decide_False by done.
          split_and!; try done; try lia. apply gens_insert; [done|]. lia. }
        by rewrite Hslot, decide_False.
    + by constructor.
    + eapply budget_ok_shift; [done..|]. intros k. unfold own_bytes. simpl.
      rewrite ded_bytes_insert by done. simpl. destruct k; simpl; [rewrite upd_eq; lia|by rewrite upd_ne|by rewrite upd_ne].
  - split; try done.
    + intros a o n Hin. unfold view. destruct (is_dedicated a) eqn:Ha; [|done]. simpl.
      rewrite lookup_insert_ne; [done|]. intros Heq. specialize (Hds (seg_idx a)). rewrite <-Heq, Hn in Hds.
      assert (a ∈ on_slot (Z.of_nat idx) live) as He; [|rewrite Hds in He; by apply elem_of_nil in He].
      apply list_elem_of_omap. exists (Shm a o n). split; [done|]. simpl. by rewrite Ha, Heq, Z.eqb_refl.
    + intros [] k; [|done]. unfold latest. simpl. apply gens_advance. lia.
    + intros [] k g; [|done]. unfold retired. simpl. intros [Hle Hne]. split.
      { etrans; [exact Hle|]. apply gens_advance. lia. }
      destruct (decide (k = Z.of_nat idx)) as [->|Hk]; [|by rewrite lookup_insert_ne].
      rewrite Nat2Z.id in Hle. rewrite lookup_insert_eq. simpl. intros [= ?]. lia.
Qed.

Lemma alloc_dedicated_spec env live extra size p :
  pool_inv p live extra → 0 <= size →
  ∃ p' r, alloc_dedicated env p size = Ok (p', r)
    ∧ match r with
      | inr _ => maintains live extra p p'
      | inl a => hands_out live extra size p p' (Shm a (incarnation p) size) ∧ is_dedicated a = true
      end ∧ segments p' = segments p.
Proof.
  intros HI Hs. unfold alloc_dedicated.
  assert (maintains live extra p p) as Href by (split_and!; [done|apply keeps_refl|done]).
  destruct (free_slot _ _ _) as [[idx gen]|] eqn:Hslot; [|by eexists _, (inr _)].
  apply free_slot_spec in Hslot as (Hlt & Hno & Hgen & Hmax).
  assert (dedicated p !! Z.of_nat idx = None) as Hnone.
  { apply bool_decide_eq_false in Hno. by destruct (dedicated p !! _); [destruct Hno|]. }
  destruct (required_shm_size env size) as [backing|] eqn:Hreq; [|by eexists _, (inr _)].
  destruct (Z.ltb_spec U32_MAX backing); [by eexists _, (inr _)|].
  pose proof (required_shm_size_spec _ _ _ Hreq Hs) as [Hsz _].
  destruct (evaluate _ _ _) as [e d]. set (p0 := set_pressure p e).
  assert (pool_inv p0 live extra) as HI0 by (by apply (pool_inv_same L m p)).
  assert (keeps live p p0) as Hk0 by (by apply keeps_same).
  destruct d as [|r]; [|by eexists _, (inr _)].
  destruct (inv_reserve L m p0 live extra KShm backing HI0) as (cells & r & -> & Hr); [lia|]. cbn [res_bind].
  set (p1 := set_cells p0 cells) in *. assert (keeps live p p1) as Hk1 by (by apply keeps_same).
  destruct r as [g|e0]; [|by eexists _, (inr _)].
  destruct Hr as [-> HI1].
  pose proof (DedicatedSegment_create_spec env (Z.of_nat idx) gen size {| br_kind := KShm; br_bytes := backing |} Hs) as Hcr.
  destruct (DedicatedSegment_create _ _ _ _ _) as [s|e0|]; [| |done].
  - destruct Hcr as [Hds Hg]. rewrite Hreq in Hds. injection Hds as ->.
    replace (wrap_u32 (ds_size s)) with (ds_size s)
      by (symmetry; apply Z.mod_small; unfold U32_MAX in *; lia).
    pose proof (inv_add_dedicated p1 live extra idx gen s size HI1 (fun k => extra_nonneg p live extra k HI) Hnone Hlt
                  Hgen Hmax Hg ltac:(lia)) as Hout.
    eexists _, (inl _). split; [done|]. split; [|done]. split; [|done].
    destruct Hout as (H1 & H2 & H3).
    eapply hands_out_same; [split_and!; [exact H1|by eapply keeps_trans|done]|done..].
  - destruct (inv_drop_extra L m p1 live extra KShm backing HI1) as (cells' & -> & HI2); [lia| |].
    { intros j. by eapply extra_nonneg. }
    eexists _, (inr _). split; [done|]. split; [|done]. split_and!; [done|by apply keeps_same|done].
Qed.

(** ** File spill *)

Lemma alloc_file_spill_spec env live extra size p :
  pool_inv p live extra → 0 <= size →
  ∃ p' r, alloc_file_spill env p size = Ok (p', r)
    ∧ match r with inr _ => maintains live extra p p' | inl h => hands_out live extra size p p' h end.
Proof.
  intros HI Hs. unfold alloc_file_spill.
  destruct (inv_reserve L m p live extra KFile size HI Hs) as (cells & r & -> & Hr). cbn [res_bind].
  set (p1 := set_cells p cells) in *. assert (keeps live p p1) as Hk1 by (by apply keeps_same).
  destruct r as [g|e0]; [|by eexists _, (inr _)]. destruct Hr as [-> HI1].
  unfold create_file_spill.
  destruct (if (size =? 0) || (ISIZE_MAX <? size) then None
            else if spill_create env then Some (replicate (Z.to_nat size) Byte.x00) else None) as [mem|] eqn:Hm.
  - assert (blen mem = size) as Hmem.
    { repeat case_match; simplify_eq. unfold blen. rewrite length_replicate. lia. }
    eexists _, (inl _). split; [done|]. split_and!; [|by apply keeps_same|done].
    destruct HI1 as [? ? [] [? Hds] ? Hbud]. split; simpl; try done.
    + split; try done. by apply gen_live_cons.
    + constructor; [|done]. simpl. rewrite Hmem. split; [lia|done].
    + eapply budget_ok_shift; [done|intros k; by eapply extra_nonneg|]. intros k. unfold own_bytes, file_bytes. simpl.
      unfold sum_over. simpl. fold (sum_over file_at live).
      destruct k; simpl; [by rewrite upd_ne| |by rewrite upd_ne]. rewrite upd_eq, Hmem. unfold sum_over. lia.
  - destruct (inv_drop_extra L m p1 live extra KFile size HI1 Hs) as (cells' & -> & HI2).
    { intros j. by eapply extra_nonneg. }
    eexists _, (inr _). split; [done|]. split_and!; [done|by apply keeps_same|done].
Qed.

(** ** The fallback chain *)

Lemma buddy_block_limit_spec p live extra :
  pool_inv p live extra → buddy_block_limit p = Ok 0 ∨ buddy_block_limit p = Ok span.
Proof.
  intros HI. unfold buddy_block_limit. destruct (_ || _); [by left|right].
  by rewrite (g_layout _ _ _ (pi_config _ _ _ _ _ HI)).
Qed.

Lemma alloc_shm_spec env live extra size p :
  pool_inv p live extra → 0 < size →
  ∃ p' r, alloc_shm env p size = Ok (p', r)
    ∧ match r with
      | inr _ => maintains live extra p p'
      | inl a => hands_out live extra size p p' (Shm a (incarnation p) size)
      end.
Proof.
  intros HI Hs. unfold alloc_shm. destruct (alloc_dedicated_spec env live extra size p HI) as (p9 & r9 & Hd & Hr9 & _); [lia|].
  assert (match r9 with
          | inr _ => maintains live extra p p9
          | inl a => hands_out live extra size p p9 (Shm a (incarnation p) size)
          end) as Hr9' by (by destruct r9 as [?|?]; [destruct Hr9|]).
  destruct (buddy_block_limit_spec p live extra HI) as [-> | ->]; cbn [res_bind]; [by eauto|].
  destruct ((0 <? span) && (size <=? span)) eqn:Hfit; [|by eauto].
  destruct (try_buddy_reuse_spec live extra size p HI) as (p1 & r1 & -> & H1); [lia|]. cbn [res_bind].
  destruct r1 as [a|]; [exists p1, (inl a); by destruct H1|]. destruct H1 as [-> _].
  destruct (gc_buddy_spec L m live extra (gc_now env) p HI) as (p2 & n & -> & Hm2 & _ & _). cbn [res_bind].
  pose proof Hm2 as (HI2 & Hk2 & _). pose proof (k_incarnation _ _ _ Hk2) as Hinc2.
  destruct (expand_buddy_spec env live extra size p2 HI2) as (p3 & r3 & -> & H3); [lia|]. cbn [res_bind].
  destruct r3 as [a|].
  { exists p3, (inl a). split; [done|]. destruct H3 as [H3 _]. rewrite Hinc2 in H3. by eapply hands_out_trans. }
  assert (maintains live extra p p3) as Hm3 by (by eapply maintains_trans).
  pose proof H3 as (HI3 & Hk3 & _). pose proof (k_incarnation _ _ _ Hk3) as Hinc3.
  destruct (alloc_dedicated_spec env live extra size p3 HI3) as (p4 & r4 & -> & H4 & _); [lia|].
  exists p4, r4. split; [done|]. destruct r4 as [a|e]; [|by eapply maintains_trans].
  destruct H4 as [H4 _]. rewrite Hinc3, Hinc2 in H4. by eapply hands_out_trans.
Qed.

(** What every allocating method returns: a handle or an error, over a sound pool. *)
Definition alloc_result (live : list MemHandle) (extra : BudgetKind → Z) (size : Z) (p p' : MemPool)
    (r : MemHandle + PoolError) : Prop :=
  match r with
  | inl h => hands_out live extra size p p' h
  | inr _ => maintains live extra p p'
  end.

Lemma alloc_handle_spec env live extra size p :
  pool_inv p live extra → 0 <= size →
  ∃ p' r, alloc_handle env p size = Ok (p', r) ∧ alloc_result live extra size p p' r.
Proof.
  intros HI Hs. unfold alloc_handle. rewrite (pi_peer _ _ _ _ _ HI).
  destruct (Z.eqb_spec size 0). { eexists _, (inr _). split; [done|]. split_and!; [done|apply keeps_refl|done]. }
  destruct (alloc_shm_spec env live extra size p HI) as (p1 & r1 & -> & H1); [lia|]. cbn [res_bind].
  destruct r1 as [a|e].
  { eexists _, (inl _). split; [done|]. simpl. by rewrite (hands_out_shm _ _ _ _ _ _ H1). }
  pose proof H1 as (HI1 & _). destruct (alloc_file_spill_spec env live extra size p1 HI1 Hs) as (p2 & r2 & -> & H2).
  cbn [res_bind]. exists p2. destruct r2 as [h|e2]; [exists (inl h)|exists (inr (Backing e2))]; (split; [done|]).
  - by eapply hands_out_trans.
  - by eapply maintains_trans.
Qed.

Lemma shm_only_spec env live extra size p :
  pool_inv p live extra → 0 <= size →
  (∃ p' r, alloc_shm_handle env p size = Ok (p', r) ∧ alloc_result live extra size p p' r)
  ∧ ∃ p' r, try_alloc_shm env p size = Ok (p', r) ∧ alloc_result live extra size p p' r.
Proof.
  intros HI Hs. unfold alloc_shm_handle, alloc, try_alloc_shm. rewrite (pi_peer _ _ _ _ _ HI).
  assert (maintains live extra p p) as Href by (split_and!; [done|apply keeps_refl|done]).
  destruct (Z.eqb_spec size 0); [by split; eexists _, (inr _)|].
  destruct (alloc_shm_spec env live extra size p HI) as (p1 & r1 & -> & H1); [lia|]. cbn [res_bind].
  destruct r1 as [a|e]; [|by split; eexists _, (inr _)].
  split; eexists _, (inl _); (split; [done|]); unfold into_handle; simpl; by rewrite (hands_out_shm _ _ _ _ _ _ H1).
Qed.

(** ** Release *)

Lemma live_shm p live extra a o n :
  pool_inv p live extra → Shm a o n ∈ live →
  o = incarnation p ∧ 0 <= n <= pa_actual_size a
  ∧ validate_generation p (seg_idx a) (generation a) (is_dedicated a) = Ok tt
  ∧ if is_dedicated a then
      ∃ e, dedicated p !! seg_idx a = Some e ∧ pa_offset a = 0 ∧ pa_actual_size a = ds_size (de_segment e)
    else 0 <= seg_idx a ∧ ∃ s, segment p (Z.to_nat (seg_idx a)) = Some s.
Proof.
  intros HI Hin. pose proof (pi_handles _ _ _ _ _ HI) as Hh. rewrite Forall_forall in Hh.
  destruct (Hh _ Hin) as [-> Hn]. split; [done|]. split; [done|]. unfold validate_generation, segment_generation.
  destruct (is_dedicated a) eqn:Ha.
  - pose proof (di_slot _ _ _ (pi_dedicated _ _ _ _ _ HI) (seg_idx a)) as Hs.
    assert (a ∈ on_slot (seg_idx a) live) as He.
    { apply list_elem_of_omap. exists (Shm a (incarnation p) n). split; [done|]. simpl. by rewrite Ha, Z.eqb_refl. }
    destruct (dedicated p !! seg_idx a) as [e|] eqn:Hd; [|rewrite Hs in He; by apply elem_of_nil in He].
    destruct Hs as (Hk & _ & Hpos & _ & a' & Hs & Hg & Ho & Hsz). rewrite Hs in He. apply list_elem_of_singleton in He as ->.
    simpl. rewrite bool_decide_true by (by f_equal). split; [|by eauto].
    destruct (_ || _) eqn:Hb; [unfold U16_MAX in *; lia|done].
  - destruct (bi_live _ _ _ _ _ _ (pi_buddy _ _ _ _ _ HI) _ _ _ Hin Ha) as (Hk & Hpos & Hg).
    pose proof (on_segment_elem _ _ _ _ Hin Ha Hk) as He.
    pose proof (bi_seg _ _ _ _ _ _ (pi_buddy _ _ _ _ _ HI) (Z.to_nat (seg_idx a))) as Hs.
    fold (segment p (Z.to_nat (seg_idx a))) in Hs.
    destruct (segment p (Z.to_nat (seg_idx a))) as [s|] eqn:Hseg; [|rewrite Hs in He; by apply elem_of_nil in He].
    rewrite bool_decide_true by done. split; [|by eauto].
    pose proof (segment_lt _ _ _ Hseg). pose proof (bi_max _ _ _ _ _ _ (pi_buddy _ _ _ _ _ HI)) as Hmx.
    unfold blen in Hmx. destruct (_ || _) eqn:Hb; [lia|done].
Qed.

Lemma gen_live_tail gens h live : gen_live gens (h :: live) → gen_live gens live.
Proof. intros H a o n Hin. apply (H a o n). by right. Qed.

Lemma free_buddy_spec now live extra p a o n :
  pool_inv p (Shm a o n :: live) extra → is_dedicated a = false →
  ∃ p', free_buddy now p a = Ok p' ∧ pool_inv p' live extra ∧ keeps live p p'.
Proof.
  intros HI Ha. destruct (live_shm p _ extra a o n HI ltac:(left)) as (_ & _ & _ & Hcase). rewrite Ha in Hcase.
  destruct Hcase as (Hk & s & Hs). unfold free_buddy. set (i := Z.to_nat (seg_idx a)) in *. rewrite Hs. cbn [expect_some res_bind].
  destruct (seg_live L m _ _ _ _ _ HI Hs) as (A & HA & Hp & Hmem & Hg).
  rewrite on_segment_cons in Hp. simpl in Hp. rewrite Ha in Hp.
  rewrite (proj2 (Z.eqb_eq (seg_idx a) (Z.of_nat i)) ltac:(subst i; lia)) in Hp. simpl in Hp.
  apply Permutation_map_inv in Hp as (A' & Heq & HpA). destruct A' as [|[l j] A']; [done|].
  injection Heq as Ho Hsz Hl Hxs.
  destruct (buddy_free_spec L m (bs_alloc s) A' l j) as (b & Hf & Hb & _); [by eapply ba_inv_perm|].
  rewrite Ho, Hl. cbn [block_alloc offset fst snd] in Hf. rewrite Hf. cbn [expect res_bind].
  set (s' := {| bs_alloc := b; bs_mem := bs_mem s; bs_guard := bs_guard s |}).
  set (p1 := set_segments p _ _).
  assert (pool_inv p1 live extra) as HI1.
  { eapply (inv_replace L m p p1 _ live extra extra i s (Some s') HI Hs); try done.
    - exists A'. split; [done|]. split; [|done]. by rewrite Hxs.
    - intros k Hne. rewrite on_segment_cons. simpl. rewrite Ha.
      destruct (Z.eqb_spec (seg_idx a) (Z.of_nat k)); [lia|done].
    - intros k. rewrite on_slot_cons. simpl. by rewrite Ha.
    - eapply gen_live_tail. apply (bi_live _ _ _ _ _ _ (pi_buddy _ _ _ _ _ HI)).
    - pose proof (pi_handles _ _ _ _ _ HI) as Hh. by apply Forall_cons in Hh as [_ ?].
    - intros k. by eapply extra_nonneg.
    - intros k. simpl. case_decide; lia. }
  assert (keeps live p p1) as Hk1.
  { apply (keeps_incl (Shm a o n :: live)); [intros; by right|].
    pose proof (segment_insert p p1 i _ eq_refl (segment_lt _ _ _ Hs)) as Hseg.
    split; try done.
    - eapply view_segment; [apply (pi_buddy _ _ _ _ _ HI)|done|exact Hseg|]. left. by rewrite Hs.
    - eapply retired_segment; [done..|exact Hseg|]. by eauto. }
  destruct (Z.eqb_spec (seg_count s') 0) as [Hc|]; [|by eauto]. destruct (retain_idle_backing p1).
  - pose proof (bi_idle _ _ _ _ _ _ (pi_buddy _ _ _ _ _ HI)) as Hid. pose proof (segment_lt _ _ _ Hs).
    cbn [p1 set_segments idle_since]. unfold blen. rewrite (proj2 (Z.ltb_lt _ _)) by lia. cbn [guard_panic res_bind].
    eexists. split; [done|]. split; [|eapply keeps_trans; [done|by apply keeps_same]].
    apply (pool_inv_same L m p1); try done. simpl. by rewrite length_insert.
  - destruct (take_segment_spec L m p1 live extra i s' HI1) as (p2 & -> & HI2 & Hk2 & _); [|done|].
    + rewrite (segment_insert p p1 i (Some s') eq_refl (segment_lt _ _ _ Hs)). by rewrite decide_True.
    + exists p2. split_and!; [done..|by eapply keeps_trans].
Qed.

Lemma free_dedicated_spec live extra p a o n e :
  pool_inv p (Shm a o n :: live) extra → is_dedicated a = true → dedicated p !! seg_idx a = Some e →
  ∃ cells, drop_guard p (ds_guard (de_segment e)) = Ok (set_cells p cells)
    ∧ let p' := set_dedicated (set_cells p cells) (delete (seg_idx a) (dedicated p)) (dedicated_generations p) in
      pool_inv p' live extra ∧ keeps live p p'.
Proof.
  intros HI Ha He. pose proof HI as [Hp Hc Hb [Hr Hds] Hh Hbud].
  pose proof (Hds (seg_idx a)) as Hsl. rewrite He in Hsl. destruct Hsl as (Hk & Hg & _ & _ & a' & Hs & _).
  rewrite on_slot_cons in Hs. simpl in Hs. rewrite Ha, Z.eqb_refl in Hs. simpl in Hs. injection Hs as <- Hnil.
  assert (∀ k, k ≠ seg_idx a → on_slot k (Shm a o n :: live) = on_slot k live) as Hother.
  { intros k Hne. rewrite on_slot_cons. simpl. rewrite Ha. destruct (Z.eqb_spec (seg_idx a) k); [lia|done]. }
  pose proof (ded_bytes_delete _ _ _ He) as Hdb. pose proof (blen_nonneg (ds_mem (de_segment e))) as Hnn.
  fold (ds_size (de_segment e)) in Hnn.
  assert (0 <= ded_bytes (delete (seg_idx a) (dedicated p))) by (apply sum_over_nonneg; intros; apply blen_nonneg).
  pose proof (pow_pos (L + m)). pose proof (extra_nonneg _ _ _ KShm HI). rewrite Hg.
  destruct (drop_guard_ok p _ _ KShm (ds_size (de_segment e)) Hbud) as (cells & -> & Hok).
  { assert (0 <= seg_number (segments p) * span) by (unfold seg_number, PoolInv.span; nia).
    unfold own_bytes. lia. }
  exists cells. split; [done|]. split.
  - split; simpl; try done.
    + destruct Hb as [? ? ? ? ? Hsg Hlv]. split; try done; [|by eapply gen_live_tail].
      intros i. specialize (Hsg i). rewrite on_segment_cons in Hsg. simpl in Hsg. by rewrite Ha in Hsg.
    + split; [done|]. intros k. destruct (decide (k = seg_idx a)) as [->|Hne]; [by rewrite lookup_delete_eq|].
      rewrite lookup_delete_ne by done. specialize (Hds k). unfold entry_ok in *. by rewrite (Hother k Hne) in Hds.
    + by apply Forall_cons in Hh as [_ ?].
    + apply Hok; [intros k; by eapply extra_nonneg|]. intros k. unfold own_bytes, file_bytes. simpl.
      rewrite Hdb. unfold sum_over. destruct k; simpl; lia.
  - split; try done.
    + intros a1 o1 n1 Hin. unfold view. destruct (is_dedicated a1) eqn:Ha1; [|done]. simpl.
      rewrite lookup_delete_ne; [done|]. intros Heq.
      assert (a1 ∈ on_slot (seg_idx a) live) as Hel; [|rewrite Hnil in Hel; by apply elem_of_nil in Hel].
      apply list_elem_of_omap. exists (Shm a1 o1 n1). split; [done|]. simpl. by rewrite Ha1, Heq, Z.eqb_refl.
    + intros [] k g; [|done]. unfold retired. simpl. intros [Hle Hne]. split; [done|].
      destruct (decide (k = seg_idx a)) as [->|]; [by rewrite lookup_delete_eq|by rewrite lookup_delete_ne].
Qed.

Lemma release_handle_spec now live extra p h :
  pool_inv p (h :: live) extra →
  ∃ p', release_handle now p h = Ok p' ∧ pool_inv p' live extra ∧ keeps live p p'.
Proof.
  intros HI. unfold release_handle. destruct h as [a o n|sm n].
  - destruct (live_shm p _ extra a o n HI ltac:(left)) as (-> & _ & Hv & Hcase). simpl.
    unfold pool_free. rewrite (pi_peer _ _ _ _ _ HI), Z.eqb_refl, Hv. cbn [negb guard_err expect res_bind].
    destruct (is_dedicated a) eqn:Ha.
    + destruct Hcase as (e & He & _). rewrite He.
      destruct (free_dedicated_spec live extra p a _ n e HI Ha He) as (cells & -> & HI' & Hk). cbn [res_bind]. by eauto.
    + destruct (free_buddy_spec now live extra p a _ n HI Ha) as (p' & -> & HI' & Hk). cbn [res_bind]. by eauto.
  - simpl. pose proof HI as [Hp Hc [] [Hr Hds] Hh Hbud]. apply Forall_cons in Hh as [[Hn Hg] Hh]. rewrite Hg.
    assert (0 <= file_bytes live) as Hfb.
    { apply sum_over_nonneg. intros []; [done|]. apply blen_nonneg. }
    destruct (drop_guard_ok p _ _ KFile (blen (sm_mem sm)) Hbud) as (cells & -> & Hok).
    { pose proof (extra_nonneg _ _ _ KFile HI). unfold own_bytes, file_bytes, sum_over in *. simpl. lia. }
    eexists. split; [done|]. split; [|by apply keeps_same]. split; simpl; try done.
    + split; try done. by eapply gen_live_tail.
    + apply Hok; [intros k; by eapply extra_nonneg|]. intros k. unfold own_bytes, file_bytes, sum_over.
      destruct k; simpl; lia.
Qed.
End ops.
