(* ===== verification/PoolRun.v ===== *)
(** Runs of an owner pool: access through live handles, prewarming, and the pool as a
    whole driven by any sequence of calls under any behaviour of the operating system. *)

From S2P Require Import Prelude.
From S2P Require Import Bytes.
From S2P Require Import BuddyTree.
From S2P Require Import Buddy.
From S2P Require Import Budget.
From S2P Require Import Float64.
From S2P Require Import Pressure.
From S2P Require Import Pool.
From S2P Require Import PoolInv.
From S2P Require Import PoolOps.

Section access.
Context (L m : nat).
Notation span := (span L m).
Notation pool_inv := (pool_inv L m).
Notation maintains := (maintains L m).

(** ** Where a live allocation lies *)

Lemma block_in_span A a b :
  ba_inv L m a A → b ∈ A →
  0 <= offset (block_alloc L m b) ∧ offset (block_alloc L m b) + actual_size (block_alloc L m b) <= span.
Proof.
  intros Ha Hb. destruct (part_valid_live _ _ _ (inv_part _ _ _ _ Ha) b Hb) as [Hl Hi]. simpl.
  unfold PoolInv.span. rewrite !pow_add, (pow_split L b.1 Hl).
  pose proof (pow_pos m). pose proof (pow_pos (L - b.1)). split; [nia|]. nia.
Qed.

Lemma place p live extra a o n :
  pool_inv p live extra → Shm a o n ∈ live →
  ∃ mem, view p a = Some mem ∧ data_ptr p a = Ok (mem, pa_offset a)
    ∧ 0 <= pa_offset a ∧ pa_offset a + pa_actual_size a <= blen mem.
Proof.
  intros HI Hin. destruct (live_shm L m p live extra a o n HI Hin) as (_ & _ & Hv & Hcase).
  unfold data_ptr, view. rewrite Hv. cbn [res_bind]. destruct (is_dedicated a) eqn:Ha.
  - destruct Hcase as (e & -> & -> & ->). exists (ds_mem (de_segment e)). done.
  - destruct Hcase as (Hk & s & Hs). rewrite Hs. exists (bs_mem s). split; [done|]. split; [done|].
    destruct (seg_live L m _ _ _ _ _ HI Hs) as (A & HA & Hp & Hmem & _).
    pose proof (on_segment_elem _ _ _ _ Hin Ha Hk) as He. rewrite Hp in He.
    apply list_elem_of_fmap in He as (b & Heq & Hb). destruct (block_in_span A _ b HA Hb) as [H1 H2].
    rewrite <-Heq in H1, H2. simpl in *. lia.
Qed.

(** What a live handle reads. *)
Lemma slice_live p live extra h :
  pool_inv p live extra → h ∈ live → ∃ b, handle_slice p h = Ok b ∧ blen b = handle_length h.
Proof.
  intros HI Hin. unfold handle_slice, checked_handle_slice. destruct h as [a o n|sm n].
  - destruct (live_shm L m p live extra a o n HI Hin) as (-> & Hn & _).
    destruct (place p live extra a _ n HI Hin) as (mem & _ & -> & Ho & Hend).
    simpl. rewrite (pi_peer _ _ _ _ _ HI), Z.eqb_refl. simpl. rewrite slice_span by lia.
    eexists. split; [done|]. apply blen_span; lia.
  - pose proof (pi_handles _ _ _ _ _ HI) as Hh. rewrite Forall_forall in Hh. destruct (Hh _ Hin) as [Hn _].
    simpl. rewrite (slice_span (sm_mem sm) 0 n) by lia. eexists. split; [done|]. apply (blen_span _ 0); lia.
Qed.

Lemma slice_shm p live extra a o n mem :
  pool_inv p live extra → Shm a o n ∈ live → view p a = Some mem →
  handle_slice p (Shm a o n) = slice mem (pa_offset a) (pa_offset a + n).
Proof.
  intros HI Hin Hv. destruct (place p live extra a o n HI Hin) as (mem' & Hv' & Hd & Ho & Hend).
  rewrite Hv in Hv'. injection Hv' as <-. destruct (live_shm L m p live extra a o n HI Hin) as (-> & Hn & _).
  unfold handle_slice, checked_handle_slice. simpl. rewrite (pi_peer _ _ _ _ _ HI), Z.eqb_refl, Hd. simpl.
  by rewrite !slice_span by lia.
Qed.

Lemma validate_live p live extra h : pool_inv p live extra → h ∈ live → validate_handle p h = Ok tt.
Proof.
  intros HI Hin. unfold validate_handle. destruct h as [a o n|sm n]; [|done].
  destruct (live_shm L m p live extra a o n HI Hin) as (-> & _ & _).
  destruct (place p live extra a _ n HI Hin) as (mem & _ & Hd & _). simpl.
  by rewrite (pi_peer _ _ _ _ _ HI), Z.eqb_refl, Hd.
Qed.

(** Steps that keep the memory of a handle keep what it reads. *)
Lemma keeps_slice p p' live live' live0 extra extra' h :
  pool_inv p live extra → pool_inv p' live' extra' → keeps live0 p p' →
  h ∈ live0 → h ∈ live → h ∈ live' → handle_slice p' h = handle_slice p h.
Proof.
  intros HI HI' Hk H0 H1 H2. destruct h as [a o n|sm n]; [|done].
  destruct (place p live extra a o n HI H1) as (mem & Hv & _).
  rewrite (slice_shm p live extra a o n mem HI H1 Hv).
  apply (slice_shm p' live' extra'); [done..|]. by rewrite (k_view _ _ _ Hk a o n H0).
Qed.

(** ** Writing through a handle *)

(** A dedicated slot has one owner. *)
Lemma slot_alone p live extra a o n a' o' n' :
  pool_inv p (Shm a o n :: live) extra → Shm a' o' n' ∈ live →
  is_dedicated a = true → is_dedicated a' = true → seg_idx a' ≠ seg_idx a.
Proof.
  intros HI Hin Ha Ha' Heq. pose proof (di_slot _ _ _ (pi_dedicated _ _ _ _ _ HI) (seg_idx a)) as Hsl.
  assert (a' ∈ on_slot (seg_idx a) live) as Hel.
  { apply list_elem_of_omap. exists (Shm a' o' n'). split; [done|]. simpl. by rewrite Ha', Heq, Z.eqb_refl. }
  destruct (dedicated p !! seg_idx a) as [e|]; [destruct Hsl as (_ & _ & _ & _ & a0 & Hsl & _)|];
    rewrite on_slot_cons in Hsl; simpl in Hsl; rewrite Ha, Z.eqb_refl in Hsl; [|done].
  injection Hsl as _ Hnil. rewrite Hnil in Hel. by apply elem_of_nil in Hel.
Qed.

Lemma write_span_ok {E} mem base len off d :
  0 <= base → 0 <= len → base + len <= blen mem → 0 <= off → off + blen d <= len →
  let b := take (Z.to_nat len) (drop (Z.to_nat base) mem) in
  write_span (E:=E) mem base len off d = Ok (splice mem base (splice b off d))
  ∧ blen (splice b off d) = len.
Proof.
  intros. unfold write_span. assert (blen b = len) as Hb by (by apply blen_span).
  rewrite slice_span by done. cbn [res_bind]. fold b. rewrite store_splice by lia. cbn [res_bind].
  assert (blen (splice b off d) = len) as Hl by (by rewrite blen_splice by lia).
  split; [|done]. apply store_splice; lia.
Qed.

(** Two live buddy allocations of one segment are disjoint. *)
Lemma live_disjoint p live extra a o n h' a' o' n' :
  pool_inv p (Shm a o n :: live) extra → h' = Shm a' o' n' → h' ∈ live →
  is_dedicated a = false → is_dedicated a' = false → seg_idx a' = seg_idx a →
  pa_offset a' + pa_actual_size a' <= pa_offset a ∨ pa_offset a + pa_actual_size a <= pa_offset a'.
Proof.
  intros HI -> Hin Ha Ha' Heq. set (i := Z.to_nat (seg_idx a)).
  destruct (live_shm L m p _ extra a o n HI ltac:(left)) as (_ & _ & _ & Hc). rewrite Ha in Hc.
  destruct Hc as (Hk & s & Hs). destruct (seg_live L m _ _ _ _ _ HI Hs) as (A & HA & Hp & _).
  rewrite on_segment_cons in Hp. simpl in Hp. rewrite Ha in Hp.
  rewrite (proj2 (Z.eqb_eq (seg_idx a) (Z.of_nat (Z.to_nat (seg_idx a)))) ltac:(lia)) in Hp. simpl in Hp.
  apply Permutation_map_inv in Hp as (A' & Hm & HpA). destruct A' as [|b A']; [done|].
  injection Hm as Ho Hsz Hl Hxs. pose proof (inv_part _ _ _ _ (ba_inv_perm L m _ _ _ HpA HA)) as HP.
  pose proof (fresh_disjoint L m _ A' b HP) as Hd. rewrite Forall_forall in Hd.
  pose proof (on_segment_elem _ _ _ _ Hin Ha' ltac:(lia)) as He. rewrite Heq, Hxs in He.
  specialize (Hd _ He). unfold overlaps in Hd. simpl in Hd, Ho, Hsz. rewrite <-Ho, <-Hsz in Hd. lia.
Qed.

(** What other handles read, and what is retired, is unchanged. *)
Record evolves (live : list MemHandle) (p p' : MemPool) : Prop := {
  e_config : config p' = config p;
  e_incarnation : incarnation p' = incarnation p;
  e_slice h : h ∈ live → handle_slice p' h = handle_slice p h;
  e_latest ded k : latest p ded k <= latest p' ded k;
  e_retired ded k g : retired p ded k g → retired p' ded k g }.

(** The common part of the two shared-memory cases: the backing of [a] now reads
    [mem'], and every other backing reads what it did. *)
Lemma write_shm p p' live extra a o n off d mem :
  pool_inv p (Shm a o n :: live) extra → pool_inv p' (Shm a o n :: live) extra →
  config p' = config p → incarnation p' = incarnation p →
  (∀ ded k, latest p ded k <= latest p' ded k) →
  (∀ ded k g, retired p ded k g → retired p' ded k g) →
  0 <= off → off + blen d <= n → view p a = Some mem →
  let b := take (Z.to_nat n) (drop (Z.to_nat (pa_offset a)) mem) in
  view p' a = Some (splice mem (pa_offset a) (splice b off d)) →
  (∀ a' o' n', Shm a' o' n' ∈ live →
     view p' a' = view p a'
     ∨ is_dedicated a = false ∧ is_dedicated a' = false ∧ seg_idx a' = seg_idx a) →
  handle_slice p (Shm a o n) = Ok b ∧ handle_slice p' (Shm a o n) = Ok (splice b off d) ∧ evolves live p p'.
Proof.
  intros HI HI' Hc Hinc Hlat Hret Hoff Hd Hv b Hv' Hother.
  destruct (place p _ extra a o n HI ltac:(left)) as (mem0 & Hv0 & _ & Ho & Hend).
  rewrite Hv in Hv0. injection Hv0 as <-.
  destruct (live_shm L m p _ extra a o n HI ltac:(left)) as (_ & Hn & _).
  destruct (write_span_ok (E:=unit) mem (pa_offset a) n off d ltac:(lia) ltac:(lia) ltac:(lia) Hoff Hd) as [_ Hlen].
  fold b in Hlen. split_and!.
  - rewrite (slice_shm p _ extra a o n mem HI ltac:(left) Hv). apply slice_span; lia.
  - rewrite (slice_shm p' _ extra a o n _ HI' ltac:(left) Hv').
    replace (pa_offset a + n) with (pa_offset a + blen (splice b off d)) by lia. apply slice_splice_here; lia.
  - split; try done. intros h Hin. destruct h as [a' o' n'|sm n']; [|done].
    destruct (place p _ extra a' o' n' HI ltac:(by right)) as (mem1 & Hv1 & _ & Ho1 & Hend1).
    destruct (live_shm L m p _ extra a' o' n' HI ltac:(by right)) as (_ & Hn1 & _).
    rewrite (slice_shm p _ extra a' o' n' mem1 HI ltac:(by right) Hv1).
    destruct (Hother a' o' n' Hin) as [Heq|(Ha & Ha' & Hidx)].
    { apply (slice_shm p' (Shm a o n :: live) extra); [done|by right|by rewrite Heq]. }
    assert (view p a' = view p a ∧ view p' a' = view p' a) as [E1 E2] by (unfold view; by rewrite Ha, Ha', Hidx).
    rewrite E1, Hv in Hv1. injection Hv1 as <-.
    rewrite (slice_shm p' _ extra a' o' n' _ HI' ltac:(by right) (eq_trans E2 Hv')).
    pose proof (live_disjoint p live extra a o n _ a' o' n' HI eq_refl Hin Ha Ha' Hidx).
    apply slice_splice_frame; lia.
Qed.

Lemma write_buddy p live extra a o n s mem' :
  pool_inv p (Shm a o n :: live) extra → is_dedicated a = false →
  segment p (Z.to_nat (seg_idx a)) = Some s → blen mem' = blen (bs_mem s) →
  let p' := set_segments p (<[Z.to_nat (seg_idx a) := Some {| bs_alloc := bs_alloc s; bs_mem := mem'; bs_guard := bs_guard s |}]>
                              (segments p)) (idle_since p) in
  pool_inv p' (Shm a o n :: live) extra ∧ (∀ ded k g, retired p ded k g → retired p' ded k g)
  ∧ ∀ j, segment p' j = if decide (j = Z.to_nat (seg_idx a))
                        then Some {| bs_alloc := bs_alloc s; bs_mem := mem'; bs_guard := bs_guard s |} else segment p j.
Proof.
  intros HI Ha Hs Hlen p'. pose proof (segment_insert p p' _ _ eq_refl (segment_lt _ _ _ Hs)) as Hseg.
  destruct (seg_live L m _ _ _ _ _ HI Hs) as (A & HA & Hp & Hmem & Hg). split_and!; [| |done].
  - eapply (inv_replace L m p p' _ _ extra extra _ s); try done.
    + exists A. split; [done|]. split; [done|]. simpl. by rewrite Hlen.
    + apply (bi_live _ _ _ _ _ _ (pi_buddy _ _ _ _ _ HI)).
    + apply (pi_handles _ _ _ _ _ HI).
    + intros k. by eapply extra_nonneg.
    + intros k. simpl. case_decide; lia.
  - eapply retired_segment; [done..|exact Hseg|]. by eauto.
Qed.

Lemma write_dedicated p live extra a o n e mem' :
  pool_inv p (Shm a o n :: live) extra → dedicated p !! seg_idx a = Some e →
  blen mem' = ds_size (de_segment e) →
  let p' := set_dedicated p (<[seg_idx a := {| de_segment := {| ds_mem := mem'; ds_guard := ds_guard (de_segment e) |};
                                              de_generation := de_generation e |}]> (dedicated p))
              (dedicated_generations p) in
  pool_inv p' (Shm a o n :: live) extra ∧ (∀ ded k g, retired p ded k g → retired p' ded k g).
Proof.
  intros [Hp Hc Hb [Hr Hds] Hh Hbud] He Hlen p'. split.
  - split; simpl; try done.
    + split; [done|]. intros k. specialize (Hds k). destruct (decide (k = seg_idx a)) as [->|Hne].
      * rewrite lookup_insert_eq. rewrite He in Hds. destruct Hds as (? & Hg & ? & ? & a' & ? & ? & ? & Hsz).
        unfold entry_ok, ds_size in *. simpl. rewrite Hlen. split_and!; try done; try lia. exists a'. by rewrite Hsz.
      * by rewrite lookup_insert_ne.
    + eapply budget_ok_shift; [done|intros k; by apply (extra_nonneg L m p (Shm a o n :: live))|].
      intros k. unfold own_bytes. simpl. rewrite <-insert_delete_eq, ded_bytes_insert by apply lookup_delete_eq.
      simpl. rewrite (ded_bytes_delete _ _ _ He). unfold ds_size at 1. simpl. rewrite Hlen. done.
  - intros [] k g; [|done]. unfold retired. simpl. intros [Hle Hne]. split; [done|].
    destruct (decide (k = seg_idx a)) as [->|]; [|by rewrite lookup_insert_ne]. rewrite lookup_insert_eq.
    by rewrite He in Hne.
Qed.

Lemma write_spec p live extra h off d :
  pool_inv p (h :: live) extra → 0 <= off → off + blen d <= handle_length h →
  ∃ p' h' b, handle_slice_mut p h off d = Ok (p', h') ∧ handle_slice p h = Ok b
    ∧ handle_slice p' h' = Ok (splice b off d) ∧ pool_inv p' (h' :: live) extra
    ∧ handle_length h' = handle_length h ∧ evolves live p p'.
Proof.
  intros HI Hoff Hd. unfold handle_slice_mut. destruct h as [a o n|sm n]; simpl in Hd.
  - destruct (live_shm L m p _ extra a o n HI ltac:(left)) as (Ho & Hn & _ & Hcase).
    destruct (place p _ extra a o n HI ltac:(left)) as (mem & Hv & Hdp & Hpo & Hend).
    subst o. simpl. rewrite (pi_peer _ _ _ _ _ HI), Hdp, Z.eqb_refl. simpl. set (o := incarnation p) in *.
    destruct (write_span_ok (E:=Empty_set) mem (pa_offset a) n off d ltac:(lia) ltac:(lia) ltac:(lia) Hoff Hd) as [-> Hlen].
    cbn [res_bind]. set (b := take _ _) in *. set (mem' := splice mem _ _).
    assert (blen mem' = blen mem) as Hml by (apply blen_splice; lia).
    unfold view in Hv. destruct (is_dedicated a) eqn:Ha.
    + destruct Hcase as (e & He & _). rewrite He in Hv |- *. injection Hv as Hv. subst mem.
      destruct (write_dedicated p live extra a o n e mem' HI He Hml) as [HI' Hret].
      eexists _, (Shm a o n), b. split; [done|].
      edestruct (write_shm p _ live extra a o n off d (ds_mem (de_segment e)) HI HI') as (H1 & H2 & H3); [done..|unfold view; by rewrite Ha, He| | |].
      * unfold view. rewrite Ha. simpl. by rewrite lookup_insert_eq.
      * intros a' o' n' Hin. left. unfold view. destruct (is_dedicated a') eqn:Ha'; [|done]. simpl.
        rewrite lookup_insert_ne; [done|]. by eapply not_eq_sym, slot_alone.
      * by split_and!.
    + destruct Hcase as (Hk & s & Hs). rewrite Hs in Hv |- *. injection Hv as Hv. subst mem.
      destruct (write_buddy p live extra a o n s mem' HI Ha Hs Hml) as (HI' & Hret & Hseg).
      eexists _, (Shm a o n), b. split; [done|].
      edestruct (write_shm p _ live extra a o n off d (bs_mem s) HI HI') as (H1 & H2 & H3); [done..|unfold view; by rewrite Ha, Hs| | |].
      * unfold view. rewrite Ha, Hseg. by rewrite decide_True.
      * intros a' o' n' Hin. destruct (is_dedicated a') eqn:Ha'; [left; unfold view; by rewrite Ha'|].
        destruct (decide (seg_idx a' = seg_idx a)) as [Heq|Hne]; [by right|left].
        unfold view. rewrite Ha', Hseg. rewrite decide_False; [done|].
        destruct (bi_live _ _ _ _ _ _ (pi_buddy _ _ _ _ _ HI) a' o' n' ltac:(by right) Ha') as (? & _). lia.
      * by split_and!.
  - pose proof (pi_handles _ _ _ _ _ HI) as Hh. apply Forall_cons in Hh as [[Hn Hg] Hh].
    destruct (write_span_ok (E:=Empty_set) (sm_mem sm) 0 n off d ltac:(lia) ltac:(lia) ltac:(lia) Hoff Hd) as [Hw Hlen].
    simpl. rewrite Hw. cbn [res_bind]. rewrite drop_0 in *. set (b := take _ _) in *.
    set (mem' := splice (sm_mem sm) 0 _). assert (blen mem' = blen (sm_mem sm)) as Hml by (apply blen_splice; lia).
    eexists _, _, b. split; [done|]. split_and!.
    + unfold handle_slice, checked_handle_slice. simpl. rewrite (slice_span (sm_mem sm) 0 n) by lia. done.
    + unfold handle_slice, checked_handle_slice. simpl. rewrite (slice_at_off mem' 0 (splice b off d)); [done| |lia].
      apply splice_here; lia.
    + destruct HI as [? ? [] [? Hds] _ Hbud]. split; simpl; try done.
      * split; try done. eapply gen_live_cons; [by eapply gen_live_tail|done].
      * constructor; [|done]. simpl. by rewrite Hml.
      * eapply budget_ok_shift; [done|intros k; by destruct Hbud as (? & _ & Hk); apply Hk|].
        intros k. unfold own_bytes, file_bytes, sum_over. simpl. by rewrite Hml.
    + done.
    + by split.
Qed.

Lemma keeps_evolves p p' live live' extra extra' live0 :
  pool_inv p live extra → pool_inv p' live' extra' → keeps live0 p p' →
  (∀ h, h ∈ live0 → h ∈ live) → (∀ h, h ∈ live0 → h ∈ live') → evolves live0 p p'.
Proof.
  intros HI HI' Hk H1 H2. pose proof Hk as [Hc Hi _ Hl Hr]. split; try done. intros h Hin. eapply keeps_slice; eauto.
Qed.

Lemma maintains_evolves p p' live extra :
  pool_inv p live extra → maintains live extra p p' → pool_inv p' live extra ∧ evolves live p p'.
Proof. intros HI (HI' & Hk & _). split; [done|]. by eapply keeps_evolves. Qed.

(** ** Trimming a handle *)

Lemma trim_spec p live extra h n :
  pool_inv p (h :: live) extra → 0 <= n <= handle_length h →
  ∃ h' b, handle_trim_to h n = Ok h' ∧ handle_slice p h = Ok b
    ∧ handle_slice p h' = Ok (take (Z.to_nat n) b) ∧ pool_inv p (h' :: live) extra.
Proof.
  intros HI Hn. unfold handle_trim_to.
  destruct (Z.ltb_spec (handle_length h) n); [lia|]. cbn [guard_err res_bind].
  set (h' := match h with Shm a o _ => Shm a o n | FileSpill s _ => FileSpill s n end).
  destruct (slice_live p _ extra h HI ltac:(left)) as (b & Hb & Hbl). exists h', b. split; [done|]. split; [done|].
  assert (∀ i, buddy_at i h' = buddy_at i h) as Hat by (by destruct h).
  assert (∀ k, slot_at k h' = slot_at k h) as Hsl by (by destruct h).
  assert (pool_inv p (h' :: live) extra) as HI'.
  { destruct HI as [? ? [? ? ? ? ? Hsg Hlv] [? Hds] Hh Hbud]. apply Forall_cons in Hh as [Hh1 Hh]. split; try done.
    - split; try done.
      + intros i. rewrite on_segment_cons, Hat. apply (Hsg i).
      + intros a o k [Heq|Hin]%elem_of_cons; [|by apply (Hlv a o k); right].
        destruct h as [a0 o0 k0|]; [|done]. injection Heq as -> -> ->. apply (Hlv a0 o0 k0). by left.
    - split; [done|]. intros k. unfold entry_ok. rewrite on_slot_cons, Hsl. apply (Hds k).
    - constructor; [|done]. destruct h; simpl in *; destruct Hh1; split; first [done|lia].
    - destruct h; exact Hbud. }
  split; [|done]. destruct h as [a o k|sm k]; unfold h' in *; clear h'; cbn [handle_length] in *.
  - destruct (place p _ extra a o k HI ltac:(left)) as (mem & Hv & _ & Ho & Hend).
    destruct (live_shm L m p _ extra a o k HI ltac:(left)) as (_ & Hk & _).
    rewrite (slice_shm p _ extra a o n mem HI' ltac:(left) Hv).
    rewrite (slice_shm p _ extra a o k mem HI ltac:(left) Hv) in Hb.
    rewrite slice_span in Hb |- * by lia. injection Hb as <-. rewrite take_take. do 2 f_equal. lia.
  - pose proof (pi_handles _ _ _ _ _ HI) as Hh. apply Forall_cons in Hh as [[Hk _] _].
    unfold handle_slice, checked_handle_slice in *. simpl in *.
    rewrite (slice_span (sm_mem sm) 0 k) in Hb by lia. rewrite (slice_span (sm_mem sm) 0 n) by lia.
    injection Hb as <-. simpl. rewrite take_take. do 2 f_equal. lia.
Qed.

(** ** Prewarming *)

Lemma prewarm_spec envs count fuel p live extra :
  pool_inv p live extra → (Z.to_nat (count - segment_count p) <= fuel)%nat →
  ∃ p' r, prewarm fuel envs count p = Ok (Some (p', r)) ∧ maintains live extra p p'
    ∧ match r with inl _ => count <= segment_count p' | inr _ => segment_count p <= segment_count p' < count end.
Proof.
  revert p. induction fuel as [|fuel IH]; intros p HI Hf; simpl;
    (destruct (Z.ltb_spec (segment_count p) count);
     [|eexists _, (inl _); split; [done|]; split; [by split_and!; [|apply keeps_refl|]|done]]); [lia|].
  destruct (create_segment_spec L m (envs fuel) live extra p HI) as (p1 & r & Hcr & Hr). rewrite Hcr. cbn [res_bind].
  destruct r as [[idx s]|e].
  - destruct (install_segment_spec L m live extra p p1 idx s HI Hr) as (segs & idle & -> & Hm & _ & Hcnt & _).
    cbn [res_bind]. pose proof Hm as (HI2 & _). destruct (IH _ HI2) as (p' & r & -> & Hm' & Hres); [lia|].
    exists p', r. split; [done|]. split; [by eapply maintains_trans|]. destruct r; [done|lia].
  - destruct Hr as [Hm Hs]. exists p1, (inr e). split; [done|]. split; [done|].
    unfold segment_count in *. rewrite Hs. lia.
Qed.
End access.
