(* ===== verification/PoolSafe.v ===== *)
(** What the memory pool guarantees to its callers, over every sequence of calls and
    every behaviour of the operating system. *)

From S2P Require Import Prelude.
From S2P Require Import Bytes.
From S2P Require Import BuddyTree.
From S2P Require Import Buddy.
From S2P Require Import Budget.
From S2P Require Import Float64.
From S2P Require Import Pressure.
From S2P Require Import Pool.
From S2P Require Import PoolInv.
From S2P Require Import PoolOps.
From S2P Require Import PoolRun.

(** ** Calls *)

(** A call on the pool; a handle is named by its position among the live ones. *)
Inductive PoolCall :=
| CallAlloc (env : Env) (size : Z)
| CallAllocShm (env : Env) (size : Z)
| CallTryShm (env : Env) (size : Z)
| CallRelease (now : Z) (i : nat)
| CallWrite (i : nat) (off : Z) (data : bytes)
| CallTrim (i : nat) (n : Z)
| CallGc (now : Z)
| CallRetain (retain : bool)
| CallPrewarm (envs : nat → Env) (count : Z).

(** Sizes and offsets are unsigned. *)
Definition call_ok (c : PoolCall) : Prop :=
  match c with
  | CallAlloc _ n | CallAllocShm _ n | CallTryShm _ n | CallTrim _ n => 0 <= n
  | CallWrite _ off _ => 0 <= off
  | _ => True
  end.

Definition received (live : list MemHandle) (r : MemPool * (MemHandle + PoolError)) : MemPool * list MemHandle :=
  match r with (p, inl h) => (p, h :: live) | (p, inr _) => (p, live) end.

(** A write outside the handle is a bounds panic of the caller's slice expression, and
    prewarming gets [count] rounds. *)
Definition perform (c : PoolCall) (p : MemPool) (live : list MemHandle)
    : res Empty_set (MemPool * list MemHandle) :=
  match c with
  | CallAlloc env n => let? r := alloc_handle env p n in Ok (received live r)
  | CallAllocShm env n => let? r := alloc_shm_handle env p n in Ok (received live r)
  | CallTryShm env n => let? r := try_alloc_shm env p n in Ok (received live r)
  | CallRelease now i =>
      match live !! i with
      | Some h => let? p := release_handle now p h in Ok (p, delete i live)
      | None => Ok (p, live)
      end
  | CallWrite i off d =>
      match live !! i with
      | Some h =>
          if off + blen d <=? handle_length h
          then let? '(p, h) := handle_slice_mut p h off d in Ok (p, <[i := h]> live)
          else Ok (p, live)
      | None => Ok (p, live)
      end
  | CallTrim i n =>
      match live !! i with
      | Some h => match handle_trim_to h n with Ok h => Ok (p, <[i := h]> live) | _ => Ok (p, live) end
      | None => Ok (p, live)
      end
  | CallGc now => let? '(p, _) := gc_buddy now p in Ok (p, live)
  | CallRetain b => let? p := set_idle_backing_retention p b in Ok (p, live)
  | CallPrewarm envs n =>
      let? r := ensure_buddy_segments (Z.to_nat n) envs p n in
      match r with Some (p, _) => Ok (p, live) | None => Panic end
  end.

Fixpoint perform_all (cs : list PoolCall) (p : MemPool) (live : list MemHandle)
    : res Empty_set (MemPool * list MemHandle) :=
  match cs with
  | [] => Ok (p, live)
  | c :: cs => let? '(p, live) := perform c p live in perform_all cs p live
  end.

(** A new owner pool over a valid configuration and a budget within its limits. *)
Record started (c : PoolConfig) (cells : BudgetCells) (p : MemPool) : Prop := {
  st_new : ∃ prefix_len fresh, new_with_prefix_and_budget c prefix_len cells fresh = Ok p;
  st_unsigned : 0 <= segment_size c ∧ 0 <= min_block_size c ∧ 0 <= min_retained_segments c;
  st_cells k : 0 <= used_bytes (get_cell cells k) <= limit_bytes (get_cell cells k) }.

(** What the live handles read. *)
Definition contents (p : MemPool) (live : list MemHandle) : list bytes :=
  (fun h => match handle_slice p h with Ok b => b | _ => [] end) <$> live.

(** ** The abstract pool: a list of independent buffers *)

Definition buffers (c : PoolCall) (cs cs' : list bytes) : Prop :=
  match c with
  | CallAlloc _ n | CallAllocShm _ n | CallTryShm _ n =>
      cs' = cs ∨ ∃ b, blen b = n ∧ cs' = b :: cs
  | CallRelease _ i => cs' = delete i cs
  | CallWrite i off d =>
      cs' = match cs !! i with
            | Some b => if off + blen d <=? blen b then <[i := splice b off d]> cs else cs
            | None => cs
            end
  | CallTrim i n =>
      cs' = match cs !! i with
            | Some b => if n <=? blen b then <[i := take (Z.to_nat n) b]> cs else cs
            | None => cs
            end
  | CallGc _ | CallRetain _ | CallPrewarm _ _ => cs' = cs
  end.

(** ** One call *)

Section calls.
Context (L m : nat).
Notation pool_inv := (pool_inv L m).

Lemma contents_evolves p p' live : evolves live p p' → contents p' live = contents p live.
Proof.
  intros He. unfold contents. apply list_fmap_ext. intros i h Hh.
  by rewrite (e_slice _ _ _ He h) by (by eapply list_elem_of_lookup_2).
Qed.

Lemma live_split {A} (l : list A) i x :
  l !! i = Some x → l ≡ₚ x :: delete i l ∧ ∀ y, <[i := y]> l ≡ₚ y :: delete i l.
Proof.
  intros Hi. pose proof (delete_Permutation l i x Hi) as Hp. split; [done|]. intros y.
  rewrite insert_take_drop by (by eapply lookup_lt_Some). rewrite delete_take_drop. symmetry. apply Permutation_middle.
Qed.

(** What one call establishes. *)
Definition call_result (extra : BudgetKind → Z) (c : PoolCall) (p : MemPool) (live : list MemHandle)
    (p' : MemPool) (live' : list MemHandle) : Prop :=
  pool_inv p' live' extra ∧ buffers c (contents p live) (contents p' live')
  ∧ config p' = config p ∧ incarnation p' = incarnation p
  ∧ (∀ ded k, latest p ded k <= latest p' ded k)
  ∧ (∀ ded k g, retired p ded k g → retired p' ded k g).

Lemma call_alloc extra p live size (r : outcome PoolError MemHandle) p' r' c :
  pool_inv p live extra → r = Ok (p', r') → alloc_result L m live extra size p p' r' →
  (∀ cs cs', (cs' = cs ∨ ∃ b, blen b = size ∧ cs' = b :: cs) → buffers c cs cs') →
  ∃ p2 live2, (let? x := r in Ok (received live x)) = Ok (p2, live2) ∧ call_result extra c p live p2 live2.
Proof.
  intros HI -> Hr Hb. simpl. destruct r' as [h|e]; simpl in *.
  - destruct Hr as (HI' & Hk & Hl). exists p', (h :: live). split; [done|].
    assert (evolves live p p') as He.
    { apply (keeps_evolves L m p p' live (h :: live) extra extra); try done. by right. }
    destruct (slice_live L m p' _ extra h HI' ltac:(left)) as (b & Hs & Hbl).
    split; [done|]. split; [|by destruct He]. apply Hb. right. exists b. split; [lia|].
    unfold contents. simpl. rewrite Hs. f_equal. by apply contents_evolves.
  - destruct (maintains_evolves L m p p' live extra HI Hr) as [HI' He]. exists p', live. split; [done|].
    split; [done|]. split; [|by destruct He]. apply Hb. left. by apply contents_evolves.
Qed.

Lemma call_maintains extra p live p' c :
  pool_inv p live extra → maintains L m live extra p p' → (∀ cs, buffers c cs cs) →
  call_result extra c p live p' live.
Proof.
  intros HI Hm Hb. destruct (maintains_evolves L m p p' live extra HI Hm) as [HI' He].
  split; [done|]. split; [|by destruct He]. rewrite (contents_evolves p p' live He). apply Hb.
Qed.

Lemma retention_spec extra p live b :
  pool_inv p live extra →
  ∃ p', set_idle_backing_retention p b = Ok p' ∧ pool_inv p' live extra ∧ keeps live p p'.
Proof.
  intros HI. unfold set_idle_backing_retention. set (p1 := set_retain p b).
  assert (pool_inv p1 live extra) as HI1 by (by apply (pool_inv_same L m p)).
  assert (keeps live p p1) as Hk1 by (by apply keeps_same). destruct b; [by eauto|].
  destruct (drop_idle_spec L m live extra (length (segments p1)) 0 p1 HI1) as (p' & -> & (HI' & Hk & _) & _).
  exists p'. split; [done|]. split; [done|by eapply keeps_trans].
Qed.

Lemma ensure_spec extra p live envs count fuel :
  pool_inv p live extra → (Z.to_nat count <= fuel)%nat →
  ∃ p' r, ensure_buddy_segments fuel envs p count = Ok (Some (p', r)) ∧ maintains L m live extra p p'
    ∧ match r with inl _ => count <= segment_count p' | inr _ => True end.
Proof.
  intros HI Hf. unfold ensure_buddy_segments.
  assert (maintains L m live extra p p) as Href by (split_and!; [done|apply keeps_refl|done]).
  repeat (case_match; [by eexists _, (inr _)|]).
  destruct (prewarm_spec L m envs count fuel p live extra HI) as (p' & r & -> & Hm & Hr).
  { unfold segment_count. lia. }
  eexists p', _. split; [done|]. split; [done|]. by destruct r.
Qed.

Lemma contents_lookup p live i : contents p live !! i = (fun h => match handle_slice p h with Ok b => b | _ => [] end) <$> live !! i.
Proof. unfold contents. by rewrite list_lookup_fmap. Qed.

Lemma call_release extra p live now i :
  pool_inv p live extra →
  ∃ p' live', perform (CallRelease now i) p live = Ok (p', live')
    ∧ call_result extra (CallRelease now i) p live p' live'.
Proof.
  intros HI. simpl. destruct (live !! i) as [h|] eqn:Hi.
  - destruct (live_split live i h Hi) as [Hp _].
    pose proof (pool_inv_perm L m p live _ extra Hp HI) as HI1.
    destruct (release_handle_spec L m now (delete i live) extra p h HI1) as (p' & -> & HI' & Hk). simpl.
    eexists _, _. split; [done|].
    pose proof (keeps_evolves L m p p' _ _ extra extra (delete i live) HI1 HI' Hk ltac:(by right) ltac:(done)) as He.
    split; [done|]. split; [|by destruct He]. simpl. rewrite (contents_evolves _ _ _ He).
    unfold contents. apply list_fmap_delete.
  - eexists _, _. split; [done|]. split; [done|]. split; [|done]. simpl.
    apply lookup_ge_None in Hi. unfold contents.
    by rewrite delete_take_drop, take_ge, drop_ge, app_nil_r by (rewrite length_fmap; lia).
Qed.

(** Replacing the handle at a position, the others reading what they did. *)
Lemma contents_insert p p' live i h b :
  (i < length live)%nat → evolves (delete i live) p p' → handle_slice p' h = Ok b →
  contents p' (<[i := h]> live) = <[i := b]> (contents p live).
Proof.
  intros Hi He Hs. apply list_eq. intros j. unfold contents. rewrite list_lookup_fmap.
  destruct (decide (j = i)) as [->|Hne].
  - rewrite !list_lookup_insert_eq by (by rewrite ?length_fmap). simpl. by rewrite Hs.
  - rewrite !list_lookup_insert_ne, list_lookup_fmap by done. destruct (live !! j) as [g|] eqn:Hj; [|done].
    simpl. rewrite (e_slice _ _ _ He g); [done|]. rewrite delete_take_drop. apply elem_of_app.
    destruct (decide (j < i)%nat); [left|right]; apply list_elem_of_lookup.
    + exists j. by rewrite lookup_take_lt.
    + exists (j - S i)%nat. rewrite lookup_drop. rewrite <-Hj. f_equal. lia.
Qed.

Lemma call_write extra p live i off d :
  pool_inv p live extra → 0 <= off →
  ∃ p' live', perform (CallWrite i off d) p live = Ok (p', live')
    ∧ call_result extra (CallWrite i off d) p live p' live'.
Proof.
  intros HI Hoff. unfold perform, call_result, buffers. rewrite contents_lookup.
  destruct (live !! i) as [h|] eqn:Hi; [|by eexists _, _].
  destruct (live_split live i h Hi) as [Hp Hins].
  pose proof (pool_inv_perm L m p live _ extra Hp HI) as HI1. simpl.
  destruct (slice_live L m p _ extra h HI1 ltac:(left)) as (b0 & Hb0 & Hl0). rewrite Hb0, Hl0.
  destruct (Z.leb_spec (off + blen d) (handle_length h)); [|by eexists _, _].
  destruct (write_spec L m p (delete i live) extra h off d HI1 Hoff ltac:(done)) as (p' & h' & b & -> & Hb & Hb' & HI' & _ & He).
  rewrite Hb0 in Hb. injection Hb as <-. simpl. eexists _, _. split; [done|]. split_and!; [|by apply contents_insert; [eapply lookup_lt_Some| |]|by destruct He..].
  eapply pool_inv_perm; [symmetry; apply Hins|done].
Qed.

Lemma call_trim extra p live i n :
  pool_inv p live extra → 0 <= n →
  ∃ p' live', perform (CallTrim i n) p live = Ok (p', live')
    ∧ call_result extra (CallTrim i n) p live p' live'.
Proof.
  intros HI Hn. unfold perform, call_result, buffers. rewrite contents_lookup.
  destruct (live !! i) as [h|] eqn:Hi; [|by eexists _, _].
  destruct (live_split live i h Hi) as [Hp Hins].
  pose proof (pool_inv_perm L m p live _ extra Hp HI) as HI1. simpl.
  destruct (slice_live L m p _ extra h HI1 ltac:(left)) as (b0 & Hb0 & Hl0). rewrite Hb0, Hl0.
  destruct (Z.leb_spec n (handle_length h)).
  - destruct (trim_spec L m p (delete i live) extra h n HI1 ltac:(lia)) as (h' & b & -> & Hb & Hb' & HI').
    rewrite Hb0 in Hb. injection Hb as <-. eexists _, _. split; [done|]. split_and!; try done.
    + eapply pool_inv_perm; [symmetry; apply Hins|done].
    + apply contents_insert; [by eapply lookup_lt_Some| |done]. by split.
  - unfold handle_trim_to. rewrite (proj2 (Z.ltb_lt _ _)) by lia. simpl. by eexists _, _.
Qed.

Lemma perform_spec extra c p live :
  pool_inv p live extra → call_ok c →
  ∃ p' live', perform c p live = Ok (p', live') ∧ call_result extra c p live p' live'.
Proof.
  intros HI Hc. destruct c as [env n|env n|env n|now i|i off d|i n|now|b|envs n]; simpl in Hc |- *.
  - destruct (alloc_handle_spec L m env live extra n p HI Hc) as (p' & r & Hr & Ha).
    by eapply (call_alloc extra p live n _ p' r).
  - destruct (shm_only_spec L m env live extra n p HI Hc) as [(p' & r & Hr & Ha) _].
    by eapply (call_alloc extra p live n _ p' r).
  - destruct (shm_only_spec L m env live extra n p HI Hc) as [_ (p' & r & Hr & Ha)].
    by eapply (call_alloc extra p live n _ p' r).
  - by apply call_release.
  - by apply call_write.
  - by apply call_trim.
  - destruct (gc_buddy_spec L m live extra now p HI) as (p' & r & -> & Hm & _). simpl.
    eexists _, _. split; [done|]. by apply call_maintains.
  - destruct (retention_spec extra p live b HI) as (p' & -> & HI' & Hk). simpl. eexists _, _. split; [done|].
    pose proof (keeps_evolves L m p p' live live extra extra live HI HI' Hk ltac:(done) ltac:(done)) as He.
    split; [done|]. split; [by apply contents_evolves|by destruct He].
  - destruct (ensure_spec extra p live envs n (Z.to_nat n) HI ltac:(done)) as (p' & r & -> & Hm & _). simpl.
    eexists _, _. split; [done|]. by apply call_maintains.
Qed.

(** ** Statistics *)

Lemma mapped_segment p live extra s :
  pool_inv p live extra → s ∈ omap id (segments p) → ∃ xs, seg_ok L m s xs.
Proof.
  intros HI (so & Hso & Hs)%list_elem_of_omap. simpl in Hs. subst so. apply list_elem_of_lookup in Hso as [i Hi].
  eexists. apply (seg_live L m p live extra i s HI). unfold segment. by rewrite Hi.
Qed.

Lemma segment_bytes p live extra :
  pool_inv p live extra →
  sum_over bs_size (omap id (segments p)) = seg_number (segments p) * span L m
  ∧ 0 <= sum_over (fun s => free_bytes (bstate (bs_alloc s))) (omap id (segments p))
         <= sum_over bs_size (omap id (segments p)).
Proof.
  intros HI.
  assert (∀ s, s ∈ omap id (segments p) → bs_size s = span L m ∧ 0 <= free_bytes (bstate (bs_alloc s)) <= bs_size s) as Hs.
  { intros s Hin. destruct (mapped_segment _ _ _ _ HI Hin) as (xs & A & HA & _ & Hmem & _).
    unfold bs_size. rewrite Hmem. split; [done|]. rewrite (inv_bytes _ _ _ _ HA), (inv_data _ _ _ _ HA). fold (span L m).
    pose proof (total_bytes L m _ _ HA) as Ht. rewrite (inv_data _ _ _ _ HA) in Ht. fold (span L m) in Ht.
    assert (0 <= total L A * pow m); [|lia]. pose proof (pow_pos m).
    assert (0 <= total L A); [|nia].
    clear. induction A as [|b A IH]; simpl; [lia|]. assert (0 < bsize L b) by apply pow_pos. lia. }
  split.
  - rewrite (sum_over_ext bs_size (fun _ => span L m)) by (intros; by apply Hs). by rewrite sum_over_const.
  - induction (omap id (segments p)) as [|s l IH]; [done|]. unfold sum_over in *. simpl.
    destruct (Hs s ltac:(left)) as [_ ?]. destruct IH as [? ?]; [intros s' Hs'; apply Hs; by right|]. lia.
Qed.

Definition is_shm (h : MemHandle) : bool := if h is Shm _ _ _ then true else false.
Definition count_over (f : MemHandle → bool) (live : list MemHandle) : Z :=
  sum_over (fun h => if f h then 1 else 0) live.

Lemma sum_indicator k b n :
  sum_over (fun i => if decide (i = k) then 1 else 0) (seq b n)
  = if decide (b <= k < b + n)%nat then 1 else 0.
Proof.
  revert b. induction n as [|n IH]; intros b; simpl.
  { case_decide; [lia|done]. }
  unfold sum_over in *. simpl. rewrite IH. repeat case_decide; lia.
Qed.

Definition seg_key (h : MemHandle) : nat := match h with Shm a _ _ => Z.to_nat (seg_idx a) | _ => 0%nat end.

(** Every live buddy handle is counted by exactly one segment. *)
Lemma segments_count n live :
  (∀ a o k, Shm a o k ∈ live → is_dedicated a = false → 0 <= seg_idx a < Z.of_nat n) →
  sum_over (fun i => blen (on_segment i live)) (seq 0 n) = count_over is_buddy live.
Proof.
  induction live as [|h live IH]; intros Hin.
  { unfold on_segment. simpl. rewrite (sum_over_const 0). unfold count_over, sum_over. simpl. lia. }
  unfold count_over, sum_over at 2. cbn [foldr]. fold (sum_over (fun h => if is_buddy h then 1 else 0) live).
  fold (count_over is_buddy live). rewrite <-IH by (intros a o k H; apply (Hin a o k); by right).
  rewrite (sum_over_ext (fun i => blen (on_segment i (h :: live)))
             (fun i => (if is_buddy h then if decide (i = seg_key h) then 1 else 0 else 0) + blen (on_segment i live))).
  2:{ intros i _. rewrite on_segment_cons. destruct h as [a o k|]; [|done]. unfold is_buddy. simpl.
      destruct (is_dedicated a) eqn:Ha; simpl; [done|]. specialize (Hin a o k ltac:(left) Ha).
      destruct (Z.eqb_spec (seg_idx a) (Z.of_nat i)); case_decide; rewrite ?blen_cons; lia. }
  rewrite sum_over_add. f_equal. destruct (is_buddy h) eqn:Hb; [|rewrite sum_over_const; lia].
  destruct h as [a o k|]; [|done]. unfold is_buddy in Hb. simpl in Hb. apply negb_true_iff in Hb.
  specialize (Hin a o k ltac:(left) Hb). rewrite sum_indicator. simpl. case_decide; lia.
Qed.

Lemma omap_seq {A} (f : A → Z) (l : list (option A)) :
  sum_over f (omap id l) = sum_over (fun i => match mjoin (l !! i) with Some x => f x | None => 0 end) (seq 0 (length l)).
Proof.
  induction l as [|o l IH] using rev_ind; [done|].
  rewrite length_app, Nat.add_comm. simpl length. rewrite seq_S, omap_app, !sum_over_app. f_equal.
  - rewrite IH. apply sum_over_ext. intros i Hi%elem_of_seq. by rewrite lookup_app_l by lia.
  - simpl. rewrite list_lookup_middle by done. unfold sum_over. destruct o; simpl; lia.
Qed.

Lemma buddy_count p live extra :
  pool_inv p live extra → sum_over seg_count (omap id (segments p)) = count_over is_buddy live.
Proof.
  intros HI. rewrite omap_seq, <-(segments_count (length (segments p)) live).
  - apply sum_over_ext. intros i _. pose proof (bi_seg _ _ _ _ _ _ (pi_buddy _ _ _ _ _ HI) i) as Hs.
    destruct (mjoin (segments p !! i)) as [s|]; [|by rewrite Hs].
    destruct Hs as (A & HA & Hp & _). unfold seg_count. rewrite (inv_count _ _ _ _ HA).
    unfold blen. by rewrite Hp, length_fmap.
  - intros a o k Hin Ha. destruct (live_shm L m p live extra a o k HI Hin) as (_ & _ & _ & Hc). rewrite Ha in Hc.
    destruct Hc as (Hk & s & Hs). apply segment_lt in Hs. lia.
Qed.

Definition slot_key (h : MemHandle) : option Z :=
  match h with Shm a _ _ => if is_dedicated a then Some (seg_idx a) else None | FileSpill _ _ => None end.

Lemma filter_elem (k : Z) l : k ∈ l ↔ (0 < length (filter (eq k) l))%nat.
Proof.
  split.
  - intros Hin. assert (k ∈ filter (eq k) l) as He by (by apply list_elem_of_filter).
    destruct (filter (eq k) l); [by apply elem_of_nil in He|simpl; lia].
  - intros Hl. destruct (filter (eq k) l) as [|x r] eqn:Hf; [simpl in Hl; lia|].
    assert (x ∈ filter (eq k) l) as He by (rewrite Hf; left). by apply list_elem_of_filter in He as [-> ?].
Qed.

Lemma NoDup_counts (l : list Z) : (∀ k, (length (filter (eq k) l) <= 1)%nat) → NoDup l.
Proof.
  induction l as [|x l IH]; intros Hk; [constructor|]. constructor.
  - intros Hin%filter_elem. specialize (Hk x). rewrite filter_cons_True in Hk by done. simpl in Hk. lia.
  - apply IH. intros k. specialize (Hk k). rewrite filter_cons in Hk. case_decide; simpl in Hk; lia.
Qed.

Lemma slot_keys_count k live : length (on_slot k live) = length (filter (eq k) (omap slot_key live)).
Proof.
  induction live as [|h live IH]; [done|]. rewrite on_slot_cons.
  change (omap slot_key (h :: live)) with
    (match slot_key h with Some x => x :: omap slot_key live | None => omap slot_key live end).
  destruct h as [a o n|]; [|done]. simpl. destruct (is_dedicated a); simpl; [|done].
  rewrite filter_cons. destruct (Z.eqb_spec (seg_idx a) k); case_decide; simpl; try done; by rewrite IH.
Qed.

Lemma keys_length live : Z.of_nat (length (omap slot_key live)) = count_over handle_is_dedicated live.
Proof.
  induction live as [|h live IH]; [done|].
  change (omap slot_key (h :: live)) with
    (match slot_key h with Some x => x :: omap slot_key live | None => omap slot_key live end).
  unfold count_over, sum_over in *. simpl. rewrite <-IH. unfold handle_is_dedicated.
  destruct h as [a o n|]; simpl; [|done]. destruct (is_dedicated a); simpl; lia.
Qed.

Lemma dedicated_count p live extra :
  pool_inv p live extra → Z.of_nat (size (dedicated p)) = count_over handle_is_dedicated live.
Proof.
  intros HI. pose proof (di_slot _ _ _ (pi_dedicated _ _ _ _ _ HI)) as Hs.
  assert (∀ k, length (filter (eq k) (omap slot_key live)) = if dedicated p !! k then 1%nat else 0%nat) as Hk.
  { intros k. rewrite <-slot_keys_count. specialize (Hs k). destruct (dedicated p !! k).
    - destruct Hs as (_ & _ & _ & _ & a & -> & _). done.
    - by rewrite Hs. }
  rewrite <-keys_length, <-length_map_to_list. rewrite <-(length_fmap fst (map_to_list (dedicated p))).
  f_equal. apply Permutation_length, NoDup_Permutation; [apply NoDup_fst_map_to_list| |].
  - apply NoDup_counts. intros k. rewrite Hk. by destruct (dedicated p !! k); lia.
  - intros k. rewrite (filter_elem k (omap slot_key live)), Hk, list_elem_of_fmap. split.
    + intros ([k' e] & -> & Hin%elem_of_map_to_list). simpl. rewrite Hin. lia.
    + destruct (dedicated p !! k) as [e|] eqn:Hd; [|lia]. intros _. exists (k, e).
      split; [done|by apply elem_of_map_to_list].
Qed.

Lemma shm_count live :
  count_over is_shm live = count_over is_buddy live + count_over handle_is_dedicated live.
Proof.
  unfold count_over. rewrite <-sum_over_add. apply sum_over_ext. intros [a o n|] _; [|done].
  unfold is_buddy, handle_is_dedicated. simpl. by destruct (is_dedicated a).
Qed.

Lemma stats_spec p live extra :
  pool_inv p live extra →
  ∃ st, stats p = Ok st
    ∧ buddy_data_bytes st + dedicated_mapped_bytes st = own_bytes L m p live KShm
    ∧ buddy_occupied_bytes st + buddy_idle_bytes st = buddy_data_bytes st
    ∧ stats_alloc_count st = count_over is_shm live.
Proof.
  intros HI. destruct (segment_bytes p live extra HI) as (Hd & _ & Hle). unfold stats.
  rewrite (proj2 (Z.leb_le _ _) Hle). cbn [guard_panic res_bind]. eexists. split; [done|]. cbn. split_and!.
  - by rewrite Hd.
  - lia.
  - rewrite shm_count, <-(buddy_count p live extra HI), <-(dedicated_count p live extra HI). done.
Qed.

(** ** Runs *)

Lemma perform_all_spec extra cs p live :
  pool_inv p live extra → Forall call_ok cs →
  ∃ p' live', perform_all cs p live = Ok (p', live') ∧ pool_inv p' live' extra
    ∧ (∀ ded k, latest p ded k <= latest p' ded k)
    ∧ (∀ ded k g, retired p ded k g → retired p' ded k g).
Proof.
  intros HI Hcs. revert p live HI. induction Hcs as [|c cs Hc _ IH]; intros p live HI; [by eexists _, _|].
  simpl. destruct (perform_spec extra c p live HI Hc) as (p1 & live1 & -> & HI1 & _ & _ & _ & Hl1 & Hr1). simpl.
  destruct (IH p1 live1 HI1) as (p' & live' & -> & HI' & Hl & Hr). eexists _, _. split; [done|]. split; [done|]. split.
  - intros ded k. etrans; [apply Hl1|apply Hl].
  - intros ded k g Hret. by apply Hr, Hr1.
Qed.
End calls.

Lemma start_inv c cells p :
  started c cells p → ∃ L m, pool_inv L m p [] (fun k => used_bytes (get_cell cells k)).
Proof.
  intros [(prefix_len & fresh & Hnew) (Hs & Hm & Hr) Hcells].
  unfold new_with_prefix_and_budget, with_identity in Hnew.
  apply bind_ok in Hnew as (? & _ & Hnew). apply bind_ok in Hnew as ([] & Hv & [= <-]).
  apply map_err_ok in Hv. pose proof Hv as Hv0. unfold validate_config in Hv.
  apply bind_ok in Hv as (? & Hpow & Hv). destruct (checked_mul _ _ _); [|done].
  apply bind_ok in Hv as (? & _ & Hv).
  destruct (checked_layout (segment_size c) (min_block_size c)) as [lay|] eqn:Hlay; [|done].
  apply bind_ok in Hv as (? & Hmax%guard_err_ok & Hv). apply bind_ok in Hv as (? & Hret%guard_err_ok & Hv).
  apply bind_ok in Hv as (? & Hded%guard_err_ok & _).
  pose proof Hlay as Hlay0. apply checked_layout_iff in Hlay as (k & m & Hmb & Hmk & Hk & _ & _ & ->); [|done..].
  exists (k - m)%nat, m. assert (span (k - m) m = pow k) as Hsp by (unfold span; f_equal; lia).
  split; simpl; try done.
  - split; try done; try lia. by rewrite Hlay0, Hsp.
  - split; simpl; try done. unfold gen_live. intros a o n Hin. by apply elem_of_nil in Hin.
  - exists cells. split; [done|]. intros j. specialize (Hcells j). split; [lia|]. split; [|lia].
    unfold own_bytes, ded_bytes, seg_number, file_bytes, sum_over. simpl. rewrite map_to_list_empty. simpl.
    destruct j; lia.
Qed.

(** A pool some calls after its construction. *)
Definition pool_after (c : PoolConfig) (cells : BudgetCells) (p : MemPool) (live : list MemHandle) : Prop :=
  ∃ p0 cs, started c cells p0 ∧ Forall call_ok cs ∧ perform_all cs p0 [] = Ok (p, live).

Lemma pool_after_inv c cells p live :
  pool_after c cells p live → ∃ L m, pool_inv L m p live (fun k => used_bytes (get_cell cells k)).
Proof.
  intros (p0 & cs & Hst & Hok & Hrun). destruct (start_inv c cells p0 Hst) as (L & m & HI0).
  destruct (perform_all_spec L m _ cs p0 [] HI0 Hok) as (p' & live' & Hrun' & HI & _).
  rewrite Hrun in Hrun'. injection Hrun' as <- <-. by exists L, m.
Qed.

(** ** Generations *)

Lemma live_generation L m p live extra a o n :
  pool_inv L m p live extra → Shm a o n ∈ live →
  0 <= seg_idx a <= U16_MAX ∧ 0 < generation a ∧ generation a <= latest p (is_dedicated a) (seg_idx a).
Proof.
  intros HI Hin. destruct (live_shm L m p live extra a o n HI Hin) as (_ & _ & Hv & Hcase).
  unfold latest. destruct (is_dedicated a) eqn:Ha.
  - destruct Hcase as (e & He & _). pose proof (di_slot _ _ _ (pi_dedicated _ _ _ _ _ HI) (seg_idx a)) as Hs.
    rewrite He in Hs. destruct Hs as (Hk & _ & Hpos & Hg & a' & Hs & Hgen & _).
    assert (a ∈ on_slot (seg_idx a) live) as Hel.
    { apply list_elem_of_omap. exists (Shm a o n). split; [done|]. simpl. by rewrite Ha, Z.eqb_refl. }
    rewrite Hs in Hel. apply list_elem_of_singleton in Hel as ->. rewrite Hg, Hgen. simpl. lia.
  - destruct (bi_live _ _ _ _ _ _ (pi_buddy _ _ _ _ _ HI) _ _ _ Hin Ha) as (Hk & Hpos & Hg). rewrite Hg. simpl.
    destruct Hcase as (_ & s & Hs). apply segment_lt in Hs. pose proof (bi_max _ _ _ _ _ _ (pi_buddy _ _ _ _ _ HI)) as Hmx.
    unfold blen in Hmx. lia.
Qed.

Lemma stale_retired p ded k g :
  0 <= k <= U16_MAX → 0 < g → g <= latest p ded k →
  validate_generation p k g ded = Err StaleGeneration → retired p ded k g.
Proof.
  intros Hk Hg Hle. unfold validate_generation, retired, latest in *.
  rewrite (proj2 (Z.ltb_ge _ _)), (proj2 (Z.eqb_neq _ _)) by lia. simpl.
  destruct ded; case_bool_decide; intros; done.
Qed.

Lemma retired_stale p ded k g : retired p ded k g → validate_generation p k g ded = Err StaleGeneration.
Proof.
  unfold retired, validate_generation. intros Hr.
  destruct ded; destruct Hr as [_ Hne]; rewrite (bool_decide_false _ Hne); simpl; by rewrite orb_true_r.
Qed.

(** ** Properties *)

(** C37 No sequence of calls makes the pool panic, overrun a mapping, or touch memory
    outside the handle it was given, whatever the operating system answers: the run
    completes, and every handle still live at its end validates and reads exactly its
    length. *)
Theorem pool_runs_safely (c : PoolConfig) (cells : BudgetCells) (p0 : MemPool) (cs : list PoolCall) :
  started c cells p0 → Forall call_ok cs →
  ∃ p live, perform_all cs p0 [] = Ok (p, live)
    ∧ Forall (fun h => validate_handle p h = Ok tt
                       ∧ ∃ b, handle_slice p h = Ok b ∧ blen b = handle_length h) live.
Proof.
  intros Hst Hok. destruct (start_inv c cells p0 Hst) as (L & m & HI0).
  destruct (perform_all_spec L m _ cs p0 [] HI0 Hok) as (p & live & Hrun & HI & _).
  exists p, live. split; [done|]. apply Forall_forall. intros h Hin.
  split; [by eapply validate_live|by eapply slice_live].
Qed.

(** C38 The pool refines a list of independent buffers: in every reachable state each
    call changes what the live handles read exactly as the same call on separate byte
    strings does.  Allocations add a buffer of the requested size or nothing; a write
    or a trim changes its own buffer only; release removes one; collection, retention
    and prewarming change none. *)
Theorem pool_refines_buffers (c : PoolConfig) (cells : BudgetCells) (p : MemPool) (live : list MemHandle)
    (call : PoolCall) :
  pool_after c cells p live → call_ok call →
  ∃ p' live', perform call p live = Ok (p', live')
    ∧ buffers call (contents p live) (contents p' live').
Proof.
  intros Haft Hok. destruct (pool_after_inv _ _ _ _ Haft) as (L & m & HI).
  destruct (perform_spec L m _ call p live HI Hok) as (p' & live' & Hp & _ & Hb & _). by exists p', live'.
Qed.

(** Accounting in every reachable state.  What the pool charges to the budget it
    was given is exactly what it maps: buddy and dedicated bytes to the shared-memory
    cell, live spill files to the file cell, nothing to the reassembly cell; no cell
    exceeds its limit.  [stats] never underflows and reports the same bytes and the
    number of live shared-memory handles. *)
Theorem pool_budget_exact (c : PoolConfig) (cells : BudgetCells) (p : MemPool) (live : list MemHandle) :
  pool_after c cells p live →
  ∃ now st, budget p = Some now ∧ stats p = Ok st
    ∧ used_bytes (get_cell now KShm)
      = used_bytes (get_cell cells KShm) + buddy_data_bytes st + dedicated_mapped_bytes st
    ∧ used_bytes (get_cell now KFile) = used_bytes (get_cell cells KFile) + file_bytes live
    ∧ used_bytes (get_cell now KReassembly) = used_bytes (get_cell cells KReassembly)
    ∧ (∀ k, used_bytes (get_cell now k) <= limit_bytes (get_cell now k))
    ∧ buddy_occupied_bytes st + buddy_idle_bytes st = buddy_data_bytes st
    ∧ stats_alloc_count st = count_over is_shm live.
Proof.
  intros Haft. destruct (pool_after_inv _ _ _ _ Haft) as (L & m & HI).
  destruct (stats_spec L m p live _ HI) as (st & Hst & Hbytes & Hocc & Hcnt).
  destruct (pi_budget _ _ _ _ _ HI) as (now & Hb & Hk). exists now, st.
  destruct (Hk KShm) as (_ & Hshm & _). destruct (Hk KFile) as (_ & Hfile & _). destruct (Hk KReassembly) as (_ & Hre & _).
  rewrite <-Hbytes in Hshm. cbv beta in Hshm. cbn [own_bytes] in Hfile, Hre. split_and!; try done; try lia. intros k. apply Hk.
Qed.

(** Generations fence stale coordinates.  If an allocation that was live is refused
    by [validate_generation] at some later point, because its segment was unmapped or
    its slot reused, then it is refused at every point after that. *)
Theorem pool_generation_fenced (c : PoolConfig) (cells : BudgetCells) (p1 p2 p3 : MemPool)
    (live1 live2 live3 : list MemHandle) (cs2 cs3 : list PoolCall) (a : PoolAllocation) (o n : Z) :
  pool_after c cells p1 live1 → Shm a o n ∈ live1 →
  Forall call_ok cs2 → perform_all cs2 p1 live1 = Ok (p2, live2) →
  Forall call_ok cs3 → perform_all cs3 p2 live2 = Ok (p3, live3) →
  validate_generation p2 (seg_idx a) (generation a) (is_dedicated a) = Err StaleGeneration →
  validate_generation p3 (seg_idx a) (generation a) (is_dedicated a) = Err StaleGeneration.
Proof.
  intros Haft Hin Hok2 Hrun2 Hok3 Hrun3 Hstale. destruct (pool_after_inv _ _ _ _ Haft) as (L & m & HI1).
  destruct (perform_all_spec L m _ cs2 p1 live1 HI1 Hok2) as (? & ? & Hr2 & HI2 & Hl2 & _).
  rewrite Hrun2 in Hr2. injection Hr2 as <- <-.
  destruct (perform_all_spec L m _ cs3 p2 live2 HI2 Hok3) as (? & ? & Hr3 & _ & _ & Hret).
  rewrite Hrun3 in Hr3. injection Hr3 as <- <-.
  destruct (live_generation L m p1 live1 _ a o n HI1 Hin) as (Hidx & Hpos & Hlat).
  assert (retired p2 (is_dedicated a) (seg_idx a) (generation a)) as Hr2.
  { apply stale_retired; [done..| |done]. etrans; [exact Hlat|apply Hl2]. }
  apply Hret in Hr2. by apply retired_stale.
Qed.

(** Prewarming terminates: in every reachable state the loop of
    [ensure_buddy_segments] ends within [count] rounds, whatever each creation attempt
    answers, and success means at least [count] segments are mapped. *)
Theorem prewarm_terminates (c : PoolConfig) (cells : BudgetCells) (p : MemPool) (live : list MemHandle)
    (envs : nat → Env) (count : Z) :
  pool_after c cells p live →
  ∃ p' r, ensure_buddy_segments (Z.to_nat count) envs p count = Ok (Some (p', r))
    ∧ (r = inl tt → count <= segment_count p').
Proof.
  intros Haft. destruct (pool_after_inv _ _ _ _ Haft) as (L & m & HI).
  destruct (ensure_spec L m _ p live envs count (Z.to_nat count) HI ltac:(done)) as (p' & r & He & _ & Hr).
  exists p', r. split; [done|]. by intros ->.
Qed.

(** Reuse comes first and is free: when a mapped segment can serve the request, an
    enabled pool takes it from there, consulting neither pressure nor budget and
    mapping nothing. *)
Theorem pool_reuse_first (c : PoolConfig) (cells : BudgetCells) (p : MemPool) (live : list MemHandle)
    (env : Env) (size : Z) (i : nat) (s : BuddySegment) (r : Allocation * BuddyAllocator) :
  pool_after c cells p live → buddy_enabled (config p) = true → max_segments (config p) ≠ 0 →
  0 < size → segment p i = Some s → Buddy.alloc (bs_alloc s) size = Ok r →
  ∃ p' a, alloc_shm env p size = Ok (p', inl a) ∧ is_dedicated a = false
    ∧ budget p' = budget p ∧ pressure p' = pressure p ∧ segment_count p' = segment_count p.
Proof.
  intros Haft Hen Hmax Hs Hseg Ha. destruct (pool_after_inv _ _ _ _ Haft) as (L & m & HI).
  unfold alloc_shm, buddy_block_limit. rewrite Hen, (proj2 (Z.eqb_neq _ _) Hmax). cbn [negb orb].
  rewrite (g_layout _ _ _ (pi_config _ _ _ _ _ HI)). cbn [expect_some res_bind bl_data_size].
  destruct (seg_live L m _ _ _ _ _ HI Hseg) as (A & HA & _).
  pose proof (alloc_spec L m _ _ size HA ltac:(lia)) as Hspec. rewrite Ha in Hspec. destruct r as [x a].
  destruct Hspec as (t & j & -> & HA' & _ & Hle & _).
  destruct (block_in_span L m _ _ (t, j) HA' ltac:(left)) as [? ?].
  destruct (try_buddy_reuse_spec L m live _ size p HI ltac:(lia)) as (p' & r & Hr & Hres).
  destruct (_ && _) eqn:Hfit; [|lia]. rewrite Hr. cbn [res_bind]. destruct r as [a'|].
  - destruct Hres as (_ & ? & ? & ? & ?). by exists p', a'.
  - destruct Hres as [_ Hno]. specialize (Hno i s Hseg). by rewrite Ha in Hno.
Qed.

(** ** Sample runs *)

Lemma ok_pair {E A B} (a a' : A) (b b' : B) : Ok (E:=E) (a, b) = Ok (a', b') → a = a' ∧ b = b'.
Proof. by intros [= -> ->]. Qed.

Module Sample.
Definition config : PoolConfig :=
  {| segment_size := 50; min_block_size := 16; max_segments := 2; max_dedicated_segments := 1;
     buddy_idle_decay_secs := f64_zero; spill_threshold := f64_one; buddy_enabled := true;
     min_retained_segments := 0 |}.
Definition cells : BudgetCells := MemoryBudget_new 1000 1000 1000.
Definition env : Env :=
  {| gc_now := 7; buddy_sample := sample_reading 7; dedicated_sample := sample_reading 7;
     sysconf_pagesize := 128; shm_create := fun _ _ _ => true; spill_create := true |}.
Definition pool0 : MemPool :=
  {| Pool.config := config; segments := []; generations := []; is_peer := false; dedicated := ∅;
     incarnation := 3; dedicated_generations := []; idle_since := []; retain_idle_backing := true;
     budget := Some cells; pressure := PressureEngine_new f64_one;
     counters := {| buddy_reused_allocs := 0; buddy_expanded_allocs := 0; dedicated_allocs := 0;
                    file_spill_allocs := 0 |} |}.
(** Two blocks of one segment, one dedicated segment and one spill file. *)
Definition calls : list PoolCall :=
  [CallAlloc env 20; CallAlloc env 10; CallAlloc env 100; CallAlloc env 900;
   CallWrite 2 3 [Byte.x01; Byte.x02]; CallTrim 0 2].
Definition state (cs : list PoolCall) : MemPool * list MemHandle :=
  match perform_all cs pool0 [] with Ok x => x | _ => (pool0, []) end.
Definition pool : MemPool := (state calls).1.
Definition live : list MemHandle := (state calls).2.

Lemma pool_started : started config cells pool0.
Proof.
  split.
  - exists 10, 3. reflexivity.
  - done.
  - intros []; done.
Qed.

Lemma calls_ok : Forall call_ok calls.
Proof. repeat constructor; done. Qed.

Lemma pool_run : perform_all calls pool0 [] = Ok (pool, live).
Proof. vm_compute. reflexivity. Qed.

Lemma after : pool_after config cells pool live.
Proof. exists pool0, calls. split_and!; [apply pool_started|apply calls_ok|apply pool_run]. Qed.
End Sample.

Lemma pool_runs_safely_witness :
  handle_length <$> Sample.live = [2; 100; 10; 20]
  ∧ is_Some (head Sample.live)
  ∧ Forall (fun h => validate_handle Sample.pool h = Ok tt
                     ∧ ∃ b, handle_slice Sample.pool h = Ok b ∧ blen b = handle_length h) Sample.live.
Proof.
  split; [vm_compute; reflexivity|]. split; [vm_compute; by eexists|].
  destruct (pool_runs_safely Sample.config Sample.cells Sample.pool0 Sample.calls Sample.pool_started Sample.calls_ok)
    as (p & live & Hrun & Hf).
  rewrite Sample.pool_run in Hrun. apply ok_pair in Hrun as [<- <-]. exact Hf.
Defined.

Lemma pool_refines_buffers_witness :
  ∃ p' live', perform (CallWrite 3 0 [Byte.xff]) Sample.pool Sample.live = Ok (p', live')
    ∧ contents p' live'
      = <[3%nat := splice (replicate 20 Byte.x00) 0 [Byte.xff]]> (contents Sample.pool Sample.live).
Proof.
  destruct (pool_refines_buffers Sample.config Sample.cells Sample.pool Sample.live (CallWrite 3 0 [Byte.xff])
              Sample.after ltac:(done)) as (p' & live' & Hp & Hb).
  exists p', live'. split; [exact Hp|]. rewrite Hb. vm_compute. reflexivity.
Defined.

Lemma pool_budget_exact_witness :
  ∃ now st, budget Sample.pool = Some now ∧ stats Sample.pool = Ok st
    ∧ used_bytes (get_cell now KShm) = 0 + buddy_data_bytes st + dedicated_mapped_bytes st
    ∧ stats_alloc_count st = 3.
Proof.
  destruct (pool_budget_exact Sample.config Sample.cells Sample.pool Sample.live Sample.after)
    as (now & st & Hb & Hst & Hshm & _ & _ & _ & _ & Hcnt).
  exists now, st. split; [exact Hb|]. split; [exact Hst|]. split; [exact Hshm|].
  rewrite Hcnt. vm_compute. reflexivity.
Defined.

Module Fenced.
(** The block of 20 bytes, released with its segment, and the slot taken again. *)
Definition block : PoolAllocation :=
  {| seg_idx := 0; generation := 1; pa_offset := 0; pa_actual_size := 32; pa_level := 1; is_dedicated := false |}.
Definition drop_all : list PoolCall :=
  [CallRetain false; CallRelease 0 0; CallRelease 0 0; CallRelease 0 0; CallRelease 0 0].
Definition again : list PoolCall := [CallAlloc Sample.env 20].
Definition run (cs : list PoolCall) (x : MemPool * list MemHandle) : MemPool * list MemHandle :=
  match perform_all cs x.1 x.2 with Ok y => y | _ => x end.
Definition dropped : MemPool * list MemHandle := run drop_all (Sample.pool, Sample.live).
Definition reused : MemPool * list MemHandle := run again dropped.
End Fenced.

Lemma pool_generation_fenced_witness :
  segment_generation Fenced.reused.1 0 = Some 2
  ∧ validate_generation Fenced.reused.1 0 1 false = Err StaleGeneration.
Proof.
  split; [vm_compute; reflexivity|].
  apply (pool_generation_fenced Sample.config Sample.cells Sample.pool Fenced.dropped.1 Fenced.reused.1
           Sample.live Fenced.dropped.2 Fenced.reused.2 Fenced.drop_all Fenced.again Fenced.block 3 20).
  - exact Sample.after.
  - apply (list_elem_of_lookup_2 _ 3). vm_compute. reflexivity.
  - repeat constructor.
  - vm_compute. reflexivity.
  - repeat constructor; done.
  - vm_compute. reflexivity.
  - vm_compute. reflexivity.
Defined.

Lemma prewarm_terminates_witness :
  ∃ p' r, ensure_buddy_segments 2 (fun _ => Sample.env) Sample.pool 2 = Ok (Some (p', r))
    ∧ (r = inl tt → 2 <= segment_count p').
Proof.
  exact (prewarm_terminates Sample.config Sample.cells Sample.pool Sample.live (fun _ => Sample.env) 2 Sample.after).
Defined.

Lemma pool_reuse_first_witness :
  ∃ p' a, alloc_shm Sample.env Sample.pool 16 = Ok (p', inl a) ∧ is_dedicated a = false
    ∧ budget p' = budget Sample.pool.
Proof.
  destruct (segment Sample.pool 0) as [s|] eqn:Hs; [|vm_compute in Hs; discriminate].
  destruct (Buddy.alloc (bs_alloc s) 16) as [r| |] eqn:Ha.
  - destruct (pool_reuse_first Sample.config Sample.cells Sample.pool Sample.live Sample.env 16 0 s r Sample.after
                ltac:(vm_compute; reflexivity) ltac:(vm_compute; discriminate) ltac:(lia) Hs Ha)
      as (p' & a & H1 & H2 & H3 & _).
    exists p', a. split; [exact H1|]. split; [exact H2|exact H3].
  - exfalso. vm_compute in Hs. injection Hs as <-. vm_compute in Ha. discriminate.
  - exfalso. vm_compute in Hs. injection Hs as <-. vm_compute in Ha. discriminate.
Defined.
