(* ===== verification/Connection.v ===== *)
(** Control state of one physical IPC connection (c2-wire, connection/mod.rs): the
    loan book, the release queue and the single writer.  Every method is the locked
    section it runs, with the pieces it leaves to be dropped afterwards returned to
    the caller; [ConnectionRun] composes them into runs. *)

From S2P Require Import Prelude.
From S2P Require Import Frame.
From S2P Require Import Codec.
From S2P Require Import Release.

(** ** Data *)

Inductive ConnectionSide := Client | Server.
#[export] Instance ConnectionSide_eq_dec : EqDecision ConnectionSide.
Proof. solve_decision. Defined.

(** What a [ProtocolViolation] message says. *)
Inductive Violation :=
| DuplicateHandshake
| ZeroRemoteLoanId
| ForeignToken
| BadRelease (e : DecodeError)
| UnknownLoanId (id : Z).

Inductive ConnectionError :=
| ProtocolViolation (v : Violation)
| BeforeHandshake
| Deactivated
| PeerEnded
| Closed
| WriterBusy
| WriterBroken
| LoanIdExhausted
| Capacity (scope : string).

(** [Allocation]: the pool and handle it will return to are one identity here. *)
Record Alloc := { a_handle : Z; a_published : bool }.

Inductive WriterState := Idle | Reserved | InFrame | AwaitingFlush | Broken.
#[export] Instance WriterState_eq_dec : EqDecision WriterState.
Proof. solve_decision. Defined.

Record State := {
  handshake_done : bool;
  deactivated : bool;
  peer_ended : bool;
  closed : bool;
  prepared : gmap Z Alloc;
  published : gmap Z Alloc;
  settling : Z;
  remote_reads : Z;
  releases : list Z;
  inflight_releases : Z;
  pending_controls : Z;
  writer : WriterState }.

(** [State::default()]. *)
Definition State_default : State := {|
  handshake_done := false; deactivated := false; peer_ended := false; closed := false;
  prepared := ∅; published := ∅; settling := 0; remote_reads := 0; releases := [];
  inflight_releases := 0; pending_controls := 0; writer := Idle |}.

(** Field assignments of the locked sections. *)
Definition set_handshake (s : State) : State := {|
  handshake_done := true; deactivated := deactivated s; peer_ended := peer_ended s;
  closed := closed s; prepared := prepared s; published := published s; settling := settling s;
  remote_reads := remote_reads s; releases := releases s;
  inflight_releases := inflight_releases s; pending_controls := pending_controls s;
  writer := writer s |}.
Definition set_stop (s : State) (p : gmap Z Alloc) (settle : Z) : State := {|
  handshake_done := handshake_done s; deactivated := true; peer_ended := peer_ended s;
  closed := closed s; prepared := p; published := published s; settling := settle;
  remote_reads := remote_reads s; releases := releases s;
  inflight_releases := inflight_releases s; pending_controls := pending_controls s;
  writer := writer s |}.
Definition set_book (s : State) (p q : gmap Z Alloc) (settle : Z) : State := {|
  handshake_done := handshake_done s; deactivated := deactivated s; peer_ended := peer_ended s;
  closed := closed s; prepared := p; published := q; settling := settle;
  remote_reads := remote_reads s; releases := releases s;
  inflight_releases := inflight_releases s; pending_controls := pending_controls s;
  writer := writer s |}.
Definition set_flow (s : State) (reads : Z) (rel : list Z) (inflight controls : Z) (w : WriterState)
    : State := {|
  handshake_done := handshake_done s; deactivated := deactivated s; peer_ended := peer_ended s;
  closed := closed s; prepared := prepared s; published := published s; settling := settling s;
  remote_reads := reads; releases := rel; inflight_releases := inflight;
  pending_controls := controls; writer := w |}.
Definition set_ended (s : State) (ended close : bool) (rel : list Z) : State := {|
  handshake_done := handshake_done s; deactivated := deactivated s; peer_ended := ended;
  closed := close; prepared := prepared s; published := published s; settling := settling s;
  remote_reads := remote_reads s; releases := rel;
  inflight_releases := inflight_releases s; pending_controls := pending_controls s;
  writer := writer s |}.

(** [Reclaims]: the two maps and the occupied record slots. *)
Record Reclaims := { rc_prepared : gmap Z Alloc; rc_published : gmap Z Alloc; rc_records : list Alloc }.
Definition Reclaims_new : Reclaims := {| rc_prepared := ∅; rc_published := ∅; rc_records := [] |}.

(** The allocations of a [Reclaims], in the order its [Drop] releases them. *)
Definition reclaim_list (r : Reclaims) : list Alloc :=
  (map_to_list (rc_prepared r)).*2 ++ (map_to_list (rc_published r)).*2 ++ rc_records r.

(** Tokens: [origin] is the connection ([Arc<Shared>]) they are bound to. *)
Record PreparedLoan := { pl_origin : Z; pl_id : Z }.
Record ControlFrame := { cf_origin : Z }.

Inductive WriteRequest :=
| Business (loans : list PreparedLoan)
| Control (control : ControlFrame)
| Releases.

Record WriteBatch := {
  wb_loans : list Z;
  wb_prefix : bytes;
  wb_release_count : Z;
  wb_frames_remaining : Z;
  wb_business : bool;
  wb_control : bool;
  wb_attempted : bool;
  wb_finished : bool }.

(** ** Checks *)

Definition check_writable (s : State) : res ConnectionError unit :=
  if closed s then Err Closed
  else if peer_ended s then Err PeerEnded
  else if bool_decide (writer s = Broken) then Err WriterBroken
  else Ok tt.

Definition check_live (s : State) : res ConnectionError unit :=
  if closed s then Err Closed
  else if peer_ended s then Err PeerEnded
  else if deactivated s then Err Deactivated
  else Ok tt.

Definition check_business (s : State) : res ConnectionError unit :=
  check_live s ;?
  guard_err (negb (handshake_done s)) BeforeHandshake.

(** ** Ending *)

Definition stop_locked (s : State) (r : Reclaims) : State * Reclaims :=
  (set_stop s ∅ (settling s + Z.of_nat (size (prepared s))),
   {| rc_prepared := prepared s; rc_published := rc_published r; rc_records := rc_records r |}).

Definition deactivate (s : State) : State * Reclaims := stop_locked s Reclaims_new.

Definition peer_end (s : State) : State * Reclaims :=
  let '(s, r) := stop_locked s Reclaims_new in
  let taken := published s in
  (set_ended (set_book s (prepared s) ∅ (settling s + Z.of_nat (size taken))) true (closed s) [],
   {| rc_prepared := rc_prepared r; rc_published := taken; rc_records := rc_records r |}).

Definition is_deactivated (s : State) : bool := deactivated s.

Definition try_close (s : State) : State * bool :=
  let s :=
    if deactivated s
       && (bool_decide (writer s = Idle) || bool_decide (writer s = Broken))
       && (pending_controls s =? 0) && (remote_reads s =? 0)
       && bool_decide (prepared s = ∅) && bool_decide (published s = ∅)
       && (settling s =? 0)
    then set_ended s (peer_ended s) true [] else s in
  (s, closed s).

(** ** Admission *)

(** A rejection that deactivates: the state change of [drop(self.deactivate())], and
    the allocations it hands to be released. *)
Definition finish_handshake (s : State) : State * Reclaims * res ConnectionError unit :=
  if handshake_done s then
    let '(s, r) := deactivate s in (s, r, Err (ProtocolViolation DuplicateHandshake))
  else
    match check_live s with
    | Ok _ => (set_handshake s, Reclaims_new, Ok tt)
    | e => (s, Reclaims_new, e)
    end.

(** [prepare_loan_from]: [room1] and [room2] tell whether the two [try_reserve]
    calls find memory, [seq] is the shared sequence.  The result is the id of the
    token, with the allocation in the book; otherwise the allocation is dropped. *)
Definition prepare_section (s : State) (handle seq : Z) (room1 room2 : bool)
    : State * Z * res ConnectionError Z :=
  let attempt : res ConnectionError Z :=
    check_business s ;?
    guard_err (negb room1) (Capacity "loan book") ;?
    guard_err (negb room2) (Capacity "published loan book") ;?
    match checked_add U64_MAX seq 1 with Some n => Ok n | None => Err LoanIdExhausted end in
  match attempt with
  | Ok id => (set_book s (<[id := {| a_handle := handle; a_published := false |}]> (prepared s))
                (published s) (settling s), id, Ok id)
  | e => (s, seq, e)
  end.

Definition prepare_loan_from (s : State) (handle seq : Z) (room1 room2 : bool)
    : State * Z * Reclaims * res ConnectionError Z :=
  let '(s, seq, r) := prepare_section s handle seq room1 room2 in
  match r with
  | Err (Capacity _) | Err LoanIdExhausted =>
      let '(s, rc) := deactivate s in (s, seq, rc, r)
  | _ => (s, seq, Reclaims_new, r)
  end.

Definition admit_section (s : State) (loan_id : Z) (room : bool) : res ConnectionError State :=
  guard_err (closed s) Closed ;?
  guard_err (peer_ended s) PeerEnded ;?
  guard_err (negb (handshake_done s)) BeforeHandshake ;?
  guard_err (loan_id =? 0) (ProtocolViolation ZeroRemoteLoanId) ;?
  match checked_add USIZE_MAX (remote_reads s) (inflight_releases s) ≫= fun n => checked_add USIZE_MAX n 1 with
  | None => Err (Capacity "release queue")
  | Some _ =>
      guard_err (negb room) (Capacity "release queue") ;?
      Ok (set_flow s (remote_reads s + 1) (releases s) (inflight_releases s) (pending_controls s)
            (writer s))
  end.

Definition admit_remote_loan (s : State) (loan_id : Z) (room : bool)
    : State * Reclaims * res ConnectionError unit :=
  match admit_section s loan_id room with
  | Ok s => (s, Reclaims_new, Ok tt)
  | Err (Capacity c) => let '(s, r) := deactivate s in (s, r, Err (Capacity c))
  | Err (ProtocolViolation v) => let '(s, r) := deactivate s in (s, r, Err (ProtocolViolation v))
  | Err BeforeHandshake => let '(s, r) := deactivate s in (s, r, Err BeforeHandshake)
  | Err e => (s, Reclaims_new, Err e)
  | Panic => (s, Reclaims_new, Panic)
  end.

Definition prepare_control_frame (s : State) : res ConnectionError State :=
  check_writable s ;?
  Ok (set_flow s (remote_reads s) (releases s) (inflight_releases s) (pending_controls s + 1)
        (writer s)).

(** ** Writing *)

(** The loop that empties the queue into release frames of at most 64 ids; each
    round takes at least one id, so [length ids] rounds empty it. *)
Fixpoint encode_releases (rounds : nat) (ids : list Z) (response : bool) (prefix : bytes) : bytes :=
  match rounds, ids with
  | S rounds, _ :: _ =>
      let n := Z.to_nat (Z.min (blen ids) IPC_RELEASE_BATCH_CAPACITY) in
      encode_releases rounds (drop n ids) response (append_release_frame prefix (take n ids) response)
  | _, _ => prefix
  end.

Definition div_ceil_capacity (count : Z) : Z :=
  (count + IPC_RELEASE_BATCH_CAPACITY - 1) / IPC_RELEASE_BATCH_CAPACITY.

Definition request_loans (r : WriteRequest) : list PreparedLoan :=
  match r with Business loans => loans | _ => [] end.
Definition request_control (r : WriteRequest) : option ControlFrame :=
  match r with Control c => Some c | _ => None end.
Definition request_business (r : WriteRequest) : bool :=
  match r with Business _ => true | _ => false end.

(** The locked section of [begin_write] on the connection [origin]; [room] tells
    whether the prefix buffer can be reserved. *)
Definition begin_section (origin : Z) (side : ConnectionSide) (s : State) (request : WriteRequest)
    (room : bool) : res ConnectionError (option (State * WriteBatch)) :=
  let loans := request_loans request in
  let control := request_control request in
  let business := request_business request in
  let has_frame := business || bool_decide (is_Some control) in
  check_writable s ;?
  guard_err (negb (handshake_done s) && negb (bool_decide (is_Some control))) BeforeHandshake ;?
  guard_err (business && deactivated s) Deactivated ;?
  guard_err (negb (bool_decide (writer s = Idle))) WriterBusy ;?
  guard_err (match control with Some c => negb (cf_origin c =? origin) | None => false end
             || existsb (fun l => negb (pl_origin l =? origin)) loans)
    (ProtocolViolation ForeignToken) ;?
  if negb has_frame && bool_decide (releases s = []) then Ok None
  else
    let count := blen (releases s) in
    let frames := div_ceil_capacity count in
    match checked_mul USIZE_MAX count 8 ≫= fun n =>
            checked_mul USIZE_MAX frames (HEADER_SIZE + 2) ≫= fun m => checked_add USIZE_MAX m n with
    | None => Err (Capacity "release frames")
    | Some _ =>
        guard_err (negb room) (Capacity "release frames") ;?
        Ok (Some
          (set_flow s (remote_reads s) [] (inflight_releases s + count) (pending_controls s) Reserved,
           {| wb_loans := pl_id <$> loans;
              wb_prefix := encode_releases (length (releases s)) (releases s)
                             (bool_decide (side = Server)) [];
              wb_release_count := count;
              wb_frames_remaining := frames + (if has_frame then 1 else 0);
              wb_business := business;
              wb_control := bool_decide (is_Some control);
              wb_attempted := false;
              wb_finished := false |}))
    end.

(** Which errors of [begin_write] and [admit_remote_loan] deactivate. *)
Definition deactivates (e : ConnectionError) : bool :=
  match e with Capacity _ | ProtocolViolation _ | BeforeHandshake => true | _ => false end.

Definition begin_write (origin : Z) (side : ConnectionSide) (s : State) (request : WriteRequest)
    (room : bool) : State * Reclaims * res ConnectionError (option WriteBatch) :=
  match begin_section origin side s request room with
  | Ok (Some (s, b)) => (s, Reclaims_new, Ok (Some b))
  | Ok None => (s, Reclaims_new, Ok None)
  | Err e => if deactivates e then let '(s, r) := deactivate s in (s, r, Err e)
             else (s, Reclaims_new, Err e)
  | Panic => (s, Reclaims_new, Panic)
  end.

(** Moving each loan of the batch from the prepared to the published book. *)
Fixpoint publish (loans : list Z) (p q : gmap Z Alloc) : res ConnectionError (gmap Z Alloc * gmap Z Alloc) :=
  match loans with
  | [] => Ok (p, q)
  | id :: rest =>
      match p !! id with
      | None => Panic
      | Some a => publish rest (delete id p) (<[id := {| a_handle := a_handle a; a_published := true |}]> q)
      end
  end.

Definition begin_io (s : State) (b : WriteBatch) : res ConnectionError (State * WriteBatch) :=
  guard_panic (0 <? wb_frames_remaining b) ;?
  guard_panic (negb (wb_attempted b)) ;?
  guard_err (closed s) Closed ;?
  guard_err (peer_ended s) PeerEnded ;?
  guard_err (wb_business b && deactivated s) Deactivated ;?
  guard_err (bool_decide (writer s = Broken)) WriterBroken ;?
  let? '(p, q) := publish (wb_loans b) (prepared s) (published s) in
  Ok (set_flow (set_book s p q (settling s)) (remote_reads s) (releases s) (inflight_releases s)
        (pending_controls s) InFrame,
      {| wb_loans := wb_loans b; wb_prefix := wb_prefix b; wb_release_count := wb_release_count b;
         wb_frames_remaining := wb_frames_remaining b; wb_business := wb_business b;
         wb_control := wb_control b; wb_attempted := true; wb_finished := wb_finished b |}).

Definition frame_completed (s : State) (b : WriteBatch) : res ConnectionError (State * WriteBatch) :=
  guard_panic (wb_attempted b && (0 <? wb_frames_remaining b)) ;?
  let left := wb_frames_remaining b - 1 in
  let with_left count := {| wb_loans := wb_loans b; wb_prefix := wb_prefix b;
      wb_release_count := count; wb_frames_remaining := left; wb_business := wb_business b;
      wb_control := wb_control b; wb_attempted := wb_attempted b; wb_finished := wb_finished b |} in
  if left =? 0 then
    guard_panic (wb_release_count b <=? inflight_releases s) ;?
    Ok (set_flow s (remote_reads s) (releases s) (inflight_releases s - wb_release_count b)
          (pending_controls s)
          (if bool_decide (writer s = Broken) then Broken else AwaitingFlush),
        with_left 0)
  else Ok (s, with_left (wb_release_count b)).

(** [flush_completed] consumes the batch. *)
Definition flush_completed (s : State) (b : WriteBatch) : res ConnectionError State :=
  guard_panic (wb_attempted b && (wb_frames_remaining b =? 0)) ;?
  guard_panic (bool_decide (writer s = AwaitingFlush)) ;?
  Ok (set_flow s (remote_reads s) (releases s) (inflight_releases s) (pending_controls s) Idle).

(** [write_failed]: the batch gives up its control frame, which is then dropped. *)
Definition write_failed (s : State) (b : WriteBatch) : State * WriteBatch * Reclaims :=
  let s := set_flow s (remote_reads s) (releases s) (inflight_releases s) (pending_controls s) Broken in
  let '(s, r) := stop_locked s Reclaims_new in
  (s, {| wb_loans := wb_loans b; wb_prefix := wb_prefix b; wb_release_count := wb_release_count b;
         wb_frames_remaining := wb_frames_remaining b; wb_business := wb_business b;
         wb_control := false; wb_attempted := wb_attempted b; wb_finished := wb_finished b |}, r).

(** The restore loop of [Drop for WriteBatch]: [count] indexes, the last first. *)
Fixpoint restore_releases (count : nat) (prefix : bytes) (queue : list Z) : res ConnectionError (list Z) :=
  match count with
  | O => Ok queue
  | S index =>
      let i := Z.of_nat index in
      let offset := i / IPC_RELEASE_BATCH_CAPACITY * (HEADER_SIZE + 2 + IPC_RELEASE_BATCH_CAPACITY * 8)
                    + HEADER_SIZE + 2 + i mod IPC_RELEASE_BATCH_CAPACITY * 8 in
      let? id := read_le 8 prefix offset in
      restore_releases index prefix (id :: queue)
  end.

(** [Drop for WriteBatch], for a batch that was not consumed by a flush. *)
Definition drop_batch (s : State) (b : WriteBatch) : res ConnectionError (State * Reclaims) :=
  if wb_finished b then Ok (s, Reclaims_new)
  else
    let w := if bool_decide (writer s = Broken) then Broken else Idle in
    guard_panic (wb_release_count b <=? inflight_releases s) ;?
    let inflight := inflight_releases s - wb_release_count b in
    if wb_attempted b then
      Ok (stop_locked (set_flow s (remote_reads s) (releases s) inflight (pending_controls s) Broken)
            Reclaims_new)
    else if negb (closed s) && negb (peer_ended s) then
      let? queue := restore_releases (Z.to_nat (wb_release_count b)) (wb_prefix b) (releases s) in
      Ok (set_flow s (remote_reads s) queue inflight (pending_controls s) w, Reclaims_new)
    else Ok (set_flow s (remote_reads s) (releases s) inflight (pending_controls s) w, Reclaims_new).

(** ** Settling *)

(** The ids of one release frame, in wire order: the owners removed so far stay
    removed when an id is unknown. *)
Fixpoint settle_ids (ids : list Z) (q : gmap Z Alloc) : gmap Z Alloc * list Alloc * option ConnectionError :=
  match ids with
  | [] => (q, [], None)
  | id :: rest =>
      match q !! id with
      | Some a => let '(q, records, e) := settle_ids rest (delete id q) in (q, a :: records, e)
      | None => (q, [], Some (ProtocolViolation (UnknownLoanId id)))
      end
  end.

Definition receive_release (side : ConnectionSide) (s : State) (header : FrameHeader) (payload : bytes)
    : State * Reclaims * option ConnectionError :=
  let '(s, r, error) :=
    match decode_release_frame header payload (bool_decide (side = Client)) (handshake_done s) with
    | Ok batch =>
        let '(q, records, e) := settle_ids (rb_ids batch) (published s) in
        (set_book s (prepared s) q (settling s + blen records),
         {| rc_prepared := ∅; rc_published := ∅; rc_records := records |}, e)
    | Err e => (s, Reclaims_new, Some (ProtocolViolation (BadRelease e)))
    | Panic => (s, Reclaims_new, None)
    end in
  match error with
  | Some e => let '(s, r) := stop_locked s r in (s, r, Some e)
  | None => (s, r, None)
  end.

(** [Drop for PreparedLoan]: an owner still in the book is cancelled. *)
Definition drop_prepared (s : State) (id : Z) : State * Reclaims :=
  match prepared s !! id with
  | Some a => (set_book s (delete id (prepared s)) (published s) (settling s + 1),
               {| rc_prepared := ∅; rc_published := ∅; rc_records := [a] |})
  | None => (s, Reclaims_new)
  end.

(** [Drop for RemoteLoan], after the guard has been dropped. *)
Definition drop_remote (s : State) (loan_id : Z) : res ConnectionError State :=
  guard_panic (1 <=? remote_reads s) ;?
  Ok (set_flow s (remote_reads s - 1)
        (if negb (peer_ended s) && negb (closed s) then releases s ++ [loan_id] else releases s)
        (inflight_releases s) (pending_controls s) (writer s)).

(** [Drop for ControlFrame]. *)
Definition drop_control (s : State) : res ConnectionError State :=
  guard_panic (1 <=? pending_controls s) ;?
  Ok (set_flow s (remote_reads s) (releases s) (inflight_releases s) (pending_controls s - 1) (writer s)).

(** [Drop for Reclaims], after its [settled] allocations have been released. *)
Definition settle_reclaims (s : State) (settled : Z) : res ConnectionError State :=
  guard_panic (settled <=? settling s) ;?
  Ok (set_book s (prepared s) (published s) (settling s - settled)).
