(* ===== verification/ConnectionWire.v ===== *)
(** The release prefix of a write batch: the frames it is made of, and the restore
    loop that puts an unsent queue back. *)

From S2P Require Import Prelude.
From S2P Require Import Frame.
From S2P Require Import Release.
From S2P Require Import Connection.

(** ** The frames of a queue *)

(** The queue cut into frames of at most 64 ids. *)
Fixpoint id_groups (rounds : nat) (ids : list Z) : list (list Z) :=
  match rounds, ids with
  | S rounds, _ :: _ =>
      let n := Z.to_nat (Z.min (blen ids) IPC_RELEASE_BATCH_CAPACITY) in
      take n ids :: id_groups rounds (drop n ids)
  | _, _ => []
  end.

Definition release_bytes (response : bool) (ids : list Z) : bytes :=
  encode_frame 0 (release_flags response) (release_payload ids).

Lemma group_cut (ids : list Z) :
  ids ≠ [] → let n := Z.to_nat (Z.min (blen ids) IPC_RELEASE_BATCH_CAPACITY) in
  (1 <= n <= length ids)%nat ∧ Z.of_nat n <= 64 ∧ blen (take n ids) = Z.of_nat n
  ∧ (n < length ids → n = 64)%nat.
Proof.
  intros Hne n. assert (1 <= blen ids) as Hl.
  { destruct ids as [|x l]; [done|]. rewrite blen_cons. pose proof (blen_nonneg l). lia. }
  unfold n, IPC_RELEASE_BATCH_CAPACITY, blen in *. rewrite length_take. lia.
Qed.

Lemma encode_releases_groups rounds ids response prefix :
  encode_releases rounds ids response prefix
  = prefix ++ concat (release_bytes response <$> id_groups rounds ids).
Proof.
  revert ids prefix. induction rounds as [|rounds IH]; intros [|id ids] prefix;
    cbn [encode_releases id_groups]; rewrite ?app_nil_r; try done.
  destruct (group_cut (id :: ids) ltac:(done)) as (_ & H64 & Hlen & _).
  rewrite IH, append_release_frame_eq by lia. cbn [fmap list_fmap concat]. by rewrite <-app_assoc.
Qed.

Lemma id_groups_spec rounds ids :
  (length ids <= rounds)%nat → Forall (fun i => 0 <= i < 2 ^ 64) ids →
  concat (id_groups rounds ids) = ids ∧ Forall ids_wf (id_groups rounds ids)
  ∧ blen (id_groups rounds ids) = div_ceil_capacity (blen ids).
Proof.
  revert ids. induction rounds as [|rounds IH]; intros [|id ids] Hle Hr; cbn [id_groups]; try done.
  { simpl in Hle. lia. }
  destruct (group_cut (id :: ids) ltac:(done)) as (Hn & H64 & Hlen & Hfull).
  set (n := Z.to_nat _) in *. destruct (IH (drop n (id :: ids))) as (Hc & Hw & Hb).
  - rewrite length_drop. lia.
  - by apply Forall_drop.
  - split_and!.
    + cbn [concat]. by rewrite Hc, take_drop.
    + constructor; [|done]. split; [unfold IPC_RELEASE_BATCH_CAPACITY; lia|by apply Forall_take].
    + rewrite blen_cons, Hb. unfold div_ceil_capacity, IPC_RELEASE_BATCH_CAPACITY, blen in *.
      rewrite length_drop. destruct (decide (n < length (id :: ids))%nat) as [Hlt|].
      * rewrite (Hfull Hlt) in *. Z.div_mod_to_equations. lia.
      * assert (n = length (id :: ids)) as Heq by lia. rewrite Heq in *. Z.div_mod_to_equations. lia.
Qed.

Lemma decode_release_bytes response ids :
  ids_wf ids →
  decode_frame (release_bytes response ids) = Ok (release_header ids response, release_payload ids).
Proof.
  intros [Hl _]. unfold IPC_RELEASE_BATCH_CAPACITY in Hl. unfold release_bytes.
  rewrite <-(app_nil_r (encode_frame _ _ _)), decode_frame_encode.
  - rewrite blen_release_payload. unfold release_header. do 3 f_equal. lia.
  - pose proof (release_flags_fit response). split; [done|]. rewrite blen_release_payload. unfold U32_MAX in *. lia.
Qed.

(** ** Where an id stands *)

Lemma at_off_within {A} (p b q : list A) off x : at_off b off x → at_off (p ++ b ++ q) (blen p + off) x.
Proof.
  intros (Ho & pre & Hl & [rest ->]%at_off_prefix)%at_off_drop.
  replace (p ++ ((pre ++ x) ++ rest) ++ q) with ((p ++ pre) ++ x ++ rest ++ q) by (by rewrite <-!app_assoc).
  eapply at_off_eq; [apply at_off_mid|]. rewrite blen_app. lia.
Qed.

Lemma id_at_frame response ids i id :
  ids !! i = Some id →
  at_off (release_bytes response ids) (HEADER_SIZE + 2 + Z.of_nat i * 8) (to_le 8 id).
Proof.
  intros Hi. rewrite <-(take_drop_middle _ _ _ Hi) at 1. pose proof (lookup_lt_Some _ _ _ Hi).
  unfold release_bytes. rewrite encode_frame_eq. unfold release_payload at 2.
  rewrite fmap_app, fmap_cons, concat_app. cbn [concat].
  match goal with |- at_off (?a ++ ?b ++ ?c ++ ?x ++ ?y ++ ?z ++ ?w) _ _ =>
    replace (a ++ b ++ c ++ x ++ y ++ z ++ w) with ((a ++ b ++ c ++ x ++ y) ++ z ++ w)
      by (by rewrite <-!app_assoc) end.
  eapply at_off_eq; [apply at_off_mid|]. rewrite !blen_app, blen_ids_bytes, !blen_to_le, !blen_cons, blen_nil.
  unfold HEADER_SIZE, blen. rewrite length_take. lia.
Qed.

Definition id_offset (i : Z) : Z :=
  i / IPC_RELEASE_BATCH_CAPACITY * (HEADER_SIZE + 2 + IPC_RELEASE_BATCH_CAPACITY * 8)
  + HEADER_SIZE + 2 + i mod IPC_RELEASE_BATCH_CAPACITY * 8.

Lemma id_offset_small i : 0 <= i < 64 → id_offset i = HEADER_SIZE + 2 + i * 8.
Proof.
  intros. unfold id_offset, IPC_RELEASE_BATCH_CAPACITY. rewrite Z.div_small, Z.mod_small by lia. lia.
Qed.
Lemma id_offset_next i : id_offset (64 + i) = 530 + id_offset i.
Proof.
  unfold id_offset, IPC_RELEASE_BATCH_CAPACITY, HEADER_SIZE.
  replace (64 + i) with (i + 1 * 64) by lia. rewrite Z.div_add, Z.mod_add by lia. lia.
Qed.

Lemma id_at_prefix response rounds ids i id :
  (length ids <= rounds)%nat → ids !! i = Some id →
  at_off (concat (release_bytes response <$> id_groups rounds ids)) (id_offset (Z.of_nat i)) (to_le 8 id).
Proof.
  revert ids i. induction rounds as [|rounds IH]; intros [|x ids] i Hle Hi; cbn [id_groups]; try done.
  { simpl in Hle. lia. }
  destruct (group_cut (x :: ids) ltac:(done)) as (Hn & H64 & Hlen & Hfull).
  set (n := Z.to_nat _) in *. cbn [fmap list_fmap concat]. pose proof (lookup_lt_Some _ _ _ Hi) as Hlt.
  destruct (decide (i < n)%nat) as [Hin|Hout].
  - rewrite id_offset_small by lia. apply (at_off_within []), id_at_frame. by rewrite lookup_take_lt.
  - specialize (Hfull ltac:(lia)). specialize (IH (drop n (x :: ids)) (i - n)%nat).
    rewrite lookup_drop in IH. replace (n + (i - n))%nat with i in IH by lia.
    specialize (IH ltac:(rewrite length_drop; lia) Hi).
    replace (Z.of_nat i) with (64 + Z.of_nat (i - n)) by lia. rewrite id_offset_next.
    apply (at_off_within (release_bytes response (take n (x :: ids))) _ []) in IH. rewrite app_nil_r in IH.
    eapply at_off_eq; [exact IH|]. unfold release_bytes. rewrite blen_encode_frame, blen_release_payload, Hlen.
    unfold HEADER_SIZE. lia.
Qed.

(** The restore loop puts back the ids it was built from, in their order. *)
Lemma restore_prefix response ids n q :
  Forall (fun i => 0 <= i < 2 ^ 64) ids → (n <= length ids)%nat →
  restore_releases n (encode_releases (length ids) ids response []) q = Ok (take n ids ++ q).
Proof.
  intros Hr. revert q. induction n as [|n IH]; intros q Hn; cbn [restore_releases]; [done|].
  destruct (lookup_lt_is_Some_2 ids n ltac:(lia)) as [id Hid].
  rewrite (take_S_r _ _ _ Hid), <-app_assoc. cbn [app]. rewrite <-IH by lia.
  rewrite encode_releases_groups. cbn [app].
  pose proof (id_at_prefix response (length ids) ids n id ltac:(lia) Hid) as Hat.
  unfold id_offset in Hat. rewrite (read_le_at_off_small 8 _ _ id Hat); [done|].
  by eapply Forall_lookup_1 in Hr.
Qed.
