(* ===== verification/ConnectionRun.v ===== *)
(** Runs of one physical connection: the control state of [Connection], the tokens
    its drivers hold, and the reclamation actions still to be executed.  Each step is
    one locked section, so every interleaving of the threads that share the
    connection is a run.  A method that rejects and then deactivates is one step;
    the same result is reached by a rejection followed by a separate deactivation. *)

From S2P Require Import Prelude.
From S2P Require Import Frame.
From S2P Require Import Release.
From S2P Require Import Connection.

(** ** Worlds *)

(** [w_tokens] are the prepared-loan tokens a driver may still use, [w_dying] those
    being dropped; likewise the two control counts.  A reclamation action is the
    allocations it has still to release and the number it has released.  [w_freed]
    are the handles returned to their pools, [w_minted] all handles ever offered. *)
Record World := W {
  w_core : State;
  w_seq : Z;
  w_tokens : list Z;
  w_dying : list Z;
  w_remotes : list Z;
  w_controls : Z;
  w_dying_controls : Z;
  w_batches : list WriteBatch;
  w_reclaims : list (list Alloc * Z);
  w_freed : list Z;
  w_minted : list Z }.

Definition initial : World := W State_default 0 [] [] [] 0 0 [] [] [] [].

(** What a step is, as far as published loans are concerned. *)
Inductive event := Received (header : FrameHeader) (payload : bytes) | Ended | Other.

Section runs.
Context (origin : Z) (side : ConnectionSide).

(** The tokens of a request that are bound to this connection. *)
Definition own_loans (r : WriteRequest) : list Z :=
  pl_id <$> filter (fun l => pl_origin l = origin) (request_loans r).
Definition own_controls (r : WriteRequest) : Z :=
  match request_control r with Some c => if cf_origin c =? origin then 1 else 0 | None => 0 end.

Definition control_of (b : WriteBatch) : Z := if wb_control b then 1 else 0.

Inductive step : World → event → World → Prop :=
| s_finish s sq tk dy rm ct dc bs rc fr mi s' r e :
    finish_handshake s = (s', r, e) →
    step (W s sq tk dy rm ct dc bs rc fr mi) Other
         (W s' sq tk dy rm ct dc bs ((reclaim_list r, 0) :: rc) fr mi)
| s_prepare s sq tk dy rm ct dc bs rc fr mi h r1 r2 s' sq' r id :
    h ∉ mi → prepare_loan_from s h sq r1 r2 = (s', sq', r, Ok id) →
    step (W s sq tk dy rm ct dc bs rc fr mi) Other
         (W s' sq' (id :: tk) dy rm ct dc bs ((reclaim_list r, 0) :: rc) fr (h :: mi))
| s_prepare_err s sq tk dy rm ct dc bs rc fr mi h r1 r2 s' sq' r e :
    h ∉ mi → prepare_loan_from s h sq r1 r2 = (s', sq', r, Err e) →
    step (W s sq tk dy rm ct dc bs rc fr mi) Other
         (W s' sq' tk dy rm ct dc bs ((reclaim_list r, 0) :: rc) (h :: fr) (h :: mi))
| s_sequence s sq tk dy rm ct dc bs rc fr mi sq' :   (* another connection draws ids *)
    sq <= sq' <= U64_MAX →
    step (W s sq tk dy rm ct dc bs rc fr mi) Other (W s sq' tk dy rm ct dc bs rc fr mi)
| s_admit s sq tk dy rm ct dc bs rc fr mi id room s' r :
    0 <= id < 2 ^ 64 → admit_remote_loan s id room = (s', r, Ok tt) →
    step (W s sq tk dy rm ct dc bs rc fr mi) Other
         (W s' sq tk dy (id :: rm) ct dc bs ((reclaim_list r, 0) :: rc) fr mi)
| s_admit_err s sq tk dy rm ct dc bs rc fr mi id room s' r e :
    admit_remote_loan s id room = (s', r, Err e) →
    step (W s sq tk dy rm ct dc bs rc fr mi) Other
         (W s' sq tk dy rm ct dc bs ((reclaim_list r, 0) :: rc) fr mi)
| s_control s sq tk dy rm ct dc bs rc fr mi s' :
    prepare_control_frame s = Ok s' →
    step (W s sq tk dy rm ct dc bs rc fr mi) Other (W s' sq tk dy rm (ct + 1) dc bs rc fr mi)
| s_begin s sq tk dy rm ct dc bs rc fr mi req room tk' s' r b :
    tk ≡ₚ own_loans req ++ tk' → own_controls req <= ct →
    begin_write origin side s req room = (s', r, Ok (Some b)) →
    step (W s sq tk dy rm ct dc bs rc fr mi) Other
         (W s' sq tk' dy rm (ct - own_controls req) dc (b :: bs) ((reclaim_list r, 0) :: rc) fr mi)
| s_begin_none s sq tk dy rm ct dc bs rc fr mi req room tk' s' r e :
    tk ≡ₚ own_loans req ++ tk' → own_controls req <= ct →
    begin_write origin side s req room = (s', r, e) → e = Ok None ∨ (∃ x, e = Err x) →
    step (W s sq tk dy rm ct dc bs rc fr mi) Other
         (W s' sq tk' (own_loans req ++ dy) rm (ct - own_controls req) (dc + own_controls req) bs
            ((reclaim_list r, 0) :: rc) fr mi)
| s_io s sq tk dy rm ct dc b bs rc fr mi s' b' :
    begin_io s b = Ok (s', b') →
    step (W s sq tk dy rm ct dc (b :: bs) rc fr mi) Other
         (W s' sq tk dy rm ct dc (b' :: bs) rc fr mi)
| s_frame s sq tk dy rm ct dc b bs rc fr mi s' b' :
    frame_completed s b = Ok (s', b') →
    step (W s sq tk dy rm ct dc (b :: bs) rc fr mi) Other
         (W s' sq tk dy rm ct dc (b' :: bs) rc fr mi)
| s_flush s sq tk dy rm ct dc b bs rc fr mi s' :
    flush_completed s b = Ok s' →
    step (W s sq tk dy rm ct dc (b :: bs) rc fr mi) Other
         (W s' sq tk (wb_loans b ++ dy) rm ct (dc + control_of b) bs rc fr mi)
| s_fail s sq tk dy rm ct dc b bs rc fr mi s' b' r :
    write_failed s b = (s', b', r) →
    step (W s sq tk dy rm ct dc (b :: bs) rc fr mi) Other
         (W s' sq tk dy rm ct (dc + control_of b) (b' :: bs) ((reclaim_list r, 0) :: rc) fr mi)
| s_drop_batch s sq tk dy rm ct dc b bs rc fr mi s' r :
    drop_batch s b = Ok (s', r) →
    step (W s sq tk dy rm ct dc (b :: bs) rc fr mi) Other
         (W s' sq tk (wb_loans b ++ dy) rm ct (dc + control_of b) bs ((reclaim_list r, 0) :: rc) fr mi)
| s_receive s sq tk dy rm ct dc bs rc fr mi hd pl s' r e :
    receive_release side s hd pl = (s', r, e) →
    step (W s sq tk dy rm ct dc bs rc fr mi) (Received hd pl)
         (W s' sq tk dy rm ct dc bs ((reclaim_list r, 0) :: rc) fr mi)
| s_deactivate s sq tk dy rm ct dc bs rc fr mi s' r :
    deactivate s = (s', r) →
    step (W s sq tk dy rm ct dc bs rc fr mi) Other
         (W s' sq tk dy rm ct dc bs ((reclaim_list r, 0) :: rc) fr mi)
| s_peer_end s sq tk dy rm ct dc bs rc fr mi s' r :
    peer_end s = (s', r) →
    step (W s sq tk dy rm ct dc bs rc fr mi) Ended
         (W s' sq tk dy rm ct dc bs ((reclaim_list r, 0) :: rc) fr mi)
| s_close s sq tk dy rm ct dc bs rc fr mi s' c :
    try_close s = (s', c) →
    step (W s sq tk dy rm ct dc bs rc fr mi) Other (W s' sq tk dy rm ct dc bs rc fr mi)
| s_abandon s sq tk dy rm ct dc bs rc fr mi id tk' :   (* a driver lets a token go *)
    tk ≡ₚ id :: tk' →
    step (W s sq tk dy rm ct dc bs rc fr mi) Other (W s sq tk' (id :: dy) rm ct dc bs rc fr mi)
| s_drop_token s sq tk dy rm ct dc bs rc fr mi id dy' s' r :
    dy ≡ₚ id :: dy' → drop_prepared s id = (s', r) →
    step (W s sq tk dy rm ct dc bs rc fr mi) Other
         (W s' sq tk dy' rm ct dc bs ((reclaim_list r, 0) :: rc) fr mi)
| s_drop_remote s sq tk dy rm ct dc bs rc fr mi id rm' s' :
    rm ≡ₚ id :: rm' → drop_remote s id = Ok s' →
    step (W s sq tk dy rm ct dc bs rc fr mi) Other (W s' sq tk dy rm' ct dc bs rc fr mi)
| s_abandon_control s sq tk dy rm ct dc bs rc fr mi :
    0 < ct →
    step (W s sq tk dy rm ct dc bs rc fr mi) Other (W s sq tk dy rm (ct - 1) (dc + 1) bs rc fr mi)
| s_drop_control s sq tk dy rm ct dc bs rc fr mi s' :
    0 < dc → drop_control s = Ok s' →
    step (W s sq tk dy rm ct dc bs rc fr mi) Other (W s' sq tk dy rm ct (dc - 1) bs rc fr mi)
| s_release s sq tk dy rm ct dc bs rc fr mi a pend n rc' :
    rc ≡ₚ (a :: pend, n) :: rc' →
    step (W s sq tk dy rm ct dc bs rc fr mi) Other
         (W s sq tk dy rm ct dc bs ((pend, n + 1) :: rc') (a_handle a :: fr) mi)
| s_settle s sq tk dy rm ct dc bs rc fr mi n rc' s' :
    rc ≡ₚ ([], n) :: rc' → settle_reclaims s n = Ok s' →
    step (W s sq tk dy rm ct dc bs rc fr mi) Other (W s' sq tk dy rm ct dc bs rc' fr mi).

Inductive reachable : World → Prop :=
| reach_initial : reachable initial
| reach_step w ev w' : reachable w → step w ev w' → reachable w'.
End runs.
