(* ===== verification/ConnectionInv.v ===== *)
(** The invariant of connection runs, in five parts: the counters, the writer, the
    loan book and its tokens, the ends of the connection, and the conservation of
    allocations. *)

From S2P Require Import Prelude.
From S2P Require Import Frame.
From S2P Require Import Release.
From S2P Require Import Connection.
From S2P Require Import ConnectionWire.
From S2P Require Import ConnectionRun.

Create HintDb connection.

(** ** Permutations by counting *)

Definition cnt (x : Z) (l : list Z) : nat := count_occ Z.eq_dec l x.

Lemma cnt_app x l k : cnt x (l ++ k) = (cnt x l + cnt x k)%nat.
Proof. apply count_occ_app. Qed.
Lemma cnt_nil x : cnt x [] = 0%nat.
Proof. done. Qed.
Lemma perm_cnt l k : l ≡ₚ k ↔ ∀ x, cnt x l = cnt x k.
Proof. apply (Permutation_count_occ Z.eq_dec). Qed.

(** Prove a permutation of concatenated lists from permutations in the context. *)
Ltac perm_solve :=
  apply perm_cnt; let x := fresh "x" in intros x;
  repeat match goal with H : _ ≡ₚ _ |- _ => apply (fun p => proj1 (perm_cnt _ _) p x) in H end;
  repeat match goal with
  | H : _ |- _ => progress rewrite ?cnt_app, ?cnt_nil in H
  | |- _ => progress rewrite ?cnt_app, ?cnt_nil
  | |- context [cnt x (?y :: ?l)] => lazymatch l with [] => fail | _ => change (y :: l) with ([y] ++ l) end
  | H : context [cnt x (?y :: ?l)] |- _ =>
      lazymatch l with [] => fail | _ => change (y :: l) with ([y] ++ l) in H end
  end; lia.

(** ** Handles of a book *)

Definition handles (m : gmap Z Alloc) : list Z := a_handle <$> (map_to_list m).*2.

Lemma handles_empty : handles ∅ = [].
Proof. unfold handles. by rewrite map_to_list_empty. Qed.

Lemma handles_insert m i a : m !! i = None → handles (<[i := a]> m) ≡ₚ a_handle a :: handles m.
Proof. intros H. unfold handles. by rewrite map_to_list_insert. Qed.

Lemma handles_delete m i a : m !! i = Some a → handles m ≡ₚ a_handle a :: handles (delete i m).
Proof.
  intros H. rewrite <-handles_insert by apply lookup_delete_eq. by rewrite insert_delete_id.
Qed.

Lemma length_handles m : length (handles m) = size m.
Proof. unfold handles. by rewrite !length_fmap, length_map_to_list. Qed.

Definition reclaim_handles (rc : list (list Alloc * Z)) : list Z := a_handle <$> (rc ≫= fst).
#[global] Arguments reclaim_handles _ : simpl never.
#[global] Arguments handles _ : simpl never.

Lemma reclaim_list_handles r :
  a_handle <$> reclaim_list r = handles (rc_prepared r) ++ handles (rc_published r) ++ (a_handle <$> rc_records r).
Proof. unfold reclaim_list, handles. by rewrite !fmap_app. Qed.

Lemma blen_reclaim_list r :
  blen (reclaim_list r) = Z.of_nat (size (rc_prepared r)) + Z.of_nat (size (rc_published r)) + blen (rc_records r).
Proof.
  unfold reclaim_list, blen. rewrite !length_app, !length_fmap, !length_map_to_list. lia.
Qed.

(** ** The parts *)

Definition settled_total (rc : list (list Alloc * Z)) : Z :=
  foldr (fun r n => blen r.1 + r.2 + n) 0 rc.
Definition control_total (bs : list WriteBatch) : Z := foldr (fun b n => control_of b + n) 0 bs.
Definition inflight_total (bs : list WriteBatch) : Z := foldr (fun b n => wb_release_count b + n) 0 bs.

(** Counters count what exists. *)
Record counts (s : State) (rm : list Z) (ct dc : Z) (bs : list WriteBatch)
    (rc : list (list Alloc * Z)) : Prop := {
  c_settling : settling s = settled_total rc;
  c_settled : Forall (fun r => 0 <= r.2) rc;
  c_reads : remote_reads s = blen rm;
  c_controls : pending_controls s = ct + dc + control_total bs;
  c_ct : 0 <= ct;
  c_dc : 0 <= dc;
  c_inflight : inflight_releases s = inflight_total bs;
  c_counts : Forall (fun b => 0 <= wb_release_count b) bs }.

(** An unsent batch still carries the queue it took. *)
Definition prefix_ok (b : WriteBatch) : Prop :=
  ∃ ids response, wb_prefix b = encode_releases (length ids) ids response []
    ∧ wb_release_count b = blen ids ∧ Forall (fun id => 0 <= id < 2 ^ 64) ids.

(** The writer state tells where the one batch is. *)
Definition batch_ok (w : WriterState) (b : WriteBatch) : Prop :=
  wb_finished b = false
  ∧ (0 <= wb_frames_remaining b ∧ (wb_frames_remaining b = 0 → wb_release_count b = 0))
  ∧ (wb_attempted b = false → 0 < wb_frames_remaining b ∧ prefix_ok b)
  ∧ (wb_loans b ≠ [] → wb_business b = true)
  ∧ (w = Broken ∨ w = if wb_attempted b
                      then (if wb_frames_remaining b =? 0 then AwaitingFlush else InFrame)
                      else Reserved).

Definition writer_ok (s : State) (bs : list WriteBatch) : Prop :=
  match bs with
  | [] => writer s = Idle ∨ writer s = Broken
  | [b] => batch_ok (writer s) b
  | _ => False
  end.

Definition loans (bs : list WriteBatch) : list Z := bs ≫= wb_loans.
Definition waiting (bs : list WriteBatch) : list Z := filter (fun b => wb_attempted b = false) bs ≫= wb_loans.
#[global] Arguments loans _ : simpl never.
#[global] Arguments waiting _ : simpl never.

(** Tokens and books. *)
Record book (s : State) (sq : Z) (tk dy : list Z) (bs : list WriteBatch) : Prop := {
  b_seq : 0 <= sq <= U64_MAX;
  b_nodup : NoDup (tk ++ dy ++ loans bs);
  b_range : Forall (fun id => 0 < id <= sq) (tk ++ dy ++ loans bs);
  b_published id : is_Some (published s !! id) → 0 < id <= sq;
  b_owner id : is_Some (prepared s !! id) → id ∈ tk ++ dy ++ waiting bs;
  b_disj id : is_Some (prepared s !! id) → published s !! id = None;
  b_live id : deactivated s = false → id ∈ tk ++ waiting bs → is_Some (prepared s !! id) }.

(** How a connection ends. *)
Record ends (s : State) : Prop := {
  e_stop : deactivated s = true → prepared s = ∅;
  e_ended : peer_ended s = true → deactivated s = true ∧ published s = ∅ ∧ releases s = [];
  e_closed : closed s = true →
    deactivated s = true ∧ published s = ∅ ∧ releases s = [] ∧ settling s = 0 ∧ remote_reads s = 0
    ∧ pending_controls s = 0 ∧ (writer s = Idle ∨ writer s = Broken);
  e_ids : Forall (fun id => 0 <= id < 2 ^ 64) (releases s) }.

(** Every handle ever offered is in exactly one place. *)
Record conserved (s : State) (rc : list (list Alloc * Z)) (fr mi : list Z) : Prop := {
  k_minted : NoDup mi;
  k_places : mi ≡ₚ handles (prepared s) ++ handles (published s) ++ reclaim_handles rc ++ fr }.

Record inv (w : World) : Prop := {
  i_counts : counts (w_core w) (w_remotes w) (w_controls w) (w_dying_controls w) (w_batches w) (w_reclaims w);
  i_writer : writer_ok (w_core w) (w_batches w);
  i_book : book (w_core w) (w_seq w) (w_tokens w) (w_dying w) (w_batches w);
  i_ends : ends (w_core w);
  i_remotes : Forall (fun id => 0 <= id < 2 ^ 64) (w_remotes w);
  i_conserved : conserved (w_core w) (w_reclaims w) (w_freed w) (w_minted w) }.

Lemma inv_initial : inv initial.
Proof.
  split; simpl.
  - split; simpl; try done; constructor.
  - by left.
  - split; simpl; try done; try (by intros id [? ?]). all: try (by apply NoDup_nil). all: try set_solver.
  - split; simpl; try done.
  - done.
  - split; simpl; [constructor|]. unfold reclaim_handles. by rewrite handles_empty.
Qed.

(** ** Stopping *)

(** A stop with the records [r] already taken out of the published book. *)
Lemma stop_conserved s r rc fr mi :
  rc_prepared r = ∅ →
  conserved s ((reclaim_list r, 0) :: rc) fr mi →
  conserved (stop_locked s r).1 ((reclaim_list (stop_locked s r).2, 0) :: rc) fr mi.
Proof.
  intros Hr [Hm Hp]. split; [done|]. simpl. rewrite handles_empty. unfold reclaim_handles in *.
  cbn in *. rewrite !fmap_app, !reclaim_list_handles in *. cbn in *. rewrite Hr, handles_empty in Hp.
  perm_solve.
Qed.

Lemma reclaim_handles_cons l n rc :
  reclaim_handles ((l, n) :: rc) = (a_handle <$> l) ++ reclaim_handles rc.
Proof. unfold reclaim_handles. cbn. by rewrite fmap_app. Qed.

Lemma reclaim_new : reclaim_list Reclaims_new = [].
Proof. unfold reclaim_list. simpl. by rewrite map_to_list_empty. Qed.

(** An empty reclamation action changes nothing. *)
Lemma inv_empty_reclaim s sq tk dy rm ct dc bs rc fr mi :
  inv (W s sq tk dy rm ct dc bs rc fr mi) →
  inv (W s sq tk dy rm ct dc bs ((reclaim_list Reclaims_new, 0) :: rc) fr mi).
Proof.
  rewrite reclaim_new. intros [Hc Hw Hb He Hr Hk]. simpl in *. split; simpl; try done.
  - destruct Hc. split; simpl; try done. by constructor; [simpl; lia|].
  - destruct Hk. split; [done|]. by rewrite reclaim_handles_cons.
Qed.

Lemma inv_stop_with s sq tk dy rm ct dc bs rc fr mi r s' r' :
  rc_prepared r = ∅ → inv (W s sq tk dy rm ct dc bs ((reclaim_list r, 0) :: rc) fr mi) →
  stop_locked s r = (s', r') →
  inv (W s' sq tk dy rm ct dc bs ((reclaim_list r', 0) :: rc) fr mi).
Proof.
  intros Hrp [Hc Hw Hb He Hr Hk] Hd. simpl in *. pose proof (stop_conserved s r rc fr mi Hrp Hk) as Hk'.
  rewrite Hd in Hk'. simpl in Hk'. unfold stop_locked in Hd. injection Hd as <- <-.
  split; simpl; try done.
  - destruct Hc as [Hset Hsd ? ? ? ? ? ?]. split; simpl in *; try done.
    + rewrite blen_reclaim_list in *. simpl. rewrite Hrp, map_size_empty in Hset. lia.
    + apply Forall_cons in Hsd as [_ ?]. by constructor; [simpl; lia|].
  - destruct Hb as [? ? ? ? ? ? ?]. split; simpl; try done; intros id H; rewrite lookup_empty in H; by destruct H.
  - destruct He as [Hs Hen Hcl Hid]. split; simpl; try done.
    + intros H. by destruct (Hen H) as (? & ? & ?).
    + intros H. destruct (Hcl H) as (Hd & ? & ? & ? & ? & ? & ?). rewrite (Hs Hd), map_size_empty.
      split_and!; try done. lia.
Qed.

Lemma inv_stop s sq tk dy rm ct dc bs rc fr mi s' r :
  inv (W s sq tk dy rm ct dc bs rc fr mi) → deactivate s = (s', r) →
  inv (W s' sq tk dy rm ct dc bs ((reclaim_list r, 0) :: rc) fr mi).
Proof. intros Hinv%inv_empty_reclaim Hd. by eapply (inv_stop_with _ _ _ _ _ _ _ _ _ _ _ Reclaims_new). Qed.

(** ** Admission steps *)

Lemma check_live_ok s u :
  check_live s = Ok u → closed s = false ∧ peer_ended s = false ∧ deactivated s = false.
Proof. unfold check_live. destruct (closed s), (peer_ended s), (deactivated s); done. Qed.

Lemma check_writable_ok s u :
  check_writable s = Ok u → closed s = false ∧ peer_ended s = false ∧ writer s ≠ Broken.
Proof.
  unfold check_writable. destruct (closed s), (peer_ended s); try done.
  destruct (bool_decide (writer s = Broken)) eqn:Hb; [done|]. by apply bool_decide_eq_false in Hb.
Qed.

Lemma check_business_ok s u :
  check_business s = Ok u →
  closed s = false ∧ peer_ended s = false ∧ deactivated s = false ∧ handshake_done s = true.
Proof.
  unfold check_business. intros (? & Hl & Hh)%bind_ok. apply check_live_ok in Hl as (? & ? & ?).
  apply guard_err_ok, negb_false_iff in Hh. done.
Qed.

Lemma inv_finish s sq tk dy rm ct dc bs rc fr mi s' r e :
  inv (W s sq tk dy rm ct dc bs rc fr mi) → finish_handshake s = (s', r, e) →
  inv (W s' sq tk dy rm ct dc bs ((reclaim_list r, 0) :: rc) fr mi).
Proof.
  intros Hinv. unfold finish_handshake. destruct (handshake_done s).
  { destruct (deactivate s) as [s1 r1] eqn:Hd. intros [= <- <- _]. by eapply inv_stop. }
  intros Hf. assert (r = Reclaims_new ∧ (s' = s ∨ s' = set_handshake s)) as [-> Hs].
  { destruct (check_live s); naive_solver. }
  apply inv_empty_reclaim in Hinv. destruct Hs as [->| ->]; [done|].
  destruct Hinv as [[] Hw [] [] Hr []]. by split; simpl in *.
Qed.

(** What a successful preparation does. *)
Lemma prepare_ok s h sq r1 r2 s' sq' r id :
  prepare_loan_from s h sq r1 r2 = (s', sq', r, Ok id) →
  deactivated s = false ∧ peer_ended s = false ∧ closed s = false
  ∧ sq + 1 <= U64_MAX ∧ id = sq + 1 ∧ sq' = id ∧ r = Reclaims_new
  ∧ s' = set_book s (<[id := {| a_handle := h; a_published := false |}]> (prepared s)) (published s) (settling s).
Proof.
  unfold prepare_loan_from, prepare_section, checked_add.
  destruct (check_business s) as [u|e|] eqn:Hb; simpl; [|by destruct e|done].
  apply check_business_ok in Hb as (? & ? & ? & _).
  destruct r1, r2; simpl; try (by repeat case_match; simplify_eq).
  destruct (Z.leb_spec (sq + 1) U64_MAX); intros H'; by repeat case_match; simplify_eq.
Qed.

(** What a failed one does: nothing, or a deactivation. *)
Lemma prepare_err s h sq r1 r2 s' sq' r e :
  prepare_loan_from s h sq r1 r2 = (s', sq', r, Err e) →
  sq' = sq ∧ ((s' = s ∧ r = Reclaims_new) ∨ deactivate s = (s', r)).
Proof.
  unfold prepare_loan_from, prepare_section.
  destruct (_ ;? _) as [id|e'|]; [done| |done].
  destruct e'; intros H'; simplify_eq; auto; destruct (deactivate s); simplify_eq; auto.
Qed.

Lemma inv_mint_freed s sq tk dy rm ct dc bs rc fr mi h :
  h ∉ mi → inv (W s sq tk dy rm ct dc bs rc fr mi) →
  inv (W s sq tk dy rm ct dc bs rc (h :: fr) (h :: mi)).
Proof.
  intros Hh [Hc Hw Hb He Hr [Hm Hp]]. split; simpl in *; try done.
  split; [by constructor|]. perm_solve.
Qed.

Lemma inv_prepare s sq tk dy rm ct dc bs rc fr mi h r1 r2 s' sq' r id :
  h ∉ mi → inv (W s sq tk dy rm ct dc bs rc fr mi) →
  prepare_loan_from s h sq r1 r2 = (s', sq', r, Ok id) →
  inv (W s' sq' (id :: tk) dy rm ct dc bs ((reclaim_list r, 0) :: rc) fr (h :: mi)).
Proof.
  intros Hh Hinv Hp. apply prepare_ok in Hp as (Hd & Hpe & Hcl & Hmax & -> & -> & -> & ->).
  apply inv_empty_reclaim in Hinv. destruct Hinv as [[] Hw Hb [] Hr [Hm Hp]]. simpl in *.
  destruct Hb as [Hs Hnd Hrg Hpub Hown Hdj Hlive].
  assert (∀ i, i ∈ tk ++ dy ++ loans bs → 0 < i <= sq) as Hrange by (by apply Forall_forall).
  assert (∀ i, i ∈ waiting bs → i ∈ loans bs) as Hsub.
  { intros i. unfold waiting, loans. rewrite !list_elem_of_bind. setoid_rewrite list_elem_of_filter. naive_solver. }
  assert (prepared s !! (sq + 1) = None) as Hnone.
  { destruct (prepared s !! (sq + 1)) eqn:Hl; [|done].
    assert (0 < sq + 1 <= sq); [|lia]. apply Hrange.
    specialize (Hown (sq + 1) ltac:(by eexists)). rewrite !elem_of_app in *. naive_solver. }
  split; simpl; try done; [| |].
  - split; simpl.
    + lia.
    + constructor; [|done]. intros Hin. specialize (Hrange _ Hin). lia.
    + constructor; [lia|]. eapply Forall_impl; [exact Hrg|]. simpl. lia.
    + intros i Hi. specialize (Hpub i Hi). lia.
    + intros i Hi. destruct (decide (i = sq + 1)) as [->|]; [left|]. rewrite lookup_insert_ne in Hi by done.
      right. by apply Hown.
    + intros i Hi. destruct (decide (i = sq + 1)) as [->|].
      * apply eq_None_not_Some. intros Hi'. specialize (Hpub _ Hi'). lia.
      * rewrite lookup_insert_ne in Hi by done. by apply Hdj.
    + intros i _ Hi. destruct (decide (i = sq + 1)) as [->|]; [rewrite lookup_insert_eq; by eexists|].
      rewrite lookup_insert_ne by done. apply Hlive; [done|]. rewrite elem_of_cons in Hi. naive_solver.
  - split; simpl; try done. by rewrite Hd.
  - split; [by constructor|]. simpl. rewrite handles_insert by done. simpl. perm_solve.
Qed.

Lemma inv_prepare_err s sq tk dy rm ct dc bs rc fr mi h r1 r2 s' sq' r e :
  h ∉ mi → inv (W s sq tk dy rm ct dc bs rc fr mi) →
  prepare_loan_from s h sq r1 r2 = (s', sq', r, Err e) →
  inv (W s' sq' tk dy rm ct dc bs ((reclaim_list r, 0) :: rc) (h :: fr) (h :: mi)).
Proof.
  intros Hh Hinv [-> [[-> ->]|Hd]]%prepare_err; apply (inv_mint_freed _ _ _ _ _ _ _ _ _ _ _ h Hh) in Hinv.
  - by apply inv_empty_reclaim.
  - by eapply inv_stop.
Qed.

Lemma inv_sequence s sq tk dy rm ct dc bs rc fr mi sq' :
  sq <= sq' <= U64_MAX → inv (W s sq tk dy rm ct dc bs rc fr mi) →
  inv (W s sq' tk dy rm ct dc bs rc fr mi).
Proof.
  intros Hle [Hc Hw [Hs Hnd Hrg Hpub Hown Hdj Hlive] He Hr Hk]. split; simpl in *; try done.
  split; try done; [lia| |].
  - eapply Forall_impl; [exact Hrg|]. simpl. lia.
  - intros i Hi. specialize (Hpub i Hi). lia.
Qed.

(** A step that only moves the flow fields keeps the book and the allocations. *)
Lemma book_flow s sq tk dy bs reads rel inf ctl w :
  book s sq tk dy bs → book (set_flow s reads rel inf ctl w) sq tk dy bs.
Proof. by intros []. Qed.
Lemma conserved_flow s rc fr mi reads rel inf ctl w :
  conserved s rc fr mi → conserved (set_flow s reads rel inf ctl w) rc fr mi.
Proof. by intros []. Qed.
#[local] Hint Resolve book_flow conserved_flow : core.

Lemma admit_cases s id room s' r e :
  admit_remote_loan s id room = (s', r, e) →
  (e = Ok tt ∧ r = Reclaims_new ∧ closed s = false ∧ peer_ended s = false
   ∧ s' = set_flow s (remote_reads s + 1) (releases s) (inflight_releases s) (pending_controls s) (writer s))
  ∨ (e ≠ Ok tt ∧ ((s' = s ∧ r = Reclaims_new) ∨ deactivate s = (s', r))).
Proof.
  unfold admit_remote_loan. destruct (admit_section s id room) as [s1|x|] eqn:Ha.
  - intros [= <- <- <-]. left. unfold admit_section in Ha. res_inv Ha.
    destruct (_ ≫= _); [|done]. res_inv Ha. by simplify_eq.
  - right. destruct x; simplify_eq; try (by simplify_eq; auto); destruct (deactivate s); simplify_eq; auto.
  - right. simplify_eq. auto.
Qed.

Lemma inv_admit s sq tk dy rm ct dc bs rc fr mi id room s' r :
  0 <= id < 2 ^ 64 → inv (W s sq tk dy rm ct dc bs rc fr mi) →
  admit_remote_loan s id room = (s', r, Ok tt) →
  inv (W s' sq tk dy (id :: rm) ct dc bs ((reclaim_list r, 0) :: rc) fr mi).
Proof.
  intros Hid Hinv [(_ & -> & Hcl & Hpe & ->)|[Hne _]]%admit_cases; [|done].
  apply inv_empty_reclaim in Hinv. destruct Hinv as [[] Hw Hb [] Hr Hk]. simpl in *.
  split; simpl; auto.
  - split; simpl; try done. rewrite blen_cons. lia.
  - split; simpl; try done. by rewrite Hcl.
Qed.

Lemma inv_admit_err s sq tk dy rm ct dc bs rc fr mi id room s' r e :
  inv (W s sq tk dy rm ct dc bs rc fr mi) → admit_remote_loan s id room = (s', r, Err e) →
  inv (W s' sq tk dy rm ct dc bs ((reclaim_list r, 0) :: rc) fr mi).
Proof.
  intros Hinv [(? & _)|[_ [[-> ->]|Hd]]]%admit_cases; [done|by apply inv_empty_reclaim|by eapply inv_stop].
Qed.

Lemma inv_control s sq tk dy rm ct dc bs rc fr mi s' :
  inv (W s sq tk dy rm ct dc bs rc fr mi) → prepare_control_frame s = Ok s' →
  inv (W s' sq tk dy rm (ct + 1) dc bs rc fr mi).
Proof.
  unfold prepare_control_frame. intros [[] Hw Hb [] Hr Hk] (u & Hc & [= <-])%bind_ok.
  apply check_writable_ok in Hc as (Hcl & Hpe & _). simpl in *. split; simpl; auto.
  - split; simpl; try done; lia.
  - split; simpl; try done. by rewrite Hcl.
Qed.

(** ** Beginning a write *)

Lemma begin_cases origin side s req room s' r e :
  begin_write origin side s req room = (s', r, e) →
  (∃ b, e = Ok (Some b) ∧ r = Reclaims_new ∧ begin_section origin side s req room = Ok (Some (s', b)))
  ∨ ((∀ b, e ≠ Ok (Some b)) ∧ ((s' = s ∧ r = Reclaims_new) ∨ deactivate s = (s', r))).
Proof.
  unfold begin_write. destruct (begin_section origin side s req room) as [[[s1 b]|]|x|] eqn:Hb.
  - intros [= <- <- <-]. left. by exists b.
  - intros [= <- <- <-]. right. auto.
  - destruct (deactivates x); [|intros [= <- <- <-]; auto].
    destruct (deactivate s). intros [= <- <- <-]. auto.
  - intros [= <- <- <-]. auto.
Qed.

Lemma div_ceil_capacity_nonneg n : 0 <= n → 0 <= div_ceil_capacity n ∧ (0 < n → 0 < div_ceil_capacity n).
Proof.
  unfold div_ceil_capacity, IPC_RELEASE_BATCH_CAPACITY. intros.
  split; [apply Z.div_pos; lia|]. intros. apply Z.div_str_pos. lia.
Qed.

Lemma begin_section_ok origin side s req room s' b :
  begin_section origin side s req room = Ok (Some (s', b)) →
  closed s = false ∧ peer_ended s = false ∧ writer s = Idle
  ∧ (request_business req = true → deactivated s = false)
  ∧ s' = set_flow s (remote_reads s) [] (inflight_releases s + blen (releases s)) (pending_controls s) Reserved
  ∧ wb_loans b = own_loans origin req ∧ wb_release_count b = blen (releases s)
  ∧ 0 < wb_frames_remaining b ∧ wb_business b = request_business req
  ∧ control_of b = own_controls origin req ∧ wb_attempted b = false ∧ wb_finished b = false
  ∧ wb_prefix b = encode_releases (length (releases s)) (releases s) (bool_decide (side = Server)) [].
Proof.
  unfold begin_section. intros (u & Hc & H)%bind_ok. apply check_writable_ok in Hc as (Hcl & Hpe & _).
  apply bind_ok in H as (u1 & H1 & H). apply bind_ok in H as (u2 & H2 & H).
  apply bind_ok in H as (u3 & H3 & H). apply bind_ok in H as (u4 & H4 & H).
  apply guard_err_ok in H2, H3, H4. apply negb_false_iff, bool_decide_eq_true in H3.
  apply orb_false_iff in H4 as [H4 H5].
  clear H1. destruct (negb _ && _) eqn:Hnf; [done|].
  match goal with H : context [match ?o with Some _ => _ | None => Err _ end] |- _ => destruct o; [|done] end.
  apply bind_ok in H as (u5 & H6 & H). injection H as <- <-. simpl.
  assert (filter (fun l => pl_origin l = origin) (request_loans req) = request_loans req) as Hfil.
  { revert H5. rewrite existsb_false. generalize (request_loans req). clear.
    induction l as [|l ls IH]; intros Hall; [done|]. rewrite filter_cons_True.
    - f_equal. apply IH. intros x Hx. apply Hall. by right.
    - specialize (Hall l ltac:(left)). lia. }
  unfold own_loans, own_controls, control_of. rewrite Hfil. simpl.
  pose proof (blen_nonneg (releases s)) as Hpos. destruct (div_ceil_capacity_nonneg _ Hpos) as [Hd0 Hd1].
  split_and!; try done.
  - intros Hb. by rewrite Hb in H2.
  - destruct (_ || _) eqn:Hfr; [lia|]. simpl in Hnf. apply bool_decide_eq_false in Hnf.
    destruct (releases s) as [|x l]; [done|]. rewrite blen_cons in *. pose proof (blen_nonneg l). lia.
  - destruct (request_control req) as [c|]; [|done]. apply negb_false_iff in H4. by rewrite H4.
Qed.

Lemma inv_begin origin side s sq tk dy rm ct dc bs rc fr mi req room tk' s' r b :
  tk ≡ₚ own_loans origin req ++ tk' → own_controls origin req <= ct →
  inv (W s sq tk dy rm ct dc bs rc fr mi) → begin_write origin side s req room = (s', r, Ok (Some b)) →
  inv (W s' sq tk' dy rm (ct - own_controls origin req) dc (b :: bs) ((reclaim_list r, 0) :: rc) fr mi).
Proof.
  intros Htk Hct Hinv [(b' & [= <-] & -> & Hb)|[Hne _]]%begin_cases; [|by destruct (Hne b)].
  apply begin_section_ok in Hb as (Hcl & Hpe & Hidle & Hdeact & -> & Hl & Hrc & Hfr & Hbz & Hco & Hat & Hfi & Hpre).
  apply inv_empty_reclaim in Hinv. destruct Hinv as [[] Hw Hbk [] Hr Hk]. simpl in *.
  assert (bs = []) as ->.
  { destruct bs as [|b1 [|b2 bs]]; [done| |done]. destruct Hw as (_ & _ & _ & _ & Hw).
    rewrite Hidle in Hw. destruct Hw as [?|Hw]; [done|]. repeat case_match; done. }
  split; simpl; auto.
  - simpl in *. split; simpl; try done; [lia|lia|lia|]. by constructor; [rewrite Hrc; apply blen_nonneg|].
  - split_and!; [done|lia|lia| | |by right; rewrite Hat].
    { intros _. split; [done|]. by exists (releases s), (bool_decide (side = Server)). }
    intros Hne. rewrite Hbz. destruct req; [done| |]; by rewrite Hl in Hne.
  - apply book_flow. destruct Hbk as [? Hnd Hrg ? Hown ? Hlive].
    assert (tk ++ dy ++ loans [] ≡ₚ tk' ++ dy ++ loans [b]) as Hperm.
    { unfold loans. cbn. rewrite Hl, !app_nil_r, Htk. perm_solve. }
    assert (waiting [b] = wb_loans b) as Hwait.
    { unfold waiting. rewrite filter_cons_True by done. cbn. apply app_nil_r. }
    split; try done.
    + by rewrite <-Hperm.
    + by rewrite <-Hperm.
    + intros id Hid. rewrite Hwait, Hl. specialize (Hown id Hid). change (waiting []) with (@nil Z) in Hown.
      rewrite !elem_of_app in *. rewrite Htk, elem_of_app, elem_of_nil in Hown. tauto.
    + intros id Hd Hid. apply Hlive; [done|]. rewrite Hwait, Hl in Hid. rewrite !elem_of_app in *.
      rewrite Htk, elem_of_app. tauto.
  - split; simpl; try done; [|by rewrite Hcl]. intros Hx. destruct (e_ended0 Hx) as (? & ? & _). done.
Qed.

Lemma inv_begin_none origin side s sq tk dy rm ct dc bs rc fr mi req room tk' s' r e :
  tk ≡ₚ own_loans origin req ++ tk' → own_controls origin req <= ct →
  inv (W s sq tk dy rm ct dc bs rc fr mi) → begin_write origin side s req room = (s', r, e) →
  e = Ok None ∨ (∃ x, e = Err x) →
  inv (W s' sq tk' (own_loans origin req ++ dy) rm (ct - own_controls origin req)
         (dc + own_controls origin req) bs ((reclaim_list r, 0) :: rc) fr mi).
Proof.
  intros Htk Hct Hinv Hb He.
  assert (inv (W s sq tk' (own_loans origin req ++ dy) rm (ct - own_controls origin req)
         (dc + own_controls origin req) bs rc fr mi)) as Hinv'.
  { assert (0 <= own_controls origin req) as Ho.
    { unfold own_controls. repeat case_match; lia. }
    destruct Hinv as [[] Hw [? Hnd Hrg ? Hown ? Hlive] He' Hr Hk]. simpl in *. split; simpl; try done.
    - split; simpl; try done; lia.
    - assert (tk ++ dy ++ loans bs ≡ₚ tk' ++ (own_loans origin req ++ dy) ++ loans bs) as Hperm by perm_solve.
      split; try done.
      + by rewrite <-Hperm.
      + by rewrite <-Hperm.
      + intros id Hid. specialize (Hown id Hid). rewrite !elem_of_app in *. rewrite Htk, elem_of_app in Hown. tauto.
      + intros id Hd Hid. apply Hlive; [done|]. rewrite !elem_of_app in *. rewrite Htk, elem_of_app. tauto. }
  apply begin_cases in Hb as [(b & -> & _)|[_ [[-> ->]|Hd]]].
  - destruct He as [?|[? ?]]; done.
  - by apply inv_empty_reclaim.
  - by eapply inv_stop.
Qed.

(** ** Writer steps *)

Lemma writer_single s b bs : writer_ok s (b :: bs) → bs = [] ∧ batch_ok (writer s) b.
Proof. by destruct bs. Qed.

Lemma publish_spec l p q p' q' :
  publish l p q = Ok (p', q') →
  (∀ id, is_Some (p !! id) → q !! id = None) →
  (∀ id, p' !! id = if decide (id ∈ l) then None else p !! id)
  ∧ (∀ id, is_Some (q' !! id) ↔ is_Some (q !! id) ∨ id ∈ l)
  ∧ (∀ id, is_Some (q' !! id) → is_Some (q !! id) ∨ is_Some (p !! id))
  ∧ (∀ id, q !! id ≠ None → q' !! id = q !! id)
  ∧ handles p ++ handles q ≡ₚ handles p' ++ handles q'.
Proof.
  revert p q. induction l as [|i l IH]; intros p q Hp Hdj; simpl in Hp.
  - simplify_eq. split_and!; [|set_solver|by auto|done|done]. intros id. by rewrite decide_False by set_solver.
  - destruct (p !! i) as [a|] eqn:Hi; [|done]. pose proof (Hdj i ltac:(by eexists)) as Hqi.
    apply IH in Hp as (H1 & H2 & H3 & H4 & H5).
    2: { intros id Hid. rewrite lookup_insert_ne; [apply Hdj|]; destruct (decide (i = id)) as [->|];
           by rewrite ?lookup_delete_eq, ?lookup_delete_ne in Hid; try done; destruct Hid. }
    split_and!.
    + intros id. rewrite H1. destruct (decide (id = i)) as [->|Hne].
      * rewrite (decide_True (P := i ∈ i :: l)) by left. rewrite lookup_delete_eq. by case_decide.
      * rewrite lookup_delete_ne by done. repeat case_decide; set_solver.
    + intros id. rewrite H2. destruct (decide (id = i)) as [->|Hne].
      * rewrite lookup_insert_eq. set_solver.
      * rewrite lookup_insert_ne by done. set_solver.
    + intros id Hid. destruct (decide (id = i)) as [->|Hne]; [right; by eexists|].
      apply H3 in Hid. rewrite lookup_insert_ne, lookup_delete_ne in Hid by done. done.
    + intros id Hid. rewrite H4.
      * rewrite lookup_insert_ne; [done|]. congruence.
      * rewrite lookup_insert_ne; [done|]. congruence.
    + rewrite <-H5, handles_insert by done. rewrite (handles_delete p i a) by done. simpl. perm_solve.
Qed.

Lemma publish_ok l p q :
  NoDup l → (∀ id, id ∈ l → is_Some (p !! id)) → ∃ p' q', publish l p q = Ok (p', q').
Proof.
  revert p q. induction l as [|i l IH]; intros p q Hnd Hin; simpl; [by eauto|].
  apply NoDup_cons in Hnd as [Hni Hnd]. destruct (Hin i) as [a ->]; [left|].
  apply IH; [done|]. intros id Hid. rewrite lookup_delete_ne by (intros ->; done). apply Hin. by right.
Qed.

Lemma waiting_single b : waiting [b] = if wb_attempted b then [] else wb_loans b.
Proof.
  unfold waiting. destruct (wb_attempted b) eqn:Ha.
  - by rewrite filter_cons_False by (by rewrite Ha).
  - rewrite filter_cons_True by done. cbn. apply app_nil_r.
Qed.

Lemma loans_single b : loans [b] = wb_loans b.
Proof. unfold loans. cbn. apply app_nil_r. Qed.

Lemma begin_io_ok s b s' b' :
  begin_io s b = Ok (s', b') →
  ∃ p q, publish (wb_loans b) (prepared s) (published s) = Ok (p, q)
  ∧ wb_attempted b = false ∧ 0 < wb_frames_remaining b ∧ closed s = false ∧ peer_ended s = false
  ∧ (wb_business b = true → deactivated s = false) ∧ writer s ≠ Broken
  ∧ s' = set_flow (set_book s p q (settling s)) (remote_reads s) (releases s) (inflight_releases s)
           (pending_controls s) InFrame
  ∧ b' = {| wb_loans := wb_loans b; wb_prefix := wb_prefix b; wb_release_count := wb_release_count b;
         wb_frames_remaining := wb_frames_remaining b; wb_business := wb_business b;
         wb_control := wb_control b; wb_attempted := true; wb_finished := wb_finished b |}.
Proof.
  unfold begin_io. intros H. res_inv H. destruct v5 as [p q] || idtac.
  match goal with H : publish _ _ _ = Ok (?p, ?q) |- _ => exists p, q; split; [exact H|] end.
  rewrite ?bool_decide_eq_false, ?negb_true_iff in *. simplify_eq. split_and!; try done; [lia|].
  intros Hb. match goal with H : wb_business b && _ = false |- _ => by rewrite Hb in H end.
Qed.

Lemma inv_io s sq tk dy rm ct dc b bs rc fr mi s' b' :
  inv (W s sq tk dy rm ct dc (b :: bs) rc fr mi) → begin_io s b = Ok (s', b') →
  inv (W s' sq tk dy rm ct dc (b' :: bs) rc fr mi).
Proof.
  intros Hinv (p & q & Hp & Hat & Hfr & Hcl & Hpe & Hdz & Hwb & -> & ->)%begin_io_ok.
  destruct Hinv as [[] Hw [? Hnd Hrg Hpub Hown Hdj Hlive] [] Hr [Hm Hk]]. simpl in *.
  apply writer_single in Hw as [-> (Hfi & Hfn & _ & Hlb & Hwr)].
  apply publish_spec in Hp as (H1 & H2 & H3 & _ & H5); [|done].
  split; simpl; try done.
  - split; simpl; try done. by apply Forall_cons in c_counts0 as [? _]; constructor.
  - destruct Hfn as [Hfn H0]. split_and!; try done. right. simpl. destruct (Z.eqb_spec (wb_frames_remaining b) 0); [lia|done].
  - rewrite waiting_single in Hown, Hlive. rewrite Hat in Hown, Hlive.
    rewrite !loans_single in *. split; simpl; try done; rewrite ?waiting_single, ?loans_single; simpl; try done.
    + intros id Hid. apply H2 in Hid as [Hid|Hid]; [by apply Hpub|].
      rewrite Forall_forall in Hrg. apply Hrg. rewrite !elem_of_app. auto.
    + intros id Hid. rewrite H1 in Hid. case_decide as Hin; [by destruct Hid|].
      specialize (Hown id Hid). rewrite !elem_of_app in *. tauto.
    + intros id Hid. rewrite H1 in Hid. case_decide as Hin; [by destruct Hid|].
      apply eq_None_not_Some. intros [Hq|?]%H2; [|done]. rewrite (Hdj id Hid) in Hq. by destruct Hq.
    + intros id Hd Hid. rewrite H1, decide_False.
      * apply Hlive; [done|]. rewrite !elem_of_app in *. rewrite elem_of_nil in Hid. tauto.
      * rewrite elem_of_app, elem_of_nil in Hid. destruct Hid as [Hid|[]]. intros Hin.
        apply NoDup_app in Hnd as (_ & Hnd & _). apply (Hnd id Hid). rewrite elem_of_app. auto.
  - split; simpl; try done; rewrite ?Hcl, ?Hpe; try done. intros Hd. specialize (e_stop0 Hd).
    apply map_empty. intros id. rewrite H1. case_decide; [done|]. by rewrite e_stop0.
  - split; [done|]. simpl. perm_solve.
Qed.

Lemma frame_cases s b s' b' :
  frame_completed s b = Ok (s', b') →
  wb_attempted b = true ∧ 0 < wb_frames_remaining b ∧ wb_loans b' = wb_loans b
  ∧ wb_attempted b' = true ∧ wb_business b' = wb_business b ∧ wb_control b' = wb_control b
  ∧ wb_finished b' = wb_finished b ∧ wb_frames_remaining b' = wb_frames_remaining b - 1
  ∧ (wb_frames_remaining b' = 0 ∧ wb_release_count b' = 0 ∧ wb_release_count b <= inflight_releases s
     ∧ s' = set_flow s (remote_reads s) (releases s) (inflight_releases s - wb_release_count b)
              (pending_controls s) (if bool_decide (writer s = Broken) then Broken else AwaitingFlush)
     ∨ wb_frames_remaining b' ≠ 0 ∧ wb_release_count b' = wb_release_count b ∧ s' = s).
Proof.
  unfold frame_completed. intros (u & Hg & Hf)%bind_ok. apply guard_panic_ok in Hg.
  apply andb_true_iff in Hg as [Hat Hpos]. apply Z.ltb_lt in Hpos.
  destruct (Z.eqb_spec (wb_frames_remaining b - 1) 0) as [H0|H0].
  - apply bind_ok in Hf as (u' & Hg & [= <- <-]). apply guard_panic_ok in Hg. simpl.
    split_and!; try done. left. split_and!; try done. lia.
  - injection Hf as <- <-. simpl. split_and!; try done. by right.
Qed.

Lemma book_same_batch s sq tk dy b b' :
  wb_loans b' = wb_loans b → wb_attempted b' = wb_attempted b →
  book s sq tk dy [b] → book s sq tk dy [b'].
Proof.
  intros Hl Ha []. split; rewrite ?loans_single, ?waiting_single, ?Hl, ?Ha in *; done.
Qed.

Lemma inv_frame s sq tk dy rm ct dc b bs rc fr mi s' b' :
  inv (W s sq tk dy rm ct dc (b :: bs) rc fr mi) → frame_completed s b = Ok (s', b') →
  inv (W s' sq tk dy rm ct dc (b' :: bs) rc fr mi).
Proof.
  intros [[] Hw Hb [] Hr Hk] Hf. simpl in *. apply writer_single in Hw as [-> (Hfi & [Hfn H0] & Hun & Hlb & Hwr)].
  apply frame_cases in Hf as (Hat & Hpos & Hl & Ha & Hbu & Hc & Hf' & Hn & Hcase).
  assert (book s sq tk dy [b']) as Hb' by (eapply book_same_batch; [..|exact Hb]; congruence).
  assert (control_of b' = control_of b) as Hco by (unfold control_of; by rewrite Hc).
  apply Forall_cons in c_counts0 as [Hcb _]. rewrite Hat in Hwr. simpl in c_inflight0.
  destruct (Z.eqb_spec (wb_frames_remaining b) 0) as [|_]; [lia|].
  destruct Hcase as [(Hz & Hrc & Hle & ->)|(Hz & Hrc & ->)]; split; simpl; auto.
  - split; simpl in *; try done; [lia|lia|]. by constructor; [lia|].
  - split_and!; rewrite ?Hf', ?Hl, ?Hbu; try done; try lia; try congruence. rewrite Ha, Hz. simpl.
    destruct (bool_decide _); auto.
  - split; simpl; try done. intros Hcl. destruct (e_closed0 Hcl) as (? & ? & ? & ? & ? & ? & Hws).
    split_and!; try done. right. destruct Hwr as [Hwr|Hwr]; rewrite Hwr in *; [done|by destruct Hws].
  - split; simpl in *; try done; [lia|lia|]. by constructor; [lia|].
  - split_and!; rewrite ?Hf', ?Hl, ?Hbu; try done; try lia; try congruence. rewrite Ha.
    by destruct (Z.eqb_spec (wb_frames_remaining b') 0).
  - by split.
Qed.

(** Consuming a batch leaves its tokens to be dropped. *)
Lemma book_consume s sq tk dy b :
  book s sq tk dy [b] → book s sq tk (wb_loans b ++ dy) [].
Proof.
  intros [? Hnd Hrg ? Hown ? Hlive]. rewrite loans_single in *.
  assert (tk ++ dy ++ wb_loans b ≡ₚ tk ++ (wb_loans b ++ dy) ++ loans []) as Hp.
  { change (loans []) with (@nil Z). perm_solve. }
  split; try done.
  - by rewrite <-Hp.
  - by rewrite <-Hp.
  - intros id Hid. specialize (Hown id Hid). rewrite waiting_single in Hown. rewrite !elem_of_app in *.
    destruct (wb_attempted b); rewrite ?elem_of_nil in *; tauto.
  - intros id Hd Hid. apply Hlive; [done|]. change (waiting []) with (@nil Z) in Hid.
    rewrite !elem_of_app, ?elem_of_nil in *. tauto.
Qed.

Lemma control_of_nonneg b : 0 <= control_of b.
Proof. unfold control_of. case_match; lia. Qed.

Lemma inv_flush s sq tk dy rm ct dc b bs rc fr mi s' :
  inv (W s sq tk dy rm ct dc (b :: bs) rc fr mi) → flush_completed s b = Ok s' →
  inv (W s' sq tk (wb_loans b ++ dy) rm ct (dc + control_of b) bs rc fr mi).
Proof.
  intros [[] Hw Hb [] Hr Hk] Hf. simpl in *.
  apply writer_single in Hw as [-> (Hfi & [Hfn H0] & Hun & Hlb & Hwr)].
  unfold flush_completed in Hf. apply bind_ok in Hf as (u & Hg & Hf).
  apply guard_panic_ok, andb_true_iff in Hg as [Hat Hz%Z.eqb_eq].
  apply bind_ok in Hf as (u' & Hg' & [= <-]). apply guard_panic_ok, bool_decide_eq_true in Hg'.
  pose proof (control_of_nonneg b). specialize (H0 Hz). simpl in c_inflight0.
  split; simpl in *; auto using book_consume.
  - split; simpl in *; try done; lia.
  - split; simpl; try done. intros Hcl. destruct (e_closed0 Hcl) as (? & ? & ? & ? & ? & ? & Hws).
    split_and!; auto.
Qed.

Definition break (s : State) : State :=
  set_flow s (remote_reads s) (releases s) (inflight_releases s) (pending_controls s) Broken.

Lemma inv_break s sq tk dy rm ct dc bs rc fr mi :
  inv (W s sq tk dy rm ct dc bs rc fr mi) → inv (W (break s) sq tk dy rm ct dc bs rc fr mi).
Proof.
  intros [[] Hw Hb [] Hr Hk]. unfold break. split; simpl in *; auto; [by split| |].
  - destruct bs as [|b [|]]; [by right| |done]. destruct Hw as (? & ? & ? & ? & _).
    split_and!; try tauto.
  - split; simpl; try done. intros Hcl. destruct (e_closed0 Hcl) as (? & ? & ? & ? & ? & ? & _).
    split_and!; auto.
Qed.

Lemma inv_fail s sq tk dy rm ct dc b bs rc fr mi s' b' r :
  inv (W s sq tk dy rm ct dc (b :: bs) rc fr mi) → write_failed s b = (s', b', r) →
  inv (W s' sq tk dy rm ct (dc + control_of b) (b' :: bs) ((reclaim_list r, 0) :: rc) fr mi).
Proof.
  intros Hinv%inv_break Hf. pose proof (control_of_nonneg b) as Hnn.
  unfold write_failed in Hf. destruct (stop_locked _ _) as [s1 r1] eqn:Hs. simplify_eq.
  eapply inv_stop in Hinv; [|exact Hs]. destruct Hinv as [[] Hw Hb He Hr Hk]. simpl in *.
  apply writer_single in Hw as [-> (? & ? & ? & ? & ?)].
  split; simpl in *; try done.
  - split; simpl; try done; [unfold control_of in *; simpl; lia..|].
    apply Forall_cons in c_counts0 as [? _]. by constructor.
  - eapply book_same_batch; [..|exact Hb]; done.
Qed.

Lemma restore_range n prefix q q' :
  restore_releases n prefix q = Ok q' →
  Forall (fun id => 0 <= id < 2 ^ 64) q → Forall (fun id => 0 <= id < 2 ^ 64) q'.
Proof.
  revert q. induction n as [|n IH]; intros q; cbn [restore_releases].
  - by intros [= ->].
  - intros (id & Hid & Hr)%bind_ok Hq. apply (IH _ Hr). constructor; [|done].
    by apply read_le_ok in Hid as [_ ?].
Qed.

(** A batch that goes away, its releases restored to the queue or not. *)
Lemma inv_consume s sq tk dy rm ct dc b rc fr mi rel w :
  inv (W s sq tk dy rm ct dc [b] rc fr mi) →
  Forall (fun id => 0 <= id < 2 ^ 64) rel →
  (closed s = true ∨ peer_ended s = true → rel = releases s) →
  (w = Idle ∨ w = Broken) →
  inv (W (set_flow s (remote_reads s) rel (inflight_releases s - wb_release_count b)
            (pending_controls s) w)
         sq tk (wb_loans b ++ dy) rm ct (dc + control_of b) [] rc fr mi).
Proof.
  intros [[] Hw Hb [] Hr Hk] Hrel Hsame Hwr. simpl in *. pose proof (control_of_nonneg b).
  simpl in c_inflight0. split; simpl; auto using book_consume.
  - split; simpl in *; try done; lia.
  - split; simpl; try done.
    + intros Hpe. rewrite Hsame by auto. by apply e_ended0.
    + intros Hcl. rewrite Hsame by auto. destruct (e_closed0 Hcl) as (? & ? & ? & ? & ? & ? & _).
      split_and!; auto.
Qed.

Lemma inv_drop_batch s sq tk dy rm ct dc b bs rc fr mi s' r :
  inv (W s sq tk dy rm ct dc (b :: bs) rc fr mi) → drop_batch s b = Ok (s', r) →
  inv (W s' sq tk (wb_loans b ++ dy) rm ct (dc + control_of b) bs ((reclaim_list r, 0) :: rc) fr mi).
Proof.
  intros Hinv Hd. pose proof (i_writer _ Hinv) as Hw. apply writer_single in Hw as [-> (Hfi & _)].
  pose proof (e_ids _ (i_ends _ Hinv)) as Hids. simpl in Hids.
  unfold drop_batch in Hd. rewrite Hfi in Hd. apply bind_ok in Hd as (u & _ & Hd).
  destruct (wb_attempted b).
  - apply (inv_consume _ _ _ _ _ _ _ _ _ _ _ (releases s) Broken) in Hinv; auto.
    eapply inv_stop in Hinv; [|reflexivity]. by simplify_eq.
  - assert (∀ u : bool, (if u then Broken else Idle) = Idle ∨ (if u then Broken else Idle) = Broken)
      as Hwr by (intros []; auto).
    destruct (closed s) eqn:Hcl, (peer_ended s) eqn:Hpe; simpl in Hd;
      [injection Hd as <- <-; apply inv_empty_reclaim, inv_consume; auto..|].
    apply bind_ok in Hd as (q & Hq & [= <- <-]). apply inv_empty_reclaim, inv_consume; auto.
    + by eapply restore_range.
    + rewrite Hcl, Hpe. by intros [|].
Qed.

(** ** Settling steps *)

Lemma settle_ids_spec ids q q' records e :
  settle_ids ids q = (q', records, e) →
  handles q ≡ₚ (a_handle <$> records) ++ handles q'
  ∧ (∀ i a, q' !! i = Some a → q !! i = Some a)
  ∧ (∀ i, is_Some (q !! i) → i ∉ ids → is_Some (q' !! i))
  ∧ (e = None → blen records = blen ids ∧ ∀ i, i ∈ ids → is_Some (q !! i)).
Proof.
  revert q q' records. induction ids as [|id ids IH]; intros q q' records; cbn [settle_ids].
  - intros [= <- <- <-]. split_and!; try done. intros _. split; [done|]. by intros i ?%elem_of_nil.
  - destruct (q !! id) as [a|] eqn:Hl.
    + destruct (settle_ids ids (delete id q)) as [[q1 r1] e1] eqn:Hs. intros [= <- <- <-].
      destruct (IH _ _ _ Hs) as (Hp & Hin & Hout & Hall). pose proof (handles_delete _ _ _ Hl) as Hd.
      split_and!.
      * rewrite fmap_cons. perm_solve.
      * intros i a' Hi. specialize (Hin _ _ Hi). by rewrite lookup_delete_Some in Hin; destruct Hin.
      * intros i Hi Hni. apply not_elem_of_cons in Hni as [? ?]. apply Hout; [|done].
        by rewrite lookup_delete_ne.
      * intros He. destruct (Hall He) as [Hlen Hsome]. split; [rewrite !blen_cons; lia|].
        intros i [->|Hi]%elem_of_cons; [by rewrite Hl|]. destruct (Hsome i Hi) as [x Hx].
        rewrite lookup_delete_Some in Hx. destruct Hx as [_ Hx]. by rewrite Hx.
    + intros [= <- <- <-]. by split_and!.
Qed.

(** Records taken out of the published book by a release or a peer end. *)
Lemma inv_settle_records s sq tk dy rm ct dc bs rc fr mi q records :
  inv (W s sq tk dy rm ct dc bs rc fr mi) →
  closed s = false ∨ records = [] →
  (peer_ended s = true → q = ∅) → (closed s = true → q = ∅) →
  handles (published s) ≡ₚ (a_handle <$> records) ++ handles q →
  (∀ i, is_Some (q !! i) → is_Some (published s !! i)) →
  inv (W (set_book s (prepared s) q (settling s + blen records)) sq tk dy rm ct dc bs
         ((records, 0) :: rc) fr mi).
Proof.
  intros [[] Hw [] [] Hr [Hm Hk]] Hc He Hcq Hp Hin. simpl in *. split; simpl; try done.
  - split; simpl; try done; [lia|]. by constructor; [simpl; lia|].
  - split; simpl; try done; [by auto|]. intros id Hid. specialize (b_disj0 id Hid).
    apply eq_None_not_Some. intros Hi%Hin. rewrite b_disj0 in Hi. by destruct Hi.
  - split; simpl; try done.
    + intros Hpe. destruct (e_ended0 Hpe) as (? & ? & ?). auto.
    + intros Hcl. destruct (e_closed0 Hcl) as (? & ? & ? & ? & ? & ? & ?).
      destruct Hc as [?| ->]; [congruence|]. change (blen (@nil Alloc)) with 0. split_and!; auto; lia.
  - split; [done|]. simpl. rewrite reclaim_handles_cons. perm_solve.
Qed.

Lemma inv_receive side s sq tk dy rm ct dc bs rc fr mi hd pl s' r e :
  inv (W s sq tk dy rm ct dc bs rc fr mi) → receive_release side s hd pl = (s', r, e) →
  inv (W s' sq tk dy rm ct dc bs ((reclaim_list r, 0) :: rc) fr mi).
Proof.
  intros Hinv. unfold receive_release. destruct (decode_release_frame _ _ _ _) as [batch|x|].
  - destruct (settle_ids _ _) as [[q records] e1] eqn:Hs. cbn zeta beta iota.
    apply settle_ids_spec in Hs as (Hp & Hin & _ & _).
    assert (published s = ∅ → q = ∅) as Hq.
    { intros H0. apply map_empty. intros i. destruct (q !! i) eqn:Hi; [|done].
      apply Hin in Hi. by rewrite H0, lookup_empty in Hi. }
    assert (closed s = false ∨ records = []) as Hc.
    { destruct (closed s) eqn:Hcl; [right|by left].
      destruct (e_closed _ (i_ends _ Hinv) Hcl) as (_ & Hz & _). simpl in Hz. rewrite Hz, handles_empty in Hp.
      apply Permutation_nil_l, eq_sym, app_eq_nil in Hp as [Hp _]. by apply fmap_nil_inv in Hp. }
    pose proof (inv_settle_records _ _ _ _ _ _ _ _ _ _ _ q records Hinv Hc) as H.
    assert (reclaim_list {| rc_prepared := ∅; rc_published := ∅; rc_records := records |} = records) as Hl.
    { unfold reclaim_list. simpl. by rewrite map_to_list_empty. }
    rewrite <-Hl in H at 3. clear Hl. ospecialize* H.
    + intros Hpe. by destruct (e_ended _ (i_ends _ Hinv) Hpe) as (_ & ? & _); auto.
    + intros Hcl. by destruct (e_closed _ (i_ends _ Hinv) Hcl) as (_ & ? & _); auto.
    + done.
    + intros i [a Hi]. by rewrite (Hin _ _ Hi).
    + destruct e1 as [e1|]; [|by intros [= <- <- _]].
      destruct (stop_locked _ _) as [s1 r1] eqn:Hst. intros [= <- <- _]. by eapply inv_stop_with; [|exact H|exact Hst].
  - intros Hr. destruct (stop_locked s Reclaims_new) as [s1 r1] eqn:Hst. injection Hr as <- <- _.
    by eapply inv_stop.
  - intros [= <- <- _]. by apply inv_empty_reclaim.
Qed.

Lemma inv_merge s sq tk dy rm ct dc bs l1 l2 l rc fr mi :
  l ≡ₚ l2 ++ l1 → inv (W s sq tk dy rm ct dc bs ((l1, 0) :: (l2, 0) :: rc) fr mi) →
  inv (W s sq tk dy rm ct dc bs ((l, 0) :: rc) fr mi).
Proof.
  intros Hl [[] Hw Hb He Hr [Hm Hk]]. split; simpl in *; try done.
  - split; simpl; try done.
    + assert (blen l = blen l2 + blen l1) by (unfold blen; rewrite Hl, length_app; lia). lia.
    + apply Forall_cons in c_settled0 as [_ [_ ?]%Forall_cons]. by constructor; [simpl; lia|].
  - split; [done|]. rewrite !reclaim_handles_cons in *.
    assert (a_handle <$> l ≡ₚ (a_handle <$> l2) ++ (a_handle <$> l1)) by (by rewrite Hl, fmap_app).
    perm_solve.
Qed.

Lemma inv_peer_end s sq tk dy rm ct dc bs rc fr mi s' r :
  inv (W s sq tk dy rm ct dc bs rc fr mi) → peer_end s = (s', r) →
  inv (W s' sq tk dy rm ct dc bs ((reclaim_list r, 0) :: rc) fr mi).
Proof.
  intros Hinv. unfold peer_end. destruct (stop_locked s Reclaims_new) as [s1 r1] eqn:Hst.
  assert (deactivated s1 = true ∧ rc_published r1 = ∅ ∧ rc_records r1 = []) as (Hde & Hrp & Hrr).
  { unfold stop_locked in Hst. by injection Hst as <- <-. }
  apply (inv_stop _ _ _ _ _ _ _ _ _ _ _ s1 r1) in Hinv; [|exact Hst]. clear Hst. intros [= <- <-].
  set (records := (map_to_list (published s1)).*2).
  assert (blen records = Z.of_nat (size (published s1))) as Hlen.
  { unfold blen, records. by rewrite length_fmap, length_map_to_list. }
  rewrite <-Hlen. pose proof (i_ends _ Hinv) as [_ _ Hcl _]. simpl in Hcl.
  apply (inv_settle_records _ _ _ _ _ _ _ _ _ _ _ ∅ records) in Hinv; simpl; try done.
  - eapply inv_merge with (l2 := reclaim_list r1) (l1 := records) (l := reclaim_list _) in Hinv as [[] ? [] [] ? []].
    + split; try done; simpl in *; split; simpl in *; try done.
      intros Hc. destruct (e_closed0 Hc) as (? & ? & ? & ? & ? & ? & ?). by split_and!.
    + unfold reclaim_list, records. simpl. rewrite Hrp, Hrr, map_to_list_empty. simpl. by rewrite !app_nil_r.
  - destruct (closed s1) eqn:Hc; [right|by left]. destruct (Hcl eq_refl) as (_ & Hz & _).
    unfold records. by rewrite Hz, map_to_list_empty.
  - rewrite handles_empty, app_nil_r. done.
  - intros i [? Hi]. by rewrite lookup_empty in Hi.
Qed.

Lemma inv_close s sq tk dy rm ct dc bs rc fr mi s' c :
  inv (W s sq tk dy rm ct dc bs rc fr mi) → try_close s = (s', c) →
  inv (W s' sq tk dy rm ct dc bs rc fr mi).
Proof.
  intros Hinv. unfold try_close. destruct (_ && _) eqn:Hc; intros [= <- _]; [|done].
  rewrite !andb_true_iff, orb_true_iff, !bool_decide_eq_true, !Z.eqb_eq in Hc.
  destruct Hc as ((((((? & ?) & ?) & ?) & ?) & ?) & ?).
  destruct Hinv as [[] ? [] [] ? []]. split; simpl in *; try done; split; simpl; try done.
Qed.

Lemma inv_tokens s sq tk dy rm ct dc bs rc fr mi tk' dy' :
  tk ++ dy ≡ₚ tk' ++ dy' → (∀ i, i ∈ tk' → i ∈ tk) →
  inv (W s sq tk dy rm ct dc bs rc fr mi) → inv (W s sq tk' dy' rm ct dc bs rc fr mi).
Proof.
  intros Hp Hsub [Hc Hw [? Hnd Hrg ? Hown ? Hlive] He Hr Hk]. split; simpl in *; try done.
  assert (∀ l, tk ++ dy ++ l ≡ₚ tk' ++ dy' ++ l) as Hp' by (intros l; by rewrite !app_assoc, Hp).
  split; try done; [by rewrite <-Hp'..| |].
  - intros id Hid. rewrite <-Hp'. by apply Hown.
  - intros id Hd Hid. apply Hlive; [done|]. rewrite elem_of_app in *. naive_solver.
Qed.

Lemma inv_abandon s sq tk dy rm ct dc bs rc fr mi id tk' :
  tk ≡ₚ id :: tk' → inv (W s sq tk dy rm ct dc bs rc fr mi) →
  inv (W s sq tk' (id :: dy) rm ct dc bs rc fr mi).
Proof.
  intros Hp. apply inv_tokens; [perm_solve|]. intros i Hi. rewrite Hp. by right.
Qed.

(** A dropped token cancels its loan; no other token or batch owns the entry. *)
Lemma inv_drop_token s sq tk dy rm ct dc bs rc fr mi id dy' s' r :
  dy ≡ₚ id :: dy' → inv (W s sq tk dy rm ct dc bs rc fr mi) → drop_prepared s id = (s', r) →
  inv (W s' sq tk dy' rm ct dc bs ((reclaim_list r, 0) :: rc) fr mi).
Proof.
  intros Hp [[] Hw [? Hnd Hrg ? Hown Hdj Hlive] [] Hr [Hm Hk]] Hd. simpl in *.
  assert (tk ++ dy ++ loans bs ≡ₚ id :: tk ++ dy' ++ loans bs) as Hp' by perm_solve.
  rewrite Hp' in Hnd, Hrg. apply NoDup_cons in Hnd as [Hni Hnd]. apply Forall_cons in Hrg as [_ Hrg].
  assert (∀ i, i ∈ tk ++ waiting bs → i ≠ id) as Hne.
  { intros i Hi ->. apply Hni. rewrite !elem_of_app in *. destruct Hi as [?|Hi]; [by left|right; right].
    unfold waiting, loans in *. rewrite list_elem_of_bind in *. setoid_rewrite list_elem_of_filter in Hi.
    naive_solver. }
  unfold drop_prepared in Hd. destruct (prepared s !! id) as [a|] eqn:Hl; injection Hd as <- <-.
  - assert (reclaim_list {| rc_prepared := ∅; rc_published := ∅; rc_records := [a] |} = [a]) as ->.
    { unfold reclaim_list. simpl. by rewrite map_to_list_empty. }
    assert (deactivated s = false) as Hde.
    { destruct (deactivated s) eqn:Hde; [|done]. rewrite (e_stop0 eq_refl), lookup_empty in Hl. done. }
    assert (closed s = false ∧ peer_ended s = false) as [Hcl Hpe].
    { split; apply not_true_is_false; intros Hx; [destruct (e_closed0 Hx)|destruct (e_ended0 Hx)]; congruence. }
    split; simpl; try done.
    + split; simpl; try done; [change (blen [a]) with 1; lia|]. by constructor; [simpl; lia|].
    + split; simpl; try done.
      * intros i [x Hi]. rewrite lookup_delete_Some in Hi. destruct Hi as [Hne' Hi].
        specialize (Hown i ltac:(by rewrite Hi)). rewrite !elem_of_app, Hp, elem_of_cons in *.
        destruct Hown as [?|[[->|?]|?]]; tauto.
      * intros i [x Hi]. rewrite lookup_delete_Some in Hi. destruct Hi as [Hne' Hi].
        apply Hdj. by rewrite Hi.
      * intros i Hd Hi. rewrite lookup_delete_ne by (by apply not_eq_sym, Hne). by apply Hlive.
    + split; simpl; try done; rewrite ?Hde, ?Hcl, ?Hpe; done.
    + split; [done|]. rewrite reclaim_handles_cons. simpl. pose proof (handles_delete _ _ _ Hl). perm_solve.
  - apply inv_empty_reclaim. split; simpl; try done. split; try done.
    intros i Hi. specialize (Hown i Hi). rewrite !elem_of_app, Hp, elem_of_cons in *.
    destruct Hown as [?|[[->|?]|?]]; try tauto. rewrite Hl in Hi. by destruct Hi.
Qed.

Lemma inv_drop_remote s sq tk dy rm ct dc bs rc fr mi id rm' s' :
  rm ≡ₚ id :: rm' → inv (W s sq tk dy rm ct dc bs rc fr mi) → drop_remote s id = Ok s' →
  inv (W s' sq tk dy rm' ct dc bs rc fr mi).
Proof.
  intros Hp [[] Hw Hb [] Hr Hk] (u & Hg & [= <-])%bind_ok. simpl in *. apply guard_panic_ok in Hg.
  rewrite Hp in Hr. apply Forall_cons in Hr as [Hid Hr].
  assert (blen rm = 1 + blen rm') as Hlen by (unfold blen; rewrite Hp; simpl; lia).
  split; simpl; auto.
  - split; simpl; try done. lia.
  - split; simpl; try done.
    + intros Hpe. rewrite Hpe. by apply e_ended0.
    + intros Hcl. destruct (e_closed0 Hcl) as (? & ? & ? & ? & ? & ? & ?). lia.
    + destruct (negb _ && _); [|done]. apply Forall_app. by split; [|constructor].
Qed.

Lemma inv_abandon_control s sq tk dy rm ct dc bs rc fr mi :
  0 < ct → inv (W s sq tk dy rm ct dc bs rc fr mi) →
  inv (W s sq tk dy rm (ct - 1) (dc + 1) bs rc fr mi).
Proof. intros Hct [[] Hw Hb He Hr Hk]. split; simpl in *; try done. split; try done; lia. Qed.

Lemma control_total_nonneg bs : 0 <= control_total bs.
Proof.
  induction bs as [|b bs IH]; [done|]. unfold control_total in *. simpl.
  pose proof (control_of_nonneg b). lia.
Qed.

Lemma inv_drop_control s sq tk dy rm ct dc bs rc fr mi s' :
  0 < dc → inv (W s sq tk dy rm ct dc bs rc fr mi) → drop_control s = Ok s' →
  inv (W s' sq tk dy rm ct (dc - 1) bs rc fr mi).
Proof.
  intros Hdc [[] Hw Hb [] Hr Hk] (u & _ & [= <-])%bind_ok. simpl in *.
  pose proof (control_total_nonneg bs). split; simpl; auto.
  - split; simpl; try done; lia.
  - split; simpl; try done. intros Hcl. destruct (e_closed0 Hcl) as (? & ? & ? & ? & ? & ? & ?). lia.
Qed.

Lemma settled_total_perm rc rc' : rc ≡ₚ rc' → settled_total rc = settled_total rc'.
Proof. induction 1; simpl; lia. Qed.
Lemma reclaim_handles_perm rc rc' : rc ≡ₚ rc' → reclaim_handles rc ≡ₚ reclaim_handles rc'.
Proof. intros Hp. unfold reclaim_handles. by rewrite Hp. Qed.

Lemma settled_total_nonneg rc : Forall (fun r => 0 <= r.2) rc → 0 <= settled_total rc.
Proof. induction 1 as [|x l]; simpl; [lia|]. pose proof (blen_nonneg x.1). lia. Qed.

Lemma inv_reorder s sq tk dy rm ct dc bs rc rc' fr mi :
  rc ≡ₚ rc' → inv (W s sq tk dy rm ct dc bs rc fr mi) → inv (W s sq tk dy rm ct dc bs rc' fr mi).
Proof.
  intros Hp [[] Hw Hb He Hr [Hm Hk]]. split; simpl in *; try done.
  - split; try done; [by rewrite <-(settled_total_perm _ _ Hp)|by rewrite <-Hp].
  - split; [done|]. pose proof (reclaim_handles_perm _ _ Hp). perm_solve.
Qed.

Lemma inv_release s sq tk dy rm ct dc bs rc fr mi a pend n rc' :
  rc ≡ₚ (a :: pend, n) :: rc' → inv (W s sq tk dy rm ct dc bs rc fr mi) →
  inv (W s sq tk dy rm ct dc bs ((pend, n + 1) :: rc') (a_handle a :: fr) mi).
Proof.
  intros Hp Hinv. apply (inv_reorder _ _ _ _ _ _ _ _ _ _ _ _ Hp) in Hinv.
  pose proof (k_places _ _ _ _ (i_conserved _ Hinv)) as Hk. cbn [w_core w_reclaims w_freed w_minted] in Hk.
  rewrite reclaim_handles_cons, fmap_cons in Hk.
  destruct Hinv as [[] Hw Hb He Hr [Hm _]]. split; simpl in *; try done.
  - apply Forall_cons in c_settled0 as [? ?]. simpl in *. rewrite blen_cons in c_settling0.
    split; simpl; try done; [lia|]. by constructor; [simpl; lia|].
  - split; [done|]. rewrite reclaim_handles_cons. perm_solve.
Qed.

Lemma inv_settle s sq tk dy rm ct dc bs rc fr mi n rc' s' :
  rc ≡ₚ ([], n) :: rc' → inv (W s sq tk dy rm ct dc bs rc fr mi) → settle_reclaims s n = Ok s' →
  inv (W s' sq tk dy rm ct dc bs rc' fr mi).
Proof.
  intros Hp Hinv (u & Hg & [= <-])%bind_ok. apply (inv_reorder _ _ _ _ _ _ _ _ _ _ _ _ Hp) in Hinv.
  apply guard_panic_ok in Hg. destruct Hinv as [[] Hw [] [] Hr [Hm Hk]].
  apply Forall_cons in c_settled0 as [? Hrest]. pose proof (settled_total_nonneg _ Hrest).
  simpl in *. change (blen (@nil Alloc)) with 0 in *. split; simpl in *; try done.
  - split; simpl; try done; lia.
  - split; simpl; try done. intros Hcl. destruct (e_closed0 Hcl) as (? & ? & ? & ? & ? & ? & ?).
    split_and!; try done. lia.
Qed.

#[export] Hint Resolve inv_finish inv_prepare inv_prepare_err inv_sequence inv_admit inv_admit_err
  inv_control inv_begin inv_begin_none inv_io inv_frame inv_flush inv_fail inv_drop_batch
  inv_receive inv_stop inv_peer_end inv_close inv_abandon inv_drop_token inv_drop_remote
  inv_abandon_control inv_drop_control inv_release inv_settle : connection.

Lemma step_inv origin side w ev w' : step origin side w ev w' → inv w → inv w'.
Proof. destruct 1; eauto with connection. Qed.

Lemma reachable_inv origin side w : reachable origin side w → inv w.
Proof. induction 1; [apply inv_initial|by eapply step_inv]. Qed.
