(* ===== verification/ConnectionSafe.v ===== *)
(** What connection runs guarantee: no assertion fails, allocations are conserved,
    writes are serialised, loans settle only through releases, an unsent queue is
    put back, and an ended connection can be drained and closed. *)

From S2P Require Import Prelude.
From S2P Require Import Frame.
From S2P Require Import Release.
From S2P Require Import Connection.
From S2P Require Import ConnectionWire.
From S2P Require Import ConnectionRun.
From S2P Require Import ConnectionInv.

(** ** No assertion fails *)

Lemma inflight_le bs b : Forall (fun b => 0 <= wb_release_count b) bs → b ∈ bs →
  wb_release_count b <= inflight_total bs.
Proof.
  induction 1 as [|x l Hx Hl IH]; [by intros ?%elem_of_nil|].
  assert (0 <= inflight_total l). { clear IH. induction Hl; simpl in *; [done|]. unfold inflight_total in *. lia. }
  unfold inflight_total in *. simpl. intros [->|?]%elem_of_cons; [lia|]. specialize (IH ltac:(done)). lia.
Qed.

Lemma settled_le rc n : Forall (fun r => 0 <= r.2) rc → ([], n) ∈ rc → n <= settled_total rc.
Proof.
  induction 1 as [|[x m] l Hx Hl IH]; [by intros ?%elem_of_nil|].
  pose proof (settled_total_nonneg _ Hl). pose proof (blen_nonneg x). simpl in *.
  intros [[= <- <-]|?]%elem_of_cons; [change (blen (@nil Alloc)) with 0; lia|]. specialize (IH ltac:(done)). lia.
Qed.

Lemma only_batch s bs b : writer_ok s bs → b ∈ bs → bs = [b] ∧ batch_ok (writer s) b.
Proof.
  intros Hw Hb. destruct bs as [|x bs]; [by apply elem_of_nil in Hb|].
  apply writer_single in Hw as [-> Hok]. apply list_elem_of_singleton in Hb as ->. done.
Qed.

Lemma begin_io_safe w b :
  inv w → b ∈ w_batches w → wb_attempted b = false → begin_io (w_core w) b ≠ Panic.
Proof.
  intros [_ Hw Hb _ _ _] Hin Hat. destruct (only_batch _ _ _ Hw Hin) as [Hbs (Hfi & _ & Hun & Hlb & _)].
  destruct (Hun Hat) as [Hpos _]. unfold begin_io. rewrite Hat. apply Z.ltb_lt in Hpos as ->.
  cbn [guard_panic negb res_bind]. set (s := w_core w) in *.
  destruct (closed s); [done|]. destruct (peer_ended s); [done|].
  destruct (wb_business b && deactivated s) eqn:Hd; [done|].
  destruct (bool_decide (writer s = Broken)); [done|]. cbn [guard_err res_bind].
  destruct (publish_ok (wb_loans b) (prepared s) (published s)) as (p & q & ->); [| |done].
  - destruct Hb as [_ Hnd _ _ _ _ _]. rewrite Hbs, loans_single, !NoDup_app in Hnd. tauto.
  - intros id Hid. rewrite Hlb in Hd by (intros Hn; by rewrite Hn, elem_of_nil in Hid). simpl in Hd.
    apply (b_live _ _ _ _ _ Hb); [done|]. rewrite Hbs, waiting_single, Hat. apply elem_of_app. by right.
Qed.

Lemma drop_batch_ok w b :
  inv w → b ∈ w_batches w → ∃ x, drop_batch (w_core w) b = Ok x.
Proof.
  intros [Hc Hw _ _ _ _] Hin. destruct (only_batch _ _ _ Hw Hin) as [_ (Hfi & _ & Hun & _)].
  pose proof (inflight_le _ _ (c_counts _ _ _ _ _ _ Hc) Hin) as Hle. rewrite <-(c_inflight _ _ _ _ _ _ Hc) in Hle.
  unfold drop_batch. rewrite Hfi. apply Z.leb_le in Hle as ->. cbn [guard_panic res_bind].
  destruct (wb_attempted b); [by eexists|]. destruct (_ && _); [|by eexists].
  destruct (Hun eq_refl) as [_ (ids & resp & -> & -> & Hr)].
  rewrite restore_prefix by (done || unfold blen; lia). by eexists.
Qed.

Lemma drop_remote_ok w id : inv w → id ∈ w_remotes w → ∃ x, drop_remote (w_core w) id = Ok x.
Proof.
  intros [Hc _ _ _ _ _] Hid. assert (1 <= remote_reads (w_core w)) as Hl%Z.leb_le.
  { rewrite (c_reads _ _ _ _ _ _ Hc). apply list_elem_of_split in Hid as (l & k & ->).
    rewrite blen_app, blen_cons. pose proof (blen_nonneg l). pose proof (blen_nonneg k). lia. }
  unfold drop_remote. rewrite Hl. by eexists.
Qed.

Lemma drop_control_ok w : inv w → 0 < w_dying_controls w → ∃ x, drop_control (w_core w) = Ok x.
Proof.
  intros [[] _ _ _ _ _] Hdc. pose proof (control_total_nonneg (w_batches w)).
  assert (1 <= pending_controls (w_core w)) as Hl%Z.leb_le by lia.
  unfold drop_control. rewrite Hl. by eexists.
Qed.

Lemma settle_reclaims_ok w n : inv w → ([], n) ∈ w_reclaims w → ∃ x, settle_reclaims (w_core w) n = Ok x.
Proof.
  intros [Hc _ _ _ _ _] Hn. pose proof (settled_le _ _ (c_settled _ _ _ _ _ _ Hc) Hn) as Hl.
  rewrite <-(c_settling _ _ _ _ _ _ Hc) in Hl. apply Z.leb_le in Hl. unfold settle_reclaims.
  rewrite Hl. by eexists.
Qed.

(** C3 In every reachable world no assertion, unwrap or counter decrement of the
    connection fails: an unattempted batch can begin its I/O, a started one can
    complete its frames and, unless the writer broke, its flush; and dropping any
    batch, remote loan, control frame or finished reclamation succeeds. *)
Theorem connection_never_panics origin side w :
  reachable origin side w →
  let s := w_core w in
  (∀ b, b ∈ w_batches w →
     (wb_attempted b = false → begin_io s b ≠ Panic)
     ∧ (wb_attempted b = true → 0 < wb_frames_remaining b → ∃ x, frame_completed s b = Ok x)
     ∧ (wb_attempted b = true → wb_frames_remaining b = 0 → writer s ≠ Broken → ∃ x, flush_completed s b = Ok x)
     ∧ ∃ x, drop_batch s b = Ok x)
  ∧ (∀ id, id ∈ w_remotes w → ∃ x, drop_remote s id = Ok x)
  ∧ (0 < w_dying_controls w → ∃ x, drop_control s = Ok x)
  ∧ (∀ n, ([], n) ∈ w_reclaims w → ∃ x, settle_reclaims s n = Ok x).
Proof.
  intros Hinv%reachable_inv s. pose proof Hinv as [Hc Hw _ _ _ _]. split_and!.
  - intros b Hin. destruct (only_batch _ _ _ Hw Hin) as [_ (_ & _ & _ & _ & Hwr)].
    pose proof (inflight_le _ _ (c_counts _ _ _ _ _ _ Hc) Hin) as Hle.
    rewrite <-(c_inflight _ _ _ _ _ _ Hc) in Hle. fold s in Hle, Hwr.
    split_and!; [by apply begin_io_safe| | |by apply drop_batch_ok].
    + clear Hwr. intros Hat Hpos%Z.ltb_lt. unfold frame_completed. rewrite Hat, Hpos. cbn [guard_panic andb res_bind].
      destruct (_ =? 0); [|by eexists]. apply Z.leb_le in Hle as ->. by eexists.
    + intros Hat Hz Hnb. unfold flush_completed. rewrite Hat, Hz in *. destruct Hwr as [?|Hwr]; [done|].
      rewrite Hwr. by eexists.
  - intros id. by apply drop_remote_ok.
  - by apply drop_control_ok.
  - intros n. by apply settle_reclaims_ok.
Qed.

(** ** Allocations are conserved *)

Lemma drained rc : Forall (fun r => 0 <= r.2) rc → settled_total rc = 0 → reclaim_handles rc = [].
Proof.
  induction 1 as [|[l n] rc Hn Hrc IH]; intros Hz; [done|]. simpl in *.
  pose proof (settled_total_nonneg _ Hrc). pose proof (blen_nonneg l).
  rewrite reclaim_handles_cons, IH by lia. destruct l; [done|]. rewrite blen_cons in *.
  pose proof (blen_nonneg l). lia.
Qed.

Lemma closed_freed w : inv w → closed (w_core w) = true → w_minted w ≡ₚ w_freed w.
Proof.
  intros [Hc _ _ He _ [_ Hk]] Hcl. destruct (e_closed _ He Hcl) as (Hd & Hq & _ & Hs & _).
  rewrite (e_stop _ He Hd), Hq, handles_empty, drained in Hk; [done|apply Hc|].
  by rewrite <-(c_settling _ _ _ _ _ _ Hc).
Qed.

(** C4 Allocations are conserved: in every reachable world each handle offered to the
    connection is in exactly one place (prepared, published, awaiting reclamation or
    freed), none is freed twice, and once the connection has closed every one of them
    has been freed. *)
Theorem allocations_conserved origin side w :
  reachable origin side w →
  NoDup (w_minted w)
  ∧ w_minted w ≡ₚ handles (prepared (w_core w)) ++ handles (published (w_core w))
                  ++ reclaim_handles (w_reclaims w) ++ w_freed w
  ∧ NoDup (w_freed w)
  ∧ (closed (w_core w) = true → w_minted w ≡ₚ w_freed w).
Proof.
  intros Hinv%reachable_inv. pose proof (i_conserved _ Hinv) as [Hm Hk]. split_and!; try done.
  - rewrite Hk, !NoDup_app in Hm. tauto.
  - by apply closed_freed.
Qed.

(** Writes are serialised: a reachable world has at most one batch, and while it
    exists and the writer has not broken, [begin_write] reports a busy writer or an
    earlier rejection, never a second batch. *)
Theorem writes_serialised origin side w req room :
  reachable origin side w →
  (length (w_batches w) <= 1)%nat
  ∧ ∀ b b', b ∈ w_batches w → (begin_write origin side (w_core w) req room).2 ≠ Ok (Some b').
Proof.
  intros Hinv%reachable_inv. pose proof (i_writer _ Hinv) as Hw. split.
  - destruct (w_batches w) as [|x [|y l]]; simpl in *; try lia.
  - intros b b' Hin Hb. destruct (only_batch _ _ _ Hw Hin) as [_ (_ & _ & _ & _ & Hwr)].
    destruct (begin_write _ _ _ _ _) as [[s' r] e] eqn:Hbw. simpl in Hb. subst e.
    apply begin_cases in Hbw as [(b1 & _ & _ & Hs)|[Hne _]]; [|by destruct (Hne b')].
    apply begin_section_ok in Hs as (_ & _ & Hidle & _). rewrite Hidle in Hwr.
    destruct Hwr as [?|Hwr]; [done|]. repeat case_match; done.
Qed.

(** ** How a loan settles *)

Lemma stop_published s r s' r' : stop_locked s r = (s', r') → published s' = published s.
Proof. unfold stop_locked. by intros [= <- _]. Qed.

Lemma flow_published s reads rel inf ctl w : published (set_flow s reads rel inf ctl w) = published s.
Proof. done. Qed.

(** Steps other than a release or the end of the peer only add to the published book. *)
Lemma other_keeps origin side w w' id a :
  inv w → step origin side w Other w' →
  published (w_core w) !! id = Some a → published (w_core w') !! id = Some a.
Proof.
  intros Hinv Hst Hp. inversion Hst; subst; simpl in *; try done.
  - unfold finish_handshake in *. destruct (handshake_done s), (check_live s), (deactivate s) eqn:Hd;
      simplify_eq; try done; by erewrite stop_published.
  - by apply prepare_ok in H0 as (_ & _ & _ & _ & _ & _ & _ & ->).
  - apply prepare_err in H0 as [_ [[-> _]|Hd]]; [done|by erewrite stop_published].
  - apply admit_cases in H0 as [(_ & _ & _ & _ & ->)|[? _]]; done.
  - apply admit_cases in H as [(? & _)|[_ [[-> _]|Hd]]]; [done..|by erewrite stop_published].
  - by apply bind_ok in H as (? & _ & [= <-]).
  - apply begin_cases in H1 as [(b1 & _ & _ & Hs)|[_ [[-> _]|Hd]]]; [|done|by erewrite stop_published].
    by apply begin_section_ok in Hs as (_ & _ & _ & _ & -> & _).
  - apply begin_cases in H1 as [(b1 & -> & _)|[_ [[-> _]|Hd]]]; [|done|by erewrite stop_published].
    destruct H2 as [|[]]; done.
  - apply begin_io_ok in H as (p & q & Hpq & _ & _ & _ & _ & _ & _ & -> & _). simpl.
    apply publish_spec in Hpq as (_ & _ & _ & Hk & _); [|apply Hinv]. by rewrite Hk by (by rewrite Hp).
  - apply frame_cases in H as (_ & _ & _ & _ & _ & _ & _ & _ & [(_ & _ & _ & ->)|(_ & _ & ->)]); done.
  - unfold flush_completed in H. apply bind_ok in H as (? & _ & H). by apply bind_ok in H as (? & _ & [= <-]).
  - unfold write_failed in H. destruct (stop_locked _ _) eqn:Hd. simplify_eq. by rewrite (stop_published _ _ _ _ Hd).
  - unfold drop_batch in H. destruct (wb_finished b); [by simplify_eq|]. apply bind_ok in H as (? & _ & H).
    destruct (wb_attempted b); [by simplify_eq|]. destruct (_ && _); [|by simplify_eq].
    by apply bind_ok in H as (? & _ & [= <- _]).
  - by erewrite stop_published.
  - unfold try_close in H. destruct (_ && _); by simplify_eq.
  - unfold drop_prepared in H0. destruct (prepared s !! _); by simplify_eq.
  - by apply bind_ok in H0 as (? & _ & [= <-]).
  - by apply bind_ok in H0 as (? & _ & [= <-]).
  - by apply bind_ok in H0 as (? & _ & [= <-]).
Qed.

Lemma settle_taken ids q q' records e id a :
  settle_ids ids q = (q', records, e) → q !! id = Some a → q' !! id = None → id ∈ ids ∧ a ∈ records.
Proof.
  revert q q' records. induction ids as [|i ids IH]; intros q q' records Hs Hq Hq'; cbn [settle_ids] in Hs.
  { simplify_eq. }
  destruct (q !! i) as [b|] eqn:Hi; [|simplify_eq; congruence].
  destruct (settle_ids ids (delete i q)) as [[q1 r1] e1] eqn:Hr. injection Hs as <- <- <-.
  destruct (decide (i = id)) as [->|Hne]; [rewrite Hi in Hq; simplify_eq; split; left|].
  destruct (IH _ _ _ Hr) as [? ?]; [by rewrite lookup_delete_ne|done|]. split; by right.
Qed.

Lemma receive_takes side s hd pl s' r e id a :
  receive_release side s hd pl = (s', r, e) → published s !! id = Some a → published s' !! id = None →
  (∃ ids, pl = release_payload ids ∧ ids_wf ids ∧ id ∈ ids ∧ handshake_done s = true
          ∧ hd = release_header ids (bool_decide (side = Client))) ∧ a ∈ reclaim_list r.
Proof.
  unfold receive_release. destruct (decode_release_frame _ _ _ _) as [batch|x|] eqn:Hd.
  - apply decode_release_sound in Hd as (Hh & ids & Hwf & -> & -> & ->). rewrite rb_ids_batch_of.
    destruct (settle_ids ids (published s)) as [[q recs] e1] eqn:Hs. intros Hr Hp Hp'.
    assert (published s' = q ∧ rc_records r = recs) as [Hq Hrr].
    { destruct e1; unfold stop_locked in Hr; by injection Hr as <- <- _. }
    rewrite Hq in Hp'. destruct (settle_taken _ _ _ _ _ _ _ Hs Hp Hp') as [? ?].
    split; [by exists ids|]. unfold reclaim_list. rewrite !elem_of_app, Hrr. auto.
  - destruct (stop_locked _ _) as [s1 r1] eqn:Hs. intros [= <- <- _].
    rewrite (stop_published _ _ _ _ Hs). congruence.
  - intros [= <- _ _]. congruence.
Qed.

Lemma reclaim_elem a l n rc : a ∈ l → a_handle a ∈ reclaim_handles ((l, n) :: rc).
Proof. intros Ha. rewrite reclaim_handles_cons, elem_of_app. left. by apply list_elem_of_fmap_2. Qed.

(** A published loan leaves the book only in two ways: a well-formed release frame
    of the peer names its id after the handshake, or the peer has ended.  Its
    allocation then awaits reclamation. *)
Theorem published_loan_settles origin side w ev w' id a :
  reachable origin side w → step origin side w ev w' →
  published (w_core w) !! id = Some a → published (w_core w') !! id = None →
  (ev = Ended
   ∨ ∃ ids, ev = Received (release_header ids (bool_decide (side = Client))) (release_payload ids)
       ∧ ids_wf ids ∧ id ∈ ids ∧ handshake_done (w_core w) = true)
  ∧ a_handle a ∈ reclaim_handles (w_reclaims w').
Proof.
  intros Hr Hst Hp Hp'. pose proof (reachable_inv _ _ _ Hr) as Hinv.
  destruct ev as [hd pl| |]; inversion Hst; subst;
    try (rewrite (other_keeps _ _ _ _ _ _ Hinv Hst Hp) in Hp'; done).
  - cbn [w_core w_reclaims] in *. match goal with H : receive_release _ _ _ _ = _ |- _ =>
      destruct (receive_takes _ _ _ _ _ _ _ _ _ H Hp Hp') as [(ids & -> & ? & ? & ? & ->) Ha] end.
    split; [right; by exists ids|by apply reclaim_elem].
  - split; [by left|]. cbn [w_core w_reclaims] in *. apply reclaim_elem.
    match goal with H : peer_end _ = _ |- _ => unfold peer_end, stop_locked in H; injection H as <- <- end.
    unfold reclaim_list. simpl. rewrite !elem_of_app. right. left.
    apply list_elem_of_fmap. exists (id, a). by rewrite elem_of_map_to_list.
Qed.

(** ** An unsent batch *)

(** A batch carries the whole release queue: its prefix is the concatenation of
    [div_ceil] release frames of one to 64 ids, each of which the peer decodes to its
    ids, in queue order; and dropping it before any I/O, while the connection lives,
    puts exactly those ids back in front of the ids queued since. *)
Theorem unsent_batch_restores_queue origin side s req room s1 r b s2 :
  begin_write origin side s req room = (s1, r, Ok (Some b)) →
  Forall (fun id => 0 <= id < 2 ^ 64) (releases s) →
  closed s2 = false → peer_ended s2 = false → blen (releases s) <= inflight_releases s2 →
  let response := bool_decide (side = Server) in
  releases s1 = [] ∧ inflight_releases s1 = inflight_releases s + blen (releases s)
  ∧ (∃ groups, wb_prefix b = concat (release_bytes response <$> groups) ∧ concat groups = releases s
      ∧ blen groups = div_ceil_capacity (blen (releases s))
      ∧ ∀ ids, ids ∈ groups → ids_wf ids
          ∧ decode_frame (release_bytes response ids) = Ok (release_header ids response, release_payload ids)
          ∧ decode_release_frame (release_header ids response) (release_payload ids) response true
            = Ok (batch_of ids))
  ∧ ∃ s3, drop_batch s2 b = Ok (s3, Reclaims_new) ∧ releases s3 = releases s ++ releases s2
      ∧ inflight_releases s3 = inflight_releases s2 - blen (releases s).
Proof.
  intros [(b' & [= <-] & _ & Hb)|[Hne _]]%begin_cases Hids Hcl Hpe Hin response; [|by destruct (Hne b)].
  apply begin_section_ok in Hb as (_ & _ & _ & _ & -> & _ & Hrc & _ & _ & _ & Hat & Hfi & Hpre).
  destruct (id_groups_spec (length (releases s)) (releases s) ltac:(lia) Hids) as (Hc & Hwf & Hlen).
  split_and!; try done.
  - exists (id_groups (length (releases s)) (releases s)). rewrite Hpre, encode_releases_groups.
    split_and!; try done. intros ids Hi. rewrite Forall_forall in Hwf. pose proof (Hwf _ Hi) as Hw.
    split_and!; [done| |by apply decode_release_at]. by apply decode_release_bytes.
  - unfold drop_batch. rewrite Hfi, Hat, Hrc, Hcl, Hpe. apply Z.leb_le in Hin as ->.
    cbn [guard_panic res_bind negb andb]. rewrite Hpre, restore_prefix by (done || unfold blen; lia).
    cbn [res_bind]. eexists. split; [done|]. simpl. unfold blen. by rewrite Nat2Z.id, firstn_all.
Qed.

(** ** Closing *)

(** Ending and closing are never undone. *)
Definition ended_le (s s' : State) : Prop :=
  (closed s = true → closed s' = true) ∧ (peer_ended s = true → peer_ended s' = true).

#[global] Instance ended_le_preorder : PreOrder ended_le.
Proof. split; unfold ended_le; [done|]. intros x y z [] []. auto. Qed.

Lemma stop_ended s r s' r' : stop_locked s r = (s', r') → ended_le s s'.
Proof. unfold stop_locked. by intros [= <- _]. Qed.

Lemma step_ended origin side w ev w' : step origin side w ev w' → ended_le (w_core w) (w_core w').
Proof.
  destruct 1; simpl in *; try done.
  - unfold finish_handshake in *. destruct (handshake_done s), (check_live s), (deactivate s) eqn:Hd;
      simplify_eq; try done; by eapply stop_ended.
  - by apply prepare_ok in H0 as (_ & _ & _ & _ & _ & _ & _ & ->).
  - apply prepare_err in H0 as [_ [[-> _]|Hd]]; [done|by eapply stop_ended].
  - apply admit_cases in H0 as [(_ & _ & _ & _ & ->)|[? _]]; done.
  - apply admit_cases in H as [(? & _)|[_ [[-> _]|Hd]]]; [done..|by eapply stop_ended].
  - by apply bind_ok in H as (? & _ & [= <-]).
  - apply begin_cases in H1 as [(b1 & _ & _ & Hs)|[_ [[-> _]|Hd]]]; [|done|by eapply stop_ended].
    by apply begin_section_ok in Hs as (_ & _ & _ & _ & -> & _).
  - apply begin_cases in H1 as [(b1 & -> & _)|[_ [[-> _]|Hd]]]; [|done|by eapply stop_ended].
    destruct H2 as [|[]]; done.
  - by apply begin_io_ok in H as (p & q & Hpq & _ & _ & _ & _ & _ & _ & -> & _).
  - apply frame_cases in H as (_ & _ & _ & _ & _ & _ & _ & _ & [(_ & _ & _ & ->)|(_ & _ & ->)]); done.
  - unfold flush_completed in H. apply bind_ok in H as (? & _ & H). by apply bind_ok in H as (? & _ & [= <-]).
  - unfold write_failed in H. destruct (stop_locked _ _) eqn:Hd. simplify_eq. by apply stop_ended in Hd.
  - unfold drop_batch in H. destruct (wb_finished b); [by simplify_eq|]. apply bind_ok in H as (? & _ & H).
    destruct (wb_attempted b); [by simplify_eq|]. destruct (_ && _); [|by simplify_eq].
    by apply bind_ok in H as (? & _ & [= <- _]).
  - unfold receive_release, stop_locked in H. destruct (decode_release_frame _ _ _ _); [|by simplify_eq..].
    destruct (settle_ids _ _) as [[q recs] [e1|]]; by simplify_eq.
  - by eapply stop_ended.
  - unfold peer_end, stop_locked in H. by simplify_eq.
  - unfold try_close in H. destruct (_ && _); by simplify_eq.
  - unfold drop_prepared in H0. destruct (prepared s !! _); by simplify_eq.
  - by apply bind_ok in H0 as (? & _ & [= <-]).
  - by apply bind_ok in H0 as (? & _ & [= <-]).
  - by apply bind_ok in H0 as (? & _ & [= <-]).
Qed.

(** A closed connection is final: no operation admits anything any more, every
    handle it was offered has been freed, it holds no remote loan or control frame,
    and every step leaves it closed. *)
Theorem closed_is_final origin side w :
  reachable origin side w → closed (w_core w) = true →
  let s := w_core w in
  (∀ h seq r1 r2, (prepare_loan_from s h seq r1 r2).2 = Err Closed)
  ∧ (∀ id room, (admit_remote_loan s id room).2 = Err Closed)
  ∧ prepare_control_frame s = Err Closed
  ∧ (∀ req room, begin_write origin side s req room = (s, Reclaims_new, Err Closed))
  ∧ (∀ b, b ∈ w_batches w → wb_attempted b = false → begin_io s b = Err Closed)
  ∧ (∀ ev w', step origin side w ev w' → closed (w_core w') = true)
  ∧ w_minted w ≡ₚ w_freed w ∧ w_remotes w = [] ∧ w_controls w = 0 ∧ w_dying_controls w = 0
  ∧ (try_close s).2 = true.
Proof.
  intros Hinv%reachable_inv Hcl s. pose proof (closed_freed _ Hinv Hcl) as Hf.
  pose proof Hinv as [Hc Hw _ He _ _]. destruct (e_closed _ He Hcl) as (Hd & Hq & Hrel & Hs & Hrd & Hpc & _).
  fold s in Hcl, Hq, Hd, Hrel, Hs, Hrd, Hpc.
  split_and!; try done.
  - intros. unfold prepare_loan_from, prepare_section, check_business, check_live. by rewrite Hcl.
  - intros. unfold admit_remote_loan, admit_section. by rewrite Hcl.
  - unfold prepare_control_frame, check_writable. by rewrite Hcl.
  - intros. unfold begin_write, begin_section, check_writable. by rewrite Hcl.
  - intros b Hin Hat. destruct (only_batch _ _ _ Hw Hin) as [_ (_ & _ & Hun & _)].
    destruct (Hun Hat) as [Hpos%Z.ltb_lt _]. unfold begin_io. by rewrite Hpos, Hat, Hcl.
  - intros ev w' Hst. by apply (step_ended _ _ _ _ _ Hst).
  - assert (blen (w_remotes w) = 0) by (by rewrite <-(c_reads _ _ _ _ _ _ Hc)).
    destruct (w_remotes w) as [|x l]; [done|]. rewrite blen_cons in *. pose proof (blen_nonneg l). lia.
  - destruct Hc. pose proof (control_total_nonneg (w_batches w)). fold s in c_controls. lia.
  - destruct Hc. pose proof (control_total_nonneg (w_batches w)). fold s in c_controls. lia.
  - unfold try_close. destruct (_ && _); by rewrite ?Hcl.
Qed.

(** What is left to do before an ended connection may close. *)
Definition debt (w : World) : Z :=
  4 * blen (w_batches w) + 2 * w_controls w + w_dying_controls w + blen (w_remotes w)
  + foldr (fun r n => 1 + blen r.1 + n) 0 (w_reclaims w).

Definition some_step origin side (w w' : World) : Prop := ∃ ev, step origin side w ev w'.

Lemma drop_reclaims s b s' r : prepared s = ∅ → drop_batch s b = Ok (s', r) → reclaim_list r = [].
Proof.
  intros Hp. unfold drop_batch. destruct (wb_finished b); [intros [= _ <-]; apply reclaim_new|].
  intros (u & _ & H)%bind_ok. destruct (wb_attempted b).
  - injection H as _ <-. unfold reclaim_list. simpl. by rewrite Hp, map_to_list_empty.
  - destruct (_ && _); [apply bind_ok in H as (? & _ & H)|]; injection H as _ <-; apply reclaim_new.
Qed.

Ltac debt_lia :=
  simpl; change (blen (@nil WriteBatch)) with 0; change (blen (@nil Z)) with 0;
  change (blen (@nil Alloc)) with 0; lia.

Lemma debt_step origin side w :
  inv w → peer_ended (w_core w) = true → 0 < debt w →
  ∃ w', some_step origin side w w' ∧ 0 <= debt w' < debt w.
Proof.
  intros Hinv Hpe Hd. pose proof Hinv as [Hc _ _ He _ _].
  pose proof (e_stop _ He (proj1 (e_ended _ He Hpe))) as Hp.
  destruct w as [s sq tk dy rm ct dc bs rc fr mi]. cbn [w_core] in *. destruct Hc. unfold debt in *. simpl in *.
  assert (∀ l : list (list Alloc * Z), 0 <= foldr (fun r n => 1 + blen r.1 + n) 0 l) as Hnn.
  { induction l as [|r l IH]; simpl; [lia|]. pose proof (blen_nonneg r.1). lia. }
  pose proof (Hnn rc). pose proof (blen_nonneg rm). pose proof (blen_nonneg bs).
  destruct bs as [|b bs].
  - change (blen (@nil WriteBatch)) with 0 in *. destruct (decide (0 < ct)) as [Hct|].
    { eexists. split; [exists Other; by apply s_abandon_control|]. debt_lia. }
    destruct (decide (0 < dc)) as [Hdc|].
    { destruct (drop_control_ok _ Hinv Hdc) as [s' Hs].
      eexists. split; [exists Other; by eapply s_drop_control|]. debt_lia. }
    destruct rm as [|id rm]; [|destruct (drop_remote_ok _ id Hinv) as [s' Hs]; [left|]; rewrite blen_cons in *;
      pose proof (blen_nonneg rm); eexists; split; [exists Other; by eapply s_drop_remote|]; debt_lia].
    destruct rc as [|[[|a l] k] rc]; [change (blen (@nil Z)) with 0 in *; simpl in *; lia| |].
    + destruct (settle_reclaims_ok _ k Hinv) as [s' Hs]; [left|]. pose proof (Hnn rc). simpl in *.
      eexists. split; [exists Other; by eapply s_settle|]. debt_lia.
    + pose proof (Hnn rc). pose proof (blen_nonneg l). simpl in *. rewrite blen_cons in *.
      eexists. split; [exists Other; by eapply s_release|]. debt_lia.
  - destruct (drop_batch_ok _ b Hinv) as [[s' r] Hs]; [left|]. pose proof (drop_reclaims _ _ _ _ Hp Hs) as Hr.
    pose proof (control_of_nonneg b). assert (control_of b <= 1) by (unfold control_of; case_match; lia).
    rewrite blen_cons in *. pose proof (blen_nonneg bs).
    eexists. split; [exists Other; by eapply s_drop_batch|]. simpl. rewrite Hr. debt_lia.
Qed.

Lemma paid_off w : inv w → debt w <= 0 → peer_ended (w_core w) = true → (try_close (w_core w)).2 = true.
Proof.
  intros [[] Hw _ He _ _] Hd Hpe. destruct (e_ended _ He Hpe) as (Hde & Hq & _).
  pose proof (e_stop _ He Hde) as Hp. unfold debt in Hd.
  assert (∀ l : list (list Alloc * Z), 0 <= foldr (fun r n => 1 + blen r.1 + n) 0 l) as Hnn.
  { induction l as [|r l IH]; simpl; [lia|]. pose proof (blen_nonneg r.1). lia. }
  pose proof (Hnn (w_reclaims w)). pose proof (blen_nonneg (w_remotes w)).
  destruct (w_batches w) as [|b bs]; [|rewrite blen_cons in Hd; pose proof (blen_nonneg bs); lia].
  destruct (w_reclaims w) as [|x l]; [|simpl in Hd; pose proof (Hnn l); pose proof (blen_nonneg x.1); 
    change (blen (@nil WriteBatch)) with 0 in *; lia].
  change (blen (@nil WriteBatch)) with 0 in *. simpl in *.
  unfold try_close. rewrite Hde, Hp, Hq, c_settling. simpl.
  rewrite (proj2 (Z.eqb_eq (pending_controls _) 0)), (proj2 (Z.eqb_eq (remote_reads _) 0)) by lia.
  destruct Hw as [Hw|Hw]; rewrite Hw; simpl; by rewrite !bool_decide_eq_true_2 by done.
Qed.

(** C5 An ended connection can always be drained: from any reachable world whose peer
    has ended, some finite run of drops, releases and settlements ends with the
    connection closed and every offered handle freed. *)
Theorem ended_connection_can_close origin side w :
  reachable origin side w → peer_ended (w_core w) = true →
  ∃ w', rtc (some_step origin side) w w' ∧ closed (w_core w') = true ∧ w_minted w' ≡ₚ w_freed w'.
Proof.
  intros Hr Hpe. remember (Z.to_nat (debt w)) as n eqn:Hn. apply reachable_inv in Hr.
  revert w Hn Hr Hpe. induction n as [n IH] using lt_wf_ind. intros w -> Hinv Hpe.
  destruct (decide (0 < debt w)) as [Hd|Hd].
  - destruct (debt_step origin side w Hinv Hpe Hd) as (w1 & [ev Hst] & Hlt).
    destruct (IH (Z.to_nat (debt w1)) ltac:(lia) w1 eq_refl) as (w' & Hrun & Hcl & Hf).
    + by eapply step_inv.
    + by apply (step_ended _ _ _ _ _ Hst).
    + exists w'. split; [|done]. eapply rtc_l; [by exists ev|done].
  - pose proof (paid_off w Hinv ltac:(lia) Hpe) as Hc. destruct (try_close (w_core w)) as [s' c] eqn:Htc.
    simpl in Hc. subst c. destruct w as [s sq tk dy rm ct dc bs rc fr mi]. simpl in Htc.
    assert (closed s' = true) as Hcl by (unfold try_close in Htc; by injection Htc as <- ->).
    assert (step origin side (W s sq tk dy rm ct dc bs rc fr mi) Other (W s' sq tk dy rm ct dc bs rc fr mi))
      as Hst by by eapply s_close.
    exists (W s' sq tk dy rm ct dc bs rc fr mi). split_and!; [apply rtc_once; by exists Other|done|].
    apply closed_freed; [by eapply step_inv|done].
Qed.

(** ** A run *)

(** Connection 5, client side: handshake, a loan of handle 7, a business batch with
    it, the start of its I/O, then the end of the peer. *)
Module Sample.
Definition req : WriteRequest := Business [{| pl_origin := 5; pl_id := 1 |}].
Definition none : list Alloc * Z := (reclaim_list Reclaims_new, 0).

Definition s1 : State := (finish_handshake State_default).1.1.
Definition s2 : State := (prepare_loan_from s1 7 0 true true).1.1.1.
Definition s3 : State := (begin_write 5 Client s2 req true).1.1.
Definition b3 : WriteBatch :=
  match (begin_write 5 Client s2 req true).2 with
  | Ok (Some b) => b
  | _ => {| wb_loans := []; wb_prefix := []; wb_release_count := 0; wb_frames_remaining := 0;
            wb_business := false; wb_control := false; wb_attempted := false; wb_finished := true |}
  end.
Definition s4 : State := match begin_io s3 b3 with Ok x => x.1 | _ => s3 end.
Definition b4 : WriteBatch := match begin_io s3 b3 with Ok x => x.2 | _ => b3 end.
Definition s5 : State := (peer_end s4).1.
Definition r5 : Reclaims := (peer_end s4).2.

Definition w3 : World := W s3 1 [] [] [] 0 0 [b3] [none; none; none] [] [7].
Definition w4 : World := W s4 1 [] [] [] 0 0 [b4] [none; none; none] [] [7].
Definition w5 : World := W s5 1 [] [] [] 0 0 [b4] [(reclaim_list r5, 0); none; none; none] [] [7].

(** The same loan cancelled by a deactivation, reclaimed, and the connection closed. *)
Definition c1 : State := (deactivate s2).1.
Definition c2 : State := match settle_reclaims c1 1 with Ok s => s | _ => c1 end.
Definition c3 : State := (try_close c2).1.
Definition closed_world : World := W c3 1 [1] [] [] 0 0 [] [none; none] [7] [7].

(** Two releases queued before a batch takes them, and one queued after. *)
Definition q1 : State := set_flow s1 0 [3; 9] 0 0 Idle.
Definition qb : WriteBatch :=
  match (begin_write 5 Client q1 Releases true).2 with Ok (Some b) => b | _ => b3 end.
Definition q2 : State := set_flow s1 0 [4] 2 0 Reserved.

Lemma run2 : reachable 5 Client (W s2 1 [1] [] [] 0 0 [] [none; none] [] [7]).
Proof.
  assert (reachable 5 Client (W s1 0 [] [] [] 0 0 [] [none] [] [])) as H1.
  { eapply reach_step; [apply reach_initial|]. by eapply s_finish. }
  eapply reach_step; [exact H1|]. eapply (s_prepare _ _ _ _ _ _ _ _ _ _ _ _ _ _ true true); [|done].
  by intros ?%elem_of_nil.
Qed.

Lemma run3 : reachable 5 Client w3.
Proof. eapply reach_step; [exact run2|]. by eapply (s_begin _ _ _ _ _ _ _ 0 _ _ _ _ _ req true []). Qed.

Lemma run4 : reachable 5 Client w4.
Proof. eapply reach_step; [exact run3|]. by eapply s_io. Qed.

Lemma run5 : reachable 5 Client w5.
Proof. eapply reach_step; [exact run4|]. by eapply s_peer_end. Qed.

Lemma run_closed : reachable 5 Client closed_world.
Proof.
  eapply reach_step; [|by eapply (s_close _ _ c2)].
  eapply reach_step; [|eapply (s_settle _ _ c1 _ _ _ _ _ _ _ [([], 1); none; none]); done].
  eapply reach_step; [|eapply (s_release _ _ _ _ _ _ _ _ _ _ [(reclaim_list (deactivate s2).2, 0); none; none]
    _ _ {| a_handle := 7; a_published := false |} [] 0); done].
  eapply reach_step; [exact run2|]. by eapply s_deactivate.
Qed.
End Sample.

Lemma connection_never_panics_witness :
  reachable 5 Client Sample.w3 ∧ begin_io (w_core Sample.w3) Sample.b3 ≠ Panic
  ∧ ∃ x, drop_batch (w_core Sample.w3) Sample.b3 = Ok x.
Proof.
  split; [exact Sample.run3|].
  destruct (connection_never_panics 5 Client Sample.w3 Sample.run3) as [H _].
  destruct (H Sample.b3) as (Hio & _ & _ & Hdrop); [left|]. split; [by apply Hio|done].
Defined.

Lemma allocations_conserved_witness :
  closed (w_core Sample.closed_world) = true ∧ w_minted Sample.closed_world ≡ₚ w_freed Sample.closed_world.
Proof. split; [done|]. by apply (allocations_conserved 5 Client Sample.closed_world Sample.run_closed). Defined.

Lemma writes_serialised_witness :
  Sample.b4 ∈ w_batches Sample.w4
  ∧ (begin_write 5 Client (w_core Sample.w4) Sample.req true).2 ≠ Ok (Some Sample.b3).
Proof.
  split; [left|]. apply (proj2 (writes_serialised 5 Client Sample.w4 Sample.req true Sample.run4) Sample.b4). left.
Defined.

Lemma published_loan_settles_witness :
  7 ∈ reclaim_handles (w_reclaims Sample.w5).
Proof.
  refine (proj2 (published_loan_settles 5 Client Sample.w4 Ended Sample.w5 1
                   {| a_handle := 7; a_published := true |} Sample.run4 _ _ _)).
  - by eapply s_peer_end.
  - vm_compute. reflexivity.
  - vm_compute. reflexivity.
Defined.

Lemma unsent_batch_restores_queue_witness :
  ∃ s3, drop_batch Sample.q2 Sample.qb = Ok (s3, Reclaims_new) ∧ releases s3 = [3; 9; 4].
Proof.
  destruct (unsent_batch_restores_queue 5 Client Sample.q1 Releases true
              (begin_write 5 Client Sample.q1 Releases true).1.1 Reclaims_new
              Sample.qb Sample.q2) as (_ & _ & _ & s & Hs & Hrel & _).
  - reflexivity.
  - change (releases Sample.q1) with [3; 9]. repeat constructor; lia.
  - reflexivity.
  - reflexivity.
  - done.
  - by exists s.
Defined.

Lemma closed_is_final_witness :
  closed Sample.c3 = true
  ∧ begin_write 5 Client Sample.c3 Sample.req true = (Sample.c3, Reclaims_new, Err Closed).
Proof. split; [done|]. by apply (closed_is_final 5 Client Sample.closed_world Sample.run_closed). Defined.

Lemma ended_connection_can_close_witness :
  ∃ w', rtc (some_step 5 Client) Sample.w5 w' ∧ closed (w_core w') = true ∧ w_minted w' ≡ₚ w_freed w'.
Proof. by apply (ended_connection_can_close 5 Client Sample.w5 Sample.run5). Defined.
