(* ===== verification/BatchWrite.v ===== *)
(** The loop that writes a batch (c2-ipc, connection.rs, [write_batch]): whatever part of the
    bytes each write of the stream takes, the frames it counts as complete are those of the
    batch. *)

From S2P Require Import Prelude.
From S2P Require Import Frame.
From S2P Require Import Release.
From S2P Require Import Connection.
From S2P Require Import ConnectionWire.
From S2P Require Import ConnectionInv.
From S2P Require Import ConnectionSafe.

(** ** The loop *)

(** Bytes written, where the frame being written ends, and the calls of [frame_completed]. *)
Record Progress := { written : Z; boundary : Z; completed : nat }.

Inductive WriteError := WriteZero.

(** [4 + u32::from_le_bytes(bytes[off..off + 4])] *)
Definition frame_end (bs : bytes) (off : Z) : res WriteError Z := let? n := read_le 4 bs off in Ok (4 + n).

Definition start_write (bs : bytes) : res WriteError Progress :=
  let? b := frame_end bs 0 in Ok {| written := 0; boundary := b; completed := 0 |}.

(** [while boundary <= written]: every round passes a frame of at least four bytes, so the
    length of the bytes is fuel enough. *)
Fixpoint pass_frames (fuel : nat) (bs : bytes) (p : Progress) : res WriteError Progress :=
  match fuel with
  | O => Ok p
  | S fuel =>
      if boundary p <=? written p then
        let p := {| written := written p; boundary := boundary p; completed := S (completed p) |} in
        if boundary p =? blen bs then Ok p
        else
          let? n := frame_end bs (boundary p) in
          pass_frames fuel bs {| written := written p; boundary := boundary p + n; completed := completed p |}
      else Ok p
  end.

(** One write that took [count] bytes. *)
Definition write_some (bs : bytes) (p : Progress) (count : Z) : res WriteError Progress :=
  guard_err (count =? 0) WriteZero ;?
  pass_frames (S (length bs)) bs {| written := written p + count; boundary := boundary p; completed := completed p |}.

(** [while written < bytes.len()], over what the writes took. *)
Fixpoint write_counts (bs : bytes) (p : Progress) (counts : list Z) : res WriteError Progress :=
  match counts with
  | [] => Ok p
  | count :: counts =>
      if written p <? blen bs then let? p := write_some bs p count in write_counts bs p counts else Ok p
  end.

Definition write_batch (bs : bytes) (counts : list Z) : res WriteError Progress :=
  let? p := start_write bs in write_counts bs p counts.

(** ** The frames of a batch *)

Definition framed (f : bytes) : Prop := ∃ rest, f = to_le 4 (blen rest) ++ rest ∧ blen rest < 2 ^ 32.

Lemma encode_framed rid fl payload : 12 + blen payload < 2 ^ 32 → framed (encode_frame rid fl payload).
Proof.
  intros H. rewrite encode_frame_eq. pose proof (blen_nonneg payload). exists (to_le 8 rid ++ to_le 4 fl ++ payload).
  rewrite !blen_app, !blen_to_le. unfold wrap_u32. rewrite Z.mod_small by lia. split; [|lia]. do 2 f_equal. lia.
Qed.

Section frames.
Context (fs : list bytes) (Hfs : Forall framed fs).
Notation bs := (concat fs).

(** Where the first [k] frames end. *)
Definition ends (k : nat) : Z := blen (concat (take k fs)).

Lemma ends_S k f : fs !! k = Some f → ends (S k) = ends k + blen f.
Proof using Type. intros H. unfold ends. by rewrite (take_S_r _ _ _ H), concat_app, blen_app, concat_cons, app_nil_r. Qed.

Lemma ends_all : ends (length fs) = blen bs.
Proof using Type. unfold ends. by rewrite firstn_all. Qed.

Lemma frame_end_at k f : fs !! k = Some f → frame_end bs (ends k) = Ok (blen f).
Proof using Hfs.
  intros H. rewrite Forall_forall in Hfs. destruct (Hfs f) as (rest & -> & Hl); [by eapply list_elem_of_lookup_2|].
  unfold frame_end. rewrite (read_le_at_off_small 4 _ _ (blen rest)).
  - cbn. rewrite blen_app, blen_to_le. done.
  - rewrite <-(take_drop_middle _ _ _ H), concat_app. cbn [concat]. rewrite <-(assoc_L (++)). apply at_off_mid.
  - pose proof (blen_nonneg rest). lia.
Qed.

Lemma framed_length f : framed f → 4 <= blen f.
Proof using Type. intros (rest & -> & _). rewrite blen_app, blen_to_le. pose proof (blen_nonneg rest). lia. Qed.

Lemma ends_lt k f : fs !! k = Some f → ends k < ends (S k).
Proof using Hfs.
  intros H. rewrite (ends_S k f H). rewrite Forall_forall in Hfs. assert (Hf : framed f) by (apply Hfs; by eapply list_elem_of_lookup_2).
  apply framed_length in Hf. lia.
Qed.

(** The frames counted are those whose bytes are all written. *)
Definition passed (t : Z) (p : Progress) : Prop :=
  written p = t ∧ ends (completed p) <= t
  ∧ (((completed p < length fs)%nat ∧ t < ends (S (completed p)) ∧ boundary p = ends (S (completed p))) ∨ completed p = length fs).

Lemma pass_frames_spec fuel k t :
  (k < length fs)%nat → ends k <= t <= blen bs → (length fs - k < fuel)%nat →
  ∃ p, pass_frames fuel bs {| written := t; boundary := ends (S k); completed := k |} = Ok p ∧ passed t p.
Proof using Hfs.
  revert k. induction fuel as [|fuel IH]; intros k Hk Ht Hf; [lia|]. cbn [pass_frames written boundary completed].
  destruct (Z.leb_spec (ends (S k)) t) as [Hle|Hlt].
  - destruct (Z.eqb_spec (ends (S k)) (blen bs)) as [He|Hne].
    + eexists. split; [done|]. split_and!; cbn; [done|done|]. right.
      destruct (Nat.lt_ge_cases (S k) (length fs)) as [Hlt|]; [|lia]. exfalso.
      destruct (lookup_lt_is_Some_2 fs (S k) Hlt) as [f Hf']. pose proof (ends_lt _ _ Hf') as Hl.
      assert (ends (S (S k)) <= blen bs); [|lia]. unfold ends. rewrite <-(take_drop (S (S k)) fs) at 2. rewrite concat_app, blen_app.
      pose proof (blen_nonneg (concat (drop (S (S k)) fs))). lia.
    + destruct (Nat.lt_ge_cases (S k) (length fs)) as [Hlt|Hge].
      * destruct (lookup_lt_is_Some_2 fs (S k) Hlt) as [f Hf']. rewrite (frame_end_at _ _ Hf'). cbn [res_bind].
        rewrite <-(ends_S _ _ Hf'). apply IH; [done|lia|lia].
      * exfalso. apply Hne. rewrite <-ends_all. f_equal. lia.
  - eexists. split; [done|]. split_and!; cbn; [done|lia|]. by left.
Qed.

Lemma frames_length : (length fs <= length bs)%nat.
Proof using Hfs.
  induction fs as [|f l IH]; [done|]. apply Forall_cons in Hfs as [Hf Hl]. specialize (IH Hl). cbn. rewrite length_app.
  apply framed_length in Hf. unfold blen in Hf. lia.
Qed.

Lemma write_counts_spec counts t p :
  passed t p → 0 <= t → Forall (fun n => 0 < n) counts → t + foldr Z.add 0 counts <= blen bs →
  ∃ p', write_counts bs p counts = Ok p' ∧ passed (t + foldr Z.add 0 counts) p'.
Proof using Hfs.
  intros Hp Ht Hc. revert t p Hp Ht. induction Hc as [|n counts Hn Hc IH]; intros t p Hp Ht Hs; cbn [write_counts foldr] in *.
  - exists p. by rewrite Z.add_0_r.
  - assert (Hsum : 0 <= foldr Z.add 0 counts) by (clear -Hc; induction Hc; cbn; lia). destruct Hp as (Hw & He & Hb).
    rewrite Hw. rewrite (proj2 (Z.ltb_lt t (blen bs))) by lia. unfold write_some. rewrite (proj2 (Z.eqb_neq n 0)) by lia. cbn [guard_err res_bind].
    destruct Hb as [(Hk & Ht' & ->)|Hk]; [|rewrite Hk, ends_all in He; lia]. rewrite Hw.
    destruct (pass_frames_spec (S (length bs)) (completed p) (t + n) Hk) as (p1 & -> & Hp1); [lia|pose proof frames_length; lia|].
    cbn [res_bind]. destruct (IH (t + n) p1 Hp1) as (p' & -> & Hp'); [lia..|]. exists p'. split; [done|]. by rewrite Z.add_assoc.
Qed.

Lemma write_batch_spec counts :
  fs ≠ [] → Forall (fun n => 0 < n) counts → foldr Z.add 0 counts <= blen bs →
  ∃ p, write_batch bs counts = Ok p ∧ passed (foldr Z.add 0 counts) p.
Proof using Hfs.
  intros Hne Hc Hs. assert (∃ f, fs !! 0%nat = Some f) as [f H0] by (clear Hfs Hs; destruct fs as [|f l]; [done|by exists f]).
  unfold write_batch, start_write. change 0 with (ends 0) at 1. rewrite (frame_end_at _ _ H0). cbn [res_bind].
  apply (write_counts_spec counts 0); [|lia|done|lia]. split_and!; [done|done|]. left. cbn. split_and!.
  - by eapply lookup_lt_Some.
  - pose proof (ends_lt _ _ H0). by change (ends 0) with 0 in *.
  - rewrite (ends_S _ _ H0). by change (ends 0) with 0.
Qed.

Lemma passed_all p : passed (blen bs) p → completed p = length fs.
Proof using Type.
  intros (_ & _ & [(Hk & Ht & _)|?]); [|done]. exfalso. assert (ends (S (completed p)) <= blen bs); [|lia]. unfold ends.
  rewrite <-(take_drop (S (completed p)) fs) at 2. rewrite concat_app, blen_app. pose proof (blen_nonneg (concat (drop (S (completed p)) fs))). lia.
Qed.
Lemma passed_count t p (Hp : passed t p) (Ht : t <= blen bs) : completed p = length fs ↔ t = blen bs.
Proof using Hfs.
  split; [|by intros ->; apply passed_all]. intros Hc. destruct Hp as (_ & He & _). rewrite Hc, ends_all in He. lia.
Qed.
End frames.

(** The frame count of a batch: one for every 64 releases, and one for its own frame. *)
Definition has_frame (req : WriteRequest) : bool := request_business req || bool_decide (is_Some (request_control req)).

Lemma begin_section_frames origin side s req room s' b :
  begin_section origin side s req room = Ok (Some (s', b)) →
  wb_frames_remaining b = div_ceil_capacity (blen (releases s)) + (if has_frame req then 1 else 0).
Proof.
  unfold begin_section. cbn zeta. fold (has_frame req). intros H. repeat (apply bind_ok in H as (? & _ & H)).
  destruct (negb (has_frame req) && _); [done|]. case_match; [|done]. apply bind_ok in H as (? & _ & H). by injection H as <- <-.
Qed.

Definition batch_bytes (b : WriteBatch) (req : WriteRequest) (rid fl : Z) (payload : bytes) : bytes :=
  wb_prefix b ++ (if has_frame req then encode_frame rid fl payload else []).

Lemma batch_frames origin side s req room s' b rid fl payload :
  begin_section origin side s req room = Ok (Some (s', b)) → Forall (fun id => 0 <= id < 2 ^ 64) (releases s) →
  12 + blen payload < 2 ^ 32 →
  ∃ fs, batch_bytes b req rid fl payload = concat fs ∧ Forall framed fs ∧ blen fs = wb_frames_remaining b ∧ fs ≠ [].
Proof.
  intros Hb Hids Hp. pose proof (begin_section_frames _ _ _ _ _ _ _ Hb) as Hfr.
  apply begin_section_ok in Hb as (_ & _ & _ & _ & _ & _ & _ & Hpos & _ & _ & _ & _ & Hpre).
  destruct (id_groups_spec (length (releases s)) (releases s) ltac:(lia) Hids) as (_ & Hwf & Hlen).
  exists ((release_bytes (bool_decide (side = Server)) <$> id_groups (length (releases s)) (releases s))
          ++ (if has_frame req then [encode_frame rid fl payload] else [])).
  assert (Hn : ∀ fs : list bytes, blen fs = wb_frames_remaining b → fs ≠ []) by (intros ? H ->; change (0 = wb_frames_remaining b) in H; lia).
  match goal with |- ?P ∧ ?Q ∧ ?R ∧ _ => assert (R) as HR end.
  { rewrite blen_app, Hfr, <-Hlen. unfold blen. rewrite length_fmap. by destruct (has_frame req). }
  split_and!; [| |done|by apply Hn].
  - unfold batch_bytes. rewrite Hpre, encode_releases_groups, concat_app. by destruct (has_frame req); rewrite ?concat_cons, ?app_nil_r.
  - apply Forall_app. split; [|destruct (has_frame req); [constructor; [by apply encode_framed|done]|done]].
    rewrite Forall_fmap. eapply Forall_impl; [exact Hwf|]. intros ids [Hl _]. apply encode_framed.
    rewrite blen_release_payload. unfold IPC_RELEASE_BATCH_CAPACITY in Hl. lia.
Qed.

(** C36 Whatever part of its bytes each write takes, the loop that writes a batch never reads
    outside them and counts a frame when its last byte is written and not before: when all
    is written it has counted exactly the frames the connection expects of the batch, the
    releases it carries included. *)
Theorem batch_frames_counted origin side s req room s' r b rid fl payload counts :
  begin_write origin side s req room = (s', r, Ok (Some b)) → Forall (fun id => 0 <= id < 2 ^ 64) (releases s) →
  12 + blen payload < 2 ^ 32 → Forall (fun n => 0 < n) counts →
  let bs := batch_bytes b req rid fl payload in
  foldr Z.add 0 counts <= blen bs →
  ∃ p, write_batch bs counts = Ok p ∧ written p = foldr Z.add 0 counts
    ∧ (Z.of_nat (completed p) = wb_frames_remaining b ↔ foldr Z.add 0 counts = blen bs).
Proof.
  intros [(b' & [= <-] & _ & Hb)|[Hne _]]%begin_cases Hids Hp Hc; [|by destruct (Hne b)].
  destruct (batch_frames _ _ _ _ _ _ _ rid fl payload Hb Hids Hp) as (fs & -> & Hfs & Hl & Hne). cbn zeta. intros Hs.
  destruct (write_batch_spec fs Hfs counts Hne Hc Hs) as (p & E & Hpass). exists p. split_and!; [done|apply Hpass|].
  rewrite <-Hl, <-(passed_count fs Hfs _ _ Hpass Hs). unfold blen. lia.
Qed.

(** Two queued releases and a business frame of two bytes. *)
Definition sample_write := begin_write 5 Client (set_flow Sample.s1 0 [3; 9] 0 0 Idle) (Business []) true.
Definition sample_batch : WriteBatch := match sample_write.2 with Ok (Some b) => b | _ => Sample.b3 end.
Definition sample_bytes : bytes := batch_bytes sample_batch (Business []) 1 0 [Byte.x07; Byte.x08].

(** Written in pieces of 20, 20 and 12 bytes: the second ends in the second frame. *)
Lemma batch_frames_witness :
  blen sample_bytes = 52 ∧ wb_frames_remaining sample_batch = 2
  ∧ ∃ p, write_batch sample_bytes [20; 20; 12] = Ok p ∧ written p = 52
    ∧ (Z.of_nat (completed p) = wb_frames_remaining sample_batch ↔ 52 = blen sample_bytes).
Proof.
  split_and!; [vm_compute; reflexivity..|].
  refine (batch_frames_counted 5 Client (set_flow Sample.s1 0 [3; 9] 0 0 Idle) (Business []) true sample_write.1.1 sample_write.1.2
    sample_batch 1 0 [Byte.x07; Byte.x08] [20; 20; 12] _ _ _ _ _).
  - vm_compute. reflexivity.
  - refine (bool_decide_unpack _ _). vm_compute. exact I.
  - vm_compute. reflexivity.
  - refine (bool_decide_unpack _ _). vm_compute. exact I.
  - vm_compute. discriminate.
Defined.
