(* ===== verification/ClientCalls.v ===== *)
(** Calls of an IPC client on one physical connection (c2-ipc, connection.rs and client.rs):
    the table of pending replies, the queue of submissions, the writer and the reader, and
    how a failure is told to have happened before dispatch or not.  Each step is a section
    that runs under a lock, so every interleaving of the callers, the two drivers and the
    threads that end the connection is a run.  The calls are those whose request is one
    frame in the stream, without a shared-memory block. *)

From S2P Require Import Prelude.
From S2P Require Import Text.
From S2P Require Import Frame.
From S2P Require Import Codec.
From S2P Require Import Control.
From S2P Require Import Release.
From S2P Require Import Connection.

(** ** Data *)

(** The errors these paths make; [Chunk] tells a lack of room from a violation. *)
Inductive IpcError :=
| LocalCallRejected
| Io
| Protocol
| Shm
| DecodeFailed (e : DecodeError)
| Chunk (capacity : bool)
| CrmError (error : bytes)
| NoSuchRoute (route : str)
| IpcClosed
| ResponseFailure (e : IpcError).

Definition response_failure (e : IpcError) : IpcError :=
  match e with ResponseFailure _ => e | _ => ResponseFailure e end.

Definition core_error (e : ConnectionError) : IpcError :=
  match e with Deactivated | Closed | PeerEnded | WriterBroken => IpcClosed | _ => Protocol end.

Inductive TransportPhase := PreDispatch | DispatchUncertain.

Definition call_error_phase (e : IpcError) : TransportPhase :=
  match e with
  | LocalCallRejected | Protocol | NoSuchRoute _ | Shm => PreDispatch
  | ResponseFailure _ | Io | DecodeFailed _ | Chunk _ | CrmError _ | IpcClosed => DispatchUncertain
  end.

Definition is_response_failure (e : IpcError) : bool := match e with ResponseFailure _ => true | _ => false end.

Definition dispatch_call_error (source : IpcError) (sent_or_attempted : bool) : TransportPhase * IpcError :=
  (if sent_or_attempted || is_response_failure source then DispatchUncertain else PreDispatch, source).
Definition classified_call_error (source : IpcError) : TransportPhase * IpcError := (call_error_phase source, source).

(** [ResponseData]; what the mapped and the reassembled ones hold is not needed here. *)
Inductive ResponseData := RInline (payload : bytes) | RShm | RHandle.

Notation Reply := (ResponseData + IpcError)%type.
Notation Outcome := (bytes + (TransportPhase * IpcError))%type.

(** The receipt of a submission: a one-shot channel. *)
Inductive Receipt := NotSent | Sent (error : option IpcError) | SenderDropped.

(** Where a caller is in [call_inline_controlled] and the [submit] it awaits. *)
Inductive Caller :=
| Submitting                                  (** [submit] entered *)
| Reserving                                   (** waiting for room in the queue *)
| Permitted                                   (** a permit is held *)
| Queued                                      (** the submission is in the queue *)
| AwaitReceipt (was_stopped : bool)
| AwaitSent                                   (** stopped after publication *)
| Finishing (error : option IpcError)         (** the result is known *)
| DropRequest (finished : bool) (error : option IpcError)
| Submitted (error : option IpcError)         (** [submit] returned *)
| AwaitReply
| Returning (outcome : Outcome)               (** the guard still stands *)
| Abandoned                                   (** the future was dropped, its guard still stands *)
| Returned (outcome : option Outcome).

(** One call: its [SendState], the slot with its request, its receipt and its reply. *)
Record Call := {
  started : bool;
  cancelled : bool;
  slot : bool;
  receipt : Receipt;
  reply : option Reply;
  caller : Caller }.

Inductive EndReason := LocalClose | ProtocolError | IoError (read : bool).

Inductive Disconnect := NotRequested | DisconnectPending | DisconnectFinished.

(** What the writer does: nothing, a submission whose slot and state it has locked, before
    and after [begin_write], a batch it writes, or it has ended. *)
Inductive Writer :=
| WIdle
| WLocked (rid : Z)
| WBegun (rid : Z) (b : WriteBatch)
| WWriting (owner : option Z) (b : WriteBatch)
| WEnded.

(** [pending]: the entries, with what the first chunk of a reply announced. [stops]: the
    calls of [stop_admission] that have deactivated the core and not yet swept. *)
Record World := {
  core : State;
  pending : gmap Z (option (Z * Z));
  calls : gmap Z Call;
  rid_counter : Z;
  queue : list Z;
  queue_open : bool;
  writing : Writer;
  disconnect : Disconnect;
  stopped : bool;
  stops : nat;
  read_stopped : bool;
  aborted : bool;
  first_end : option EndReason;
  publications : list Z }.

(** ** Assignments *)

Definition set_core w s := {| core := s; pending := pending w; calls := calls w; rid_counter := rid_counter w; queue := queue w;
  queue_open := queue_open w; writing := writing w; disconnect := disconnect w; stopped := stopped w; stops := stops w;
  read_stopped := read_stopped w; aborted := aborted w; first_end := first_end w; publications := publications w |}.
Definition set_table w p c := {| core := core w; pending := p; calls := c; rid_counter := rid_counter w; queue := queue w;
  queue_open := queue_open w; writing := writing w; disconnect := disconnect w; stopped := stopped w; stops := stops w;
  read_stopped := read_stopped w; aborted := aborted w; first_end := first_end w; publications := publications w |}.
Definition set_counter w n := {| core := core w; pending := pending w; calls := calls w; rid_counter := n; queue := queue w;
  queue_open := queue_open w; writing := writing w; disconnect := disconnect w; stopped := stopped w; stops := stops w;
  read_stopped := read_stopped w; aborted := aborted w; first_end := first_end w; publications := publications w |}.
Definition set_queue w q open := {| core := core w; pending := pending w; calls := calls w; rid_counter := rid_counter w; queue := q;
  queue_open := open; writing := writing w; disconnect := disconnect w; stopped := stopped w; stops := stops w;
  read_stopped := read_stopped w; aborted := aborted w; first_end := first_end w; publications := publications w |}.
Definition set_writing w x := {| core := core w; pending := pending w; calls := calls w; rid_counter := rid_counter w; queue := queue w;
  queue_open := queue_open w; writing := x; disconnect := disconnect w; stopped := stopped w; stops := stops w;
  read_stopped := read_stopped w; aborted := aborted w; first_end := first_end w; publications := publications w |}.
Definition set_disconnect w d := {| core := core w; pending := pending w; calls := calls w; rid_counter := rid_counter w; queue := queue w;
  queue_open := queue_open w; writing := writing w; disconnect := d; stopped := stopped w; stops := stops w;
  read_stopped := read_stopped w; aborted := aborted w; first_end := first_end w; publications := publications w |}.
Definition set_stop_flags w st n e := {| core := core w; pending := pending w; calls := calls w; rid_counter := rid_counter w;
  queue := queue w; queue_open := queue_open w; writing := writing w; disconnect := disconnect w; stopped := st; stops := n;
  read_stopped := read_stopped w; aborted := aborted w; first_end := e; publications := publications w |}.
Definition set_ended_io w rs ab := {| core := core w; pending := pending w; calls := calls w; rid_counter := rid_counter w;
  queue := queue w; queue_open := queue_open w; writing := writing w; disconnect := disconnect w; stopped := stopped w; stops := stops w;
  read_stopped := rs; aborted := ab; first_end := first_end w; publications := publications w |}.
Definition publish_call w rid := {| core := core w; pending := pending w; calls := calls w; rid_counter := rid_counter w;
  queue := queue w; queue_open := queue_open w; writing := writing w; disconnect := disconnect w; stopped := stopped w; stops := stops w;
  read_stopped := read_stopped w; aborted := aborted w; first_end := first_end w; publications := publications w ++ [rid] |}.

Definition with_caller c k := {| started := started c; cancelled := cancelled c; slot := slot c; receipt := receipt c; reply := reply c; caller := k |}.
Definition with_slot c b := {| started := started c; cancelled := cancelled c; slot := b; receipt := receipt c; reply := reply c; caller := caller c |}.
Definition with_receipt c r := {| started := started c; cancelled := cancelled c; slot := slot c; receipt := r; reply := reply c; caller := caller c |}.
Definition with_reply c r := {| started := started c; cancelled := cancelled c; slot := slot c; receipt := receipt c; reply := r; caller := caller c |}.
Definition with_started c := {| started := true; cancelled := cancelled c; slot := slot c; receipt := receipt c; reply := reply c; caller := caller c |}.
Definition with_cancelled c := {| started := started c; cancelled := true; slot := slot c; receipt := receipt c; reply := reply c; caller := caller c |}.

Definition on_call w rid (f : Call → Call) : World := set_table w (pending w) (alter f rid (calls w)).
Definition at_caller w rid (k : Caller) : World := on_call w rid (fun c => with_caller c k).

(** ** Ending the connection *)

(** [get_or_insert]: the first reason stays. *)
Definition record_end w (e : EndReason) : World :=
  set_stop_flags w (stopped w) (stops w) (match first_end w with Some e => Some e | None => Some e end).

(** [PendingResponse::complete] *)
Definition complete w rid (r : Reply) : World :=
  set_table w (delete rid (pending w)) (alter (fun c => with_reply c (Some r)) rid (calls w)).

Definition complete_pending w rid (r : Reply) : World :=
  match pending w !! rid with Some _ => complete w rid r | None => w end.

(** The lock of a [SendState] the writer holds. *)
Definition locked_by (x : Writer) (rid : Z) : bool :=
  match x with WLocked r | WBegun r _ => r =? rid | _ => false end.

(** [record] and the first half of [stop_admission]: admission is over. *)
Definition end_begin w (e : EndReason) : World :=
  let w := record_end w e in
  set_stop_flags (set_core w (deactivate (core w)).1) (stopped w) (S (stops w)) (first_end w).

(** The entries it completes: those of calls that are not sent and whose state is not
    locked by the writer. *)
Definition unsent w (rid : Z) : bool :=
  match calls w !! rid with Some c => negb (locked_by (writing w) rid) && negb (started c) | None => false end.

Fixpoint complete_all w (rids : list Z) (r : Reply) : World :=
  match rids with [] => w | rid :: rids => complete_all (complete w rid r) rids r end.

Definition sweep w : World :=
  complete_all w (filter (fun rid => unsent w rid = true) (map_to_list (pending w)).*1) (inr IpcClosed).

(** The second half of [stop_admission]. *)
Definition stop_finish w : World :=
  let w := sweep w in set_stop_flags w true (pred (stops w)) (first_end w).

Definition fail_pending w : World := complete_all w (map_to_list (pending w)).*1 (inr IpcClosed).

Definition response_failed w rid (e : IpcError) : World := complete_pending w rid (inr (response_failure e)).

(** [ClientConnection::deactivate]; the sweep follows. *)
Definition deactivate_client w : World :=
  let '(w, control) :=
    match disconnect w with
    | NotRequested => match prepare_control_frame (core w) with Ok s => (set_core w s, true) | _ => (w, false) end
    | _ => (w, false)
    end in
  let w := end_begin w LocalClose in
  match disconnect w with
  | NotRequested => set_disconnect w (if control then DisconnectPending else DisconnectFinished)
  | _ => w
  end.

Definition reader_stopped w (peer_end_seen : bool) : World :=
  let w := if peer_end_seen then set_core w (peer_end (core w)).1 else w in
  let w := fail_pending w in
  set_ended_io w true true.

(** ** Callers *)

Definition new_call : Call :=
  {| started := false; cancelled := false; slot := false; receipt := NotSent; reply := None; caller := Submitting |}.

(** [begin_pending]: an entry for the reply, unless admission is over. *)
Definition begin_pending w : World * (Z + IpcError) :=
  if is_deactivated (core w) then (w, inr IpcClosed)
  else
    match checked_add U64_MAX (rid_counter w) 1 with
    | None => (end_begin w ProtocolError, inr Protocol)
    | Some rid => (set_table (set_counter w rid) (<[rid := None]> (pending w)) (<[rid := new_call]> (calls w)), inl rid)
    end.

(** The frame of an inline call, or the failure to encode its control. *)
Definition call_frame (identity : RouteCallIdentity) (method_idx : Z) (data : bytes) (rid : Z) : res IpcError bytes :=
  let? ctrl := map_err (fun _ => Protocol) (encode_call_control identity method_idx) in
  Ok (encode_frame_parts rid FLAG_CALL_V2 [ctrl; data]).

(** [call_inline_controlled] up to [submit]. *)
Definition begin_call w (identity : RouteCallIdentity) (method_idx : Z) (data : bytes) : World :=
  match begin_pending w with
  | (w, inr _) => w
  | (w, inl rid) =>
      match call_frame identity method_idx data rid with
      | Ok _ => w
      | Err e => at_caller w rid (Returning (inr (PreDispatch, e)))
      | Panic => w
      end
  end.

(** [owned_response]; [copied]: whether the copy out of shared memory works. *)
Definition owned_response (r : Reply) (payload : bytes) (copied : bool) : bytes + IpcError :=
  match r with
  | inr e => inr e
  | inl (RInline bytes) => inl bytes
  | inl _ => if copied then inl payload else inr (response_failure Shm)
  end.

Definition prefer_response_failure (e : IpcError) (r : option Reply) : IpcError :=
  match r with Some (inr (ResponseFailure x)) => ResponseFailure x | _ => e end.

(** What becomes of a submission sent after the writer has let its end of the queue go: it
    is dropped, or kept by the channel. *)
Inductive Choice := First | Second.

(** [None]: the caller waits. *)
Definition caller_step w rid (choice : Choice) (payload : bytes) (copied : bool) : option World :=
  c ← calls w !! rid;
  match caller c with
  | Submitting =>
      if stopped w && negb (started c) then Some (at_caller w rid (Submitted (Some IpcClosed)))
      else Some (on_call w rid (fun c => with_caller (with_slot c true) Reserving))
  | Reserving =>
      if stopped w && negb (started c) then Some (at_caller w rid (DropRequest false (Some IpcClosed)))
      else if queue_open w then Some (at_caller w rid Permitted)
      else Some (at_caller w rid (DropRequest false (Some IpcClosed)))
  | Permitted =>
      if stopped w && negb (started c) then Some (at_caller w rid (DropRequest false (Some IpcClosed)))
      else if queue_open w then Some (at_caller (set_queue w (queue w ++ [rid]) (queue_open w)) rid Queued)
      else Some (on_call w rid (fun c => with_caller (match choice with First => with_receipt c SenderDropped | Second => c end) Queued))
  | Queued =>
      if stopped w && locked_by (writing w) rid then None
      else if stopped w && negb (started c) then Some (at_caller w rid (Finishing (Some IpcClosed)))
      else Some (at_caller w rid (AwaitReceipt (stopped w)))
  | AwaitReceipt was_stopped =>
      match receipt c with
      | Sent e => Some (at_caller w rid (Finishing e))
      | SenderDropped => Some (at_caller w rid (DropRequest false (Some IpcClosed)))
      | NotSent =>
          if negb was_stopped && stopped w && negb (locked_by (writing w) rid) then
            Some (at_caller w rid (if started c then AwaitSent else Finishing (Some IpcClosed)))
          else None
      end
  | AwaitSent =>
      match receipt c with
      | Sent e => Some (at_caller w rid (Finishing e))
      | SenderDropped => Some (at_caller w rid (DropRequest false (Some IpcClosed)))
      | NotSent => None
      end
  | Finishing e =>
      if locked_by (writing w) rid then None else Some (at_caller w rid (DropRequest (started c) e))
  | DropRequest finished e =>
      if finished then Some (at_caller w rid (Submitted e))
      else if locked_by (writing w) rid then None
      else Some (on_call w rid (fun c => with_caller (with_slot c false) (Submitted e)))
  | Submitted None => Some (at_caller w rid AwaitReply)
  | Submitted (Some e) =>
      if locked_by (writing w) rid then None
      else Some (at_caller w rid (Returning (inr (dispatch_call_error (prefer_response_failure e (reply c)) (started c)))))
  | AwaitReply =>
      match reply c with
      | Some r =>
          Some (at_caller w rid (Returning (match owned_response r payload copied with
                                            | inl bytes => inl bytes
                                            | inr e => inr (classified_call_error e)
                                            end)))
      | None =>
          if bool_decide (is_Some (pending w !! rid)) || locked_by (writing w) rid then None
          else Some (at_caller w rid (Returning (inr (dispatch_call_error IpcClosed (started c)))))
      end
  | Returning _ | Abandoned =>
      if locked_by (writing w) rid then None
      else
        let outcome := match caller c with Returning o => Some o | _ => None end in
        Some (set_table w (delete rid (pending w)) (alter (fun c => with_caller (with_cancelled c) (Returned outcome)) rid (calls w)))
  | Returned _ => None
  end.

(** The future is dropped where it waits; the request in the slot goes first. *)
Definition caller_drop w rid : option World :=
  c ← calls w !! rid;
  match caller c with
  | Reserving | AwaitReceipt _ | AwaitSent =>
      if locked_by (writing w) rid then None else Some (on_call w rid (fun c => with_caller (with_slot c false) Abandoned))
  | AwaitReply => Some (at_caller w rid Abandoned)
  | _ => None
  end.

(** [Receipt::is_closed]: the caller no longer waits for it. *)
Definition receipt_closed (k : Caller) : bool :=
  match k with Submitting | Reserving | Permitted | Queued | AwaitReceipt _ | AwaitSent | Finishing _ => false | _ => true end.

(** ** The writer *)

Section Connection.
Context (origin : Z) (shm_allowed : bool).

Definition send_receipt w rid (e : option IpcError) : World := on_call w rid (fun c => with_receipt c (Sent e)).

(** The failure of a submission before its frame is handed to the stream. *)
Definition fail_submission w rid (e : IpcError) : World := set_writing (send_receipt w rid (Some e)) WIdle.

(** [process] up to [begin_write]; [allowed]: what the policy of the call says. *)
Definition process_take w (allowed : bool) : option World :=
  match writing w, queue w with
  | WIdle, rid :: rest =>
      c ← calls w !! rid;
      let w := set_queue w rest (queue_open w) in
      if negb (slot c) || receipt_closed (caller c) then Some (on_call w rid (fun c => with_slot (with_receipt c SenderDropped) false))
      else
        let w := on_call w rid (fun c => with_slot c false) in
        if negb (started c) && (cancelled c || is_deactivated (core w)) then Some (fail_submission w rid IpcClosed)
        else if negb allowed then Some (fail_submission w rid LocalCallRejected)
        else Some (set_writing w (WLocked rid))
  | _, _ => None
  end.

(** [begin_write] of its frame. *)
Definition process_begin w (room : bool) : res Empty_set World :=
  match writing w with
  | WLocked rid =>
      let '(s, _, r) := begin_write origin Client (core w) (Business []) room in
      let w := set_core w s in
      match r with
      | Ok (Some b) => Ok (set_writing w (WBegun rid b))
      | Ok None => Panic
      | Err e => Ok (fail_submission w rid (core_error e))
      | Panic => Panic
      end
  | _ => Ok w
  end.

(** A batch that is not written is dropped. *)
Definition discard w (b : WriteBatch) : res Empty_set World :=
  match drop_batch (core w) b with Ok (s, _) => Ok (set_core w s) | _ => Panic end.

(** [prepare] and [begin_io]: from here on the call is sent; [room] for the bytes of the
    releases and the frame. *)
Definition process_io w (room : bool) : res Empty_set World :=
  match writing w with
  | WBegun rid b =>
      if negb (bool_decide (wb_prefix b = [])) && negb room then
        let? w := discard (end_begin w ProtocolError) b in Ok (fail_submission w rid Io)
      else
        match begin_io (core w) b with
        | Ok (s, b) => Ok (set_writing (publish_call (on_call (set_core w s) rid with_started) rid) (WWriting (Some rid) b))
        | Err e => let? w := discard w b in Ok (fail_submission w rid (core_error e))
        | Panic => Panic
        end
  | _ => Ok w
  end.

(** [write_batch], a frame at a time. *)
Definition write_frame w : res Empty_set World :=
  match writing w with
  | WWriting owner b =>
      match frame_completed (core w) b with
      | Ok (s, b) => Ok (set_writing (set_core w s) (WWriting owner b))
      | _ => Panic
      end
  | _ => Ok w
  end.

Definition owner_receipt w (owner : option Z) (e : option IpcError) : World :=
  match owner with Some rid => send_receipt w rid e | None => w end.

(** The control frame of a batch goes when the batch does. *)
Definition release_control w (b : WriteBatch) : res Empty_set World :=
  if wb_control b then match drop_control (core w) with Ok s => Ok (set_core w s) | _ => Panic end else Ok w.

Definition write_flush w : res Empty_set World :=
  match writing w with
  | WWriting owner b =>
      match flush_completed (core w) b with
      | Ok s => let? w := release_control (set_core w s) b in Ok (set_writing (owner_receipt w owner None) WIdle)
      | _ => Panic
      end
  | _ => Ok w
  end.

(** [report_io] and [write_failed]: the error of this submission goes out before the
    connection ends. *)
Definition write_error w : res Empty_set World :=
  match writing w with
  | WWriting owner b =>
      let w := end_begin (owner_receipt w owner (Some Io)) (IoError false) in
      let '(s, b', _) := write_failed (core w) b in
      let? w := release_control (set_core w s) b in
      let? w := discard w b' in
      Ok (set_writing w WIdle)
  | _ => Ok w
  end.

(** [take_disconnect] and the frame it sends; [rooms]: for the prefix and for the bytes. *)
Definition write_disconnect w (room1 room2 : bool) : res Empty_set World :=
  match writing w, disconnect w with
  | WIdle, DisconnectPending =>
      if negb (bool_decide (pending w = ∅)) then Ok w
      else
        let w := set_disconnect w DisconnectFinished in
        let '(s, _, r) := begin_write origin Client (core w) (Control {| cf_origin := origin |}) room1 in
        let w := set_core w s in
        match r with
        | Ok (Some b) =>
            if negb (bool_decide (wb_prefix b = [])) && negb room2 then
              let? w := discard (end_begin w ProtocolError) b in release_control w b
            else
              match begin_io (core w) b with
              | Ok (s, b) => Ok (set_writing (set_core w s) (WWriting None b))
              | Err _ => let? w := discard w b in release_control w b
              | Panic => Panic
              end
        | Ok None => Ok w
        | Err _ => match drop_control (core w) with Ok s => Ok (set_core w s) | _ => Panic end
        | Panic => Panic
        end
  | _, _ => Ok w
  end.

(** The releases that wait, where there is nothing else to write. *)
Definition write_releases w (room1 room2 : bool) : res Empty_set World :=
  match writing w with
  | WIdle =>
      let '(s, _, r) := begin_write origin Client (core w) Releases room1 in
      let w := set_core w s in
      match r with
      | Ok (Some b) =>
          if negb (bool_decide (wb_prefix b = [])) && negb room2 then
            let? w := discard (end_begin w ProtocolError) b in Ok (end_begin w ProtocolError)
          else
            match begin_io (core w) b with
            | Ok (s, b) => Ok (set_writing (set_core w s) (WWriting None b))
            | Err _ => let? w := discard w b in Ok (end_begin w ProtocolError)
            | Panic => Panic
            end
      | Ok None => Ok w
      | Err (WriterBroken | PeerEnded | Closed) => Ok w
      | Err _ => Ok (end_begin w ProtocolError)
      | Panic => Panic
      end
  | _ => Ok w
  end.

(** The receiver of the queue goes, and the submissions in it. *)
Definition drop_queue w : World :=
  set_queue (set_table w (pending w)
    (foldr (fun rid cs => alter (fun c => with_receipt c SenderDropped) rid cs) (calls w) (queue w))) [] false.

(** The end of the loop of [run], and the drop of its task. *)
Definition writer_end w : option (res Empty_set World) :=
  match writing w with
  | WIdle =>
      let '(s, closed) := if bool_decide (pending w = ∅) then try_close (core w) else (core w, false) in
      let w := set_core w s in
      if closed || read_stopped w then
        let w := if closed then set_ended_io w (read_stopped w) true else w in
        let w := set_writing (drop_queue w) WEnded in
        Some (match disconnect w with
              | DisconnectPending =>
                  match drop_control (core w) with
                  | Ok s => Ok (set_disconnect (set_core w s) DisconnectFinished)
                  | _ => Panic
                  end
              | _ => Ok (set_disconnect w DisconnectFinished)
              end)
      else None
  | _ => None
  end.

(** ** The reader *)

(** How mapping the block of a reply ends. *)
Inductive Mapping := Mapped | BadDescriptor | CannotOpen.

Definition decode_response_descriptor w (payload : bytes) : World * res IpcError (BuddyPayload * Z) :=
  match decode_buddy_payload payload with
  | Ok x => (w, Ok x)
  | Err e => (match e with InvalidValue "loan id" _ => end_begin w ProtocolError | _ => w end, Err (DecodeFailed e))
  | Panic => (w, Panic)
  end.

(** [Drop] of an admitted remote read. *)
Definition end_read w (loan_id : Z) : res Empty_set World :=
  match drop_remote (core w) loan_id with Ok s => Ok (set_core w s) | _ => Panic end.

(** The reply a control says; what it refuses carries no data. *)
Definition control_reply (r : ReplyControl) (data : ResponseData) : Reply :=
  match r with
  | RSuccess => inl data
  | RouteNotFound route => inr (NoSuchRoute route)
  | RError e => inr (CrmError e)
  end.

Definition decode_response w (hdr : FrameHeader) (payload : bytes) (room : bool) (mapping : Mapping) : res Empty_set (World * Reply) :=
  if negb (is_reply_v2 (flags hdr)) then Ok (w, inr Protocol)
  else if is_buddy (flags hdr) then
    if negb shm_allowed then Ok (w, inr Protocol)
    else
      let '(w, d) := decode_response_descriptor w payload in
      match d with
      | Ok (descriptor, consumed) =>
          let '(s, _, r) := admit_remote_loan (core w) (bp_loan_id descriptor) room in
          let w := set_core w s in
          match r with
          | Err e => Ok (end_begin w ProtocolError, inr (core_error e))
          | Panic => Panic
          | Ok _ =>
              match mapping with
              | BadDescriptor => let? w := end_read w (bp_loan_id descriptor) in Ok (w, inr Protocol)
              | CannotOpen => let? w := end_read w (bp_loan_id descriptor) in Ok (w, inr Shm)
              | Mapped =>
                  match decode_reply_control payload consumed with
                  | Ok (RSuccess, _) => Ok (w, inl RShm)
                  | Ok (c, _) => let? w := end_read w (bp_loan_id descriptor) in Ok (w, control_reply c RShm)
                  | Err e => let? w := end_read w (bp_loan_id descriptor) in Ok (w, inr (DecodeFailed e))
                  | Panic => Panic
                  end
              end
          end
      | Err e => Ok (w, inr e)
      | Panic => Panic
      end
  else
    match decode_reply_control payload 0 with
    | Ok (c, consumed) => Ok (w, control_reply c (RInline (drop (Z.to_nat consumed) payload)))
    | Err e => Ok (w, inr (DecodeFailed e))
    | Panic => Panic
    end.

(** What the registry of replies answers: whether it admits the reply ([Some capacity] where
    it does not), what feeding a chunk gives, and whether the complete reply is handed over. *)
Record Assembling := { refused : option bool; fed : option bool; handed : bool }.

Definition receive_chunk w rid (payload : bytes) (a : Assembling) : World * (option ResponseData + IpcError) :=
  match decode_reply_chunk_meta payload 0 with
  | Ok (total_size, total_chunks, index, _) =>
      let '(w, early) :=
        if index =? 0 then
          match refused a with
          | Some capacity => (w, Some (Chunk capacity))
          | None => (set_table w (alter (fun _ => Some (total_size, total_chunks)) rid (pending w)) (calls w), None)
          end
        else
          (w, if bool_decide (mjoin (pending w !! rid) = Some (total_size, total_chunks)) then None else Some (Chunk false)) in
      (w, match early, fed a with
          | Some e, _ => inr e
          | None, None => inr (Chunk false)
          | None, Some false => inl None
          | None, Some true => if handed a then inl (Some RHandle) else inr (Chunk false)
          end)
  | _ => (w, inr (Chunk false))
  end.

(** The errors of a reply that leave the call without an answer. *)
Definition unreadable (r : Reply) : option IpcError :=
  match r with inr (DecodeFailed e) => Some (DecodeFailed e) | inr Protocol => Some Protocol | inr Shm => Some Shm | _ => None end.

(** One frame whose payload has been read. *)
Definition on_frame w (hdr : FrameHeader) (payload : bytes) (room : bool) (mapping : Mapping) (a : Assembling) : res Empty_set World :=
  let rid := request_id hdr in
  if bool_decide (head payload = Some (byte.of_Z (as_byte Release))) && is_ctrl (flags hdr) then
    let '(s, _, e) := receive_release Client (core w) hdr payload in
    let w := set_core w s in
    Ok (match e with Some _ => end_begin w ProtocolError | None => w end)
  else if is_signal_flag (flags hdr) then
    Ok (if bool_decide (payload = [Byte.x02]) then w
        else if bool_decide (payload = [Byte.x09]) then end_begin w LocalClose
        else end_begin w ProtocolError)
  else if negb (is_response (flags hdr)) then Ok (response_failed w rid Protocol)
  else if is_ctrl (flags hdr) then Ok (complete_pending w rid (inl (RInline payload)))
  else if is_chunked (flags hdr) then
    match pending w !! rid with
    | None => Ok w
    | Some _ =>
        let '(w, r) := receive_chunk w rid payload a in
        Ok (match r with
            | inl (Some response) => complete_pending w rid (inl response)
            | inl None => w
            | inr (Chunk true) => complete_pending w rid (inr (response_failure (Chunk true)))
            | inr e => response_failed w rid e
            end)
    end
  else
    let? '(w, r) := decode_response w hdr payload room mapping in
    Ok (match unreadable r with Some e => response_failed w rid e | None => complete_pending w rid r end).

(** The block of a frame that is skipped is admitted and given back. *)
Definition skip_block w (hdr : FrameHeader) (payload : bytes) (room : bool) : res Empty_set World :=
  if is_buddy (flags hdr) && shm_allowed && (BUDDY_PAYLOAD_SIZE <=? blen payload) then
    let '(w, d) := decode_response_descriptor w (take (Z.to_nat BUDDY_PAYLOAD_SIZE) payload) in
    match d with
    | Ok (descriptor, _) =>
        let '(s, _, r) := admit_remote_loan (core w) (bp_loan_id descriptor) room in
        let w := set_core w s in
        match r with
        | Ok _ => end_read w (bp_loan_id descriptor)
        | Err _ => Ok (end_begin w ProtocolError)
        | Panic => Panic
        end
    | Err _ => Ok w
    | Panic => Panic
    end
  else Ok w.

(** A frame whose payload finds no memory. *)
Definition on_oversized w (hdr : FrameHeader) (payload : bytes) (room : bool) : res Empty_set World :=
  let? w := skip_block w hdr payload room in
  Ok (response_failed w (request_id hdr) Io).

(** A header that cannot be one. *)
Definition framing_failed w : World := fail_pending (end_begin w ProtocolError).

(** ** Runs *)

(** What else happens to the core: reads and reclamations end, and loans of other calls are
    prepared and dropped. *)
Inductive CoreOp := Settle (n : Z) | EndRead (loan_id : Z) | PrepareLoan (handle seq : Z) (room1 room2 : bool) | DropLoan (id : Z).

Definition core_op (s : State) (op : CoreOp) : option State :=
  match op with
  | Settle n => match settle_reclaims s n with Ok s => Some s | _ => None end
  | EndRead id => match drop_remote s id with Ok s => Some s | _ => None end
  | PrepareLoan h sq r1 r2 => Some (prepare_loan_from s h sq r1 r2).1.1.1
  | DropLoan id => Some (drop_prepared s id).1
  end.

Inductive Step :=
| SCall (identity : RouteCallIdentity) (method_idx : Z) (data : bytes)
| SCaller (rid : Z) (choice : Choice) (payload : bytes) (copied : bool)
| SDrop (rid : Z)
| STake (allowed : bool)
| SBegin (room : bool)
| SIo (room : bool)
| SFrame
| SFlush
| SError
| SDisconnect (room1 room2 : bool)
| SReleases (room1 room2 : bool)
| SWriterEnd
| SReceive (hdr : FrameHeader) (payload : bytes) (room : bool) (mapping : Mapping) (a : Assembling)
| SOversized (hdr : FrameHeader) (payload : bytes) (room : bool)
| SMalformed
| SReaderStop (peer_end_seen : bool)
| SDeactivate
| SEnd (e : EndReason)
| SSweep
| SCore (op : CoreOp).

(** [Err tt]: the step cannot be taken here. *)
Definition taken (o : option World) : res unit World := match o with Some w => Ok w | None => Err tt end.
Definition ran (r : res Empty_set World) : res unit World := map_err (fun _ => tt) r.

Definition call_step w (st : Step) : res unit World :=
  match st with
  | SCall i m d => Ok (begin_call w i m d)
  | SCaller rid choice payload copied => taken (caller_step w rid choice payload copied)
  | SDrop rid => taken (caller_drop w rid)
  | STake allowed => taken (process_take w allowed)
  | SBegin room => ran (process_begin w room)
  | SIo room => ran (process_io w room)
  | SFrame => ran (write_frame w)
  | SFlush => ran (write_flush w)
  | SError => ran (write_error w)
  | SDisconnect r1 r2 => ran (write_disconnect w r1 r2)
  | SReleases r1 r2 => ran (write_releases w r1 r2)
  | SWriterEnd => match writer_end w with Some r => ran r | None => Err tt end
  | SReceive hdr payload room m a => if read_stopped w then Err tt else ran (on_frame w hdr payload room m a)
  | SOversized hdr payload room => if read_stopped w then Err tt else ran (on_oversized w hdr payload room)
  | SMalformed => if read_stopped w then Err tt else Ok (framing_failed w)
  | SReaderStop peer =>
      (* the reader has ended the connection itself before *)
      if stopped w && is_deactivated (core w) then Ok (reader_stopped w peer) else Err tt
  | SDeactivate => Ok (deactivate_client w)
  | SEnd e => Ok (end_begin w e)
  | SSweep => match stops w with O => Err tt | S _ => Ok (stop_finish w) end
  | SCore op => taken (set_core w <$> core_op (core w) op)
  end.

Fixpoint call_run w (l : list Step) : res unit World :=
  match l with [] => Ok w | st :: l => let? w := call_step w st in call_run w l end.
End Connection.

(** A client that has finished its handshake. *)
Definition connected : World :=
  {| core := set_handshake State_default; pending := ∅; calls := ∅; rid_counter := 0; queue := []; queue_open := true;
     writing := WIdle; disconnect := NotRequested; stopped := false; stops := 0; read_stopped := false; aborted := false;
     first_end := None; publications := [] |}.
