(* ===== verification/ClientCallsInv.v ===== *)
(** The invariant of the calls of a client, and that every step keeps it. *)

From S2P Require Import Prelude.
From S2P Require Import Frame.
From S2P Require Import Codec.
From S2P Require Import Control.
From S2P Require Import Release.
From S2P Require Import Connection.
From S2P Require Import ClientCalls.

(** ** The core never becomes active again *)

Notation mono s s' := (deactivated s = true → deactivated s' = true).

Lemma deactivate_stops s : deactivated (deactivate s).1 = true.
Proof. done. Qed.

Lemma begin_section_mono origin side s req room s' b : begin_section origin side s req room = Ok (Some (s', b)) → deactivated s' = deactivated s.
Proof.
  unfold begin_section. cbn zeta. intros H. repeat (apply bind_ok in H as (? & _ & H)). destruct (_ && _) in H; [done|].
  destruct (_ ≫= _) in H; [|done]. apply bind_ok in H as (? & _ & [= <- _]). done.
Qed.

Lemma begin_write_mono origin side s req room : mono s (begin_write origin side s req room).1.1.
Proof.
  unfold begin_write. destruct (begin_section _ _ _ _ _) as [[[s' b]|]|e|] eqn:E; cbn; [|done| |done].
  - by rewrite (begin_section_mono _ _ _ _ _ _ _ E).
  - by destruct (deactivates e).
Qed.

Lemma begin_io_mono s b s' b' : begin_io s b = Ok (s', b') → mono s s'.
Proof.
  unfold begin_io. intros H. do 6 (apply bind_ok in H as (? & _ & H)). apply bind_ok in H as ([p q] & _ & [= <- _]). done.
Qed.

Lemma drop_batch_mono s b s' r : drop_batch s b = Ok (s', r) → mono s s'.
Proof.
  unfold drop_batch. destruct (wb_finished b); [by intros [= <- _]|]. cbn zeta. intros H. apply bind_ok in H as (? & _ & H).
  destruct (wb_attempted b); [by injection H as <- _|]. destruct (_ && _); [|by injection H as <- _].
  by apply bind_ok in H as (? & _ & [= <- _]).
Qed.

Lemma frame_completed_mono s b s' b' : frame_completed s b = Ok (s', b') → mono s s'.
Proof.
  unfold frame_completed. cbn zeta. intros H. apply bind_ok in H as (? & _ & H). destruct (_ =? 0); [|by injection H as <- _].
  by apply bind_ok in H as (? & _ & [= <- _]).
Qed.

Lemma flush_completed_mono s b s' : flush_completed s b = Ok s' → mono s s'.
Proof. unfold flush_completed. intros H. do 2 (apply bind_ok in H as (? & _ & H)). by injection H as <-. Qed.

Lemma drop_control_mono s s' : drop_control s = Ok s' → mono s s'.
Proof. unfold drop_control. intros H. by apply bind_ok in H as (? & _ & [= <-]). Qed.

Lemma prepare_control_mono s s' : prepare_control_frame s = Ok s' → mono s s'.
Proof. unfold prepare_control_frame. intros H. by apply bind_ok in H as (? & _ & [= <-]). Qed.

Lemma drop_remote_mono s id s' : drop_remote s id = Ok s' → mono s s'.
Proof. unfold drop_remote. intros H. by apply bind_ok in H as (? & _ & [= <-]). Qed.

Lemma admit_remote_mono s id room : mono s (admit_remote_loan s id room).1.1.
Proof.
  unfold admit_remote_loan. destruct (admit_section s id room) as [s'|e|] eqn:E; [|by destruct e|done].
  unfold admit_section in E. repeat (apply bind_ok in E as (? & _ & E)). destruct (_ ≫= _); [|done].
  by apply bind_ok in E as (? & _ & [= <-]).
Qed.

Lemma receive_release_mono side s hdr payload : mono s (receive_release side s hdr payload).1.1.
Proof.
  unfold receive_release. destruct (decode_release_frame _ _ _ _); [|done|done].
  destruct (settle_ids _ _) as [[q records] [e|]]; done.
Qed.

Lemma try_close_mono s : mono s (try_close s).1.
Proof. unfold try_close. cbn. by case_match. Qed.

Lemma prepare_loan_mono s h sq r1 r2 : mono s (prepare_loan_from s h sq r1 r2).1.1.1.
Proof.
  unfold prepare_loan_from, prepare_section. cbn zeta. destruct (check_business s ;? _) as [id|e|]; cbn; [done|by destruct e|done].
Qed.

Lemma core_op_mono s op s' : core_op s op = Some s' → mono s s'.
Proof.
  destruct op as [n|id|h sq r1 r2|id]; cbn [core_op].
  - unfold settle_reclaims. destruct (guard_panic _); cbn; [|done..]. by intros [= <-].
  - destruct (drop_remote s id) eqn:E; [|done..]. intros [= <-]. by eapply drop_remote_mono.
  - intros [= <-]. apply prepare_loan_mono.
  - intros [= <-]. unfold drop_prepared. by destruct (_ !! id).
Qed.

(** ** One call *)

(** The call is not in the queue yet. *)
Definition early (k : Caller) : bool := match k with Submitting | Reserving | Permitted => true | _ => false end.
(** Whether the call is sent is decided. *)
Definition decided (k : Caller) : bool :=
  match k with DropRequest true _ | Submitted _ | AwaitReply | Returning _ | Abandoned | Returned _ => true | _ => false end.
(** The caller has been told that the call is sent. *)
Definition acknowledged (k : Caller) : bool :=
  match k with
  | Finishing None | DropRequest _ None | DropRequest true _ | Submitted None | AwaitReply | AwaitReceipt true | AwaitSent => true
  | _ => false
  end.
Definition caller_outcome (k : Caller) : option Outcome := match k with Returning o => Some o | Returned o => o | _ => None end.

Definition no_route (e : IpcError) : bool := match e with NoSuchRoute _ => true | _ => false end.
(** The errors a reply may be: none that tells of a failure before dispatch, except that the
    peer has no such route. *)
Definition reply_ok (r : Reply) : bool :=
  match r with inl _ => true | inr e => no_route e || match call_error_phase e with DispatchUncertain => true | _ => false end end.
(** A failure said to be before dispatch is one of a call that is not sent. *)
Definition outcome_ok (sent : bool) (o : Outcome) : Prop :=
  match o with inr (PreDispatch, e) => no_route e = true ∨ sent = false | _ => True end.

(** [q]: in the queue; [l]: locked by the writer; [wr]: being written; [p]: pending; [pb]:
    published. *)
Record call_ok (q l wr p pb : bool) (c : Call) : Prop := {
  k_started : started c = true → slot c = false ∧ q = false ∧ l = false;
  k_locked : l = true → slot c = false ∧ q = false ∧ receipt c = NotSent ∧ started c = false;
  k_writing : wr = true → started c = true ∧ receipt c = NotSent;
  k_receipt : started c = true → receipt c = NotSent → wr = true;
  k_queued : q = true → receipt c = NotSent;
  k_early : early (caller c) = true → started c = false ∧ receipt c = NotSent ∧ q = false ∧ l = false;
  k_submitting : caller c = Submitting → slot c = false;
  k_decided : decided (caller c) = true → slot c = false ∧ l = false;
  k_sent : receipt c = Sent None → started c = true;
  k_ack : acknowledged (caller c) = true → started c = true;
  k_reply : reply c = None → (∀ o, caller c ≠ Returned o) → p = true;
  k_pending : p = true → reply c = None;
  k_reply_ok : ∀ r, reply c = Some r → reply_ok r = true;
  k_outcome : ∀ o, caller_outcome (caller c) = Some o → outcome_ok (started c) o;
  k_published : started c = pb }.

Definition in_queue w rid : bool := bool_decide (rid ∈ queue w).
Definition written_by (x : Writer) rid : bool := match x with WWriting (Some r) _ => r =? rid | _ => false end.
Definition is_pending w rid : bool := bool_decide (is_Some (pending w !! rid)).
Definition is_published w rid : bool := bool_decide (rid ∈ publications w).

Definition call_in w rid c : Prop :=
  call_ok (in_queue w rid) (locked_by (writing w) rid) (written_by (writing w) rid) (is_pending w rid) (is_published w rid) c.

Record inv w : Prop := {
  v_calls : ∀ rid c, calls w !! rid = Some c → call_in w rid c ∧ rid <= rid_counter w;
  v_known : ∀ rid, in_queue w rid || locked_by (writing w) rid || written_by (writing w) rid || is_pending w rid || is_published w rid = true →
            is_Some (calls w !! rid);
  v_queue : NoDup (queue w);
  v_publications : NoDup (publications w);
  v_stopped : read_stopped w = true → pending w = ∅ ∧ deactivated (core w) = true ∧ stopped w = true;
  v_open : queue_open w = false ↔ writing w = WEnded;
  v_closed : queue_open w = false → queue w = [] }.

(** ** Changes that leave the calls alone *)

Record quiet w w' : Prop := {
  q_calls : calls w' = calls w;
  q_pending : ∀ rid, is_Some (pending w' !! rid) ↔ is_Some (pending w !! rid);
  q_counter : rid_counter w' = rid_counter w;
  q_queue : queue w' = queue w;
  q_open : queue_open w' = queue_open w;
  q_writing : writing w' = writing w;
  q_publications : publications w' = publications w;
  q_read : read_stopped w' = read_stopped w;
  q_core : mono (core w) (core w');
  q_stopped : stopped w = true → stopped w' = true }.

Lemma call_quiet_refl w : quiet w w.
Proof. by split. Qed.
Lemma call_quiet_trans w1 w2 w3 : quiet w1 w2 → quiet w2 w3 → quiet w1 w3.
Proof. intros [] []. split; try congruence; [|auto..]. intros rid. by rewrite q_pending1. Qed.

Lemma inv_quiet w w' : quiet w w' → inv w → inv w'.
Proof.
  intros [Hc Hp Hn Hq Ho Hw Hpb Hr Hm Hs] Hi. assert (HP : ∀ rid, is_pending w' rid = is_pending w rid).
  { intros rid. unfold is_pending. apply bool_decide_ext, Hp. }
  split.
  - intros rid c. rewrite Hc, Hn. unfold call_in, in_queue, is_published. rewrite Hq, Hw, HP, Hpb. apply Hi.
  - intros rid. rewrite HP. unfold in_queue, is_published. rewrite Hq, Hw, Hpb, Hc. apply Hi.
  - rewrite Hq. apply Hi.
  - rewrite Hpb. apply Hi.
  - rewrite Hr. intros H. destruct (v_stopped _ Hi H) as (He & Hd & Ht). split_and!; auto.
    apply map_empty. intros rid. apply eq_None_not_Some. rewrite Hp, He. by intros [? ?].
  - rewrite Ho, Hw. apply Hi.
  - rewrite Ho, Hq. apply Hi.
Qed.

Lemma quiet_core w s : mono (core w) s → quiet w (set_core w s).
Proof. by split. Qed.

Lemma quiet_end w e : quiet w (end_begin w e).
Proof. by split. Qed.

Lemma quiet_disconnect w d : quiet w (set_disconnect w d).
Proof. by split. Qed.

Lemma quiet_deactivate w : quiet w (deactivate_client w).
Proof.
  unfold deactivate_client.
  assert (H : ∀ w1 (b : bool), quiet w w1 →
    quiet w (match disconnect (end_begin w1 LocalClose) with
             | NotRequested => set_disconnect (end_begin w1 LocalClose) (if b then DisconnectPending else DisconnectFinished)
             | _ => end_begin w1 LocalClose end)).
  { intros w1 b H1. pose proof (call_quiet_trans _ _ _ H1 (quiet_end w1 LocalClose)) as H2. destruct (disconnect _); [|done..].
    eapply call_quiet_trans; [exact H2|apply quiet_disconnect]. }
  destruct (disconnect w); [|apply (H w false), call_quiet_refl..].
  destruct (prepare_control_frame (core w)) as [s| |] eqn:E; [|apply (H w false), call_quiet_refl..].
  apply (H _ true), quiet_core. by eapply prepare_control_mono.
Qed.

(** ** Changes of one call *)

Definition same_flags w w' rid : Prop :=
  in_queue w' rid = in_queue w rid ∧ locked_by (writing w') rid = locked_by (writing w) rid
  ∧ written_by (writing w') rid = written_by (writing w) rid ∧ is_pending w' rid = is_pending w rid
  ∧ is_published w' rid = is_published w rid.

Lemma inv_one w w' rid c c' :
  inv w → calls w !! rid = Some c → calls w' = <[rid := c']> (calls w) → rid_counter w' = rid_counter w →
  (∀ r, r ≠ rid → same_flags w w' r) → call_in w' rid c' → NoDup (queue w') → NoDup (publications w') →
  (read_stopped w' = true → pending w' = ∅ ∧ deactivated (core w') = true ∧ stopped w' = true) →
  (queue_open w' = false ↔ writing w' = WEnded) → (queue_open w' = false → queue w' = []) → inv w'.
Proof.
  intros Hi Hc Hcs Hn Hf Hok Hq Hpb Hr Ho Hcl. split; [| |done..].
  - intros r x. rewrite Hcs, Hn. destruct (decide (r = rid)) as [->|Hne].
    + rewrite lookup_insert_eq. intros [= <-]. split; [done|]. by apply (v_calls _ Hi rid c).
    + rewrite lookup_insert_ne by done. intros Hx. destruct (Hf r Hne) as (E1 & E2 & E3 & E4 & E5).
      unfold call_in. rewrite E1, E2, E3, E4, E5. by apply Hi.
  - intros r Hr'. rewrite Hcs. destruct (decide (r = rid)) as [->|Hne]; [by rewrite lookup_insert_eq|].
    rewrite lookup_insert_ne by done. destruct (Hf r Hne) as (E1 & E2 & E3 & E4 & E5). rewrite E1, E2, E3, E4, E5 in Hr'. by apply Hi.
Qed.

Lemma alter_at (f : Call → Call) rid (cs : gmap Z Call) c : cs !! rid = Some c → alter f rid cs = <[rid := f c]> cs.
Proof.
  intros H. apply map_eq. intros r. destruct (decide (r = rid)) as [->|Hne]; [by rewrite lookup_alter_eq, lookup_insert_eq, H|].
  by rewrite lookup_alter_ne, lookup_insert_ne.
Qed.

Lemma inv_on_call w rid c f : inv w → calls w !! rid = Some c → call_in w rid (f c) → inv (on_call w rid f).
Proof.
  intros Hi Hc Hok. eapply (inv_one w _ rid c (f c)); [done|done| |done| | |apply Hi..].
  - cbn. by apply alter_at.
  - by intros r Hne.
  - exact Hok.
Qed.

Lemma is_pending_delete w cs rid r : is_pending (set_table w (delete rid (pending w)) cs) r = negb (bool_decide (r = rid)) && is_pending w r.
Proof.
  unfold is_pending. cbn. destruct (decide (r = rid)) as [->|Hne].
  - rewrite lookup_delete_eq, bool_decide_false by (by intros [? ?]). by rewrite bool_decide_true.
  - rewrite lookup_delete_ne by done. by rewrite (bool_decide_false (r = rid)).
Qed.

Lemma delete_stopped w rid (H : read_stopped w = true → pending w = ∅ ∧ deactivated (core w) = true ∧ stopped w = true) :
  read_stopped w = true → delete rid (pending w) = ∅ ∧ deactivated (core w) = true ∧ stopped w = true.
Proof. intros Hr. destruct (H Hr) as (-> & ? & ?). split; [|done]. apply delete_empty. Qed.

Lemma inv_remove w rid c f :
  inv w → calls w !! rid = Some c →
  call_ok (in_queue w rid) (locked_by (writing w) rid) (written_by (writing w) rid) false (is_published w rid) (f c) →
  inv (set_table w (delete rid (pending w)) (alter f rid (calls w))).
Proof.
  intros Hi Hc Hok. eapply (inv_one w _ rid c (f c)); [done|done| |done| | |apply Hi|apply Hi| |apply Hi..].
  - cbn. by apply alter_at.
  - intros r Hne. split_and!; try done. rewrite is_pending_delete, bool_decide_false by done. done.
  - unfold call_in. rewrite is_pending_delete, bool_decide_true by done. exact Hok.
  - cbn. apply delete_stopped, Hi.
Qed.

Lemma inv_complete w rid r : inv w → reply_ok r = true → inv (complete w rid r).
Proof.
  intros Hi Hr. unfold complete. destruct (calls w !! rid) as [c|] eqn:Hc.
  - apply (inv_remove w rid c (fun c => with_reply c (Some r))); [done..|]. destruct (v_calls _ Hi rid c Hc) as [[] _]. split; cbn; try done; [auto..|].
    by intros ? [= <-].
  - assert (pending w !! rid = None) as Hp.
    { apply eq_None_not_Some. intros Hs. destruct (v_known _ Hi rid) as [x Hx]; [|congruence].
      unfold is_pending. rewrite (bool_decide_true (is_Some _)) by done. by rewrite !orb_true_r. }
    rewrite delete_id by done. assert (alter (fun c => with_reply c (Some r)) rid (calls w) = calls w) as ->.
    { apply map_eq. intros x. destruct (decide (x = rid)) as [->|]; [by rewrite lookup_alter_eq, Hc|by rewrite lookup_alter_ne]. }
    apply (inv_quiet w); [|done]. by split.
Qed.

Lemma inv_complete_pending w rid r : inv w → reply_ok r = true → inv (complete_pending w rid r).
Proof. intros. unfold complete_pending. destruct (_ !! rid); [by apply inv_complete|done]. Qed.

Lemma inv_complete_all w rids r : inv w → reply_ok r = true → inv (complete_all w rids r).
Proof. revert w. induction rids as [|rid rids IH]; intros w Hi Hr; cbn; [done|]. apply IH; [by apply inv_complete|done]. Qed.

Lemma response_failure_ok e : reply_ok (inr (response_failure e)) = true.
Proof. by destruct e. Qed.

(** ** Ends *)

Lemma complete_all_core w rids r :
  core (complete_all w rids r) = core w ∧ stopped (complete_all w rids r) = stopped w ∧ read_stopped (complete_all w rids r) = read_stopped w
  ∧ writing (complete_all w rids r) = writing w ∧ queue_open (complete_all w rids r) = queue_open w.
Proof. revert w. induction rids as [|rid rids IH]; intros w; [done|]. exact (IH (complete w rid r)). Qed.

Lemma complete_all_pending w rids r :
  pending (complete_all w rids r) = foldl (fun p rid => delete rid p) (pending w) rids.
Proof. revert w. induction rids as [|rid rids IH]; intros w; [done|]. cbn. by rewrite IH. Qed.

Lemma delete_keys {A} (rids : list Z) (p : gmap Z A) r : foldl (fun p rid => delete rid p) p rids !! r = if decide (r ∈ rids) then None else p !! r.
Proof.
  revert p. induction rids as [|rid rids IH]; intros p; cbn; [done|]. rewrite IH.
  destruct (decide (r ∈ rids)) as [Hin|Hin].
  - rewrite decide_True; [done|by right].
  - destruct (decide (r = rid)) as [->|Hne].
    + rewrite lookup_delete_eq, decide_True; [done|by left].
    + rewrite lookup_delete_ne, decide_False; [done| |done]. intros [?|?]%elem_of_cons; done.
Qed.

Lemma fail_pending_empty w : pending (fail_pending w) = ∅.
Proof.
  unfold fail_pending. rewrite complete_all_pending. apply map_empty. intros r. rewrite delete_keys. case_decide as Hin; [done|].
  destruct (pending w !! r) as [x|] eqn:E; [|done]. destruct Hin. apply list_elem_of_fmap. exists (r, x). split; [done|].
  by apply elem_of_map_to_list.
Qed.

Lemma inv_stop_finish w : inv w → inv (stop_finish w).
Proof.
  intros Hi. unfold stop_finish. apply (inv_quiet (sweep w)); [by split|]. by apply inv_complete_all.
Qed.

Lemma inv_reader_stopped w peer : inv w → stopped w = true → deactivated (core w) = true → inv (reader_stopped w peer).
Proof.
  intros Hi Hs Hd. unfold reader_stopped. set (w1 := if peer then _ else w).
  assert (H1 : inv w1 ∧ stopped w1 = true ∧ deactivated (core w1) = true).
  { subst w1. destruct peer; [|done]. split; [|done]. apply (inv_quiet w); [|done]. by apply quiet_core. }
  destruct H1 as (Hi1 & Hs1 & Hd1). assert (Hi2 : inv (fail_pending w1)) by (by apply inv_complete_all).
  destruct (complete_all_core w1 (map_to_list (pending w1)).*1 (inr IpcClosed)) as (Ec & Es & _). fold (fail_pending w1) in Ec, Es.
  destruct Hi2. split; try done. intros _. split_and!; [apply fail_pending_empty|cbn; congruence..].
Qed.

Lemma inv_framing w : inv w → inv (framing_failed w).
Proof. intros Hi. apply inv_complete_all; [|done]. apply (inv_quiet w); [apply quiet_end|done]. Qed.

(** ** The queue goes *)

Lemma drop_queue_lookup (q : list Z) (cs : gmap Z Call) r :
  foldr (fun rid cs => alter (fun c => with_receipt c SenderDropped) rid cs) cs q !! r
  = (if decide (r ∈ q) then fun c => with_receipt c SenderDropped else id) <$> cs !! r.
Proof.
  induction q as [|rid q IH]; cbn [foldr].
  - rewrite decide_False by (by intros ?%elem_of_nil). by destruct (cs !! r).
  - destruct (decide (r = rid)) as [->|Hne].
    + rewrite lookup_alter_eq, IH. destruct (decide (rid ∈ rid :: q)) as [_|Hn]; [|destruct Hn; by left]. by destruct (decide (rid ∈ q)), (cs !! rid).
    + rewrite lookup_alter_ne, IH by done. destruct (decide (r ∈ q)) as [Hin|Hin].
      * by rewrite decide_True by (by right).
      * rewrite decide_False; [done|]. intros [?|?]%elem_of_cons; done.
Qed.

Lemma inv_drop_queue w : inv w → writing w = WIdle → inv (set_writing (drop_queue w) WEnded).
Proof.
  intros Hi Hw. split.
  - intros rid c. cbn [drop_queue set_queue set_table set_writing calls rid_counter]. rewrite drop_queue_lookup.
    destruct (calls w !! rid) as [c0|] eqn:Hc; [|done]. intros [= <-]. destruct (v_calls _ Hi rid c0 Hc) as [Hok ?]. split; [|done].
    unfold call_in in *. rewrite Hw in Hok. cbn [locked_by written_by] in Hok.
    change (in_queue (set_writing (drop_queue w) WEnded) rid) with false.
    change (is_pending (set_writing (drop_queue w) WEnded) rid) with (is_pending w rid).
    change (is_published (set_writing (drop_queue w) WEnded) rid) with (is_published w rid). cbn [locked_by written_by set_writing writing].
    unfold in_queue in Hok. destruct (decide (rid ∈ queue w)) as [Hq|Hq].
    + rewrite bool_decide_true in Hok by done. destruct Hok. split; cbn; try done; [naive_solver..|].
      intros He. apply k_early0 in He. naive_solver.
    + rewrite bool_decide_false in Hok by done. done.
  - intros rid Hr. cbn [drop_queue set_queue set_table set_writing calls]. rewrite drop_queue_lookup.
    assert (is_Some (calls w !! rid)) as [c ->]; [|done]. apply Hi. cbn in Hr.
    change (is_pending w rid || is_published w rid = true) in Hr. rewrite <-orb_assoc, Hr. by rewrite orb_true_r.
  - constructor.
  - apply Hi.
  - apply Hi.
  - done.
  - done.
Qed.

(** ** Callers *)

Lemma fresh_flags w rid : inv w → calls w !! rid = None →
  in_queue w rid = false ∧ locked_by (writing w) rid = false ∧ written_by (writing w) rid = false ∧ is_pending w rid = false
  ∧ is_published w rid = false.
Proof.
  intros Hi Hn.
  destruct (in_queue w rid || locked_by (writing w) rid || written_by (writing w) rid || is_pending w rid || is_published w rid) eqn:E.
  - by destruct (v_known _ Hi rid E) as [? ?]; simplify_eq.
  - rewrite !orb_false_iff in E. tauto.
Qed.

Lemma new_call_ok : call_ok false false false true false new_call.
Proof. by split. Qed.

Lemma inv_begin_pending w w' r : inv w → begin_pending w = (w', r) → inv w' ∧ ∀ rid, r = inl rid → calls w' !! rid = Some new_call ∧ locked_by (writing w') rid = false.
Proof.
  intros Hi. unfold begin_pending. destruct (is_deactivated (core w)) eqn:Hd; [by intros [= <- <-]|].
  destruct (checked_add U64_MAX (rid_counter w) 1) as [rid|] eqn:Ha; [|intros [= <- <-]; split; [|done]; by apply (inv_quiet w); [apply quiet_end|]].
  intros [= <- <-]. assert (rid = rid_counter w + 1) as -> by (unfold checked_add in Ha; case_match; congruence).
  assert (calls w !! (rid_counter w + 1) = None) as Hn.
  { destruct (calls w !! _) as [c|] eqn:E; [|done]. apply (v_calls _ Hi) in E as [_ ?]. lia. }
  pose proof (fresh_flags _ _ Hi Hn) as (F1 & F2 & F3 & F4 & F5).
  split; [|intros ? [= <-]; split; [by apply lookup_insert_eq|done]]. set (rid := rid_counter w + 1) in *. split; try apply Hi.
  - intros r c. cbn [calls set_table]. destruct (decide (r = rid)) as [->|Hne].
    + rewrite lookup_insert_eq. intros [= <-]. split; [|cbn; lia]. unfold call_in.
      change (in_queue _ rid) with (in_queue w rid). change (is_published _ rid) with (is_published w rid).
      cbn [writing set_table set_counter]. rewrite F1, F2, F3, F5. unfold is_pending. cbn. rewrite lookup_insert_eq. apply new_call_ok.
    + rewrite lookup_insert_ne by done. intros Hc. destruct (v_calls _ Hi r c Hc) as [Hok Hle]. split; [|cbn; lia].
      unfold call_in in *. unfold is_pending. cbn. by rewrite lookup_insert_ne.
  - intros r Hr. cbn [calls set_table]. destruct (decide (r = rid)) as [->|Hne]; [by rewrite lookup_insert_eq|].
    rewrite lookup_insert_ne by done. apply Hi. unfold is_pending in *. cbn in Hr. by rewrite lookup_insert_ne in Hr.
  - intros Hr. apply (v_stopped _ Hi) in Hr as (_ & Hd' & _). unfold is_deactivated in Hd. congruence.
Qed.

Lemma inv_begin_call w i m d : inv w → inv (begin_call w i m d).
Proof.
  intros Hi. unfold begin_call. destruct (begin_pending w) as [w' [rid|e]] eqn:E; destruct (inv_begin_pending _ _ _ Hi E) as [Hi' Hr]; [|done].
  destruct (call_frame i m d rid) as [b|e|]; [done| |done]. destruct (Hr rid eq_refl) as [Hc Hl].
  unfold at_caller. eapply inv_on_call; [done|exact Hc|]. destruct (v_calls _ Hi' _ _ Hc) as [[] _]. split; cbn; try done; [auto..|].
  intros o [= <-]. by right.
Qed.

(** A caller that goes on, with nothing else changed. *)
Lemma call_move q l wr p pb c k :
  call_ok q l wr p pb c → (∀ o, caller c ≠ Returned o) → (∀ o, k ≠ Returned o) → k ≠ Submitting →
  (early k = true → early (caller c) = true) → (decided k = true → slot c = false ∧ l = false) →
  (acknowledged k = true → started c = true) → (∀ o, caller_outcome k = Some o → outcome_ok (started c) o) →
  call_ok q l wr p pb (with_caller c k).
Proof. intros [] Hn Hk Hs He Hd Ha Ho. split; cbn; try done; auto. Qed.

Lemma at_caller_inv w rid c k :
  inv w → calls w !! rid = Some c → (∀ o, caller c ≠ Returned o) → (∀ o, k ≠ Returned o) → k ≠ Submitting →
  (early k = true → early (caller c) = true) → (decided k = true → slot c = false ∧ locked_by (writing w) rid = false) →
  (acknowledged k = true → started c = true) → (∀ o, caller_outcome k = Some o → outcome_ok (started c) o) →
  inv (at_caller w rid k).
Proof. intros Hi Hc. intros. eapply inv_on_call; [done..|]. apply call_move; try done. by apply Hi. Qed.

Lemma await_reply_outcome r pl cp sent :
  reply_ok r = true →
  outcome_ok sent (match owned_response r pl cp with inl b => inl b | inr e => inr (classified_call_error e) end).
Proof.
  destruct r as [[| |]|e]; cbn; [done|by destruct cp..|]. unfold classified_call_error. destruct e; cbn; try done; by left.
Qed.

Lemma dispatch_outcome e sent : outcome_ok sent (inr (dispatch_call_error e sent)).
Proof. unfold dispatch_call_error. destruct sent; cbn; [done|]. destruct (is_response_failure e); cbn; [done|by right]. Qed.

Lemma inv_returned w rid c :
  inv w → calls w !! rid = Some c → decided (caller c) = true → locked_by (writing w) rid = false →
  inv (set_table w (delete rid (pending w)) (alter (fun x => with_caller (with_cancelled x) (Returned (caller_outcome (caller c)))) rid (calls w))).
Proof.
  intros Hi Hc Hd Hl. eapply (inv_remove w rid c (fun x => with_caller (with_cancelled x) (Returned (caller_outcome (caller c))))); [done..|].
  destruct (v_calls _ Hi rid c Hc) as [[] _]. split; cbn; try done; auto. intros _ H. by destruct (H (caller_outcome (caller c))).
Qed.

(** A caller that goes on from [Hk], with the facts of its call. *)
Ltac go Hc Hk := intros [= <-]; eapply at_caller_inv; [eassumption|exact Hc|..]; rewrite ?Hk; cbn; try done; auto.

Lemma inv_submit_step w rid c ch pl cp w' :
  inv w → calls w !! rid = Some c → early (caller c) = true → caller_step w rid ch pl cp = Some w' → inv w'.
Proof.
  intros Hi Hc He. unfold caller_step. rewrite Hc. cbn [mbind option_bind]. destruct (v_calls _ Hi rid c Hc) as [Hok _]. unfold call_in in Hok.
  destruct Hok as [Kst Klk Kwr Krc Kq Kea Ksub Kdec Ksn Kack Krep Kpd Kro Kout Kpb]. destruct (Kea He) as (Es & Er & Eq & El).
  destruct (caller c) eqn:Hk; try done; rewrite Es; cbn [negb].
  - rewrite andb_true_r. destruct (stopped w); [go Hc Hk|]. intros [= <-]. eapply inv_on_call; [done..|]. rewrite El, Eq in *.
    split; cbn; try done; auto; intros; congruence.
  - rewrite andb_true_r. destruct (stopped w); [go Hc Hk|]. destruct (queue_open w); go Hc Hk.
  - rewrite andb_true_r. destruct (stopped w); [go Hc Hk|]. destruct (queue_open w) eqn:Eo.
    + intros [= <-]. apply bool_decide_eq_false in Eq. eapply (inv_one w _ rid c); [done|exact Hc|cbn; by apply alter_at|done| | | |apply Hi|apply Hi|cbn; rewrite <-Eo; apply Hi|done].
      * intros r Hne. split_and!; try done. unfold in_queue. cbn. apply bool_decide_ext. rewrite elem_of_app, list_elem_of_singleton. naive_solver.
      * unfold call_in, in_queue. cbn. rewrite El, bool_decide_true by (apply elem_of_app; right; by apply list_elem_of_singleton).
        split; cbn; try done; auto; intros; congruence.
      * cbn. apply NoDup_app. split_and!; [apply Hi| |apply NoDup_singleton]. intros x Hx ->%list_elem_of_singleton. done.
    + intros [= <-]. eapply inv_on_call; [done..|]. destruct ch; split; cbn; try done; auto; intros; first [congruence|naive_solver congruence].
Qed.

Lemma inv_caller_step w rid ch pl cp w' : inv w → caller_step w rid ch pl cp = Some w' → inv w'.
Proof.
  intros Hi H. pose proof H as H'. revert H. unfold caller_step. destruct (calls w !! rid) as [c|] eqn:Hc; [|done]. cbn [mbind option_bind].
  destruct (early (caller c)) eqn:He; [intros _; by eapply inv_submit_step|]. clear H'.
  destruct (v_calls _ Hi rid c Hc) as [Hok _]. unfold call_in in Hok.
  destruct Hok as [Kst Klk Kwr Krc Kq Kea Ksub Kdec Ksn Kack Krep Kpd Kro Kout Kpb].
  destruct (caller c) as [| | | |b| |e|f e|[e|]| |o| |o] eqn:Hk; try done; cbn [early decided acknowledged] in *.
  - destruct (stopped w && locked_by _ _) eqn:El; [done|]. destruct (stopped w && negb (started c)) eqn:Es; [go Hc Hk|]. go Hc Hk.
    destruct (stopped w); [|done]. intros _. cbn in Es. by apply negb_false_iff in Es.
  - destruct (receipt c) as [|e|] eqn:Er; [|go Hc Hk; (destruct e; [done|auto])|go Hc Hk].
    destruct (_ && _) eqn:El; [|done]. destruct (started c) eqn:Est; go Hc Hk.
  - destruct (receipt c) as [|e|] eqn:Er; [done|go Hc Hk; (destruct e; [done|auto])|go Hc Hk].
  - destruct (locked_by _ _) eqn:El; [done|]. destruct (started c) eqn:Est; go Hc Hk.
    + intros _. by destruct (Kst eq_refl).
    + intros Ha. by specialize (Kack Ha).
  - destruct f; [go Hc Hk; by destruct e|]. destruct (locked_by _ _) eqn:El; [done|]. intros [= <-]. eapply inv_on_call; [done..|].
    unfold call_in. rewrite El. split; cbn; try done; auto. naive_solver.
  - destruct (locked_by _ _) eqn:El; [done|]. go Hc Hk; [intros _; split; [by apply Kdec|done]|]. intros o [= <-]. apply dispatch_outcome.
  - go Hc Hk.
  - destruct (reply c) as [r|] eqn:Er.
    + go Hc Hk. intros o [= <-]. apply await_reply_outcome. by apply Kro.
    + destruct (_ || _) eqn:El; [done|]. go Hc Hk. intros o [= <-]. apply dispatch_outcome.
  - destruct (locked_by _ _) eqn:El; [done|]. intros [= <-]. pose proof (inv_returned w rid c Hi Hc) as Hr. rewrite Hk in Hr. by apply Hr.
  - destruct (locked_by _ _) eqn:El; [done|]. intros [= <-]. pose proof (inv_returned w rid c Hi Hc) as Hr. rewrite Hk in Hr. by apply Hr.
Qed.

Lemma inv_caller_drop w rid w' : inv w → caller_drop w rid = Some w' → inv w'.
Proof.
  intros Hi. unfold caller_drop. destruct (calls w !! rid) as [c|] eqn:Hc; [|done]. cbn [mbind option_bind].
  destruct (v_calls _ Hi rid c Hc) as [Hok _]. unfold call_in in Hok.
  assert (Hd : locked_by (writing w) rid = false → (∀ o, caller c ≠ Returned o) →
               inv (on_call w rid (fun c => with_caller (with_slot c false) Abandoned))).
  { intros El Hn. eapply inv_on_call; [done..|]. unfold call_in. rewrite El in *. destruct Hok. split; cbn; try done; auto. naive_solver. }
  destruct Hok as [Kst Klk Kwr Krc Kq Kea Ksub Kdec Ksn Kack Krep Kpd Kro Kout Kpb].
  destruct (caller c) eqn:Hk; try done; try (destruct (locked_by _ _) eqn:El; [done|]; intros [= <-]; by apply Hd). go Hc Hk.
Qed.

(** ** The writer *)

Definition idle_at (x : Writer) (rid : Z) : Prop := ∀ r, r ≠ rid → locked_by x r = false ∧ written_by x r = false.

Lemma inv_writer w rid c f x :
  inv w → calls w !! rid = Some c → idle_at (writing w) rid → idle_at x rid → writing w ≠ WEnded → x ≠ WEnded →
  call_ok (in_queue w rid) (locked_by x rid) (written_by x rid) (is_pending w rid) (is_published w rid) (f c) →
  inv (set_writing (on_call w rid f) x).
Proof.
  intros Hi Hc Hw Hx Hne Hne' Hok. eapply (inv_one w _ rid c (f c)); [done|done| |done| |exact Hok|apply Hi|apply Hi|apply Hi| |apply Hi].
  - cbn. by apply alter_at.
  - intros r Hr. destruct (Hw r Hr) as [E1 E2], (Hx r Hr) as [E3 E4]. split_and!; cbn; first [done|congruence].
  - cbn. rewrite (v_open _ Hi). by split.
Qed.

Lemma inv_writer_quiet w x : inv w → writing w ≠ WEnded → x ≠ WEnded →
  (∀ r, locked_by x r = locked_by (writing w) r ∧ written_by x r = written_by (writing w) r) → inv (set_writing w x).
Proof.
  intros Hi Hw Hx Hf. destruct Hi as [Hc Hk Hq Hp Hr Ho Hcl]. split; try done.
  - intros rid c H. destruct (Hf rid) as [E1 E2]. unfold call_in. cbn. rewrite E1, E2. by apply Hc.
  - intros rid. destruct (Hf rid) as [E1 E2]. cbn. rewrite E1, E2. apply Hk.
  - cbn. rewrite Ho. by split.
Qed.

Lemma idle_idle rid : idle_at WIdle rid.
Proof. by split. Qed.
Lemma locked_idle rid : idle_at (WLocked rid) rid.
Proof. intros r Hr. cbn. by rewrite (proj2 (Z.eqb_neq rid r)) by congruence. Qed.
Lemma begun_idle rid b : idle_at (WBegun rid b) rid.
Proof. intros r Hr. cbn. by rewrite (proj2 (Z.eqb_neq rid r)) by congruence. Qed.
Lemma writing_idle rid b : idle_at (WWriting (Some rid) b) rid.
Proof. intros r Hr. cbn. by rewrite (proj2 (Z.eqb_neq rid r)) by congruence. Qed.

Lemma inv_take_queue w rid rest : inv w → queue w = rid :: rest →
  ∃ c, calls w !! rid = Some c ∧ in_queue w rid = true ∧ rid ∉ rest.
Proof.
  intros Hi Hq. assert (Hin : in_queue w rid = true) by (unfold in_queue; rewrite Hq; apply bool_decide_true; by left).
  destruct (v_known _ Hi rid) as [c Hc]; [by rewrite Hin|]. exists c. split_and!; [done..|].
  pose proof (v_queue _ Hi) as Hn. rewrite Hq in Hn. by apply NoDup_cons in Hn as [? _].
Qed.

(** A submission leaves the queue, and its call becomes [c']. *)
Lemma inv_dequeue w rid rest c f :
  inv w → queue w = rid :: rest → rid ∉ rest → calls w !! rid = Some c →
  call_ok false (locked_by (writing w) rid) (written_by (writing w) rid) (is_pending w rid) (is_published w rid) (f c) →
  inv (on_call (set_queue w rest (queue_open w)) rid f).
Proof.
  intros Hi Hq Hr Hc Hok. eapply (inv_one w _ rid c (f c)); [done|done|cbn; by apply alter_at|done| | | |apply Hi|apply Hi|apply Hi|].
  - intros r Hne. split_and!; try done. unfold in_queue. cbn. rewrite Hq. apply bool_decide_ext. rewrite elem_of_cons. naive_solver.
  - unfold call_in, in_queue. cbn. by rewrite bool_decide_false.
  - cbn. pose proof (v_queue _ Hi) as Hn. rewrite Hq in Hn. by apply NoDup_cons in Hn as [_ ?].
  - cbn. intros Ho. apply (v_closed _ Hi) in Ho. congruence.
Qed.

Lemma inv_process_take w allowed w' : inv w → process_take w allowed = Some w' → inv w'.
Proof.
  intros Hi. unfold process_take. destruct (writing w) eqn:Hw; try done. destruct (queue w) as [|rid rest] eqn:Hq; [done|].
  destruct (inv_take_queue _ _ _ Hi Hq) as (c & Hc & Hin & Hnr). rewrite Hc. cbn [mbind option_bind].
  destruct (v_calls _ Hi rid c Hc) as [Hok _]. unfold call_in in Hok. rewrite Hin, Hw in Hok.
  assert (Hst : started c = false) by (destruct (started c) eqn:E; [|done]; by destruct (k_started _ _ _ _ _ _ Hok E) as (_ & ? & _)).
  assert (Hea : early (caller c) = false) by (destruct (early (caller c)) eqn:E; [|done]; by destruct (k_early _ _ _ _ _ _ Hok E) as (_ & _ & ? & _)).
  pose proof (k_queued _ _ _ _ _ _ Hok eq_refl) as Hrc.
  destruct (negb (slot c) || receipt_closed (caller c)) eqn:Hs.
  - intros [= <-]. eapply (inv_dequeue w rid rest c); [done..|]. rewrite Hw. destruct Hok. split; cbn; try done; auto; naive_solver.
  - apply orb_false_iff in Hs as [Hsl%negb_false_iff Hcl].
    assert (Hde : decided (caller c) = false).
    { destruct (decided (caller c)) eqn:E; [|done]. destruct (k_decided _ _ _ _ _ _ Hok E). congruence. }
    set (w1 := on_call _ rid _).
    assert (Hi1 : inv w1).
    { eapply (inv_dequeue w rid rest c); [done..|]. rewrite Hw. destruct Hok. split; cbn; try done; auto; naive_solver. }
    assert (Hc1 : calls w1 !! rid = Some (with_slot c false)) by (cbn; by rewrite lookup_alter_eq, Hc).
    destruct (v_calls _ Hi1 _ _ Hc1) as [Hok1 _]. unfold call_in in Hok1.
    assert (Hin1 : in_queue w1 rid = false) by (apply bool_decide_false; exact Hnr).
    assert (Hw1 : writing w1 = WIdle) by exact Hw. rewrite Hin1, Hw1 in Hok1. clearbody w1.
    assert (Hfail : ∀ e, inv (fail_submission w1 rid e)).
    { intros e. eapply (inv_writer w1 rid _ _ WIdle Hi1 Hc1); [rewrite Hw1; apply idle_idle|apply idle_idle|congruence|done|].
      rewrite Hin1. destruct Hok1. split; cbn in *; try done; auto; congruence. }
    destruct (_ && _); [intros [= <-]; apply Hfail|]. destruct (negb allowed); [intros [= <-]; apply Hfail|]. intros [= <-].
    assert (Hlk : inv (set_writing (on_call w1 rid id) (WLocked rid))).
    { eapply (inv_writer w1 rid _ id (WLocked rid) Hi1 Hc1); [rewrite Hw1; apply idle_idle|apply locked_idle|congruence|done|].
      rewrite Hin1. cbn [locked_by]. rewrite Z.eqb_refl. destruct Hok1. split; cbn in *; try done; auto; congruence. }
    assert (on_call w1 rid id = w1) as Hid; [|by rewrite Hid in Hlk].
    destruct w1. unfold on_call, set_table. cbn. f_equal. cbn in *. apply map_eq. intros r. destruct (decide (r = rid)) as [->|].
    + by rewrite lookup_alter_eq, option_fmap_id.
    + by rewrite lookup_alter_ne.
Qed.

Lemma locked_call w rid : inv w → writing w = WLocked rid ∨ (∃ b, writing w = WBegun rid b) →
  ∃ c, calls w !! rid = Some c ∧ call_in w rid c ∧ locked_by (writing w) rid = true ∧ idle_at (writing w) rid ∧ writing w ≠ WEnded.
Proof.
  intros Hi Hw. assert (Hl : locked_by (writing w) rid = true) by (destruct Hw as [->|[b ->]]; cbn; apply Z.eqb_refl).
  destruct (v_known _ Hi rid) as [c Hc]; [by rewrite Hl, orb_true_r|]. exists c. split_and!; [done|by apply Hi|done| |by destruct Hw as [->|[b ->]]].
  destruct Hw as [->|[b ->]]; [apply locked_idle|apply begun_idle].
Qed.

(** The submission the writer has locked fails. *)
Lemma inv_fail_submission w rid e : inv w → writing w = WLocked rid ∨ (∃ b, writing w = WBegun rid b) → inv (fail_submission w rid e).
Proof.
  intros Hi Hw. destruct (locked_call w rid Hi Hw) as (c & Hc & Hok & Hl & Hid & Hne).
  eapply (inv_writer w rid c); [done..|apply idle_idle|done|done|]. unfold call_in in Hok. rewrite Hl in Hok.
  destruct Hok as [Kst Klk Kwr Krc Kq Kea Ksub Kdec Ksn Kack Krep Kpd Kro Kout Kpb]. destruct (Klk eq_refl) as (H1 & H2 & H3 & H4).
  split; cbn; try done; auto; try congruence; naive_solver.
Qed.

Lemma core_keeps w s : inv w → mono (core w) s → inv (set_core w s).
Proof. intros Hi Hm. by apply (inv_quiet w); [apply quiet_core|]. Qed.

Lemma inv_process_begin origin w room w' : inv w → process_begin origin w room = Ok w' → inv w'.
Proof.
  intros Hi. unfold process_begin. destruct (writing w) eqn:Hw; try (by intros [= <-]).
  pose proof (begin_write_mono origin Client (core w) (Business []) room) as Hm.
  destruct (begin_write _ _ _ _ _) as [[s r] [[b|]|e|]]; try done; intros [= <-]; cbn in Hm.
  - assert (Hi1 : inv (set_core w s)) by (by apply core_keeps). apply (inv_writer_quiet _ _ Hi1); cbn; rewrite ?Hw; done.
  - assert (Hi1 : inv (set_core w s)) by (by apply core_keeps). eapply inv_fail_submission; [done|]. left. exact Hw.
Qed.

Lemma inv_discard w b w' : inv w → discard w b = Ok w' → inv w' ∧ writing w' = writing w.
Proof.
  intros Hi. unfold discard. destruct (drop_batch (core w) b) as [[s r]| |] eqn:E; [|done..]. intros [= <-]. split; [|done].
  apply core_keeps; [done|]. by eapply drop_batch_mono.
Qed.

Lemma inv_end w e : inv w → inv (end_begin w e).
Proof. intros Hi. by apply (inv_quiet w); [apply quiet_end|]. Qed.

Lemma inv_publish_call w rid b b' :
  inv w → writing w = WBegun rid b → inv (set_writing (publish_call (on_call w rid with_started) rid) (WWriting (Some rid) b')).
Proof.
  intros Hi Hw. destruct (locked_call w rid Hi (or_intror (ex_intro _ b Hw))) as (c & Hc & Hok & Hl & Hid & Hne). unfold call_in in Hok. rewrite Hl in Hok.
  destruct Hok as [Kst Klk Kwr Krc Kq Kea Ksub Kdec Ksn Kack Krep Kpd Kro Kout Kpb]. destruct (Klk eq_refl) as (H1 & H2 & H3 & H4).
  assert (Hpb : rid ∉ publications w) by (apply (bool_decide_eq_false (rid ∈ publications w)); unfold is_published in Kpb; congruence).
  assert (Hde : decided (caller c) = false) by (destruct (decided (caller c)); [by destruct Kdec|done]).
  eapply (inv_one w _ rid c (with_started c)); [done|exact Hc|cbn; by apply alter_at|done| | |apply Hi| |apply Hi| |apply Hi].
  - intros r Hr. destruct (Hid r Hr) as [E1 E2]. split_and!; cbn; try done.
    + by rewrite E2, (proj2 (Z.eqb_neq rid r)) by congruence.
    + unfold is_published. cbn. apply bool_decide_ext. rewrite elem_of_app, list_elem_of_singleton. naive_solver.
  - unfold call_in. cbn [set_writing publish_call on_call set_table writing]. unfold is_published. cbn.
    rewrite Z.eqb_refl, bool_decide_true by (apply elem_of_app; right; by apply list_elem_of_singleton).
    split; cbn; try done; auto; try congruence; [naive_solver..|]. intros o Ho. exfalso. by destruct (caller c).
  - cbn. apply NoDup_app. split_and!; [apply Hi| |apply NoDup_singleton]. by intros x Hx ->%list_elem_of_singleton.
  - cbn. rewrite (v_open _ Hi), Hw. by split.
Qed.

Lemma inv_process_io w room w' : inv w → process_io w room = Ok w' → inv w'.
Proof.
  intros Hi. unfold process_io. destruct (writing w) as [| |rid b| |] eqn:Hw; try (by intros [= <-]). destruct (_ && _).
  - intros H. apply bind_ok in H as (w1 & Hd & [= <-]). destruct (inv_discard _ _ _ (inv_end w ProtocolError Hi) Hd) as [Hi1 Hw1].
    apply inv_fail_submission; [done|]. right. exists b. rewrite Hw1. exact Hw.
  - destruct (begin_io (core w) b) as [[s b']|e|] eqn:E; [|intros H|done].
    + intros [= <-]. apply (inv_publish_call (set_core w s) rid b b'); [|done]. apply core_keeps; [done|]. by eapply begin_io_mono.
    + apply bind_ok in H as (w1 & Hd & [= <-]). destruct (inv_discard _ _ _ Hi Hd) as [Hi1 Hw1].
      apply inv_fail_submission; [done|]. right. exists b. by rewrite Hw1.
Qed.

Lemma inv_write_frame w w' : inv w → write_frame w = Ok w' → inv w'.
Proof.
  intros Hi. unfold write_frame. destruct (writing w) as [| | |owner b|] eqn:Hw; try (by intros [= <-]).
  destruct (frame_completed _ _) as [[s b']| |] eqn:E; [|done..]. intros [= <-].
  assert (Hi1 : inv (set_core w s)) by (apply core_keeps; [done|by eapply frame_completed_mono]).
  apply (inv_writer_quiet _ _ Hi1); cbn; rewrite ?Hw; done.
Qed.

(** The batch is over and its owner, if it is a call, has its receipt. *)
Lemma inv_receipt w owner b e :
  inv w → writing w = WWriting owner b → inv (set_writing (owner_receipt w owner e) WIdle).
Proof.
  intros Hi Hw. destruct owner as [rid|]; cbn [owner_receipt].
  - destruct (v_known _ Hi rid) as [c Hc]; [rewrite Hw; cbn; by rewrite Z.eqb_refl, !orb_true_r|].
    eapply (inv_writer w rid c); [done..|rewrite Hw; apply writing_idle|apply idle_idle|by rewrite Hw|done|].
    destruct (v_calls _ Hi rid c Hc) as [Hok _]. unfold call_in in Hok. rewrite Hw in Hok. cbn in Hok. rewrite Z.eqb_refl in Hok.
    destruct Hok as [Kst Klk Kwr Krc Kq Kea Ksub Kdec Ksn Kack Krep Kpd Kro Kout Kpb]. destruct (Kwr eq_refl) as [H1 H2].
    split; cbn; try done; auto; try congruence.
    + intros Hq. destruct (Kst H1) as (_ & ? & _). congruence.
    + intros He. destruct (Kea He). congruence.
  - apply (inv_writer_quiet _ _ Hi); rewrite ?Hw; done.
Qed.

Lemma inv_release_control w b w' : inv w → release_control w b = Ok w' → inv w' ∧ writing w' = writing w.
Proof.
  intros Hi. unfold release_control. destruct (wb_control b); [|by intros [= <-]]. destruct (drop_control _) eqn:E; [|done..].
  intros [= <-]. split; [|done]. apply core_keeps; [done|]. by eapply drop_control_mono.
Qed.

Lemma inv_write_flush w w' : inv w → write_flush w = Ok w' → inv w'.
Proof.
  intros Hi. unfold write_flush. destruct (writing w) as [| | |owner b|] eqn:Hw; try (by intros [= <-]).
  destruct (flush_completed _ _) as [s| |] eqn:E; [|done..]. intros H. apply bind_ok in H as (w1 & Hr & [= <-]).
  assert (Hi1 : inv (set_core w s)) by (apply core_keeps; [done|by eapply flush_completed_mono]).
  destruct (inv_release_control _ _ _ Hi1 Hr) as [Hi2 Hw2]. eapply inv_receipt; [done|]. rewrite Hw2. exact Hw.
Qed.

Lemma discard_core w b w' : discard w b = Ok w' → ∃ s, w' = set_core w s ∧ mono (core w) s.
Proof.
  unfold discard. destruct (drop_batch (core w) b) as [[s r]| |] eqn:E; [|done..]. intros [= <-]. exists s. split; [done|]. by eapply drop_batch_mono.
Qed.

Lemma release_control_core w b w' : release_control w b = Ok w' → ∃ s, w' = set_core w s ∧ mono (core w) s.
Proof.
  unfold release_control. destruct (wb_control b); [|intros [= <-]; exists (core w); by destruct w].
  destruct (drop_control _) as [s| |] eqn:E; [|done..]. intros [= <-]. exists s. split; [done|]. by eapply drop_control_mono.
Qed.

Lemma inv_write_error w w' : inv w → write_error w = Ok w' → inv w'.
Proof.
  intros Hi. unfold write_error. destruct (writing w) as [| | |owner b|] eqn:Hw; try (by intros [= <-]).
  cbn zeta. destruct (write_failed _ _) as [[s b'] r] eqn:E. intros H. apply bind_ok in H as (w1 & Hr & H).
  apply bind_ok in H as (w2 & Hd & [= <-]). apply release_control_core in Hr as (s1 & -> & Hm1). apply discard_core in Hd as (s2 & -> & Hm2).
  assert (Hs : deactivated s = true) by (unfold write_failed in E; cbn in E; by injection E as <- _ _).
  apply (inv_quiet (set_writing (owner_receipt w owner (Some Io)) WIdle)); [|by eapply inv_receipt].
  destruct owner; split; cbn in *; auto.
Qed.

(** A batch of the writer's own. *)
Lemma inv_own_batch w s b : inv w → writing w = WIdle → mono (core w) s → inv (set_writing (set_core w s) (WWriting None b)).
Proof. intros Hi Hw Hm. apply inv_writer_quiet; [by apply core_keeps|cbn; by rewrite ?Hw..]. Qed.

Lemma inv_write_disconnect origin w r1 r2 w' : inv w → write_disconnect origin w r1 r2 = Ok w' → inv w'.
Proof.
  intros Hi. unfold write_disconnect. destruct (writing w) eqn:Hw; try (by intros [= <-]). destruct (disconnect w); try (by intros [= <-]).
  destruct (negb _); [by intros [= <-]|]. set (w0 := set_disconnect w DisconnectFinished). cbn zeta.
  assert (Hi0 : inv w0) by (by apply (inv_quiet w); [apply quiet_disconnect|]). assert (Hw0 : writing w0 = WIdle) by exact Hw. clearbody w0.
  pose proof (begin_write_mono origin Client (core w0) (Control {| cf_origin := origin |}) r1) as Hm.
  destruct (begin_write _ _ _ _ _) as [[s r] res]; cbn in Hm. assert (Hi1 : inv (set_core w0 s)) by (by apply core_keeps).
  destruct res as [[b|]|e|]; [|by intros [= <-]| |done].
  - destruct (_ && _).
    + intros H. apply bind_ok in H as (w1 & Hd & Hr). apply inv_discard in Hd as [Hd _]; [|by apply inv_end].
      by apply inv_release_control in Hr as [? _].
    + destruct (begin_io _ b) as [[s' b']|e|] eqn:E; [|intros H|done].
      * intros [= <-]. apply inv_own_batch; [done|done|]. by eapply begin_io_mono.
      * apply bind_ok in H as (w1 & Hd & Hr). apply inv_discard in Hd as [Hd _]; [|done]. by apply inv_release_control in Hr as [? _].
  - destruct (drop_control _) eqn:E; [|done..]. intros [= <-]. apply core_keeps; [done|]. by eapply drop_control_mono.
Qed.

Lemma inv_write_releases origin w r1 r2 w' : inv w → write_releases origin w r1 r2 = Ok w' → inv w'.
Proof.
  intros Hi. unfold write_releases. destruct (writing w) eqn:Hw; try (by intros [= <-]).
  pose proof (begin_write_mono origin Client (core w) Releases r1) as Hm.
  destruct (begin_write _ _ _ _ _) as [[s r] res]; cbn in Hm. assert (Hi1 : inv (set_core w s)) by (by apply core_keeps). cbn zeta.
  destruct res as [[b|]|e|]; [|by intros [= <-]| |done].
  - destruct (_ && _).
    + intros H. apply bind_ok in H as (w1 & Hd & [= <-]). apply inv_discard in Hd as [Hd _]; by repeat apply inv_end.
    + destruct (begin_io _ b) as [[s' b']|e|] eqn:E; [|intros H|done].
      * intros [= <-]. apply inv_own_batch; [done|done|]. by eapply begin_io_mono.
      * apply bind_ok in H as (w1 & Hd & [= <-]). apply inv_discard in Hd as [Hd _]; [|done]. by apply inv_end.
  - destruct e; intros [= <-]; done || by apply inv_end.
Qed.

Lemma inv_writer_end w r w' : inv w → writer_end w = Some r → r = Ok w' → inv w'.
Proof.
  intros Hi. unfold writer_end. destruct (writing w) eqn:Hw; try done.
  assert (Hm : mono (core w) (if bool_decide (pending w = ∅) then try_close (core w) else (core w, false)).1).
  { destruct (bool_decide _); [apply try_close_mono|done]. }
  destruct (if bool_decide _ then _ else _) as [s cl]; cbn in Hm. cbn zeta. destruct (cl || _); [|done].
  set (w1 := if cl then _ else _). assert (Hi1 : inv w1 ∧ writing w1 = WIdle).
  { assert (inv (set_core w s)) as H by (by apply core_keeps). subst w1. destruct cl; [|done]. split; [|done].
    apply (inv_quiet (set_core w s)); [by split|done]. }
  clearbody w1. destruct Hi1 as [Hi1 Hw1]. pose proof (inv_drop_queue _ Hi1 Hw1) as Hi2. set (w2 := set_writing _ WEnded) in *. clearbody w2.
  intros [= <-]. assert (Hf : inv (set_disconnect w2 DisconnectFinished)) by (by apply (inv_quiet w2); [apply quiet_disconnect|]).
  destruct (disconnect w2); [by intros [= <-]| |by intros [= <-]]. destruct (drop_control _) as [s'| |] eqn:E; [|done..].
  intros [= <-]. apply (inv_quiet (set_core w2 s')); [apply quiet_disconnect|]. apply core_keeps; [done|]. by eapply drop_control_mono.
Qed.

(** ** The reader *)

Lemma inv_end_read w id w' : inv w → end_read w id = Ok w' → inv w'.
Proof.
  intros Hi. unfold end_read. destruct (drop_remote _ _) eqn:E; [|done..]. intros [= <-]. apply core_keeps; [done|]. by eapply drop_remote_mono.
Qed.

Lemma inv_descriptor w payload : inv w → inv (decode_response_descriptor w payload).1.
Proof.
  intros Hi. unfold decode_response_descriptor. destruct (decode_buddy_payload _) as [x|e|]; cbn; [done| |done].
  repeat case_match; done || by apply inv_end.
Qed.

Lemma control_reply_ok r d : reply_ok (control_reply r d) = true.
Proof. by destruct r. Qed.

(** What is read of a reply is one the caller may be given, or cannot be read. *)
Lemma inv_decode_response shm w hdr payload room m w' r :
  inv w → decode_response shm w hdr payload room m = Ok (w', r) → inv w' ∧ (reply_ok r = true ∨ is_Some (unreadable r)).
Proof.
  intros Hi. unfold decode_response. destruct (negb _); [intros [= <- <-]; split; [done|by right]|]. destruct (is_buddy _).
  2:{ destruct (decode_reply_control _ _) as [[c n]|e|]; [|intros [= <- <-]; split; [done|by right]|done].
      intros [= <- <-]. split; [done|]. left. apply control_reply_ok. }
  destruct (negb shm); [intros [= <- <-]; split; [done|by right]|].
  pose proof (inv_descriptor w payload Hi) as Hi1. destruct (decode_response_descriptor w payload) as [w1 d] eqn:Ed. cbn in Hi1.
  destruct d as [[d n]|e|]; [| |done].
  2:{ intros [= <- <-]. split; [done|]. right. unfold decode_response_descriptor in Ed. destruct (decode_buddy_payload payload); simplify_eq; done. }
  pose proof (admit_remote_mono (core w1) (bp_loan_id d) room) as Hm. destruct (admit_remote_loan _ _ _) as [[s x] res]. cbn in Hm.
  assert (Hi2 : inv (set_core w1 s)) by (by apply core_keeps). destruct res as [?|e|]; [| |done].
  2:{ intros [= <- <-]. split; [by apply inv_end|]. destruct e; cbn; (by left) || by right. }
  destruct m.
  - destruct (decode_reply_control _ _) as [[c k]|e|]; [| |done].
    + destruct c; [by intros [= <- <-]; split; [|left]|..]; intros H; apply bind_ok in H as (w3 & Hr & [= <- <-]);
        (split; [by eapply inv_end_read|left; done]).
    + intros H. apply bind_ok in H as (w3 & Hr & [= <- <-]). split; [by eapply inv_end_read|by right].
  - intros H. apply bind_ok in H as (w3 & Hr & [= <- <-]). split; [by eapply inv_end_read|by right].
  - intros H. apply bind_ok in H as (w3 & Hr & [= <- <-]). split; [by eapply inv_end_read|by right].
Qed.

Lemma inv_response_failed w rid e : inv w → inv (response_failed w rid e).
Proof. intros Hi. apply inv_complete_pending; [done|apply response_failure_ok]. Qed.

Lemma inv_receive_chunk w rid payload a : inv w → inv (receive_chunk w rid payload a).1.
Proof.
  intros Hi. unfold receive_chunk. destruct (decode_reply_chunk_meta payload 0) as [[[[ts tc] i] n]| |]; [|done..].
  destruct (i =? 0); [|done]. destruct (refused a); [done|]. cbn. apply (inv_quiet w); [|done]. split; try done.
  intros r. cbn. destruct (decide (r = rid)) as [->|]; [|by rewrite lookup_alter_ne]. rewrite lookup_alter_eq. by rewrite fmap_is_Some.
Qed.

Lemma inv_on_frame shm w hdr payload room m a w' : inv w → on_frame shm w hdr payload room m a = Ok w' → inv w'.
Proof.
  intros Hi. unfold on_frame. cbn zeta. destruct (bool_decide _ && _).
  { pose proof (receive_release_mono Client (core w) hdr payload) as Hm. destruct (receive_release _ _ _ _) as [[s r] e]. cbn in Hm.
    assert (Hi1 : inv (set_core w s)) by (by apply core_keeps). intros [= <-]. destruct e; [by apply inv_end|done]. }
  destruct (is_signal_flag _); [intros [= <-]; repeat case_match; done || by apply inv_end|].
  destruct (negb _); [intros [= <-]; by apply inv_response_failed|]. destruct (is_ctrl _); [intros [= <-]; by apply inv_complete_pending|].
  destruct (is_chunked _).
  - destruct (pending w !! _); [|by intros [= <-]]. pose proof (inv_receive_chunk w (request_id hdr) payload a Hi) as Hi1.
    destruct (receive_chunk _ _ _ _) as [w1 [[r|]|e]]; cbn in Hi1; intros [= <-]; [by apply inv_complete_pending|done|].
    destruct e as [| | | | |[]| | | |]; first [by apply inv_response_failed|by apply inv_complete_pending].
  - intros H. apply bind_ok in H as ([w1 r] & Hd & [= <-]). apply inv_decode_response in Hd as [Hi1 Hr]; [|done].
    destruct (unreadable r) as [e|] eqn:E; [by apply inv_response_failed|]. apply inv_complete_pending; [done|]. by destruct Hr as [?|[? ?]].
Qed.

Lemma inv_skip_block shm w hdr payload room w' : inv w → skip_block shm w hdr payload room = Ok w' → inv w'.
Proof.
  intros Hi. unfold skip_block. destruct (_ && _); [|by intros [= <-]].
  pose proof (inv_descriptor w (take (Z.to_nat BUDDY_PAYLOAD_SIZE) payload) Hi) as Hi1.
  destruct (decode_response_descriptor _ _) as [w2 [[d n]|e|]]; cbn in Hi1; [|by intros [= <-]|done].
  pose proof (admit_remote_mono (core w2) (bp_loan_id d) room) as Hm. destruct (admit_remote_loan _ _ _) as [[s x] res]. cbn in Hm.
  assert (Hi2 : inv (set_core w2 s)) by (by apply core_keeps). destruct res; [by apply inv_end_read|intros [= <-]; by apply inv_end|done].
Qed.

Lemma inv_on_oversized shm w hdr payload room w' : inv w → on_oversized shm w hdr payload room = Ok w' → inv w'.
Proof.
  intros Hi. unfold on_oversized. intros H. apply bind_ok in H as (w1 & Hd & [= <-]). apply inv_response_failed. by eapply inv_skip_block.
Qed.

(** ** Every step *)

Lemma ran_step_ok r w : ran r = Ok w → r = Ok w.
Proof. destruct r as [x|[]|]; cbn; congruence. Qed.
Lemma taken_ok o w : taken o = Ok w → o = Some w.
Proof. destruct o; cbn; congruence. Qed.

Lemma step_keeps origin shm w st w' : inv w → call_step origin shm w st = Ok w' → inv w'.
Proof.
  intros Hi. destruct st; cbn [call_step].
  - intros [= <-]. by apply inv_begin_call.
  - intros H%taken_ok. by eapply inv_caller_step.
  - intros H%taken_ok. by eapply inv_caller_drop.
  - intros H%taken_ok. by eapply inv_process_take.
  - intros H%ran_step_ok. by eapply inv_process_begin.
  - intros H%ran_step_ok. by eapply inv_process_io.
  - intros H%ran_step_ok. by eapply inv_write_frame.
  - intros H%ran_step_ok. by eapply inv_write_flush.
  - intros H%ran_step_ok. by eapply inv_write_error.
  - intros H%ran_step_ok. by eapply inv_write_disconnect.
  - intros H%ran_step_ok. by eapply inv_write_releases.
  - destruct (writer_end w) as [r|] eqn:E; [|done]. intros H%ran_step_ok. by eapply inv_writer_end.
  - destruct (read_stopped w); [done|]. intros H%ran_step_ok. by eapply inv_on_frame.
  - destruct (read_stopped w); [done|]. intros H%ran_step_ok. by eapply inv_on_oversized.
  - destruct (read_stopped w); [done|]. intros [= <-]. by apply inv_framing.
  - destruct (_ && _) eqn:E; [|done]. apply andb_true_iff in E as [? ?]. intros [= <-]. by apply inv_reader_stopped.
  - intros [= <-]. by apply (inv_quiet w); [apply quiet_deactivate|].
  - intros [= <-]. by apply inv_end.
  - destruct (stops w); [done|]. intros [= <-]. by apply inv_stop_finish.
  - destruct (core_op (core w) op) as [s|] eqn:E; [|done]. intros [= <-]. apply core_keeps; [done|]. by eapply core_op_mono.
Qed.

Lemma connected_calls_inv : inv connected.
Proof. split; try done; constructor. Qed.

Lemma run_keeps origin shm w l w' : inv w → call_run origin shm w l = Ok w' → inv w'.
Proof.
  revert w. induction l as [|st l IH]; intros w Hi; cbn; [by intros [= <-]|]. intros H. apply bind_ok in H as (w1 & Hs & H).
  eapply IH; [|exact H]. by eapply step_keeps.
Qed.
