(* ===== verification/ClientCallsSafe.v ===== *)
(** What callers of an IPC client may rely on: a failure said to be before dispatch is one of
    a call that is never sent, no call is sent twice, a reply is never replaced, and every
    call returns once the connection has ended. *)

From S2P Require Import Prelude.
From S2P Require Import Text.
From S2P Require Import Frame.
From S2P Require Import Codec.
From S2P Require Import Control.
From S2P Require Import Release.
From S2P Require Import Connection.
From S2P Require Import ClientCalls.
From S2P Require Import ClientCallsInv.

(** ** How a call goes on *)

(** What no step takes back. *)
Record evolves (c c' : Call) : Prop := {
  e_started : started c = true → started c' = true;
  e_decided : decided (caller c) = true → decided (caller c') = true ∧ started c' = started c;
  e_reply : ∀ r, reply c = Some r → reply c' = Some r;
  e_outcome : ∀ o, caller_outcome (caller c) = Some o → caller_outcome (caller c') = Some o }.

Lemma call_evolves_refl c : evolves c c.
Proof. by split. Qed.
Lemma call_evolves_trans c1 c2 c3 : evolves c1 c2 → evolves c2 c3 → evolves c1 c3.
Proof. intros [] []. split; auto. intros H. destruct (e_decided0 H) as [H1 H2]. destruct (e_decided1 H1). split; congruence. Qed.

Definition moves w w' : Prop := ∀ rid c, calls w !! rid = Some c → ∃ c', calls w' !! rid = Some c' ∧ evolves c c'.

Lemma moves_same w w' : calls w' = calls w → moves w w'.
Proof. intros E rid c H. exists c. rewrite E. split; [done|apply call_evolves_refl]. Qed.
Lemma moves_trans w1 w2 w3 : moves w1 w2 → moves w2 w3 → moves w1 w3.
Proof.
  intros H1 H2 rid c H. destruct (H1 _ _ H) as (c2 & Hc2 & E2). destruct (H2 _ _ Hc2) as (c3 & Hc3 & E3).
  exists c3. split; [done|]. by eapply call_evolves_trans.
Qed.
Lemma moves_alter w w' rid f :
  calls w' = alter f rid (calls w) → (∀ c, calls w !! rid = Some c → evolves c (f c)) → moves w w'.
Proof.
  intros E Hf r c H. rewrite E. destruct (decide (r = rid)) as [->|Hne].
  - exists (f c). rewrite lookup_alter_eq, H. split; [done|by apply Hf].
  - exists c. rewrite lookup_alter_ne by done. split; [done|apply call_evolves_refl].
Qed.

(** ** Completions *)

Lemma moves_complete w rid r : inv w → is_pending w rid = true → moves w (complete w rid r).
Proof.
  intros Hi Hp. eapply moves_alter; [reflexivity|]. intros c Hc. destruct (v_calls _ Hi rid c Hc) as [Hok _].
  pose proof (k_pending _ _ _ _ _ _ Hok Hp) as Hr. split; cbn; try done. congruence.
Qed.

Lemma moves_complete_pending w rid r : inv w → moves w (complete_pending w rid r).
Proof.
  intros Hi. unfold complete_pending. destruct (pending w !! rid) eqn:E; [|by apply moves_same].
  apply moves_complete; [done|]. apply bool_decide_true. by rewrite E.
Qed.

Lemma moves_complete_all w rids r :
  inv w → reply_ok r = true → NoDup rids → (∀ rid, rid ∈ rids → is_pending w rid = true) → moves w (complete_all w rids r).
Proof.
  intros Hi Hr Hn. revert w Hi. induction Hn as [|rid rids Hnot Hn IH]; intros w Hi Hp; cbn; [by apply moves_same|].
  eapply moves_trans; [apply moves_complete; [done|apply Hp; by left]|]. apply IH; [by apply inv_complete|].
  intros x Hx. unfold complete. rewrite is_pending_delete, bool_decide_false by (intros ->; done). apply Hp. by right.
Qed.

Lemma pending_keys w rid : rid ∈ (map_to_list (pending w)).*1 → is_pending w rid = true.
Proof. intros ([k x] & -> & H%elem_of_map_to_list)%list_elem_of_fmap. apply bool_decide_true. by exists x. Qed.

Lemma moves_stop_finish w : inv w → moves w (stop_finish w).
Proof.
  intros Hi. unfold stop_finish. eapply moves_trans; [|by apply moves_same]. apply moves_complete_all; [done..|apply NoDup_filter, NoDup_fst_map_to_list|].
  intros rid [_ H]%list_elem_of_filter. by apply pending_keys.
Qed.

Lemma moves_fail_pending w : inv w → moves w (fail_pending w).
Proof. intros Hi. apply moves_complete_all; [done..|apply NoDup_fst_map_to_list|]. intros rid. apply pending_keys. Qed.

(** ** Steps *)

Lemma moves_begin_call w i m d : inv w → moves w (begin_call w i m d).
Proof.
  intros Hi. unfold begin_call, begin_pending. destruct (is_deactivated _); [by apply moves_same|].
  destruct (checked_add _ _ _) as [rid|] eqn:Ha; [|by apply moves_same].
  assert (rid = rid_counter w + 1) as -> by (unfold checked_add in Ha; case_match; congruence).
  intros r c Hc. assert (Hne : r ≠ rid_counter w + 1) by (apply (v_calls _ Hi) in Hc as [_ ?]; lia).
  exists c. split; [|apply call_evolves_refl]. destruct (call_frame _ _ _ _); cbn; rewrite ?lookup_alter_ne by done; by rewrite lookup_insert_ne.
Qed.

Lemma moves_caller_step w rid ch pl cp w' : caller_step w rid ch pl cp = Some w' → moves w w'.
Proof.
  unfold caller_step. destruct (calls w !! rid) as [c|] eqn:Hc; [|done]. cbn [mbind option_bind].
  destruct (caller c) as [| | | |b| |e|f e|[e|]| |o| |o] eqn:Hk; try done; repeat case_match; try done;
    intros [= <-]; (eapply moves_alter; [reflexivity|]); intros x Hx; rewrite Hc in Hx; injection Hx as <-;
    split; cbn; rewrite ?Hk; try done; auto; try (by intros ? [= <-]); congruence.
Qed.

Lemma moves_caller_drop w rid w' : caller_drop w rid = Some w' → moves w w'.
Proof.
  unfold caller_drop. destruct (calls w !! rid) as [c|] eqn:Hc; [|done]. cbn [mbind option_bind].
  destruct (caller c) eqn:Hk; try done; repeat case_match; try done;
    intros [= <-]; (eapply moves_alter; [reflexivity|]); intros x Hx; rewrite Hc in Hx; injection Hx as <-; split; cbn; rewrite ?Hk; done.
Qed.

Lemma moves_process_take w allowed w' : process_take w allowed = Some w' → moves w w'.
Proof.
  unfold process_take. destruct (writing w); try done. destruct (queue w) as [|rid rest]; [done|].
  destruct (calls w !! rid) as [c|] eqn:Hc; [|done]. cbn [mbind option_bind].
  destruct (_ || _); [intros [= <-]; by eapply moves_alter|].
  assert (Hf : moves w (on_call (set_queue w rest (queue_open w)) rid (fun c => with_slot c false))) by (by eapply moves_alter).
  assert (Hr : ∀ e, moves w (fail_submission (on_call (set_queue w rest (queue_open w)) rid (fun c => with_slot c false)) rid e)).
  { intros e. eapply moves_trans; [exact Hf|]. by eapply moves_alter. }
  destruct (_ && _); [intros [= <-]; apply Hr|]. destruct (negb allowed); [intros [= <-]; apply Hr|]. intros [= <-].
  eapply moves_trans; [exact Hf|]. by apply moves_same.
Qed.

Lemma moves_receipt w w' rid r : calls w' = alter (fun c => with_receipt c r) rid (calls w) → moves w w'.
Proof. intros E. eapply moves_alter; [exact E|]. by intros c _. Qed.

Lemma moves_process_begin origin w room w' : process_begin origin w room = Ok w' → moves w w'.
Proof.
  unfold process_begin. destruct (writing w); try (intros [= <-]; by apply moves_same).
  destruct (begin_write _ _ _ _ _) as [[s r] [[b|]|e|]]; try done; intros [= <-]; [by apply moves_same|]. by eapply moves_receipt.
Qed.

Lemma moves_process_io w room w' : inv w → process_io w room = Ok w' → moves w w'.
Proof.
  intros Hi. unfold process_io. destruct (writing w) as [| |rid b| |] eqn:Hw; try (intros [= <-]; by apply moves_same). destruct (_ && _).
  - intros H. apply bind_ok in H as (w1 & (s & -> & _)%discard_core & [= <-]). by eapply moves_receipt.
  - destruct (begin_io (core w) b) as [[s b']|e|] eqn:E; [|intros H|done].
    + intros [= <-]. eapply moves_alter; [reflexivity|]. intros c Hc.
      assert (Hl : locked_by (writing w) rid = true) by (rewrite Hw; cbn; apply Z.eqb_refl).
      destruct (v_calls _ Hi rid c Hc) as [Hok _]. unfold call_in in Hok. rewrite Hl in Hok. split; cbn; try done.
      intros Hd. by destruct (k_decided _ _ _ _ _ _ Hok Hd).
    + apply bind_ok in H as (w1 & (s & -> & _)%discard_core & [= <-]). by eapply moves_receipt.
Qed.

Lemma moves_owner w owner e : moves w (owner_receipt w owner e).
Proof. destruct owner; [by eapply moves_receipt|by apply moves_same]. Qed.

Lemma moves_write w w' : write_frame w = Ok w' ∨ write_flush w = Ok w' ∨ write_error w = Ok w' → moves w w'.
Proof.
  unfold write_frame, write_flush, write_error. destruct (writing w) as [| | |owner b|]; try (intros [[= <-]|[[= <-]|[= <-]]]; by apply moves_same).
  intros [H|[H|H]].
  - destruct (frame_completed _ _) as [[s b']| |]; [|done..]. injection H as <-. by apply moves_same.
  - destruct (flush_completed _ _) as [s| |]; [|done..]. apply bind_ok in H as (w1 & (s' & -> & _)%release_control_core & [= <-]).
    eapply moves_trans; [|by apply moves_same]. eapply moves_trans; [|apply moves_owner]. by apply moves_same.
  - cbn zeta in H. destruct (write_failed _ _) as [[s b'] r]. apply bind_ok in H as (w1 & (s1 & -> & _)%release_control_core & H).
    apply bind_ok in H as (w2 & (s2 & -> & _)%discard_core & [= <-]).
    eapply moves_trans; [apply (moves_owner w owner (Some Io))|]. by apply moves_same.
Qed.

Lemma moves_own_batches origin w r1 r2 w' : write_disconnect origin w r1 r2 = Ok w' ∨ write_releases origin w r1 r2 = Ok w' → moves w w'.
Proof.
  intros [H|H]; apply moves_same; revert H.
  - unfold write_disconnect. destruct (writing w); try (by intros [= <-]). destruct (disconnect w); try (by intros [= <-]).
    destruct (negb _); [by intros [= <-]|]. cbn zeta. destruct (begin_write _ _ _ _ _) as [[s r] [[b|]|e|]]; [|by intros [= <-]| |done].
    + destruct (_ && _); [|destruct (begin_io _ b) as [[s' b']|e|]; [by intros [= <-]| |done]];
        intros H; apply bind_ok in H as (w1 & (s1 & -> & _)%discard_core & (s2 & -> & _)%release_control_core); done.
    + destruct (drop_control _); [|done..]. by intros [= <-].
  - unfold write_releases. destruct (writing w); try (by intros [= <-]). destruct (begin_write _ _ _ _ _) as [[s r] [[b|]|e|]]; cbn zeta; [|by intros [= <-]| |done].
    + destruct (_ && _); [|destruct (begin_io _ b) as [[s' b']|e|]; [by intros [= <-]| |done]];
        intros H; apply bind_ok in H as (w1 & (s1 & -> & _)%discard_core & [= <-]); done.
    + by destruct e; intros [= <-].
Qed.

Lemma moves_writer_end w r w' : writer_end w = Some r → r = Ok w' → moves w w'.
Proof.
  unfold writer_end. destruct (writing w); try done. destruct (if bool_decide _ then _ else _) as [s cl]. cbn zeta. destruct (cl || _); [|done].
  set (w1 := if cl then _ else _). assert (E1 : calls w1 = calls w) by (by destruct cl). clearbody w1.
  assert (Hm : ∀ v, calls v = calls (set_writing (drop_queue w1) WEnded) → moves w v).
  { intros v Hv rid c Hc. rewrite Hv. cbn [drop_queue set_queue set_table set_writing calls]. rewrite drop_queue_lookup, E1, Hc.
    eexists. split; [reflexivity|]. by destruct (decide _). }
  intros [= <-]. destruct (disconnect _); [intros [= <-]; by apply Hm| |intros [= <-]; by apply Hm].
  destruct (drop_control _) as [s'| |]; [|done..]. intros [= <-]. by apply Hm.
Qed.

Lemma descriptor_calls w payload : calls (decode_response_descriptor w payload).1 = calls w.
Proof. unfold decode_response_descriptor. destruct (decode_buddy_payload _); repeat case_match; done. Qed.

Lemma end_read_calls w id w' : end_read w id = Ok w' → calls w' = calls w.
Proof. unfold end_read. destruct (drop_remote _ _); [|done..]. by intros [= <-]. Qed.

Lemma decode_response_calls shm w hdr payload room m w' r : decode_response shm w hdr payload room m = Ok (w', r) → calls w' = calls w.
Proof.
  unfold decode_response. destruct (negb _); [by intros [= <- <-]|]. destruct (is_buddy _).
  2:{ destruct (decode_reply_control _ _) as [[c n]|e|]; [by intros [= <- <-]..|done]. }
  destruct (negb shm); [by intros [= <- <-]|]. pose proof (descriptor_calls w payload) as Hd.
  destruct (decode_response_descriptor w payload) as [w1 [[d n]|e|]]; cbn in Hd; [|by intros [= <- <-]|done].
  destruct (admit_remote_loan _ _ _) as [[s x] [?|e|]]; [|by intros [= <- <-]|done].
  assert (He : ∀ v x, (let? w := end_read (set_core w1 s) (bp_loan_id d) in Ok (w, x)) = Ok (v, r) → calls v = calls w).
  { intros v y H. apply bind_ok in H as (w3 & Hr%end_read_calls & [= <- _]). rewrite Hr. exact Hd. }
  destruct m; [|apply He..]. destruct (decode_reply_control _ _) as [[[] k]|e|]; [by intros [= <- <-]|apply He..|done].
Qed.

Lemma receive_chunk_calls w rid payload a : calls (receive_chunk w rid payload a).1 = calls w.
Proof.
  unfold receive_chunk. destruct (decode_reply_chunk_meta payload 0) as [[[[ts tc] i] n]| |]; [|done..].
  destruct (i =? 0); [|done]. by destruct (refused a).
Qed.

Lemma moves_completed w v rid r : inv v → calls v = calls w → moves w (complete_pending v rid r).
Proof. intros Hi E. eapply moves_trans; [by apply moves_same|]. by apply moves_complete_pending. Qed.

Lemma moves_on_frame shm w hdr payload room m a w' : inv w → on_frame shm w hdr payload room m a = Ok w' → moves w w'.
Proof.
  intros Hi. unfold on_frame. cbn zeta. destruct (bool_decide _ && _).
  { destruct (receive_release _ _ _ _) as [[s r] e]. intros [= <-]. apply moves_same. by destruct e. }
  destruct (is_signal_flag _); [intros [= <-]; apply moves_same; by repeat case_match|].
  destruct (negb _); [intros [= <-]; by apply moves_complete_pending|]. destruct (is_ctrl _); [intros [= <-]; by apply moves_complete_pending|].
  destruct (is_chunked _).
  - destruct (pending w !! _); [|intros [= <-]; by apply moves_same]. pose proof (inv_receive_chunk w (request_id hdr) payload a Hi) as Hi1.
    pose proof (receive_chunk_calls w (request_id hdr) payload a) as E.
    destruct (receive_chunk _ _ _ _) as [w1 [[r|]|e]]; cbn in Hi1, E; intros [= <-]; [by apply moves_completed|by apply moves_same|].
    destruct e as [| | | | |[]| | | |]; by apply moves_completed.
  - intros H. apply bind_ok in H as ([w1 r] & Hd & [= <-]). pose proof (decode_response_calls _ _ _ _ _ _ _ _ Hd) as E.
    apply inv_decode_response in Hd as [Hi1 _]; [|done]. destruct (unreadable r); by apply moves_completed.
Qed.

Lemma moves_on_oversized shm w hdr payload room w' : inv w → on_oversized shm w hdr payload room = Ok w' → moves w w'.
Proof.
  intros Hi. unfold on_oversized. intros H. apply bind_ok in H as (w1 & Hd & [= <-]). apply moves_completed; [by eapply inv_skip_block|].
  unfold skip_block in Hd. destruct (_ && _); [|by injection Hd as <-].
  pose proof (descriptor_calls w (take (Z.to_nat BUDDY_PAYLOAD_SIZE) payload)) as E.
  destruct (decode_response_descriptor _ _) as [w2 [[d n]|e|]]; cbn in E; [|by injection Hd as <-|done].
  destruct (admit_remote_loan _ _ _) as [[s x] [?|e|]]; [|by injection Hd as <-|done]. apply end_read_calls in Hd. by rewrite Hd.
Qed.

Lemma step_moves origin shm w st w' : inv w → call_step origin shm w st = Ok w' → moves w w'.
Proof.
  intros Hi. destruct st; cbn [call_step].
  - intros [= <-]. by apply moves_begin_call.
  - intros H%taken_ok. by eapply moves_caller_step.
  - intros H%taken_ok. by eapply moves_caller_drop.
  - intros H%taken_ok. by eapply moves_process_take.
  - intros H%ran_step_ok. by eapply moves_process_begin.
  - intros H%ran_step_ok. by eapply moves_process_io.
  - intros H%ran_step_ok. apply moves_write. tauto.
  - intros H%ran_step_ok. apply moves_write. tauto.
  - intros H%ran_step_ok. apply moves_write. tauto.
  - intros H%ran_step_ok. eapply moves_own_batches. by left.
  - intros H%ran_step_ok. eapply moves_own_batches. by right.
  - destruct (writer_end w) as [r|] eqn:E; [|done]. intros H%ran_step_ok. by eapply moves_writer_end.
  - destruct (read_stopped w); [done|]. intros H%ran_step_ok. by eapply moves_on_frame.
  - destruct (read_stopped w); [done|]. intros H%ran_step_ok. by eapply moves_on_oversized.
  - destruct (read_stopped w); [done|]. intros [= <-]. eapply moves_trans; [|apply moves_fail_pending; by apply inv_end]. by apply moves_same.
  - destruct (_ && _) eqn:E; [|done]. intros [= <-]. unfold reader_stopped. eapply moves_trans; [|by apply moves_same].
    set (w1 := if peer_end_seen then _ else w).
    assert (Hi1 : inv w1) by (subst w1; destruct peer_end_seen; [by apply core_keeps|done]).
    eapply (moves_trans w w1); [apply moves_same; by destruct peer_end_seen|]. by apply moves_fail_pending.
  - intros [= <-]. apply moves_same. apply (q_calls _ _ (quiet_deactivate w)).
  - intros [= <-]. by apply moves_same.
  - destruct (stops w); [done|]. intros [= <-]. by apply moves_stop_finish.
  - destruct (core_op (core w) op) as [s|]; [|done]. intros [= <-]. by apply moves_same.
Qed.

Lemma run_moves origin shm w l w' : inv w → call_run origin shm w l = Ok w' → moves w w'.
Proof.
  revert w. induction l as [|st l IH]; intros w Hi; cbn; [intros [= <-]; by apply moves_same|]. intros H. apply bind_ok in H as (w1 & Hs & H).
  eapply moves_trans; [by eapply step_moves|]. eapply IH; [|exact H]. by eapply step_keeps.
Qed.

(** C22 A failure told to have happened before dispatch is safe to retry: unless the peer
    answered that it has no such route, the call has not been sent, and no continuation of
    the run sends it.  No call is ever sent twice, and what a caller is told is the same
    ever after. *)
Theorem predispatch_never_sent origin shm l w rid c o l' w' :
  call_run origin shm connected l = Ok w → calls w !! rid = Some c → caller_outcome (caller c) = Some o →
  call_run origin shm w l' = Ok w' →
  NoDup (publications w')
  ∧ (∃ c', calls w' !! rid = Some c' ∧ caller_outcome (caller c') = Some o)
  ∧ (∀ e, o = inr (PreDispatch, e) → (∃ route, e = NoSuchRoute route) ∨ rid ∉ publications w').
Proof.
  intros Hrun Hc Ho Hrun'. pose proof (run_keeps _ _ _ _ _ connected_calls_inv Hrun) as Hi. pose proof (run_keeps _ _ _ _ _ Hi Hrun') as Hi'.
  destruct (run_moves _ _ _ _ _ Hi Hrun' rid c Hc) as (c' & Hc' & He). split_and!; [apply Hi'|exists c'; split; [done|by apply He]|].
  intros e ->. destruct (v_calls _ Hi rid c Hc) as [Hok _]. destruct (v_calls _ Hi' rid c' Hc') as [Hok' _].
  pose proof (k_outcome _ _ _ _ _ _ Hok _ Ho) as [Hr|Hs]; [left; destruct e; try done; by eexists|]. right.
  assert (Hd : decided (caller c) = true) by (by destruct (caller c)). destruct (e_decided _ _ He Hd) as [_ Hst].
  pose proof (k_published _ _ _ _ _ _ Hok') as Hp. rewrite Hst, Hs in Hp. symmetry in Hp. by apply bool_decide_eq_false in Hp.
Qed.

(** ** Every call returns *)

Definition rank (k : Caller) : nat :=
  match k with
  | Submitting => 11 | Reserving => 10 | Permitted => 9 | Queued => 8 | AwaitReceipt _ => 7 | AwaitSent => 6 | Finishing _ => 5
  | DropRequest _ _ => 4 | Submitted _ => 3 | AwaitReply => 2 | Returning _ | Abandoned => 1 | Returned _ => 0
  end.

(** Whether the caller has let its future go. *)
Definition let_go (k : Caller) : bool := match k with Abandoned | Returned None => true | _ => false end.

Definition ended w : Prop := inv w ∧ writing w = WEnded ∧ read_stopped w = true.

Lemma at_caller_lookup w rid c f : calls w !! rid = Some c → calls (on_call w rid f) !! rid = Some (f c).
Proof. intros H. cbn. by rewrite lookup_alter_eq, H. Qed.

(** Once both drivers have ended, a call that has not returned goes on. *)
Lemma ended_caller_steps w rid c :
  ended w → calls w !! rid = Some c → (∀ o, caller c ≠ Returned o) →
  ∃ w' c', caller_step w rid First [] true = Some w' ∧ calls w' !! rid = Some c' ∧ (rank (caller c') < rank (caller c))%nat
    ∧ writing w' = WEnded ∧ read_stopped w' = true ∧ let_go (caller c') = let_go (caller c).
Proof.
  intros (Hi & Hw & Hr) Hc Hn. destruct (v_stopped _ Hi Hr) as (Hp & _ & Hs). destruct (v_calls _ Hi rid c Hc) as [Hok _].
  unfold call_in in Hok. rewrite Hw in Hok. cbn [locked_by written_by] in Hok.
  destruct Hok as [Kst Klk Kwr Krc Kq Kea Ksub Kdec Ksn Kack Krep Kpd Kro Kout Kpb].
  assert (Hgo : ∀ f, (rank (caller (f c)) < rank (caller c))%nat → let_go (caller (f c)) = let_go (caller c) →
    ∃ w' c', Some (on_call w rid f) = Some w' ∧ calls w' !! rid = Some c' ∧ (rank (caller c') < rank (caller c))%nat
      ∧ writing w' = WEnded ∧ read_stopped w' = true ∧ let_go (caller c') = let_go (caller c)).
  { intros f Hlt Hg. eexists _, (f c). split; [done|]. by split; [apply at_caller_lookup|]. }
  unfold caller_step, at_caller. rewrite Hc, Hs, Hw. cbn [mbind option_bind locked_by negb andb].
  destruct (caller c) as [| | | |b| |e|f e|[e|]| |o| |o] eqn:Hk; cbn [early acknowledged] in *.
  1-3: destruct (Kea eq_refl) as (-> & _); cbn [negb]; by apply Hgo; [cbn; lia|].
  - destruct (started c); cbn [negb]; by apply Hgo; [cbn; lia|].
  - destruct (receipt c) as [|e|] eqn:Er; [|by apply Hgo; [cbn; lia|]..].
    destruct b; [by specialize (Krc (Kack eq_refl) eq_refl)|]. cbn [negb andb]. destruct (started c); by apply Hgo; [cbn; lia|].
  - destruct (receipt c) as [|e|] eqn:Er; [by specialize (Krc (Kack eq_refl) eq_refl)|by apply Hgo; [cbn; lia|]..].
  - by apply Hgo; [cbn; lia|].
  - destruct f; by apply Hgo; [cbn; lia|].
  - by apply Hgo; [cbn; lia|].
  - by apply Hgo; [cbn; lia|].
  - destruct (reply c) as [r|]; [by apply Hgo; [cbn; lia|]|]. rewrite Hp, lookup_empty. by apply Hgo; [cbn; lia|].
  - eexists _, _. split; [reflexivity|]. split; [cbn; by rewrite lookup_alter_eq, Hc|]. split_and!; cbn; done || lia.
  - eexists _, _. split; [reflexivity|]. split; [cbn; by rewrite lookup_alter_eq, Hc|]. split_and!; cbn; done || lia.
  - by destruct (Hn o).
Qed.

Lemma ended_returns origin shm n w rid c :
  ended w → calls w !! rid = Some c → (rank (caller c) <= n)%nat →
  ∃ k w' c' o, (k <= n)%nat ∧ call_run origin shm w (replicate k (SCaller rid First [] true)) = Ok w'
    ∧ calls w' !! rid = Some c' ∧ caller c' = Returned o ∧ let_go (Returned o) = let_go (caller c).
Proof.
  revert w c. induction n as [|n IH]; intros w c He Hc Hle.
  - assert (∃ o, caller c = Returned o) as [o Ho] by (destruct (caller c); cbn in Hle; try lia; by eexists).
    exists 0%nat, w, c, o. by rewrite Ho.
  - destruct (decide (rank (caller c) = 0%nat)) as [H0|H0].
    + assert (∃ o, caller c = Returned o) as [o Ho] by (destruct (caller c); cbn in H0; try lia; by eexists).
      exists 0%nat, w, c, o. rewrite Ho. split_and!; (done || lia).
    + destruct (ended_caller_steps w rid c He Hc) as (w1 & c1 & Hst & Hc1 & Hlt & Hw1 & Hr1 & Hg); [by intros o E; rewrite E in H0|].
      assert (He1 : ended w1) by (split; [by eapply inv_caller_step; [apply He|exact Hst]|done]).
      destruct (IH w1 c1 He1 Hc1) as (k & w' & c' & o & Hk & Hrun & Hc' & Ho & Hg'); [lia|].
      exists (S k), w', c', o. split_and!; [lia| |done|done|congruence]. cbn [replicate call_run call_step]. by rewrite Hst.
Qed.

(** C23 Every call returns: when the reader has stopped and the writer has ended, each call
    that is not over returns after at most eleven steps of its own, with an outcome unless
    its caller let it go; and until then a call without a reply is one that is pending, so
    that a reply or the end of the connection settles it. *)
Theorem calls_return origin shm l w rid c :
  call_run origin shm connected l = Ok w → calls w !! rid = Some c →
  (reply c = None → (∀ o, caller c ≠ Returned o) → is_Some (pending w !! rid))
  ∧ (writing w = WEnded → read_stopped w = true →
     ∃ k w' c' o, (k <= 11)%nat ∧ call_run origin shm w (replicate k (SCaller rid First [] true)) = Ok w'
       ∧ calls w' !! rid = Some c' ∧ caller c' = Returned o ∧ (let_go (caller c) = false → is_Some o)).
Proof.
  intros Hrun Hc. pose proof (run_keeps _ _ _ _ _ connected_calls_inv Hrun) as Hi. split.
  - intros Hr Hn. destruct (v_calls _ Hi rid c Hc) as [Hok _]. pose proof (k_reply _ _ _ _ _ _ Hok Hr Hn) as Hp. by apply bool_decide_eq_true in Hp.
  - intros Hw Hs. destruct (ended_returns origin shm 11 w rid c) as (k & w' & c' & o & Hk & Hrun' & Hc' & Ho & Hg); [done|done|by destruct (caller c); cbn; lia|].
    exists k, w', c', o. split_and!; [done..|]. rewrite <-Hg. by destruct o.
Qed.

(** ** Witnesses *)

Definition world_after (l : list Step) : World := match call_run 0 true connected l with Ok w => w | _ => connected end.
Definition one_step : Step := SCaller 1 First [] true.
Definition caller_at w rid : option Caller := caller <$> calls w !! rid.

(** The connection ends before the call is submitted. *)
Definition refused_run : list Step := [SCall sample_identity 5 []; SEnd LocalClose; SSweep; one_step; one_step].

Lemma predispatch_never_sent_witness :
  caller_at (world_after refused_run) 1 = Some (Returning (inr (PreDispatch, IpcClosed)))
  ∧ 1 ∉ publications (world_after (refused_run ++ [one_step])).
Proof.
  split; [vm_compute; reflexivity|].
  destruct (predispatch_never_sent 0 true refused_run (world_after refused_run) 1
    {| started := false; cancelled := false; slot := false; receipt := NotSent; reply := Some (inr IpcClosed);
       caller := Returning (inr (PreDispatch, IpcClosed)) |}
    (inr (PreDispatch, IpcClosed)) [one_step] (world_after (refused_run ++ [one_step]))) as (_ & _ & H);
    [vm_compute; reflexivity..|]. destruct (H IpcClosed eq_refl) as [[route E]|Hn]; [discriminate E|exact Hn].
Defined.

(** The call is sent, and the connection ends before its reply. *)
Definition sent_run : list Step :=
  [SCall sample_identity 5 []; one_step; one_step; one_step; STake true; SBegin true; SIo true; SFrame; SFlush;
   one_step; one_step; one_step; one_step; one_step; SEnd (IoError true); SSweep; SReaderStop true; SWriterEnd].

Lemma calls_return_witness :
  publications (world_after sent_run) = [1] ∧ caller_at (world_after sent_run) 1 = Some AwaitReply
  ∧ ∃ k w', call_run 0 true (world_after sent_run) (replicate k one_step) = Ok w' ∧ ∃ o, caller_at w' 1 = Some (Returned (Some o)).
Proof.
  split; [vm_compute; reflexivity|]. split; [vm_compute; reflexivity|].
  destruct (calls_return 0 true sent_run (world_after sent_run) 1
    {| started := true; cancelled := false; slot := false; receipt := Sent None; reply := Some (inr IpcClosed); caller := AwaitReply |})
    as [_ H]; [vm_compute; reflexivity..|].
  destruct H as (k & w' & c' & o & _ & Hrun & Hc' & Ho & Hs); [vm_compute; reflexivity..|].
  exists k, w'. split; [exact Hrun|]. destruct (Hs eq_refl) as [x Hx]. exists x. unfold caller_at. rewrite Hc'. cbn. rewrite Ho, Hx. reflexivity.
Defined.
