(* ===== verification/Scheduler.v ===== *)
(** The route scheduler of [c2-server] (scheduler.rs) and the admission gate it shares
    with registration (admission.rs).  Every method is the locked section it runs;
    the waiting loops only repeat [activate_ready]. *)

From S2P Require Import Prelude.

(** ** Admission *)

Inductive AccessLevel := LRead | LWrite.
Inductive ConcurrencyMode := MParallel | MExclusive | MReadParallel.

Definition as_str (m : ConcurrencyMode) : string :=
  match m with
  | MParallel => "parallel"
  | MExclusive => "exclusive"
  | MReadParallel => "read_parallel"
  end.

Inductive SchedulerAcquireError :=
| AClosed
| AUnavailable
| ACapacity (field : string) (limit : Z).

Inductive AdmissionPhase := Open | Draining | Terminal.

(** [pending] of the source, the routes awaiting publication, is not touched here. *)
Record AdmissionState := { generation : Z; phase : AdmissionPhase }.

#[global] Instance AccessLevel_eq_dec : EqDecision AccessLevel.
Proof. solve_decision. Defined.
#[global] Instance ConcurrencyMode_eq_dec : EqDecision ConcurrencyMode.
Proof. solve_decision. Defined.
#[global] Instance AdmissionPhase_eq_dec : EqDecision AdmissionPhase.
Proof. solve_decision. Defined.

Definition AdmissionState_new : AdmissionState := {| generation := 0; phase := Open |}.

Definition is_closed (a : AdmissionState) : bool := negb (bool_decide (phase a = Open)).

Definition check (a : AdmissionState) (gen : Z) : res SchedulerAcquireError unit :=
  guard_err (bool_decide (phase a = Terminal)) AClosed ;?
  guard_err (negb (generation a =? gen)) AUnavailable ;?
  guard_err (bool_decide (phase a = Draining)) AClosed.

Definition check_accepted (a : AdmissionState) (gen : Z) : res SchedulerAcquireError unit :=
  guard_err (bool_decide (phase a = Terminal)) AClosed ;?
  guard_err (negb (generation a =? gen)) AUnavailable.

Definition begin_drain (a : AdmissionState) : AdmissionState :=
  if bool_decide (phase a = Open) then {| generation := generation a; phase := Draining |} else a.

(** [checked_add(1).expect(..)]. *)
Definition next_generation (a : AdmissionState) : res SchedulerAcquireError Z :=
  match checked_add U64_MAX (generation a) 1 with Some g => Ok g | None => Panic end.

Definition terminate (a : AdmissionState) : res SchedulerAcquireError AdmissionState :=
  if bool_decide (phase a = Terminal) then Ok a
  else let? g := next_generation a in Ok {| generation := g; phase := Terminal |}.

Definition begin_start (a : AdmissionState) : res SchedulerAcquireError AdmissionState :=
  let? g := next_generation a in Ok {| generation := g; phase := Open |}.

(** ** Scheduler state *)

(** [NonZeroUsize] limits. *)
Record SchedulerLimits := { max_pending : option Z; max_workers : option Z }.

Definition nonzero (field : string) (v : option Z) : res string (option Z) :=
  match v with
  | None => Ok None
  | Some n => guard_err (n =? 0) (field +:+ " must be at least 1") ;? Ok (Some n)
  end.

Definition try_from_usize (p w : option Z) : res string SchedulerLimits :=
  let? p := nonzero "max_pending" p in
  let? w := nonzero "max_workers" w in
  Ok {| max_pending := p; max_workers := w |}.

Inductive HeldAccess := Parallel | Read | Write.
Inductive RouteAdmissionState := CommittedPending | Opened | RouteClosed.

#[global] Instance HeldAccess_eq_dec : EqDecision HeldAccess.
Proof. solve_decision. Defined.
#[global] Instance RouteAdmissionState_eq_dec : EqDecision RouteAdmissionState.
Proof. solve_decision. Defined.

Record QueuedPermit := { q_ticket : Z; q_access : HeldAccess }.

Record SchedulerState := {
  route_admission : RouteAdmissionState;
  pending : Z;
  active_workers : Z;
  active_readers : Z;
  writer_active : bool;
  next_ticket : Z;
  queue : list QueuedPermit }.

Definition SchedulerState_default : SchedulerState :=
  {| route_admission := Opened; pending := 0; active_workers := 0; active_readers := 0;
     writer_active := false; next_ticket := 0; queue := [] |}.

(** The fixed part of [SchedulerInner]. *)
Record SchedulerInner := {
  mode : ConcurrencyMode;
  access_map : gmap Z AccessLevel;
  limits : SchedulerLimits }.

Record SchedulerPendingPermit := { p_access : HeldAccess; p_ticket : Z; p_generation : Z }.
Record SchedulerGuard := { g_access : HeldAccess; g_generation : Z; g_committed : bool }.

Definition set_route (s : SchedulerState) (r : RouteAdmissionState) : SchedulerState :=
  {| route_admission := r; pending := pending s; active_workers := active_workers s;
     active_readers := active_readers s; writer_active := writer_active s;
     next_ticket := next_ticket s; queue := queue s |}.

(** ** Operations *)

Section scheduler.
Context (inner : SchedulerInner).

Definition check_accepted_admission (a : AdmissionState) (s : SchedulerState) (gen : Z)
    : res SchedulerAcquireError unit :=
  guard_err (negb (bool_decide (route_admission s = Opened))) AClosed ;?
  check_accepted a gen.

Definition worker_slots_available (s : SchedulerState) : Z :=
  match max_workers (limits inner) with
  | None => USIZE_MAX
  | Some limit => Z.max 0 (limit - active_workers s)
  end.

Fixpoint position (ticket : Z) (q : list QueuedPermit) : option Z :=
  match q with
  | [] => None
  | e :: q => if q_ticket e =? ticket then Some 0 else option_map (Z.add 1) (position ticket q)
  end.

(** [queue.remove(position)]: the first entry with the ticket, if any. *)
Fixpoint remove_ticket (ticket : Z) (q : list QueuedPermit) : list QueuedPermit :=
  match q with
  | [] => []
  | e :: q => if q_ticket e =? ticket then q else e :: remove_ticket ticket q
  end.

(** The scan of a reader: it stops at its own entry or at an earlier writer. *)
Fixpoint reader_scan (ticket slots earlier : Z) (q : list QueuedPermit) : bool :=
  match q with
  | [] => false
  | e :: q =>
      if q_ticket e =? ticket then earlier <? slots
      else if bool_decide (q_access e = Write) then false
      else reader_scan ticket slots (earlier + 1) q
  end.

Definition can_activate (s : SchedulerState) (ticket : Z) (access : HeldAccess) : bool :=
  if negb (bool_decide (route_admission s = Opened)) then false
  else
    let slots := worker_slots_available s in
    if slots =? 0 then false
    else
      match access with
      | Parallel => match position ticket (queue s) with Some pos => pos <? slots | None => false end
      | Read => if writer_active s then false else reader_scan ticket slots 0 (queue s)
      | Write =>
          match queue s with e :: _ => q_ticket e =? ticket | [] => false end
          && negb (writer_active s) && (active_readers s =? 0)
      end.

Definition held_access (method_idx : Z) : HeldAccess :=
  match mode inner with
  | MParallel => Parallel
  | MExclusive => Write
  | MReadParallel =>
      match default LWrite (access_map inner !! method_idx) with LRead => Read | LWrite => Write end
  end.

Definition reserve_pending_with_generation (a : AdmissionState) (s : SchedulerState)
    (method_idx : Z) (gen : option Z)
    : res SchedulerAcquireError (SchedulerState * SchedulerPendingPermit) :=
  let access := held_access method_idx in
  match gen with
  | Some g => check_accepted_admission a s g
  | None =>
      guard_err (negb (bool_decide (route_admission s = Opened))) AClosed ;?
      check a (generation a)
  end ;?
  match max_pending (limits inner) with
  | Some limit => guard_err (limit <=? pending s) (ACapacity "max_pending" limit)
  | None => Ok tt
  end ;?
  let ticket := next_ticket s in
  Ok ({| route_admission := route_admission s; pending := pending s + 1;
         active_workers := active_workers s; active_readers := active_readers s;
         writer_active := writer_active s; next_ticket := (next_ticket s + 1) mod 2 ^ 64;
         queue := queue s ++ [{| q_ticket := ticket; q_access := access |}] |},
      {| p_access := access; p_ticket := ticket; p_generation := generation a |}).

Definition reserve_pending a s method_idx := reserve_pending_with_generation a s method_idx None.
Definition reserve_pending_in_generation a s method_idx gen :=
  reserve_pending_with_generation a s method_idx (Some gen).

Definition activate_ready (a : AdmissionState) (s : SchedulerState) (p : SchedulerPendingPermit)
    : res SchedulerAcquireError (option (SchedulerState * SchedulerGuard)) :=
  check_accepted_admission a s (p_generation p) ;?
  if negb (can_activate s (p_ticket p) (p_access p)) then Ok None
  else
    Ok (Some
      ({| route_admission := route_admission s; pending := pending s;
          active_workers := active_workers s + 1;
          active_readers := (match p_access p with Read => active_readers s + 1 | _ => active_readers s end);
          writer_active := (match p_access p with Write => true | _ => writer_active s end);
          next_ticket := next_ticket s; queue := remove_ticket (p_ticket p) (queue s) |},
       {| g_access := p_access p; g_generation := p_generation p; g_committed := false |})).

(** [Drop for SchedulerPendingPermit] of a permit that was not activated. *)
Definition drop_permit (s : SchedulerState) (p : SchedulerPendingPermit)
    : res SchedulerAcquireError SchedulerState :=
  guard_panic (1 <=? pending s) ;?
  Ok {| route_admission := route_admission s; pending := pending s - 1;
        active_workers := active_workers s; active_readers := active_readers s;
        writer_active := writer_active s; next_ticket := next_ticket s;
        queue := remove_ticket (p_ticket p) (queue s) |}.

Definition commit (a : AdmissionState) (s : SchedulerState) (g : SchedulerGuard)
    : res SchedulerAcquireError SchedulerGuard :=
  if g_committed g then Ok g
  else
    check_accepted_admission a s (g_generation g) ;?
    Ok {| g_access := g_access g; g_generation := g_generation g; g_committed := true |}.

Definition check_admission (a : AdmissionState) (s : SchedulerState) (g : SchedulerGuard) :=
  check_accepted_admission a s (g_generation g).

(** [Drop for SchedulerGuard]. *)
Definition drop_guard (s : SchedulerState) (g : SchedulerGuard)
    : res SchedulerAcquireError SchedulerState :=
  guard_panic (1 <=? pending s) ;?
  guard_panic (1 <=? active_workers s) ;?
  (match g_access g with Read => guard_panic (1 <=? active_readers s) | _ => Ok tt end) ;?
  Ok {| route_admission := route_admission s; pending := pending s - 1;
        active_workers := active_workers s - 1;
        active_readers := (match g_access g with Read => active_readers s - 1 | _ => active_readers s end);
        writer_active := (match g_access g with Write => false | _ => writer_active s end);
        next_ticket := next_ticket s; queue := queue s |}.

Definition close (s : SchedulerState) : SchedulerState := set_route s RouteClosed.
Definition is_drained (s : SchedulerState) : bool := (pending s =? 0) && (active_workers s =? 0).

Definition commit_awaiting_admission (s : SchedulerState) : SchedulerState * bool :=
  if bool_decide (route_admission s = Opened) then (set_route s CommittedPending, true) else (s, false).
Definition open_admission_for_registration (s : SchedulerState) : SchedulerState * bool :=
  if bool_decide (route_admission s = CommittedPending) then (set_route s Opened, true) else (s, false).

Definition is_unconstrained_with_state (a : AdmissionState) (s : SchedulerState) : bool :=
  negb (is_closed a) && bool_decide (mode inner = MParallel)
  && bool_decide (max_pending (limits inner) = None) && bool_decide (max_workers (limits inner) = None)
  && bool_decide (route_admission s = Opened).

Record SchedulerSnapshot := {
  sn_mode : ConcurrencyMode; sn_max_pending : option Z; sn_max_workers : option Z;
  sn_pending : Z; sn_active_workers : Z; sn_closed : bool; sn_is_unconstrained : bool }.

Definition snapshot (a : AdmissionState) (s : SchedulerState) : SchedulerSnapshot :=
  {| sn_mode := mode inner; sn_max_pending := max_pending (limits inner);
     sn_max_workers := max_workers (limits inner); sn_pending := pending s;
     sn_active_workers := active_workers s;
     sn_closed := negb (bool_decide (route_admission s = Opened)) || is_closed a;
     sn_is_unconstrained := is_unconstrained_with_state a s |}.
End scheduler.
