(* ===== verification/SchedulerRun.v ===== *)
(** Runs of one scheduler: every interleaving of reservations, activations, commits,
    drops and admission changes, and what holds in all of them. *)

From S2P Require Import Prelude.
From S2P Require Import Scheduler.

(** ** Runs *)

(** The permits waiting, oldest first; the guards held; the reservations granted so
    far (the ticket counter wraps after [2 ^ 64] of them). *)
Record World := W {
  adm : AdmissionState;
  st : SchedulerState;
  permits : list SchedulerPendingPermit;
  guards : list SchedulerGuard;
  drawn : Z }.

Definition initial : World := W AdmissionState_new SchedulerState_default [] [] 0.

Section runs.
Context (inner : SchedulerInner).

Inductive step : World → World → Prop :=
| s_reserve a s ps gs n m gen s' p :
    reserve_pending_with_generation inner a s m gen = Ok (s', p) →
    step (W a s ps gs n) (W a s' (ps ++ [p]) gs (n + 1))
| s_activate a s pre p post gs n s' g :
    activate_ready inner a s p = Ok (Some (s', g)) →
    step (W a s (pre ++ p :: post) gs n) (W a s' (pre ++ post) (g :: gs) n)
| s_drop_permit a s pre p post gs n s' :
    drop_permit s p = Ok s' →
    step (W a s (pre ++ p :: post) gs n) (W a s' (pre ++ post) gs n)
| s_commit a s ps pre g post n g' :
    commit a s g = Ok g' →
    step (W a s ps (pre ++ g :: post) n) (W a s ps (pre ++ g' :: post) n)
| s_drop_guard a s ps pre g post n s' :
    drop_guard s g = Ok s' →
    step (W a s ps (pre ++ g :: post) n) (W a s' ps (pre ++ post) n)
| s_close a s ps gs n : step (W a s ps gs n) (W a (close s) ps gs n)
| s_commit_awaiting a s ps gs n :
    step (W a s ps gs n) (W a (commit_awaiting_admission s).1 ps gs n)
| s_open a s ps gs n :
    step (W a s ps gs n) (W a (open_admission_for_registration s).1 ps gs n)
| s_drain a s ps gs n : step (W a s ps gs n) (W (begin_drain a) s ps gs n)
| s_terminate a s ps gs n a' :
    terminate a = Ok a' → step (W a s ps gs n) (W a' s ps gs n)
| s_start a s ps gs n a' :
    begin_start a = Ok a' → step (W a s ps gs n) (W a' s ps gs n).

Inductive reachable : World → Prop :=
| reach_initial : reachable initial
| reach_step w w' : reachable w → step w w' → reachable w'.

(** ** The invariant *)

Definition entry (p : SchedulerPendingPermit) : QueuedPermit :=
  {| q_ticket := p_ticket p; q_access := p_access p |}.

Definition readers (gs : list SchedulerGuard) : Z := blen (filter (fun g => g_access g = Read) gs).
Definition writers (gs : list SchedulerGuard) : Z := blen (filter (fun g => g_access g = Write) gs).

(** The access kinds of each mode. *)
Definition mode_allows (h : HeldAccess) : Prop :=
  match mode inner with
  | MParallel => h = Parallel
  | MExclusive => h = Write
  | MReadParallel => h = Read ∨ h = Write
  end.

Record inv (w : World) : Prop := {
  i_queue : queue (st w) = entry <$> permits w;
  i_pending : pending (st w) = blen (permits w) + blen (guards w);
  i_workers : active_workers (st w) = blen (guards w);
  i_readers : active_readers (st w) = readers (guards w);
  i_writer : if writer_active (st w) then writers (guards w) = 1 ∧ blen (guards w) = 1
             else writers (guards w) = 0;
  i_permit_mode : Forall (fun p => mode_allows (p_access p)) (permits w);
  i_guard_mode : Forall (fun g => mode_allows (g_access g)) (guards w);
  i_max_workers limit : max_workers (limits inner) = Some limit → blen (guards w) <= Z.max 0 limit;
  i_max_pending limit : max_pending (limits inner) = Some limit → pending (st w) <= Z.max 0 limit;
  i_generation : 0 <= generation (adm w)
    ∧ Forall (fun p => p_generation p <= generation (adm w)) (permits w)
    ∧ Forall (fun g => g_generation g <= generation (adm w)) (guards w);
  i_drawn : 0 <= drawn w;
  i_ticket : next_ticket (st w) = drawn w mod 2 ^ 64;
  i_nodup : NoDup (p_ticket <$> permits w);
  i_tickets : Forall (fun p => 0 <= p_ticket p < drawn w) (permits w) }.

(** ** Counting *)

Lemma readers_mid pre g post :
  readers (pre ++ g :: post) = (if decide (g_access g = Read) then 1 else 0) + readers (pre ++ post).
Proof.
  unfold readers. rewrite !filter_app, filter_cons, !blen_app. case_decide; rewrite ?blen_cons; lia.
Qed.
Lemma writers_mid pre g post :
  writers (pre ++ g :: post) = (if decide (g_access g = Write) then 1 else 0) + writers (pre ++ post).
Proof.
  unfold writers. rewrite !filter_app, filter_cons, !blen_app. case_decide; rewrite ?blen_cons; lia.
Qed.
Lemma blen_mid {A} (pre : list A) x post : blen (pre ++ x :: post) = 1 + blen (pre ++ post).
Proof. rewrite !blen_app, blen_cons. lia. Qed.

Lemma Forall_mid {A} (P : A → Prop) pre x post :
  Forall P (pre ++ x :: post) ↔ P x ∧ Forall P (pre ++ post).
Proof. rewrite !Forall_app, Forall_cons. tauto. Qed.
Lemma nodup_mid (pre post : list SchedulerPendingPermit) p :
  NoDup (p_ticket <$> pre ++ p :: post) → NoDup (p_ticket <$> pre ++ post).
Proof.
  rewrite !fmap_app, fmap_cons. intros (H1 & H2 & [_ H3]%NoDup_cons)%NoDup_app. apply NoDup_app.
  split_and!; try done. intros x Hx Hx'. apply (H2 x Hx). by right.
Qed.

Lemma readers_nonneg gs : 0 <= readers gs <= blen gs.
Proof. unfold readers, blen. pose proof (length_filter (fun g => g_access g = Read) gs). lia. Qed.
Lemma writers_nonneg gs : 0 <= writers gs <= blen gs.
Proof. unfold writers, blen. pose proof (length_filter (fun g => g_access g = Write) gs). lia. Qed.

Lemma writers_parallel gs : Forall (fun g => g_access g = Parallel) gs → writers gs = 0.
Proof.
  induction 1 as [|g gs Hg _ IH]; [done|]. pose proof (writers_mid [] g gs) as H. simpl in H.
  rewrite H, IH, Hg. done.
Qed.

(** Neither readers nor writers: every guard would be a parallel one. *)
Lemma idle_guards gs :
  readers gs = 0 → writers gs = 0 → Forall (fun g => g_access g ≠ Parallel) gs → gs = [].
Proof.
  destruct gs as [|g gs]; [done|]. intros Hr Hw [Hg _]%Forall_cons.
  pose proof (readers_mid [] g gs) as H1. pose proof (writers_mid [] g gs) as H2. simpl in *.
  pose proof (readers_nonneg gs). pose proof (writers_nonneg gs).
  destruct (g_access g); [done| |]; repeat case_decide; try done; lia.
Qed.

Lemma mode_not_parallel h gs :
  h ≠ Parallel → mode_allows h → Forall (fun g => mode_allows (g_access g)) gs →
  Forall (fun g => g_access g ≠ Parallel) gs.
Proof.
  unfold mode_allows. intros Hh Hm Hall. eapply Forall_impl; [exact Hall|]. intros g. simpl.
  destruct (mode inner); intros Hg; [done|congruence|destruct Hg; congruence].
Qed.

Lemma remove_entry pre p post :
  NoDup (p_ticket <$> pre ++ p :: post) →
  remove_ticket (p_ticket p) (entry <$> pre ++ p :: post) = entry <$> pre ++ post.
Proof.
  induction pre as [|x pre IH]; cbn; intros Hnd.
  - by rewrite Z.eqb_refl.
  - apply NoDup_cons in Hnd as [Hni Hnd]. destruct (Z.eqb_spec (p_ticket x) (p_ticket p)) as [He|_].
    + destruct Hni. rewrite He, fmap_app, elem_of_app. right. left.
    + f_equal. by apply IH.
Qed.

Lemma held_access_mode m : mode_allows (held_access inner m).
Proof. unfold mode_allows, held_access. destruct (mode inner); try done. case_match; auto. Qed.

Lemma sched_inv_initial : inv initial.
Proof. by split; simpl; try done; try (by constructor); intros; lia || apply Z.le_max_l. Qed.

Lemma reserve_slot_ok a s m gen s' p :
  reserve_pending_with_generation inner a s m gen = Ok (s', p) →
  route_admission s = Opened
  ∧ (∀ limit, max_pending (limits inner) = Some limit → pending s < limit)
  ∧ p = {| p_access := held_access inner m; p_ticket := next_ticket s; p_generation := generation a |}
  ∧ s' = {| route_admission := route_admission s; pending := pending s + 1;
         active_workers := active_workers s; active_readers := active_readers s;
         writer_active := writer_active s; next_ticket := (next_ticket s + 1) mod 2 ^ 64;
         queue := queue s ++ [entry p] |}.
Proof.
  unfold reserve_pending_with_generation. intros (u & Hc & (u1 & Hl & [= <- <-])%bind_ok)%bind_ok.
  split_and!; try done.
  - unfold check_accepted_admission in Hc.
    destruct gen; apply bind_ok in Hc as (u2 & Hr & _); apply guard_err_ok, negb_false_iff in Hr;
      by apply bool_decide_eq_true in Hr.
  - intros limit Hlim. rewrite Hlim in Hl. apply guard_err_ok in Hl. lia.
Qed.

Lemma inv_reserve_slot a s ps gs n m gen s' p :
  n + 1 <= 2 ^ 64 → inv (W a s ps gs n) → reserve_pending_with_generation inner a s m gen = Ok (s', p) →
  inv (W a s' (ps ++ [p]) gs (n + 1)).
Proof.
  intros Hn [] (Hop & Hlim & Hp & ->)%reserve_slot_ok. simpl in *. destruct i_generation0 as (Hg & Hgp & Hgg).
  assert (p_ticket p = n) as Ht by (rewrite Hp, <-(Z.mod_small n (2 ^ 64)) by lia; done).
  split; simpl; try done.
  - by rewrite i_queue0, fmap_app.
  - rewrite blen_app, blen_cons, blen_nil. lia.
  - apply Forall_app. split; [done|]. constructor; [|done]. rewrite Hp. apply held_access_mode.
  - intros limit Hl. specialize (Hlim limit Hl). lia.
  - split_and!; try done. apply Forall_app. split; [done|]. by constructor; [rewrite Hp; simpl|].
  - lia.
  - rewrite i_ticket0, Zplus_mod_idemp_l. done.
  - rewrite fmap_app. apply NoDup_app. split_and!; [done| |apply NoDup_singleton].
    intros t Hin Ht'%list_elem_of_singleton. apply list_elem_of_fmap in Hin as (x & -> & Hx).
    rewrite Forall_forall in i_tickets0. specialize (i_tickets0 x Hx). lia.
  - apply Forall_app. split; [|constructor; [lia|done]]. eapply Forall_impl; [exact i_tickets0|]. simpl. lia.
Qed.

(** ** Activation *)

Lemma position_entry pre p post :
  NoDup (p_ticket <$> pre ++ p :: post) →
  position (p_ticket p) (entry <$> pre ++ p :: post) = Some (blen pre).
Proof.
  induction pre as [|x pre IH]; cbn; intros Hnd; [by rewrite Z.eqb_refl|].
  apply NoDup_cons in Hnd as [Hni Hnd]. destruct (Z.eqb_spec (p_ticket x) (p_ticket p)) as [He|_].
  - destruct Hni. rewrite He, fmap_app, elem_of_app. right. left.
  - rewrite IH by done. cbn [option_map]. by rewrite blen_cons.
Qed.

Lemma reader_scan_entry slots k pre p post :
  NoDup (p_ticket <$> pre ++ p :: post) →
  reader_scan (p_ticket p) slots k (entry <$> pre ++ p :: post) = true
  ↔ Forall (fun x => p_access x ≠ Write) pre ∧ k + blen pre < slots.
Proof.
  revert k. induction pre as [|x pre IH]; cbn; intros k Hnd.
  - rewrite Z.eqb_refl, Z.ltb_lt. change (blen (@nil SchedulerPendingPermit)) with 0.
    split; [intros; split; [constructor|lia]|intros [_ ?]; lia].
  - apply NoDup_cons in Hnd as [Hni Hnd]. destruct (Z.eqb_spec (p_ticket x) (p_ticket p)) as [He|_].
    { destruct Hni. rewrite He, fmap_app, elem_of_app. right. left. }
    rewrite Forall_cons, blen_cons. destruct (bool_decide (p_access x = Write)) eqn:Hw.
    + apply bool_decide_eq_true in Hw. split; [done|]. by intros [[] _].
    + apply bool_decide_eq_false in Hw. rewrite IH by done.
      split; intros [H ?]; [split; [done|lia]|destruct H; split; [done|lia]].
Qed.

(** When the permit with [pre] queued before it may run. *)
Definition admissible (s : SchedulerState) (h : HeldAccess) (pre : list SchedulerPendingPermit) : Prop :=
  match h with
  | Parallel => blen pre < worker_slots_available inner s
  | Read => writer_active s = false ∧ Forall (fun x => p_access x ≠ Write) pre
            ∧ blen pre < worker_slots_available inner s
  | Write => writer_active s = false ∧ active_readers s = 0 ∧ pre = []
             ∧ 0 < worker_slots_available inner s
  end.

Lemma slots_nonneg s : 0 <= worker_slots_available inner s.
Proof. unfold worker_slots_available. case_match; [lia|done]. Qed.

Lemma can_activate_spec s pre p post :
  queue s = entry <$> pre ++ p :: post → NoDup (p_ticket <$> pre ++ p :: post) →
  can_activate inner s (p_ticket p) (p_access p) = true
  ↔ route_admission s = Opened ∧ admissible s (p_access p) pre.
Proof.
  intros Hq Hnd. unfold can_activate, admissible. pose proof (slots_nonneg s).
  pose proof (blen_nonneg pre).
  destruct (bool_decide (route_admission s = Opened)) eqn:Ho; simpl;
    [apply bool_decide_eq_true in Ho|apply bool_decide_eq_false in Ho; by split; [|intros [? _]]].
  destruct (Z.eqb_spec (worker_slots_available inner s) 0) as [Hz|Hz].
  { split; [done|]. intros [_ Ha]. destruct (p_access p); lia. }
  rewrite Hq. destruct (p_access p).
  - rewrite position_entry by done. rewrite Z.ltb_lt. tauto.
  - destruct (writer_active s); [split; [done|by intros (_ & ? & _)]|].
    rewrite reader_scan_entry by done. rewrite Z.add_0_l. tauto.
  - rewrite !andb_true_iff, negb_true_iff, Z.eqb_eq. split.
    + intros [[Hh ?] ?]. split_and!; try done; [|lia]. destruct pre as [|x pre]; [done|]. cbn in Hh, Hnd.
      apply NoDup_cons in Hnd as [Hni _]. apply Z.eqb_eq in Hh. destruct Hni.
      rewrite Hh, fmap_app, elem_of_app. right. left.
    + intros (_ & ? & ? & -> & _). split_and!; try done. cbn. lia.
Qed.

Lemma accepted_ok a s gen u :
  check_accepted_admission a s gen = Ok u ↔
  route_admission s = Opened ∧ phase a ≠ Terminal ∧ generation a = gen.
Proof.
  unfold check_accepted_admission, check_accepted. destruct u.
  destruct (bool_decide (route_admission s = Opened)) eqn:H1; simpl;
    [apply bool_decide_eq_true in H1|apply bool_decide_eq_false in H1; by split; [|intros [? _]]].
  destruct (bool_decide (phase a = Terminal)) eqn:H2; simpl;
    [apply bool_decide_eq_true in H2; by split; [|intros (_ & ? & _)]|apply bool_decide_eq_false in H2].
  destruct (Z.eqb_spec (generation a) gen); simpl; split; try done. by intros (_ & _ & ?).
Qed.

Lemma activate_ok a s p s' g :
  activate_ready inner a s p = Ok (Some (s', g)) →
  phase a ≠ Terminal ∧ generation a = p_generation p
  ∧ can_activate inner s (p_ticket p) (p_access p) = true
  ∧ s' = {| route_admission := route_admission s; pending := pending s;
          active_workers := active_workers s + 1;
          active_readers := (match p_access p with Read => active_readers s + 1 | _ => active_readers s end);
          writer_active := (match p_access p with Write => true | _ => writer_active s end);
          next_ticket := next_ticket s; queue := remove_ticket (p_ticket p) (queue s) |}
  ∧ g = {| g_access := p_access p; g_generation := p_generation p; g_committed := false |}.
Proof.
  unfold activate_ready. intros (u & [_ [??]]%accepted_ok & Ha)%bind_ok.
  destruct (can_activate _ _ _ _) eqn:Hca; simpl in Ha; simplify_eq; by split_and!.
Qed.

Lemma inv_activate a s pre p post gs n s' g :
  inv (W a s (pre ++ p :: post) gs n) → activate_ready inner a s p = Ok (Some (s', g)) →
  inv (W a s' (pre ++ post) (g :: gs) n).
Proof.
  intros [] (Hph & Hge & Hca & -> & ->)%activate_ok. simpl in *. destruct i_generation0 as (Hg & Hgp & Hgg).
  apply (can_activate_spec _ pre p post) in Hca as [Hop Had]; [|done|done].
  apply Forall_mid in i_permit_mode0 as [Hm Hms]. apply Forall_mid in Hgp as [Hgp Hgps].
  apply Forall_mid in i_tickets0 as [_ Hts].
  pose proof (fun g => readers_mid [] g gs) as Hr. pose proof (fun g => writers_mid [] g gs) as Hw. simpl in Hr, Hw.
  pose proof (blen_nonneg gs). pose proof (blen_nonneg pre).
  assert (0 < worker_slots_available inner s) as Hslots by (unfold admissible in Had; destruct (p_access p); lia).
  split; simpl; rewrite ?blen_cons; try done.
  - rewrite i_queue0. by apply remove_entry.
  - rewrite blen_mid in i_pending0. lia.
  - lia.
  - rewrite Hr. simpl. destruct (p_access p); case_decide; try done; lia.
  - rewrite Hw. simpl. unfold admissible in Had. destruct (p_access p) eqn:Ha; case_decide; try done.
    + destruct (writer_active s); [|lia]. exfalso. destruct i_writer0 as [Hone Hlen].
      pose proof (writers_nonneg gs). unfold mode_allows in *.
      destruct (mode inner); [|done|by destruct Hm].
      rewrite writers_parallel in Hone; [lia|done].
    + destruct Had as [Hwf _]. rewrite Hwf in *. lia.
    + destruct Had as (Hwf & Hrd & _ & _). rewrite Hwf in i_writer0.
      rewrite (idle_guards gs); [done|congruence|done|]. by eapply mode_not_parallel; [|exact Hm|].
  - by constructor.
  - intros limit Hl. unfold worker_slots_available in Hslots. rewrite Hl in Hslots. lia.
  - split_and!; [done..|by constructor].
  - by eapply nodup_mid.
Qed.

Lemma inv_drop_permit a s pre p post gs n s' :
  inv (W a s (pre ++ p :: post) gs n) → drop_permit s p = Ok s' → inv (W a s' (pre ++ post) gs n).
Proof.
  intros [] (u & _ & [= <-])%bind_ok. simpl in *. destruct i_generation0 as (Hg & Hgp & Hgg).
  apply Forall_mid in i_permit_mode0 as [Hm Hms]. apply Forall_mid in Hgp as [Hgp Hgps].
  apply Forall_mid in i_tickets0 as [_ Hts].
  rewrite blen_mid in i_pending0. split; simpl; try done.
  - rewrite i_queue0. by apply remove_entry.
  - lia.
  - intros limit Hl. specialize (i_max_pending0 limit Hl). lia.
  - by eapply nodup_mid.
Qed.

Lemma inv_commit a s ps pre g post n g' :
  inv (W a s ps (pre ++ g :: post) n) → commit a s g = Ok g' → inv (W a s ps (pre ++ g' :: post) n).
Proof.
  intros [] Hc. assert (g_access g' = g_access g ∧ g_generation g' = g_generation g) as [Ha Hg'].
  { unfold commit in Hc. destruct (g_committed g); [by simplify_eq|]. by apply bind_ok in Hc as (u & _ & [= <-]). }
  simpl in *. destruct i_generation0 as (Hg & Hgp & Hgg). rewrite Forall_mid in *.
  split; simpl; rewrite ?readers_mid, ?writers_mid, ?blen_mid, ?Forall_mid, ?Ha, ?Hg' in *; done.
Qed.

Lemma inv_drop_guard a s ps pre g post n s' :
  inv (W a s ps (pre ++ g :: post) n) → drop_guard s g = Ok s' → inv (W a s' ps (pre ++ post) n).
Proof.
  intros [] (u & _ & (u1 & _ & (u2 & _ & [= <-])%bind_ok)%bind_ok)%bind_ok. simpl in *.
  destruct i_generation0 as (Hg & Hgp & Hgg). rewrite ?readers_mid, ?writers_mid, ?blen_mid, ?Forall_mid in *.
  pose proof (writers_nonneg (pre ++ post)). split; simpl; try done; try tauto; try lia.
  - destruct (g_access g); simpl in *; lia.
  - destruct (g_access g), (writer_active s); simpl in *; lia.
  - intros limit Hl. specialize (i_max_workers0 limit Hl). lia.
  - intros limit Hl. specialize (i_max_pending0 limit Hl). lia.
Qed.

Lemma inv_route a s ps gs n r : inv (W a s ps gs n) → inv (W a (set_route s r) ps gs n).
Proof. by intros []. Qed.

Lemma inv_admission a s ps gs n a' :
  generation a <= generation a' → inv (W a s ps gs n) → inv (W a' s ps gs n).
Proof.
  intros Hle []. simpl in *. destruct i_generation0 as (Hg & Hgp & Hgg). split; simpl; try done.
  split_and!; [lia|eapply Forall_impl; [exact Hgp|simpl; lia]|eapply Forall_impl; [exact Hgg|simpl; lia]].
Qed.

Lemma next_generation_ok a g : next_generation a = Ok g → g = generation a + 1 ∧ g <= U64_MAX.
Proof. unfold next_generation, checked_add. case_match; [|done]. case_match; [|done]. naive_solver lia. Qed.

Lemma admission_monotone w w' : step w w' → generation (adm w) <= generation (adm w') ∧ drawn w <= drawn w'.
Proof.
  destruct 1 as [| | | | | | | | |? ? ? ? ? ? Ht|? ? ? ? ? ? Ht]; simpl; try lia.
  - unfold begin_drain. case_match; simpl; lia.
  - unfold terminate in Ht. destruct (bool_decide _); [simplify_eq; lia|].
    apply bind_ok in Ht as (g & [-> _]%next_generation_ok & [= <-]). simpl. lia.
  - apply bind_ok in Ht as (g & [-> _]%next_generation_ok & [= <-]). simpl. lia.
Qed.

Lemma sched_step_inv w w' : drawn w' <= 2 ^ 64 → step w w' → inv w → inv w'.
Proof.
  intros Hd Hst Hi. pose proof (proj1 (admission_monotone _ _ Hst)) as Hg.
  destruct Hst; simpl in *; try (by eapply inv_admission).
  - by eapply inv_reserve_slot.
  - by eapply inv_activate.
  - by eapply inv_drop_permit.
  - by eapply inv_commit.
  - by eapply inv_drop_guard.
  - by apply inv_route.
  - unfold commit_awaiting_admission. case_match; [by apply inv_route|done].
  - unfold open_admission_for_registration. case_match; [by apply inv_route|done].
Qed.

Lemma sched_reachable_inv w : reachable w → drawn w <= 2 ^ 64 → inv w.
Proof.
  induction 1 as [|w w' Hr IH Hst]; intros Hd; [apply sched_inv_initial|].
  eapply sched_step_inv; [done|exact Hst|]. apply IH. pose proof (proj2 (admission_monotone _ _ Hst)). lia.
Qed.
End runs.

(** ** What runs guarantee *)

Section claims.
Context (inner : SchedulerInner).

Lemma blen_zero {A} (l : list A) : blen l = 0 → l = [].
Proof. destruct l as [|x l]; [done|]. rewrite blen_cons. pose proof (blen_nonneg l). lia. Qed.

Lemma only_writer w g :
  inv inner w → g ∈ guards w → g_access g = Write → guards w = [g].
Proof.
  intros [] (pre & post & Hg)%list_elem_of_split Ha. rewrite Hg in *.
  rewrite writers_mid, blen_mid, Ha in i_writer0. pose proof (writers_nonneg (pre ++ post)).
  destruct (writer_active (st w)); simpl in *; [|lia].
  destruct i_writer0 as [_ Hl]. assert (pre ++ post = []) as [-> ->]%app_eq_nil by (apply blen_zero; lia). done.
Qed.

Lemma activate_iff a s p :
  (∃ s' g, activate_ready inner a s p = Ok (Some (s', g)))
  ↔ phase a ≠ Terminal ∧ generation a = p_generation p
    ∧ can_activate inner s (p_ticket p) (p_access p) = true.
Proof.
  split.
  - intros (s' & g & (? & ? & ? & _)%activate_ok). done.
  - intros (Hph & Hg & Hc). unfold activate_ready.
    assert (route_admission s = Opened) as Ho.
    { unfold can_activate in Hc. destruct (bool_decide _) eqn:Ho; [|done]. by apply bool_decide_eq_true in Ho. }
    rewrite (proj2 (accepted_ok a s (p_generation p) tt)) by done. cbn [res_bind]. rewrite Hc. by do 2 eexists.
Qed.

Lemma parallel_mode h l :
  mode_allows inner h → h = Read → Forall (fun q => mode_allows inner (p_access q)) l →
  Forall (fun q => p_access q ≠ Write) l ↔ Forall (fun q => p_access q = Read) l.
Proof.
  unfold mode_allows. intros Hm -> Hl. destruct (mode inner); [done|done|].
  rewrite !Forall_forall in *. split; intros H q Hq; specialize (Hl q Hq); specialize (H q Hq).
  - by destruct Hl.
  - congruence.
Qed.

Lemma stale_rejected a s gen : gen < generation a → ∃ e, check_accepted_admission a s gen = Err e.
Proof.
  intros Hlt. unfold check_accepted_admission, check_accepted.
  destruct (negb (bool_decide (route_admission s = Opened))); [by eexists|].
  destruct (bool_decide (phase a = Terminal)); [by eexists|]. simpl.
  destruct (Z.eqb_spec (generation a) gen); [lia|by eexists].
Qed.

(** The conditions of [can_activate], read off the guards that are held. *)
Lemma admissible_iff w pre h :
  inv inner w → mode_allows inner h → Forall (fun q => mode_allows inner (p_access q)) pre →
  admissible inner (st w) h pre
  ↔ match h with
    | Parallel => blen pre < worker_slots_available inner (st w)
    | Read => Forall (fun g => g_access g = Read) (guards w)
              ∧ Forall (fun q => p_access q = Read) pre
              ∧ blen pre < worker_slots_available inner (st w)
    | Write => guards w = [] ∧ pre = [] ∧ 0 < worker_slots_available inner (st w)
    end.
Proof.
  intros [] Hm Hpre. unfold admissible. destruct h; [done| |].
  - rewrite (parallel_mode Read) by done.
    assert (writer_active (st w) = false ↔ Forall (fun g => g_access g = Read) (guards w)); [|tauto].
    unfold mode_allows in *. destruct (mode inner); [done|done|]. split.
    + intros Hw. rewrite Hw in i_writer0. rewrite Forall_forall in *. intros g Hg.
      destruct (i_guard_mode0 g Hg) as [|Ha]; [done|]. apply list_elem_of_split in Hg as (l & k & Hg).
      rewrite Hg, writers_mid, Ha in i_writer0. pose proof (writers_nonneg (l ++ k)). simpl in *. lia.
    + intros Hall. destruct (writer_active (st w)); [|done]. destruct i_writer0 as [Hone _].
      unfold writers in Hone. destruct (filter _ (guards w)) as [|g gs] eqn:Hf; [done|].
      assert (g ∈ filter (fun g => g_access g = Write) (guards w)) as Hg by (rewrite Hf; left).
      apply list_elem_of_filter in Hg as [Ha Hg]. rewrite Forall_forall in Hall. rewrite Hall in Ha; done.
  - assert (writer_active (st w) = false ∧ active_readers (st w) = 0 ↔ guards w = []); [|tauto]. split.
    + intros [Hw Hz]. rewrite Hw in i_writer0. apply (idle_guards (guards w)); [congruence|done|].
      by eapply mode_not_parallel; [|exact Hm|].
    + intros Hg. rewrite Hg in *. destruct (writer_active (st w)); [by destruct i_writer0|done].
Qed.

(** C6 In every run of fewer than [2 ^ 64] reservations, a write guard is held alone,
    at most [max_workers] guards are held and at most [max_pending] calls are queued
    or running. *)
Theorem writers_exclusive_and_bounded w :
  reachable inner w → drawn w <= 2 ^ 64 →
  (∀ g, g ∈ guards w → g_access g = Write → guards w = [g])
  ∧ (∀ limit, max_workers (limits inner) = Some limit → 0 < limit → blen (guards w) <= limit)
  ∧ (∀ limit, max_pending (limits inner) = Some limit → 0 < limit →
       blen (permits w) + blen (guards w) <= limit).
Proof.
  intros Hr Hd. pose proof (sched_reachable_inv _ _ Hr Hd) as Hi. split_and!.
  - intros g. by apply only_writer.
  - intros limit Hl Hp. pose proof (i_max_workers _ _ Hi limit Hl). lia.
  - intros limit Hl Hp. pose proof (i_max_pending _ _ Hi limit Hl). rewrite <-(i_pending _ _ Hi). lia.
Qed.

(** The scheduler's counters are exact in every run: [pending] counts the waiting
    permits and the guards, the active counts match the guards, [is_drained] holds
    exactly when neither exists, and dropping any permit or guard never underflows. *)
Theorem scheduler_accounting w :
  reachable inner w → drawn w <= 2 ^ 64 →
  pending (st w) = blen (permits w) + blen (guards w)
  ∧ active_workers (st w) = blen (guards w)
  ∧ active_readers (st w) = blen (filter (fun g => g_access g = Read) (guards w))
  ∧ (writer_active (st w) = true ↔ ∃ g, g ∈ guards w ∧ g_access g = Write)
  ∧ (is_drained (st w) = true ↔ permits w = [] ∧ guards w = [])
  ∧ (∀ p, p ∈ permits w → ∃ s', drop_permit (st w) p = Ok s')
  ∧ (∀ g, g ∈ guards w → ∃ s', drop_guard (st w) g = Ok s').
Proof.
  intros Hr Hd. pose proof (sched_reachable_inv _ _ Hr Hd) as Hi. pose proof Hi as [].
  pose proof (blen_nonneg (permits w)). pose proof (blen_nonneg (guards w)). split_and!; try done.
  - split.
    + intros Hw. rewrite Hw in i_writer0. destruct i_writer0 as [Hone _]. unfold writers in Hone.
      destruct (filter _ (guards w)) as [|g gs] eqn:Hf; [done|]. exists g.
      assert (g ∈ filter (fun g => g_access g = Write) (guards w)) as Hg by (rewrite Hf; left).
      apply list_elem_of_filter in Hg. tauto.
    + intros (g & (pre & post & Hg)%list_elem_of_split & Ha). rewrite Hg, writers_mid, Ha in i_writer0.
      pose proof (writers_nonneg (pre ++ post)). destruct (writer_active (st w)); simpl in *; [done|lia].
  - unfold is_drained. rewrite andb_true_iff, !Z.eqb_eq, i_pending0, i_workers0. split.
    + intros [? ?]. split; apply blen_zero; lia.
    + by intros [-> ->].
  - intros p (pre & post & Hp)%list_elem_of_split. unfold drop_permit. rewrite i_pending0, Hp, blen_mid.
    pose proof (blen_nonneg (pre ++ post)). rewrite (proj2 (Z.leb_le _ _)) by lia. by eexists.
  - intros g (pre & post & Hg)%list_elem_of_split. unfold drop_guard.
    pose proof (blen_nonneg (pre ++ post)). pose proof (readers_nonneg (pre ++ post)).
    rewrite Hg, readers_mid, blen_mid in *.
    rewrite (proj2 (Z.leb_le 1 (pending _))), (proj2 (Z.leb_le 1 (active_workers _))) by lia.
    cbn [guard_panic res_bind]. destruct (g_access g); [by eexists| |by eexists].
    rewrite (proj2 (Z.leb_le 1 (active_readers _))) by (simpl in *; lia). by eexists.
Qed.

(** C7 Activation is exactly first come, first served: a waiting permit becomes a guard
    precisely when its admission generation still runs, the route is open, a worker
    slot is left for it, and nothing queued earlier conflicts: a writer needs to be at
    the front with no guard of another call, a reader may pass only earlier readers. *)
Theorem activation_first_come w pre p post :
  reachable inner w → drawn w <= 2 ^ 64 → permits w = pre ++ p :: post →
  (∃ s' g, activate_ready inner (adm w) (st w) p = Ok (Some (s', g)))
  ↔ phase (adm w) ≠ Terminal ∧ generation (adm w) = p_generation p
    ∧ route_admission (st w) = Opened
    ∧ match p_access p with
      | Parallel => blen pre < worker_slots_available inner (st w)
      | Read => Forall (fun g => g_access g = Read) (guards w)
                ∧ Forall (fun q => p_access q = Read) pre
                ∧ blen pre < worker_slots_available inner (st w)
      | Write => guards w = [] ∧ pre = [] ∧ 0 < worker_slots_available inner (st w)
      end.
Proof.
  intros Hr Hd Hp. pose proof (sched_reachable_inv _ _ Hr Hd) as Hi. pose proof Hi as [].
  pose proof (can_activate_spec inner (st w) pre p post) as Hspec. rewrite <-Hp in Hspec.
  specialize (Hspec i_queue0 i_nodup0).
  rewrite activate_iff, Hspec. rewrite Hp in i_permit_mode0.
  rewrite Forall_mid, Forall_app in i_permit_mode0. destruct i_permit_mode0 as (Hm & Hmp & _).
  rewrite (admissible_iff w pre (p_access p) Hi Hm Hmp). tauto.
Qed.

(** The queue never stalls: when the route is open, the host generation of the
    oldest permit still runs and no guard is held, that permit activates. *)
Theorem queue_front_progresses w p post :
  reachable inner w → drawn w <= 2 ^ 64 → permits w = p :: post → guards w = [] →
  phase (adm w) ≠ Terminal → generation (adm w) = p_generation p → route_admission (st w) = Opened →
  (∀ limit, max_workers (limits inner) = Some limit → 0 < limit) →
  ∃ s' g, activate_ready inner (adm w) (st w) p = Ok (Some (s', g)) ∧ queue s' = entry <$> post.
Proof.
  intros Hr Hd Hp Hg Hph Hge Hop Hlim. pose proof (sched_reachable_inv _ _ Hr Hd) as Hi. pose proof Hi as [].
  rewrite Hp in *. assert (0 < worker_slots_available inner (st w)) as Hs.
  { unfold worker_slots_available. destruct (max_workers _) as [l|] eqn:Hl; [|done].
    specialize (Hlim l eq_refl). rewrite i_workers0, Hg. change (blen (@nil SchedulerGuard)) with 0. lia. }
  assert (can_activate inner (st w) (p_ticket p) (p_access p) = true) as Hc.
  { apply (can_activate_spec inner _ [] p post); [done|done|]. split; [done|].
    apply Forall_cons in i_permit_mode0 as [Hm _].
    apply admissible_iff; [done|done|constructor|]. rewrite Hg.
    change (blen (@nil SchedulerPendingPermit)) with 0. by destruct (p_access p). }
  destruct (proj2 (activate_iff (adm w) (st w) p)) as (s' & g & Ha); [done|]. exists s', g. split; [done|].
  apply activate_ok in Ha as (_ & _ & _ & -> & _). simpl. rewrite i_queue0. by apply (remove_entry [] p post).
Qed.

Lemma generation_grows w w' : rtc (step inner) w w' → generation (adm w) <= generation (adm w').
Proof. induction 1 as [|? ? ? Hst _ IH]; [done|]. pose proof (admission_monotone _ _ _ Hst). lia. Qed.

(** A host generation is a fence: every permit and guard carries a generation no
    later than the current one, starting a host or terminating a running one moves to
    a later generation, and whatever carries an earlier one can then neither activate
    nor commit, however the run continues. *)
Theorem stale_generation_fenced w w' p g :
  reachable inner w → drawn w <= 2 ^ 64 → rtc (step inner) w w' →
  (p ∈ permits w → p_generation p <= generation (adm w))
  ∧ (g ∈ guards w → g_generation g <= generation (adm w))
  ∧ (∀ a', begin_start (adm w) = Ok a' → generation (adm w) < generation a')
  ∧ (∀ a', phase (adm w) ≠ Terminal → terminate (adm w) = Ok a' → generation (adm w) < generation a')
  ∧ (p_generation p < generation (adm w) → ∃ e, activate_ready inner (adm w') (st w') p = Err e)
  ∧ (g_generation g < generation (adm w) → g_committed g = false →
     ∃ e, commit (adm w') (st w') g = Err e).
Proof.
  intros Hr Hd Hrun. pose proof (sched_reachable_inv _ _ Hr Hd) as Hi. apply generation_grows in Hrun.
  destruct (i_generation _ _ Hi) as (_ & Hgp & Hgg). 
  pose proof (proj1 (Forall_forall _ _) Hgp p) as Hgp'. pose proof (proj1 (Forall_forall _ _) Hgg g) as Hgg'.
  split_and!; [done|done|..].
  - intros a' (x & [-> _]%next_generation_ok & [= <-])%bind_ok. simpl. lia.
  - intros a' Hph. unfold terminate. rewrite bool_decide_eq_false_2 by done.
    intros (x & [-> _]%next_generation_ok & [= <-])%bind_ok. simpl. lia.
  - intros Hlt. destruct (stale_rejected (adm w') (st w') (p_generation p) ltac:(lia)) as [e He].
    exists e. unfold activate_ready. by rewrite He.
  - intros Hlt Hnc. destruct (stale_rejected (adm w') (st w') (g_generation g) ltac:(lia)) as [e He].
    exists e. unfold commit. by rewrite Hnc, He.
Qed.
End claims.

(** ** A run *)

(** A read-parallel route with two workers: two readers activated, a writer waiting. *)
Module Sample.
Definition inner : SchedulerInner :=
  {| mode := MReadParallel; access_map := {[ 0 := LRead ]};
     limits := {| max_pending := Some 4; max_workers := Some 2 |} |}.
Definition a0 := AdmissionState_new.
Definition getp {A B} (d : A * B) (r : res SchedulerAcquireError (A * B)) : A * B :=
  match r with Ok x => x | _ => d end.
Definition geta {A B} (d : A * B) (r : res SchedulerAcquireError (option (A * B))) : A * B :=
  match r with Ok (Some x) => x | _ => d end.
Definition p0 : SchedulerPendingPermit := {| p_access := Write; p_ticket := 0; p_generation := 0 |}.
Definition g0 : SchedulerGuard := {| g_access := Read; g_generation := 0; g_committed := false |}.
Definition r1 := getp (SchedulerState_default, p0) (reserve_pending inner a0 SchedulerState_default 0).
Definition r2 := getp (SchedulerState_default, p0) (reserve_pending inner a0 r1.1 7).
Definition r3 := geta (SchedulerState_default, g0) (activate_ready inner a0 r2.1 r1.2).
Definition r4 := getp (SchedulerState_default, g0) (let? s := drop_guard r3.1 r3.2 in Ok (s, r3.2)).

Definition w2 : World := W a0 r2.1 [r1.2; r2.2] [] 2.
Definition w3 : World := W a0 r3.1 [r2.2] [r3.2] 2.
Definition w4 : World := W a0 r4.1 [r2.2] [] 2.
Definition a5 : AdmissionState := {| generation := 1; phase := Terminal |}.
Definition w5 : World := W a5 r3.1 [r2.2] [r3.2] 2.

Lemma sched_run2 : reachable inner w2.
Proof.
  eapply reach_step; [|eapply (s_reserve inner a0 r1.1 [r1.2] [] 1 7 None); vm_compute; reflexivity].
  eapply reach_step; [apply reach_initial|].
  eapply (s_reserve inner a0 SchedulerState_default [] [] 0 0 None). vm_compute. reflexivity.
Qed.
Lemma sched_run3 : reachable inner w3.
Proof.
  eapply reach_step; [exact sched_run2|].
  eapply (s_activate inner a0 r2.1 [] r1.2 [r2.2] [] 2). vm_compute. reflexivity.
Qed.
Lemma sched_run4 : reachable inner w4.
Proof.
  eapply reach_step; [exact sched_run3|].
  eapply (s_drop_guard inner a0 r3.1 [r2.2] [] r3.2 [] 2). vm_compute. reflexivity.
Qed.
Lemma sched_run5 : reachable inner w5.
Proof. eapply reach_step; [exact sched_run3|]. by eapply (s_terminate inner a0). Qed.
End Sample.

Lemma writers_exclusive_and_bounded_witness :
  reachable Sample.inner Sample.w3 ∧ blen (guards Sample.w3) <= 2.
Proof.
  split; [exact Sample.sched_run3|].
  apply (writers_exclusive_and_bounded Sample.inner Sample.w3 Sample.sched_run3 ltac:(done)); done.
Defined.

Lemma scheduler_accounting_witness :
  pending (st Sample.w3) = 2 ∧ ∃ s', drop_guard (st Sample.w3) Sample.r3.2 = Ok s'.
Proof.
  destruct (scheduler_accounting Sample.inner Sample.w3 Sample.sched_run3) as (Hp & _ & _ & _ & _ & _ & Hg); [done|].
  split; [done|]. apply Hg. left.
Defined.

Lemma activation_first_come_witness :
  ∃ s' g, activate_ready Sample.inner Sample.a0 Sample.r2.1 Sample.r1.2 = Ok (Some (s', g)).
Proof.
  apply (activation_first_come Sample.inner Sample.w2 [] Sample.r1.2 [Sample.r2.2] Sample.sched_run2);
    [done|done|]. split_and!; try done; constructor.
Defined.

Lemma queue_front_progresses_witness :
  ∃ s' g, activate_ready Sample.inner Sample.a0 Sample.r4.1 Sample.r2.2 = Ok (Some (s', g)) ∧ queue s' = [].
Proof.
  apply (queue_front_progresses Sample.inner Sample.w4 Sample.r2.2 [] Sample.sched_run4); try done.
  by intros limit [= <-].
Defined.

Lemma stale_generation_fenced_witness :
  ∃ e, commit (adm Sample.w5) (st Sample.w5) Sample.r3.2 = Err e.
Proof.
  apply (stale_generation_fenced Sample.inner Sample.w5 Sample.w5 Sample.r2.2 Sample.r3.2 Sample.sched_run5);
    [done|apply rtc_refl|done|done].
Defined.
