(* ===== verification/ChunkOrdering.v ===== *)
(** First-chunk admission ordering of [c2-server] (chunk_ordering.rs): the gate, its
    entries and their teardown fences, and every interleaving of the tasks that use
    them. *)

From S2P Require Import Prelude.

(** ** The gate *)

(** Connection id and request id. *)
Notation ChunkRequestKey := (Z * Z)%type.

Inductive ChunkAdmissionOutcome := Pending | OutcomeAdmitted | Refused | Aborted.
Inductive ChunkOrderingError := AlreadyPending | OrderingCapacity (limit : Z).

#[global] Instance ChunkAdmissionOutcome_eq_dec : EqDecision ChunkAdmissionOutcome.
Proof. solve_decision. Defined.

(** One entry; tasks share it, so it lives in a heap under its identity. *)
Record ChunkAdmissionEntry := { e_outcome : ChunkAdmissionOutcome; e_fences : Z }.

Definition ChunkAdmissionEntry_new : ChunkAdmissionEntry := {| e_outcome := Pending; e_fences := 1 |}.

Definition is_pending (e : ChunkAdmissionEntry) : bool := bool_decide (e_outcome e = Pending).

(** [send_if_modified]: the new entry and whether this publisher won. *)
Definition try_publish (outcome : ChunkAdmissionOutcome) (e : ChunkAdmissionEntry)
    : ChunkAdmissionEntry * bool :=
  if is_pending e then ({| e_outcome := outcome; e_fences := e_fences e |}, true) else (e, false).

Record ChunkAdmissionGate := {
  entries : gmap ChunkRequestKey Z;
  heap : gmap Z ChunkAdmissionEntry;
  capacity : Z }.

Definition ChunkAdmissionGate_new (capacity : Z) : ChunkAdmissionGate :=
  {| entries := ∅; heap := ∅; capacity := capacity |}.

(** Publishing through a shared reference. *)
Definition publish_at (outcome : ChunkAdmissionOutcome) (id : Z) (h : gmap Z ChunkAdmissionEntry)
    : gmap Z ChunkAdmissionEntry :=
  alter (fun e => (try_publish outcome e).1) id h.

(** [begin]; the new entry is allocated at [id]. *)
Definition begin (g : ChunkAdmissionGate) (key : ChunkRequestKey) (id : Z)
    : res ChunkOrderingError ChunkAdmissionGate :=
  guard_err (bool_decide (is_Some (entries g !! key))) AlreadyPending ;?
  guard_err (capacity g <=? Z.of_nat (size (entries g))) (OrderingCapacity (capacity g)) ;?
  Ok {| entries := <[key := id]> (entries g); heap := <[id := ChunkAdmissionEntry_new]> (heap g);
        capacity := capacity g |}.

Definition waiter (g : ChunkAdmissionGate) (key : ChunkRequestKey) : option Z :=
  match entries g !! key with
  | Some id => match heap g !! id with
               | Some e => if is_pending e then Some id else None
               | None => None
               end
  | None => None
  end.

(** The locked section of [terminate_key]: one more fence; the outcome is published
    after the lock is dropped. *)
Definition terminate_key (g : ChunkAdmissionGate) (key : ChunkRequestKey) : option (ChunkAdmissionGate * Z) :=
  match entries g !! key with
  | Some id =>
      Some ({| entries := entries g;
               heap := alter (fun e => {| e_outcome := e_outcome e; e_fences := e_fences e + 1 |}) id (heap g);
               capacity := capacity g |}, id)
  | None => None
  end.

Definition abort_connection (g : ChunkAdmissionGate) (conn : Z) : ChunkAdmissionGate * Z :=
  let gone := filter (fun e => e.1.1 = conn) (map_to_list (entries g)) in
  ({| entries := foldr (fun e m => delete e.1 m) (entries g) gone;
      heap := foldr (fun e h => publish_at Aborted e.2 h) (heap g) gone;
      capacity := capacity g |}, blen gone).

(** [release_entry]: one fence less, and the entry removed with the last one. *)
Definition release_entry (g : ChunkAdmissionGate) (key : ChunkRequestKey) (id : Z) : ChunkAdmissionGate :=
  let before := match heap g !! id with Some e => e_fences e | None => 0 end in
  {| entries := if 1 <? before then entries g else delete key (entries g);
     heap := alter (fun e => {| e_outcome := e_outcome e; e_fences := e_fences e - 1 |}) id (heap g);
     capacity := capacity g |}.

(** ** Runs *)

(** [Releasing] is an owner whose [released] flag is set and whose [release_entry] is
    still to run. *)
Inductive Phase := Held | Releasing.
#[global] Instance Phase_eq_dec : EqDecision Phase.
Proof. solve_decision. Defined.

Record ChunkAdmissionOwner := { o_key : ChunkRequestKey; o_id : Z; o_phase : Phase }.
(** [r_todo] is the outcome a [terminate_key] has still to publish. *)
Record ChunkAdmissionReclaim := { r_key : ChunkRequestKey; r_id : Z; r_todo : option ChunkAdmissionOutcome }.

Record World := W {
  gate : ChunkAdmissionGate;
  owners : list ChunkAdmissionOwner;
  reclaims : list ChunkAdmissionReclaim;
  aborted : list Z }.

Definition with_heap (g : ChunkAdmissionGate) (h : gmap Z ChunkAdmissionEntry) : ChunkAdmissionGate :=
  {| entries := entries g; heap := h; capacity := capacity g |}.

Definition held (k : ChunkRequestKey) (id : Z) : ChunkAdmissionOwner := {| o_key := k; o_id := id; o_phase := Held |}.
Definition releasing (k : ChunkRequestKey) (id : Z) : ChunkAdmissionOwner :=
  {| o_key := k; o_id := id; o_phase := Releasing |}.

(** [ChunkAdmissionOwner::admit] up to its [release]: whether this owner won. *)
Definition owner_admit (g : ChunkAdmissionGate) (k : ChunkRequestKey) (id : Z)
    : ChunkAdmissionGate * ChunkAdmissionOwner * bool :=
  let won := match heap g !! id with Some e => (try_publish OutcomeAdmitted e).2 | None => false end in
  (with_heap g (publish_at OutcomeAdmitted id (heap g)), if won then releasing k id else held k id, won).

Definition abort (g : ChunkAdmissionGate) (id : Z) : ChunkAdmissionGate :=
  with_heap g (publish_at Aborted id (heap g)).

(** A closing connection dispatches no further frame ([s_begin]), and an owner is
    released by hand only once its outcome is published ([s_release]). *)
Inductive step : World → World → Prop :=
| s_begin g os rs ab k id g' :
    k.1 ∉ ab → heap g !! id = None → begin g k id = Ok g' →
    step (W g os rs ab) (W g' (held k id :: os) rs ab)
| s_admit g pre k id post rs ab g' o won :
    owner_admit g k id = (g', o, won) →
    step (W g (pre ++ held k id :: post) rs ab) (W g' (pre ++ o :: post) rs ab)
| s_abort g pre k id post rs ab :
    step (W g (pre ++ held k id :: post) rs ab) (W (abort g id) (pre ++ held k id :: post) rs ab)
| s_drop g pre k id post rs ab :
    step (W g (pre ++ held k id :: post) rs ab) (W (abort g id) (pre ++ releasing k id :: post) rs ab)
| s_release g pre k id post rs ab e :
    heap g !! id = Some e → e_outcome e ≠ Pending →
    step (W g (pre ++ held k id :: post) rs ab) (W g (pre ++ releasing k id :: post) rs ab)
| s_release_entry g pre k id post rs ab :
    step (W g (pre ++ releasing k id :: post) rs ab) (W (release_entry g k id) (pre ++ post) rs ab)
| s_terminate g os rs ab k id o g' :
    o = Refused ∨ o = Aborted → terminate_key g k = Some (g', id) →
    step (W g os rs ab) (W g' os ({| r_key := k; r_id := id; r_todo := Some o |} :: rs) ab)
| s_terminate_publish g os pre k id o post ab :
    step (W g os (pre ++ {| r_key := k; r_id := id; r_todo := Some o |} :: post) ab)
         (W (with_heap g (publish_at o id (heap g))) os
            (pre ++ {| r_key := k; r_id := id; r_todo := None |} :: post) ab)
| s_reclaim_drop g os pre k id post ab :
    step (W g os (pre ++ {| r_key := k; r_id := id; r_todo := None |} :: post) ab)
         (W (release_entry g k id) os (pre ++ post) ab)
| s_abort_connection g os rs ab conn :
    step (W g os rs ab) (W (abort_connection g conn).1 os rs (conn :: ab)).

Inductive reachable (cap : Z) : World → Prop :=
| reach_initial : reachable cap (W (ChunkAdmissionGate_new cap) [] [] [])
| reach_step w w' : reachable cap w → step w w' → reachable cap w'.

(** ** The invariant *)

(** The fences of a world, and those of owners that may still publish. *)
Definition fencing (w : World) : list (ChunkRequestKey * Z) :=
  ((fun o => (o_key o, o_id o)) <$> owners w) ++ ((fun r => (r_key r, r_id r)) <$> reclaims w).
Definition holding (w : World) : list (ChunkRequestKey * Z) :=
  (fun o => (o_key o, o_id o)) <$> filter (fun o => o_phase o = Held) (owners w).

Definition fences_of (id : Z) (l : list (ChunkRequestKey * Z)) : Z := blen (filter (fun x => x.2 = id) l).

(** [l] are the fences, [hs] the holding owners among them. *)
Record inv (cap : Z) (g : ChunkAdmissionGate) (l hs : list (ChunkRequestKey * Z)) (ab : list Z) : Prop := {
  i_fences id e : heap g !! id = Some e → e_fences e = fences_of id l;
  i_heap k id : (k, id) ∈ l → is_Some (heap g !! id);
  i_stays k id : (k, id) ∈ l → k.1 ∉ ab → entries g !! k = Some id;
  i_entry k id : entries g !! k = Some id → k.1 ∉ ab ∧ (k, id) ∈ l;
  i_key k k' id : (k, id) ∈ l → (k', id) ∈ l → k = k';
  i_pending id e : heap g !! id = Some e → e_outcome e = Pending → ∃ k, (k, id) ∈ hs ∧ k.1 ∉ ab;
  i_sub k id : (k, id) ∈ hs → (k, id) ∈ l;
  i_cap : capacity g = cap ∧ Z.of_nat (size (entries g)) <= Z.max 0 cap }.

Lemma fences_cons id x l : fences_of id (x :: l) = (if decide (x.2 = id) then 1 else 0) + fences_of id l.
Proof. unfold fences_of. rewrite filter_cons. case_decide; rewrite ?blen_cons; lia. Qed.
Lemma fences_perm id l k : l ≡ₚ k → fences_of id l = fences_of id k.
Proof. intros Hp. unfold fences_of, blen. by rewrite Hp. Qed.
Lemma fences_pos id l : 0 < fences_of id l ↔ ∃ k, (k, id) ∈ l.
Proof.
  induction l as [|[k i] l IH].
  - split; [done|]. by intros [k ?%elem_of_nil].
  - rewrite fences_cons. simpl. pose proof (blen_nonneg (filter (fun x => x.2 = id) l)) as Hn.
    change (blen _) with (fences_of id l) in Hn. case_decide as He; [subst i|].
    + split; [|lia]. intros _. exists k. left.
    + rewrite Z.add_0_l, IH. split; intros [k' Hk]; exists k'; [by right|].
      apply elem_of_cons in Hk as [[= _ ?]|?]; [done|done].
Qed.

Lemma inv_perm cap g l l' hs hs' ab : l ≡ₚ l' → hs ≡ₚ hs' → inv cap g l hs ab → inv cap g l' hs' ab.
Proof.
  intros Hl Hh []. split; intros *; rewrite <-?Hl, <-?Hh, <-?(fences_perm _ _ _ Hl); eauto.
  intros He Hp. destruct (i_pending0 _ _ He Hp) as (k & Hk & ?). exists k. by rewrite <-Hh.
Qed.

(** Publishing a terminal outcome. *)
Lemma publish_lookup o id h i e' :
  publish_at o id h !! i = Some e' →
  ∃ e, h !! i = Some e ∧ e_fences e' = e_fences e
       ∧ (e_outcome e ≠ Pending → e_outcome e' = e_outcome e)
       ∧ (e_outcome e' = Pending → o ≠ Pending → i ≠ id ∧ e_outcome e = Pending).
Proof.
  unfold publish_at. destruct (decide (i = id)) as [->|Hne].
  - rewrite lookup_alter_eq. destruct (h !! id) as [e|]; [|done]. intros [= <-]. exists e. unfold try_publish, is_pending.
    destruct (bool_decide (e_outcome e = Pending)) eqn:Hb; simpl;
      [apply bool_decide_eq_true in Hb|apply bool_decide_eq_false in Hb]; split_and!; try done; congruence.
  - rewrite lookup_alter_ne by done. intros He. exists e'. split_and!; done.
Qed.

Lemma publish_some o id h i : is_Some (h !! i) → is_Some (publish_at o id h !! i).
Proof. unfold publish_at. intros. by rewrite lookup_alter_is_Some. Qed.

Lemma inv_publish cap g l hs hs' ab o id :
  o ≠ Pending → (∀ k i, i ≠ id → (k, i) ∈ hs → (k, i) ∈ hs') → (∀ x, x ∈ hs' → x ∈ hs) →
  inv cap g l hs ab → inv cap (with_heap g (publish_at o id (heap g))) l hs' ab.
Proof.
  intros Ho Hh Hs []. split; simpl; try done.
  - intros i e (e0 & He & -> & _)%publish_lookup. eauto.
  - intros k i Hin. apply publish_some. eauto.
  - intros i e (e0 & He & _ & _ & Hp)%publish_lookup Hpe. destruct (Hp Hpe Ho) as [Hne Hp0].
    destruct (i_pending0 _ _ He Hp0) as (k & Hk & ?). eauto.
  - eauto.
Qed.

Lemma inv_initial_gate cap : inv cap (ChunkAdmissionGate_new cap) [] [] [].
Proof.
  split; simpl; try done; try (intros; by rewrite lookup_empty in *); try (by intros * ?%elem_of_nil).
  rewrite map_size_empty. lia.
Qed.

Lemma inv_begin_gate cap g l hs ab k id g' :
  k.1 ∉ ab → heap g !! id = None → begin g k id = Ok g' →
  inv cap g l hs ab → inv cap g' ((k, id) :: l) ((k, id) :: hs) ab.
Proof.
  intros Hk Hid Hb []. unfold begin in Hb. apply bind_ok in Hb as (u & H1 & Hb).
  apply bind_ok in Hb as (u1 & H2 & [= <-]). apply guard_err_ok in H1, H2.
  apply bool_decide_eq_false, eq_None_not_Some in H1.
  assert (∀ k', (k', id) ∉ l) as Hfresh.
  { intros k' Hin. apply i_heap0 in Hin. rewrite Hid in Hin. by destruct Hin. }
  split; simpl.
  - intros i e. rewrite fences_cons. simpl. destruct (decide (id = i)) as [->|Hne].
    + rewrite lookup_insert_eq. intros [= <-]. simpl.
      destruct (decide (0 < fences_of i l)) as [[k' ?]%fences_pos|]; [by destruct (Hfresh k')|].
      pose proof (blen_nonneg (filter (fun x => x.2 = i) l)). unfold fences_of in *. lia.
    + rewrite lookup_insert_ne by done. eauto.
  - intros k' i [[= -> ->]|Hin]%elem_of_cons; [by rewrite lookup_insert_eq|].
    destruct (decide (id = i)) as [->|]; [by rewrite lookup_insert_eq|]. rewrite lookup_insert_ne by done. eauto.
  - intros k' i [[= -> ->]|Hin]%elem_of_cons Hab; [by rewrite lookup_insert_eq|].
    specialize (i_stays0 _ _ Hin Hab). destruct (decide (k = k')) as [->|]; [by rewrite H1 in i_stays0|].
    by rewrite lookup_insert_ne.
  - intros k' i. destruct (decide (k = k')) as [->|].
    + rewrite lookup_insert_eq. intros [= ->]. split; [done|left].
    + rewrite lookup_insert_ne by done. intros [? ?]%i_entry0. split; [done|by right].
  - intros k1 k2 i Ha Hb. rewrite elem_of_cons in Ha, Hb. destruct Ha as [Ha|Ha], Hb as [Hb|Hb]; simplify_eq; try done.
    + by destruct (Hfresh k2).
    + by destruct (Hfresh k1).
    + eauto.
  - intros i e. destruct (decide (id = i)) as [->|].
    + rewrite lookup_insert_eq. intros _ _. exists k. split; [left|done].
    + rewrite lookup_insert_ne by done. intros He Hp. destruct (i_pending0 _ _ He Hp) as (k' & ? & ?).
      exists k'. split; [by right|done].
  - intros k' i [[= -> ->]|Hin]%elem_of_cons; [left|right; eauto].
  - destruct i_cap0 as [<- Hsz]. split; [done|]. rewrite map_size_insert_None by done. lia.
Qed.

Lemma terminate_lookup g k g' id :
  terminate_key g k = Some (g', id) →
  entries g !! k = Some id ∧ entries g' = entries g ∧ capacity g' = capacity g
  ∧ heap g' = alter (fun e => {| e_outcome := e_outcome e; e_fences := e_fences e + 1 |}) id (heap g).
Proof. unfold terminate_key. destruct (entries g !! k) eqn:He; intros [= <- <-]; done. Qed.

Lemma alter_fences d id (h : gmap Z ChunkAdmissionEntry) i e' :
  alter (fun e => {| e_outcome := e_outcome e; e_fences := e_fences e + d |}) id h !! i = Some e' →
  ∃ e, h !! i = Some e ∧ e_outcome e' = e_outcome e
       ∧ e_fences e' = e_fences e + (if decide (id = i) then d else 0).
Proof.
  destruct (decide (id = i)) as [->|Hne].
  - rewrite lookup_alter_eq. destruct (h !! i) as [e|]; [|done]. intros [= <-]. by exists e.
  - rewrite lookup_alter_ne by done. intros He. exists e'. split_and!; try done. lia.
Qed.

Lemma inv_terminate cap g l hs ab k id g' :
  terminate_key g k = Some (g', id) → inv cap g l hs ab → inv cap g' ((k, id) :: l) hs ab.
Proof.
  intros (He & Hes & Hc & Hh)%terminate_lookup []. destruct (i_entry0 _ _ He) as [Hab Hin].
  split; rewrite ?Hes, ?Hc, ?Hh; try done.
  - intros i e (e0 & H0 & _ & ->)%alter_fences. rewrite fences_cons, (i_fences0 _ _ H0). simpl.
    repeat case_decide; congruence || lia.
  - intros k' i Hx. rewrite lookup_alter_is_Some. apply elem_of_cons in Hx as [[= -> ->]|?]; eauto.
  - intros k' i [[= -> ->]|Hx]%elem_of_cons Hk; [done|eauto].
  - intros k' i [? ?]%i_entry0. split; [done|by right].
  - intros k1 k2 i Ha Hb. rewrite elem_of_cons in Ha, Hb. destruct Ha as [Ha|Ha], Hb as [Hb|Hb]; simplify_eq; eauto.
  - intros i e (e0 & H0 & Ho & _)%alter_fences Hp. rewrite Ho in Hp. eauto.
  - intros k' i Hx. right. eauto.
Qed.

Lemma inv_release_entry cap g l l' hs ab k id :
  l ≡ₚ (k, id) :: l' → (∀ x, x ∈ hs → x ∈ l') → inv cap g l hs ab → inv cap (release_entry g k id) l' hs ab.
Proof.
  intros Hl Hsub Hinv. apply (inv_perm _ _ _ _ _ hs _ Hl) in Hinv as []; [|done].
  destruct (i_heap0 k id) as [e0 He0]; [left|].
  assert (∀ x, x ∈ l' → x ∈ (k, id) :: l') as Hin by (intros; by right).
  assert (e_fences e0 = 1 + fences_of id l') as Hf.
  { rewrite (i_fences0 _ _ He0), fences_cons. simpl. by rewrite decide_True. }
  unfold release_entry. rewrite He0. split; simpl.
  - intros i e (e1 & H1 & _ & ->)%alter_fences. rewrite (i_fences0 _ _ H1), fences_cons. simpl.
    case_decide; lia.
  - intros k' i Hx. rewrite lookup_alter_is_Some. eauto.
  - intros k' i Hx Hk. pose proof (i_stays0 k' i (Hin _ Hx) Hk) as Hs.
    destruct (Z.ltb_spec 1 (e_fences e0)) as [|Hle]; [done|].
    destruct (decide (k = k')) as [->|]; [|by rewrite lookup_delete_ne].
    assert (0 < fences_of i l') by (apply fences_pos; eauto).
    assert (entries g !! k' = Some id) by (apply i_stays0; [left|done]).
    assert (i = id) as -> by congruence. lia.
  - intros k' i. destruct (Z.ltb_spec 1 (e_fences e0)) as [Hgt|Hle].
    + intros He. destruct (i_entry0 _ _ He) as [? Hx]. split; [done|].
      apply elem_of_cons in Hx as [[= -> ->]|]; [|done].
      destruct (proj1 (fences_pos id l')) as [k2 Hk2]; [lia|].
      by rewrite (i_key0 k k2 id) by (by (left || right)).
    + intros [Hne He]%lookup_delete_Some. destruct (i_entry0 _ _ He) as [? Hx]. split; [done|].
      by apply elem_of_cons in Hx as [[= -> ->]|].
  - eauto.
  - intros i e (e1 & H1 & Ho & _)%alter_fences Hp. rewrite Ho in Hp. eauto.
  - eauto.
  - destruct i_cap0 as [? Hsz]. split; [done|]. case_match; [done|].
    pose proof (map_size_delete k (entries g)) as Hd. destruct (entries g !! k); simpl in Hd; lia.
Qed.

Lemma fold_publish (gone : list (ChunkRequestKey * Z)) h i e' :
  foldr (fun e h => publish_at Aborted e.2 h) h gone !! i = Some e' →
  ∃ e, h !! i = Some e ∧ e_fences e' = e_fences e
       ∧ (e_outcome e ≠ Pending → e_outcome e' = e_outcome e)
       ∧ (e_outcome e' = Pending → e_outcome e = Pending ∧ ∀ x, x ∈ gone → x.2 ≠ i).
Proof.
  revert e'. induction gone as [|x gone IH]; simpl; intros e' He'.
  - exists e'. split_and!; try done. intros Hp. split; [done|]. by intros x ?%elem_of_nil.
  - apply publish_lookup in He' as (e1 & H1 & Hf1 & Ho1 & Hp1). destruct (IH _ H1) as (e & H & Hf & Ho & Hp).
    exists e. split_and!; try congruence.
    + intros Hne. rewrite Ho1; [by apply Ho|]. by rewrite Ho.
    + intros Hpe. destruct (Hp1 Hpe) as [Hi Hp0]; [done|]. destruct (Hp Hp0) as [? Hall]. split; [done|].
      intros y [->|Hy]%elem_of_cons; [done|by apply Hall].
Qed.

Lemma fold_delete (gone : list (ChunkRequestKey * Z)) (m : gmap ChunkRequestKey Z) k :
  foldr (fun e m => delete e.1 m) m gone !! k = if decide (k ∈ gone.*1) then None else m !! k.
Proof.
  induction gone as [|x gone IH]; [done|]. cbn [foldr fmap list_fmap].
  - destruct (decide (x.1 = k)) as [<-|Hne].
    + rewrite lookup_delete_eq. by rewrite decide_True by left.
    + rewrite lookup_delete_ne by done. rewrite IH.
      destruct (decide (k ∈ gone.*1)); [by rewrite decide_True by (by right)|].
      by rewrite decide_False by (by rewrite elem_of_cons; intros [->|]).
Qed.

Lemma abort_entries g conn k :
  entries (abort_connection g conn).1 !! k = if decide (k.1 = conn) then None else entries g !! k.
Proof.
  unfold abort_connection. simpl. rewrite fold_delete.
  destruct (decide (k ∈ _)) as [Hin|Hni].
  - apply list_elem_of_fmap in Hin as (x & -> & [? _]%list_elem_of_filter). by rewrite decide_True.
  - destruct (decide (k.1 = conn)) as [Hc|]; [|done]. destruct (entries g !! k) as [id|] eqn:He; [|done].
    destruct Hni. apply list_elem_of_fmap. exists (k, id). split; [done|].
    apply list_elem_of_filter. by rewrite elem_of_map_to_list.
Qed.

Lemma inv_abort_connection cap g l hs ab conn :
  inv cap g l hs ab → inv cap (abort_connection g conn).1 l hs (conn :: ab).
Proof.
  intros []. split; try done.
  - intros i e (e0 & H0 & -> & _)%fold_publish. eauto.
  - intros k i Hx. apply i_heap0 in Hx as [e He]. simpl. clear -He.
    induction (filter _ _) as [|x xs IH]; simpl; [by rewrite He|by apply publish_some].
  - intros k i Hx [Hne Hab]%not_elem_of_cons. rewrite abort_entries, decide_False by done. eauto.
  - intros k i. rewrite abort_entries. case_decide; [done|]. intros [? ?]%i_entry0.
    split; [|done]. by rewrite not_elem_of_cons.
  - intros i e (e0 & H0 & _ & _ & Hp)%fold_publish Hpe. destruct (Hp Hpe) as [Hp0 Hall].
    destruct (i_pending0 _ _ H0 Hp0) as (k & Hk & Hab). exists k. split; [done|].
    rewrite not_elem_of_cons. split; [|done]. intros Hc.
    apply (Hall (k, i)); [|done]. apply list_elem_of_filter. rewrite elem_of_map_to_list. eauto.
  - destruct i_cap0 as [? Hsz]. split; [done|]. etrans; [|exact Hsz]. apply inj_le, map_subseteq_size.
    apply map_subseteq_spec. intros k i. rewrite abort_entries. by case_decide.
Qed.

Definition good (cap : Z) (w : World) : Prop := inv cap (gate w) (fencing w) (holding w) (aborted w).

Lemma fencing_owner g pre o post rs ab :
  fencing (W g (pre ++ o :: post) rs ab) ≡ₚ (o_key o, o_id o) :: fencing (W g (pre ++ post) rs ab).
Proof. unfold fencing. simpl. rewrite !fmap_app, fmap_cons, <-!app_assoc. symmetry. apply Permutation_middle. Qed.
Lemma fencing_reclaim g os pre r post ab :
  fencing (W g os (pre ++ r :: post) ab) ≡ₚ (r_key r, r_id r) :: fencing (W g os (pre ++ post) ab).
Proof. unfold fencing. simpl. rewrite !fmap_app, fmap_cons, !app_assoc. symmetry. apply Permutation_middle. Qed.
Lemma holding_held g pre k id post rs ab :
  holding (W g (pre ++ held k id :: post) rs ab) ≡ₚ (k, id) :: holding (W g (pre ++ post) rs ab).
Proof.
  unfold holding. simpl. rewrite !filter_app, filter_cons_True, !fmap_app, fmap_cons by done.
  symmetry. apply Permutation_middle.
Qed.
Lemma holding_releasing g pre k id post rs ab :
  holding (W g (pre ++ releasing k id :: post) rs ab) = holding (W g (pre ++ post) rs ab).
Proof. unfold holding. simpl. by rewrite !filter_app, filter_cons_False. Qed.

Lemma holding_fencing w x : x ∈ holding w → x ∈ fencing w.
Proof.
  unfold holding, fencing. intros (o & -> & [_ Ho]%list_elem_of_filter)%list_elem_of_fmap.
  apply elem_of_app. left. apply list_elem_of_fmap. by exists o.
Qed.

Lemma admit_publishes g k id g' o won :
  owner_admit g k id = (g', o, won) →
  g' = with_heap g (publish_at OutcomeAdmitted id (heap g)) ∧ o_key o = k ∧ o_id o = id
  ∧ (won = true ↔ ∃ e, heap g !! id = Some e ∧ e_outcome e = Pending)
  ∧ o_phase o = (if won then Releasing else Held).
Proof.
  unfold owner_admit. intros [= <- <- <-]. split_and!; try done; try (by case_match).
  destruct (heap g !! id) as [e|]; [|naive_solver].
  unfold try_publish, is_pending. destruct (bool_decide (e_outcome e = Pending)) eqn:Hp;
    [apply bool_decide_eq_true in Hp|apply bool_decide_eq_false in Hp]; simpl; naive_solver.
Qed.

Lemma held_good cap g pre k id post rs ab :
  good cap (W g (pre ++ held k id :: post) rs ab) ↔
  inv cap g ((k, id) :: fencing (W g (pre ++ post) rs ab)) ((k, id) :: holding (W g (pre ++ post) rs ab)) ab.
Proof. split; apply inv_perm; rewrite ?fencing_owner, ?holding_held; done. Qed.

Lemma releasing_good cap g pre k id post rs ab :
  good cap (W g (pre ++ releasing k id :: post) rs ab) ↔
  inv cap g ((k, id) :: fencing (W g (pre ++ post) rs ab)) (holding (W g (pre ++ post) rs ab)) ab.
Proof. split; apply inv_perm; rewrite ?fencing_owner, ?holding_releasing; done. Qed.

Lemma reclaim_good cap g os pre r post ab :
  good cap (W g os (pre ++ r :: post) ab) ↔
  inv cap g ((r_key r, r_id r) :: fencing (W g os (pre ++ post) ab)) (holding (W g os (pre ++ post) ab)) ab.
Proof. split; apply inv_perm; rewrite ?fencing_reclaim; done. Qed.

Lemma inv_unhold cap g l hs ab k id e :
  heap g !! id = Some e → e_outcome e ≠ Pending → inv cap g l ((k, id) :: hs) ab → inv cap g l hs ab.
Proof.
  intros He Hp []. split; try done.
  - intros i e' He' Hp'. destruct (i_pending0 _ _ He' Hp') as (k' & [[= -> ->]|Hk]%elem_of_cons & ?); [congruence|eauto].
  - intros k' i Hk. apply i_sub0. by right.
Qed.

Lemma publish_held cap g l hs ab o k id :
  o ≠ Pending → inv cap g l ((k, id) :: hs) ab →
  inv cap (with_heap g (publish_at o id (heap g))) l ((k, id) :: hs) ab
  ∧ inv cap (with_heap g (publish_at o id (heap g))) l hs ab.
Proof.
  intros Ho Hi. split; (eapply inv_publish; [done| | |exact Hi]); try done.
  - by intros k' i Hne [[= -> ->]|]%elem_of_cons.
  - intros x Hx. by right.
Qed.

(** What a [terminate_key] has still to publish is a refusal or an abort. *)
Definition todo_ok (w : World) : Prop := Forall (fun r => r_todo r ≠ Some Pending) (reclaims w).

Lemma step_todo w w' : step w w' → todo_ok w → todo_ok w'.
Proof.
  unfold todo_ok. destruct 1 as [| | | | | |g os rs ab k id o g' Ho Ht|g os pre k id o post ab
    |g os pre k id post ab|]; simpl; try done.
  - intros Hr. constructor; [|done]. simpl. naive_solver.
  - rewrite !Forall_app, !Forall_cons. intros (? & _ & ?). by split_and!.
  - rewrite !Forall_app, !Forall_cons. tauto.
Qed.

Lemma step_good cap w w' : step w w' → todo_ok w → good cap w → good cap w'.
Proof.
  intros Hst Ht0. destruct Hst as [g os rs ab k id g' Hk Hid Hb|g pre k id post rs ab g' o won Ha|g pre k id post rs ab
    |g pre k id post rs ab|g pre k id post rs ab e He Hp|g pre k id post rs ab|g os rs ab k id o g' Ho Ht
    |g os pre k id o post ab|g os pre k id post ab|g os rs ab conn]; intros Hi.
  - apply (held_good cap g' [] k id os). by eapply inv_begin_gate.
  - apply admit_publishes in Ha as (-> & Hk & Hid & _ & Hph). apply held_good in Hi.
    apply (publish_held _ _ _ _ _ OutcomeAdmitted) in Hi as [H1 H2]; [|done].
    destruct o as [k0 i0 ph]. simpl in *. subst. destruct won; [by apply releasing_good|by apply held_good].
  - rewrite held_good in *. by apply publish_held.
  - rewrite held_good in Hi. apply releasing_good. by apply (publish_held _ _ _ _ _ Aborted k).
  - rewrite held_good in Hi. apply releasing_good. by eapply inv_unhold.
  - rewrite releasing_good in Hi. eapply inv_release_entry; [reflexivity| |exact Hi]. apply holding_fencing.
  - apply (reclaim_good cap g' os [] {| r_key := k; r_id := id; r_todo := Some o |} rs).
    by eapply inv_terminate.
  - rewrite reclaim_good in *. simpl in *. apply Forall_app in Ht0 as [_ [Ho _]%Forall_cons].
    eapply inv_publish; [| | |exact Hi]; try done. by intros ->.
  - rewrite reclaim_good in Hi. eapply inv_release_entry; [reflexivity| |exact Hi]. apply holding_fencing.
  - by apply inv_abort_connection.
Qed.

Lemma reachable_good cap w : reachable cap w → good cap w ∧ todo_ok w.
Proof.
  induction 1 as [|w w' Hr [IH1 IH2] Hst].
  - split; [apply inv_initial_gate|constructor].
  - split; [by eapply step_good|by eapply step_todo].
Qed.

(** ** What the gate guarantees *)

Lemma publish_final o id h i e :
  h !! i = Some e → e_outcome e ≠ Pending →
  ∃ e', publish_at o id h !! i = Some e' ∧ e_outcome e' = e_outcome e.
Proof.
  intros He Hp. destruct (publish_some o id h i ltac:(by rewrite He)) as [e' He']. exists e'. split; [done|].
  destruct (publish_lookup _ _ _ _ _ He') as (e1 & H1 & _ & Ho & _). simplify_eq. by apply Ho.
Qed.

Lemma fences_final d id (h : gmap Z ChunkAdmissionEntry) i e :
  h !! i = Some e → ∃ e', alter (fun e => {| e_outcome := e_outcome e; e_fences := e_fences e + d |}) id h !! i = Some e'
    ∧ e_outcome e' = e_outcome e.
Proof.
  intros He. assert (is_Some (alter (fun e => {| e_outcome := e_outcome e; e_fences := e_fences e + d |}) id h !! i))
    as [e' He'] by (by rewrite lookup_alter_is_Some, He).
  exists e'. split; [done|]. apply alter_fences in He' as (e1 & H1 & Ho & _). by simplify_eq.
Qed.

(** An outcome, once terminal, never changes. *)
Lemma outcome_final w w' id e :
  step w w' → heap (gate w) !! id = Some e → e_outcome e ≠ Pending →
  ∃ e', heap (gate w') !! id = Some e' ∧ e_outcome e' = e_outcome e.
Proof.
  destruct 1 as [g os rs ab k i g' Hk Hid Hb|g pre k i post rs ab g' o won Ha|g pre k i post rs ab
    |g pre k i post rs ab|g pre k i post rs ab e0 He Hp|g pre k i post rs ab|g os rs ab k i o g' Ho Ht
    |g os pre k i o post ab|g os pre k i post ab|g os rs ab conn]; simpl; intros H0 Hp0; eauto using publish_final.
  - apply bind_ok in Hb as (u & _ & Hb). apply bind_ok in Hb as (u1 & _ & [= <-]). simpl.
    rewrite lookup_insert_ne by (intros ->; congruence). eauto.
  - apply admit_publishes in Ha as (-> & _). by apply publish_final.
  - by apply (fences_final (-1)).
  - apply terminate_lookup in Ht as (_ & _ & _ & ->). by apply fences_final.
  - by apply (fences_final (-1)).
  - clear -H0 Hp0. induction (filter _ _) as [|x xs (e1 & H1 & Ho)]; simpl; [eauto|].
    rewrite <-Ho in Hp0. destruct (publish_final Aborted x.2 _ _ _ H1 Hp0) as (e2 & ? & ?). exists e2. split; congruence.
Qed.

(** One publisher decides a chunked request: however the tasks interleave, once its
    admission outcome is terminal it never changes, and [owner_admit] reports a win exactly
    when the outcome was still pending, publishing [OutcomeAdmitted]. *)
Theorem chunk_admission_single_winner w w' k id e :
  heap (gate w) !! id = Some e → rtc step w w' →
  (e_outcome e ≠ Pending → ∃ e', heap (gate w') !! id = Some e' ∧ e_outcome e' = e_outcome e)
  ∧ ((owner_admit (gate w) k id).2 = true ↔ e_outcome e = Pending)
  ∧ ((owner_admit (gate w) k id).2 = true →
     ∃ e', heap (owner_admit (gate w) k id).1.1 !! id = Some e' ∧ e_outcome e' = OutcomeAdmitted).
Proof.
  intros He Hrun. split_and!.
  - intros Hp. revert e He Hp. induction Hrun as [|w1 w2 w3 Hst _ IH]; intros e He Hp; [eauto|].
    destruct (outcome_final _ _ _ _ Hst He Hp) as (e' & He' & Ho).
    destruct (IH e' He') as (e2 & ? & ?); [congruence|]. exists e2. split; congruence.
  - unfold owner_admit. rewrite He. simpl. unfold try_publish, is_pending.
    destruct (bool_decide (e_outcome e = Pending)) eqn:Hp;
      [apply bool_decide_eq_true in Hp|apply bool_decide_eq_false in Hp]; simpl; by split.
  - unfold owner_admit. rewrite He. simpl. unfold publish_at. rewrite lookup_alter_eq, He. simpl.
    unfold try_publish. destruct (is_pending e); simpl; [|done]. intros _. by eexists.
Qed.

(** Teardown fences hold: while any owner or terminator of a request on a live
    connection has not released its fence, the entry stays and a second first chunk is
    refused; the fence count is exact and positive; a waiter only ever waits on an
    owner that can still publish; no entry outlives its fences; and the gate never
    tracks more than its capacity. *)
Theorem chunk_admission_fenced cap w :
  reachable cap w →
  (∀ k id fresh, (k, id) ∈ fencing w → k.1 ∉ aborted w →
     begin (gate w) k fresh = Err AlreadyPending
     ∧ ∃ e, heap (gate w) !! id = Some e ∧ e_fences e = fences_of id (fencing w) ∧ 1 <= e_fences e)
  ∧ (∀ k id, waiter (gate w) k = Some id → ∃ k', held k' id ∈ owners w)
  ∧ (∀ k id, entries (gate w) !! k = Some id → (k, id) ∈ fencing w)
  ∧ (0 <= cap → Z.of_nat (size (entries (gate w))) <= cap).
Proof.
  intros [Hi _]%reachable_good. pose proof Hi as []. split_and!.
  - intros k id fresh Hin Hab. split.
    + unfold begin. by rewrite (i_stays0 _ _ Hin Hab).
    + destruct (i_heap0 _ _ Hin) as [e He]. exists e. split_and!; try done; [by apply i_fences0|].
      rewrite (i_fences0 _ _ He). assert (0 < fences_of id (fencing w)) by (apply fences_pos; eauto). lia.
  - intros k id. unfold waiter. destruct (entries (gate w) !! k) as [i|]; [|done].
    destruct (heap (gate w) !! i) as [e|] eqn:He; [|done]. destruct (is_pending e) eqn:Hp; [|done].
    intros [= ->]. apply bool_decide_eq_true in Hp. destruct (i_pending0 _ _ He Hp) as (k' & Hk & _).
    exists k'. unfold holding in Hk. apply list_elem_of_fmap in Hk as ([k1 i1 ph] & [= -> ->] & [Hph Ho]%list_elem_of_filter).
    simpl in Hph. by subst ph.
  - intros k id He. by apply i_entry0.
  - intros Hc. destruct i_cap0 as [_ Hsz]. lia.
Qed.

(** ** A run *)

(** Request (3, 8) begins, an abort of it is being fenced, and its owner publishes. *)
Module SampleOrdering.
Definition key : ChunkRequestKey := (3, 8).
Definition g1 : ChunkAdmissionGate := match begin (ChunkAdmissionGate_new 2) key 0 with Ok g => g | _ => ChunkAdmissionGate_new 0 end.
Definition w1 : World := W g1 [held key 0] [] [].
Definition w2 : World := W (abort g1 0) [held key 0] [] [].

Lemma ordering_run1 : reachable 2 w1.
Proof.
  eapply reach_step; [apply reach_initial|]. apply s_begin; [by intros ?%elem_of_nil|done|done].
Qed.
End SampleOrdering.

Lemma chunk_admission_single_winner_witness :
  ∃ e', heap (gate SampleOrdering.w2) !! 0 = Some e' ∧ e_outcome e' = Aborted.
Proof.
  destruct (chunk_admission_single_winner SampleOrdering.w2 SampleOrdering.w2 SampleOrdering.key 0
              {| e_outcome := Aborted; e_fences := 1 |}) as (H & _ & _).
  - reflexivity.
  - apply rtc_refl.
  - by apply H.
Defined.

Lemma chunk_admission_fenced_witness :
  begin SampleOrdering.g1 SampleOrdering.key 9 = Err AlreadyPending.
Proof.
  apply (chunk_admission_fenced 2 SampleOrdering.w1 SampleOrdering.ordering_run1) with (id := 0);
    [left|by intros ?%elem_of_nil].
Defined.
