(* ===== verification/Assembler.v ===== *)
(** Chunk reassembly of [c2-wire]: the owned backing (chunk/backing.rs) and the
    assembler (assembler.rs), over the interface of the pool that stores the bytes. *)

From S2P Require Import Prelude.
From S2P Require Import Bytes.
From S2P Require Import Budget.

(** ** The pool interface *)

(** What reassembly calls of [MemPool]: [P] is the pool, [H] an allocation handle, [E]
    what the operating system answers during a call. *)
Class ReassemblyPool (P H E : Type) := {
  pool_budget : P → option BudgetCells;
  set_budget : P → BudgetCells → P;
  alloc_handle : E → P → Z → res Empty_set (P * option H);
  release_handle : E → P → H → res Empty_set P;
  validate_handle : P → H → bool;
  handle_len : H → Z;
  handle_trim : H → Z → H;
  handle_slice : P → H → res Empty_set bytes;
  handle_write : P → H → Z → bytes → res Empty_set (P * H) }.

Section frame.
Context {P H E : Type} `{ReassemblyPool P H E}.

(** The bytes the reassembly cell holds. *)
Definition charged_bytes (p : P) : Z :=
  from_option (fun cells => used_bytes (reassembly cells)) 0 (pool_budget p).

(** Other handles read what they did. *)
Definition same_reads (live : list H) (p p' : P) : Prop :=
  ∀ h, h ∈ live → handle_slice p' h = handle_slice p h.
End frame.

(** What reassembly relies on.  [pool_ok p live]: the pool is sound and the handles
    [live] are the ones it has given out. *)
Class ReassemblyPoolLaws (P H E : Type) `{ReassemblyPool P H E} := {
  pool_ok : P → list H → Prop;
  ok_perm p live live' : live ≡ₚ live' → pool_ok p live → pool_ok p live';
  ok_budget p live : pool_ok p live →
    ∃ cells, pool_budget p = Some cells
      ∧ 0 <= used_bytes (reassembly cells) <= limit_bytes (reassembly cells);
  ok_set p live cells cells' : pool_ok p live → pool_budget p = Some cells →
    shm cells' = shm cells → file cells' = file cells →
    0 <= used_bytes (reassembly cells') <= limit_bytes (reassembly cells') →
    pool_ok (set_budget p cells') live ∧ pool_budget (set_budget p cells') = Some cells'
    ∧ same_reads live p (set_budget p cells');
  ok_alloc e p live n : pool_ok p live → 0 <= n →
    ∃ p' r, alloc_handle e p n = Ok (p', r) ∧ charged_bytes p' = charged_bytes p
      ∧ same_reads live p p'
      ∧ match r with Some h => pool_ok p' (h :: live) ∧ handle_len h = n | None => pool_ok p' live end;
  ok_release e p h live : pool_ok p (h :: live) →
    ∃ p', release_handle e p h = Ok p' ∧ pool_ok p' live ∧ charged_bytes p' = charged_bytes p
      ∧ same_reads live p p';
  ok_read p h live : pool_ok p (h :: live) →
    validate_handle p h = true ∧ ∃ b, handle_slice p h = Ok b ∧ blen b = handle_len h;
  ok_write p h live off d b : pool_ok p (h :: live) → 0 <= off → off + blen d <= handle_len h →
    handle_slice p h = Ok b →
    ∃ p' h', handle_write p h off d = Ok (p', h') ∧ handle_slice p' h' = Ok (splice b off d)
      ∧ pool_ok p' (h' :: live) ∧ handle_len h' = handle_len h
      ∧ charged_bytes p' = charged_bytes p ∧ same_reads live p p';
  ok_trim p h live n b : pool_ok p (h :: live) → 0 <= n <= handle_len h → handle_slice p h = Ok b →
    pool_ok p (handle_trim h n :: live) ∧ handle_len (handle_trim h n) = n
    ∧ handle_slice p (handle_trim h n) = Ok (take (Z.to_nat n) b) }.

(** ** Errors *)

Inductive ReassemblyError :=
| ZeroTotalChunks
| ZeroChunkSize
| GeometryOverflow (total_chunks chunk_size : Z)
| ForeignGuard
| MetadataOverflow
| NoBudgetContext
| BudgetRejected (e : BudgetError)
| TrackingAllocation
| StorageAllocation
| AlreadyReleased
| WriteSpanOverflow
| WriteSpanOutside (off fin len : Z)
| AccessInvalid
| CannotGrow (new_len len : Z)
| ExceedsLimit (capacity limit : Z)
| IndexOutOfRange (idx total : Z)
| DuplicateChunk (idx : Z)
| OversizedChunk (len chunk_size : Z)
| Incomplete (received total : Z)
| ZeroTotalSize
| FirstChunkTooLong (len total_size : Z)
| TotalSizeUnaddressable.

Inductive ChunkAdmissionError :=
| Protocol (e : ReassemblyError)
| Duplicate (conn_id request_id : Z)
| Capacity (e : ReassemblyError).

Section assembler.
Context {P H E : Type} `{ReassemblyPool P H E}.

(** ** The backing *)

(** A call that can only panic. *)
Definition must {F A} (m : res Empty_set A) : res F A :=
  match m with Ok x => Ok x | Err e => match e with end | Panic => Panic end.

Definition checked_capacity (total_chunks chunk_size : Z) : res ReassemblyError Z :=
  guard_err (total_chunks =? 0) ZeroTotalChunks ;?
  guard_err (chunk_size =? 0) ZeroChunkSize ;?
  match checked_mul USIZE_MAX total_chunks chunk_size with
  | Some n => Ok n
  | None => Err (GeometryOverflow total_chunks chunk_size)
  end.

Record BackingState := { received_flags : list bool; handle : H; reservation : BudgetReservation }.

(** [state] of [ReassemblyBacking]; [None] once released. *)
Definition ReassemblyBacking : Type := option BackingState.

(** Refunding a reservation into the pool's budget. *)
Definition refund (p : P) (g : BudgetReservation) : res ReassemblyError P :=
  match pool_budget p with
  | Some cells =>
      match drop_reservation cells g with Ok cells => Ok (set_budget p cells) | _ => Panic end
  | None => Panic
  end.

(** [same_pool]: the guard is of this pool; [room]: [try_reserve_exact] of the flags
    finds memory.  The pool is returned with the result, rejected or not. *)
Definition admit_with_guard (e : E) (p : P) (same_pool room : bool) (total_chunks chunk_size tracked_chunks : Z)
    : P * res ReassemblyError ReassemblyBacking :=
  match
    (guard_err (negb same_pool) ForeignGuard ;?
     let? capacity := checked_capacity total_chunks chunk_size in
     match checked_add USIZE_MAX capacity tracked_chunks with
     | Some charged => Ok (capacity, charged)
     | None => Err MetadataOverflow
     end)
  with
  | Ok (capacity, charged) =>
      match pool_budget p with
      | None => (p, Err NoBudgetContext)
      | Some cells =>
          let '(cells, r) := reserve cells KReassembly charged in
          let p := set_budget p cells in
          match r with
          | Ok g =>
              if negb room then
                match refund p g with Ok p => (p, Err TrackingAllocation) | _ => (p, Panic) end
              else
                match alloc_handle e p capacity with
                | Ok (p, Some h) =>
                    (p, Ok (Some {| received_flags := replicate (Z.to_nat tracked_chunks) false;
                                    handle := h; reservation := g |}))
                | Ok (p, None) =>
                    match refund p g with Ok p => (p, Err StorageAllocation) | _ => (p, Panic) end
                | _ => (p, Panic)
                end
          | Err err => (p, Err (BudgetRejected err))
          | Panic => (p, Panic)
          end
      end
  | Err e => (p, Err e)
  | Panic => (p, Panic)
  end.

Definition live_state (b : ReassemblyBacking) : res ReassemblyError BackingState :=
  match b with Some s => Ok s | None => Err AlreadyReleased end.

Definition chunk_received (b : ReassemblyBacking) (i : Z) : res ReassemblyError bool :=
  let? s := live_state b in index (received_flags s) i.

(** [received_flags[index] = true]. *)
Definition mark_chunk_received (b : ReassemblyBacking) (i : Z) : res ReassemblyError ReassemblyBacking :=
  let? s := live_state b in
  let? flags := store (received_flags s) i [true] in
  Ok (Some {| received_flags := flags; handle := handle s; reservation := reservation s |}).

Definition backing_len (b : ReassemblyBacking) : Z :=
  match b with Some s => handle_len (handle s) | None => 0 end.
Definition capacity_bytes (b : ReassemblyBacking) : Z :=
  match b with Some s => br_bytes (reservation s) | None => 0 end.

Definition write_at (p : P) (b : ReassemblyBacking) (offset : Z) (data : bytes)
    : res ReassemblyError (P * ReassemblyBacking) :=
  let? s := live_state b in
  match checked_add USIZE_MAX offset (blen data) with
  | None => Err WriteSpanOverflow
  | Some fin =>
      guard_err (handle_len (handle s) <? fin) (WriteSpanOutside offset fin (handle_len (handle s))) ;?
      guard_err (negb (validate_handle p (handle s))) AccessInvalid ;?
      let? '(p, h) := must (handle_write p (handle s) offset data) in
      Ok (p, Some {| received_flags := received_flags s; handle := h; reservation := reservation s |})
  end.

Definition copy_bytes (p : P) (b : ReassemblyBacking) : res ReassemblyError bytes :=
  let? s := live_state b in
  guard_err (negb (validate_handle p (handle s))) AccessInvalid ;?
  must (handle_slice p (handle s)).

Definition trim_to (b : ReassemblyBacking) (new_len : Z) : res ReassemblyError ReassemblyBacking :=
  let? s := live_state b in
  guard_err (handle_len (handle s) <? new_len) (CannotGrow new_len (handle_len (handle s))) ;?
  Ok (Some {| received_flags := received_flags s; handle := handle_trim (handle s) new_len;
              reservation := reservation s |}).

(** [release_storage_with_pool], which every release and drop runs. *)
Definition release_storage (e : E) (p : P) (b : ReassemblyBacking) : res ReassemblyError P :=
  match b with
  | Some s => let? p := must (release_handle e p (handle s)) in refund p (reservation s)
  | None => Ok p
  end.

(** ** The assembler *)

Record ChunkAssembler := {
  total_chunks : Z;
  chunk_size : Z;
  received : Z;
  written_end : Z;
  backing : ReassemblyBacking }.

Definition check_geometry (total chunk max_reassembly_bytes : Z) : res ChunkAdmissionError (Z * Z) :=
  let? capacity := map_err Protocol (checked_capacity total chunk) in
  guard_err (max_reassembly_bytes <? capacity) (Capacity (ExceedsLimit capacity max_reassembly_bytes)) ;?
  Ok (total, chunk).

Definition new_with_guard (e : E) (p : P) (same_pool room : bool) (geometry : Z * Z)
    : P * res ChunkAdmissionError ChunkAssembler :=
  let '(total, chunk) := geometry in
  let '(p, r) := admit_with_guard e p same_pool room total chunk total in
  (p, let? b := map_err Capacity r in
      Ok {| total_chunks := total; chunk_size := chunk; received := 0; written_end := 0; backing := b |}).

Definition ChunkAssembler_new (e : E) (p : P) (room : bool) (total chunk max_reassembly_bytes : Z)
    : P * res ChunkAdmissionError ChunkAssembler :=
  match check_geometry total chunk max_reassembly_bytes with
  | Ok geometry => new_with_guard e p true room geometry
  | Err err => (p, Err err)
  | Panic => (p, Panic)
  end.

Definition feed_chunk (p : P) (a : ChunkAssembler) (chunk_idx : Z) (data : bytes)
    : res ReassemblyError (P * ChunkAssembler * bool) :=
  guard_err (total_chunks a <=? chunk_idx) (IndexOutOfRange chunk_idx (total_chunks a)) ;?
  let? got := chunk_received (backing a) chunk_idx in
  guard_err got (DuplicateChunk chunk_idx) ;?
  guard_err (chunk_size a <? blen data) (OversizedChunk (blen data) (chunk_size a)) ;?
  guard_panic (chunk_idx * chunk_size a <=? USIZE_MAX) ;?
  let offset := chunk_idx * chunk_size a in
  let? '(p, b) := write_at p (backing a) offset data in
  let? b := mark_chunk_received b chunk_idx in
  let fin := offset + blen data in
  Ok (p, {| total_chunks := total_chunks a; chunk_size := chunk_size a; received := received a + 1;
            written_end := if written_end a <? fin then fin else written_end a; backing := b |},
      received a + 1 =? total_chunks a).

Definition is_complete (a : ChunkAssembler) : bool := received a =? total_chunks a.

Definition finish (a : ChunkAssembler) : res ReassemblyError ReassemblyBacking :=
  guard_err (negb (is_complete a)) (Incomplete (received a) (total_chunks a)) ;?
  trim_to (backing a) (written_end a).
End assembler.
