(* ===== verification/AssemblerPool.v ===== *)
(** The memory pool keeps the promises reassembly relies on. *)

From S2P Require Import Prelude.
From S2P Require Import Bytes.
From S2P Require Import Budget.
From S2P Require Import Pool.
From S2P Require Import PoolInv.
From S2P Require Import PoolOps.
From S2P Require Import PoolRun.
From S2P Require Import Assembler.

#[global] Instance mem_pool : ReassemblyPool MemPool MemHandle Env := {
  pool_budget := budget;
  set_budget := set_cells;
  alloc_handle env p n :=
    let? '(p, r) := Pool.alloc_handle env p n in
    Ok (p, match r with inl h => Some h | inr _ => None end);
  release_handle env p h := Pool.release_handle (gc_now env) p h;
  validate_handle p h := is_ok (Pool.validate_handle p h);
  handle_len := handle_length;
  handle_trim h n := match handle_trim_to h n with Ok h => h | _ => h end;
  handle_slice := Pool.handle_slice;
  handle_write := handle_slice_mut }.

Lemma evolves_reads live p p' : evolves live p p' → same_reads (H:=MemHandle) live p p'.
Proof. intros He h Hin. apply (e_slice _ _ _ He h Hin). Qed.

Section laws.
Context (L m : nat).

(** The reassembly cell holds what others charged to it. *)
Lemma charged_extra p live extra : pool_inv L m p live extra → charged_bytes (H:=MemHandle) p = extra KReassembly.
Proof.
  intros HI. destruct (pi_budget _ _ _ _ _ HI) as (cells & Hb & Hk). unfold charged_bytes. simpl. rewrite Hb. simpl.
  destruct (Hk KReassembly) as (_ & Hu & _). simpl in Hu. lia.
Qed.

Lemma charged_same p p' live live' extra :
  pool_inv L m p live extra → pool_inv L m p' live' extra →
  charged_bytes (H:=MemHandle) p' = charged_bytes (H:=MemHandle) p.
Proof. intros HI HI'. by rewrite (charged_extra _ _ _ HI), (charged_extra _ _ _ HI'). Qed.

Lemma keeps_reads p p' live live' extra extra' live0 :
  pool_inv L m p live extra → pool_inv L m p' live' extra' → keeps live0 p p' →
  (∀ h, h ∈ live0 → h ∈ live) → (∀ h, h ∈ live0 → h ∈ live') → same_reads (H:=MemHandle) live0 p p'.
Proof. intros. by eapply evolves_reads, (keeps_evolves L m). Qed.

Lemma set_cells_inv p live extra cells cells' :
  pool_inv L m p live extra → budget p = Some cells → shm cells' = shm cells → file cells' = file cells →
  0 <= used_bytes (reassembly cells') <= limit_bytes (reassembly cells') →
  pool_inv L m (set_cells p cells') live (upd extra KReassembly (used_bytes (reassembly cells'))).
Proof.
  intros HI Hb Hs Hf Hr. eapply pool_inv_cells; [done|]. exists cells'. split; [done|].
  destruct (pi_budget _ _ _ _ _ HI) as (cells0 & Hb0 & Hk). rewrite Hb in Hb0. injection Hb0 as <-.
  intros [].
  - rewrite upd_ne by done. simpl. rewrite Hs. apply (Hk KShm).
  - rewrite upd_ne by done. simpl. rewrite Hf. apply (Hk KFile).
  - rewrite upd_eq. simpl. lia.
Qed.
End laws.

#[global] Program Instance mem_pool_laws : ReassemblyPoolLaws MemPool MemHandle Env := {
  pool_ok p live := ∃ L m extra, pool_inv L m p live extra }.
Next Obligation. intros p live live' Hp (L & m & extra & HI). do 3 eexists. by eapply pool_inv_perm. Qed.
Next Obligation.
  intros p live (L & m & extra & HI). destruct (pi_budget _ _ _ _ _ HI) as (cells & Hb & Hk).
  exists cells. split; [done|]. destruct (Hk KReassembly) as (? & Hu & ?). simpl in *. lia.
Qed.
Next Obligation.
  intros p live cells cells' (L & m & extra & HI) Hb Hs Hf Hr.
  pose proof (set_cells_inv L m p live extra cells cells' HI Hb Hs Hf Hr) as HI'. split; [by do 3 eexists|].
  split; [done|]. eapply keeps_reads; [exact HI|exact HI'|by apply keeps_same|done|done].
Qed.
Next Obligation.
  intros e p live n (L & m & extra & HI) Hn. simpl.
  destruct (alloc_handle_spec L m e live extra n p HI Hn) as (p' & r & -> & Hr). cbn [res_bind].
  eexists p', _. split; [done|]. destruct r as [h|err]; simpl in Hr.
  - destruct Hr as (HI' & Hk & Hl). split; [by eapply charged_same|]. split; [|split; [by do 3 eexists|done]].
    eapply keeps_reads; [exact HI|exact HI'|exact Hk|done|by right].
  - destruct Hr as (HI' & Hk & _). split; [by eapply charged_same|]. split; [|by do 3 eexists].
    eapply keeps_reads; [exact HI|exact HI'|exact Hk|done|done].
Qed.
Next Obligation.
  intros e p h live (L & m & extra & HI). simpl.
  destruct (release_handle_spec L m (gc_now e) live extra p h HI) as (p' & -> & HI' & Hk).
  exists p'. split; [done|]. split; [by do 3 eexists|]. split; [by eapply charged_same|].
  eapply keeps_reads; [exact HI|exact HI'|exact Hk|by right|done].
Qed.
Next Obligation.
  intros p h live (L & m & extra & HI). simpl. rewrite (validate_live L m p _ extra h HI ltac:(left)).
  split; [done|]. by eapply slice_live; [exact HI|left].
Qed.
Next Obligation.
  intros p h live off d b (L & m & extra & HI) Hoff Hd Hb. simpl in *.
  destruct (write_spec L m p live extra h off d HI Hoff Hd) as (p' & h' & b' & Hw & Hb' & Hs & HI' & Hl & He).
  assert (b' = b) as -> by congruence. exists p', h'. split; [done|]. split; [done|]. split; [by do 3 eexists|].
  split; [done|]. split; [by eapply charged_same|by apply evolves_reads].
Qed.
Next Obligation.
  intros p h live n b (L & m & extra & HI) Hn Hb. simpl in *.
  destruct (trim_spec L m p live extra h n HI Hn) as (h' & b' & -> & Hb' & Hs & HI').
  assert (b' = b) as -> by congruence. split; [by do 3 eexists|]. split; [|done].
  destruct (slice_live L m p _ extra h' HI' ltac:(left)) as (x & Hx & Hl). rewrite Hs in Hx. injection Hx as <-.
  rewrite <-Hl. destruct (slice_live L m p _ extra h HI ltac:(left)) as (y & Hy & Hl'). rewrite Hb in Hy. injection Hy as <-.
  unfold blen in *. rewrite length_take. lia.
Qed.
