(* ===== verification/AssemblerSpec.v ===== *)
(** What chunk reassembly guarantees: every feed behaves as a map from chunk index to
    bytes prescribes, a complete set of chunks fed in any order gives back the message,
    and the reassembly budget is charged and refunded exactly. *)

From S2P Require Import Prelude.
From S2P Require Import Bytes.
From S2P Require Import Budget.
From S2P Require Import Float64.
From S2P Require Import Pressure.
From S2P Require Import Pool.
From S2P Require Import PoolSafe.
From S2P Require Import Assembler.
From S2P Require Import AssemblerPool.

(** ** Messages cut into chunks *)

(** Every chunk but the last is full. *)
Definition well_cut (size : Z) (chunks : list bytes) : Prop :=
  ∀ i d, chunks !! i = Some d → blen d <= size ∧ ((S i < length chunks)%nat → blen d = size).

Lemma well_cut_cons size d chunks :
  well_cut size (d :: chunks) → well_cut size chunks ∧ blen d <= size ∧ (chunks ≠ [] → blen d = size).
Proof.
  intros Hw. split_and!.
  - intros i x Hx. destruct (Hw (S i) x Hx) as [? Hf]. split; [done|]. intros ?. apply Hf. simpl. lia.
  - by apply (Hw 0%nat d).
  - intros Hne. apply (Hw 0%nat d); [done|]. destruct chunks; [done|]. simpl. lia.
Qed.

Lemma concat_at buf size chunks off :
  well_cut size chunks → (∀ i d, chunks !! i = Some d → at_off buf (off + Z.of_nat i * size) d) →
  0 <= off <= blen buf → at_off buf off (concat chunks).
Proof.
  revert off. induction chunks as [|d chunks IH]; intros off Hw Hat Hoff; [by apply at_off_nil|].
  apply well_cut_cons in Hw as (Hw & Hd & Hfull). cbn [concat]. apply at_off_app.
  pose proof (Hat 0%nat d eq_refl) as H0. rewrite Z.add_0_r in H0. split; [done|].
  apply at_off_bounds in H0. pose proof (blen_nonneg d). apply IH; [done| |lia].
  intros i x Hx. rewrite Hfull by (by intros ->). specialize (Hat (S i) x Hx).
  eapply at_off_eq; [exact Hat|]. lia.
Qed.

(** No chunk ends past the message, and the last one ends it. *)
Lemma chunk_end size chunks i d :
  well_cut size chunks → chunks !! i = Some d →
  Z.of_nat i * size + blen d <= blen (concat chunks)
  ∧ (S i = length chunks → Z.of_nat i * size + blen d = blen (concat chunks)).
Proof.
  revert i. induction chunks as [|x chunks IH]; intros i Hw Hi; [done|].
  apply well_cut_cons in Hw as (Hw & Hx & Hfull). cbn [concat]. rewrite blen_app.
  destruct i as [|i]; simpl in Hi.
  - simplify_eq. pose proof (blen_nonneg (concat chunks)). split; [lia|]. cbn [length]. intros [=].
    destruct chunks; [|done]. cbn. change (blen (@nil byte)) with 0. lia.
  - rewrite Hfull by (by intros ->). destruct (IH i Hw Hi) as [? Hl]. cbn [length].
    split; [lia|]. intros [=]. specialize (Hl ltac:(done)). lia.
Qed.

(** ** The map an assembler stands for *)

(** Of the results of feeding [n] chunks only the last is [true]. *)
Lemma completion_flags n :
  (0 < n)%nat →
  (fun k => Z.of_nat (0 + S k) =? Z.of_nat n) <$> seq 0 n = replicate (n - 1) false ++ [true].
Proof.
  intros Hn. destruct n as [|n]; [lia|]. rewrite seq_S, fmap_app. replace (S n - 1)%nat with n by lia. f_equal.
  - apply list_eq. intros i. rewrite list_lookup_fmap. destruct (decide (i < n)%nat).
    + rewrite lookup_seq_lt, lookup_replicate_2 by lia. apply (f_equal Some). apply Z.eqb_neq. lia.
    + rewrite lookup_seq_ge by lia. symmetry. apply lookup_ge_None. rewrite length_replicate. lia.
  - apply (f_equal (fun b => [b])). apply Z.eqb_eq. lia.
Qed.

Section spec.
Context {P H E : Type} `{ReassemblyPoolLaws P H E}.
Implicit Types (p : P) (env : E) (live : list H) (a : ChunkAssembler (H:=H)) (fed : gmap Z bytes).

Definition span_end (size : Z) (i : Z) (d : bytes) : Z := i * size + blen d.

(** An assembler that has received [fed], in a pool where [live] are the other handles. *)
Record represents p live a fed : Prop := {
  r_total : 0 < total_chunks a;
  r_size : 0 < chunk_size a;
  r_fits : total_chunks a * chunk_size a <= USIZE_MAX;
  r_backing : ∃ s buf, backing a = Some s
    ∧ pool_ok p (handle s :: live)
    ∧ handle_len (handle s) = total_chunks a * chunk_size a
    ∧ handle_slice p (handle s) = Ok buf
    ∧ blen (received_flags s) = total_chunks a
    ∧ (∀ i, 0 <= i < total_chunks a →
         received_flags s !! Z.to_nat i = Some (bool_decide (is_Some (fed !! i))))
    ∧ (∀ i d, fed !! i = Some d → at_off buf (i * chunk_size a) d);
  r_range i d : fed !! i = Some d → 0 <= i < total_chunks a ∧ blen d <= chunk_size a;
  r_received : received a = Z.of_nat (size fed);
  r_end : (∀ i d, fed !! i = Some d → span_end (chunk_size a) i d <= written_end a)
    ∧ (written_end a = 0 ∨ ∃ i d, fed !! i = Some d ∧ written_end a = span_end (chunk_size a) i d) }.

Lemma received_flag p live a fed s i :
  represents p live a fed → backing a = Some s → 0 <= i < total_chunks a →
  chunk_received (backing a) i = Ok (bool_decide (is_Some (fed !! i))).
Proof.
  intros [_ _ _ (s' & buf & Hs & _ & _ & _ & Hl & Hf & _) _ _ _] Hb Hi. rewrite Hb in *. simplify_eq.
  unfold chunk_received, index. cbn [live_state res_bind]. rewrite (Hf i Hi).
  destruct (_ && _) eqn:Hc; [done|]. lia.
Qed.

Lemma buffer_len p live a s buf :
  pool_ok p (handle s :: live) → handle_len (handle s) = total_chunks a * chunk_size a →
  handle_slice p (handle s) = Ok buf →
  validate_handle p (handle s) = true ∧ blen buf = total_chunks a * chunk_size a.
Proof. intros Hok Hl Hs. destruct (ok_read p (handle s) live Hok) as (? & b & Hb & ?). split; [done|]. congruence. Qed.

(** Marking a flag sets it and no other. *)
Lemma mark_flag (flags : list bool) i :
  0 <= i < blen flags →
  ∃ flags', store (E:=ReassemblyError) flags i [true] = Ok flags' ∧ blen flags' = blen flags
    ∧ ∀ j, 0 <= j < blen flags → flags' !! Z.to_nat j = if decide (j = i) then Some true else flags !! Z.to_nat j.
Proof.
  intros Hi. unfold store. change (blen [true]) with 1.
  destruct (_ && _) eqn:Hc; [|lia]. eexists. split; [done|].
  assert (take (Z.to_nat i) flags ++ [true] ++ drop (Z.to_nat (i + 1)) flags = <[Z.to_nat i := true]> flags) as ->.
  { rewrite insert_take_drop by (unfold blen in *; lia). simpl. do 3 f_equal. lia. }
  split; [unfold blen; by rewrite length_insert|]. intros j Hj. case_decide as Hd.
  - subst. rewrite list_lookup_insert_eq; [done|]. unfold blen in *. lia.
  - rewrite list_lookup_insert_ne by lia. done.
Qed.

(** Two different chunks occupy disjoint spans. *)
Lemma spans_disjoint size i j (d x : bytes) :
  0 < size → i ≠ j → blen d <= size → blen x <= size →
  j * size + blen x <= i * size ∨ i * size + blen d <= j * size.
Proof. intros. destruct (decide (j < i)); [left|right]; nia. Qed.

(** The end of the written bytes after one more chunk. *)
Lemma end_insert fed size w idx d :
  fed !! idx = None →
  (∀ i d, fed !! i = Some d → span_end size i d <= w) ∧
    (w = 0 ∨ ∃ i d, fed !! i = Some d ∧ w = span_end size i d) →
  let w' := if w <? idx * size + blen d then idx * size + blen d else w in
  (∀ i x, <[idx := d]> fed !! i = Some x → span_end size i x <= w')
  ∧ (w' = 0 ∨ ∃ i x, <[idx := d]> fed !! i = Some x ∧ w' = span_end size i x).
Proof.
  intros Hnone [He1 He2]. unfold span_end in *. simpl.
  case_match eqn:Hlt; [apply Z.ltb_lt in Hlt|apply Z.ltb_ge in Hlt]; split.
  - intros i x [[-> ->]|[Hne Hx]]%lookup_insert_Some; [lia|]. specialize (He1 _ _ Hx). lia.
  - right. exists idx, d. by rewrite lookup_insert_eq.
  - intros i x [[-> ->]|[Hne Hx]]%lookup_insert_Some; [lia|by apply He1].
  - destruct He2 as [?|(i & x & Hx & ?)]; [by left|right]. exists i, x. split; [|done].
    rewrite lookup_insert_ne; [done|]. congruence.
Qed.

Lemma feed_represents p live a fed idx d :
  represents p live a fed → 0 <= idx < total_chunks a → fed !! idx = None → blen d <= chunk_size a →
  ∃ p' a', feed_chunk p a idx d = Ok (p', a', Z.of_nat (size fed) + 1 =? total_chunks a)
    ∧ represents p' live a' (<[idx := d]> fed)
    ∧ total_chunks a' = total_chunks a ∧ chunk_size a' = chunk_size a
    ∧ reservation <$> backing a' = reservation <$> backing a
    ∧ charged_bytes p' = charged_bytes p ∧ same_reads live p p'.
Proof.
  intros Hrep Hi Hnone Hd. pose proof Hrep as [Ht Hs Hf (s & buf & Hb & Hok & Hl & Hsl & Hfl & Hflag & Hat) Hr Hrc [He1 He2]].
  destruct (buffer_len p live a s buf Hok Hl Hsl) as [Hv Hlen].
  pose proof (blen_nonneg d). assert (0 <= idx * chunk_size a) as Hoff by nia.
  assert (idx * chunk_size a + blen d <= total_chunks a * chunk_size a) as Hin by nia.
  unfold feed_chunk. rewrite (received_flag p live a fed s idx Hrep Hb Hi), Hnone.
  rewrite bool_decide_eq_false_2 by (by intros [? ?]).
  rewrite (proj2 (Z.leb_gt _ _)), (proj2 (Z.ltb_ge _ _)), (proj2 (Z.leb_le _ _)) by lia.
  cbn [guard_err guard_panic res_bind]. unfold write_at. rewrite Hb. cbn [live_state res_bind].
  unfold checked_add. rewrite (proj2 (Z.leb_le _ _)) by lia. rewrite Hl, (proj2 (Z.ltb_ge _ _)), Hv by lia.
  cbn [guard_err negb res_bind].
  destruct (ok_write p (handle s) live (idx * chunk_size a) d buf Hok Hoff) as (p' & h' & -> & Hsl' & Hok' & Hl' & Hch & Hrd);
    [lia|done|]. cbn [must res_bind]. unfold mark_chunk_received. cbn [live_state res_bind received_flags].
  destruct (mark_flag (received_flags s) idx) as (flags & -> & Hfl' & Hflag'); [lia|]. cbn [res_bind].
  eexists _, _. split; [by rewrite Hrc|]. rewrite ?Hb. split; [|done].
  split; simpl; try done.
  - eexists _, _. split; [done|]. simpl. split_and!; try done; [lia|lia| |].
    + intros i Hi'. rewrite Hflag' by lia. case_decide as Hc; [subst i; by rewrite lookup_insert_eq|].
      rewrite lookup_insert_ne by done. by apply Hflag.
    + intros i x [[-> ->]|[Hne Hx]]%lookup_insert_Some; [apply splice_here; lia|].
      destruct (Hr _ _ Hx) as [? ?]. apply splice_frame; [lia|lia|by apply Hat|by apply spans_disjoint].
  - intros i x [[-> ->]|[Hne Hx]]%lookup_insert_Some; [done|by eapply Hr].
  - rewrite map_size_insert_None by done. lia.
  - by apply end_insert.
Qed.

(** Feeding, whichever way it ends. *)
Lemma feed_chunk_cases p live a fed idx d :
  represents p live a fed → 0 <= idx →
  if total_chunks a <=? idx then feed_chunk p a idx d = Err (IndexOutOfRange idx (total_chunks a))
  else if bool_decide (is_Some (fed !! idx)) then feed_chunk p a idx d = Err (DuplicateChunk idx)
  else if chunk_size a <? blen d then feed_chunk p a idx d = Err (OversizedChunk (blen d) (chunk_size a))
  else ∃ p' a', feed_chunk p a idx d = Ok (p', a', Z.of_nat (size fed) + 1 =? total_chunks a)
                ∧ represents p' live a' (<[idx := d]> fed)
                ∧ total_chunks a' = total_chunks a ∧ chunk_size a' = chunk_size a
                ∧ reservation <$> backing a' = reservation <$> backing a
                ∧ charged_bytes p' = charged_bytes p ∧ same_reads live p p'.
Proof.
  intros Hrep Hi. pose proof (r_backing _ _ _ _ Hrep) as (s & buf & Hb & _).
  destruct (Z.leb_spec (total_chunks a) idx) as [Hle|Hgt].
  { unfold feed_chunk. by rewrite (proj2 (Z.leb_le _ _)) by lia. }
  destruct (bool_decide (is_Some (fed !! idx))) eqn:Hdup.
  { unfold feed_chunk. rewrite (proj2 (Z.leb_gt _ _)) by lia. cbn [guard_err res_bind].
    rewrite (received_flag p live a fed s) by (done || lia). by rewrite Hdup. }
  destruct (Z.ltb_spec (chunk_size a) (blen d)) as [Hbig|Hok].
  { unfold feed_chunk. rewrite (proj2 (Z.leb_gt _ _)) by lia. cbn [guard_err res_bind].
    rewrite (received_flag p live a fed s) by (done || lia). rewrite Hdup. cbn [guard_err res_bind].
    by rewrite (proj2 (Z.ltb_lt _ _)) by lia. }
  apply bool_decide_eq_false, eq_None_not_Some in Hdup.
  by apply feed_represents.
Qed.

(** Feeding a chunk is exact: on an assembler that stands for the chunks received so
    far, an index outside the geometry, a repeated index and an oversized chunk are
    rejected, in this order and without a change; any other chunk is recorded, the
    result tells whether it was the last one missing, and no other handle of the pool
    reads anything new. *)
Theorem feed_chunk_exact p live a fed idx d :
  represents p live a fed → 0 <= idx →
  if total_chunks a <=? idx then feed_chunk p a idx d = Err (IndexOutOfRange idx (total_chunks a))
  else if bool_decide (is_Some (fed !! idx)) then feed_chunk p a idx d = Err (DuplicateChunk idx)
  else if chunk_size a <? blen d then feed_chunk p a idx d = Err (OversizedChunk (blen d) (chunk_size a))
  else ∃ p' a', feed_chunk p a idx d = Ok (p', a', Z.of_nat (size fed) + 1 =? total_chunks a)
                ∧ represents p' live a' (<[idx := d]> fed) ∧ same_reads live p p'.
Proof.
  intros Hrep Hi. pose proof (feed_chunk_cases p live a fed idx d Hrep Hi) as Hc. repeat case_match; try done.
  destruct Hc as (p' & a' & ? & ? & _ & _ & _ & _ & ?). by exists p', a'.
Qed.

(** ** Admission and the budget *)

Lemma charged_budget p cells : pool_budget p = Some cells → charged_bytes p = used_bytes (reassembly cells).
Proof. unfold charged_bytes. by intros ->. Qed.

Lemma same_reads_trans live p1 p2 p3 : same_reads live p1 p2 → same_reads live p2 p3 → same_reads live p1 p3.
Proof. intros H12 H23 h Hin. by rewrite (H23 h Hin), (H12 h Hin). Qed.

Lemma same_reads_tail live h p p' : same_reads (h :: live) p p' → same_reads live p p'.
Proof. intros Hr g Hin. apply Hr. by right. Qed.

(** Charging the pool's reassembly cell. *)
Lemma backing_reserve_ok p live cells n cells' r :
  pool_ok p live → pool_budget p = Some cells → 0 <= n → reserve cells KReassembly n = (cells', r) →
  pool_ok (set_budget p cells') live ∧ same_reads live p (set_budget p cells')
  ∧ match r with
    | Ok g => g = {| br_kind := KReassembly; br_bytes := n |}
              ∧ charged_bytes (set_budget p cells') = charged_bytes p + n
    | Err _ => charged_bytes (set_budget p cells') = charged_bytes p
    | Panic => False
    end.
Proof.
  intros Hok Hb Hn Hres. destruct (ok_budget p live Hok) as (cells0 & Hb0 & Hu). rewrite Hb in Hb0. injection Hb0 as <-.
  pose proof (reserve_used cells KReassembly n) as Hr. rewrite Hres in Hr. destruct Hr as [Hlim Hr].
  assert (shm cells' = shm cells ∧ file cells' = file cells) as [Hshm Hfile].
  { unfold reserve in Hres. destruct (try_reserve _ _ _) as [c x]. by injection Hres as <- _. }
  pose proof (Hlim KReassembly) as Hl. cbn [get_cell] in Hl.
  destruct (ok_set p live cells cells' Hok Hb Hshm Hfile) as (Hok' & Hb' & Hrd).
  { destruct r; [destruct Hr as (_ & Hr & Hle & _); cbn [get_cell] in *; lia| |done].
    specialize (Hr KReassembly). cbn [get_cell] in *. lia. }
  split; [done|]. split; [done|]. rewrite (charged_budget _ _ Hb'), (charged_budget _ _ Hb).
  destruct r; [by destruct Hr as (-> & Hr & _)| |done]. apply (Hr KReassembly).
Qed.

Lemma refund_ok p live n :
  pool_ok p live → 0 <= n <= charged_bytes p →
  ∃ p', refund p {| br_kind := KReassembly; br_bytes := n |} = Ok p' ∧ pool_ok p' live
    ∧ charged_bytes p' = charged_bytes p - n ∧ same_reads live p p'.
Proof.
  intros Hok Hn. destruct (ok_budget p live Hok) as (cells & Hb & Hu). rewrite (charged_budget _ _ Hb) in *.
  unfold refund, drop_reservation. rewrite Hb. cbn [get_cell br_kind br_bytes].
  unfold release, checked_sub. rewrite (proj2 (Z.leb_le _ _)) by lia. cbn [res_bind set_cell].
  set (cells' := {| shm := shm cells; file := file cells; reassembly := _ |}).
  destruct (ok_set p live cells cells' Hok Hb eq_refl eq_refl) as (Hok' & Hb' & Hrd); [simpl; lia|].
  eexists. split; [done|]. split; [done|]. by rewrite (charged_budget _ _ Hb').
Qed.

Lemma geometry_checks (same : bool) total size tracked capacity charged :
  0 <= total → 0 <= size →
  (guard_err (negb same) ForeignGuard ;?
   let? capacity := checked_capacity total size in
   match checked_add USIZE_MAX capacity tracked with
   | Some charged => Ok (capacity, charged)
   | None => Err MetadataOverflow
   end) = Ok (capacity, charged) →
  capacity = total * size ∧ charged = total * size + tracked ∧ 0 < total ∧ 0 < size ∧ total * size <= USIZE_MAX.
Proof.
  intros Ht Hs. destruct same; [|done]. unfold checked_capacity, checked_mul, checked_add. cbn [guard_err negb res_bind].
  destruct (Z.eqb_spec total 0); [done|]. destruct (Z.eqb_spec size 0); [done|]. cbn [guard_err res_bind].
  destruct (Z.leb_spec (total * size) USIZE_MAX); [|done]. cbn [res_bind].
  destruct (_ <=? _); [|done]. intros ?. simplify_eq. lia.
Qed.

Lemma geometry_no_panic (same : bool) total size tracked :
  (guard_err (negb same) ForeignGuard ;?
   let? capacity := checked_capacity total size in
   match checked_add USIZE_MAX capacity tracked with
   | Some charged => Ok (capacity, charged)
   | None => Err MetadataOverflow
   end) ≠ Panic.
Proof.
  destruct same; [|done]. unfold checked_capacity. cbn [guard_err negb res_bind].
  destruct (total =? 0); [done|]. destruct (size =? 0); [done|]. cbn [guard_err res_bind].
  destruct (checked_mul _ _ _); [|done]. cbn [res_bind]. by destruct (checked_add _ _ _).
Qed.

(** What an admission does, whichever way it ends. *)
Lemma backing_admit_cases env p live same room total size tracked p' r :
  pool_ok p live → 0 <= total → 0 <= size → 0 <= tracked →
  admit_with_guard env p same room total size tracked = (p', r) →
  same_reads live p p' ∧
  ((∃ s, r = Ok (Some s) ∧ 0 < total ∧ 0 < size ∧ total * size <= USIZE_MAX
        ∧ received_flags s = replicate (Z.to_nat tracked) false
        ∧ handle_len (handle s) = total * size ∧ pool_ok p' (handle s :: live)
        ∧ reservation s = {| br_kind := KReassembly; br_bytes := total * size + tracked |}
        ∧ charged_bytes p' = charged_bytes p + (total * size + tracked))
   ∨ ((∃ err, r = Err err) ∧ pool_ok p' live ∧ charged_bytes p' = charged_bytes p)).
Proof.
  intros Hok Htot Hsz Htr. unfold admit_with_guard.
  pose proof (geometry_checks same total size tracked) as Hgeo. pose proof (geometry_no_panic same total size tracked) as Hnp.
  destruct (_ ;? _) as [[capacity charged]|err|]; [|intros [= <- <-]; split; [done|]; right; eauto|done].
  destruct (Hgeo capacity charged Htot Hsz eq_refl) as (-> & -> & ? & ? & ?). clear Hgeo Hnp.
  destruct (ok_budget p live Hok) as (cells & Hb & Hu). rewrite Hb.
  destruct (reserve cells KReassembly _) as [cells1 rr] eqn:Hres.
  destruct (backing_reserve_ok p live cells (total * size + tracked) cells1 rr Hok Hb ltac:(nia) Hres) as (Hok1 & Hrd1 & Hr).
  set (p1 := set_budget p cells1) in *. pose proof (charged_budget _ _ Hb) as Hcb.
  destruct rr as [g|err|]; [|intros [= <- <-]; split; [done|]; right; eauto|done]. destruct Hr as [-> Hc1].
  assert (∀ q, pool_ok q live → charged_bytes q = charged_bytes p1 → same_reads live p1 q → ∀ (why : ReassemblyError),
    match refund q {| br_kind := KReassembly; br_bytes := total * size + tracked |} with
    | Ok q' => (q', Err why) | _ => (q, Panic) end = (p', r) →
    same_reads live p p' ∧ (∃ err, r = Err err) ∧ pool_ok p' live ∧ charged_bytes p' = charged_bytes p) as Hback.
  { intros q Hq Hcq Hrq why. destruct (refund_ok q live (total * size + tracked) Hq) as (q' & -> & Hq' & Hcq' & Hrq'); [nia|].
    intros [= <- <-]. split; [by eapply same_reads_trans, same_reads_trans|]. split; [eauto|]. split; [done|lia]. }
  destruct room; cbn [negb].
  - destruct (ok_alloc env p1 live (total * size) Hok1 ltac:(nia)) as (p2 & ro & -> & Hc2 & Hrd2 & Hro).
    destruct ro as [h|].
    + destruct Hro as [Hok2 Hl]. intros [= <- <-]. split; [by eapply same_reads_trans|]. left. eexists.
      split_and!; try done. simpl. lia.
    + intros Heq. destruct (Hback p2 Hro Hc2 Hrd2 _ Heq) as (? & ? & ? & ?). split; [done|]. by right.
  - intros Heq. destruct (Hback p1 Hok1 eq_refl (fun h _ => eq_refl) _ Heq) as (? & ? & ? & ?). split; [done|]. by right.
Qed.

(** What creating an assembler does, whichever way it ends. *)
Lemma new_cases env p live room total size limit p1 r :
  pool_ok p live → 0 <= total → 0 <= size →
  ChunkAssembler_new env p room total size limit = (p1, r) →
  same_reads live p p1 ∧
  match r with
  | Ok a => represents p1 live a ∅ ∧ total_chunks a = total ∧ chunk_size a = size
            ∧ reservation <$> backing a = Some {| br_kind := KReassembly; br_bytes := total * size + total |}
            ∧ charged_bytes p1 = charged_bytes p + (total * size + total)
  | Err _ => pool_ok p1 live ∧ charged_bytes p1 = charged_bytes p
  | Panic => False
  end.
Proof.
  intros Hok Ht Hs. unfold ChunkAssembler_new, check_geometry.
  destruct (map_err _ _) as [cap|err|] eqn:Hm; cbn [res_bind]; [|by intros [= <- <-]|].
  2:{ exfalso. revert Hm. unfold checked_capacity. destruct (total =? 0), (size =? 0); cbn; try done.
      by destruct (checked_mul _ _ _). }
  destruct (limit <? cap); cbn [guard_err res_bind]; [by intros [= <- <-]|]. unfold new_with_guard.
  destruct (admit_with_guard env p true room total size total) as [q rr] eqn:Ha.
  apply (backing_admit_cases _ _ live) in Ha
    as [Hrd [(s & -> & ? & ? & ? & Hf & ? & Hok' & Hres & Hch)|([err ->] & ? & ?)]]; try done; intros [= <- <-]; (split; [done|]); [|done].
  split_and!; try done; [|simpl; by rewrite Hres].
  destruct (ok_read q (handle s) live Hok') as (_ & buf & Hbuf & _).
  split; simpl; try done.
  - exists s, buf. rewrite Hf. split_and!; try done.
    + unfold blen. rewrite length_replicate. lia.
    + intros i Hi. rewrite lookup_replicate_2 by lia. by rewrite lookup_empty.
  - split; [done|by left].
Qed.

(** ** Feeding a whole message *)

Fixpoint feed_all p a (l : list (Z * bytes)) : res ReassemblyError (P * ChunkAssembler * list bool) :=
  match l with
  | [] => Ok (p, a, [])
  | (i, d) :: l =>
      let? '(p, a, b) := feed_chunk p a i d in
      let? '(p, a, bs) := feed_all p a l in Ok (p, a, b :: bs)
  end.

Lemma feed_all_represents p live a fed (l : list (Z * bytes)) :
  represents p live a fed → NoDup l.*1 →
  (∀ i d, (i, d) ∈ l → 0 <= i < total_chunks a ∧ blen d <= chunk_size a ∧ fed !! i = None) →
  ∃ p' a', feed_all p a l = Ok (p', a', (fun k => Z.of_nat (size fed + S k) =? total_chunks a) <$> seq 0 (length l))
    ∧ represents p' live a' (list_to_map l ∪ fed)
    ∧ total_chunks a' = total_chunks a ∧ chunk_size a' = chunk_size a
    ∧ reservation <$> backing a' = reservation <$> backing a
    ∧ charged_bytes p' = charged_bytes p ∧ same_reads live p p'.
Proof.
  revert p a fed. induction l as [|[i d] l IH]; intros p a fed Hrep Hnd Hl; cbn [feed_all].
  { exists p, a. split_and!; try done. simpl. by rewrite (left_id_L ∅ (∪)). }
  apply NoDup_cons in Hnd as [Hni Hnd]. destruct (Hl i d) as (Hi & Hd & Hnone); [left|].
  destruct (feed_represents p live a fed i d Hrep Hi Hnone Hd) as (p1 & a1 & -> & Hrep1 & Ht & Hs & Hc & Hce & Hrd).
  cbn [res_bind]. destruct (IH p1 a1 (<[i := d]> fed) Hrep1 Hnd) as (p2 & a2 & -> & Hrep2 & Ht2 & Hs2 & Hc2 & Hce2 & Hrd2).
  { intros j x Hj. rewrite Ht, Hs. destruct (Hl j x) as (? & ? & ?); [by right|]. split_and!; try done; try lia.
    rewrite lookup_insert_ne; [done|]. intros <-. apply Hni. apply list_elem_of_fmap. by exists (i, x). }
  cbn [res_bind]. exists p2, a2. split_and!; try congruence; [| |by eapply same_reads_trans].
  - rewrite map_size_insert_None by done. rewrite Ht. cbn [length seq fmap list_fmap].
    replace (Z.of_nat (size fed) + 1) with (Z.of_nat (size fed + 1)) by lia.
    do 3 f_equal. rewrite <-fmap_S_seq, <-list_fmap_compose.
    apply list_fmap_ext. intros _ k _. unfold compose. apply (f_equal (fun z => z =? _)). lia.
  - simpl. rewrite <-insert_union_l, insert_union_r; [done|]. apply not_elem_of_list_to_map. done.
Qed.

Definition numbered (chunks : list bytes) (order : list Z) : list (Z * bytes) :=
  (fun i => (i, default [] (chunks !! Z.to_nat i))) <$> order.

Lemma numbered_fst chunks order : (numbered chunks order).*1 = order.
Proof. unfold numbered. rewrite <-list_fmap_compose. by rewrite list_fmap_id. Qed.

Lemma numbered_lookup chunks order i :
  order ≡ₚ seqZ 0 (blen chunks) →
  (list_to_map (numbered chunks order) : gmap Z bytes) !! i
  = if decide (0 <= i < blen chunks) then chunks !! Z.to_nat i else None.
Proof.
  intros Ho. assert (NoDup order) as Hnd by (rewrite Ho; apply NoDup_seqZ).
  assert (∀ j, j ∈ order ↔ 0 <= j < blen chunks) as Hin by (intros j; rewrite Ho, elem_of_seqZ; lia).
  case_decide as Hi.
  - destruct (lookup_lt_is_Some_2 chunks (Z.to_nat i)) as [d Hd]; [unfold blen in *; lia|]. rewrite Hd.
    apply elem_of_list_to_map_1; [by rewrite numbered_fst|]. unfold numbered. apply list_elem_of_fmap.
    exists i. rewrite Hd. split; [done|by apply Hin].
  - apply not_elem_of_list_to_map. by rewrite numbered_fst, Hin.
Qed.

Lemma numbered_size chunks order :
  order ≡ₚ seqZ 0 (blen chunks) →
  size (list_to_map (numbered chunks order) : gmap Z bytes) = length chunks.
Proof.
  intros Ho. rewrite map_size_list_to_map by (rewrite numbered_fst, Ho; apply NoDup_seqZ).
  unfold numbered. rewrite length_fmap, Ho, length_seqZ. unfold blen. lia.
Qed.

Lemma written_message p live a chunks fed :
  (∀ i, fed !! i = if decide (0 <= i < blen chunks) then chunks !! Z.to_nat i else None) →
  represents p live a fed → total_chunks a = blen chunks → well_cut (chunk_size a) chunks →
  written_end a = blen (concat chunks).
Proof.
  intros Hfed [Ht _ _ _ _ _ [He1 He2]] Htot Hw. unfold span_end in *.
  destruct (lookup_lt_is_Some_2 chunks (length chunks - 1)%nat) as [d Hd]; [unfold blen in *; lia|].
  destruct (chunk_end _ _ _ _ Hw Hd) as [_ Hlast]. specialize (Hlast ltac:(unfold blen in *; lia)).
  assert (blen (concat chunks) <= written_end a) as Hlo.
  { rewrite <-Hlast. apply He1. rewrite Hfed, decide_True by (unfold blen in *; lia). by rewrite Nat2Z.id. }
  destruct He2 as [Hz|(i & x & Hx & Hend)]; [pose proof (blen_nonneg (concat chunks)); lia|].
  rewrite Hfed in Hx. case_decide; [|done]. destruct (chunk_end _ _ _ _ Hw Hx) as [Hhi _]. rewrite Z2Nat.id in Hhi by lia. lia.
Qed.

Lemma finish_represents p live a chunks fed :
  (∀ i, fed !! i = if decide (0 <= i < blen chunks) then chunks !! Z.to_nat i else None) →
  size fed = length chunks →
  represents p live a fed → total_chunks a = blen chunks → well_cut (chunk_size a) chunks →
  ∃ b, finish a = Ok b ∧ copy_bytes p b = Ok (concat chunks) ∧ capacity_bytes b = capacity_bytes (backing a).
Proof.
  intros Hfed Hsize Hrep Htot Hw. pose proof (written_message _ _ _ _ _ Hfed Hrep Htot Hw) as Hend.
  destruct Hrep as [Ht Hs Hf (s & buf & Hb & Hok & Hl & Hsl & _ & _ & Hat) Hr Hrc _].
  destruct (buffer_len p live a s buf Hok Hl Hsl) as [Hv Hlen].
  assert (at_off buf 0 (concat chunks)) as Hmsg.
  { apply (concat_at _ (chunk_size a)); [done| |pose proof (blen_nonneg buf); lia].
    intros i d Hd. apply Hat. rewrite Hfed, decide_True; [by rewrite Nat2Z.id|].
    apply lookup_lt_Some in Hd. unfold blen. lia. }
  pose proof (at_off_bounds _ _ _ Hmsg) as [_ Hle]. pose proof (blen_nonneg (concat chunks)).
  unfold finish, is_complete. rewrite (proj2 (Z.eqb_eq _ _)) by (unfold blen in *; lia).
  cbn [negb guard_err res_bind]. unfold trim_to. rewrite Hb. cbn [live_state res_bind].
  rewrite (proj2 (Z.ltb_ge _ _)) by lia. cbn [guard_err res_bind]. eexists. split; [done|]. split; [|done].
  destruct (ok_trim p (handle s) live (written_end a) buf Hok) as (Hok' & _ & Hsl'); [lia|done|].
  destruct (ok_read p _ live Hok') as [Hv' _].
  unfold copy_bytes. cbn [live_state res_bind handle]. rewrite Hv', Hsl'. cbn [negb guard_err res_bind must].
  apply at_off_prefix in Hmsg as [rest ->]. rewrite Hend. unfold blen. rewrite Nat2Z.id, take_app_length. done.
Qed.

(** C8 Reassembly restores the message: once an assembler is admitted for the chunks of
    a message, feeding them in any order succeeds, only the last feed reports
    completion, finishing yields exactly the concatenated bytes, the charge still
    covers the admitted capacity with its chunk flags, and every other handle of the
    pool, another assembly's included, reads what it did before. *)
Theorem reassembly_any_order env p live room size limit p1 a chunks order :
  pool_ok p live → 0 <= size → well_cut size chunks →
  ChunkAssembler_new env p room (blen chunks) size limit = (p1, Ok a) →
  order ≡ₚ seqZ 0 (blen chunks) →
  ∃ p2 a2 b,
    feed_all p1 a (numbered chunks order) = Ok (p2, a2, replicate (length chunks - 1) false ++ [true])
    ∧ finish a2 = Ok b ∧ copy_bytes p2 b = Ok (concat chunks)
    ∧ capacity_bytes b = blen chunks * size + blen chunks ∧ same_reads live p p2.
Proof.
  intros Hok Hsz Hw Hnew Ho.
  apply (new_cases _ _ live) in Hnew as (Hrd & Hrep & Ht & Hs & Hcap & _); [|done|apply blen_nonneg|done].
  destruct (feed_all_represents p1 live a ∅ (numbered chunks order) Hrep) as (p2 & a2 & Hfeed & Hrep2 & Ht2 & Hs2 & Hcap2 & _ & Hrd2).
  { rewrite numbered_fst, Ho. apply NoDup_seqZ. }
  { intros i d (j & [= -> ->] & Hj)%list_elem_of_fmap. rewrite Ho, elem_of_seqZ in Hj. rewrite Ht, Hs.
    split_and!; [lia|lia| |done]. destruct (lookup_lt_is_Some_2 chunks (Z.to_nat j)) as [x Hx]; [unfold blen in *; lia|].
    rewrite Hx. by apply (Hw _ _ Hx). }
  rewrite (right_id_L ∅ (∪)) in Hrep2.
  destruct (finish_represents p2 live a2 chunks _ (fun i => numbered_lookup chunks order i Ho) (numbered_size _ _ Ho) Hrep2)
    as (b & Hfin & Hcopy & Hcapb); [congruence|by rewrite Hs2, Hs|].
  rewrite Hcap in Hcap2. exists p2, a2, b. split_and!; try done; [| |by eapply same_reads_trans].
  - rewrite Hfeed. do 3 f_equal.
    unfold numbered. rewrite length_fmap, Ho, length_seqZ, map_size_empty, Ht.
    pose proof (r_total _ _ _ _ Hrep). unfold blen in *. rewrite Nat2Z.id. apply completion_flags. lia.
  - rewrite Hcapb. destruct (backing a2); [|done]. simpl in *. by injection Hcap2 as ->.
Qed.

(** The reassembly budget is exact: a refused admission leaves it as it was, an
    admitted one charges payload and chunk flags, feeding and trimming never change the
    charge, and releasing the assembly at any point succeeds, refunds exactly that
    charge and leaves the pool sound for its other handles.  Nothing panics. *)
Theorem reassembly_budget_exact env p live room total size limit p1 r :
  pool_ok p live → 0 <= total → 0 <= size →
  ChunkAssembler_new env p room total size limit = (p1, r) →
  match r with
  | Ok a =>
      charged_bytes p1 = charged_bytes p + (total * size + total)
      ∧ ∀ l p2 a2 results env2,
          NoDup l.*1 → (∀ i d, (i, d) ∈ l → 0 <= i < total ∧ blen d <= size) →
          feed_all p1 a l = Ok (p2, a2, results) →
          charged_bytes p2 = charged_bytes p1
          ∧ ∃ p3, release_storage env2 p2 (backing a2) = Ok p3 ∧ charged_bytes p3 = charged_bytes p
                  ∧ pool_ok p3 live ∧ same_reads live p p3
  | Err _ => charged_bytes p1 = charged_bytes p ∧ pool_ok p1 live
  | Panic => False
  end.
Proof.
  intros Hok Ht Hs Hnew. apply (new_cases _ _ live) in Hnew as [Hrd Hr]; [|done..].
  destruct r as [a|err|]; [|by destruct Hr|done]. destruct Hr as (Hrep & Htot & Hsz & Hres & Hch).
  split; [done|]. intros l p2 a2 results env2 Hnd Hl Hfeed.
  destruct (feed_all_represents _ live _ _ l Hrep Hnd) as (p2' & a2' & Hfeed' & Hrep2 & _ & _ & Hcap & Hcell & Hrd2).
  { intros i d Hid. destruct (Hl i d Hid). rewrite Htot, Hsz. done. }
  rewrite Hfeed in Hfeed'. injection Hfeed' as <- <- _. split; [done|].
  destruct (r_backing _ _ _ _ Hrep2) as (s2 & buf & Hb & Hok2 & _). rewrite Hb, Hres in Hcap. injection Hcap as Hcap.
  unfold release_storage. rewrite Hb.
  destruct (ok_release env2 p2 (handle s2) live Hok2) as (p3 & -> & Hok3 & Hc3 & Hrd3). cbn [must res_bind].
  destruct (ok_budget p live Hok) as (cells & Hbud & Hu). pose proof (charged_budget _ _ Hbud).
  rewrite Hcap. destruct (refund_ok p3 live (total * size + total) Hok3) as (p4 & -> & Hok4 & Hc4 & Hrd4); [nia|].
  exists p4. split; [done|]. split; [lia|]. split; [done|].
  by eapply same_reads_trans, same_reads_trans, same_reads_trans.
Qed.
End spec.

(** ** Over the memory pool *)

Module SampleReassembly.
Definition config : PoolConfig :=
  {| segment_size := 64; min_block_size := 16; max_segments := 1; max_dedicated_segments := 1;
     buddy_idle_decay_secs := f64_zero; spill_threshold := f64_one; buddy_enabled := true;
     min_retained_segments := 0 |}.
Definition env : Env :=
  {| gc_now := 7; buddy_sample := sample_reading 7; dedicated_sample := sample_reading 7;
     sysconf_pagesize := 128; shm_create := fun _ _ _ => true; spill_create := true |}.
Definition pool0 : MemPool :=
  match new_with_prefix_and_budget config 10 (MemoryBudget_new 100 100 100) 3 with
  | Ok p => p
  | _ => PoolSafe.Sample.pool0
  end.
Definition message : list bytes := [[Byte.x61; Byte.x62]; [Byte.x63; Byte.x64]; [Byte.x65]].
Definition admitted := ChunkAssembler_new env pool0 true 3 2 6.
Definition pool1 : MemPool := admitted.1.
Definition asm : ChunkAssembler :=
  match admitted.2 with
  | Ok a => a
  | _ => {| total_chunks := 0; chunk_size := 0; received := 0; written_end := 0; backing := None |}
  end.

Lemma fresh_ok : pool_ok pool0 [].
Proof.
  destruct (start_inv config (MemoryBudget_new 100 100 100) pool0) as (L & m & HI).
  - split; [by exists 10, 3|done|]. by intros [].
  - by exists L, m, (fun k => used_bytes (get_cell (MemoryBudget_new 100 100 100) k)).
Qed.
End SampleReassembly.

Lemma feed_chunk_exact_witness :
  ∃ p' a', feed_chunk SampleReassembly.pool1 SampleReassembly.asm 2 [Byte.x65] = Ok (p', a', false).
Proof.
  destruct (new_cases SampleReassembly.env SampleReassembly.pool0 [] true 3 2 6 SampleReassembly.pool1
              (Ok SampleReassembly.asm) SampleReassembly.fresh_ok ltac:(done) ltac:(done) ltac:(vm_compute; reflexivity)) as (_ & Hrep & _).
  pose proof (feed_chunk_exact SampleReassembly.pool1 [] SampleReassembly.asm ∅ 2 [Byte.x65] Hrep ltac:(done)) as Hx.
  replace (total_chunks SampleReassembly.asm) with 3 in Hx by (vm_compute; reflexivity).
  replace (chunk_size SampleReassembly.asm) with 2 in Hx by (vm_compute; reflexivity).
  destruct Hx as (p' & a' & Hf & _). exists p', a'. exact Hf.
Defined.

Lemma reassembly_any_order_witness :
  ∃ p2 a2 b,
    feed_all SampleReassembly.pool1 SampleReassembly.asm (numbered SampleReassembly.message [2; 0; 1])
    = Ok (p2, a2, [false; false; true])
    ∧ finish a2 = Ok b ∧ copy_bytes p2 b = Ok (concat SampleReassembly.message) ∧ capacity_bytes b = 9
    ∧ same_reads [] SampleReassembly.pool0 p2.
Proof.
  apply (reassembly_any_order SampleReassembly.env SampleReassembly.pool0 [] true 2 6 SampleReassembly.pool1
           SampleReassembly.asm SampleReassembly.message [2; 0; 1]);
    [exact SampleReassembly.fresh_ok|done| |vm_compute; reflexivity|].
  - intros [|[|[|i]]] d [= <-]; simpl; split; try done; intros; lia.
  - change (seqZ 0 (blen SampleReassembly.message)) with [0; 1; 2].
    apply (Permutation_cons_append [0; 1] 2).
Defined.

Lemma reassembly_budget_exact_witness :
  charged_bytes SampleReassembly.pool1 = 9.
Proof.
  exact (proj1 (reassembly_budget_exact SampleReassembly.env SampleReassembly.pool0 [] true 3 2 6 SampleReassembly.pool1
    (Ok SampleReassembly.asm) SampleReassembly.fresh_ok ltac:(done) ltac:(done) ltac:(vm_compute; reflexivity))).
Defined.
