(* ===== verification/Registry.v ===== *)
(** The sharded chunk registry of [c2-wire] (chunk/registry.rs): admission of chunked
    requests, the one error reply each may get, feeding, completion and cleanup.  Every
    operation is the section it runs under its shard lock; what the code drops after
    unlocking is returned, to be dropped in a step of its own. *)

From S2P Require Import Prelude.
From S2P Require Import Bytes.
From S2P Require Import Budget.
From S2P Require Import Assembler.

(** [ChunkConfig]; durations and instants are nanoseconds. *)
Record ChunkConfig := {
  assembler_timeout : Z;
  gc_interval : Z;
  soft_limit : Z;
  max_reassembly_bytes : Z }.

Definition ChunkConfig_default : ChunkConfig :=
  {| assembler_timeout := 60 * 1000000000; gc_interval := 5 * 1000000000; soft_limit := 512;
     max_reassembly_bytes := 8589934592 |}.

Definition SHARD_COUNT : Z := 16.

(** [AtomicUsize] and [AtomicU64] wrap. *)
Definition fetch_add (x n : Z) : Z := wrap_u64 (x + n).
Definition fetch_sub (x n : Z) : Z := wrap_u64 (x - n).

Record GcStats := { expired : Z; remaining : Z; freed_bytes : Z }.
Definition no_stats : GcStats := {| expired := 0; remaining := 0; freed_bytes := 0 |}.

Record RequestState := { settled : bool; last_received : bool }.

(** An [Arc<RequestState>] is the index of the state in the order of creation. *)
Record ChunkRequest := { conn_id : Z; request_id : Z; state : nat }.
Definition request_key (t : ChunkRequest) : Z * Z := (conn_id t, request_id t).

Inductive RegistryError := NoAssembly (conn_id request_id : Z) | FeedError (e : ReassemblyError).

Section registry.
Context {P H E C : Type} `{ReassemblyPool P H E}.
Notation ChunkAssembler := (ChunkAssembler (H:=H)).

Record TrackedRequest := {
  inner : option ChunkAssembler;
  context : option C;
  request : nat;
  last_activity : Z;
  entry_bytes : Z }.

(** The sixteen maps together, a key being in the shard its connection selects. *)
Record ChunkRegistry := {
  entries : gmap (Z * Z) TrackedRequest;
  request_states : list RequestState;
  active_count : Z;
  total_bytes : Z;
  gc_not_before : option Z }.

(** What leaves the table and is dropped once the shard is unlocked. *)
Notation Removed := (option ChunkAssembler * option C)%type.

Definition ChunkRegistry_new : ChunkRegistry :=
  {| entries := ∅; request_states := []; active_count := 0; total_bytes := 0; gc_not_before := None |}.

Definition shard (conn : Z) : Z := conn mod SHARD_COUNT.

Definition with_entries (g : ChunkRegistry) (t : gmap (Z * Z) TrackedRequest) : ChunkRegistry :=
  {| entries := t; request_states := request_states g; active_count := active_count g;
     total_bytes := total_bytes g; gc_not_before := gc_not_before g |}.
Definition with_states (g : ChunkRegistry) (l : list RequestState) : ChunkRegistry :=
  {| entries := entries g; request_states := l; active_count := active_count g;
     total_bytes := total_bytes g; gc_not_before := gc_not_before g |}.
Definition count_in (g : ChunkRegistry) (n : Z) : ChunkRegistry :=
  {| entries := entries g; request_states := request_states g;
     active_count := fetch_add (active_count g) 1; total_bytes := fetch_add (total_bytes g) n;
     gc_not_before := gc_not_before g |}.
Definition count_out (g : ChunkRegistry) (n : Z) : ChunkRegistry :=
  {| entries := entries g; request_states := request_states g;
     active_count := fetch_sub (active_count g) 1; total_bytes := fetch_sub (total_bytes g) n;
     gc_not_before := gc_not_before g |}.

Definition pending (id : nat) (now : Z) : TrackedRequest :=
  {| inner := None; context := None; request := id; last_activity := now; entry_bytes := 0 |}.

Definition is_live (e : TrackedRequest) : bool := if inner e then true else false.

Definition state_settled (g : ChunkRegistry) (id : nat) : bool :=
  from_option settled false (request_states g !! id).
Definition state_last (g : ChunkRegistry) (id : nat) : bool :=
  from_option last_received false (request_states g !! id).

(** [ChunkRequest::is_settled]. *)
Definition token_settled (g : ChunkRegistry) (t : ChunkRequest) : bool := state_settled g (state t).

(** [Arc::strong_count]: the entries and the frames' tokens that hold the state. *)
Definition strong_count (g : ChunkRegistry) (frames : list ChunkRequest) (id : nat) : nat :=
  (length (filter (fun kv => request kv.2 = id) (map_to_list (entries g)))
   + length (filter (fun t => state t = id) frames))%nat.

Definition has_unsettled_frames (g : ChunkRegistry) (frames : list ChunkRequest) (e : TrackedRequest) : bool :=
  negb (state_settled g (request e)) && (1 <? strong_count g frames (request e))%nat.

Definition contains (g : ChunkRegistry) (conn req : Z) : bool :=
  from_option is_live false (entries g !! (conn, req)).

Definition is_settled (g : ChunkRegistry) (conn req : Z) : bool :=
  from_option (fun e => state_settled g (request e)) false (entries g !! (conn, req)).

(** [entry(key).or_insert_with(pending)]. *)
Definition entry_or_pending (g : ChunkRegistry) (key : Z * Z) (now : Z) : ChunkRegistry * TrackedRequest :=
  match entries g !! key with
  | Some e => (g, e)
  | None =>
      let e := pending (length (request_states g)) now in
      (with_entries (with_states g (request_states g ++ [{| settled := false; last_received := false |}]))
         (<[key := e]> (entries g)), e)
  end.

Definition set_last (g : ChunkRegistry) (id : nat) : ChunkRegistry :=
  with_states g (alter (fun s => {| settled := settled s; last_received := true |}) id (request_states g)).
Definition set_settled (g : ChunkRegistry) (id : nat) : ChunkRegistry :=
  with_states g (alter (fun s => {| settled := true; last_received := last_received s |}) id (request_states g)).

Definition begin_frame (g : ChunkRegistry) (conn req : Z) (last : bool) (now : Z) : ChunkRegistry * ChunkRequest :=
  let key := (conn, req) in
  let '(g, e) := entry_or_pending g key now in
  let g := if last then set_last g (request e) else g in
  let t := {| conn_id := conn; request_id := req; state := request e |} in
  let g := if token_settled g t && last then with_entries g (delete key (entries g)) else g in
  (g, t).

(** [(inner.take(), context.take())] and the counters that leave with the assembly. *)
Definition empty_entry (e : TrackedRequest) (now : Z) : TrackedRequest :=
  {| inner := None; context := None; request := request e; last_activity := now;
     entry_bytes := if is_live e then 0 else entry_bytes e |}.
Definition count_entry_out (g : ChunkRegistry) (e : TrackedRequest) : ChunkRegistry :=
  if is_live e then count_out g (entry_bytes e) else g.

(** [false]: another outcome was claimed first. *)
Definition settle (g : ChunkRegistry) (t : ChunkRequest) (now : Z) : ChunkRegistry * bool * list Removed :=
  let key := request_key t in
  if token_settled g t then (g, false, [])
  else
    let g := set_settled g (state t) in
    let '(g, removed) :=
      match entries g !! key with
      | Some e => (with_entries (count_entry_out g e) (<[key := empty_entry e now]> (entries g)),
                   [(inner e, context e)])
      | None => (g, [])
      end in
    let g := if state_last g (state t) then with_entries g (delete key (entries g)) else g in
    (g, true, removed).

(** The soft limit asks for a sweep, unless the last one proved it fruitless. *)
Definition wants_sweep (cfg : ChunkConfig) (g : ChunkRegistry) (now : Z) : bool :=
  ((soft_limit cfg <=? active_count g) || (max_reassembly_bytes cfg <=? total_bytes g))
  && match gc_not_before g with None => true | Some bound => bound <=? now end.

Definition blocked (g : ChunkRegistry) (e : TrackedRequest) : bool :=
  is_live e || state_settled g (request e).

(** One turn of the admission loop; [busy]: the pool's write lock is taken, so the
    caller waits for it unlocked and tries again ([None]). *)
Definition insert_attempt (cfg : ChunkConfig) (env : E) (busy room : bool) (g : ChunkRegistry) (p : P)
    (conn req : Z) (token : option ChunkRequest) (total size : Z) (ctx : C) (now : Z)
    : ChunkRegistry * P * option (res (ChunkAdmissionError * C) unit) :=
  let key := (conn, req) in
  if from_option (token_settled g) false token || from_option (blocked g) false (entries g !! key)
  then (g, p, Some (Err (Duplicate conn req, ctx)))
  else
    match check_geometry total size (max_reassembly_bytes cfg) with
    | Err e => (g, p, Some (Err (e, ctx)))
    | Panic => (g, p, Some Panic)
    | Ok geometry =>
        if busy then (g, p, None)
        else
          let '(p, r) := new_with_guard env p true room geometry in
          match r with
          | Err e => (g, p, Some (Err (e, ctx)))
          | Panic => (g, p, Some Panic)
          | Ok a =>
              let alloc_bytes := capacity_bytes (backing a) in
              let '(g, e0) := entry_or_pending g key now in
              let e := {| inner := Some a; context := Some ctx; request := request e0;
                          last_activity := now; entry_bytes := alloc_bytes |} in
              (count_in (with_entries g (<[key := e]> (entries g))) alloc_bytes, p, Some (Ok tt))
          end
    end.

Definition feed (g : ChunkRegistry) (p : P) (conn req idx : Z) (data : bytes) (now : Z)
    : ChunkRegistry * P * res RegistryError bool :=
  match entries g !! (conn, req) with
  | None => (g, p, Err (NoAssembly conn req))
  | Some e =>
      match inner e with
      | None => (g, p, Err (NoAssembly conn req))
      | Some a =>
          match feed_chunk p a idx data with
          | Ok (p, a, complete) =>
              let e := {| inner := Some a; context := context e; request := request e;
                          last_activity := now; entry_bytes := entry_bytes e |} in
              (with_entries g (<[(conn, req) := e]> (entries g)), p, Ok complete)
          | Err err => (g, p, Err (FeedError err))
          | Panic => (g, p, Panic)
          end
      end
  end.

(** The caller owns the assembly and its context, completed or not. *)
Definition registry_take (g : ChunkRegistry) (conn req : Z) : ChunkRegistry * res RegistryError (ChunkAssembler * C) :=
  let key := (conn, req) in
  match entries g !! key with
  | Some e =>
      if is_live e then
        (count_out (with_entries g (delete key (entries g))) (entry_bytes e),
         match inner e, context e with Some a, Some c => Ok (a, c) | _, _ => Panic end)
      else (g, Err (NoAssembly conn req))
  | None => (g, Err (NoAssembly conn req))
  end.

(** [shard.remove(&key)] with the counters of what it held. *)
Definition remove_entry (g : ChunkRegistry) (key : Z * Z) : ChunkRegistry * list Removed :=
  match entries g !! key with
  | Some e => (count_entry_out (with_entries g (delete key (entries g))) e, [(inner e, context e)])
  | None => (g, [])
  end.

Definition abort (g : ChunkRegistry) (conn req : Z) : ChunkRegistry * list Removed :=
  remove_entry g (conn, req).

Fixpoint remove_all (g : ChunkRegistry) (keys : list (Z * Z)) : ChunkRegistry * list Removed :=
  match keys with
  | [] => (g, [])
  | key :: keys =>
      let '(g, removed) := remove_entry g key in
      let '(g, rest) := remove_all g keys in (g, removed ++ rest)
  end.

(** The keys of a shard, in the order [order] its map yields them. *)
Definition shard_keys (order : list (Z * Z) → list (Z * Z)) (g : ChunkRegistry) (i : Z) : list (Z * Z) :=
  order (filter (fun key => shard key.1 = i) (map_to_list (entries g)).*1).

Definition cleanup_connection (order : list (Z * Z) → list (Z * Z)) (g : ChunkRegistry) (conn : Z)
    : ChunkRegistry * list Removed :=
  remove_all g (filter (fun key => key.1 = conn) (shard_keys order g (shard conn))).

(** [now.duration_since(last) >= timeout]; [duration_since] saturates at zero. *)
Definition is_expired (timeout now : Z) (e : TrackedRequest) : bool :=
  timeout <=? Z.max 0 (now - last_activity e).

Definition live_in_shard (g : ChunkRegistry) (i : Z) : Z :=
  Z.of_nat (length (filter (fun kv => shard kv.1.1 = i ∧ is_live kv.2 = true) (map_to_list (entries g)))).

(** What a sweep does to one expired entry. *)
Definition expire_entry (frames : list ChunkRequest) (g : ChunkRegistry) (stats : GcStats) (key : Z * Z)
    : ChunkRegistry * GcStats * list Removed :=
  match entries g !! key with
  | None => (g, stats, [])
  | Some e =>
      let emptied := empty_entry e (last_activity e) in
      let g := with_entries (count_entry_out g e) (<[key := emptied]> (entries g)) in
      let stats :=
        if is_live e
        then {| expired := expired stats + 1; remaining := remaining stats;
                freed_bytes := freed_bytes stats + entry_bytes e |}
        else stats in
      let g := if has_unsettled_frames g frames emptied then g
               else with_entries g (delete key (entries g)) in
      (g, stats, [(inner e, context e)])
  end.

Fixpoint expire_all (frames : list ChunkRequest) (g : ChunkRegistry) (stats : GcStats) (keys : list (Z * Z))
    : ChunkRegistry * GcStats * list Removed :=
  match keys with
  | [] => (g, stats, [])
  | key :: keys =>
      let '(g, stats, removed) := expire_entry frames g stats key in
      let '(g, stats, rest) := expire_all frames g stats keys in (g, stats, removed ++ rest)
  end.

Definition key_expired (timeout now : Z) (g : ChunkRegistry) (key : Z * Z) : bool :=
  from_option (is_expired timeout now) false (entries g !! key).

(** The oldest activity of the entries a sweep keeps. *)
Definition older_kept (timeout now : Z) (g : ChunkRegistry) (oldest : Z) (key : Z * Z) : Z :=
  match entries g !! key with
  | Some e => if is_expired timeout now e then oldest else Z.min oldest (last_activity e)
  | None => oldest
  end.
Definition oldest_kept (timeout now : Z) (g : ChunkRegistry) (oldest : Z) (keys : list (Z * Z)) : Z :=
  foldl (older_kept timeout now g) oldest keys.

(** [gc_sweep] on one shard: [now] is when the sweep began. *)
Definition gc_shard (cfg : ChunkConfig) (order : list (Z * Z) → list (Z * Z)) (frames : list ChunkRequest)
    (g : ChunkRegistry) (now oldest : Z) (stats : GcStats) (i : Z)
    : ChunkRegistry * Z * GcStats * list Removed :=
  let keys := shard_keys order g i in
  let oldest := oldest_kept (assembler_timeout cfg) now g oldest keys in
  let '(g, stats, removed) :=
    expire_all frames g stats (filter (fun key => key_expired (assembler_timeout cfg) now g key = true) keys) in
  (g, oldest,
   {| expired := expired stats; remaining := remaining stats + live_in_shard g i; freed_bytes := freed_bytes stats |},
   removed).

(** The end of a sweep publishes when the next one can find something;
    [instant_max] is the last representable instant. *)
Definition gc_publish (cfg : ChunkConfig) (instant_max : Z) (g : ChunkRegistry) (oldest : Z) : ChunkRegistry :=
  {| entries := entries g; request_states := request_states g; active_count := active_count g;
     total_bytes := total_bytes g; gc_not_before := checked_add instant_max oldest (assembler_timeout cfg) |}.

(** [try_release] of an entry's assembly: [None] when the pool is busy. *)
Definition try_release_entry (env : E) (busy : bool) (p : P) (e : TrackedRequest)
    : res ReassemblyError (option (P * TrackedRequest)) :=
  match inner e with
  | None => Ok (Some (p, e))
  | Some a =>
      match backing a with
      | None => Ok (Some (p, e))
      | Some s =>
          if busy then Ok None
          else
            let? p := release_storage env p (Some s) in
            let a := {| total_chunks := total_chunks a; chunk_size := chunk_size a; received := received a;
                        written_end := written_end a; backing := None |} in
            Ok (Some (p, {| inner := Some a; context := context e; request := request e;
                            last_activity := last_activity e; entry_bytes := entry_bytes e |}))
      end
  end.

(** What the world answers while one entry is drained. *)
Record DrainEnv := { drain_env : E; pool_busy : bool; past_deadline : bool }.

(** One call of the predicate [extract_if] is given. *)
Definition drain_entry (matches : Z * Z → TrackedRequest → bool) (keep_frames : bool)
    (frames : list ChunkRequest) (d : DrainEnv) (g : ChunkRegistry) (p : P) (complete : bool) (stats : GcStats)
    (key : Z * Z) : res ReassemblyError (ChunkRegistry * P * bool * GcStats * list Removed) :=
  match entries g !! key with
  | None => Ok (g, p, complete, stats, [])
  | Some e =>
      if negb (matches key e) then Ok (g, p, complete, stats, [])
      else if past_deadline d then Ok (g, p, false, stats, [])
      else
        let? r := try_release_entry (drain_env d) (pool_busy d) p e in
        match r with
        | None => Ok (g, p, false, stats, [])
        | Some (p, e) =>
            let emptied := empty_entry e (last_activity e) in
            let g := with_entries (count_entry_out g e) (<[key := emptied]> (entries g)) in
            let stats :=
              if is_live e
              then {| expired := expired stats + 1; remaining := remaining stats;
                      freed_bytes := freed_bytes stats + entry_bytes e |}
              else stats in
            let g := if negb keep_frames || negb (has_unsettled_frames g frames emptied)
                     then with_entries g (delete key (entries g)) else g in
            Ok (g, p, complete, stats, [(inner e, context e)])
        end
  end.

Fixpoint drain_all (matches : Z * Z → TrackedRequest → bool) (keep_frames : bool)
    (frames : list ChunkRequest) (d : Z * Z → DrainEnv) (g : ChunkRegistry) (p : P) (complete : bool)
    (stats : GcStats) (keys : list (Z * Z)) : res ReassemblyError (ChunkRegistry * P * bool * GcStats * list Removed) :=
  match keys with
  | [] => Ok (g, p, complete, stats, [])
  | key :: keys =>
      let? '(g, p, complete, stats, removed) := drain_entry matches keep_frames frames (d key) g p complete stats key in
      let? '(g, p, complete, stats, rest) := drain_all matches keep_frames frames d g p complete stats keys in
      Ok (g, p, complete, stats, removed ++ rest)
  end.

(** [locked]: another thread holds the shard. *)
Definition try_drain_shard (order : list (Z * Z) → list (Z * Z)) (locked : bool)
    (matches : Z * Z → TrackedRequest → bool) (keep_frames : bool) (frames : list ChunkRequest)
    (d : Z * Z → DrainEnv) (g : ChunkRegistry) (p : P) (i : Z)
    : res ReassemblyError (ChunkRegistry * P * bool * GcStats * list Removed) :=
  if locked then Ok (g, p, false, no_stats, [])
  else
    let? '(g, p, complete, stats, removed) :=
      drain_all matches keep_frames frames d g p true no_stats (shard_keys order g i) in
    Ok (g, p, complete,
        {| expired := expired stats; remaining := live_in_shard g i; freed_bytes := freed_bytes stats |}, removed).

(** The predicates of [try_cleanup_connection], [try_abort] and [try_gc_sweep]. *)
Definition of_connection (conn : Z) (key : Z * Z) (e : TrackedRequest) : bool := key.1 =? conn.
Definition of_request (conn req : Z) (key : Z * Z) (e : TrackedRequest) : bool :=
  (key.1 =? conn) && (key.2 =? req).
Definition of_age (cfg : ChunkConfig) (now : Z) (key : Z * Z) (e : TrackedRequest) : bool :=
  is_expired (assembler_timeout cfg) now e.

(** Dropping what an operation removed, once the shard is unlocked. *)
Definition drop_removed (env : E) (p : P) (r : Removed) : res ReassemblyError P :=
  match r.1 with Some a => release_storage env p (backing a) | None => Ok p end.
End registry.

(** [ChunkRegistry<()>::insert_reply] ahead of the admission: the chunk size it asks for. *)
Definition reply_chunk_size (total_size total_chunks first_data_len : Z) : res ChunkAdmissionError Z :=
  guard_err (total_size =? 0) (Protocol ZeroTotalSize) ;?
  guard_err (first_data_len =? 0) (Protocol ZeroChunkSize) ;?
  guard_err ((total_chunks =? 1) && (total_size <? first_data_len))
    (Protocol (FirstChunkTooLong first_data_len total_size)) ;?
  if 1 <? total_chunks then Ok first_data_len
  else if total_size <=? USIZE_MAX then Ok total_size else Err (Protocol TotalSizeUnaddressable).

Arguments TrackedRequest H C : clear implicits.
Arguments ChunkRegistry H C : clear implicits.
Arguments DrainEnv E : clear implicits.

(** A reply's geometry is usable, and one chunk holds the whole declared size. *)
Lemma reply_chunk_size_ok total_size total_chunks first_data_len n :
  0 <= total_size → 0 <= first_data_len → reply_chunk_size total_size total_chunks first_data_len = Ok n →
  0 < n ∧ (1 < total_chunks → n = first_data_len) ∧ (total_chunks = 1 → n = total_size ∧ first_data_len <= n).
Proof.
  intros Ht Hf. unfold reply_chunk_size. destruct (Z.eqb_spec total_size 0); [done|]. destruct (Z.eqb_spec first_data_len 0); [done|].
  cbn [guard_err res_bind]. destruct (Z.eqb_spec total_chunks 1); destruct (Z.ltb_spec total_size first_data_len);
    cbn [andb guard_err res_bind]; try done; destruct (Z.ltb_spec 1 total_chunks); try destruct (total_size <=? USIZE_MAX); intros [= <-]; lia.
Qed.
