(* ===== verification/RegistryStore.v ===== *)
(** The storage side of the chunk registry: which backings the table holds, what they
    are charged, and that the counters and the pool agree with it. *)

From S2P Require Import Prelude.
From S2P Require Import Bytes.
From S2P Require Import Budget.
From S2P Require Import Assembler.
From S2P Require Import AssemblerSpec.
From S2P Require Import Registry.

(** ** What the values of a map hold *)

Section gather.
Context {K A B : Type} `{Countable K} (f : A → option B).
Implicit Types (m : gmap K A).

Definition gather m : list B := omap (fun kv => f kv.2) (map_to_list m).

Lemma gather_lookup m k x : m !! k = Some x → gather m ≡ₚ option_list (f x) ++ gather (delete k m).
Proof.
  intros Hk. unfold gather. rewrite <-(insert_delete_id m k x Hk) at 1.
  rewrite map_to_list_insert by apply lookup_delete_eq. simpl. by destruct (f x).
Qed.

Lemma gather_insert m k x : gather (<[k := x]> m) ≡ₚ option_list (f x) ++ gather (delete k m).
Proof. by rewrite (gather_lookup _ k x), delete_insert_eq by apply lookup_insert_eq. Qed.

Lemma gather_insert_new m k x : m !! k = None → gather (<[k := x]> m) ≡ₚ option_list (f x) ++ gather m.
Proof. intros Hk. by rewrite gather_insert, delete_id. Qed.

Lemma gather_replace m k x y : m !! k = Some x → f y = f x → gather (<[k := y]> m) ≡ₚ gather m.
Proof. intros Hk Hf. by rewrite gather_insert, (gather_lookup m k x Hk), Hf. Qed.

Lemma elem_of_gather m b : b ∈ gather m ↔ ∃ k x, m !! k = Some x ∧ f x = Some b.
Proof.
  unfold gather. rewrite list_elem_of_omap. split.
  - intros ([k x] & Hin & Hf). apply elem_of_map_to_list in Hin. by exists k, x.
  - intros (k & x & Hk & Hf). exists (k, x). by rewrite elem_of_map_to_list.
Qed.
End gather.

(** ** The invariant *)

Section store.
Context {P H E C : Type} `{ReassemblyPoolLaws P H E}.
Notation ChunkAssembler := (ChunkAssembler (H:=H)).
Notation ReassemblyBacking := (ReassemblyBacking (H:=H)).
Notation BackingState := (BackingState (H:=H)).
Notation ChunkRegistry := (ChunkRegistry H C).
Notation TrackedRequest := (TrackedRequest H C).
Implicit Types (g : ChunkRegistry) (e : TrackedRequest) (p : P) (others : list H) (k : Z * Z).

(** What a registry stands for: per request its geometry and the chunks received. *)
Record Assembly := { as_total : Z; as_size : Z; as_fed : gmap Z bytes }.
Implicit Types m : gmap (Z * Z) Assembly.

Definition entry_backing e : option BackingState :=
  match inner e with Some a => backing a | None => None end.

(** Who owns a backing outside the table: the caller of [take], or whoever holds a
    finished backing or has one left to drop. *)
Inductive Holder := HTaken (a : ChunkAssembler) | HBacking (b : ReassemblyBacking).
Definition holder_backing (h : Holder) : option BackingState :=
  match h with HTaken a => backing a | HBacking b => b end.
Implicit Types (outs : list Holder) (oc : list (option (Assembly + bytes))).

Definition charge (s : BackingState) : Z := br_bytes (reservation s).

(** The backings in the table, and the ones outside it that are not released yet. *)
Definition tabled g : list BackingState := gather entry_backing (entries g).
Definition carriers g outs : list BackingState := tabled g ++ omap holder_backing outs.

(** The assembler stands for [x]. *)
Definition stands_for p (a : ChunkAssembler) (x : Assembly) : Prop :=
  is_Some (backing a) ∧ total_chunks a = as_total x ∧ chunk_size a = as_size x
  ∧ ∃ live, represents p live a (as_fed x).

Definition entry_ok p e (o : option Assembly) : Prop :=
  match inner e, o with
  | None, None => context e = None ∧ entry_bytes e = 0
  | Some a, Some x => is_Some (context e) ∧ entry_bytes e = from_option charge 0 (backing a) ∧ stands_for p a x
  | _, _ => False
  end.

(** What is known of a holder: the chunks of an assembly, the bytes of a message. *)
Definition holder_ok p (h : Holder) (c : option (Assembly + bytes)) : Prop :=
  match h, c with
  | HTaken a, Some (inl x) => stands_for p a x
  | HBacking b, Some (inr d) => copy_bytes p b = Ok d
  | HBacking _, None => True
  | _, _ => False
  end.

(** [ext] bytes and the handles [others] belong to other users of the pool. *)
Record store_inv g p outs others (ext : Z) m oc : Prop := {
  si_entry k : match entries g !! k with Some e => entry_ok p e (m !! k) | None => m !! k = None end;
  si_outs : Forall2 (holder_ok p) outs oc;
  si_pool : pool_ok p ((handle <$> carriers g outs) ++ others);
  si_charge : charged_bytes p = ext + sum_over charge (carriers g outs);
  si_kind : Forall (fun s => br_kind (reservation s) = KReassembly ∧ 0 < charge s) (carriers g outs);
  si_active : active_count g = wrap_u64 (blen (tabled g));
  si_total : total_bytes g = wrap_u64 (sum_over charge (tabled g));
  si_ext : 0 <= ext }.

(** ** Transport *)

Lemma represents_move p p' live live' a fed s :
  represents p live a fed → backing a = Some s → pool_ok p' (handle s :: live') →
  handle_slice p' (handle s) = handle_slice p (handle s) → represents p' live' a fed.
Proof.
  intros [? ? ? (s' & buf & Hb & Hok & Hl & Hsl & Hrest) ? ? ?] Hs Hok' Hsame. split; try done.
  rewrite Hs in Hb. simplify_eq. exists s', buf. by rewrite Hsame.
Qed.

Lemma pool_ok_pick p live h : h ∈ live → pool_ok p live → ∃ rest, pool_ok p (h :: rest) ∧ live ≡ₚ h :: rest.
Proof.
  intros [l1 [l2 ->]]%list_elem_of_split Hok. exists (l1 ++ l2).
  assert (l1 ++ h :: l2 ≡ₚ h :: l1 ++ l2) as Hp by solve_Permutation.
  split; [by eapply ok_perm|done].
Qed.

(** A backing's bytes are the same wherever its handle reads the same. *)
Section move.
Context (p p' : P) (live : list H).
Context (Hok : ∀ h, h ∈ live → ∃ rest, pool_ok p' (h :: rest)) (Hrd : same_reads live p p').

Lemma stands_for_move a x :
  stands_for p a x → (∀ s, backing a = Some s → handle s ∈ live) → stands_for p' a x.
Proof using Hok Hrd.
  intros ([s Hs] & ? & ? & live0 & Hrep) Hin. split; [by exists s|]. do 2 (split; [done|]).
  specialize (Hin s Hs). destruct (Hok _ Hin) as [rest Hok']. exists rest. eapply represents_move; [done|done|done|by apply Hrd].
Qed.

Lemma entry_ok_move e o :
  entry_ok p e o → (∀ s, entry_backing e = Some s → handle s ∈ live) → entry_ok p' e o.
Proof using Hok Hrd.
  unfold entry_ok, entry_backing. destruct (inner e) as [a|], o as [x|]; try done.
  intros (? & ? & Hs) Hin. do 2 (split; [done|]). by apply stands_for_move.
Qed.

Lemma holder_ok_move h c :
  holder_ok p h c → (∀ s, holder_backing h = Some s → handle s ∈ live) → holder_ok p' h c.
Proof using Hok Hrd.
  destruct h as [a|b], c as [[x|d]|]; try done; simpl; [apply stands_for_move|].
  unfold copy_bytes. destruct b as [s|]; [|done]. simpl. intros Hc Hin. specialize (Hin s eq_refl).
  destruct (Hok _ Hin) as [rest Hok']. destruct (ok_read p' _ _ Hok') as [Hv _]. rewrite Hv, (Hrd _ Hin). simpl.
  by destruct (validate_handle p (handle s)).
Qed.
End move.

Lemma tabled_in g k e s : entries g !! k = Some e → entry_backing e = Some s → s ∈ tabled g.
Proof. intros. apply elem_of_gather. eauto. Qed.

Lemma carrier_handle g outs others s : s ∈ carriers g outs → handle s ∈ (handle <$> carriers g outs) ++ others.
Proof. intros. apply elem_of_app. left. apply list_elem_of_fmap. by exists s. Qed.

Lemma entry_carrier g outs k e s : entries g !! k = Some e → entry_backing e = Some s → s ∈ carriers g outs.
Proof. intros. apply elem_of_app. left. by eapply tabled_in. Qed.

Lemma holder_carrier g outs i h s : outs !! i = Some h → holder_backing h = Some s → s ∈ carriers g outs.
Proof. intros ?%list_elem_of_lookup_2 ?. apply elem_of_app. right. apply list_elem_of_omap. eauto. Qed.

(** Another pool, in which the same carriers read the same. *)
Lemma store_inv_pool g p p' outs others others' ext ext' m oc :
  store_inv g p outs others ext m oc →
  pool_ok p' ((handle <$> carriers g outs) ++ others') → same_reads (handle <$> carriers g outs) p p' →
  charged_bytes p' = ext' + sum_over charge (carriers g outs) → 0 <= ext' →
  store_inv g p' outs others' ext' m oc.
Proof.
  intros [Hent Hout Hp Hc Hk Ha Ht _] Hok Hrd Hch Hext.
  assert (∀ s, s ∈ carriers g outs → handle s ∈ handle <$> carriers g outs) as Hin
    by (intros s Hs; apply list_elem_of_fmap; by exists s).
  assert (∀ h, h ∈ handle <$> carriers g outs → ∃ rest, pool_ok p' (h :: rest)) as Hpick.
  { intros h Hh. destruct (pool_ok_pick p' _ h (proj2 (elem_of_app _ others' _) (or_introl Hh)) Hok) as (r & ? & _). by exists r. }
  split; try done.
  - intros k. specialize (Hent k). destruct (entries g !! k) as [e|] eqn:He; [|done].
    eapply entry_ok_move; [exact Hpick|done|done|]. intros s Hs. by eapply Hin, entry_carrier.
  - apply Forall2_same_length_lookup. split; [by eapply Forall2_length|]. intros i h c Hh Hcc.
    eapply holder_ok_move; [exact Hpick|done|by eapply Forall2_lookup_lr|]. intros s Hs. by eapply Hin, holder_carrier.
Qed.

(** Only the entries, the carriers and the counters matter. *)
Lemma store_inv_with g g' p outs outs' others ext m m' oc oc' :
  store_inv g p outs others ext m oc →
  (∀ k, match entries g' !! k with Some e => entry_ok p e (m' !! k) | None => m' !! k = None end) →
  Forall2 (holder_ok p) outs' oc' →
  carriers g' outs' ≡ₚ carriers g outs →
  active_count g' = wrap_u64 (blen (tabled g')) → total_bytes g' = wrap_u64 (sum_over charge (tabled g')) →
  store_inv g' p outs' others ext m' oc'.
Proof.
  intros [_ _ Hp Hc Hk _ _ ?] He Ho Hcar Ha Ht. split; try done.
  - eapply ok_perm; [|exact Hp]. by rewrite Hcar.
  - by rewrite Hc, (sum_over_perm _ _ _ Hcar).
  - by rewrite Hcar.
Qed.

Lemma store_inv_states g l p outs others ext m oc :
  store_inv g p outs others ext m oc → store_inv (with_states g l) p outs others ext m oc.
Proof. intros HI. pose proof HI as []. by eapply store_inv_with. Qed.

(** Any holder can be the first. *)
Lemma store_inv_pick g p outs others ext m oc i h :
  store_inv g p outs others ext m oc → outs !! i = Some h →
  ∃ c, oc !! i = Some c ∧ holder_ok p h c ∧ store_inv g p (h :: delete i outs) others ext m (c :: delete i oc).
Proof.
  intros HI Hi. pose proof HI as [? Ho ? ? ? ? ? ?]. destruct (Forall2_lookup_l _ _ _ _ _ Ho Hi) as (c & Hc & Hok).
  exists c. split; [done|]. split; [done|]. eapply store_inv_with; try done.
  - constructor; [done|by apply Forall2_delete].
  - unfold carriers. f_equiv. symmetry. apply (omap_Permutation holder_backing), delete_Permutation, Hi.
Qed.

Lemma wrap_add x n : wrap_u64 (wrap_u64 x + n) = wrap_u64 (x + n).
Proof. unfold wrap_u64. by rewrite Zplus_mod_idemp_l. Qed.
Lemma wrap_sub x n : wrap_u64 (wrap_u64 x - n) = wrap_u64 (x - n).
Proof. unfold wrap_u64. by rewrite Zminus_mod_idemp_l. Qed.

(** ** Entries that change *)

(** The table with one entry replaced. *)
Lemma entries_ok_insert g p outs others ext m oc k e' o' :
  store_inv g p outs others ext m oc → entry_ok p e' o' →
  ∀ j, match <[k := e']> (entries g) !! j with
       | Some e => entry_ok p e (partial_alter (fun _ => o') k m !! j)
       | None => partial_alter (fun _ => o') k m !! j = None end.
Proof.
  intros HI He j. destruct (decide (k = j)) as [->|Hne].
  - by rewrite lookup_insert_eq, lookup_partial_alter_eq.
  - rewrite lookup_insert_ne, lookup_partial_alter_ne by done. apply (si_entry _ _ _ _ _ _ _ HI).
Qed.

Lemma entries_ok_delete g p outs others ext m oc k :
  store_inv g p outs others ext m oc →
  ∀ j, match delete k (entries g) !! j with
       | Some e => entry_ok p e (delete k m !! j)
       | None => delete k m !! j = None end.
Proof.
  intros HI j. destruct (decide (k = j)) as [->|Hne].
  - by rewrite !lookup_delete_eq.
  - rewrite !lookup_delete_ne by done. apply (si_entry _ _ _ _ _ _ _ HI).
Qed.

Lemma live_entry p e o : entry_ok p e o → is_live e = true → ∃ s, entry_backing e = Some s ∧ entry_bytes e = charge s.
Proof.
  unfold entry_ok, is_live, entry_backing. destruct (inner e) as [a|], o; try done.
  intros (_ & Hc & [s Hs] & _) _. exists s. by rewrite Hs in Hc.
Qed.
Lemma idle_entry p e o :
  entry_ok p e o → is_live e = false → entry_backing e = None ∧ entry_bytes e = 0 ∧ context e = None ∧ o = None.
Proof. unfold entry_ok, is_live, entry_backing. destruct (inner e), o; try done. by intros (? & ?). Qed.

Lemma empty_ok p e o t : entry_ok p e o → entry_ok p (empty_entry e t) None.
Proof.
  unfold entry_ok, empty_entry, is_live. cbn [inner context entry_bytes]. destruct (inner e), o; try done. by intros (? & ?).
Qed.

Lemma store_at g p outs others ext m oc k e :
  store_inv g p outs others ext m oc → entries g !! k = Some e → entry_ok p e (m !! k).
Proof. intros HI He. pose proof (si_entry _ _ _ _ _ _ _ HI k) as Hk. by rewrite He in Hk. Qed.

(** Taking an entry's assembly out of the table. *)
Lemma store_empty g p outs others ext m oc k e t :
  store_inv g p outs others ext m oc → entries g !! k = Some e →
  store_inv (with_entries (count_entry_out g e) (<[k := empty_entry e t]> (entries g))) p
    (HBacking (entry_backing e) :: outs) others ext (delete k m) (None :: oc).
Proof.
  intros HI He. pose proof (store_at _ _ _ _ _ _ _ _ _ HI He) as Hok.
  pose proof (gather_lookup entry_backing (entries g) k e He) as Hold.
  pose proof (gather_insert entry_backing (entries g) k (empty_entry e t)) as Hnew. cbn [option_list app] in Hnew.
  eapply store_inv_with; [exact HI| | | | |].
  - apply (entries_ok_insert g p outs others ext m oc k _ None HI). by eapply empty_ok.
  - constructor; [done|apply (si_outs _ _ _ _ _ _ _ HI)].
  - unfold carriers, tabled. cbn [entries with_entries]. rewrite Hnew, Hold. simpl. destruct (entry_backing e); simpl; solve_Permutation.
  - pose proof (si_active _ _ _ _ _ _ _ HI) as Ha. unfold tabled in *. cbn [entries with_entries active_count].
    unfold count_entry_out, blen in *. rewrite Hnew. rewrite Hold in Ha. destruct (is_live e) eqn:Hl.
    + destruct (live_entry _ _ _ Hok Hl) as (s & Hs & _). rewrite Hs in Ha. cbn [active_count count_out]. unfold fetch_sub.
      rewrite Ha, wrap_sub. f_equal. simpl. lia.
    + destruct (idle_entry _ _ _ Hok Hl) as (Hs & _). by rewrite Hs in Ha.
  - pose proof (si_total _ _ _ _ _ _ _ HI) as Ha. unfold tabled in *. cbn [entries with_entries total_bytes].
    unfold count_entry_out in *. rewrite (sum_over_perm _ _ _ Hnew). rewrite (sum_over_perm _ _ _ Hold) in Ha. destruct (is_live e) eqn:Hl.
    + destruct (live_entry _ _ _ Hok Hl) as (s & Hs & Hc). rewrite Hs in Ha. cbn [total_bytes count_out]. unfold fetch_sub.
      rewrite Ha, wrap_sub, Hc. f_equal. unfold sum_over. simpl. lia.
    + destruct (idle_entry _ _ _ Hok Hl) as (Hs & _). by rewrite Hs in Ha.
Qed.

(** Forgetting an entry without an assembly. *)
Lemma store_delete g p outs others ext m oc k :
  store_inv g p outs others ext m oc → (∀ e, entries g !! k = Some e → inner e = None) →
  store_inv (with_entries g (delete k (entries g))) p outs others ext (delete k m) oc.
Proof.
  intros HI He.
  assert (gather entry_backing (delete k (entries g)) ≡ₚ gather entry_backing (entries g)) as Hg.
  { destruct (entries g !! k) as [e|] eqn:Hk; [|by rewrite delete_id].
    rewrite (gather_lookup _ _ _ _ Hk). unfold entry_backing at 2. by rewrite (He e eq_refl). }
  eapply store_inv_with; [exact HI|by eapply entries_ok_delete|apply (si_outs _ _ _ _ _ _ _ HI)| | |]; unfold carriers, tabled, blen; cbn [entries with_entries active_count total_bytes].
  - by rewrite Hg.
  - rewrite Hg. apply (si_active _ _ _ _ _ _ _ HI).
  - rewrite (sum_over_perm _ _ _ Hg). apply (si_total _ _ _ _ _ _ _ HI).
Qed.

(** A request noted before its first chunk is admitted. *)
Lemma store_pending g p outs others ext m oc k id now :
  store_inv g p outs others ext m oc → entries g !! k = None →
  store_inv (with_entries g (<[k := pending id now]> (entries g))) p outs others ext m oc.
Proof.
  intros HI He. pose proof (gather_insert_new entry_backing (entries g) k (pending id now) He) as Hg. cbn [option_list app] in Hg.
  pose proof (si_entry _ _ _ _ _ _ _ HI k) as Hk. rewrite He in Hk.
  eapply store_inv_with; [exact HI| |apply (si_outs _ _ _ _ _ _ _ HI)| | |]; unfold carriers, tabled, blen; cbn [entries with_entries active_count total_bytes].
  - intros j. destruct (decide (k = j)) as [->|Hne]; [by rewrite lookup_insert_eq, Hk|].
    rewrite lookup_insert_ne by done. apply (si_entry _ _ _ _ _ _ _ HI).
  - by rewrite Hg.
  - rewrite Hg. apply (si_active _ _ _ _ _ _ _ HI).
  - rewrite (sum_over_perm _ _ _ Hg). apply (si_total _ _ _ _ _ _ _ HI).
Qed.

(** [shard.remove]. *)
Definition removed_holder (r : option ChunkAssembler * option C) : Holder :=
  HBacking (match r.1 with Some a => backing a | None => None end).

Lemma with_entries_twice g t t' : with_entries (with_entries g t) t' = with_entries g t'.
Proof. done. Qed.

Lemma count_with g e t : count_entry_out (with_entries g t) e = with_entries (count_entry_out g e) t.
Proof. unfold count_entry_out. by destruct (is_live e). Qed.

Lemma store_remove g p outs others ext m oc k e :
  store_inv g p outs others ext m oc → entries g !! k = Some e →
  store_inv (count_entry_out (with_entries g (delete k (entries g))) e) p (HBacking (entry_backing e) :: outs) others ext (delete k m) (None :: oc).
Proof.
  intros HI He. pose proof (store_empty _ _ _ _ _ _ _ _ _ 0 HI He) as HI'.
  eapply store_delete with (k := k) in HI'.
  - rewrite with_entries_twice in HI'. cbn [entries with_entries] in HI'. rewrite delete_insert_eq, delete_delete_eq in HI'.
    by rewrite count_with.
  - cbn [entries with_entries]. rewrite lookup_insert_eq. by intros ? [= <-].
Qed.

Lemma store_remove_entry g p outs others ext m oc k g' removed :
  store_inv g p outs others ext m oc → remove_entry g k = (g', removed) →
  store_inv g' p ((removed_holder <$> removed) ++ outs) others ext (delete k m) (((fun _ => None) <$> removed) ++ oc).
Proof.
  intros HI. unfold remove_entry. destruct (entries g !! k) as [e|] eqn:He; intros [= <- <-].
  - by apply store_remove.
  - pose proof (si_entry _ _ _ _ _ _ _ HI k) as Hk. rewrite He in Hk. by rewrite delete_id.
Qed.

(** ** Cleanup *)

(** [m] without the requests [keys]. *)
Definition without (keys : list (Z * Z)) m : gmap (Z * Z) Assembly := foldl (fun m k => delete k m) m keys.

Lemma lookup_without keys m k : without keys m !! k = if decide (k ∈ keys) then None else m !! k.
Proof.
  revert m. induction keys as [|j keys IH]; intros m; simpl; [done|]. rewrite IH.
  destruct (decide (k ∈ keys)); [by rewrite decide_True by by right|].
  destruct (decide (j = k)) as [->|]; [by rewrite lookup_delete_eq, decide_True by left|].
  rewrite lookup_delete_ne by done. rewrite decide_False; [done|]. rewrite elem_of_cons. naive_solver.
Qed.

Definition unknown {A} (l : list A) : list (option (Assembly + bytes)) := (fun _ => None) <$> l.

(** Holders join one batch after the other; the order in which they wait is open. *)
Lemma store_inv_batches g p l1 l2 outs others ext m (c1 c2 : list (option (Assembly + bytes))) oc :
  length l1 = length c1 → length l2 = length c2 →
  store_inv g p (l2 ++ l1 ++ outs) others ext m (c2 ++ c1 ++ oc) →
  store_inv g p ((l1 ++ l2) ++ outs) others ext m ((c1 ++ c2) ++ oc).
Proof.
  intros Hl1 Hl2 HI. pose proof HI as [? Ho ? ? ? ? ? ?]. eapply store_inv_with; try done.
  - apply Forall2_app_inv in Ho as [? Ho]; [|done]. apply Forall2_app_inv in Ho as [? ?]; [|done].
    by repeat apply Forall2_app.
  - unfold carriers. f_equiv. apply omap_Permutation. solve_Permutation.
Qed.

Lemma store_remove_all g p outs others ext m oc keys g' removed :
  store_inv g p outs others ext m oc → remove_all g keys = (g', removed) →
  store_inv g' p ((removed_holder <$> removed) ++ outs) others ext (without keys m) (unknown removed ++ oc).
Proof.
  revert g outs oc m removed. induction keys as [|k keys IH]; intros g outs oc m removed HI; cbn [remove_all].
  { by intros [= <- <-]. }
  destruct (remove_entry g k) as [g1 r1] eqn:Hr1. destruct (remove_all g1 keys) as [g2 r2] eqn:Hr2. intros [= <- <-].
  apply (store_remove_entry _ _ _ _ _ _ _ _ _ _ HI) in Hr1. apply (IH _ _ _ _ _ Hr1) in Hr2.
  unfold unknown in *. rewrite !fmap_app. apply store_inv_batches; [by rewrite !length_fmap..|done].
Qed.

Lemma store_expire_entry frames g stats p outs others ext m oc k g' stats' removed :
  store_inv g p outs others ext m oc → expire_entry frames g stats k = (g', stats', removed) →
  store_inv g' p ((removed_holder <$> removed) ++ outs) others ext (delete k m) (unknown removed ++ oc).
Proof.
  intros HI. unfold expire_entry. destruct (entries g !! k) as [e|] eqn:He.
  - intros [= <- <- <-]. pose proof (store_empty _ _ _ _ _ _ _ _ _ (last_activity e) HI He) as HI'.
    case_match; [done|]. rewrite <-(delete_delete_eq m k). apply store_delete; [exact HI'|].
    cbn [entries with_entries]. rewrite lookup_insert_eq. by intros ? [= <-].
  - intros [= <- <- <-]. pose proof (si_entry _ _ _ _ _ _ _ HI k) as Hk. rewrite He in Hk. by rewrite delete_id.
Qed.

Lemma store_expire_all frames g stats p outs others ext m oc keys g' stats' removed :
  store_inv g p outs others ext m oc → expire_all frames g stats keys = (g', stats', removed) →
  store_inv g' p ((removed_holder <$> removed) ++ outs) others ext (without keys m) (unknown removed ++ oc).
Proof.
  revert g stats outs oc m removed. induction keys as [|k keys IH]; intros g stats outs oc m removed HI; cbn [expire_all].
  { by intros [= <- <- <-]. }
  destruct (expire_entry frames g stats k) as [[g1 st1] r1] eqn:Hr1.
  destruct (expire_all frames g1 st1 keys) as [[g2 st2] r2] eqn:Hr2. intros [= <- <- <-].
  apply (store_expire_entry _ _ _ _ _ _ _ _ _ _ _ _ _ HI) in Hr1. apply (IH _ _ _ _ _ _ Hr1) in Hr2.
  unfold unknown in *. rewrite !fmap_app. apply store_inv_batches; [by rewrite !length_fmap..|done].
Qed.

(** ** Releases *)

Lemma charges_nonneg (l : list BackingState) :
  Forall (fun s => br_kind (reservation s) = KReassembly ∧ 0 < charge s) l → 0 <= sum_over charge l.
Proof. induction 1 as [|s l [_ Hs] _ IH]; [done|]. unfold sum_over in *. simpl. lia. Qed.

Lemma sum_over_cons {A} (f : A → Z) x l : sum_over f (x :: l) = f x + sum_over f l.
Proof. done. Qed.

(** A holder's backing can be counted among the other users'. *)
Lemma store_orphan g p h s outs others ext m c oc :
  store_inv g p (h :: outs) others ext m (c :: oc) → holder_backing h = Some s →
  store_inv g p outs (handle s :: others) (ext + charge s) m oc
  ∧ br_kind (reservation s) = KReassembly ∧ 0 < charge s.
Proof.
  intros [Hent Hout Hp Hc Hk Ha Ht Hext] Hs. apply Forall2_cons_1 in Hout as [_ Hout].
  assert (carriers g (h :: outs) ≡ₚ s :: carriers g outs) as Hcar.
  { unfold carriers. simpl. rewrite Hs. solve_Permutation. }
  rewrite Hcar in Hk. apply Forall_cons in Hk as [[Hkind Hpos] Hk].
  rewrite (sum_over_perm _ _ _ Hcar), sum_over_cons in Hc. split; [|done]. split; try done; [|lia|lia].
  eapply ok_perm; [|exact Hp]. rewrite Hcar. simpl. solve_Permutation.
Qed.

(** Dropping a holder's backing refunds its charge and disturbs nobody. *)
Lemma store_drop env g p h outs others ext m c oc :
  store_inv g p (h :: outs) others ext m (c :: oc) →
  ∃ p', release_storage env p (holder_backing h) = Ok p' ∧ store_inv g p' outs others ext m oc
    ∧ charged_bytes p' = charged_bytes p - from_option charge 0 (holder_backing h).
Proof.
  intros HI. destruct (holder_backing h) as [s|] eqn:Hs; simpl.
  2:{ exists p. split; [done|]. split; [|lia]. pose proof HI as [? Hout ? ? ? ? ? ?].
      apply Forall2_cons_1 in Hout as [_ Hout]. eapply store_inv_with; try done. unfold carriers. simpl. by rewrite Hs. }
  destruct (store_orphan _ _ _ _ _ _ _ _ _ _ HI Hs) as (HO & Hkind & Hpos). pose proof HO as [_ _ Hp Hc Hk _ _ _].
  pose proof (charges_nonneg _ Hk) as Hnn. pose proof (si_ext _ _ _ _ _ _ _ HI) as Hext.
  assert (pool_ok p (handle s :: (handle <$> carriers g outs) ++ others)) as Hp'.
  { eapply ok_perm; [|exact Hp]. solve_Permutation. }
  destruct (ok_release env p (handle s) _ Hp') as (p1 & -> & Hp1 & Hc1 & Hrd1). cbn [must res_bind].
  assert (reservation s = {| br_kind := KReassembly; br_bytes := charge s |}) as ->
    by (unfold charge; destruct (reservation s); simpl in *; congruence).
  destruct (refund_ok p1 _ (charge s) Hp1) as (p2 & -> & Hp2 & Hc2 & Hrd2); [lia|].
  exists p2. split; [done|]. split; [|lia]. eapply store_inv_pool; [exact HO|exact Hp2| |lia|done].
  intros x Hx. assert (x ∈ (handle <$> carriers g outs) ++ others) as Hx' by (apply elem_of_app; by left).
  by rewrite (Hrd2 x Hx'), (Hrd1 x Hx').
Qed.
End store.
