(* ===== verification/RegistryOps.v ===== *)
(** Every operation of the chunk registry keeps the storage invariant, and what it does
    to the requests and chunks the registry stands for. *)

From S2P Require Import Prelude.
From S2P Require Import Bytes.
From S2P Require Import Budget.
From S2P Require Import Assembler.
From S2P Require Import AssemblerSpec.
From S2P Require Import Registry.
From S2P Require Import RegistryStore.

Section ops.
Context {P H E C : Type} `{ReassemblyPoolLaws P H E}.
Notation ChunkAssembler := (ChunkAssembler (H:=H)).
Notation ChunkRegistry := (ChunkRegistry H C).
Notation TrackedRequest := (TrackedRequest H C).
Notation Holder := (Holder (H:=H)).
Implicit Types (g : ChunkRegistry) (e : TrackedRequest) (p : P) (others : list H) (k : Z * Z).
Implicit Types (m : gmap (Z * Z) Assembly) (outs : list Holder) (oc : list (option (Assembly + bytes))).

(** ** Frames and error replies *)

Lemma store_entry_or_pending g p outs others ext m oc k now g' e :
  store_inv g p outs others ext m oc → entry_or_pending g k now = (g', e) →
  store_inv g' p outs others ext m oc ∧ entries g' !! k = Some e
  ∧ active_count g' = active_count g ∧ total_bytes g' = total_bytes g.
Proof.
  intros HI. unfold entry_or_pending. destruct (entries g !! k) as [e0|] eqn:He; intros [= <- <-]; [done|].
  split; [|by cbn [entries with_entries]; rewrite lookup_insert_eq].
  apply (store_pending (with_states g _)); [by apply store_inv_states|done].
Qed.

Lemma store_begin_frame g p outs others ext m oc conn req last now g' t :
  store_inv g p outs others ext m oc →
  (∀ e, entries g !! (conn, req) = Some e → state_settled g (request e) = true → inner e = None) →
  begin_frame g conn req last now = (g', t) → store_inv g' p outs others ext m oc.
Proof.
  intros HI Hidle. unfold begin_frame. destruct (entry_or_pending g (conn, req) now) as [g1 e] eqn:Hep.
  pose proof (store_entry_or_pending _ _ _ _ _ _ _ _ _ _ _ HI Hep) as (HI1 & He & _).
  set (g2 := if last then set_last g1 (request e) else g1).
  assert (store_inv g2 p outs others ext m oc) as HI2 by (subst g2; destruct last; [by apply store_inv_states|done]).
  assert (entries g2 = entries g1) as He2 by (subst g2; by destruct last).
  destruct (token_settled g2 _ && last) eqn:Hs; intros [= <- <-]; [|done].
  apply andb_true_iff in Hs as [Hs ->]. subst g2.
  assert (inner e = None) as Hin.
  { unfold token_settled, state_settled in Hs. cbn [state] in Hs. simpl in Hs. rewrite list_lookup_alter_eq in Hs.
    unfold entry_or_pending in Hep. destruct (entries g !! (conn, req)) as [e0|] eqn:He0; injection Hep as <- <-; [|done].
    apply (Hidle e0 eq_refl). unfold state_settled. by destruct (request_states g !! request e0). }
  assert (m !! (conn, req) = None) as Hm.
  { pose proof (store_at _ _ _ _ _ _ _ _ _ HI1 He) as Hok. unfold entry_ok in Hok. rewrite Hin in Hok.
    by destruct (m !! (conn, req)). }
  rewrite <-(delete_id m _ Hm). apply store_delete; [done|]. rewrite He2, He. by intros ? [= <-].
Qed.

Lemma store_settle g p outs others ext m oc t now g' b removed :
  store_inv g p outs others ext m oc → settle g t now = (g', b, removed) →
  store_inv g' p ((removed_holder <$> removed) ++ outs) others ext
    (if b then delete (request_key t) m else m) (unknown removed ++ oc).
Proof.
  intros HI. unfold settle. destruct (token_settled g t); [by intros [= <- <- <-]|].
  pose proof (store_inv_states g (request_states (set_settled g (state t))) _ _ _ _ _ _ HI) as HI1.
  change (with_states g _) with (set_settled g (state t)) in HI1. set (g1 := set_settled g (state t)) in *.
  destruct (entries g1 !! request_key t) as [e|] eqn:He.
  - pose proof (store_empty _ _ _ _ _ _ _ _ _ now HI1 He) as HI2. case_match; intros [= <- <- <-]; [|done].
    rewrite <-(delete_delete_eq m). apply store_delete; [done|]. cbn [entries with_entries].
    rewrite lookup_insert_eq. by intros ? [= <-].
  - assert (m !! request_key t = None) as Hm.
    { pose proof (si_entry _ _ _ _ _ _ _ HI1 (request_key t)) as Hk. by rewrite He in Hk. }
    case_match; intros [= <- <- <-]; [|by rewrite delete_id]. apply (store_delete g1); [done|].
    rewrite He. by intros ?.
Qed.

(** ** Admission *)

Lemma new_with_geometry (env : E) p room total size limit geometry :
  check_geometry total size limit = Ok geometry →
  new_with_guard env p true room geometry = ChunkAssembler_new env p room total size limit.
Proof. unfold ChunkAssembler_new. by intros ->. Qed.

(** Another account of the same backing. *)
Lemma store_inv_know g p h h' outs others ext m c c' oc :
  store_inv g p (h :: outs) others ext m (c :: oc) → holder_backing h' = holder_backing h → holder_ok p h' c' →
  store_inv g p (h' :: outs) others ext m (c' :: oc).
Proof.
  intros HI Hb Hok. pose proof HI as [? Ho ? ? ? ? ? ?]. apply Forall2_cons_1 in Ho as [_ Ho].
  eapply store_inv_with; try done; [by constructor|]. unfold carriers. simpl. by rewrite Hb.
Qed.

(** A backing of nobody in particular gets a holder. *)
Lemma store_join g p h s outs others ext m c oc :
  store_inv g p outs (handle s :: others) (ext + charge s) m oc → holder_backing h = Some s → holder_ok p h c →
  br_kind (reservation s) = KReassembly → 0 < charge s → 0 <= ext →
  store_inv g p (h :: outs) others ext m (c :: oc).
Proof.
  intros [Hent Hout Hp Hc Hk Ha Ht Hext] Hs Hok Hkind Hpos Hext'.
  assert (carriers g (h :: outs) ≡ₚ s :: carriers g outs) as Hcar.
  { unfold carriers. simpl. rewrite Hs. solve_Permutation. }
  split; try done.
  - by constructor.
  - eapply ok_perm; [|exact Hp]. rewrite Hcar. simpl. solve_Permutation.
  - rewrite (sum_over_perm _ _ _ Hcar), sum_over_cons. lia.
  - rewrite Hcar. by constructor.
Qed.

(** An assembly goes into the table at a key that holds none. *)
Lemma store_enter g p a x s outs others ext m oc k e :
  store_inv g p (HTaken a :: outs) others ext m (Some (inl x) :: oc) →
  backing a = Some s → (∀ e0, entries g !! k = Some e0 → inner e0 = None) →
  inner e = Some a → is_Some (context e) → entry_bytes e = charge s →
  store_inv (count_in (with_entries g (<[k := e]> (entries g))) (charge s)) p outs others ext (<[k := x]> m) oc.
Proof.
  intros HI Hs He0 Ha Hc Hb. pose proof HI as [_ Hout _ _ _ Hact Htot _]. apply Forall2_cons_1 in Hout as [Hok Hout].
  assert (entry_backing e = Some s) as Hes by (unfold entry_backing; by rewrite Ha).
  assert (gather entry_backing (delete k (entries g)) ≡ₚ tabled g) as Hdel.
  { unfold tabled. destruct (entries g !! k) as [e0|] eqn:Hk; [|by rewrite delete_id].
    rewrite (gather_lookup _ (entries g) k e0 Hk). unfold entry_backing at 2. by rewrite (He0 e0 eq_refl). }
  assert (gather entry_backing (<[k := e]> (entries g)) ≡ₚ s :: tabled g) as Hnew.
  { rewrite gather_insert, Hdel, Hes. done. }
  eapply store_inv_with; [exact HI| |exact Hout| | |].
  - apply (entries_ok_insert _ _ _ _ _ _ _ k e (Some x) HI). unfold entry_ok. rewrite Ha. split; [done|].
    split; [by rewrite Hs|done].
  - unfold carriers, tabled at 1. cbn [entries count_in with_entries]. rewrite Hnew. simpl. rewrite Hs. solve_Permutation.
  - unfold tabled, blen. cbn [entries count_in with_entries active_count]. rewrite Hnew, Hact. unfold fetch_add.
    rewrite wrap_add. f_equal. unfold blen. simpl. lia.
  - unfold tabled at 1. cbn [entries count_in with_entries total_bytes]. rewrite (sum_over_perm _ _ _ Hnew), sum_over_cons, Htot.
    unfold fetch_add. rewrite wrap_add. f_equal. lia.
Qed.

(** And out of it again. *)
Lemma store_leave g p outs others ext m oc k e a :
  store_inv g p outs others ext m oc → entries g !! k = Some e → inner e = Some a →
  ∃ x, m !! k = Some x ∧ stands_for p a x
    ∧ store_inv (count_out (with_entries g (delete k (entries g))) (entry_bytes e)) p
        (HTaken a :: outs) others ext (delete k m) (Some (inl x) :: oc).
Proof.
  intros HI He Ha. pose proof (store_at _ _ _ _ _ _ _ _ _ HI He) as Hok. unfold entry_ok in Hok. rewrite Ha in Hok.
  destruct (m !! k) as [x|] eqn:Hm; [|done]. destruct Hok as (_ & _ & Hx). exists x. do 2 (split; [done|]).
  pose proof (store_remove _ _ _ _ _ _ _ _ _ HI He) as HI'. unfold count_entry_out, is_live in HI'. rewrite Ha in HI'.
  eapply store_inv_know; [exact HI'| |done]. simpl. unfold entry_backing. by rewrite Ha.
Qed.

Lemma store_insert cfg env busy room g p outs others ext m oc conn req tok total size ctx now g' p' r :
  store_inv g p outs others ext m oc → 0 <= total → 0 <= size →
  insert_attempt cfg env busy room g p conn req tok total size ctx now = (g', p', r) →
  match r with
  | Some (Ok _) => m !! (conn, req) = None
      ∧ store_inv g' p' outs others ext
          (<[(conn, req) := {| as_total := total; as_size := size; as_fed := ∅ |}]> m) oc
      ∧ charged_bytes p' = charged_bytes p + (total * size + total)
  | Some Panic => False
  | _ => g' = g ∧ store_inv g p' outs others ext m oc ∧ charged_bytes p' = charged_bytes p
  end.
Proof.
  intros HI Ht Hs. unfold insert_attempt. destruct (_ || _) eqn:Hblk; [by intros [= <- <- <-]|].
  apply orb_false_iff in Hblk as [_ Hblk].
  destruct (check_geometry total size _) as [geo|err|] eqn:Hgeo; [|by intros [= <- <- <-]|].
  2:{ exfalso. revert Hgeo. unfold check_geometry, checked_capacity. destruct (total =? 0), (size =? 0); try done. simpl.
      destruct (checked_mul _ _ _); [|done]. simpl. by destruct (_ <? _). }
  destruct busy; [by intros [= <- <- <-]|].
  rewrite (new_with_geometry _ _ _ _ _ _ _ Hgeo). destruct (ChunkAssembler_new _ _ _ _ _ _) as [p1 r1] eqn:Hnew.
  apply (new_cases _ _ ((handle <$> carriers g outs) ++ others)) in Hnew as [Hrd Hcase];
    [|by apply (si_pool _ _ _ _ _ _ _ HI)|done|done].
  pose proof (si_ext _ _ _ _ _ _ _ HI) as Hext. pose proof (si_charge _ _ _ _ _ _ _ HI) as Hcp.
  assert (same_reads (handle <$> carriers g outs) p p1) as Hrd' by (intros x Hx; apply Hrd, elem_of_app; by left).
  destruct r1 as [a|err|]; [|intros [= <- <- <-]|done].
  2:{ destruct Hcase as [Hok Hch]. split; [done|]. split; [|done]. eapply store_inv_pool; [exact HI|exact Hok|done|lia|done]. }
  destruct Hcase as (Hrep & Hta & Hsa & Hres & Hch). pose proof (r_backing _ _ _ _ Hrep) as (s & buf & Hbs & Hok & _).
  rewrite Hbs in Hres |- *. injection Hres as Hres. assert (charge s = total * size + total) as Hcs by (unfold charge; by rewrite Hres).
  pose proof (r_total _ _ _ _ Hrep). pose proof (r_size _ _ _ _ Hrep).
  assert (store_inv g p1 outs (handle s :: others) (ext + charge s) m oc) as HI1.
  { eapply store_inv_pool; [exact HI| |done|lia|nia]. eapply ok_perm; [|exact Hok]. solve_Permutation. }
  apply (store_join _ _ (HTaken a) _ _ _ _ _ (Some (inl {| as_total := total; as_size := size; as_fed := ∅ |}))) in HI1;
    [|done|by split; [rewrite Hbs|split; [|split; [|eexists]]]|by rewrite Hres|nia|done].
  destruct (entry_or_pending g (conn, req) now) as [g2 e0] eqn:Hep. cbn [capacity_bytes].
  pose proof (store_entry_or_pending _ _ _ _ _ _ _ _ _ _ _ HI1 Hep) as (HI2 & He2 & _).
  intros [= <- <- <-]. assert (inner e0 = None) as Hidle.
  { unfold entry_or_pending in Hep. destruct (entries g !! (conn, req)) as [e1|] eqn:He1; injection Hep as <- <-; [|done].
    simpl in Hblk. apply orb_false_iff in Hblk as [Hblk _]. unfold is_live in Hblk. by destruct (inner e1). }
  split_and!.
  - pose proof (store_at _ _ _ _ _ _ _ _ _ HI2 He2) as Hk. unfold entry_ok in Hk. rewrite Hidle in Hk. by destruct (m !! (conn, req)).
  - eapply store_enter; [exact HI2|exact Hbs| |done|by eexists|done]. rewrite He2. by intros ? [= <-].
  - done.
Qed.

(** ** Feeding and completion *)

(** The counters are kept modulo the width. *)
Lemma counters_back g p outs others ext m oc n t :
  store_inv g p outs others ext m oc →
  count_in (with_entries (count_out (with_entries g t) n) t) n = with_entries g t.
Proof.
  intros [_ _ _ _ _ Ha Ht _]. unfold count_in, count_out, with_entries, fetch_add, fetch_sub.
  cbn [active_count total_bytes entries request_states gc_not_before]. rewrite !wrap_add, Ha, Ht.
  assert (∀ x y, wrap_u64 (wrap_u64 x - y + y) = wrap_u64 x) as Hw.
  { intros x y. replace (wrap_u64 x - y + y) with (wrap_u64 x) by lia. unfold wrap_u64. apply Z.mod_mod. lia. }
  by rewrite !Hw, <-Ha, <-Ht.
Qed.

Lemma store_feed g p outs others ext m oc conn req idx data now g' p' r :
  store_inv g p outs others ext m oc → 0 <= idx →
  feed g p conn req idx data now = (g', p', r) →
  match m !! (conn, req) with
  | None => g' = g ∧ p' = p ∧ r = Err (NoAssembly conn req)
  | Some x =>
      if as_total x <=? idx then g' = g ∧ p' = p ∧ r = Err (FeedError (IndexOutOfRange idx (as_total x)))
      else if bool_decide (is_Some (as_fed x !! idx)) then g' = g ∧ p' = p ∧ r = Err (FeedError (DuplicateChunk idx))
      else if as_size x <? blen data
           then g' = g ∧ p' = p ∧ r = Err (FeedError (OversizedChunk (blen data) (as_size x)))
      else r = Ok (Z.of_nat (size (as_fed x)) + 1 =? as_total x) ∧ charged_bytes p' = charged_bytes p
        ∧ store_inv g' p' outs others ext
            (<[(conn, req) := {| as_total := as_total x; as_size := as_size x; as_fed := <[idx := data]> (as_fed x) |}]> m) oc
  end.
Proof.
  intros HI Hi. unfold feed. pose proof (si_entry _ _ _ _ _ _ _ HI (conn, req)) as Hk.
  destruct (entries g !! (conn, req)) as [e|] eqn:He; [|rewrite Hk; by intros [= <- <- <-]].
  destruct (inner e) as [a|] eqn:Ha.
  2:{ unfold entry_ok in Hk. rewrite Ha in Hk. destruct (m !! (conn, req)); [done|]. by intros [= <- <- <-]. }
  destruct (store_leave _ _ _ _ _ _ _ _ _ _ HI He Ha) as (x & Hm & Hx & HT). rewrite Hm.
  unfold entry_ok in Hk. rewrite Ha, Hm in Hk. destruct Hk as (Hctx & Hbytes & _).
  pose proof Hx as ([s Hs] & Htot & Hsz & live0 & Hrep0). rewrite <-Htot, <-Hsz.
  destruct (store_orphan _ _ _ s _ _ _ _ _ _ HT Hs) as (HO & Hkind & Hpos). set (g1 := count_out _ _) in HT, HO.
  assert (represents p ((handle <$> carriers g1 outs) ++ others) a (as_fed x)) as Hrep.
  { eapply represents_move; [exact Hrep0|exact Hs| |done]. eapply ok_perm; [|exact (si_pool _ _ _ _ _ _ _ HO)]. solve_Permutation. }
  pose proof (feed_chunk_cases p _ a (as_fed x) idx data Hrep Hi) as Hcase.
  destruct (total_chunks a <=? idx); [rewrite Hcase; by intros [= <- <- <-]|].
  destruct (bool_decide _); [rewrite Hcase; by intros [= <- <- <-]|].
  destruct (chunk_size a <? blen data); [rewrite Hcase; by intros [= <- <- <-]|].
  destruct Hcase as (p1 & a1 & -> & Hrep1 & Ht1 & Hs1 & Hres & Hch & Hrd). intros [= <- <- <-]. rewrite <-Ht1.
  split; [by rewrite Ht1|]. split; [done|]. pose proof (r_backing _ _ _ _ Hrep1) as (s1 & buf & Hb1 & Hok1 & _).
  rewrite Hb1, Hs in Hres. injection Hres as Hres. assert (charge s1 = charge s) as Hcs by (unfold charge; by rewrite Hres).
  pose proof (si_ext _ _ _ _ _ _ _ HI). pose proof (si_charge _ _ _ _ _ _ _ HO).
  assert (store_inv g1 p1 outs (handle s1 :: others) (ext + charge s1) (delete (conn, req) m) oc) as HO1.
  { eapply store_inv_pool; [exact HO| | |lia|lia].
    - eapply ok_perm; [|exact Hok1]. solve_Permutation.
    - intros h Hh. apply Hrd, elem_of_app. by left. }
  apply (store_join _ _ (HTaken a1) _ _ _ _ _ (Some (inl {| as_total := total_chunks a1; as_size := chunk_size a1; as_fed := <[idx := data]> (as_fed x) |}))) in HO1;
    [|done|by split; [rewrite Hb1|split; [|split; [|eexists]]]|by rewrite Hres|lia|done].
  eapply (store_enter _ _ _ _ s1 _ _ _ _ _ (conn, req)
    {| inner := Some a1; context := context e; request := request e; last_activity := now; entry_bytes := entry_bytes e |}) in HO1;
    [|done| |done|done|simpl; rewrite Hbytes, Hs, Hcs; done].
  2:{ subst g1. cbn [entries count_out with_entries]. rewrite lookup_delete_eq. done. }
  rewrite insert_delete_eq, Hs1 in HO1. subst g1. cbn [entries count_out with_entries] in HO1.
  rewrite insert_delete_eq in HO1. replace (charge s1) with (entry_bytes e) in HO1 by (rewrite Hbytes, Hs; simpl; congruence).
  pose proof (counters_back g p outs others ext m oc (entry_bytes e) (<[(conn, req) := {| inner := Some a1; context := context e;
     request := request e; last_activity := now; entry_bytes := entry_bytes e |}]> (entries g)) HI) as Hback.
  unfold with_entries in Hback, HO1 |- *. unfold count_out, count_in in *. simpl in *. by rewrite <-Hback.
Qed.

Lemma store_take g p outs others ext m oc conn req g' r :
  store_inv g p outs others ext m oc → registry_take g conn req = (g', r) →
  match m !! (conn, req) with
  | None => g' = g ∧ r = Err (NoAssembly conn req)
  | Some x => ∃ a c, r = Ok (a, c)
      ∧ store_inv g' p (HTaken a :: outs) others ext (delete (conn, req) m) (Some (inl x) :: oc)
  end.
Proof.
  intros HI. unfold registry_take. pose proof (si_entry _ _ _ _ _ _ _ HI (conn, req)) as Hk.
  destruct (entries g !! (conn, req)) as [e|] eqn:He; [|rewrite Hk; by intros [= <- <-]].
  unfold entry_ok, is_live in *. destruct (inner e) as [a|] eqn:Ha.
  2:{ destruct (m !! (conn, req)); [done|]. by intros [= <- <-]. }
  destruct (store_leave _ _ _ _ _ _ _ _ _ _ HI He Ha) as (x & Hm & _ & HT). rewrite Hm in Hk |- *.
  destruct Hk as ([c Hc] & _). rewrite Hc. intros [= <- <-]. by exists a, c.
Qed.

Lemma written_bounds p live a fed :
  represents p live a fed → 0 <= written_end a <= total_chunks a * chunk_size a.
Proof.
  intros [Ht Hs _ _ Hr _ [_ [->|(i & d & Hd & ->)]]]; [nia|]. destruct (Hr i d Hd). unfold span_end. pose proof (blen_nonneg d). nia.
Qed.

(** Finishing keeps the backing and its charge; a complete, well cut message is read back. *)
Lemma store_finish g p a outs others ext m x oc :
  store_inv g p (HTaken a :: outs) others ext m (Some (inl x) :: oc) →
  if Z.of_nat (size (as_fed x)) =? as_total x then
    ∃ b d, finish a = Ok b ∧ store_inv g p (HBacking b :: outs) others ext m (Some (inr d) :: oc)
      ∧ capacity_bytes b = capacity_bytes (backing a)
      ∧ ∀ chunks, (∀ i, as_fed x !! i = if decide (0 <= i < blen chunks) then chunks !! Z.to_nat i else None) →
          as_total x = blen chunks → well_cut (as_size x) chunks → d = concat chunks
  else finish a = Err (Incomplete (Z.of_nat (size (as_fed x))) (as_total x)).
Proof.
  intros HI. pose proof (si_outs _ _ _ _ _ _ _ HI) as [Hx _]%Forall2_cons_1. simpl in Hx.
  pose proof Hx as ([s Hs] & Htot & Hsz & live0 & Hrep0).
  destruct (store_orphan _ _ _ s _ _ _ _ _ _ HI Hs) as (HO & Hkind & Hpos).
  set (live := (handle <$> carriers g outs) ++ others).
  assert (represents p live a (as_fed x)) as Hrep.
  { eapply represents_move; [exact Hrep0|exact Hs| |done]. eapply ok_perm; [|exact (si_pool _ _ _ _ _ _ _ HO)]. subst live. solve_Permutation. }
  pose proof (r_received _ _ _ _ Hrep) as Hrc. pose proof (written_bounds _ _ _ _ Hrep) as Hw.
  pose proof (r_backing _ _ _ _ Hrep) as (s' & buf & Hs' & Hok & Hl & Hsl & _). rewrite Hs in Hs'. injection Hs' as <-.
  destruct (Z.eqb_spec (Z.of_nat (size (as_fed x))) (as_total x)) as [Hc|Hc].
  2:{ unfold finish, is_complete. rewrite (proj2 (Z.eqb_neq _ _)) by lia. simpl. by rewrite Hrc, Htot. }
  destruct (ok_trim p (handle s) live (written_end a) buf Hok) as (Hok' & Hl' & Hsl'); [lia|done|].
  destruct (ok_read p _ live Hok') as [Hv' _].
  set (s' := {| received_flags := received_flags s; handle := handle_trim (handle s) (written_end a); reservation := reservation s |}).
  assert (finish a = Ok (Some s')) as Hfin.
  { unfold finish, is_complete. rewrite (proj2 (Z.eqb_eq _ _)) by lia. cbn [negb guard_err res_bind]. unfold trim_to. rewrite Hs.
    cbn [live_state res_bind]. by rewrite (proj2 (Z.ltb_ge _ _)) by lia. }
  assert (copy_bytes p (Some s') = Ok (take (Z.to_nat (written_end a)) buf)) as Hcopy.
  { unfold copy_bytes. cbn [live_state res_bind handle]. subst s'. cbn [handle]. rewrite Hv', Hsl'. done. }
  exists (Some s'), (take (Z.to_nat (written_end a)) buf). split; [done|]. split_and!.
  - eapply (store_join _ _ _ s'); [|done|done|done|done|apply (si_ext _ _ _ _ _ _ _ HI)].
    pose proof (si_ext _ _ _ _ _ _ _ HO). pose proof (si_charge _ _ _ _ _ _ _ HO).
    eapply store_inv_pool; [exact HO| |done|done|done]. eapply ok_perm; [|exact Hok']. subst live. solve_Permutation.
  - by rewrite Hs.
  - intros chunks Hfed Htc Hwc.
    destruct (finish_represents p live a chunks (as_fed x)) as (b & Hb & Hcb & _); try done; [unfold blen in *; lia|lia|by rewrite Hsz|].
    rewrite Hfin in Hb. injection Hb as <-. rewrite Hcopy in Hcb. by injection Hcb.
Qed.

(** ** Draining *)

Lemma store_inv_nobody g p outs others ext m oc :
  store_inv g p outs others ext m oc → store_inv g p (HBacking None :: outs) others ext m (None :: oc).
Proof. intros HI. pose proof HI as []. eapply store_inv_with; try done. by constructor. Qed.

(** Releasing an entry in place, then emptying it, is emptying it and dropping the backing. *)
Lemma store_try_release env busy g p outs others ext m oc k e :
  store_inv g p outs others ext m oc → entries g !! k = Some e →
  (try_release_entry env busy p e = Ok None ∧ busy = true ∧ is_live e = true)
  ∨ ∃ p' e', try_release_entry env busy p e = Ok (Some (p', e'))
      ∧ is_live e' = is_live e ∧ request e' = request e ∧ last_activity e' = last_activity e
      ∧ entry_bytes e' = entry_bytes e ∧ entry_backing e' = None
      ∧ store_inv (with_entries (count_entry_out g e) (<[k := empty_entry e (last_activity e)]> (entries g)))
          p' (HBacking (entry_backing e') :: outs) others ext (delete k m) (None :: oc).
Proof.
  intros HI He. pose proof (store_empty _ _ _ _ _ _ _ _ _ (last_activity e) HI He) as HE. set (g' := with_entries _ _) in *.
  unfold try_release_entry. destruct (inner e) as [a|] eqn:Ha.
  2:{ right. exists p, e. unfold entry_backing in *. rewrite Ha in *. done. }
  pose proof (store_at _ _ _ _ _ _ _ _ _ HI He) as Hok. unfold entry_ok in Hok. rewrite Ha in Hok.
  destruct (m !! k); [|done]. destruct Hok as (_ & _ & [s Hs] & _). rewrite Hs. unfold is_live. rewrite Ha.
  destruct busy; [by left|right]. destruct (store_drop env _ _ _ _ _ _ _ _ _ HE) as (p' & Hrel & HE' & _).
  cbn [holder_backing] in Hrel. unfold entry_backing in Hrel. rewrite Ha, Hs in Hrel. rewrite Hrel. cbn [res_bind].
  eexists _, _. split; [done|]. do 5 (split; [done|]). by apply store_inv_nobody.
Qed.

Lemma empty_entry_same e e' t :
  is_live e' = is_live e → request e' = request e → entry_bytes e' = entry_bytes e → empty_entry e' t = empty_entry e t.
Proof. unfold empty_entry. by intros -> -> ->. Qed.

Lemma count_entry_same g e e' :
  is_live e' = is_live e → entry_bytes e' = entry_bytes e → count_entry_out g e' = count_entry_out g e.
Proof. unfold count_entry_out. by intros -> ->. Qed.

Lemma store_drain_entry matches keep frames d g p complete stats outs others ext m oc k :
  store_inv g p outs others ext m oc →
  ∃ g' p' complete' stats' removed drained,
    drain_entry matches keep frames d g p complete stats k = Ok (g', p', complete', stats', removed)
    ∧ store_inv g' p' ((removed_holder <$> removed) ++ outs) others ext (if drained : bool then delete k m else m) (unknown removed ++ oc)
    ∧ (∀ j, j ≠ k → entries g' !! j = entries g !! j)
    ∧ (if drained : bool then ∀ e, entries g' !! k = Some e → keep = true ∧ inner e = None else entries g' = entries g)
    ∧ (complete' = true → complete = true ∧ ∀ e, entries g !! k = Some e → matches k e = true → drained = true).
Proof.
  intros HI. unfold drain_entry. destruct (entries g !! k) as [e|] eqn:He.
  2:{ exists g, p, complete, stats, [], false. split; [done|]. do 4 (split; [done|]). by intros. }
  destruct (matches k e) eqn:Hm; cbn [negb].
  2:{ exists g, p, complete, stats, [], false. split; [done|]. do 4 (split; [done|]). intros ? [= <-]. by rewrite Hm. }
  destruct (past_deadline d).
  { exists g, p, false, stats, [], false. done. }
  destruct (store_try_release (drain_env d) (pool_busy d) _ _ _ _ _ _ _ _ _ HI He)
    as [(-> & _)|(p' & e' & -> & Hl & Hr & Hla & Hb & Hnb & HI')]; cbn [res_bind].
  { exists g, p, false, stats, [], false. done. }
  rewrite (empty_entry_same e e'), (count_entry_same g e e'), Hla by done.
  set (g1 := with_entries _ _) in *. eexists _, p', complete, _, _, true. split; [done|]. cbn [fmap list_fmap app unknown].
  assert (entries g1 !! k = Some (empty_entry e (last_activity e))) as Hk1 by apply lookup_insert_eq.
  split_and!; [| | |done].
  - case_match; [|done]. rewrite <-(delete_delete_eq m k). apply store_delete; [done|]. rewrite Hk1. by intros ? [= <-].
  - intros j Hj. case_match; cbn [entries with_entries]; rewrite ?lookup_delete_ne by done; by apply lookup_insert_ne.
  - intros e0. case_match eqn:Hkeep; cbn [entries with_entries]; [by rewrite lookup_delete_eq|]. rewrite Hk1. intros [= <-].
    apply orb_false_iff in Hkeep as [Hkeep _]. by apply negb_false_iff in Hkeep.
Qed.

Lemma store_drain_all matches keep frames d g p complete stats outs others ext m oc keys :
  store_inv g p outs others ext m oc → NoDup keys →
  ∃ g' p' complete' stats' removed ks,
    drain_all matches keep frames d g p complete stats keys = Ok (g', p', complete', stats', removed)
    ∧ store_inv g' p' ((removed_holder <$> removed) ++ outs) others ext (without ks m) (unknown removed ++ oc)
    ∧ (∀ j, j ∈ ks → j ∈ keys) ∧ (∀ j, j ∉ ks → entries g' !! j = entries g !! j)
    ∧ (∀ j e, j ∈ ks → entries g' !! j = Some e → keep = true ∧ inner e = None)
    ∧ (complete' = true → complete = true
       ∧ ∀ j e, j ∈ keys → entries g !! j = Some e → matches j e = true → j ∈ ks).
Proof.
  revert g p complete stats outs m oc. induction keys as [|k keys IH]; intros g p complete stats outs m oc HI Hnd.
  { exists g, p, complete, stats, [], []. split; [done|]. split; [done|]. split_and!; try done; try (by intros ? ? ?%elem_of_nil). }
  apply NoDup_cons in Hnd as [Hk Hnd]. cbn [drain_all].
  destruct (store_drain_entry matches keep frames (d k) g p complete stats _ _ _ _ _ k HI)
    as (g1 & p1 & c1 & st1 & r1 & b & -> & HI1 & Hf1 & Hb1 & Hc1). cbn [res_bind].
  destruct (IH g1 p1 c1 st1 _ _ _ HI1 Hnd) as (g2 & p2 & c2 & st2 & r2 & ks & -> & HI2 & Hin & Hf2 & Hb2 & Hc2). cbn [res_bind].
  assert (k ∉ ks) as Hkks by (intros ?%Hin; done).
  exists g2, p2, c2, st2, (r1 ++ r2), (if b then k :: ks else ks). split; [done|]. split_and!.
  - unfold unknown in *. rewrite !fmap_app. apply store_inv_batches; [by rewrite !length_fmap..|]. by destruct b.
  - intros j Hj. destruct b; [apply elem_of_cons in Hj as [->|Hj]; [left|]|]; right; by apply Hin.
  - intros j Hj. assert (j ∉ ks) as Hjks by (destruct b; [rewrite elem_of_cons in Hj; naive_solver|done]). rewrite (Hf2 j Hjks).
    destruct (decide (j = k)) as [->|Hne]; [|by apply Hf1]. destruct b; [by rewrite elem_of_cons in Hj; naive_solver|by rewrite Hb1].
  - intros j e Hj He. destruct b; [|by eapply Hb2]. apply elem_of_cons in Hj as [->|Hj]; [|by eapply Hb2].
    rewrite (Hf2 k Hkks) in He. by apply Hb1.
  - intros (Hc & Hall)%Hc2. destruct (Hc1 Hc) as [-> Hk1]. split; [done|]. intros j e [->|Hj]%elem_of_cons He Hm.
    + rewrite (Hk1 e He Hm). left.
    + assert (j ≠ k) as Hne by (by intros ->). rewrite <-(Hf1 j Hne) in He. specialize (Hall j e Hj He Hm). destruct b; [by right|done].
Qed.
End ops.
