(* ===== verification/RegistryRun.v ===== *)
(** Runs of the chunk registry: the threads that share it call its operations one locked
    section at a time, drop what they removed later, and sweep one shard after another
    while others act. *)

From S2P Require Import Prelude.
From S2P Require Import Bytes.
From S2P Require Import Budget.
From S2P Require Import Assembler.
From S2P Require Import AssemblerSpec.
From S2P Require Import Registry.
From S2P Require Import RegistryStore.

(** A sweep between two shards. *)
Record Sweep := { sweep_now : Z; sweep_oldest : Z; sweep_stats : GcStats; sweep_next : Z }.

(** Which requests a nonblocking cleanup is after. *)
Inductive Target :=
| ForConnection (conn : Z)
| ForRequest (conn req : Z)
| ForExpired (now shard : Z).

Section run.
Context {P H E C : Type} `{ReassemblyPool P H E}.
Notation ChunkAssembler := (ChunkAssembler (H:=H)).
Notation ChunkRegistry := (ChunkRegistry H C).
Notation TrackedRequest := (TrackedRequest H C).
Notation Holder := (Holder (H:=H)).
Context (cfg : ChunkConfig) (instant_max : Z).

(** [w_others] and [w_ext] are the handles and charges of the pool's other users. *)
Record World := {
  w_registry : ChunkRegistry;
  w_pool : P;
  w_frames : list ChunkRequest;
  w_out : list Holder;
  w_sweeps : list Sweep;
  w_now : Z;
  w_replies : list nat;
  w_others : list H;
  w_ext : Z }.

Inductive Call :=
| CTick (later : Z)
| CBeginFrame (conn req : Z) (last : bool)
| CEndFrame (i : nat)
| CSettle (i : nat)
| CInsert (env : E) (busy room : bool) (conn req : Z) (frame : option nat) (total size : Z) (ctx : C)
| CFeed (conn req idx : Z) (data : bytes)
| CTake (conn req : Z)
| CFinish (i : nat)
| CRead (i : nat)
| CDrop (env : E) (i : nat)
| CAbort (conn req : Z)
| CCleanup (order : list (Z * Z) → list (Z * Z)) (conn : Z)
| CSweepBegin
| CSweepShard (order : list (Z * Z) → list (Z * Z)) (i : nat)
| CSweepEnd (i : nat)
| CDrain (order : list (Z * Z) → list (Z * Z)) (locked : bool) (what : Target) (d : Z * Z → DrainEnv E)
| COthers (p : P) (others : list H) (ext : Z).

Inductive Answer :=
| Nothing
| Token (t : ChunkRequest)
| Claimed (won : bool)
| Admission (r : option (res (ChunkAdmissionError * C) unit))
| Fed (r : res RegistryError bool)
| Taken (r : res RegistryError unit)
| Finished (r : res ReassemblyError unit)
| Bytes (r : res ReassemblyError bytes)
| Swept (stats : GcStats)
| Drained (complete : bool) (stats : GcStats).

Definition with_registry (w : World) (g : ChunkRegistry) : World :=
  {| w_registry := g; w_pool := w_pool w; w_frames := w_frames w; w_out := w_out w; w_sweeps := w_sweeps w;
     w_now := w_now w; w_replies := w_replies w; w_others := w_others w; w_ext := w_ext w |}.
Definition with_pool (w : World) (p : P) : World :=
  {| w_registry := w_registry w; w_pool := p; w_frames := w_frames w; w_out := w_out w; w_sweeps := w_sweeps w;
     w_now := w_now w; w_replies := w_replies w; w_others := w_others w; w_ext := w_ext w |}.
Definition with_frames (w : World) (l : list ChunkRequest) : World :=
  {| w_registry := w_registry w; w_pool := w_pool w; w_frames := l; w_out := w_out w; w_sweeps := w_sweeps w;
     w_now := w_now w; w_replies := w_replies w; w_others := w_others w; w_ext := w_ext w |}.
Definition with_out (w : World) (l : list Holder) : World :=
  {| w_registry := w_registry w; w_pool := w_pool w; w_frames := w_frames w; w_out := l; w_sweeps := w_sweeps w;
     w_now := w_now w; w_replies := w_replies w; w_others := w_others w; w_ext := w_ext w |}.
Definition with_sweeps (w : World) (l : list Sweep) : World :=
  {| w_registry := w_registry w; w_pool := w_pool w; w_frames := w_frames w; w_out := w_out w; w_sweeps := l;
     w_now := w_now w; w_replies := w_replies w; w_others := w_others w; w_ext := w_ext w |}.
Definition with_now (w : World) (now : Z) : World :=
  {| w_registry := w_registry w; w_pool := w_pool w; w_frames := w_frames w; w_out := w_out w;
     w_sweeps := w_sweeps w; w_now := now; w_replies := w_replies w; w_others := w_others w; w_ext := w_ext w |}.
Definition with_replies (w : World) (l : list nat) : World :=
  {| w_registry := w_registry w; w_pool := w_pool w; w_frames := w_frames w; w_out := w_out w;
     w_sweeps := w_sweeps w; w_now := w_now w; w_replies := l; w_others := w_others w; w_ext := w_ext w |}.
Definition with_users (w : World) (p : P) (others : list H) (ext : Z) : World :=
  {| w_registry := w_registry w; w_pool := p; w_frames := w_frames w; w_out := w_out w;
     w_sweeps := w_sweeps w; w_now := w_now w; w_replies := w_replies w; w_others := others; w_ext := ext |}.

(** What was removed waits to be dropped. *)
Definition let_go (w : World) (removed : list (option ChunkAssembler * option C)) : World :=
  with_out w ((removed_holder <$> removed) ++ w_out w).

(** The shard, the predicate and the retention of a nonblocking cleanup. *)
Definition target_shard (what : Target) : Z :=
  match what with ForConnection conn => shard conn | ForRequest conn _ => shard conn | ForExpired _ i => i end.
Definition target_matches (what : Target) : Z * Z → TrackedRequest → bool :=
  match what with
  | ForConnection conn => of_connection conn
  | ForRequest conn req => of_request conn req
  | ForExpired now _ => of_age cfg now
  end.
Definition target_keeps (what : Target) : bool := match what with ForExpired _ _ => true | _ => false end.

(** One locked section of one thread. *)
Definition perform (w : World) (c : Call) : res Empty_set (World * Answer) :=
  let g := w_registry w in
  let p := w_pool w in
  match c with
  | CTick later => Ok (with_now w (Z.max (w_now w) later), Nothing)
  | CBeginFrame conn req last =>
      let '(g, t) := begin_frame g conn req last (w_now w) in
      Ok (with_frames (with_registry w g) (t :: w_frames w), Token t)
  | CEndFrame i => Ok (with_frames w (delete i (w_frames w)), Nothing)
  | CSettle i =>
      match w_frames w !! i with
      | None => Ok (w, Nothing)
      | Some t =>
          let '(g, won, removed) := settle g t (w_now w) in
          let w := let_go (with_registry w g) removed in
          Ok (if won : bool then with_replies w (state t :: w_replies w) else w, Claimed won)
      end
  | CInsert env busy room conn req frame total size ctx =>
      let token := match frame with Some i => w_frames w !! i | None => None end in
      let conn := from_option conn_id conn token in
      let req := from_option request_id req token in
      let '(g, p, r) := insert_attempt cfg env busy room g p conn req token total size ctx (w_now w) in
      match r with
      | Some Panic => Panic
      | _ => Ok (with_pool (with_registry w g) p, Admission r)
      end
  | CFeed conn req idx data =>
      let '(g, p, r) := feed g p conn req idx data (w_now w) in
      match r with Panic => Panic | _ => Ok (with_pool (with_registry w g) p, Fed r) end
  | CTake conn req =>
      let '(g, r) := registry_take g conn req in
      match r with
      | Ok (a, _) => Ok (with_out (with_registry w g) (HTaken a :: w_out w), Taken (Ok tt))
      | Err e => Ok (with_registry w g, Taken (Err e))
      | Panic => Panic
      end
  | CFinish i =>
      match w_out w !! i with
      | Some (HTaken a) =>
          match finish a with
          | Ok b => Ok (with_out w (HBacking b :: delete i (w_out w)), Finished (Ok tt))
          | Err e => Ok (with_out w (HBacking (backing a) :: delete i (w_out w)), Finished (Err e))
          | Panic => Panic
          end
      | _ => Ok (w, Nothing)
      end
  | CRead i =>
      match w_out w !! i with
      | Some (HBacking b) =>
          match copy_bytes p b with Panic => Panic | r => Ok (w, Bytes r) end
      | _ => Ok (w, Nothing)
      end
  | CDrop env i =>
      match w_out w !! i with
      | None => Ok (w, Nothing)
      | Some h =>
          match release_storage env p (holder_backing h) with
          | Ok p => Ok (with_out (with_pool w p) (delete i (w_out w)), Nothing)
          | _ => Panic
          end
      end
  | CAbort conn req =>
      let '(g, removed) := abort g conn req in Ok (let_go (with_registry w g) removed, Nothing)
  | CCleanup order conn =>
      let '(g, removed) := cleanup_connection order g conn in Ok (let_go (with_registry w g) removed, Nothing)
  | CSweepBegin =>
      Ok (with_sweeps w ({| sweep_now := w_now w; sweep_oldest := w_now w; sweep_stats := no_stats; sweep_next := 0 |}
                         :: w_sweeps w), Nothing)
  | CSweepShard order i =>
      match w_sweeps w !! i with
      | None => Ok (w, Nothing)
      | Some s =>
          if sweep_next s <? SHARD_COUNT then
            let '(g, oldest, stats, removed) :=
              gc_shard cfg order (w_frames w) g (sweep_now s) (sweep_oldest s) (sweep_stats s) (sweep_next s) in
            let s := {| sweep_now := sweep_now s; sweep_oldest := oldest; sweep_stats := stats;
                        sweep_next := sweep_next s + 1 |} in
            Ok (with_sweeps (let_go (with_registry w g) removed) (<[i := s]> (w_sweeps w)), Nothing)
          else Ok (w, Nothing)
      end
  | CSweepEnd i =>
      match w_sweeps w !! i with
      | None => Ok (w, Nothing)
      | Some s =>
          if sweep_next s <? SHARD_COUNT then Ok (w, Nothing)
          else Ok (with_sweeps (with_registry w (gc_publish cfg instant_max g (sweep_oldest s)))
                     (delete i (w_sweeps w)), Swept (sweep_stats s))
      end
  | CDrain order locked what d =>
      match try_drain_shard order locked (target_matches what) (target_keeps what) (w_frames w) d g p (target_shard what) with
      | Ok (g, p, complete, stats, removed) =>
          Ok (let_go (with_pool (with_registry w g) p) removed, Drained complete stats)
      | _ => Panic
      end
  | COthers p others ext => Ok (with_users w p others ext, Nothing)
  end.

Fixpoint perform_all (w : World) (l : list Call) : res Empty_set (World * list Answer) :=
  match l with
  | [] => Ok (w, [])
  | c :: l =>
      let? '(w, a) := perform w c in
      let? '(w, rest) := perform_all w l in Ok (w, a :: rest)
  end.
End run.
Arguments World P H C : clear implicits.
Arguments Call P H E C : clear implicits.
Arguments Answer C : clear implicits.
