(* ===== verification/RegistryInv.v ===== *)
(** What the operations of the chunk registry do to reply claims and to the times the
    sweep relies on. *)

From S2P Require Import Prelude.
From S2P Require Import Bytes.
From S2P Require Import Budget.
From S2P Require Import Assembler.
From S2P Require Import Registry.
From S2P Require Import RegistryStore.
From S2P Require Import RegistryRun.

Create HintDb registry discriminated.

Section inv.
Context {P H E C : Type} `{ReassemblyPool P H E}.
Notation ChunkRegistry := (ChunkRegistry H C).
Notation TrackedRequest := (TrackedRequest H C).
Implicit Types (g : ChunkRegistry) (e : TrackedRequest) (k : Z * Z) (frames : list ChunkRequest).

(** ** Operations that only empty or forget entries *)

Definition trims g g' : Prop :=
  request_states g' = request_states g ∧ gc_not_before g' = gc_not_before g
  ∧ ∀ k e', entries g' !! k = Some e' →
      ∃ e, entries g !! k = Some e ∧ request e' = request e ∧ last_activity e' = last_activity e
           ∧ (inner e' = inner e ∨ inner e' = None).

Lemma trims_refl g : trims g g.
Proof. do 2 (split; [done|]). intros k e He. exists e. eauto. Qed.

Lemma trims_trans g1 g2 g3 : trims g1 g2 → trims g2 g3 → trims g1 g3.
Proof.
  intros (Hs1 & Hb1 & H12) (Hs2 & Hb2 & H23). split; [congruence|]. split; [congruence|].
  intros k e3 (e2 & (e1 & ? & ? & ? & Hi1)%H12 & ? & ? & Hi2)%H23. exists e1. split_and!; try congruence.
  destruct Hi2 as [->| ->]; [done|by right].
Qed.

Lemma trims_delete g k : trims g (with_entries g (delete k (entries g))).
Proof. do 2 (split; [done|]). cbn [entries with_entries]. intros j e [_ He]%lookup_delete_Some. exists e. eauto. Qed.

Lemma trims_count_out g n : trims g (count_out g n).
Proof. do 2 (split; [done|]). intros k e He. exists e. eauto. Qed.

Lemma trims_count_entry g e : trims g (count_entry_out g e).
Proof. unfold count_entry_out. destruct (is_live e); [apply trims_count_out|apply trims_refl]. Qed.

Lemma trims_empty g k e e0 :
  entries g !! k = Some e → trims g (with_entries (count_entry_out g e0) (<[k := empty_entry e (last_activity e)]> (entries g))).
Proof.
  intros He. do 2 (split; [by unfold count_entry_out; destruct (is_live e0)|]). cbn [entries with_entries]. intros j e' [[<- <-]|[_ Hj]]%lookup_insert_Some.
  - exists e. eauto.
  - exists e'. eauto.
Qed.

Lemma trims_remove_entry g k g' removed : remove_entry g k = (g', removed) → trims g g'.
Proof.
  unfold remove_entry. destruct (entries g !! k) as [e|]; intros [= <- <-]; [|apply trims_refl].
  eapply trims_trans; [apply trims_delete|apply trims_count_entry].
Qed.

Lemma trims_remove_all g keys g' removed : remove_all g keys = (g', removed) → trims g g'.
Proof.
  revert g removed. induction keys as [|k keys IH]; intros g removed; cbn [remove_all]; [intros [= <- <-]; apply trims_refl|].
  destruct (remove_entry g k) as [g1 r1] eqn:Hr1. destruct (remove_all g1 keys) as [g2 r2] eqn:Hr2. intros [= <- <-].
  eapply trims_trans; [by eapply trims_remove_entry|by eapply IH].
Qed.

Lemma trims_take g conn req g' r : registry_take g conn req = (g', r) → trims g g'.
Proof.
  unfold registry_take. destruct (entries g !! (conn, req)) as [e|]; [|intros [= <- <-]; apply trims_refl].
  destruct (is_live e); intros [= <- <-]; [|apply trims_refl].
  eapply trims_trans; [apply trims_delete|apply trims_count_out].
Qed.

(** *** Sweeps *)

Lemma strong_count_held g frames k e t :
  entries g !! k = Some e → t ∈ frames → state t = request e → (1 < strong_count g frames (request e))%nat.
Proof.
  intros He Ht Hs. unfold strong_count.
  assert (0 < length (filter (fun kv => request kv.2 = request e) (map_to_list (entries g))))%nat.
  { destruct (filter _ _) as [|x l] eqn:Hf; [|simpl; lia]. exfalso. apply (not_elem_of_nil (k, e)). rewrite <-Hf.
    by rewrite list_elem_of_filter, elem_of_map_to_list. }
  assert (0 < length (filter (fun t => state t = request e) frames))%nat; [|lia].
  destruct (filter (fun t => state t = request e) frames) as [|x l] eqn:Hf; [|simpl; lia].
  exfalso. apply (not_elem_of_nil t). rewrite <-Hf. by rewrite list_elem_of_filter.
Qed.

(** The unsettled request of a dispatched frame stays claimed under its key. *)
Definition keeps_claims frames g g' : Prop :=
  ∀ t e, t ∈ frames → token_settled g t = false → entries g !! request_key t = Some e → request e = state t →
    ∃ e', entries g' !! request_key t = Some e' ∧ request e' = state t.

Lemma keeps_claims_refl frames g : keeps_claims frames g g.
Proof. intros t e _ _ ? ?. by exists e. Qed.

Lemma keeps_claims_trans frames g1 g2 g3 :
  request_states g2 = request_states g1 → keeps_claims frames g1 g2 → keeps_claims frames g2 g3 → keeps_claims frames g1 g3.
Proof.
  intros Hs H12 H23 t e Ht Hset He Hr. destruct (H12 t e Ht Hset He Hr) as (e2 & He2 & Hr2).
  apply (H23 t e2); try done. unfold token_settled, state_settled in *. by rewrite Hs.
Qed.

Lemma emptied_claims frames g k e e0 :
  entries g !! k = Some e →
  let emptied := empty_entry e (last_activity e) in
  let g1 := with_entries (count_entry_out g e0) (<[k := emptied]> (entries g)) in
  keeps_claims frames g g1
  ∧ (has_unsettled_frames g1 frames emptied = false → keeps_claims frames g (with_entries g1 (delete k (entries g1)))).
Proof.
  intros He emptied g1. assert (keeps_claims frames g g1) as Hk1.
  { intros t e' Ht Hset He' Hr. destruct (decide (k = request_key t)) as [->|Hne].
    - exists emptied. rewrite He in He'. injection He' as <-. split; [apply lookup_insert_eq|done].
    - exists e'. split; [|done]. unfold g1. cbn [entries with_entries]. by rewrite lookup_insert_ne. }
  split; [done|]. intros Hun t e' Ht Hset He' Hr. destruct (decide (k = request_key t)) as [->|Hne].
  - exfalso. rewrite He in He'. injection He' as <-. unfold has_unsettled_frames in Hun.
    pose proof (strong_count_held g1 frames (request_key t) emptied t ltac:(apply lookup_insert_eq) Ht ltac:(done)) as Hc.
    rewrite (proj2 (Nat.ltb_lt _ _) Hc), andb_true_r in Hun. apply negb_false_iff in Hun.
    assert (state_settled g1 (request emptied) = token_settled g t) as Heq; [|congruence].
    unfold token_settled, state_settled. rewrite <-Hr. unfold g1. cbn [request_states with_entries].
    unfold count_entry_out. by destruct (is_live e0).
  - cbn [entries with_entries]. rewrite lookup_delete_ne by done. by eapply Hk1.
Qed.

Lemma expire_entry_effects frames g stats k g' stats' removed :
  expire_entry frames g stats k = (g', stats', removed) →
  trims g g' ∧ keeps_claims frames g g' ∧ (∀ j, j ≠ k → entries g' !! j = entries g !! j)
  ∧ (∀ e, entries g' !! k = Some e → inner e = None).
Proof.
  unfold expire_entry. destruct (entries g !! k) as [e|] eqn:He; intros [= <- <- <-].
  2:{ split_and!; [apply trims_refl|apply keeps_claims_refl|done|by rewrite He]. }
  set (g1 := with_entries _ _). pose proof (trims_empty g k e e He) as Ht. fold g1 in Ht.
  destruct (emptied_claims frames g k e e He) as [Hk1 Hk2]. fold g1 in Hk1, Hk2.
  assert (entries g1 = <[k := empty_entry e (last_activity e)]> (entries g)) as Hg1 by done.
  destruct (has_unsettled_frames g1 frames _); split_and!; try done.
  - intros j Hj. rewrite Hg1. by apply lookup_insert_ne.
  - rewrite Hg1, lookup_insert_eq. by intros ? [= <-].
  - eapply trims_trans; [exact Ht|apply trims_delete].
  - by apply Hk2.
  - intros j Hj. cbn [entries with_entries]. rewrite lookup_delete_ne by done. by apply lookup_insert_ne.
  - cbn [entries with_entries]. by rewrite lookup_delete_eq.
Qed.

Lemma expire_all_effects frames g stats keys g' stats' removed :
  expire_all frames g stats keys = (g', stats', removed) →
  trims g g' ∧ keeps_claims frames g g' ∧ (∀ j, j ∉ keys → entries g' !! j = entries g !! j)
  ∧ (∀ j e, j ∈ keys → entries g' !! j = Some e → inner e = None).
Proof.
  revert g stats removed. induction keys as [|k keys IH]; intros g stats removed; cbn [expire_all].
  { intros [= <- <- <-]. split_and!; [apply trims_refl|apply keeps_claims_refl|done|by intros ? ? ?%elem_of_nil]. }
  destruct (expire_entry frames g stats k) as [[g1 st1] r1] eqn:Hr1.
  destruct (expire_all frames g1 st1 keys) as [[g2 st2] r2] eqn:Hr2. intros [= <- <- <-].
  apply expire_entry_effects in Hr1 as (Ht1 & Hk1 & Hf1 & He1). apply IH in Hr2 as (Ht2 & Hk2 & Hf2 & He2). split_and!.
  - by eapply trims_trans.
  - eapply keeps_claims_trans; [apply Ht1|done|done].
  - intros j Hj. rewrite Hf2, Hf1; [done|intros ->; apply Hj; left|intros ?; apply Hj; by right].
  - intros j e Hj He. destruct (decide (j ∈ keys)); [by eapply He2|].
    apply elem_of_cons in Hj as [->|?]; [|done]. rewrite Hf2 in He by done. by apply He1.
Qed.

(** *** Nonblocking cleanup *)

Lemma try_release_same (env : E) busy (p : P) e p' e' :
  try_release_entry env busy p e = Ok (Some (p', e')) →
  is_live e' = is_live e ∧ request e' = request e ∧ last_activity e' = last_activity e ∧ entry_bytes e' = entry_bytes e.
Proof.
  unfold try_release_entry, is_live. destruct (inner e) as [a|] eqn:Ha; [|intros [= <- <-]; by rewrite Ha].
  destruct (backing a); [|intros [= <- <-]; by rewrite Ha]. destruct busy; [done|].
  destruct (release_storage _ _ _); [|done|done]. by intros [= <- <-].
Qed.

Lemma drain_entry_effects matches keep frames d g (p : P) complete stats k g' p' complete' stats' removed :
  drain_entry matches keep frames d g p complete stats k = Ok (g', p', complete', stats', removed) →
  trims g g' ∧ (keep = true → keeps_claims frames g g').
Proof.
  assert (trims g g ∧ (keep = true → keeps_claims frames g g)) as Hsame by (split; [apply trims_refl|intros _; apply keeps_claims_refl]).
  unfold drain_entry. destruct (entries g !! k) as [e|] eqn:He; [|by intros [= <- <- <- <- <-]].
  destruct (matches k e); cbn [negb]; [|by intros [= <- <- <- <- <-]].
  destruct (past_deadline d); [by intros [= <- <- <- <- <-]|].
  destruct (try_release_entry _ _ p e) as [[[p1 e1]|]| |] eqn:Hr; cbn [res_bind]; [|by intros [= <- <- <- <- <-]|done|done].
  apply try_release_same in Hr as (Hl & Hrq & Hla & Hb). intros [= <- <- <- <- <-].
  assert (empty_entry e1 (last_activity e1) = empty_entry e (last_activity e)) as -> by (unfold empty_entry; by rewrite Hl, Hrq, Hla, Hb).
  set (g1 := with_entries _ _). pose proof (trims_empty g k e e1 He) as Ht. fold g1 in Ht.
  destruct (emptied_claims frames g k e e1 He) as [Hk1 Hk2]. fold g1 in Hk1, Hk2.
  destruct keep; cbn [negb orb].
  - destruct (has_unsettled_frames g1 frames _); cbn [negb]; split; try done; [|intros _; by apply Hk2].
    eapply trims_trans; [exact Ht|apply trims_delete].
  - split; [|done]. eapply trims_trans; [exact Ht|apply trims_delete].
Qed.

Lemma drain_all_effects matches keep frames d g (p : P) complete stats keys g' p' complete' stats' removed :
  drain_all matches keep frames d g p complete stats keys = Ok (g', p', complete', stats', removed) →
  trims g g' ∧ (keep = true → keeps_claims frames g g').
Proof.
  revert g p complete stats removed. induction keys as [|k keys IH]; intros g p complete stats removed; cbn [drain_all].
  { intros [= <- <- <- <- <-]. split; [apply trims_refl|intros _; apply keeps_claims_refl]. }
  destruct (drain_entry _ _ _ _ _ _ _ _ _) as [[[[[g1 p1] c1] st1] r1]| |] eqn:Hr1; cbn [res_bind]; [|done|done].
  destruct (drain_all _ _ _ _ g1 _ _ _ _) as [[[[[g2 p2] c2] st2] r2]| |] eqn:Hr2; cbn [res_bind]; [|done|done].
  intros [= <- <- <- <- <-]. apply drain_entry_effects in Hr1 as [Ht1 Hk1]. apply IH in Hr2 as [Ht2 Hk2].
  split; [by eapply trims_trans|]. intros Hk. eapply keeps_claims_trans; [apply Ht1|by apply Hk1|by apply Hk2].
Qed.

(** ** Reply claims *)

(** A request state belongs to one key; a settled one has no assembly; [replies] lists
    the requests whose error reply was claimed. *)
Record claims_inv g frames (replies : list nat) : Prop := {
  ci_owner : ∃ owner : list (Z * Z), length owner = length (request_states g)
    ∧ (∀ k e, entries g !! k = Some e → owner !! request e = Some k)
    ∧ (∀ t, t ∈ frames → owner !! state t = Some (request_key t));
  ci_settled k e : entries g !! k = Some e → state_settled g (request e) = true → inner e = None;
  ci_replies : NoDup replies ∧ ∀ id, id ∈ replies ↔ state_settled g id = true }.

Lemma claims_trims g g' frames replies : trims g g' → claims_inv g frames replies → claims_inv g' frames replies.
Proof.
  intros (Hs & _ & Ht) [(owner & Hl & Ho & Hf) Hset [Hnd Hrep]]. unfold state_settled in *. split.
  - exists owner. rewrite Hs. split; [done|]. split; [|done]. intros k e' (e & He & -> & _)%Ht. by apply Ho.
  - intros k e' (e & He & Hr & _ & [Hi|Hi])%Ht; [|done]. unfold state_settled. rewrite Hs, Hr, Hi. by apply Hset with k.
  - split; [done|]. intros id. unfold state_settled. rewrite Hs. apply Hrep.
Qed.

Lemma claims_frames g frames frames' replies :
  (∀ t, t ∈ frames' → t ∈ frames) → claims_inv g frames replies → claims_inv g frames' replies.
Proof. intros Hsub [(owner & Hl & Ho & Hf) Hset Hrep]. split; try done. exists owner. eauto. Qed.

(** Fresh states are not settled. *)
Lemma settled_in_range g id : state_settled g id = true → (id < length (request_states g))%nat.
Proof. unfold state_settled. destruct (request_states g !! id) eqn:Hl; [|done]. intros _. by eapply lookup_lt_Some. Qed.

Lemma claims_entry_or_pending g frames replies k now g' e :
  claims_inv g frames replies → entry_or_pending g k now = (g', e) →
  claims_inv g' frames replies ∧ entries g' !! k = Some e ∧ (∀ id, state_settled g' id = state_settled g id)
  ∧ (∀ j, j ≠ k → entries g' !! j = entries g !! j) ∧ (∀ e0, entries g !! k = Some e0 → g' = g ∧ e = e0)
  ∧ (entries g !! k = None → e = pending (length (request_states g)) now).
Proof.
  intros HI. unfold entry_or_pending. destruct (entries g !! k) as [e0|] eqn:He; intros [= <- <-].
  { split_and!; try done. by intros ? [= <-]. }
  destruct HI as [(owner & Hl & Ho & Hf) Hset [Hnd Hrep]].
  assert (∀ id, from_option settled false ((request_states g ++ [{| settled := false; last_received := false |}]) !! id)
                = state_settled g id) as Hsame.
  { intros id. unfold state_settled. destruct (decide (id < length (request_states g))%nat); [by rewrite lookup_app_l|].
    rewrite lookup_app_r, (lookup_ge_None_2 (request_states g)) by lia. destruct (id - length (request_states g))%nat as [|[|]]; done. }
  split; [split|].
  - exists (owner ++ [k]). cbn [request_states with_entries with_states entries]. rewrite !length_app, Hl. split; [done|]. split.
    + intros j e1 [[<- <-]|[_ Hj]]%lookup_insert_Some.
      * cbn [request pending]. rewrite <-Hl, lookup_app_r, Nat.sub_diag by lia. done.
      * apply lookup_app_l_Some. by apply Ho.
    + intros t Ht. apply lookup_app_l_Some. by apply Hf.
  - intros j e1. unfold state_settled. cbn [request_states with_entries with_states entries]. rewrite Hsame.
    intros [[<- <-]|[_ Hj]]%lookup_insert_Some; [done|]. by apply Hset with j.
  - split; [done|]. intros id. unfold state_settled. cbn [request_states with_entries with_states]. rewrite Hsame. apply Hrep.
  - cbn [entries with_entries]. split; [apply lookup_insert_eq|]. split; [|split; [|done]].
    + intros id. apply Hsame.
    + intros j Hj. by apply lookup_insert_ne.
Qed.

Lemma claims_states g g' frames replies :
  entries g' = entries g → length (request_states g') = length (request_states g) →
  (∀ id, state_settled g' id = state_settled g id) → claims_inv g frames replies → claims_inv g' frames replies.
Proof.
  intros He Hl Hs [(owner & Hlo & Ho & Hf) Hset [Hnd Hrep]]. split.
  - exists owner. rewrite He, Hl. done.
  - intros k e. rewrite He, Hs. apply Hset.
  - split; [done|]. intros id. by rewrite Hs.
Qed.

Lemma settled_set_last g id j : state_settled (set_last g id) j = state_settled g j.
Proof.
  unfold state_settled, set_last. cbn [request_states with_states]. destruct (decide (id = j)) as [->|Hne].
  - rewrite list_lookup_alter_eq. by destruct (request_states g !! j).
  - by rewrite list_lookup_alter_ne.
Qed.

Lemma settled_set_settled g id j :
  (id < length (request_states g))%nat →
  state_settled (set_settled g id) j = if decide (j = id) then true else state_settled g j.
Proof.
  intros Hid. unfold state_settled, set_settled. cbn [request_states with_states]. case_decide as Hd.
  - subst. rewrite list_lookup_alter_eq. destruct (lookup_lt_is_Some_2 (request_states g) id Hid) as [s ->]. done.
  - by rewrite list_lookup_alter_ne by done.
Qed.

Lemma claims_begin_frame g frames replies conn req last now g' t :
  claims_inv g frames replies → begin_frame g conn req last now = (g', t) →
  claims_inv g' (t :: frames) replies ∧ request_key t = (conn, req).
Proof.
  intros HI. unfold begin_frame. destruct (entry_or_pending g (conn, req) now) as [g1 e] eqn:Hep.
  destruct (claims_entry_or_pending _ _ _ _ _ _ _ HI Hep) as (HI1 & He & _).
  set (g2 := if last then set_last g1 (request e) else g1). set (t0 := Build_ChunkRequest conn req (request e)).
  assert (claims_inv g2 (t0 :: frames) replies) as HI2.
  { assert (claims_inv g2 frames replies) as [(owner & Hl & Ho & Hf) Hset Hrep].
    { subst g2. destruct last; [|done]. eapply claims_states; [| | |exact HI1]; try done.
      - cbn [set_last request_states with_states]. apply length_alter.
      - intros id. apply settled_set_last. }
    split; try done. exists owner. split; [done|]. split; [done|]. intros x [->|Hx]%elem_of_cons; [|by apply Hf].
    apply (Ho (conn, req) e). subst g2. by destruct last. }
  intros [= <- <-]. split; [|done]. case_match; [|done]. eapply claims_trims; [apply trims_delete|done].
Qed.

Lemma claims_settle g frames replies t now g' b removed :
  claims_inv g frames replies → t ∈ frames → settle g t now = (g', b, removed) →
  b = negb (token_settled g t) ∧ claims_inv g' frames (if b then state t :: replies else replies).
Proof.
  intros HI Ht. unfold settle. destruct (token_settled g t) eqn:Hts; [by intros [= <- <- <-]|].
  destruct HI as [(owner & Hl & Ho & Hf) Hset [Hnd Hrep]]. pose proof (Hf t Ht) as Hown.
  assert (state t < length (request_states g))%nat as Hlt by (rewrite <-Hl; by eapply lookup_lt_Some).
  pose proof (settled_set_settled g (state t)) as Hss. set (g1 := set_settled g (state t)) in *.
  set (gm := match entries g1 !! request_key t with Some e => _ | None => _ end).
  assert (claims_inv gm.1 frames (state t :: replies)) as HI1.
  { assert (entries gm.1 = match entries g !! request_key t with
             | Some e => <[request_key t := empty_entry e now]> (entries g) | None => entries g end) as He.
    { subst gm. change (entries g1) with (entries g). destruct (entries g !! request_key t); done. }
    assert (request_states gm.1 = request_states g1) as Hst.
    { subst gm. destruct (entries g1 !! request_key t); [|done]. simpl. unfold count_entry_out. by destruct (is_live _). }
    assert (∀ k e, entries gm.1 !! k = Some e → owner !! request e = Some k ∧ (k = request_key t → inner e = None)
                   ∧ (k ≠ request_key t → entries g !! k = Some e)) as Hent.
    { intros k e. rewrite He. destruct (entries g !! request_key t) as [e0|] eqn:He0.
      - intros [[<- <-]|[Hne Hk]]%lookup_insert_Some; [|by split; [apply Ho|]]. split; [by apply (Ho (request_key t) e0)|done].
      - intros Hk. split; [by apply Ho|]. split; [intros ->; congruence|done]. }
    assert (∀ id, state_settled gm.1 id = if decide (id = state t) then true else state_settled g id) as Hgs.
    { intros id. unfold state_settled. rewrite Hst. by apply Hss. }
    split.
    - exists owner. rewrite Hst. cbn [g1 set_settled request_states with_states]. rewrite length_alter. split; [done|].
      split; [intros k e Hk; by apply Hent|done].
    - intros k e Hk. rewrite Hgs. destruct (Hent k e Hk) as (Hok & Hin & Hout). case_decide as Hd.
      + intros _. apply Hin. rewrite Hd, Hown in Hok. by injection Hok.
      + destruct (decide (k = request_key t)) as [->|Hne]; [by intros _; apply Hin|]. apply Hset with k. by apply Hout.
    - split.
      + constructor; [|done]. rewrite Hrep. unfold token_settled in Hts. by rewrite Hts.
      + intros id. rewrite elem_of_cons, Hgs, Hrep. case_decide; naive_solver. }
  destruct gm as [g2 r2]. intros [= <- <- <-]. split; [done|]. simpl in HI1.
  case_match; [|done]. eapply claims_trims; [apply trims_delete|done].
Qed.

(** An entry gets or changes its assembly under an unsettled state. *)
Lemma claims_upsert g g' frames replies k e0 e :
  claims_inv g frames replies → entries g !! k = Some e0 → request e = request e0 →
  state_settled g (request e0) = false →
  entries g' = <[k := e]> (entries g) → request_states g' = request_states g → claims_inv g' frames replies.
Proof.
  intros [(owner & Hl & Ho & Hf) Hset [Hnd Hrep]] He0 Hr Hns He Hs. split.
  - exists owner. rewrite Hs, He. split; [done|]. split; [|done].
    intros j x [[<- <-]|[_ Hj]]%lookup_insert_Some; [rewrite Hr|]; by apply Ho.
  - intros j x. unfold state_settled in *. rewrite Hs, He. intros [[<- <-]|[_ Hj]]%lookup_insert_Some; [|by apply Hset with j].
    rewrite Hr. by rewrite Hns.
  - split; [done|]. intros id. unfold state_settled. by rewrite Hs.
Qed.

Lemma claims_insert cfg env busy room g (p : P) frames replies conn req tok total size ctx now g' p' r :
  claims_inv g frames replies →
  insert_attempt cfg env busy room g p conn req tok total size ctx now = (g', p', r) →
  claims_inv g' frames replies
  ∧ (from_option (token_settled g) false tok = true → r = Some (Err (Duplicate conn req, ctx))).
Proof.
  intros HI. unfold insert_attempt. destruct (from_option (token_settled g) false tok) eqn:Htok; cbn [orb]; [by intros [= <- <- <-]|].
  destruct (from_option (blocked g) false _) eqn:Hb; [by intros [= <- <- <-]|].
  destruct (check_geometry _ _ _); [|by intros [= <- <- <-]..]. destruct busy; [by intros [= <- <- <-]|].
  destruct (new_with_guard _ _ _ _ _) as [p1 [a1|err|]]; [|by intros [= <- <- <-]..].
  destruct (entry_or_pending g (conn, req) now) as [g1 e0] eqn:Hep. intros [= <- <- <-]. split; [|done].
  destruct (claims_entry_or_pending _ _ _ _ _ _ _ HI Hep) as (HI1 & He & Hs & _ & Hold & Hnew).
  eapply (claims_upsert g1); [done|exact He| | |reflexivity|reflexivity]; [done|]. rewrite Hs.
  destruct (entries g !! (conn, req)) as [e1|] eqn:He1.
  - destruct (Hold e1 eq_refl) as [_ ->]. simpl in Hb. by apply orb_false_iff in Hb as [_ Hb].
  - rewrite (Hnew eq_refl). cbn [request pending]. unfold state_settled. by rewrite lookup_ge_None_2.
Qed.

Lemma claims_feed g (p : P) frames replies conn req idx data now g' p' r :
  claims_inv g frames replies → feed g p conn req idx data now = (g', p', r) → claims_inv g' frames replies.
Proof.
  intros HI. unfold feed. destruct (entries g !! (conn, req)) as [e|] eqn:He; [|by intros [= <- <- <-]].
  destruct (inner e) as [a|] eqn:Ha; [|by intros [= <- <- <-]].
  destruct (feed_chunk p a idx data) as [[[p1 a1] b]|err|]; intros [= <- <- <-]; try done.
  eapply (claims_upsert g); [done|exact He| | |reflexivity|reflexivity]; [done|].
  destruct (state_settled g (request e)) eqn:Hs; [|done]. pose proof (ci_settled _ _ _ HI _ _ He Hs). congruence.
Qed.

(** ** Times *)

(** Every live assembly in the shards a sweep has passed was active since [sweep_oldest]. *)
Definition sweep_ok g (now : Z) (s : Sweep) : Prop :=
  sweep_oldest s <= sweep_now s <= now ∧ 0 <= sweep_next s <= SHARD_COUNT
  ∧ ∀ k e, entries g !! k = Some e → is_live e = true → shard k.1 < sweep_next s → sweep_oldest s <= last_activity e.

Record time_inv (cfg : ChunkConfig) g (now : Z) (sweeps : list Sweep) : Prop := {
  ti_past k e : entries g !! k = Some e → last_activity e <= now;
  ti_bound b : gc_not_before g = Some b → b <= now + assembler_timeout cfg
    ∧ ∀ k e, entries g !! k = Some e → is_live e = true → b <= last_activity e + assembler_timeout cfg;
  ti_sweeps : Forall (sweep_ok g now) sweeps }.

Lemma live_inner e : is_live e = true ↔ is_Some (inner e).
Proof. unfold is_live. by destruct (inner e). Qed.

(** Entries that are old ones, or not live, or were active just now. *)
Lemma time_evolves cfg g g' now now' sweeps :
  now <= now' → gc_not_before g' = gc_not_before g →
  (∀ k e', entries g' !! k = Some e' → last_activity e' = now'
     ∨ ∃ e, entries g !! k = Some e ∧ last_activity e' = last_activity e ∧ (is_live e' = true → is_live e = true)) →
  time_inv cfg g now sweeps → time_inv cfg g' now' sweeps.
Proof.
  intros Hnow Hb Hent [Hpast Hbound Hsw]. split.
  - intros k e' [->|(e & He & -> & _)]%Hent; [done|]. specialize (Hpast k e He). lia.
  - intros b. rewrite Hb. intros Hsome. destruct (Hbound b Hsome) as [Hle Hall]. split; [lia|].
    intros k e' [->|(e & He & -> & Hl)]%Hent Hlive; [lia|]. apply (Hall k e He). by apply Hl.
  - eapply Forall_impl; [exact Hsw|]. intros s (Ho & Hn & Hall). split; [lia|]. split; [done|].
    intros k e' [->|(e & He & -> & Hl)]%Hent Hlive Hsh; [lia|]. by apply (Hall k e He); [apply Hl|].
Qed.

Lemma time_trims cfg g g' now sweeps : trims g g' → time_inv cfg g now sweeps → time_inv cfg g' now sweeps.
Proof.
  intros (_ & Hb & Ht). apply time_evolves; [done|done|]. intros k e' (e & He & _ & Hla & Hi)%Ht. right. exists e.
  split; [done|]. split; [done|]. rewrite !live_inner. destruct Hi as [->| ->]; [done|by intros [? ?]].
Qed.

(** The table got an entry active just now. *)
Lemma time_upsert cfg g g' now sweeps k e :
  entries g' = <[k := e]> (entries g) → gc_not_before g' = gc_not_before g → last_activity e = now →
  time_inv cfg g now sweeps → time_inv cfg g' now sweeps.
Proof.
  intros He Hb Hla. apply time_evolves; [done|done|]. intros j x. rewrite He. intros [[<- <-]|[_ Hj]]%lookup_insert_Some; [by left|].
  right. exists x. eauto.
Qed.

Lemma time_same cfg g g' now sweeps :
  entries g' = entries g → gc_not_before g' = gc_not_before g → time_inv cfg g now sweeps → time_inv cfg g' now sweeps.
Proof. intros He Hb. apply time_evolves; [done|done|]. intros k e. rewrite He. intros Hk. right. exists e. eauto. Qed.

Lemma time_entry_or_pending cfg g now sweeps k g' e :
  time_inv cfg g now sweeps → entry_or_pending g k now = (g', e) → time_inv cfg g' now sweeps.
Proof.
  intros HT. unfold entry_or_pending. destruct (entries g !! k); intros [= <- <-]; [done|].
  eapply (time_upsert cfg g); [| | |exact HT]; [reflexivity|done|done].
Qed.

Lemma time_begin_frame cfg g now sweeps conn req last g' t :
  time_inv cfg g now sweeps → begin_frame g conn req last now = (g', t) → time_inv cfg g' now sweeps.
Proof.
  intros HT. unfold begin_frame. destruct (entry_or_pending g (conn, req) now) as [g1 e] eqn:Hep.
  pose proof (time_entry_or_pending _ _ _ _ _ _ _ HT Hep) as HT1. set (g2 := if last then set_last g1 (request e) else g1).
  assert (time_inv cfg g2 now sweeps) as HT2 by (subst g2; destruct last; [by eapply time_same; [| |exact HT1]|done]).
  intros [= <- <-]. case_match; [|done]. eapply time_trims; [apply trims_delete|done].
Qed.

Lemma time_settle cfg g now sweeps t g' b removed :
  time_inv cfg g now sweeps → settle g t now = (g', b, removed) → time_inv cfg g' now sweeps.
Proof.
  intros HT. unfold settle. destruct (token_settled g t); [by intros [= <- <- <-]|].
  set (gm := match entries (set_settled g (state t)) !! request_key t with Some e => _ | None => _ end).
  assert (time_inv cfg gm.1 now sweeps) as HT1.
  { subst gm. change (entries (set_settled g (state t))) with (entries g). destruct (entries g !! request_key t) as [e|].
    - eapply (time_upsert cfg g); [| | |exact HT]; [reflexivity| |done]. simpl. unfold count_entry_out. by destruct (is_live e).
    - by eapply time_same; [| |exact HT]. }
  destruct gm as [g2 r2]. simpl in HT1. intros [= <- <- <-]. case_match; [|done]. eapply time_trims; [apply trims_delete|done].
Qed.

Lemma time_insert cfg env busy room g (p : P) now sweeps conn req tok total size ctx g' p' r :
  time_inv cfg g now sweeps → insert_attempt cfg env busy room g p conn req tok total size ctx now = (g', p', r) →
  time_inv cfg g' now sweeps.
Proof.
  intros HT. unfold insert_attempt. destruct (_ || _); [by intros [= <- <- <-]|].
  destruct (check_geometry _ _ _); [|by intros [= <- <- <-]..]. destruct busy; [by intros [= <- <- <-]|].
  destruct (new_with_guard _ _ _ _ _) as [p1 [a1|err|]]; [|by intros [= <- <- <-]..].
  destruct (entry_or_pending g (conn, req) now) as [g1 e0] eqn:Hep. intros [= <- <- <-].
  pose proof (time_entry_or_pending _ _ _ _ _ _ _ HT Hep) as HT1.
  eapply (time_upsert cfg g1); [| | |exact HT1]; [reflexivity|done|done].
Qed.

Lemma time_feed cfg g (p : P) now sweeps conn req idx data g' p' r :
  time_inv cfg g now sweeps → feed g p conn req idx data now = (g', p', r) → time_inv cfg g' now sweeps.
Proof.
  intros HT. unfold feed. destruct (entries g !! (conn, req)) as [e|]; [|by intros [= <- <- <-]].
  destruct (inner e) as [a|]; [|by intros [= <- <- <-]].
  destruct (feed_chunk p a idx data) as [[[p1 a1] b]|err|]; intros [= <- <- <-]; try done.
  eapply (time_upsert cfg g); [| | |exact HT]; [reflexivity|done|done].
Qed.

(** *** A sweep passes one shard *)

Lemma oldest_kept_spec timeout now g oldest keys :
  oldest_kept timeout now g oldest keys <= oldest
  ∧ ∀ k e, k ∈ keys → entries g !! k = Some e → is_expired timeout now e = false →
      oldest_kept timeout now g oldest keys <= last_activity e.
Proof.
  unfold oldest_kept. revert oldest. induction keys as [|k keys IH]; intros oldest; [split; [done|by intros ? ? ?%elem_of_nil]|].
  cbn [foldl]. destruct (IH (older_kept timeout now g oldest k)) as [Hle Hall].
  assert (older_kept timeout now g oldest k <= oldest) as Hf
    by (unfold older_kept; destruct (entries g !! k) as [e|]; [destruct (is_expired _ _ e)|]; lia).
  split; [lia|]. intros j e [->|Hj]%elem_of_cons He Hx; [|by eapply Hall].
  assert (older_kept timeout now g oldest k <= last_activity e) by (unfold older_kept; rewrite He, Hx; lia). lia.
Qed.

Lemma shard_keys_elem order g i k :
  (∀ l, order l ≡ₚ l) → k ∈ shard_keys order g i ↔ is_Some (entries g !! k) ∧ shard k.1 = i.
Proof.
  intros Ho. unfold shard_keys. rewrite Ho, list_elem_of_filter, list_elem_of_fmap. split.
  - intros (Hs & [j e] & -> & Hj%elem_of_map_to_list). split; [by exists e|done].
  - intros ([e He] & Hs). split; [done|]. exists (k, e). by rewrite elem_of_map_to_list.
Qed.

Lemma shard_keys_nodup order g i : (∀ l, order l ≡ₚ l) → NoDup (shard_keys order g i).
Proof. intros Ho. unfold shard_keys. rewrite Ho. apply NoDup_filter, NoDup_fst_map_to_list. Qed.

Lemma gc_shard_effects cfg order frames g now oldest stats i g' oldest' stats' removed :
  (∀ l, order l ≡ₚ l) → gc_shard cfg order frames g now oldest stats i = (g', oldest', stats', removed) →
  trims g g' ∧ keeps_claims frames g g' ∧ oldest' <= oldest
  ∧ (∀ k e, entries g' !! k = Some e → is_live e = true → shard k.1 = i → oldest' <= last_activity e)
  ∧ (∀ k, shard k.1 ≠ i → entries g' !! k = entries g !! k).
Proof.
  intros Ho. unfold gc_shard. set (keys := shard_keys order g i). set (ex := filter _ keys).
  destruct (expire_all frames g stats ex) as [[g1 st1] r1] eqn:Hr. intros [= <- <- <- <-].
  apply expire_all_effects in Hr as (Ht & Hk & Hf & He). destruct (oldest_kept_spec (assembler_timeout cfg) now g oldest keys) as [Hle Hall].
  split_and!; try done.
  - intros k e Hke Hl Hs. assert (k ∉ ex) as Hnot.
    { intros Hin. pose proof (He k e Hin Hke) as Hn. rewrite live_inner, Hn in Hl. by destruct Hl. }
    rewrite (Hf k Hnot) in Hke. assert (k ∈ keys) as Hin by (apply shard_keys_elem; [done|]; split; [by exists e|done]).
    apply (Hall k e Hin Hke). destruct (is_expired _ now e) eqn:Hx; [|done]. exfalso. apply Hnot. unfold ex.
    rewrite list_elem_of_filter. split; [|done]. unfold key_expired. by rewrite Hke.
  - intros k Hs. apply Hf. unfold ex. rewrite list_elem_of_filter. intros [_ Hin].
    by apply shard_keys_elem in Hin as [_ Hin]; [|done].
Qed.
End inv.
