(* ===== verification/RegistrySpec.v ===== *)
(** What the chunk registry promises: it is a table from request to received chunks, in
    which requests are settled at most once and whose assemblies leave intact. *)

From S2P Require Import Prelude.
From S2P Require Import Bytes.
From S2P Require Import Budget.
From S2P Require Import Assembler.
From S2P Require Import AssemblerSpec.
From S2P Require Import Registry.
From S2P Require Import RegistryStore.
From S2P Require Import RegistryOps.
From S2P Require Import RegistryRun.
From S2P Require Import RegistryInv.

(** ** The abstract registry *)

(** The assemblies in flight; what is known of the backings outside; the dispatched
    frames; the requests whose error reply was claimed. *)
Record Abs := {
  ab_table : gmap (Z * Z) Assembly;
  ab_out : list (option (Assembly + bytes));
  ab_frames : list ChunkRequest;
  ab_settled : list nat }.

Definition ab_start : Abs := {| ab_table := ∅; ab_out := []; ab_frames := []; ab_settled := [] |}.
Definition set_table (x : Abs) (m : gmap (Z * Z) Assembly) : Abs :=
  {| ab_table := m; ab_out := ab_out x; ab_frames := ab_frames x; ab_settled := ab_settled x |}.
Definition set_out (x : Abs) (l : list (option (Assembly + bytes))) : Abs :=
  {| ab_table := ab_table x; ab_out := l; ab_frames := ab_frames x; ab_settled := ab_settled x |}.
Definition set_frames (x : Abs) (l : list ChunkRequest) : Abs :=
  {| ab_table := ab_table x; ab_out := ab_out x; ab_frames := l; ab_settled := ab_settled x |}.
Definition add_settled (x : Abs) (id : nat) : Abs :=
  {| ab_table := ab_table x; ab_out := ab_out x; ab_frames := ab_frames x; ab_settled := id :: ab_settled x |}.

(** Some requests leave the table for [m]; what they held waits to be dropped. *)
Definition leaves (x : Abs) (m : gmap (Z * Z) Assembly) (x' : Abs) : Prop :=
  ∃ n, x' = set_out (set_table x m) (replicate n None ++ ab_out x).

Definition fed_with (y : Assembly) (idx : Z) (data : bytes) : Assembly :=
  {| as_total := as_total y; as_size := as_size y; as_fed := <[idx := data]> (as_fed y) |}.

(** The chunks received are the ones of the message [chunks]. *)
Definition complete_with (y : Assembly) (chunks : list bytes) : Prop :=
  as_total y = blen chunks ∧ well_cut (as_size y) chunks
  ∧ ∀ i, as_fed y !! i = if decide (0 <= i < blen chunks) then chunks !! Z.to_nat i else None.

Section spec.
Context {P H E C : Type} `{ReassemblyPoolLaws P H E}.
Context (cfg : ChunkConfig) (instant_max : Z).
Notation World := (World P H C).
Notation Call := (Call P H E C).
Notation Answer := (Answer C).
Implicit Types (w : World) (c : Call) (a : Answer) (x : Abs).

Definition spec_feed x (conn req idx : Z) (data : bytes) a (x' : Abs) : Prop :=
  match ab_table x !! (conn, req) with
  | None => a = Fed (Err (NoAssembly conn req)) ∧ x' = x
  | Some y =>
      if as_total y <=? idx then a = Fed (Err (FeedError (IndexOutOfRange idx (as_total y)))) ∧ x' = x
      else if bool_decide (is_Some (as_fed y !! idx)) then a = Fed (Err (FeedError (DuplicateChunk idx))) ∧ x' = x
      else if as_size y <? blen data
           then a = Fed (Err (FeedError (OversizedChunk (blen data) (as_size y)))) ∧ x' = x
      else a = Fed (Ok (Z.of_nat (size (as_fed y)) + 1 =? as_total y))
           ∧ x' = set_table x (<[(conn, req) := fed_with y idx data]> (ab_table x))
  end.

Definition spec_finish x (i : nat) a (x' : Abs) : Prop :=
  match ab_out x !! i with
  | Some (Some (inl y)) =>
      if Z.of_nat (size (as_fed y)) =? as_total y then
        a = Finished (Ok tt)
        ∧ ∃ d, x' = set_out x (Some (inr d) :: delete i (ab_out x)) ∧ ∀ chunks, complete_with y chunks → d = concat chunks
      else a = Finished (Err (Incomplete (Z.of_nat (size (as_fed y))) (as_total y)))
           ∧ x' = set_out x (None :: delete i (ab_out x))
  | _ => a = Nothing ∧ x' = x
  end.

Definition spec_settle x (i : nat) a (x' : Abs) : Prop :=
  match ab_frames x !! i with
  | None => a = Nothing ∧ x' = x
  | Some t =>
      if decide (state t ∈ ab_settled x) then a = Claimed false ∧ x' = x
      else a = Claimed true ∧ leaves (add_settled x (state t)) (delete (request_key t) (ab_table x)) x'
  end.

(** The frame that asks for an admission, and the key it asks for. *)
Definition asking x (frame : option nat) : option ChunkRequest :=
  match frame with Some i => ab_frames x !! i | None => None end.

Definition spec_insert x (frame : option nat) (conn req total size : Z) (ctx : C) a (x' : Abs) : Prop :=
  let token := asking x frame in
  let key := from_option request_key (conn, req) token in
  let refused := is_Some (ab_table x !! key) ∨ from_option (fun t => state t ∈ ab_settled x) False token in
  (refused → a = Admission (Some (Err (Duplicate key.1 key.2, ctx))))
  ∧ match a with
    | Admission (Some (Ok _)) =>
        x' = set_table x (<[key := {| as_total := total; as_size := size; as_fed := ∅ |}]> (ab_table x))
    | Admission (Some (Err (_, back))) => back = ctx ∧ x' = x
    | Admission None => x' = x
    | _ => False
    end.

Definition spec_drain x (what : Target) a (x' : Abs) : Prop :=
  ∃ complete stats m, a = Drained complete stats ∧ leaves x m x' ∧ m ⊆ ab_table x
    ∧ (∀ k, shard k.1 ≠ target_shard what → m !! k = ab_table x !! k)
    ∧ (complete = true →
       match what with
       | ForConnection conn => ∀ k, k.1 = conn → m !! k = None
       | ForRequest conn req => m !! (conn, req) = None
       | ForExpired _ _ => True
       end).

(** What a call may answer and do. *)
Definition spec x c a (x' : Abs) : Prop :=
  match c with
  | CTick _ | CSweepBegin | COthers _ _ _ => a = Nothing ∧ x' = x
  | CSweepEnd _ => x' = x
  | CBeginFrame conn req _ =>
      ∃ t, a = Token t ∧ request_key t = (conn, req) ∧ x' = set_frames x (t :: ab_frames x)
  | CEndFrame i => a = Nothing ∧ x' = set_frames x (delete i (ab_frames x))
  | CSettle i => spec_settle x i a x'
  | CInsert _ _ _ conn req frame total size ctx => spec_insert x frame conn req total size ctx a x'
  | CFeed conn req idx data => spec_feed x conn req idx data a x'
  | CTake conn req =>
      match ab_table x !! (conn, req) with
      | None => a = Taken (Err (NoAssembly conn req)) ∧ x' = x
      | Some y => a = Taken (Ok tt)
          ∧ x' = set_out (set_table x (delete (conn, req) (ab_table x))) (Some (inl y) :: ab_out x)
      end
  | CFinish i => spec_finish x i a x'
  | CRead i =>
      x' = x ∧ match ab_out x !! i with
               | Some (Some (inr d)) => a = Bytes (Ok d)
               | Some None => ∃ r, a = Bytes r
               | _ => a = Nothing
               end
  | CDrop _ i => a = Nothing ∧ x' = set_out x (delete i (ab_out x))
  | CAbort conn req => a = Nothing ∧ leaves x (delete (conn, req) (ab_table x)) x'
  | CCleanup _ conn => a = Nothing ∧ leaves x (filter (fun kv => kv.1.1 ≠ conn) (ab_table x)) x'
  | CSweepShard _ _ => a = Nothing ∧ ∃ m, m ⊆ ab_table x ∧ leaves x m x'
  | CDrain _ _ what _ => spec_drain x what a x'
  end.

Fixpoint spec_run x (l : list Call) (answers : list Answer) (x' : Abs) : Prop :=
  match l, answers with
  | [], [] => x' = x
  | c :: l, a :: answers => ∃ y, spec x c a y ∧ spec_run y l answers x'
  | _, _ => False
  end.

(** What a caller must respect: the ranges of the machine integers, an order of a map's
    keys, and that the pool's other users disturb no backing of ours. *)
Definition legal w c : Prop :=
  match c with
  | CInsert _ _ _ _ _ _ total size _ => 0 <= total ∧ 0 <= size
  | CFeed _ _ idx _ => 0 <= idx
  | CCleanup order _ | CSweepShard order _ | CDrain order _ _ _ => ∀ l, order l ≡ₚ l
  | COthers p others ext =>
      let ours := carriers (w_registry w) (w_out w) in
      pool_ok p ((handle <$> ours) ++ others) ∧ same_reads (handle <$> ours) (w_pool w) p
      ∧ charged_bytes p = ext + sum_over charge ours ∧ 0 <= ext
  | _ => True
  end.

Fixpoint legal_run w (l : list Call) : Prop :=
  match l with
  | [] => True
  | c :: l => legal w c ∧ ∀ w' a, perform cfg instant_max w c = Ok (w', a) → legal_run w' l
  end.

(** ** The invariant of a world *)

Record world_inv w x : Prop := {
  wi_store : store_inv (w_registry w) (w_pool w) (w_out w) (w_others w) (w_ext w) (ab_table x) (ab_out x);
  wi_claims : claims_inv (w_registry w) (w_frames w) (w_replies w);
  wi_time : time_inv cfg (w_registry w) (w_now w) (w_sweeps w);
  wi_frames : ab_frames x = w_frames w;
  wi_settled : ab_settled x = w_replies w }.

Definition simulates w c x : Prop :=
  ∃ w' a x', perform cfg instant_max w c = Ok (w', a) ∧ spec x c a x' ∧ world_inv w' x'.
End spec.
