(* ===== verification/RegistrySafe.v ===== *)
(** The chunk registry keeps its promises in every run. *)

From S2P Require Import Prelude.
From S2P Require Import Bytes.
From S2P Require Import Budget.
From S2P Require Import Pool.
From S2P Require Import Assembler.
From S2P Require Import AssemblerPool.
From S2P Require Import AssemblerSpec.
From S2P Require Import Registry.
From S2P Require Import RegistryStore.
From S2P Require Import RegistryOps.
From S2P Require Import RegistryRun.
From S2P Require Import RegistryInv.
From S2P Require Import RegistrySpec.

Section safe.
Context {P H E C : Type} `{ReassemblyPoolLaws P H E}.
Context (cfg : ChunkConfig) (instant_max : Z).
Notation World := (World P H C).
Notation Call := (Call P H E C).
Implicit Types (w : World) (c : Call) (x : Abs).
Notation world_inv := (world_inv (P:=P) (H:=H) (E:=E) (C:=C) cfg).
Notation simulates := (simulates (P:=P) (H:=H) (E:=E) (C:=C) cfg instant_max).

Lemma unknown_replicate {A} (l : list A) : unknown l = replicate (length l) None.
Proof. unfold unknown. induction l; simpl; by f_equal. Qed.

(** A registry that was only trimmed, with what it let go. *)
Lemma let_go_inv w x g p removed m :
  world_inv w x → trims (w_registry w) g →
  store_inv g p ((removed_holder <$> removed) ++ w_out w) (w_others w) (w_ext w) m (unknown removed ++ ab_out x) →
  ∃ x', leaves x m x' ∧ world_inv (let_go (with_pool (with_registry w g) p) removed) x'.
Proof.
  intros [Hst Hcl Hti Hf Hs] Ht HS. rewrite unknown_replicate in HS.
  exists (set_out (set_table x m) (replicate (length removed) None ++ ab_out x)). split; [by eexists|].
  split; try done; [by eapply claims_trims|by eapply time_trims].
Qed.

Lemma with_pool_same w g : with_pool (with_registry w g) (w_pool w) = with_registry w g.
Proof. done. Qed.

Lemma step_tick w x later : world_inv w x → simulates w (CTick later) x.
Proof.
  intros [Hst Hcl Hti Hf Hs]. eexists _, _, x. split; [done|]. split; [done|]. split; try done.
  eapply time_evolves; [| | |exact Hti]; [simpl; lia|done|]. intros k e He. right. exists e. eauto.
Qed.

Lemma step_begin_frame w x conn req last : world_inv w x → simulates w (CBeginFrame conn req last) x.
Proof.
  intros [Hst Hcl Hti Hf Hs]. unfold simulates, perform. destruct (begin_frame _ conn req last _) as [g t] eqn:Hb.
  destruct (claims_begin_frame _ _ _ _ _ _ _ _ _ Hcl Hb) as [Hcl' Hk].
  eexists _, _, _. split; [done|]. split; [by exists t|]. split; try done; [| |simpl; by rewrite Hf].
  - eapply store_begin_frame; [exact Hst| |exact Hb]. intros e He Hse. by eapply (ci_settled _ _ _ Hcl).
  - by eapply time_begin_frame.
Qed.

Lemma step_end_frame w x i : world_inv w x → simulates w (CEndFrame i) x.
Proof.
  intros [Hst Hcl Hti Hf Hs]. eexists _, _, _. split; [done|]. split; [done|]. split; try done; [|simpl; by rewrite Hf].
  eapply claims_frames; [|exact Hcl]. intros t Ht. rewrite delete_take_drop in Ht.
  apply elem_of_app in Ht as [Ht|Ht]; [by eapply subseteq_take|by eapply subseteq_drop].
Qed.

Lemma step_settle w x i : world_inv w x → simulates w (CSettle i) x.
Proof.
  intros HI. pose proof HI as [Hst Hcl Hti Hf Hs]. unfold simulates, perform, spec, spec_settle. rewrite Hf.
  destruct (w_frames w !! i) as [t|] eqn:Ht; [|by eexists _, _, x].
  destruct (settle (w_registry w) t (w_now w)) as [[g won] removed] eqn:Hse.
  pose proof (list_elem_of_lookup_2 _ _ _ Ht) as Hin.
  destruct (claims_settle _ _ _ _ _ _ _ _ Hcl Hin Hse) as [Hwon Hcl'].
  pose proof (store_settle _ _ _ _ _ _ _ _ _ _ _ _ Hst Hse) as HS. rewrite unknown_replicate in HS.
  pose proof (time_settle _ _ _ _ _ _ _ _ Hti Hse) as HT.
  destruct (ci_replies _ _ _ Hcl) as [_ Hrep]. rewrite Hs. unfold token_settled in Hwon.
  case_decide as Hd; rewrite Hrep in Hd.
  - rewrite Hd in Hwon. simpl in Hwon. subst won. unfold settle, token_settled in Hse. rewrite Hd in Hse. injection Hse as <- <-.
    eexists _, _, x. split; [done|]. split; [done|]. by destruct w.
  - apply not_true_is_false in Hd. rewrite Hd in Hwon. simpl in Hwon. subst won.
    eexists _, _, _. split; [done|]. split; [split; [done|by exists (length removed)]|]. split; try done. simpl. by rewrite Hs.
Qed.

Lemma step_insert w x env busy room conn req frame total size ctx :
  world_inv w x → 0 <= total → 0 <= size → simulates w (CInsert env busy room conn req frame total size ctx) x.
Proof.
  intros [Hst Hcl Hti Hf Hs] Ht Hsz. unfold simulates, perform, spec, spec_insert, asking. rewrite Hf, Hs.
  set (token := match frame with Some i => w_frames w !! i | None => None end).
  set (cn := from_option conn_id conn token). set (rq := from_option request_id req token).
  assert (from_option request_key (conn, req) token = (cn, rq)) as -> by (subst cn rq; by destruct token).
  destruct (insert_attempt _ _ _ _ _ _ _ _ _ _ _ _ _) as [[g p] r] eqn:Hi.
  pose proof (store_insert _ _ _ _ _ _ _ _ _ _ _ _ _ _ _ _ _ _ _ _ _ Hst Ht Hsz Hi) as HS.
  destruct (claims_insert _ _ _ _ _ _ _ _ _ _ _ _ _ _ _ _ _ _ Hcl Hi) as [Hcl' Htok].
  pose proof (time_insert _ _ _ _ _ _ _ _ _ _ _ _ _ _ _ _ _ Hti Hi) as HT.
  assert (is_Some (ab_table x !! (cn, rq)) ∨ from_option (fun t => state t ∈ w_replies w) False token →
          r = Some (Err (Duplicate cn rq, ctx))) as Href.
  { intros [[y Hy]|Hset].
    - unfold insert_attempt in Hi. pose proof (si_entry _ _ _ _ _ _ _ Hst (cn, rq)) as Hk. rewrite Hy in Hk.
      destruct (entries (w_registry w) !! (cn, rq)) as [e|]; [|done]. unfold entry_ok in Hk. simpl in Hi. unfold blocked, is_live in Hi.
      destruct (inner e); [|done]. rewrite orb_true_r in Hi. by injection Hi.
    - apply Htok. destruct token as [t|]; [|done]. simpl in *. by apply (ci_replies _ _ _ Hcl). }
  destruct r as [[u|[err back]|]|]; [| |done|].
  - destruct HS as (Hnone & HS & _). eexists _, _, _. split; [done|]. split.
    + split; [intros Hr; by specialize (Href Hr)|reflexivity].
    + by split.
  - destruct HS as (-> & HS & _). eexists _, _, x. split; [done|]. split; [|by split].
    split; [intros Hr; by rewrite (Href Hr)|]. split; [|done].
    unfold insert_attempt in Hi. repeat (case_match; simplify_eq; try done).
  - destruct HS as (-> & HS & _). eexists _, _, x. split; [done|]. split; [|by split].
    split; [intros Hr; by specialize (Href Hr)|done].
Qed.

Lemma step_feed w x conn req idx data : world_inv w x → 0 <= idx → simulates w (CFeed conn req idx data) x.
Proof.
  intros HI Hi. pose proof HI as [Hst Hcl Hti Hf Hs]. unfold simulates, perform, spec, spec_feed.
  destruct (feed _ _ conn req idx data _) as [[g p] r] eqn:Hfd.
  pose proof (store_feed _ _ _ _ _ _ _ _ _ _ _ _ _ _ _ Hst Hi Hfd) as HS.
  pose proof (claims_feed _ _ _ _ _ _ _ _ _ _ _ _ Hcl Hfd) as Hcl'. pose proof (time_feed _ _ _ _ _ _ _ _ _ _ _ _ Hti Hfd) as HT.
  destruct (ab_table x !! (conn, req)) as [y|].
  2:{ destruct HS as (-> & -> & ->). eexists _, _, x. split; [done|]. split; [done|]. by destruct w. }
  destruct (as_total y <=? idx); [destruct HS as (-> & -> & ->); eexists _, _, x; split; [done|]; split; [done|]; by destruct w|].
  destruct (bool_decide _); [destruct HS as (-> & -> & ->); eexists _, _, x; split; [done|]; split; [done|]; by destruct w|].
  destruct (as_size y <? blen data); [destruct HS as (-> & -> & ->); eexists _, _, x; split; [done|]; split; [done|]; by destruct w|].
  destruct HS as (-> & _ & HS). eexists _, _, _. split; [done|]. split; [done|]. by split.
Qed.

Lemma step_take w x conn req : world_inv w x → simulates w (CTake conn req) x.
Proof.
  intros [Hst Hcl Hti Hf Hs]. unfold simulates, perform, spec. destruct (registry_take _ conn req) as [g r] eqn:Ht.
  pose proof (store_take _ _ _ _ _ _ _ _ _ _ _ Hst Ht) as HS. apply trims_take in Ht.
  destruct (ab_table x !! (conn, req)) as [y|].
  - destruct HS as (a & c & -> & HS). eexists _, _, _. split; [done|]. split; [done|].
    split; try done; [by eapply claims_trims|by eapply time_trims].
  - destruct HS as (-> & ->). eexists _, _, x. split; [done|]. split; [done|]. by destruct w.
Qed.

Lemma step_finish w x i : world_inv w x → simulates w (CFinish i) x.
Proof.
  intros HI. pose proof HI as [Hst Hcl Hti Hf Hs]. unfold simulates, perform, spec, spec_finish.
  pose proof (si_outs _ _ _ _ _ _ _ Hst) as Ho. destruct (w_out w !! i) as [h|] eqn:Hh.
  2:{ assert (ab_out x !! i = None) as -> by (apply lookup_ge_None; rewrite <-(Forall2_length _ _ _ Ho); by apply lookup_ge_None).
      by eexists _, _, x. }
  destruct (store_inv_pick _ _ _ _ _ _ _ _ _ Hst Hh) as (c & -> & Hok & HP).
  destruct h as [a|b], c as [[y|d]|]; try done; [|by eexists _, _, x..].
  pose proof (store_finish _ _ _ _ _ _ _ _ _ HP) as HF. destruct (_ =? as_total y).
  - destruct HF as (b & d & -> & HF & _ & Hd). eexists _, _, _. split; [done|].
    split; [split; [done|]; exists d; split; [reflexivity|intros chunks (? & ? & ?); by apply Hd]|]. by split.
  - rewrite HF. eexists _, _, _. split; [done|]. split; [done|]. split; try done.
    by eapply store_inv_know; [exact HP|reflexivity|].
Qed.

Lemma copy_total w x i b :
  world_inv w x → w_out w !! i = Some (HBacking b) → copy_bytes (w_pool w) b ≠ Panic.
Proof.
  intros HI Hh. destruct (store_inv_pick _ _ _ _ _ _ _ _ _ (wi_store _ _ _ HI) Hh) as (c & _ & _ & HP).
  unfold copy_bytes. destruct b as [s|]; [|done]. simpl.
  destruct (store_orphan _ _ _ s _ _ _ _ _ _ HP eq_refl) as (HO & _).
  assert (handle s ∈ (handle <$> carriers (w_registry w) (delete i (w_out w))) ++ handle s :: w_others w) as Hin
    by (apply elem_of_app; right; left).
  destruct (pool_ok_pick _ _ _ Hin (si_pool _ _ _ _ _ _ _ HO)) as (rest & Hok & _).
  destruct (ok_read _ _ _ Hok) as (-> & d & -> & _). done.
Qed.

Lemma step_read w x i : world_inv w x → simulates w (CRead i) x.
Proof.
  intros HI. pose proof HI as [Hst Hcl Hti Hf Hs]. unfold simulates, perform, spec.
  pose proof (si_outs _ _ _ _ _ _ _ Hst) as Ho. destruct (w_out w !! i) as [h|] eqn:Hh.
  2:{ assert (ab_out x !! i = None) as -> by (apply lookup_ge_None; rewrite <-(Forall2_length _ _ _ Ho); by apply lookup_ge_None).
      by eexists _, _, x. }
  destruct (store_inv_pick _ _ _ _ _ _ _ _ _ Hst Hh) as (c & -> & Hok & _).
  destruct h as [a|b], c as [[y|d]|]; try done; [by eexists _, _, x| |].
  - simpl in Hok. rewrite Hok. by eexists _, _, x.
  - pose proof (copy_total w x i b HI Hh) as Hnp. destruct (copy_bytes (w_pool w) b) as [d|err|]; [| |done].
    + eexists _, _, x. split; [done|]. split; [|done]. split; [done|by eexists].
    + eexists _, _, x. split; [done|]. split; [|done]. split; [done|by eexists].
Qed.

Lemma step_drop w x env i : world_inv w x → simulates w (CDrop env i) x.
Proof.
  intros HI. pose proof HI as [Hst Hcl Hti Hf Hs]. unfold simulates, perform, spec.
  pose proof (si_outs _ _ _ _ _ _ _ Hst) as Ho. destruct (w_out w !! i) as [h|] eqn:Hh.
  2:{ assert (delete i (ab_out x) = ab_out x) as ->.
      { apply lookup_ge_None in Hh. rewrite (Forall2_length _ _ _ Ho) in Hh. by rewrite delete_take_drop, take_ge, drop_ge, app_nil_r by lia. }
      eexists _, _, _. split; [done|]. split; [done|]. by destruct x. }
  destruct (store_inv_pick _ _ _ _ _ _ _ _ _ Hst Hh) as (c & _ & _ & HP).
  destruct (store_drop env _ _ _ _ _ _ _ _ _ HP) as (p' & -> & HD & _). eexists _, _, _. split; [done|]. split; [done|]. by split.
Qed.

Lemma step_abort w x conn req : world_inv w x → simulates w (CAbort conn req) x.
Proof.
  intros HI. unfold simulates, perform, spec. destruct (abort _ conn req) as [g removed] eqn:Ha.
  pose proof (store_remove_entry _ _ _ _ _ _ _ _ _ _ (wi_store _ _ _ HI) Ha) as HS. apply trims_remove_entry in Ha.
  destruct (let_go_inv w x g (w_pool w) removed _ HI Ha HS) as (x' & Hl & HI'). by eexists _, _, x'.
Qed.

Lemma step_cleanup w x order conn :
  world_inv w x → (∀ l, order l ≡ₚ l) → simulates w (CCleanup order conn) x.
Proof.
  intros HI Ho. unfold simulates, perform, spec, cleanup_connection. set (keys := filter _ (shard_keys order (w_registry w) (shard conn))).
  destruct (remove_all _ keys) as [g removed] eqn:Ha.
  pose proof (store_remove_all _ _ _ _ _ _ _ _ _ _ (wi_store _ _ _ HI) Ha) as HS. apply trims_remove_all in Ha.
  assert (without keys (ab_table x) = filter (fun kv => kv.1.1 ≠ conn) (ab_table x)) as Hm.
  { apply map_eq. intros k. rewrite lookup_without. destruct (ab_table x !! k) as [y|] eqn:Hy.
    - assert (is_Some (entries (w_registry w) !! k)) as He.
      { pose proof (si_entry _ _ _ _ _ _ _ (wi_store _ _ _ HI) k) as Hk. destruct (entries _ !! k); [by eexists|congruence]. }
      assert (k ∈ keys ↔ k.1 = conn) as Hk.
      { unfold keys. rewrite list_elem_of_filter, shard_keys_elem by done. split; [by intros [? _]|]. intros <-. done. }
      case_decide as Hd; rewrite Hk in Hd; symmetry.
      + apply map_lookup_filter_None_2. right. rewrite Hy. intros ? [= <-]. simpl. naive_solver.
      + by apply map_lookup_filter_Some_2.
    - assert (filter (fun kv => kv.1.1 ≠ conn) (ab_table x) !! k = None) as -> by (apply map_lookup_filter_None_2; by left).
      by case_decide. }
  rewrite Hm in HS. destruct (let_go_inv w x g (w_pool w) removed _ HI Ha HS) as (x' & Hl & HI'). by eexists _, _, x'.
Qed.

(** *** Sweeps *)

Lemma without_subseteq keys m : without keys m ⊆ m.
Proof. apply map_subseteq_spec. intros k y. rewrite lookup_without. by case_decide. Qed.

Lemma shard_range conn : 0 <= shard conn < SHARD_COUNT.
Proof. unfold shard, SHARD_COUNT. by apply Z.mod_pos_bound. Qed.

Lemma step_sweep_begin w x : world_inv w x → simulates w CSweepBegin x.
Proof.
  intros [Hst Hcl [Hp Hb Hsw] Hf Hs]. eexists _, _, x. split; [done|]. split; [done|]. split; try done. split; try done.
  constructor; [|done]. split; [simpl; lia|]. split; [by simpl|]. intros k e _ _ Hlt. simpl in Hlt. pose proof (shard_range k.1). lia.
Qed.

Lemma step_sweep_shard w x order i :
  world_inv w x → (∀ l, order l ≡ₚ l) → simulates w (CSweepShard order i) x.
Proof.
  intros HI Ho. pose proof HI as [Hst Hcl Hti Hf Hs]. unfold simulates, perform, spec.
  assert (leaves x (ab_table x) x) as Hnone by (exists 0%nat; by destruct x).
  destruct (w_sweeps w !! i) as [s|] eqn:Hi; [|eexists _, _, x; split; [done|]; split; [by eauto|done]].
  destruct (Z.ltb_spec (sweep_next s) SHARD_COUNT) as [Hn|Hn]; [|eexists _, _, x; split; [done|]; split; [by eauto|done]].
  destruct (gc_shard _ _ _ _ _ _ _ _) as [[[g oldest] stats] removed] eqn:Hg.
  pose proof (gc_shard_effects _ _ _ _ _ _ _ _ _ _ _ _ Ho Hg) as (Ht & _ & Hle & Hall & Hother).
  unfold gc_shard in Hg. destruct (expire_all _ _ _ _) as [[g1 st1] r1] eqn:He. injection Hg as -> <- <- ->.
  pose proof (store_expire_all _ _ _ _ _ _ _ _ _ _ _ _ _ Hst He) as HS.
  destruct (let_go_inv w x g (w_pool w) removed _ HI Ht HS) as (x' & Hl & [Hst' Hcl' Hti' Hf' Hs']).
  eexists _, _, x'. split; [done|]. split; [split; [done|]; eexists; split; [apply without_subseteq|exact Hl]|].
  split; try done. destruct Hti' as [Hp Hb Hsw]. split; try done. simpl in *. apply Forall_insert; [done|].
  pose proof (Forall_lookup_1 _ _ _ _ (ti_sweeps _ _ _ _ Hti) Hi) as (Hso & Hsn & Hsa).
  split; [simpl; lia|]. split; [simpl; lia|]. simpl. intros k e Hk Hlive Hlt.
  destruct (decide (shard k.1 = sweep_next s)) as [Heq|Hne]; [by eapply Hall|].
  rewrite Hother in Hk by done. specialize (Hsa k e Hk Hlive ltac:(lia)). lia.
Qed.

Lemma step_sweep_end w x i : world_inv w x → simulates w (CSweepEnd i) x.
Proof.
  intros HI. pose proof HI as [Hst Hcl Hti Hf Hs]. unfold simulates, perform, spec.
  destruct (w_sweeps w !! i) as [s|] eqn:Hi; [|by eexists _, _, x].
  destruct (Z.ltb_spec (sweep_next s) SHARD_COUNT) as [Hn|Hn]; [by eexists _, _, x|].
  pose proof (Forall_lookup_1 _ _ _ _ (ti_sweeps _ _ _ _ Hti) Hi) as (Hso & Hsn & Hsa).
  eexists _, _, x. split; [done|]. split; [done|]. split; try done.
  - pose proof Hst as []. by eapply store_inv_with.
  - by eapply (claims_states (w_registry w)).
  - destruct Hti as [Hp Hb Hsw]. split; simpl; [done| |by apply Forall_delete].
    intros b. unfold checked_add. case_match; [|done]. intros [= <-]. split; [lia|]. intros k e Hk Hlive.
    specialize (Hsa k e Hk Hlive). pose proof (shard_range k.1). lia.
Qed.

(** *** Nonblocking cleanup *)

Lemma step_drain w x order locked what d :
  world_inv w x → (∀ l, order l ≡ₚ l) → simulates w (CDrain order locked what d) x.
Proof.
  intros HI Ho. unfold simulates, perform, spec, spec_drain, try_drain_shard. destruct locked.
  { eexists _, _, x. split; [done|]. split; [|by destruct w].
    exists false, no_stats, (ab_table x). split; [done|]. split; [exists 0%nat; by destruct x|]. done. }
  set (keys := shard_keys order (w_registry w) (target_shard what)).
  destruct (store_drain_all (target_matches cfg what) (target_keeps what) (w_frames w) d (w_registry w) (w_pool w) true no_stats
              _ _ _ _ _ keys (wi_store _ _ _ HI) (shard_keys_nodup _ _ _ Ho))
    as (g & p & complete & stats & removed & ks & Hd & HS & Hin & _ & _ & Hc). rewrite Hd. cbn [res_bind].
  apply drain_all_effects in Hd as [Ht _].
  destruct (let_go_inv w x g p removed _ HI Ht HS) as (x' & Hl & HI'). eexists _, _, x'. split; [done|]. split; [|done].
  eexists complete, _, (without ks (ab_table x)). split; [done|]. split; [done|]. split; [apply without_subseteq|]. split.
  - intros k Hk. rewrite lookup_without. case_decide as Hks; [|done]. apply Hin, shard_keys_elem in Hks as [_ ?]; [done|done].
  - intros [_ Hall]%Hc. assert (∀ k, shard k.1 = target_shard what → (∀ e : TrackedRequest H C, target_matches cfg what k e = true) →
      without ks (ab_table x) !! k = None) as Hgone.
    { intros k Hsh Hm. rewrite lookup_without. case_decide as Hks; [done|].
      pose proof (si_entry _ _ _ _ _ _ _ (wi_store _ _ _ HI) k) as Hk. destruct (entries (w_registry w) !! k) as [e|] eqn:He; [|done].
      exfalso. apply Hks. eapply Hall; [|exact He|apply Hm]. apply shard_keys_elem; [done|]. split; [by eexists|done]. }
    destruct what as [conn|conn req|]; [| |done].
    + intros k <-. apply Hgone; [done|]. intros e. simpl. unfold of_connection. lia.
    + apply Hgone; [done|]. intros e. simpl. unfold of_request. simpl. lia.
Qed.

Lemma step_others w x p others ext : world_inv w x → legal w (COthers p others ext) → simulates w (COthers p others ext) x.
Proof.
  intros [Hst Hcl Hti Hf Hs] (Hok & Hrd & Hch & Hext). eexists _, _, x. split; [done|]. split; [done|]. split; try done.
  by eapply store_inv_pool.
Qed.

(** ** Every step *)

Lemma step_simulates w c x : world_inv w x → legal w c → simulates w c x.
Proof.
  intros HI Hl. destruct c; simpl in Hl.
  - by apply step_tick.
  - by apply step_begin_frame.
  - by apply step_end_frame.
  - by apply step_settle.
  - destruct Hl. by apply step_insert.
  - by apply step_feed.
  - by apply step_take.
  - by apply step_finish.
  - by apply step_read.
  - by apply step_drop.
  - by apply step_abort.
  - by apply step_cleanup.
  - by apply step_sweep_begin.
  - by apply step_sweep_shard.
  - by apply step_sweep_end.
  - by apply step_drain.
  - by apply step_others.
Qed.

Lemma run_simulates w l x :
  world_inv w x → legal_run cfg instant_max w l →
  ∃ w' answers x', perform_all cfg instant_max w l = Ok (w', answers) ∧ spec_run x l answers x' ∧ world_inv w' x'.
Proof.
  revert w x. induction l as [|c l IH]; intros w x HI Hl; [by exists w, [], x|]. destruct Hl as [Hc Hl].
  destruct (step_simulates w c x HI Hc) as (w1 & a & x1 & Hp & Hs & HI1).
  destruct (IH w1 x1 HI1 (Hl _ _ Hp)) as (w2 & answers & x2 & Hp2 & Hs2 & HI2).
  exists w2, (a :: answers), x2. cbn [perform_all]. rewrite Hp. cbn [res_bind]. rewrite Hp2. split; [done|]. split; [|done].
  by exists x1.
Qed.

(** A new registry over a pool others already use. *)
Definition fresh (p : P) (others : list H) (now : Z) : World :=
  {| w_registry := ChunkRegistry_new; w_pool := p; w_frames := []; w_out := []; w_sweeps := []; w_now := now;
     w_replies := []; w_others := others; w_ext := charged_bytes p |}.

Lemma fresh_inv p others now : pool_ok p others → world_inv (fresh p others now) ab_start.
Proof.
  intros Hok. split; try done.
  - split; try done; simpl; [change (sum_over charge _) with 0; lia|]. destruct (ok_budget p others Hok) as (cells & Hb & ?).
    unfold charged_bytes. rewrite Hb. simpl. lia.
  - split; simpl.
    + exists []. split_and!; [done|intros k e; by rewrite lookup_empty|by intros ? ?%elem_of_nil].
    + intros k e. by rewrite lookup_empty.
    + split; [constructor|]. intros id. split; [by intros ?%elem_of_nil|done].
Qed.

(** [w] is reached from a new registry by the legal calls [l]. *)
Definition runs_to (p : P) (others : list H) (now : Z) (l : list Call) (w : World) : Prop :=
  pool_ok p others ∧ legal_run cfg instant_max (fresh p others now) l
  ∧ ∃ answers, perform_all cfg instant_max (fresh p others now) l = Ok (w, answers).

Lemma runs_to_inv p others now l w : runs_to p others now l w → ∃ x, world_inv w x.
Proof.
  intros (Hok & Hl & answers & Hp).
  destruct (run_simulates _ l _ (fresh_inv p others now Hok) Hl) as (w' & answers' & x & Hp' & _ & HI).
  rewrite Hp in Hp'. injection Hp' as <- <-. by exists x.
Qed.

(** C9 The registry refines a table from request to received chunks: every legal
    sequence of locked sections by any number of threads succeeds without a panic, and
    its answers are the ones the table gives.  A feed is refused exactly for an unknown
    request, an index outside the geometry, a repeated chunk or an oversized one; a
    second admission and an admission for a settled request are refused as duplicates;
    an error reply is granted once; an assembly that is taken and finished is read back
    as its message for as long as it is held, whatever the other threads, the sweeps and
    the other users of the pool do. *)
Theorem registry_refines_table p others now l :
  pool_ok p others → legal_run cfg instant_max (fresh p others now) l →
  ∃ w answers x, perform_all cfg instant_max (fresh p others now) l = Ok (w, answers)
    ∧ spec_run ab_start l answers x.
Proof.
  intros Hok Hl. destruct (run_simulates _ l _ (fresh_inv p others now Hok) Hl) as (w & answers & x & ? & ? & _).
  by exists w, answers, x.
Qed.

Lemma wrap_small n : 0 <= n <= U64_MAX → wrap_u64 n = n.
Proof. intros. unfold wrap_u64. apply Z.mod_small. unfold U64_MAX in *. lia. Qed.

Lemma charges_count (l : list (BackingState (H:=H))) :
  Forall (fun s => br_kind (reservation s) = KReassembly ∧ 0 < charge s) l → blen l <= sum_over charge l.
Proof. induction 1 as [|s l [_ Hs] _ IH]; [done|]. rewrite blen_cons, sum_over_cons. lia. Qed.

(** The registry accounts for every byte: in every reachable state the counters are
    exactly the number of assemblies in the table and the bytes charged for them, and
    the reassembly cell of the pool holds these, the ones taken, finished or waiting to
    be dropped, and what others charged, and nothing else. *)
Theorem registry_accounting_exact p others now l w cells :
  runs_to p others now l w → pool_budget (w_pool w) = Some cells → limit_bytes (reassembly cells) <= U64_MAX →
  let g := w_registry w in
  active_count g = blen (tabled g) ∧ total_bytes g = sum_over charge (tabled g)
  ∧ used_bytes (reassembly cells)
    = w_ext w + sum_over charge (tabled g) + sum_over charge (omap holder_backing (w_out w))
  ∧ pool_ok (w_pool w) ((handle <$> tabled g) ++ (handle <$> omap holder_backing (w_out w)) ++ w_others w).
Proof.
  intros [x [Hst _ _ _ _]]%runs_to_inv Hb Hlim g. destruct Hst as [_ _ Hp Hc Hk Ha Ht Hext].
  destruct (ok_budget _ _ Hp) as (cells' & Hb' & Hu). rewrite Hb in Hb'. injection Hb' as <-.
  unfold charged_bytes in Hc. rewrite Hb in Hc. simpl in Hc. unfold carriers in *. rewrite sum_over_app in Hc.
  apply Forall_app in Hk as [Hk1 Hk2]. pose proof (charges_nonneg _ Hk1). pose proof (charges_nonneg _ Hk2).
  pose proof (charges_count _ Hk1). fold g in Ha, Ht, Hc, Hp |- *. pose proof (blen_nonneg (tabled g)).
  rewrite wrap_small in Ha, Ht by (unfold g in *; lia). split_and!; [done|done|lia|]. by rewrite fmap_app, <-app_assoc in Hp.
Qed.

(** C10 An error reply is claimed at most once per request and nothing comes after it: in
    every reachable state no request is listed twice among the granted replies, a
    request that was granted one holds no assembly, and the unsettled request of a frame
    still being handled keeps its entry, and with it the one claim, through every sweep
    and every nonblocking sweep. *)
Theorem one_error_reply p others now l w :
  runs_to p others now l w →
  NoDup (w_replies w)
  ∧ (∀ k e, entries (w_registry w) !! k = Some e → request e ∈ w_replies w → inner e = None)
  ∧ ∀ t e, t ∈ w_frames w → state t ∉ w_replies w →
      entries (w_registry w) !! request_key t = Some e → request e = state t →
      ∀ c w' a, legal w c → match c with CSweepShard _ _ | CDrain _ _ (ForExpired _ _) _ => True | _ => False end →
      perform cfg instant_max w c = Ok (w', a) →
      ∃ e', entries (w_registry w') !! request_key t = Some e' ∧ request e' = state t.
Proof.
  intros [x [_ Hcl _ _ _]]%runs_to_inv. destruct (ci_replies _ _ _ Hcl) as [Hnd Hrep]. split; [done|]. split.
  { intros k e He Hin. eapply (ci_settled _ _ _ Hcl); [done|by apply Hrep]. }
  intros t e Ht Hns He Hr c w' a Hl Hc Hp.
  assert (token_settled (w_registry w) t = false) as Hset.
  { apply not_true_is_false. intros Hs. by apply Hns, Hrep. }
  destruct c as [| | | | | | | | | | | | |order i| |order locked what d|]; try done; simpl in Hp, Hl.
  - destruct (w_sweeps w !! i) as [s|]; [|injection Hp as <- <-; by exists e].
    destruct (_ <? _); [|injection Hp as <- <-; by exists e].
    destruct (gc_shard _ _ _ _ _ _ _ _) as [[[g oldest] stats] removed] eqn:Hg. injection Hp as <- <-.
    apply gc_shard_effects in Hg as (_ & Hk & _); [|done]. by eapply Hk.
  - destruct what as [| |at_ sh]; [done..|]. unfold try_drain_shard in Hp. destruct locked; [injection Hp as <- <-; by exists e|].
    destruct (drain_all _ _ _ _ _ _ _ _ _) as [[[[[g p1] c1] st1] r1]| |] eqn:Hd; try done. injection Hp as <- <-.
    apply drain_all_effects in Hd as [_ Hk]. by eapply Hk.
Qed.

(** C11 Skipping a sweep misses nothing: in every reachable state, with any number of
    sweeps under way, if the bound published by a finished sweep keeps an admission at
    the soft limit from sweeping, then no assembly in the table has expired. *)
Theorem sweep_skip_sound p others now l w :
  runs_to p others now l w →
  wants_sweep cfg (w_registry w) (w_now w) = false →
  soft_limit cfg <= active_count (w_registry w) ∨ max_reassembly_bytes cfg <= total_bytes (w_registry w) →
  ∀ k e, entries (w_registry w) !! k = Some e → is_live e = true →
    is_expired (assembler_timeout cfg) (w_now w) e = false.
Proof.
  intros [x [_ _ Hti _ _]]%runs_to_inv Hw Hsoft k e He Hl. unfold wants_sweep in Hw.
  assert ((soft_limit cfg <=? active_count (w_registry w)) || (max_reassembly_bytes cfg <=? total_bytes (w_registry w)) = true) as Hs by lia.
  rewrite Hs in Hw. destruct (gc_not_before (w_registry w)) as [b|] eqn:Hb; [|done].
  destruct (ti_bound _ _ _ _ Hti b Hb) as [_ Hall]. specialize (Hall k e He Hl). pose proof (ti_past _ _ _ _ Hti k e He).
  unfold is_expired. simpl in Hw. lia.
Qed.

(** Without interference by others, legality does not depend on the state. *)
Lemma legal_static w (l : list Call) : Forall (fun c => ∀ w, legal w c) l → legal_run cfg instant_max w l.
Proof. intros Hl. revert w. induction Hl as [|c l Hc _ IH]; intros w; [done|]. split; [apply Hc|]. intros w' a _. apply IH. Qed.

Definition reached (p : P) (others : list H) (now : Z) (l : list Call) : World :=
  match perform_all cfg instant_max (fresh p others now) l with Ok (w, _) => w | _ => fresh p others now end.

Lemma reached_runs p others now l :
  pool_ok p others → Forall (fun c => ∀ w, legal w c) l → runs_to p others now l (reached p others now l).
Proof.
  intros Hok Hl. pose proof (legal_static (fresh p others now) l Hl) as Hleg. split; [done|]. split; [done|].
  destruct (run_simulates _ l _ (fresh_inv p others now Hok) Hleg) as (w & answers & x & Hp & _).
  exists answers. unfold reached. by rewrite Hp.
Qed.
End safe.

(** ** Over the memory pool *)

Module SampleRegistry.
Definition config : ChunkConfig :=
  {| assembler_timeout := 10; gc_interval := 5; soft_limit := 1; max_reassembly_bytes := 64 |}.
Definition call := Call MemPool MemHandle Env unit.
Definition fifo (l : list (Z * Z)) : list (Z * Z) := l.

(** A message in three chunks, out of order, while a sweep passes. *)
Definition message : list call :=
  [CBeginFrame 1 7 false; CInsert SampleReassembly.env false true 1 7 (Some 0%nat) 3 2 tt; CSweepBegin;
   CFeed 1 7 2 [Byte.x65]; CSweepShard fifo 0; CSweepShard fifo 0; CFeed 1 7 0 [Byte.x61; Byte.x62];
   CFeed 1 7 1 [Byte.x63; Byte.x64]; CTake 1 7; CFinish 0; CRead 0].
(** Admission, then a whole sweep. *)
Definition swept : list call :=
  [CBeginFrame 1 7 false; CInsert SampleReassembly.env false true 1 7 (Some 0%nat) 3 2 tt; CSweepBegin]
  ++ replicate 16 (CSweepShard fifo 0) ++ [CSweepEnd 0; CTick 5].
(** An error reply. *)
Definition refused : list call :=
  [CBeginFrame 1 7 false; CInsert SampleReassembly.env false true 1 7 (Some 0%nat) 3 2 tt; CSettle 0; CSettle 0].

Ltac legal_calls :=
  repeat (apply Forall_cons; split; [first [by intros w | intros w l; reflexivity]|]); by apply Forall_nil.

Lemma message_legal : Forall (fun c => ∀ w, legal w c) message.
Proof. legal_calls. Qed.
Lemma swept_legal : Forall (fun c => ∀ w, legal w c) swept.
Proof. legal_calls. Qed.
Lemma refused_legal : Forall (fun c => ∀ w, legal w c) refused.
Proof. legal_calls. Qed.

Definition after (l : list call) : World MemPool MemHandle unit :=
  reached config 1000 SampleReassembly.pool0 [] 0 l.
Definition cells : BudgetCells :=
  match pool_budget (w_pool (after swept)) with Some c => c | None => MemoryBudget_new 0 0 0 end.
End SampleRegistry.

Lemma registry_refines_table_witness :
  ∃ w x answers, perform_all SampleRegistry.config 1000 (fresh SampleReassembly.pool0 [] 0) SampleRegistry.message = Ok (w, answers)
    ∧ spec_run ab_start SampleRegistry.message answers x
    ∧ last answers = Some (Bytes (Ok [Byte.x61; Byte.x62; Byte.x63; Byte.x64; Byte.x65])).
Proof.
  destruct (registry_refines_table SampleRegistry.config 1000 SampleReassembly.pool0 [] 0 SampleRegistry.message SampleReassembly.fresh_ok
    (legal_static _ _ _ _ SampleRegistry.message_legal)) as (w & answers & x & Hp & Hs).
  exists w, x, answers. split; [exact Hp|]. split; [exact Hs|].
  assert (match perform_all SampleRegistry.config 1000 (fresh SampleReassembly.pool0 [] 0) SampleRegistry.message with
          | Ok (_, l) => last l | _ => None end = Some (Bytes (Ok [Byte.x61; Byte.x62; Byte.x63; Byte.x64; Byte.x65]))) as Hl
    by (vm_compute; reflexivity).
  rewrite Hp in Hl. exact Hl.
Defined.

Lemma registry_accounting_exact_witness :
  active_count (w_registry (SampleRegistry.after SampleRegistry.swept)) = 1
  ∧ total_bytes (w_registry (SampleRegistry.after SampleRegistry.swept)) = 9
  ∧ used_bytes (reassembly SampleRegistry.cells)
    = 0 + sum_over charge (tabled (w_registry (SampleRegistry.after SampleRegistry.swept))) + 0.
Proof.
  destruct (registry_accounting_exact SampleRegistry.config 1000 SampleReassembly.pool0 [] 0 SampleRegistry.swept
    (SampleRegistry.after SampleRegistry.swept) SampleRegistry.cells
    (reached_runs _ _ _ _ _ _ SampleReassembly.fresh_ok SampleRegistry.swept_legal)
    ltac:(vm_compute; reflexivity) ltac:(vm_compute; discriminate)) as (Ha & Ht & Hu & _).
  split; [rewrite Ha; vm_compute; reflexivity|]. split; [rewrite Ht; vm_compute; reflexivity|].
  rewrite Hu. f_equal; vm_compute; reflexivity.
Defined.

Lemma one_error_reply_witness : w_replies (SampleRegistry.after SampleRegistry.refused) = [0%nat] ∧ NoDup [0%nat].
Proof.
  assert (w_replies (SampleRegistry.after SampleRegistry.refused) = [0%nat]) as Hr by (vm_compute; reflexivity).
  split; [exact Hr|]. rewrite <-Hr.
  exact (proj1 (one_error_reply SampleRegistry.config 1000 SampleReassembly.pool0 [] 0 SampleRegistry.refused
    (SampleRegistry.after SampleRegistry.refused)
    (reached_runs _ _ _ _ _ _ SampleReassembly.fresh_ok SampleRegistry.refused_legal))).
Defined.

Lemma sweep_skip_sound_witness :
  match entries (w_registry (SampleRegistry.after SampleRegistry.swept)) !! (1, 7) with
  | Some e => is_expired 10 5 e = false
  | None => False
  end.
Proof.
  destruct (entries (w_registry (SampleRegistry.after SampleRegistry.swept)) !! (1, 7)) as [e|] eqn:He.
  - apply (sweep_skip_sound SampleRegistry.config 1000 SampleReassembly.pool0 [] 0 SampleRegistry.swept
      (SampleRegistry.after SampleRegistry.swept)
      (reached_runs _ _ _ _ _ _ SampleReassembly.fresh_ok SampleRegistry.swept_legal)
      ltac:(vm_compute; reflexivity) ltac:(left; vm_compute; discriminate) (1, 7) e He).
    assert (from_option is_live false (entries (w_registry (SampleRegistry.after SampleRegistry.swept)) !! (1, 7)) = true) as Hl
      by (vm_compute; reflexivity).
    rewrite He in Hl. exact Hl.
  - assert (is_Some (entries (w_registry (SampleRegistry.after SampleRegistry.swept)) !! (1, 7))) as [e Hs]
      by (vm_compute; eexists; reflexivity).
    rewrite He in Hs. discriminate.
Defined.
