(* ===== verification/RouteTable.v ===== *)
(** The relay's route table (c2-http, relay/route_table.rs and relay/types.rs): the
    routes of the mesh, the tombstones of removed ones, the known peers, and the
    snapshots and digests relays exchange.  Strings are their UTF-8 bytes; [now] is a
    monotonic instant and [wall] the epoch milliseconds. *)

From S2P Require Import Prelude.
From S2P Require Import Text.
From S2P Require Import Float64.

(** ** Data *)

Inductive Locality := Local | Peer.
Inductive PeerStatus := Alive | Suspect | Dead.
#[export] Instance locality_eq : EqDecision Locality.
Proof. solve_decision. Defined.
#[export] Instance peer_status_eq : EqDecision PeerStatus.
Proof. solve_decision. Defined.

Record RouteEntry := {
  re_name : str;
  re_relay_id : str;
  re_relay_url : str;
  re_server_id : option str;
  re_server_instance_id : option str;
  re_ipc_address : option str;
  re_crm_ns : str;
  re_crm_name : str;
  re_crm_ver : str;
  re_abi_hash : str;
  re_signature_hash : str;
  re_max_payload_size : Z;
  re_route_uid : str;
  re_locality : Locality;
  re_registered_at : f64 }.

Record UpstreamEndpointKey := { uk_address : str; uk_server_id : str; uk_server_instance_id : str }.
#[export] Instance upstream_key_eq : EqDecision UpstreamEndpointKey.
Proof. solve_decision. Defined.

Definition from_route (e : RouteEntry) : option UpstreamEndpointKey :=
  match re_locality e with
  | Peer => None
  | Local =>
      match re_ipc_address e, re_server_id e, re_server_instance_id e with
      | Some a, Some s, Some i => Some {| uk_address := a; uk_server_id := s; uk_server_instance_id := i |}
      | _, _, _ => None
      end
  end.

Record RouteTombstone := {
  tb_name : str;
  tb_relay_id : str;
  tb_removed_at : f64;
  tb_server_id : option str;
  tb_observed_at : Z }.

Record RouteInfo := {
  ri_name : str;
  ri_relay_url : str;
  ri_ipc_address : option str;
  ri_server_id : option str;
  ri_server_instance_id : option str;
  ri_crm_ns : str;
  ri_crm_name : str;
  ri_crm_ver : str;
  ri_abi_hash : str;
  ri_signature_hash : str;
  ri_max_payload_size : Z;
  ri_route_uid : str }.

(** The owner's private fields are shown for local routes only. *)
Definition to_route_info (e : RouteEntry) : RouteInfo :=
  let local := bool_decide (re_locality e = Local) in
  {| ri_name := re_name e; ri_relay_url := re_relay_url e;
     ri_ipc_address := if local then re_ipc_address e else None;
     ri_server_id := if local then re_server_id e else None;
     ri_server_instance_id := if local then re_server_instance_id e else None;
     ri_crm_ns := re_crm_ns e; ri_crm_name := re_crm_name e; ri_crm_ver := re_crm_ver e;
     ri_abi_hash := re_abi_hash e; ri_signature_hash := re_signature_hash e;
     ri_max_payload_size := re_max_payload_size e; ri_route_uid := re_route_uid e |}.

Definition local_route_matches (e x : RouteEntry) : bool :=
  bool_decide (re_name e = re_name x) && bool_decide (re_relay_id e = re_relay_id x)
  && bool_decide (re_server_id e = re_server_id x)
  && bool_decide (re_server_instance_id e = re_server_instance_id x)
  && bool_decide (re_ipc_address e = re_ipc_address x)
  && bool_decide (re_crm_ns e = re_crm_ns x) && bool_decide (re_crm_name e = re_crm_name x)
  && bool_decide (re_crm_ver e = re_crm_ver x)
  && bool_decide (re_abi_hash e = re_abi_hash x) && bool_decide (re_signature_hash e = re_signature_hash x)
  && (re_max_payload_size e =? re_max_payload_size x) && bool_decide (re_route_uid e = re_route_uid x)
  && bool_decide (re_locality e = Local) && bool_decide (re_locality x = Local).

Record PeerInfo := {
  pe_relay_id : str;
  pe_url : str;
  pe_route_count : Z;
  pe_last_heartbeat : Z;
  pe_status : PeerStatus }.

Record PeerSnapshot := { ps_relay_id : str; ps_url : str; ps_route_count : Z; ps_status : PeerStatus }.
Record FullSync := { fs_routes : list RouteEntry; fs_tombstones : list RouteTombstone; fs_peers : list PeerSnapshot }.

Record RelayRegistrationScope := {
  sc_name : str; sc_server_id : str; sc_server_instance_id : str; sc_route_uid : str }.
#[export] Instance scope_eq : EqDecision RelayRegistrationScope.
Proof. solve_decision. Defined.

Inductive TombstoneGcReason := ReplacedByActiveRoute | RetentionExpired.
Record TombstoneGcEntry := { gc_tombstone : RouteTombstone; gc_reason : TombstoneGcReason }.

Record RouteTable := {
  routes : gmap (str * str) RouteEntry;
  tombstones : gmap (str * str) RouteTombstone;
  withdrawn_registrations : gmap (str * str) RelayRegistrationScope;
  peers : gmap str PeerInfo;
  relay_id : str;
  next_timestamp : f64 }.

Definition set_routes (t : RouteTable) (m : gmap (str * str) RouteEntry) : RouteTable :=
  {| routes := m; tombstones := tombstones t; withdrawn_registrations := withdrawn_registrations t;
     peers := peers t; relay_id := relay_id t; next_timestamp := next_timestamp t |}.
Definition set_tombstones (t : RouteTable) (m : gmap (str * str) RouteTombstone) : RouteTable :=
  {| routes := routes t; tombstones := m; withdrawn_registrations := withdrawn_registrations t;
     peers := peers t; relay_id := relay_id t; next_timestamp := next_timestamp t |}.
Definition set_withdrawn (t : RouteTable) (m : gmap (str * str) RelayRegistrationScope) : RouteTable :=
  {| routes := routes t; tombstones := tombstones t; withdrawn_registrations := m;
     peers := peers t; relay_id := relay_id t; next_timestamp := next_timestamp t |}.
Definition set_peers (t : RouteTable) (m : gmap str PeerInfo) : RouteTable :=
  {| routes := routes t; tombstones := tombstones t; withdrawn_registrations := withdrawn_registrations t;
     peers := m; relay_id := relay_id t; next_timestamp := next_timestamp t |}.
Definition set_timestamp (t : RouteTable) (f : f64) : RouteTable :=
  {| routes := routes t; tombstones := tombstones t; withdrawn_registrations := withdrawn_registrations t;
     peers := peers t; relay_id := relay_id t; next_timestamp := f |}.

(** ** Validation *)

Definition is_ok {E A} (m : res E A) : bool := match m with Ok _ => true | _ => false end.

Definition valid_route_name (name : str) : bool := is_ok (validate_call_route_key "route name" name).
Definition valid_relay_id (id : str) : bool := is_ok (validate_relay_id id).
Definition valid_crm_tag (ns name ver : str) : bool := is_ok (validate_crm_tag ns name ver).
Definition valid_server_id (id : str) : bool := is_ok (validate_server_id id) && (blen id <=? MAX_WIRE_TEXT_BYTES).

Inductive InstanceIdError :=
  InstanceEmpty | InstanceTooLong | InstanceWhitespace | InstanceSeparators | InstanceNotAscii | InstanceControl.

Definition is_ascii (s : str) : bool := forallb (fun b => u8 b <? 128) s.

Definition validate_server_instance_id_value (value : str) : res InstanceIdError unit :=
  guard_err (bool_decide (value = [])) InstanceEmpty ;?
  guard_err (MAX_WIRE_TEXT_BYTES <? blen value) InstanceTooLong ;?
  guard_err (has_surrounding_ws value) InstanceWhitespace ;?
  guard_err (bool_decide (value = str_dot) || bool_decide (value = str_dotdot)
             || contains_char value ch_slash || contains_char value ch_backslash) InstanceSeparators ;?
  guard_err (negb (is_ascii value)) InstanceNotAscii ;?
  guard_err (any_control value) InstanceControl ;?
  Ok tt.

Definition valid_server_instance_id (value : str) : bool := is_ok (validate_server_instance_id_value value).

Definition ipc_scheme : str := byte.of_Z <$> [105; 112; 99; 58; 47; 47].

(** [strip_prefix("ipc://")]. *)
Definition valid_ipc_address (address : str) : bool :=
  if bool_decide (take 6 address = ipc_scheme) then is_ok (validate_server_id (drop 6 address)) else false.

(** What [reqwest::Url::parse] yields of a URL. *)
Record Url := {
  url_scheme : str;
  url_host : option str;
  url_query : option str;
  url_fragment : option str;
  url_username : str;
  url_password : option str }.

Definition str_http : str := byte.of_Z <$> [104; 116; 116; 112].
Definition str_https : str := byte.of_Z <$> [104; 116; 116; 112; 115].

Section table.
Context (url_parse : str → option Url).
Implicit Types (t : RouteTable) (e : RouteEntry).

Definition valid_relay_url (url : str) : bool :=
  match url_parse url with
  | Some u =>
      (bool_decide (url_scheme u = str_http) || bool_decide (url_scheme u = str_https))
      && bool_decide (is_Some (url_host u)) && bool_decide (url_query u = None)
      && bool_decide (url_fragment u = None) && bool_decide (url_username u = [])
      && bool_decide (url_password u = None)
  | None => false
  end.

Definition opt_valid (f : str → bool) (o : option str) : bool := from_option f false o.

Definition valid_route_entry t e : bool :=
  valid_route_name (re_name e) && valid_relay_id (re_relay_id e) && valid_relay_url (re_relay_url e)
  && valid_crm_tag (re_crm_ns e) (re_crm_name e) (re_crm_ver e)
  && is_ok (validate_contract_hash "abi_hash" (re_abi_hash e))
  && is_ok (validate_contract_hash "signature_hash" (re_signature_hash e))
  && (0 <? re_max_payload_size e)
  && is_ok (validate_call_route_key "route_uid" (re_route_uid e))
  && f64_is_finite (re_registered_at e)
  && match re_locality e with
     | Local => bool_decide (re_relay_id e = relay_id t) && opt_valid valid_server_id (re_server_id e)
                && opt_valid valid_server_instance_id (re_server_instance_id e)
                && opt_valid valid_ipc_address (re_ipc_address e)
     | Peer => bool_decide (re_relay_id e ≠ relay_id t) && bool_decide (re_server_id e = None)
               && bool_decide (re_server_instance_id e = None) && bool_decide (re_ipc_address e = None)
     end.

Definition valid_tombstone (b : RouteTombstone) : bool :=
  f64_is_finite (tb_removed_at b) && valid_route_name (tb_name b) && valid_relay_id (tb_relay_id b)
  && from_option valid_server_id true (tb_server_id b).

(** ** Routes *)

Definition RouteTable_new (id : str) (wall : Z) : RouteTable :=
  {| routes := ∅; tombstones := ∅; withdrawn_registrations := ∅; peers := ∅; relay_id := id;
     next_timestamp := f64_of_u64 (saturating_sub wall 1) |}.

Definition route_key e : str * str := (re_name e, re_relay_id e).

Definition can_register_route t e : bool :=
  valid_route_entry t e
  && match tombstones t !! route_key e with
     | Some b => negb (SFleb (re_registered_at e) (tb_removed_at b))
     | None => true
     end.

(** The assertion panics on a route that cannot be registered. *)
Definition register_prevalidated_route t e : res Empty_set RouteTable :=
  guard_panic (can_register_route t e) ;?
  let key := route_key e in
  let t := set_tombstones t (delete key (tombstones t)) in
  let t := set_withdrawn t (delete key (withdrawn_registrations t)) in
  Ok (set_routes t (<[key := e]> (routes t))).

Definition register_route t e : res Empty_set (RouteTable * bool) :=
  if can_register_route t e then let? t := register_prevalidated_route t e in Ok (t, true)
  else Ok (t, false).

(** [routes.get(&key).is_some_and(|entry| entry.registered_at > removed_at)]. *)
Definition outlives t (key : str * str) (removed_at : f64) : bool :=
  from_option (fun e => SFltb removed_at (re_registered_at e)) false (routes t !! key).

Definition apply_tombstone t (b : RouteTombstone) (now : Z) : RouteTable * bool :=
  if negb (valid_tombstone b) then (t, false)
  else
    let key := (tb_name b, tb_relay_id b) in
    if outlives t key (tb_removed_at b) then (t, false)
    else
      let existing := tombstones t !! key in
      if from_option (fun x => SFleb (tb_removed_at b) (tb_removed_at x)) false existing then (t, false)
      else
        let server :=
          match existing with
          | Some x => match tb_server_id b with None => tb_server_id x | s => s end
          | None => tb_server_id b
          end in
        let b := {| tb_name := tb_name b; tb_relay_id := tb_relay_id b; tb_removed_at := tb_removed_at b;
                    tb_server_id := server; tb_observed_at := now |} in
        let t := set_routes t (delete key (routes t)) in
        (set_tombstones t (<[key := b]> (tombstones t)), true).

(** The common tail of the three withdrawals. *)
Definition withdraw_with t (b : RouteTombstone) (now : Z) : RouteTable * option RouteEntry :=
  if negb (valid_tombstone b) then (t, None)
  else
    let key := (tb_name b, tb_relay_id b) in
    if outlives t key (tb_removed_at b) then (t, None)
    else
      let removed := routes t !! key in
      let '(t, applied) := apply_tombstone t b now in
      (t, if applied then removed else None).

Definition unregister_route_with_tombstone t (name id : str) (removed_at : f64) (now : Z)
    : RouteTable * option RouteEntry :=
  withdraw_with t {| tb_name := name; tb_relay_id := id; tb_removed_at := removed_at; tb_server_id := None;
                     tb_observed_at := now |} now.

Definition next_local_timestamp t (wall : Z) : RouteTable * f64 :=
  let w := f64_of_u64 wall in
  let next := if f64_is_finite (next_timestamp t) then f64_max w (f64_add (next_timestamp t) f64_one) else w in
  (set_timestamp t next, next).

Definition unregister_local_route_with_tombstone t (name server : str) (wall now : Z)
    : RouteTable * option RouteEntry * f64 :=
  let id := relay_id t in
  let '(t, removed_at) := next_local_timestamp t wall in
  let '(t, removed) :=
    withdraw_with t {| tb_name := name; tb_relay_id := id; tb_removed_at := removed_at;
                       tb_server_id := Some server; tb_observed_at := now |} now in
  (t, removed, removed_at).

Definition unregister_local_route_if_matches t (expected : RouteEntry) (wall now : Z)
    : RouteTable * option RouteEntry * f64 :=
  let id := relay_id t in
  let key := (re_name expected, id) in
  if negb (from_option (fun e => local_route_matches e expected) false (routes t !! key))
  then let '(t, at_) := next_local_timestamp t wall in (t, None, at_)
  else
    let '(t, removed_at) := next_local_timestamp t wall in
    let server := routes t !! key ≫= re_server_id in
    let '(t, removed) :=
      withdraw_with t {| tb_name := re_name expected; tb_relay_id := id; tb_removed_at := removed_at;
                         tb_server_id := server; tb_observed_at := now |} now in
    (t, removed, removed_at).

Definition record_registration_withdrawal t (s : RelayRegistrationScope) : RouteTable :=
  set_withdrawn t (<[(sc_name s, relay_id t) := s]> (withdrawn_registrations t)).

Definition registration_already_withdrawn t (s : RelayRegistrationScope) : bool :=
  let key := (sc_name s, relay_id t) in
  bool_decide (is_Some (tombstones t !! key)) && bool_decide (withdrawn_registrations t !! key = Some s).

Definition local_tombstone_matches_server t (name server : str) : bool :=
  bool_decide (tombstones t !! (name, relay_id t) ≫= tb_server_id = Some server).

Definition local_route t (name : str) : option RouteEntry := routes t !! (name, relay_id t).

Definition has_local_route_for_endpoint t (key : UpstreamEndpointKey) : bool :=
  existsb (fun e => bool_decide (from_route e = Some key)) (map_to_list (routes t)).*2.

(** ** Resolution *)

Definition peer_is_alive t (id : str) : bool :=
  from_option (fun p => bool_decide (pe_status p = Alive)) false (peers t !! id).

Definition contract_matches e (x : ExpectedRouteContract) : bool :=
  bool_decide (re_crm_ns e = erc_crm_ns x) && bool_decide (re_crm_name e = erc_crm_name x)
  && bool_decide (re_crm_ver e = erc_crm_ver x) && bool_decide (re_abi_hash e = erc_abi_hash x)
  && bool_decide (re_signature_hash e = erc_signature_hash x).

(** [a.partial_cmp(b).unwrap_or(Equal).then_with(relay ids)] is not [Greater]; strings
    compare by their bytes. *)
Fixpoint str_leb (a b : str) : bool :=
  match a, b with
  | [], _ => true
  | _ :: _, [] => false
  | x :: a, y :: b => if u8 x <? u8 y then true else if u8 y <? u8 x then false else str_leb a b
  end.
Definition peer_leb (a b : RouteEntry) : bool :=
  match SFcompare (re_registered_at a) (re_registered_at b) with
  | Some Lt => true
  | Some Gt => false
  | _ => str_leb (re_relay_id a) (re_relay_id b)
  end.
Definition peer_le (a b : RouteEntry) : Prop := peer_leb a b = true.
#[export] Instance peer_le_dec : RelDecision peer_le.
Proof. unfold peer_le. solve_decision. Defined.

Definition resolve_matching t (expected : ExpectedRouteContract) : list RouteInfo :=
  if negb (is_ok (validate_expected_route_contract expected)) then []
  else
    let candidates :=
      filter (fun e => contract_matches e expected = true)
        (filter (fun kv => kv.1.1 = erc_route_name expected) (map_to_list (routes t))).*2 in
    let local := filter (fun e => re_locality e = Local) candidates in
    let peer := filter (fun e => re_locality e = Peer ∧ peer_is_alive t (re_relay_id e) = true) candidates in
    (to_route_info <$> local) ++ (to_route_info <$> merge_sort peer_le peer).

Definition list_routes t : list RouteEntry := (map_to_list (routes t)).*2.
Definition list_tombstones t : list RouteTombstone := (map_to_list (tombstones t)).*2.
(** [Vec::dedup]: the first of each run of equal elements. *)
Fixpoint dedup (l : list str) : list str :=
  match l with
  | [] => []
  | x :: l => match dedup l with
              | y :: r => if bool_decide (x = y) then y :: r else x :: y :: r
              | [] => [x]
              end
  end.
Definition str_le (a b : str) : Prop := str_leb a b = true.
#[export] Instance str_le_dec : RelDecision str_le.
Proof. unfold str_le. solve_decision. Defined.
Definition route_names t : list str := dedup (merge_sort str_le (re_name <$> list_routes t)).
Definition local_route_count t : Z :=
  wrap_u32 (blen (filter (fun e => re_locality e = Local) (list_routes t))).

Definition remove_routes_by_relay t (id : str) : RouteTable * list RouteEntry :=
  (set_routes t (filter (fun kv => kv.1.2 ≠ id) (routes t)),
   (map_to_list (filter (fun kv => kv.1.2 = id) (routes t))).*2).

Definition tombstone_reason t (now retention : Z) (key : str * str) (b : RouteTombstone) : option TombstoneGcReason :=
  if bool_decide (is_Some (routes t !! key)) then Some ReplacedByActiveRoute
  else if retention <=? Z.max 0 (now - tb_observed_at b) then Some RetentionExpired
  else None.

Definition gc_tombstones t (now retention : Z) : RouteTable * list TombstoneGcEntry :=
  let expired := omap (fun kv => (fun reason => (kv.1, {| gc_tombstone := kv.2; gc_reason := reason |}))
                                 <$> tombstone_reason t now retention kv.1 kv.2) (map_to_list (tombstones t)) in
  let gone := list_to_set expired.*1 : gset (str * str) in
  let t' := set_tombstones t (filter (fun kv => kv.1 ∉ gone) (tombstones t)) in
  (set_withdrawn t' (filter (fun kv => kv.1 ∉ gone) (withdrawn_registrations t)), expired.*2).

(** ** Peers *)

Definition with_url e (url : str) : RouteEntry :=
  {| re_name := re_name e; re_relay_id := re_relay_id e; re_relay_url := url; re_server_id := re_server_id e;
     re_server_instance_id := re_server_instance_id e; re_ipc_address := re_ipc_address e;
     re_crm_ns := re_crm_ns e; re_crm_name := re_crm_name e; re_crm_ver := re_crm_ver e;
     re_abi_hash := re_abi_hash e; re_signature_hash := re_signature_hash e;
     re_max_payload_size := re_max_payload_size e; re_route_uid := re_route_uid e;
     re_locality := re_locality e; re_registered_at := re_registered_at e |}.

Definition sync_peer_route_urls t (id url : str) : RouteTable :=
  set_routes t ((fun e =>
    if bool_decide (re_locality e = Peer) && bool_decide (re_relay_id e = id)
    then with_url e url
    else e) <$> routes t).

Definition record_peer_join t (id url : str) (now : Z) : RouteTable * bool :=
  if negb (valid_relay_id id) || bool_decide (id = relay_id t) || negb (valid_relay_url url) then (t, false)
  else
    let p :=
      match peers t !! id with
      | Some p => {| pe_relay_id := pe_relay_id p; pe_url := url; pe_route_count := pe_route_count p;
                     pe_last_heartbeat := now; pe_status := Alive |}
      | None => {| pe_relay_id := id; pe_url := url; pe_route_count := 0; pe_last_heartbeat := now;
                   pe_status := Alive |}
      end in
    (sync_peer_route_urls (set_peers t (<[id := p]> (peers t))) id url, true).

Definition unregister_peer t (id : str) : RouteTable := set_peers t (delete id (peers t)).
Definition has_peer t (id : str) : bool := bool_decide (is_Some (peers t !! id)).

Definition list_peers t : list PeerInfo := (map_to_list (peers t)).*2.
Definition alive_peers t : list PeerInfo := filter (fun p => pe_status p = Alive) (list_peers t).
Definition dead_peers t : list PeerInfo := filter (fun p => pe_status p = Dead) (list_peers t).

(** [get_peer_mut] and an update in place. *)
Definition update_peer t (id : str) (f : PeerInfo → PeerInfo) : RouteTable := set_peers t (alter f id (peers t)).

(** ** Snapshots *)

Definition peer_snapshot (p : PeerInfo) : PeerSnapshot :=
  {| ps_relay_id := pe_relay_id p; ps_url := pe_url p; ps_route_count := pe_route_count p; ps_status := pe_status p |}.

Definition full_snapshot t : FullSync :=
  {| fs_routes := list_routes t; fs_tombstones := list_tombstones t;
     fs_peers := peer_snapshot <$> list_peers t |}.

Definition snapshot_route_owner_is_alive t (p : PeerSnapshot) : bool :=
  match peers t !! ps_relay_id p with
  | Some local => bool_decide (pe_status local = Alive)
  | None => bool_decide (ps_status p = Alive)
  end.

(** The routes a snapshot brings; [None] when one names a relay that is not in it. *)
Fixpoint replacement_routes t (snapshots : gmap str PeerSnapshot) (l : list RouteEntry)
    (acc : gmap (str * str) RouteEntry) : option (gmap (str * str) RouteEntry) :=
  match l with
  | [] => Some acc
  | e :: l =>
      if bool_decide (re_relay_id e = relay_id t) then replacement_routes t snapshots l acc
      else
        match snapshots !! re_relay_id e with
        | None => None
        | Some p =>
            if snapshot_route_owner_is_alive t p
            then let e := with_url e (ps_url p) in replacement_routes t snapshots l (<[route_key e := e]> acc)
            else replacement_routes t snapshots l acc
        end
  end.

Fixpoint apply_tombstones t (l : list RouteTombstone) (now : Z) : RouteTable :=
  match l with
  | [] => t
  | b :: l =>
      if bool_decide (tb_relay_id b = relay_id t) then apply_tombstones t l now
      else apply_tombstones (apply_tombstone t b now).1 l now
  end.

Fixpoint register_replacements t (l : list ((str * str) * RouteEntry)) : res Empty_set RouteTable :=
  match l with
  | [] => Ok t
  | (key, e) :: l =>
      if from_option (fun b => SFleb (re_registered_at e) (tb_removed_at b)) false (tombstones t !! key)
      then register_replacements t l
      else let? '(t, _) := register_route t e in register_replacements t l
  end.

Definition merge_peer t (p : PeerSnapshot) (now : Z) : RouteTable :=
  if bool_decide (ps_relay_id p = relay_id t) then t
  else
    let info :=
      match peers t !! ps_relay_id p with
      | Some x => {| pe_relay_id := pe_relay_id x; pe_url := ps_url p; pe_route_count := ps_route_count p;
                     pe_last_heartbeat := now;
                     pe_status := if bool_decide (pe_status x = Dead) then pe_status x else ps_status p |}
      | None => {| pe_relay_id := ps_relay_id p; pe_url := ps_url p; pe_route_count := ps_route_count p;
                   pe_last_heartbeat := now; pe_status := ps_status p |}
      end in
    sync_peer_route_urls (set_peers t (<[ps_relay_id p := info]> (peers t))) (ps_relay_id p) (ps_url p).

Definition snapshot_peers t (l : list PeerSnapshot) : gmap str PeerSnapshot :=
  foldl (fun m p => if bool_decide (ps_relay_id p = relay_id t) then m else <[ps_relay_id p := p]> m) ∅ l.

Definition merge_validated_snapshot t (sync : FullSync) (now : Z) : res Empty_set RouteTable :=
  match replacement_routes t (snapshot_peers t (fs_peers sync)) (fs_routes sync) ∅ with
  | None => Ok t
  | Some replacement =>
      let t := set_routes t (filter (fun kv => re_locality kv.2 ≠ Peer) (routes t)) in
      let t := apply_tombstones t (fs_tombstones sync) now in
      let? t := register_replacements t (map_to_list replacement) in
      Ok (foldl (fun t p => merge_peer t p now) t (fs_peers sync))
  end.

Definition authoritative_missing_tombstone t (name id : str) (wall now : Z) : RouteTable * option RouteTombstone :=
  if bool_decide (id ≠ relay_id t) then (t, None)
  else if negb (valid_route_name name) || negb (valid_relay_id id) then (t, None)
  else if bool_decide (is_Some (routes t !! (name, id))) then (t, None)
  else
    let '(t, removed_at) := next_local_timestamp t wall in
    let '(t, _) := apply_tombstone t {| tb_name := name; tb_relay_id := id; tb_removed_at := removed_at;
                                        tb_server_id := None; tb_observed_at := now |} now in
    (t, tombstones t !! (name, id)).
End table.

Arguments valid_relay_url _ _ : simpl never.
Arguments valid_route_entry _ _ _ : simpl never.
