(* ===== verification/RouteSync.v ===== *)
(** What relays tell each other: snapshots, digests and gossip messages (c2-http,
    relay/types.rs and relay/peer.rs), with their validation.  JSON encoding is serde's;
    SHA-256 and URL parsing are parameters. *)

From S2P Require Import Prelude.
From S2P Require Import Text.
From S2P Require Import Float64.
From S2P Require Import RouteTable.

Definition PROTOCOL_VERSION : Z := 7.
Definition ROUTE_HASH_FULL_SYNC_VERSION : Z := 6.

(** ** Numbers in a digest *)

(** [f64::to_bits]. *)
Definition sign_bit (s : bool) : Z := if s then 2 ^ 63 else 0.
Definition to_bits (f : f64) : Z :=
  match f with
  | S754_zero s => sign_bit s
  | S754_infinity s => sign_bit s + 2047 * 2 ^ 52
  | S754_nan => 4095 * 2 ^ 51
  | S754_finite s m e =>
      sign_bit s + (if Zpos m <? 2 ^ 52 then Zpos m else (e + 1075) * 2 ^ 52 + (Zpos m - 2 ^ 52))
  end.

(** [u64::to_be_bytes]. *)
Definition to_be8 (n : Z) : bytes := reverse (to_le 8 n).

(** What is hashed: every field behind its length. *)
Definition digest_preimage (fields : list str) : bytes :=
  concat ((fun f => to_be8 (blen f) ++ f) <$> fields).

Definition str_active : str := byte.of_Z <$> [97; 99; 116; 105; 118; 101].
Definition str_deleted : str := byte.of_Z <$> [100; 101; 108; 101; 116; 101; 100].

Definition active_fields (e : RouteEntry) : list str :=
  [str_active; re_name e; re_relay_id e; re_relay_url e; re_crm_ns e; re_crm_name e; re_crm_ver e;
   re_abi_hash e; re_signature_hash e; decimal (re_max_payload_size e); re_route_uid e;
   decimal (to_bits (re_registered_at e))].
Definition deleted_fields (b : RouteTombstone) : list str :=
  [str_deleted; tb_name b; tb_relay_id b; decimal (to_bits (tb_removed_at b))].

Definition valid_route_digest_hash (hash : str) : bool :=
  (blen hash =? 64)
  && forallb (fun b => ((48 <=? u8 b) && (u8 b <=? 57)) || ((97 <=? u8 b) && (u8 b <=? 102))) hash.

(** ** Wire types *)

Record FullSyncRoute := {
  fr_name : str; fr_relay_id : str; fr_relay_url : str; fr_crm_ns : str; fr_crm_name : str; fr_crm_ver : str;
  fr_abi_hash : str; fr_signature_hash : str; fr_max_payload_size : Z; fr_route_uid : str;
  fr_registered_at : f64; fr_hash : str }.
Record FullSyncTombstone := { ft_name : str; ft_relay_id : str; ft_removed_at : f64; ft_hash : str }.
Record FullSyncSnapshot := {
  sn_routes : list FullSyncRoute; sn_tombstones : list FullSyncTombstone; sn_peers : list PeerSnapshot }.
Record FullSyncEnvelope := { en_protocol_version : Z; en_snapshot : FullSyncSnapshot }.

Inductive FullSyncValidationError :=
| RouteSnapshotTooOld (got least : Z)
| UnsupportedRouteSnapshotVersion (got supported : Z)
| InvalidPeer (relay_id : str)
| InvalidRoute (name relay_id : str)
| InvalidTombstone (name relay_id : str)
| InvalidRouteHash (name relay_id : str)
| InvalidTombstoneHash (name relay_id : str).

Record DigestEntry := { de_name : str; de_relay_id : str; de_deleted : bool; de_hash : str }.

Record ActiveState := {
  ac_name : str; ac_relay_id : str; ac_relay_url : str; ac_crm_ns : str; ac_crm_name : str; ac_crm_ver : str;
  ac_abi_hash : str; ac_signature_hash : str; ac_max_payload_size : Z; ac_route_uid : str; ac_registered_at : f64 }.

Inductive DigestDiffEntry :=
| DiffActive (s : ActiveState)
| DiffDeleted (name relay_id : str) (removed_at : f64).

Inductive PeerMessage :=
| RouteAnnounce (s : ActiveState)
| RouteWithdraw (name relay_id : str) (removed_at : f64)
| RelayJoin (relay_id url : str)
| RelayLeave (relay_id : str)
| Heartbeat (relay_id : str) (route_count : Z)
| DigestExchange (digest : list DigestEntry)
| DigestDiff (entries : list DigestDiffEntry)
| Unknown.

Record PeerEnvelope := { pv_protocol_version : Z; pv_sender : str; pv_message : PeerMessage }.
Definition PeerEnvelope_new (sender : str) (message : PeerMessage) : PeerEnvelope :=
  {| pv_protocol_version := PROTOCOL_VERSION; pv_sender := sender; pv_message := message |}.

Inductive ValidatedDigestDiffEntry :=
| ValidActive (e : RouteEntry)
| ValidDeleted (name relay_id : str) (removed_at : f64).
Inductive ValidatedRouteStateEnvelope :=
| VMessage (e : PeerEnvelope)
| VDigestDiff (l : list ValidatedDigestDiffEntry).

Inductive PeerRouteStateError :=
| UnsupportedRouteStateProtocol (got supported : Z)
| InvalidSender (sender : str)
| InvalidRouteAnnounce
| InvalidRouteWithdraw
| InvalidRelayLeave
| InvalidDigestEntry (name relay_id : str)
| InvalidDigestDiff (active : bool) (name relay_id : str).

(** A route as a peer stores it, without the owner's private fields. *)
Definition peer_entry (s : ActiveState) : RouteEntry :=
  {| re_name := ac_name s; re_relay_id := ac_relay_id s; re_relay_url := ac_relay_url s; re_server_id := None;
     re_server_instance_id := None; re_ipc_address := None; re_crm_ns := ac_crm_ns s;
     re_crm_name := ac_crm_name s; re_crm_ver := ac_crm_ver s; re_abi_hash := ac_abi_hash s;
     re_signature_hash := ac_signature_hash s; re_max_payload_size := ac_max_payload_size s;
     re_route_uid := ac_route_uid s; re_locality := Peer; re_registered_at := ac_registered_at s |}.
Definition active_state (e : RouteEntry) : ActiveState :=
  {| ac_name := re_name e; ac_relay_id := re_relay_id e; ac_relay_url := re_relay_url e; ac_crm_ns := re_crm_ns e;
     ac_crm_name := re_crm_name e; ac_crm_ver := re_crm_ver e; ac_abi_hash := re_abi_hash e;
     ac_signature_hash := re_signature_hash e; ac_max_payload_size := re_max_payload_size e;
     ac_route_uid := re_route_uid e; ac_registered_at := re_registered_at e |}.

Definition to_tombstone (f : FullSyncTombstone) (now : Z) : RouteTombstone :=
  {| tb_name := ft_name f; tb_relay_id := ft_relay_id f; tb_removed_at := ft_removed_at f; tb_server_id := None;
     tb_observed_at := now |}.

Definition to_peer_route_entry (f : FullSyncRoute) : RouteEntry :=
  {| re_name := fr_name f; re_relay_id := fr_relay_id f; re_relay_url := fr_relay_url f; re_server_id := None;
     re_server_instance_id := None; re_ipc_address := None; re_crm_ns := fr_crm_ns f;
     re_crm_name := fr_crm_name f; re_crm_ver := fr_crm_ver f; re_abi_hash := fr_abi_hash f;
     re_signature_hash := fr_signature_hash f; re_max_payload_size := fr_max_payload_size f;
     re_route_uid := fr_route_uid f; re_locality := Peer; re_registered_at := fr_registered_at f |}.

Section sync.
Context (url_parse : str → option Url) (sha256_hex : bytes → str).

Definition stable_route_digest_hash (fields : list str) : str := sha256_hex (digest_preimage fields).
Definition route_entry_digest_hash (e : RouteEntry) : str := stable_route_digest_hash (active_fields e).
Definition tombstone_digest_hash (b : RouteTombstone) : str := stable_route_digest_hash (deleted_fields b).

Definition from_route_entry (e : RouteEntry) : FullSyncRoute :=
  {| fr_name := re_name e; fr_relay_id := re_relay_id e; fr_relay_url := re_relay_url e; fr_crm_ns := re_crm_ns e;
     fr_crm_name := re_crm_name e; fr_crm_ver := re_crm_ver e; fr_abi_hash := re_abi_hash e;
     fr_signature_hash := re_signature_hash e; fr_max_payload_size := re_max_payload_size e;
     fr_route_uid := re_route_uid e; fr_registered_at := re_registered_at e; fr_hash := route_entry_digest_hash e |}.
Definition from_tombstone (b : RouteTombstone) : FullSyncTombstone :=
  {| ft_name := tb_name b; ft_relay_id := tb_relay_id b; ft_removed_at := tb_removed_at b;
     ft_hash := tombstone_digest_hash b |}.
Definition from_internal (s : FullSync) : FullSyncSnapshot :=
  {| sn_routes := from_route_entry <$> fs_routes s; sn_tombstones := from_tombstone <$> fs_tombstones s;
     sn_peers := fs_peers s |}.

(** ** Validation *)

Definition valid_active_fields (s : ActiveState) : bool :=
  valid_route_name (ac_name s) && valid_relay_id (ac_relay_id s) && valid_relay_url url_parse (ac_relay_url s)
  && valid_crm_tag (ac_crm_ns s) (ac_crm_name s) (ac_crm_ver s)
  && is_ok (validate_contract_hash "abi_hash" (ac_abi_hash s))
  && is_ok (validate_contract_hash "signature_hash" (ac_signature_hash s))
  && (0 <? ac_max_payload_size s) && is_ok (validate_call_route_key "route_uid" (ac_route_uid s))
  && f64_is_finite (ac_registered_at s).
Definition valid_deleted_fields (name id : str) (removed_at : f64) : bool :=
  valid_route_name name && valid_relay_id id && f64_is_finite removed_at.

Definition valid_full_sync_route (r : FullSyncRoute) : bool :=
  valid_active_fields (active_state (to_peer_route_entry r)) && valid_route_digest_hash (fr_hash r).
Definition valid_full_sync_tombstone (r : FullSyncTombstone) : bool :=
  valid_deleted_fields (ft_name r) (ft_relay_id r) (ft_removed_at r) && valid_route_digest_hash (ft_hash r).

Fixpoint check_peers (l : list PeerSnapshot) : res FullSyncValidationError unit :=
  match l with
  | [] => Ok tt
  | p :: l =>
      guard_err (negb (valid_relay_id (ps_relay_id p)) || negb (valid_relay_url url_parse (ps_url p)))
        (InvalidPeer (ps_relay_id p)) ;?
      check_peers l
  end.

Fixpoint check_routes (l : list FullSyncRoute) : res FullSyncValidationError (list RouteEntry) :=
  match l with
  | [] => Ok []
  | r :: l =>
      guard_err (negb (valid_full_sync_route r)) (InvalidRoute (fr_name r) (fr_relay_id r)) ;?
      let e := to_peer_route_entry r in
      guard_err (negb (bool_decide (fr_hash r = route_entry_digest_hash e)))
        (InvalidRouteHash (fr_name r) (fr_relay_id r)) ;?
      let? rest := check_routes l in Ok (e :: rest)
  end.

Fixpoint check_tombstones (l : list FullSyncTombstone) (now : Z) : res FullSyncValidationError (list RouteTombstone) :=
  match l with
  | [] => Ok []
  | r :: l =>
      guard_err (negb (valid_full_sync_tombstone r)) (InvalidTombstone (ft_name r) (ft_relay_id r)) ;?
      let b := to_tombstone r now in
      guard_err (negb (bool_decide (ft_hash r = tombstone_digest_hash b)))
        (InvalidTombstoneHash (ft_name r) (ft_relay_id r)) ;?
      let? rest := check_tombstones l now in Ok (b :: rest)
  end.

(** [ValidatedFullSync::try_from]. *)
Definition validate_full_sync (e : FullSyncEnvelope) (now : Z) : res FullSyncValidationError FullSync :=
  guard_err (en_protocol_version e <? ROUTE_HASH_FULL_SYNC_VERSION)
    (RouteSnapshotTooOld (en_protocol_version e) ROUTE_HASH_FULL_SYNC_VERSION) ;?
  guard_err (negb (en_protocol_version e =? PROTOCOL_VERSION))
    (UnsupportedRouteSnapshotVersion (en_protocol_version e) PROTOCOL_VERSION) ;?
  check_peers (sn_peers (en_snapshot e)) ;?
  let? routes := check_routes (sn_routes (en_snapshot e)) in
  let? tombstones := check_tombstones (sn_tombstones (en_snapshot e)) now in
  Ok {| fs_routes := routes; fs_tombstones := tombstones; fs_peers := sn_peers (en_snapshot e) |}.

Fixpoint validate_digest_entries (l : list DigestEntry) : res PeerRouteStateError unit :=
  match l with
  | [] => Ok tt
  | d :: l =>
      guard_err (negb (valid_route_name (de_name d)) || negb (valid_relay_id (de_relay_id d))
                 || negb (valid_route_digest_hash (de_hash d))) (InvalidDigestEntry (de_name d) (de_relay_id d)) ;?
      validate_digest_entries l
  end.

Fixpoint validate_digest_diff_entries (sender : str) (l : list DigestDiffEntry)
    : res PeerRouteStateError (list ValidatedDigestDiffEntry) :=
  match l with
  | [] => Ok []
  | DiffActive s :: l =>
      guard_err (negb (bool_decide (ac_relay_id s = sender)) || negb (valid_active_fields s))
        (InvalidDigestDiff true (ac_name s) (ac_relay_id s)) ;?
      let? rest := validate_digest_diff_entries sender l in Ok (ValidActive (peer_entry s) :: rest)
  | DiffDeleted name id removed_at :: l =>
      guard_err (negb (bool_decide (id = sender)) || negb (valid_deleted_fields name id removed_at))
        (InvalidDigestDiff false name id) ;?
      let? rest := validate_digest_diff_entries sender l in Ok (ValidDeleted name id removed_at :: rest)
  end.

Definition validate_route_state_envelope (e : PeerEnvelope) (expected_sender : option str)
    : res PeerRouteStateError ValidatedRouteStateEnvelope :=
  guard_err (negb (pv_protocol_version e =? PROTOCOL_VERSION))
    (UnsupportedRouteStateProtocol (pv_protocol_version e) PROTOCOL_VERSION) ;?
  guard_err (negb (valid_relay_id (pv_sender e))) (InvalidSender (pv_sender e)) ;?
  guard_err (from_option (fun x => negb (bool_decide (pv_sender e = x))) false expected_sender)
    (InvalidSender (pv_sender e)) ;?
  match pv_message e with
  | RouteAnnounce s =>
      guard_err (negb (bool_decide (ac_relay_id s = pv_sender e)) || negb (valid_active_fields s))
        InvalidRouteAnnounce ;?
      Ok (VMessage e)
  | RouteWithdraw name id removed_at =>
      guard_err (negb (bool_decide (id = pv_sender e)) || negb (valid_deleted_fields name id removed_at))
        InvalidRouteWithdraw ;?
      Ok (VMessage e)
  | RelayLeave id =>
      guard_err (negb (bool_decide (id = pv_sender e)) || negb (valid_relay_id id)) InvalidRelayLeave ;?
      Ok (VMessage e)
  | DigestExchange digest => validate_digest_entries digest ;? Ok (VMessage e)
  | DigestDiff entries =>
      let? l := validate_digest_diff_entries (pv_sender e) entries in Ok (VDigestDiff l)
  | RelayJoin _ _ | Heartbeat _ _ | Unknown => Ok (VMessage e)
  end.

(** ** Digests *)

Definition route_digest (t : RouteTable) : gmap (str * str * bool) str :=
  list_to_map (((fun kv => ((kv.1.1, kv.1.2, true), tombstone_digest_hash kv.2)) <$> map_to_list (tombstones t))
               ++ ((fun kv => ((kv.1.1, kv.1.2, false), route_entry_digest_hash kv.2)) <$> map_to_list (routes t))).

Definition route_state_for_diff (t : RouteTable) (name id : str) (deleted : bool) : option DigestDiffEntry :=
  if deleted
  then (fun b => DiffDeleted (tb_name b) (tb_relay_id b) (tb_removed_at b)) <$> tombstones t !! (name, id)
  else (fun e => DiffActive (active_state e)) <$> routes t !! (name, id).
End sync.
