(* ===== verification/RouteInv.v ===== *)
(** The invariant of the route table: every route and tombstone is stored under its own
    key and is valid, no key has both, peers are stored under their own valid identity,
    and every peer route belongs to a known peer at that peer's URL, or to one that is
    gone.  Each operation of RouteTable.v preserves it. *)

From S2P Require Import Prelude.
From S2P Require Import Text.
From S2P Require Import Float64.
From S2P Require Import RouteTable.

Create HintDb routes discriminated.

Section inv.
Context (url_parse : str → option Url).
Implicit Types (t : RouteTable) (e : RouteEntry) (b : RouteTombstone) (k : str * str).
Notation valid_relay_url := (valid_relay_url url_parse).
Notation valid_route_entry := (valid_route_entry url_parse).

Record table_wf t : Prop := {
  wf_route k e : routes t !! k = Some e → k = route_key e ∧ valid_route_entry t e = true;
  wf_tombstone k b : tombstones t !! k = Some b → k = (tb_name b, tb_relay_id b) ∧ valid_tombstone b = true;
  wf_exclusive k e : routes t !! k = Some e → tombstones t !! k = None;
  wf_withdrawn k s : withdrawn_registrations t !! k = Some s →
    k = (sc_name s, relay_id t) ∧ is_Some (tombstones t !! k);
  wf_peer id p : peers t !! id = Some p →
    pe_relay_id p = id ∧ id ≠ relay_id t ∧ valid_relay_id id = true ∧ valid_relay_url (pe_url p) = true }.

(** The relays whose routes may outlive them. *)
Context (gone : str → Prop).

Definition owner_known (m : gmap str PeerInfo) e : Prop :=
  re_locality e = Peer →
  (∃ p, m !! re_relay_id e = Some p ∧ pe_url p = re_relay_url e) ∨ (m !! re_relay_id e = None ∧ gone (re_relay_id e)).
Definition owners_known t : Prop := ∀ k e, routes t !! k = Some e → owner_known (peers t) e.

(** ** What validity says *)

Lemma valid_entry_local t e :
  valid_route_entry t e = true → re_locality e = Local ↔ re_relay_id e = relay_id t.
Proof.
  unfold RouteTable.valid_route_entry. rewrite !andb_true_iff. intros [_ H].
  destruct (re_locality e); rewrite !andb_true_iff, !bool_decide_eq_true in H; naive_solver.
Qed.
Lemma valid_entry_finite t e : valid_route_entry t e = true → f64_is_finite (re_registered_at e) = true.
Proof. unfold RouteTable.valid_route_entry. rewrite !andb_true_iff. tauto. Qed.
Lemma valid_entry_url t e : valid_route_entry t e = true → valid_relay_url (re_relay_url e) = true.
Proof. unfold RouteTable.valid_route_entry. rewrite !andb_true_iff. tauto. Qed.
Lemma valid_tombstone_finite b : valid_tombstone b = true → f64_is_finite (tb_removed_at b) = true.
Proof. unfold valid_tombstone. rewrite !andb_true_iff. tauto. Qed.

(** A valid peer route at another valid URL is valid. *)
Lemma valid_with_url t e url :
  valid_route_entry t e = true → valid_relay_url url = true → valid_route_entry t (with_url e url) = true.
Proof. unfold RouteTable.valid_route_entry. rewrite !andb_true_iff. simpl. tauto. Qed.

(** ** Operations on routes *)

Lemma can_register_valid t e : can_register_route url_parse t e = true → valid_route_entry t e = true.
Proof. unfold can_register_route. rewrite andb_true_iff. tauto. Qed.
Lemma can_register_newer t e b :
  can_register_route url_parse t e = true → tombstones t !! route_key e = Some b →
  SFleb (re_registered_at e) (tb_removed_at b) = false.
Proof. unfold can_register_route. rewrite andb_true_iff. intros [_ H] Hb. rewrite Hb in H. by apply negb_true_iff. Qed.

(** The table after a registration that is granted. *)
Definition registered t e : RouteTable :=
  set_routes (set_withdrawn (set_tombstones t (delete (route_key e) (tombstones t)))
                (delete (route_key e) (withdrawn_registrations t)))
    (<[route_key e := e]> (routes t)).

Lemma register_prevalidated_ok t e :
  can_register_route url_parse t e = true → register_prevalidated_route url_parse t e = Ok (registered t e).
Proof. unfold register_prevalidated_route. by intros ->. Qed.
Lemma register_route_eq t e :
  register_route url_parse t e =
    if can_register_route url_parse t e then Ok (registered t e, true) else Ok (t, false).
Proof. unfold register_route. destruct (can_register_route _ t e) eqn:H; [|done]. by rewrite register_prevalidated_ok. Qed.

Lemma registered_wf t e : table_wf t → valid_route_entry t e = true → table_wf (registered t e).
Proof.
  intros [Hr Ht Hx Hw Hp] Hv. split; simpl.
  - intros k e' [[<- <-]|[? ?]]%lookup_insert_Some; [done|eauto].
  - intros k b [? ?]%lookup_delete_Some. eauto.
  - intros k e' [[<- <-]|[? ?]]%lookup_insert_Some; [by rewrite lookup_delete_eq|rewrite lookup_delete_ne by done; eauto].
  - intros k s [? Hk]%lookup_delete_Some. rewrite lookup_delete_ne by done. eauto.
  - done.
Qed.
Lemma registered_known t e : owners_known t → owner_known (peers t) e → owners_known (registered t e).
Proof. intros Ho He k e' Hk. simpl in *. apply lookup_insert_Some in Hk as [[<- <-]|[? ?]]; [done|eauto]. Qed.

(** A tombstone replaces the route of its key, or is refused and changes nothing. *)
Definition buried t b : RouteTable :=
  let k := (tb_name b, tb_relay_id b) in
  set_tombstones (set_routes t (delete k (routes t))) (<[k := b]> (tombstones t)).

Definition observed (now : Z) (server : option str) b : RouteTombstone :=
  {| tb_name := tb_name b; tb_relay_id := tb_relay_id b; tb_removed_at := tb_removed_at b; tb_server_id := server;
     tb_observed_at := now |}.

Lemma apply_tombstone_cases t b now :
  let k := (tb_name b, tb_relay_id b) in
  (apply_tombstone t b now = (t, false) ∧
     (valid_tombstone b = false ∨ outlives t k (tb_removed_at b) = true ∨
      ∃ x, tombstones t !! k = Some x ∧ SFleb (tb_removed_at b) (tb_removed_at x) = true)) ∨
  (valid_tombstone b = true ∧ outlives t k (tb_removed_at b) = false ∧
   (∀ x, tombstones t !! k = Some x → SFleb (tb_removed_at b) (tb_removed_at x) = false) ∧
   ∃ server, apply_tombstone t b now = (buried t (observed now server b), true) ∧
     (server = tb_server_id b ∨ ∃ x, tombstones t !! k = Some x ∧ server = tb_server_id x)).
Proof.
  intros k. unfold apply_tombstone. fold k.
  destruct (valid_tombstone b) eqn:Hv; simpl; [|eauto].
  destruct (outlives t k _) eqn:Ho; [eauto 6|].
  destruct (tombstones t !! k) as [x|] eqn:Hk; simpl.
  - destruct (SFleb _ _) eqn:Hl; [left; eauto 8|]. right. split_and!; [done..|by intros ? [= <-]|].
    destruct (tb_server_id b) eqn:Hs; eexists; (split; [reflexivity|]); eauto.
  - right. split_and!; [done..|]. eexists. split; [reflexivity|]. by left.
Qed.

Lemma observed_valid t b now server :
  table_wf t → valid_tombstone b = true →
  (server = tb_server_id b ∨ ∃ x, tombstones t !! (tb_name b, tb_relay_id b) = Some x ∧ server = tb_server_id x) →
  valid_tombstone (observed now server b) = true.
Proof.
  intros Hwf Hv [->|(x & Hx & ->)]; [done|].
  destruct (wf_tombstone t Hwf _ _ Hx) as [_ Hvx]. unfold valid_tombstone in *. simpl.
  rewrite !andb_true_iff in *. tauto.
Qed.

Lemma buried_wf t b : table_wf t → valid_tombstone b = true → table_wf (buried t b).
Proof.
  intros [Hr Ht Hx Hw Hp] Hv. split; simpl.
  - intros k e [? ?]%lookup_delete_Some. eauto.
  - intros k b' [[<- <-]|[? ?]]%lookup_insert_Some; eauto.
  - intros k e [? ?]%lookup_delete_Some. rewrite lookup_insert_ne by done. eauto.
  - intros k s Hk. destruct (Hw k s Hk) as [? ?]. split; [done|]. apply lookup_insert_is_Some'. tauto.
  - done.
Qed.
Lemma buried_known t b : owners_known t → owners_known (buried t b).
Proof. intros Ho k e Hk. simpl in *. apply lookup_delete_Some in Hk as [? ?]. eauto. Qed.

Lemma apply_tombstone_wf t b now : table_wf t → table_wf (apply_tombstone t b now).1.
Proof.
  intros Hwf. destruct (apply_tombstone_cases t b now) as [[-> _]|(Hv & _ & _ & s & -> & Hs)]; [done|].
  apply buried_wf; [done|]. by eapply observed_valid.
Qed.
Lemma apply_tombstone_known t b now : owners_known t → owners_known (apply_tombstone t b now).1.
Proof.
  intros Ho. destruct (apply_tombstone_cases t b now) as [[-> _]|(_ & _ & _ & s & -> & _)]; [done|].
  by apply buried_known.
Qed.

(** The guards of the withdrawals are those of [apply_tombstone]. *)
Lemma withdraw_with_table t b now : (withdraw_with t b now).1 = (apply_tombstone t b now).1.
Proof.
  unfold withdraw_with. destruct (valid_tombstone b) eqn:Hv; simpl.
  2: { unfold apply_tombstone. by rewrite Hv. }
  destruct (outlives t _ _) eqn:Ho.
  - unfold apply_tombstone. by rewrite Hv, Ho.
  - by destruct (apply_tombstone t b now).
Qed.
Lemma withdraw_with_removed t b now e :
  (withdraw_with t b now).2 = Some e →
  routes t !! (tb_name b, tb_relay_id b) = Some e ∧ is_Some (tombstones (withdraw_with t b now).1 !! (tb_name b, tb_relay_id b)).
Proof.
  unfold withdraw_with. destruct (valid_tombstone b); simpl; [|done]. destruct (outlives t _ _); [done|].
  destruct (apply_tombstone_cases t b now) as [[-> _]|(_ & _ & _ & s & -> & _)]; simpl; [done|].
  intros H. split; [done|]. rewrite lookup_insert_eq. eauto.
Qed.

(** ** The other operations *)

Lemma timestamp_wf t f : table_wf t → table_wf (set_timestamp t f).
Proof. by intros [Hr Ht Hx Hw Hp]. Qed.

Lemma forget_routes_wf t (P : str * str * RouteEntry → Prop) `{∀ x, Decision (P x)} :
  table_wf t → table_wf (set_routes t (filter P (routes t))).
Proof.
  intros [Hr Ht Hx Hw Hp]. split; simpl; [intros k e [? _]%map_lookup_filter_Some; eauto|done| |done|done].
  intros k e [? _]%map_lookup_filter_Some. eauto.
Qed.
Lemma forget_routes_known t (P : str * str * RouteEntry → Prop) `{∀ x, Decision (P x)} :
  owners_known t → owners_known (set_routes t (filter P (routes t))).
Proof. intros Ho k e Hk. simpl in *. apply map_lookup_filter_Some in Hk as [? _]. eauto. Qed.

Lemma gc_wf t now retention : table_wf t → table_wf (gc_tombstones t now retention).1.
Proof.
  intros [Hr Ht Hx Hw Hp]. unfold gc_tombstones. split; simpl; [done| | | |done].
  - intros k b [? _]%map_lookup_filter_Some. eauto.
  - intros k e ?. apply map_lookup_filter_None_2. eauto.
  - intros k s [Hk Hg]%map_lookup_filter_Some. destruct (Hw k s Hk) as [? [b Hb]]. split; [done|].
    exists b. by apply map_lookup_filter_Some_2.
Qed.

Lemma update_peer_wf t id f :
  (∀ p, pe_relay_id (f p) = pe_relay_id p ∧ pe_url (f p) = pe_url p) → table_wf t → table_wf (update_peer t id f).
Proof.
  intros Hf [Hr Ht Hx Hw Hp]. split; simpl; [done..|]. intros i p Hi.
  destruct (decide (i = id)) as [->|Hne].
  - rewrite lookup_alter_eq in Hi. apply fmap_Some in Hi as (q & Hq & ->).
    destruct (Hf q) as [-> ->]. eauto.
  - rewrite lookup_alter_ne in Hi by done. eauto.
Qed.
Lemma update_peer_known t id f :
  (∀ p, pe_relay_id (f p) = pe_relay_id p ∧ pe_url (f p) = pe_url p) → owners_known t → owners_known (update_peer t id f).
Proof.
  intros Hf Ho k e Hk Hl. simpl. destruct (decide (re_relay_id e = id)) as [<-|Hne].
  - rewrite lookup_alter_eq. destruct (Ho k e Hk Hl) as [(p & Hp & Hu)|[Hn Hg]]; [left|right; by rewrite Hn].
    exists (f p). rewrite Hp. split; [done|]. destruct (Hf p) as [_ ->]. done.
  - rewrite lookup_alter_ne by done. by apply (Ho k e).
Qed.

(** A peer that joins or is merged: it is recorded and its routes follow its URL. *)
Definition joined t (p : PeerInfo) : RouteTable :=
  sync_peer_route_urls (set_peers t (<[pe_relay_id p := p]> (peers t))) (pe_relay_id p) (pe_url p).
Definition at_url (id url : str) e : RouteEntry :=
  if bool_decide (re_locality e = Peer) && bool_decide (re_relay_id e = id) then with_url e url else e.

Lemma joined_routes t p k : routes (joined t p) !! k = at_url (pe_relay_id p) (pe_url p) <$> routes t !! k.
Proof. simpl. by rewrite lookup_fmap. Qed.
Lemma at_url_key id url e : route_key (at_url id url e) = route_key e.
Proof. unfold at_url. by destruct (_ && _). Qed.

Lemma joined_wf t p :
  table_wf t → pe_relay_id p ≠ relay_id t → valid_relay_id (pe_relay_id p) = true →
  valid_relay_url (pe_url p) = true → table_wf (joined t p).
Proof.
  intros [Hr Ht Hx Hw Hp] Hne Hid Hurl. split.
  - intros k e. rewrite joined_routes. intros (e' & Hk & ->)%fmap_Some.
    destruct (Hr k e' Hk) as [-> Hv]. rewrite at_url_key. split; [done|].
    unfold at_url. destruct (_ && _); [by apply valid_with_url|done].
  - done.
  - intros k e. rewrite joined_routes. intros (e' & Hk & ->)%fmap_Some. eauto.
  - done.
  - simpl. intros i q [[<- <-]|[? ?]]%lookup_insert_Some; [done|eauto].
Qed.

(** The routes of the other peers stay known; those of this one become so. *)
Lemma joined_owner t p e :
  re_relay_id e = pe_relay_id p ∨ owner_known (peers t) e →
  owner_known (peers (joined t p)) (at_url (pe_relay_id p) (pe_url p) e).
Proof.
  intros Ho. unfold at_url. destruct (decide (re_locality e = Peer)) as [Hl|Hl].
  - rewrite (bool_decide_eq_true_2 _ Hl). simpl. destruct (decide (re_relay_id e = pe_relay_id p)) as [Heq|Hne].
    + rewrite bool_decide_eq_true_2 by done. intros _. left. exists p. simpl. by rewrite Heq, lookup_insert_eq.
    + rewrite bool_decide_eq_false_2 by done. intros _. simpl. rewrite lookup_insert_ne by done.
      destruct Ho as [?|Ho]; [done|]. by apply Ho.
  - rewrite (bool_decide_eq_false_2 _ Hl). simpl. by intros ?.
Qed.
Lemma joined_known t p : owners_known t → owners_known (joined t p).
Proof.
  intros Ho k e. rewrite joined_routes. intros (e' & Hk & ->)%fmap_Some. apply joined_owner. right. eauto.
Qed.

(** A peer that is dropped leaves its routes without owner. *)
Lemma unregister_peer_known t id : gone id → owners_known t → owners_known (unregister_peer t id).
Proof.
  intros Hg Ho k e Hk Hl. simpl. destruct (decide (re_relay_id e = id)) as [<-|Hne]; [right; by rewrite lookup_delete_eq|].
  rewrite lookup_delete_ne by done. by apply (Ho k e).
Qed.
End inv.
