(* ===== verification/Locked.v ===== *)
(** Tasks that share a state behind a lock.  A task is a sequence of locked sections: each
    finds the state and the time, and leaves a new state and what is still to do.  Between
    two sections of a task any number of sections of others may run. *)

From S2P Require Import Prelude.

(** The clocks a section reads: milliseconds of the wall, nanoseconds that only grow. *)
Record Clock := { ck_wall : Z; ck_now : Z }.

Section prog.
Context {S : Type}.

Inductive Prog (A : Type) :=
| Done (a : A)
| Locked (f : Clock → S → res Empty_set (S * Prog A)).
Arguments Done {A} _.
Arguments Locked {A} _.

Lemma prog_ind_sections {A} (P : Prog A → Prop) :
  (∀ a, P (Done a)) →
  (∀ f, (∀ c s s' p, f c s = Ok (s', p) → P p) → P (Locked f)) →
  ∀ p, P p.
Proof.
  intros HD HL. fix IH 1. intros [a|f]; [apply HD|]. apply HL. intros c s s' p Hf.
  pose proof (match f c s as r return (match r with Ok x => P x.2 | _ => True end) with
              | Ok x => match x as y return P y.2 with (_, q) => IH q end
              | Err _ => I
              | Panic => I
              end) as Hq.
  rewrite Hf in Hq. exact Hq.
Qed.

Fixpoint prog_bind {A B} (p : Prog A) (k : A → Prog B) : Prog B :=
  match p with
  | Done a => k a
  | Locked f => Locked (fun c s =>
      match f c s with Ok (s, p) => Ok (s, prog_bind p k) | Err e => Err e | Panic => Panic end)
  end.

(** A section that reads, and one that writes. *)
Definition reads {A} (g : S → A) : Prog A := Locked (fun _ s => Ok (s, Done (g s))).
Definition writes {A} (g : Clock → S → res Empty_set (S * A)) : Prog A :=
  Locked (fun c s => let? '(s, a) := g c s in Ok (s, Done a)).

(** A task that nothing interrupts, at one time. *)
Fixpoint alone {A} (c : Clock) (p : Prog A) (s : S) : res Empty_set (S * A) :=
  match p with
  | Done a => Ok (s, a)
  | Locked f => match f c s with Ok (s, p) => alone c p s | Err e => Err e | Panic => Panic end
  end.

Lemma alone_bind {A B} c (p : Prog A) (k : A → Prog B) s :
  alone c (prog_bind p k) s = let? '(s, a) := alone c p s in alone c (k a) s.
Proof.
  revert s. induction p as [a|f IH] using prog_ind_sections; intros s; [done|]. cbn.
  destruct (f c s) as [[s' p]|e|] eqn:Hf; [|done..]. by eapply IH.
Qed.

(** ** What a task does to the state *)

(** From a state that satisfies [inv] every section succeeds, and relates the states before
    and after by [R] of its time. *)
Inductive conducts (inv : S → Prop) (R : Clock → S → S → Prop) {A} : Prog A → Prop :=
| conducts_done a : conducts inv R (Done a)
| conducts_locked f :
    (∀ c s, inv s → ∃ s' p, f c s = Ok (s', p) ∧ R c s s' ∧ conducts inv R p) → conducts inv R (Locked f).

Section conduct.
Context (inv : S → Prop) (R : Clock → S → S → Prop).
Notation conducts := (conducts inv R).

Lemma conducts_bind {A B} (p : Prog A) (k : A → Prog B) : conducts p → (∀ a, conducts (k a)) → conducts (prog_bind p k).
Proof.
  intros Hp Hk. revert Hp. induction p as [a|f IH] using prog_ind_sections; cbn; intros Hp; [apply Hk|]. inv Hp as [|? Hf].
  apply conducts_locked. intros c s Hs. destruct (Hf c s Hs) as (s' & p & Heq & HR & Hp). rewrite Heq. eauto 6.
Qed.

Lemma conducts_reads {A} (g : S → A) : (∀ c s, inv s → R c s s) → conducts (reads g).
Proof. intros HR. apply conducts_locked. intros c s Hs. eexists _, _. split_and!; [done|auto|constructor]. Qed.

Lemma conducts_writes {A} (g : Clock → S → res Empty_set (S * A)) :
  (∀ c s, inv s → ∃ s' a, g c s = Ok (s', a) ∧ R c s s') → conducts (writes g).
Proof.
  intros Hg. apply conducts_locked. intros c s Hs. destruct (Hg c s Hs) as (s' & a & -> & HR).
  eexists _, _. split_and!; [done|done|constructor].
Qed.
End conduct.

(** ** Tasks in flight *)

Context {E A : Type} (program : E → Prog A).

(** The state, and under its number each task that has begun: what started it, and what it
    still has to do. *)
Record World := { w_state : S; w_tasks : gmap nat (E * Prog A) }.

Inductive Step := Arrive (i : nat) (ev : E) | Proceed (i : nat) (c : Clock).

Definition world_step (w : World) (s : Step) : res Empty_set World :=
  match s with
  | Arrive i ev =>
      Ok (match w_tasks w !! i with
          | None => {| w_state := w_state w; w_tasks := <[i := (ev, program ev)]> (w_tasks w) |}
          | Some _ => w
          end)
  | Proceed i c =>
      match w_tasks w !! i with
      | None => Ok w
      | Some (_, Done _) => Ok {| w_state := w_state w; w_tasks := delete i (w_tasks w) |}
      | Some (ev, Locked f) =>
          let? '(s, p) := f c (w_state w) in Ok {| w_state := s; w_tasks := <[i := (ev, p)]> (w_tasks w) |}
      end
  end.

Fixpoint world_run (w : World) (l : list Step) : res Empty_set World :=
  match l with
  | [] => Ok w
  | s :: l => let? w := world_step w s in world_run w l
  end.

Lemma world_run_app w w1 l l' : world_run w l = Ok w1 → world_run w (l ++ l') = world_run w1 l'.
Proof.
  revert w. induction l as [|s l IH]; intros w; cbn; [by intros [= ->]|]. intros (w2 & -> & H)%bind_ok. cbn. auto.
Qed.

Lemma arrive_runs w i ev l :
  w_tasks w !! i = None →
  world_run w (Arrive i ev :: l) = world_run {| w_state := w_state w; w_tasks := <[i := (ev, program ev)]> (w_tasks w) |} l.
Proof. intros Hi. cbn. by rewrite Hi. Qed.
Lemma proceed_runs w i c ev f s p l :
  w_tasks w !! i = Some (ev, Locked f) → f c (w_state w) = Ok (s, p) →
  world_run w (Proceed i c :: l) = world_run {| w_state := s; w_tasks := <[i := (ev, p)]> (w_tasks w) |} l.
Proof. intros Hi Hf. cbn. by rewrite Hi, Hf. Qed.

(** ** Invariants of runs *)

Section runs.
Context (inv : S → Prop) (R : E → Clock → S → S → Prop).
Hypothesis Hinv : ∀ ev c s s', inv s → R ev c s s' → inv s'.
Hypothesis Hprog : ∀ ev, conducts inv (R ev) (program ev).

Record world_inv (w : World) : Prop := {
  wi_state : inv (w_state w);
  wi_task i ev p : w_tasks w !! i = Some (ev, p) → conducts inv (R ev) p }.

(** The section a step runs, of the task [ev]. *)
Definition section_of (w : World) (s : Step) (ev : E) (c : Clock) : Prop :=
  ∃ i p, s = Proceed i c ∧ w_tasks w !! i = Some (ev, p).

Lemma world_step_ok w s : world_inv w →
  ∃ w', world_step w s = Ok w' ∧ world_inv w' ∧
    (w_state w' = w_state w ∨ ∃ ev c, section_of w s ev c ∧ R ev c (w_state w) (w_state w')).
Proof using Hinv Hprog.
  intros [Hs Ht]. destruct s as [i ev|i c]; cbn in *.
  - eexists. split; [done|]. destruct (w_tasks w !! i) eqn:Hi; [split; [by split|by left]|]. split; [|by left]. split; [done|]. cbn.
    intros j ev' p [[<- [= <- <-]]|[_ ?]]%lookup_insert_Some; [by apply Hprog|eauto].
  - destruct (w_tasks w !! i) as [[ev [a|f]]|] eqn:Hi.
    + eexists. split; [done|]. split; [|by left]. split; [done|]. cbn. intros j ev' p [_ ?]%lookup_delete_Some. eauto.
    + pose proof (Ht _ _ _ Hi) as Hp. inv Hp as [|? Hl]. destruct (Hl c (w_state w) Hs) as (s' & p & -> & HR & Hp). cbn.
      eexists. split; [done|]. split; [|right; exists ev, c; split; [by exists i, (Locked f)|done]]. split; [by eapply Hinv|]. cbn.
      intros j ev' p' [[<- [= <- <-]]|[_ ?]]%lookup_insert_Some; [done|eauto].
    + eexists. split; [done|]. split; [by split|by left].
Qed.

Lemma world_run_ok l w : world_inv w → ∃ w', world_run w l = Ok w' ∧ world_inv w'.
Proof using Hinv Hprog.
  revert w. induction l as [|s l IH]; intros w Hw; cbn; [by exists w|].
  destruct (world_step_ok w s Hw) as (w1 & -> & H1 & _). cbn. auto.
Qed.

(** What starts the task of number [i] in a run: it was in flight before, or arrives. *)
Definition present (w : World) (l : list Step) (i : nat) (ev : E) : Prop :=
  (∃ p, w_tasks w !! i = Some (ev, p)) ∨ Arrive i ev ∈ l.

Lemma present_step w s w1 l i ev : world_step w s = Ok w1 → present w1 l i ev → present w (s :: l) i ev.
Proof using Type.
  intros Hs [(p & Hi)|Hi]; [|right; by right]. destruct s as [j ev'|j c]; cbn in Hs.
  - injection Hs as <-. destruct (w_tasks w !! j) eqn:Hj; [left; eauto|]. cbn in Hi.
    apply lookup_insert_Some in Hi as [[<- [= <- <-]]|[_ ?]]; [right; by left|left; eauto].
  - left. destruct (w_tasks w !! j) as [[ev' [a|f]]|] eqn:Hj.
    + injection Hs as <-. cbn in Hi. apply lookup_delete_Some in Hi as [_ ?]. eauto.
    + apply bind_ok in Hs as ([s' p'] & _ & [= <-]). cbn in Hi. apply lookup_insert_Some in Hi as [[<- [= <- <-]]|[_ ?]]; eauto.
    + injection Hs as <-. eauto.
Qed.

(** What every section of a run keeps holds throughout it. *)
Lemma world_run_keeps (K : S → Prop) l w w' :
  world_inv w → world_run w l = Ok w' →
  (∀ ev i c s s', Proceed i c ∈ l → present w l i ev → inv s → R ev c s s' → K s → K s') →
  K (w_state w) → K (w_state w').
Proof using Hinv Hprog.
  revert w. induction l as [|s l IH]; intros w Hw Hrun HK Hk; cbn in Hrun; [by injection Hrun as ->|].
  destruct (world_step_ok w s Hw) as (w1 & H1 & Hw1 & HR). rewrite H1 in Hrun. cbn in Hrun. apply (IH w1 Hw1 Hrun).
  - intros ev i c s1 s2 Hi Hp. apply (HK ev i c); [by right|by eapply present_step].
  - destruct HR as [->|(ev & c & (i & p & -> & Hi) & HR)]; [done|]. eapply (HK ev i c); [by left|left; eauto|apply Hw|done|done].
Qed.
End runs.
End prog.

Arguments Prog : clear implicits.
Arguments Done {S A} _.
Arguments Locked {S A} _.
Arguments World : clear implicits.
Arguments Step : clear implicits.
Arguments Arrive {E} _ _.
Arguments Proceed {E} _ _.

#[global] Arguments prog_bind {S A B} p k : simpl never.
