(* ===== verification/Mesh.v ===== *)
(** The gossip handlers of the relay mesh (c2-http, relay/peer_handlers.rs), the peer
    part of the route authority (relay/authority.rs) and the periodic tasks that change
    the table (relay/background.rs).  A handler is a sequence of sections under the lock of
    the table, as the code takes and releases it, and ends with its answer; sections of
    different handlers interleave.  HTTP and JSON are not modelled: a handler takes the
    decoded envelope. *)

From S2P Require Import Prelude.
From S2P Require Import Locked.
From S2P Require Import Text.
From S2P Require Import Float64.
From S2P Require Import RouteTable.
From S2P Require Import RouteSync.

Inductive ControlError :=
| InvalidName
| InvalidServerId
| InvalidServerInstanceId
| InvalidAddress
| ContractMismatch
| AddressMismatch (existing_address : str)
| DuplicateRoute (existing_address : str)
| OwnerMismatch
| NotFound.

(** What a handler answers. *)
Inductive MeshReply :=
| StatusOk
| BadRequest
| Ignored
| SelfJoin
| SnapshotReply (e : FullSyncEnvelope)
| EnvelopeReply (e : PeerEnvelope)
| NoReply.

Notation Task := (Prog RouteTable).

(** A section that may refuse, and then leaves the table alone. *)
Definition control_section (g : Clock → RouteTable → res ControlError RouteTable) : Task (res ControlError unit) :=
  writes (fun c t => match g c t with Ok t => Ok (t, Ok tt) | Err e => Ok (t, Err e) | Panic => Panic end).

(** [check?], before any lock is taken. *)
Definition checked (m : res ControlError unit) (k : Task (res ControlError unit)) : Task (res ControlError unit) :=
  match m with Ok _ => k | r => Done r end.

Section mesh.
Context (url_parse : str → option Url) (sha256_hex : bytes → str).
(** The identity of this relay. *)
Context (me : str).
Implicit Types (t : RouteTable) (e : RouteEntry) (env : PeerEnvelope).

(** ** The authority over peers' routes *)

Definition check_name (name : str) : res ControlError unit := guard_err (negb (valid_route_name name)) InvalidName.
Definition check_relay (id : str) : res ControlError unit := guard_err (negb (valid_relay_id id)) OwnerMismatch.
Definition check_tag e : res ControlError unit :=
  guard_err (negb (valid_crm_tag (re_crm_ns e) (re_crm_name e) (re_crm_ver e))) ContractMismatch.
Definition check_hash (field : string) (hash : str) : res ControlError unit :=
  guard_err (negb (is_ok (validate_contract_hash field hash))) ContractMismatch.

Definition trusted_peer_owner (sender id : str) : Task bool :=
  if bool_decide (sender = id) && negb (bool_decide (sender = me)) then reads (fun t => peer_is_alive t sender)
  else Done false.

(** The entry as a peer's: the peer's known URL, no private field. *)
Definition scrub e (url : str) : RouteEntry := peer_entry (active_state (with_url e url)).

Definition announce_checks (sender : str) e : res ControlError unit :=
  check_name (re_name e) ;?
  check_relay sender ;?
  check_relay (re_relay_id e) ;?
  check_tag e ;?
  check_hash "abi_hash" (re_abi_hash e) ;?
  check_hash "signature_hash" (re_signature_hash e) ;?
  guard_err (negb (f64_is_finite (re_registered_at e))) ContractMismatch.

(** What [announce_peer] does while it holds the table. *)
Definition announce_write t e : res ControlError RouteTable :=
  guard_err (bool_decide (re_relay_id e = relay_id t)) OwnerMismatch ;?
  match peers t !! re_relay_id e with
  | None => Err OwnerMismatch
  | Some p =>
      match register_route url_parse t (scrub e (pe_url p)) with
      | Ok (t, _) => Ok t
      | _ => Panic
      end
  end.

Definition announce_peer (sender : str) e : Task (res ControlError unit) :=
  checked (announce_checks sender e)
    (prog_bind (trusted_peer_owner sender (re_relay_id e)) (fun trusted =>
       if negb trusted then Done (Err OwnerMismatch) else control_section (fun _ t => announce_write t e))).

Definition withdraw_peer (sender name id : str) (removed_at : f64) : Task (res ControlError unit) :=
  checked (check_name name ;? check_relay sender ;? check_relay id)
    (prog_bind (trusted_peer_owner sender id) (fun trusted =>
       if negb trusted then Done (Err OwnerMismatch)
       else if bool_decide (id = me) then Done (Err OwnerMismatch)
       else control_section (fun c t => Ok (unregister_route_with_tombstone t name id removed_at (ck_now c)).1))).

Definition apply_digest_diff (sender : str) (d : ValidatedDigestDiffEntry) : Task (res ControlError unit) :=
  match d with
  | ValidActive e => announce_peer sender e
  | ValidDeleted name id removed_at => withdraw_peer sender name id removed_at
  end.

Definition remove_peer_routes (id : str) : Task unit :=
  if negb (valid_relay_id id) || bool_decide (id = me) then Done tt
  else writes (fun _ t => Ok ((remove_routes_by_relay t id).1, tt)).

(** [let _ = authority.apply_digest_diff(...)] for each entry. *)
Fixpoint apply_diffs (sender : str) (l : list ValidatedDigestDiffEntry) : Task unit :=
  match l with
  | [] => Done tt
  | d :: l => prog_bind (apply_digest_diff sender d) (fun _ => apply_diffs sender l)
  end.

(** ** The authority over local routes: what it does to the table *)

Record LocalRouteOwner := { lo_name : str; lo_server_id : str; lo_server_instance_id : str; lo_address : str }.
Record AttestedRouteContract := {
  at_route_uid : str; at_crm_ns : str; at_crm_name : str; at_crm_ver : str; at_abi_hash : str;
  at_signature_hash : str; at_max_payload_size : Z }.

Definition local_entry t (url : str) (o : LocalRouteOwner) (c : AttestedRouteContract) (registered_at : f64) : RouteEntry :=
  {| re_name := lo_name o; re_relay_id := relay_id t; re_relay_url := url; re_server_id := Some (lo_server_id o);
     re_server_instance_id := Some (lo_server_instance_id o); re_ipc_address := Some (lo_address o);
     re_crm_ns := at_crm_ns c; re_crm_name := at_crm_name c; re_crm_ver := at_crm_ver c;
     re_abi_hash := at_abi_hash c; re_signature_hash := at_signature_hash c;
     re_max_payload_size := at_max_payload_size c; re_route_uid := at_route_uid c; re_locality := Local;
     re_registered_at := registered_at |}.

(** The new entry carries the next timestamp, which is spent even when the entry is
    refused. *)
Definition stamp_local t (url : str) (o : LocalRouteOwner) (c : AttestedRouteContract) (wall : Z)
    : RouteTable * RouteEntry :=
  let '(t, registered_at) := next_local_timestamp t wall in (t, local_entry t url o c registered_at).

Definition commit_local t (url : str) (o : LocalRouteOwner) (c : AttestedRouteContract) (wall : Z)
    : res Empty_set (RouteTable * option RouteEntry) :=
  let '(t, e) := stamp_local t url o c wall in
  if negb (can_register_route url_parse t e) then Ok (t, None)
  else let? t := register_prevalidated_route url_parse t e in Ok (t, Some e).

Inductive RegistrationWithdrawal :=
| Removed (e : RouteEntry) (removed_at : f64)
| AlreadyRemoved
| Superseded
| WithdrawalNotFound.

(** [unregister_registration] behind its argument checks. *)
Definition withdraw_registration t (s : RelayRegistrationScope) (wall now : Z) : RouteTable * RegistrationWithdrawal :=
  match local_route t (sc_name s) with
  | None => (t, if registration_already_withdrawn t s then AlreadyRemoved else WithdrawalNotFound)
  | Some x =>
      if negb (bool_decide (re_server_id x = Some (sc_server_id s)))
         || negb (bool_decide (re_server_instance_id x = Some (sc_server_instance_id s)))
         || negb (bool_decide (re_route_uid x = sc_route_uid s))
      then (t, Superseded)
      else
        let '(t, removed, removed_at) := unregister_local_route_if_matches t x wall now in
        match removed with
        | None => (t, Superseded)
        | Some e => (record_registration_withdrawal t s, Removed e removed_at)
        end
  end.

Definition check_scope (s : RelayRegistrationScope) : res ControlError unit :=
  check_name (sc_name s) ;?
  guard_err (negb (valid_server_id (sc_server_id s))) InvalidServerId ;?
  guard_err (negb (valid_server_instance_id (sc_server_instance_id s))) InvalidServerInstanceId ;?
  guard_err (negb (valid_route_name (sc_route_uid s))) ContractMismatch.

Definition unregister_registration t (s : RelayRegistrationScope) (wall now : Z)
    : RouteTable * res ControlError RegistrationWithdrawal :=
  match check_scope s with
  | Ok _ => let '(t, r) := withdraw_registration t s wall now in (t, Ok r)
  | Err e => (t, Err e)
  | Panic => (t, Panic)
  end.

Inductive UnregisterLocalResult :=
| Unregistered (e : RouteEntry) (removed_at : f64)
| AlreadyUnregistered.

Definition check_owner (name server : str) : res ControlError unit :=
  check_name name ;?
  guard_err (negb (valid_server_id server)) InvalidServerId.

Definition unregister_local t (name server : str) (wall now : Z)
    : RouteTable * res ControlError UnregisterLocalResult :=
  match check_owner name server with
  | Ok _ =>
      match local_route t name with
      | None => (t, if local_tombstone_matches_server t name server then Ok AlreadyUnregistered else Err NotFound)
      | Some x =>
          if negb (bool_decide (re_server_id x = Some server)) then (t, Err OwnerMismatch)
          else
            let '(t, removed, removed_at) := unregister_local_route_with_tombstone t name server wall now in
            match removed with
            | None => (t, Err NotFound)
            | Some e => (t, Ok (Unregistered e removed_at))
            end
      end
  | Err e => (t, Err e)
  | Panic => (t, Panic)
  end.

(** ** The handlers *)

Definition trusted_peer (sender : str) : Task bool :=
  if negb (bool_decide (sender = me)) then reads (fun t => peer_is_alive t sender) else Done false.
Definition known_peer (sender : str) : Task bool :=
  if negb (bool_decide (sender = me)) then reads (fun t => has_peer t sender) else Done false.
Definition current_version env : bool := pv_protocol_version env =? PROTOCOL_VERSION.

(** [url]: the relay's own advertised URL. *)
Definition current_full_sync_envelope (url : str) : Task FullSyncEnvelope :=
  prog_bind (reads full_snapshot) (fun s =>
  let tombs := filter (fun b => tb_relay_id b ≠ []) (fs_tombstones s) in
  prog_bind
    (if existsb (fun p => bool_decide (ps_relay_id p = me)) (fs_peers s) then Done (fs_peers s)
     else prog_bind (reads local_route_count) (fun n =>
       Done (fs_peers s ++ [{| ps_relay_id := me; ps_url := url; ps_route_count := n; ps_status := Alive |}]))) (fun peers =>
  Done {| en_protocol_version := PROTOCOL_VERSION;
          en_snapshot := from_internal sha256_hex {| fs_routes := fs_routes s; fs_tombstones := tombs; fs_peers := peers |} |})).

Definition handle_peer_announce env : Task MeshReply :=
  if negb (current_version env) then Done StatusOk
  else
    match validate_route_state_envelope url_parse env None with
    | Ok (VMessage env) =>
        match pv_message env with
        | RouteAnnounce s => prog_bind (announce_peer (pv_sender env) (peer_entry s)) (fun _ => Done StatusOk)
        | RouteWithdraw name id removed_at => prog_bind (withdraw_peer (pv_sender env) name id removed_at) (fun _ => Done StatusOk)
        | _ => Done StatusOk
        end
    | _ => Done StatusOk
    end.

Definition handle_peer_join env (url : str) : Task MeshReply :=
  if negb (current_version env) then Done Ignored
  else
    match pv_message env with
    | RelayJoin id peer_url =>
        if negb (bool_decide (id = pv_sender env)) then Done Ignored
        else if negb (valid_relay_id id) || negb (valid_relay_url url_parse peer_url) then Done Ignored
        else if bool_decide (id = me) then Done SelfJoin
        else
          prog_bind (writes (fun c t => Ok (record_peer_join url_parse t id peer_url (ck_now c)))) (fun joined : bool =>
          if joined then prog_bind (current_full_sync_envelope url) (fun sync => Done (SnapshotReply sync)) else Done Ignored)
    | _ => Done BadRequest
    end.

Definition handle_peer_sync (url : str) : Task MeshReply :=
  prog_bind (current_full_sync_envelope url) (fun sync => Done (SnapshotReply sync)).

Definition beat (now route_count : Z) (p : PeerInfo) : PeerInfo :=
  {| pe_relay_id := pe_relay_id p; pe_url := pe_url p; pe_route_count := route_count; pe_last_heartbeat := now;
     pe_status := match pe_status p with Dead | Suspect => Alive | s => s end |}.

Definition handle_peer_heartbeat env : Task MeshReply :=
  if negb (current_version env) then Done StatusOk
  else
    match validate_route_state_envelope url_parse env None with
    | Ok (VMessage env) =>
        match pv_message env with
        | Heartbeat id route_count =>
            if negb (valid_relay_id (pv_sender env)) || negb (valid_relay_id id) || negb (bool_decide (pv_sender env = id))
            then Done StatusOk
            else
              prog_bind (known_peer (pv_sender env)) (fun known =>
              if negb known then Done StatusOk
              else writes (fun c t => Ok (update_peer t id (beat (ck_now c) route_count), StatusOk)))
        | _ => Done StatusOk
        end
    | _ => Done StatusOk
    end.

(** The last section of a leave. *)
Definition drop_peer (id : str) : Task MeshReply := writes (fun _ t => Ok (unregister_peer t id, StatusOk)).

Definition handle_peer_leave env : Task MeshReply :=
  if negb (current_version env) then Done StatusOk
  else
    match validate_route_state_envelope url_parse env None with
    | Ok (VMessage env) =>
        match pv_message env with
        | RelayLeave id =>
            if negb (valid_relay_id (pv_sender env)) || negb (valid_relay_id id) || negb (bool_decide (pv_sender env = id))
            then Done StatusOk
            else
              prog_bind (trusted_peer (pv_sender env)) (fun trusted =>
              if negb trusted then Done StatusOk
              else prog_bind (remove_peer_routes id) (fun _ => drop_peer id))
        | _ => Done StatusOk
        end
    | _ => Done StatusOk
    end.

(** Our own routes the peer does not have, or has differently: of the digest [l] read
    before, each state is read when it is reached. *)
Fixpoint own_differences (peer_map : gmap (str * str * bool) str) (l : list (str * str * bool * str)) : Task (list DigestDiffEntry) :=
  match l with
  | [] => Done []
  | (name, id, deleted, hash) :: l =>
      if negb (bool_decide (id = me)) || bool_decide (peer_map !! (name, id, deleted) = Some hash)
      then own_differences peer_map l
      else
        prog_bind (reads (fun t => route_state_for_diff t name id deleted)) (fun x =>
        prog_bind (own_differences peer_map l) (fun rest => Done (option_list x ++ rest)))
  end.

(** The peer still has routes of ours that are gone. *)
Fixpoint missing_tombstones (l : list DigestEntry) : Task (list DigestDiffEntry) :=
  match l with
  | [] => Done []
  | d :: l =>
      if bool_decide (de_relay_id d = me) && negb (de_deleted d) then
        prog_bind (reads (fun t => route_state_for_diff t (de_name d) (de_relay_id d) false)) (fun x =>
        match x with
        | Some _ => missing_tombstones l
        | None =>
            prog_bind (writes (fun c t => Ok (authoritative_missing_tombstone t (de_name d) (de_relay_id d) (ck_wall c) (ck_now c))))
              (fun b =>
            prog_bind (missing_tombstones l) (fun rest =>
            Done (match b with
                  | Some b => DiffDeleted (tb_name b) (tb_relay_id b) (tb_removed_at b) :: rest
                  | None => rest
                  end)))
        end)
      else missing_tombstones l
  end.

(** Later entries of a digest replace earlier ones. *)
Definition digest_map (l : list DigestEntry) : gmap (str * str * bool) str :=
  foldl (fun m d => <[(de_name d, de_relay_id d, de_deleted d) := de_hash d]> m) ∅ l.

Definition handle_peer_digest env : Task MeshReply :=
  if negb (current_version env) || negb (valid_relay_id (pv_sender env)) then Done StatusOk
  else
    prog_bind (trusted_peer (pv_sender env)) (fun trusted =>
    if negb trusted then Done StatusOk
    else
      match validate_route_state_envelope url_parse env (Some (pv_sender env)) with
      | Ok (VMessage {| pv_message := DigestExchange digest |}) =>
          prog_bind (reads (route_digest sha256_hex)) (fun ours =>
          prog_bind (own_differences (digest_map digest) (map_to_list ours)) (fun own =>
          prog_bind (missing_tombstones digest) (fun missing =>
          Done (EnvelopeReply (PeerEnvelope_new me (DigestDiff (own ++ missing)))))))
      | Ok (VDigestDiff l) => prog_bind (apply_diffs (pv_sender env) l) (fun _ => Done StatusOk)
      | Ok (VMessage _) => Done BadRequest
      | _ => Done StatusOk
      end).

(** ** The periodic tasks *)

Definition build_digest t : list DigestEntry :=
  (fun kv => {| de_name := kv.1.1.1; de_relay_id := kv.1.1.2; de_deleted := kv.1.2; de_hash := kv.2 |})
    <$> map_to_list (route_digest sha256_hex t).

(** What anti-entropy does with the answer of [peer]. *)
Definition apply_digest_response (peer : str) (r : MeshReply) : Task MeshReply :=
  match r with
  | EnvelopeReply env =>
      match validate_route_state_envelope url_parse env (Some peer) with
      | Ok (VDigestDiff l) => prog_bind (apply_diffs peer l) (fun _ => Done NoReply)
      | _ => Done NoReply
      end
  | _ => Done NoReply
  end.

Definition set_status (s : PeerStatus) (p : PeerInfo) : PeerInfo :=
  {| pe_relay_id := pe_relay_id p; pe_url := pe_url p; pe_route_count := pe_route_count p;
     pe_last_heartbeat := pe_last_heartbeat p; pe_status := s |}.
Definition mark_peer (id : str) (s : PeerStatus) : Task unit := writes (fun _ t => Ok (update_peer t id (set_status s), tt)).

(** The peers of a failure detection round, each judged by what the round read of it. *)
Fixpoint detect_failures (now suspect_deadline : Z) (l : list PeerInfo) : Task MeshReply :=
  match l with
  | [] => Done NoReply
  | seen :: l =>
      let elapsed := Z.max 0 (now - pe_last_heartbeat seen) in
      prog_bind
        (if bool_decide (pe_status seen = Suspect) && (2 * suspect_deadline <? elapsed)
         then prog_bind (mark_peer (pe_relay_id seen) Dead) (fun _ => remove_peer_routes (pe_relay_id seen))
         else if bool_decide (pe_status seen = Alive) && (suspect_deadline <? elapsed)
         then mark_peer (pe_relay_id seen) Suspect
         else Done tt)
        (fun _ => detect_failures now suspect_deadline l)
  end.

Definition failure_detection (heartbeat_interval miss_threshold : Z) : Task MeshReply :=
  Locked (fun c t => Ok (t, detect_failures (ck_now c) (heartbeat_interval * miss_threshold) (list_peers t))).

(** A dead peer that answers its health probe. *)
Definition recover_peer (id : str) : Task MeshReply :=
  writes (fun c t =>
    Ok (update_peer t id (fun p => {| pe_relay_id := pe_relay_id p; pe_url := pe_url p; pe_route_count := pe_route_count p;
                                      pe_last_heartbeat := ck_now c; pe_status := Alive |}), NoReply)).

(** [tombstone_retention] in nanoseconds; [Duration::MAX] where the product overflows. *)
Definition MIN_RETENTION : Z := 600 * NANOS_PER_SEC.
Definition DURATION_MAX : Z := (U64_MAX + 1) * NANOS_PER_SEC - 1.
Definition tombstone_retention t (anti_entropy_interval : Z) : Z :=
  let alive := Z.max 1 (blen (alive_peers t)) in
  let rounds := Z.min U32_MAX (Z.min USIZE_MAX (alive * 2)) in
  Z.max MIN_RETENTION (default DURATION_MAX (checked_mul DURATION_MAX anti_entropy_interval rounds)).

(** Joining a seed: its answer is merged when it validates. *)
Definition join_response (e : FullSyncEnvelope) : Task MeshReply :=
  writes (fun c t =>
    match validate_full_sync url_parse sha256_hex e (ck_now c) with
    | Ok sync => let? t := merge_validated_snapshot url_parse t sync (ck_now c) in Ok (t, NoReply)
    | _ => Ok (t, NoReply)
    end).

(** ** Runs *)

(** Everything that changes a relay's table: requests of peers, answers to this relay's own
    requests, rounds of the periodic tasks, and what the owners of local routes ask. *)
Inductive MeshEvent :=
| PeerAnnounce (env : PeerEnvelope)
| PeerJoin (env : PeerEnvelope) (url : str)
| PeerHeartbeat (env : PeerEnvelope)
| PeerLeave (env : PeerEnvelope)
| PeerDigest (env : PeerEnvelope)
| DigestAnswer (peer : str) (r : MeshReply)
| SeedAnswer (e : FullSyncEnvelope)
| DetectFailures (heartbeat_interval miss_threshold : Z)
| RecoverPeer (id : str)
| CollectTombstones (retention : Z)
| RegisterLocal (url : str) (o : LocalRouteOwner) (c : AttestedRouteContract)
| UnregisterRegistration (s : RelayRegistrationScope)
| UnregisterLocal (name server : str)
| DropUnreachable (expected : RouteEntry).

(** The local operations hold the table throughout. *)
Definition mesh_program (ev : MeshEvent) : Task MeshReply :=
  match ev with
  | PeerAnnounce env => handle_peer_announce env
  | PeerJoin env url => handle_peer_join env url
  | PeerHeartbeat env => handle_peer_heartbeat env
  | PeerLeave env => handle_peer_leave env
  | PeerDigest env => handle_peer_digest env
  | DigestAnswer peer r => apply_digest_response peer r
  | SeedAnswer e => join_response e
  | DetectFailures hb miss => failure_detection hb miss
  | RecoverPeer id => recover_peer id
  | CollectTombstones retention => writes (fun c t => Ok ((gc_tombstones t (ck_now c) retention).1, NoReply))
  | RegisterLocal url o c => writes (fun k t => let? '(t, _) := commit_local t url o c (ck_wall k) in Ok (t, NoReply))
  | UnregisterRegistration s => writes (fun k t => Ok ((unregister_registration t s (ck_wall k) (ck_now k)).1, NoReply))
  | UnregisterLocal name server => writes (fun k t => Ok ((unregister_local t name server (ck_wall k) (ck_now k)).1, NoReply))
  | DropUnreachable expected => writes (fun k t => Ok ((unregister_local_route_if_matches t expected (ck_wall k) (ck_now k)).1.1, NoReply))
  end.

Definition mesh_step := world_step mesh_program.
Definition mesh_run := world_run mesh_program.
Definition mesh_new (wall : Z) : World RouteTable MeshEvent MeshReply :=
  {| w_state := RouteTable_new me wall; w_tasks := ∅ |}.
End mesh.
