(* ===== verification/MeshInv.v ===== *)
(** What each section of a mesh task does to a route table, as a sequence of elementary
    changes: each section of a handler, of an authority operation and of a periodic task is
    shown to make only such changes, for routes it has authority over and with
    registrations it was offered.  The properties of runs follow by induction on the
    changes. *)

From S2P Require Import Prelude.
From S2P Require Import Locked.
From S2P Require Import Text.
From S2P Require Import Float64.
From S2P Require Import RouteTable.
From S2P Require Import RouteSync.
From S2P Require Import RouteInv.
From S2P Require Import Mesh.

Section changes.
Context (url_parse : str → option Url).
(** Whose routes may change, which registrations are offered, how long ago a tombstone
    may have been observed, and which collections are made. *)
Context (who : str → Prop) (offer : RouteEntry → Prop) (since : Z) (collect : Z → Z → Prop).
Implicit Types (t : RouteTable) (e : RouteEntry) (b : RouteTombstone) (k : str * str).
Notation table_wf := (table_wf url_parse).

Inductive change : RouteTable → RouteTable → Prop :=
| ch_refl t : change t t
| ch_trans t1 t2 t3 : change t1 t2 → change t2 t3 → change t1 t3
| ch_register t e :
    can_register_route url_parse t e = true → who (re_relay_id e) → offer e → change t (registered t e)
| ch_bury t b :
    valid_tombstone b = true → outlives t (tb_name b, tb_relay_id b) (tb_removed_at b) = false →
    (∀ x, tombstones t !! (tb_name b, tb_relay_id b) = Some x → SFleb (tb_removed_at b) (tb_removed_at x) = false) →
    who (tb_relay_id b) → since <= tb_observed_at b → change t (buried t b)
| ch_time t f : change t (set_timestamp t f)
| ch_withdraw t s :
    is_Some (tombstones t !! (sc_name s, relay_id t)) → change t (record_registration_withdrawal t s)
| ch_forget t (P : str * str * RouteEntry → Prop) `{∀ x, Decision (P x)} :
    (∀ k e, routes t !! k = Some e → ¬ P (k, e) → who k.2) → change t (set_routes t (filter P (routes t)))
| ch_collect t now retention :
    collect now retention → (∀ id, who id) → change t (gc_tombstones t now retention).1
| ch_update t id f :
    (∀ p, pe_relay_id (f p) = pe_relay_id p ∧ pe_url (f p) = pe_url p) → change t (update_peer t id f)
| ch_join t p :
    pe_relay_id p ≠ relay_id t → valid_relay_id (pe_relay_id p) = true → valid_relay_url url_parse (pe_url p) = true →
    who (pe_relay_id p) → change t (joined t p)
| ch_leave t id : change t (unregister_peer t id).

Lemma change_relay t t' : change t t' → relay_id t' = relay_id t.
Proof. induction 1; try done. congruence. Qed.

Lemma change_wf t t' : change t t' → table_wf t → table_wf t'.
Proof using Type.
  induction 1; intros Hwf; eauto.
  - apply registered_wf; [done|]. by apply can_register_valid.
  - by apply buried_wf.
  - by apply timestamp_wf.
  - destruct Hwf as [Hr Ht Hx Hw Hp]. split; simpl; [done..| |done].
    intros k s' [[<- <-]|[? ?]]%lookup_insert_Some; eauto.
  - by apply forget_routes_wf.
  - by apply gc_wf.
  - by apply update_peer_wf.
  - by apply joined_wf.
  - destruct Hwf as [Hr Ht Hx Hw Hp]. split; simpl; [done..|]. intros i p [? ?]%lookup_delete_Some. eauto.
Qed.

(** Keys of relays outside the authority are untouched. *)
Lemma change_frame t t' k :
  change t t' → table_wf t → ¬ who k.2 → routes t' !! k = routes t !! k ∧ tombstones t' !! k = tombstones t !! k.
Proof using Type.
  induction 1 as [|t1 t2 t3 H1 IH1 H2 IH2|t e Hc Hwho Hoff|t b Hv Ho Hn Hwho Hs|t f|t s Hs|t P HP Hwho|t now ret Hcol Hwho|t id f Hf
    |t p Hne Hid Hurl Hwho|t id]; intros Hwf Hk; try done.
  - destruct (IH1 Hwf Hk) as [<- <-]. apply IH2; [|done]. by eapply change_wf.
  - assert (route_key e ≠ k) by (intros <-; done). simpl. by rewrite lookup_insert_ne, lookup_delete_ne.
  - assert ((tb_name b, tb_relay_id b) ≠ k) by (intros <-; done). simpl. by rewrite lookup_insert_ne, lookup_delete_ne.
  - simpl. split; [|done]. destruct (routes t !! k) as [e|] eqn:He.
    + apply map_lookup_filter_Some_2; [done|]. destruct (decide (P (k, e))) as [|Hn]; [done|]. by destruct Hk; apply (Hwho _ _ He Hn).
    + apply map_lookup_filter_None_2. by left.
  - by destruct Hk.
  - rewrite joined_routes. split; [|done]. destruct (routes t !! k) as [e|] eqn:He; [|done]. simpl. f_equal.
    destruct (wf_route _ _ Hwf _ _ He) as [-> _]. unfold at_url.
    rewrite (bool_decide_eq_false_2 (re_relay_id e = _)); [by rewrite andb_false_r|]. intros Heq. apply Hk. simpl. by rewrite Heq.
Qed.

(** The route of [k] is deleted as of [f] or later. *)
Definition sealed t k (f : f64) : Prop :=
  ∃ b, tombstones t !! k = Some b ∧ SFleb f (tb_removed_at b) = true ∧ since <= tb_observed_at b.

Lemma gc_keeps t k b now retention :
  table_wf t → tombstones t !! k = Some b → now - tb_observed_at b < retention → 0 < retention →
  tombstones (gc_tombstones t now retention).1 !! k = Some b.
Proof using Type.
  intros Hwf Hb Hage Hpos. unfold gc_tombstones. simpl. apply map_lookup_filter_Some_2; [done|]. simpl.
  intros Hin. rewrite elem_of_list_to_set, list_elem_of_fmap in Hin.
  destruct Hin as ((k' & g) & -> & Hin). simpl in *. apply list_elem_of_omap in Hin as ((k2 & b2) & Hin & Hr).
  apply elem_of_map_to_list in Hin. simpl in Hr. apply fmap_Some in Hr as (reason & Hr & [= <- ->]).
  assert (b2 = b) as -> by congruence. unfold tombstone_reason in Hr. rewrite bool_decide_eq_false_2 in Hr.
  - destruct (Z.leb_spec retention (Z.max 0 (now - tb_observed_at b))); [lia|done].
  - intros [e He]. pose proof (wf_exclusive _ _ Hwf _ _ He). congruence.
Qed.

Lemma change_sealed t t' k f :
  change t t' → table_wf t → f64_is_finite f = true →
  (∀ now retention, collect now retention → now - since < retention ∧ 0 < retention) →
  (∀ e, offer e → route_key e = k → SFleb (re_registered_at e) f = true) →
  sealed t k f → sealed t' k f.
Proof using Type.
  intros Hc Hwf Hf Hgc Hoff.
  induction Hc as [|t1 t2 t3 H1 IH1 H2 IH2|t e Hcan Hwho He|t b Hv Ho Hn Hwho Hs|t g|t s Hs|t P HP Hwho|t now ret Hcol Hwho|t id g Hg
    |t p Hne Hid Hurl Hwho|t id]; try done.
  - intros Hs. apply IH2; [by eapply change_wf|]. by apply IH1.
  - intros (b & Hb & Hle & Hs). exists b. split; [|done]. simpl. rewrite lookup_delete_ne; [done|].
    intros <-. pose proof (can_register_newer _ _ _ _ Hcan Hb) as Hnew.
    pose proof (Hoff e He eq_refl) as Hold.
    assert (SFleb (re_registered_at e) (tb_removed_at b) = true); [|congruence].
    eapply (f64_le_trans _ f); [|done| |done|done].
    + by eapply valid_entry_finite, can_register_valid.
    + destruct (wf_tombstone _ _ Hwf _ _ Hb). by apply valid_tombstone_finite.
  - intros (x & Hx & Hle & Hsx). destruct (decide ((tb_name b, tb_relay_id b) = k)) as [<-|Hne].
    + exists b. simpl. rewrite lookup_insert_eq. split_and!; [done| |done].
      destruct (wf_tombstone _ _ Hwf _ _ Hx) as [_ Hvx]. apply valid_tombstone_finite in Hvx, Hv.
      eapply (f64_le_trans _ (tb_removed_at x)); [done..|].
      destruct (f64_le_total (tb_removed_at x) (tb_removed_at b)) as [?|Hl]; [done..|].
      by rewrite (Hn x Hx) in Hl.
    + exists x. simpl. by rewrite lookup_insert_ne.
  - intros (b & Hb & Hle & Hs). destruct (Hgc _ _ Hcol). exists b. split; [|done].
    apply gc_keeps; [done|done|lia|done].
Qed.
End changes.

Lemma change_mono url_parse who offer since since' (collect : Z → Z → Prop) t t' :
  since' <= since → change url_parse who offer since collect t t' → change url_parse who offer since' collect t t'.
Proof.
  intros Hs. induction 1; [constructor|by eapply ch_trans|by apply ch_register|apply ch_bury; [done..|lia]|apply ch_time|by apply ch_withdraw
    |by apply ch_forget|by apply ch_collect|by apply ch_update|by apply ch_join|apply ch_leave].
Qed.

(** ** What each operation does *)

Section operations.
Context (url_parse : str → option Url).
Context (who : str → Prop) (offer : RouteEntry → Prop) (since : Z) (collect : Z → Z → Prop).
(** The relays that have left. *)
Context (gone : str → Prop).
Implicit Types (t : RouteTable) (e : RouteEntry) (b : RouteTombstone) (k : str * str).
Notation table_wf := (table_wf url_parse).
Notation change := (change url_parse who offer since collect).
Notation owner_known := (owner_known gone).
Notation owners_known := (owners_known gone).

(** [t'] is reached by such changes, and the owners of its peer routes are known if they
    were. *)
Definition makes t t' : Prop := change t t' ∧ (owners_known t → owners_known t').

Lemma makes_refl t : makes t t.
Proof. split; [apply ch_refl|done]. Qed.
Lemma makes_trans t1 t2 t3 : makes t1 t2 → makes t2 t3 → makes t1 t3.
Proof. intros [? ?] [? ?]. split; [by eapply ch_trans|eauto]. Qed.
Lemma makes_relay t t' : makes t t' → relay_id t' = relay_id t.
Proof. intros [H _]. by eapply change_relay. Qed.
Lemma makes_wf t t' : makes t t' → table_wf t → table_wf t'.
Proof. intros [H _]. by eapply change_wf. Qed.

Lemma makes_tombstone t b now :
  who (tb_relay_id b) → since <= now → table_wf t → makes t (apply_tombstone t b now).1.
Proof.
  intros Hwho Hs Hwf. split; [|apply apply_tombstone_known].
  destruct (apply_tombstone_cases t b now) as [[-> _]|(Hv & Ho & Hn & s & -> & Hserver)]; [apply ch_refl|].
  apply ch_bury; [by eapply observed_valid|done..].
Qed.
Lemma makes_withdraw t b now :
  who (tb_relay_id b) → since <= now → table_wf t → makes t (withdraw_with t b now).1.
Proof. rewrite withdraw_with_table. apply makes_tombstone. Qed.
Lemma makes_time t f : makes t (set_timestamp t f).
Proof. split; [apply ch_time|done]. Qed.

(** ** Peers' routes *)

Lemma scrub_owner t e p : peers t !! re_relay_id e = Some p → owner_known (peers t) (scrub e (pe_url p)).
Proof using Type. intros Hp _. left. by exists p. Qed.

Lemma announce_write_makes t e :
  (∀ url, offer (scrub e url)) → who (re_relay_id e) →
  match announce_write url_parse t e with Ok t' => makes t t' | Err _ => True | Panic => False end.
Proof using Type.
  intros Hoff Hwho. unfold announce_write, guard_err. destruct (bool_decide _); cbn [res_bind]; [done|].
  destruct (peers t !! re_relay_id e) as [p|] eqn:Hp; [|done]. rewrite register_route_eq.
  destruct (can_register_route _ _ _) eqn:Hc; [|apply makes_refl].
  split; [apply ch_register; auto|]. intros Ho. apply registered_known; [done|]. by apply scrub_owner.
Qed.

Lemma makes_forget t id : who id → makes t (remove_routes_by_relay t id).1.
Proof using Type.
  intros Hid. split; [|apply forget_routes_known]. apply ch_forget. intros [n i] e _ Hn. simpl in *.
  by destruct (decide (i = id)) as [->|].
Qed.
Lemma update_makes t id f :
  (∀ p, pe_relay_id (f p) = pe_relay_id p ∧ pe_url (f p) = pe_url p) → makes t (update_peer t id f).
Proof using Type. intros Hf. split; [by apply ch_update|]. by apply update_peer_known. Qed.

Lemma join_makes t id url now :
  (id ≠ relay_id t → who id) → table_wf t → makes t (record_peer_join url_parse t id url now).1.
Proof.
  intros Hwho Hwf. unfold record_peer_join. destruct (_ || _) eqn:Hb; [apply makes_refl|].
  rewrite !orb_false_iff, !negb_false_iff, bool_decide_eq_false in Hb. destruct Hb as [[Hid Hne] Hurl]. simpl.
  set (p := match peers t !! id with Some p => _ | None => _ end).
  assert (pe_relay_id p = id ∧ pe_url p = url) as [Hpi Hpu].
  { unfold p. destruct (peers t !! id) eqn:Hp; [|done]. simpl. by destruct (wf_peer _ _ Hwf _ _ Hp). }
  change (makes t (sync_peer_route_urls (set_peers t (<[id:=p]> (peers t))) id url)).
  assert (sync_peer_route_urls (set_peers t (<[id:=p]> (peers t))) id url = joined t p) as ->.
  { unfold joined. by rewrite Hpi, Hpu. }
  split; [apply ch_join; rewrite ?Hpi, ?Hpu; auto|apply joined_known].
Qed.

(** ** Our own routes *)

Lemma authoritative_makes t name id wall now :
  who (relay_id t) → since <= now → table_wf t → makes t (authoritative_missing_tombstone t name id wall now).1.
Proof.
  intros Hwho Hs Hwf. unfold authoritative_missing_tombstone, next_local_timestamp.
  case_bool_decide as Hid; [apply makes_refl|]. subst id.
  destruct (_ || _); [apply makes_refl|]. case_bool_decide; [apply makes_refl|].
  destruct (apply_tombstone _ _ _) as [t2 applied] eqn:Hb. simpl. change t2 with ((t2, applied).1). rewrite <- Hb.
  eapply makes_trans; [apply makes_time|]. apply makes_tombstone; [done..|by apply timestamp_wf].
Qed.

Lemma local_withdraw_makes t b f now :
  tb_relay_id b = relay_id t → who (relay_id t) → since <= now → table_wf t →
  makes t (withdraw_with (set_timestamp t f) b now).1.
Proof.
  intros Hb Hwho Hs Hwf. eapply makes_trans; [apply makes_time|].
  apply makes_withdraw; [by rewrite Hb|done|by apply timestamp_wf].
Qed.

Lemma commit_makes t url o c wall :
  who (relay_id t) → (∀ f, offer (local_entry t url o c f)) →
  ∃ t' x, commit_local url_parse t url o c wall = Ok (t', x) ∧ makes t t'.
Proof using Type.
  intros Hwho Hoff. unfold commit_local, stamp_local, next_local_timestamp. cbv beta iota zeta.
  set (f := if f64_is_finite _ then _ else _). destruct (can_register_route _ _ _) eqn:Hc; simpl.
  2: { eexists _, _. split; [done|]. apply makes_time. }
  rewrite register_prevalidated_ok by done. simpl. eexists _, _. split; [done|]. eapply makes_trans; [apply (makes_time t f)|].
  split; [apply ch_register; [done|done|apply Hoff]|]. intros Ho. apply registered_known; done.
Qed.

Lemma if_matches_makes t expected wall now :
  who (relay_id t) → since <= now → table_wf t →
  makes t (unregister_local_route_if_matches t expected wall now).1.1.
Proof.
  intros Hwho Hs Hwf. unfold unregister_local_route_if_matches, next_local_timestamp. cbv beta iota zeta.
  destruct (negb _); [apply makes_time|]. destruct (withdraw_with _ _ _) as [t2 r] eqn:Hw. simpl.
  change t2 with ((t2, r).1). rewrite <- Hw. by apply local_withdraw_makes.
Qed.
(** A removed registration leaves a tombstone. *)
Lemma if_matches_removed t expected wall now t' e f :
  unregister_local_route_if_matches t expected wall now = (t', Some e, f) →
  is_Some (tombstones t' !! (re_name expected, relay_id t')).
Proof.
  unfold unregister_local_route_if_matches, next_local_timestamp. cbv beta iota zeta.
  destruct (negb _); [done|]. destruct (withdraw_with _ _ _) as [t2 r] eqn:Hw. intros [= -> -> <-].
  assert (relay_id t' = relay_id t) as ->.
  { change t' with ((t', Some e).1). rewrite <- Hw, withdraw_with_table. unfold apply_tombstone. repeat case_match; done. }
  pose proof (f_equal snd Hw) as Hsnd. apply withdraw_with_removed in Hsnd as [_ Hs]. by rewrite Hw in Hs.
Qed.

Lemma unregister_registration_makes t s wall now :
  who (relay_id t) → since <= now → table_wf t → makes t (unregister_registration t s wall now).1.
Proof.
  intros Hwho Hs Hwf. unfold unregister_registration. destruct (check_scope s); [|apply makes_refl..].
  unfold withdraw_registration. destruct (local_route t (sc_name s)) as [x|] eqn:Hx; [|apply makes_refl].
  destruct (_ || _); [apply makes_refl|].
  pose proof (if_matches_makes t x wall now Hwho Hs Hwf) as H.
  pose proof (if_matches_removed t x wall now) as Hrem.
  destruct (unregister_local_route_if_matches t x wall now) as [[t1 [e|]] f]; simpl in *; [|done].
  specialize (Hrem _ _ _ eq_refl). eapply makes_trans; [exact H|]. split; [|done]. apply ch_withdraw.
  destruct (wf_route _ _ Hwf _ _ Hx) as [[= Hn _] _]. by rewrite Hn.
Qed.

Lemma unregister_local_makes t name server wall now :
  who (relay_id t) → since <= now → table_wf t → makes t (unregister_local t name server wall now).1.
Proof.
  intros Hwho Hs Hwf. unfold unregister_local. destruct (check_owner name server); [|apply makes_refl..].
  destruct (local_route t name) as [x|]; [|apply makes_refl]. destruct (negb _); [apply makes_refl|].
  unfold unregister_local_route_with_tombstone, next_local_timestamp. cbv beta iota zeta.
  destruct (withdraw_with _ _ _) as [t2 r] eqn:Hw.
  assert (makes t t2); [|by destruct r].
  change t2 with ((t2, r).1). rewrite <- Hw. by apply local_withdraw_makes.
Qed.

(** ** Merging a snapshot *)

Lemma merge_peer_joined t p now :
  table_wf t → ps_relay_id p ≠ relay_id t →
  ∃ info, merge_peer t p now = joined t info ∧ pe_relay_id info = ps_relay_id p ∧ pe_url info = ps_url p.
Proof.
  intros Hwf Hne. unfold merge_peer. rewrite bool_decide_eq_false_2 by done.
  set (info := match peers t !! _ with Some x => _ | None => _ end). exists info.
  assert (pe_relay_id info = ps_relay_id p ∧ pe_url info = ps_url p) as [Hi Hu].
  { unfold info. destruct (peers t !! _) eqn:Hp; [|done]. simpl. by destruct (wf_peer _ _ Hwf _ _ Hp). }
  split; [|done]. unfold joined. by rewrite Hi, Hu.
Qed.

Definition good_peer (p : PeerSnapshot) : Prop :=
  valid_relay_id (ps_relay_id p) = true ∧ valid_relay_url url_parse (ps_url p) = true.

(** After the peers are merged every peer route whose owner is among them is known. *)
Lemma merge_peers_change l t now :
  Forall good_peer l → (∀ id, id ≠ relay_id t → who id) → table_wf t →
  change t (foldl (fun t p => merge_peer t p now) t l) ∧
  ((∀ k e, routes t !! k = Some e → re_locality e = Peer →
      owner_known (peers t) e ∨ re_relay_id e ∈ ps_relay_id <$> l) →
   owners_known (foldl (fun t p => merge_peer t p now) t l)).
Proof.
  intros Hl. revert t. induction Hl as [|p l [Hid Hurl] Hl IH]; intros t Hwho Hwf; simpl.
  { split; [apply ch_refl|]. intros Ho k e He Hloc. destruct (Ho k e He Hloc) as [H|H]; [by apply H|]. by apply elem_of_nil in H. }
  destruct (decide (ps_relay_id p = relay_id t)) as [Heq|Hne].
  - unfold merge_peer at 2 4. rewrite bool_decide_eq_true_2 by done. destruct (IH t Hwho Hwf) as [Hc Ho].
    split; [done|]. intros Hk. apply Ho. intros k e He Hloc.
    destruct (Hk k e He Hloc) as [?|[Hin|?]%elem_of_cons]; [by left| |by right].
    destruct (wf_route _ _ Hwf _ _ He) as [_ Hv%valid_entry_local]. rewrite Heq in Hin.
    apply Hv in Hin. congruence.
  - destruct (merge_peer_joined t p now Hwf Hne) as (info & Hm & Hi & Hu). rewrite Hm.
    assert (change t (joined t info)) as Hj by (apply ch_join; rewrite ?Hi, ?Hu; auto).
    destruct (IH (joined t info)) as [Hc Ho]; [by rewrite (change_relay _ _ _ _ _ _ _ Hj)|by eapply change_wf|].
    split; [by eapply ch_trans|]. intros Hk. apply Ho. intros k e. rewrite joined_routes.
    intros (e0 & He & ->)%fmap_Some Hloc.
    assert (re_locality e0 = Peer ∧ re_relay_id (at_url (pe_relay_id info) (pe_url info) e0) = re_relay_id e0) as [Hl0 ->].
    { unfold at_url in *. by destruct (_ && _). }
    destruct (Hk k e0 He Hl0) as [?|[Hin|?]%elem_of_cons]; [left; apply joined_owner; by right| |by right].
    left. apply joined_owner. left. by rewrite Hi.
Qed.

Lemma snapshot_peers_lookup t l id p :
  snapshot_peers t l !! id = Some p → id = ps_relay_id p ∧ id ≠ relay_id t ∧ p ∈ l.
Proof.
  unfold snapshot_peers. induction l as [|q l IH] using rev_ind; [done|]. rewrite foldl_app. simpl.
  rewrite elem_of_app, list_elem_of_singleton. case_bool_decide as Hq; [naive_solver|].
  intros [[<- <-]|[? ?]]%lookup_insert_Some; naive_solver.
Qed.

Lemma replacement_lookup t S l acc R k e :
  replacement_routes t S l acc = Some R → R !! k = Some e →
  acc !! k = Some e ∨
  (k = route_key e ∧ re_relay_id e ≠ relay_id t ∧ ∃ r p, r ∈ l ∧ S !! re_relay_id e = Some p ∧ e = with_url r (ps_url p)).
Proof.
  revert acc. induction l as [|r l IH]; intros acc; simpl; [intros [= ->]; by left|].
  assert (∀ acc', replacement_routes t S l acc' = Some R → R !! k = Some e →
    (acc' !! k = Some e → acc !! k = Some e ∨ (k = route_key e ∧ re_relay_id e ≠ relay_id t ∧
       ∃ r' p, r' ∈ r :: l ∧ S !! re_relay_id e = Some p ∧ e = with_url r' (ps_url p))) →
    acc !! k = Some e ∨ (k = route_key e ∧ re_relay_id e ≠ relay_id t ∧
       ∃ r' p, r' ∈ r :: l ∧ S !! re_relay_id e = Some p ∧ e = with_url r' (ps_url p))) as Hstep.
  { intros acc' H1 H2 Hacc. destruct (IH acc' H1 H2) as [H|(? & ? & r' & p & ? & ? & ?)]; [auto|].
    right. split_and!; [done..|]. exists r', p. split; [by right|done]. }
  case_bool_decide as Hid; [intros H1 H2; by eapply (Hstep acc); eauto|].
  destruct (S !! re_relay_id r) as [p|] eqn:Hp; [|done].
  destruct (snapshot_route_owner_is_alive t p); [|intros H1 H2; by eapply (Hstep acc); eauto].
  intros H1 H2. eapply Hstep; [exact H1|exact H2|]. intros [[<- <-]|[_ ?]]%lookup_insert_Some; [right|by left].
  split_and!; [done..|]. exists r, p. split; [by left|done].
Qed.

Lemma apply_tombstones_makes l t now :
  (∀ id, id ≠ relay_id t → who id) → since <= now → table_wf t →
  makes t (apply_tombstones t l now) ∧
  ∀ k e, routes (apply_tombstones t l now) !! k = Some e → routes t !! k = Some e.
Proof.
  intros Hwho Hs. revert t Hwho. induction l as [|b l IH]; intros t Hwho Hwf; simpl; [split; [apply makes_refl|done]|].
  case_bool_decide as Hb; [by apply IH|].
  pose proof (makes_tombstone t b now (Hwho _ Hb) Hs Hwf) as H.
  destruct (IH (apply_tombstone t b now).1) as [Hm Hr]; [by rewrite (makes_relay _ _ H)|by eapply makes_wf|].
  split; [by eapply makes_trans|]. intros k e He. apply Hr in He.
  destruct (apply_tombstone_cases t b now) as [[Heq _]|(_ & _ & _ & s & Heq & _)]; rewrite Heq in He; [done|].
  simpl in He. by apply lookup_delete_Some in He as [_ ?].
Qed.

Lemma register_replacements_change l t :
  (∀ k e, (k, e) ∈ l → k = route_key e ∧ who (re_relay_id e) ∧ offer e) →
  ∃ t', register_replacements url_parse t l = Ok t' ∧ change t t' ∧ peers t' = peers t ∧
    ∀ k e, routes t' !! k = Some e → routes t !! k = Some e ∨ (k, e) ∈ l.
Proof.
  revert t. induction l as [|[k e] l IH]; intros t Hl; simpl.
  { exists t. split_and!; [done|apply ch_refl|done|auto]. }
  assert (∀ t1, change t t1 → peers t1 = peers t → (∀ k' e', routes t1 !! k' = Some e' → routes t !! k' = Some e' ∨ (k', e') = (k, e)) →
    ∃ t', register_replacements url_parse t1 l = Ok t' ∧ change t t' ∧ peers t' = peers t ∧
      ∀ k' e', routes t' !! k' = Some e' → routes t !! k' = Some e' ∨ (k', e') ∈ (k, e) :: l) as Hstep.
  { intros t1 Hc Hp Hr. destruct (IH t1) as (t' & -> & Hc' & Hp' & Hr'); [intros ? ? ?; apply Hl; by right|].
    exists t'. split_and!; [done|by eapply ch_trans|congruence|]. intros k' e' He.
    destruct (Hr' k' e' He) as [H|?]; [|right; by right]. destruct (Hr k' e' H) as [? | ->]; [by left|right; by left]. }
  assert (∃ t', register_replacements url_parse t l = Ok t' ∧ change t t' ∧ peers t' = peers t ∧
    ∀ k' e', routes t' !! k' = Some e' → routes t !! k' = Some e' ∨ (k', e') ∈ (k, e) :: l) as Hskip.
  { apply Hstep; [apply ch_refl|done|auto]. }
  destruct (from_option _ _ _); [done|]. rewrite register_route_eq.
  destruct (can_register_route url_parse t e) eqn:Hc; simpl; [|done].
  destruct (Hl k e) as (-> & Hwho & Hoff); [by left|].
  apply Hstep; [by apply ch_register|done|]. simpl. intros k' e' [[<- <-]|[_ ?]]%lookup_insert_Some; [by right|by left].
Qed.

Lemma merge_does t sync now :
  Forall good_peer (fs_peers sync) → (∀ r url, r ∈ fs_routes sync → offer (with_url r url)) →
  (∀ id, id ≠ relay_id t → who id) → since <= now → table_wf t →
  ∃ t', merge_validated_snapshot url_parse t sync now = Ok t' ∧ makes t t'.
Proof.
  intros Hpeers Hoff Hwho Hs Hwf. unfold merge_validated_snapshot.
  destruct (replacement_routes _ _ _ _) as [R|] eqn:HR; [|exists t; split; [done|apply makes_refl]].
  set (t1 := set_routes t _). assert (makes t t1) as H1.
  { split; [|apply forget_routes_known]. apply ch_forget. intros k e He Hn. destruct (wf_route _ _ Hwf _ _ He) as [-> Hv].
    apply Hwho. simpl in *. apply dec_stable in Hn. apply valid_entry_local in Hv. intros Heq. apply Hv in Heq. congruence. }
  assert (table_wf t1) as Hwf1 by (by eapply makes_wf).
  destruct (apply_tombstones_makes (fs_tombstones sync) t1 now) as [H2 Hr2]; [done..|].
  set (t2 := apply_tombstones t1 _ now) in *.
  assert (∀ k e, (k, e) ∈ map_to_list R → k = route_key e ∧ re_relay_id e ≠ relay_id t ∧
    ∃ r p, r ∈ fs_routes sync ∧ snapshot_peers t (fs_peers sync) !! re_relay_id e = Some p ∧ e = with_url r (ps_url p)) as HRs.
  { intros k e Hin%elem_of_map_to_list. by destruct (replacement_lookup _ _ _ _ _ _ _ HR Hin). }
  destruct (register_replacements_change (map_to_list R) t2) as (t3 & -> & H3 & Hp3 & Hr3).
  { intros k e Hin. destruct (HRs k e Hin) as (-> & Hne & r & p & Hr & _ & He). split_and!; [done|by apply Hwho|].
    rewrite He. by apply Hoff. }
  simpl. assert (table_wf t3) as Hwf3 by (eapply change_wf; [exact H3|]; by eapply makes_wf).
  assert (relay_id t3 = relay_id t) as Hrel by (by rewrite (change_relay _ _ _ _ _ _ _ H3), (makes_relay _ _ H2)).
  destruct (merge_peers_change (fs_peers sync) t3 now) as [H4 Ho4]; [done|by rewrite Hrel|done|].
  eexists. split; [done|]. split.
  { eapply ch_trans; [apply H1|]. eapply ch_trans; [apply H2|]. by eapply ch_trans. }
  intros _. apply Ho4. intros k e He Hloc. right. destruct (Hr3 k e He) as [He2|Hin].
  - apply Hr2, map_lookup_filter_Some in He2 as [_ Hn]. by destruct Hn.
  - destruct (HRs k e Hin) as (-> & _ & r & p & _ & Hp & _).
    apply snapshot_peers_lookup in Hp as (-> & _ & Hin'). apply list_elem_of_fmap. eauto.
Qed.
End operations.

(** ** Tasks *)

Section tasks.
Context (url_parse : str → option Url) (me : str).
(** Whose routes a task may change, which registrations it carries, whether it collects
    tombstones, and which relay it makes leave. *)
Context (who : str → Prop) (offer : RouteEntry → Prop) (collects : Z → Prop) (leaves : str → Prop).
Implicit Types (t : RouteTable) (e : RouteEntry) (c : Clock).

(** The tables of this relay, and what a section does to one. *)
Definition own_table t : Prop := table_wf url_parse t ∧ relay_id t = me.
Definition makes_at c t t' : Prop := ∀ gone : str → Prop, (∀ id, leaves id → gone id) →
  makes url_parse who offer (ck_now c) (fun now retention => now = ck_now c ∧ collects retention) gone t t'.
Notation acts := (conducts own_table makes_at).

Lemma makes_at_own c t t' : own_table t → makes_at c t t' → own_table t'.
Proof.
  intros [Hwf Hr] H. specialize (H (fun _ => True) (fun _ _ => I)). split; [by eapply makes_wf|by rewrite (makes_relay _ _ _ _ _ _ _ _ H)].
Qed.

Lemma reads_act {A} (g : RouteTable → A) : acts (reads g).
Proof. apply conducts_reads. intros c t _ gone _. apply makes_refl. Qed.
Lemma writes_act {A} (g : Clock → RouteTable → RouteTable * A) :
  (∀ c t, own_table t → makes_at c t (g c t).1) → acts (writes (fun c t => Ok (g c t))).
Proof.
  intros Hg. apply conducts_writes. intros c t Ht. exists (g c t).1, (g c t).2. split; [by destruct (g c t)|auto].
Qed.
Lemma control_act g :
  (∀ c t, own_table t → match g c t with Ok t' => makes_at c t t' | Err _ => True | Panic => False end) → acts (control_section g).
Proof.
  intros Hg. apply conducts_writes. intros c t Ht. specialize (Hg c t Ht). destruct (g c t) as [t'|e|]; [..|done].
  - by exists t', (Ok tt).
  - exists t, (Err e). split; [done|]. intros gone _. apply makes_refl.
Qed.
Lemma checked_act m (p : Task (res ControlError unit)) : acts p → acts (checked m p).
Proof. intros Hp. destruct m; [done|constructor..]. Qed.

Lemma trusted_bind_acts {A} sender id (k : bool → Prog RouteTable A) :
  acts (k false) → (sender = id → sender ≠ me → acts (k true)) → acts (prog_bind (trusted_peer_owner me sender id) k).
Proof.
  intros Hf Ht. unfold trusted_peer_owner. case_bool_decide as Hid; [|done]. case_bool_decide as Hme; [done|]. cbn [andb negb].
  apply conducts_bind; [apply reads_act|]. intros []; auto.
Qed.

Lemma announce_acts sender e :
  (∀ url, offer (scrub e url)) → (sender ≠ me → who sender) → acts (announce_peer url_parse me sender e).
Proof.
  intros Hoff Hwho. apply checked_act, trusted_bind_acts; [constructor|]. intros -> Hne. cbn [negb].
  apply control_act. intros c t _. pose proof (announce_write_makes url_parse who offer (ck_now c)
    (fun now retention => now = ck_now c ∧ collects retention)) as Hm.
  destruct (announce_write url_parse t e) as [t'|err|] eqn:Ht; [|done|].
  - intros gone _. specialize (Hm gone t e Hoff (Hwho Hne)). by rewrite Ht in Hm.
  - specialize (Hm (fun _ => True) t e Hoff (Hwho Hne)). by rewrite Ht in Hm.
Qed.

Lemma withdraw_acts sender name id removed_at :
  (sender ≠ me → who sender) → acts (withdraw_peer me sender name id removed_at).
Proof.
  intros Hwho. apply checked_act, trusted_bind_acts; [constructor|]. intros -> Hne. cbn [negb]. case_bool_decide; [constructor|].
  apply control_act. intros c t [Hwf _] gone _. apply makes_withdraw; [auto|lia|done].
Qed.

Definition diff_offered (d : ValidatedDigestDiffEntry) : Prop :=
  match d with ValidActive e => ∀ url, offer (scrub e url) | ValidDeleted _ _ _ => True end.

Lemma diffs_act l sender : (sender ≠ me → who sender) → Forall diff_offered l → acts (apply_diffs url_parse me sender l).
Proof.
  intros Hwho. induction 1 as [|d l Hd Hl IH]; cbn; [constructor|]. apply conducts_bind; [|done].
  destruct d; [by apply announce_acts|by apply withdraw_acts].
Qed.

Lemma remove_peer_routes_acts id : (id ≠ me → who id) → acts (remove_peer_routes me id).
Proof.
  intros Hid. unfold remove_peer_routes. destruct (negb _); cbn [orb]; [constructor|]. case_bool_decide; [constructor|].
  apply (writes_act (fun _ t => ((remove_routes_by_relay t id).1, tt))). intros c t _ gone _. by apply makes_forget, Hid.
Qed.

Lemma mark_acts id s : acts (mark_peer id s).
Proof. apply (writes_act (fun _ t => (update_peer t id (set_status s), tt))). intros c t _ gone _. by apply update_makes. Qed.

Lemma detect_acts now deadline l : (∀ id, id ≠ me → who id) → acts (detect_failures me now deadline l).
Proof.
  intros Hwho. induction l as [|seen l IH]; cbn; [constructor|]. apply conducts_bind; [|done]. destruct (_ && _).
  - apply conducts_bind; [apply mark_acts|]. intros _. apply remove_peer_routes_acts, Hwho.
  - destruct (_ && _); [apply mark_acts|constructor].
Qed.

Lemma drop_acts id : leaves id → acts (drop_peer id).
Proof.
  intros Hl. apply (writes_act (fun _ t => (unregister_peer t id, StatusOk))). intros c t _ gone Hg.
  split; [apply ch_leave|by apply unregister_peer_known, Hg].
Qed.

Lemma missing_acts l : who me → acts (missing_tombstones me l).
Proof.
  intros Hwho. induction l as [|d l IH]; cbn; [constructor|]. destruct (_ && _); [|done].
  apply conducts_bind; [apply reads_act|]. intros [x|]; [done|]. apply conducts_bind; [|intros b; by apply conducts_bind; [|constructor]].
  apply writes_act. intros c t [Hwf Hr] gone _. apply authoritative_makes; [by rewrite Hr|lia|done].
Qed.

Lemma own_differences_acts m l : acts (own_differences me m l).
Proof.
  induction l as [|[[[n i] del] h] l IH]; cbn; [constructor|]. destruct (_ || _); [done|].
  apply conducts_bind; [apply reads_act|]. intros x. by apply conducts_bind; [|constructor].
Qed.

Lemma snapshot_acts sha256_hex url : acts (current_full_sync_envelope sha256_hex me url).
Proof.
  apply conducts_bind; [apply reads_act|]. intros s. apply conducts_bind; [|constructor].
  destruct (existsb _ _); [constructor|]. apply conducts_bind; [apply reads_act|constructor].
Qed.

End tasks.
