(* ===== verification/MeshSafe.v ===== *)
(** The mesh as a whole: in every interleaving of the sections of mesh tasks the table
    stays well formed and nothing panics, a peer changes only its own routes, and a deleted
    route stays deleted until a newer registration of it is offered. *)

From S2P Require Import Prelude.
From S2P Require Import Locked.
From S2P Require Import Text.
From S2P Require Import Float64.
From S2P Require Import RouteTable.
From S2P Require Import RouteSync.
From S2P Require Import RouteInv.
From S2P Require Import Mesh.
From S2P Require Import MeshInv.

Section events.
Context (url_parse : str → option Url) (sha256_hex : bytes → str) (me : str).
Implicit Types (t : RouteTable) (e : RouteEntry) (k : str * str) (env : PeerEnvelope) (ev : MeshEvent) (c : Clock).
Notation table_wf := (table_wf url_parse).
Notation mesh_program := (mesh_program url_parse sha256_hex me).
Notation mesh_step := (mesh_step url_parse sha256_hex me).
Notation mesh_run := (mesh_run url_parse sha256_hex me).

(** Whose routes an event may change. *)
Definition authority ev (id : str) : Prop :=
  match ev with
  | PeerAnnounce env | PeerJoin env _ | PeerLeave env => id = pv_sender env ∧ id ≠ me
  | PeerDigest env =>
      match pv_message env with
      | DigestExchange _ => id = me
      | _ => id = pv_sender env ∧ id ≠ me
      end
  | PeerHeartbeat _ | RecoverPeer _ => False
  | DigestAnswer peer _ => id = peer ∧ id ≠ me
  | SeedAnswer _ | DetectFailures _ _ => id ≠ me
  | CollectTombstones _ => True
  | RegisterLocal _ _ _ | UnregisterRegistration _ | UnregisterLocal _ _ | DropUnreachable _ => id = me
  end.

(** The registrations an event carries; those of this relay at any time. *)
Definition message_offers (m : PeerMessage) (s : ActiveState) : Prop :=
  match m with RouteAnnounce s' => s = s' | DigestDiff l => DiffActive s ∈ l | _ => False end.
Definition offered ev k (registered_at : f64) : Prop :=
  match ev with
  | PeerAnnounce env | PeerDigest env | DigestAnswer _ (EnvelopeReply env) =>
      ∃ s, message_offers (pv_message env) s ∧ k = (ac_name s, ac_relay_id s) ∧ registered_at = ac_registered_at s
  | SeedAnswer e =>
      ∃ r, r ∈ sn_routes (en_snapshot e) ∧ k = (fr_name r, fr_relay_id r) ∧ registered_at = fr_registered_at r
  | RegisterLocal _ o _ => k = (lo_name o, me)
  | _ => False
  end.

(** The relay an event makes leave. *)
Definition leaves ev (id : str) : Prop := match ev with PeerLeave env => pv_message env = RelayLeave id | _ => False end.

(** ** Validation *)

Lemma validate_not_panic env x : validate_route_state_envelope url_parse env x ≠ Panic.
Proof.
  assert (∀ l, validate_digest_entries l ≠ Panic) as H1.
  { induction l; [done|]. simpl. unfold guard_err. by case_match. }
  assert (∀ s l, validate_digest_diff_entries url_parse s l ≠ Panic) as H2.
  { induction l as [|[]]; [done|..]; simpl; unfold guard_err; case_match; try done; simpl; by destruct (validate_digest_diff_entries _ _ _). }
  unfold validate_route_state_envelope, guard_err. repeat case_match; simpl; try done; repeat case_match; try done.
  - specialize (H1 digest). by destruct (validate_digest_entries digest).
  - specialize (H2 (pv_sender env) entries). by destruct (validate_digest_diff_entries _ _ _).
Qed.

Lemma diff_entries_offered sender entries l :
  validate_digest_diff_entries url_parse sender entries = Ok l →
  Forall (fun d => match d with ValidActive e => ∃ s, DiffActive s ∈ entries ∧ e = peer_entry s | _ => True end) l.
Proof.
  revert l. induction entries as [|d entries IH]; simpl; [intros l [= <-]; constructor|].
  assert (∀ v l0, validate_digest_diff_entries url_parse sender entries = Ok l0 →
    match v with ValidActive e => ∃ s, DiffActive s ∈ d :: entries ∧ e = peer_entry s | _ => True end →
    Forall (fun v => match v with ValidActive e => ∃ s, DiffActive s ∈ d :: entries ∧ e = peer_entry s | _ => True end) (v :: l0)) as Hcons.
  { intros v l0 Hl0 Hv. constructor; [done|]. eapply Forall_impl; [by apply IH|].
    intros [] Hd; [|done]. destruct Hd as (s' & ? & ?). exists s'. split; [by right|done]. }
  intros l H. destruct d; res_inv H; injection H as <-; apply Hcons; try done. exists s. split; [by left|done].
Qed.

Lemma validate_cases env x v :
  validate_route_state_envelope url_parse env x = Ok v →
  from_option (fun s => pv_sender env = s) True x ∧
  (v = VMessage env ∨
   ∃ entries l, v = VDigestDiff l ∧ pv_message env = DigestDiff entries ∧
     validate_digest_diff_entries url_parse (pv_sender env) entries = Ok l).
Proof.
  unfold validate_route_state_envelope. intros H. do 3 (apply bind_ok in H as (? & ?%guard_err_ok & H)). split.
  - destruct x; [|done]. simpl in *. by apply negb_false_iff, bool_decide_eq_true in H2.
  - destruct (pv_message env) eqn:Hm; res_inv H; simplify_eq; eauto 8.
Qed.

(** Fields that validate pass the checks of the authority. *)
Lemma announce_checks_pass s :
  valid_active_fields url_parse s = true → announce_checks (ac_relay_id s) (peer_entry s) = Ok tt.
Proof.
  unfold valid_active_fields. rewrite !andb_true_iff. intros ((((((((Hn & Hi) & Hu) & Ht) & Ha) & Hs) & Hm) & Hk) & Hf).
  unfold announce_checks, check_name, check_relay, check_tag, check_hash. simpl. by rewrite Hn, Hi, Ht, Ha, Hs, Hf.
Qed.

Lemma full_sync_good (e : FullSyncEnvelope) now sync :
  validate_full_sync url_parse sha256_hex e now = Ok sync →
  Forall (good_peer url_parse) (fs_peers sync) ∧ fs_routes sync = to_peer_route_entry <$> sn_routes (en_snapshot e) ∧
  fs_peers sync = sn_peers (en_snapshot e).
Proof.
  assert (∀ l u, check_peers url_parse l = Ok u → Forall (good_peer url_parse) l) as Hp.
  { induction l as [|p l IH]; intros u; simpl; [constructor|]. intros (? & Hg%guard_err_ok & Hl)%bind_ok.
    apply orb_false_iff in Hg as [?%negb_false_iff ?%negb_false_iff]. constructor; [done|eauto]. }
  assert (∀ l r, check_routes url_parse sha256_hex l = Ok r → r = to_peer_route_entry <$> l) as Hr.
  { induction l as [|x l IH]; intros r; simpl; [by intros [= <-]|]. intros (? & _ & H)%bind_ok.
    apply bind_ok in H as (? & _ & H). apply bind_ok in H as (rest & Hl & [= <-]). f_equal. eauto. }
  unfold validate_full_sync. intros H. repeat (apply bind_ok in H as (? & ? & H)). simplify_eq. simpl. eauto.
Qed.

(** ** Events *)

Notation makes_event ev := (makes_at url_parse (authority ev) (fun e => offered ev (route_key e) (re_registered_at e))
  (fun retention => ev = CollectTombstones retention) (leaves ev)).
Notation acts ev := (conducts (own_table url_parse me) (makes_event ev)).

Lemma announce_event env : acts (PeerAnnounce env) (mesh_program (PeerAnnounce env)).
Proof.
  cbn [Mesh.mesh_program]. unfold handle_peer_announce. destruct (negb _); [constructor|].
  destruct (validate_route_state_envelope _ _ _) as [v| |] eqn:Hv; [|constructor..].
  destruct (validate_cases _ _ _ Hv) as [_ [->|(? & ? & -> & _)]]; [|constructor].
  destruct (pv_message env) eqn:Hm; try apply conducts_done; (apply conducts_bind; [|constructor]).
  - apply announce_acts; [intros url; exists s; simpl; by rewrite Hm|done].
  - by apply withdraw_acts.
Qed.

Lemma join_event env url : acts (PeerJoin env url) (mesh_program (PeerJoin env url)).
Proof.
  cbn [Mesh.mesh_program]. unfold handle_peer_join. destruct (negb _); [constructor|].
  destruct (pv_message env) as [| |id peer_url| | | | |]; try apply conducts_done.
  destruct (negb (bool_decide _)) eqn:Hid; [constructor|]. apply negb_false_iff, bool_decide_eq_true in Hid as ->.
  destruct (_ || _); [constructor|]. case_bool_decide; [constructor|]. apply conducts_bind.
  - apply writes_act. intros c t [Hwf Hr] gone _. apply join_makes; [by rewrite Hr|done].
  - intros []; [|constructor]. apply conducts_bind; [apply snapshot_acts|constructor].
Qed.

Lemma heartbeat_event env : acts (PeerHeartbeat env) (mesh_program (PeerHeartbeat env)).
Proof.
  cbn [Mesh.mesh_program]. unfold handle_peer_heartbeat. destruct (negb _); [constructor|].
  destruct (validate_route_state_envelope _ _ _) as [[env'|]| |]; [|constructor..]. destruct (pv_message env'); try apply conducts_done.
  destruct (_ || _); [constructor|]. apply conducts_bind.
  - unfold known_peer. destruct (negb _); [apply reads_act|constructor].
  - intros []; [|constructor]. apply (writes_act _ _ _ _ _ _ (fun c t => (update_peer t _ (beat (ck_now c) _), StatusOk))).
    intros c t _ gone _. by apply update_makes.
Qed.

(** What follows the check that the sender is trusted. *)
Lemma trusted_bind {A} inv (R : Clock → RouteTable → RouteTable → Prop) sender (k : bool → Task A) :
  (∀ c t, R c t t) → conducts inv R (k false) → (sender ≠ me → conducts inv R (k true)) →
  conducts inv R (prog_bind (trusted_peer me sender) k).
Proof.
  intros HR Hf Ht. unfold trusted_peer. case_bool_decide as Hme; [done|]. cbn [negb]. apply conducts_bind; [by apply conducts_reads|].
  intros []; auto.
Qed.
Lemma makes_event_refl ev c t : makes_event ev c t t.
Proof. intros gone _. apply makes_refl. Qed.

Lemma leave_event env : acts (PeerLeave env) (mesh_program (PeerLeave env)).
Proof.
  cbn [Mesh.mesh_program]. unfold handle_peer_leave. destruct (negb _); [constructor|].
  destruct (validate_route_state_envelope _ _ _) as [v| |] eqn:Hv; [|constructor..].
  destruct (validate_cases _ _ _ Hv) as [_ [->|(? & ? & -> & _)]]; [|constructor].
  destruct (pv_message env) eqn:Hm; try apply conducts_done.
  destruct (_ || _) eqn:Hb; [constructor|]. rewrite !orb_false_iff, !negb_false_iff, bool_decide_eq_true in Hb. destruct Hb as [_ <-].
  apply trusted_bind; [apply makes_event_refl|constructor|]. intros Hne. cbn [negb].
  apply conducts_bind; [by apply remove_peer_routes_acts|]. intros _. by apply drop_acts.
Qed.

Lemma diff_event ev sender entries l :
  (∀ id, id = sender → id ≠ me → authority ev id) →
  (∀ s, DiffActive s ∈ entries → offered ev (ac_name s, ac_relay_id s) (ac_registered_at s)) →
  validate_digest_diff_entries url_parse sender entries = Ok l → acts ev (apply_diffs url_parse me sender l).
Proof.
  intros Hwho Hoff Hl. apply diffs_act; [by apply Hwho|]. eapply Forall_impl; [by eapply diff_entries_offered|].
  intros [e|]; [|done]. intros (s & Hin & ->) url. by apply (Hoff s).
Qed.

Lemma digest_event env : acts (PeerDigest env) (mesh_program (PeerDigest env)).
Proof.
  cbn [Mesh.mesh_program]. unfold handle_peer_digest. destruct (_ || _); [constructor|].
  apply trusted_bind; [apply makes_event_refl|constructor|]. intros Hne. cbn [negb].
  destruct (validate_route_state_envelope _ _ _) as [v| |] eqn:Hv; [|constructor..].
  destruct (validate_cases _ _ _ Hv) as [_ [->|(entries & l & -> & Hm & Hl)]].
  - destruct env as [ver sender m]. destruct m; try apply conducts_done. cbn [pv_message pv_sender] in *.
    apply conducts_bind; [apply reads_act|]. intros ours. apply conducts_bind; [apply own_differences_acts|]. intros own.
    apply conducts_bind; [|constructor]. by apply missing_acts.
  - apply conducts_bind; [|constructor]. eapply diff_event; [simpl; by rewrite Hm| |done]. intros s Hs. exists s. simpl. by rewrite Hm.
Qed.

Lemma answer_event peer r : acts (DigestAnswer peer r) (mesh_program (DigestAnswer peer r)).
Proof.
  simpl. destruct r as [| | | | |env|]; simpl; try apply conducts_done.
  destruct (validate_route_state_envelope _ _ _) as [v| |] eqn:Hv; [|constructor..].
  destruct (validate_cases _ _ _ Hv) as [Hsend [->|(entries & l & -> & Hm & Hl)]]; [constructor|]. simpl in Hsend.
  apply conducts_bind; [|constructor]. eapply diff_event; [by intros id -> ?| |by rewrite <- Hsend]. intros s Hs. exists s. simpl. by rewrite Hm.
Qed.

Lemma seed_event (e : FullSyncEnvelope) : acts (SeedAnswer e) (mesh_program (SeedAnswer e)).
Proof.
  apply conducts_writes. intros c t [Hwf Hr]. destruct (validate_full_sync _ _ _ _) as [sync| |] eqn:Hv.
  2,3: eexists _, _; split; [done|]; apply makes_event_refl.
  destruct (full_sync_good _ _ _ Hv) as (Hg & Hrs & _).
  assert (∀ gone, ∃ t', merge_validated_snapshot url_parse t sync (ck_now c) = Ok t' ∧
    makes url_parse (authority (SeedAnswer e)) (fun x => offered (SeedAnswer e) (route_key x) (re_registered_at x)) (ck_now c)
      (fun now retention => now = ck_now c ∧ SeedAnswer e = CollectTombstones retention) gone t t') as Hm.
  { intros gone. apply merge_does; [done| |by rewrite Hr|lia|done].
    rewrite Hrs. intros r url (x & -> & Hx)%list_elem_of_fmap. by exists x. }
  destruct (Hm (fun _ => True)) as (t' & Ht' & _). rewrite Ht'. exists t', NoReply. split; [done|]. intros gone _.
  destruct (Hm gone) as (t2 & Ht2 & Hmk). congruence.
Qed.

Lemma commit_event url o cert : acts (RegisterLocal url o cert) (mesh_program (RegisterLocal url o cert)).
Proof.
  apply conducts_writes. intros c t [Hwf Hr].
  assert (∀ gone, ∃ t' x, commit_local url_parse t url o cert (ck_wall c) = Ok (t', x) ∧
    makes url_parse (authority (RegisterLocal url o cert)) (fun x => offered (RegisterLocal url o cert) (route_key x) (re_registered_at x)) (ck_now c)
      (fun now retention => now = ck_now c ∧ RegisterLocal url o cert = CollectTombstones retention) gone t t') as Hm.
  { intros gone. apply commit_makes; [done|]. intros f. unfold route_key. simpl. by rewrite Hr. }
  destruct (Hm (fun _ => True)) as (t' & x & Ht' & _). rewrite Ht'. exists t', NoReply. split; [done|]. intros gone _.
  destruct (Hm gone) as (t2 & x2 & Ht2 & Hmk). congruence.
Qed.

Lemma mesh_program_acts ev : acts ev (mesh_program ev).
Proof.
  destruct ev; [apply announce_event|apply join_event|apply heartbeat_event|apply leave_event|apply digest_event|apply answer_event
    |apply seed_event|..].
  - apply conducts_locked. intros c t _. eexists _, _. split_and!; [done|apply makes_event_refl|]. by apply detect_acts.
  - apply (writes_act _ _ _ _ _ _ (fun c t => (update_peer t id _, NoReply))). intros c t _ gone _. by apply update_makes.
  - apply (writes_act _ _ _ _ _ _ (fun c t => ((gc_tombstones t (ck_now c) retention).1, NoReply))). intros c t _ gone _.
    split; [by apply ch_collect|done].
  - apply commit_event.
  - apply (writes_act _ _ _ _ _ _ (fun c t => ((unregister_registration t s (ck_wall c) (ck_now c)).1, NoReply))).
    intros c t [Hwf Hr] gone _. apply unregister_registration_makes; [done|lia|done].
  - apply (writes_act _ _ _ _ _ _ (fun c t => ((unregister_local t name server (ck_wall c) (ck_now c)).1, NoReply))).
    intros c t [Hwf Hr] gone _. apply unregister_local_makes; [done|lia|done].
  - apply (writes_act _ _ _ _ _ _ (fun c t => ((unregister_local_route_if_matches t expected (ck_wall c) (ck_now c)).1.1, NoReply))).
    intros c t [Hwf Hr] gone _. apply if_matches_makes; [done|lia|done].
Qed.

(** ** Runs *)

Notation MeshWorld := (World RouteTable MeshEvent MeshReply).
Implicit Types (w : MeshWorld).
Notation mesh_inv := (world_inv (own_table url_parse me) (fun ev => makes_event ev)).

Lemma mesh_inv_new wall : mesh_inv (mesh_new me wall).
Proof. by split; [split; [split|]|]. Qed.

Lemma mesh_step_ok w s : mesh_inv w → ∃ w', mesh_step w s = Ok w' ∧ mesh_inv w' ∧
  (w_state w' = w_state w ∨ ∃ ev c, section_of w s ev c ∧ makes_event ev c (w_state w) (w_state w')).
Proof. apply (world_step_ok _ _ (fun ev => makes_event ev)); [intros ev c t t' Ht; by apply makes_at_own|apply mesh_program_acts]. Qed.

Lemma mesh_run_ok l w : mesh_inv w → ∃ w', mesh_run w l = Ok w' ∧ mesh_inv w'.
Proof. apply (world_run_ok _ _ (fun ev => makes_event ev)); [intros ev c t t' Ht; by apply makes_at_own|apply mesh_program_acts]. Qed.

Lemma mesh_run_keeps (K : RouteTable → Prop) l w w' :
  mesh_inv w → mesh_run w l = Ok w' →
  (∀ ev i c t t', Proceed i c ∈ l → present w l i ev → own_table url_parse me t → makes_event ev c t t' → K t → K t') →
  K (w_state w) → K (w_state w').
Proof.
  apply (world_run_keeps _ _ (fun ev => makes_event ev)); [intros ev c t t' Ht; by apply makes_at_own|apply mesh_program_acts].
Qed.

(** Routes of peers are at the URL their owner is known by. *)
Definition table_inv t : Prop := table_wf t ∧ owners_known (fun _ => True) t.

Lemma mesh_run_reaches wall l w : mesh_run (mesh_new me wall) l = Ok w → mesh_inv w.
Proof. intros H. destruct (mesh_run_ok l _ (mesh_inv_new wall)) as (w' & Hw' & Hi). congruence. Qed.

Lemma mesh_run_inv wall l w : mesh_run (mesh_new me wall) l = Ok w → table_inv (w_state w) ∧ relay_id (w_state w) = me.
Proof.
  intros H. destruct (mesh_run_reaches _ _ _ H) as [[Hwf Hr] _]. split; [|done]. split; [done|].
  eapply (mesh_run_keeps (owners_known (fun _ => True))); [apply mesh_inv_new|exact H| |done].
  intros ev i c t t' _ _ _ Hm. by apply (Hm (fun _ => True)).
Qed.

Lemma mesh_run_sealed l w w' k f since :
  mesh_inv w → mesh_run w l = Ok w' → f64_is_finite f = true →
  (∀ i c, Proceed i c ∈ l → since <= ck_now c) →
  (∀ i c retention, Proceed i c ∈ l → present w l i (CollectTombstones retention) → ck_now c - since < retention ∧ 0 < retention) →
  (∀ i c ev g, Proceed i c ∈ l → present w l i ev → offered ev k g → SFleb g f = true) →
  sealed since (w_state w) k f → sealed since (w_state w') k f.
Proof.
  intros Hw Hrun Hf Hnow Hgc Hoff. apply (mesh_run_keeps (fun t => sealed since t k f) l w w' Hw Hrun).
  intros ev i c t t' Hi Hp [Hwf _] Hm. destruct (Hm (fun _ => True) (fun _ _ => I)) as [Hc _].
  apply (change_mono _ _ _ _ since) in Hc; [|by apply (Hnow i)]. eapply change_sealed; [exact Hc|done|done| |].
  - intros n r [-> ->]. by apply (Hgc i).
  - intros e He <-. by apply (Hoff i c ev).
Qed.
End events.

(** ** Resolution *)

Lemma compare_swap x y : SFcompare y x = CompOpp <$> SFcompare x y.
Proof.
  destruct x as [[]|[]| |[] mx ex], y as [[]|[]| |[] my ey]; try done; simpl; rewrite (Z.compare_antisym ex ey);
    destruct (ex ?= ey)%Z; try done; simpl;
    change (Pos.compare_cont Eq ?a ?b) with (Pos.compare a b); rewrite (Pos.compare_antisym mx my); by destruct (mx ?= my)%positive.
Qed.

Lemma str_leb_total a b : str_leb a b = true ∨ str_leb b a = true.
Proof.
  revert b. induction a as [|x a IH]; intros [|y b]; simpl; auto.
  destruct (Z.ltb_spec (u8 x) (u8 y)), (Z.ltb_spec (u8 y) (u8 x)); auto.
Qed.

#[export] Instance peer_le_total : Total peer_le.
Proof.
  intros a b. unfold peer_le, peer_leb. rewrite (compare_swap (re_registered_at a)).
  destruct (SFcompare _ _) as [[]|]; simpl; auto using str_leb_total.
Qed.

Section resolve.
Context (url_parse : str → option Url) (t : RouteTable) (Hwf : table_wf url_parse t).

Lemma candidates_elem (x : ExpectedRouteContract) e :
  e ∈ filter (fun e => contract_matches e x = true)
        (filter (fun kv => kv.1.1 = erc_route_name x) (map_to_list (routes t))).*2 ↔
  routes t !! (erc_route_name x, re_relay_id e) = Some e ∧ contract_matches e x = true.
Proof using Hwf.
  rewrite list_elem_of_filter, list_elem_of_fmap. split.
  - intros (Hc & [k e'] & -> & [Hk Hin%elem_of_map_to_list]%list_elem_of_filter). split; [|done]. simpl in *.
    destruct (wf_route _ _ Hwf _ _ Hin) as [-> _]. simpl in Hk. by rewrite <- Hk.
  - intros [He Hc]. split; [done|]. exists ((erc_route_name x, re_relay_id e), e). split; [done|].
    apply list_elem_of_filter. split; [done|]. by apply elem_of_map_to_list.
Qed.

Lemma candidates_nodup (x : ExpectedRouteContract) :
  NoDup (re_relay_id <$> filter (fun e => contract_matches e x = true)
        (filter (fun kv => kv.1.1 = erc_route_name x) (map_to_list (routes t))).*2).
Proof using Hwf.
  apply NoDup_fmap_2_strong.
  - intros e1 e2 [H1 _]%candidates_elem [H2 _]%candidates_elem Heq. congruence.
  - apply NoDup_filter, NoDup_fmap_2_strong; [|apply NoDup_filter, NoDup_map_to_list].
    intros [k1 e1] [k2 e2] [_ H1%elem_of_map_to_list]%list_elem_of_filter [_ H2%elem_of_map_to_list]%list_elem_of_filter.
    simpl. intros ->. destruct (wf_route _ _ Hwf _ _ H1), (wf_route _ _ Hwf _ _ H2). congruence.
Qed.

(** The relay's own route, when it fulfils the contract. *)
Definition own_match (x : ExpectedRouteContract) : list RouteEntry :=
  filter (fun e => contract_matches e x = true) (option_list (local_route t (erc_route_name x))).

Lemma locals_eq (x : ExpectedRouteContract) :
  filter (fun e => re_locality e = Local) (filter (fun e => contract_matches e x = true)
        (filter (fun kv => kv.1.1 = erc_route_name x) (map_to_list (routes t))).*2) = own_match x.
Proof using Hwf.
  set (L := filter _ _). assert (L ≡ₚ own_match x) as Hp.
  { apply NoDup_Permutation.
    - apply NoDup_filter. eapply NoDup_fmap_1, candidates_nodup.
    - apply NoDup_filter. destruct (local_route _ _); simpl; repeat constructor. apply not_elem_of_nil.
    - intros e. unfold L, own_match. rewrite list_elem_of_filter, candidates_elem, list_elem_of_filter.
      assert (e ∈ option_list (local_route t (erc_route_name x)) ↔ local_route t (erc_route_name x) = Some e) as ->.
      { destruct (local_route _ _); simpl; rewrite ?list_elem_of_singleton, ?elem_of_nil; naive_solver. }
      split.
      + intros (Hl & He & Hc). split; [done|]. destruct (wf_route _ _ Hwf _ _ He) as [_ Hv%valid_entry_local].
        apply Hv in Hl. unfold local_route. congruence.
      + intros [Hc He]. destruct (wf_route _ _ Hwf _ _ He) as [Hk Hv%valid_entry_local].
        injection Hk as Hn Hr. split_and!; [by apply Hv|by rewrite <- Hr|done]. }
  unfold own_match in *. destruct (local_route _ _) as [e|]; simpl in *; [|by rewrite filter_nil in *; apply Permutation_nil_r in Hp].
  rewrite filter_cons, filter_nil in *.
  destruct (decide (contract_matches e x = true)); [by apply Permutation_singleton_r in Hp|by apply Permutation_nil_r in Hp].
Qed.

Lemma resolve_spec (x : ExpectedRouteContract) :
  is_ok (validate_expected_route_contract x) = true →
  ∃ ps, resolve_matching t x = to_route_info <$> (own_match x ++ ps) ∧ Sorted peer_le ps ∧ NoDup (re_relay_id <$> ps) ∧
    ∀ e, e ∈ ps ↔ routes t !! (erc_route_name x, re_relay_id e) = Some e ∧ contract_matches e x = true ∧
      re_locality e = Peer ∧ peer_is_alive t (re_relay_id e) = true.
Proof using Hwf.
  intros Hx. unfold resolve_matching. rewrite Hx. simpl. rewrite locals_eq.
  set (L := filter (fun e => re_locality e = Peer ∧ _) _). exists (merge_sort peer_le L). split_and!.
  - by rewrite fmap_app.
  - apply Sorted_merge_sort; apply _.
  - rewrite (merge_sort_Permutation peer_le L). unfold L.
    apply NoDup_fmap_2_strong; [|apply NoDup_filter; eapply NoDup_fmap_1, candidates_nodup].
    intros e1 e2 [_ [H1 _]%candidates_elem]%list_elem_of_filter [_ [H2 _]%candidates_elem]%list_elem_of_filter Heq. congruence.
  - intros e. rewrite (merge_sort_Permutation peer_le L). unfold L. rewrite list_elem_of_filter, candidates_elem. tauto.
Qed.
End resolve.

(** A peer's route shows nothing private of its owner. *)
Lemma peer_info_private e :
  re_locality e = Peer →
  ri_ipc_address (to_route_info e) = None ∧ ri_server_id (to_route_info e) = None ∧
  ri_server_instance_id (to_route_info e) = None.
Proof. unfold to_route_info. intros ->. done. Qed.

(** A mesh of two relays, for the examples: URLs all parse, and the digest of a text is
    the sum of its bytes in hexadecimal. *)
Module SampleMesh.
Definition txt (l : list Z) : str := byte.of_Z <$> l.
Definition parse (_ : str) : option Url :=
  Some {| url_scheme := str_http; url_host := Some []; url_query := None; url_fragment := None; url_username := [];
          url_password := None |}.
Definition hex (n : Z) : Init.Byte.byte := byte.of_Z (if n <? 10 then 48 + n else 87 + n).
Definition sum16 (x : bytes) : Z := foldr (fun b n => u8 b + n) 0 x.
Definition sha (x : bytes) : str := (fun i => hex (sum16 x / 16 ^ Z.of_nat i mod 16)) <$> seq 0 64.

Definition id_a : str := txt [97].
Definition id_b : str := txt [98].
Definition url_a : str := txt [104; 97].
Definition url_b : str := txt [104; 98].
Definition route_r : str := txt [114].
Definition word : str := txt [119].
Definition hash64 : str := replicate 64 (byte.of_Z 48).

Definition state_at (name id url : str) (at_ : Z) : ActiveState :=
  {| ac_name := name; ac_relay_id := id; ac_relay_url := url; ac_crm_ns := word; ac_crm_name := word; ac_crm_ver := word;
     ac_abi_hash := hash64; ac_signature_hash := hash64; ac_max_payload_size := 1024; ac_route_uid := word;
     ac_registered_at := f64_of_u64 at_ |}.
Definition owner (name : str) : LocalRouteOwner :=
  {| lo_name := name; lo_server_id := word; lo_server_instance_id := word; lo_address := ipc_scheme ++ word |}.
Definition contract : AttestedRouteContract :=
  {| at_route_uid := word; at_crm_ns := word; at_crm_name := word; at_crm_ver := word; at_abi_hash := hash64;
     at_signature_hash := hash64; at_max_payload_size := 1024 |}.
Definition expected : ExpectedRouteContract :=
  {| erc_route_name := route_r; erc_crm_ns := word; erc_crm_name := word; erc_crm_ver := word; erc_abi_hash := hash64;
     erc_signature_hash := hash64 |}.

(** Relay b joins relay a, announces a route and withdraws it. *)
Definition join_b : MeshEvent := PeerJoin (PeerEnvelope_new id_b (RelayJoin id_b url_b)) url_a.
Definition announce (at_ : Z) : MeshEvent :=
  PeerAnnounce (PeerEnvelope_new id_b (RouteAnnounce (state_at route_r id_b url_b at_))).
Definition withdraw (at_ : Z) : MeshEvent :=
  PeerAnnounce (PeerEnvelope_new id_b (RouteWithdraw route_r id_b (f64_of_u64 at_))).
Definition own : MeshEvent := RegisterLocal url_a (owner route_r) contract.

Definition clock (now : Z) : Clock := {| ck_wall := 1000; ck_now := now |}.
(** The task of [ev], with nothing between its sections. *)
Definition whole (ev : MeshEvent) (now : Z) : list (Step MeshEvent) := Arrive 0 ev :: replicate 6 (Proceed 0 (clock now)).

Definition start : World RouteTable MeshEvent MeshReply := mesh_new id_a 1.
Definition run : list (Step MeshEvent) → res Empty_set (World RouteTable MeshEvent MeshReply) := mesh_run parse sha id_a start.
Definition world (l : list (Step MeshEvent)) : World RouteTable MeshEvent MeshReply := match run l with Ok w => w | _ => start end.
Definition table (l : list (Step MeshEvent)) : RouteTable := w_state (world l).

Lemma world_runs l : is_ok (run l) = true → run l = Ok (world l).
Proof. unfold world. by destruct (run l). Qed.
End SampleMesh.

(** ** Properties *)

Section claims.
Context (url_parse : str → option Url) (sha256_hex : bytes → str) (me : str).
Notation mesh_run := (mesh_run url_parse sha256_hex me).

(** C15 A relay speaks only for itself: however the sections of tasks interleave, a run
    leaves every route and tombstone alone whose owner none of its running tasks has
    authority over, so no message of a peer changes the routes of this relay or of a third
    one, and heartbeats change none. *)
Theorem peers_speak_for_themselves wall l0 w l w' k :
  mesh_run (mesh_new me wall) l0 = Ok w → mesh_run w l = Ok w' →
  (∀ i c ev, Proceed i c ∈ l → present w l i ev → ¬ authority me ev k.2) →
  routes (w_state w') !! k = routes (w_state w) !! k ∧ tombstones (w_state w') !! k = tombstones (w_state w) !! k.
Proof.
  intros Hw%mesh_run_reaches Hrun Hk.
  apply (mesh_run_keeps url_parse sha256_hex me (fun t => routes t !! k = routes (w_state w) !! k ∧
    tombstones t !! k = tombstones (w_state w) !! k) l w w' Hw Hrun); [|done].
  intros ev i c t t' Hi Hp [Hwf _] Hm [<- <-]. destruct (Hm (fun _ => True) (fun _ _ => I)) as [Hc _].
  eapply change_frame; [exact Hc|done|by eapply Hk].
Qed.

(** C14 A deleted route stays deleted: while its tombstone is within its retention, no
    interleaving of tasks brings the route back unless one of them offers a registration
    newer than the deletion, and the tombstone never gets older. *)
Theorem deleted_stays_deleted wall l0 w k b l w' :
  mesh_run (mesh_new me wall) l0 = Ok w → tombstones (w_state w) !! k = Some b → mesh_run w l = Ok w' →
  (∀ i c, Proceed i c ∈ l → tb_observed_at b <= ck_now c) →
  (∀ i c retention, Proceed i c ∈ l → present w l i (CollectTombstones retention) →
     ck_now c - tb_observed_at b < retention ∧ 0 < retention) →
  (∀ i c ev f, Proceed i c ∈ l → present w l i ev → offered me ev k f → SFleb f (tb_removed_at b) = true) →
  routes (w_state w') !! k = None ∧
  ∃ b', tombstones (w_state w') !! k = Some b' ∧ SFleb (tb_removed_at b) (tb_removed_at b') = true.
Proof.
  intros Hw%mesh_run_reaches Hb Hl Hnow Hgc Hoff. destruct (wi_state _ _ _ Hw) as [Hwf _].
  assert (f64_is_finite (tb_removed_at b) = true) as Hfin.
  { apply valid_tombstone_finite. by destruct (wf_tombstone _ _ Hwf _ _ Hb). }
  destruct (mesh_run_sealed url_parse sha256_hex me l w w' k (tb_removed_at b) (tb_observed_at b)) as (b' & Hb' & Hle & _); [done..| |].
  { exists b. split_and!; [done|by apply f64_le_refl|lia]. }
  split; [|by exists b']. destruct (routes (w_state w') !! k) as [e|] eqn:He; [|done].
  destruct (mesh_run_ok url_parse sha256_hex me l w Hw) as (w2 & H2 & [[Hwf2 _] _]). rewrite Hl in H2. injection H2 as <-.
  rewrite (wf_exclusive _ _ Hwf2 _ _ He) in Hb'. done.
Qed.

(** Resolution is exact: for a valid contract it lists this relay's own route first if
    that fulfils it, then, once each and ordered by registration time and relay, exactly
    the routes of that name which fulfil it and belong to peers that are alive, with no
    private field of a peer. *)
Theorem resolve_exact wall l w x :
  mesh_run (mesh_new me wall) l = Ok w → is_ok (validate_expected_route_contract x) = true →
  ∃ ps, resolve_matching (w_state w) x = to_route_info <$> (own_match (w_state w) x ++ ps) ∧
    Sorted peer_le ps ∧ NoDup (re_relay_id <$> ps) ∧
    (∀ e, e ∈ ps ↔ routes (w_state w) !! (erc_route_name x, re_relay_id e) = Some e ∧ contract_matches e x = true ∧
      re_locality e = Peer ∧ peer_is_alive (w_state w) (re_relay_id e) = true) ∧
    (∀ e, e ∈ ps → ri_ipc_address (to_route_info e) = None ∧ ri_server_id (to_route_info e) = None ∧
      ri_server_instance_id (to_route_info e) = None).
Proof.
  intros Hrun Hx. destruct (mesh_run_inv _ _ _ _ _ _ Hrun) as [[Hwf _] _].
  destruct (resolve_spec url_parse (w_state w) Hwf x Hx) as (ps & Hr & Hs & Hn & He). exists ps. split_and!; [done..|].
  intros e Hin. apply peer_info_private. by apply He.
Qed.
End claims.

Section witnesses.
Import SampleMesh.

Lemma peers_speak_witness :
  let l := whole join_b 0 ++ whole own 0 in
  routes (table (l ++ whole (announce 5) 1)) !! (route_r, id_a) = routes (table l) !! (route_r, id_a) ∧
  tombstones (table (l ++ whole (announce 5) 1)) !! (route_r, id_a) = tombstones (table l) !! (route_r, id_a).
Proof.
  intros l. apply (peers_speak_for_themselves parse sha id_a 1 l (world l) (whole (announce 5) 1)).
  - apply world_runs. by vm_compute.
  - vm_compute. reflexivity.
  - intros i c ev _ [[p Hp]|Hin].
    + replace (w_tasks (world l)) with (∅ : gmap nat (MeshEvent * Task MeshReply)) in Hp by (vm_compute; reflexivity). done.
    + unfold whole in Hin. simpl in Hin. rewrite !elem_of_cons in Hin. destruct_or!; simplify_eq; [|by apply not_elem_of_nil in Hin].
      intros [Heq _]. vm_compute in Heq. discriminate.
Defined.

Definition sample_tombstone : RouteTombstone :=
  {| tb_name := route_r; tb_relay_id := id_b; tb_removed_at := f64_of_u64 7; tb_server_id := None; tb_observed_at := 2 |}.

Lemma deleted_stays_witness :
  let l := whole join_b 0 ++ whole (announce 5) 1 ++ whole (withdraw 7) 2 in
  routes (table (l ++ whole (announce 6) 3)) !! (route_r, id_b) = None ∧
  ∃ b', tombstones (table (l ++ whole (announce 6) 3)) !! (route_r, id_b) = Some b' ∧
    SFleb (f64_of_u64 7) (tb_removed_at b') = true.
Proof.
  intros l.
  assert (∀ i ev, present (world l) (whole (announce 6) 3) i ev → ev = announce 6) as Hpresent.
  { intros i ev [[p Hp]|Hin].
    - replace (w_tasks (world l)) with (∅ : gmap nat (MeshEvent * Task MeshReply)) in Hp by (vm_compute; reflexivity). done.
    - unfold whole in Hin. simpl in Hin. rewrite !elem_of_cons in Hin. destruct_or!; simplify_eq; [done|by apply not_elem_of_nil in Hin]. }
  apply (deleted_stays_deleted parse sha id_a 1 l (world l) (route_r, id_b) sample_tombstone (whole (announce 6) 3)).
  - apply world_runs. by vm_compute.
  - vm_compute. reflexivity.
  - vm_compute. reflexivity.
  - intros i c Hin. unfold whole in Hin. simpl in Hin. rewrite !elem_of_cons in Hin.
    destruct_or!; simplify_eq; simpl; first [lia|by apply not_elem_of_nil in Hin].
  - intros i c retention _ Hp%Hpresent. discriminate.
  - intros i c ev f _ ->%Hpresent (s & -> & _ & ->). vm_compute. reflexivity.
Defined.

Lemma resolve_exact_witness :
  let l := whole join_b 0 ++ whole (announce 5) 1 ++ whole own 1 in
  ∃ ps, resolve_matching (table l) expected = to_route_info <$> (own_match (table l) expected ++ ps) ∧
    Sorted peer_le ps ∧ length ps = 1%nat.
Proof.
  intros l. destruct (resolve_exact parse sha id_a 1 l (world l) expected)
    as (ps & Hr & Hs & _); [apply world_runs; by vm_compute|by vm_compute|].
  exists ps. split_and!; [done..|]. apply (f_equal length) in Hr. rewrite length_fmap, length_app in Hr.
  vm_compute in Hr. by injection Hr.
Defined.
End witnesses.
