(* ===== verification/MeshLeave.v ===== *)
(** A peer that leaves: the handler removes the peer's routes and then, in a second section
    under the lock, the peer.  The type of the table in every interleaving, what holds when
    nothing comes between the two sections, and what an announcement does that does. *)

From S2P Require Import Prelude.
From S2P Require Import Locked.
From S2P Require Import Text.
From S2P Require Import Float64.
From S2P Require Import RouteTable.
From S2P Require Import RouteSync.
From S2P Require Import RouteInv.
From S2P Require Import Mesh.
From S2P Require Import MeshInv.
From S2P Require Import MeshSafe.

Section leave.
Context (url_parse : str → option Url) (sha256_hex : bytes → str) (me : str).
Implicit Types (t : RouteTable) (e : RouteEntry) (env : PeerEnvelope) (ev : MeshEvent) (c : Clock).
Implicit Types (w : World RouteTable MeshEvent MeshReply).
Notation mesh_step := (mesh_step url_parse sha256_hex me).
Notation mesh_run := (mesh_run url_parse sha256_hex me).
Notation mesh_inv := (world_inv (own_table url_parse me) (fun ev => makes_at url_parse (authority me ev)
  (fun e => offered me ev (route_key e) (re_registered_at e)) (fun retention => ev = CollectTombstones retention) (leaves ev))).

(** Task [i] has removed the routes of the peer, and not yet the peer. *)
Definition leaving w (i : nat) : Prop := ∃ ev id, w_tasks w !! i = Some (ev, drop_peer id).

(** While a task is between these sections no other task has one. *)
Fixpoint undisturbed w (l : list (Step MeshEvent)) : Prop :=
  match l with
  | [] => True
  | s :: l =>
      (∀ i j c, leaving w i → s = Proceed j c → i = j) ∧ (∀ w', mesh_step w s = Ok w' → undisturbed w' l)
  end.

(** The relays that leave in a run. *)
Definition left_in (l : list (Step MeshEvent)) (id : str) : Prop := ∃ i ev, Arrive i ev ∈ l ∧ leaves ev id.

Notation nobody := (fun _ : str => False).

(** Where a leave stands. *)
Definition leave_stage t env (p : Task MeshReply) : Prop :=
  p = Mesh.handle_peer_leave url_parse me env ∨ (∃ r, p = Done r) ∨
  ∃ id, valid_relay_id id = true ∧ id ≠ me ∧
    (p = prog_bind (remove_peer_routes me id) (fun _ => drop_peer id) ∨
     p = drop_peer id ∧ ∀ name, routes t !! (name, id) = None).
Definition stage t ev (p : Task MeshReply) : Prop := match ev with PeerLeave env => leave_stage t env p | _ => True end.

Lemma remove_bind id : valid_relay_id id = true → id ≠ me →
  prog_bind (remove_peer_routes me id) (fun _ => drop_peer id) =
  Locked (fun _ t => Ok ((remove_routes_by_relay t id).1, drop_peer id)).
Proof. intros Hv Hne. unfold remove_peer_routes. rewrite Hv, bool_decide_false by done. done. Qed.

(** The first section of a leave finds out whether the peer is alive. *)
Lemma leave_first env :
  (∃ r, Mesh.handle_peer_leave url_parse me env = Done r) ∨
  ∃ id, valid_relay_id id = true ∧ id ≠ me ∧ Mesh.handle_peer_leave url_parse me env = Locked (fun _ t =>
    Ok (t, if negb (peer_is_alive t id) then Done StatusOk
           else prog_bind (remove_peer_routes me id) (fun _ => drop_peer id))).
Proof.
  unfold Mesh.handle_peer_leave. destruct (negb _); [eauto|]. destruct (validate_route_state_envelope _ _ _) as [[x|]| |]; eauto.
  destruct (pv_message x); eauto. destruct (_ || _) eqn:Hb; [eauto|].
  rewrite !orb_false_iff, !negb_false_iff, bool_decide_eq_true in Hb. destruct Hb as [[Hv _] <-].
  unfold trusted_peer. case_bool_decide; [left; eexists; done|]. right. exists (pv_sender x). done.
Qed.

Lemma leave_section t env c f t' p :
  own_table url_parse me t → leave_stage t env (Locked f) → f c t = Ok (t', p) → owners_known nobody t →
  owners_known nobody t' ∧ leave_stage t' env p.
Proof.
  intros [Hwf _] [Hp|[[r [=]]|(id & Hv & Hne & [Hp|[Hp Hno]])]] Hf Ho.
  - destruct (leave_first env) as [[r Hr]|(id & Hv & Hne & Hr)]; rewrite Hr in Hp; [done|]. injection Hp as ->.
    injection Hf as <- <-. split; [done|]. destruct (negb _); [by right; left; eexists|]. right. right. eauto.
  - rewrite remove_bind in Hp by done. injection Hp as ->. injection Hf as <- <-. split; [by apply forget_routes_known|].
    right. right. exists id. split_and!; [done..|]. right. split; [done|]. intros name. simpl.
    apply map_lookup_filter_None. right. naive_solver.
  - injection Hp as ->. injection Hf as <- <-. split; [|by right; left; eexists]. intros k e He Hl. simpl in *.
    destruct (Ho k e He Hl) as [(q & Hq & Hu)|[_ []]]. left. exists q. split; [|done]. rewrite lookup_delete_ne; [done|].
    intros ->. destruct (wf_route _ _ Hwf _ _ He) as [-> _]. unfold route_key in He. by rewrite Hno in He.
Qed.

(** A section of any other task leaves every owner known. *)
Lemma other_section ev c t t' :
  (∀ env, ev ≠ PeerLeave env) →
  makes_at url_parse (authority me ev) (fun e => offered me ev (route_key e) (re_registered_at e))
    (fun retention => ev = CollectTombstones retention) (leaves ev) c t t' →
  owners_known nobody t → owners_known nobody t'.
Proof. intros Hev Hm. apply (Hm nobody). destruct ev; try done. by destruct (Hev env). Qed.

Lemma program_stage t ev : stage t ev (mesh_program url_parse sha256_hex me ev).
Proof. destruct ev; simpl; try done. by left. Qed.

(** Only the last section of a leave depends on the table. *)
Lemma stage_moves t t' ev p : (∀ id, p ≠ drop_peer id) → stage t ev p → stage t' ev p.
Proof. intros Hp. destruct ev; try done. intros [->|[?|(id & Hv & Hne & [->|[-> _]])]]; [by left|by right; left| |by destruct (Hp id)]. right. right. eauto. Qed.

Record settled w : Prop := {
  se_owners : owners_known nobody (w_state w);
  se_stage i ev p : w_tasks w !! i = Some (ev, p) → stage (w_state w) ev p }.

Lemma section_settled t ev c f t' p :
  own_table url_parse me t → conducts (own_table url_parse me) (makes_at url_parse (authority me ev)
    (fun e => offered me ev (route_key e) (re_registered_at e)) (fun retention => ev = CollectTombstones retention) (leaves ev)) (Locked f) →
  stage t ev (Locked f) → f c t = Ok (t', p) → owners_known nobody t → owners_known nobody t' ∧ stage t' ev p.
Proof.
  intros Ht Hp Hs Hf Ho. inv Hp as [|? Hl]. destruct (Hl c t Ht) as (t2 & p2 & Hf2 & Hm & _). rewrite Hf in Hf2. injection Hf2 as <- <-.
  destruct ev. 4: by eapply leave_section. all: split; [by eapply other_section; [|exact Hm|]|done].
Qed.

Lemma undisturbed_step w s w' :
  mesh_inv w → settled w → (∀ i j c, leaving w i → s = Proceed j c → i = j) → mesh_step w s = Ok w' → settled w'.
Proof.
  intros Hw [Ho Hst] Hq Hs. destruct s as [j ev|j c]; cbn in Hs.
  - injection Hs as <-. destruct (w_tasks w !! j); [done|]. split; cbn; [done|].
    intros i ev' p [[<- [= <- <-]]|[_ ?]]%lookup_insert_Some; [apply program_stage|eauto].
  - destruct (w_tasks w !! j) as [[ev [r|f]]|] eqn:Hj; [|apply bind_ok in Hs as ([t' p] & Hf & [= <-])|by injection Hs as <-].
    + injection Hs as <-. split; cbn; [done|]. intros i ev' p [_ ?]%lookup_delete_Some. eauto.
    + destruct (section_settled (w_state w) ev c f t' p) as [Ho' Hp']; [apply Hw|by apply Hw in Hj|by eapply Hst|done..|].
      split; cbn; [done|]. intros i ev' p' [[<- [= <- <-]]|[Hne Hi]]%lookup_insert_Some; [done|].
      apply (stage_moves (w_state w)); [|by eapply Hst]. intros id ->. destruct Hne. symmetry. eapply (Hq i j c); [by exists ev', id|done].
Qed.

Lemma undisturbed_run l w w' :
  mesh_inv w → settled w → undisturbed w l → mesh_run w l = Ok w' → settled w'.
Proof.
  revert w. induction l as [|s l IH]; intros w Hw Hs Hu Hrun; cbn in Hrun; [by injection Hrun as ->|].
  destruct (mesh_step_ok url_parse sha256_hex me w s Hw) as (w1 & H1 & Hw1 & _). unfold Mesh.mesh_step in H1. rewrite H1 in Hrun.
  destruct Hu as [Hq Hu]. apply (IH w1 Hw1); [by eapply undisturbed_step; [..|exact H1]|by apply Hu|done].
Qed.

(** ** An announcement between the sections of a leave *)

Definition leave_of (id : str) : MeshEvent := PeerLeave (PeerEnvelope_new id (RelayLeave id)).
Definition announcement (s : ActiveState) : MeshEvent := PeerAnnounce (PeerEnvelope_new (ac_relay_id s) (RouteAnnounce s)).

(** Both are checked while the peer is alive; its routes go, the announcement is written,
    and then the peer goes. *)
Definition race (i j : nat) (s : ActiveState) (c : Clock) : list (Step MeshEvent) :=
  [Arrive i (leave_of (ac_relay_id s)); Arrive j (announcement s); Proceed i c; Proceed i c; Proceed j c; Proceed j c; Proceed i c].

(** A peer's route whose owner is not known. *)
Definition orphan t (name id : str) : Prop := is_Some (routes t !! (name, id)) ∧ peers t !! id = None.

Lemma announcement_program s :
  valid_active_fields url_parse s = true → ac_relay_id s ≠ me →
  ∃ f, mesh_program url_parse sha256_hex me (announcement s) = Locked f ∧
    ∀ c t, peer_is_alive t (ac_relay_id s) = true → ∃ g, f c t = Ok (t, Locked g) ∧
      ∀ c t t', announce_write url_parse t (peer_entry s) = Ok t' → ∃ p, g c t = Ok (t', p).
Proof.
  intros Hv Hne. assert (valid_relay_id (ac_relay_id s) = true) as Hid.
  { unfold valid_active_fields in Hv. rewrite !andb_true_iff in Hv. tauto. }
  unfold announcement. cbn [mesh_program]. unfold handle_peer_announce, validate_route_state_envelope. cbn [pv_sender pv_message PeerEnvelope_new].
  unfold current_version. simpl. rewrite Hid, bool_decide_true, Hv by done. simpl. unfold announce_peer.
  change (re_relay_id (peer_entry s)) with (ac_relay_id s). rewrite (announce_checks_pass url_parse) by done. cbn [checked].
  unfold trusted_peer_owner. rewrite bool_decide_true, bool_decide_false by done. eexists. split; [done|].
  intros c t Ht. cbn. rewrite Ht. eexists. split; [done|]. intros c' t1 t1' Hw. cbn. rewrite Hw. by eexists.
Qed.

Lemma leave_program id :
  valid_relay_id id = true → id ≠ me →
  mesh_program url_parse sha256_hex me (leave_of id) = Locked (fun _ t =>
    Ok (t, if negb (peer_is_alive t id) then Done StatusOk else prog_bind (remove_peer_routes me id) (fun _ => drop_peer id))).
Proof.
  intros Hv Hne. unfold leave_of. cbn [mesh_program]. unfold Mesh.handle_peer_leave, validate_route_state_envelope, current_version.
  simpl. rewrite Hv, !(bool_decide_true (id = id)) by done. simpl. rewrite Hv, !(bool_decide_true (id = id)) by done. simpl.
  unfold trusted_peer. by rewrite (bool_decide_false (id = me)) by done.
Qed.

(** The announcement is accepted by what the leave has made of the table. *)
Lemma announce_accepted t s p :
  own_table url_parse me t → peers t !! ac_relay_id s = Some p → valid_active_fields url_parse s = true →
  (∀ b, tombstones t !! (ac_name s, ac_relay_id s) = Some b → SFleb (ac_registered_at s) (tb_removed_at b) = false) →
  ∃ t', announce_write url_parse t (peer_entry s) = Ok t' ∧ peers t' = peers t ∧ is_Some (routes t' !! (ac_name s, ac_relay_id s)).
Proof.
  intros [Hwf Hr] Hp Hv Hb. destruct (wf_peer _ _ Hwf _ _ Hp) as (_ & Hne & _ & Hu). unfold announce_write. simpl.
  rewrite bool_decide_false by done. simpl. rewrite Hp, register_route_eq.
  assert (can_register_route url_parse t (scrub (peer_entry s) (pe_url p)) = true) as ->.
  { unfold can_register_route, valid_route_entry, scrub. simpl. unfold valid_active_fields in Hv. rewrite !andb_true_iff in Hv.
    destruct Hv as ((((((((-> & ->) & _) & ->) & ->) & ->) & ->) & ->) & ->). rewrite Hu. rewrite bool_decide_true by done. simpl.
    unfold route_key. simpl. destruct (tombstones t !! _) as [b|] eqn:Hbt; [|done]. by rewrite (Hb b). }
  eexists. split; [done|]. split; [done|]. simpl. unfold route_key. simpl. rewrite lookup_insert_eq. done.
Qed.
Lemma race_orphans w i j s c :
  mesh_inv w → i ≠ j → w_tasks w !! i = None → w_tasks w !! j = None →
  peer_is_alive (w_state w) (ac_relay_id s) = true → valid_active_fields url_parse s = true →
  (∀ b, tombstones (w_state w) !! (ac_name s, ac_relay_id s) = Some b → SFleb (ac_registered_at s) (tb_removed_at b) = false) →
  ∃ w', mesh_run w (race i j s c) = Ok w' ∧ orphan (w_state w') (ac_name s) (ac_relay_id s).
Proof.
  intros Hw Hij Hi Hj Ha Hv Hb. destruct (wi_state _ _ _ Hw) as [Hwf Hr].
  destruct (peers (w_state w) !! ac_relay_id s) as [p|] eqn:Hp; [|unfold peer_is_alive in Ha; by rewrite Hp in Ha].
  destruct (wf_peer _ _ Hwf _ _ Hp) as (_ & Hne & Hid & _). rewrite Hr in Hne.
  destruct (announcement_program s Hv Hne) as (f & Hf & Hg). destruct (Hg c (remove_routes_by_relay (w_state w) (ac_relay_id s)).1) as (g & Hfg & Hgw); [done|].
  destruct (announce_accepted (remove_routes_by_relay (w_state w) (ac_relay_id s)).1 s p) as (t' & Ht' & Hp' & Hs');
    [split; [by apply forget_routes_wf|done]|done..|]. destruct (Hgw c _ _ Ht') as (q & Hq).
  unfold race, Mesh.mesh_run. rewrite arrive_runs by done. rewrite arrive_runs by (simpl; by rewrite lookup_insert_ne).
  rewrite leave_program by done. rewrite Hf.
  erewrite proceed_runs; [|simpl; by rewrite lookup_insert_ne, lookup_insert_eq|done]. cbn [w_state w_tasks]. rewrite Ha. cbn [negb]. rewrite remove_bind by done.
  erewrite proceed_runs; [|simpl; by rewrite lookup_insert_eq|done].
  erewrite proceed_runs; [|simpl; by rewrite !(lookup_insert_ne _ i j), lookup_insert_eq|exact Hfg].
  erewrite proceed_runs; [|simpl; by rewrite lookup_insert_eq|exact Hq].
  erewrite proceed_runs; [|simpl; by rewrite !(lookup_insert_ne _ j i), lookup_insert_eq|done].
  eexists. split; [done|]. split; [done|]. simpl. apply lookup_delete_eq.
Qed.

(** ** Joining a relay that has an orphan *)

Lemma replacement_refused t snaps l acc e :
  e ∈ l → re_relay_id e ≠ relay_id t → snaps !! re_relay_id e = None → replacement_routes t snaps l acc = None.
Proof.
  intros Hin Hne Hs. revert acc. induction l as [|x l IH]; intros acc; [by apply not_elem_of_nil in Hin|]. simpl.
  apply elem_of_cons in Hin as [<-|Hin]; [by rewrite bool_decide_false, Hs|].
  case_bool_decide; [by apply IH|]. destruct (snaps !! re_relay_id x); [|done]. case_match; by apply IH.
Qed.

Lemma snapshot_peers_none t l id : id ∉ (ps_relay_id <$> l) → snapshot_peers t l !! id = None.
Proof.
  unfold snapshot_peers. assert (∀ m : gmap str PeerSnapshot, m !! id = None → id ∉ (ps_relay_id <$> l) →
    foldl (fun m p => if bool_decide (ps_relay_id p = relay_id t) then m else <[ps_relay_id p := p]> m) m l !! id = None) as H; [|by apply H].
  induction l as [|p l IH]; intros m Hm; simpl; [done|]. rewrite not_elem_of_cons. intros [Hne Hl]. apply IH; [|done].
  case_bool_decide; [done|]. by rewrite lookup_insert_ne.
Qed.

Lemma snapshot_refused (e : FullSyncEnvelope) t c r :
  r ∈ sn_routes (en_snapshot e) → fr_relay_id r ≠ relay_id t → fr_relay_id r ∉ (ps_relay_id <$> sn_peers (en_snapshot e)) →
  alone c (join_response url_parse sha256_hex e) t = Ok (t, NoReply).
Proof.
  intros Hr Hne Hp. unfold join_response. cbn. destruct (validate_full_sync _ _ _ _) as [sync| |] eqn:Hv; [|done..].
  destruct (full_sync_good _ _ _ _ _ Hv) as (_ & Hrs & Hps). unfold merge_validated_snapshot.
  rewrite (replacement_refused _ _ _ _ (to_peer_route_entry r)); [done| |done|].
  - rewrite Hrs. by apply list_elem_of_fmap_2.
  - rewrite Hps. by apply snapshot_peers_none.
Qed.

(** The snapshot a relay gives has the orphan and not its owner. *)
Lemma orphan_snapshot t url c name id :
  own_table url_parse me t → id ≠ me → orphan t name id →
  ∃ sync r, alone c (current_full_sync_envelope sha256_hex me url) t = Ok (t, sync) ∧ r ∈ sn_routes (en_snapshot sync) ∧
    fr_relay_id r = id ∧ id ∉ (ps_relay_id <$> sn_peers (en_snapshot sync)).
Proof.
  intros [Hwf Hr] Hne [[x Hx] Hp].
  assert (id ∉ (ps_relay_id <$> fs_peers (full_snapshot t))) as Hnot.
  { simpl. rewrite <- list_fmap_compose, list_elem_of_fmap. intros (p & -> & Hin).
    apply list_elem_of_fmap in Hin as ([k q] & -> & Hin%elem_of_map_to_list). simpl in *.
    destruct (wf_peer _ _ Hwf _ _ Hin) as [Hk _]. congruence. }
  assert (from_route_entry sha256_hex x ∈ from_route_entry sha256_hex <$> list_routes t) as Hin.
  { apply list_elem_of_fmap_2, list_elem_of_fmap. exists ((name, id), x). split; [done|]. by apply elem_of_map_to_list. }
  destruct (wf_route _ _ Hwf _ _ Hx) as [Hk _]. injection Hk as _ Hid.
  unfold current_full_sync_envelope. rewrite alone_bind. cbn [alone reads res_bind]. rewrite alone_bind.
  destruct (existsb _ _); [|rewrite alone_bind]; cbn; eexists _, _; (split_and!; [done|exact Hin|done|]); simpl; [done|].
  rewrite fmap_app, elem_of_app. intros [?|[=]%list_elem_of_singleton]; [|congruence]. done.
Qed.

Lemma join_orphan t peer peer_url url c name id :
  own_table url_parse me t → id ≠ me → orphan t name id → peer ≠ id → peer ≠ me →
  valid_relay_id peer = true → valid_relay_url url_parse peer_url = true →
  ∃ t' sync r,
    alone c (handle_peer_join url_parse sha256_hex me (PeerEnvelope_new peer (RelayJoin peer peer_url)) url) t = Ok (t', SnapshotReply sync) ∧
    r ∈ sn_routes (en_snapshot sync) ∧ fr_relay_id r = id ∧ id ∉ (ps_relay_id <$> sn_peers (en_snapshot sync)).
Proof.
  intros [Hwf Hr] Hne [Hx Hp] Hj Hjm Hv Hu. unfold handle_peer_join, current_version. simpl.
  rewrite !(bool_decide_true (peer = peer)) by done. rewrite Hv, Hu. simpl. rewrite bool_decide_false by done. rewrite alone_bind. cbn.
  pose proof (join_makes url_parse (fun _ => True) (fun _ => True) 0 (fun _ _ => True) (fun _ => True) t peer peer_url (ck_now c)
    (fun _ => I) Hwf) as Hm.
  unfold record_peer_join in *. rewrite Hv, Hu, Hr, bool_decide_false in Hm |- * by done. cbn [negb orb fst] in *.
  set (t1 := sync_peer_route_urls _ _ _) in *.
  destruct (orphan_snapshot t1 url c name id) as (sync & r & He & H).
  - split; [by eapply makes_wf|]. erewrite makes_relay; done.
  - done.
  - split; simpl; [rewrite lookup_fmap; destruct Hx as [x ->]; eauto|]. by rewrite lookup_insert_ne.
  - exists t1, sync, r. split; [|done]. cbn. by rewrite alone_bind, He.
Qed.

(** ** Properties *)

(** C13 However the sections of tasks interleave, no section panics and the table keeps its
    type: routes and tombstones are valid and stored under their own keys, no key has both,
    local routes belong to this relay, peer routes carry no private field, and recorded
    withdrawals have their tombstone.  A peer route belongs to a known peer at that peer's
    URL, or to a relay that is unknown and for which a leave came in; only the former when
    no other task has a section between the two of a leave that remove the routes and the
    peer. *)
Theorem mesh_table_typed wall l :
  ∃ w, mesh_run (mesh_new me wall) l = Ok w ∧ relay_id (w_state w) = me ∧ table_wf url_parse (w_state w) ∧
    owners_known (left_in l) (w_state w) ∧
    (undisturbed (mesh_new me wall) l → owners_known nobody (w_state w)).
Proof.
  pose proof (mesh_inv_new url_parse me wall) as H0.
  destruct (mesh_run_ok url_parse sha256_hex me l _ H0) as (w & Hrun & [[Hwf Hr] Hw]). exists w. split_and!; [done..| |].
  - apply (mesh_run_keeps url_parse sha256_hex me (owners_known (left_in l)) l _ w H0 Hrun); [|done].
    intros ev i c t t' _ [[p [=]]|Hp] _ Hm. apply (Hm (left_in l)). intros id Hid. by exists i, ev.
  - intros Hu. by eapply (undisturbed_run l); [exact H0| |exact Hu|exact Hrun].
Qed.

(** C31 A leave that an announcement falls into breaks joining: let a live peer's leave and a
    valid announcement of it, newer than any tombstone, both be checked, and the
    announcement be written between the two sections of the leave.  Then its route is in
    the table and its owner is not, and every other relay that joins is answered with a
    snapshot it discards whole, learning neither a route nor a peer. *)
Theorem leave_race_blocks_joins wall l w i j s c :
  mesh_run (mesh_new me wall) l = Ok w → i ≠ j → w_tasks w !! i = None → w_tasks w !! j = None →
  peer_is_alive (w_state w) (ac_relay_id s) = true → valid_active_fields url_parse s = true →
  (∀ b, tombstones (w_state w) !! (ac_name s, ac_relay_id s) = Some b → SFleb (ac_registered_at s) (tb_removed_at b) = false) →
  ∃ w', mesh_run w (race i j s c) = Ok w' ∧
    is_Some (routes (w_state w') !! (ac_name s, ac_relay_id s)) ∧ peers (w_state w') !! ac_relay_id s = None ∧
    ∀ peer peer_url url c1, peer ≠ ac_relay_id s → peer ≠ me → valid_relay_id peer = true → valid_relay_url url_parse peer_url = true →
      ∃ t' sync,
        alone c1 (handle_peer_join url_parse sha256_hex me (PeerEnvelope_new peer (RelayJoin peer peer_url)) url) (w_state w') =
          Ok (t', SnapshotReply sync) ∧
        ∀ tj c2, relay_id tj = peer → alone c2 (join_response url_parse sha256_hex sync) tj = Ok (tj, NoReply).
Proof.
  intros Hw%mesh_run_reaches Hij Hi Hj Ha Hv Hb. destruct (race_orphans w i j s c) as (w' & Hrun & Ho); [done..|].
  exists w'. split; [done|]. split; [apply Ho|]. split; [apply Ho|]. intros peer peer_url url c1 Hne Hme Hp Hu.
  destruct (mesh_run_ok url_parse sha256_hex me (race i j s c) w Hw) as (w2 & H2 & [Hown _]). rewrite Hrun in H2. injection H2 as <-.
  assert (ac_relay_id s ≠ me) as Hid.
  { unfold peer_is_alive in Ha. destruct (peers (w_state w) !! ac_relay_id s) as [q|] eqn:Hq; [|done].
    destruct (wi_state _ _ _ Hw) as [Hwf <-]. by destruct (wf_peer _ _ Hwf _ _ Hq) as (_ & ? & _). }
  destruct (join_orphan (w_state w') peer peer_url url c1 (ac_name s) (ac_relay_id s)) as (t' & sync & r & Ht' & Hr & Hri & Hnot); [done..|].
  exists t', sync. split; [done|]. intros tj c2 <-. apply (snapshot_refused sync tj c2 r Hr); rewrite Hri; [done|done].
Qed.
End leave.

Section witnesses.
Import SampleMesh.

(** Relay b leaves relay a while its announcement comes in, and relay c joins. *)
Lemma leave_race_witness :
  let id_c := txt [99] in
  let w := world (whole join_b 0) in
  ∃ w', mesh_run parse sha id_a w (race 0 1 (state_at route_r id_b url_b 5) (clock 1)) = Ok w' ∧
    peers (w_state w') !! id_b = None ∧
    ∃ t' sync, alone (clock 2) (handle_peer_join parse sha id_a (PeerEnvelope_new id_c (RelayJoin id_c url_b)) url_a) (w_state w') =
        Ok (t', SnapshotReply sync) ∧
      alone (clock 3) (join_response parse sha sync) (RouteTable_new id_c 1) = Ok (RouteTable_new id_c 1, NoReply).
Proof.
  intros id_c w. destruct (leave_race_blocks_joins parse sha id_a 1 (whole join_b 0) w 0 1 (state_at route_r id_b url_b 5) (clock 1))
    as (w' & Hrun & _ & Hp & Hj).
  - apply world_runs. by vm_compute.
  - done.
  - vm_compute. reflexivity.
  - vm_compute. reflexivity.
  - vm_compute. reflexivity.
  - vm_compute. reflexivity.
  - intros b Hb. vm_compute in Hb. discriminate.
  - exists w'. split; [done|]. split; [done|].
    destruct (Hj id_c url_b url_a (clock 2)) as (t' & sync & Ht' & Hs); [by vm_compute..|]. exists t', sync. auto.
Defined.
End witnesses.
