(* ===== verification/MeshSync.v ===== *)
(** Anti-entropy between two relays: one digest exchange makes the requester's view of the
    owner's routes the owner's own. *)

From S2P Require Import Prelude.
From S2P Require Import Locked.
From S2P Require Import Text.
From S2P Require Import Float64.
From S2P Require Import RouteTable.
From S2P Require Import RouteSync.
From S2P Require Import RouteInv.
From S2P Require Import Mesh.
From S2P Require Import MeshInv.
From S2P Require Import MeshSafe.

(** ** Digests *)

#[local] Arguments to_be8 : simpl never.

Definition addressable (fields : list str) : Prop := Forall (fun f => blen f < 2 ^ 64) fields.

Lemma to_be8_inj n m : 0 <= n < 2 ^ 64 → 0 <= m < 2 ^ 64 → to_be8 n = to_be8 m → n = m.
Proof.
  intros Hn Hm H. apply (inj reverse) in H. rewrite <- (from_to_le 8 n), <- (from_to_le 8 m) by (simpl; lia). by rewrite H.
Qed.
Lemma length_to_be8 n : length (to_be8 n) = 8%nat.
Proof. unfold to_be8. rewrite length_reverse. pose proof (blen_to_le 8 n) as H. unfold blen in H. lia. Qed.

Lemma digest_preimage_cons f fs : digest_preimage (f :: fs) = to_be8 (blen f) ++ f ++ digest_preimage fs.
Proof. unfold digest_preimage. rewrite fmap_cons, concat_cons. by rewrite <- app_assoc. Qed.

(** The lengths in front make the digest input unambiguous. *)
Lemma digest_preimage_inj fs gs :
  addressable fs → addressable gs → digest_preimage fs = digest_preimage gs → fs = gs.
Proof.
  intros Hf. revert gs. induction Hf as [|f fs Hlf Hf IH]; intros gs Hg H.
  - destruct gs as [|g gs]; [done|]. apply (f_equal length) in H. rewrite digest_preimage_cons, !length_app, length_to_be8 in H.
    simpl in H. lia.
  - destruct Hg as [|g gs Hlg Hg]; rewrite digest_preimage_cons in H.
    { apply (f_equal length) in H. rewrite !length_app, length_to_be8 in H. simpl in H. lia. }
    rewrite digest_preimage_cons in H. apply app_inj_1 in H as [Hl H]; [|by rewrite !length_to_be8].
    apply to_be8_inj in Hl; [|unfold blen in *; lia..].
    apply app_inj_1 in H as [-> H]; [|unfold blen in Hl; lia]. f_equal. by apply IH.
Qed.

Section digest.
Context (sha256_hex : bytes → str).
Implicit Types (t : RouteTable).

Lemma route_digest_lookup t n i (del : bool) :
  route_digest sha256_hex t !! (n, i, del) =
    if del then tombstone_digest_hash sha256_hex <$> tombstones t !! (n, i)
    else route_entry_digest_hash sha256_hex <$> routes t !! (n, i).
Proof.
  unfold route_digest. set (L1 := _ <$> map_to_list (tombstones t)). set (L2 := _ <$> map_to_list (routes t)).
  assert (NoDup (L1 ++ L2).*1) as Hnd.
  { rewrite fmap_app. apply NoDup_app. split_and!.
    - unfold L1. rewrite <- list_fmap_compose. apply NoDup_fmap_2_strong; [|apply NoDup_map_to_list].
      intros [[] ?] [[] ?] H1%elem_of_map_to_list H2%elem_of_map_to_list [= -> ->]. by rewrite H1 in H2; injection H2 as ->.
    - intros x Hx1 Hx2. apply list_elem_of_fmap in Hx1 as (y1 & -> & (z1 & -> & _)%list_elem_of_fmap).
      apply list_elem_of_fmap in Hx2 as (y2 & Hy & (z2 & -> & _)%list_elem_of_fmap). by simpl in Hy.
    - unfold L2. rewrite <- list_fmap_compose. apply NoDup_fmap_2_strong; [|apply NoDup_map_to_list].
      intros [[] ?] [[] ?] H1%elem_of_map_to_list H2%elem_of_map_to_list [= -> ->]. by rewrite H1 in H2; injection H2 as ->. }
  apply option_eq. intros h. rewrite <- elem_of_list_to_map by done. rewrite elem_of_app. unfold L1, L2.
  rewrite !list_elem_of_fmap. destruct del; rewrite fmap_Some; split.
  - intros [([k x] & [= -> -> ->] & Hin%elem_of_map_to_list)|(? & [=] & _)]. destruct k. eauto.
  - intros (x & Hx & ->). left. exists ((n, i), x). split; [done|]. by apply elem_of_map_to_list.
  - intros [(? & [=] & _)|([k x] & [= -> -> ->] & Hin%elem_of_map_to_list)]. destruct k. eauto.
  - intros (x & Hx & ->). right. exists ((n, i), x). split; [done|]. by apply elem_of_map_to_list.
Qed.

Lemma build_digest_elem t d :
  d ∈ build_digest sha256_hex t ↔ route_digest sha256_hex t !! (de_name d, de_relay_id d, de_deleted d) = Some (de_hash d).
Proof.
  unfold build_digest. rewrite list_elem_of_fmap. split.
  - intros ([[[n i] del] h] & -> & Hin%elem_of_map_to_list). done.
  - intros H. destruct d as [n i del h]. exists ((n, i, del), h). split; [done|]. by apply elem_of_map_to_list.
Qed.

(** What the receiver of a digest looks up is the sender's digest. *)
Lemma digest_map_build t : digest_map (build_digest sha256_hex t) = route_digest sha256_hex t.
Proof.
  unfold digest_map, build_digest. rewrite <- (list_to_map_to_list (route_digest sha256_hex t)) at 2.
  assert (∀ (l : list (str * str * bool * str)) (m : gmap (str * str * bool) str),
    NoDup l.*1 → foldl (fun m d => <[(de_name d, de_relay_id d, de_deleted d) := de_hash d]> m) m
      ((fun kv => {| de_name := kv.1.1.1; de_relay_id := kv.1.1.2; de_deleted := kv.1.2; de_hash := kv.2 |}) <$> l)
    = (list_to_map l : gmap (str * str * bool) str) ∪ m) as H.
  { induction l as [|[[[n i] del] h] l IH]; intros m Hnd; simpl; [by rewrite (left_id_L ∅ (∪))|].
    apply NoDup_cons in Hnd as [Hn Hnd]. rewrite IH by done. simpl.
    rewrite <- insert_union_l. symmetry. apply insert_union_r. by apply not_elem_of_list_to_map_1. }
  rewrite H by apply NoDup_fst_map_to_list. by rewrite (right_id_L ∅ (∪)).
Qed.
End digest.

(** ** The owner's side *)

(** What the owner finds in its own digest when nothing interrupts it, *)
Definition own_found (sha256_hex : bytes → str) (t : RouteTable) (m : gmap (str * str * bool) str) : list DigestDiffEntry :=
  omap (fun kv =>
          let '(name, id, deleted) := kv.1 in
          if negb (bool_decide (id = relay_id t)) then None
          else if bool_decide (m !! kv.1 = Some kv.2) then None
          else route_state_for_diff t name id deleted)
    (map_to_list (route_digest sha256_hex t)).
(** and what it answers for the routes that are gone. *)
Fixpoint gone_found (t : RouteTable) (l : list DigestEntry) (wall now : Z) : RouteTable * list DigestDiffEntry :=
  match l with
  | [] => (t, [])
  | d :: l =>
      if bool_decide (de_relay_id d = relay_id t) && negb (de_deleted d)
         && bool_decide (route_state_for_diff t (de_name d) (de_relay_id d) false = None)
      then
        let '(t, b) := authoritative_missing_tombstone t (de_name d) (de_relay_id d) wall now in
        let '(t, rest) := gone_found t l wall now in
        (t, match b with
            | Some b => DiffDeleted (tb_name b) (tb_relay_id b) (tb_removed_at b) :: rest
            | None => rest
            end)
      else gone_found t l wall now
  end.

Lemma own_found_alone sha256_hex t m c :
  alone c (own_differences (relay_id t) m (map_to_list (route_digest sha256_hex t))) t = Ok (t, own_found sha256_hex t m).
Proof.
  unfold own_found. induction (map_to_list _) as [|[[[n i] del] h] l IH]; [done|]. cbn [own_differences omap list_omap fst snd].
  destruct (negb _); cbn [orb]; [done|]. case_bool_decide; [done|]. rewrite alone_bind. cbn [alone reads res_bind].
  rewrite alone_bind, IH. cbn. by destruct (route_state_for_diff _ _ _ _).
Qed.

Lemma authoritative_relay t name id wall now : relay_id (authoritative_missing_tombstone t name id wall now).1 = relay_id t.
Proof.
  unfold authoritative_missing_tombstone. do 3 (case_match; [done|]). unfold next_local_timestamp. cbv beta iota zeta.
  set (u := set_timestamp t _). set (b := {| tb_name := name |}).
  by destruct (apply_tombstone_cases u b now) as [[-> _]|(_ & _ & _ & s & -> & _)].
Qed.

Lemma gone_found_alone l t c :
  alone c (missing_tombstones (relay_id t) l) t = Ok (gone_found t l (ck_wall c) (ck_now c)).
Proof.
  revert t. induction l as [|d l IH]; intros t; [done|]. cbn [missing_tombstones gone_found].
  destruct (_ && negb _); [|done]. rewrite alone_bind. cbn [alone reads res_bind andb].
  destruct (route_state_for_diff _ _ _ _) as [x|] eqn:Hx; [by rewrite IH|]. rewrite alone_bind. cbn.
  pose proof (authoritative_relay t (de_name d) (de_relay_id d) (ck_wall c) (ck_now c)) as Hr.
  destruct (authoritative_missing_tombstone _ _ _ _ _) as [t1 b]. cbn in Hr |- *. rewrite alone_bind, <- Hr, IH.
  by destruct (gone_found _ _ _ _) as [t2 rest].
Qed.

Lemma f64_max_left w x :
  f64_is_finite w = true → f64_is_finite (f64_max w x) = true → SFleb w (f64_max w x) = true.
Proof.
  intros Hw Hm. destruct (f64_is_finite x) eqn:Hx; [by apply f64_max_ge|].
  unfold f64_max in *. destruct w, x; try done; simpl in *; try destruct s0; try done; by apply f64_le_refl.
Qed.

(** The next [n] timestamps of a relay are finite. *)
Fixpoint ticking (t : RouteTable) (wall : Z) (n : nat) : bool :=
  match n with
  | O => true
  | S n => let '(t, f) := next_local_timestamp t wall in f64_is_finite f && ticking t wall n
  end.
Lemma ticking_ext n t1 t2 wall : next_timestamp t1 = next_timestamp t2 → ticking t1 wall n = ticking t2 wall n.
Proof.
  revert t1 t2. induction n as [|n IH]; intros t1 t2 H; simpl; [done|]. rewrite H. f_equal. by apply IH.
Qed.
Lemma ticking_S t wall n : ticking t wall (S n) = true → ticking t wall n = true.
Proof.
  revert t. induction n as [|n IH]; intros t; [done|]. intros H. simpl in H. apply andb_true_iff in H as [Hf H].
  simpl. rewrite Hf. by apply IH.
Qed.

Section owner.
Context (url_parse : str → option Url) (wall now : Z) (Hwall : f64_is_finite (f64_of_u64 wall) = true).
Implicit Types (t : RouteTable) (l : list DigestEntry).
Notation table_wf := (table_wf url_parse).

Lemma next_timestamp_ge t :
  f64_is_finite (next_local_timestamp t wall).2 = true → SFleb (f64_of_u64 wall) (next_local_timestamp t wall).2 = true.
Proof using Hwall.
  simpl. destruct (f64_is_finite (next_timestamp t)); [by apply f64_max_left|]. intros _. by apply f64_le_refl.
Qed.

(** The answer for a route that is gone: a tombstone no older than the clock. *)
Lemma authoritative_answer t name :
  table_wf t → valid_route_name name = true → valid_relay_id (relay_id t) = true →
  routes t !! (name, relay_id t) = None → f64_is_finite (next_local_timestamp t wall).2 = true →
  ∃ t' b, authoritative_missing_tombstone t name (relay_id t) wall now = (t', Some b) ∧
    tb_name b = name ∧ tb_relay_id b = relay_id t ∧ valid_tombstone b = true ∧
    SFleb (f64_of_u64 wall) (tb_removed_at b) = true ∧
    (∀ k, routes t' !! k = routes t !! k) ∧ relay_id t' = relay_id t ∧ next_timestamp t' = (next_local_timestamp t wall).2.
Proof using Hwall.
  intros Hwf Hn Hi Hr Hf. pose proof (next_timestamp_ge t Hf) as Hge.
  unfold authoritative_missing_tombstone. rewrite bool_decide_eq_false_2 by (intros H; by apply H).
  rewrite Hn, Hi. simpl (negb true || negb true). rewrite bool_decide_eq_false_2 by (rewrite Hr; by intros [? ?]).
  destruct (next_local_timestamp t wall) as [t1 f] eqn:Ht1. simpl in Hf, Hge. injection Ht1 as <- Hff.
  set (b := {| tb_name := name |}).
  destruct (apply_tombstone_cases (set_timestamp t f) b now) as [[Heq Hno]|(Hv & _ & _ & s & Heq & Hs)]; rewrite Hff, Heq.
  - destruct Hno as [Hv|[Ho|(x & Hx & Hle)]].
    + unfold valid_tombstone in Hv. simpl in Hv. by rewrite Hf, Hn, Hi in Hv.
    + unfold outlives in Ho. simpl in Ho. by rewrite Hr in Ho.
    + simpl in *. destruct (wf_tombstone _ _ Hwf _ _ Hx) as [[= Hxn Hxi] Hvx]. rewrite Hx.
      eexists _, x. split; [reflexivity|]. split_and!; try done.
      eapply (f64_le_trans _ f); [done|done|by apply valid_tombstone_finite|done|done].
  - simpl. rewrite lookup_insert_eq. eexists _, _. split; [reflexivity|]. simpl. split_and!; try done.
    + by eapply (observed_valid url_parse (set_timestamp t f) b); [apply timestamp_wf| |].
    + intros k. destruct (decide ((name, relay_id t) = k)) as [<-|]; [by rewrite lookup_delete_eq|by rewrite lookup_delete_ne].
Qed.

Lemma missing_spec l t :
  table_wf t → valid_relay_id (relay_id t) = true → Forall (fun d => valid_route_name (de_name d) = true) l →
  ticking t wall (length l) = true →
  let m := gone_found t l wall now in
  (∀ k, routes m.1 !! k = routes t !! k) ∧
  (∀ x, x ∈ m.2 → ∃ n f, x = DiffDeleted n (relay_id t) f ∧ routes t !! (n, relay_id t) = None ∧
     valid_deleted_fields n (relay_id t) f = true) ∧
  (∀ d, d ∈ l → de_relay_id d = relay_id t → de_deleted d = false → routes t !! (de_name d, relay_id t) = None →
     ∃ f, DiffDeleted (de_name d) (relay_id t) f ∈ m.2 ∧ SFleb (f64_of_u64 wall) f = true).
Proof using Hwall.
  intros Hwf Hi Hl. revert t Hwf Hi. induction Hl as [|d l Hd Hl IH]; intros t Hwf Hi Htick; simpl.
  { split_and!; [done|by intros x ?%elem_of_nil|by intros d ?%elem_of_nil]. }
  match goal with |- context [if ?c then _ else gone_found _ _ _ _] => destruct c eqn:Hb end.
  - rewrite !andb_true_iff, !bool_decide_eq_true in Hb. destruct Hb as [[Hid Hdel] Hnone]. rewrite Hid in *.
    apply fmap_None in Hnone. simpl in Htick. apply andb_true_iff in Htick as [Hf Htick].
    destruct (authoritative_answer t (de_name d) Hwf Hd Hi Hnone Hf) as (t1 & b & Heq & Hbn & Hbi & Hvb & Hge & Hr1 & Hrel & Hts).
    pose proof (authoritative_makes url_parse (fun _ => True) (fun _ => True) now (fun _ _ => True) (fun _ => True) t (de_name d) (relay_id t) wall now I (Z.le_refl _) Hwf) as Hm.
    rewrite Heq in *. simpl in Hm.
    destruct (IH t1) as (IHr & IHx & IHd); [by eapply makes_wf|by rewrite Hrel| |].
    { rewrite <- Htick. apply ticking_ext. by rewrite Hts. }
    destruct (gone_found t1 l wall now) as [t2 rest]. simpl in *. rewrite Hrel in *. split_and!.
    + intros k. by rewrite IHr.
    + intros x [->|Hx]%elem_of_cons; [|destruct (IHx x Hx) as (n & f & -> & Hn & Hv); exists n, f; by rewrite <- Hr1].
      exists (de_name d), (tb_removed_at b). rewrite Hbn, Hbi. split_and!; [done..|].
      unfold valid_deleted_fields, valid_tombstone in *. rewrite Hbn, Hbi, !andb_true_iff in *. tauto.
    + intros d' [->|Hd']%elem_of_cons Hid' Hdel' Hn'.
      * exists (tb_removed_at b). split; [rewrite Hbn, Hbi; by left|done].
      * destruct (IHd d' Hd' Hid' Hdel') as (f & Hin & Hge'); [by rewrite Hr1|]. exists f. split; [by right|done].
  - destruct (IH t Hwf Hi) as (IHr & IHx & IHd); [by apply ticking_S|]. split_and!; [done..|].
    intros d' [->|Hd']%elem_of_cons Hid' Hdel' Hn'; [|by apply IHd]. exfalso.
    rewrite Hid', Hdel' in Hb. simpl in Hb. rewrite bool_decide_eq_true_2, bool_decide_eq_true_2 in Hb; [done| |done].
    by rewrite Hn'.
Qed.
End owner.

(** ** The requester's side *)

Section requester.
Context (url_parse : str → option Url) (me a : str) (p : PeerInfo) (c : Clock).
Context (Hne : a ≠ me) (Halive : pe_status p = Alive).
Implicit Types (t : RouteTable) (x : DigestDiffEntry).
Notation table_wf := (table_wf url_parse).

Definition good t : Prop := table_wf t ∧ relay_id t = me ∧ peers t !! a = Some p.
Definition entry_ok x : Prop :=
  match x with
  | DiffActive s => ac_relay_id s = a ∧ valid_active_fields url_parse s = true
  | DiffDeleted n i f => i = a ∧ valid_deleted_fields n i f = true
  end.
Definition validated x : ValidatedDigestDiffEntry :=
  match x with DiffActive s => ValidActive (peer_entry s) | DiffDeleted n i f => ValidDeleted n i f end.
Definition view (s : ActiveState) : RouteEntry := scrub (peer_entry s) (pe_url p).
Definition tomb (n : str) (f : f64) : RouteTombstone :=
  {| tb_name := n; tb_relay_id := a; tb_removed_at := f; tb_server_id := None; tb_observed_at := ck_now c |}.
(** What one entry of the answer does. *)
Definition diff_table t x : RouteTable :=
  match x with
  | DiffActive s => if can_register_route url_parse t (view s) then registered t (view s) else t
  | DiffDeleted n _ f => (apply_tombstone t (tomb n f) (ck_now c)).1
  end.

Lemma validated_entries l : Forall entry_ok l → validate_digest_diff_entries url_parse a l = Ok (validated <$> l).
Proof using Type.
  induction 1 as [|x l Hx Hl IH]; [done|]. destruct x as [s|n i f]; destruct Hx as [Ha Hv]; simpl.
  - rewrite bool_decide_eq_true_2, Hv by done. simpl. by rewrite IH.
  - rewrite bool_decide_eq_true_2, Hv by done. simpl. by rewrite IH.
Qed.

Lemma good_trusted {A} t (k : bool → Task A) c0 : good t → alone c0 (prog_bind (trusted_peer_owner me a a) k) t = alone c0 (k true) t.
Proof using Hne Halive.
  intros (Hwf & Hr & Hp). unfold trusted_peer_owner. rewrite bool_decide_eq_true_2, bool_decide_eq_false_2 by done.
  cbn [andb negb]. rewrite alone_bind. cbn [alone reads res_bind]. unfold peer_is_alive. rewrite Hp. cbn [from_option]. by rewrite Halive.
Qed.

Lemma view_valid t s : good t → entry_ok (DiffActive s) → valid_route_entry url_parse t (view s) = true.
Proof using Hne.
  intros (Hwf & Hr & Hp) [Hs Hv]. destruct (wf_peer _ _ Hwf _ _ Hp) as (_ & _ & _ & Hurl).
  unfold valid_active_fields in Hv. rewrite !andb_true_iff in Hv.
  unfold valid_route_entry. rewrite !andb_true_iff. simpl. rewrite Hr, Hs in *.
  rewrite bool_decide_eq_true_2 by done. naive_solver.
Qed.

Lemma diff_step t x :
  good t → entry_ok x →
  (∃ r, alone c (apply_digest_diff url_parse me a (validated x)) t = Ok (diff_table t x, r)) ∧ good (diff_table t x).
Proof using Hne Halive.
  intros Hg Hx. pose proof Hg as (Hwf & Hr & Hp).
  destruct (wf_peer _ _ Hwf _ _ Hp) as (_ & _ & Hid & _). destruct x as [s|n i f]; cbn [validated apply_digest_diff].
  - pose proof (view_valid t s Hg Hx) as Hview. destruct Hx as [Hs Hv].
    unfold announce_peer. pose proof (announce_checks_pass url_parse s Hv) as Hck. rewrite Hs in Hck. rewrite Hck. cbn [checked].
    change (re_relay_id (peer_entry s)) with (ac_relay_id s). rewrite Hs, good_trusted by done. cbn. unfold announce_write.
    cbn. rewrite Hs, bool_decide_eq_false_2 by (by rewrite Hr). cbn. rewrite Hp, register_route_eq. fold (view s).
    destruct (can_register_route url_parse t (view s)) eqn:Hc; cbn; (split; [by eexists|]); [|done].
    split_and!; [by apply registered_wf|done..].
  - destruct Hx as [-> Hv]. unfold valid_deleted_fields in Hv. rewrite !andb_true_iff in Hv. destruct Hv as [[Hn _] Hf].
    unfold withdraw_peer, check_name, check_relay. rewrite Hn, Hid. cbn [negb guard_err res_bind checked]. rewrite good_trusted by done.
    cbn [negb]. rewrite bool_decide_eq_false_2 by done. cbn. unfold unregister_route_with_tombstone.
    rewrite withdraw_with_table. fold (tomb n f). split; [by eexists|]. split_and!; [by apply apply_tombstone_wf|..].
    + rewrite <- Hr. unfold apply_tombstone. repeat case_match; done.
    + rewrite <- Hp. f_equal. unfold apply_tombstone. repeat case_match; done.
Qed.

Lemma diffs_fold l t :
  good t → Forall entry_ok l →
  alone c (apply_diffs url_parse me a (validated <$> l)) t = Ok (foldl diff_table t l, tt) ∧ good (foldl diff_table t l).
Proof using Hne Halive.
  intros Hg Hl. revert t Hg. induction Hl as [|x l Hx Hl IH]; intros t Hg; [done|].
  rewrite fmap_cons. cbn [apply_diffs foldl]. destruct (diff_step t x Hg Hx) as [[r Hr] Hg']. rewrite alone_bind, Hr. by apply IH.
Qed.

Definition diff_name x : str := match x with DiffActive s => ac_name s | DiffDeleted n _ _ => n end.

(** An entry touches only the key it names. *)
Lemma diff_only t x k :
  entry_ok x → k ≠ (diff_name x, a) →
  routes (diff_table t x) !! k = routes t !! k ∧ tombstones (diff_table t x) !! k = tombstones t !! k.
Proof.
  intros Hx Hn. destruct x as [s|m i f]; simpl in *; destruct Hx as [Hs _].
  - destruct (can_register_route _ _ _); [|done]. simpl. assert (route_key (view s) ≠ k).
    { intros <-. apply Hn. unfold route_key. simpl. by rewrite Hs. }
    by rewrite lookup_insert_ne, lookup_delete_ne.
  - destruct (apply_tombstone_cases t (tomb m f) (ck_now c)) as [[-> _]|(_ & _ & _ & sv & -> & _)]; [done|]. simpl.
    by rewrite lookup_insert_ne, lookup_delete_ne by done.
Qed.
Lemma diff_other t x n :
  entry_ok x → diff_name x ≠ n →
  routes (diff_table t x) !! (n, a) = routes t !! (n, a) ∧ tombstones (diff_table t x) !! (n, a) = tombstones t !! (n, a).
Proof. intros Hx Hn. apply diff_only; [done|]. by intros [= ->]. Qed.

Lemma diffs_foreign l t k :
  Forall entry_ok l → k.2 ≠ a →
  routes (foldl diff_table t l) !! k = routes t !! k ∧ tombstones (foldl diff_table t l) !! k = tombstones t !! k.
Proof.
  intros Hl Hk. revert t. induction Hl as [|x l Hx _ IH]; intros t; [done|]. simpl. destruct (IH (diff_table t x)) as [-> ->].
  apply diff_only; [done|]. by intros ->.
Qed.

(** The view of the owner's entry [e] is in place. *)
Definition in_view t (n : str) (e : RouteEntry) : Prop :=
  ∃ r, routes t !! (n, a) = Some r ∧ active_fields r = active_fields (scrub e (pe_url p)).
Definition unblocked t (n : str) (e : RouteEntry) : Prop :=
  ∀ b, tombstones t !! (n, a) = Some b → SFleb (re_registered_at e) (tb_removed_at b) = false.

Lemma active_installed t n e :
  good t → entry_ok (DiffActive (active_state e)) → re_name e = n → unblocked t n e →
  in_view (diff_table t (DiffActive (active_state e))) n e.
Proof using Hne.
  intros Hg Hok <- Hub. pose proof (view_valid t _ Hg Hok) as Hv. destruct Hok as [Ha _]. simpl in Ha. simpl.
  assert (route_key (view (active_state e)) = (re_name e, a)) as Hk by (unfold route_key; simpl; by rewrite Ha).
  unfold can_register_route. rewrite Hv, Hk. simpl.
  assert (match tombstones t !! (re_name e, a) with
          | Some b => negb (SFleb (re_registered_at e) (tb_removed_at b)) | None => true end = true) as ->.
  { destruct (tombstones t !! (re_name e, a)) as [b|] eqn:Hb; [|done]. by rewrite (Hub b Hb). }
  exists (view (active_state e)). simpl. by rewrite Hk, lookup_insert_eq.
Qed.

Lemma diffs_active l t n e :
  good t → Forall entry_ok l → re_name e = n →
  (∀ x, x ∈ l → diff_name x = n → x = DiffActive (active_state e)) →
  in_view t n e ∨ (unblocked t n e ∧ DiffActive (active_state e) ∈ l) → in_view (foldl diff_table t l) n e.
Proof using Hne Halive.
  intros Hg Hl Hn. revert t Hg. induction Hl as [|x l Hx Hl IH]; intros t Hg Hall Hin; simpl.
  { destruct Hin as [?|[_ ?%elem_of_nil]]; done. }
  apply IH; [by apply diff_step|intros; apply Hall; [by right|done]|].
  destruct (decide (diff_name x = n)) as [Hxn|Hxn].
  - left. rewrite (Hall x (list_elem_of_here _ _) Hxn) in *. apply active_installed; [done..|].
    destruct Hin as [(r & Hr & _)|[? _]]; [|done]. intros b Hb. destruct Hg as [Hwf _].
    by rewrite (wf_exclusive _ _ Hwf _ _ Hr) in Hb.
  - destruct (diff_other t x n Hx Hxn) as [Hr Ht]. destruct Hin as [Hv|[Hub Hin]].
    + left. unfold in_view. by rewrite Hr.
    + right. split; [unfold unblocked; by rewrite Ht|]. apply elem_of_cons in Hin as [<-|?]; [|done]. done.
Qed.

Lemma diffs_deleted l t n :
  good t → Forall entry_ok l → (∀ x, x ∈ l → diff_name x = n → ∃ f, x = DiffDeleted n a f) →
  routes t !! (n, a) = None ∨
  (∃ r f, routes t !! (n, a) = Some r ∧ DiffDeleted n a f ∈ l ∧ SFleb (re_registered_at r) f = true) →
  routes (foldl diff_table t l) !! (n, a) = None.
Proof using Hne Halive.
  intros Hg Hl. revert t Hg. induction Hl as [|x l Hx Hl IH]; intros t Hg Hall Hin; simpl.
  { destruct Hin as [?|(? & ? & _ & ?%elem_of_nil & _)]; done. }
  apply IH; [by apply diff_step|intros; apply Hall; [by right|done]|].
  destruct (decide (diff_name x = n)) as [Hxn|Hxn].
  - destruct (Hall x (list_elem_of_here _ _) Hxn) as [g ->]. simpl.
    destruct (apply_tombstone_cases t (tomb n g) (ck_now c)) as [[-> Hno]|(_ & _ & _ & sv & -> & _)]; simpl.
    2: { left. by rewrite lookup_delete_eq. }
    destruct Hin as [?|(r & f & Hr & Hf & Hle)]; [by left|]. destruct Hg as [Hwf _].
    apply elem_of_cons in Hf as [[= ->]|?]; [|right; by exists r, f].
    exfalso. destruct Hx as [_ Hv]. unfold valid_deleted_fields in Hv. rewrite !andb_true_iff in Hv. destruct Hv as [[Hvn Hvi] Hvf].
    destruct (wf_route _ _ Hwf _ _ Hr) as [_ Hvr%valid_entry_finite].
    destruct Hno as [Hv|[Ho|(b & Hb & _)]].
    + unfold valid_tombstone in Hv. simpl in Hv. by rewrite Hvn, Hvi, Hvf in Hv.
    + unfold outlives in Ho. simpl in Ho. rewrite Hr in Ho. simpl in Ho. rewrite f64_le_not_lt in Hle by done. by rewrite Ho in Hle.
    + simpl in Hb. by rewrite (wf_exclusive _ _ Hwf _ _ Hr) in Hb.
  - destruct (diff_other t x n Hx Hxn) as [-> _]. destruct Hin as [?|(r & f & Hr & Hf & Hle)]; [by left|].
    right. exists r, f. split_and!; [done| |done]. by apply elem_of_cons in Hf as [<-|?].
Qed.
End requester.

(** ** The exchange *)

Lemma valid_entry_fields url_parse t e :
  valid_route_entry url_parse t e = true → valid_active_fields url_parse (active_state e) = true.
Proof.
  unfold valid_route_entry, valid_active_fields. rewrite !andb_true_iff. simpl. tauto.
Qed.

Lemma state_for_diff_ok url_parse tA n del x :
  table_wf url_parse tA →
  route_state_for_diff tA n (relay_id tA) del = Some x →
  entry_ok url_parse (relay_id tA) x ∧ diff_name x = n ∧
  if del then (∃ f, x = DiffDeleted n (relay_id tA) f) ∧ routes tA !! (n, (relay_id tA)) = None
  else ∃ e, routes tA !! (n, (relay_id tA)) = Some e ∧ x = DiffActive (active_state e).
Proof.
  intros Hwf. unfold route_state_for_diff. destruct del; intros (y & Hy & ->)%fmap_Some.
  - destruct (wf_tombstone _ _ Hwf _ _ Hy) as [[= Hn Hi] Hv]. destruct y as [yn yi yf ys yo]. simpl in Hn, Hi |- *. subst yn yi.
    split; [split; [done|]|split; [done|split; [by exists yf|]]].
    + unfold valid_tombstone, valid_deleted_fields in Hv |- *. simpl in Hv. rewrite !andb_true_iff in Hv. rewrite !andb_true_iff. tauto.
    + destruct (routes tA !! (n, (relay_id tA))) as [e|] eqn:He; [|done]. by rewrite (wf_exclusive _ _ Hwf _ _ He) in Hy.
  - destruct (wf_route _ _ Hwf _ _ Hy) as [[= Hn Hi] Hv]. simpl. split_and!; [done|by apply (valid_entry_fields url_parse tA)|done|by exists y].
Qed.

Section exchange.
Context (url_parse : str → option Url) (sha256_hex : bytes → str).
Context (tA tB : RouteTable) (p : PeerInfo) (c c' : Clock).
Notation wall := (ck_wall c).
Notation now := (ck_now c).
Notation idA := (relay_id tA).
Notation idB := (relay_id tB).
Notation hash := (route_entry_digest_hash sha256_hex).
Context (HA : table_inv url_parse tA) (HB : table_inv url_parse tB).

(** The digests of two entries of a route tell them apart. *)
Definition no_collision : Prop := ∀ n e r,
  routes tA !! (n, idA) = Some e → routes tB !! (n, idA) = Some r →
  addressable (active_fields e) ∧ addressable (active_fields r) ∧
  (hash e = hash r → digest_preimage (active_fields e) = digest_preimage (active_fields r)).
(** The requester knows nothing of the owner's routes from the owner's future. *)
Definition not_ahead : Prop :=
  (∀ n e b, routes tA !! (n, idA) = Some e → tombstones tB !! (n, idA) = Some b →
     SFleb (re_registered_at e) (tb_removed_at b) = false) ∧
  (∀ n r, routes tB !! (n, idA) = Some r → routes tA !! (n, idA) = None →
     SFleb (re_registered_at r) (f64_of_u64 wall) = true).

Lemma own_elem m x :
  x ∈ own_found sha256_hex tA m ↔
  ∃ n del h, route_digest sha256_hex tA !! (n, idA, del) = Some h ∧ m !! (n, idA, del) ≠ Some h ∧
    route_state_for_diff tA n idA del = Some x.
Proof using Type.
  unfold own_found. rewrite list_elem_of_omap. split.
  - intros ([[[n i] del] h] & Hin%elem_of_map_to_list & Hx). simpl in Hx.
    case_bool_decide as Hi; [subst i; simpl in Hx|done]. case_bool_decide as Hm; [done|]. eauto 8.
  - intros (n & del & h & Hd & Hm & Hx). exists ((n, idA, del), h). split; [by apply elem_of_map_to_list|]. simpl.
    rewrite bool_decide_eq_true_2, bool_decide_eq_false_2 by done. done.
Qed.

Lemma digest_valid :
  (∀ x, valid_route_digest_hash (sha256_hex x) = true) →
  validate_digest_entries (build_digest sha256_hex tB) = Ok tt ∧
  Forall (fun d => valid_route_name (de_name d) = true) (build_digest sha256_hex tB).
Proof using HB.
  intros Hsha. destruct HB as [Hwf _].
  assert (Forall (fun d => valid_route_name (de_name d) = true ∧ valid_relay_id (de_relay_id d) = true ∧
    valid_route_digest_hash (de_hash d) = true) (build_digest sha256_hex tB)) as H.
  { apply Forall_forall. intros [n i del h] Hd%build_digest_elem. simpl in *. rewrite route_digest_lookup in Hd.
    destruct del; apply fmap_Some in Hd as (y & Hy & ->).
    - destruct (wf_tombstone _ _ Hwf _ _ Hy) as [[= -> ->] Hv]. unfold valid_tombstone in Hv. rewrite !andb_true_iff in Hv.
      split_and!; [tauto..|apply Hsha].
    - destruct (wf_route _ _ Hwf _ _ Hy) as [[= -> ->] Hv%valid_entry_fields]. unfold valid_active_fields in Hv.
      rewrite !andb_true_iff in Hv. simpl in Hv. split_and!; [tauto..|apply Hsha]. }
  split; [|eapply Forall_impl; [exact H|]; by intros d (? & _)].
  induction H as [|d l (Hn & Hi & Hh) Hl IH]; [done|]. simpl. by rewrite Hn, Hi, Hh.
Qed.

(** What the owner answers. *)
Definition answer : list DigestDiffEntry :=
  own_found sha256_hex tA (route_digest sha256_hex tB) ++
  (gone_found tA (build_digest sha256_hex tB) wall now).2.

Context (Hsha : ∀ x, valid_route_digest_hash (sha256_hex x) = true) (Hab : idA ≠ idB).
Context (HpA : peer_is_alive tA idB = true) (HpB : peers tB !! idA = Some p) (Halive : pe_status p = Alive).
Context (Hwall : f64_is_finite (f64_of_u64 wall) = true).
Context (Htick : ticking tA wall (length (build_digest sha256_hex tB)) = true).

Lemma idA_valid : valid_relay_id idA = true.
Proof using HB HpB. destruct (wf_peer _ _ (proj1 HB) _ _ HpB) as (_ & _ & H & _). done. Qed.

Lemma owner_answers :
  alone c (handle_peer_digest url_parse sha256_hex idA (PeerEnvelope_new idB (DigestExchange (build_digest sha256_hex tB)))) tA =
  Ok ((gone_found tA (build_digest sha256_hex tB) wall now).1,
      EnvelopeReply (PeerEnvelope_new idA (DigestDiff answer))).
Proof using HA HB Hsha Hab HpA.
  assert (∃ q, peers tA !! idB = Some q) as [q Hq].
  { unfold peer_is_alive in HpA. destruct (peers tA !! idB) as [q|]; [by exists q|done]. }
  destruct (wf_peer _ _ (proj1 HA) _ _ Hq) as (_ & Hne & Hid & _).
  unfold handle_peer_digest, current_version, validate_route_state_envelope. simpl. rewrite Hid. simpl.
  unfold trusted_peer. rewrite bool_decide_eq_false_2 by done. cbn [negb]. rewrite alone_bind. cbn [alone reads res_bind]. rewrite HpA. cbn [negb].
  rewrite bool_decide_eq_true_2 by done. simpl.
  rewrite (proj1 (digest_valid Hsha)). cbn [res_bind]. unfold answer. unfold PeerEnvelope_new at 1. rewrite digest_map_build, alone_bind. cbn [alone reads res_bind].
  rewrite alone_bind, own_found_alone. cbn [res_bind]. rewrite alone_bind, gone_found_alone. cbn [res_bind].
  by destruct (gone_found tA _ wall now) as [t m].
Qed.

Lemma answer_ok : Forall (entry_ok url_parse idA) answer.
Proof using HA HB Hsha HpB Hwall Htick.
  apply Forall_forall. intros x [Hx|Hx]%elem_of_app.
  - apply own_elem in Hx as (n & del & h & _ & _ & Hx). by destruct (state_for_diff_ok _ _ _ _ _ (proj1 HA) Hx).
  - destruct (missing_spec url_parse wall now Hwall _ tA (proj1 HA) idA_valid (proj2 (digest_valid Hsha)) Htick) as (_ & Hm & _).
    destruct (Hm x Hx) as (n & f & -> & _ & Hv). done.
Qed.

(** Every entry about a route we have is that route; every one about a route we do not
    have deletes it. *)
Lemma answer_named n x :
  x ∈ answer → diff_name x = n →
  match routes tA !! (n, idA) with
  | Some e => x = DiffActive (active_state e)
  | None => ∃ f, x = DiffDeleted n idA f
  end.
Proof using HA HB Hsha HpB Hwall Htick.
  intros [Hx|Hx]%elem_of_app Hn.
  - apply own_elem in Hx as (m & del & h & _ & _ & Hx).
    destruct (state_for_diff_ok _ _ _ _ _ (proj1 HA) Hx) as (_ & Hm & Hdel). rewrite Hn in Hm. subst m.
    destruct del; [by destruct Hdel as [? ->]|]. by destruct Hdel as (e & -> & ->).
  - destruct (missing_spec url_parse wall now Hwall _ tA (proj1 HA) idA_valid (proj2 (digest_valid Hsha)) Htick) as (_ & Hm & _).
    destruct (Hm x Hx) as (m & f & -> & Hr & _). simpl in Hn. subst m. rewrite Hr. by exists f.
Qed.

(** A route is either announced or already in place. *)
Lemma answer_active n e :
  no_collision → routes tA !! (n, idA) = Some e →
  in_view idA p tB n e ∨ DiffActive (active_state e) ∈ answer.
Proof using HA HB HpB Hab.
  intros Hcol He. destruct (decide (route_digest sha256_hex tB !! (n, idA, false) = Some (hash e))) as [Heq|Hneq].
  - left. rewrite route_digest_lookup in Heq. apply fmap_Some in Heq as (r & Hr & Hh).
    destruct (Hcol n e r He Hr) as (Hsa & Hsb & Hpre). apply digest_preimage_inj in Hpre; [|done..].
    exists r. split; [done|]. rewrite <- Hpre. destruct (wf_route _ _ (proj1 HB) _ _ Hr) as [_ Hv].
    assert (re_locality r = Peer) as Hloc.
    { destruct (re_locality r) eqn:Hl; [|done]. apply valid_entry_local in Hv. apply Hv in Hl.
      injection Hpre as _ Hi _. destruct (wf_route _ _ (proj1 HA) _ _ He) as [[= _ Hie] _].
      destruct (wf_peer _ _ (proj1 HB) _ _ HpB) as (_ & Hne & _). congruence. }
    injection Hpre as _ Hi Hurl. destruct (wf_route _ _ (proj1 HA) _ _ He) as [[= _ Hie] _].
    destruct (proj2 HB _ _ Hr Hloc) as [(q & Hq & Hu)|[Hq _]]; rewrite <- Hi, <- Hie, HpB in Hq; [|done]. injection Hq as <-.
    unfold active_fields. simpl. by rewrite Hu, Hurl.
  - right. apply elem_of_app. left. apply own_elem. exists n, false, (hash e). split_and!.
    + by rewrite route_digest_lookup, He.
    + done.
    + simpl. by rewrite He.
Qed.

(** A route of ours that is gone is deleted by an entry newer than what is known of it. *)
Lemma answer_gone n r :
  not_ahead → routes tA !! (n, idA) = None → routes tB !! (n, idA) = Some r →
  ∃ f, DiffDeleted n idA f ∈ answer ∧ SFleb (re_registered_at r) f = true.
Proof using HA HB Hsha HpB Hwall Htick.
  intros [_ Hold] Hn Hr.
  destruct (missing_spec url_parse wall now Hwall _ tA (proj1 HA) idA_valid (proj2 (digest_valid Hsha)) Htick) as (_ & Hv & Hm).
  destruct (Hm {| de_name := n; de_relay_id := idA; de_deleted := false; de_hash := hash r |}) as (f & Hf & Hge);
    [apply build_digest_elem; simpl; by rewrite route_digest_lookup, Hr|done|done|done|].
  exists f. split; [by apply elem_of_app; right|]. destruct (wf_route _ _ (proj1 HB) _ _ Hr) as [_ Hvr%valid_entry_finite].
  destruct (Hv _ Hf) as (? & ? & [= <- <-] & _ & Hvf). unfold valid_deleted_fields in Hvf. rewrite !andb_true_iff in Hvf.
  eapply (f64_le_trans _ (f64_of_u64 wall)); [done|done|tauto|by apply (Hold n)|done].
Qed.

Lemma exchange_converges :
  no_collision → not_ahead →
  ∃ tB', alone c' (apply_digest_response url_parse idB idA (EnvelopeReply (PeerEnvelope_new idA (DigestDiff answer)))) tB = Ok (tB', NoReply) ∧
    (∀ n, match routes tA !! (n, idA) with
          | Some e => in_view idA p tB' n e
          | None => routes tB' !! (n, idA) = None
          end) ∧
    (∀ k, k.2 ≠ idA → routes tB' !! k = routes tB !! k ∧ tombstones tB' !! k = tombstones tB !! k).
Proof using HA HB Hsha HpB Hwall Htick Hab Halive.
  intros Hcol Hahead. pose proof answer_ok as Hok.
  assert (good url_parse idB idA p tB) as Hg by (split_and!; [apply HB|done..]).
  destruct (diffs_fold url_parse idB idA p c' Hab Halive answer tB Hg Hok) as [Hfold _].
  exists (foldl (diff_table url_parse idA p c') tB answer). split_and!.
  - unfold apply_digest_response, validate_route_state_envelope. simpl. rewrite idA_valid. simpl.
    rewrite bool_decide_eq_true_2 by done. simpl. rewrite validated_entries by done. cbn [res_bind]. by rewrite alone_bind, Hfold.
  - intros n. pose proof (answer_named n) as Hnamed. destruct (routes tA !! (n, idA)) as [e|] eqn:He.
    + eapply (diffs_active url_parse idB idA p c' Hab Halive); try done.
      * destruct (wf_route _ _ (proj1 HA) _ _ He) as [[= ->] _]. done.
      * destruct (answer_active n e Hcol He) as [?|?]; [by left|right]. split; [|done].
        intros b Hb. by apply (proj1 Hahead n).
    + eapply (diffs_deleted url_parse idB idA p c' Hab Halive); try done.
      destruct (routes tB !! (n, idA)) as [r|] eqn:Hr; [right|by left].
      destruct (answer_gone n r Hahead He Hr) as (f & Hin & Hle). by exists r, f.
  - intros k Hk. by apply diffs_foreign.
Qed.
End exchange.

(** ** Properties *)

(** C12 Anti-entropy converges: one digest exchange, interrupted on neither side, leaves the
    requester with exactly the owner's routes, at the owner's known URL and without private
    fields: every route the owner has and none it does not have.  The owner's routes are
    unchanged (it may record tombstones), as is all the requester knows of other relays.
    This takes two different relays that each know the other as alive, digests of 64
    hexadecimal digits that tell the compared entries apart, an owner's clock that is finite
    and stays so for the timestamps it may spend, and a requester with no tombstone at or
    after a route the owner has, and no route the owner lacks that is newer than its
    clock. *)
Theorem anti_entropy_converges url_parse sha256_hex idA wallA lA wA idB wallB lB wB p c c' :
  let tA := w_state wA in
  let tB := w_state wB in
  mesh_run url_parse sha256_hex idA (mesh_new idA wallA) lA = Ok wA →
  mesh_run url_parse sha256_hex idB (mesh_new idB wallB) lB = Ok wB →
  (∀ x, valid_route_digest_hash (sha256_hex x) = true) → idA ≠ idB →
  peer_is_alive tA idB = true → peers tB !! idA = Some p → pe_status p = Alive →
  f64_is_finite (f64_of_u64 (ck_wall c)) = true → ticking tA (ck_wall c) (length (build_digest sha256_hex tB)) = true →
  no_collision sha256_hex tA tB → not_ahead tA tB c →
  ∃ tA' reply tB',
    alone c (handle_peer_digest url_parse sha256_hex idA (PeerEnvelope_new idB (DigestExchange (build_digest sha256_hex tB)))) tA
      = Ok (tA', reply) ∧
    alone c' (apply_digest_response url_parse idB idA reply) tB = Ok (tB', NoReply) ∧
    (∀ k, routes tA' !! k = routes tA !! k) ∧
    (∀ n, match routes tA !! (n, idA) with
          | Some e => in_view idA p tB' n e
          | None => routes tB' !! (n, idA) = None
          end) ∧
    (∀ k, k.2 ≠ idA → routes tB' !! k = routes tB !! k ∧ tombstones tB' !! k = tombstones tB !! k).
Proof.
  intros tA tB HrA HrB Hsha Hab HpA HpB Halive Hwall Htick Hcol Hahead.
  destruct (mesh_run_inv _ _ _ _ _ _ HrA) as [HA <-], (mesh_run_inv _ _ _ _ _ _ HrB) as [HB <-].
  destruct (exchange_converges url_parse sha256_hex tA tB p c c') as (tB' & Hresp & Hview & Hframe); [done..|].
  eexists _, _, tB'. split_and!; [by apply owner_answers|done| |done|done].
  eapply (missing_spec url_parse (ck_wall c) (ck_now c) Hwall _ tA (proj1 HA)); [by eapply idA_valid|by eapply digest_valid|done].
Qed.

Section witness.
Import SampleMesh.

(** Relay b missed that relay a registered [r] anew and dropped [x]. *)
Definition route_x : str := txt [120].
Definition join_a : MeshEvent := PeerJoin (PeerEnvelope_new id_a (RelayJoin id_a url_a)) url_b.
Definition heard (name : str) (at_ : Z) : MeshEvent :=
  PeerAnnounce (PeerEnvelope_new id_a (RouteAnnounce (state_at name id_a url_a at_))).
Definition owner_run : list (Step MeshEvent) := whole join_b 0 ++ whole own 0.
Definition requester_run : list (Step MeshEvent) := whole join_a 0 ++ whole (heard route_r 5) 1 ++ whole (heard route_x 6) 1.
Definition owner_table : RouteTable := table owner_run.
Definition requester : World RouteTable MeshEvent MeshReply :=
  match mesh_run parse sha id_b (mesh_new id_b 1) requester_run with Ok w => w | _ => start end.
Definition requester_table : RouteTable := w_state requester.
Definition exchange_clock : Clock := {| ck_wall := 2000; ck_now := 9 |}.
Definition peer_a : PeerInfo :=
  {| pe_relay_id := id_a; pe_url := url_a; pe_route_count := 0; pe_last_heartbeat := 0; pe_status := Alive |}.

Lemma sha_valid x : valid_route_digest_hash (sha x) = true.
Proof.
  unfold valid_route_digest_hash, sha. rewrite andb_true_iff. split; [unfold blen; by rewrite length_fmap, length_seq|].
  apply forallb_forall. intros b (i & <- & _)%in_map_iff. unfold hex.
  pose proof (Z.mod_pos_bound (sum16 x / 16 ^ Z.of_nat i) 16 ltac:(lia)) as Hb.
  set (d := (sum16 x / 16 ^ Z.of_nat i) mod 16) in *.
  assert (d = 0 ∨ d = 1 ∨ d = 2 ∨ d = 3 ∨ d = 4 ∨ d = 5 ∨ d = 6 ∨ d = 7 ∨ d = 8 ∨ d = 9 ∨ d = 10 ∨ d = 11 ∨ d = 12 ∨ d = 13
    ∨ d = 14 ∨ d = 15) as H by lia. destruct_or! H; by rewrite H.
Qed.

Definition apart (e r : RouteEntry) : Prop :=
  addressable (active_fields e) ∧ addressable (active_fields r) ∧
  (route_entry_digest_hash sha e = route_entry_digest_hash sha r →
   digest_preimage (active_fields e) = digest_preimage (active_fields r)).
#[local] Instance apart_dec e r : Decision (apart e r).
Proof. unfold apart, addressable. apply _. Defined.

Lemma map_check {A} (f : str * str → A → bool) (m : gmap (str * str) A) k x :
  forallb (fun kx => f kx.1 kx.2) (map_to_list m) = true → m !! k = Some x → f k x = true.
Proof.
  intros H Hk. rewrite forallb_forall in H. apply (H (k, x)). apply list_elem_of_In. by apply elem_of_map_to_list.
Qed.

Definition apart_check (k : str * str) (e : RouteEntry) : bool :=
  forallb (fun kr => negb (bool_decide (kr.1 = k)) || bool_decide (apart e kr.2)) (map_to_list (routes requester_table)).

Lemma sample_no_collision : no_collision sha owner_table requester_table.
Proof.
  intros n e r He Hr. apply (map_check apart_check) in He; [|vm_compute; reflexivity].
  apply (map_check (fun k r => negb (bool_decide (k = (n, relay_id owner_table))) || bool_decide (apart e r))) in Hr; [|exact He].
  rewrite bool_decide_eq_true_2 in Hr by done. by apply bool_decide_eq_true in Hr.
Qed.

Lemma sample_not_ahead : not_ahead owner_table requester_table exchange_clock.
Proof.
  split.
  - intros n e b _ Hb. apply (map_check (fun _ _ => false)) in Hb; [done|vm_compute; reflexivity].
  - intros n r Hr _. by apply (map_check (fun _ r => SFleb (re_registered_at r) (f64_of_u64 2000))) in Hr; [|vm_compute; reflexivity].
Qed.

Lemma anti_entropy_witness :
  ∃ tA' reply tB',
    alone exchange_clock (handle_peer_digest parse sha id_a (PeerEnvelope_new id_b (DigestExchange (build_digest sha requester_table)))) owner_table
      = Ok (tA', reply) ∧
    alone (clock 10) (apply_digest_response parse id_b id_a reply) requester_table = Ok (tB', NoReply) ∧
    is_Some (routes tB' !! (route_r, id_a)) ∧
    routes tB' !! (route_x, id_a) = None.
Proof.
  destruct (anti_entropy_converges parse sha id_a 1 owner_run (world owner_run) id_b 1 requester_run requester peer_a exchange_clock (clock 10))
    as (tA' & reply & tB' & H1 & H2 & _ & Hview & _).
  - apply world_runs. by vm_compute.
  - by vm_compute.
  - apply sha_valid.
  - by vm_compute.
  - by vm_compute.
  - by vm_compute.
  - done.
  - by vm_compute.
  - by vm_compute.
  - apply sample_no_collision.
  - apply sample_not_ahead.
  - exists tA', reply, tB'. split_and!; [done|done| |].
    + pose proof (Hview route_r) as Hv. destruct (routes owner_table !! (route_r, id_a)) eqn:He; [|vm_compute in He; discriminate].
      destruct Hv as (r0 & Hr & _). by exists r0.
    + pose proof (Hview route_x) as Hv. destruct (routes owner_table !! (route_x, id_a)) eqn:He; [vm_compute in He; discriminate|done].
Defined.
End witness.
