(* ===== verification/ConnPool.v ===== *)
(** The relay's pool of upstream IPC connections (c2-http, relay/conn_pool.rs): one slot
    per endpoint with its owner lease, its client and its requests.  A slot is shared by
    the pool, by leases, by reconnect attempts and by owner tokens, so slots live in a
    list that only grows and are named by their index, as [Arc]s are by their pointer.
    Clients and attempts are named by numbers; [connected] says which clients are
    connected when a call looks. *)

From S2P Require Import Prelude.
From S2P Require Import Text.
From S2P Require Import RouteTable.

#[export] Instance upstream_key_countable : Countable UpstreamEndpointKey.
Proof.
  refine (inj_countable' (fun k => (uk_address k, uk_server_id k, uk_server_instance_id k))
            (fun x => {| uk_address := x.1.1; uk_server_id := x.1.2; uk_server_instance_id := x.2 |}) _).
  by intros [].
Defined.

Inductive SlotState := OwnerOnly | Ready | Evicted | Disconnected | Reconnecting | Retired.
#[export] Instance slot_state_eq : EqDecision SlotState.
Proof. solve_decision. Defined.

Record SlotInner := {
  si_client : option nat;
  si_last_activity : Z;
  si_active_requests : Z;
  si_state : SlotState;
  si_reconnect_attempt : option nat;
  si_owner_generation : Z;
  si_owner_lease_epoch : Z;
  si_owner_lease_deadline : option Z }.
Record UpstreamSlot := { us_key : UpstreamEndpointKey; us_inner : SlotInner }.

Record OwnerToken := {
  tk_slot : nat;
  tk_key : UpstreamEndpointKey;
  tk_owner_generation : Z;
  tk_owner_lease_epoch : Z }.

Inductive CachedClient :=
| CachedReady (k : UpstreamEndpointKey)
| CachedOwnerOnly (k : UpstreamEndpointKey)
| CachedEvicted (k : UpstreamEndpointKey)
| CachedDisconnected (k : UpstreamEndpointKey)
| CachedMissing.
Inductive OwnerReplacementEvidence := ConfirmedDead | ConfirmedRouteMissing.
Inductive OwnerReplaceError := StaleToken | NotReplaceable.

Record ConnectionPool := {
  cp_slots : list UpstreamSlot;
  cp_entries : gmap UpstreamEndpointKey nat;
  cp_next_owner_generation : Z;
  cp_owner_lease_duration : option Z }.

Definition with_owner_lease_duration (d : option Z) : ConnectionPool :=
  {| cp_slots := []; cp_entries := ∅; cp_next_owner_generation := 1; cp_owner_lease_duration := d |}.

(** ** One slot, under its lock *)

Implicit Types (i : SlotInner) (s : UpstreamSlot) (p : ConnectionPool) (token : OwnerToken).

Definition set_client i (c : option nat) : SlotInner :=
  {| si_client := c; si_last_activity := si_last_activity i; si_active_requests := si_active_requests i;
     si_state := si_state i; si_reconnect_attempt := si_reconnect_attempt i;
     si_owner_generation := si_owner_generation i; si_owner_lease_epoch := si_owner_lease_epoch i;
     si_owner_lease_deadline := si_owner_lease_deadline i |}.
Definition set_slot_state i (st : SlotState) (attempt : option nat) : SlotInner :=
  {| si_client := si_client i; si_last_activity := si_last_activity i; si_active_requests := si_active_requests i;
     si_state := st; si_reconnect_attempt := attempt;
     si_owner_generation := si_owner_generation i; si_owner_lease_epoch := si_owner_lease_epoch i;
     si_owner_lease_deadline := si_owner_lease_deadline i |}.
Definition set_requests i (n wall : Z) : SlotInner :=
  {| si_client := si_client i; si_last_activity := wall; si_active_requests := n;
     si_state := si_state i; si_reconnect_attempt := si_reconnect_attempt i;
     si_owner_generation := si_owner_generation i; si_owner_lease_epoch := si_owner_lease_epoch i;
     si_owner_lease_deadline := si_owner_lease_deadline i |}.
Definition renew i (deadline : option Z) : SlotInner :=
  {| si_client := si_client i; si_last_activity := si_last_activity i; si_active_requests := si_active_requests i;
     si_state := si_state i; si_reconnect_attempt := si_reconnect_attempt i;
     si_owner_generation := si_owner_generation i;
     si_owner_lease_epoch := Z.min U64_MAX (si_owner_lease_epoch i + 1);
     si_owner_lease_deadline := deadline |}.

Definition SlotInner_new (generation wall : Z) (deadline : option Z) : SlotInner :=
  {| si_client := None; si_last_activity := wall; si_active_requests := 0; si_state := OwnerOnly;
     si_reconnect_attempt := None; si_owner_generation := generation; si_owner_lease_epoch := 0;
     si_owner_lease_deadline := deadline |}.

(** [ReconnectGuard]: [attempt] is its own new [Arc]. *)
Definition ReconnectGuard_new i (attempt : nat) : SlotInner := set_slot_state i Reconnecting (Some attempt).
Definition is_current i (attempt : nat) : bool :=
  bool_decide (si_state i = Reconnecting) && bool_decide (si_reconnect_attempt i = Some attempt).
Definition guard_drop i (attempt : nat) (wall : Z) : SlotInner :=
  if is_current i attempt
  then set_requests (set_slot_state i Disconnected None) (si_active_requests i) wall
  else i.

(** One turn of [UpstreamSlot::acquire_with]: refused, a lease on the cached client, a
    connection attempt, or waiting for the attempt under way. *)
Inductive AcquireTurn := TurnNotFound | TurnLease (client : nat) | TurnAttempt (attempt : nat) | TurnWait.

Definition acquire_turn (connected : nat → bool) i (attempt : nat) (wall : Z) : SlotInner * AcquireTurn :=
  match si_state i with
  | Retired => (i, TurnNotFound)
  | OwnerOnly | Evicted | Disconnected => (ReconnectGuard_new i attempt, TurnAttempt attempt)
  | Ready =>
      match si_client i with
      | Some c =>
          if connected c then (set_requests i (si_active_requests i + 1) wall, TurnLease c)
          else (ReconnectGuard_new (set_client i None) attempt, TurnAttempt attempt)
      | None => (ReconnectGuard_new (set_client i None) attempt, TurnAttempt attempt)
      end
  | Reconnecting => (i, TurnWait)
  end.

(** The connector answered; [false] when the attempt is no longer current. *)
Definition attempt_connected i (attempt client : nat) (wall : Z) : SlotInner * bool :=
  if is_current i attempt
  then (set_requests (set_slot_state (set_client i (Some client)) Ready None) (si_active_requests i + 1) wall, true)
  else (i, false).
Definition attempt_failed i (attempt : nat) (wall : Z) : SlotInner * bool :=
  if is_current i attempt
  then (set_requests (set_slot_state (set_client i None) Disconnected None) (si_active_requests i) wall, true)
  else (i, false).

Definition slot_lookup (connected : nat → bool) s : UpstreamSlot * CachedClient :=
  let i := us_inner s in
  match si_state i with
  | OwnerOnly => (s, CachedOwnerOnly (us_key s))
  | Ready =>
      match si_client i with
      | Some c =>
          if connected c then (s, CachedReady (us_key s))
          else ({| us_key := us_key s; us_inner := set_slot_state (set_client i None) Disconnected (si_reconnect_attempt i) |},
                CachedDisconnected (us_key s))
      | None => (s, CachedEvicted (us_key s))
      end
  | Evicted => (s, CachedEvicted (us_key s))
  | Disconnected | Reconnecting => (s, CachedDisconnected (us_key s))
  | Retired => (s, CachedMissing)
  end.

(** The assertion fails when no request is active. *)
Definition end_request i (wall : Z) : res Empty_set SlotInner :=
  guard_panic (negb (si_active_requests i =? 0)) ;?
  Ok (set_requests i (si_active_requests i - 1) wall).

Definition token_current s token : bool :=
  bool_decide (us_key s = tk_key token) && (si_owner_generation (us_inner s) =? tk_owner_generation token)
  && (si_owner_lease_epoch (us_inner s) =? tk_owner_lease_epoch token).
Definition slot_matches_owner_token s token : bool :=
  token_current s token && negb (bool_decide (si_state (us_inner s) = Retired)).
Definition slot_renew_current i (deadline : option Z) : SlotInner * bool :=
  if bool_decide (si_state i = Retired) then (i, false) else (renew i deadline, true).
Definition slot_renew_token s token (deadline : option Z) : SlotInner * bool :=
  if slot_matches_owner_token s token then (renew (us_inner s) deadline, true) else (us_inner s, false).

Definition should_evict (connected : nat → bool) i (idle_timeout wall : Z) : bool :=
  if 0 <? si_active_requests i then false
  else
    match si_client i with
    | Some c => if connected c
                then bool_decide (si_state i = Ready) && (si_last_activity i <=? saturating_sub wall idle_timeout)
                else true
    | None => false
    end.

(** [client.take()], and [Evicted] when there was one. *)
Definition take_client i : SlotInner * option nat :=
  match si_client i with
  | Some c => (set_slot_state (set_client i None) Evicted (si_reconnect_attempt i), Some c)
  | None => (i, None)
  end.
Definition evict_if_idle (connected : nat → bool) i (idle_timeout wall : Z) : SlotInner * option nat :=
  if bool_decide (si_state i = Retired) then (i, None)
  else if negb (should_evict connected i idle_timeout wall) then (i, None)
  else take_client i.
Definition evict_client i (expected : nat) : SlotInner * option nat :=
  if bool_decide (si_state i = Retired) then (i, None)
  else if negb (bool_decide (si_client i = Some expected)) then (i, None)
  else take_client i.
Definition retire i : SlotInner * option nat :=
  (set_slot_state (set_client i None) Retired None, si_client i).

Definition is_replaceable (st : SlotState) : bool :=
  match st with OwnerOnly | Evicted | Disconnected => true | _ => false end.
Definition replacement_evidence_allows_locked i token (e : OwnerReplacementEvidence) : bool :=
  if negb (si_owner_generation i =? tk_owner_generation token)
     || negb (si_owner_lease_epoch i =? tk_owner_lease_epoch token) then false
  else (si_active_requests i =? 0) && is_replaceable (si_state i).

(** ** The pool *)

Definition slot p (k : UpstreamEndpointKey) : option (nat * UpstreamSlot) :=
  n ← cp_entries p !! k; s ← cp_slots p !! n; Some (n, s).
Definition set_inner p (n : nat) (i : SlotInner) : ConnectionPool :=
  {| cp_slots := alter (fun s => {| us_key := us_key s; us_inner := i |}) n (cp_slots p); cp_entries := cp_entries p;
     cp_next_owner_generation := cp_next_owner_generation p; cp_owner_lease_duration := cp_owner_lease_duration p |}.
Definition slot_matches p (k : UpstreamEndpointKey) (n : nat) : bool := bool_decide (cp_entries p !! k = Some n).
Definition owner_lease_deadline p (now : Z) : option Z := (fun d => now + d) <$> cp_owner_lease_duration p.

(** [insert_owner] when the endpoint has no slot. *)
Definition insert_slot p (k : UpstreamEndpointKey) (wall now : Z) : ConnectionPool :=
  let generation := cp_next_owner_generation p in
  {| cp_slots := cp_slots p ++ [{| us_key := k; us_inner := SlotInner_new generation wall (owner_lease_deadline p now) |}];
     cp_entries := <[k := length (cp_slots p)]> (cp_entries p);
     cp_next_owner_generation := Z.min U64_MAX (generation + 1);
     cp_owner_lease_duration := cp_owner_lease_duration p |}.
Definition renew_slot p (n : nat) (now : Z) : ConnectionPool * bool :=
  match cp_slots p !! n with
  | Some s => let '(i, b) := slot_renew_current (us_inner s) (owner_lease_deadline p now) in (set_inner p n i, b)
  | None => (p, false)
  end.
Definition insert_owner p (k : UpstreamEndpointKey) (wall now : Z) : ConnectionPool :=
  match cp_entries p !! k with
  | Some n => (renew_slot p n now).1
  | None => insert_slot p k wall now
  end.

Definition pool_lookup (connected : nat → bool) p (k : UpstreamEndpointKey) : ConnectionPool * CachedClient :=
  match slot p k with
  | Some (n, s) => let '(s', c) := slot_lookup connected s in (set_inner p n (us_inner s'), c)
  | None => (p, CachedMissing)
  end.
Definition owner_token p (k : UpstreamEndpointKey) : option OwnerToken :=
  '(n, s) ← slot p k;
  if bool_decide (si_state (us_inner s) = Retired) then None
  else Some {| tk_slot := n; tk_key := us_key s; tk_owner_generation := si_owner_generation (us_inner s);
               tk_owner_lease_epoch := si_owner_lease_epoch (us_inner s) |}.
Definition matches_owner_token p (k : UpstreamEndpointKey) token : bool :=
  slot_matches p k (tk_slot token)
  && from_option (fun s => slot_matches_owner_token s token) false (cp_slots p !! tk_slot token).
Definition renew_owner_lease p (k : UpstreamEndpointKey) token (now : Z) : ConnectionPool * bool :=
  if slot_matches p k (tk_slot token) then
    match cp_slots p !! tk_slot token with
    | Some s => let '(i, b) := slot_renew_token s token (owner_lease_deadline p now) in (set_inner p (tk_slot token) i, b)
    | None => (p, false)
    end
  else (p, false).
Definition renew_current_owner_lease p (k : UpstreamEndpointKey) (now : Z) : ConnectionPool * bool :=
  match cp_entries p !! k with Some n => renew_slot p n now | None => (p, false) end.

Definition validate_replaceable_owner_token p (k : UpstreamEndpointKey) token (e : OwnerReplacementEvidence)
    : res OwnerReplaceError unit :=
  match slot p k with
  | None => Err StaleToken
  | Some (n, s) =>
      guard_err (negb (bool_decide (n = tk_slot token))) StaleToken ;?
      guard_err (negb (token_current s token)) StaleToken ;?
      guard_err (negb (si_active_requests (us_inner s) =? 0)) NotReplaceable ;?
      guard_err (negb (replacement_evidence_allows_locked (us_inner s) token e)) NotReplaceable
  end.

Definition idle_entries (connected : nat → bool) p (idle_timeout wall : Z) : list UpstreamEndpointKey :=
  omap (fun kn => s ← cp_slots p !! kn.2;
                  if should_evict connected (us_inner s) idle_timeout wall then Some kn.1 else None)
    (map_to_list (cp_entries p)).
Definition evict_slot (connected : nat → bool) p (n : nat) (idle_timeout wall : Z) : ConnectionPool * option nat :=
  match cp_slots p !! n with
  | Some s => let '(i, c) := evict_if_idle connected (us_inner s) idle_timeout wall in (set_inner p n i, c)
  | None => (p, None)
  end.
Definition remove p (k : UpstreamEndpointKey) : ConnectionPool * option nat :=
  match slot p k with
  | Some (n, s) =>
      let '(i, c) := retire (us_inner s) in
      let p := set_inner p n i in
      ({| cp_slots := cp_slots p; cp_entries := delete k (cp_entries p);
          cp_next_owner_generation := cp_next_owner_generation p; cp_owner_lease_duration := cp_owner_lease_duration p |}, c)
  | None => (p, None)
  end.

(** ** Interleavings *)

(** The live leases, as slot and client, and the live reconnect guards, as slot and
    attempt. *)
Record PoolWorld := {
  pw_pool : ConnectionPool;
  pw_leases : list (nat * nat);
  pw_guards : list (nat * nat);
  pw_attempts : nat }.

Definition pool_world (d : option Z) : PoolWorld :=
  {| pw_pool := with_owner_lease_duration d; pw_leases := []; pw_guards := []; pw_attempts := 0 |}.
Definition with_pool (w : PoolWorld) p : PoolWorld :=
  {| pw_pool := p; pw_leases := pw_leases w; pw_guards := pw_guards w; pw_attempts := pw_attempts w |}.

(** Every locked section, on any slot some holder may still have. *)
Inductive PoolCall :=
| InsertOwner (k : UpstreamEndpointKey) (wall now : Z)
| RenewCurrent (n : nat) (now : Z)
| RenewToken (k : UpstreamEndpointKey) (token : OwnerToken) (now : Z)
| Acquire (n : nat) (connected : nat → bool) (wall : Z)
| Connected (g : nat) (client : nat) (wall : Z)
| ConnectFailed (g : nat) (wall : Z)
| DropGuard (g : nat) (wall : Z)
| EndRequest (l : nat) (wall : Z)
| Lookup (k : UpstreamEndpointKey) (connected : nat → bool)
| EvictIdle (n : nat) (connected : nat → bool) (idle_timeout wall : Z)
| EvictClient (l : nat)
| RemoveEntry (k : UpstreamEndpointKey).

Definition on_slot (w : PoolWorld) (n : nat) (f : SlotInner → SlotInner) : PoolWorld :=
  match cp_slots (pw_pool w) !! n with
  | Some s => with_pool w (set_inner (pw_pool w) n (f (us_inner s)))
  | None => w
  end.

Definition pool_step (w : PoolWorld) (c : PoolCall) : res Empty_set PoolWorld :=
  match c with
  | InsertOwner k wall now =>
      match cp_entries (pw_pool w) !! k with
      | Some _ => Ok w
      | None => Ok (with_pool w (insert_slot (pw_pool w) k wall now))
      end
  | RenewCurrent n now => Ok (with_pool w (renew_slot (pw_pool w) n now).1)
  | RenewToken k token now => Ok (with_pool w (renew_owner_lease (pw_pool w) k token now).1)
  | Acquire n connected wall =>
      match cp_slots (pw_pool w) !! n with
      | None => Ok w
      | Some s =>
          let '(i, turn) := acquire_turn connected (us_inner s) (pw_attempts w) wall in
          let p := set_inner (pw_pool w) n i in
          Ok match turn with
             | TurnLease client =>
                 {| pw_pool := p; pw_leases := (n, client) :: pw_leases w; pw_guards := pw_guards w;
                    pw_attempts := pw_attempts w |}
             | TurnAttempt a =>
                 {| pw_pool := p; pw_leases := pw_leases w; pw_guards := (n, a) :: pw_guards w;
                    pw_attempts := S (pw_attempts w) |}
             | _ => with_pool w p
             end
      end
  | Connected g client wall =>
      match pw_guards w !! g with
      | None => Ok w
      | Some (n, a) =>
          match cp_slots (pw_pool w) !! n with
          | None => Ok w
          | Some s =>
              let '(i, ok) := attempt_connected (us_inner s) a client wall in
              Ok {| pw_pool := set_inner (pw_pool w) n i;
                    pw_leases := if ok then (n, client) :: pw_leases w else pw_leases w;
                    pw_guards := pw_guards w; pw_attempts := pw_attempts w |}
          end
      end
  | ConnectFailed g wall =>
      match pw_guards w !! g with
      | None => Ok w
      | Some (n, a) => Ok (on_slot w n (fun i => (attempt_failed i a wall).1))
      end
  | DropGuard g wall =>
      match pw_guards w !! g with
      | None => Ok w
      | Some (n, a) =>
          let w' := on_slot w n (fun i => guard_drop i a wall) in
          Ok {| pw_pool := pw_pool w'; pw_leases := pw_leases w'; pw_guards := delete g (pw_guards w');
                pw_attempts := pw_attempts w' |}
      end
  | EndRequest l wall =>
      match pw_leases w !! l with
      | None => Ok w
      | Some (n, _) =>
          match cp_slots (pw_pool w) !! n with
          | None => Ok w
          | Some s =>
              let? i := end_request (us_inner s) wall in
              Ok {| pw_pool := set_inner (pw_pool w) n i; pw_leases := delete l (pw_leases w);
                    pw_guards := pw_guards w; pw_attempts := pw_attempts w |}
          end
      end
  | Lookup k connected => Ok (with_pool w (pool_lookup connected (pw_pool w) k).1)
  | EvictIdle n connected idle_timeout wall => Ok (with_pool w (evict_slot connected (pw_pool w) n idle_timeout wall).1)
  | EvictClient l =>
      match pw_leases w !! l with
      | None => Ok w
      | Some (n, c) => Ok (on_slot w n (fun i => (evict_client i c).1))
      end
  | RemoveEntry k => Ok (with_pool w (remove (pw_pool w) k).1)
  end.

Fixpoint pool_run (w : PoolWorld) (l : list PoolCall) : res Empty_set PoolWorld :=
  match l with
  | [] => Ok w
  | c :: l => let? w := pool_step w c in pool_run w l
  end.
