(* ===== verification/ConnPoolSafe.v ===== *)
(** The invariant of the upstream connection pool under every interleaving of its locked
    sections, and what owner tokens and retirement guarantee. *)

From S2P Require Import Prelude.
From S2P Require Import Text.
From S2P Require Import RouteTable.
From S2P Require Import ConnPool.

Implicit Types (w : PoolWorld) (n : nat) (i : SlotInner) (s : UpstreamSlot).

(** The live leases on slot [n]. *)
Definition leases_of n (l : list (nat * nat)) : Z := blen (filter (fun x => x.1 = n) l).

Record slot_ok w n i : Prop := {
  so_client : is_Some (si_client i) ↔ si_state i = Ready;
  so_attempt : is_Some (si_reconnect_attempt i) ↔ si_state i = Reconnecting;
  so_guard a : si_reconnect_attempt i = Some a → (n, a) ∈ pw_guards w;
  so_active : si_active_requests i = leases_of n (pw_leases w) }.

Record pool_inv w : Prop := {
  pi_slot n s : cp_slots (pw_pool w) !! n = Some s → slot_ok w n (us_inner s);
  pi_entry k n : cp_entries (pw_pool w) !! k = Some n →
    ∃ s, cp_slots (pw_pool w) !! n = Some s ∧ us_key s = k ∧ si_state (us_inner s) ≠ Retired;
  pi_live n s : cp_slots (pw_pool w) !! n = Some s →
    cp_entries (pw_pool w) !! us_key s = Some n ∨ si_state (us_inner s) = Retired;
  pi_lease n c : (n, c) ∈ pw_leases w → (n < length (cp_slots (pw_pool w)))%nat;
  pi_fresh n a : (n, a) ∈ pw_guards w → (a < pw_attempts w)%nat }.

(** A slot that is not [Ready] has no client. *)
Lemma slot_no_client w n i : slot_ok w n i → si_state i ≠ Ready → si_client i = None.
Proof. intros [Hc _ _ _] Hs. destruct (si_client i); [|done]. exfalso. apply Hs, Hc. eauto. Qed.
Lemma slot_no_attempt w n i : slot_ok w n i → si_state i ≠ Reconnecting → si_reconnect_attempt i = None.
Proof. intros [_ Ha _ _] Hs. destruct (si_reconnect_attempt i); [|done]. exfalso. apply Hs, Ha. eauto. Qed.
Lemma slot_ready w n i c : slot_ok w n i → si_client i = Some c → si_state i = Ready.
Proof. intros [Hc _ _ _] Hi. apply Hc. eauto. Qed.

Lemma slot_some p k n s : slot p k = Some (n, s) → cp_entries p !! k = Some n ∧ cp_slots p !! n = Some s.
Proof.
  unfold slot. destruct (cp_entries p !! k) as [m|]; [|done]. simpl. destruct (cp_slots p !! m) as [x|] eqn:Hn; [|done].
  simpl. by intros [= -> ->].
Qed.

Lemma leases_of_cons n m c l : leases_of n ((m, c) :: l) = (if decide (m = n) then 1 else 0) + leases_of n l.
Proof. unfold leases_of. rewrite filter_cons. simpl. destruct (decide (m = n)); [by rewrite blen_cons|lia]. Qed.
Lemma leases_of_delete n m c l j :
  l !! j = Some (m, c) → leases_of n (delete j l) = leases_of n l - (if decide (m = n) then 1 else 0).
Proof.
  intros Hj. pose proof (delete_Permutation l j (m, c) Hj) as Hp. unfold leases_of, blen.
  assert (length (filter (fun x : nat * nat => x.1 = n) l) = length (filter (fun x : nat * nat => x.1 = n) ((m, c) :: delete j l))) as ->.
  { by apply Permutation_length, filter_Permutation. }
  rewrite filter_cons. simpl. destruct (decide (m = n)); simpl; lia.
Qed.
Lemma leases_of_nonneg n l : 0 <= leases_of n l.
Proof. unfold leases_of, blen. lia. Qed.

(** ** One slot changes *)

Definition updated w n i leases guards (attempts : nat) : PoolWorld :=
  {| pw_pool := set_inner (pw_pool w) n i; pw_leases := leases; pw_guards := guards; pw_attempts := attempts |}.

Lemma update_inv w n s i leases guards attempts :
  pool_inv w → cp_slots (pw_pool w) !! n = Some s →
  slot_ok (updated w n i leases guards attempts) n i →
  (si_state i = Retired ↔ si_state (us_inner s) = Retired) →
  (∀ m, m ≠ n → leases_of m leases = leases_of m (pw_leases w)) →
  (∀ m c, (m, c) ∈ leases → m = n ∨ (m, c) ∈ pw_leases w) →
  (∀ m a, m ≠ n → (m, a) ∈ pw_guards w → (m, a) ∈ guards) →
  (∀ m a, (m, a) ∈ guards → (a < attempts)%nat) →
  pool_inv (updated w n i leases guards attempts).
Proof.
  intros [Hslot Hentry Hlive Hlease Hfresh] Hn Hok Hret Hl Hl' Hg Hf.
  assert (∀ m s', cp_slots (pw_pool (updated w n i leases guards attempts)) !! m = Some s' →
    (m = n ∧ s' = {| us_key := us_key s; us_inner := i |}) ∨ (m ≠ n ∧ cp_slots (pw_pool w) !! m = Some s')) as Hcases.
  { intros m s'. simpl. destruct (decide (m = n)) as [->|Hm].
    - rewrite list_lookup_alter_eq, Hn. simpl. intros [= <-]. by left.
    - rewrite list_lookup_alter_ne by done. by right. }
  assert (∀ m s', cp_slots (pw_pool w) !! m = Some s' → ∃ s2, cp_slots (pw_pool (updated w n i leases guards attempts)) !! m = Some s2 ∧
    us_key s2 = us_key s' ∧ (si_state (us_inner s2) = Retired ↔ si_state (us_inner s') = Retired)) as Hback.
  { intros m s' Hm. simpl. destruct (decide (m = n)) as [->|Hne].
    - rewrite list_lookup_alter_eq, Hn. eexists. split; [done|]. rewrite Hn in Hm. by injection Hm as <-.
    - rewrite list_lookup_alter_ne by done. eexists. by split. }
  split.
  - intros m s' Hm. destruct (Hcases m s' Hm) as [[-> ->]|[Hne Hm']]; [done|].
    destruct (Hslot m s' Hm') as [H1 H2 H3 H4]. split; [done|done|eauto|]. simpl. by rewrite Hl.
  - intros k m Hk. destruct (Hentry k m Hk) as (s' & Hm & Hkey & Hst).
    destruct (Hback m s' Hm) as (s2 & Hm2 & Hkey2 & Hst2). exists s2. split_and!; [done|congruence|tauto].
  - intros m s' Hm. destruct (Hcases m s' Hm) as [[-> ->]|[Hne Hm']]; [|by apply Hlive]. simpl.
    destruct (Hlive n s Hn); [by left|right; tauto].
  - intros m c Hm. simpl. rewrite length_alter. destruct (Hl' m c Hm) as [->|H]; [by eapply lookup_lt_Some|eauto].
  - done.
Qed.

(** Only the inside of slot [n] changes, and it keeps its requests, its attempt or drops it,
    and its retirement. *)
Lemma inner_inv w n s i :
  pool_inv w → cp_slots (pw_pool w) !! n = Some s →
  (is_Some (si_client i) ↔ si_state i = Ready) →
  (is_Some (si_reconnect_attempt i) ↔ si_state i = Reconnecting) →
  (∀ a, si_reconnect_attempt i = Some a → si_reconnect_attempt (us_inner s) = Some a) →
  si_active_requests i = si_active_requests (us_inner s) →
  (si_state i = Retired ↔ si_state (us_inner s) = Retired) →
  pool_inv (with_pool w (set_inner (pw_pool w) n i)).
Proof.
  intros Hw Hn Hc Ha Hg Hr Hret. destruct (pi_slot _ Hw _ _ Hn) as [H1 H2 H3 H4].
  apply (update_inv w n s i (pw_leases w) (pw_guards w) (pw_attempts w)); auto; [|apply (pi_fresh _ Hw)].
  split; [done|done|intros a Hai; apply H3; auto|by rewrite Hr].
Qed.

Lemma alter_id {A} (f : A → A) (n : nat) (l : list A) x : l !! n = Some x → f x = x → alter f n l = l.
Proof. intros H Hf. apply list_eq. intros j. destruct (decide (n = j)) as [->|]; [by rewrite list_lookup_alter_eq, H; simpl; f_equal|by rewrite list_lookup_alter_ne]. Qed.
Lemma set_inner_id p n s : cp_slots p !! n = Some s → set_inner p n (us_inner s) = p.
Proof.
  intros Hn. destruct p. unfold set_inner. simpl in *. f_equal. by apply (alter_id _ _ _ s); [|destruct s].
Qed.
Lemma with_pool_id w : with_pool w (pw_pool w) = w.
Proof. by destruct w. Qed.

(** ** Every call *)

Lemma insert_slot_inv w k wall now :
  pool_inv w → cp_entries (pw_pool w) !! k = None → pool_inv (with_pool w (insert_slot (pw_pool w) k wall now)).
Proof.
  intros [Hslot Hentry Hlive Hlease Hfresh] Hk.
  assert (∀ n s, cp_slots (insert_slot (pw_pool w) k wall now) !! n = Some s →
    cp_slots (pw_pool w) !! n = Some s ∨ (n = length (cp_slots (pw_pool w)) ∧ us_key s = k ∧
      us_inner s = SlotInner_new (cp_next_owner_generation (pw_pool w)) wall (owner_lease_deadline (pw_pool w) now))) as Hnew.
  { intros n s. simpl. intros [?|[Hn Hs]]%lookup_app_Some; [by left|right].
    destruct (n - length (cp_slots (pw_pool w)))%nat as [|d] eqn:Hd; simpl in Hs; [injection Hs as <-|done]. split; [lia|done]. }
  assert (leases_of (length (cp_slots (pw_pool w))) (pw_leases w) = 0) as Hzero.
  { unfold leases_of. destruct (filter _ _) as [|[m c] l] eqn:Hf; [done|]. exfalso.
    assert ((m, c) ∈ filter (fun x : nat * nat => x.1 = length (cp_slots (pw_pool w))) (pw_leases w)) as Hin by (rewrite Hf; by left).
    apply list_elem_of_filter in Hin as [Hm Hin]. simpl in Hm. apply Hlease in Hin. lia. }
  split.
  - intros n s Hn. destruct (Hnew n s Hn) as [Ho|(-> & _ & ->)]; [by destruct (Hslot n s Ho)|].
    split; simpl; [by split; [intros [? ?]|]..|done|by rewrite Hzero].
  - intros k' n. simpl. intros [[<- <-]|[Hne Hk']]%lookup_insert_Some.
    + eexists. rewrite list_lookup_middle by done. done.
    + destruct (Hentry k' n Hk') as (s & Hn & Hs). exists s. split; [|done]. by apply lookup_app_l_Some.
  - intros n s Hn. destruct (Hnew n s Hn) as [Ho|(-> & <- & _)]; simpl; [|left; by rewrite lookup_insert_eq].
    destruct (Hlive n s Ho) as [He|?]; [|by right]. left. rewrite lookup_insert_ne; [done|]. intros ->. congruence.
  - intros n c Hin. simpl. rewrite length_app. specialize (Hlease n c Hin). simpl. lia.
  - done.
Qed.

Lemma renew_ok w n s (d : option Z) :
  pool_inv w → cp_slots (pw_pool w) !! n = Some s → pool_inv (with_pool w (set_inner (pw_pool w) n (renew (us_inner s) d))).
Proof. intros Hw Hn. destruct (pi_slot _ Hw _ _ Hn). by apply (inner_inv w n s). Qed.

Lemma renew_slot_inv w n now : pool_inv w → pool_inv (with_pool w (renew_slot (pw_pool w) n now).1).
Proof.
  intros Hw. unfold renew_slot. destruct (cp_slots (pw_pool w) !! n) as [s|] eqn:Hn; [|by rewrite with_pool_id].
  unfold slot_renew_current. case_bool_decide; simpl; [by rewrite set_inner_id, with_pool_id|by apply renew_ok].
Qed.
Lemma renew_token_inv w k token now : pool_inv w → pool_inv (with_pool w (renew_owner_lease (pw_pool w) k token now).1).
Proof.
  intros Hw. unfold renew_owner_lease. destruct (slot_matches _ _ _); [|by rewrite with_pool_id].
  destruct (cp_slots (pw_pool w) !! _) as [s|] eqn:Hn; [|by rewrite with_pool_id].
  unfold slot_renew_token. destruct (slot_matches_owner_token _ _); simpl; [by apply renew_ok|by rewrite set_inner_id, with_pool_id].
Qed.

Lemma acquire_inv w n connected wall :
  pool_inv w → ∃ w', pool_step w (Acquire n connected wall) = Ok w' ∧ pool_inv w'.
Proof.
  intros Hw. simpl. destruct (cp_slots (pw_pool w) !! n) as [s|] eqn:Hn; [|by exists w].
  destruct (pi_slot _ Hw _ _ Hn) as [Hc Ha Hg Hr].
  assert (∀ i, si_state i ≠ Retired → si_client i = None → si_active_requests i = si_active_requests (us_inner s) →
    si_state (us_inner s) ≠ Retired →
    pool_inv (updated w n (ReconnectGuard_new i (pw_attempts w)) (pw_leases w) ((n, pw_attempts w) :: pw_guards w) (S (pw_attempts w)))) as Htry.
  { intros i Hi Hci Hri Hs. apply (update_inv w n s); auto.
    - split; simpl; [rewrite Hci; split; [by intros [? ?]|done]|split; [done|eauto]|intros a [= <-]; by left|by rewrite Hri].
    - simpl. split; [done|tauto].
    - intros. by right.
    - intros m a [[= -> ->]|Hin]%elem_of_cons; [lia|]. apply (pi_fresh _ Hw) in Hin. lia. }
  unfold acquire_turn. destruct (si_state (us_inner s)) eqn:Hst.
  - eexists. split; [done|]. apply Htry; [congruence| |done|done]. eapply slot_no_client; [by apply (pi_slot _ Hw)|congruence].
  - destruct (si_client (us_inner s)) as [c|] eqn:Hcl; [|by destruct (proj2 Hc eq_refl)]. destruct (connected c).
    + eexists. split; [done|]. apply (update_inv w n s); auto; simpl.
      * split; simpl; rewrite ?Hst, ?Hcl; try done. rewrite leases_of_cons, decide_True by done. lia.
      * intros m Hm. rewrite leases_of_cons, decide_False by done. lia.
      * intros m c' [[= -> ->]|?]%elem_of_cons; auto.
      * apply (pi_fresh _ Hw).
    + eexists. split; [done|]. apply Htry; [simpl; congruence|done..].
  - eexists. split; [done|]. apply Htry; [congruence| |done|done]. eapply slot_no_client; [by apply (pi_slot _ Hw)|congruence].
  - eexists. split; [done|]. apply Htry; [congruence| |done|done]. eapply slot_no_client; [by apply (pi_slot _ Hw)|congruence].
  - eexists. split; [done|]. by rewrite set_inner_id, with_pool_id.
  - eexists. split; [done|]. by rewrite set_inner_id, with_pool_id.
Qed.

(** A current attempt is the one the slot waits for. *)
Lemma current_state i a : is_current i a = true → si_state i = Reconnecting ∧ si_reconnect_attempt i = Some a.
Proof. unfold is_current. by rewrite andb_true_iff, !bool_decide_eq_true. Qed.

Lemma connected_inv w g client wall :
  pool_inv w → ∃ w', pool_step w (Connected g client wall) = Ok w' ∧ pool_inv w'.
Proof.
  intros Hw. simpl. destruct (pw_guards w !! g) as [[n a]|] eqn:Hg; [|by exists w].
  destruct (cp_slots (pw_pool w) !! n) as [s|] eqn:Hn; [|by exists w]. destruct (pi_slot _ Hw _ _ Hn) as [Hc Ha Hgd Hr].
  unfold attempt_connected. destruct (is_current (us_inner s) a) eqn:Hcur; eexists; (split; [done|]).
  - apply current_state in Hcur as [Hst Hat]. apply (update_inv w n s); auto; simpl.
    + split; simpl; [by split; eauto|by split; [intros [? ?]|]|done|]. rewrite leases_of_cons, decide_True by done. lia.
    + rewrite Hst. done.
    + intros m Hm. rewrite leases_of_cons, decide_False by done. lia.
    + intros m c' [[= -> ->]|?]%elem_of_cons; auto.
    + apply (pi_fresh _ Hw).
  - rewrite set_inner_id by done. by destruct w.
Qed.

(** Failing or dropping an attempt reopens the slot if the attempt is current. *)
Lemma reopen_inv w n a (f : SlotInner → SlotInner) :
  (∀ i, is_current i a = false → f i = i) →
  (∀ i, is_current i a = true → si_client i = None → si_state (f i) = Disconnected ∧ si_client (f i) = None ∧
     si_reconnect_attempt (f i) = None ∧ si_active_requests (f i) = si_active_requests i) →
  pool_inv w → pool_inv (on_slot w n f) ∧
  (∀ s, cp_slots (pw_pool (on_slot w n f)) !! n = Some s → si_reconnect_attempt (us_inner s) ≠ Some a).
Proof.
  intros Hid Hf Hw. unfold on_slot. destruct (cp_slots (pw_pool w) !! n) as [s|] eqn:Hn; [|by rewrite Hn].
  destruct (pi_slot _ Hw _ _ Hn) as [Hc Ha Hgd Hr]. destruct (is_current (us_inner s) a) eqn:Hcur.
  - apply current_state in Hcur as Hst. destruct Hst as [Hst Hat].
    assert (si_client (us_inner s) = None) as Hcl by (eapply slot_no_client; [by apply (pi_slot _ Hw)|congruence]).
    destruct (Hf _ Hcur Hcl) as (H1 & H2 & H3 & H4). split.
    + apply (inner_inv w n s); rewrite ?H1, ?H2, ?H3, ?H4; try done; [by split; [intros [? ?]|]..|by rewrite Hst].
    + simpl. rewrite list_lookup_alter_eq, Hn. intros s' [= <-]. simpl. by rewrite H3.
  - rewrite (Hid _ Hcur), set_inner_id, with_pool_id by done. split; [done|]. intros s' Hs'. rewrite Hn in Hs'. injection Hs' as <-.
    intros Hat. unfold is_current in Hcur. rewrite Hat, (proj1 Ha) in Hcur by eauto.
    by rewrite !bool_decide_eq_true_2 in Hcur.
Qed.

Lemma attempt_failed_reopens a wall i :
  (is_current i a = false → (attempt_failed i a wall).1 = i) ∧
  (is_current i a = true → si_client i = None →
     let i' := (attempt_failed i a wall).1 in
     si_state i' = Disconnected ∧ si_client i' = None ∧ si_reconnect_attempt i' = None ∧ si_active_requests i' = si_active_requests i).
Proof. unfold attempt_failed. by destruct (is_current i a). Qed.
Lemma guard_drop_reopens a wall i :
  (is_current i a = false → guard_drop i a wall = i) ∧
  (is_current i a = true → si_client i = None →
     let i' := guard_drop i a wall in
     si_state i' = Disconnected ∧ si_client i' = None ∧ si_reconnect_attempt i' = None ∧ si_active_requests i' = si_active_requests i).
Proof. unfold guard_drop. by destruct (is_current i a). Qed.

Lemma drop_guard_inv w g wall : pool_inv w → ∃ w', pool_step w (DropGuard g wall) = Ok w' ∧ pool_inv w'.
Proof.
  intros Hw. simpl. destruct (pw_guards w !! g) as [[n a]|] eqn:Hg; [|by exists w]. eexists. split; [done|].
  destruct (reopen_inv w n a (fun i => guard_drop i a wall)) as [Hw' Hgone]; [apply guard_drop_reopens..|done|].
  set (w' := on_slot w n _) in *.
  assert (pw_guards w' = pw_guards w) as HG by (unfold w', on_slot; by case_match).
  destruct Hw' as [Hslot Hentry Hlive Hlease Hfresh]. rewrite HG in *. split; simpl; try done.
  - intros m s Hm. destruct (Hslot m s Hm) as [H1 H2 H3 H4]. split; [done|done| |done]. intros b Hb. simpl.
    pose proof (H3 b Hb) as Hin. rewrite HG in Hin. rewrite (delete_Permutation _ _ _ Hg) in Hin.
    apply elem_of_cons in Hin as [[= -> ->]|?]; [|done]. by destruct (Hgone s Hm).
  - intros m b Hin. eapply Hfresh. rewrite (delete_Permutation _ _ _ Hg). by right.
Qed.

Lemma end_request_inv w l wall : pool_inv w → ∃ w', pool_step w (EndRequest l wall) = Ok w' ∧ pool_inv w'.
Proof.
  intros Hw. simpl. destruct (pw_leases w !! l) as [[n c]|] eqn:Hl; [|by exists w].
  destruct (cp_slots (pw_pool w) !! n) as [s|] eqn:Hn; [|by exists w]. destruct (pi_slot _ Hw _ _ Hn) as [Hc Ha Hgd Hr].
  pose proof (leases_of_delete n n c _ l Hl) as Hd. rewrite decide_True in Hd by done.
  pose proof (leases_of_nonneg n (delete l (pw_leases w))). unfold end_request.
  rewrite (proj2 (Z.eqb_neq _ _)) by lia. simpl. eexists. split; [done|]. apply (update_inv w n s); auto; simpl.
  - split; simpl; [done|done|done|lia].
  - intros m Hm. rewrite (leases_of_delete m n c _ l Hl), decide_False by done. lia.
  - intros m c' Hin. right. rewrite (delete_Permutation _ _ _ Hl). by right.
  - apply (pi_fresh _ Hw).
Qed.

(** Taking the client away keeps the slot consistent. *)
Lemma take_client_inv w n s :
  pool_inv w → cp_slots (pw_pool w) !! n = Some s → pool_inv (with_pool w (set_inner (pw_pool w) n (take_client (us_inner s)).1)).
Proof.
  intros Hw Hn. destruct (pi_slot _ Hw _ _ Hn) as [Hc Ha Hgd Hr]. unfold take_client.
  destruct (si_client (us_inner s)) as [c|] eqn:Hcl; [|simpl; by rewrite set_inner_id, with_pool_id].
  assert (si_state (us_inner s) = Ready) as Hst by (apply Hc; eauto). apply (inner_inv w n s); simpl; try done.
  - split; [|done]. rewrite (slot_no_attempt w n); [by intros [? ?]|by apply (pi_slot _ Hw)|congruence].
  - by rewrite Hst.
Qed.

Lemma lookup_inv w k connected : pool_inv w → pool_inv (with_pool w (pool_lookup connected (pw_pool w) k).1).
Proof.
  intros Hw. unfold pool_lookup. destruct (slot (pw_pool w) k) as [[n s]|] eqn:Hs; [|by rewrite with_pool_id].
  apply slot_some in Hs as [_ Hn].
  destruct (pi_slot _ Hw _ _ Hn) as [Hc Ha Hgd Hr].
  assert (pool_inv (with_pool w (set_inner (pw_pool w) n (us_inner s)))) as Hsame by (by rewrite set_inner_id, with_pool_id).
  unfold slot_lookup. destruct (si_state (us_inner s)) eqn:Hst; try done.
  destruct (si_client (us_inner s)) as [c|] eqn:Hcl; [|done]. destruct (connected c); [done|]. simpl.
  apply (inner_inv w n s); simpl; try done; [|by rewrite Hst].
  split; [|done]. rewrite (slot_no_attempt w n); [by intros [? ?]|by apply (pi_slot _ Hw)|congruence].
Qed.

Lemma evict_slot_inv w n connected t wall : pool_inv w → pool_inv (with_pool w (evict_slot connected (pw_pool w) n t wall).1).
Proof.
  intros Hw. unfold evict_slot. destruct (cp_slots (pw_pool w) !! n) as [s|] eqn:Hn; [|by rewrite with_pool_id].
  pose proof (take_client_inv w n s Hw Hn) as Htake. unfold evict_if_idle.
  assert (pool_inv (with_pool w (set_inner (pw_pool w) n (us_inner s)))) as Hsame by (by rewrite set_inner_id, with_pool_id).
  case_bool_decide; [done|]. destruct (negb _); [done|]. by destruct (take_client (us_inner s)).
Qed.
Lemma evict_client_inv w l : pool_inv w → ∃ w', pool_step w (EvictClient l) = Ok w' ∧ pool_inv w'.
Proof.
  intros Hw. simpl. destruct (pw_leases w !! l) as [[n c]|]; [|by exists w]. eexists. split; [done|].
  unfold on_slot. destruct (cp_slots (pw_pool w) !! n) as [s|] eqn:Hn; [|done].
  unfold evict_client. case_bool_decide; [simpl; by rewrite set_inner_id, with_pool_id|].
  destruct (negb _); [simpl; by rewrite set_inner_id, with_pool_id|by apply take_client_inv].
Qed.

Lemma remove_inv w k : pool_inv w → pool_inv (with_pool w (remove (pw_pool w) k).1).
Proof.
  intros Hw. unfold remove. destruct (slot (pw_pool w) k) as [[n s]|] eqn:Hs; [|by rewrite with_pool_id].
  apply slot_some in Hs as [Hk Hn].
  destruct Hw as [Hslot Hentry Hlive Hlease Hfresh]. simpl.
  assert (∀ j x, alter (fun y => {| us_key := us_key y; us_inner := set_slot_state (set_client (us_inner s) None) Retired None |}) n
      (cp_slots (pw_pool w)) !! j = Some x →
    (j = n ∧ us_inner x = set_slot_state (set_client (us_inner s) None) Retired None) ∨ (j ≠ n ∧ cp_slots (pw_pool w) !! j = Some x)) as Hx.
  { intros j x. destruct (decide (j = n)) as [->|]; [|rewrite list_lookup_alter_ne by done; by right].
    rewrite list_lookup_alter_eq, Hn. intros [= <-]. by left. }
  split; simpl.
  - intros j x Hj. destruct (Hx j x Hj) as [[-> ->]|[Hne Hj']]; [|by destruct (Hslot j x Hj')].
    destruct (Hslot n s Hn) as [_ _ _ Hr]. split; simpl; [by split; [intros [? ?]|]..|done|done].
  - intros k' j [Hne Hj]%lookup_delete_Some. destruct (Hentry k' j Hj) as (x & Hxj & Hkey & Hst). exists x. split; [|done].
    rewrite list_lookup_alter_ne; [done|]. intros <-. rewrite Hn in Hxj. injection Hxj as <-.
    destruct (Hentry k n Hk) as (y & Hy & Hyk & _). rewrite Hn in Hy. injection Hy as <-. congruence.
  - intros j x Hj. destruct (Hx j x Hj) as [[-> ->]|[Hne Hj']]; [by right|]. destruct (Hlive j x Hj') as [He|?]; [|by right].
    left. rewrite lookup_delete_ne; [done|]. intros ->. congruence.
  - intros j c Hin. rewrite length_alter. by apply (Hlease j c).
  - done.
Qed.

Lemma pool_step_inv w c : pool_inv w → ∃ w', pool_step w c = Ok w' ∧ pool_inv w'.
Proof.
  intros Hw. destruct c.
  - simpl. destruct (cp_entries (pw_pool w) !! k) eqn:Hk; [by exists w|]. eexists. split; [done|]. by apply insert_slot_inv.
  - eexists. split; [done|]. by apply renew_slot_inv.
  - eexists. split; [done|]. by apply renew_token_inv.
  - by apply acquire_inv.
  - by apply connected_inv.
  - simpl. destruct (pw_guards w !! g) as [[n a]|]; [|by exists w]. eexists. split; [done|].
    apply (reopen_inv w n a); [apply attempt_failed_reopens..|done].
  - by apply drop_guard_inv.
  - by apply end_request_inv.
  - eexists. split; [done|]. by apply lookup_inv.
  - eexists. split; [done|]. by apply evict_slot_inv.
  - by apply evict_client_inv.
  - eexists. split; [done|]. by apply remove_inv.
Qed.

Lemma pool_world_inv d : pool_inv (pool_world d).
Proof. split; simpl; try done; intros ? ? H; by apply elem_of_nil in H. Qed.
Lemma pool_run_inv l w : pool_inv w → ∃ w', pool_run w l = Ok w' ∧ pool_inv w'.
Proof.
  revert w. induction l as [|c l IH]; intros w Hw; [by exists w|]. simpl.
  destruct (pool_step_inv w c Hw) as (w1 & -> & H1). simpl. by apply IH.
Qed.

(** ** What never goes back *)

(** A slot keeps its endpoint and its generation, its lease epoch does not decrease, and
    once retired it stays so. *)
Definition slot_le s s' : Prop :=
  us_key s' = us_key s ∧ si_owner_generation (us_inner s') = si_owner_generation (us_inner s) ∧
  (si_owner_lease_epoch (us_inner s) <= U64_MAX →
   si_owner_lease_epoch (us_inner s) <= si_owner_lease_epoch (us_inner s') <= U64_MAX) ∧
  (si_state (us_inner s) = Retired → si_state (us_inner s') = Retired).
#[export] Instance slot_le_preorder : PreOrder slot_le.
Proof.
  split; [intros s; unfold slot_le; split_and!; auto; lia|]. unfold slot_le. intros s1 s2 s3 (Hk1 & Hg1 & He1 & Hr1) (Hk2 & Hg2 & He2 & Hr2).
  split_and!; [congruence..| |auto]. intros H. specialize (He1 H). lia.
Qed.

Definition slots_le w w' : Prop :=
  ∀ n s, cp_slots (pw_pool w) !! n = Some s → ∃ s', cp_slots (pw_pool w') !! n = Some s' ∧ slot_le s s'.
#[export] Instance slots_le_preorder : PreOrder slots_le.
Proof.
  split; [intros w n s H; by exists s|]. intros w1 w2 w3 H1 H2 n s Hs. destruct (H1 n s Hs) as (s2 & Hs2 & Hl2).
  destruct (H2 n s2 Hs2) as (s3 & Hs3 & Hl3). exists s3. split; [done|]. by transitivity s2.
Qed.

Lemma set_inner_le w w' n s i :
  cp_slots (pw_pool w) !! n = Some s → cp_slots (pw_pool w') = cp_slots (set_inner (pw_pool w) n i) →
  slot_le s {| us_key := us_key s; us_inner := i |} → slots_le w w'.
Proof.
  intros Hn Hw' Hle m x Hm. rewrite Hw'. simpl. destruct (decide (m = n)) as [->|Hne].
  - rewrite list_lookup_alter_eq, Hn. rewrite Hn in Hm. injection Hm as <-. eauto.
  - rewrite list_lookup_alter_ne by done. by exists x.
Qed.

Lemma slot_le_same s i :
  si_owner_generation i = si_owner_generation (us_inner s) → si_owner_lease_epoch i = si_owner_lease_epoch (us_inner s) →
  (si_state (us_inner s) = Retired → si_state i = Retired) → slot_le s {| us_key := us_key s; us_inner := i |}.
Proof. intros Hg He Hr. unfold slot_le. simpl. rewrite Hg, He. split_and!; auto; lia. Qed.
Lemma slot_le_renew s (d : option Z) : slot_le s {| us_key := us_key s; us_inner := renew (us_inner s) d |}.
Proof. unfold slot_le. simpl. split_and!; [done|done|lia|done]. Qed.

Lemma pool_step_le w c w' : pool_step w c = Ok w' → slots_le w w'.
Proof.
  assert (∀ n s i w', cp_slots (pw_pool w) !! n = Some s → cp_slots (pw_pool w') = cp_slots (set_inner (pw_pool w) n i) →
    si_owner_generation i = si_owner_generation (us_inner s) → si_owner_lease_epoch i = si_owner_lease_epoch (us_inner s) →
    (si_state (us_inner s) = Retired → si_state i = Retired) → slots_le w w') as Hset.
  { intros n s i w1 Hn Hw1 H1 H2 H3. eapply set_inner_le; [done..|]. by apply slot_le_same. }
  assert (∀ n s d, cp_slots (pw_pool w) !! n = Some s → slots_le w (with_pool w (set_inner (pw_pool w) n (renew (us_inner s) d)))) as Hren.
  { intros n s d Hn. eapply set_inner_le; [done..|]. apply slot_le_renew. }
  destruct c; simpl.
  - destruct (cp_entries _ !! k); intros [= <-]; [done|]. intros n s Hn. exists s. split; [|done]. simpl.
    by apply lookup_app_l_Some.
  - intros [= <-]. unfold renew_slot. destruct (cp_slots _ !! n) as [s|] eqn:Hn; [|by rewrite with_pool_id].
    unfold slot_renew_current. case_bool_decide; simpl; [by rewrite set_inner_id, with_pool_id|by apply Hren].
  - intros [= <-]. unfold renew_owner_lease. destruct (slot_matches _ _ _); [|by rewrite with_pool_id].
    destruct (cp_slots _ !! _) as [s|] eqn:Hn; [|by rewrite with_pool_id].
    unfold slot_renew_token. destruct (slot_matches_owner_token _ _); simpl; [by apply Hren|by rewrite set_inner_id, with_pool_id].
  - destruct (cp_slots _ !! n) as [s|] eqn:Hn; [|by intros [= <-]]. destruct (acquire_turn _ _ _ _) as [i turn] eqn:Ht.
    intros [= <-]. eapply (Hset n s i); [done|by destruct turn|..]; unfold acquire_turn in Ht; repeat case_match; simplify_eq/=; intros; congruence.
  - destruct (pw_guards w !! g) as [[n a]|]; [|by intros [= <-]]. destruct (cp_slots _ !! n) as [s|] eqn:Hn; [|by intros [= <-]].
    unfold attempt_connected. destruct (is_current _ _) eqn:Hc; intros [= <-]; (eapply (Hset n s); [done|reflexivity|..]); try done.
    apply current_state in Hc as [Hc _]. intros. congruence.
  - destruct (pw_guards w !! g) as [[n a]|]; [|by intros [= <-]]. intros [= <-]. unfold on_slot.
    destruct (cp_slots _ !! n) as [s|] eqn:Hn; [|done]. eapply (Hset n s); [done|reflexivity|..]; unfold attempt_failed; destruct (is_current _ _) eqn:Hc; try done.
    apply current_state in Hc as [Hc _]. intros. congruence.
  - destruct (pw_guards w !! g) as [[n a]|]; [|by intros [= <-]]. intros [= <-]. unfold on_slot.
    destruct (cp_slots _ !! n) as [s|] eqn:Hn; [|intros m x Hm; by exists x]. eapply (Hset n s); [done|reflexivity|..]; unfold guard_drop; destruct (is_current _ _) eqn:Hc; try done.
    apply current_state in Hc as [Hc _]. intros. congruence.
  - destruct (pw_leases w !! l) as [[n c]|]; [|by intros [= <-]]. destruct (cp_slots _ !! n) as [s|] eqn:Hn; [|by intros [= <-]].
    unfold end_request. intros (i & Hi & [= <-])%bind_ok. apply bind_ok in Hi as (? & _ & [= <-]). by eapply (Hset n s); [done|reflexivity|..].
  - intros [= <-]. unfold pool_lookup. destruct (slot _ _) as [[n s]|] eqn:Hs; [|by rewrite with_pool_id].
    apply slot_some in Hs as [_ Hn]. destruct (slot_lookup _ _) as [s' c] eqn:Hl. eapply (Hset n s); [done|reflexivity|..];
      unfold slot_lookup in Hl; repeat case_match; simplify_eq/=; intros; congruence.
  - intros [= <-]. unfold evict_slot. destruct (cp_slots _ !! n) as [s|] eqn:Hn; [|by rewrite with_pool_id].
    destruct (evict_if_idle _ _ _ _) as [i c] eqn:He. eapply (Hset n s); [done|reflexivity|..]; unfold evict_if_idle, take_client in He;
      repeat case_match; simplify_eq/=; try done; try congruence; by rewrite bool_decide_eq_false in *.
  - destruct (pw_leases w !! l) as [[n c]|]; [|by intros [= <-]]. intros [= <-]. unfold on_slot.
    destruct (cp_slots _ !! n) as [s|] eqn:Hn; [|done]. eapply (Hset n s); [done|reflexivity|..]; unfold evict_client, take_client;
      repeat case_match; simplify_eq/=; try done; by rewrite bool_decide_eq_false in *.
  - intros [= <-]. unfold remove. destruct (slot _ _) as [[n s]|] eqn:Hs; [|by rewrite with_pool_id].
    apply slot_some in Hs as [_ Hn]. by eapply (Hset n s); [done|reflexivity|..].
Qed.

Lemma pool_run_le l w w' : pool_run w l = Ok w' → slots_le w w'.
Proof.
  revert w. induction l as [|c l IH]; intros w; simpl; [by intros [= <-]|].
  intros (w1 & H1 & H2)%bind_ok. transitivity w1; [by eapply pool_step_le|by apply IH].
Qed.

Lemma pool_run_app l1 l2 w w' : pool_run w (l1 ++ l2) = Ok w' ↔ ∃ w1, pool_run w l1 = Ok w1 ∧ pool_run w1 l2 = Ok w'.
Proof.
  revert w. induction l1 as [|c l1 IH]; intros w; simpl; [naive_solver|]. rewrite bind_ok. setoid_rewrite IH.
  split; [intros (a & ? & b & ? & ?)|intros (b & (a & ? & ?)%bind_ok & ?)]; eauto using bind_ok.
  exists b. rewrite bind_ok. eauto.
Qed.

(** ** Properties *)

(** C19 Whatever the interleaving, the pool never fails an assertion; the active requests
    of every slot are exactly the live leases on it; a client is cached exactly in a
    [Ready] slot, and a slot that reconnects has its attempt's guard still out, so waiting
    requests are woken; a slot with a live lease is neither idle nor replaceable. *)
Theorem pool_leases_exact d l :
  ∃ w, pool_run (pool_world d) l = Ok w ∧
    ∀ n s, cp_slots (pw_pool w) !! n = Some s →
      si_active_requests (us_inner s) = leases_of n (pw_leases w) ∧
      (is_Some (si_client (us_inner s)) ↔ si_state (us_inner s) = Ready) ∧
      (si_state (us_inner s) = Reconnecting → ∃ a, si_reconnect_attempt (us_inner s) = Some a ∧ (n, a) ∈ pw_guards w) ∧
      (0 < leases_of n (pw_leases w) →
        (∀ connected t wall, should_evict connected (us_inner s) t wall = false) ∧
        (∀ k token e, slot (pw_pool w) k = Some (n, s) → validate_replaceable_owner_token (pw_pool w) k token e ≠ Ok tt)).
Proof.
  destruct (pool_run_inv l _ (pool_world_inv d)) as (w & Hrun & Hw). exists w. split; [done|]. intros n s Hn.
  destruct (pi_slot _ Hw _ _ Hn) as [Hc Ha Hg Hr]. split_and!; [done|done| |].
  - intros Hst. destruct (proj2 Ha Hst) as [a Hat]. exists a. auto.
  - intros Hpos. split.
    + intros. unfold should_evict. by rewrite (proj2 (Z.ltb_lt _ _)) by lia.
    + intros k token e Hs. unfold validate_replaceable_owner_token. rewrite Hs.
      rewrite (proj2 (Z.eqb_neq (si_active_requests _) 0)) by lia. unfold guard_err. by repeat case_match.
Qed.

Lemma replaceable_spec p k token e :
  validate_replaceable_owner_token p k token e = Ok tt →
  ∃ s, cp_entries p !! k = Some (tk_slot token) ∧ cp_slots p !! tk_slot token = Some s ∧
    us_key s = tk_key token ∧ si_owner_lease_epoch (us_inner s) = tk_owner_lease_epoch token ∧
    si_active_requests (us_inner s) = 0 ∧ is_replaceable (si_state (us_inner s)) = true.
Proof.
  unfold validate_replaceable_owner_token. destruct (slot p k) as [[n s]|] eqn:Hs; [|done]. apply slot_some in Hs as [Hk Hn].
  intros (? & H1%guard_err_ok & H)%bind_ok. apply bind_ok in H as (? & H2%guard_err_ok & H).
  apply bind_ok in H as (? & H3%guard_err_ok & H4%guard_err_ok).
  apply negb_false_iff, bool_decide_eq_true in H1 as ->. apply negb_false_iff in H2, H3, H4.
  unfold token_current in H2. rewrite !andb_true_iff, bool_decide_eq_true, !Z.eqb_eq in H2. apply Z.eqb_eq in H3.
  unfold replacement_evidence_allows_locked in H4. case_match; [done|]. apply andb_true_iff in H4 as [_ H4].
  exists s. naive_solver.
Qed.

Lemma owner_token_spec p k token :
  owner_token p k = Some token →
  ∃ s, cp_entries p !! k = Some (tk_slot token) ∧ cp_slots p !! tk_slot token = Some s ∧
    us_key s = tk_key token ∧ si_owner_generation (us_inner s) = tk_owner_generation token ∧
    si_owner_lease_epoch (us_inner s) = tk_owner_lease_epoch token.
Proof.
  unfold owner_token. destruct (slot p k) as [[m s]|] eqn:Hs; [|done]. simpl. apply slot_some in Hs as [Hk Hm].
  repeat case_match; try done. injection 1 as <-. exists s. done.
Qed.

Section token.
Context (w0 w : PoolWorld) (k : UpstreamEndpointKey) (token : OwnerToken) (e : OwnerReplacementEvidence) (l : list PoolCall).
Context (H0 : pool_inv w0) (Htok : owner_token (pw_pool w0) k = Some token) (Hrun : pool_run w0 l = Ok w).
Context (Hrep : validate_replaceable_owner_token (pw_pool w) k token e = Ok tt).
Context (Hep : tk_owner_lease_epoch token < U64_MAX).
Notation n := (tk_slot token).

(** At every point in between the slot is live, of endpoint [k], at the token's epoch. *)
Lemma token_between l1 l2 w1 :
  l = l1 ++ l2 → pool_run w0 l1 = Ok w1 →
  pool_inv w1 ∧ pool_run w1 l2 = Ok w ∧ ∃ s, cp_slots (pw_pool w1) !! n = Some s ∧ us_key s = k ∧
    si_owner_generation (us_inner s) = tk_owner_generation token ∧
    si_owner_lease_epoch (us_inner s) = tk_owner_lease_epoch token ∧ si_state (us_inner s) ≠ Retired.
Proof using All.
  intros Hl H1. assert (pool_inv w1) as Hw1.
  { destruct (pool_run_inv l1 _ H0) as (x & Hx & ?). congruence. }
  assert (pool_run w1 l2 = Ok w) as H2.
  { pose proof Hrun as Hr. rewrite Hl in Hr. apply pool_run_app in Hr as (x & Hx & H2). congruence. }
  split_and!; [done..|].
  destruct (replaceable_spec _ _ _ _ Hrep) as (s & Hk & Hs & Hkey & Heps & _ & Hst).
  pose proof (owner_token_spec _ _ _ Htok) as (s0 & Hk0 & Hm & Hkey0 & Hg0 & He0).
  destruct (pool_run_le _ _ _ H1 n s0 Hm) as (s1 & Hs1 & Hkey1 & Hg1 & He1 & _).
  destruct (pool_run_le _ _ _ H2 n s1 Hs1) as (s2 & Hs2 & Hkey2 & _ & He2 & Hr2). assert (s2 = s) as -> by congruence.
  destruct (pi_entry _ H0 _ _ Hk0) as (x & Hx0 & Hxk & _). assert (x = s0) as -> by congruence.
  exists s1. split_and!; [done|congruence|congruence|lia|]. intros Hret. rewrite (Hr2 Hret) in Hst. done.
Qed.

Lemma token_matches l1 l2 w1 : l = l1 ++ l2 → pool_run w0 l1 = Ok w1 → matches_owner_token (pw_pool w1) k token = true.
Proof using All.
  intros Hl H1. destruct (token_between l1 l2 w1 Hl H1) as (Hw1 & _ & s & Hs & Hk & Hg & He & Hst).
  destruct (pi_live _ Hw1 _ _ Hs) as [Hn|?]; [|done]. rewrite Hk in Hn.
  destruct (owner_token_spec _ _ _ Htok) as (s0 & Hk0 & Hs0 & Hkey & _).
  destruct (pi_entry _ H0 _ _ Hk0) as (x & Hx & Hxk & _). assert (x = s0) as -> by congruence.
  unfold matches_owner_token, slot_matches, slot_matches_owner_token, token_current. rewrite Hn, Hs. simpl.
  rewrite !bool_decide_eq_true_2, bool_decide_eq_false_2, Hg, He, !Z.eqb_refl by congruence. done.
Qed.

Lemma token_not_renewed now : RenewCurrent n now ∉ l.
Proof using All.
  intros (l1 & l2 & Hl)%list_elem_of_split. pose proof Hrun as Hr. rewrite Hl in Hr. apply pool_run_app in Hr as (w1 & H1 & Hr).
  destruct (token_between l1 _ w1 Hl H1) as (Hw1 & _ & s & Hs & _ & _ & Heps & Hst).
  simpl in Hr. destruct (token_between (l1 ++ [RenewCurrent n now]) l2 (with_pool w1 (renew_slot (pw_pool w1) n now).1)) as (_ & _ & s2 & Hs2 & _ & _ & He2 & _).
  - by rewrite <- app_assoc.
  - apply pool_run_app. by exists w1.
  - unfold renew_slot in Hs2. rewrite Hs in Hs2. unfold slot_renew_current in Hs2. rewrite bool_decide_eq_false_2 in Hs2 by done.
    simpl in Hs2. rewrite list_lookup_alter_eq, Hs in Hs2. injection Hs2 as <-. simpl in He2. lia.
Qed.

Lemma token_not_removed : RemoveEntry k ∉ l.
Proof using All.
  intros (l1 & l2 & Hl)%list_elem_of_split. pose proof Hrun as Hr. rewrite Hl in Hr. apply pool_run_app in Hr as (w1 & H1 & Hr).
  destruct (token_between l1 _ w1 Hl H1) as (Hw1 & _ & s & Hs & Hk & _ & _ & Hst).
  destruct (token_between (l1 ++ [RemoveEntry k]) l2 (with_pool w1 (remove (pw_pool w1) k).1)) as (_ & _ & s2 & Hs2 & _ & _ & _ & Hst2).
  - by rewrite <- app_assoc.
  - apply pool_run_app. by exists w1.
  - destruct (pi_live _ Hw1 _ _ Hs) as [He|?]; [|done]. rewrite Hk in He. unfold remove, slot in Hs2. rewrite He in Hs2. simpl in Hs2.
    rewrite Hs in Hs2. simpl in Hs2. rewrite list_lookup_alter_eq, Hs in Hs2. injection Hs2 as <-. by apply Hst2.
Qed.
End token.

(** An owner token fences its owner: if a token still allows replacing the owner after
    any interleaving, then meanwhile the owner's lease was not renewed and its slot not
    removed, and now the slot is the endpoint's own, no request holds it, and it has
    neither a client nor an attempt to get one. *)
Theorem owner_token_fences d l0 w0 k token l w e :
  pool_run (pool_world d) l0 = Ok w0 → owner_token (pw_pool w0) k = Some token → pool_run w0 l = Ok w →
  tk_owner_lease_epoch token < U64_MAX → validate_replaceable_owner_token (pw_pool w) k token e = Ok tt →
  (∀ now, RenewCurrent (tk_slot token) now ∉ l) ∧ RemoveEntry k ∉ l ∧
  cp_entries (pw_pool w) !! k = Some (tk_slot token) ∧ leases_of (tk_slot token) (pw_leases w) = 0 ∧
  ∃ s, cp_slots (pw_pool w) !! tk_slot token = Some s ∧
    si_client (us_inner s) = None ∧ si_reconnect_attempt (us_inner s) = None.
Proof.
  intros Hrun0 Htok Hrun Hep Hrep. destruct (pool_run_inv l0 _ (pool_world_inv d)) as (x & Hx & H0).
  assert (x = w0) as -> by congruence. destruct (pool_run_inv l _ H0) as (x & Hx' & Hw). assert (x = w) as -> by congruence.
  split_and!; [intros now; by apply (token_not_renewed w0 w k token e)|by apply (token_not_removed w0 w k token e)|..];
    destruct (replaceable_spec _ _ _ _ Hrep) as (s & Hk & Hs & _ & _ & Hact & Hst); [done| |].
  - by rewrite <- (so_active _ _ _ (pi_slot _ Hw _ _ Hs)).
  - exists s. split_and!; [done|eapply slot_no_client|eapply slot_no_attempt]; first [by apply (pi_slot _ Hw)|intros H; by rewrite H in Hst].
Qed.

Section witness.
Definition sample_key : UpstreamEndpointKey := {| uk_address := []; uk_server_id := []; uk_server_instance_id := [] |}.
(** An owner is registered, its connection breaks during a request, and the request ends. *)
Definition sample_calls : list PoolCall :=
  [Acquire 0 (fun _ => true) 0; Connected 0 7 0; DropGuard 0 0; Lookup sample_key (fun _ => false); EndRequest 0 1].
Definition sample_token : OwnerToken :=
  {| tk_slot := 0; tk_key := sample_key; tk_owner_generation := 1; tk_owner_lease_epoch := 0 |}.
Definition world_after (l : list PoolCall) : PoolWorld :=
  match pool_run (pool_world (Some 60)) l with Ok w => w | _ => pool_world None end.

Lemma owner_token_witness :
  RemoveEntry sample_key ∉ sample_calls ∧
  leases_of 0 (pw_leases (world_after (InsertOwner sample_key 0 0 :: sample_calls))) = 0.
Proof.
  destruct (owner_token_fences (Some 60) [InsertOwner sample_key 0 0] (world_after [InsertOwner sample_key 0 0]) sample_key
    sample_token sample_calls (world_after (InsertOwner sample_key 0 0 :: sample_calls)) ConfirmedDead) as (_ & H1 & _ & H2 & _);
    [vm_compute; reflexivity..|done].
Defined.
End witness.
