(* ===== verification/Authority.v ===== *)
(** The authority over local routes (c2-http, relay/authority.rs and the parts of
    relay/state.rs it calls): preparing, committing and withdrawing registrations over the
    route table and the connection pool together.

    The route table is behind a reader-writer lock, the pool and its slots have locks of
    their own.  A registration holds the table's write lock over several sections of the
    pool, so the world carries the writer: while there is one, nothing else reads or
    writes the table, and the pool goes on.  The tasks of the mesh are in flight beside it,
    one section of the table at a time. *)

From S2P Require Import Prelude.
From S2P Require Import Locked.
From S2P Require Import Text.
From S2P Require Import Float64.
From S2P Require Import RouteTable.
From S2P Require Import RouteSync.
From S2P Require Import Mesh.
From S2P Require Import ConnPool.

Record OwnerReplacementCandidate := {
  oc_route_name : str;
  oc_server_id : str;
  oc_server_instance_id : str;
  oc_ipc_address : str;
  oc_existing_address : str;
  oc_crm_ns : str;
  oc_crm_name : str;
  oc_crm_ver : str;
  oc_abi_hash : str;
  oc_signature_hash : str;
  oc_max_payload_size : Z;
  oc_route_uid : str;
  oc_token : OwnerToken }.

(** The candidate [with_evidence]. *)
Record OwnerReplacement := { or_candidate : OwnerReplacementCandidate; or_evidence : OwnerReplacementEvidence }.

Record LocalRegistration := {
  lr_owner : LocalRouteOwner;
  lr_contract : AttestedRouteContract;
  lr_replacement : option OwnerReplacement }.

Inductive RegisterPreflight :=
| Available (replacement : option OwnerReplacementCandidate)
| PreflightSameOwner.

Inductive RegisterPreparation :=
| PreparedAvailable (replacement : option OwnerReplacementCandidate)
| PreparedSameOwner
| DuplicateAlive (existing_address : str).

Inductive OwnerProbe := ProbeAlive | ProbeRouteMissing | ProbeDead | ProbeStale.

Definition text_or_empty (o : option str) : str := default [] o.

(** ** Preparing a registration *)

Definition check_owner_fields (o : LocalRouteOwner) : res ControlError unit :=
  check_name (lo_name o) ;?
  guard_err (negb (valid_server_id (lo_server_id o))) InvalidServerId ;?
  guard_err (negb (valid_server_instance_id (lo_server_instance_id o))) InvalidServerInstanceId ;?
  guard_err (negb (valid_ipc_address (lo_address o))) InvalidAddress.

(** [connection_lookup] and [owner_token] of the state find the endpoint of a local route
    in the table first. *)
Definition local_endpoint (t : RouteTable) (name : str) : option UpstreamEndpointKey := local_route t name ≫= from_route.
Definition connection_lookup (connected : nat → bool) (t : RouteTable) (p : ConnectionPool) (name : str)
    : ConnectionPool * CachedClient :=
  match local_endpoint t name with Some k => pool_lookup connected p k | None => (p, CachedMissing) end.
Definition route_owner_token (t : RouteTable) (p : ConnectionPool) (name : str) : option OwnerToken :=
  k ← local_endpoint t name; owner_token p k.
Definition route_matches_owner_token (t : RouteTable) (p : ConnectionPool) (name : str) (token : OwnerToken) : bool :=
  from_option (fun k => matches_owner_token p k token) false (local_endpoint t name).

(** [different_owner_replacement]: [cached] and [token] are what [connection_lookup] and
    [owner_token] answer, each from sections of its own. *)
Definition different_owner_replacement (existing : RouteEntry) (cached : CachedClient) (token : option OwnerToken)
    : res ControlError OwnerReplacementCandidate :=
  let existing_address := text_or_empty (re_ipc_address existing) in
  match cached with
  | CachedReady k => Err (DuplicateRoute (uk_address k))
  | CachedOwnerOnly k | CachedEvicted k | CachedDisconnected k =>
      match token with
      | None => Err (DuplicateRoute (uk_address k))
      | Some token =>
          Ok {| oc_route_name := re_name existing; oc_server_id := text_or_empty (re_server_id existing);
                oc_server_instance_id := text_or_empty (re_server_instance_id existing);
                oc_ipc_address := existing_address; oc_existing_address := uk_address k;
                oc_crm_ns := re_crm_ns existing; oc_crm_name := re_crm_name existing; oc_crm_ver := re_crm_ver existing;
                oc_abi_hash := re_abi_hash existing; oc_signature_hash := re_signature_hash existing;
                oc_max_payload_size := re_max_payload_size existing; oc_route_uid := re_route_uid existing;
                oc_token := token |}
      end
  | CachedMissing => Err (DuplicateRoute existing_address)
  end.

Definition register_local_preflight (o : LocalRouteOwner) (existing : option RouteEntry) (cached : CachedClient)
    (token : option OwnerToken) : res ControlError RegisterPreflight :=
  check_owner_fields o ;?
  match existing with
  | None => Ok (Available None)
  | Some x =>
      let existing_address := text_or_empty (re_ipc_address x) in
      if bool_decide (text_or_empty (re_server_id x) = lo_server_id o) then
        if bool_decide (existing_address = lo_address o) then
          if bool_decide (text_or_empty (re_server_instance_id x) = lo_server_instance_id o)
          then Ok PreflightSameOwner else Ok (Available None)
        else Err (AddressMismatch existing_address)
      else let? c := different_owner_replacement x cached token in Ok (Available (Some c))
  end.

(** What a connection to the captured owner shows: its identity and the contract it has
    for the route.  [None] when the connection fails. *)
Record OwnerSeen := {
  ow_server_id : option str; ow_server_instance_id : option str; ow_contract : option ExpectedRouteContract }.

Definition contract_is (c : OwnerReplacementCandidate) (x : ExpectedRouteContract) : bool :=
  bool_decide (erc_route_name x = oc_route_name c) && bool_decide (erc_crm_ns x = oc_crm_ns c)
  && bool_decide (erc_crm_name x = oc_crm_name c) && bool_decide (erc_crm_ver x = oc_crm_ver c)
  && bool_decide (erc_abi_hash x = oc_abi_hash c) && bool_decide (erc_signature_hash x = oc_signature_hash c).

(** [managed]: whether a client could be made at all; [current]: whether the token still
    matches after the connection. *)
Definition probe_captured_owner (c : OwnerReplacementCandidate) (managed : bool) (seen : option OwnerSeen) (current : bool)
    : OwnerProbe :=
  if negb (valid_ipc_address (oc_existing_address c)) then ProbeDead
  else if negb managed then ProbeStale
  else
    match seen with
    | None => ProbeDead
    | Some s =>
        let route_matches :=
          bool_decide (ow_server_id s = Some (oc_server_id c))
          && bool_decide (ow_server_instance_id s = Some (oc_server_instance_id c))
          && from_option (contract_is c) false (ow_contract s) in
        if negb route_matches then ProbeRouteMissing else if current then ProbeAlive else ProbeStale
    end.

(** One round of [prepare_register]; [None] when the owner changed and it tries again. *)
Definition prepare_round (pre : RegisterPreflight) (probe : OwnerReplacementCandidate → OwnerProbe)
    : RegisterPreparation + str :=
  match pre with
  | Available None => inl (PreparedAvailable None)
  | PreflightSameOwner => inl PreparedSameOwner
  | Available (Some c) =>
      match probe c with
      | ProbeAlive => inl (DuplicateAlive (oc_existing_address c))
      | ProbeRouteMissing | ProbeDead => inl (PreparedAvailable (Some c))
      | ProbeStale => inr (oc_existing_address c)
      end
  end.

Definition str_unknown : str := byte.of_Z <$> [60; 117; 110; 107; 110; 111; 119; 110; 62].

(** The rounds, each with what its sections and its connection answer. *)
Fixpoint prepare_rounds (rounds : list (res ControlError RegisterPreflight * (OwnerReplacementCandidate → OwnerProbe)))
    (last : option str) : res ControlError RegisterPreparation :=
  match rounds with
  | [] => Ok (DuplicateAlive (default str_unknown last))
  | (pre, probe) :: rounds =>
      let? pre := pre in
      match prepare_round pre probe with
      | inl r => Ok r
      | inr stale => prepare_rounds rounds (Some stale)
      end
  end.
Definition prepare_register rounds : res ControlError RegisterPreparation := prepare_rounds (take 3 rounds) None.

Definition confirm_replacement_for_commit (c : option OwnerReplacementCandidate) (probe : OwnerReplacementCandidate → OwnerProbe)
    : res ControlError (option OwnerReplacement) :=
  match c with
  | None => Ok None
  | Some c =>
      match probe c with
      | ProbeAlive | ProbeStale => Err (DuplicateRoute (oc_existing_address c))
      | ProbeRouteMissing => Ok (Some {| or_candidate := c; or_evidence := ConfirmedRouteMissing |})
      | ProbeDead => Ok (Some {| or_candidate := c; or_evidence := ConfirmedDead |})
      end
  end.

(** ** Committing a registration *)

Definition existing_contract_matches (x : RouteEntry) (c : AttestedRouteContract) : bool :=
  bool_decide (re_crm_ns x = at_crm_ns c) && bool_decide (re_crm_name x = at_crm_name c)
  && bool_decide (re_crm_ver x = at_crm_ver c) && bool_decide (re_abi_hash x = at_abi_hash c)
  && bool_decide (re_signature_hash x = at_signature_hash c) && (re_max_payload_size x =? at_max_payload_size c).

Definition check_registration (reg : LocalRegistration) : res ControlError unit :=
  let c := lr_contract reg in
  check_owner_fields (lr_owner reg) ;?
  guard_err (negb (valid_crm_tag (at_crm_ns c) (at_crm_name c) (at_crm_ver c))) ContractMismatch ;?
  check_hash "abi_hash" (at_abi_hash c) ;?
  check_hash "signature_hash" (at_signature_hash c) ;?
  guard_err (at_max_payload_size c =? 0) ContractMismatch ;?
  guard_err (negb (is_ok (validate_call_route_key "route_uid" (at_route_uid c)))) ContractMismatch.

(** The captured route is still the registered one. *)
Definition captured (c : OwnerReplacementCandidate) (name : str) (x : RouteEntry) : bool :=
  bool_decide (oc_route_name c = name) && bool_decide (oc_server_id c = text_or_empty (re_server_id x))
  && bool_decide (oc_server_instance_id c = text_or_empty (re_server_instance_id x))
  && bool_decide (oc_ipc_address c = text_or_empty (re_ipc_address x)) && bool_decide (oc_crm_ns c = re_crm_ns x)
  && bool_decide (oc_crm_name c = re_crm_name x) && bool_decide (oc_crm_ver c = re_crm_ver x)
  && bool_decide (oc_abi_hash c = re_abi_hash x) && bool_decide (oc_signature_hash c = re_signature_hash x)
  && (oc_max_payload_size c =? re_max_payload_size x) && bool_decide (oc_route_uid c = re_route_uid x).

(** What the existing route asks for: nothing more to register, or an owner to replace
    ([Some] address) and an endpoint to clean up afterwards. *)
Inductive ExistingRoute :=
| SameRegistration (x : RouteEntry) (k : UpstreamEndpointKey)
| Registrable (required : option str) (cleanup : option UpstreamEndpointKey).

Definition check_existing (t : RouteTable) (reg : LocalRegistration) : res ControlError ExistingRoute :=
  let o := lr_owner reg in
  match local_route t (lo_name o) with
  | None => Ok (Registrable None None)
  | Some x =>
      let existing_address := text_or_empty (re_ipc_address x) in
      match from_route x with
      | None => Err OwnerMismatch
      | Some k =>
          if bool_decide (text_or_empty (re_server_id x) = lo_server_id o) then
            if negb (bool_decide (existing_address = lo_address o)) then Err (AddressMismatch existing_address)
            else if bool_decide (text_or_empty (re_server_instance_id x) = lo_server_instance_id o) then
              guard_err (negb (existing_contract_matches x (lr_contract reg))) ContractMismatch ;?
              if bool_decide (re_route_uid x = at_route_uid (lr_contract reg)) then Ok (SameRegistration x k)
              else Ok (Registrable None None)
            else Ok (Registrable None (Some k))
          else
            match lr_replacement reg with
            | Some r =>
                if bool_decide (oc_existing_address (or_candidate r) = existing_address)
                then
                  guard_err (negb (captured (or_candidate r) (lo_name o) x)) (DuplicateRoute existing_address) ;?
                  Ok (Registrable (Some existing_address) (Some k))
                else Err (DuplicateRoute existing_address)
            | None => Err (DuplicateRoute existing_address)
            end
      end
  end.

Definition check_replacement (p : ConnectionPool) (reg : LocalRegistration) (required : option str)
    (cleanup : option UpstreamEndpointKey) : res ControlError unit :=
  match required with
  | None => Ok tt
  | Some address =>
      match lr_replacement reg, cleanup with
      | None, _ => Err (DuplicateRoute address)
      | Some r, None => Err (DuplicateRoute (oc_existing_address (or_candidate r)))
      | Some r, Some k =>
          match validate_replaceable_owner_token p k (oc_token (or_candidate r)) (or_evidence r) with
          | Ok _ => Ok tt
          | Err _ => Err (DuplicateRoute (oc_existing_address (or_candidate r)))
          | Panic => Panic
          end
      end
  end.

(** ** Interleavings *)

(** The writer of the table: what a registration that holds the lock still does.  Either
    it renews the lease of its own owner, or it inserts the slot of the new entry's
    endpoint (renewing the slot it found there) and commits the entry. *)
Inductive Writer :=
| WSame (k : UpstreamEndpointKey)
| WRenewToken (k : UpstreamEndpointKey) (token : OwnerToken)
| WInsert (e : RouteEntry) (k : UpstreamEndpointKey) (cleanup : option UpstreamEndpointKey)
| WRenewSlot (n : nat) (e : RouteEntry) (k : UpstreamEndpointKey) (cleanup : option UpstreamEndpointKey)
| WCommit (e : RouteEntry) (k : UpstreamEndpointKey) (cleanup : option UpstreamEndpointKey).

(** [aw_mesh] are the tasks of the mesh in flight, [aw_checks] the endpoints whose last route may have gone and whose use is still
    to be checked, [aw_removals] those found unused and not yet removed. *)
Record AuthorityWorld := {
  aw_table : RouteTable;
  aw_pool : PoolWorld;
  aw_writer : option Writer;
  aw_mesh : gmap nat (MeshEvent * Task MeshReply);
  aw_checks : list UpstreamEndpointKey;
  aw_removals : list UpstreamEndpointKey }.

Definition authority_world (id : str) (wall : Z) (d : option Z) : AuthorityWorld :=
  {| aw_table := RouteTable_new id wall; aw_pool := pool_world d; aw_writer := None; aw_mesh := ∅; aw_checks := []; aw_removals := [] |}.

Definition set_table (w : AuthorityWorld) (t : RouteTable) : AuthorityWorld :=
  {| aw_table := t; aw_pool := aw_pool w; aw_writer := aw_writer w; aw_mesh := aw_mesh w; aw_checks := aw_checks w; aw_removals := aw_removals w |}.
Definition set_writer (w : AuthorityWorld) (x : option Writer) : AuthorityWorld :=
  {| aw_table := aw_table w; aw_pool := aw_pool w; aw_writer := x; aw_mesh := aw_mesh w; aw_checks := aw_checks w; aw_removals := aw_removals w |}.
Definition add_check (w : AuthorityWorld) (k : option UpstreamEndpointKey) : AuthorityWorld :=
  {| aw_table := aw_table w; aw_pool := aw_pool w; aw_writer := aw_writer w; aw_mesh := aw_mesh w; aw_checks := option_list k ++ aw_checks w;
     aw_removals := aw_removals w |}.
Definition drop_check (w : AuthorityWorld) (i : nat) (removal : option UpstreamEndpointKey) : AuthorityWorld :=
  {| aw_table := aw_table w; aw_pool := aw_pool w; aw_writer := aw_writer w; aw_mesh := aw_mesh w; aw_checks := delete i (aw_checks w);
     aw_removals := option_list removal ++ aw_removals w |}.
Definition drop_removal (w : AuthorityWorld) (i : nat) : AuthorityWorld :=
  {| aw_table := aw_table w; aw_pool := aw_pool w; aw_writer := aw_writer w; aw_mesh := aw_mesh w; aw_checks := aw_checks w;
     aw_removals := delete i (aw_removals w) |}.

Definition mesh_world (w : AuthorityWorld) : World RouteTable MeshEvent MeshReply :=
  {| w_state := aw_table w; w_tasks := aw_mesh w |}.
Definition set_mesh (w : AuthorityWorld) (m : World RouteTable MeshEvent MeshReply) : AuthorityWorld :=
  {| aw_table := w_state m; aw_pool := aw_pool w; aw_writer := aw_writer w; aw_mesh := w_tasks m; aw_checks := aw_checks w;
     aw_removals := aw_removals w |}.

(** One section of the pool. *)
Definition on_pool (w : AuthorityWorld) (c : PoolCall) : res Empty_set AuthorityWorld :=
  let? p := pool_step (aw_pool w) c in
  Ok {| aw_table := aw_table w; aw_pool := p; aw_writer := aw_writer w; aw_mesh := aw_mesh w; aw_checks := aw_checks w; aw_removals := aw_removals w |}.

Inductive AuthorityStep :=
| BeginRegister (url : str) (reg : LocalRegistration) (wall : Z)
| ContinueWriter (wall now : Z)
| WithdrawRegistration (s : RelayRegistrationScope) (wall now : Z)
| WithdrawLocal (name server : str) (wall now : Z)
| WithdrawUnreachable (expected : RouteEntry) (wall now : Z)
| CheckUnused (i : nat)
| RemoveUnused (i : nat)
| MeshStep (s : Step MeshEvent)
| PoolSection (c : PoolCall).

Section authority.
Context (url_parse : str → option Url) (sha256_hex : bytes → str) (me : str).
Implicit Types (w : AuthorityWorld) (t : RouteTable).

(** [register_local] up to its first change of the pool. *)
Definition begin_register w (url : str) (reg : LocalRegistration) (wall : Z) : AuthorityWorld * res ControlError unit :=
  match check_registration reg with
  | Ok _ =>
      match check_existing (aw_table w) reg with
      | Ok (SameRegistration _ k) => (set_writer w (Some (WSame k)), Ok tt)
      | Ok (Registrable required cleanup) =>
          let '(t, e) := stamp_local (aw_table w) url (lr_owner reg) (lr_contract reg) wall in
          let w := set_table w t in
          if negb (can_register_route url_parse t e) then (w, Err OwnerMismatch)
          else
            match from_route e with
            | None => (w, Err OwnerMismatch)
            | Some k =>
                match check_replacement (pw_pool (aw_pool w)) reg required cleanup with
                | Ok _ => (set_writer w (Some (WInsert e k cleanup)), Ok tt)
                | Err err => (w, Err err)
                | Panic => (w, Panic)
                end
            end
      | Err err => (w, Err err)
      | Panic => (w, Panic)
      end
  | Err err => (w, Err err)
  | Panic => (w, Panic)
  end.

(** The rest of [register_local], one section of the pool at a time.  The endpoint to
    clean up is checked once the lock is released. *)
Definition continue_writer w (x : Writer) (wall now : Z) : res Empty_set AuthorityWorld :=
  match x with
  | WSame k =>
      Ok (set_writer w (WRenewToken k <$> owner_token (pw_pool (aw_pool w)) k))
  | WRenewToken k token => let? w := on_pool w (RenewToken k token now) in Ok (set_writer w None)
  | WInsert e k cleanup =>
      match cp_entries (pw_pool (aw_pool w)) !! k with
      | Some n => Ok (set_writer w (Some (WRenewSlot n e k cleanup)))
      | None => let? w := on_pool w (InsertOwner k wall now) in Ok (set_writer w (Some (WCommit e k cleanup)))
      end
  | WRenewSlot n e k cleanup =>
      let? w := on_pool w (RenewCurrent n now) in Ok (set_writer w (Some (WCommit e k cleanup)))
  | WCommit e k cleanup =>
      let? t := register_prevalidated_route url_parse (aw_table w) e in
      let w := set_writer (set_table w t) None in
      Ok (add_check w (if bool_decide (cleanup = Some k) then None else cleanup))
  end.

(** The withdrawals that remove an unused endpoint while they hold the table. *)
Definition remove_if_unused w (e : RouteEntry) : res Empty_set AuthorityWorld :=
  match from_route e with
  | Some k => if has_local_route_for_endpoint (aw_table w) k then Ok w else on_pool w (RemoveEntry k)
  | None => Ok w
  end.

(** What the owners of local routes ask goes through the authority, with the pool. *)
Definition local_event (ev : MeshEvent) : bool :=
  match ev with
  | RegisterLocal _ _ _ | UnregisterRegistration _ | UnregisterLocal _ _ | DropUnreachable _ => true
  | _ => false
  end.

Definition authority_step w (s : AuthorityStep) : res Empty_set AuthorityWorld :=
  match s, aw_writer w with
  | PoolSection (InsertOwner _ _ _), _ | PoolSection (RemoveEntry _), _ => Ok w
  | PoolSection c, _ => on_pool w c
  | RemoveUnused i, _ =>
      match aw_removals w !! i with
      | Some k => on_pool (drop_removal w i) (RemoveEntry k)
      | None => Ok w
      end
  | ContinueWriter wall now, Some x => continue_writer w x wall now
  | ContinueWriter _ _, None => Ok w
  | _, Some _ => Ok w
  | BeginRegister url reg wall, None =>
      match begin_register w url reg wall with (w, Panic) => Panic | (w, _) => Ok w end
  | WithdrawRegistration scope wall now, None =>
      let '(t, r) := unregister_registration (aw_table w) scope wall now in
      let w := set_table w t in
      match r with Ok (Removed e _) => remove_if_unused w e | Panic => Panic | _ => Ok w end
  | WithdrawUnreachable expected wall now, None =>
      let '(t, removed, _) := unregister_local_route_if_matches (aw_table w) expected wall now in
      let w := set_table w t in
      match removed with Some e => remove_if_unused w e | None => Ok w end
  | WithdrawLocal name server wall now, None =>
      let '(t, r) := unregister_local (aw_table w) name server wall now in
      let w := set_table w t in
      match r with Ok (Unregistered e _) => Ok (add_check w (from_route e)) | Panic => Panic | _ => Ok w end
  | CheckUnused i, None =>
      match aw_checks w !! i with
      | Some k => Ok (drop_check w i (if has_local_route_for_endpoint (aw_table w) k then None else Some k))
      | None => Ok w
      end
  | MeshStep (Arrive i ev), None =>
      if local_event ev then Ok w
      else let? m := mesh_step url_parse sha256_hex me (mesh_world w) (Arrive i ev) in Ok (set_mesh w m)
  | MeshStep (Proceed i c), None =>
      let? m := mesh_step url_parse sha256_hex me (mesh_world w) (Proceed i c) in Ok (set_mesh w m)
  end.

Fixpoint authority_run w (l : list AuthorityStep) : res Empty_set AuthorityWorld :=
  match l with
  | [] => Ok w
  | s :: l => let? w := authority_step w s in authority_run w l
  end.
End authority.
