(* ===== verification/AuthoritySafe.v ===== *)
(** Local routes and their owners' slots under every interleaving of the route authority,
    the mesh and the pool: nothing panics, registered routes keep their slot as long as no
    removal overtakes a registration, and an owner that shows life is not displaced. *)

From S2P Require Import Prelude.
From S2P Require Import Locked.
From S2P Require Import Text.
From S2P Require Import Float64.
From S2P Require Import RouteTable.
From S2P Require Import RouteSync.
From S2P Require Import RouteInv.
From S2P Require Import Mesh.
From S2P Require Import MeshInv.
From S2P Require Import MeshSafe.
From S2P Require Import ConnPool.
From S2P Require Import ConnPoolSafe.
From S2P Require Import Authority.

Implicit Types (w : AuthorityWorld) (t : RouteTable) (e : RouteEntry) (k : UpstreamEndpointKey) (key : str * str).

(** ** The pool's entries *)

Lemma on_slot_entries (pw : PoolWorld) n f : cp_entries (pw_pool (on_slot pw n f)) = cp_entries (pw_pool pw).
Proof. unfold on_slot. by destruct (_ !! n). Qed.

Lemma pool_step_entries (pw pw' : PoolWorld) c k :
  pool_step pw c = Ok pw' → (∀ k', c ≠ RemoveEntry k') →
  is_Some (cp_entries (pw_pool pw) !! k) → is_Some (cp_entries (pw_pool pw') !! k).
Proof.
  intros H Hc Hk. enough (cp_entries (pw_pool pw') = cp_entries (pw_pool pw) ∨ ∃ k' wall now, c = InsertOwner k' wall now) as [->|(k' & wall & now & ->)]; [done| |].
  - simpl in H. destruct (_ !! k') eqn:Hk'; injection H as <-; [done|]. simpl. apply lookup_insert_is_Some'. by right.
  - destruct c; [eauto|left..]; simpl in H; try (unfold renew_slot, renew_owner_lease, pool_lookup, evict_slot in H; repeat case_match; simplify_eq/=; done);
      [..|by destruct (Hc k0)]; repeat case_match; simplify_eq/=; rewrite ?on_slot_entries; try done.
    by apply bind_ok in H as (i & _ & [= <-]).
Qed.

Lemma remove_entries (pw pw' : PoolWorld) k k' :
  pool_step pw (RemoveEntry k') = Ok pw' → k ≠ k' →
  is_Some (cp_entries (pw_pool pw) !! k) → is_Some (cp_entries (pw_pool pw') !! k).
Proof.
  simpl. intros [= <-] Hne Hk. simpl. unfold remove. destruct (slot _ k') as [[n s]|]; [|done]. simpl. by rewrite lookup_delete_ne.
Qed.

(** ** The table's local routes *)

(** No change but a registration by this relay adds a route with an endpoint. *)
Lemma change_local url_parse who offer since collect t t' key e k :
  change url_parse who offer since collect t t' → table_wf url_parse t →
  (∀ x, offer x → who (re_relay_id x) → re_relay_id x ≠ relay_id t) →
  routes t' !! key = Some e → from_route e = Some k → routes t !! key = Some e.
Proof.
  induction 1 as [|t1 t2 t3 H1 IH1 H2 IH2|t x Hc Hwho Hoff|t b Hv Ho Hn Hwho Hs|t f|t s Hs|t P HP Hwho|t now ret Hcol Hwho|t id f Hf
    |t p Hne Hid Hurl Hwho|t id]; intros Hwf Hx He Hk; try done.
  - apply IH1; [done..| |done]. apply IH2; [by eapply change_wf| |done|done].
    intros x ? ?. rewrite (change_relay _ _ _ _ _ _ _ H1). eauto.
  - simpl in He. apply lookup_insert_Some in He as [[_ <-]|[_ He]]; [|done]. exfalso.
    apply (Hx x Hoff Hwho). apply (valid_entry_local url_parse t x); [by apply can_register_valid|].
    unfold from_route in Hk. by destruct (re_locality x).
  - simpl in He. by apply lookup_delete_Some in He as [_ ?].
  - simpl in He. by apply map_lookup_filter_Some in He as [? _].
  - rewrite joined_routes in He. destruct (routes t !! key) as [x|]; [|done]. simpl in He. injection He as <-. f_equal.
    unfold at_url in *. destruct (bool_decide (re_locality x = Peer)) eqn:Hp; [|done]. apply bool_decide_eq_true in Hp.
    destruct (bool_decide _); [|done]. simpl in Hk. unfold from_route in Hk. simpl in Hk. by rewrite Hp in Hk.
Qed.

Lemma section_local url_parse me ev c t t' key e k :
  makes_at url_parse (authority me ev) (fun x => offered me ev (route_key x) (re_registered_at x))
    (fun retention => ev = CollectTombstones retention) (leaves ev) c t t' →
  own_table url_parse me t → local_event ev = false →
  routes t' !! key = Some e → from_route e = Some k → routes t !! key = Some e.
Proof.
  intros Hm [Hwf Hr] Hev He Hk. destruct (Hm (fun _ => True) (fun _ _ => I)) as [Hc _]. eapply change_local; [exact Hc|done| |done|done].
  intros x Hoff Hwho Heq. rewrite Heq, Hr in Hwho.
  destruct ev as [| | | |env| | | | | | | | |]; simpl in *; try done; try (by destruct Hwho as [_ []]).
  destruct Hoff as (s & Hs & _). destruct (pv_message env); try done; by destruct Hwho as [_ []].
Qed.

Lemma has_local_spec t k : has_local_route_for_endpoint t k = true ↔ ∃ key e, routes t !! key = Some e ∧ from_route e = Some k.
Proof.
  unfold has_local_route_for_endpoint. rewrite existsb_exists. split.
  - intros (e & Hin & Hk%bool_decide_eq_true). apply list_elem_of_In, list_elem_of_fmap in Hin as ([key x] & -> & Hx%elem_of_map_to_list). eauto.
  - intros (key & e & He & Hk). exists e. split; [|by apply bool_decide_eq_true]. apply list_elem_of_In, list_elem_of_fmap.
    exists (key, e). split; [done|]. by apply elem_of_map_to_list.
Qed.

(** ** The world *)

Definition pending_entry (x : Writer) : option (RouteEntry * UpstreamEndpointKey) :=
  match x with WInsert e k _ | WRenewSlot _ e k _ | WCommit e k _ => Some (e, k) | _ => None end.
(** The endpoint a registration counts on from now on. *)
Definition inserting (x : Writer) : option UpstreamEndpointKey :=
  match x with WRenewSlot _ _ k _ | WCommit _ k _ => Some k | _ => None end.

Notation has_slot w k := (is_Some (cp_entries (pw_pool (aw_pool w)) !! k)).

(** Every route with an endpoint has its slot, and so will the one being registered. *)
Definition slots_ok w : Prop :=
  (∀ key e k, routes (aw_table w) !! key = Some e → from_route e = Some k → has_slot w k) ∧
  (∀ x k, aw_writer w = Some x → inserting x = Some k → has_slot w k).

(** The endpoint about to be removed is not in use, and no registration counts on it. *)
Definition calm w (s : AuthorityStep) : bool :=
  match s with
  | RemoveUnused i =>
      match aw_removals w !! i with
      | Some k => negb (has_local_route_for_endpoint (aw_table w) k) && negb (bool_decide (aw_writer w ≫= inserting = Some k))
      | None => true
      end
  | _ => true
  end.

Section invariant.
Context (url_parse : str → option Url) (sha256_hex : bytes → str) (me : str).
Notation own_table := (own_table url_parse me).
Notation mesh_inv := (world_inv own_table (fun ev => makes_at url_parse (authority me ev)
  (fun x => offered me ev (route_key x) (re_registered_at x)) (fun retention => ev = CollectTombstones retention) (leaves ev))).

Record authority_inv w : Prop := {
  ai_mesh : mesh_inv (mesh_world w);
  ai_remote i ev p : aw_mesh w !! i = Some (ev, p) → local_event ev = false;
  ai_pool : pool_inv (aw_pool w);
  ai_writer x e k : aw_writer w = Some x → pending_entry x = Some (e, k) →
    can_register_route url_parse (aw_table w) e = true ∧ from_route e = Some k }.

Lemma ai_table w : authority_inv w → own_table (aw_table w).
Proof. intros Hw. apply Hw. Qed.

(** [m] is a world reached by sections of the pool, in which the invariant holds, and
    under [P] the routes keep their slots. *)
Definition good (P : Prop) w (m : res Empty_set AuthorityWorld) : Prop :=
  ∃ w', m = Ok w' ∧ authority_inv w' ∧ (∃ calls, pool_run (aw_pool w) calls = Ok (aw_pool w')) ∧
    (P → slots_ok w → slots_ok w').

Lemma good_ok P w w' :
  authority_inv w' → aw_pool w' = aw_pool w → (slots_ok w → slots_ok w') → good P w (Ok w').
Proof. intros Hw Hp Hs. exists w'. split_and!; [done|done|by exists []; rewrite Hp|auto]. Qed.

Lemma good_refl P w : authority_inv w → good P w (Ok w).
Proof. intros Hw. by apply good_ok. Qed.

Lemma good_bind P w m f :
  good P w m → (∀ w', m = Ok w' → authority_inv w' → good P w' (f w')) → good P w (let? w := m in f w).
Proof.
  intros (w1 & -> & H1 & (c1 & Hc1) & Hs1) Hf. destruct (Hf w1 eq_refl H1) as (w2 & H2 & Hw2 & (c2 & Hc2) & Hs2).
  exists w2. split_and!; [done|done| |auto]. exists (c1 ++ c2). apply pool_run_app. by exists (aw_pool w1).
Qed.

(** A section of the pool that is not a removal, or removes what nothing counts on. *)
Lemma good_pool P w c :
  authority_inv w →
  (P → ∀ k k', c = RemoveEntry k → (∃ key e, routes (aw_table w) !! key = Some e ∧ from_route e = Some k') ∨ aw_writer w ≫= inserting = Some k' → k' ≠ k) →
  good P w (on_pool w c).
Proof.
  intros [Ht Hl Hp Hx] Hc. unfold on_pool. destruct (pool_step_inv _ c Hp) as (p & Hstep & Hp'). rewrite Hstep. simpl.
  eexists. split; [done|]. split_and!; [by split| |].
  - exists [c]. simpl. by rewrite Hstep.
  - assert (P → ∀ k', (∃ key e, routes (aw_table w) !! key = Some e ∧ from_route e = Some k') ∨ aw_writer w ≫= inserting = Some k' →
      has_slot w k' → is_Some (cp_entries (pw_pool p) !! k')) as Hkeep.
    { intros HP k' Hk' Hs. destruct c; try (by eapply pool_step_entries).
      eapply remove_entries; [done| |done]. by eapply Hc. }
    intros HP [Hr Hw]. split; simpl.
    + intros key e k He Hk. apply Hkeep; [done| |by eapply Hr]. left. eauto.
    + intros x k Hx' Hk. apply Hkeep; [done| |by eapply Hw]. right. by rewrite Hx'.
Qed.

Lemma good_section P w c : authority_inv w → (∀ k, c ≠ RemoveEntry k) → good P w (on_pool w c).
Proof. intros Hw Hc. apply good_pool; [done|]. intros _ k k' H. by destruct (Hc k). Qed.

(** A new table without new local routes. *)
Definition local_le t t' : Prop := ∀ key e k, routes t' !! key = Some e → from_route e = Some k → routes t !! key = Some e.

Lemma set_table_inv w t : authority_inv w → aw_writer w = None → own_table t → authority_inv (set_table w t).
Proof. intros [[Hs Ht] Hl Hp Hx] Hw Htab. split; [by split|done|done|]. simpl. rewrite Hw. done. Qed.

Lemma good_table P w t :
  authority_inv w → aw_writer w = None → own_table t → local_le (aw_table w) t → good P w (Ok (set_table w t)).
Proof.
  intros Hw Hn Ht Hl. apply good_ok; [by apply set_table_inv|done|]. intros [Hr Hx]. split; [|done]. simpl. eauto.
Qed.

(** A section of the mesh. *)
Lemma good_mesh P w s :
  authority_inv w → aw_writer w = None → (∀ i ev, s = Arrive i ev → local_event ev = false) →
  good P w (let? m := mesh_step url_parse sha256_hex me (mesh_world w) s in Ok (set_mesh w m)).
Proof.
  intros [Hm Hl Hp Hx] Hn Hs. destruct (mesh_step_ok url_parse sha256_hex me _ s Hm) as (m & Hstep & Hm' & HR). rewrite Hstep. simpl.
  apply good_ok; [split; [by destruct m| |done|simpl; by rewrite Hn]|done|].
  - intros i ev p Hi. simpl in Hi. destruct (present_step _ _ _ _ [] i ev Hstep) as [(q & Hq)|Hin]; [left; by exists p|by eapply Hl|].
    apply list_elem_of_singleton in Hin. by eapply Hs.
  - intros [Hr Hw]. split; [|done]. simpl. intros key e k He Hk. apply (Hr key e k); [|done].
    destruct HR as [HR|(ev & c & (i & p & -> & Hi) & Hmk)]; [simpl in HR; by rewrite <- HR|]. eapply section_local; [exact Hmk|apply Hm|by eapply Hl|done|done].
Qed.

Lemma good_writer P w x :
  authority_inv w →
  (∀ y e k, x = Some y → pending_entry y = Some (e, k) → can_register_route url_parse (aw_table w) e = true ∧ from_route e = Some k) →
  (slots_ok w → ∀ y k, x = Some y → inserting y = Some k → has_slot w k) →
  good P w (Ok (set_writer w x)).
Proof.
  intros [Ht Hl Hp Hx] Hy Hk. apply good_ok; [by split|done|]. intros Hs. split; [by apply Hs|by apply Hk].
Qed.

(** Only the lists of endpoints to clean up change. *)
Lemma good_lists P w w' :
  authority_inv w → aw_table w' = aw_table w → aw_pool w' = aw_pool w → aw_writer w' = aw_writer w → aw_mesh w' = aw_mesh w →
  good P w (Ok w').
Proof.
  intros [Ht Hl Hp Hx] H1 H2 H3 H4. apply good_ok; [|done|].
  - split; [unfold mesh_world in *|..]; rewrite ?H1, ?H2, ?H3, ?H4; done.
  - unfold slots_ok. by rewrite H1, H2, H3.
Qed.

(** ** Each step *)

Lemma good_register P w url reg wall :
  authority_inv w → aw_writer w = None →
  good P w (match begin_register url_parse w url reg wall with (w, Panic) => Panic | (w, _) => Ok w end).
Proof.
  intros Hw Hn. unfold begin_register.
  destruct (check_registration reg) eqn:Hc; [|by apply good_refl|].
  2: { exfalso. revert Hc. unfold check_registration, check_owner_fields, check_name, check_hash, guard_err. by repeat case_match. }
  destruct (check_existing (aw_table w) reg) as [x| |] eqn:He; [|by apply good_refl|].
  2: { exfalso. revert He. unfold check_existing, guard_err. repeat case_match; done. }
  destruct x as [x k|required cleanup].
  { apply good_writer; [done|by intros ? ? ? [= <-]|by intros _ ? ? [= <-]]. }
  destruct (stamp_local _ _ _ _ _) as [t e] eqn:Hst. unfold stamp_local, next_local_timestamp in Hst. injection Hst as <- <-.
  set (f := if f64_is_finite _ then _ else _). set (e := local_entry _ _ _ _ f).
  assert (good P w (Ok (set_table w (set_timestamp (aw_table w) f)))) as Hg.
  { apply good_table; [done|done| |by intros ? ? ?]. destruct (ai_table _ Hw) as [Hwf Hr]. split; [by apply timestamp_wf|done]. }
  destruct (can_register_route _ _ _) eqn:Hcan; simpl; [|done].
  destruct (check_replacement _ _ _ _) eqn:Hr; [|done|].
  2: { exfalso. revert Hr. unfold check_replacement, validate_replaceable_owner_token, guard_err. by repeat case_match. }
  destruct Hg as (w1 & [= <-] & H1 & Hc1 & Hs1).
  destruct (good_writer P _ (Some (WInsert e {| uk_address := lo_address (lr_owner reg); uk_server_id := lo_server_id (lr_owner reg);
    uk_server_instance_id := lo_server_instance_id (lr_owner reg) |} cleanup)) H1) as (w2 & [= <-] & H2 & Hc2 & Hs2).
  { intros y e' k' [= <-] [= <- <-]. done. }
  { by intros _ y k' [= <-]. }
  eexists. split_and!; [done|done|exact Hc1|auto].
Qed.

Lemma on_pool_same w c w' : on_pool w c = Ok w' → aw_table w' = aw_table w ∧ aw_writer w' = aw_writer w.
Proof. unfold on_pool. by intros (p & _ & [= <-])%bind_ok. Qed.

Lemma good_continue P w x wall now :
  authority_inv w → aw_writer w = Some x → good P w (continue_writer url_parse w x wall now).
Proof.
  intros Hw Hx. pose proof (ai_writer _ Hw x) as Hpend. destruct x as [k|k token|e k cleanup|n e k cleanup|e k cleanup]; cbn [continue_writer].
  - apply good_writer; [done|..]; [intros y e' k'|intros _ y k']; destruct (owner_token _ k); simpl; by intros [= <-].
  - apply good_bind; [by apply good_section|]. intros w' _ Hw'. by apply good_writer.
  - destruct (Hpend e k Hx eq_refl) as [Hcan Hk]. destruct (cp_entries _ !! k) as [n|] eqn:Hn.
    + apply good_writer; [done|by intros y e' k' [= <-] [= <- <-]|]. intros _ y k' [= <-] [= <-]. by rewrite Hn.
    + apply good_bind; [by apply good_section|]. intros w' Hpool Hw'. destruct (on_pool_same _ _ _ Hpool) as [Ht _].
      apply good_writer; [done|intros y e' k' [= <-] [= <- <-]; by rewrite Ht|]. intros _ y k' [= <-] [= <-].
      unfold on_pool in Hpool. simpl in Hpool. rewrite Hn in Hpool. simpl in Hpool. injection Hpool as <-. simpl. by rewrite lookup_insert_eq.
  - destruct (Hpend e k Hx eq_refl) as [Hcan Hk]. apply good_bind; [by apply good_section|].
    intros w' Hpool Hw'. destruct (on_pool_same _ _ _ Hpool) as [Ht Hwr]. apply good_writer; [done|intros y e' k' [= <-] [= <- <-]; by rewrite Ht|].
    intros [_ Hs] y k' [= <-] [= <-]. eapply Hs; [by rewrite Hwr|done].
  - destruct (Hpend e k Hx eq_refl) as [Hcan Hk]. rewrite register_prevalidated_ok by done. simpl.
    destruct Hw as [[[Hwf Hrel] Htask] Hl Hpool _]. pose proof (can_register_valid _ _ _ Hcan) as Hv.
    assert (own_table (registered (aw_table w) e)) as Ht by (split; [by apply registered_wf|done]).
    apply good_ok; [by split; [split| | |]|done|]. intros [Hr Hs]. split; [|done]. simpl.
    intros key e' k' [[_ <-]|[_ He]]%lookup_insert_Some Hk'; [|eauto]. eapply Hs; [done|]. simpl. congruence.
Qed.

Lemma good_unused P w e : authority_inv w → aw_writer w = None → good P w (remove_if_unused w e).
Proof.
  intros Hw Hn. unfold remove_if_unused. destruct (from_route e) as [k|]; [|by apply good_refl].
  destruct (has_local_route_for_endpoint (aw_table w) k) eqn:Hu; [by apply good_refl|]. apply good_pool; [done|].
  intros _ k0 k' [= ->] [Hr|Hr] Heq; [|by rewrite Hn in Hr]. subst k'. apply has_local_spec in Hr. congruence.
Qed.

Lemma good_trans P w w1 m : good P w (Ok w1) → good P w1 m → good P w m.
Proof. intros H1 H2. apply (good_bind P w (Ok w1) (fun _ => m) H1). by intros w' [= <-]. Qed.

Lemma good_removal w i k :
  authority_inv w → aw_removals w !! i = Some k →
  good (calm w (RemoveUnused i) = true) w (on_pool (drop_removal w i) (RemoveEntry k)).
Proof.
  intros Hw Hi. apply good_trans with (drop_removal w i); [by apply good_lists|].
  destruct (good_lists True w (drop_removal w i)) as (? & [= <-] & Hw' & _); [done..|]. apply good_pool; [done|].
  simpl. rewrite Hi. intros [Hu Hx]%andb_true_iff k0 k' [= <-] [Hr|Hr] Heq; subst k'.
  - apply has_local_spec in Hr. by rewrite Hr in Hu.
  - by rewrite bool_decide_eq_true_2 in Hx.
Qed.

Lemma good_withdrawal P w now t m :
  authority_inv w → aw_writer w = None →
  (table_wf url_parse (aw_table w) → makes url_parse (fun _ => True) (fun _ => False) now (fun _ _ => False) (fun _ => True) (aw_table w) t) →
  (authority_inv (set_table w t) → good P (set_table w t) m) → good P w m.
Proof.
  intros Hw Hn Ht Hm. destruct (ai_table _ Hw) as [Hwf Hr]. specialize (Ht Hwf).
  assert (good P w (Ok (set_table w t))) as H.
  { apply good_table; [done|done|split; [by eapply makes_wf|by erewrite makes_relay]|]. intros key e k He Hk.
    destruct Ht as [Hc _]. by eapply change_local; [exact Hc|..]. }
  eapply good_trans; [done|]. destruct H as (w' & [= <-] & Hw' & _). auto.
Qed.

Lemma good_step w s : authority_inv w → good (calm w s = true) w (authority_step url_parse sha256_hex me w s).
Proof.
  intros Hw. destruct s as [url reg wall|wall now|scope wall now|name server wall now|x wall now|i|i|s|c]; cbn [authority_step];
    destruct (aw_writer w) as [x'|] eqn:Hx; try (by apply good_refl); try (by destruct s; apply good_refl);
    try (destruct c; try (by apply good_refl); by apply good_section);
    try (destruct (aw_removals w !! i) as [k|] eqn:Hi; [by apply good_removal|by apply good_refl]).
  - by apply good_register.
  - by apply good_continue.
  - destruct (unregister_registration (aw_table w) scope wall now) as [t r] eqn:Hu.
    apply (good_withdrawal _ w now t); [done..|intros Hwf|intros Hw'].
    { replace t with (unregister_registration (aw_table w) scope wall now).1 by (by rewrite Hu).
      apply unregister_registration_makes; [done|lia|done]. }
    destruct r as [[]| |] eqn:Hr; try (by apply good_refl); [by apply good_unused|]. exfalso.
    unfold unregister_registration in Hu. destruct (check_scope scope) eqn:Hc; [by destruct (withdraw_registration _ _ _ _); simplify_eq|done|].
    revert Hc. unfold check_scope, check_name, guard_err. by repeat case_match.
  - destruct (unregister_local (aw_table w) name server wall now) as [t r] eqn:Hu.
    apply (good_withdrawal _ w now t); [done..|intros Hwf|intros Hw'].
    { replace t with (unregister_local (aw_table w) name server wall now).1 by (by rewrite Hu).
      apply unregister_local_makes; [done|lia|done]. }
    destruct r as [[]| |] eqn:Hr; try (by apply good_refl); [by apply good_lists|]. exfalso.
    unfold unregister_local, check_owner, check_name, guard_err in Hu. repeat (case_match; simplify_eq/=; try done).
  - destruct (unregister_local_route_if_matches (aw_table w) x wall now) as [[t r] f] eqn:Hu.
    apply (good_withdrawal _ w now t); [done..|intros Hwf|intros Hw'].
    { replace t with (unregister_local_route_if_matches (aw_table w) x wall now).1.1 by (by rewrite Hu).
      apply if_matches_makes; [done|lia|done]. }
    destruct r; [by apply good_unused|by apply good_refl].
  - destruct (aw_checks w !! i); [by apply good_lists|by apply good_refl].
  - destruct s as [i ev|i c]; [destruct (local_event ev) eqn:Hev; [by apply good_refl|]|]; apply good_mesh; try done. by intros ? ? [= _ <-].
Qed.

Lemma authority_world_inv wall d : authority_inv (authority_world me wall d).
Proof. split; [exact (mesh_inv_new url_parse me wall)|done|apply pool_world_inv|done]. Qed.
Lemma authority_world_slots id wall d : slots_ok (authority_world id wall d).
Proof. split; [|done]. simpl. intros key e k He. by rewrite lookup_empty in He. Qed.

Lemma run_good l w :
  authority_inv w → ∃ w', authority_run url_parse sha256_hex me w l = Ok w' ∧ authority_inv w' ∧
    ∃ calls, pool_run (aw_pool w) calls = Ok (aw_pool w').
Proof.
  revert w. induction l as [|s l IH]; intros w Hw; simpl; [exists w; split_and!; [done..|by exists []]|].
  destruct (good_step w s Hw) as (w1 & -> & H1 & (c1 & Hc1) & _). simpl.
  destruct (IH w1 H1) as (w2 & -> & H2 & (c2 & Hc2)). exists w2. split_and!; [done..|]. exists (c1 ++ c2).
  apply pool_run_app. by exists (aw_pool w1).
Qed.
End invariant.

Fixpoint calm_run url_parse sha256_hex me w (l : list AuthorityStep) : bool :=
  match l with
  | [] => true
  | s :: l =>
      calm w s && match authority_step url_parse sha256_hex me w s with Ok w => calm_run url_parse sha256_hex me w l | _ => true end
  end.

Lemma run_slots url_parse sha256_hex me l w w' :
  authority_inv url_parse me w → authority_run url_parse sha256_hex me w l = Ok w' → calm_run url_parse sha256_hex me w l = true →
  slots_ok w → slots_ok w'.
Proof.
  revert w. induction l as [|s l IH]; intros w Hw; simpl; [by intros [= <-]|].
  destruct (good_step url_parse sha256_hex me w s Hw) as (w1 & -> & H1 & _ & Hs). simpl.
  intros Hrun [Hc Hcr]%andb_true_iff Hok. apply (IH w1); auto.
Qed.

(** What an accepted replacement of another server's route has checked. *)
Lemma begin_register_replaces url_parse w url reg wall w' r x :
  begin_register url_parse w url reg wall = (w', Ok tt) → lr_replacement reg = Some r →
  local_route (aw_table w) (lo_name (lr_owner reg)) = Some x → re_server_id x ≠ Some (lo_server_id (lr_owner reg)) →
  ∃ k, from_route x = Some k ∧ captured (or_candidate r) (lo_name (lr_owner reg)) x = true ∧
    validate_replaceable_owner_token (pw_pool (aw_pool w)) k (oc_token (or_candidate r)) (or_evidence r) = Ok tt.
Proof.
  intros H Hr Hx Hsrv. unfold begin_register in H. destruct (check_registration reg); [|done..].
  unfold check_existing in H. rewrite Hx in H. destruct (from_route x) as [k|] eqn:Hk; [|done]. exists k. split; [done|].
  rewrite bool_decide_eq_false_2 in H.
  2: { intros Heq. apply Hsrv. unfold from_route in Hk. destruct (re_locality x), (re_ipc_address x), (re_server_id x); try done. by rewrite <- Heq. }
  rewrite Hr in H. case_bool_decide; [|done]. destruct (captured _ _ _) eqn:Hc; [|done]. split; [done|]. simpl in H.
  destruct (can_register_route _ _ _); [|done]. simpl in H. rewrite Hr in H.
  destruct (validate_replaceable_owner_token _ _ _ _) as [[]| |]; done.
Qed.

Lemma candidate_token existing cached token c :
  different_owner_replacement existing cached (Some token) = Ok c → oc_token c = token.
Proof. unfold different_owner_replacement. destruct cached; try done; by intros [= <-]. Qed.

Section runs.
Context (url_parse : str → option Url) (sha256_hex : bytes → str) (me : str).
Notation authority_run := (authority_run url_parse sha256_hex me).
Notation authority_inv := (authority_inv url_parse me).

Lemma run_app_inv w l w' : authority_inv w → authority_run w l = Ok w' → authority_inv w'.
Proof using Type. intros Hw Hrun. destruct (run_good url_parse sha256_hex me l w Hw) as (x & Hx & ? & _). congruence. Qed.
Lemma authority_run_inv wall d l w : authority_run (authority_world me wall d) l = Ok w → authority_inv w.
Proof using Type. apply run_app_inv, authority_world_inv. Qed.

Lemma authority_run_app l1 l2 w w1 : authority_run w l1 = Ok w1 → authority_run w (l1 ++ l2) = authority_run w1 l2.
Proof using Type.
  revert w. induction l1 as [|s l1 IH]; intros w; simpl; [by intros [= <-]|]. intros (w2 & -> & H)%bind_ok. simpl. by apply IH.
Qed.

Lemma run_split l1 l2 w w1 w' :
  authority_inv w → authority_run w (l1 ++ l2) = Ok w' → authority_run w l1 = Ok w1 →
  ∃ c1 c2, pool_run (aw_pool w) c1 = Ok (aw_pool w1) ∧ pool_run (aw_pool w1) c2 = Ok (aw_pool w').
Proof using Type.
  intros Hw Hrun H1. rewrite (authority_run_app _ _ _ _ H1) in Hrun.
  destruct (run_good url_parse sha256_hex me l1 w Hw) as (x & Hx & Hw1 & (c1 & Hc1)). assert (x = w1) as -> by congruence.
  destruct (run_good url_parse sha256_hex me l2 w1 Hw1) as (x & Hx2 & _ & (c2 & Hc2)). assert (x = w') as -> by congruence. eauto.
Qed.
End runs.

(** A token captured from a route and valid for an endpoint is a token of that endpoint. *)
Lemma token_endpoint w0 w t name k token evidence :
  pool_inv (aw_pool w0) → pool_inv (aw_pool w) → route_owner_token t (pw_pool (aw_pool w0)) name = Some token →
  validate_replaceable_owner_token (pw_pool (aw_pool w)) k token evidence = Ok tt → owner_token (pw_pool (aw_pool w0)) k = Some token.
Proof.
  intros H0 Hw Htok Hval. unfold route_owner_token in Htok. destruct (local_endpoint t name) as [k0|]; [|done]. simpl in Htok.
  destruct (replaceable_spec _ _ _ _ Hval) as (s & Hk & Hs & Hkey & _). destruct (owner_token_spec _ _ _ Htok) as (s0 & Hk0 & Hs0 & Hkey0 & _).
  destruct (pi_entry _ Hw _ _ Hk) as (x & Hx & Hxk & _). destruct (pi_entry _ H0 _ _ Hk0) as (y & Hy & Hyk & _).
  assert (k0 = k) as <- by congruence. done.
Qed.

(** ** A registration between the check of its endpoint and the removal *)

Section race.
Context (url_parse : str → option Url) (sha256_hex : bytes → str) (me : str).
Notation authority_run := (authority_run url_parse sha256_hex me).
Notation authority_inv := (authority_inv url_parse me).

Definition register_steps (url : str) (reg : LocalRegistration) (wall now : Z) : list AuthorityStep :=
  BeginRegister url reg wall :: replicate 3 (ContinueWriter wall now).

(** What [register_local] has established when it comes to insert the slot. *)
Lemma begin_register_inserts w url reg wall w' e k cleanup :
  begin_register url_parse w url reg wall = (w', Ok tt) → aw_writer w = None → aw_writer w' = Some (WInsert e k cleanup) →
  check_registration reg = Ok tt ∧ can_register_route url_parse (aw_table w') e = true ∧ from_route e = Some k ∧
  aw_removals w' = aw_removals w ∧ ∃ t f, e = local_entry t url (lr_owner reg) (lr_contract reg) f ∧ relay_id t = relay_id (aw_table w').
Proof using Type.
  intros H Hn Hw. unfold begin_register in H. destruct (check_registration reg) as [[]| |]; [|done..].
  destruct (check_existing _ _) as [[x k0|required c0]| |]; [by injection H as <-| |done..].
  unfold stamp_local in H. destruct (next_local_timestamp (aw_table w) wall) as [t f] eqn:Ht.
  destruct (can_register_route _ _ _) eqn:Hc; [|done]. cbn [negb] in H.
  destruct (from_route _) as [k0|] eqn:Hk; [|done]. destruct (check_replacement _ _ _ _); [|done..].
  injection H as <-. simpl in Hw |- *. injection Hw as <- <- <-. split_and!; [done..|]. by eexists _, _.
Qed.

(** The rest of the registration. *)
Lemma insert_completes w e k cleanup wall now :
  authority_inv w → aw_writer w = Some (WInsert e k cleanup) →
  ∃ w', authority_run w (replicate 3 (ContinueWriter wall now)) = Ok w' ∧ authority_inv w' ∧
    aw_writer w' = None ∧ aw_table w' = registered (aw_table w) e ∧ aw_removals w' = aw_removals w.
Proof using Type.
  intros Hw Hx. destruct (run_good url_parse sha256_hex me (replicate 3 (ContinueWriter wall now)) w Hw) as (w' & Hrun & Hw' & _).
  exists w'. split; [done|]. split; [done|]. destruct (ai_writer _ _ _ Hw _ e k Hx eq_refl) as [Hcan _]. revert Hrun.
  cbn [replicate Authority.authority_run]. unfold authority_step at 1. rewrite Hx. cbn [continue_writer].
  destruct (cp_entries _ !! k) as [n|]; simpl.
  - rewrite register_prevalidated_ok by done. simpl. by intros [= <-].
  - unfold on_pool. destruct (pool_step (aw_pool w) (InsertOwner k wall now)) as [p| |]; simpl; [|done..].
    rewrite register_prevalidated_ok by done. simpl. by intros [= <-].
Qed.

Lemma removal_removes w i k :
  authority_inv w → aw_removals w !! i = Some k →
  ∃ w', authority_step url_parse sha256_hex me w (RemoveUnused i) = Ok w' ∧ authority_inv w' ∧ aw_table w' = aw_table w ∧
    aw_writer w' = aw_writer w ∧ cp_entries (pw_pool (aw_pool w')) !! k = None.
Proof using Type.
  intros Hw Hi. destruct (good_step url_parse sha256_hex me w (RemoveUnused i) Hw) as (w' & Hstep & Hw' & _). exists w'.
  split; [done|]. split; [done|]. simpl in Hstep. rewrite Hi in Hstep. injection Hstep as <-. simpl. split_and!; [done..|].
  unfold remove, slot. destruct (cp_entries (pw_pool (aw_pool w)) !! k) as [n|] eqn:Hk; [|by simpl; rewrite Hk].
  destruct (pi_entry _ (ai_pool _ _ _ Hw) _ _ Hk) as (s & Hs & _). simpl. rewrite Hs. simpl. by rewrite lookup_delete_eq.
Qed.

(** Registering the same route again finds it registered, and its lease nowhere. *)
Lemma again_unrepaired w url url' reg wall now t f k :
  aw_writer w = None → check_registration reg = Ok tt → relay_id t = relay_id (aw_table w) →
  let e := local_entry t url' (lr_owner reg) (lr_contract reg) f in
  routes (aw_table w) !! route_key e = Some e → from_route e = Some k → cp_entries (pw_pool (aw_pool w)) !! k = None →
  authority_run w (register_steps url reg wall now) = Ok w.
Proof using Type.
  intros Hn Hc Hr e He Hk Hno. unfold register_steps. cbn [replicate Authority.authority_run authority_step]. rewrite Hn.
  unfold begin_register. rewrite Hc. unfold check_existing, local_route. rewrite <- Hr. change (lo_name (lr_owner reg), relay_id t) with (route_key e).
  rewrite He, Hk. simpl. rewrite !bool_decide_eq_true_2 by done. simpl. unfold existing_contract_matches. simpl.
  rewrite !bool_decide_eq_true_2, Z.eqb_refl by done. simpl. unfold owner_token, slot. rewrite Hno. simpl. destruct w. simpl in *. by rewrite Hn.
Qed.
End race.

(** ** Properties *)

(** C17 No interleaving of registrations, withdrawals, mesh events and pool sections
    panics; and unless the removal of an endpoint found unused overtakes a registration
    of it, every route of this relay has the live slot of its endpoint in the pool. *)
Theorem routes_have_slots url_parse sha256_hex id wall d l :
  ∃ w, authority_run url_parse sha256_hex id (authority_world id wall d) l = Ok w ∧
    (calm_run url_parse sha256_hex id (authority_world id wall d) l = true →
     ∀ key e k, routes (aw_table w) !! key = Some e → from_route e = Some k →
       ∃ n s, cp_entries (pw_pool (aw_pool w)) !! k = Some n ∧ cp_slots (pw_pool (aw_pool w)) !! n = Some s ∧
         us_key s = k ∧ si_state (us_inner s) ≠ Retired).
Proof.
  destruct (run_good url_parse sha256_hex id l _ (authority_world_inv url_parse id wall d)) as (w & Hrun & Hw & _).
  exists w. split; [done|]. intros Hcalm key e k He Hk.
  destruct (run_slots _ _ _ _ _ _ (authority_world_inv url_parse id wall d) Hrun Hcalm (authority_world_slots id wall d)) as [Hs _].
  destruct (Hs key e k He Hk) as [n Hn]. exists n.
  destruct (pi_entry _ (ai_pool _ _ _ Hw) _ _ Hn) as (s & ? & ? & ?). by exists s.
Qed.

(** C16 An owner that shows life is not displaced: when a registration is accepted over the
    route of another server, with a replacement captured earlier, the route is still the
    captured one, the captured token has matched its owner at every moment since, so
    the owner neither renewed its lease nor left, and no request is on its slot. *)
Theorem live_owner_not_displaced url_parse sha256_hex id wall0 d l0 w0 name token existing cached c l w url reg wall w' evidence x :
  authority_run url_parse sha256_hex id (authority_world id wall0 d) l0 = Ok w0 →
  route_owner_token (aw_table w0) (pw_pool (aw_pool w0)) name = Some token →
  different_owner_replacement existing cached (Some token) = Ok c → tk_owner_lease_epoch token < U64_MAX →
  authority_run url_parse sha256_hex id w0 l = Ok w →
  begin_register url_parse w url reg wall = (w', Ok tt) →
  lr_replacement reg = Some {| or_candidate := c; or_evidence := evidence |} →
  local_route (aw_table w) (lo_name (lr_owner reg)) = Some x → re_server_id x ≠ Some (lo_server_id (lr_owner reg)) →
  ∃ k, from_route x = Some k ∧ captured c (lo_name (lr_owner reg)) x = true ∧
    leases_of (tk_slot token) (pw_leases (aw_pool w)) = 0 ∧
    ∀ l1 l2 w1, l = l1 ++ l2 → authority_run url_parse sha256_hex id w0 l1 = Ok w1 →
      matches_owner_token (pw_pool (aw_pool w1)) k token = true.
Proof.
  intros Hrun0 Htok Hc Hep Hrun Hreg Hr Hx Hsrv.
  destruct (begin_register_replaces _ _ _ _ _ _ _ _ Hreg Hr Hx Hsrv) as (k & Hk & Hcap & Hval). simpl in Hcap, Hval.
  rewrite (candidate_token _ _ _ _ Hc) in Hval. pose proof (authority_run_inv _ _ _ _ _ _ _ Hrun0) as H0.
  pose proof (run_app_inv _ _ _ _ _ _ H0 Hrun) as Hw. exists k. split_and!; [done..| |].
  - destruct (replaceable_spec _ _ _ _ Hval) as (s & _ & Hs & _ & _ & Hact & _).
    by rewrite <- (so_active _ _ _ (pi_slot _ (ai_pool _ _ _ Hw) _ _ Hs)).
  - intros l1 l2 w1 -> H1. destruct (run_split _ _ _ _ _ _ _ _ H0 Hrun H1) as (c1 & c2 & Hc1 & Hc2).
    eapply (token_matches (aw_pool w0) (aw_pool w) k token evidence (c1 ++ c2)); [apply H0| |by apply pool_run_app; eauto|done|done|done|done].
    eapply token_endpoint; [apply H0|apply Hw|done|done].
Qed.

(** ** Examples *)

Module SampleAuthority.
Import SampleMesh.

Definition route_s : str := txt [115].
Definition reg (name server : str) (r : option OwnerReplacement) : LocalRegistration :=
  {| lr_owner := {| lo_name := name; lo_server_id := server; lo_server_instance_id := server; lo_address := ipc_scheme ++ server |};
     lr_contract := contract; lr_replacement := r |}.
Definition register (name server : str) : list AuthorityStep :=
  BeginRegister url_a (reg name server None) 1000 :: replicate 3 (ContinueWriter 0 0).
Definition world (l : list AuthorityStep) : AuthorityWorld :=
  match authority_run parse sha id_a (authority_world id_a 1 None) l with Ok w => w | _ => authority_world id_a 1 None end.
Definition endpoint (server : str) : UpstreamEndpointKey :=
  {| uk_address := ipc_scheme ++ server; uk_server_id := server; uk_server_instance_id := server |}.

(** The server's only route is withdrawn, and the use of its endpoint is to be checked. *)
Definition withdrawn : list AuthorityStep := register route_r word ++ [WithdrawLocal route_r word 2000 0].
Definition checked : AuthorityWorld := drop_check (world withdrawn) 0 (Some (endpoint word)).
Definition registering : AuthorityWorld := (begin_register parse checked url_a (reg route_s word None) 3000).1.

(** Another server takes over route r of a server that never connected. *)
Definition token_r : OwnerToken := {| tk_slot := 0; tk_key := endpoint word; tk_owner_generation := 1; tk_owner_lease_epoch := 0 |}.
Definition entry_r : RouteEntry :=
  match local_route (aw_table (world (register route_r word))) route_r with
  | Some e => e
  | None => local_entry (w_state start) url_a (owner route_r) contract f64_one
  end.
Definition candidate_r : OwnerReplacementCandidate :=
  match different_owner_replacement entry_r (CachedOwnerOnly (endpoint word)) (Some token_r) with
  | Ok c => c
  | _ => {| oc_route_name := []; oc_server_id := []; oc_server_instance_id := []; oc_ipc_address := []; oc_existing_address := [];
            oc_crm_ns := []; oc_crm_name := []; oc_crm_ver := []; oc_abi_hash := []; oc_signature_hash := [];
            oc_max_payload_size := 0; oc_route_uid := []; oc_token := token_r |}
  end.
Definition takeover : LocalRegistration :=
  reg route_r id_b (Some {| or_candidate := candidate_r; or_evidence := ConfirmedDead |}).
Definition meanwhile : list AuthorityStep := register route_s id_a.
End SampleAuthority.

(** C18 The check that an endpoint is unused and its removal are not one section: whatever
    registration of the endpoint is accepted between them ends with its route in the table
    and no slot for it in the pool, so requests for it find no connection; and registering
    the route again changes nothing. *)
Theorem removal_race_strands_route url_parse sha256_hex id wall0 d l w j k w1 url reg wall w2 e cleanup now url' wall' now' :
  authority_run url_parse sha256_hex id (authority_world id wall0 d) l = Ok w → aw_writer w = None →
  aw_checks w !! j = Some k → has_local_route_for_endpoint (aw_table w) k = false →
  authority_step url_parse sha256_hex id w (CheckUnused j) = Ok w1 →
  begin_register url_parse w1 url reg wall = (w2, Ok tt) → aw_writer w2 = Some (WInsert e k cleanup) →
  ∃ w', authority_run url_parse sha256_hex id w (CheckUnused j :: register_steps url reg wall now ++ [RemoveUnused 0]) = Ok w' ∧
    local_endpoint (aw_table w') (lo_name (lr_owner reg)) = Some k ∧ cp_entries (pw_pool (aw_pool w')) !! k = None ∧
    authority_run url_parse sha256_hex id w' (register_steps url' reg wall' now') = Ok w'.
Proof.
  intros Hrun Hn Hj Hu H1 Hb Hx. pose proof (authority_run_inv _ _ _ _ _ _ _ Hrun) as Hw.
  assert (authority_inv url_parse id w1 ∧ aw_writer w1 = None ∧ aw_removals w1 !! 0%nat = Some k) as (Hw1 & Hn1 & Hr1).
  { destruct (good_step url_parse sha256_hex id w (CheckUnused j) Hw) as (x & Hx1 & Hwx & _). rewrite H1 in Hx1. injection Hx1 as <-.
    simpl in H1. rewrite Hn, Hj, Hu in H1. injection H1 as <-. done. }
  destruct (begin_register_inserts _ _ _ _ _ _ _ _ _ Hb Hn1 Hx) as (Hc & Hcan & Hk & Hr2 & t & f & -> & Ht).
  assert (authority_step url_parse sha256_hex id w1 (BeginRegister url reg wall) = Ok w2) as H2 by (simpl; by rewrite Hn1, Hb).
  assert (authority_inv url_parse id w2) as Hw2.
  { destruct (good_step url_parse sha256_hex id w1 (BeginRegister url reg wall) Hw1) as (x & Hx1 & Hwx & _). congruence. }
  destruct (insert_completes url_parse sha256_hex id w2 _ k cleanup wall now Hw2 Hx) as (w3 & H3 & Hw3 & Hn3 & Ht3 & Hr3).
  destruct (removal_removes url_parse sha256_hex id w3 0 k Hw3) as (w4 & H4 & Hw4 & Ht4 & Hn4 & Hno); [by rewrite Hr3, Hr2|].
  exists w4. set (e := local_entry t url (lr_owner reg) (lr_contract reg) f) in *.
  assert (routes (aw_table w4) !! route_key e = Some e) as He by (rewrite Ht4, Ht3; simpl; by rewrite lookup_insert_eq).
  assert (relay_id t = relay_id (aw_table w4)) as Hid by (by rewrite Ht4, Ht3).
  split_and!; [| |done|].
  - unfold register_steps. cbn [authority_run app]. rewrite H1. cbn [res_bind]. rewrite H2. cbn [res_bind].
    rewrite (authority_run_app _ _ _ _ _ _ _ H3). cbn [authority_run]. by rewrite H4.
  - unfold local_endpoint, local_route. rewrite <- Hid. change (lo_name (lr_owner reg), relay_id t) with (route_key e). by rewrite He.
  - eapply (again_unrepaired url_parse sha256_hex id w4 url' url reg wall' now' t f k); [congruence|done..].
Qed.

Lemma sample_run l1 l2 :
  is_ok (authority_run SampleMesh.parse SampleMesh.sha SampleMesh.id_a (authority_world SampleMesh.id_a 1 None) (l1 ++ l2)) = true →
  authority_run SampleMesh.parse SampleMesh.sha SampleMesh.id_a (authority_world SampleMesh.id_a 1 None) l1 = Ok (SampleAuthority.world l1) ∧
  authority_run SampleMesh.parse SampleMesh.sha SampleMesh.id_a (SampleAuthority.world l1) l2 = Ok (SampleAuthority.world (l1 ++ l2)).
Proof.
  unfold SampleAuthority.world. destruct (run_good SampleMesh.parse SampleMesh.sha SampleMesh.id_a l1 _ (authority_world_inv SampleMesh.parse SampleMesh.id_a 1 None)) as (w & Hw & _).
  rewrite (authority_run_app _ _ _ _ _ _ _ Hw), Hw. by destruct (authority_run _ _ _ w l2).
Qed.

Lemma pair_fst {A B} (p : A * B) (b : B) : p.2 = b → p = (p.1, b).
Proof. destruct p. by intros <-. Qed.

Lemma live_owner_witness :
  ∃ k, from_route SampleAuthority.entry_r = Some k ∧
    matches_owner_token (pw_pool (aw_pool (SampleAuthority.world (SampleAuthority.register SampleMesh.route_r SampleMesh.word)))) k
      SampleAuthority.token_r = true.
Proof.
  destruct (sample_run (SampleAuthority.register SampleMesh.route_r SampleMesh.word) SampleAuthority.meanwhile) as [H1 H2]; [vm_compute; reflexivity|].
  destruct (live_owner_not_displaced SampleMesh.parse SampleMesh.sha SampleMesh.id_a 1 None
    (SampleAuthority.register SampleMesh.route_r SampleMesh.word)
    (SampleAuthority.world (SampleAuthority.register SampleMesh.route_r SampleMesh.word)) SampleMesh.route_r SampleAuthority.token_r
    SampleAuthority.entry_r (CachedOwnerOnly (SampleAuthority.endpoint SampleMesh.word)) SampleAuthority.candidate_r
    SampleAuthority.meanwhile
    (SampleAuthority.world (SampleAuthority.register SampleMesh.route_r SampleMesh.word ++ SampleAuthority.meanwhile))
    SampleMesh.url_a SampleAuthority.takeover 3000
    (begin_register SampleMesh.parse (SampleAuthority.world (SampleAuthority.register SampleMesh.route_r SampleMesh.word ++ SampleAuthority.meanwhile))
       SampleMesh.url_a SampleAuthority.takeover 3000).1 ConfirmedDead SampleAuthority.entry_r) as (k & Hk & _ & _ & Hm).
  - exact H1.
  - vm_compute. reflexivity.
  - vm_compute. reflexivity.
  - vm_compute. reflexivity.
  - exact H2.
  - apply pair_fst. vm_compute. reflexivity.
  - reflexivity.
  - vm_compute. reflexivity.
  - vm_compute. discriminate.
  - exists k. split; [exact Hk|]. exact (Hm [] SampleAuthority.meanwhile _ eq_refl eq_refl).
Defined.

Lemma removal_race_witness :
  let w := SampleAuthority.world SampleAuthority.withdrawn in
  let steps := register_steps SampleMesh.url_a (SampleAuthority.reg SampleAuthority.route_s SampleMesh.word None) in
  ∃ w', authority_run SampleMesh.parse SampleMesh.sha SampleMesh.id_a w (CheckUnused 0 :: steps 3000 5 ++ [RemoveUnused 0]) = Ok w' ∧
    local_endpoint (aw_table w') SampleAuthority.route_s = Some (SampleAuthority.endpoint SampleMesh.word) ∧
    cp_entries (pw_pool (aw_pool w')) !! SampleAuthority.endpoint SampleMesh.word = None ∧
    authority_run SampleMesh.parse SampleMesh.sha SampleMesh.id_a w' (steps 4000 6) = Ok w'.
Proof.
  destruct (sample_run SampleAuthority.withdrawn []) as [H1 _]; [vm_compute; reflexivity|].
  assert (match aw_writer SampleAuthority.registering with
          | Some (WInsert _ k _) => k = SampleAuthority.endpoint SampleMesh.word | _ => False end) as Hk by (vm_compute; reflexivity).
  destruct (aw_writer SampleAuthority.registering) as [[| |e k cleanup| |]|] eqn:Hx; try contradiction.
  apply (removal_race_strands_route SampleMesh.parse SampleMesh.sha SampleMesh.id_a 1 None SampleAuthority.withdrawn
    (SampleAuthority.world SampleAuthority.withdrawn) 0 (SampleAuthority.endpoint SampleMesh.word) SampleAuthority.checked
    SampleMesh.url_a (SampleAuthority.reg SampleAuthority.route_s SampleMesh.word None) 3000 SampleAuthority.registering e cleanup 5
    SampleMesh.url_a 4000 6).
  - exact H1.
  - vm_compute. reflexivity.
  - vm_compute. reflexivity.
  - vm_compute. reflexivity.
  - vm_compute. reflexivity.
  - apply pair_fst. vm_compute. reflexivity.
  - exact (eq_trans Hx (f_equal (fun k => Some (WInsert e k cleanup)) Hk)).
Defined.
