(* ===== verification/CallScope.v ===== *)
(** The deadline and arbitration of one logical call (c2-core, call_scope.rs, with the
    policies of c2-config, call.rs and timeout.rs): participants race on one atomic cell
    to dispatch, complete, fail or expire the call.  Instants and durations are
    nanoseconds.  A participant's loop takes one atomic action at a time: it loads the
    cell, samples the clock and decides, and exchanges the cell. *)

From S2P Require Import Prelude.

(** ** Policy *)

Inductive CallTimeout := Inherit | Unlimited | After (d : Z).

Definition resolve (c : CallTimeout) (inherited : option Z) : option Z :=
  match c with Inherit => inherited | Unlimited => None | After d => Some d end.

Definition MAX_TIMEOUT : Z := (2 ^ 63 - 1) * 10 ^ 9 + 999999999.

(** [instant_max]: the last instant the clock can represent. *)
Definition deadline_after (instant_max start timeout : Z) : option Z :=
  if MAX_TIMEOUT <? timeout then None
  else if instant_max <? start + timeout then None
  else Some (start + timeout).

(** ** The cell *)

Inductive CallState :=
| PreDispatch
| Dispatched
| Succeeded
| FailedPreDispatch
| FailedDispatchUncertain
| ExpiredPreDispatch
| ExpiredDispatchUncertain.
#[export] Instance call_state_eq : EqDecision CallState.
Proof. solve_decision. Defined.

Inductive TransportPhase := PhasePreDispatch | PhaseDispatchUncertain.

Inductive CallScopeError :=
| DeadlineNotRepresentable (timeout : Z)
| DeadlineExceeded (phase : TransportPhase)
| InvalidState (st : CallState)
| RetryNotSafe (phase : TransportPhase).

Definition call_terminal (st : CallState) : bool :=
  match st with PreDispatch | Dispatched => false | _ => true end.

Definition deadline_error (st : CallState) : option CallScopeError :=
  match st with
  | ExpiredPreDispatch => Some (DeadlineExceeded PhasePreDispatch)
  | ExpiredDispatchUncertain => Some (DeadlineExceeded PhaseDispatchUncertain)
  | _ => None
  end.

Record ScopeState := { cs_deadline : option Z; cs_state : CallState }.

Definition scope_new_at (timeout : CallTimeout) (path_default : option Z) (instant_max start : Z)
    : res CallScopeError ScopeState :=
  let? deadline :=
    match resolve timeout path_default with
    | None => Ok None
    | Some t =>
        match deadline_after instant_max start t with
        | Some d => Ok (Some d)
        | None => Err (DeadlineNotRepresentable t)
        end
    end in
  Ok {| cs_deadline := deadline;
        cs_state := if from_option (fun d => d <=? start) false deadline then ExpiredPreDispatch else PreDispatch |}.

(** ** One round of [transition] *)

Inductive Operation :=
| Observe
| CheckPreDispatch
| BeginDispatch
| BeginRetryDispatch (proof : TransportPhase)
| CompleteSuccess
| CompleteFailure.

Definition passed (deadline : option Z) (now : Z) : bool := from_option (fun d => d <=? now) false deadline.

(** The answer in a terminal state that was loaded. *)
Definition terminal_answer (op : Operation) (current : CallState) : res CallScopeError CallState :=
  match op with
  | Observe => Ok current
  | _ => Err (default (InvalidState current) (deadline_error current))
  end.

(** The answer after a successful exchange. *)
Definition exchanged_answer (op : Operation) (next : CallState) : res CallScopeError CallState :=
  match op with
  | Observe => Ok next
  | _ => match deadline_error next with Some e => Err e | None => Ok next end
  end.

(** What to do in the state [current], which is not terminal, at the sampled time. *)
Definition decide_turn (deadline : option Z) (op : Operation) (current : CallState) (now : Z)
    : res CallScopeError CallState + CallState :=
  if passed deadline now then
    inr (match current with PreDispatch => ExpiredPreDispatch | _ => ExpiredDispatchUncertain end)
  else
    match op, current with
    | Observe, _ => inl (Ok current)
    | CheckPreDispatch, PreDispatch => inl (Ok current)
    | BeginDispatch, PreDispatch => inr Dispatched
    | BeginRetryDispatch PhasePreDispatch, _ => inr Dispatched
    | BeginRetryDispatch phase, _ => inl (Err (RetryNotSafe phase))
    | CompleteSuccess, Dispatched => inr Succeeded
    | CompleteFailure, PreDispatch => inr FailedPreDispatch
    | CompleteFailure, Dispatched => inr FailedDispatchUncertain
    | _, _ => inl (Err (InvalidState current))
    end.

(** ** Participants *)

(** Where a participant is in its loop. *)
Inductive Place :=
| AtLoad
| AtClock (current : CallState)
| AtExchange (current next : CallState)
| Answered (r : res CallScopeError CallState).

(** [pt_seen] is the last sample of the clock and [pt_actions] the number of atomic
    actions so far; the code keeps neither. *)
Record Participant := { pt_op : Operation; pt_place : Place; pt_seen : option Z; pt_actions : nat }.

Record ScopeWorld := { sw_scope : ScopeState; sw_now : Z; sw_participants : list Participant }.

Definition act (scope : ScopeState) (now : Z) (p : Participant) : ScopeState * Participant :=
  let moved place seen := {| pt_op := pt_op p; pt_place := place; pt_seen := seen; pt_actions := S (pt_actions p) |} in
  match pt_place p with
  | AtLoad =>
      let current := cs_state scope in
      (scope,
       moved (if call_terminal current then Answered (terminal_answer (pt_op p) current) else AtClock current) (pt_seen p))
  | AtClock current =>
      (scope,
       moved match decide_turn (cs_deadline scope) (pt_op p) current now with
             | inl r => Answered r
             | inr next => AtExchange current next
             end (Some now))
  | AtExchange current next =>
      if bool_decide (cs_state scope = current)
      then ({| cs_deadline := cs_deadline scope; cs_state := next |}, moved (Answered (exchanged_answer (pt_op p) next)) (pt_seen p))
      else (scope, moved AtLoad (pt_seen p))
  | Answered _ => (scope, p)
  end.

Inductive ScopeMove :=
| Call (op : Operation)
| Elapse (d : nat)
| Act (i : nat).

Definition scope_step (w : ScopeWorld) (m : ScopeMove) : ScopeWorld :=
  match m with
  | Call op =>
      {| sw_scope := sw_scope w; sw_now := sw_now w;
         sw_participants := sw_participants w ++ [{| pt_op := op; pt_place := AtLoad; pt_seen := None; pt_actions := 0 |}] |}
  | Elapse d => {| sw_scope := sw_scope w; sw_now := sw_now w + Z.of_nat d; sw_participants := sw_participants w |}
  | Act i =>
      match sw_participants w !! i with
      | None => w
      | Some p =>
          let '(scope, p) := act (sw_scope w) (sw_now w) p in
          {| sw_scope := scope; sw_now := sw_now w; sw_participants := <[i := p]> (sw_participants w) |}
      end
  end.

Definition scope_run (w : ScopeWorld) (l : list ScopeMove) : ScopeWorld := foldl scope_step w l.

Definition scope_world (s : ScopeState) (start : Z) : ScopeWorld :=
  {| sw_scope := s; sw_now := start; sw_participants := [] |}.

(** ** The order of states *)

Definition reach (a b : CallState) : bool :=
  match a, b with
  | PreDispatch, _ => true
  | Dispatched, (Dispatched | Succeeded | FailedDispatchUncertain | ExpiredDispatchUncertain) => true
  | _, _ => bool_decide (a = b)
  end.

Definition was_dispatched (st : CallState) : bool :=
  match st with Dispatched | Succeeded | FailedDispatchUncertain | ExpiredDispatchUncertain => true | _ => false end.
Definition completed (st : CallState) : bool :=
  match st with Succeeded | FailedPreDispatch | FailedDispatchUncertain => true | _ => false end.
Definition expired_state (phase : TransportPhase) : CallState :=
  match phase with PhasePreDispatch => ExpiredPreDispatch | PhaseDispatchUncertain => ExpiredDispatchUncertain end.
Definition state_rank (st : CallState) : nat := match st with PreDispatch => 0 | Dispatched => 1 | _ => 2 end.

Lemma reach_refl a : reach a a = true.
Proof. by destruct a. Qed.
Lemma reach_trans a b c : reach a b = true → reach b c = true → reach a c = true.
Proof. by destruct a, b, c. Qed.
Lemma reach_terminal a b : reach a b = true → call_terminal a = true → b = a.
Proof. by destruct a, b. Qed.
Lemma reach_rank a b : reach a b = true → (state_rank a <= state_rank b)%nat.
Proof. destruct a, b; simpl; try done; lia. Qed.
Lemma reach_rank_lt a b : reach a b = true → b ≠ a → (S (state_rank a) <= state_rank b)%nat.
Proof. destruct a, b; simpl; try done; lia. Qed.

(** ** Participants that were granted what they asked *)

Definition granted (p : Participant) : bool := match pt_place p with Answered (Ok _) => true | _ => false end.
Definition is_begin (p : Participant) : bool := granted p && match pt_op p with BeginDispatch => true | _ => false end.
Definition is_dispatch (p : Participant) : bool :=
  granted p && match pt_op p with BeginDispatch | BeginRetryDispatch _ => true | _ => false end.
Definition is_complete (p : Participant) : bool :=
  granted p && match pt_op p with CompleteSuccess | CompleteFailure => true | _ => false end.
Definition is_success (p : Participant) : bool := granted p && match pt_op p with CompleteSuccess => true | _ => false end.

Definition how_many (f : Participant → bool) (l : list Participant) : Z := blen (filter (fun p => f p = true) l).

Lemma how_many_app f l p : how_many f (l ++ [p]) = how_many f l + (if f p then 1 else 0).
Proof.
  unfold how_many, blen. rewrite filter_app, length_app. simpl. rewrite filter_cons, filter_nil.
  destruct (f p) eqn:Hf; [rewrite decide_True by done|rewrite decide_False by done]; simpl; lia.
Qed.

Lemma how_many_insert f l i p p' :
  l !! i = Some p → f p = false → how_many f (<[i := p']> l) = how_many f l + (if f p' then 1 else 0).
Proof.
  revert i. induction l as [|x l IH]; intros [|i] Hi Hp; simpl in *; [done|done|injection Hi as ->|].
  - unfold how_many, blen. rewrite !filter_cons, (decide_False (P := f p = true)) by congruence.
    destruct (f p') eqn:Hf; [rewrite decide_True by done|rewrite decide_False by done]; simpl; lia.
  - specialize (IH i Hi Hp). unfold how_many, blen in *. rewrite !filter_cons. destruct (decide (f x = true)); simpl; lia.
Qed.

Lemma how_many_nonneg f l : 0 <= how_many f l.
Proof. unfold how_many, blen. lia. Qed.

Lemma how_many_pos f l : 0 < how_many f l ↔ ∃ i p, l !! i = Some p ∧ f p = true.
Proof.
  unfold how_many, blen. split.
  - intros H. destruct (filter _ l) as [|p x] eqn:Hf; [simpl in H; lia|].
    assert (p ∈ filter (fun p => f p = true) l) as [Hp Hin]%list_elem_of_filter by (rewrite Hf; apply list_elem_of_here).
    apply list_elem_of_lookup in Hin as [i Hi]. eauto.
  - intros (i & p & Hi & Hp). assert (p ∈ filter (fun p => f p = true) l) as Hin.
    { apply list_elem_of_filter. split; [done|]. by eapply list_elem_of_lookup_2. }
    destruct (filter _ l); [by apply not_elem_of_nil in Hin|]. simpl. lia.
Qed.

(** ** The invariant *)

Definition fine (scope : ScopeState) (now : Z) (p : Participant) : Prop :=
  let st := cs_state scope in
  match pt_place p with
  | AtLoad => (pt_actions p <= 3 * state_rank st)%nat
  | AtClock c => call_terminal c = false ∧ reach c st = true ∧ (pt_actions p <= 3 * state_rank c + 1)%nat
  | AtExchange c n =>
      call_terminal c = false ∧ reach c st = true ∧ (pt_actions p <= 3 * state_rank c + 2)%nat ∧
      ∃ seen, pt_seen p = Some seen ∧ seen <= now ∧ decide_turn (cs_deadline scope) (pt_op p) c seen = inr n
  | Answered r =>
      (pt_actions p <= 7)%nat ∧
      match r with
      | Ok st' => reach st' st = true ∧
          (pt_op p = Observe ∨ ∃ seen, pt_seen p = Some seen ∧ passed (cs_deadline scope) seen = false)
      | Err (DeadlineExceeded phase) => st = expired_state phase
      | _ => True
      end
  end.

Record scope_inv (w : ScopeWorld) : Prop := {
  si_fine i p : sw_participants w !! i = Some p → fine (sw_scope w) (sw_now w) p;
  si_expired phase : cs_state (sw_scope w) = expired_state phase → passed (cs_deadline (sw_scope w)) (sw_now w) = true;
  si_begin : how_many is_begin (sw_participants w) <= (if was_dispatched (cs_state (sw_scope w)) then 1 else 0);
  si_dispatch : 0 < how_many is_dispatch (sw_participants w) ↔ was_dispatched (cs_state (sw_scope w)) = true;
  si_complete : how_many is_complete (sw_participants w) = (if completed (cs_state (sw_scope w)) then 1 else 0);
  si_success : how_many is_success (sw_participants w) = (if bool_decide (cs_state (sw_scope w) = Succeeded) then 1 else 0) }.

Lemma passed_mono d a b : passed d a = true → a <= b → passed d b = true.
Proof. destruct d; simpl; [|done]. rewrite !Z.leb_le. lia. Qed.

Lemma fine_later scope scope' now now' p :
  cs_deadline scope' = cs_deadline scope → reach (cs_state scope) (cs_state scope') = true → now <= now' →
  fine scope now p → fine scope' now' p.
Proof.
  intros Hd Hr Hn. unfold fine. rewrite Hd. pose proof (reach_rank _ _ Hr).
  destruct (pt_place p) as [|c|c n|[st'|e|]].
  - lia.
  - intros (? & ? & ?). split_and!; [done|by eapply reach_trans|done].
  - intros (? & ? & ? & seen & ? & ? & ?). split_and!; [done|by eapply reach_trans|done|]. exists seen. split_and!; [done|lia|done].
  - intros (? & ? & ?). split_and!; [done|by eapply reach_trans|done].
  - intros (? & He). split; [done|]. destruct e; try done. subst. rewrite He in Hr. apply reach_terminal in Hr; [done|by destruct phase].
  - done.
Qed.

(** A turn that decides to exchange moves up, and expires exactly when the time has passed. *)
Lemma decide_turn_up d op c now n :
  decide_turn d op c now = inr n → call_terminal c = false →
  reach c n = true ∧ (passed d now = false → ∃ st, exchanged_answer op n = Ok st ∧ st = n) ∧
  (∀ phase, n = expired_state phase → passed d now = true) ∧
  (passed d now = true → ∃ phase, n = expired_state phase).
Proof.
  unfold decide_turn. destruct (passed d now) eqn:Hp.
  - intros [= <-] Hc. split_and!; [by destruct c|done|done|]. intros _. by destruct c; [exists PhasePreDispatch|exists PhaseDispatchUncertain|..].
  - intros H Hc. split_and!; [|intros _; exists n; split; [|done]|intros phase ->|done];
      destruct op as [| | |[]| |], c; try done; simplify_eq; try done; by destruct phase.
Qed.

(** What one action does: it leaves the cell alone and grants nothing but an observation
    or a check, or it exchanges the state it loaded, as decided at the time it sampled. *)
Lemma act_cases scope now p :
  fine scope now p → (∀ r, pt_place p ≠ Answered r) →
  ((act scope now p).1 = scope ∧
     ∀ r, pt_place (act scope now p).2 = Answered (Ok r) → pt_op p = Observe ∨ pt_op p = CheckPreDispatch) ∨
  ∃ seen n, call_terminal (cs_state scope) = false ∧ pt_seen p = Some seen ∧ seen <= now ∧
    decide_turn (cs_deadline scope) (pt_op p) (cs_state scope) seen = inr n ∧
    (act scope now p).1 = {| cs_deadline := cs_deadline scope; cs_state := n |} ∧
    (act scope now p).2 =
      {| pt_op := pt_op p; pt_place := Answered (exchanged_answer (pt_op p) n); pt_seen := pt_seen p; pt_actions := S (pt_actions p) |}.
Proof.
  unfold fine, act. intros Hf Hp. destruct (pt_place p) as [|c|c n|r]; simpl.
  - left. split; [done|]. intros r. destruct (call_terminal _); [|done]. unfold terminal_answer. destruct (pt_op p); naive_solver.
  - left. split; [done|]. intros r. unfold decide_turn. destruct (passed _ _); [done|].
    destruct (pt_op p) as [| | |[]| |], c; naive_solver.
  - destruct Hf as (Hc & Hr & _ & seen & Hs & Hn & Hd). case_bool_decide as Heq; [|by left].
    right. subst c. by exists seen, n.
  - by destruct (Hp r).
Qed.

Lemma act_fine scope now p :
  fine scope now p →
  cs_deadline (act scope now p).1 = cs_deadline scope ∧ reach (cs_state scope) (cs_state (act scope now p).1) = true ∧
  fine (act scope now p).1 now (act scope now p).2.
Proof.
  intros Hf. unfold act. destruct (pt_place p) as [|c|c n|r] eqn:Hpl; unfold fine in Hf; rewrite Hpl in Hf; simpl.
  - split_and!; [done|apply reach_refl|]. unfold fine. simpl. destruct (call_terminal (cs_state scope)) eqn:Ht.
    + split; [by destruct (cs_state scope); simpl in *; lia|]. unfold terminal_answer.
      destruct (pt_op p); [by rewrite reach_refl; auto|..]; by destruct (cs_state scope).
    + split_and!; [done|apply reach_refl|lia].
  - destruct Hf as (Hc & Hr & Ha). split_and!; [done|apply reach_refl|]. unfold fine. simpl.
    destruct (decide_turn _ _ _ _) as [r|n] eqn:Hd; [|split_and!; [done|done|lia|by exists now]].
    split; [by destruct c; simpl in *; lia|]. unfold decide_turn in Hd. destruct (passed _ now) eqn:Hp; [done|].
    destruct (pt_op p) as [| | |[]| |], c; simplify_eq; try done; split; eauto.
  - destruct Hf as (Hc & Hr & Ha & seen & Hs & Hn & Hd). case_bool_decide as Heq; simpl.
    + destruct (decide_turn_up _ _ _ _ _ Hd Hc) as (Hup & Hok & Hexp & Hexp'). subst c. split_and!; [done|done|]. unfold fine. simpl.
      split; [destruct (cs_state scope); simpl in *; lia|]. destruct (passed (cs_deadline scope) seen) eqn:Hp.
      * destruct (Hexp' eq_refl) as [phase ->]. unfold exchanged_answer. destruct (pt_op p), phase; simpl; auto.
      * destruct (Hok eq_refl) as (st & -> & ->). rewrite reach_refl. split; [done|]. right. by exists seen.
    + split_and!; [done|apply reach_refl|]. unfold fine. simpl. pose proof (reach_rank_lt _ _ Hr Heq). lia.
  - split_and!; [done|apply reach_refl|]. unfold fine. by rewrite Hpl.
Qed.

Lemma act_op scope now p : pt_op (act scope now p).2 = pt_op p.
Proof. unfold act. destruct (pt_place p); simpl; try done. by destruct (bool_decide _). Qed.

Lemma ungranted f p : (∀ x, f x = true → granted x = true) → granted p = false → f p = false.
Proof. intros Hf Hp. destruct (f p) eqn:H; [|done]. apply Hf in H. congruence. Qed.

(** The four counts before and after an action of an unanswered participant. *)
Lemma act_counts w i p :
  scope_inv w → sw_participants w !! i = Some p → (∀ r, pt_place p ≠ Answered r) →
  scope_inv (scope_step w (Act i)).
Proof.
  intros [Hfine Hexp Hb Hd Hc Hs] Hi Hp. simpl. rewrite Hi.
  pose proof (Hfine i p Hi) as Hf. destruct (act_fine _ _ _ Hf) as (Hdl & Hr & Hf').
  pose proof (act_cases _ _ _ Hf Hp) as Hcases. pose proof (act_op (sw_scope w) (sw_now w) p) as Hop.
  destruct (act (sw_scope w) (sw_now w) p) as [scope p'] eqn:Hact. simpl in *.
  assert (granted p = false) as Hng by (unfold granted; by destruct (pt_place p); [..|destruct (Hp r)]).
  assert (∀ f, (∀ x, f x = true → granted x = true) →
    how_many f (<[i := p']> (sw_participants w)) = how_many f (sw_participants w) + (if f p' then 1 else 0)) as Hcount.
  { intros f Hfg. apply how_many_insert with p; [done|]. by apply ungranted. }
  assert (∀ j q, <[i := p']> (sw_participants w) !! j = Some q → fine scope (sw_now w) q) as Hall.
  { intros j q [(<- & <- & _)|[_ Hj]]%list_lookup_insert_Some; [done|]. eapply fine_later; [done|done|reflexivity|by eapply Hfine]. }
  assert (∀ x b, granted x && b = true → granted x = true) as Hg by (intros x b [? _]%andb_true_iff; done).
  destruct Hcases as [[-> Hno]|(seen & n & Ht & Hseen & Hle & Hturn & -> & ->)].
  - assert (∀ b, (granted p' = true → b = true → pt_op p ≠ Observe ∧ pt_op p ≠ CheckPreDispatch) → granted p' && b = false) as Hfalse.
    { intros b Hb'. destruct (granted p') eqn:Hgr; [|done]. destruct b; [|done]. exfalso. destruct (Hb' eq_refl eq_refl).
      unfold granted in Hgr. destruct (pt_place p') as [| | |[st| |]] eqn:Hpl; try done. destruct (Hno st eq_refl); done. }
    split; simpl; [done|done|..]; rewrite Hcount by (intros x; apply Hg);
      [unfold is_begin at 2|unfold is_dispatch at 2|unfold is_complete at 2|unfold is_success at 2];
      (rewrite Hfalse; [by rewrite Z.add_0_r|rewrite Hop; by destruct (pt_op p)]).
  - split; simpl; [done| |..]; try (rewrite Hcount by (intros x; apply Hg)).
    { intros phase ->. destruct (decide_turn_up _ _ _ _ _ Hturn Ht) as (_ & _ & He & _). eapply passed_mono; [by eapply He|done]. }
    all: pose proof (how_many_nonneg is_dispatch (sw_participants w));
      set (hb := how_many is_begin (sw_participants w)) in *; set (hd := how_many is_dispatch (sw_participants w)) in *;
      set (hc := how_many is_complete (sw_participants w)) in *; set (hs := how_many is_success (sw_participants w)) in *; clearbody hb hd hc hs;
      clear Hall Hcount Hact Hf' Hfine; unfold decide_turn in Hturn; destruct (passed _ seen), (pt_op p) as [| | |[]| |], (cs_state (sw_scope w)); try done;
      simplify_eq; unfold is_begin, is_dispatch, is_complete, is_success, granted; simpl in *; try done; lia.
Qed.

Lemma scope_step_inv w m : scope_inv w → scope_inv (scope_step w m).
Proof.
  intros Hw. destruct m as [op|d|i].
  - destruct Hw as [Hfine Hexp Hb Hd Hc Hs]. split; simpl; rewrite ?how_many_app, ?Z.add_0_r; try done.
    intros j q [Hj|[_ Hj]]%lookup_app_Some; [eauto|]. apply list_lookup_singleton_Some in Hj as [_ <-]. unfold fine. simpl. lia.
  - destruct Hw as [Hfine Hexp Hb Hd Hc Hs]. split; simpl; [|intros phase Hph; eapply passed_mono; [by eapply Hexp|lia]|done..].
    intros j q Hj. eapply fine_later; [done|apply reach_refl| |by eapply Hfine]. lia.
  - simpl. destruct (sw_participants w !! i) as [p|] eqn:Hi; [|done].
    destruct (pt_place p) as [| | |r] eqn:Hp.
    4: { unfold act. rewrite Hp. rewrite list_insert_id by done. by destruct w. }
    all: pose proof (act_counts w i p Hw Hi) as H; simpl in H; rewrite Hi in H; apply H; intros r; by rewrite Hp.
Qed.

Lemma scope_run_inv l w : scope_inv w → scope_inv (scope_run w l).
Proof. revert w. induction l as [|m l IH]; intros w Hw; [done|]. apply IH. by apply scope_step_inv. Qed.

Lemma scope_new_inv timeout path_default instant_max start s :
  scope_new_at timeout path_default instant_max start = Ok s → scope_inv (scope_world s start).
Proof.
  unfold scope_new_at. intros (d & _ & [= <-])%bind_ok. split; simpl; try done.
  - intros phase. unfold passed. destruct (from_option _ false d); [done|]. by destruct phase.
  - by destruct (from_option _ false d).
  - by destruct (from_option _ false d).
  - by destruct (from_option _ false d).
  - by destruct (from_option _ false d).
Qed.

Lemma scope_run_reach l w : scope_inv w → reach (cs_state (sw_scope w)) (cs_state (sw_scope (scope_run w l))) = true.
Proof.
  revert w. induction l as [|m l IH]; intros w Hw; [apply reach_refl|].
  apply reach_trans with (cs_state (sw_scope (scope_step w m))); [|by apply IH, scope_step_inv].
  destruct m as [op|d|i]; simpl; [apply reach_refl..|]. destruct (sw_participants w !! i) as [p|] eqn:Hi; [|apply reach_refl].
  pose proof (act_fine _ _ _ (si_fine _ Hw _ _ Hi)) as (_ & Hr & _). by destruct (act _ _ p).
Qed.

(** The number of moves of participant [i] in a run. *)
Fixpoint moves_of (i : nat) (l : list ScopeMove) : nat :=
  match l with
  | [] => 0
  | Act j :: l => (if decide (j = i) then 1 else 0) + moves_of i l
  | _ :: l => moves_of i l
  end.

Definition answered (p : Participant) : bool := match pt_place p with Answered _ => true | _ => false end.

Lemma step_actions w m i p :
  sw_participants w !! i = Some p →
  ∃ p', sw_participants (scope_step w m) !! i = Some p' ∧
    (answered p = true → answered p' = true) ∧ (answered p = false → pt_actions p' = (pt_actions p + moves_of i [m])%nat).
Proof.
  intros Hi. destruct m as [op|d|j]; simpl.
  - exists p. split; [by apply lookup_app_l_Some|]. split; [done|intros; lia].
  - exists p. split_and!; [done|done|intros; lia].
  - destruct (decide (j = i)) as [->|Hne].
    + rewrite Hi. unfold act, answered. destruct (pt_place p) as [|c|c n|r] eqn:Hp; simpl.
      4: { exists p. rewrite list_lookup_insert_eq by (by eapply lookup_lt_Some). by rewrite Hp. }
      all: try case_bool_decide; simpl; eexists; (split; [apply list_lookup_insert_eq; by eapply lookup_lt_Some|]); simpl; (split; [done|intros; lia]).
    + exists p. destruct (sw_participants w !! j); [|split_and!; [done|done|intros; lia]]. destruct (act _ _ _). simpl.
      rewrite list_lookup_insert_ne by done. split_and!; [done|done|intros; lia].
Qed.

Lemma run_actions l w i p :
  sw_participants w !! i = Some p →
  ∃ p', sw_participants (scope_run w l) !! i = Some p' ∧ (answered p = true → answered p' = true) ∧
    (answered p' = false → (pt_actions p + moves_of i l <= pt_actions p')%nat).
Proof.
  revert w p. induction l as [|m l IH]; intros w p Hi; [exists p; split_and!; [done|done|simpl; lia]|].
  destruct (step_actions w m i p Hi) as (p1 & H1 & Ha & Hn). destruct (IH _ _ H1) as (p2 & H2 & Ha2 & Hle). exists p2.
  split_and!; [done|by auto|]. intros Hp2. specialize (Hle Hp2).
  assert (answered p = false) as Hp by (destruct (answered p); [rewrite Ha2 in Hp2; auto|done]).
  rewrite Hn in Hle by done. destruct m; simpl in *; lia.
Qed.

(** ** Properties *)

(** C28 One call has one outcome, whatever the race: at most one participant is granted the
    first dispatch and at most one confirms completion; success is confirmed exactly when
    the call has succeeded, a dispatch was granted exactly when the state says so, nothing
    is granted on a clock sample at or past the deadline, whoever is told the deadline is
    exceeded finds the call expired in that phase and the deadline passed, and a terminal
    state never changes. *)
Theorem call_arbitration timeout path_default instant_max start s l :
  scope_new_at timeout path_default instant_max start = Ok s →
  let w := scope_run (scope_world s start) l in
  let st := cs_state (sw_scope w) in
  how_many is_begin (sw_participants w) <= 1 ∧ how_many is_complete (sw_participants w) <= 1 ∧
  (0 < how_many is_complete (sw_participants w) ↔ completed st = true) ∧
  (0 < how_many is_success (sw_participants w) ↔ st = Succeeded) ∧
  (0 < how_many is_dispatch (sw_participants w) ↔ was_dispatched st = true) ∧
  (∀ i p st', sw_participants w !! i = Some p → pt_place p = Answered (Ok st') → pt_op p ≠ Observe →
     ∃ seen, pt_seen p = Some seen ∧ passed (cs_deadline (sw_scope w)) seen = false) ∧
  (∀ i p phase, sw_participants w !! i = Some p → pt_place p = Answered (Err (DeadlineExceeded phase)) →
     st = expired_state phase ∧ passed (cs_deadline (sw_scope w)) (sw_now w) = true) ∧
  (call_terminal st = true → ∀ l', cs_state (sw_scope (scope_run w l')) = st).
Proof.
  intros Hnew w st. assert (scope_inv w) as Hw by (apply scope_run_inv; by eapply scope_new_inv).
  destruct Hw as [Hfine Hexp Hb Hd Hc Hs] eqn:Heq. clear Heq. fold st in Hb, Hd, Hc, Hs.
  split_and!.
  - destruct (was_dispatched st); lia.
  - destruct (completed st); lia.
  - rewrite Hc. destruct (completed st); split; try done; lia.
  - rewrite Hs. case_bool_decide; split; try done; lia.
  - done.
  - intros i p st' Hi Hp Hop. pose proof (Hfine i p Hi) as Hf. unfold fine in Hf. rewrite Hp in Hf.
    destruct Hf as (_ & _ & [?|?]); done.
  - intros i p phase Hi Hp. pose proof (Hfine i p Hi) as Hf. unfold fine in Hf. rewrite Hp in Hf. destruct Hf as (_ & Hf).
    split; [done|]. by eapply Hexp.
  - intros Ht l'. eapply reach_terminal; [|done]. apply scope_run_reach. by split.
Qed.

(** Every participant gets its answer within seven of its own atomic actions, however
    the others interleave: contention lets an exchange fail at most twice. *)
Theorem call_wait_free timeout path_default instant_max start s l1 l2 i :
  scope_new_at timeout path_default instant_max start = Ok s →
  (i < length (sw_participants (scope_run (scope_world s start) l1)))%nat → (7 <= moves_of i l2)%nat →
  ∃ p r, sw_participants (scope_run (scope_world s start) (l1 ++ l2)) !! i = Some p ∧ pt_place p = Answered r.
Proof.
  intros Hnew [p Hi]%lookup_lt_is_Some Hm. unfold scope_run. rewrite foldl_app. fold (scope_run (scope_world s start) l1).
  set (w := scope_run (scope_world s start) l1) in *. fold (scope_run w l2).
  assert (scope_inv (scope_run w l2)) as Hw by (do 2 apply scope_run_inv; by eapply scope_new_inv).
  destruct (run_actions l2 w i p Hi) as (p' & Hp' & _ & Hle). exists p'.
  pose proof (si_fine _ Hw _ _ Hp') as Hf. unfold fine, answered in *. destruct (pt_place p') as [|c|c n|r]; [exfalso..|by exists r].
  - specialize (Hle eq_refl). destruct (cs_state _); simpl in Hf; lia.
  - specialize (Hle eq_refl). destruct Hf as (Hc & _ & Ha). destruct c; simpl in *; try done; lia.
  - specialize (Hle eq_refl). destruct Hf as (Hc & _ & Ha & _). destruct c; simpl in *; try done; lia.
Qed.

(** A call of ten nanoseconds: dispatched, then completed by one of two racing participants. *)
Definition sample_scope : ScopeState := {| cs_deadline := Some 110; cs_state := PreDispatch |}.
Definition sample_race : list ScopeMove :=
  [Call BeginDispatch; Act 0; Act 0; Act 0; Elapse 5; Call CompleteSuccess; Call CompleteFailure; Act 1; Act 2; Act 1; Act 2; Act 1; Act 2; Act 2].

Lemma call_arbitration_witness :
  cs_state (sw_scope (scope_run (scope_world sample_scope 100) sample_race)) = Succeeded ∧
  how_many is_complete (sw_participants (scope_run (scope_world sample_scope 100) sample_race)) <= 1.
Proof.
  destruct (call_arbitration (After 10) None (2 ^ 64) 100 sample_scope sample_race eq_refl) as (_ & Hc & _ & Hs & _).
  split; [apply Hs; reflexivity|exact Hc].
Defined.

Lemma call_wait_free_witness :
  ∃ p r, sw_participants (scope_run (scope_world sample_scope 100) ([Call CompleteSuccess] ++ replicate 7 (Act 0))) !! 0%nat = Some p ∧
    pt_place p = Answered r.
Proof.
  apply (call_wait_free (After 10) None (2 ^ 64) 100 sample_scope [Call CompleteSuccess] (replicate 7 (Act 0)) 0);
    [reflexivity|simpl; lia|simpl; lia].
Defined.
