(* ===== verification/Retention.v ===== *)
(** The retention budget of c2-mem (retention.rs): a bounded number of operations with a
    bounded number of bytes of retained input, and the move-only permits that charge both.
    Each method is one critical section of the accounting mutex; the live permits are the
    guards that exist. *)

From S2P Require Import Prelude.

Inductive RetentionRejectReason := OperationsExhausted | RetainedBytesExhausted | RetentionClosed.

Record RetentionInner := {
  max_operations : Z;
  max_retained_bytes : Z;
  used_operations : Z;
  used_retained_bytes : Z;
  peak_operations : Z;
  peak_retained_bytes : Z;
  rejected_reservations : Z;
  ri_closed : bool }.

Record RetentionError := { rt_reason : RetentionRejectReason; rt_requested_bytes : Z; rt_state : RetentionInner }.

Implicit Types (r : RetentionInner).

Definition RetentionBudget_new (operations retained : Z) : RetentionInner :=
  {| max_operations := operations; max_retained_bytes := retained; used_operations := 0; used_retained_bytes := 0;
     peak_operations := 0; peak_retained_bytes := 0; rejected_reservations := 0; ri_closed := false |}.

Definition count_rejected r : RetentionInner :=
  {| max_operations := max_operations r; max_retained_bytes := max_retained_bytes r; used_operations := used_operations r;
     used_retained_bytes := used_retained_bytes r; peak_operations := peak_operations r;
     peak_retained_bytes := peak_retained_bytes r; rejected_reservations := Z.min U64_MAX (rejected_reservations r + 1);
     ri_closed := ri_closed r |}.

Definition set_used r (operations retained : Z) : RetentionInner :=
  {| max_operations := max_operations r; max_retained_bytes := max_retained_bytes r; used_operations := operations;
     used_retained_bytes := retained; peak_operations := Z.max (peak_operations r) operations;
     peak_retained_bytes := Z.max (peak_retained_bytes r) retained; rejected_reservations := rejected_reservations r;
     ri_closed := ri_closed r |}.

Definition reject r (reason : RetentionRejectReason) (bytes : Z) : RetentionInner * res RetentionError unit :=
  (count_rejected r, Err {| rt_reason := reason; rt_requested_bytes := bytes; rt_state := r |}).

(** [checked_add] against the byte limit. *)
Definition bytes_admit r (bytes : Z) : bool :=
  (used_retained_bytes r + bytes <=? U64_MAX) && (used_retained_bytes r + bytes <=? max_retained_bytes r).

Definition retention_try_reserve r (bytes : Z) : RetentionInner * res RetentionError unit :=
  if ri_closed r then reject r RetentionClosed bytes
  else if max_operations r <=? used_operations r then reject r OperationsExhausted bytes
  else if bytes_admit r bytes then (set_used r (used_operations r + 1) (used_retained_bytes r + bytes), Ok tt)
  else reject r RetainedBytesExhausted bytes.

(** The two [checked_sub]s panic on underflow. *)
Definition retention_release r (bytes : Z) : res RetentionError RetentionInner :=
  guard_panic (1 <=? used_operations r) ;?
  guard_panic (bytes <=? used_retained_bytes r) ;?
  Ok (set_used r (used_operations r - 1) (used_retained_bytes r - bytes)).

Definition retention_close r : RetentionInner :=
  {| max_operations := max_operations r; max_retained_bytes := max_retained_bytes r; used_operations := used_operations r;
     used_retained_bytes := used_retained_bytes r; peak_operations := peak_operations r;
     peak_retained_bytes := peak_retained_bytes r; rejected_reservations := rejected_reservations r; ri_closed := true |}.

(** [try_grow] of the permit that charges [bytes]: the permit's new charge. *)
Definition try_grow r (bytes additional : Z) : RetentionInner * res RetentionError Z :=
  if additional =? 0 then (r, Ok bytes)
  else if ri_closed r then ((reject r RetentionClosed additional).1, Err {| rt_reason := RetentionClosed; rt_requested_bytes := additional; rt_state := r |})
  else if negb (bytes_admit r additional)
  then ((reject r RetainedBytesExhausted additional).1, Err {| rt_reason := RetainedBytesExhausted; rt_requested_bytes := additional; rt_state := r |})
  else
    (set_used r (used_operations r) (used_retained_bytes r + additional),
     guard_panic (bytes + additional <=? U64_MAX) ;? Ok (bytes + additional)).

(** ** Runs *)

Inductive RetentionCall :=
| RReserve (bytes : Z)
| RGrow (i : nat) (additional : Z)
| RDrop (i : nat)
| RClose.

(** The budget and the charges of the live permits. *)
Record RetentionWorld := { rw_inner : RetentionInner; rw_permits : list Z }.

Definition retention_step (w : RetentionWorld) (c : RetentionCall) : res RetentionError RetentionWorld :=
  let r := rw_inner w in
  match c with
  | RReserve bytes =>
      let '(r, a) := retention_try_reserve r bytes in
      Ok {| rw_inner := r; rw_permits := match a with Ok _ => rw_permits w ++ [bytes] | _ => rw_permits w end |}
  | RGrow i additional =>
      match rw_permits w !! i with
      | None => Ok w
      | Some bytes =>
          match try_grow r bytes additional with
          | (r, Ok bytes) => Ok {| rw_inner := r; rw_permits := <[i := bytes]> (rw_permits w) |}
          | (r, Err _) => Ok {| rw_inner := r; rw_permits := rw_permits w |}
          | (r, Panic) => Panic
          end
      end
  | RDrop i =>
      match rw_permits w !! i with
      | None => Ok w
      | Some bytes => let? r := retention_release r bytes in Ok {| rw_inner := r; rw_permits := delete i (rw_permits w) |}
      end
  | RClose => Ok {| rw_inner := retention_close r; rw_permits := rw_permits w |}
  end.

Fixpoint retention_run (w : RetentionWorld) (l : list RetentionCall) : res RetentionError RetentionWorld :=
  match l with
  | [] => Ok w
  | c :: l => let? w := retention_step w c in retention_run w l
  end.

(** The arguments are unsigned. *)
Definition call_unsigned (c : RetentionCall) : Prop :=
  match c with RReserve b | RGrow _ b => 0 <= b | _ => True end.

Definition sum_permits (l : list Z) : Z := foldr Z.add 0 l.

Record retention_inv (operations retained : Z) (w : RetentionWorld) : Prop := {
  rv_limits : max_operations (rw_inner w) = operations ∧ max_retained_bytes (rw_inner w) = retained;
  rv_operations : used_operations (rw_inner w) = blen (rw_permits w);
  rv_bytes : used_retained_bytes (rw_inner w) = sum_permits (rw_permits w);
  rv_nonneg : Forall (fun b => 0 <= b) (rw_permits w);
  rv_bounded : blen (rw_permits w) <= operations ∧ sum_permits (rw_permits w) <= retained ∧ sum_permits (rw_permits w) <= U64_MAX;
  rv_peak : blen (rw_permits w) <= peak_operations (rw_inner w) <= operations ∧
            sum_permits (rw_permits w) <= peak_retained_bytes (rw_inner w) <= retained }.

Lemma sum_permits_app l b : sum_permits (l ++ [b]) = sum_permits l + b.
Proof. unfold sum_permits. induction l; simpl; lia. Qed.
Lemma sum_permits_delete l i b : l !! i = Some b → sum_permits (delete i l) = sum_permits l - b.
Proof. unfold sum_permits. revert i. induction l as [|x l IH]; intros [|i] H; simplify_eq/=; [lia|]. rewrite (IH i H). lia. Qed.
Lemma sum_permits_insert l i b c : l !! i = Some b → sum_permits (<[i := c]> l) = sum_permits l - b + c.
Proof. unfold sum_permits. revert i. induction l as [|x l IH]; intros [|i] H; simplify_eq/=; [lia|]. rewrite (IH i H). lia. Qed.
Lemma sum_permits_le l i b : Forall (fun b => 0 <= b) l → l !! i = Some b → 0 <= b <= sum_permits l.
Proof.
  unfold sum_permits. revert i. induction l as [|x l IH]; intros [|i] Hl H; simplify_eq/=; apply Forall_cons in Hl as [Hx Hl].
  - assert (0 <= foldr Z.add 0 l) by (clear - Hl; induction Hl; simpl; lia). lia.
  - specialize (IH i Hl H). lia.
Qed.

Lemma retention_step_inv o m w c :
  retention_inv o m w → call_unsigned c → ∃ w', retention_step w c = Ok w' ∧ retention_inv o m w'.
Proof.
  intros [[Hmo Hmb] Ho Hb Hn (Hb1 & Hb2 & Hb3) (Hp1 & Hp2)] Hc. destruct c as [bytes|i add|i|]; simpl in *.
  - unfold retention_try_reserve, bytes_admit. destruct (ri_closed _); [by eexists; split; [done|split; simpl; auto]|].
    destruct (Z.leb_spec (max_operations (rw_inner w)) (used_operations (rw_inner w))); [by eexists; split; [done|split; simpl; auto]|].
    destruct (_ && _) eqn:Ha; [|by eexists; split; [done|split; simpl; auto]].
    apply andb_true_iff in Ha as [?%Z.leb_le ?%Z.leb_le]. eexists. split; [done|].
    split; simpl; rewrite ?blen_app, ?sum_permits_app; simpl; try (unfold blen in *; simpl; lia).
    apply Forall_app. split; [done|by constructor].
  - destruct (rw_permits w !! i) as [bytes|] eqn:Hi; [|by exists w; split; [done|split; auto]].
    destruct (sum_permits_le _ _ _ Hn Hi) as [? ?].
    unfold try_grow, bytes_admit. destruct (Z.eqb_spec add 0) as [->|].
    { eexists. split; [done|]. rewrite list_insert_id by done. by split; simpl; auto. }
    destruct (ri_closed _); [by eexists; split; [done|split; simpl; auto]|].
    destruct (_ && _) eqn:Ha; simpl; [|by eexists; split; [done|split; simpl; auto]].
    apply andb_true_iff in Ha as [?%Z.leb_le ?%Z.leb_le].
    unfold guard_panic. destruct (Z.leb_spec (bytes + add) U64_MAX); [|lia]. simpl. eexists. split; [done|].
    split; simpl; rewrite ?(sum_permits_insert _ _ _ _ Hi); unfold blen in *; rewrite ?length_insert; try lia.
    apply Forall_insert; [done|lia].
  - destruct (rw_permits w !! i) as [bytes|] eqn:Hi; [|by exists w; split; [done|split; auto]].
    destruct (sum_permits_le _ _ _ Hn Hi) as [? ?]. pose proof (lookup_lt_Some _ _ _ Hi).
    unfold retention_release, guard_panic. destruct (Z.leb_spec 1 (used_operations (rw_inner w))); [|unfold blen in *; lia].
    destruct (Z.leb_spec bytes (used_retained_bytes (rw_inner w))); [|lia]. simpl. eexists. split; [done|].
    split; simpl; rewrite ?(sum_permits_delete _ _ _ Hi); unfold blen in *; rewrite ?length_delete by eauto; try lia.
    by apply Forall_delete.
  - eexists. split; [done|]. by split; simpl; auto.
Qed.

Lemma retention_run_inv o m l w :
  retention_inv o m w → Forall call_unsigned l → ∃ w', retention_run w l = Ok w' ∧ retention_inv o m w'.
Proof.
  intros Hw Hl. revert w Hw. induction Hl as [|c l Hc Hl IH]; intros w Hw; [by exists w|]. simpl.
  destruct (retention_step_inv o m w c Hw Hc) as (w1 & -> & H1). simpl. by apply IH.
Qed.

Lemma retention_new_inv o m : 0 <= o → 0 <= m → retention_inv o m {| rw_inner := RetentionBudget_new o m; rw_permits := [] |}.
Proof. intros Ho Hm. split; simpl; try done; unfold blen; simpl; unfold U64_MAX; lia. Qed.

(** The retention budget is exact: in every run the used operations and bytes are those
    of the live permits and stay within the limits and the peaks, no release underflows
    and no charge overflows, and a reservation is admitted exactly when the budget is open,
    a slot is left and the bytes fit. *)
Theorem retention_exact operations retained l :
  0 <= operations → 0 <= retained <= U64_MAX → Forall call_unsigned l →
  ∃ w, retention_run {| rw_inner := RetentionBudget_new operations retained; rw_permits := [] |} l = Ok w ∧
    used_operations (rw_inner w) = blen (rw_permits w) ∧ used_retained_bytes (rw_inner w) = sum_permits (rw_permits w) ∧
    blen (rw_permits w) <= peak_operations (rw_inner w) <= operations ∧
    sum_permits (rw_permits w) <= peak_retained_bytes (rw_inner w) <= retained ∧
    ∀ bytes, 0 <= bytes →
      (retention_try_reserve (rw_inner w) bytes).2 = Ok tt ↔
      ri_closed (rw_inner w) = false ∧ blen (rw_permits w) < operations ∧ sum_permits (rw_permits w) + bytes <= retained.
Proof.
  intros Ho Hm Hl. destruct (retention_run_inv operations retained l _ (retention_new_inv _ _ Ho (proj1 Hm)) Hl) as (w & Hrun & [[Hmo Hmb] Hu Hb Hn _ [Hp1 Hp2]]).
  exists w. split_and!; try done; try lia. intros bytes Hbytes.
  unfold retention_try_reserve, bytes_admit. rewrite Hmo, Hmb, Hu, Hb. destruct (ri_closed (rw_inner w)); simpl; [naive_solver|].
  destruct (Z.leb_spec operations (blen (rw_permits w))); simpl; [split; [done|lia]|].
  destruct (Z.leb_spec (sum_permits (rw_permits w) + bytes) U64_MAX), (Z.leb_spec (sum_permits (rw_permits w) + bytes) retained);
    simpl; split; try done; lia.
Qed.

Lemma retention_exact_witness :
  ∃ w, retention_run {| rw_inner := RetentionBudget_new 2 100; rw_permits := [] |} [RReserve 60; RGrow 0 20; RReserve 40; RClose; RDrop 0] = Ok w ∧
    used_operations (rw_inner w) = blen (rw_permits w).
Proof.
  destruct (retention_exact 2 100 [RReserve 60; RGrow 0 20; RReserve 40; RClose; RDrop 0]) as (w & Hw & H & _);
    [lia|unfold U64_MAX; lia|repeat constructor; simpl; lia|by exists w].
Defined.
