(* ===== verification/Host.v ===== *)
(** Registration of routes and lifecycle of a host (c2-server, server.rs, with
    dispatcher.rs and admission.rs): routes are reserved, committed, opened and removed
    while the host starts, serves, drains and stops.  Registration holds one mutex over
    the dispatcher and the admission gate, so each of its operations is one section;
    removal waits for a route to drain between two sections.  Routes are named by the
    order of their reservation, as their [Arc]s are by pointer. *)

From S2P Require Import Prelude.
From S2P Require Import Text.
From S2P Require Import Handshake.
From S2P Require Import Scheduler.

Inductive ServerLifecycleState := Initialized | Starting | LReady | Stopping | Stopped | LFailed.
#[export] Instance lifecycle_eq : EqDecision ServerLifecycleState.
Proof. solve_decision. Defined.

Definition is_running (l : ServerLifecycleState) : bool :=
  match l with Starting | LReady | Stopping => true | _ => false end.

(** What a route is built from; its callback and the fixed part of its scheduler are
    arguments of the calls that use them. *)
Record RouteBuildSpec := {
  rs_name : str;
  rs_crm_ns : str;
  rs_crm_name : str;
  rs_crm_ver : str;
  rs_abi_hash : str;
  rs_signature_hash : str;
  rs_method_names : list str }.

Inductive BuildError := BadRoute (e : ContractError) | TooManyMethods (n : Z).

Definition build_check (m : res ContractError unit) : res BuildError unit :=
  match m with Ok _ => Ok tt | Err e => Err (BadRoute e) | Panic => Panic end.

Fixpoint check_method_names (l : list str) : res BuildError unit :=
  match l with
  | [] => Ok tt
  | m :: l => build_check (validate_contract_text_field "method name" m) ;? check_method_names l
  end.

(** [BuiltRoute::new] *)
Definition build_route (spec : RouteBuildSpec) : res BuildError unit :=
  build_check (validate_call_route_key "route name" (rs_name spec)) ;?
  guard_err (MAX_METHODS <? blen (rs_method_names spec)) (TooManyMethods (blen (rs_method_names spec))) ;?
  check_method_names (rs_method_names spec) ;?
  build_check (validate_crm_tag (rs_crm_ns spec) (rs_crm_name spec) (rs_crm_ver spec)) ;?
  build_check (validate_contract_hash "abi_hash" (rs_abi_hash spec)) ;?
  build_check (validate_contract_hash "signature_hash" (rs_signature_hash spec)).

(** A route with the state of its scheduler. *)
Record CrmRoute := { cr_spec : RouteBuildSpec; cr_route_uid : str; cr_scheduler : SchedulerState }.

Definition cr_name (r : CrmRoute) : str := rs_name (cr_spec r).

Record PendingRouteInfo := { registration_token : str; pi_route_uid : str; pi_spec : RouteBuildSpec }.

(** A reservation is held by its owner, was refused by a commit that consumed it, or is
    being dropped with its scheduler already closed. *)
Inductive ReservationStage := Held | Refused | Shut.
#[export] Instance stage_eq : EqDecision ReservationStage.
Proof. solve_decision. Defined.

Record PendingRouteReservation := {
  pr_name : str;
  pr_token : str;
  pr_route : nat;
  pr_generation : Z;
  pr_stage : ReservationStage }.

Record RouteAdmissionToken := { ra_name : str; ra_route_uid : str; ra_generation : Z }.

(** The accept loop: not running, past the check of the start attempt, binding its
    listener, serving, closing the routes it found at shutdown, or closing its listener. *)
Inductive AcceptLoop :=
| NoLoop
| Entering
| Binding
| Serving
| Closing (remaining : option (list nat))
| Finishing.

Record Host := {
  ho_routes : list CrmRoute;
  ho_dispatcher : gmap str nat;
  ho_removed : gmap str str;
  ho_pending : gmap str PendingRouteInfo;
  ho_admission : AdmissionState;
  ho_lifecycle : ServerLifecycleState;
  ho_shutdown : bool;
  ho_run_entered : bool;
  ho_loop : AcceptLoop;
  ho_reservations : list PendingRouteReservation;
  ho_tokens : list RouteAdmissionToken;
  ho_removals : list (str * nat) }.

Definition Server_new : Host :=
  {| ho_routes := []; ho_dispatcher := ∅; ho_removed := ∅; ho_pending := ∅; ho_admission := AdmissionState_new;
     ho_lifecycle := Initialized; ho_shutdown := false; ho_run_entered := false; ho_loop := NoLoop; ho_reservations := []; ho_tokens := [];
     ho_removals := [] |}.

Implicit Types (h : Host).

Definition set_catalog h routes dispatcher removed pending : Host :=
  {| ho_routes := routes; ho_dispatcher := dispatcher; ho_removed := removed; ho_pending := pending; ho_admission := ho_admission h;
     ho_lifecycle := ho_lifecycle h; ho_shutdown := ho_shutdown h; ho_run_entered := ho_run_entered h; ho_loop := ho_loop h;
     ho_reservations := ho_reservations h; ho_tokens := ho_tokens h; ho_removals := ho_removals h |}.
Definition set_holders h reservations tokens removals : Host :=
  {| ho_routes := ho_routes h; ho_dispatcher := ho_dispatcher h; ho_removed := ho_removed h; ho_pending := ho_pending h; ho_admission := ho_admission h;
     ho_lifecycle := ho_lifecycle h; ho_shutdown := ho_shutdown h; ho_run_entered := ho_run_entered h; ho_loop := ho_loop h;
     ho_reservations := reservations; ho_tokens := tokens; ho_removals := removals |}.
Definition set_life h admission lifecycle shutdown entered loop : Host :=
  {| ho_routes := ho_routes h; ho_dispatcher := ho_dispatcher h; ho_removed := ho_removed h; ho_pending := ho_pending h; ho_admission := admission;
     ho_lifecycle := lifecycle; ho_shutdown := shutdown; ho_run_entered := entered; ho_loop := loop;
     ho_reservations := ho_reservations h; ho_tokens := ho_tokens h; ho_removals := ho_removals h |}.

Definition with_scheduler (f : SchedulerState → SchedulerState) (r : CrmRoute) : CrmRoute :=
  {| cr_spec := cr_spec r; cr_route_uid := cr_route_uid r; cr_scheduler := f (cr_scheduler r) |}.
Definition on_route h (n : nat) (f : SchedulerState → SchedulerState) : Host :=
  set_catalog h (alter (with_scheduler f) n (ho_routes h)) (ho_dispatcher h) (ho_removed h) (ho_pending h).
Definition close_route h n : Host := on_route h n close.

(** ** Dispatcher *)

(** [Dispatcher::register], [unregister] and [take_all] keep the identity of the latest
    removed registration of a name. *)
Definition dispatcher_register h (name : str) (n : nat) : Host :=
  set_catalog h (ho_routes h) (<[name := n]> (ho_dispatcher h)) (delete name (ho_removed h)) (ho_pending h).

Definition uid_of h (n : nat) : str := from_option cr_route_uid [] (ho_routes h !! n).

Definition dispatcher_unregister h (name : str) : Host :=
  match ho_dispatcher h !! name with
  | Some n => set_catalog h (ho_routes h) (delete name (ho_dispatcher h)) (<[name := uid_of h n]> (ho_removed h)) (ho_pending h)
  | None => h
  end.

Definition take_all h : Host :=
  set_catalog h (ho_routes h) ∅ ((uid_of h <$> ho_dispatcher h) ∪ ho_removed h) (ho_pending h).

(** ** Registration *)

Inductive ServerRefusal :=
| AlreadyRegistered | TooManyRoutes | ShuttingDown | AdmissionClosed | NotRegistered | TokenMismatch | NotAwaiting.

Definition dispatcher_len h : Z := Z.of_nat (size (ho_dispatcher h)).
Definition pending_len h : Z := Z.of_nat (size (ho_pending h)).
Definition stopping h : bool := bool_decide (ho_lifecycle h = Stopping).
Definition set_reservations h reservations : Host := set_holders h reservations (ho_tokens h) (ho_removals h).

(** [reserve_route] of a route built by this host, with the token it draws. *)
Definition reserve_route h (spec : RouteBuildSpec) (uid token : str) : res ServerRefusal Host :=
  let name := rs_name spec in
  guard_err (bool_decide (is_Some (ho_dispatcher h !! name))) AlreadyRegistered ;?
  guard_err (bool_decide (is_Some (ho_pending h !! name))) AlreadyRegistered ;?
  guard_err (MAX_ROUTES <=? dispatcher_len h + pending_len h) TooManyRoutes ;?
  guard_err (stopping h) ShuttingDown ;?
  guard_err (is_closed (ho_admission h)) AdmissionClosed ;?
  let route := {| cr_spec := spec; cr_route_uid := uid; cr_scheduler := SchedulerState_default |} in
  let info := {| registration_token := token; pi_route_uid := uid; pi_spec := spec |} in
  let reservation := {| pr_name := name; pr_token := token; pr_route := length (ho_routes h);
                        pr_generation := generation (ho_admission h); pr_stage := Held |} in
  let h := set_catalog h (ho_routes h ++ [route]) (ho_dispatcher h) (ho_removed h) (<[name := info]> (ho_pending h)) in
  Ok (set_reservations h (ho_reservations h ++ [reservation])).

Definition with_stage (stage : ReservationStage) (r : PendingRouteReservation) : PendingRouteReservation :=
  {| pr_name := pr_name r; pr_token := pr_token r; pr_route := pr_route r; pr_generation := pr_generation r; pr_stage := stage |}.
Definition set_stage h (i : nat) (stage : ReservationStage) : Host :=
  set_reservations h (alter (with_stage stage) i (ho_reservations h)).

(** The last section of a commit: the pending entry becomes a registered route. *)
Definition register_reserved h (i : nat) (r : PendingRouteReservation) (uid : str) : Host :=
  let h := set_catalog h (ho_routes h) (ho_dispatcher h) (ho_removed h) (delete (pr_name r) (ho_pending h)) in
  let h := dispatcher_register h (pr_name r) (pr_route r) in
  set_holders h (delete i (ho_reservations h))
    (ho_tokens h ++ [{| ra_name := pr_name r; ra_route_uid := uid; ra_generation := generation (ho_admission h) |}])
    (ho_removals h).

(** [commit_reserved_route_with_admission] of this host's reservation; a refused one is
    dropped after the locks. *)
Definition commit_reserved_route h (i : nat) (r : PendingRouteReservation) (admission_open : bool) : res Empty_set (Host * res ServerRefusal unit) :=
  if negb (pr_generation r =? generation (ho_admission h)) || stopping h || is_closed (ho_admission h)
  then Ok (set_stage (close_route h (pr_route r)) i Refused,
           Err (if is_closed (ho_admission h) && negb (ho_shutdown h) && negb (stopping h) then AdmissionClosed else ShuttingDown))
  else if bool_decide (is_Some (ho_dispatcher h !! pr_name r))
  then Ok (set_stage (close_route h (pr_route r)) i Refused, Err AlreadyRegistered)
  else
    match ho_routes h !! pr_route r with
    | None => Panic
    | Some route =>
        if admission_open then Ok (register_reserved h i r (cr_route_uid route), Ok tt)
        else if (commit_awaiting_admission (cr_scheduler route)).2
        then Ok (register_reserved (on_route h (pr_route r) (fun s => (commit_awaiting_admission s).1)) i r (cr_route_uid route), Ok tt)
        else Ok (set_stage h i Refused, Err AdmissionClosed)
    end.

Definition open_route_admission h (token : RouteAdmissionToken) : res Empty_set (Host * res ServerRefusal unit) :=
  if negb (ra_generation token =? generation (ho_admission h)) || stopping h then Ok (h, Err ShuttingDown)
  else if is_closed (ho_admission h) then Ok (h, Err AdmissionClosed)
  else
    match ho_dispatcher h !! ra_name token with
    | None => Ok (h, Err NotRegistered)
    | Some n =>
        match ho_routes h !! n with
        | None => Panic
        | Some route =>
            if negb (bool_decide (cr_route_uid route = ra_route_uid token)) then Ok (h, Err TokenMismatch)
            else if (open_admission_for_registration (cr_scheduler route)).2
            then Ok (on_route h n (fun s => (open_admission_for_registration s).1), Ok tt)
            else Ok (h, Err NotAwaiting)
        end
    end.

Inductive AttestRefusal := PendingNotFound | PendingTokenMismatch.

Definition attest_pending_route h (name token : str) : res AttestRefusal PendingRouteInfo :=
  match ho_pending h !! name with
  | None => Err PendingNotFound
  | Some info => if bool_decide (registration_token info = token) then Ok info else Err PendingTokenMismatch
  end.

(** [Drop for PendingRouteReservation] and [abort_reserved_route]: the scheduler closes,
    then [resolve] removes the pending entry. *)
Definition close_scheduler_for_abort h (i : nat) : Host :=
  match ho_reservations h !! i with
  | Some r => set_stage (close_route h (pr_route r)) i Shut
  | None => h
  end.
Definition resolve_reservation h (i : nat) : Host :=
  match ho_reservations h !! i with
  | Some r =>
      if bool_decide (pr_stage r = Shut) then
        let h := set_catalog h (ho_routes h) (ho_dispatcher h) (ho_removed h) (delete (pr_name r) (ho_pending h)) in
        set_reservations h (delete i (ho_reservations h))
      else h
  | None => h
  end.

(** [unregister_route] and [unregister_routes_for_shutdown]: close the named routes, wait
    until they are drained, remove each that is still the registered one. *)
Definition close_named h (name : str) : Host :=
  match ho_dispatcher h !! name with
  | Some n => let h := close_route h n in set_holders h (ho_reservations h) (ho_tokens h) (ho_removals h ++ [(name, n)])
  | None => h
  end.
Definition unregister_close h (names : list str) : Host := foldl close_named h (remove_dups names).

Definition unregister_remove h (i : nat) : Host * bool :=
  match ho_removals h !! i with
  | None => (h, false)
  | Some (name, n) =>
      if from_option (fun r => is_drained (cr_scheduler r)) false (ho_routes h !! n) then
        let removed := bool_decide (ho_dispatcher h !! name = Some n) in
        let h := if removed then dispatcher_unregister h name else h in
        (set_holders h (ho_reservations h) (ho_tokens h) (delete i (ho_removals h)), removed)
      else (h, false)
  end.

(** ** Lifecycle *)

(** [begin_start_attempt] after its prewarming. *)
Definition begin_start_attempt h : res SchedulerAcquireError (option Host) :=
  match ho_lifecycle h with
  | Initialized | Stopped | LFailed =>
      let? a := if negb (bool_decide (ho_lifecycle h = Initialized)) || is_closed (ho_admission h)
                then begin_start (ho_admission h) else Ok (ho_admission h) in
      Ok (Some (set_life h a Starting false false (ho_loop h)))
  | _ => Ok None
  end.

Definition set_lifecycle_state h (l : ServerLifecycleState) (loop : AcceptLoop) : Host :=
  set_life h (ho_admission h) l (ho_shutdown h) (ho_run_entered h) loop.

Definition request_shutdown_signal h : Host :=
  let l := if is_running (ho_lifecycle h) then Stopping else ho_lifecycle h in
  set_life h (begin_drain (ho_admission h)) l true (ho_run_entered h) (ho_loop h).

(** The first section of [close_business_admission]; its routes are closed one by one. *)
Definition terminate_admission h : res SchedulerAcquireError Host :=
  let? a := terminate (ho_admission h) in
  Ok (set_life h a (ho_lifecycle h) (ho_shutdown h) (ho_run_entered h) (ho_loop h)).

Definition reject_start_attempt h : Host :=
  match ho_lifecycle h with
  | Starting | Stopping => if ho_run_entered h then h else set_lifecycle_state h LFailed (ho_loop h)
  | _ => h
  end.

(** The runtime is gone, and its loop with it. *)
Definition finalize_runtime_stopped h : Host :=
  if is_running (ho_lifecycle h) then set_lifecycle_state h Stopped NoLoop
  else set_lifecycle_state h (ho_lifecycle h) NoLoop.

(** The steps of [run_inner].  A host has one such loop at a time. *)
Inductive LoopStep :=
| CheckStart
| StoreEntered
| BindListener (ok : bool)
| SeeShutdown
| SnapshotRoutes
| CloseNext
| TakeAll
| CloseListener (ok : bool).

Definition loop_step h (s : LoopStep) : res SchedulerAcquireError Host :=
  match s, ho_loop h with
  | CheckStart, NoLoop =>
      if bool_decide (ho_lifecycle h = Starting) then Ok (set_lifecycle_state h Starting Entering)
      else
        let? started := begin_start_attempt h in
        Ok (match started with Some h => set_lifecycle_state h Starting Entering | None => h end)
  | StoreEntered, Entering => Ok (set_life h (ho_admission h) (ho_lifecycle h) (ho_shutdown h) true Binding)
  | BindListener true, Binding => Ok (set_lifecycle_state h LReady Serving)
  | BindListener false, Binding => Ok (set_lifecycle_state h LFailed NoLoop)
  | SeeShutdown, Serving => Ok (if ho_shutdown h then set_lifecycle_state h Stopping (Closing None) else h)
  | SnapshotRoutes, Closing None =>
      Ok (set_lifecycle_state h (ho_lifecycle h) (Closing (Some (map_to_list (ho_dispatcher h)).*2)))
  | CloseNext, Closing (Some (n :: rest)) =>
      Ok (set_lifecycle_state (close_route h n) (ho_lifecycle h) (Closing (Some rest)))
  | TakeAll, Closing (Some []) => Ok (set_lifecycle_state (take_all h) (ho_lifecycle h) Finishing)
  | CloseListener ok, Finishing => Ok (set_lifecycle_state h (if ok then Stopped else LFailed) NoLoop)
  | _, _ => Ok h
  end.

(** ** Runs *)

(** What calls of a route do to its scheduler. *)
Inductive SchedulerWork :=
| WorkReserve (method_idx : Z) (gen : option Z)
| WorkActivate (p : SchedulerPendingPermit)
| WorkDropPermit (p : SchedulerPendingPermit)
| WorkDropGuard (g : SchedulerGuard).

Definition schedule (inner : SchedulerInner) (a : AdmissionState) (work : SchedulerWork) (s : SchedulerState) : SchedulerState :=
  match work with
  | WorkReserve m gen => match reserve_pending_with_generation inner a s m gen with Ok (s, _) => s | _ => s end
  | WorkActivate p => match activate_ready inner a s p with Ok (Some (s, _)) => s | _ => s end
  | WorkDropPermit p => match drop_permit s p with Ok s => s | _ => s end
  | WorkDropGuard g => match drop_guard s g with Ok s => s | _ => s end
  end.

Inductive HostCall :=
| Reserve (spec : RouteBuildSpec) (uid token : str)
| Commit (i : nat) (admission_open : bool)
| OpenAdmission (i : nat)
| DropReservation (i : nat)
| Resolve (i : nat)
| UnregisterClose (names : list str)
| UnregisterRemove (i : nat)
| BeginStart
| RequestShutdown
| TerminateAdmission
| CloseOne (n : nat)
| RejectStart
| FinalizeStopped
| LoopCall (s : LoopStep)
| Schedule (inner : SchedulerInner) (n : nat) (work : SchedulerWork).

(** The host after a call, whatever the call answers; a panic ends the run. *)
Definition after {E} (h : Host) (m : res E Host) : res Empty_set Host :=
  match m with Ok h' => Ok h' | Err _ => Ok h | Panic => Panic end.

Definition host_step h (c : HostCall) : res Empty_set Host :=
  match c with
  | Reserve spec uid token => match build_route spec with Ok _ => after h (reserve_route h spec uid token) | _ => Ok h end
  | Commit i admission_open =>
      match ho_reservations h !! i with
      | Some r =>
          if bool_decide (pr_stage r = Held) then let? '(h, _) := commit_reserved_route h i r admission_open in Ok h else Ok h
      | None => Ok h
      end
  | OpenAdmission i =>
      match ho_tokens h !! i with
      | Some token =>
          let? '(h, _) := open_route_admission (set_holders h (ho_reservations h) (delete i (ho_tokens h)) (ho_removals h)) token in
          Ok h
      | None => Ok h
      end
  | DropReservation i => Ok (close_scheduler_for_abort h i)
  | Resolve i => Ok (resolve_reservation h i)
  | UnregisterClose names => Ok (unregister_close h names)
  | UnregisterRemove i => Ok (unregister_remove h i).1
  | BeginStart => after h (let? started := begin_start_attempt h in Ok (default h started))
  | RequestShutdown => Ok (request_shutdown_signal h)
  | TerminateAdmission => after h (terminate_admission h)
  | CloseOne n => Ok (close_route h n)
  | RejectStart => Ok (reject_start_attempt h)
  | FinalizeStopped => Ok (finalize_runtime_stopped h)
  | LoopCall s => after h (loop_step h s)
  | Schedule inner n work => Ok (on_route h n (schedule inner (ho_admission h) work))
  end.

Fixpoint host_run h (l : list HostCall) : res Empty_set Host :=
  match l with
  | [] => Ok h
  | c :: l => let? h := host_step h c in host_run h l
  end.
