(* ===== verification/HostSafe.v ===== *)
(** Safety of route registration: at every point of every interleaving a name is free,
    reserved by one owner or registered, a reservation that outlived its admission never
    registers, and no route leaves the dispatcher while it admits work. *)

From S2P Require Import Prelude.
From S2P Require Import Text.
From S2P Require Import Handshake.
From S2P Require Import Scheduler.
From S2P Require Import Host.

Implicit Types (h : Host).

(** ** Steps *)

Lemma host_run_app h l1 l2 : host_run h (l1 ++ l2) = (let? h := host_run h l1 in host_run h l2).
Proof. revert h. induction l1 as [|c l1 IH]; intros h; cbn; [done|]. destruct (host_step h c); cbn; auto. Qed.

Lemma host_run_inv (P : Host → Prop) (allowed : HostCall → Prop) l h h' :
  (∀ h c h', P h → allowed c → host_step h c = Ok h' → P h') → Forall allowed l →
  P h → host_run h l = Ok h' → P h'.
Proof.
  intros Hstep. revert h. induction l as [|c l IH]; intros h Hl HP; cbn; [by intros [= <-]|].
  apply Forall_cons in Hl as [Hc Hl]. destruct (host_step h c) as [h1| |] eqn:E; cbn; [|done..]. eauto.
Qed.

Lemma after_ok {E} h (m : res E Host) h' : after h m = Ok h' → m = Ok h' ∨ h' = h.
Proof. destruct m; cbn; intros [= <-]; auto. Qed.

(** ** Routes only change by their scheduler, and a closed one stays closed *)

Definition closed (r : CrmRoute) : Prop := route_admission (cr_scheduler r) = RouteClosed.
Definition keeps_closed (f : SchedulerState → SchedulerState) : Prop :=
  ∀ s, route_admission s = RouteClosed → route_admission (f s) = RouteClosed.

Definition evolves (l l' : list CrmRoute) : Prop :=
  ∀ n r, l !! n = Some r →
    ∃ r', l' !! n = Some r' ∧ cr_spec r' = cr_spec r ∧ cr_route_uid r' = cr_route_uid r ∧ (closed r → closed r').

Lemma evolves_refl l : evolves l l.
Proof. intros n r ?. eauto 10. Qed.

Lemma evolves_trans l1 l2 l3 : evolves l1 l2 → evolves l2 l3 → evolves l1 l3.
Proof.
  intros H1 H2 n r Hr. destruct (H1 _ _ Hr) as (r' & Hr' & ? & ? & ?). destruct (H2 _ _ Hr') as (r'' & ? & ? & ? & ?).
  exists r''. repeat split; [done|congruence..|auto].
Qed.

Lemma evolves_app l r : evolves l (l ++ [r]).
Proof. intros n r' ?. exists r'. split; [by apply lookup_app_l_Some|done]. Qed.

Lemma evolves_alter l n f : keeps_closed f → evolves l (alter (with_scheduler f) n l).
Proof.
  intros Hf m r Hr. destruct (decide (n = m)) as [->|].
  - exists (with_scheduler f r). rewrite list_lookup_alter_eq, Hr. repeat split. apply Hf.
  - exists r. by rewrite list_lookup_alter_ne.
Qed.

Lemma keeps_close : keeps_closed close.
Proof. by intros s. Qed.

Lemma keeps_commit : keeps_closed (fun s => (commit_awaiting_admission s).1).
Proof. intros s Hs. unfold commit_awaiting_admission. rewrite bool_decide_false; [done|congruence]. Qed.

Lemma keeps_open : keeps_closed (fun s => (open_admission_for_registration s).1).
Proof. intros s Hs. unfold open_admission_for_registration. rewrite bool_decide_false; [done|congruence]. Qed.

Lemma schedule_route inner a work s : route_admission (schedule inner a work s) = route_admission s.
Proof.
  destruct work as [m gen|p|p|g]; cbn [schedule].
  - destruct (reserve_pending_with_generation inner a s m gen) as [[s' p]| |] eqn:E; [|done..].
    unfold reserve_pending_with_generation in E. repeat (apply bind_ok in E as (? & _ & E)). simplify_eq. done.
  - destruct (activate_ready inner a s p) as [[[s' g]|]| |] eqn:E; [|done..].
    unfold activate_ready in E. apply bind_ok in E as (? & _ & E). case_match; simplify_eq. done.
  - destruct (drop_permit s p) as [s'| |] eqn:E; [|done..].
    unfold drop_permit in E. repeat (apply bind_ok in E as (? & _ & E)). by simplify_eq.
  - destruct (drop_guard s g) as [s'| |] eqn:E; [|done..].
    unfold drop_guard in E. repeat (apply bind_ok in E as (? & _ & E)). by simplify_eq.
Qed.

Lemma keeps_schedule inner a work : keeps_closed (schedule inner a work).
Proof. intros s. by rewrite schedule_route. Qed.

Create HintDb host discriminated.
#[export] Hint Resolve evolves_refl evolves_app evolves_alter keeps_close keeps_commit keeps_open keeps_schedule : host.

(** ** What a step does *)

Definition key (r : PendingRouteReservation) : str * str * nat * Z :=
  (pr_name r, pr_token r, pr_route r, pr_generation r).

Definition closed_at (routes : list CrmRoute) (n : nat) : Prop := ∃ r, routes !! n = Some r ∧ closed r.

Lemma closed_at_evolves l l' n : evolves l l' → closed_at l n → closed_at l' n.
Proof. intros He (r & Hr & Hc). destruct (He _ _ Hr) as (r' & ? & _ & _ & ?). exists r'. auto. Qed.

Lemma closed_at_alter l n m f : keeps_closed f → closed_at l n → closed_at (alter (with_scheduler f) m l) n.
Proof. intros Hf. by apply closed_at_evolves, evolves_alter. Qed.

(** Steps that leave names, owners and lifecycle alone: schedulers move, reservations
    change stage, and removals are added for closed routes only. *)
Record quiet h h' : Prop := {
  q_routes : evolves (ho_routes h) (ho_routes h');
  q_length : length (ho_routes h') = length (ho_routes h);
  q_dispatcher : ho_dispatcher h' = ho_dispatcher h;
  q_removed : ho_removed h' = ho_removed h;
  q_pending : ho_pending h' = ho_pending h;
  q_admission : ho_admission h' = ho_admission h;
  q_lifecycle : ho_lifecycle h' = ho_lifecycle h;
  q_shutdown : ho_shutdown h' = ho_shutdown h;
  q_loop : ho_loop h' = ho_loop h;
  q_reservations : key <$> ho_reservations h' = key <$> ho_reservations h;
  q_removals : ∀ name n, (name, n) ∈ ho_removals h' → (name, n) ∈ ho_removals h ∨ closed_at (ho_routes h') n }.

Inductive life h : AdmissionState → ServerLifecycleState → bool → bool → AcceptLoop → Prop :=
| life_start a loop :
    is_running (ho_lifecycle h) = false →
    (a = ho_admission h ∨ begin_start (ho_admission h) = Ok a) →
    loop = ho_loop h ∨ ho_loop h = NoLoop ∧ loop = Entering →
    life h a Starting false false loop
| life_shutdown :
    life h (begin_drain (ho_admission h)) (if is_running (ho_lifecycle h) then Stopping else ho_lifecycle h) true
      (ho_run_entered h) (ho_loop h)
| life_terminate a :
    terminate (ho_admission h) = Ok a → life h a (ho_lifecycle h) (ho_shutdown h) (ho_run_entered h) (ho_loop h)
| life_end l :
    life h (ho_admission h) l (ho_shutdown h) (ho_run_entered h) NoLoop
| life_enter entered loop :
    ho_loop h = NoLoop ∧ ho_lifecycle h = Starting ∨ ho_loop h = Entering →
    loop = Entering ∨ loop = Binding →
    life h (ho_admission h) (ho_lifecycle h) (ho_shutdown h) entered loop
| life_ready :
    ho_loop h = Binding → life h (ho_admission h) LReady (ho_shutdown h) (ho_run_entered h) Serving
| life_see :
    ho_loop h = Serving → ho_shutdown h = true →
    life h (ho_admission h) Stopping (ho_shutdown h) (ho_run_entered h) (Closing None)
| life_snapshot :
    ho_loop h = Closing None →
    life h (ho_admission h) (ho_lifecycle h) (ho_shutdown h) (ho_run_entered h)
      (Closing (Some (map_to_list (ho_dispatcher h)).*2)).

Inductive effect h (c : HostCall) : Host → Prop :=
| eff_quiet h' : quiet h h' → effect h c h'
| eff_reserve spec uid token h' :
    c = Reserve spec uid token → build_route spec = Ok tt → reserve_route h spec uid token = Ok h' → effect h c h'
| eff_register i r f uid :
    ho_reservations h !! i = Some r →
    pr_generation r = generation (ho_admission h) → phase (ho_admission h) = Open →
    ho_dispatcher h !! pr_name r = None → keeps_closed f →
    effect h c (register_reserved (on_route h (pr_route r) f) i r uid)
| eff_resolve i r :
    ho_reservations h !! i = Some r →
    effect h c (set_reservations (set_catalog h (ho_routes h) (ho_dispatcher h) (ho_removed h) (delete (pr_name r) (ho_pending h)))
                  (delete i (ho_reservations h)))
| eff_remove name n rest :
    (name, n) ∈ ho_removals h → (∀ p, p ∈ rest → p ∈ ho_removals h) → ho_dispatcher h !! name = Some n →
    effect h c (set_holders (dispatcher_unregister h name) (ho_reservations h) (ho_tokens h) rest)
| eff_life a l s e loop : life h a l s e loop → effect h c (set_life h a l s e loop)
| eff_reject l : c = RejectStart → effect h c (set_lifecycle_state h l (ho_loop h))
| eff_close_next n rest :
    ho_loop h = Closing (Some (n :: rest)) →
    effect h c (set_lifecycle_state (close_route h n) (ho_lifecycle h) (Closing (Some rest)))
| eff_take_all :
    ho_loop h = Closing (Some []) → effect h c (set_lifecycle_state (take_all h) (ho_lifecycle h) Finishing).

Lemma quiet_refl h : quiet h h.
Proof. split; auto with host. Qed.

Lemma quiet_trans h1 h2 h3 : quiet h1 h2 → quiet h2 h3 → quiet h1 h3.
Proof.
  intros [] []. split; try congruence; [by eapply evolves_trans|].
  intros name n Hin. destruct (q_removals1 _ _ Hin) as [Hin'|]; [|by right].
  destruct (q_removals0 _ _ Hin') as [|]; [by left|right]. by eapply closed_at_evolves.
Qed.

Lemma quiet_on_route h n f : keeps_closed f → quiet h (on_route h n f).
Proof. intros Hf. split; cbn; auto using length_alter with host. Qed.

Lemma key_stage (i : nat) stage (l : list PendingRouteReservation) : key <$> alter (with_stage stage) i l = key <$> l.
Proof.
  apply list_eq. intros j. rewrite !list_lookup_fmap. destruct (decide (i = j)) as [->|].
  - rewrite list_lookup_alter_eq. by destruct (l !! j).
  - by rewrite list_lookup_alter_ne.
Qed.

Lemma quiet_stage h i stage : quiet h (set_stage h i stage).
Proof. split; cbn; auto using key_stage with host. Qed.

Lemma quiet_tokens h tokens : quiet h (set_holders h (ho_reservations h) tokens (ho_removals h)).
Proof. split; cbn; auto with host. Qed.

Lemma quiet_removals h removals :
  (∀ name n, (name, n) ∈ removals → (name, n) ∈ ho_removals h ∨ closed_at (ho_routes h) n) →
  quiet h (set_holders h (ho_reservations h) (ho_tokens h) removals).
Proof. intros. split; cbn; auto with host. Qed.

#[export] Hint Resolve quiet_refl quiet_on_route quiet_stage quiet_tokens : host.

Definition registered_exist h : Prop := ∀ name n, ho_dispatcher h !! name = Some n → is_Some (ho_routes h !! n).

Lemma close_route_closed h n : is_Some (ho_routes h !! n) → closed_at (ho_routes (close_route h n)) n.
Proof.
  intros [r Hr]. exists (with_scheduler close r). cbn. rewrite list_lookup_alter_eq, Hr. done.
Qed.

Lemma close_named_quiet h name : registered_exist h → quiet h (close_named h name) ∧ registered_exist (close_named h name).
Proof.
  intros Hex. unfold close_named. destruct (ho_dispatcher h !! name) as [n|] eqn:E; [|auto with host].
  split.
  - eapply quiet_trans; [apply (quiet_on_route h n close); auto with host|]. apply quiet_removals.
    intros name' n' [?|[= -> ->]%list_elem_of_singleton]%elem_of_app; [by left|right].
    apply close_route_closed; eauto.
  - intros name' n' Hn. cbn in *. destruct (Hex _ _ Hn) as [r Hr].
    destruct (evolves_alter (ho_routes h) n close keeps_close _ _ Hr) as (r' & ? & _). eauto.
Qed.

Lemma unregister_close_quiet h names : registered_exist h → quiet h (unregister_close h names).
Proof.
  unfold unregister_close. generalize (remove_dups names) as l. intros l. revert h.
  induction l as [|name l IH]; intros h Hex; cbn; [auto with host|].
  destruct (close_named_quiet h name Hex). eapply quiet_trans; eauto.
Qed.

Lemma on_route_id h n : on_route h n id = h.
Proof.
  destruct h; unfold on_route, set_catalog; cbn. f_equal. apply list_eq. intros i.
  destruct (decide (n = i)) as [->|]; [|by rewrite list_lookup_alter_ne].
  rewrite list_lookup_alter_eq. by destruct (_ !! i) as [[]|].
Qed.

Lemma commit_effect h c i r admission_open h' answer :
  ho_reservations h !! i = Some r → commit_reserved_route h i r admission_open = Ok (h', answer) → effect h c h'.
Proof.
  unfold commit_reserved_route. intros Hi.
  assert (Hrefuse : ∀ stage, quiet h (set_stage (close_route h (pr_route r)) i stage)).
  { intros stage. eapply quiet_trans; [apply (quiet_on_route h (pr_route r) close)|]; auto with host. }
  destruct (negb _ || _ || _) eqn:Eg; [intros [= <- _]; by apply eff_quiet|].
  apply orb_false_iff in Eg as [[Eg _]%orb_false_iff Ec]. apply negb_false_iff, Z.eqb_eq in Eg.
  apply negb_false_iff, bool_decide_eq_true in Ec.
  destruct (bool_decide (is_Some _)) eqn:Ed; [intros [= <- _]; by apply eff_quiet|].
  apply bool_decide_eq_false, eq_None_not_Some in Ed.
  destruct (ho_routes h !! pr_route r) as [route|]; [|done]. destruct admission_open.
  - intros [= <- _]. pose proof (eff_register h c i r id (cr_route_uid route)) as Hr.
    rewrite on_route_id in Hr. apply Hr; done || by intros s.
  - destruct (_.2); intros [= <- _]; [apply eff_register; auto with host|apply eff_quiet; auto with host].
Qed.

Lemma open_effect h c i token h' answer :
  open_route_admission (set_holders h (ho_reservations h) (delete i (ho_tokens h)) (ho_removals h)) token = Ok (h', answer) →
  effect h c h'.
Proof.
  intros E. apply eff_quiet.
  eapply quiet_trans; [apply (quiet_tokens h (delete i (ho_tokens h)))|].
  revert E. generalize (set_holders h (ho_reservations h) (delete i (ho_tokens h)) (ho_removals h)) as h1. intros h1.
  unfold open_route_admission. repeat case_match; intros; simplify_eq; auto with host.
Qed.

Lemma remove_effect h c i : effect h c (unregister_remove h i).1.
Proof.
  unfold unregister_remove. destruct (ho_removals h !! i) as [[name n]|] eqn:Ei; [|apply eff_quiet; auto with host].
  destruct (from_option _ _ _); cbn; [|apply eff_quiet; auto with host].
  assert (Hrest : ∀ p, p ∈ delete i (ho_removals h) → p ∈ ho_removals h).
  { intros p Hp. by eapply list_elem_of_delete_inv. }
  case_bool_decide as Ed.
  - replace (ho_removals (dispatcher_unregister h name)) with (ho_removals h) by (unfold dispatcher_unregister; by rewrite Ed).
    replace (ho_reservations (dispatcher_unregister h name)) with (ho_reservations h) by (unfold dispatcher_unregister; by rewrite Ed).
    replace (ho_tokens (dispatcher_unregister h name)) with (ho_tokens h) by (unfold dispatcher_unregister; by rewrite Ed).
    eapply eff_remove; [by eapply list_elem_of_lookup_2|done..].
  - apply eff_quiet, quiet_removals. auto.
Qed.

Lemma begin_start_effect h started :
  begin_start_attempt h = Ok (Some started) →
  ∃ a, is_running (ho_lifecycle h) = false ∧ (a = ho_admission h ∨ begin_start (ho_admission h) = Ok a)
       ∧ started = set_life h a Starting false false (ho_loop h).
Proof.
  unfold begin_start_attempt.
  destruct (ho_lifecycle h); try done; intros (a & Ha & [= <-])%bind_ok; exists a; (split; [done|split; [|done]]);
    destruct (_ || _); simplify_eq; auto.
Qed.

Lemma loop_effect h c s h' : loop_step h s = Ok h' → effect h c h'.
Proof.
  unfold loop_step. assert (Hq : effect h c h) by (apply eff_quiet; auto with host).
  destruct s as [| |[]| | | | |ok], (ho_loop h) as [| | | |[[|n rest]|]|] eqn:El; intros E; simplify_eq; try done;
    try (by apply eff_life, life_end); try (by constructor).
  - destruct (bool_decide _) eqn:Es.
    + apply bool_decide_eq_true in Es. injection E as <-. rewrite <-Es. apply eff_life, life_enter; auto.
    + apply bind_ok in E as ([started|] & Hs & [= <-]); [|done].
      apply begin_start_effect in Hs as (a & Hr & Ha & ->). apply (eff_life h c a Starting false false Entering).
      apply life_start; auto.
  - apply eff_life, life_enter; auto.
  - by apply eff_life, life_ready.
  - destruct (ho_shutdown h) eqn:Es; [|done]. by apply eff_life, life_see.
  - by apply eff_life, life_snapshot.
Qed.

Lemma host_effect h c h' : registered_exist h → host_step h c = Ok h' → effect h c h'.
Proof.
  intros Hex. assert (Hq : effect h c h) by (apply eff_quiet; auto with host).
  destruct c as [spec uid token|i o|i|i|i|names|i| | | |n| | |s|inner n work]; cbn [host_step].
  - destruct (build_route spec) as [[]| |] eqn:Eb; [|by intros [= <-]..]. intros [E| ->]%after_ok; [|done]. by eapply eff_reserve.
  - destruct (ho_reservations h !! i) as [r|] eqn:Ei; [|by intros [= <-]]. case_bool_decide; [|by intros [= <-]].
    intros ([h1 answer] & E & [= <-])%bind_ok. by eapply commit_effect.
  - destruct (ho_tokens h !! i) as [token|]; [|by intros [= <-]].
    intros ([h1 answer] & E & [= <-])%bind_ok. by eapply open_effect.
  - intros [= <-]. unfold close_scheduler_for_abort. destruct (_ !! i) as [r|]; [|done].
    apply eff_quiet. eapply quiet_trans; [apply (quiet_on_route h (pr_route r) close)|]; auto with host.
  - intros [= <-]. unfold resolve_reservation. destruct (_ !! i) as [r|] eqn:Ei; [|done].
    case_bool_decide; [|done]. exact (eff_resolve h _ i r Ei).
  - intros [= <-]. by apply eff_quiet, unregister_close_quiet.
  - intros [= <-]. apply remove_effect.
  - intros [(started & Hs & [= <-])%bind_ok| ->]%after_ok; [|done]. destruct started as [started|]; [|done]. cbn.
    apply begin_start_effect in Hs as (a & Hr & Ha & ->). apply eff_life, life_start; auto.
  - intros [= <-]. apply eff_life, life_shutdown.
  - intros [(a & Ha & [= <-])%bind_ok| ->]%after_ok; [|done]. by apply eff_life, life_terminate.
  - intros [= <-]. apply eff_quiet, quiet_on_route; auto with host.
  - intros [= <-]. unfold reject_start_attempt. repeat case_match; try done; by apply eff_reject.
  - intros [= <-]. unfold finalize_runtime_stopped. case_match; apply eff_life, life_end.
  - intros [E| ->]%after_ok; [|done]. by eapply loop_effect.
  - intros [= <-]. apply eff_quiet, quiet_on_route; auto with host.
Qed.

(** ** Names are owned once *)

Definition keys h := key <$> ho_reservations h.
Definition key_name (k : str * str * nat * Z) : str := k.1.1.1.

Definition named (routes : list CrmRoute) (n : nat) (name uid : str) : Prop :=
  ∃ route, routes !! n = Some route ∧ cr_name route = name ∧ cr_route_uid route = uid.

Lemma named_evolves l l' n name uid : evolves l l' → named l n name uid → named l' n name uid.
Proof.
  intros He (r & Hr & <- & <-). destruct (He _ _ Hr) as (r' & ? & Hs & ? & _). exists r'. unfold cr_name. rewrite Hs. auto.
Qed.

Record catalog_ok h : Prop := {
  c_names : NoDup (key_name <$> keys h);
  c_pending : ∀ name info, ho_pending h !! name = Some info →
    ∃ n g, (name, registration_token info, n, g) ∈ keys h ∧ named (ho_routes h) n name (pi_route_uid info);
  c_reserved : ∀ k, k ∈ keys h → is_Some (ho_pending h !! key_name k);
  c_disjoint : ∀ name, is_Some (ho_dispatcher h !! name) → ho_pending h !! name = None ∧ ho_removed h !! name = None;
  c_registered : ∀ name n, ho_dispatcher h !! name = Some n → ∃ uid, named (ho_routes h) n name uid;
  c_size : dispatcher_len h + pending_len h <= MAX_ROUTES }.

Lemma catalog_exist h : catalog_ok h → registered_exist h.
Proof. intros [] name n Hn. destruct (c_registered0 _ _ Hn) as (uid & r & ? & _). eauto. Qed.

Lemma catalog_new : catalog_ok Server_new.
Proof. split; cbn; try done; [apply NoDup_nil_2|by intros ? ?%elem_of_nil]. Qed.

(** A catalog whose names and owners are those of another. *)
Lemma catalog_same h h' :
  evolves (ho_routes h) (ho_routes h') → ho_dispatcher h' = ho_dispatcher h → ho_removed h' = ho_removed h →
  ho_pending h' = ho_pending h → keys h' = keys h → catalog_ok h → catalog_ok h'.
Proof.
  intros He Hd Hr Hp Hk []. unfold dispatcher_len, pending_len in *.
  split; unfold dispatcher_len, pending_len; rewrite ?Hd, ?Hr, ?Hp, ?Hk; auto.
  - intros name info Hi. destruct (c_pending0 _ _ Hi) as (n & g & ? & ?). eauto using named_evolves.
  - intros name n Hn. destruct (c_registered0 _ _ Hn) as (uid & ?). eauto using named_evolves.
Qed.

Lemma catalog_quiet h h' : quiet h h' → catalog_ok h → catalog_ok h'.
Proof. intros []. by apply catalog_same. Qed.

Lemma reserve_route_ok h spec uid token h' :
  reserve_route h spec uid token = Ok h' →
  ho_dispatcher h !! rs_name spec = None ∧ ho_pending h !! rs_name spec = None ∧ dispatcher_len h + pending_len h < MAX_ROUTES
  ∧ h' = set_reservations
           (set_catalog h (ho_routes h ++ [{| cr_spec := spec; cr_route_uid := uid; cr_scheduler := SchedulerState_default |}])
              (ho_dispatcher h) (ho_removed h)
              (<[rs_name spec := {| registration_token := token; pi_route_uid := uid; pi_spec := spec |}]> (ho_pending h)))
           (ho_reservations h ++ [{| pr_name := rs_name spec; pr_token := token; pr_route := length (ho_routes h);
                                     pr_generation := generation (ho_admission h); pr_stage := Held |}]).
Proof.
  unfold reserve_route. intros (? & Ed%guard_err_ok & E)%bind_ok. apply bind_ok in E as (? & Ep%guard_err_ok & E).
  apply bind_ok in E as (? & Es%guard_err_ok & E). do 2 (apply bind_ok in E as (? & _ & E)). injection E as <-.
  apply bool_decide_eq_false, eq_None_not_Some in Ed, Ep. apply Z.leb_gt in Es. auto.
Qed.

Lemma catalog_reserve h spec uid token h' : reserve_route h spec uid token = Ok h' → catalog_ok h → catalog_ok h'.
Proof.
  intros (Ed & Ep & Es & ->)%reserve_route_ok [].
  split; unfold keys; cbn; rewrite ?fmap_app; cbn; fold (keys h).
  - apply NoDup_app. repeat split; [done| |apply NoDup_singleton].
    intros x (k & -> & Hk)%list_elem_of_fmap ?%list_elem_of_singleton. cbn in *.
    destruct (c_reserved0 _ Hk) as [? Hs]. congruence.
  - intros name' info [[<- <-]|[? Hi]]%lookup_insert_Some; cbn.
    + eexists _, _. split; [apply elem_of_app; right; by apply list_elem_of_singleton|].
      eexists. by rewrite list_lookup_middle.
    + destruct (c_pending0 _ _ Hi) as (n & g & ? & ?). exists n, g.
      split; [apply elem_of_app; auto|]. eapply named_evolves; [apply evolves_app|done].
  - intros k [Hk| ->%list_elem_of_singleton]%elem_of_app; apply lookup_insert_is_Some'; cbn; auto.
  - intros name' Hn. destruct (c_disjoint0 _ Hn). split; [|done].
    rewrite lookup_insert_ne; [done|]. intros <-. rewrite Ed in Hn. by destruct Hn.
  - intros name' n Hn. destruct (c_registered0 _ _ Hn) as (uid' & ?). exists uid'.
    eapply named_evolves; [apply evolves_app|done].
  - unfold dispatcher_len, pending_len in *. cbn. rewrite map_size_insert_None by done. lia.
Qed.

Lemma delete_key h i r k :
  NoDup (key_name <$> keys h) → ho_reservations h !! i = Some r →
  k ∈ key <$> delete i (ho_reservations h) → k ∈ keys h ∧ key_name k ≠ pr_name r.
Proof.
  unfold keys. intros Hnd Hi Hk. apply list_elem_of_fmap in Hk as (r' & -> & Hr').
  split; [apply list_elem_of_fmap_2; by eapply list_elem_of_delete_inv|].
  apply list_elem_of_lookup in Hr' as [j Hj]. rewrite list_lookup_delete in Hj.
  rewrite <-list_fmap_compose in Hnd. intros Heq.
  assert (∃ j', j' ≠ i ∧ ho_reservations h !! j' = Some r') as (j' & Hne & Hj').
  { destruct (decide (j < i)%nat); [exists j|exists (S j)]; (split; [lia|done]). }
  apply Hne, (NoDup_lookup _ _ _ (pr_name r) Hnd); rewrite list_lookup_fmap, ?Hj', ?Hi; cbn; by f_equal.
Qed.

Definition resolved h (i : nat) (r : PendingRouteReservation) : Host :=
  set_reservations (set_catalog h (ho_routes h) (ho_dispatcher h) (ho_removed h) (delete (pr_name r) (ho_pending h)))
    (delete i (ho_reservations h)).

Lemma reserved_pending h i r : catalog_ok h → ho_reservations h !! i = Some r → is_Some (ho_pending h !! pr_name r).
Proof.
  intros [] Hi. apply (c_reserved0 (key r)). apply list_elem_of_fmap_2. by eapply list_elem_of_lookup_2.
Qed.

Lemma resolved_len h i r :
  catalog_ok h → ho_reservations h !! i = Some r → dispatcher_len (resolved h i r) + pending_len (resolved h i r) < MAX_ROUTES.
Proof.
  intros Hc Hi. destruct (reserved_pending _ _ _ Hc Hi) as [info Hp]. destruct Hc.
  unfold dispatcher_len, pending_len in *. cbn. rewrite map_size_delete, Hp.
  assert (size (ho_pending h) ≠ 0%nat) by (intros E%map_size_empty_inv; by rewrite E in Hp). lia.
Qed.

Lemma catalog_resolve h i r : catalog_ok h → ho_reservations h !! i = Some r → catalog_ok (resolved h i r).
Proof.
  intros Hc Hi. pose proof (resolved_len _ _ _ Hc Hi). destruct Hc. split; unfold keys; cbn.
  - eapply sublist_NoDup; [exact c_names0|]. unfold keys. do 2 apply fmap_sublist. apply sublist_delete.
  - intros name info [Hne Hp]%lookup_delete_Some. destruct (c_pending0 _ _ Hp) as (n & g & Hk & ?).
    exists n, g. split; [|done]. apply list_elem_of_fmap in Hk as (r' & Hk & Hr'). rewrite Hk. apply list_elem_of_fmap_2.
    apply list_elem_of_lookup in Hr' as [j Hj]. assert (j ≠ i) by (intros ->; simplify_eq; by injection Hk).
    apply list_elem_of_lookup. destruct (decide (j < i)%nat).
    + exists j. by rewrite list_lookup_delete_lt.
    + exists (pred j). rewrite list_lookup_delete_ge by lia. by replace (S (pred j)) with j by lia.
  - intros k Hk. destruct (delete_key h i r k c_names0 Hi Hk) as [Hin Hne]. rewrite lookup_delete_ne by done. auto.
  - intros name Hn. destruct (c_disjoint0 _ Hn). split; [|done]. by apply lookup_delete_None; right.
  - done.
  - lia.
Qed.

Lemma catalog_register h name n uid :
  catalog_ok h → ho_dispatcher h !! name = None → ho_pending h !! name = None →
  dispatcher_len h + pending_len h < MAX_ROUTES → named (ho_routes h) n name uid → catalog_ok (dispatcher_register h name n).
Proof.
  intros [] Hd Hp Hlen Hn. split; cbn; auto.
  - intros name' [->|[Hne Hn']]%lookup_insert_is_Some.
    + by rewrite lookup_delete_eq.
    + rewrite lookup_delete_ne by done. auto.
  - intros name' n' [[-> ->]|[? ?]]%lookup_insert_Some; eauto.
  - unfold dispatcher_len, pending_len in *. cbn. rewrite map_size_insert_None by done. lia.
Qed.

Lemma reserved_named h i r : catalog_ok h → ho_reservations h !! i = Some r →
  (∀ n' t' g', (pr_name r, t', n', g') ∈ keys h → n' = pr_route r) ∧ ∃ uid, named (ho_routes h) (pr_route r) (pr_name r) uid.
Proof.
  intros Hc Hi. destruct (reserved_pending _ _ _ Hc Hi) as [info Hp]. destruct Hc.
  assert (Huniq : ∀ n' t' g', (pr_name r, t', n', g') ∈ keys h → n' = pr_route r).
  { intros n' t' g' Hk. apply list_elem_of_lookup in Hk as [j Hj]. unfold keys in *.
    assert (j = i) as ->.
    { apply (NoDup_lookup _ _ _ (pr_name r) c_names0); rewrite list_lookup_fmap; [by rewrite Hj|].
      by rewrite list_lookup_fmap, Hi. }
    rewrite list_lookup_fmap, Hi in Hj. by injection Hj. }
  split; [done|]. destruct (c_pending0 _ _ Hp) as (n & g & Hk & Hn). apply Huniq in Hk as ->. eauto.
Qed.

Lemma catalog_commit h i r f uid :
  catalog_ok h → ho_reservations h !! i = Some r → ho_dispatcher h !! pr_name r = None → keeps_closed f →
  catalog_ok (register_reserved (on_route h (pr_route r) f) i r uid).
Proof.
  intros Hc Hi Hd Hf. set (h1 := on_route h (pr_route r) f).
  assert (Hc1 : catalog_ok h1) by (apply (catalog_quiet h); [by apply quiet_on_route|done]).
  destruct (reserved_named h1 i r Hc1 Hi) as (_ & uid' & Hn).
  apply (catalog_same (dispatcher_register (resolved h1 i r) (pr_name r) (pr_route r))); try done.
  { cbn. apply evolves_refl. }
  eapply catalog_register; [by apply catalog_resolve|done| |by apply resolved_len|exact Hn].
  cbn. by rewrite lookup_delete_eq.
Qed.

Lemma catalog_unregister h name : catalog_ok h → catalog_ok (dispatcher_unregister h name).
Proof.
  intros Hc. unfold dispatcher_unregister. destruct (ho_dispatcher h !! name) as [n|] eqn:E; [|done].
  destruct Hc. split; cbn; auto.
  - intros name' Hn. destruct (decide (name = name')) as [->|Hne]; [rewrite lookup_delete_eq in Hn; by destruct Hn|].
    rewrite lookup_delete_ne in Hn by done. rewrite lookup_insert_ne by done. auto.
  - intros name' n' [? ?]%lookup_delete_Some. eauto.
  - unfold dispatcher_len, pending_len in *. cbn. rewrite map_size_delete, E. lia.
Qed.

Lemma catalog_take_all h : catalog_ok h → catalog_ok (take_all h).
Proof.
  intros []. split; cbn; auto; [by intros ? [? ?]| |]; [done|].
  unfold dispatcher_len, pending_len in *. cbn. rewrite map_size_empty. lia.
Qed.

Lemma catalog_step h c h' : catalog_ok h → host_step h c = Ok h' → catalog_ok h'.
Proof.
  intros Hc E. apply host_effect in E; [|by apply catalog_exist].
  destruct E as [h' Hq|spec uid token h' _ _ E|i r f uid Hi _ _ Hd Hf|i r Hi|name n rest _ _ Hd|a l s e loop Hl|l _|n rest _|_].
  - by eapply catalog_quiet.
  - by eapply catalog_reserve.
  - by apply catalog_commit.
  - by apply catalog_resolve.
  - apply (catalog_same (dispatcher_unregister h name)); [apply evolves_refl|done..| |by apply catalog_unregister].
    unfold keys, dispatcher_unregister; by rewrite Hd.
  - by apply (catalog_same h); [apply evolves_refl|..].
  - by apply (catalog_same h); [apply evolves_refl|..].
  - apply (catalog_same h); try done. by apply evolves_alter, keeps_close.
  - by apply (catalog_same (take_all h)); [apply evolves_refl|..|apply catalog_take_all].
Qed.

Lemma catalog_run h l h' : catalog_ok h → host_run h l = Ok h' → catalog_ok h'.
Proof.
  intros Hc. apply (host_run_inv catalog_ok (fun _ => True)); [|by apply Forall_true|done].
  intros h1 c h2 Hc1 _. by apply catalog_step.
Qed.

(** ** A reservation that outlived its admission never registers *)

Definition outlived (a : AdmissionState) (g : Z) : Prop := g < generation a ∨ g = generation a ∧ phase a ≠ Open.

Lemma outlived_next a a' g : outlived a g → begin_start a = Ok a' ∨ terminate a = Ok a' → outlived a' g.
Proof.
  intros Ho Ha. enough (generation a' = generation a + 1 ∨ a' = a) as [E| ->]; [destruct Ho; left; lia|done|].
  unfold begin_start, terminate, next_generation, checked_add in Ha. destruct Ha as [Ha|Ha]; repeat case_match; simplify_eq/=; auto.
Qed.

Lemma outlived_drain a g : outlived a g → outlived (begin_drain a) g.
Proof. unfold begin_drain, outlived. case_bool_decide; cbn; intuition. Qed.

Lemma outlived_life h a l s e loop g : life h a l s e loop → outlived (ho_admission h) g → outlived a g.
Proof. intros []; try done; eauto using outlived_next, outlived_drain. destruct H0 as [->|]; eauto using outlived_next. Qed.

(** Route [n], reserved in generation [g], is fenced out. *)
Record fenced (n : nat) (g : Z) h : Prop := {
  f_outlived : outlived (ho_admission h) g;
  f_route : (n < length (ho_routes h))%nat;
  f_owner : ∀ k, k ∈ keys h → k.1.2 = n → k.2 = g;
  f_absent : ∀ name, ho_dispatcher h !! name ≠ Some n }.

Lemma fenced_same n g h h' :
  outlived (ho_admission h') g → (length (ho_routes h) ≤ length (ho_routes h'))%nat →
  (∀ k, k ∈ keys h' → k ∈ keys h) → ho_dispatcher h' ⊆ ho_dispatcher h → fenced n g h → fenced n g h'.
Proof.
  intros Ho Hl Hk Hd []. split; auto; [lia|]. intros name Hn. eapply f_absent0. by eapply lookup_weaken.
Qed.

Lemma keys_delete h i k : k ∈ key <$> delete i (ho_reservations h) → k ∈ keys h.
Proof.
  intros (r & -> & Hr)%list_elem_of_fmap. apply list_elem_of_fmap_2. by eapply list_elem_of_delete_inv.
Qed.

Lemma fenced_step n g h c h' : catalog_ok h ∧ fenced n g h → host_step h c = Ok h' → catalog_ok h' ∧ fenced n g h'.
Proof.
  intros [Hc Hf] E. split; [by eapply catalog_step|]. apply host_effect in E; [|by apply catalog_exist].
  destruct E as [h' Hq|spec uid token h' _ _ E|i r f uid Hi Hg Ho Hd _|i r Hi|name n' rest _ _ Hd|a l s e loop Hl|l _|n' rest _|_].
  - destruct Hq. apply (fenced_same n g h); try done; rewrite ?q_admission0, ?q_length0, ?q_dispatcher0; auto; [apply Hf|].
    unfold keys. by rewrite q_reservations0.
  - apply reserve_route_ok in E as (_ & _ & _ & ->). destruct Hf. split; cbn; auto.
    + rewrite length_app. cbn. lia.
    + intros k. unfold keys. cbn. rewrite fmap_app. intros [?| ->%list_elem_of_singleton]%elem_of_app; cbn; [auto|lia].
  - destruct Hf. split; cbn; [done|by rewrite length_alter|by intros k ?%keys_delete; auto|].
    intros name [[? Hr]|[? Hn]]%lookup_insert_Some; [|by eapply f_absent0].
    assert (pr_generation r = g) as Hrg.
    { apply (f_owner0 (key r)); [apply list_elem_of_fmap_2; by eapply list_elem_of_lookup_2|done]. }
    destruct f_outlived0 as [?|[_ ?]]; [lia|done].
  - apply (fenced_same n g h); try done; [apply Hf|]. intros k. by apply keys_delete.
  - apply (fenced_same n g h); unfold keys, dispatcher_unregister; rewrite ?Hd; cbn; try done; [apply Hf|apply delete_subseteq].
  - apply (fenced_same n g h); try done. cbn. by eapply outlived_life, Hf.
  - apply (fenced_same n g h); try done. apply Hf.
  - apply (fenced_same n g h); cbn; try done; [apply Hf|by rewrite length_alter].
  - apply (fenced_same n g h); cbn; try done; [apply Hf|apply map_empty_subseteq].
Qed.

(** ** A route leaves the dispatcher closed *)

Definition phase_of h : AdmissionPhase := phase (ho_admission h).

Record retiring h : Prop := {
  r_shutdown : ho_shutdown h = true → phase_of h ≠ Open;
  r_running : ho_loop h ≠ NoLoop → is_running (ho_lifecycle h) = true;
  r_closing : match ho_loop h with
              | Closing rest => ho_lifecycle h = Stopping ∧ phase_of h ≠ Open
                  ∧ (∀ l name n, rest = Some l → ho_dispatcher h !! name = Some n → n ∈ l ∨ closed_at (ho_routes h) n)
              | Finishing => ho_lifecycle h = Stopping ∧ phase_of h ≠ Open
              | _ => True
              end;
  r_removals : ∀ name n, (name, n) ∈ ho_removals h → closed_at (ho_routes h) n }.

Lemma retiring_new : retiring Server_new.
Proof. split; cbn; try done. by intros ? ? ?%elem_of_nil. Qed.

Lemma retiring_quiet h h' : quiet h h' → retiring h → retiring h'.
Proof.
  intros [] []. unfold phase_of in *.
  split; unfold phase_of; rewrite ?q_admission0, ?q_lifecycle0, ?q_shutdown0, ?q_loop0, ?q_dispatcher0; auto.
  - destruct (ho_loop h); try done. destruct r_closing0 as (? & ? & Hc). repeat split; [done..|].
    intros l name n Hl Hn. destruct (Hc l name n Hl Hn); eauto using closed_at_evolves.
  - intros name n Hin. destruct (q_removals0 _ _ Hin); eauto using closed_at_evolves.
Qed.

(** Steps that keep the lifecycle and do not publish a route. *)
Lemma retiring_same h h' :
  evolves (ho_routes h) (ho_routes h') → ho_dispatcher h' ⊆ ho_dispatcher h → ho_admission h' = ho_admission h →
  ho_lifecycle h' = ho_lifecycle h → ho_shutdown h' = ho_shutdown h → ho_loop h' = ho_loop h →
  (∀ p, p ∈ ho_removals h' → p ∈ ho_removals h) → retiring h → retiring h'.
Proof.
  intros He Hd Ha Hl Hs Ho Hr []. unfold phase_of in *.
  split; unfold phase_of; rewrite ?Ha, ?Hl, ?Hs, ?Ho; eauto using closed_at_evolves.
  destruct (ho_loop h); try done. destruct r_closing0 as (? & ? & Hc). repeat split; [done..|].
  intros l name n E Hn. destruct (Hc l name n E); eauto using closed_at_evolves, lookup_weaken.
Qed.

Lemma terminate_closed a a' : terminate a = Ok a' → phase a' ≠ Open.
Proof.
  unfold terminate, next_generation. case_bool_decide as E; [intros [= <-]; by rewrite E|].
  intros (g & _ & [= <-])%bind_ok. done.
Qed.

Lemma begin_drain_closed a : phase (begin_drain a) ≠ Open.
Proof. unfold begin_drain. by case_bool_decide. Qed.

Lemma retiring_life h a l s e loop : life h a l s e loop → retiring h → retiring (set_life h a l s e loop).
Proof.
  intros Hl Hr. pose proof (r_closing h Hr) as Hc. destruct Hr as [Hsh Hrun _ Hrem]. unfold phase_of in *.
  destruct Hl as [a loop Hno Ha Hloop| |a Ha|l|e loop Hin Hloop|Hb|Hs Hst|Hs]; split; unfold phase_of; cbn; auto.
  - assert (ho_loop h = NoLoop) as El by (destruct (ho_loop h); [done|rewrite Hrun in Hno; done..]).
    rewrite El in Hloop. by destruct Hloop as [->|[_ ->]].
  - intros _. apply begin_drain_closed.
  - intros H%Hrun. by rewrite H.
  - destruct (ho_loop h) eqn:El; try done; destruct Hc as [Hl Hc]; rewrite Hl; cbn;
      (split; [done|]); [split; [apply begin_drain_closed|apply Hc]|apply begin_drain_closed].
  - intros _. by eapply terminate_closed.
  - pose proof (terminate_closed _ _ Ha). destruct (ho_loop h) eqn:El; try done; destruct Hc as [Hl Hc]; [|done].
    repeat split; [done..|apply Hc].
  - intros _. destruct Hin as [[_ ->]|Hin]; [done|]. apply Hrun. by rewrite Hin.
  - by destruct Hloop as [-> | ->].
  - repeat split; [by apply Hsh|done].
  - intros _. apply Hrun. by rewrite Hs.
  - rewrite Hs in Hc. destruct Hc as (? & ? & _). repeat split; [done..|].
    intros l name n [= <-] Hn. left. apply list_elem_of_fmap. exists (name, n). by rewrite elem_of_map_to_list.
Qed.

Lemma retiring_step h c h' :
  catalog_ok h ∧ retiring h → c ≠ RejectStart → host_step h c = Ok h' → catalog_ok h' ∧ retiring h'.
Proof.
  intros [Hc Hr] Hne E. split; [by eapply catalog_step|]. apply host_effect in E; [|by apply catalog_exist].
  destruct E as [h' Hq|spec uid token h' _ _ E|i r f uid Hi Hg Ho Hd Hf|i r Hi|name n' rest _ Hrest Hd|a l s e loop Hl|l Hl|n' rest Hl|Hl].
  - by eapply retiring_quiet.
  - apply reserve_route_ok in E as (_ & _ & _ & ->). apply (retiring_same h); try done. apply evolves_app.
  - destruct Hr. unfold phase_of in *. split; unfold phase_of; cbn; auto.
    + destruct (ho_loop h); try done; destruct r_closing0 as [_ Hcl]; by destruct Hcl.
    + intros name n ?%r_removals0. by apply closed_at_alter.
  - by apply (retiring_same h); [apply evolves_refl|..].
  - unfold dispatcher_unregister. rewrite Hd. apply (retiring_same h); try done; [apply evolves_refl|apply delete_subseteq].
  - by apply retiring_life.
  - done.
  - destruct Hr. unfold phase_of in *. rewrite Hl in *. destruct r_closing0 as (? & ? & Hcl).
    split; unfold phase_of; cbn; auto.
    + repeat split; [done..|]. intros l name n [= <-] Hn. destruct (Hcl _ name n eq_refl Hn) as [[->|?]%elem_of_cons|?];
        [right|by left|right].
      * by eapply close_route_closed, catalog_exist.
      * by apply closed_at_alter.
    + intros name n ?%r_removals0. by apply closed_at_alter.
  - destruct Hr. unfold phase_of in *. rewrite Hl in *. destruct r_closing0 as (? & ? & _).
    split; unfold phase_of; cbn; auto.
Qed.

(** Registered under its name, or closed for good. *)
Definition kept_or_closed (name : str) (n : nat) h : Prop :=
  ho_dispatcher h !! name = Some n ∨ closed_at (ho_routes h) n.

Lemma kept_same name n h h' :
  evolves (ho_routes h) (ho_routes h') → ho_dispatcher h ⊆ ho_dispatcher h' → kept_or_closed name n h → kept_or_closed name n h'.
Proof. intros He Hd [|]; [left; by eapply lookup_weaken|right; by eapply closed_at_evolves]. Qed.

Lemma kept_step name n h c h' :
  (catalog_ok h ∧ retiring h) ∧ kept_or_closed name n h → c ≠ RejectStart → host_step h c = Ok h' →
  (catalog_ok h' ∧ retiring h') ∧ kept_or_closed name n h'.
Proof.
  intros [[Hc Hr] Hk] Hne E. split; [by eapply retiring_step|]. apply host_effect in E; [|by apply catalog_exist].
  destruct E as [h' Hq|spec uid token h' _ _ E|i r f uid Hi Hg Ho Hd Hf|i r Hi|name' n' rest Hrem Hrest Hd|a l s e loop Hl|l Hl|n' rest Hl|Hl].
  - destruct Hq. apply (kept_same name n h); [done|by rewrite q_dispatcher0|done].
  - apply reserve_route_ok in E as (_ & _ & _ & ->). apply (kept_same name n h); try done. apply evolves_app.
  - apply (kept_same name n h); cbn; try done; [by apply evolves_alter|by apply insert_subseteq].
  - apply (kept_same name n h); try done. apply evolves_refl.
  - unfold dispatcher_unregister. rewrite Hd. destruct Hk as [Hk|Hk]; [|by right].
    destruct (decide (name' = name)) as [->|]; [right|left; cbn; by rewrite lookup_delete_ne].
    cbn. apply (r_removals _ Hr name). by simplify_eq.
  - apply (kept_same name n h); try done. apply evolves_refl.
  - done.
  - apply (kept_same name n h); cbn; try done. by apply evolves_alter, keeps_close.
  - right. destruct Hk as [Hk|]; [|done]. pose proof (r_closing _ Hr) as Hcl. rewrite Hl in Hcl. destruct Hcl as (_ & _ & Hcl).
    by destruct (Hcl _ name n eq_refl Hk) as [?%elem_of_nil|].
Qed.

(** ** Properties *)

Lemma reserved_absent h r name : catalog_ok h → r ∈ ho_reservations h → ho_dispatcher h !! name ≠ Some (pr_route r).
Proof.
  intros Hc Hr Hn. apply list_elem_of_lookup in Hr as [i Hi].
  destruct (reserved_pending _ _ _ Hc Hi) as [info Hp], (reserved_named _ _ _ Hc Hi) as (_ & uid & route & Hroute & Hname & _).
  destruct (c_registered _ Hc _ _ Hn) as (uid' & route' & Hroute' & Hname' & _).
  assert (name = pr_name r) as -> by congruence. destruct (c_disjoint _ Hc (pr_name r)); [by eexists|congruence].
Qed.

Lemma reserved_once h r r' :
  catalog_ok h → r ∈ ho_reservations h → r' ∈ ho_reservations h → pr_route r = pr_route r' → key r = key r'.
Proof.
  intros Hc [i Hi]%list_elem_of_lookup [j Hj]%list_elem_of_lookup Heq.
  destruct (reserved_named _ _ _ Hc Hi) as (_ & ? & ? & ? & Hn & _), (reserved_named _ _ _ Hc Hj) as (_ & ? & ? & ? & Hn' & _).
  assert (pr_name r = pr_name r') as Hnames by congruence. destruct Hc as [Hnd _ _ _ _ _]. unfold keys in Hnd.
  assert (i = j); [|congruence].
  apply (NoDup_lookup _ _ _ (pr_name r) Hnd); rewrite !list_lookup_fmap, ?Hi, ?Hj; cbn; [done|by rewrite Hnames].
Qed.

Lemma attest_reservation h r : catalog_ok h → r ∈ ho_reservations h →
  ∃ info, attest_pending_route h (pr_name r) (pr_token r) = Ok info
          ∧ named (ho_routes h) (pr_route r) (pr_name r) (pi_route_uid info).
Proof.
  intros Hc Hr. pose proof Hr as [i Hi]%list_elem_of_lookup. destruct (reserved_pending _ _ _ Hc Hi) as [info Hp].
  destruct (c_pending _ Hc _ _ Hp) as (n & g & Hk & Hn). unfold keys in Hk. apply list_elem_of_fmap in Hk as (r' & Hk & Hr').
  injection Hk as Hname Htoken Hn' _.
  assert (key r = key r') as Heq.
  { apply (reserved_once h); try done. destruct (reserved_named _ _ _ Hc Hi) as [Huniq _]. symmetry. rewrite <-Hn'.
    eapply Huniq, list_elem_of_fmap. exists r'. split; [|done]. unfold key. by rewrite Hname, Hn'. }
  injection Heq as _ Ht Hroute _. exists info. split; [|by rewrite Hroute, <-Hn'].
  unfold attest_pending_route. rewrite Hp, bool_decide_true; [done|congruence].
Qed.

(** At every point of every run a route name is free, held by exactly one reservation
    or registered once: a registered name is neither pending nor among the removed, two
    reservations never share a name, the attestation of a pending route accepts exactly the
    token of the reservation that holds it, and registered and pending routes together
    never exceed the limit of the wire. *)
Theorem route_names_exclusive (l : list HostCall) (h : Host) :
  host_run Server_new l = Ok h →
  (∀ name, is_Some (ho_dispatcher h !! name) → ho_pending h !! name = None ∧ ho_removed h !! name = None)
  ∧ NoDup (pr_name <$> ho_reservations h)
  ∧ (∀ name token, is_ok (attest_pending_route h name token) = true ↔
       ∃ r, r ∈ ho_reservations h ∧ pr_name r = name ∧ pr_token r = token)
  ∧ dispatcher_len h + pending_len h <= MAX_ROUTES.
Proof.
  intros Hc%catalog_run; [|apply catalog_new]. pose proof Hc as [Hnd Hpend _ Hdis _ Hlen].
  split; [exact Hdis|]. split; [|split; [|exact Hlen]].
  - unfold keys in Hnd. by rewrite <-list_fmap_compose in Hnd.
  - intros name token. split.
    + unfold attest_pending_route. destruct (ho_pending h !! name) as [info|] eqn:Hp; [|done].
      case_bool_decide as Ht; [|done]. intros _. destruct (Hpend _ _ Hp) as (n & g & Hk & _).
      apply list_elem_of_fmap in Hk as (r & Hk & Hr). exists r. injection Hk as -> Htr _ _. by rewrite <-Htr.
    + intros (r & Hr & <- & <-). destruct (attest_reservation h r Hc Hr) as (info & -> & _). done.
Qed.

(** A reservation whose admission ended, because the host began to drain, was closed to
    business or was started again, never registers its route, whatever happens later: a
    restart does not revive it. *)
Theorem stale_reservation_fenced (l1 l2 : list HostCall) (h1 h2 : Host) (r : PendingRouteReservation) (name : str) :
  host_run Server_new l1 = Ok h1 → r ∈ ho_reservations h1 → outlived (ho_admission h1) (pr_generation r) →
  host_run h1 l2 = Ok h2 → ho_dispatcher h2 !! name ≠ Some (pr_route r).
Proof.
  intros Hc%catalog_run Hr Ho Hrun; [|apply catalog_new].
  assert (catalog_ok h2 ∧ fenced (pr_route r) (pr_generation r) h2) as [_ Hf]; [|apply Hf].
  revert Hrun. apply (host_run_inv (fun h => catalog_ok h ∧ fenced (pr_route r) (pr_generation r) h) (fun _ => True));
    [intros ? ? ? ? _; by apply fenced_step|by apply Forall_true|]. split; [done|]. split; [done| | |].
  - apply list_elem_of_lookup in Hr as [i Hi]. destruct (reserved_named _ _ _ Hc Hi) as (_ & ? & ? & ? & _).
    by eapply lookup_lt_Some.
  - intros k (r' & -> & Hr')%list_elem_of_fmap Hk. cbn in *. by injection (reserved_once h1 r r' Hc Hr Hr' (eq_sym Hk)).
  - intros name'. by apply reserved_absent.
Qed.

(** C20 A route that was registered and is not any more admits no new work, ever: between
    its registration and its removal its scheduler was closed, by unregistration or by the
    shutdown of the host, under every interleaving of registrations, removals, starts and
    stops (starts are not rejected by hand, which no part of the host does). *)
Theorem removed_route_closed (l1 l2 : list HostCall) (h1 h2 : Host) (name : str) (n : nat) :
  Forall (fun c => c ≠ RejectStart) (l1 ++ l2) → host_run Server_new l1 = Ok h1 → host_run h1 l2 = Ok h2 →
  ho_dispatcher h1 !! name = Some n → ho_dispatcher h2 !! name ≠ Some n → closed_at (ho_routes h2) n.
Proof.
  intros [Hl1 Hl2]%Forall_app H1 H2 Hn Hgone.
  assert (catalog_ok h1 ∧ retiring h1) as Hinv.
  { revert H1. apply (host_run_inv (fun h => catalog_ok h ∧ retiring h) (fun c => c ≠ RejectStart)); [|done|].
    - intros ? ? ? ? ?. by apply retiring_step.
    - split; [apply catalog_new|apply retiring_new]. }
  assert ((catalog_ok h2 ∧ retiring h2) ∧ kept_or_closed name n h2) as [_ [?|?]]; [|done|done].
  revert H2. apply (host_run_inv (fun h => (catalog_ok h ∧ retiring h) ∧ kept_or_closed name n h) (fun c => c ≠ RejectStart)); [|done|].
  - intros ? ? ? ? ?. by apply kept_step.
  - split; [done|by left].
Qed.

Definition ran h (l : list HostCall) : Host := match host_run h l with Ok h' => h' | _ => h end.

Lemma ran_ok h l : is_ok (host_run h l) = true → host_run h l = Ok (ran h l).
Proof. unfold ran. by destruct (host_run h l). Qed.

Definition sample_name : str := [Byte.x67].

Definition sample_spec (name : str) : RouteBuildSpec :=
  {| rs_name := name; rs_crm_ns := [Byte.x6e]; rs_crm_name := [Byte.x6d]; rs_crm_ver := [Byte.x31];
     rs_abi_hash := repeat Byte.x61 64; rs_signature_hash := repeat Byte.x62 64; rs_method_names := [[Byte.x66]] |}.

(** A reservation, committed closed and then opened, beside a second one. *)
Definition sample_names : list HostCall :=
  [Reserve (sample_spec sample_name) [Byte.x31] [Byte.x61]; Commit 0 false; OpenAdmission 0; Reserve (sample_spec [Byte.x68]) [Byte.x32] [Byte.x62]].

Lemma route_names_witness :
  host_run Server_new sample_names = Ok (ran Server_new sample_names)
  ∧ dispatcher_len (ran Server_new sample_names) = 1 ∧ pending_len (ran Server_new sample_names) = 1
  ∧ NoDup (pr_name <$> ho_reservations (ran Server_new sample_names)).
Proof.
  assert (E : host_run Server_new sample_names = Ok (ran Server_new sample_names)) by (apply ran_ok; vm_compute; reflexivity).
  destruct (route_names_exclusive sample_names (ran Server_new sample_names) E) as (_ & Hnd & _ & _).
  split; [exact E|]. split; [vm_compute; reflexivity|]. split; [vm_compute; reflexivity|exact Hnd].
Defined.

(** The host is closed to business and started again before the commit. *)
Definition sample_stale : list HostCall := [Reserve (sample_spec sample_name) [Byte.x31] [Byte.x61]; TerminateAdmission].
Definition sample_restart : list HostCall := [BeginStart; Commit 0 true].
Definition stale_host : Host := ran Server_new sample_stale.

Lemma stale_reservation_witness :
  host_run stale_host sample_restart = Ok (ran stale_host sample_restart)
  ∧ phase (ho_admission (ran stale_host sample_restart)) = Open
  ∧ ho_dispatcher (ran stale_host sample_restart) !! sample_name ≠ Some 0%nat.
Proof.
  assert (E1 : host_run Server_new sample_stale = Ok stale_host) by (apply ran_ok; vm_compute; reflexivity).
  assert (E2 : host_run stale_host sample_restart = Ok (ran stale_host sample_restart)) by (apply ran_ok; vm_compute; reflexivity).
  split; [exact E2|]. split; [vm_compute; reflexivity|].
  apply (stale_reservation_fenced sample_stale sample_restart stale_host _
    {| pr_name := sample_name; pr_token := [Byte.x61]; pr_route := 0; pr_generation := 0; pr_stage := Held |} sample_name E1);
    [|left; vm_compute; reflexivity|exact E2].
  apply list_elem_of_lookup. exists 0%nat. vm_compute. reflexivity.
Defined.

Definition sample_register : list HostCall := [Reserve (sample_spec sample_name) [Byte.x31] [Byte.x61]; Commit 0 true].
Definition sample_stop : list HostCall :=
  [LoopCall CheckStart; LoopCall StoreEntered; LoopCall (BindListener true); RequestShutdown; LoopCall SeeShutdown;
   LoopCall SnapshotRoutes; LoopCall CloseNext; LoopCall TakeAll; LoopCall (CloseListener true)].
Definition serving_host : Host := ran Server_new sample_register.

Lemma removed_route_witness :
  host_run serving_host sample_stop = Ok (ran serving_host sample_stop)
  ∧ ho_lifecycle (ran serving_host sample_stop) = Stopped ∧ closed_at (ho_routes (ran serving_host sample_stop)) 0.
Proof.
  assert (E1 : host_run Server_new sample_register = Ok serving_host) by (apply ran_ok; vm_compute; reflexivity).
  assert (E2 : host_run serving_host sample_stop = Ok (ran serving_host sample_stop)) by (apply ran_ok; vm_compute; reflexivity).
  split; [exact E2|]. split; [vm_compute; reflexivity|].
  apply (removed_route_closed sample_register sample_stop serving_host _ sample_name 0);
    [by repeat constructor|exact E1|exact E2|vm_compute; reflexivity|].
  replace (ho_dispatcher (ran serving_host sample_stop) !! sample_name) with (@None nat) by (vm_compute; reflexivity). discriminate.
Defined.
