(* ===== verification/ClientRefs.v ===== *)
(** Reference counts of pooled connections (c2-ipc, pool.rs, PoolReferences): leases are
    released without a lock, by atomic actions on a counter and a release stamp, while
    acquisitions and expiry tests hold the cache lock.  Instants are nanoseconds. *)

From S2P Require Import Prelude.

Record PoolReferences := { pr_count : Z; pr_origin : Z; pr_released_tick : Z }.

(** [PoolReferences::new(1, None)]: the first lease exists from the start. *)
Definition PoolReferences_new (now : Z) : PoolReferences := {| pr_count := 1; pr_origin := now; pr_released_tick := 0 |}.

Definition refs_tick (r : PoolReferences) (now : Z) : Z := Z.min (now - pr_origin r) (U64_MAX - 1) + 1.

Definition set_refs (r : PoolReferences) (count released : Z) : PoolReferences :=
  {| pr_count := count; pr_origin := pr_origin r; pr_released_tick := released |}.

(** ** One owner's way through acquire and release, action by action *)

Inductive Owner :=
| Acquiring
| Holding
| ReleaseCount
| ReleaseSample
| ReleaseStamp (t : Z)
| ReleaseDrop (t : Z)
| Released (t : Z)
| ReleaseRefused.

Definition owner_act (r : PoolReferences) (now : Z) (o : Owner) : PoolReferences * Owner :=
  match o with
  | Acquiring => (set_refs r (pr_count r) 0, Holding)
  | Holding => (r, ReleaseCount)
  | ReleaseCount => (r, if pr_count r =? 0 then ReleaseRefused else ReleaseSample)
  | ReleaseSample => (r, ReleaseStamp (refs_tick r now))
  | ReleaseStamp t => (set_refs r (pr_count r) (Z.max (pr_released_tick r) t), ReleaseDrop t)
  | ReleaseDrop t =>
      if pr_count r =? 0 then (r, ReleaseRefused) else (set_refs r (pr_count r - 1) (pr_released_tick r), Released t)
  | Released _ | ReleaseRefused => (r, o)
  end.

(** ** The holder of the cache lock: an acquisition or an expiry test *)

Inductive Locked :=
| Unlocked
| InAcquire (i : nat)
| TestCount (grace : Z)
| TestStamp (grace : Z)
| TestRecount (grace released : Z)
| TestClock (grace released : Z).

(** One action of [expired]: the next one, or the answer. *)
Definition expired_act (r : PoolReferences) (now : Z) (s : Locked) : option (Locked + bool) :=
  match s with
  | TestCount g => Some (if pr_count r =? 0 then inl (TestStamp g) else inr false)
  | TestStamp g => Some (inl (TestRecount g (pr_released_tick r)))
  | TestRecount g rel => Some (if negb (rel =? 0) && (pr_count r =? 0) then inl (TestClock g rel) else inr false)
  | TestClock g rel => Some (inr (g <=? Z.max 0 (refs_tick r now - rel)))
  | _ => None
  end.

Record RefWorld := { rf_refs : PoolReferences; rf_now : Z; rf_owners : list Owner; rf_lock : Locked }.

Definition ref_world (now : Z) : RefWorld :=
  {| rf_refs := PoolReferences_new now; rf_now := now; rf_owners := [Holding]; rf_lock := Unlocked |}.

Inductive RefMove :=
| Wait (d : Z)
| BeginAcquire
| BeginTest (grace : Z)
| TestAct
| OwnerAct (i : nat).

(** An owner acts at any time, but one that acquires only under its lock. *)
Definition ref_step (w : RefWorld) (m : RefMove) : RefWorld :=
  match m with
  | Wait d => {| rf_refs := rf_refs w; rf_now := rf_now w + Z.max 0 d; rf_owners := rf_owners w; rf_lock := rf_lock w |}
  | BeginAcquire =>
      match rf_lock w with
      | Unlocked =>
          {| rf_refs := set_refs (rf_refs w) (pr_count (rf_refs w) + 1) (pr_released_tick (rf_refs w)); rf_now := rf_now w;
             rf_owners := rf_owners w ++ [Acquiring]; rf_lock := InAcquire (length (rf_owners w)) |}
      | _ => w
      end
  | BeginTest grace =>
      match rf_lock w with
      | Unlocked => {| rf_refs := rf_refs w; rf_now := rf_now w; rf_owners := rf_owners w; rf_lock := TestCount (Z.max 0 grace) |}
      | _ => w
      end
  | TestAct =>
      match expired_act (rf_refs w) (rf_now w) (rf_lock w) with
      | Some (inl s) => {| rf_refs := rf_refs w; rf_now := rf_now w; rf_owners := rf_owners w; rf_lock := s |}
      | Some (inr _) => {| rf_refs := rf_refs w; rf_now := rf_now w; rf_owners := rf_owners w; rf_lock := Unlocked |}
      | None => w
      end
  | OwnerAct i =>
      match rf_owners w !! i with
      | Some o =>
          let (r, o') := owner_act (rf_refs w) (rf_now w) o in
          {| rf_refs := r; rf_now := rf_now w; rf_owners := <[i := o']> (rf_owners w);
             rf_lock := match o with Acquiring => Unlocked | _ => rf_lock w end |}
      | None => w
      end
  end.

Definition ref_run (w : RefWorld) (l : list RefMove) : RefWorld := foldl ref_step w l.

(** ** Invariant *)

Definition counted (o : Owner) : bool := match o with Released _ | ReleaseRefused => false | _ => true end.
Definition owners_counted (l : list Owner) : Z := blen (filter (fun o => counted o = true) l).

(** The stamp an owner has published. *)
Definition stamp_of (o : Owner) : option Z := match o with ReleaseDrop t | Released t => Some t | _ => None end.

(** An owner that is still to publish a stamp of at least [t]. *)
Definition will_stamp (t : Z) (o : Owner) : Prop :=
  match o with
  | Acquiring | Holding | ReleaseCount | ReleaseSample => True
  | ReleaseStamp t' => t <= t'
  | _ => False
  end.

Definition taken (o : Owner) : option Z := match o with ReleaseStamp t | ReleaseDrop t | Released t => Some t | _ => None end.

Definition testing (s : Locked) : bool := match s with TestStamp _ | TestRecount _ _ | TestClock _ _ => true | _ => false end.

Record refs_ok (w : RefWorld) : Prop := {
  ro_count : pr_count (rf_refs w) = owners_counted (rf_owners w);
  ro_time : pr_origin (rf_refs w) <= rf_now w;
  ro_some : rf_owners w ≠ [];
  ro_taken : ∀ i o t, rf_owners w !! i = Some o → taken o = Some t → 1 <= t <= refs_tick (rf_refs w) (rf_now w);
  ro_refused : ∀ i, rf_owners w !! i ≠ Some ReleaseRefused;
  ro_stamps : ∀ i o t, rf_owners w !! i = Some o → stamp_of o = Some t →
    t <= pr_released_tick (rf_refs w) ∨ ∃ j q, rf_owners w !! j = Some q ∧ will_stamp t q;
  ro_current : pr_released_tick (rf_refs w) = 0 ∨
    ∃ i o, rf_owners w !! i = Some o ∧ stamp_of o = Some (pr_released_tick (rf_refs w));
  ro_lock : match rf_lock w with
            | InAcquire i => rf_owners w !! i = Some Acquiring
            | TestRecount _ rel | TestClock _ rel => rel = pr_released_tick (rf_refs w)
            | _ => True
            end;
  ro_acquiring : ∀ i, rf_owners w !! i = Some Acquiring → rf_lock w = InAcquire i;
  ro_test : testing (rf_lock w) = true → pr_count (rf_refs w) = 0 }.

Lemma owners_counted_app l o : owners_counted (l ++ [o]) = owners_counted l + Z.b2z (counted o).
Proof. unfold owners_counted, blen. rewrite filter_app, length_app, filter_cons, filter_nil. destruct (decide _), (counted o); try done; cbn; lia. Qed.

Lemma owners_counted_cons o l : owners_counted (o :: l) = Z.b2z (counted o) + owners_counted l.
Proof. unfold owners_counted, blen. rewrite filter_cons. destruct (decide _), (counted o); try done; cbn [Z.b2z length]; lia. Qed.

Lemma owners_counted_insert l i o o' :
  l !! i = Some o → owners_counted (<[i := o']> l) = owners_counted l - Z.b2z (counted o) + Z.b2z (counted o').
Proof.
  revert i. induction l as [|x l IH]; intros [|i] Hi; try done.
  - injection Hi as ->. change (<[0%nat := o']> (o :: l)) with (o' :: l). rewrite !owners_counted_cons. lia.
  - change (<[S i := o']> (x :: l)) with (x :: <[i := o']> l). rewrite !owners_counted_cons, (IH i) by done. lia.
Qed.

Lemma owners_counted_pos l i o : l !! i = Some o → counted o = true → 1 <= owners_counted l.
Proof.
  revert i. induction l as [|x l IH]; intros [|i]; cbn; intros Hi Hc; simplify_eq; rewrite owners_counted_cons.
  - rewrite Hc. cbn. enough (0 <= owners_counted l) by lia. unfold owners_counted, blen. lia.
  - specialize (IH i Hi Hc). destruct (counted x); cbn; lia.
Qed.

Lemma owners_counted_none l : Forall (fun o => counted o = false) l → owners_counted l = 0.
Proof. induction 1 as [|o l Ho _ IH]; [done|]. rewrite owners_counted_cons, IH, Ho. done. Qed.

Lemma ref_world_ok now : refs_ok (ref_world now).
Proof.
  split; cbn; try done; [| | |by left|]; intros [|i]; cbn; intros; simplify_eq/=; try done.
Qed.

(** The parts of the invariant that do not mention the owners. *)
Lemma refs_ok_wait w d : refs_ok w → refs_ok (ref_step w (Wait d)).
Proof.
  intros []. split; cbn; auto; [lia|]. intros i o t Hi Ht. specialize (ro_taken0 i o t Hi Ht).
  unfold refs_tick in *. lia.
Qed.

Lemma refs_ok_acquire w : refs_ok w → refs_ok (ref_step w BeginAcquire).
Proof.
  intros Hw. cbn. destruct (rf_lock w) eqn:El; try done. destruct Hw.
  assert (Hsplit : ∀ i o, (rf_owners w ++ [Acquiring]) !! i = Some o → rf_owners w !! i = Some o ∨ o = Acquiring ∧ i = length (rf_owners w)).
  { intros i o [?|[? ?]]%lookup_app_Some; [by left|right]. apply list_lookup_singleton_Some in H0 as [? <-]. split; [done|lia]. }
  split; cbn; auto.
  - rewrite owners_counted_app. cbn. lia.
  - by destruct (rf_owners w).
  - intros i o t [?|[-> _]]%Hsplit Ht; [by eapply ro_taken0|done].
  - intros i [?|[? _]]%Hsplit; [by eapply ro_refused0|done].
  - intros i o t [Hi|[-> _]]%Hsplit Ht; [|done]. destruct (ro_stamps0 i o t Hi Ht) as [?|(j & q & Hj & ?)]; [by left|right].
    exists j, q. split; [by apply lookup_app_l_Some|done].
  - destruct ro_current0 as [?|(i & o & Hi & ?)]; [by left|right]. exists i, o. split; [by apply lookup_app_l_Some|done].
  - by rewrite list_lookup_middle.
  - intros i [Hi|[_ ->]]%Hsplit; [|done]. specialize (ro_acquiring0 i Hi). by rewrite El in ro_acquiring0.
  - done.
Qed.

Lemma refs_ok_test w : refs_ok w → refs_ok (ref_step w TestAct).
Proof.
  intros Hw. cbn. destruct (rf_lock w) eqn:El; cbn; try done.
  all: assert (Hna : ∀ i, rf_owners w !! i ≠ Some Acquiring)
    by (intros i Hi; pose proof (ro_acquiring w Hw i Hi); congruence).
  all: repeat match goal with |- context [if ?b then _ else _] => destruct b eqn:? end; destruct Hw; rewrite El in *;
    split; cbn in *; auto; try (by intros i Hi%Hna); intros; lia.
Qed.

Lemma refs_ok_begin_test w g : refs_ok w → refs_ok (ref_step w (BeginTest g)).
Proof.
  intros Hw. cbn. destruct (rf_lock w) eqn:El; try done. destruct Hw. rewrite El in *. split; cbn; auto.
  intros i Hi. by apply ro_acquiring0 in Hi.
Qed.

Lemma refs_ok_owner w i o o' r' :
  refs_ok w → rf_owners w !! i = Some o → counted o = true → o ≠ Acquiring → o' ≠ Acquiring → o' ≠ ReleaseRefused →
  pr_count r' = pr_count (rf_refs w) - 1 + Z.b2z (counted o') → pr_origin r' = pr_origin (rf_refs w) →
  (∀ t, taken o' = Some t → 1 <= t <= refs_tick (rf_refs w) (rf_now w)) →
  pr_released_tick (rf_refs w) <= pr_released_tick r' →
  (∀ t, stamp_of o' = Some t → t <= pr_released_tick r' ∨ stamp_of o = Some t) →
  (∀ t, t <= refs_tick (rf_refs w) (rf_now w) → will_stamp t o → will_stamp t o' ∨ t <= pr_released_tick r') →
  (pr_released_tick r' = pr_released_tick (rf_refs w) ∨ stamp_of o' = Some (pr_released_tick r')) →
  (∀ t, stamp_of o = Some t → stamp_of o' = Some t) →
  refs_ok {| rf_refs := r'; rf_now := rf_now w; rf_owners := <[i := o']> (rf_owners w); rf_lock := rf_lock w |}.
Proof.
  intros Hw Hi Hc Ha Ha' Hr' Hcnt Hor Htk Hrel Hst Hws Hcur Hkeep.
  assert (Hlt : (i < length (rf_owners w))%nat) by (by eapply lookup_lt_Some).
  assert (Htest : testing (rf_lock w) = false).
  { destruct (testing (rf_lock w)) eqn:E; [|done]. apply (ro_test w Hw) in E. rewrite (ro_count w Hw) in E.
    pose proof (owners_counted_pos _ _ _ Hi Hc). lia. }
  assert (Hin : ∀ j q, <[i := o']> (rf_owners w) !! j = Some q → j = i ∧ q = o' ∨ j ≠ i ∧ rf_owners w !! j = Some q).
  { intros j q Hj. destruct (decide (i = j)) as [<-|]; [rewrite list_lookup_insert_eq in Hj by done|rewrite list_lookup_insert_ne in Hj by done]; naive_solver. }
  assert (Hat : ∀ j q, rf_owners w !! j = Some q → j = i ∧ q = o ∨ j ≠ i ∧ <[i := o']> (rf_owners w) !! j = Some q).
  { intros j q Hj. destruct (decide (i = j)) as [<-|]; [left; split; congruence|right]. by rewrite list_lookup_insert_ne. }
  assert (Hnew : <[i := o']> (rf_owners w) !! i = Some o') by (by apply list_lookup_insert_eq).
  destruct Hw. split; cbn; auto.
  - rewrite (owners_counted_insert _ _ _ _ Hi), Hc. cbn. lia.
  - by rewrite Hor.
  - intros E. by rewrite E in Hnew.
  - unfold refs_tick in *. rewrite Hor. intros j q t [[_ ->]|[_ Hj]]%Hin Ht; [auto|]. by eapply ro_taken0.
  - intros j [[_ ?]|[_ Hj]]%Hin; [congruence|]. by eapply ro_refused0.
  - assert (Hold : ∀ j q t, rf_owners w !! j = Some q → stamp_of q = Some t →
      t <= pr_released_tick r' ∨ ∃ k q', <[i := o']> (rf_owners w) !! k = Some q' ∧ will_stamp t q').
    { intros j q t Hj Ht. destruct (ro_stamps0 j q t Hj Ht) as [?|(k & q' & Hk & Hw)]; [left; lia|].
      assert (Htt : taken q = Some t) by (by destruct q). pose proof (ro_taken0 j q t Hj Htt).
      destruct (Hat k q' Hk) as [[-> ->]|[? ?]]; [|right; eauto]. destruct (Hws t); [lia|done|right; eauto|by left]. }
    intros j q t [[_ ->]|[_ Hj]]%Hin Ht; [|eauto]. destruct (Hst t Ht); eauto.
  - destruct Hcur as [->|Hcur]; [|right; eauto]. destruct ro_current0 as [?|(k & q & Hk & Hq)]; [by left|right].
    destruct (Hat k q Hk) as [[-> ->]|[? ?]]; eauto.
  - destruct (rf_lock w); try done. apply Hat in ro_lock0 as [[_ ?]|[_ ?]]; [congruence|done].
  - intros j [[_ ?]|[_ Hj]]%Hin; [congruence|]. auto.
  - by rewrite Htest.
Qed.

Lemma refs_ok_store w i :
  refs_ok w → rf_owners w !! i = Some Acquiring → refs_ok (ref_step w (OwnerAct i)).
Proof.
  intros Hw Hi. cbn. rewrite Hi. cbn. pose proof (ro_acquiring w Hw) as Hacq. destruct Hw.
  assert (Hnew : <[i := Holding]> (rf_owners w) !! i = Some Holding) by (apply list_lookup_insert_eq; by eapply lookup_lt_Some).
  assert (Hin : ∀ j q, <[i := Holding]> (rf_owners w) !! j = Some q → q = Holding ∨ j ≠ i ∧ rf_owners w !! j = Some q).
  { intros j q Hj. destruct (decide (i = j)) as [<-|]; [left; congruence|right]. by rewrite list_lookup_insert_ne in Hj. }
  split; cbn; auto.
  - rewrite (owners_counted_insert _ _ _ _ Hi). cbn. lia.
  - intros E. by rewrite E in Hnew.
  - unfold refs_tick in *. intros j q t [->|[_ Hj]]%Hin Ht; [done|]. by eapply ro_taken0.
  - intros j [?|[_ Hj]]%Hin; [done|]. by eapply ro_refused0.
  - intros j q t _ _. right. exists i, Holding. done.
  - intros j [?|[Hne Hj]]%Hin; [done|]. apply Hacq in Hj. apply Hacq in Hi. congruence.
  - done.
Qed.

Lemma refs_ok_act w i : refs_ok w → refs_ok (ref_step w (OwnerAct i)).
Proof.
  intros Hw. destruct (rf_owners w !! i) as [o|] eqn:Hi; [|cbn; by rewrite Hi].
  assert (Hpos : counted o = true → (pr_count (rf_refs w) =? 0) = false).
  { intros Hc. rewrite (ro_count w Hw). pose proof (owners_counted_pos _ _ _ Hi Hc). lia. }
  assert (Htick : 1 <= refs_tick (rf_refs w) (rf_now w)) by (pose proof (ro_time w Hw); unfold refs_tick, U64_MAX; lia).
  pose proof (ro_taken w Hw i o) as Htk. destruct o as [| | | |t|t|t|]; [by apply refs_ok_store|..|by destruct (ro_refused w Hw i)];
    cbn; rewrite Hi; cbn; try rewrite Hpos by done; [..|by rewrite list_insert_id by done; destruct w].
  all: eapply refs_ok_owner; [done|exact Hi|done..|cbn; lia|done| | | | | |]; cbn; intros; simplify_eq; auto; try lia; try naive_solver lia.
  destruct (Z.max_spec (pr_released_tick (rf_refs w)) t) as [[_ ->]|[_ ->]]; auto.
Qed.

Lemma refs_ok_run w l : refs_ok w → refs_ok (ref_run w l).
Proof.
  revert w. induction l as [|m l IH]; intros w Hw; cbn; [done|]. apply IH.
  destruct m; [by apply refs_ok_wait|by apply refs_ok_acquire|by apply refs_ok_begin_test|by apply refs_ok_test|by apply refs_ok_act].
Qed.

Lemma all_released w i o : refs_ok w → pr_count (rf_refs w) = 0 → rf_owners w !! i = Some o → ∃ t, o = Released t.
Proof.
  intros Hw Hc Hi. rewrite (ro_count w Hw) in Hc.
  destruct o; try (pose proof (owners_counted_pos _ _ _ Hi eq_refl); lia); [eauto|]. by destruct (ro_refused w Hw i).
Qed.

(** With nobody left the stamp is that of the last release. *)
Lemma idle_stamp w : refs_ok w → pr_count (rf_refs w) = 0 →
  (∀ i t, rf_owners w !! i = Some (Released t) → t <= pr_released_tick (rf_refs w))
  ∧ ∃ i, rf_owners w !! i = Some (Released (pr_released_tick (rf_refs w))).
Proof.
  intros Hw Hc.
  assert (Hle : ∀ i t, rf_owners w !! i = Some (Released t) → t <= pr_released_tick (rf_refs w)).
  { intros i t Hi. destruct (ro_stamps w Hw i _ t Hi eq_refl) as [?|(j & q & Hj & Hq)]; [done|].
    by destruct (all_released w j q Hw Hc Hj) as [t' ->]. }
  split; [done|]. destruct (ro_current w Hw) as [E|(i & o & Hi & Ho)].
  - pose proof (ro_some w Hw) as Hs. destruct (rf_owners w) as [|o l] eqn:El; [done|].
    assert (Hi : rf_owners w !! 0%nat = Some o) by (by rewrite El). destruct (all_released w 0 o Hw Hc Hi) as [t ->].
    pose proof (Hle 0%nat t). pose proof (ro_taken w Hw 0%nat _ t Hi eq_refl). rewrite El in *. cbn in *. naive_solver lia.
  - destruct (all_released w i o Hw Hc Hi) as [t ->]. exists i. cbn in Ho. by simplify_eq.
Qed.

Definition grace_of (s : Locked) : Z :=
  match s with TestCount g | TestStamp g | TestRecount g _ | TestClock g _ => g | _ => 0 end.

(** Idle expiry of a pooled connection is exact although leases are released without the
    lock: whatever the interleaving, a test answers that the entry has expired exactly when
    every lease taken so far has been released at least the grace period ago, so a leased
    connection is never found idle; and the release of a lease is never refused. *)
Theorem expiry_exact (start : Z) (l : list RefMove) :
  let w := ref_run (ref_world start) l in
  (∀ b, expired_act (rf_refs w) (rf_now w) (rf_lock w) = Some (inr b) →
     b = true ↔ ∀ i o, rf_owners w !! i = Some o → ∃ t, o = Released t ∧ t + grace_of (rf_lock w) <= refs_tick (rf_refs w) (rf_now w))
  ∧ pr_count (rf_refs w) = owners_counted (rf_owners w)
  ∧ ∀ i, rf_owners w !! i ≠ Some ReleaseRefused.
Proof.
  intros w. assert (Hw : refs_ok w) by apply refs_ok_run, ref_world_ok. clearbody w.
  split; [|split; [apply Hw|apply Hw]]. intros b Hb.
  assert (Hbusy : pr_count (rf_refs w) ≠ 0 → ¬ ∀ i o, rf_owners w !! i = Some o → ∃ t, o = Released t ∧ t + grace_of (rf_lock w) <= refs_tick (rf_refs w) (rf_now w)).
  { intros Hc Hall. apply Hc. rewrite (ro_count w Hw). apply owners_counted_none, Forall_lookup. intros i o Hi. by destruct (Hall i o Hi) as (t & -> & _). }
  destruct (rf_lock w) as [|i|g|g|g rel|g rel] eqn:El; cbn in Hb; try done.
  - destruct (Z.eqb_spec (pr_count (rf_refs w)) 0); simplify_eq. split; [done|]. by intros ?%Hbusy.
  - assert (Hc : pr_count (rf_refs w) = 0) by (apply (ro_test w Hw); by rewrite El).
    pose proof (ro_lock w Hw) as Hl. rewrite El in Hl. subst rel. destruct (idle_stamp w Hw Hc) as [_ [i Hi]].
    pose proof (ro_taken w Hw i _ _ Hi eq_refl). rewrite Hc in Hb. destruct (Z.eqb_spec (pr_released_tick (rf_refs w)) 0); [lia|done].
  - assert (Hc : pr_count (rf_refs w) = 0) by (apply (ro_test w Hw); by rewrite El).
    pose proof (ro_lock w Hw) as Hl. rewrite El in Hl. subst rel. destruct (idle_stamp w Hw Hc) as [Hle [i Hi]].
    pose proof (ro_taken w Hw i _ _ Hi eq_refl). injection Hb as <-. rewrite Z.leb_le. split.
    + intros Hg j o Hj. destruct (all_released w j o Hw Hc Hj) as [t ->]. exists t. specialize (Hle j t Hj). cbn. split; [done|lia].
    + intros Hall. destruct (Hall i _ Hi) as (t & [= <-] & ?). cbn in *. lia.
Qed.
