(* ===== verification/ClientCache.v ===== *)
(** The cache of local connections of a process (c2-ipc, pool.rs): connections are shared
    by address under counted leases, idle ones expire, and every detached connection keeps
    a close record until its physical end is observed.  Each section under the cache lock
    is one step; connecting, deactivating and waiting happen between sections.  A
    connection carries its references, with which it is paired for life. *)

From stdpp Require Import strings.
From S2P Require Import Prelude.
From S2P Require Import Float64.
From S2P Require Import Text.
From S2P Require Import IpcConfig.
From S2P Require Import ClientRefs.

(** ** Policies *)

(** The fields in which the refusal of a divergent policy looks for differences. *)
Definition named_differences (a b : ClientIpcConfig) : list (string * bool) :=
  let x := base a in
  let y := base b in
  [("pool_enabled"%string, Bool.eqb (pool_enabled x) (pool_enabled y));
   ("pool_segment_size"%string, pool_segment_size x =? pool_segment_size y);
   ("max_pool_segments"%string, max_pool_segments x =? max_pool_segments y);
   ("pool_prewarm_segments"%string, pool_prewarm_segments x =? pool_prewarm_segments y);
   ("pool_min_retained_segments"%string, pool_min_retained_segments x =? pool_min_retained_segments y);
   ("reassembly_segment_size"%string, reassembly_segment_size x =? reassembly_segment_size y);
   ("reassembly_max_segments"%string, reassembly_max_segments x =? reassembly_max_segments y);
   ("max_total_chunks"%string, max_total_chunks x =? max_total_chunks y);
   ("chunk_gc_interval_secs"%string, SFeqb (chunk_gc_interval_secs x) (chunk_gc_interval_secs y));
   ("chunk_threshold_ratio"%string, SFeqb (chunk_threshold_ratio x) (chunk_threshold_ratio y));
   ("chunk_assembler_timeout_secs"%string, SFeqb (chunk_assembler_timeout_secs x) (chunk_assembler_timeout_secs y));
   ("max_reassembly_bytes"%string, max_reassembly_bytes x =? max_reassembly_bytes y);
   ("chunk_size"%string, chunk_size x =? chunk_size y);
   ("shm_backing_budget_bytes"%string, shm_backing_budget_bytes x =? shm_backing_budget_bytes y);
   ("file_backing_budget_bytes"%string, file_backing_budget_bytes x =? file_backing_budget_bytes y);
   ("live_reassembly_budget_bytes"%string, live_reassembly_budget_bytes x =? live_reassembly_budget_bytes y);
   ("shm_threshold"%string, shm_threshold a =? shm_threshold b);
   ("pool_decay_seconds"%string, SFeqb (pool_decay_seconds a) (pool_decay_seconds b))].

Definition differing_client_policy_fields (a b : ClientIpcConfig) : list string :=
  let differing := omap (fun p => if p.2 : bool then None else Some p.1) (named_differences a b) in
  if bool_decide (differing = []) then ["none"%string] else differing.

(** The derived [PartialEq] of both structures: field by field. *)
Definition base_config_eqb (a b : BaseIpcConfig) : bool :=
  SFeqb (write_timeout_secs a) (write_timeout_secs b)
  && Bool.eqb (pool_enabled a) (pool_enabled b)
  && (pool_segment_size a =? pool_segment_size b)
  && (max_pool_segments a =? max_pool_segments b)
  && (max_dedicated_segments a =? max_dedicated_segments b)
  && SFeqb (spill_threshold a) (spill_threshold b)
  && (pool_prewarm_segments a =? pool_prewarm_segments b)
  && (pool_min_retained_segments a =? pool_min_retained_segments b)
  && (reassembly_segment_size a =? reassembly_segment_size b)
  && (reassembly_max_segments a =? reassembly_max_segments b)
  && (max_total_chunks a =? max_total_chunks b)
  && SFeqb (chunk_gc_interval_secs a) (chunk_gc_interval_secs b)
  && SFeqb (chunk_threshold_ratio a) (chunk_threshold_ratio b)
  && SFeqb (chunk_assembler_timeout_secs a) (chunk_assembler_timeout_secs b)
  && (max_reassembly_bytes a =? max_reassembly_bytes b)
  && (chunk_size a =? chunk_size b)
  && (shm_backing_budget_bytes a =? shm_backing_budget_bytes b)
  && (file_backing_budget_bytes a =? file_backing_budget_bytes b)
  && (live_reassembly_budget_bytes a =? live_reassembly_budget_bytes b).
Definition config_eqb (a b : ClientIpcConfig) : bool :=
  base_config_eqb (base a) (base b) && (shm_threshold a =? shm_threshold b)
  && SFeqb (pool_decay_seconds a) (pool_decay_seconds b).

(** ** Connections and close records *)

Inductive ConnectionEndReason := LocalClose | OtherEnd.
#[export] Instance end_reason_eq : EqDecision ConnectionEndReason.
Proof. solve_decision. Defined.

(** A [SyncClient]: whether it ever had a physical connection, whether that admits calls,
    its terminal record, and the epoch of the cache it was opened in. *)
Record SyncClient := {
  sc_config : ClientIpcConfig;
  sc_physical : bool;
  sc_admits : bool;
  sc_end : option ConnectionEndReason;
  sc_epoch : Z }.

Definition is_connected (c : SyncClient) : bool := sc_physical c && sc_admits c && bool_decide (sc_end c = None).

Definition stop_client (c : SyncClient) : SyncClient :=
  {| sc_config := sc_config c; sc_physical := sc_physical c; sc_admits := false; sc_end := sc_end c; sc_epoch := sc_epoch c |}.
Definition end_client (reason : ConnectionEndReason) (c : SyncClient) : SyncClient :=
  {| sc_config := sc_config c; sc_physical := sc_physical c; sc_admits := sc_admits c;
     sc_end := match sc_end c with None => Some reason | e => e end; sc_epoch := sc_epoch c |}.

(** Nothing physical is left of a client. *)
Definition is_over (c : SyncClient) : bool := negb (sc_physical c) || negb (bool_decide (sc_end c = None)).

Inductive CloseState := Preparing | ClosingClient (c : nat) | Finished.
Record CloseRecord := { cr_address : str; cr_state : CloseState }.

Definition record_preparing (address : str) : CloseRecord := {| cr_address := address; cr_state := Preparing |}.
Definition set_state (s : CloseState) (r : CloseRecord) : CloseRecord := {| cr_address := cr_address r; cr_state := s |}.

Definition refs_acquire (r : PoolReferences) : PoolReferences := set_refs r (pr_count r + 1) 0.
Definition refs_release (r : PoolReferences) (now : Z) : option PoolReferences :=
  if pr_count r =? 0 then None else Some (set_refs r (pr_count r - 1) (Z.max (pr_released_tick r) (refs_tick r now))).
Definition refs_expired (r : PoolReferences) (now grace : Z) : bool :=
  (pr_count r =? 0) && negb (pr_released_tick r =? 0) && (grace <=? Z.max 0 (refs_tick r now - pr_released_tick r)).

(** ** The cache *)

Record CacheState := {
  entries : gmap str nat;
  epoch : option Z;
  draining : bool;
  budget : option MemoryBudgetLimits;
  records : gmap Z nat;
  next_record : Z;
  default_config : option ClientIpcConfig }.

(** A connect in progress, with its [FreshClient]: the record that fences it and the
    candidate it holds.  [aq_checked]: the epoch was tested for the next attempt;
    [aq_failed]: the candidate did not connect, and whether the failure is transient. *)
Record Acquirer := {
  aq_address : str;
  aq_config : ClientIpcConfig;
  aq_epoch : Z;
  aq_record : nat;
  aq_attempt : nat;
  aq_checked : bool;
  aq_client : option nat;
  aq_failed : option bool }.

(** A counted lease, or a reference handed to an explicit-release caller; the policy that
    was asked for and the epoch of the grant. *)
Record ClientLease := { ls_client : nat; ls_config : ClientIpcConfig; ls_epoch : Z }.

(** The closes an observer knows: a record, or nothing once its end was confirmed. *)
Notation ObservedCloses := (gmap Z (option nat)).

(** A drain for an observer: the closes it observes and has still to visit, and its
    report. *)
Record Drain := {
  dr_observer : nat;
  dr_observed : ObservedCloses;
  dr_left : list Z;
  dr_sealed : bool;
  dr_detached : nat;
  dr_unconfirmed : list str;
  dr_abnormal : list str }.

Record World := {
  cache : CacheState;
  clients : list SyncClient;
  refs : gmap nat PoolReferences;
  closes : list CloseRecord;
  now : Z;
  acquirers : list Acquirer;
  detached : list (nat * nat);
  stopping : list nat;
  leases : list ClientLease;
  explicit : list ClientLease;
  drain : option Drain;
  observations : list ObservedCloses;
  seeds : list ObservedCloses }.

Implicit Types (w : World) (k : CacheState).

Definition set_entries k x : CacheState :=
  {| entries := x; epoch := epoch k; draining := draining k; budget := budget k; records := records k;
     next_record := next_record k; default_config := default_config k |}.
Definition set_records k x_records x_next_record : CacheState :=
  {| entries := entries k; epoch := epoch k; draining := draining k; budget := budget k; records := x_records;
     next_record := x_next_record; default_config := default_config k |}.
Definition set_epoch k x_epoch x_draining : CacheState :=
  {| entries := entries k; epoch := x_epoch; draining := x_draining; budget := budget k; records := records k;
     next_record := next_record k; default_config := default_config k |}.
Definition set_budget k x : CacheState :=
  {| entries := entries k; epoch := epoch k; draining := draining k; budget := x; records := records k;
     next_record := next_record k; default_config := default_config k |}.
Definition set_default k x : CacheState :=
  {| entries := entries k; epoch := epoch k; draining := draining k; budget := budget k; records := records k;
     next_record := next_record k; default_config := x |}.
Definition set_cache w x : World :=
  {| cache := x; clients := clients w; refs := refs w; closes := closes w; now := now w; acquirers := acquirers w;
     detached := detached w; stopping := stopping w; leases := leases w; explicit := explicit w; drain := drain w;
     observations := observations w; seeds := seeds w |}.
Definition set_clients w x : World :=
  {| cache := cache w; clients := x; refs := refs w; closes := closes w; now := now w; acquirers := acquirers w;
     detached := detached w; stopping := stopping w; leases := leases w; explicit := explicit w; drain := drain w;
     observations := observations w; seeds := seeds w |}.
Definition set_world_refs w x : World :=
  {| cache := cache w; clients := clients w; refs := x; closes := closes w; now := now w; acquirers := acquirers w;
     detached := detached w; stopping := stopping w; leases := leases w; explicit := explicit w; drain := drain w;
     observations := observations w; seeds := seeds w |}.
Definition set_closes w x : World :=
  {| cache := cache w; clients := clients w; refs := refs w; closes := x; now := now w; acquirers := acquirers w;
     detached := detached w; stopping := stopping w; leases := leases w; explicit := explicit w; drain := drain w;
     observations := observations w; seeds := seeds w |}.
Definition set_now w x : World :=
  {| cache := cache w; clients := clients w; refs := refs w; closes := closes w; now := x;
     acquirers := acquirers w; detached := detached w; stopping := stopping w; leases := leases w;
     explicit := explicit w; drain := drain w; observations := observations w; seeds := seeds w |}.
Definition set_acquirers w x : World :=
  {| cache := cache w; clients := clients w; refs := refs w; closes := closes w; now := now w; acquirers := x;
     detached := detached w; stopping := stopping w; leases := leases w; explicit := explicit w; drain := drain w;
     observations := observations w; seeds := seeds w |}.
Definition set_detached w x : World :=
  {| cache := cache w; clients := clients w; refs := refs w; closes := closes w; now := now w;
     acquirers := acquirers w; detached := x; stopping := stopping w; leases := leases w; explicit := explicit w;
     drain := drain w; observations := observations w; seeds := seeds w |}.
Definition set_stopping w x : World :=
  {| cache := cache w; clients := clients w; refs := refs w; closes := closes w; now := now w;
     acquirers := acquirers w; detached := detached w; stopping := x; leases := leases w; explicit := explicit w;
     drain := drain w; observations := observations w; seeds := seeds w |}.
Definition set_leases w x : World :=
  {| cache := cache w; clients := clients w; refs := refs w; closes := closes w; now := now w;
     acquirers := acquirers w; detached := detached w; stopping := stopping w; leases := x; explicit := explicit w;
     drain := drain w; observations := observations w; seeds := seeds w |}.
Definition set_explicit w x : World :=
  {| cache := cache w; clients := clients w; refs := refs w; closes := closes w; now := now w;
     acquirers := acquirers w; detached := detached w; stopping := stopping w; leases := leases w; explicit := x;
     drain := drain w; observations := observations w; seeds := seeds w |}.
Definition set_drain w x : World :=
  {| cache := cache w; clients := clients w; refs := refs w; closes := closes w; now := now w;
     acquirers := acquirers w; detached := detached w; stopping := stopping w; leases := leases w;
     explicit := explicit w; drain := x; observations := observations w; seeds := seeds w |}.
Definition set_observations w x : World :=
  {| cache := cache w; clients := clients w; refs := refs w; closes := closes w; now := now w;
     acquirers := acquirers w; detached := detached w; stopping := stopping w; leases := leases w;
     explicit := explicit w; drain := drain w; observations := x; seeds := seeds w |}.
Definition set_seeds w x : World :=
  {| cache := cache w; clients := clients w; refs := refs w; closes := closes w; now := now w;
     acquirers := acquirers w; detached := detached w; stopping := stopping w; leases := leases w;
     explicit := explicit w; drain := drain w; observations := observations w; seeds := x |}.

Definition set_client w (c : nat) (f : SyncClient → SyncClient) : World := set_clients w (alter f c (clients w)).
Definition set_close w (r : nat) (st : CloseState) : World := set_closes w (alter (set_state st) r (closes w)).

Definition cache_world (start : Z) : World :=
  {| cache := {| entries := ∅; epoch := Some 0; draining := false; budget := None; records := ∅; next_record := 0;
                 default_config := None |};
     clients := []; refs := ∅; closes := []; now := start; acquirers := []; detached := []; stopping := []; leases := [];
     explicit := []; drain := None; observations := []; seeds := [] |}.

(** ** Sections under the cache lock *)

Inductive IpcError := PoolRetired | PoolClosed | BudgetMismatch | PolicyMismatch.

Definition complete w (r : CloseRecord) : bool :=
  match cr_state r with
  | Preparing => false
  | ClosingClient c => from_option is_over false (clients w !! c)
  | Finished => true
  end.

Definition record_complete w (r : nat) : bool := from_option (complete w) true (closes w !! r).

(** [records.retain(|_, record| !record.complete())] *)
Definition retain w : World :=
  set_cache w (set_records (cache w) (filter (fun p => record_complete w p.2 = false) (records (cache w))) (next_record (cache w))).

(** [CacheState::record]; the sequence of records is finite. *)
Definition record w (address : str) : res Empty_set (World * nat) :=
  guard_panic (next_record (cache w) <? U64_MAX) ;?
  let r := length (closes w) in
  let k := cache w in
  let w := set_closes w (closes w ++ [record_preparing address]) in
  Ok (set_cache w (set_records k (<[next_record k := r]> (records k)) (next_record k + 1)), r).

(** An entry leaves the cache with a record of its own; its connection is deactivated
    after the section. *)
Definition detach w (address : str) : res Empty_set World :=
  match entries (cache w) !! address with
  | None => Ok w
  | Some c =>
      let w := set_cache w (set_entries (cache w) (delete address (entries (cache w)))) in
      let? '(w, r) := record w address in
      Ok (set_detached w (detached w ++ [(r, c)]))
  end.

Fixpoint detach_all w (addresses : list str) : res Empty_set World :=
  match addresses with
  | [] => Ok w
  | a :: l => let? w := detach w a in detach_all w l
  end.

Definition check_epoch w (e : Z) : res IpcError unit :=
  match epoch (cache w) with
  | None => Err PoolRetired
  | Some e' => guard_err (draining (cache w) || negb (e' =? e)) PoolClosed
  end.

Section Cache.
Context (grace : Z).

Definition expired w (c : nat) : bool := from_option (fun r => refs_expired r (now w) grace) false (refs w !! c).

Definition usable w (address : str) : option nat :=
  match entries (cache w) !! address with
  | Some c => if from_option is_connected false (clients w !! c) && negb (expired w c) then Some c else None
  | None => None
  end.

Definition lease w (c : nat) (cfg : ClientIpcConfig) (e : Z) : World :=
  set_leases w (leases w ++ [{| ls_client := c; ls_config := cfg; ls_epoch := e |}]).

(** A cached connection is shared when its policy is the requested one. *)
Definition share w (c : nat) (cfg : ClientIpcConfig) (e : Z) : World * res IpcError unit :=
  match clients w !! c with
  | Some client =>
      if config_eqb (sc_config client) cfg
      then (lease (set_world_refs w (alter refs_acquire c (refs w))) c cfg e, Ok tt)
      else (w, Err PolicyMismatch)
  | None => (w, Err PolicyMismatch)
  end.

(** The addresses a connect to [address] evicts, and those a sweep evicts. *)
Definition evicted w (address : option str) : list str :=
  (filter (fun p => bool_decide (Some p.1 = address) || expired w p.2 = true) (map_to_list (entries (cache w)))).*1.

(** The first section of [acquire_lease_with_deadline]. *)
Definition acquire_begin w (address : str) (config : option ClientIpcConfig) : res Empty_set (World * res IpcError unit) :=
  match epoch (cache w) with
  | None => Ok (w, Err PoolRetired)
  | Some e =>
      if draining (cache w) then Ok (w, Err PoolClosed)
      else
        let w := retain w in
        let cfg := default (default ClientIpcConfig_default (default_config (cache w))) config in
        let requested := memory_budget_limits cfg in
        let limits := default requested (budget (cache w)) in
        let w := set_cache w (set_budget (cache w) (Some limits)) in
        if negb (bool_decide (limits = requested)) then Ok (w, Err BudgetMismatch)
        else
          match usable w address with
          | Some c => Ok (share w c cfg e)
          | None =>
              let? w := detach_all w (evicted w (Some address)) in
              let? '(w, r) := record w address in
              Ok (set_acquirers w (acquirers w ++
                    [{| aq_address := address; aq_config := cfg; aq_epoch := e; aq_record := r; aq_attempt := 0;
                        aq_checked := false; aq_client := None; aq_failed := None |}]), Ok tt)
          end
  end.

Definition with_attempt (q : Acquirer) (attempt : nat) (checked : bool) (client : option nat) (failed : option bool) : Acquirer :=
  {| aq_address := aq_address q; aq_config := aq_config q; aq_epoch := aq_epoch q; aq_record := aq_record q;
     aq_attempt := attempt; aq_checked := checked; aq_client := client; aq_failed := failed |}.

Definition remove_acquirer w (i : nat) : World := set_acquirers w (delete i (acquirers w)).

(** [Drop for FreshClient] of an unpublished connect: its candidate is deactivated under
    the record, or the record is finished. *)
Definition drop_fresh w (i : nat) (q : Acquirer) : World :=
  let w := remove_acquirer w i in
  match aq_client q with
  | Some c => set_detached w (detached w ++ [(aq_record q, c)])
  | None => set_close w (aq_record q) Finished
  end.

(** The test of the epoch before an attempt. *)
Definition acquire_check w (i : nat) (q : Acquirer) : World :=
  match check_epoch w (aq_epoch q) with
  | Ok _ => set_acquirers w (<[i := with_attempt q (aq_attempt q) true (aq_client q) (aq_failed q)]> (acquirers w))
  | _ => drop_fresh w i q
  end.

(** An attempt creates a candidate, which connects or fails. *)
Definition acquire_attempt w (i : nat) (q : Acquirer) (physical : bool) (failed : option bool) : World :=
  let c := length (clients w) in
  let ok := bool_decide (failed = None) in
  let w := set_clients w (clients w ++
             [{| sc_config := aq_config q; sc_physical := physical || ok; sc_admits := ok; sc_end := None; sc_epoch := aq_epoch q |}]) in
  set_acquirers w (<[i := with_attempt q (aq_attempt q) false (Some c) failed]> (acquirers w)).

(** After a transient failure the candidate is closed, and once that is confirmed the next
    attempt may begin. *)
Definition may_retry (q : Acquirer) : bool := bool_decide (aq_failed q = Some true) && (aq_attempt q <? 2)%nat.
Definition acquire_retry w (i : nat) (q : Acquirer) : World :=
  match aq_client q with
  | Some c =>
      if may_retry q && from_option is_over true (clients w !! c)
      then set_acquirers w (<[i := with_attempt q (S (aq_attempt q)) false None None]> (acquirers w))
      else w
  | None => w
  end.

(** The last section: share a connection that was published meanwhile, or publish. *)
Definition acquire_publish w (i : nat) (q : Acquirer) (c : nat) : res Empty_set (World * res IpcError unit) :=
  match check_epoch w (aq_epoch q) with
  | Ok _ =>
      match usable w (aq_address q) with
      | Some c' =>
          let '(w, answer) := share w c' (aq_config q) (aq_epoch q) in
          Ok (drop_fresh w i q, answer)
      | None =>
          let? w := detach w (aq_address q) in
          let w := set_cache w (set_entries (cache w) (<[aq_address q := c]> (entries (cache w)))) in
          let w := set_world_refs w (<[c := PoolReferences_new (now w)]> (refs w)) in
          let w := set_close (remove_acquirer w i) (aq_record q) Finished in
          Ok (lease w c (aq_config q) (aq_epoch q), Ok tt)
      end
  | Err e => Ok (drop_fresh w i q, Err e)
  | Panic => Panic
  end.

Definition sweep_expired w : res Empty_set World := let w := retain w in detach_all w (evicted w None).

End Cache.

(** ** Releases, closes and drains *)

Definition release_refs w (c : nat) : World :=
  match refs w !! c with
  | Some r => match refs_release r (now w) with Some r' => set_world_refs w (<[c := r']> (refs w)) | None => w end
  | None => w
  end.

(** [Drop for ClientLease] and [ClientLease::into_client]. *)
Definition drop_lease w (i : nat) : World :=
  match leases w !! i with
  | Some l => release_refs (set_leases w (delete i (leases w))) (ls_client l)
  | None => w
  end.
Definition into_client w (i : nat) : World :=
  match leases w !! i with
  | Some l => set_explicit (set_leases w (delete i (leases w))) (explicit w ++ [l])
  | None => w
  end.

(** [release_if_same] by a holder of an explicit reference. *)
Definition release_if_same w (address : str) (i : nat) : World :=
  match explicit w !! i with
  | Some l =>
      let w := set_explicit w (delete i (explicit w)) in
      if bool_decide (entries (cache w) !! address = Some (ls_client l)) then release_refs w (ls_client l) else w
  | None => w
  end.

Definition discard_if_same w (address : str) (c : nat) : res Empty_set (World * bool) :=
  if bool_decide (entries (cache w) !! address = Some c)
  then let? w := detach w address in Ok (w, true)
  else Ok (w, false).

(** [CloseRecord::deactivate]: the record takes the connection, then its admission stops. *)
Definition deactivate_install w (i : nat) : World :=
  match detached w !! i with
  | Some (r, c) =>
      set_stopping (set_detached (set_close w r (ClosingClient c)) (delete i (detached w))) (stopping w ++ [c])
  | None => w
  end.
Definition deactivate_stop w (i : nat) : World :=
  match stopping w !! i with
  | Some c => set_stopping (set_client w c stop_client) (delete i (stopping w))
  | None => w
  end.

(** The records whose close is not over, as an observer notes them. *)
Definition open_closes w : ObservedCloses :=
  Some <$> filter (fun p => record_complete w p.2 = false) (records (cache w)).

(** [ClientPoolSeal::commit]: no lease is granted any more, and the open closes are kept as
    a seed for observers. *)
Definition seal w : World :=
  let seed := open_closes w in
  set_seeds (set_cache w (set_epoch (cache w) None (draining (cache w)))) (seeds w ++ [seed]).

(** [observe_closes] and [merge_seed]. *)
Definition observe_closes w : World := set_observations w (observations w ++ [∅]).
Definition merge_seed w (i j : nat) : World :=
  match seeds w !! j with
  | Some seed => set_observations w (alter (fun observed => observed ∪ seed) i (observations w))
  | None => w
  end.

(** The first section of [close_all_observed], under the drain gate. *)
Definition close_section w (i : nat) (observed : ObservedCloses) : res Empty_set World :=
  let k := cache w in
  let addresses := (map_to_list (entries k)).*1 in
  let w := set_cache w (set_epoch k (epoch k) true) in
  let? w := detach_all w addresses in
  let observed := observed ∪ open_closes w in
  Ok (set_drain w (Some {| dr_observer := i; dr_observed := observed; dr_left := (map_to_list observed).*1;
                           dr_sealed := bool_decide (epoch (cache w) = None); dr_detached := length addresses;
                           dr_unconfirmed := []; dr_abnormal := [] |})).

(** [CloseRecord::wait], when it answers: a wait that is not over blocks until it times
    out. *)
Definition close_wait w (r : CloseRecord) (preparing timed_out : bool) : option bool :=
  match cr_state r with
  | Preparing => if preparing then if timed_out then Some false else None else Some true
  | ClosingClient c =>
      if from_option is_over false (clients w !! c) then Some true else if timed_out then Some false else None
  | Finished => Some true
  end.

Definition ended_abnormally w (r : CloseRecord) : bool :=
  match cr_state r with
  | ClosingClient c => from_option (fun x => bool_decide (sc_physical x = true ∧ sc_end x = Some OtherEnd)) false (clients w !! c)
  | _ => false
  end.

Definition set_visit (d : Drain) (rest : list Z) (observed : ObservedCloses) (unconfirmed abnormal : list str) : Drain :=
  {| dr_observer := dr_observer d; dr_observed := observed; dr_left := rest; dr_sealed := dr_sealed d; dr_detached := dr_detached d;
     dr_unconfirmed := unconfirmed; dr_abnormal := abnormal |}.

(** One observed close of a drain. *)
Definition close_visit w (d : Drain) (timed_out : bool) : option Drain :=
  match dr_left d with
  | [] => None
  | id :: rest =>
      let skip := set_visit d rest (dr_observed d) (dr_unconfirmed d) (dr_abnormal d) in
      match dr_observed d !! id with
      | Some (Some r) =>
          match closes w !! r with
          | Some rec =>
              match close_wait w rec (dr_sealed d) timed_out with
              | None => None
              | Some false =>
                  Some (set_visit d rest (dr_observed d)
                          (if bool_decide (cr_address rec ∈ dr_unconfirmed d) then dr_unconfirmed d
                           else dr_unconfirmed d ++ [cr_address rec]) (dr_abnormal d))
              | Some true =>
                  if complete w rec
                  then Some (set_visit d rest (<[id := None]> (dr_observed d)) (dr_unconfirmed d)
                               (if ended_abnormally w rec then dr_abnormal d ++ [cr_address rec] else dr_abnormal d))
                  else Some skip
              end
          | None => Some skip
          end
      | _ => Some skip
      end
  end.

(** The last section of a drain. *)
Definition close_end w (d : Drain) : res Empty_set World :=
  let? e := match epoch (cache w) with
            | Some e => guard_panic (e <? U64_MAX) ;? Ok (Some (e + 1))
            | None => Ok None
            end in
  let w := set_observations w (alter (fun _ => dr_observed d) (dr_observer d) (observations w)) in
  Ok (set_drain (retain (set_cache w (set_epoch (cache w) e false))) None).

Definition set_default_config w (config : ClientIpcConfig) : World * res IpcError unit :=
  match budget (cache w) with
  | Some limits =>
      if bool_decide (limits = memory_budget_limits config)
      then (set_cache w (set_default (cache w) (Some config)), Ok tt) else (w, Err BudgetMismatch)
  | None => (set_cache w (set_default (cache w) (Some config)), Ok tt)
  end.

(** ** Runs *)

Inductive CacheMove :=
| Acquire (address : str) (config : option ClientIpcConfig)
| CheckEpoch (i : nat)
| Attempt (i : nat) (physical : bool) (failed : option bool)
| Retry (i : nat)
| DropFresh (i : nat)
| Publish (i : nat)
| DropLease (i : nat)
| IntoClient (i : nat)
| ReleaseIfSame (address : str) (i : nat)
| DiscardIfSame (address : str) (c : nat)
| Sweep
| DeactivateInstall (i : nat)
| DeactivateStop (i : nat)
| Seal
| ObserveCloses
| MergeSeed (i j : nat)
| CloseSection (i : nat)
| CloseVisit (timed_out : bool)
| CloseEnd
| SetDefault (config : ClientIpcConfig)
| StopAdmission (c : nat)
| EndConnection (c : nat) (reason : ConnectionEndReason)
| Pass (d : Z).

Definition on_acquirer w (i : nat) (f : Acquirer → res Empty_set World) : res Empty_set World :=
  match acquirers w !! i with Some q => f q | None => Ok w end.

Definition cache_step (grace : Z) w (m : CacheMove) : res Empty_set World :=
  match m with
  | Acquire address config => let? '(w, _) := acquire_begin grace w address config in Ok w
  | CheckEpoch i => on_acquirer w i (fun q => Ok (acquire_check w i q))
  | Attempt i physical failed =>
      on_acquirer w i (fun q =>
        Ok (if aq_checked q && bool_decide (aq_client q = None) then acquire_attempt w i q physical failed else w))
  | Retry i => on_acquirer w i (fun q => Ok (acquire_retry w i q))
  | DropFresh i => on_acquirer w i (fun q => Ok (drop_fresh w i q))
  | Publish i =>
      on_acquirer w i (fun q =>
        match aq_client q, aq_failed q with
        | Some c, None => let? '(w, _) := acquire_publish grace w i q c in Ok w
        | _, _ => Ok w
        end)
  | DropLease i => Ok (drop_lease w i)
  | IntoClient i => Ok (into_client w i)
  | ReleaseIfSame address i => Ok (release_if_same w address i)
  | DiscardIfSame address c => let? '(w, _) := discard_if_same w address c in Ok w
  | Sweep => sweep_expired grace w
  | DeactivateInstall i => Ok (deactivate_install w i)
  | DeactivateStop i => Ok (deactivate_stop w i)
  | Seal => Ok (seal w)
  | ObserveCloses => Ok (observe_closes w)
  | MergeSeed i j => Ok (merge_seed w i j)
  | CloseSection i =>
      match drain w, observations w !! i with None, Some observed => close_section w i observed | _, _ => Ok w end
  | CloseVisit timed_out =>
      Ok (match drain w with
          | Some d => match close_visit w d timed_out with Some d => set_drain w (Some d) | None => w end
          | None => w
          end)
  | CloseEnd =>
      match drain w with
      | Some d => if bool_decide (dr_left d = []) then close_end w d else Ok w
      | None => Ok w
      end
  | SetDefault config => Ok (set_default_config w config).1
  | StopAdmission c => Ok (set_client w c stop_client)
  | EndConnection c reason => Ok (set_client w c (end_client reason))
  | Pass d => Ok (set_now w (now w + Z.max 0 d))
  end.

Fixpoint cache_run (grace : Z) w (l : list CacheMove) : res Empty_set World :=
  match l with
  | [] => Ok w
  | m :: l => let? w := cache_step grace w m in cache_run grace w l
  end.
