(* ===== verification/ClientCacheSafe.v ===== *)
(** Safety of the connection cache: no physical connection is lost before its end is
    observed, leased connections are not found idle, leases carry the requested policy and
    the current epoch, and a sealed cache that was drained without open ends has closed
    everything. *)

From stdpp Require Import strings.
From S2P Require Import Prelude.
From S2P Require Import Float64.
From S2P Require Import Text.
From S2P Require Import ClientRefs.
From S2P Require Import IpcConfig.
From S2P Require Import ClientCache.

Implicit Types (w : World) (k : CacheState).

Lemma cache_run_inv (P : World → Prop) grace l w w' :
  (∀ w m w', P w → cache_step grace w m = Ok w' → P w') → P w → cache_run grace w l = Ok w' → P w'.
Proof.
  intros Hstep. revert w. induction l as [|m l IH]; intros w HP; cbn; [by intros [= <-]|].
  destruct (cache_step grace w m) as [w1| |] eqn:E; cbn; [|done..]. eauto.
Qed.

(** ** Every open connection has a home *)

(** The records of connects and detached connections, which are not decided yet. *)
Definition undecided w : list nat := (aq_record <$> acquirers w) ++ (detached w).*1.

Definition home w (c : nat) : Prop :=
  (∃ a, entries (cache w) !! a = Some c) ∨ c ∈ (detached w).*2 ∨ (∃ q, q ∈ acquirers w ∧ aq_client q = Some c)
  ∨ ∃ id r rec, records (cache w) !! id = Some r ∧ closes w !! r = Some rec ∧ cr_state rec = ClosingClient c.

Record tracked w : Prop := {
  t_records : ∀ id r, records (cache w) !! id = Some r → (r < length (closes w))%nat ∧ id < next_record (cache w);
  t_nodup : NoDup (undecided w);
  t_undecided : ∀ r, r ∈ undecided w →
    (∃ id, records (cache w) !! id = Some r) ∧ ∃ rec, closes w !! r = Some rec ∧ cr_state rec = Preparing;
  t_home : ∀ c client, clients w !! c = Some client → is_over client = false → home w c }.

Lemma tracked_new start : tracked (cache_world start).
Proof. split; cbn; try done; [apply NoDup_nil_2|by intros r ?%elem_of_nil]. Qed.

(** Only the fields that matter changed, and homes did not get fewer. *)
Lemma tracked_same w w' :
  records (cache w') = records (cache w) → next_record (cache w') = next_record (cache w) → closes w' = closes w →
  undecided w' ≡ₚ undecided w →
  (∀ c client', clients w' !! c = Some client' → is_over client' = false →
     home w' c ∨ home w c ∧ ∃ client, clients w !! c = Some client ∧ is_over client = false) →
  (∀ c client, clients w !! c = Some client → is_over client = false → home w c → home w' c) →
  tracked w → tracked w'.
Proof.
  intros Hr Hn Hc Hu Hcl Hh []. split; rewrite ?Hr, ?Hn, ?Hc; auto.
  - by rewrite Hu.
  - intros r. rewrite Hu. auto.
  - intros c client' Hc' Ho. destruct (Hcl c client' Hc' Ho) as [?|(? & client & ? & ?)]; eauto.
Qed.

Lemma record_incomplete w r rec : closes w !! r = Some rec → record_complete w r = complete w rec.
Proof. unfold record_complete. by intros ->. Qed.

Lemma closing_incomplete w r rec c client :
  closes w !! r = Some rec → cr_state rec = ClosingClient c → clients w !! c = Some client → is_over client = false →
  record_complete w r = false.
Proof. intros Hr Hs Hc Ho. rewrite (record_incomplete w r rec Hr). unfold complete. by rewrite Hs, Hc. Qed.

Lemma preparing_incomplete w r rec : closes w !! r = Some rec → cr_state rec = Preparing → record_complete w r = false.
Proof. intros Hr Hs. rewrite (record_incomplete w r rec Hr). unfold complete. by rewrite Hs. Qed.

Lemma tracked_retain w : tracked w → tracked (retain w).
Proof.
  intros []. split; cbn.
  - intros id r [? _]%map_lookup_filter_Some. eauto.
  - done.
  - intros r Hr. destruct (t_undecided0 r Hr) as [[id Hid] (rec & Hrec & Hp)]. split; [|eauto]. exists id.
    apply map_lookup_filter_Some. split; [done|]. by eapply preparing_incomplete.
  - intros c client Hc Ho. destruct (t_home0 c client Hc Ho) as [?|[?|[?|(id & r & rec & Hid & Hr & Hs)]]]; [by left|by right; left|by do 2 right; left|].
    do 3 right. exists id, r, rec. split; [|done]. apply map_lookup_filter_Some. split; [done|]. by eapply closing_incomplete.
Qed.

Lemma record_ok w address w' r :
  record w address = Ok (w', r) →
  r = length (closes w) ∧
  w' = set_cache (set_closes w (closes w ++ [record_preparing address]))
         (set_records (cache w) (<[next_record (cache w) := r]> (records (cache w))) (next_record (cache w) + 1)).
Proof. unfold record. intros (? & _ & [= <- <-])%bind_ok. done. Qed.

(** A new record is tracked; what it is for follows. *)
Lemma tracked_record w address w' r :
  tracked w → record w address = Ok (w', r) →
  tracked w' ∧ (∃ id, records (cache w') !! id = Some r) ∧ closes w' !! r = Some (record_preparing address) ∧ r ∉ undecided w'.
Proof.
  intros Hw [-> ->]%record_ok. destruct Hw. cbn. rewrite list_lookup_middle by done.
  split; [|split; [|split; [done|]]].
  - split; cbn.
    + intros id r [[<- <-]|[_ Hid]]%lookup_insert_Some; rewrite length_app; cbn; [lia|]. destruct (t_records0 id r Hid). lia.
    + done.
    + intros r Hr. destruct (t_undecided0 r Hr) as [[id Hid] (rec & Hrec & Hp)]. split.
      * exists id. rewrite lookup_insert_ne; [done|]. destruct (t_records0 id r Hid). lia.
      * exists rec. split; [by apply lookup_app_l_Some|done].
    + intros c client Hc Ho. destruct (t_home0 c client Hc Ho) as [?|[?|[?|(id & r & rec & Hid & Hr & Hs)]]]; [by left|by right; left|by do 2 right; left|].
      do 3 right. exists id, r, rec. cbn. rewrite lookup_insert_ne; [|destruct (t_records0 id r Hid); lia].
      split; [done|]. split; [by apply lookup_app_l_Some|done].
  - eexists. apply lookup_insert_eq.
  - intros Hr. destruct (t_undecided0 _ Hr) as [[id Hid] _]. destruct (t_records0 _ _ Hid). lia.
Qed.

(** A tracked record gets its connect or its detached connection. *)
Lemma tracked_push w w' r rec :
  tracked w → (∃ id, records (cache w) !! id = Some r) → closes w !! r = Some rec → cr_state rec = Preparing → r ∉ undecided w →
  records (cache w') = records (cache w) → next_record (cache w') = next_record (cache w) → closes w' = closes w →
  undecided w' ≡ₚ r :: undecided w → clients w' = clients w → (∀ c, home w c → home w' c) → tracked w'.
Proof.
  intros [] Hid Hrec Hp Hni Hr Hn Hc Hu Hcl Hh. split; rewrite ?Hr, ?Hn, ?Hc, ?Hcl; eauto.
  - rewrite Hu. by apply NoDup_cons.
  - intros r'. rewrite Hu, elem_of_cons. intros [->|?]; eauto.
Qed.

Lemma detach_ok w a w' :
  detach w a = Ok w' →
  entries (cache w) !! a = None ∧ w' = w ∨
  ∃ c w1 r, entries (cache w) !! a = Some c ∧ record w a = Ok (w1, r)
    ∧ w' = set_detached (set_cache w1 (set_entries (cache w1) (delete a (entries (cache w))))) (detached w ++ [(r, c)]).
Proof.
  unfold detach. destruct (entries (cache w) !! a) as [c|] eqn:E; [|intros [= <-]; auto]. right.
  apply bind_ok in H as ([w1 r] & Hr & [= <-]). unfold record in *. apply bind_ok in Hr as (u & Hg & [= <- <-]).
  cbn in *. exists c. do 2 eexists. split; [done|]. rewrite Hg. cbn. split; reflexivity.
Qed.

Lemma undecided_detached w r c : undecided (set_detached w (detached w ++ [(r, c)])) ≡ₚ r :: undecided w.
Proof. unfold undecided. cbn. rewrite fmap_app, app_assoc. cbn. by rewrite Permutation_app_comm. Qed.

Lemma tracked_detach w a w' : tracked w → detach w a = Ok w' → tracked w'.
Proof.
  intros Hw [[_ ->]|(c & w1 & r & Ha & Hr & ->)]%detach_ok; [done|].
  destruct (tracked_record w a w1 r Hw Hr) as (Hw1 & Hid & Hrec & Hni). apply record_ok in Hr as [-> ->].
  eapply tracked_push; [exact Hw1|exact Hid|exact Hrec|done|exact Hni|done..| | |]; [exact (undecided_detached w _ c)|done|].
  intros c' [[a' Ha']|[Hd|[Hq|Hr]]]; [|right; left|right; right; left|by do 3 right]; cbn in *; [|rewrite fmap_app; apply elem_of_app; by left|done].
  destruct (decide (a = a')) as [<-|Hne]; [|left; exists a'; cbn; by rewrite lookup_delete_ne].
  right. left. cbn. rewrite fmap_app. apply elem_of_app. right. simplify_eq. cbn. by left.
Qed.

Lemma tracked_detach_all w l w' : tracked w → detach_all w l = Ok w' → tracked w'.
Proof.
  revert w. induction l as [|a l IH]; intros w Hw; cbn; [by intros [= <-]|].
  intros (w1 & H1 & H2)%bind_ok. eapply IH; [|done]. by eapply tracked_detach.
Qed.

(** Clients only move forward. *)
Definition ages (l l' : list SyncClient) : Prop :=
  ∀ c x', l' !! c = Some x' → is_over x' = false → ∃ x, l !! c = Some x ∧ is_over x = false.

Lemma ages_alter (f : SyncClient → SyncClient) c l :
  (∀ x, is_over x = true → is_over (f x) = true) → ages l (alter f c l).
Proof.
  intros Hf c' x'. destruct (decide (c = c')) as [<-|]; [|rewrite list_lookup_alter_ne by done; eauto].
  rewrite list_lookup_alter_eq. intros (x & Hx & ->)%fmap_Some Ho. exists x. split; [done|].
  destruct (is_over x) eqn:E; [|done]. by rewrite Hf in Ho.
Qed.

Lemma stop_over x : is_over x = true → is_over (stop_client x) = true.
Proof. done. Qed.

Lemma end_over reason x : is_over x = true → is_over (end_client reason x) = true.
Proof. unfold is_over. destruct x as [? ph ? [e|] ?]; cbn; destruct ph; done. Qed.

Lemma tracked_client w c f : (∀ x, is_over x = true → is_over (f x) = true) → tracked w → tracked (set_client w c f).
Proof.
  intros Hf Hw. apply (tracked_same w); try done. intros c' x' Hc Ho. right.
  destruct (ages_alter f c (clients w) Hf c' x' Hc Ho) as (x & Hx & Hxo). split; [|eauto]. by eapply (t_home w Hw).
Qed.

(** The decision of an undecided record. *)
Lemma tracked_decide w w' r st :
  tracked w → undecided w ≡ₚ r :: undecided w' → records (cache w') = records (cache w) →
  next_record (cache w') = next_record (cache w) → closes w' = alter (set_state st) r (closes w) → clients w' = clients w →
  (∀ c, home w c → home w' c ∨ st = ClosingClient c) → tracked w'.
Proof.
  intros Hw Hu Hr Hn Hc Hcl Hh. destruct Hw.
  assert (Hnd : NoDup (r :: undecided w')) by (by rewrite <-Hu). apply NoDup_cons in Hnd as [Hni Hnd].
  destruct (t_undecided0 r) as [[id Hid] (rec & Hrec & Hp)]; [rewrite Hu; by left|].
  split; rewrite ?Hr, ?Hn, ?Hc, ?Hcl.
  - intros id' r' Hid'. rewrite length_alter. eauto.
  - done.
  - intros r' Hr'. destruct (t_undecided0 r') as [? (rec' & Hrec' & Hp')]; [rewrite Hu; by right|]. split; [done|].
    exists rec'. rewrite list_lookup_alter_ne; [done|]. intros ->. done.
  - intros c client Hcc Ho. destruct (Hh c (t_home0 c client Hcc Ho)) as [?|Hst]; [done|].
    do 3 right. exists id, r, (set_state st rec). rewrite Hr, Hc, list_lookup_alter_eq, Hrec. by rewrite Hst.
Qed.

Lemma home_closes_ne w r c st l :
  (∃ rec, closes w !! r = Some rec ∧ cr_state rec = Preparing) →
  (∃ id r' rec, records (cache w) !! id = Some r' ∧ closes w !! r' = Some rec ∧ cr_state rec = ClosingClient c) →
  l = alter (set_state st) r (closes w) →
  ∃ id r' rec, records (cache w) !! id = Some r' ∧ l !! r' = Some rec ∧ cr_state rec = ClosingClient c.
Proof.
  intros (rec0 & Hr0 & Hp) (id & r' & rec & Hid & Hr' & Hs) ->. exists id, r', rec. split; [done|]. split; [|done].
  rewrite list_lookup_alter_ne; [done|]. intros ->. simplify_eq. congruence.
Qed.

Lemma acquirers_delete w i q : acquirers w !! i = Some q → acquirers w ≡ₚ q :: delete i (acquirers w).
Proof. apply delete_Permutation. Qed.

Lemma undecided_remove w i q : acquirers w !! i = Some q → undecided w ≡ₚ aq_record q :: undecided (remove_acquirer w i).
Proof. intros Hi. unfold undecided. cbn. rewrite (acquirers_delete w i q Hi) at 1. done. Qed.

(** An undecided record of a connect. *)
Lemma acquirer_record w i q : tracked w → acquirers w !! i = Some q →
  (∃ id, records (cache w) !! id = Some (aq_record q)) ∧ ∃ rec, closes w !! aq_record q = Some rec ∧ cr_state rec = Preparing.
Proof.
  intros Hw Hi. apply (t_undecided w Hw). apply elem_of_app. left. apply list_elem_of_fmap_2. by eapply list_elem_of_lookup_2.
Qed.

Lemma tracked_drop_fresh w i q : tracked w → acquirers w !! i = Some q → tracked (drop_fresh w i q).
Proof.
  intros Hw Hi. pose proof (acquirer_record w i q Hw Hi) as [_ Hrec]. unfold drop_fresh.
  assert (Hq : ∀ c, (∃ q', q' ∈ acquirers w ∧ aq_client q' = Some c) →
    aq_client q = Some c ∨ ∃ q', q' ∈ delete i (acquirers w) ∧ aq_client q' = Some c).
  { intros c (q' & Hq' & Hc). rewrite (acquirers_delete w i q Hi), elem_of_cons in Hq'. destruct Hq' as [->|?]; eauto. }
  destruct (aq_client q) as [c|] eqn:Ec.
  - apply (tracked_same w); try done.
    + rewrite (undecided_detached (remove_acquirer w i)). by rewrite (undecided_remove w i q Hi).
    + intros c' x Hc' Ho. right. split; [|eauto]. by eapply (t_home w Hw).
    + intros c' x _ _ [?|[Hd|[Hq'|?]]]; [by left|right; left|right|by do 3 right]; cbn; rewrite ?fmap_app.
      * apply elem_of_app. by left.
      * destruct (Hq c' Hq') as [[= ->]|?]; [left; apply elem_of_app; right; cbn; by left|right; left; done].
  - apply (tracked_decide w _ (aq_record q) Finished); try done.
    + by rewrite (undecided_remove w i q Hi).
    + intros c [?|[?|[Hq'|Hr]]]; left; [by left|by right; left| |].
      * right; right; left. by destruct (Hq c Hq') as [|?].
      * do 3 right. by apply (home_closes_ne w (aq_record q) c Finished).
Qed.

(** A connect changes only its attempt. *)
Lemma undecided_insert w i q q' :
  acquirers w !! i = Some q → aq_record q' = aq_record q → undecided (set_acquirers w (<[i := q']> (acquirers w))) = undecided w.
Proof.
  intros Hi Hr. unfold undecided. cbn. f_equal. rewrite list_fmap_insert, Hr. apply list_insert_id.
  by rewrite list_lookup_fmap, Hi.
Qed.

Lemma acquirers_insert w i q q' c :
  acquirers w !! i = Some q → (aq_client q = Some c → aq_client q' = Some c) →
  (∃ p, p ∈ acquirers w ∧ aq_client p = Some c) → ∃ p, p ∈ <[i := q']> (acquirers w) ∧ aq_client p = Some c.
Proof.
  intros Hi Hc (p & [j Hj]%list_elem_of_lookup & Hp). destruct (decide (i = j)) as [<-|Hne].
  - exists q'. simplify_eq. split; [|auto]. apply list_elem_of_lookup. exists i. apply list_lookup_insert_eq. by eapply lookup_lt_Some.
  - exists p. split; [|done]. apply list_elem_of_lookup. exists j. by rewrite list_lookup_insert_ne.
Qed.

Lemma tracked_check w i q : tracked w → acquirers w !! i = Some q → tracked (acquire_check w i q).
Proof.
  intros Hw Hi. unfold acquire_check. destruct (check_epoch w (aq_epoch q)); [|by apply tracked_drop_fresh..].
  apply (tracked_same w); try done; [by rewrite (undecided_insert w i q)| |].
  - intros c x Hc Ho. right. split; [|eauto]. by eapply (t_home w Hw).
  - intros c x _ _ [?|[?|[Hq|?]]]; [by left|by right; left| |by do 3 right].
    right; right; left. cbn. by apply (acquirers_insert w i q).
Qed.

Lemma tracked_retry w i q : tracked w → acquirers w !! i = Some q → tracked (acquire_retry w i q).
Proof.
  intros Hw Hi. unfold acquire_retry. destruct (aq_client q) as [c|] eqn:Ec; [|done].
  destruct (may_retry q && _) eqn:E; [|done]. apply andb_true_iff in E as [_ E].
  apply (tracked_same w); try done; [by rewrite (undecided_insert w i q)| |].
  - intros c' x Hc Ho. right. split; [|eauto]. by eapply (t_home w Hw).
  - intros c' x Hx Ho [?|[?|[Hq|?]]]; [by left|by right; left| |by do 3 right].
    right; right; left. cbn. apply (acquirers_insert w i q); try done. intros Hc'. cbn.
    rewrite Ec in Hc'. injection Hc' as ->. rewrite Hx in E. cbn in E. congruence.
Qed.

Lemma tracked_attempt w i q physical failed :
  tracked w → acquirers w !! i = Some q → aq_client q = None → tracked (acquire_attempt w i q physical failed).
Proof.
  intros Hw Hi Hn.
  assert (Hkeep : ∀ c, home w c → home (acquire_attempt w i q physical failed) c).
  { intros c [?|[?|[Hq|?]]]; [by left|by right; left| |by do 3 right].
    right; right; left. cbn. apply (acquirers_insert w i q); try done. by rewrite Hn. }
  apply (tracked_same w); try done; [| |auto].
  - pose proof (undecided_insert w i q (with_attempt q (aq_attempt q) false (Some (length (clients w))) failed) Hi eq_refl) as Hu.
    unfold undecided in *. cbn in *. by rewrite Hu.
  - intros c x Hc Ho. cbn in Hc. apply lookup_app_Some in Hc as [Hc|[Hge Hc]].
    + right. split; [|eauto]. by eapply (t_home w Hw).
    + left. right; right; left. cbn. apply list_lookup_singleton_Some in Hc as [Hc _].
      exists (with_attempt q (aq_attempt q) false (Some (length (clients w))) failed). split.
      * apply list_elem_of_lookup. exists i. apply list_lookup_insert_eq. by eapply lookup_lt_Some.
      * cbn. f_equal. lia.
Qed.

Lemma tracked_install w i : tracked w → tracked (deactivate_install w i).
Proof.
  intros Hw. unfold deactivate_install. destruct (detached w !! i) as [[r c]|] eqn:Hi; [|done].
  assert (Hp : detached w ≡ₚ (r, c) :: delete i (detached w)) by (by apply delete_Permutation).
  assert (Hu : undecided w ≡ₚ r :: (aq_record <$> acquirers w) ++ (delete i (detached w)).*1).
  { unfold undecided. rewrite Hp at 1. cbn. by rewrite Permutation_middle. }
  apply (tracked_decide w _ r (ClosingClient c)); try done.
  intros c' [?|[Hd|[?|Hr]]]; [by left; left| |by left; right; right; left|].
  - rewrite Hp in Hd. cbn in Hd. apply elem_of_cons in Hd as [->|Hd]; [by right|left]. by right; left.
  - left. do 3 right. apply (home_closes_ne w r c' (ClosingClient c)); try done.
    destruct (t_undecided w Hw r) as [_ ?]; [rewrite Hu; by left|done].
Qed.

Lemma detach_frame w a w' : detach w a = Ok w' →
  acquirers w' = acquirers w ∧ clients w' = clients w ∧ refs w' = refs w ∧ now w' = now w ∧ leases w' = leases w
  ∧ explicit w' = explicit w ∧ drain w' = drain w ∧ entries (cache w') = delete a (entries (cache w))
  ∧ epoch (cache w') = epoch (cache w) ∧ draining (cache w') = draining (cache w) ∧ budget (cache w') = budget (cache w).
Proof.
  intros [[Ha ->]|(c & w1 & r & Ha & [-> ->]%record_ok & ->)]%detach_ok; cbn; [|done].
  by rewrite delete_id.
Qed.

Lemma detach_all_frame w l w' : detach_all w l = Ok w' →
  acquirers w' = acquirers w ∧ clients w' = clients w ∧ refs w' = refs w ∧ now w' = now w ∧ leases w' = leases w
  ∧ explicit w' = explicit w ∧ drain w' = drain w
  ∧ (∀ a, entries (cache w') !! a = if bool_decide (a ∈ l) then None else entries (cache w) !! a)
  ∧ epoch (cache w') = epoch (cache w) ∧ draining (cache w') = draining (cache w) ∧ budget (cache w') = budget (cache w).
Proof.
  revert w. induction l as [|a l IH]; intros w; cbn; [by intros [= <-]|].
  intros (w1 & (E1 & E2 & E3 & E4 & E5 & E6 & E7 & E8 & E9 & E10 & E11)%detach_frame & H2)%bind_ok.
  destruct (IH w1 H2) as (-> & -> & -> & -> & -> & -> & -> & Hent & -> & -> & ->). repeat (split; [done|]).
  split; [|done]. intros a'. rewrite Hent, E8. destruct (decide (a' = a)) as [->|Hne].
  - rewrite lookup_delete_eq, (bool_decide_true (a ∈ a :: l)) by (by left). by case_bool_decide.
  - rewrite lookup_delete_ne by done.
    by rewrite (bool_decide_ext (a' ∈ a :: l) (a' ∈ l)) by (rewrite elem_of_cons; naive_solver).
Qed.

Lemma tracked_publish grace w i q c w' answer :
  tracked w → acquirers w !! i = Some q → aq_client q = Some c → acquire_publish grace w i q c = Ok (w', answer) → tracked w'.
Proof.
  intros Hw Hi Hc. unfold acquire_publish. destruct (check_epoch w (aq_epoch q)); [|intros [= <- _]; by apply tracked_drop_fresh|done].
  destruct (usable grace w (aq_address q)) as [c'|].
  - unfold share. destruct (clients w !! c') as [client|]; [|intros [= <- _]; by apply tracked_drop_fresh].
    destruct (config_eqb _ _); intros [= <- _]; apply tracked_drop_fresh; try done. by apply (tracked_same w); try done; intros; right; split; [by eapply (t_home w Hw)|eauto].
  - intros (w1 & Hd & [= <- _])%bind_ok. pose proof (tracked_detach w _ w1 Hw Hd) as Hw1.
    destruct (detach_frame _ _ _ Hd) as (Ea & Ecl & _ & _ & _ & _ & _ & Eent & _).
    assert (Hi1 : acquirers w1 !! i = Some q) by (by rewrite Ea).
    apply (tracked_decide w1 _ (aq_record q) Finished); try done; [by rewrite (undecided_remove w1 i q Hi1)|].
    intros x [[b Ha]|[?|[(q' & Hq' & Hx)|Hr]]]; left.
    + left. exists b. cbn. rewrite lookup_insert_ne; [done|]. intros <-. rewrite Eent, lookup_delete_eq in Ha. done.
    + by right; left.
    + rewrite (acquirers_delete w1 i q Hi1), elem_of_cons in Hq'. destruct Hq' as [->|Hq'].
      * left. exists (aq_address q). cbn. rewrite lookup_insert_eq. congruence.
      * right; right; left. exists q'. done.
    + do 3 right. pose proof (acquirer_record w1 i q Hw1 Hi1) as [_ Hrec]. by apply (home_closes_ne w1 (aq_record q) x Finished).
Qed.

(** Steps that touch neither records nor homes. *)
Lemma tracked_frame w w' :
  records (cache w') = records (cache w) → next_record (cache w') = next_record (cache w) → closes w' = closes w →
  acquirers w' = acquirers w → detached w' = detached w → clients w' = clients w → entries (cache w') = entries (cache w) →
  tracked w → tracked w'.
Proof.
  intros Hr Hn Hc Ha Hd Hcl He Hw. apply (tracked_same w); try done.
  - unfold undecided. by rewrite Ha, Hd.
  - rewrite Hcl. intros c x Hx Ho. right. split; [by eapply (t_home w Hw)|eauto].
  - unfold home. by rewrite Hr, Hc, Ha, Hd, He.
Qed.

Lemma tracked_begin grace w a config w' answer : tracked w → acquire_begin grace w a config = Ok (w', answer) → tracked w'.
Proof.
  intros Hw. unfold acquire_begin. destruct (epoch (cache w)) as [e|]; [|by intros [= <- _]].
  destruct (draining (cache w)); [by intros [= <- _]|]. set (w1 := set_cache (retain w) _).
  assert (Hw1 : tracked w1) by (by apply (tracked_frame (retain w)), tracked_retain). clearbody w1.
  destruct (negb _); [by intros [= <- _]|]. destruct (usable grace w1 a) as [c|].
  - unfold share. destruct (clients w1 !! c) as [x|]; [|by intros [= <- _]]. destruct (config_eqb _ _); intros [= <- _]; [|done].
    by apply (tracked_frame w1).
  - intros (w2 & H2 & ([w3 r] & H3 & [= <- _])%bind_ok)%bind_ok. pose proof (tracked_detach_all w1 _ w2 Hw1 H2) as Hw2.
    destruct (tracked_record w2 a w3 r Hw2 H3) as (Hw3 & Hid & Hrec & Hni).
    eapply tracked_push; [exact Hw3|exact Hid|exact Hrec|done|exact Hni|done..| |done|].
    + unfold undecided. cbn. rewrite fmap_app. cbn. rewrite <-app_assoc. cbn. by rewrite Permutation_middle.
    + intros c [?|[?|[(q & Hq & ?)|?]]]; [by left|by right; left| |by do 3 right].
      right; right; left. exists q. cbn. split; [apply elem_of_app; by left|done].
Qed.

Lemma release_refs_frame w c :
  cache (release_refs w c) = cache w ∧ clients (release_refs w c) = clients w ∧ closes (release_refs w c) = closes w
  ∧ now (release_refs w c) = now w ∧ acquirers (release_refs w c) = acquirers w ∧ detached (release_refs w c) = detached w
  ∧ leases (release_refs w c) = leases w ∧ explicit (release_refs w c) = explicit w ∧ drain (release_refs w c) = drain w.
Proof. unfold release_refs. destruct (refs w !! c); [|done]. by destruct (refs_release _ _). Qed.

(** Moves that only count references. *)
Lemma holders_frame grace w m w' :
  cache_step grace w m = Ok w' → match m with DropLease _ | IntoClient _ | ReleaseIfSame _ _ => True | _ => False end →
  cache w' = cache w ∧ clients w' = clients w ∧ closes w' = closes w ∧ now w' = now w ∧ acquirers w' = acquirers w
  ∧ detached w' = detached w ∧ drain w' = drain w.
Proof.
  destruct m as [| | | | | |i|i|a i| | | | | | | | | | | | | |]; try done; intros [= <-] _.
  - unfold drop_lease. destruct (leases w !! i) as [l|]; [|done].
    by destruct (release_refs_frame (set_leases w (delete i (leases w))) (ls_client l)) as (-> & -> & -> & -> & -> & -> & _ & _ & ->).
  - unfold into_client. by destruct (leases w !! i).
  - unfold release_if_same. destruct (explicit w !! i) as [l|]; [|done]. cbn. case_bool_decide; [|done].
    by destruct (release_refs_frame (set_explicit w (delete i (explicit w))) (ls_client l)) as (-> & -> & -> & -> & -> & -> & _ & _ & ->).
Qed.

Lemma tracked_close_section w i observed w' : tracked w → close_section w i observed = Ok w' → tracked w'.
Proof.
  intros Hw (w1 & H1 & [= <-])%bind_ok. apply (tracked_frame w1); try done.
  eapply tracked_detach_all; [|exact H1]. by apply (tracked_frame w).
Qed.

Lemma tracked_close_end w d w' : tracked w → close_end w d = Ok w' → tracked w'.
Proof.
  intros Hw (e & _ & [= <-])%bind_ok.
  match goal with |- tracked (set_drain (retain ?v) None) => apply (tracked_frame (retain v)); try done; apply tracked_retain end.
  by apply (tracked_frame w).
Qed.

Lemma tracked_step grace w m w' : tracked w → cache_step grace w m = Ok w' → tracked w'.
Proof.
  intros Hw E. assert (Hacq : ∀ i f, (∀ q, acquirers w !! i = Some q → f q = Ok w' → tracked w') → on_acquirer w i f = Ok w' → tracked w').
  { intros i f Hf. unfold on_acquirer. destruct (acquirers w !! i) as [q|] eqn:Hi; [eauto|by intros [= <-]]. }
  destruct m as [a config|i|i physical failed|i|i|i|i|i|a i|a c| |i|i| | |i j|i|t| |config|c|c reason|d];
    try (by destruct (holders_frame grace w _ w' E I) as (H1 & H2 & H3 & H4 & H5 & H6 & _); apply (tracked_frame w); try done; rewrite H1); cbn [cache_step] in E.
  - apply bind_ok in E as ([w1 answer] & E & [= <-]). by eapply tracked_begin.
  - revert E. apply Hacq. intros q Hi [= <-]. by apply tracked_check.
  - revert E. apply Hacq. intros q Hi [= <-]. destruct (_ && _) eqn:Ec; [|done].
    apply andb_true_iff in Ec as [_ Ec%bool_decide_eq_true]. by apply tracked_attempt.
  - revert E. apply Hacq. intros q Hi [= <-]. by apply tracked_retry.
  - revert E. apply Hacq. intros q Hi [= <-]. by apply tracked_drop_fresh.
  - revert E. apply Hacq. intros q Hi. destruct (aq_client q) as [c|] eqn:Ec; [|by intros [= <-]]. destruct (aq_failed q); [by intros [= <-]|].
    intros ([w1 answer] & E & [= <-])%bind_ok. by eapply tracked_publish.
  - apply bind_ok in E as ([w1 b] & E & [= <-]). unfold discard_if_same in E. case_bool_decide; [|by injection E as <-].
    apply bind_ok in E as (w2 & E & [= <- _]). by eapply tracked_detach.
  - eapply tracked_detach_all; [|exact E]. by apply tracked_retain.
  - injection E as <-. by apply tracked_install.
  - injection E as <-. unfold deactivate_stop. destruct (stopping w !! i) as [c|]; [|done].
    apply (tracked_frame (set_client w c stop_client)); try done. by apply tracked_client.
  - injection E as <-. by apply (tracked_frame w).
  - injection E as <-. by apply (tracked_frame w).
  - injection E as <-. unfold merge_seed. destruct (seeds w !! j); [|done]. by apply (tracked_frame w).
  - destruct (drain w); [by injection E as <-|]. destruct (observations w !! i); [|by injection E as <-].
    by eapply tracked_close_section.
  - injection E as <-. destruct (drain w) as [dr|]; [|done]. destruct (close_visit w dr t); [|done]. by apply (tracked_frame w).
  - destruct (drain w) as [dr|]; [|by injection E as <-]. case_bool_decide; [|by injection E as <-]. by eapply tracked_close_end.
  - injection E as <-. unfold set_default_config. destruct (budget (cache w)); [case_bool_decide|]; try done; by apply (tracked_frame w).
  - injection E as <-. by apply tracked_client.
  - injection E as <-. apply tracked_client; [apply end_over|done].
  - injection E as <-. by apply (tracked_frame w).
Qed.

(** ** What acquisitions do *)

Definition shared w (c : nat) (cfg : ClientIpcConfig) (e : Z) : World :=
  lease (set_world_refs w (alter refs_acquire c (refs w))) c cfg e.

Definition published w (i : nat) (q : Acquirer) (c : nat) : World :=
  let w := set_cache w (set_entries (cache w) (<[aq_address q := c]> (entries (cache w)))) in
  let w := set_world_refs w (<[c := PoolReferences_new (now w)]> (refs w)) in
  lease (set_close (remove_acquirer w i) (aq_record q) Finished) c (aq_config q) (aq_epoch q).

Definition connecting w (a : str) (cfg : ClientIpcConfig) (e : Z) (r : nat) : World :=
  set_acquirers w (acquirers w ++
    [{| aq_address := a; aq_config := cfg; aq_epoch := e; aq_record := r; aq_attempt := 0; aq_checked := false;
        aq_client := None; aq_failed := None |}]).

Definition prepared w (limits : MemoryBudgetLimits) : World :=
  let w := retain w in set_cache w (set_budget (cache w) (Some limits)).

Lemma usable_ok grace w a c : usable grace w a = Some c →
  entries (cache w) !! a = Some c ∧ (∃ x, clients w !! c = Some x ∧ is_connected x = true) ∧ expired grace w c = false.
Proof.
  unfold usable. destruct (entries (cache w) !! a) as [c'|]; [|done]. destruct (from_option _ _ _ && _) eqn:E; [|done].
  intros [= <-]. apply andb_true_iff in E as [E1 E2%negb_true_iff]. split; [done|]. split; [|done].
  destruct (clients w !! c') as [x|]; [by exists x|done].
Qed.

Inductive grants (grace : Z) w (a : str) (cfg : ClientIpcConfig) (e : Z) : World → Prop :=
| grants_same : grants grace w a cfg e w
| grants_shared c x :
    usable grace w a = Some c → clients w !! c = Some x → config_eqb (sc_config x) cfg = true →
    grants grace w a cfg e (shared w c cfg e).

Lemma share_grants grace w a c cfg e : usable grace w a = Some c → grants grace w a cfg e (share w c cfg e).1.
Proof.
  intros Hu. destruct (usable_ok _ _ _ _ Hu) as (_ & (x & Hx & _) & _). unfold share. rewrite Hx.
  destruct (config_eqb _ _) eqn:E; [by eapply grants_shared|apply grants_same].
Qed.

Inductive begins (grace : Z) w (a : str) : World → Prop :=
| begins_refused : begins grace w a w
| begins_granted e cfg limits w' :
    epoch (cache w) = Some e → draining (cache w) = false → limits = default (memory_budget_limits cfg) (budget (cache w)) →
    grants grace (prepared w limits) a cfg e w' → begins grace w a w'
| begins_connect e cfg w2 w3 r :
    epoch (cache w) = Some e → draining (cache w) = false →
    memory_budget_limits cfg = default (memory_budget_limits cfg) (budget (cache w)) →
    usable grace (prepared w (memory_budget_limits cfg)) a = None →
    detach_all (prepared w (memory_budget_limits cfg)) (evicted grace (prepared w (memory_budget_limits cfg)) (Some a)) = Ok w2 →
    record w2 a = Ok (w3, r) → begins grace w a (connecting w3 a cfg e r).

Lemma begin_begins grace w a config w' answer : acquire_begin grace w a config = Ok (w', answer) → begins grace w a w'.
Proof.
  unfold acquire_begin. destruct (epoch (cache w)) as [e|] eqn:Ee; [|intros [= <- _]; apply begins_refused].
  destruct (draining (cache w)) eqn:Ed; [intros [= <- _]; apply begins_refused|].
  set (cfg := default _ config). cbn [cache retain set_cache budget set_records].
  set (limits := default (memory_budget_limits cfg) (budget (cache w))).
  change (set_cache (retain w) _) with (prepared w limits).
  destruct (bool_decide (limits = memory_budget_limits cfg)) eqn:El; cbn [negb].
  - apply bool_decide_eq_true in El. destruct (usable grace (prepared w limits) a) as [c|] eqn:Eu.
    + intros [= E]. apply (begins_granted grace w a e cfg limits); try done.
      replace w' with (share (prepared w limits) c cfg e).1 by (by rewrite E). by apply share_grants.
    + intros (w2 & H2 & ([w3 r] & H3 & [= <- _])%bind_ok)%bind_ok. rewrite El in *.
      by apply (begins_connect grace w a e cfg w2 w3 r).
  - intros [= <- _]. apply (begins_granted grace w a e cfg limits); try done. apply grants_same.
Qed.

Inductive publishes (grace : Z) w (i : nat) (q : Acquirer) (c : nat) : World → Prop :=
| publishes_refused : publishes grace w i q c (drop_fresh w i q)
| publishes_granted w1 :
    check_epoch w (aq_epoch q) = Ok tt → grants grace w (aq_address q) (aq_config q) (aq_epoch q) w1 →
    publishes grace w i q c (drop_fresh w1 i q)
| publishes_new w1 :
    check_epoch w (aq_epoch q) = Ok tt → detach w (aq_address q) = Ok w1 → publishes grace w i q c (published w1 i q c).

Lemma publish_publishes grace w i q c w' answer : acquire_publish grace w i q c = Ok (w', answer) → publishes grace w i q c w'.
Proof.
  unfold acquire_publish. destruct (check_epoch w (aq_epoch q)) as [[]| |] eqn:Ec; [|intros [= <- _]; apply publishes_refused|done].
  destruct (usable grace w (aq_address q)) as [c'|] eqn:Eu.
  - pose proof (share_grants grace w (aq_address q) c' (aq_config q) (aq_epoch q) Eu) as Hg.
    destruct (share _ _ _ _) as [w1 ans]. intros [= <- _]. by apply publishes_granted.
  - intros (w1 & Hd & [= <- _])%bind_ok. by apply publishes_new.
Qed.

Lemma check_epoch_ok w e : check_epoch w e = Ok tt → epoch (cache w) = Some e ∧ draining (cache w) = false.
Proof.
  unfold check_epoch. destruct (epoch (cache w)) as [e'|]; [|done]. intros E%guard_err_ok.
  apply orb_false_iff in E as [? E%negb_false_iff%Z.eqb_eq]. by subst.
Qed.

(** ** References, policies and epochs *)

Definition held (l : list ClientLease) (c : nat) : Z := blen (filter (fun x => ls_client x = c) l).

Lemma held_nonneg l c : 0 <= held l c.
Proof. unfold held, blen. lia. Qed.

Lemma held_cons x l c : held (x :: l) c = (if bool_decide (ls_client x = c) then 1 else 0) + held l c.
Proof. unfold held, blen. rewrite filter_cons. case_bool_decide; case_decide; try done; cbn [length]; lia. Qed.

Lemma held_perm l l' c : l ≡ₚ l' → held l c = held l' c.
Proof. intros H. unfold held, blen. by rewrite H. Qed.

Definition holds w (c : nat) : Z := held (leases w ++ explicit w) c.

Lemma holds_lease w c' cfg e c : holds (lease w c' cfg e) c = holds w c + if bool_decide (c' = c) then 1 else 0.
Proof.
  unfold holds, lease. cbn. rewrite (held_perm _ ({| ls_client := c'; ls_config := cfg; ls_epoch := e |} :: leases w ++ explicit w)).
  - rewrite held_cons. cbn. lia.
  - rewrite <-app_assoc. cbn. by rewrite Permutation_middle.
Qed.

(** A client keeps its policy and its epoch. *)
Definition keeps (l l' : list SyncClient) : Prop :=
  ∀ c x, l !! c = Some x → ∃ x', l' !! c = Some x' ∧ sc_config x' = sc_config x ∧ sc_epoch x' = sc_epoch x.

Lemma client_keeps_refl l : keeps l l.
Proof. intros c x Hx. eauto. Qed.

Lemma keeps_alter (f : SyncClient → SyncClient) c l :
  (∀ x, sc_config (f x) = sc_config x ∧ sc_epoch (f x) = sc_epoch x) → keeps l (alter f c l).
Proof.
  intros Hf c' x Hx. destruct (decide (c = c')) as [<-|]; [|rewrite list_lookup_alter_ne by done; eauto].
  exists (f x). rewrite list_lookup_alter_eq, Hx. split; [done|apply Hf].
Qed.

Lemma keeps_app l x : keeps l (l ++ [x]).
Proof. intros c y Hy. exists y. split; [by apply lookup_app_l_Some|done]. Qed.

Record sound w : Prop := {
  s_entries : ∀ a c, entries (cache w) !! a = Some c →
    is_Some (refs w !! c) ∧ ∃ x, clients w !! c = Some x ∧ (epoch (cache w) = Some (sc_epoch x) ∨ epoch (cache w) = None);
  s_refs : ∀ c, is_Some (refs w !! c) → is_Some (clients w !! c);
  s_acquirers : ∀ q, q ∈ acquirers w →
    budget (cache w) = Some (memory_budget_limits (aq_config q)) ∧
    ∀ c, aq_client q = Some c → refs w !! c = None ∧ ∃ x, clients w !! c = Some x ∧ sc_config x = aq_config q ∧ sc_epoch x = aq_epoch q;
  s_nodup : NoDup (omap aq_client (acquirers w));
  s_count : ∀ c, holds w c <= from_option pr_count 0 (refs w !! c);
  s_leases : ∀ l, l ∈ leases w ++ explicit w →
    ∃ x, clients w !! ls_client l = Some x ∧ sc_epoch x = ls_epoch l
         ∧ (sc_config x = ls_config l ∨ config_eqb (sc_config x) (ls_config l) = true);
  s_budget : ∀ c x, clients w !! c = Some x → budget (cache w) = Some (memory_budget_limits (sc_config x));
  s_drain : draining (cache w) = true ↔ is_Some (drain w);
  s_empty : draining (cache w) = true → entries (cache w) = ∅ }.

Lemma sound_new start : sound (cache_world start).
Proof.
  split; cbn; try done; try (by intros ? ?%elem_of_nil); [by intros ? [? ?]|apply NoDup_nil_2|..]; try done; by split; [|intros []].
Qed.

(** Entries may leave and clients may age. *)
Lemma sound_frame w w' :
  entries (cache w') ⊆ entries (cache w) → keeps (clients w) (clients w') → length (clients w') = length (clients w) →
  refs w' = refs w → acquirers w' = acquirers w → leases w' = leases w → explicit w' = explicit w →
  (is_Some (drain w') ↔ is_Some (drain w)) → epoch (cache w') = epoch (cache w) ∨ epoch (cache w') = None →
  draining (cache w') = draining (cache w) → budget (cache w') = budget (cache w) → sound w → sound w'.
Proof.
  intros He Hk Hlen Hr Ha Hl Hx Hd Hep Hdr Hb []. unfold holds in *.
  split; unfold holds; rewrite ?Hr, ?Ha, ?Hl, ?Hx, ?Hdr, ?Hb; auto.
  - intros a c Hc. destruct (s_entries0 a c) as (? & x & Hxc & Hxe); [by eapply lookup_weaken|]. split; [done|].
    destruct (Hk c x Hxc) as (x' & ? & ? & Hxe'). exists x'. split; [done|]. rewrite Hxe'. destruct Hep as [->| ->]; auto.
  - intros c Hc. destruct (s_refs0 c Hc) as [x Hxc]. destruct (Hk c x Hxc) as (x' & ? & _). eauto.
  - intros q Hq. destruct (s_acquirers0 q Hq) as [? Hc]. split; [done|]. intros c Hqc.
    destruct (Hc c Hqc) as (? & x & Hxc & ? & ?). split; [done|]. destruct (Hk c x Hxc) as (x' & ? & ? & ?). exists x'.
    repeat split; congruence.
  - intros l Hin. destruct (s_leases0 l Hin) as (x & Hxc & ? & ?). destruct (Hk _ x Hxc) as (x' & ? & E1 & E2). exists x'.
    rewrite E1, E2. auto.
  - intros c x' Hx'. destruct (clients w !! c) as [x|] eqn:Ex.
    + destruct (Hk c x Ex) as (x2 & ? & E1 & _). simplify_eq. rewrite E1. eauto.
    + apply lookup_ge_None in Ex. apply lookup_lt_Some in Hx'. lia.
  - by rewrite Hd.
  - intros H. apply map_empty. intros a. specialize (s_empty0 H). rewrite s_empty0 in He.
    destruct (entries (cache w') !! a) eqn:E; [|done]. by apply (lookup_weaken _ _ _ _ E) in He.
Qed.

Lemma sound_prepared w cfg : sound w → sound (prepared w (default (memory_budget_limits cfg) (budget (cache w)))).
Proof.
  intros Hw. destruct (budget (cache w)) as [b|] eqn:Eb; cbn.
  - by apply (sound_frame w); try apply client_keeps_refl; try done; left.
  - destruct Hw. split; cbn; auto; rewrite Eb in *.
    + intros q Hq. by destruct (s_acquirers0 q Hq).
    + intros c x Hx. by specialize (s_budget0 c x Hx).
Qed.

Lemma sound_detach w a w' : sound w → detach w a = Ok w' → sound w'.
Proof.
  intros Hw (E1 & E2 & E3 & E4 & E5 & E6 & E7 & E8 & E9 & E10 & E11)%detach_frame. apply (sound_frame w); rewrite ?E8, ?E2, ?E7; auto.
  - apply delete_subseteq.
  - apply client_keeps_refl.
Qed.

Lemma sound_detach_all w l w' : sound w → detach_all w l = Ok w' → sound w'.
Proof.
  revert w. induction l as [|a l IH]; intros w Hw; cbn; [by intros [= <-]|].
  intros (w1 & H1 & H2)%bind_ok. eapply IH; [|done]. by eapply sound_detach.
Qed.

Lemma sound_shared w c x cfg e :
  sound w → is_Some (refs w !! c) → clients w !! c = Some x → sc_epoch x = e → config_eqb (sc_config x) cfg = true →
  sound (shared w c cfg e).
Proof.
  intros [] [r Hr] Hx He Hc. unfold shared. split; cbn; auto.
  - intros a c' Ha. destruct (s_entries0 a c' Ha). split; [|done]. apply lookup_alter_is_Some. done.
  - intros c' Hc'. apply s_refs0. by apply lookup_alter_is_Some in Hc'.
  - intros q Hq. destruct (s_acquirers0 q Hq) as [? Hcl]. split; [done|]. intros c' Hc'. destruct (Hcl c' Hc') as [Hn ?].
    split; [|done]. rewrite lookup_alter_ne; [done|]. intros ->. congruence.
  - intros c'. rewrite holds_lease. specialize (s_count0 c'). unfold holds in *. cbn. case_bool_decide as Hcc.
    + subst c'. rewrite lookup_alter_eq, Hr. rewrite Hr in s_count0. cbn in *. lia.
    + rewrite lookup_alter_ne by done. lia.
  - intros l. rewrite <-app_assoc. intros [?|[->|?]%elem_of_cons]%elem_of_app; cbn; [..|];
      [apply s_leases0, elem_of_app; auto|exists x; auto|apply s_leases0, elem_of_app; auto].
Qed.

Lemma sound_grants grace w a cfg e w' :
  sound w → epoch (cache w) = Some e → grants grace w a cfg e w' → sound w'.
Proof.
  intros Hw He [|c x Hu Hx Hc]; [done|]. destruct (usable_ok _ _ _ _ Hu) as (Ha & _ & _).
  destruct (s_entries w Hw a c Ha) as (Hr & x' & Hx' & Hxe). simplify_eq.
  eapply sound_shared; try done. destruct Hxe; congruence.
Qed.

Lemma grants_frame grace w a cfg e w' : grants grace w a cfg e w' → acquirers w' = acquirers w ∧ clients w' = clients w ∧ cache w' = cache w ∧ closes w' = closes w ∧ detached w' = detached w ∧ drain w' = drain w.
Proof. by intros []. Qed.

Lemma omap_delete_nodup {A B} (f : A → option B) (l : list A) i x : l !! i = Some x → NoDup (omap f l) → NoDup (omap f (delete i l)) ∧ ∀ y, f x = Some y → y ∉ omap f (delete i l).
Proof.
  intros Hi. rewrite (delete_Permutation l i x Hi) at 1. cbn. destruct (f x) as [y|]; [|by split].
  intros [? ?]%NoDup_cons. split; [done|]. by intros ? [= <-].
Qed.

Lemma sound_remove w i : sound w → sound (remove_acquirer w i).
Proof.
  intros Hw. destruct (acquirers w !! i) as [q|] eqn:Hi; [|].
  - destruct Hw. destruct (omap_delete_nodup aq_client _ _ _ Hi s_nodup0). split; cbn; auto.
    intros q' Hq'. apply s_acquirers0. by eapply list_elem_of_delete_inv.
  - apply (sound_frame w); try apply client_keeps_refl; try done; [|by left]. cbn. apply list_eq. intros j.
    apply lookup_ge_None in Hi. destruct (decide (j < i)%nat); [by rewrite list_lookup_delete_lt|].
    rewrite list_lookup_delete_ge by lia. rewrite !lookup_ge_None_2 by lia. done.
Qed.

Lemma sound_drop_fresh w i q : sound w → sound (drop_fresh w i q).
Proof.
  intros Hw. apply (sound_remove w i) in Hw. unfold drop_fresh.
  destruct (aq_client q); apply (sound_frame (remove_acquirer w i)); try apply client_keeps_refl; try done; by left.
Qed.

Lemma insert_permutation {A} (l : list A) i x y : l !! i = Some x → <[i := y]> l ≡ₚ y :: delete i l.
Proof.
  intros Hi. rewrite (delete_Permutation (<[i := y]> l) i y) by (apply list_lookup_insert_eq; by eapply lookup_lt_Some).
  apply Permutation_cons; [done|]. apply reflexive_eq, list_eq. intros j.
  destruct (decide (j < i)%nat); [rewrite !list_lookup_delete_lt by done|rewrite !list_lookup_delete_ge by lia];
    by rewrite list_lookup_insert_ne by lia.
Qed.

(** A connect whose candidate stays or goes. *)
Lemma sound_attempt_kept w i q q' :
  sound w → acquirers w !! i = Some q → aq_config q' = aq_config q → aq_epoch q' = aq_epoch q →
  aq_client q' = aq_client q ∨ aq_client q' = None → sound (set_acquirers w (<[i := q']> (acquirers w))).
Proof.
  intros [] Hi Hcfg He Hcl. destruct (omap_delete_nodup aq_client _ _ _ Hi s_nodup0) as [Hnd Hni]. split; cbn; auto.
  - intros p. rewrite (insert_permutation _ _ _ _ Hi), elem_of_cons. intros [->|Hp].
    + rewrite Hcfg, He. destruct (s_acquirers0 q) as [? Hc]; [by eapply list_elem_of_lookup_2|]. split; [done|].
      destruct Hcl as [->| ->]; [done|by intros ? ?].
    + apply s_acquirers0. by eapply list_elem_of_delete_inv.
  - rewrite (insert_permutation _ _ _ _ Hi). cbn. destruct Hcl as [->| ->]; [|done].
    destruct (aq_client q); [|done]. apply NoDup_cons. auto.
Qed.

Lemma sound_attempt w i q physical failed :
  sound w → acquirers w !! i = Some q → aq_client q = None → sound (acquire_attempt w i q physical failed).
Proof.
  intros Hw Hi Hn. pose proof Hw as []. destruct (omap_delete_nodup aq_client _ _ _ Hi s_nodup0) as [Hnd _].
  assert (Hfresh : refs w !! length (clients w) = None).
  { destruct (refs w !! length (clients w)) eqn:E; [|done]. destruct (s_refs0 (length (clients w))) as [x Hx]; [by eexists|].
    apply lookup_lt_Some in Hx. lia. }
  assert (Hnew : ∀ x, (clients w ++ [x]) !! length (clients w) = Some x) by (intros; by rewrite list_lookup_middle).
  destruct (s_acquirers0 q) as [Hb _]; [by eapply list_elem_of_lookup_2|].
  unfold acquire_attempt. set (x := {| sc_config := aq_config q |}).
  assert (Hk : ∀ c y, clients w !! c = Some y → (clients w ++ [x]) !! c = Some y) by (intros; by apply lookup_app_l_Some).
  split; cbn; auto.
  - intros a c Ha. destruct (s_entries0 a c Ha) as (? & y & Hy & ?). split; [done|]. exists y. auto.
  - intros c Hc. destruct (s_refs0 c Hc) as [y Hy]. eauto.
  - intros p. rewrite (insert_permutation _ _ _ _ Hi), elem_of_cons. intros [->|Hp].
    + cbn. split; [done|]. intros c [= <-]. split; [done|]. exists x. done.
    + destruct (s_acquirers0 p) as [? Hc]; [by eapply list_elem_of_delete_inv|]. split; [done|]. intros c Hpc.
      destruct (Hc c Hpc) as (? & y & Hy & ?). eauto.
  - rewrite (insert_permutation _ _ _ _ Hi). cbn. apply NoDup_cons. split; [|done].
    intros (p & Hp & Hpc)%list_elem_of_omap. destruct (s_acquirers0 p) as [_ Hc]; [by eapply list_elem_of_delete_inv|].
    destruct (Hc _ Hpc) as (_ & y & Hy & _). apply lookup_lt_Some in Hy. lia.
  - intros l Hl. destruct (s_leases0 l Hl) as (y & Hy & ?). eauto.
  - intros c y [?|[_ [_ <-]%list_lookup_singleton_Some]]%lookup_app_Some; [eauto|done].
Qed.

Lemma sound_published w i q c :
  sound w → acquirers w !! i = Some q → aq_client q = Some c → epoch (cache w) = Some (aq_epoch q) → draining (cache w) = false →
  sound (published w i q c).
Proof.
  intros [] Hi Hc He Hd. destruct (omap_delete_nodup aq_client _ _ _ Hi s_nodup0) as [Hnd Hni].
  destruct (s_acquirers0 q) as [Hb Hcl]; [by eapply list_elem_of_lookup_2|]. destruct (Hcl c Hc) as (Hnone & x & Hx & Hcfg & Hep).
  unfold published. split; cbn; auto.
  - intros a c' [[_ <-]|[_ Ha]]%lookup_insert_Some.
    + split; [by rewrite lookup_insert_eq|]. exists x. split; [done|]. left. congruence.
    + destruct (s_entries0 a c' Ha) as [Hs ?]. split; [|done]. apply lookup_insert_is_Some'. auto.
  - intros c' [<-|[_ ?]]%lookup_insert_is_Some; eauto.
  - intros p Hp. assert (Hpin : p ∈ acquirers w) by (by eapply list_elem_of_delete_inv).
    destruct (s_acquirers0 p Hpin) as [? Hpc]. split; [done|]. intros c' Hc'. destruct (Hpc c' Hc') as [Hn ?]. split; [|done].
    rewrite lookup_insert_ne; [done|]. intros <-. apply (Hni c Hc). apply list_elem_of_omap. eauto.
  - intros c'. rewrite holds_lease. specialize (s_count0 c'). unfold holds in *. cbn. case_bool_decide as Hcc.
    + subst c'. rewrite lookup_insert_eq. rewrite Hnone in s_count0. cbn in *. lia.
    + rewrite lookup_insert_ne by done. lia.
  - intros l. rewrite <-app_assoc. intros [?|[->|?]%elem_of_cons]%elem_of_app; cbn;
      [apply s_leases0, elem_of_app; auto|exists x; auto|apply s_leases0, elem_of_app; auto].
  - by rewrite Hd.
Qed.

Lemma sound_publishes grace w i q c w' :
  sound w → acquirers w !! i = Some q → aq_client q = Some c → publishes grace w i q c w' → sound w'.
Proof.
  intros Hw Hi Hc [|w1 [He _]%check_epoch_ok Hg|w1 [He Hdr]%check_epoch_ok Hd].
  - by apply sound_drop_fresh.
  - apply sound_drop_fresh. by eapply sound_grants.
  - destruct (detach_frame _ _ _ Hd) as (Ea & _ & _ & _ & _ & _ & _ & _ & Ee & Edr & _).
    apply sound_published; rewrite ?Ea, ?Ee, ?Edr; try done. by eapply sound_detach.
Qed.

Lemma sound_begins grace w a w' : sound w → begins grace w a w' → sound w'.
Proof.
  intros Hw [|e cfg limits w1 He _ -> Hg|e cfg w2 w3 r He _ Hlim _ Hd Hr]; [done| |].
  - eapply sound_grants; [by apply sound_prepared| |exact Hg]. done.
  - assert (Hp : sound (prepared w (memory_budget_limits cfg))) by (rewrite Hlim; by apply sound_prepared).
    assert (Hw2 : sound w2) by (by eapply sound_detach_all).
    assert (Hb : budget (cache w2) = Some (memory_budget_limits cfg)).
    { by destruct (detach_all_frame _ _ _ Hd) as (_ & _ & _ & _ & _ & _ & _ & _ & _ & _ & ->). }
    apply record_ok in Hr as [-> ->].
    destruct Hw2. unfold connecting. split; cbn; auto.
    + intros q [?| ->%list_elem_of_singleton]%elem_of_app; [auto|]. cbn. split; [done|by intros ? ?].
    + rewrite omap_app. cbn. by rewrite app_nil_r.
Qed.

(** The release of a reference by its holder. *)
Lemma sound_release w w0 l :
  sound w → l ∈ leases w ++ explicit w →
  cache w0 = cache w → clients w0 = clients w → refs w0 = refs w → acquirers w0 = acquirers w → drain w0 = drain w →
  leases w ++ explicit w ≡ₚ l :: leases w0 ++ explicit w0 → sound w0 ∧ sound (release_refs w0 (ls_client l)).
Proof.
  intros [] Hl Hk Hc Hr Ha Hd Hp.
  assert (Hh : ∀ c, holds w c = (if bool_decide (ls_client l = c) then 1 else 0) + holds w0 c).
  { intros c. unfold holds. by rewrite (held_perm _ _ c Hp), held_cons. }
  assert (Hw0 : sound w0).
  { split; rewrite ?Hk, ?Hc, ?Hr, ?Ha, ?Hd; auto.
    - intros c. specialize (s_count0 c). rewrite Hh in s_count0. case_bool_decide; lia.
    - intros l' Hl'. apply s_leases0. rewrite Hp. by right. }
  split; [done|]. unfold release_refs. destruct (refs w0 !! ls_client l) as [r|] eqn:Er; [|done].
  assert (Hpos : 1 + holds w0 (ls_client l) <= pr_count r).
  { specialize (s_count0 (ls_client l)). rewrite Hh, bool_decide_true in s_count0 by done. rewrite <-Hr, Er in s_count0. done. }
  pose proof (held_nonneg (leases w0 ++ explicit w0) (ls_client l)) as Hnn. fold (holds w0 (ls_client l)) in Hnn.
  unfold refs_release. destruct (Z.eqb_spec (pr_count r) 0); [lia|]. clear s_entries0 s_refs0 s_acquirers0 s_nodup0 s_count0 s_leases0 s_budget0 s_drain0 s_empty0.
  destruct Hw0. split; cbn; auto.
  - intros a c Hac. destruct (s_entries0 a c Hac). split; [|done]. apply lookup_insert_is_Some'. auto.
  - intros c [<-|[_ ?]]%lookup_insert_is_Some; [|auto]. apply s_refs0. by eexists.
  - intros q Hq. destruct (s_acquirers0 q Hq) as [? Hqc]. split; [done|]. intros c Hcc. destruct (Hqc c Hcc) as [? ?].
    split; [|done]. rewrite lookup_insert_ne; [done|]. intros <-. congruence.
  - intros c. specialize (s_count0 c). unfold holds in *. cbn. destruct (decide (ls_client l = c)) as [<-|].
    + rewrite lookup_insert_eq. cbn. lia.
    + by rewrite lookup_insert_ne.
Qed.

Lemma lease_delete (l1 l2 : list ClientLease) i x : l1 !! i = Some x → l1 ++ l2 ≡ₚ x :: delete i l1 ++ l2 ∧ x ∈ l1 ++ l2.
Proof.
  intros Hi. split; [by rewrite (delete_Permutation l1 i x Hi) at 1|]. apply elem_of_app. left. by eapply list_elem_of_lookup_2.
Qed.

Lemma sound_drop_lease w i : sound w → sound (drop_lease w i).
Proof.
  intros Hw. unfold drop_lease. destruct (leases w !! i) as [l|] eqn:Hi; [|done].
  destruct (lease_delete _ (explicit w) i l Hi). by eapply (sound_release w (set_leases w (delete i (leases w))) l).
Qed.

Lemma sound_into_client w i : sound w → sound (into_client w i).
Proof.
  intros Hw. unfold into_client. destruct (leases w !! i) as [l|] eqn:Hi; [|done].
  destruct (lease_delete _ (explicit w) i l Hi) as [Hp _].
  assert (Hperm : delete i (leases w) ++ explicit w ++ [l] ≡ₚ leases w ++ explicit w).
  { rewrite Hp, app_assoc. by rewrite Permutation_app_comm. }
  destruct Hw. split; cbn; auto.
  - intros c. unfold holds in *. cbn. rewrite (held_perm _ _ c Hperm). auto.
  - intros l'. rewrite Hperm. auto.
Qed.

Lemma sound_release_if_same w a i : sound w → sound (release_if_same w a i).
Proof.
  intros Hw. unfold release_if_same. destruct (explicit w !! i) as [l|] eqn:Hi; [|done].
  assert (Hp : leases w ++ explicit w ≡ₚ l :: leases w ++ delete i (explicit w)).
  { rewrite (delete_Permutation _ i l Hi) at 1. by rewrite Permutation_middle. }
  destruct (sound_release w (set_explicit w (delete i (explicit w))) l) as [H1 H2]; try done; [rewrite Hp; by left|].
  by case_bool_decide.
Qed.

Lemma sound_close_section w i observed w' : sound w → drain w = None → close_section w i observed = Ok w' → sound w'.
Proof.
  intros Hw Hd. unfold close_section.
  intros (w1 & H1 & [= <-])%bind_ok. destruct (detach_all_frame _ _ _ H1) as (E1 & E2 & E3 & E4 & E5 & E6 & E7 & E8 & E9 & E10 & E11).
  cbn in *. pose proof (s_nodup w Hw) as Hnd. destruct Hw. unfold holds in *.
  assert (Hempty : entries (cache w1) = ∅).
  { apply map_empty. intros a. rewrite E8. case_bool_decide as Hin; [done|]. destruct (entries (cache w) !! a) as [c|] eqn:Ea; [|done].
    destruct Hin. apply list_elem_of_fmap. exists (a, c). split; [done|]. by apply elem_of_map_to_list. }
  split; cbn; unfold holds; cbn; rewrite ?E1, ?E2, ?E3, ?E5, ?E6, ?E10, ?E11; auto.
  - intros a c. by rewrite Hempty.
  - split; [by eexists|done].
Qed.

Lemma sound_close_end w d w' : sound w → is_Some (drain w) → close_end w d = Ok w' → sound w'.
Proof.
  intros [] Hd (e & _ & [= <-])%bind_ok. unfold holds in *. apply s_drain0 in Hd. apply s_empty0 in Hd.
  split; cbn; auto; rewrite ?Hd; done || by split; [|intros []].
Qed.

Lemma sound_step grace w m w' : sound w → cache_step grace w m = Ok w' → sound w'.
Proof.
  intros Hw E. assert (Hacq : ∀ i f, (∀ q, acquirers w !! i = Some q → f q = Ok w' → sound w') → on_acquirer w i f = Ok w' → sound w').
  { intros i f Hf. unfold on_acquirer. destruct (acquirers w !! i) as [q|] eqn:Hi; [eauto|by intros [= <-]]. }
  assert (Hset : ∀ w1, entries (cache w1) = entries (cache w) → keeps (clients w) (clients w1) → length (clients w1) = length (clients w) →
    refs w1 = refs w → acquirers w1 = acquirers w → leases w1 = leases w → explicit w1 = explicit w →
    (is_Some (drain w1) ↔ is_Some (drain w)) → epoch (cache w1) = epoch (cache w) ∨ epoch (cache w1) = None →
    draining (cache w1) = draining (cache w) → budget (cache w1) = budget (cache w) → sound w1).
  { intros w1 H1 ? ? ? ? ? ? ? ? ? ?. apply (sound_frame w); try done. by rewrite H1. }
  destruct m as [a config|i|i physical failed|i|i|i|i|i|a i|a c| |i|i| | |i j|i|t| |config|c|c reason|d]; cbn [cache_step] in E.
  - apply bind_ok in E as ([w1 answer] & E%begin_begins & [= <-]). by eapply sound_begins.
  - revert E. apply Hacq. intros q Hi [= <-]. unfold acquire_check. destruct (check_epoch _ _); [|by apply sound_drop_fresh..].
    apply (sound_attempt_kept w i q); try done. by left.
  - revert E. apply Hacq. intros q Hi [= <-]. destruct (_ && _) eqn:Ec; [|done].
    apply andb_true_iff in Ec as [_ Ec%bool_decide_eq_true]. by apply sound_attempt.
  - revert E. apply Hacq. intros q Hi [= <-]. unfold acquire_retry. destruct (aq_client q); [|done]. destruct (_ && _); [|done].
    apply (sound_attempt_kept w i q); try done. by right.
  - revert E. apply Hacq. intros q Hi [= <-]. by apply sound_drop_fresh.
  - revert E. apply Hacq. intros q Hi. destruct (aq_client q) as [c|] eqn:Ec; [|by intros [= <-]]. destruct (aq_failed q); [by intros [= <-]|].
    intros ([w1 answer] & E%publish_publishes & [= <-])%bind_ok. by eapply sound_publishes.
  - injection E as <-. by apply sound_drop_lease.
  - injection E as <-. by apply sound_into_client.
  - injection E as <-. by apply sound_release_if_same.
  - apply bind_ok in E as ([w1 b] & E & [= <-]). unfold discard_if_same in E. case_bool_decide; [|by injection E as <-].
    apply bind_ok in E as (w2 & E & [= <- _]). by eapply sound_detach.
  - eapply sound_detach_all; [|exact E]. by apply Hset; try apply client_keeps_refl; try done; left.
  - injection E as <-. unfold deactivate_install. destruct (detached w !! i) as [[r c]|]; [|done].
    by apply Hset; try apply client_keeps_refl; try done; left.
  - injection E as <-. unfold deactivate_stop. destruct (stopping w !! i) as [c|]; [|done].
    apply Hset; try done; [by apply keeps_alter|apply length_alter|by left].
  - injection E as <-. apply Hset; try apply client_keeps_refl; try done. by right.
  - injection E as <-. by apply Hset; try apply client_keeps_refl; try done; left.
  - injection E as <-. unfold merge_seed. destruct (seeds w !! j); [|done]. by apply Hset; try apply client_keeps_refl; try done; left.
  - destruct (drain w) eqn:Ed; [by injection E as <-|]. destruct (observations w !! i); [|by injection E as <-].
    by eapply sound_close_section.
  - injection E as <-. destruct (drain w) as [dr|] eqn:Ed; [|done]. destruct (close_visit w dr t); [|done].
    apply Hset; try apply client_keeps_refl; try done; by left.
  - destruct (drain w) as [dr|] eqn:Ed; [|by injection E as <-]. case_bool_decide; [|by injection E as <-].
    eapply sound_close_end; [done|by rewrite Ed|done].
  - injection E as <-. unfold set_default_config. destruct (budget (cache w)) eqn:Eb; [case_bool_decide|]; try done;
      by apply Hset; try apply client_keeps_refl; try done; left.
  - injection E as <-. apply Hset; try done; [by apply keeps_alter|apply length_alter|by left].
  - injection E as <-. apply Hset; try done; [by apply keeps_alter|apply length_alter|by left].
  - injection E as <-. by apply Hset; try apply client_keeps_refl; try done; left.
Qed.

(** ** Drains *)

(** What was complete stays complete. *)
Definition completes w w' : Prop :=
  (length (closes w) <= length (closes w'))%nat ∧
  ∀ r, (r < length (closes w))%nat → record_complete w r = true → record_complete w' r = true.

Definition older (l l' : list SyncClient) : Prop :=
  ∀ c x, l !! c = Some x → is_over x = true → ∃ x', l' !! c = Some x' ∧ is_over x' = true.

Lemma completes_trans w1 w2 w3 : completes w1 w2 → completes w2 w3 → completes w1 w3.
Proof. intros [? H1] [? H2]. split; [lia|]. intros r Hr Hc. apply H2; [lia|auto]. Qed.

Lemma complete_older w w' rec : older (clients w) (clients w') → complete w rec = true → complete w' rec = true.
Proof.
  intros Ho. unfold complete. destruct (cr_state rec) as [|c|]; try done.
  destruct (clients w !! c) as [x|] eqn:E; [|done]. cbn. intros Hx. destruct (Ho c x E Hx) as (x' & -> & Hx'). done.
Qed.

Lemma completes_older w w' : older (clients w) (clients w') → closes w' = closes w → completes w w'.
Proof.
  intros Ho Hc. split; [by rewrite Hc|]. intros r Hr. apply lookup_lt_is_Some in Hr as [rec Hrec].
  rewrite (record_incomplete w r rec Hrec), (record_incomplete w' r rec) by (by rewrite Hc). by apply complete_older.
Qed.

Lemma older_refl l : older l l.
Proof. intros c x ? ?. eauto. Qed.

Lemma older_app l x : older l (l ++ [x]).
Proof. intros c y Hy ?. exists y. split; [by apply lookup_app_l_Some|done]. Qed.

Lemma older_alter (f : SyncClient → SyncClient) c l : (∀ x, is_over x = true → is_over (f x) = true) → older l (alter f c l).
Proof.
  intros Hf c' x Hx Ho. destruct (decide (c = c')) as [<-|]; [|rewrite list_lookup_alter_ne by done; eauto].
  exists (f x). rewrite list_lookup_alter_eq, Hx. auto.
Qed.

Lemma completes_app w w' rec : clients w' = clients w → closes w' = closes w ++ [rec] → completes w w'.
Proof.
  intros Hcl Hc. split; [rewrite Hc, length_app; lia|]. intros r Hr. apply lookup_lt_is_Some in Hr as [rec' Hrec].
  rewrite (record_incomplete w r rec' Hrec), (record_incomplete w' r rec') by (rewrite Hc; by apply lookup_app_l_Some).
  unfold complete. by rewrite Hcl.
Qed.

Lemma completes_decide w w' r st :
  (∃ rec, closes w !! r = Some rec ∧ cr_state rec = Preparing) → clients w' = clients w →
  closes w' = alter (set_state st) r (closes w) → completes w w'.
Proof.
  intros (rec0 & Hr0 & Hp) Hcl Hc. split; [by rewrite Hc, length_alter|]. intros r' Hr'. apply lookup_lt_is_Some in Hr' as [rec Hrec].
  rewrite (record_incomplete w r' rec Hrec). destruct (decide (r = r')) as [<-|Hne].
  - simplify_eq. unfold complete. by rewrite Hp.
  - rewrite (record_incomplete w' r' rec) by (by rewrite Hc, list_lookup_alter_ne). unfold complete. by rewrite Hcl.
Qed.

Definition observed_ok w (o : ObservedCloses) : Prop :=
  ∀ id v, o !! id = Some v → ∃ r, id = Z.of_nat r ∧ (r < length (closes w))%nat
    ∧ match v with Some r' => r' = r | None => record_complete w r = true end.

Record settled w : Prop := {
  o_next : next_record (cache w) = Z.of_nat (length (closes w));
  o_ids : ∀ id r, records (cache w) !! id = Some r → id = Z.of_nat r;
  o_known : ∀ o, o ∈ observations w ++ seeds w → observed_ok w o;
  o_drain : ∀ d, drain w = Some d → observed_ok w (dr_observed d) ∧
    (dr_sealed d = true → epoch (cache w) = None ∧
      ∀ id r, records (cache w) !! id = Some r → record_complete w r = false →
        dr_observed d !! id = Some (Some r) ∧ (id ∈ dr_left d ∨ dr_unconfirmed d ≠ [])) }.

Lemma settled_new start : settled (cache_world start).
Proof. split; cbn; try done. by intros o ?%elem_of_nil. Qed.

Lemma observed_completes w w' o : completes w w' → observed_ok w o → observed_ok w' o.
Proof.
  intros [Hlen Hc] Ho id v Hv. destruct (Ho id v Hv) as (r & Hid & Hr & Hm). exists r. split; [done|]. split; [lia|].
  destruct v; [done|auto].
Qed.

Lemma settled_frame w w' :
  tracked w → completes w w' → length (closes w') = length (closes w) → next_record (cache w') = next_record (cache w) →
  records (cache w') ⊆ records (cache w) → observations w' = observations w → seeds w' = seeds w → drain w' = drain w →
  epoch (cache w') = epoch (cache w) ∨ epoch (cache w') = None → settled w → settled w'.
Proof.
  intros Ht Hc Hlen Hn Hr Ho Hs Hd He []. split.
  - congruence.
  - intros id r Hid. apply o_ids0. by eapply lookup_weaken.
  - rewrite Ho, Hs. intros o Hin. eapply observed_completes; eauto.
  - rewrite Hd. intros d Hdd. destruct (o_drain0 d Hdd) as [Hobs Hsealed]. split; [by eapply observed_completes|].
    intros Hse. destruct (Hsealed Hse) as [Hep Hall]. split; [destruct He; congruence|].
    intros id r Hid Hinc. assert (Hid' : records (cache w) !! id = Some r) by (by eapply lookup_weaken).
    apply Hall; [done|]. destruct (record_complete w r) eqn:E; [|done].
    destruct Hc as [_ Hc]. rewrite Hc in Hinc; [done|by apply (t_records w Ht id)|done].
Qed.

Lemma settled_record w a w' r : settled w → drain w = None → record w a = Ok (w', r) → settled w'.
Proof.
  intros [] Hd [-> ->]%record_ok.
  assert (Hc : completes w (set_cache (set_closes w (closes w ++ [record_preparing a]))
    (set_records (cache w) (<[next_record (cache w) := length (closes w)]> (records (cache w))) (next_record (cache w) + 1))))
    by (by eapply completes_app).
  split; cbn.
  - rewrite length_app. cbn. lia.
  - intros id r [[<- <-]|[_ ?]]%lookup_insert_Some; auto.
  - intros o Ho. eapply observed_completes; eauto.
  - by rewrite Hd.
Qed.

Definition cache_ok w : Prop := tracked w ∧ sound w ∧ settled w.

Lemma cache_ok_new start : cache_ok (cache_world start).
Proof. split; [apply tracked_new|split; [apply sound_new|apply settled_new]]. Qed.

Lemma entry_no_drain w a c : sound w → entries (cache w) !! a = Some c → drain w = None.
Proof.
  intros [] Ha. destruct (drain w) eqn:E; [|done]. rewrite s_empty0 in Ha; [done|]. apply s_drain0. by eexists.
Qed.

(** Steps that leave the records alone. *)
Lemma settled_same w w' :
  tracked w → closes w' = closes w → older (clients w) (clients w') → next_record (cache w') = next_record (cache w) →
  records (cache w') ⊆ records (cache w) → observations w' = observations w → seeds w' = seeds w → drain w' = drain w →
  epoch (cache w') = epoch (cache w) ∨ epoch (cache w') = None → settled w → settled w'.
Proof.
  intros Ht Hc Ho ? ? ? ? ? ?. apply settled_frame; try done; [by apply completes_older|congruence].
Qed.

Lemma settled_detach w a w' : cache_ok w → detach w a = Ok w' → settled w'.
Proof.
  intros (Ht & Hs & Ho) [[_ ->]|(c & w1 & r & Ha & Hr & ->)]%detach_ok; [done|].
  pose proof (settled_record w a w1 r Ho (entry_no_drain w a c Hs Ha) Hr) as Hw1.
  destruct (tracked_record w a w1 r Ht Hr) as (Ht1 & _). apply (settled_same w1); try done; [apply older_refl|by left].
Qed.

Lemma cache_ok_detach w a w' : cache_ok w → detach w a = Ok w' → cache_ok w'.
Proof.
  intros Hw E. pose proof Hw as (? & ? & _). split; [by eapply tracked_detach|split; [by eapply sound_detach|by eapply settled_detach]].
Qed.

Lemma cache_ok_detach_all w l w' : cache_ok w → detach_all w l = Ok w' → cache_ok w'.
Proof.
  revert w. induction l as [|a l IH]; intros w Hw; cbn; [by intros [= <-]|].
  intros (w1 & H1 & H2)%bind_ok. eapply IH; [|done]. by eapply cache_ok_detach.
Qed.

Lemma settled_retain w : tracked w → settled w → settled (retain w).
Proof. intros Ht. apply settled_same; try done; [apply older_refl|apply map_filter_subseteq|by left]. Qed.

Lemma prepared_ok w cfg : cache_ok w → cache_ok (prepared w (default (memory_budget_limits cfg) (budget (cache w)))).
Proof.
  intros (Ht & Hs & Ho). split; [|split; [by apply sound_prepared|]].
  - by apply (tracked_frame (retain w)), tracked_retain.
  - apply (settled_same (retain w)); try done; [by apply tracked_retain|apply older_refl|by left|by apply settled_retain].
Qed.

Lemma settled_grants grace w a cfg e w' : tracked w → grants grace w a cfg e w' → settled w → settled w'.
Proof. intros Ht [|c x _ _ _]; [done|]. apply settled_same; try done; [apply older_refl|by left]. Qed.

Lemma settled_begins grace w a w' : cache_ok w → begins grace w a w' → settled w'.
Proof.
  intros Hw [|e cfg limits w1 He _ -> Hg|e cfg w2 w3 r He Hdr Hlim _ Hd Hr]; [apply Hw| |].
  - destruct (prepared_ok w cfg Hw) as (Ht & _ & Ho). by eapply settled_grants.
  - pose proof (prepared_ok w cfg Hw) as Hp. rewrite <-Hlim in Hp. pose proof (cache_ok_detach_all _ _ _ Hp Hd) as (Ht2 & Hs2 & Ho2).
    assert (Hnd : drain w2 = None).
    { destruct (detach_all_frame _ _ _ Hd) as (_ & _ & _ & _ & _ & _ & -> & _). cbn.
      destruct Hw as (_ & Hs & _). destruct (drain w) eqn:E; [|done].
      assert (draining (cache w) = true) by (apply (s_drain w Hs); rewrite E; by eexists). congruence. }
    pose proof (settled_record w2 a w3 r Ho2 Hnd Hr) as Ho3. destruct (tracked_record w2 a w3 r Ht2 Hr) as (Ht3 & _).
    apply (settled_same w3); try done; [apply older_refl|by left].
Qed.

Lemma settled_drop_fresh w i q : tracked w → settled w → acquirers w !! i = Some q → settled (drop_fresh w i q).
Proof.
  intros Ht Ho Hi. pose proof (acquirer_record w i q Ht Hi) as [_ Hrec]. unfold drop_fresh. destruct (aq_client q).
  - apply (settled_same w); try done; [apply older_refl|by left].
  - apply (settled_frame w); try done; [by apply (completes_decide w _ (aq_record q) Finished)|by cbn; rewrite length_alter|by left].
Qed.

Lemma settled_publishes grace w i q c w' :
  cache_ok w → acquirers w !! i = Some q → publishes grace w i q c w' → settled w'.
Proof.
  intros Hw Hi [|w1 _ Hg|w1 _ Hd].
  - apply settled_drop_fresh; [apply Hw|apply Hw|done].
  - destruct Hw as (Ht & Hs & Ho). destruct (grants_frame _ _ _ _ _ _ Hg) as (Ea & _).
    apply settled_drop_fresh; [|by eapply settled_grants|by rewrite Ea].
    destruct Hg; [done|]. by apply (tracked_frame w).
  - pose proof (cache_ok_detach _ _ _ Hw Hd) as (Ht1 & _ & Ho1). destruct (detach_frame _ _ _ Hd) as (Ea & _).
    assert (Hi1 : acquirers w1 !! i = Some q) by (by rewrite Ea). pose proof (acquirer_record w1 i q Ht1 Hi1) as [_ Hrec].
    apply (settled_frame w1); try done; [by apply (completes_decide w1 _ (aq_record q) Finished)|by cbn; rewrite length_alter|by left].
Qed.

Lemma settled_install w i : tracked w → settled w → settled (deactivate_install w i).
Proof.
  intros Ht Ho. unfold deactivate_install. destruct (detached w !! i) as [[r c]|] eqn:Hi; [|done].
  destruct (t_undecided w Ht r) as [_ Hrec].
  { apply elem_of_app. right. apply list_elem_of_fmap. exists (r, c). split; [done|]. by eapply list_elem_of_lookup_2. }
  apply (settled_frame w); try done; [by apply (completes_decide w _ r (ClosingClient c))|by cbn; rewrite length_alter|by left].
Qed.

Lemma observed_open w : tracked w → settled w → observed_ok w (open_closes w).
Proof.
  intros Ht [] id v Hv. unfold open_closes in Hv. rewrite lookup_fmap in Hv. apply fmap_Some in Hv as (r & Hr & ->).
  apply map_lookup_filter_Some in Hr as [Hr _]. exists r. split; [by apply o_ids0|]. split; [|done]. by apply (t_records w Ht id).
Qed.

Lemma observed_union w o o' : observed_ok w o → observed_ok w o' → observed_ok w (o ∪ o').
Proof. intros H1 H2 id v [?|[_ ?]]%lookup_union_Some_raw; eauto. Qed.

(** Only the known closes change. *)
Lemma settled_known w w' :
  closes w' = closes w → clients w' = clients w → next_record (cache w') = next_record (cache w) →
  records (cache w') = records (cache w) → drain w' = drain w → epoch (cache w') = epoch (cache w) ∨ epoch (cache w') = None →
  (∀ o, o ∈ observations w' ++ seeds w' → observed_ok w o) → settled w → settled w'.
Proof.
  intros Hc Hcl Hn Hr Hd He Hk [].
  assert (Hrc : ∀ r, record_complete w' r = record_complete w r).
  { intros r. unfold record_complete, complete. by rewrite Hc, Hcl. }
  assert (Hobs : ∀ o, observed_ok w o → observed_ok w' o).
  { intros o H id v Hv. rewrite Hc. destruct (H id v Hv) as (r & ? & ? & ?). exists r. rewrite Hrc. auto. }
  split; rewrite ?Hc, ?Hn, ?Hr; auto.
  rewrite Hd. intros d Hdd. destruct (o_drain0 d Hdd) as [? Hse]. split; [auto|]. intros Hs. destruct (Hse Hs) as [? Hall].
  split; [destruct He; congruence|]. intros id r. rewrite Hrc. auto.
Qed.

Lemma settled_detach_idle w l w' :
  tracked w → settled w → drain w = None → detach_all w l = Ok w' → settled w' ∧ observations w' = observations w.
Proof.
  revert w. induction l as [|a l IH]; intros w Ht Ho Hd; cbn; [by intros [= <-]|]. intros (w1 & H1 & H2)%bind_ok.
  pose proof (tracked_detach w a w1 Ht H1) as Ht1.
  assert (settled w1 ∧ observations w1 = observations w ∧ drain w1 = None) as (Ho1 & <- & Hd1); [|by apply IH].
  apply detach_ok in H1 as [[_ ->]|(c & w2 & r & Ha & Hr & ->)]; [done|].
  pose proof (settled_record w a w2 r Ho Hd Hr) as Ho2. destruct (tracked_record w a w2 r Ht Hr) as (Ht2 & _).
  split; [apply (settled_same w2); try done; [apply older_refl|by left]|]. by apply record_ok in Hr as [_ ->].
Qed.

Lemma settled_close_section w i observed w' :
  cache_ok w → drain w = None → observations w !! i = Some observed → close_section w i observed = Ok w' → settled w'.
Proof.
  intros (Ht & Hs & Ho) Hd Hi. unfold close_section. set (w0 := set_cache w (set_epoch (cache w) (epoch (cache w)) true)).
  assert (Ht0 : tracked w0) by (by apply (tracked_frame w)).
  assert (Ho0 : settled w0) by (by apply (settled_same w); try apply older_refl; try done; left).
  intros (w1 & H1 & [= <-])%bind_ok. destruct (settled_detach_idle w0 _ w1 Ht0 Ho0 Hd H1) as [Ho1 Eobs].
  pose proof (tracked_detach_all w0 _ w1 Ht0 H1) as Ht1.
  assert (Hobs : observed_ok w1 (observed ∪ open_closes w1)).
  { apply observed_union; [|by apply observed_open]. apply (o_known w1 Ho1). rewrite Eobs. apply elem_of_app. left. by eapply list_elem_of_lookup_2. }
  split; cbn; [apply Ho1..|]. intros d [= <-]. cbn. split; [done|]. intros Hse%bool_decide_eq_true. split; [done|].
  intros id r Hid Hinc. change (record_complete w1 r = false) in Hinc. assert (Hopen : open_closes w1 !! id = Some (Some r)).
  { unfold open_closes. rewrite lookup_fmap, (proj2 (map_lookup_filter_Some _ _ id r)); done. }
  assert (Hall : (observed ∪ open_closes w1) !! id = Some (Some r)).
  { destruct ((observed ∪ open_closes w1) !! id) as [v|] eqn:E.
    - destruct (Hobs id v E) as (r' & Hr' & _ & Hv). rewrite (o_ids w1 Ho1 id r Hid) in Hr'. assert (r' = r) as -> by lia.
      destruct v as [r2|]; [congruence|]. rewrite Hinc in Hv. done.
    - apply lookup_union_None in E as [_ E]. congruence. }
  split; [done|]. left. apply list_elem_of_fmap. exists (id, Some r). split; [done|]. by apply elem_of_map_to_list.
Qed.

Lemma close_wait_sealed w rec timed_out : close_wait w rec true timed_out = Some true → complete w rec = true.
Proof.
  unfold close_wait, complete. destruct (cr_state rec) as [|c|]; [by destruct timed_out| |done].
  destruct (from_option is_over false _); [done|]. by destruct timed_out.
Qed.

(** A visit confirms one close, reports it, or leaves it to a later drain. *)
Lemma visit_cases w d t d' :
  close_visit w d t = Some d' →
  ∃ id rest, dr_left d = id :: rest ∧ dr_left d' = rest ∧ dr_sealed d' = dr_sealed d ∧
    ((dr_observed d' = dr_observed d ∧ dr_unconfirmed d' ≠ []) ∨
     (∃ r, dr_observed d !! id = Some (Some r) ∧ record_complete w r = true ∧ dr_observed d' = <[id := None]> (dr_observed d)
           ∧ dr_unconfirmed d' = dr_unconfirmed d) ∨
     (dr_observed d' = dr_observed d ∧ dr_unconfirmed d' = dr_unconfirmed d
      ∧ (dr_sealed d = true → ∀ r, dr_observed d !! id = Some (Some r) → closes w !! r = None))).
Proof.
  unfold close_visit. destruct (dr_left d) as [|id rest]; [done|]. intros E. exists id, rest. split; [done|].
  destruct (dr_observed d !! id) as [[r|]|] eqn:Eo; [|injection E as <-; cbn; split_and!; try done; do 2 right; done..].
  destruct (closes w !! r) as [rec|] eqn:Er; [|injection E as <-; cbn; split_and!; try done; do 2 right; split_and!; [done..|naive_solver]].
  destruct (close_wait w rec (dr_sealed d) t) as [[|]|] eqn:Ew; [|injection E as <-; cbn..|done].
  - destruct (complete w rec) eqn:Ec; injection E as <-; cbn; split_and!; try done; right; [left|right].
    + exists r. by rewrite (record_incomplete w r rec Er).
    + split_and!; [done..|]. intros Hs. rewrite Hs in Ew. by rewrite (close_wait_sealed w rec t Ew) in Ec.
  - split_and!; try done. left. split; [done|]. case_bool_decide as Hin; [|by destruct (dr_unconfirmed d)].
    intros E. rewrite E in Hin. by apply elem_of_nil in Hin.
Qed.

Lemma settled_visit w d t d' :
  tracked w → settled w → drain w = Some d → close_visit w d t = Some d' → settled (set_drain w (Some d')).
Proof.
  intros Ht Ho Hd (id & rest & El & El' & Es & Hv)%visit_cases. pose proof (o_drain w Ho d Hd) as [Hobs Hse]. destruct Ho.
  split; cbn; auto. intros d2 [= <-]. split.
  - destruct Hv as [[-> _]|[(r & Hr & Hrc & -> & _)|[-> _]]]; try done.
    intros id' v [[<- <-]|[_ ?]]%lookup_insert_Some; [|eauto]. destruct (Hobs id _ Hr) as (r' & ? & ? & ->). exists r'. done.
  - rewrite Es. intros Hs. destruct (Hse Hs) as [He Hall]. split; [done|]. intros id' r Hid Hinc.
    change (record_complete w r = false) in Hinc. destruct (Hall id' r Hid Hinc) as [Hin Hleft]. rewrite El, El' in *.
    destruct Hv as [[-> Hu]|[(r' & Hr & Hrc & -> & Hu)|(-> & Hu & Hnone)]].
    + auto.
    + assert (id' ≠ id) as Hne by (intros ->; congruence). rewrite lookup_insert_ne by done. split; [done|].
      destruct Hleft as [[->|?]%elem_of_cons|?]; [done|by left|right; congruence].
    + split; [done|]. rewrite Hu. destruct Hleft as [[->|?]%elem_of_cons|?]; [|by left|by right].
      destruct (t_records w Ht id r Hid) as [Hlt _]. apply lookup_lt_is_Some in Hlt as [rec Hrec]. rewrite (Hnone Hs r Hin) in Hrec. done.
Qed.

Lemma settled_close_end w d w' : tracked w → settled w → drain w = Some d → close_end w d = Ok w' → settled w'.
Proof.
  intros Ht Ho Hd (e & _ & [= <-])%bind_ok. pose proof (o_drain w Ho d Hd) as [Hobs _]. destruct Ho. split; cbn; auto.
  - intros id r [? _]%map_lookup_filter_Some. auto.
  - intros o [Hin|Hin]%elem_of_app; [|apply o_known0, elem_of_app; by right].
    apply list_elem_of_lookup in Hin as [j Hj]. destruct (decide (dr_observer d = j)) as [<-|Hne].
    + rewrite list_lookup_alter_eq in Hj. apply fmap_Some in Hj as (? & _ & ->). exact Hobs.
    + rewrite list_lookup_alter_ne in Hj by done. apply o_known0, elem_of_app. left. by eapply list_elem_of_lookup_2.
  - done.
Qed.

Lemma settled_seal w : tracked w → settled w → settled (seal w).
Proof.
  intros Ht Ho. apply (settled_known w); try done; [by right|]. cbn. intros o Hin.
  rewrite app_assoc, elem_of_app, list_elem_of_singleton in Hin. destruct Hin as [?| ->]; [by apply Ho|by apply observed_open].
Qed.

Lemma settled_observe w : settled w → settled (observe_closes w).
Proof.
  intros Ho. apply (settled_known w); try done; [by left|]. cbn. intros o Hin. rewrite <-app_assoc in Hin. cbn in Hin.
  rewrite elem_of_app, elem_of_cons in Hin. destruct Hin as [?|[->|?]]; [apply Ho, elem_of_app; by left|by intros id v|apply Ho, elem_of_app; by right].
Qed.

Lemma settled_merge w i j : settled w → settled (merge_seed w i j).
Proof.
  intros Ho. unfold merge_seed. destruct (seeds w !! j) as [seed|] eqn:Ej; [|done]. apply (settled_known w); try done; [by left|].
  cbn. intros o [Hin|Hin]%elem_of_app; [|apply Ho, elem_of_app; by right]. apply list_elem_of_lookup in Hin as [k Hk].
  destruct (decide (i = k)) as [<-|].
  - rewrite list_lookup_alter_eq in Hk. apply fmap_Some in Hk as (o' & Ho' & ->).
    apply observed_union; apply Ho, elem_of_app; [left|right]; by eapply list_elem_of_lookup_2.
  - rewrite list_lookup_alter_ne in Hk by done. apply Ho, elem_of_app. left. by eapply list_elem_of_lookup_2.
Qed.

Lemma settled_step grace w m w' : cache_ok w → cache_step grace w m = Ok w' → settled w'.
Proof.
  intros Hw E. pose proof Hw as (Ht & Hs & Ho).
  assert (Hacq : ∀ i f, (∀ q, acquirers w !! i = Some q → f q = Ok w' → settled w') → on_acquirer w i f = Ok w' → settled w').
  { intros i f Hf. unfold on_acquirer. destruct (acquirers w !! i) as [q|] eqn:Hi; [eauto|by intros [= <-]]. }
  assert (Hset : ∀ w1, closes w1 = closes w → older (clients w) (clients w1) → cache w1 = cache w →
    observations w1 = observations w → seeds w1 = seeds w → drain w1 = drain w → settled w1).
  { intros w1 ? ? Hk ? ? ?. apply (settled_same w); try done; rewrite ?Hk; try done. by left. }
  assert (Hrel : ∀ w0 c, closes w0 = closes w → clients w0 = clients w → cache w0 = cache w → observations w0 = observations w →
    seeds w0 = seeds w → drain w0 = drain w → settled (release_refs w0 c)).
  { intros w0 c ? Hcl ? ? ? ?. apply Hset; unfold release_refs; destruct (refs w0 !! c) as [x|]; try destruct (refs_release x _);
      cbn; rewrite ?Hcl; try apply older_refl; done. }
  destruct m as [a config|i|i physical failed|i|i|i|i|i|a i|a c| |i|i| | |i j|i|t| |config|c|c reason|d]; cbn [cache_step] in E.
  - apply bind_ok in E as ([w1 answer] & E%begin_begins & [= <-]). by eapply settled_begins.
  - revert E. apply Hacq. intros q Hi [= <-]. unfold acquire_check. destruct (check_epoch _ _); [|by apply settled_drop_fresh..].
    by apply Hset; try apply older_refl.
  - revert E. apply Hacq. intros q Hi [= <-]. destruct (_ && _); [|done]. apply Hset; try done. apply older_app.
  - revert E. apply Hacq. intros q Hi [= <-]. unfold acquire_retry. destruct (aq_client q); [|done]. destruct (_ && _); [|done].
    by apply Hset; try apply older_refl.
  - revert E. apply Hacq. intros q Hi [= <-]. by apply settled_drop_fresh.
  - revert E. apply Hacq. intros q Hi. destruct (aq_client q) as [c|] eqn:Ec; [|by intros [= <-]]. destruct (aq_failed q); [by intros [= <-]|].
    intros ([w1 answer] & E%publish_publishes & [= <-])%bind_ok. by eapply settled_publishes.
  - injection E as <-. unfold drop_lease. destruct (leases w !! i); [|done]. by apply Hrel.
  - injection E as <-. unfold into_client. destruct (leases w !! i); [|done]. by apply Hset; try apply older_refl.
  - injection E as <-. unfold release_if_same. destruct (explicit w !! i); [|done]. case_bool_decide; [by apply Hrel|].
    by apply Hset; try apply older_refl.
  - apply bind_ok in E as ([w1 b] & E & [= <-]). unfold discard_if_same in E. case_bool_decide; [|by injection E as <-].
    apply bind_ok in E as (w2 & E & [= <- _]). by eapply settled_detach.
  - eapply cache_ok_detach_all; [|exact E]. split; [by apply tracked_retain|split; [|by apply settled_retain]].
    by apply (sound_frame w); try apply client_keeps_refl; try done; left.
  - injection E as <-. by apply settled_install.
  - injection E as <-. unfold deactivate_stop. destruct (stopping w !! i); [|done]. apply Hset; try done. by apply older_alter.
  - injection E as <-. by apply settled_seal.
  - injection E as <-. by apply settled_observe.
  - injection E as <-. by apply settled_merge.
  - destruct (drain w) eqn:Ed; [by injection E as <-|]. destruct (observations w !! i) eqn:Ei; [|by injection E as <-].
    by eapply settled_close_section.
  - injection E as <-. destruct (drain w) as [dr|] eqn:Ed; [|done]. destruct (close_visit w dr t) eqn:Ev; [|done]. by eapply settled_visit.
  - destruct (drain w) as [dr|] eqn:Ed; [|by injection E as <-]. case_bool_decide; [|by injection E as <-]. by eapply settled_close_end.
  - injection E as <-. unfold set_default_config. destruct (budget (cache w)); [case_bool_decide|]; try done;
      (apply (settled_same w); try done; [apply older_refl|by left]).
  - injection E as <-. apply Hset; try done. by apply older_alter.
  - injection E as <-. apply Hset; try done. apply older_alter, end_over.
  - injection E as <-. by apply Hset; try apply older_refl.
Qed.

Lemma cache_ok_step grace w m w' : cache_ok w → cache_step grace w m = Ok w' → cache_ok w'.
Proof.
  intros Hw E. split; [eapply tracked_step; [apply Hw|done]|]. split; [eapply sound_step; [apply Hw|done]|by eapply settled_step].
Qed.

Lemma cache_ok_run grace w l w' : cache_ok w → cache_run grace w l = Ok w' → cache_ok w'.
Proof. apply cache_run_inv. intros ? ? ?. apply cache_ok_step. Qed.

(** ** Properties *)

Lemma holder_not_expired grace w l : cache_ok w → l ∈ leases w ++ explicit w → expired grace w (ls_client l) = false.
Proof.
  intros (_ & Hs & _) Hl. pose proof (s_count w Hs (ls_client l)) as Hc.
  assert (1 <= holds w (ls_client l)) as Hpos.
  { unfold holds. apply list_elem_of_split in Hl as (l1 & l2 & ->).
    rewrite (held_perm _ (l :: l1 ++ l2)) by (by rewrite Permutation_middle). rewrite held_cons, bool_decide_true by done.
    pose proof (held_nonneg (l1 ++ l2) (ls_client l)). lia. }
  unfold expired. destruct (refs w !! ls_client l) as [r|]; [|done]. cbn in *. unfold refs_expired.
  destruct (Z.eqb_spec (pr_count r) 0); [lia|done].
Qed.

Lemma sweep_keeps grace w a c w' :
  entries (cache w) !! a = Some c → expired grace w c = false → sweep_expired grace w = Ok w' → entries (cache w') !! a = Some c.
Proof.
  intros Ha He Hd. destruct (detach_all_frame _ _ _ Hd) as (_ & _ & _ & _ & _ & _ & _ & Hent & _). rewrite Hent. cbn.
  rewrite bool_decide_false; [done|]. unfold evicted. intros ((a' & c') & -> & Hin)%list_elem_of_fmap. cbn in *.
  apply list_elem_of_filter in Hin as [Hp Hin%elem_of_map_to_list]. cbn in *. rewrite Ha in Hin. injection Hin as <-.
  rewrite bool_decide_false in Hp by done. unfold expired in *. cbn in *. congruence.
Qed.

Definition over_and_done (old : list ClientLease) w : Prop :=
  epoch (cache w) = None ∧ entries (cache w) = ∅ ∧ acquirers w = [] ∧ (∀ c x, clients w !! c = Some x → is_over x = true)
  ∧ ∀ l, l ∈ leases w → l ∈ old.

Lemma over_frame old w w' :
  epoch (cache w') = epoch (cache w) ∨ epoch (cache w') = None → entries (cache w') = entries (cache w) →
  acquirers w' = acquirers w → ages (clients w) (clients w') → (∀ l, l ∈ leases w' → l ∈ leases w) →
  over_and_done old w → over_and_done old w'.
Proof.
  intros He Hn Ha Hc Hl (E1 & E2 & E3 & E4 & E5). split; [destruct He; congruence|]. split; [congruence|]. split; [congruence|].
  split; [|auto]. intros c x' Hx'. destruct (is_over x') eqn:Eo; [done|]. destruct (Hc c x' Hx' Eo) as (x & Hx & Hxo).
  by rewrite (E4 c x Hx) in Hxo.
Qed.

Lemma ages_refl l : ages l l.
Proof. intros c x ? ?. eauto. Qed.

Lemma over_step grace old w m w' : over_and_done old w → cache_step grace w m = Ok w' → over_and_done old w'.
Proof.
  intros Hw E. pose proof Hw as (He & Hn & Ha & _ & _).
  assert (Hacq : ∀ i f, on_acquirer w i f = Ok w' → w' = w) by (intros i f; unfold on_acquirer; rewrite Ha; by intros [= <-]).
  assert (Hset : ∀ w1, cache w1 = cache w → acquirers w1 = acquirers w → ages (clients w) (clients w1) →
    (∀ l, l ∈ leases w1 → l ∈ leases w) → over_and_done old w1).
  { intros w1 Hk ? ? ?. apply (over_frame old w); rewrite ?Hk; auto. }
  assert (Hnone : ∀ v, entries (cache v) = ∅ → map_to_list (entries (cache v)) = []) by (intros v ->; apply map_to_list_empty).
  destruct m as [a config|i|i physical failed|i|i|i|i|i|a i|a c| |i|i| | |i j|i|t| |config|c|c reason|d]; cbn [cache_step] in E;
    try (by apply Hacq in E as ->).
  - unfold acquire_begin in E. rewrite He in E. by injection E as <-.
  - injection E as <-. unfold drop_lease. destruct (leases w !! i) as [l|] eqn:Ei; [|done].
    destruct (release_refs_frame (set_leases w (delete i (leases w))) (ls_client l)) as (Ek & Ec & _ & _ & Eq & _ & El & _).
    apply Hset; rewrite ?Ek, ?Ec, ?Eq, ?El; try done; [apply ages_refl|]. cbn. intros x Hx. by eapply list_elem_of_delete_inv.
  - injection E as <-. unfold into_client. destruct (leases w !! i) as [l|] eqn:Ei; [|done]. apply Hset; try done; [apply ages_refl|].
    cbn. intros x Hx. by eapply list_elem_of_delete_inv.
  - injection E as <-. unfold release_if_same. destruct (explicit w !! i) as [l|] eqn:Ei; [|done]. cbn. rewrite Hn.
    rewrite bool_decide_false by done. by apply Hset; try apply ages_refl.
  - unfold discard_if_same in E. rewrite Hn, bool_decide_false in E by done. by injection E as <-.
  - unfold sweep_expired, evicted in E. rewrite Hnone in E by done. injection E as <-. apply (over_frame old w); try done; [by left|apply ages_refl].
  - injection E as <-. unfold deactivate_install. destruct (detached w !! i) as [[r c]|]; [|done]. by apply Hset; try apply ages_refl.
  - injection E as <-. unfold deactivate_stop. destruct (stopping w !! i) as [c|]; [|done]. apply Hset; try done. by apply ages_alter.
  - injection E as <-. apply (over_frame old w); try done; [by right|apply ages_refl].
  - injection E as <-. by apply Hset; try apply ages_refl.
  - injection E as <-. unfold merge_seed. destruct (seeds w !! j); [|done]. by apply Hset; try apply ages_refl.
  - destruct (drain w); [by injection E as <-|]. destruct (observations w !! i); [|by injection E as <-].
    unfold close_section in E. rewrite Hnone in E by done. injection E as <-. apply (over_frame old w); try done; [by left|apply ages_refl].
  - injection E as <-. destruct (drain w) as [dr|]; [|done]. destruct (close_visit w dr t); [|done]. by apply Hset; try apply ages_refl.
  - destruct (drain w) as [dr|]; [|by injection E as <-]. case_bool_decide; [|by injection E as <-]. unfold close_end in E. rewrite He in E.
    injection E as <-. apply (over_frame old w); try done; [by right|apply ages_refl].
  - injection E as <-. unfold set_default_config. destruct (budget (cache w)); [case_bool_decide|]; try done;
      (apply (over_frame old w); try done; [by left|apply ages_refl]).
  - injection E as <-. apply Hset; try done. by apply ages_alter.
  - injection E as <-. apply Hset; try done. apply ages_alter, end_over.
  - injection E as <-. by apply Hset; try apply ages_refl.
Qed.

Lemma drained_over w d :
  cache_ok w → drain w = Some d → dr_sealed d = true → dr_left d = [] → dr_unconfirmed d = [] →
  (∀ c x, clients w !! c = Some x → is_over x = true) ∧ entries (cache w) = ∅ ∧ acquirers w = [] ∧ epoch (cache w) = None.
Proof.
  intros (Ht & Hs & Ho) Hd Hse Hl Hu. destruct (o_drain w Ho d Hd) as [_ Hall]. destruct (Hall Hse) as [He Hrec].
  assert (Hdone : ∀ id r, records (cache w) !! id = Some r → record_complete w r = true).
  { intros id r Hid. destruct (record_complete w r) eqn:E; [done|]. destruct (Hrec id r Hid E) as [_ [Hin|?]]; [|done].
    rewrite Hl in Hin. by apply elem_of_nil in Hin. }
  assert (Hund : ∀ r, r ∉ undecided w).
  { intros r Hr. destruct (t_undecided w Ht r Hr) as [[id Hid] (rec & Hr' & Hp)]. pose proof (Hdone id r Hid) as Hc.
    by rewrite (preparing_incomplete w r rec Hr' Hp) in Hc. }
  assert (Hempty : entries (cache w) = ∅) by (apply (s_empty w Hs), (s_drain w Hs); rewrite Hd; by eexists).
  assert (Hacq : acquirers w = []).
  { destruct (acquirers w) as [|q qs] eqn:E; [done|]. destruct (Hund (aq_record q)). unfold undecided. rewrite E. cbn. by left. }
  split; [|done]. intros c x Hx. destruct (is_over x) eqn:Eo; [done|].
  destruct (t_home w Ht c x Hx Eo) as [[a Ha]|[Hdet|[(q & Hq & _)|(id & r & rec & Hid & Hr & Hst)]]].
  - by rewrite Hempty in Ha.
  - apply list_elem_of_fmap in Hdet as ((r & c') & _ & Hin). destruct (Hund r). apply elem_of_app. right.
    apply list_elem_of_fmap. by exists (r, c').
  - rewrite Hacq in Hq. by apply elem_of_nil in Hq.
  - pose proof (Hdone id r Hid) as Hc. by rewrite (closing_incomplete w r rec c x Hr Hst Hx Eo) in Hc.
Qed.

(** C29 No physical connection is lost: at every point of every interleaving of connects,
    evictions, releases, drains and ends, a connection that is not over is either cached,
    or held by a close record that is still kept because it is not complete: the record of
    its connect, of its pending deactivation, or of its close. *)
Theorem connections_tracked (grace start : Z) (l : list CacheMove) (w : World) (c : nat) (x : SyncClient) :
  cache_run grace (cache_world start) l = Ok w → clients w !! c = Some x → is_over x = false →
  (∃ a, entries (cache w) !! a = Some c) ∨
  ∃ id r rec, records (cache w) !! id = Some r ∧ closes w !! r = Some rec ∧ complete w rec = false ∧
    (cr_state rec = ClosingClient c ∨
     cr_state rec = Preparing ∧ ((r, c) ∈ detached w ∨ ∃ q, q ∈ acquirers w ∧ aq_record q = r ∧ aq_client q = Some c)).
Proof.
  intros (Ht & _ & _)%cache_ok_run Hx Ho; [|apply cache_ok_new].
  assert (Hprep : ∀ r, r ∈ undecided w → ∃ id rec, records (cache w) !! id = Some r ∧ closes w !! r = Some rec ∧ cr_state rec = Preparing).
  { intros r Hr. destruct (t_undecided w Ht r Hr) as [[id Hid] (rec & Hrec & Hp)]. eauto. }
  destruct (t_home w Ht c x Hx Ho) as [?|[Hd|[(q & Hq & Hc)|(id & r & rec & Hid & Hr & Hs)]]]; [by left|right..].
  - apply list_elem_of_fmap in Hd as ((r & c') & -> & Hd). destruct (Hprep r) as (id & rec & Hid & Hrec & Hp).
    { apply elem_of_app. right. apply list_elem_of_fmap. by exists (r, c'). }
    exists id, r, rec. unfold complete. rewrite Hp. split_and!; [done..|]. right. auto.
  - destruct (Hprep (aq_record q)) as (id & rec & Hid & Hrec & Hp); [apply elem_of_app; left; by apply list_elem_of_fmap_2|].
    exists id, (aq_record q), rec. unfold complete. rewrite Hp. split_and!; [done..|]. right. split; [done|]. right. eauto.
  - exists id, r, rec. split_and!; [done..| |by left]. unfold complete. by rewrite Hs, Hx.
Qed.

(** A lease is what was asked for: its connection was opened in the epoch of the grant,
    so none from before a drain is handed out after it, its policy equals the requested
    one, all connections share one memory budget, and while the lease is held the
    connection is not idle and no sweep evicts it. *)
Theorem lease_honoured (grace start : Z) (l : list CacheMove) (w : World) (h : ClientLease) :
  cache_run grace (cache_world start) l = Ok w → h ∈ leases w ++ explicit w →
  ∃ x, clients w !! ls_client h = Some x ∧ sc_epoch x = ls_epoch h
    ∧ (sc_config x = ls_config h ∨ config_eqb (sc_config x) (ls_config h) = true)
    ∧ budget (cache w) = Some (memory_budget_limits (sc_config x))
    ∧ expired grace w (ls_client h) = false
    ∧ ∀ a w', entries (cache w) !! a = Some (ls_client h) → cache_step grace w Sweep = Ok w' →
        entries (cache w') !! a = Some (ls_client h).
Proof.
  intros Hw%cache_ok_run Hh; [|apply cache_ok_new]. pose proof Hw as (_ & Hs & _).
  destruct (s_leases w Hs h Hh) as (x & Hx & He & Hc). exists x. split_and!; [done..|by eapply (s_budget w Hs)|by apply holder_not_expired|].
  intros a w' Ha E. eapply sweep_keeps; [done|by apply holder_not_expired|exact E].
Qed.

(** C30 A sealed cache that finishes a drain with no unconfirmed close has closed
    everything: every connection it ever opened is over, none is cached, no connect is in
    progress, and whatever follows none is opened or leased again. *)
Theorem sealed_drain_closes_all (grace start : Z) (l l' : list CacheMove) (w w1 w2 : World) (d : Drain) :
  cache_run grace (cache_world start) l = Ok w → drain w = Some d → dr_sealed d = true → dr_left d = [] → dr_unconfirmed d = [] →
  cache_step grace w CloseEnd = Ok w1 → cache_run grace w1 l' = Ok w2 →
  (∀ c x, clients w2 !! c = Some x → is_over x = true) ∧ entries (cache w2) = ∅ ∧ acquirers w2 = []
  ∧ ∀ h, h ∈ leases w2 → h ∈ leases w.
Proof.
  intros Hw%cache_ok_run Hd Hse Hl Hu E Hrun; [|apply cache_ok_new]. destruct (drained_over w d Hw Hd Hse Hl Hu) as (Hov & Hent & Hacq & Hep).
  assert (over_and_done (leases w) w2) as (_ & ? & ? & ? & ?); [|done].
  apply (cache_run_inv (over_and_done (leases w)) grace (CloseEnd :: l') w); [intros ? ? ?; apply over_step|done|].
  cbn [cache_run]. by rewrite E.
Qed.

Lemma differing_nil {A} (l : list (A * bool)) :
  omap (fun p => if p.2 : bool then None else Some p.1) l = [] ↔ forallb snd l = true.
Proof. induction l as [|[x b] l IH]; cbn; [done|]. destruct b; cbn; [done|]. by split. Qed.

Lemma never_none a b : "none"%string ∉ (named_differences a b).*1.
Proof. cbn. rewrite !not_elem_of_cons. split_and!; try discriminate. by intros ?%elem_of_nil. Qed.

Lemma differing_none a b : differing_client_policy_fields a b = ["none"%string] ↔ forallb snd (named_differences a b) = true.
Proof.
  unfold differing_client_policy_fields. rewrite <-differing_nil.
  case_bool_decide as E; [by rewrite E|]. split; [|done]. intros Hd.
  assert (Hin : "none"%string ∈ omap (fun p => if p.2 : bool then None else Some p.1) (named_differences a b)) by (rewrite Hd; by left).
  apply list_elem_of_omap in Hin as ([n v] & Hin & Hv). destruct (never_none a b). cbn in Hv. destruct v; [done|]. injection Hv as <-.
  apply list_elem_of_fmap. by exists (n, false).
Qed.

Lemma config_eqb_named a b :
  config_eqb a b = SFeqb (write_timeout_secs (base a)) (write_timeout_secs (base b))
    && (max_dedicated_segments (base a) =? max_dedicated_segments (base b))
    && SFeqb (spill_threshold (base a)) (spill_threshold (base b)) && forallb snd (named_differences a b).
Proof. apply eq_true_iff_eq. unfold config_eqb, base_config_eqb. cbn. rewrite !andb_true_iff. tauto. Qed.

(** The refusal of a divergent policy does not always say what differs: policies that
    differ only in the write timeout, the number of dedicated segments or the spill
    threshold are refused as different and the difference is named none; those are the
    only ones. *)
Lemma policy_difference_unnamed (a b : ClientIpcConfig) :
  differing_client_policy_fields a b = ["none"%string] ∧ config_eqb a b = false ↔
  forallb snd (named_differences a b) = true ∧
  (SFeqb (write_timeout_secs (base a)) (write_timeout_secs (base b)) = false
   ∨ max_dedicated_segments (base a) ≠ max_dedicated_segments (base b)
   ∨ SFeqb (spill_threshold (base a)) (spill_threshold (base b)) = false).
Proof.
  rewrite differing_none, config_eqb_named. split.
  - intros [Hn He]. split; [done|]. rewrite Hn, andb_true_r in He. apply andb_false_iff in He as [He|?]; [|auto].
    apply andb_false_iff in He as [?|He%Z.eqb_neq]; auto.
  - intros [Hn He]. split; [done|]. rewrite Hn, andb_true_r. apply andb_false_iff. rewrite andb_false_iff, Z.eqb_neq. tauto.
Qed.

Definition sample_address : str := [Byte.x67].

Definition cache_ran (grace : Z) w (l : list CacheMove) : World := match cache_run grace w l with Ok w' => w' | _ => w end.

Lemma cache_ran_ok grace w l : is_ok (cache_run grace w l) = true → cache_run grace w l = Ok (cache_ran grace w l).
Proof. unfold cache_ran. by destruct (cache_run grace w l). Qed.

(** A connect is published and leased, and the lease is dropped; the idle connection
    expires and a sweep detaches it. *)
Definition sample_connect : list CacheMove := [Acquire sample_address None; CheckEpoch 0; Attempt 0 true None; Publish 0].
Definition sample_sweep : list CacheMove := sample_connect ++ [DropLease 0; Pass 100; Sweep; DeactivateInstall 0].

Lemma connections_tracked_witness :
  entries (cache (cache_ran 50 (cache_world 0) sample_sweep)) !! sample_address = None
  ∧ ∃ id r rec, records (cache (cache_ran 50 (cache_world 0) sample_sweep)) !! id = Some r
      ∧ closes (cache_ran 50 (cache_world 0) sample_sweep) !! r = Some rec.
Proof.
  assert (E : cache_run 50 (cache_world 0) sample_sweep = Ok (cache_ran 50 (cache_world 0) sample_sweep))
    by (apply cache_ran_ok; vm_compute; reflexivity).
  split; [vm_compute; reflexivity|].
  destruct (connections_tracked 50 0 sample_sweep _ 0
    {| sc_config := ClientIpcConfig_default; sc_physical := true; sc_admits := true; sc_end := None; sc_epoch := 0 |} E)
    as [[a Ha]|(id & r & rec & Hid & Hr & _)]; [vm_compute; reflexivity|vm_compute; reflexivity| |eauto].
  replace (entries (cache (cache_ran 50 (cache_world 0) sample_sweep))) with (∅ : gmap str nat) in Ha by (vm_compute; reflexivity). discriminate.
Defined.

Lemma lease_honoured_witness :
  expired 50 (cache_ran 50 (cache_world 0) (sample_connect ++ [Pass 1000])) 0 = false.
Proof.
  assert (E : cache_run 50 (cache_world 0) (sample_connect ++ [Pass 1000]) = Ok (cache_ran 50 (cache_world 0) (sample_connect ++ [Pass 1000])))
    by (apply cache_ran_ok; vm_compute; reflexivity).
  destruct (lease_honoured 50 0 _ _ {| ls_client := 0; ls_config := ClientIpcConfig_default; ls_epoch := 0 |} E)
    as (x & _ & _ & _ & _ & Hexp & _); [|exact Hexp].
  apply elem_of_app. left. apply list_elem_of_lookup. exists 0%nat. vm_compute. reflexivity.
Defined.

(** The cache is sealed with an open connection and drained; the drain waits for its end. *)
Definition sample_seal : list CacheMove :=
  sample_connect ++ [Seal; ObserveCloses; CloseSection 0; DeactivateInstall 0; DeactivateStop 0; EndConnection 0 LocalClose; CloseVisit false; CloseVisit false].

Lemma cache_ran_cons grace w m l :
  is_ok (cache_run grace w (m :: l)) = true →
  cache_step grace w m = Ok (cache_ran grace w [m]) ∧ cache_run grace (cache_ran grace w [m]) l = Ok (cache_ran grace w (m :: l)).
Proof.
  unfold cache_ran. cbn [cache_run]. destruct (cache_step grace w m) as [w1| |]; cbn; [|done..]. split; [done|].
  by destruct (cache_run grace w1 l).
Qed.

Lemma drain_report w (v : bool * list Z * list str) :
  (fun d => (dr_sealed d, dr_left d, dr_unconfirmed d)) <$> drain w = Some v →
  ∃ d, drain w = Some d ∧ dr_sealed d = v.1.1 ∧ dr_left d = v.1.2 ∧ dr_unconfirmed d = v.2.
Proof. intros (d & Hd & ->)%fmap_Some. eauto. Qed.

Definition sealed_world : World := cache_ran 50 (cache_world 0) sample_seal.

Lemma sealed_drain_witness :
  entries (cache (cache_ran 50 sealed_world [CloseEnd; Acquire sample_address None])) = ∅.
Proof.
  assert (E : cache_run 50 (cache_world 0) sample_seal = Ok sealed_world) by (apply cache_ran_ok; vm_compute; reflexivity).
  destruct (cache_ran_cons 50 sealed_world CloseEnd [Acquire sample_address None]) as [E1 E2]; [vm_compute; reflexivity|].
  destruct (drain_report sealed_world (true, [], [])) as (d & Ed & Hs & Hl & Hu); [vm_compute; reflexivity|].
  exact (proj1 (proj2 (sealed_drain_closes_all 50 0 sample_seal [Acquire sample_address None] sealed_world _ _ d E Ed Hs Hl Hu E1 E2))).
Defined.
