(* ===== verification/Errors.v ===== *)
(** The error envelope that replies and refusals carry (c2-error, lib.rs): the registry of
    codes, the envelope and its wire form.  JSON is the work of a library; the class [Json]
    states what the crates use of it. *)

From S2P Require Import Prelude.
From S2P Require Import Text.

(** ** JSON *)

(** [serde_json] for a type with derived implementations: writing may fail, and what was
    written reads back. *)
Class Json (T : Type) := {
  to_vec : T → option bytes;
  from_slice : bytes → option T;
  json_round : ∀ v b, to_vec v = Some b → from_slice b = Some v }.

(** Types whose maps have strings as keys are always written. *)
Class JsonTotal (T : Type) `{!Json T} := to_vec_total : ∀ v : T, is_Some (to_vec v).

(** ** Codes *)

Inductive ErrorCode :=
| EUnknown | EResourceInputDeserializing | EResourceOutputSerializing | EResourceFunctionExecuting
| EResourceInputFromBuffer | EClientInputSerializing | EClientOutputDeserializing
| EClientCallingResource | EClientOutputFromBuffer | EResourceNotFound | EResourceUnavailable
| EResourceAlreadyRegistered | ERouteStale | ERegistryUnavailable | EWriteConflict | EResourceClosed
| EResourceRemoved | EContractMismatch | EIdentityMismatch | ERouteCatalogCompacted
| ERouteWatchUnavailable | EProtocolViolation | EFallbackDenied | ECallDeadlineExceeded
| EUnsupportedCallMode | ECallCapacityExceeded.
#[export] Instance error_code_eq : EqDecision ErrorCode.
Proof. solve_decision. Defined.

Definition code_value (c : ErrorCode) : Z :=
  match c with
  | EUnknown => 0
  | EResourceInputDeserializing => 1
  | EResourceOutputSerializing => 2
  | EResourceFunctionExecuting => 3
  | EResourceInputFromBuffer => 4
  | EClientInputSerializing => 5
  | EClientOutputDeserializing => 6
  | EClientCallingResource => 7
  | EClientOutputFromBuffer => 8
  | EResourceNotFound => 701
  | EResourceUnavailable => 702
  | EResourceAlreadyRegistered => 703
  | ERouteStale => 704
  | ERegistryUnavailable => 705
  | EWriteConflict => 706
  | EResourceClosed => 707
  | EResourceRemoved => 708
  | EContractMismatch => 709
  | EIdentityMismatch => 710
  | ERouteCatalogCompacted => 711
  | ERouteWatchUnavailable => 712
  | EProtocolViolation => 713
  | EFallbackDenied => 714
  | ECallDeadlineExceeded => 715
  | EUnsupportedCallMode => 716
  | ECallCapacityExceeded => 717
  end.

Definition variant_name (c : ErrorCode) : string :=
  match c with
  | EUnknown => "Unknown"
  | EResourceInputDeserializing => "ResourceInputDeserializing"
  | EResourceOutputSerializing => "ResourceOutputSerializing"
  | EResourceFunctionExecuting => "ResourceFunctionExecuting"
  | EResourceInputFromBuffer => "ResourceInputFromBuffer"
  | EClientInputSerializing => "ClientInputSerializing"
  | EClientOutputDeserializing => "ClientOutputDeserializing"
  | EClientCallingResource => "ClientCallingResource"
  | EClientOutputFromBuffer => "ClientOutputFromBuffer"
  | EResourceNotFound => "ResourceNotFound"
  | EResourceUnavailable => "ResourceUnavailable"
  | EResourceAlreadyRegistered => "ResourceAlreadyRegistered"
  | ERouteStale => "RouteStale"
  | ERegistryUnavailable => "RegistryUnavailable"
  | EWriteConflict => "WriteConflict"
  | EResourceClosed => "ResourceClosed"
  | EResourceRemoved => "ResourceRemoved"
  | EContractMismatch => "ContractMismatch"
  | EIdentityMismatch => "IdentityMismatch"
  | ERouteCatalogCompacted => "RouteCatalogCompacted"
  | ERouteWatchUnavailable => "RouteWatchUnavailable"
  | EProtocolViolation => "ProtocolViolation"
  | EFallbackDenied => "FallbackDenied"
  | ECallDeadlineExceeded => "CallDeadlineExceeded"
  | EUnsupportedCallMode => "UnsupportedCallMode"
  | ECallCapacityExceeded => "CallCapacityExceeded"
  end.

Definition registry : list ErrorCode :=
  [EUnknown; EResourceInputDeserializing; EResourceOutputSerializing; EResourceFunctionExecuting
  ; EResourceInputFromBuffer; EClientInputSerializing; EClientOutputDeserializing
  ; EClientCallingResource; EClientOutputFromBuffer; EResourceNotFound; EResourceUnavailable
  ; EResourceAlreadyRegistered; ERouteStale; ERegistryUnavailable; EWriteConflict; EResourceClosed
  ; EResourceRemoved; EContractMismatch; EIdentityMismatch; ERouteCatalogCompacted
  ; ERouteWatchUnavailable; EProtocolViolation; EFallbackDenied; ECallDeadlineExceeded
  ; EUnsupportedCallMode; ECallCapacityExceeded].

Definition code_name (c : ErrorCode) : str := text (variant_name c).

Definition code_try_from (v : Z) : option ErrorCode := head (filter (fun c => code_value c = v) registry).

(** ** Errors and envelopes *)

Record C2Error := { er_code : ErrorCode; er_message : str; er_details : gmap str str }.

Record C2ErrorEnvelope := {
  en_version : Z;
  en_code : Z;
  en_name : str;
  en_message : str;
  en_details : gmap str str }.

Definition ERROR_WIRE_VERSION : Z := 1.
Definition ERROR_WIRE_MAGIC : str := text "C2E1".

Definition envelope (e : C2Error) : C2ErrorEnvelope :=
  {| en_version := ERROR_WIRE_VERSION; en_code := code_value (er_code e); en_name := code_name (er_code e);
     en_message := er_message e; en_details := er_details e |}.

Inductive C2ErrorDecodeError :=
| MissingMagic
| InvalidJson
| UnsupportedVersion (v : Z)
| CodeNameMismatch (code : Z) (expected actual : str).

Definition or_insert (k v : str) (m : gmap str str) : gmap str str :=
  match m !! k with Some _ => m | None => <[k := v]> m end.

Definition from_envelope (v : C2ErrorEnvelope) : res C2ErrorDecodeError C2Error :=
  guard_err (negb (en_version v =? ERROR_WIRE_VERSION)) (UnsupportedVersion (en_version v)) ;?
  match code_try_from (en_code v) with
  | Some c =>
      guard_err (negb (bool_decide (en_name v = code_name c))) (CodeNameMismatch (en_code v) (code_name c) (en_name v)) ;?
      Ok {| er_code := c; er_message := en_message v; er_details := en_details v |}
  | None =>
      let details := or_insert (text "unknown_code") (decimal (en_code v)) (en_details v) in
      let details := or_insert (text "unknown_name") (en_name v) details in
      Ok {| er_code := EUnknown;
            er_message := text "Unknown error code " ++ decimal (en_code v) ++ text " (" ++ en_name v ++ text "): " ++ en_message v;
            er_details := details |}
  end.

Definition strip_prefix (prefix data : str) : option str :=
  if bool_decide (take (length prefix) data = prefix) then Some (drop (length prefix) data) else None.

Section Wire.
Context `{!Json C2ErrorEnvelope}.

(** [to_vec(..).expect(..)] panics when the envelope cannot be written. *)
Definition to_wire_bytes (e : C2Error) : res C2ErrorDecodeError bytes :=
  match to_vec (envelope e) with Some b => Ok (ERROR_WIRE_MAGIC ++ b) | None => Panic end.

Definition from_wire_bytes (data : bytes) : res C2ErrorDecodeError (option C2Error) :=
  if bool_decide (data = []) then Ok None
  else
    match strip_prefix ERROR_WIRE_MAGIC data with
    | None => Err MissingMagic
    | Some payload =>
        match from_slice payload with
        | None => Err InvalidJson
        | Some v => let? e := from_envelope v in Ok (Some e)
        end
    end.
End Wire.

(** ** Properties *)

Lemma code_try_from_value c : code_try_from (code_value c) = Some c.
Proof. destruct c; vm_compute; reflexivity. Qed.

Lemma code_try_from_inv v c : code_try_from v = Some c → code_value c = v.
Proof.
  unfold code_try_from. intros Hc. assert (Hin : c ∈ filter (fun c => code_value c = v) registry).
  { destruct (filter _ registry) as [|c' l]; [done|]. injection Hc as ->. by left. }
  by apply list_elem_of_filter in Hin as [? _].
Qed.

Lemma code_name_inj c c' : code_name c = code_name c' → c = c'.
Proof. destruct c, c'; vm_compute; congruence. Qed.

Lemma from_envelope_envelope e : from_envelope (envelope e) = Ok e.
Proof.
  unfold from_envelope, envelope. cbn [en_version en_code en_name en_message en_details]. cbn [Z.eqb negb guard_err ERROR_WIRE_VERSION].
  rewrite code_try_from_value, bool_decide_true by done. by destruct e.
Qed.

Lemma strip_prefix_app p d : strip_prefix p (p ++ d) = Some d.
Proof. unfold strip_prefix. rewrite take_app_length, bool_decide_true by done. by rewrite drop_app_length. Qed.

Lemma or_insert_self k v m : or_insert k v m !! k = Some (default v (m !! k)).
Proof. unfold or_insert. destruct (m !! k) as [x|] eqn:E; [by rewrite E|]. by rewrite lookup_insert_eq. Qed.

Lemma or_insert_subseteq k v m : m ⊆ or_insert k v m.
Proof. unfold or_insert. destruct (m !! k) eqn:E; [done|]. by apply insert_subseteq. Qed.

Lemma or_insert_other k v m k' : k ≠ k' → or_insert k v m !! k' = m !! k'.
Proof. intros Hk. unfold or_insert. destruct (m !! k); [done|]. by rewrite lookup_insert_ne. Qed.

(** An envelope that is understood is the envelope of its error, and one with a code of
    another version keeps the code and the name it was given. *)
Lemma from_envelope_exact v e :
  from_envelope v = Ok e →
  en_version v = ERROR_WIRE_VERSION ∧
  (envelope e = v ∨
   code_try_from (en_code v) = None ∧ er_code e = EUnknown ∧ en_details v ⊆ er_details e
   ∧ er_details e !! text "unknown_code" = Some (default (decimal (en_code v)) (en_details v !! text "unknown_code"))
   ∧ er_details e !! text "unknown_name" = Some (default (en_name v) (en_details v !! text "unknown_name"))).
Proof.
  unfold from_envelope. intros (u & Hv%guard_err_ok & E)%bind_ok. apply negb_false_iff, Z.eqb_eq in Hv. split; [done|].
  destruct (code_try_from (en_code v)) as [c|] eqn:Ec.
  - apply bind_ok in E as (u' & Hn%guard_err_ok & [= <-]). apply negb_false_iff, bool_decide_eq_true in Hn. left.
    unfold envelope. cbn. rewrite (code_try_from_inv _ _ Ec). destruct v. cbn in *. congruence.
  - injection E as <-. right. cbn [er_code er_details]. split_and!; [done|done|..].
    + etransitivity; apply or_insert_subseteq.
    + by rewrite or_insert_other, or_insert_self.
    + by rewrite or_insert_self, or_insert_other.
Qed.

Lemma wire_read `{!Json C2ErrorEnvelope} e b : to_wire_bytes e = Ok b → from_wire_bytes b = Ok (Some e).
Proof.
  unfold to_wire_bytes, from_wire_bytes.
  destruct (to_vec (envelope e)) as [json|] eqn:E; [|done]. intros Hb. assert (b = ERROR_WIRE_MAGIC ++ json) as -> by congruence.
  rewrite bool_decide_false by done. by rewrite strip_prefix_app, (json_round _ _ E), from_envelope_envelope.
Qed.

(** C39 Errors survive the wire: what an error writes reads back as the same error; an
    envelope that is accepted is of this version, and is that of the error it is read as
    unless its code is not known here; one of this version whose code is not known is
    accepted as an unknown error that keeps every detail it came with, and the code and the
    name as details where the envelope had none of that name. *)
Theorem error_wire_exact `{!Json C2ErrorEnvelope} :
  (∀ e b, to_wire_bytes e = Ok b → from_wire_bytes b = Ok (Some e)) ∧
  (∀ v e, from_envelope v = Ok e →
     en_version v = ERROR_WIRE_VERSION ∧
     (envelope e = v ∨
      code_try_from (en_code v) = None ∧ er_code e = EUnknown ∧ en_details v ⊆ er_details e
      ∧ er_details e !! text "unknown_code" = Some (default (decimal (en_code v)) (en_details v !! text "unknown_code"))
      ∧ er_details e !! text "unknown_name" = Some (default (en_name v) (en_details v !! text "unknown_name")))) ∧
  (∀ v, en_version v = ERROR_WIRE_VERSION → code_try_from (en_code v) = None → ∃ e, from_envelope v = Ok e).
Proof.
  split; [exact wire_read|]. split; [exact from_envelope_exact|]. intros v Hv Hc. unfold from_envelope. rewrite Hv, Hc. by eexists.
Qed.

#[export] Instance envelope_eq : EqDecision C2ErrorEnvelope.
Proof. solve_decision. Defined.

(** A codec of any countable type: the bits of its code. *)
Fixpoint bits (p : positive) : bytes :=
  match p with
  | xH => []
  | xO p => Byte.x00 :: bits p
  | xI p => Byte.x01 :: bits p
  end.
Fixpoint unbits (b : bytes) : positive :=
  match b with
  | [] => xH
  | b :: l => if u8 b =? 0 then xO (unbits l) else xI (unbits l)
  end.

Lemma unbits_bits p : unbits (bits p) = p.
Proof. induction p as [p IH|p IH|]; cbn; by rewrite ?IH. Qed.

Program Definition countable_json (T : Type) `{Countable T} : Json T :=
  {| to_vec v := Some (bits (encode v)); from_slice b := decode (unbits b) |}.
Next Obligation. intros T ? ? v b [= <-]. by rewrite unbits_bits, decode_encode. Qed.

#[export] Instance envelope_countable : Countable C2ErrorEnvelope.
Proof.
  apply (inj_countable' (fun e => (en_version e, en_code e, en_name e, en_message e, en_details e))
    (fun '(v, c, n, m, d) => {| en_version := v; en_code := c; en_name := n; en_message := m; en_details := d |})).
  by intros [].
Defined.

Definition sample_error : C2Error := {| er_code := ERouteStale; er_message := text "gone"; er_details := {[text "route" := text "grid"]} |}.

Lemma error_wire_witness :
  let J := countable_json C2ErrorEnvelope in
  from_wire_bytes (ERROR_WIRE_MAGIC ++ bits (encode (envelope sample_error))) = Ok (Some sample_error).
Proof. intros J. destruct (@error_wire_exact J) as [H _]. apply H. reflexivity. Defined.
