(* ===== verification/Catalog.v ===== *)
(** The route catalog on the wire (c2-wire, route_catalog_control.rs and
    registration_control.rs): what peers ask a host about its routes and what it answers,
    with the checks every received payload passes.  Payloads are a tag byte followed by
    JSON. *)

From S2P Require Import Prelude.
From S2P Require Import Text.
From S2P Require Import Frame.
From S2P Require Import Handshake.
From S2P Require Import Errors.

(** ** Records *)

Record RouteContractWire := {
  rc_route_name : str;
  rc_crm_ns : str;
  rc_crm_name : str;
  rc_crm_ver : str;
  rc_abi_hash : str;
  rc_signature_hash : str }.
#[export] Instance contract_wire_eq : EqDecision RouteContractWire.
Proof. solve_decision. Defined.

Inductive RouteStateWire := WireReady | WireClosed.
#[export] Instance state_wire_eq : EqDecision RouteStateWire.
Proof. solve_decision. Defined.

Inductive RouteStateReasonWire := RegisterCommitted | ExplicitUnregister | ReasonShutdown.
#[export] Instance reason_wire_eq : EqDecision RouteStateReasonWire.
Proof. solve_decision. Defined.

Record RouteMethodWire := { rm_name : str; rm_index : Z }.
#[export] Instance method_wire_eq : EqDecision RouteMethodWire.
Proof. solve_decision. Defined.

Record RouteRecordWire := {
  rr_route_name : str;
  rr_route_uid : str;
  rr_owner_server_id : str;
  rr_owner_server_instance_id : str;
  rr_contract : RouteContractWire;
  rr_methods : list RouteMethodWire;
  rr_max_payload_size : Z;
  rr_state : RouteStateWire;
  rr_state_reason : RouteStateReasonWire }.
#[export] Instance record_wire_eq : EqDecision RouteRecordWire.
Proof. solve_decision. Defined.

Inductive RouteSelector :=
| SelectAll
| SelectName (route_name : str)
| SelectContract (expected : RouteContractWire).

Record RouteListRequest := { selector : RouteSelector }.
Record RouteListResponse := { routes : list RouteRecordWire }.
Record RouteLookupRequest := { expected : RouteContractWire; observed_route_uid : option str }.

Inductive RouteLookupResponse :=
| LookupReady (current : RouteRecordWire)
| LookupNotFound (route_name : str)
| LookupRemoved (route_name : str) (route_uid : option str)
| LookupClosed (route_name route_uid : str) (reason : RouteStateReasonWire)
| LookupStale (current : RouteRecordWire)
| LookupContractMismatch (current : RouteRecordWire).

Record RouteNack := { nack_error : C2ErrorEnvelope }.

Record PendingRouteAttestationRequest := { ar_route_name : str; ar_registration_token : str }.

Record PendingRouteAttestation := {
  pa_route_name : str;
  pa_route_uid : str;
  pa_crm_ns : str;
  pa_crm_name : str;
  pa_crm_ver : str;
  pa_abi_hash : str;
  pa_signature_hash : str;
  pa_method_names : list str;
  pa_max_payload_size : Z }.

Inductive PendingRouteAttestationResponse :=
| Attested (contract : PendingRouteAttestation)
| Rejected (code message : str).

(** ** Checks *)

(** The reasons behind the texts these functions return. *)
Inductive CatalogError :=
| PayloadEmpty
| TagMismatch
| JsonFailed
| BadContract (e : ContractError)
| BadServerId (e : IdError)
| BadUid (e : UidError)
| BadToken (e : UidError)
| NameDiffers
| NoPayloadSize
| MethodCount (n : Z)
| MethodEmpty
| MethodTooLong (n : Z)
| DuplicateMethod (name : str)
| DuplicateIndex (index : Z)
| DuplicateName (name : str)
| DuplicateUid (uid : str)
| BadEnvelopeVersion (v : Z)
| BadEnvelopeCode (code : Z)
| BadEnvelopeName (code : Z) (expected actual : str).

Definition check_route_name (route_name : str) : res CatalogError unit :=
  map_err BadContract (validate_call_route_key "route_name" route_name).
Definition check_route_uid (value : str) : res CatalogError unit := map_err BadUid (validate_route_uid value).

(** [validate_registration_token] makes the checks of [validate_route_uid]. *)
Definition validate_registration_token (token : str) : res CatalogError unit := map_err BadToken (validate_route_uid token).

Definition validate_contract (c : RouteContractWire) : res CatalogError unit :=
  check_route_name (rc_route_name c) ;?
  map_err BadContract (validate_crm_tag (rc_crm_ns c) (rc_crm_name c) (rc_crm_ver c)) ;?
  map_err BadContract (validate_contract_hash "abi_hash" (rc_abi_hash c)) ;?
  map_err BadContract (validate_contract_hash "signature_hash" (rc_signature_hash c)).

(** The loop over the methods of a record, with the names and indexes seen. *)
Fixpoint validate_methods (names : gset str) (indexes : gset Z) (l : list RouteMethodWire) : res CatalogError unit :=
  match l with
  | [] => Ok tt
  | m :: l =>
      guard_err (bool_decide (rm_name m = [])) MethodEmpty ;?
      guard_err (U8_MAX <? blen (rm_name m)) (MethodTooLong (blen (rm_name m))) ;?
      guard_err (bool_decide (rm_name m ∈ names)) (DuplicateMethod (rm_name m)) ;?
      guard_err (bool_decide (rm_index m ∈ indexes)) (DuplicateIndex (rm_index m)) ;?
      validate_methods ({[rm_name m]} ∪ names) ({[rm_index m]} ∪ indexes) l
  end.

Definition validate_route_record (r : RouteRecordWire) : res CatalogError unit :=
  check_route_uid (rr_route_uid r) ;?
  map_err BadServerId (validate_server_id (rr_owner_server_id r)) ;?
  map_err BadServerId (validate_server_id (rr_owner_server_instance_id r)) ;?
  validate_contract (rr_contract r) ;?
  guard_err (negb (bool_decide (rc_route_name (rr_contract r) = rr_route_name r))) NameDiffers ;?
  guard_err (rr_max_payload_size r =? 0) NoPayloadSize ;?
  guard_err (MAX_METHODS <? blen (rr_methods r)) (MethodCount (blen (rr_methods r))) ;?
  validate_methods ∅ ∅ (rr_methods r).

Definition validate_selector (s : RouteSelector) : res CatalogError unit :=
  match s with
  | SelectAll => Ok tt
  | SelectName route_name => check_route_name route_name
  | SelectContract expected => validate_contract expected
  end.

Fixpoint validate_records (names uids : gset str) (l : list RouteRecordWire) : res CatalogError unit :=
  match l with
  | [] => Ok tt
  | r :: l =>
      validate_route_record r ;?
      guard_err (bool_decide (rr_route_name r ∈ names)) (DuplicateName (rr_route_name r)) ;?
      guard_err (bool_decide (rr_route_uid r ∈ uids)) (DuplicateUid (rr_route_uid r)) ;?
      validate_records ({[rr_route_name r]} ∪ names) ({[rr_route_uid r]} ∪ uids) l
  end.

Definition validate_route_list_response (r : RouteListResponse) : res CatalogError unit := validate_records ∅ ∅ (routes r).

Definition check_optional_uid (uid : option str) : res CatalogError unit :=
  match uid with Some uid => check_route_uid uid | None => Ok tt end.

Definition validate_route_lookup_request (r : RouteLookupRequest) : res CatalogError unit :=
  validate_contract (expected r) ;? check_optional_uid (observed_route_uid r).

Definition validate_route_lookup_response (r : RouteLookupResponse) : res CatalogError unit :=
  match r with
  | LookupReady current | LookupStale current | LookupContractMismatch current => validate_route_record current
  | LookupNotFound route_name => check_route_name route_name
  | LookupRemoved route_name uid => check_route_name route_name ;? check_optional_uid uid
  | LookupClosed route_name uid _ => check_route_name route_name ;? check_route_uid uid
  end.

Definition validate_error_envelope (e : C2ErrorEnvelope) : res CatalogError unit :=
  guard_err (negb (en_version e =? ERROR_WIRE_VERSION)) (BadEnvelopeVersion (en_version e)) ;?
  match code_try_from (en_code e) with
  | None => Err (BadEnvelopeCode (en_code e))
  | Some code =>
      guard_err (negb (bool_decide (en_name e = code_name code))) (BadEnvelopeName (en_code e) (code_name code) (en_name e))
  end.

Fixpoint validate_method_lengths (l : list str) : res CatalogError unit :=
  match l with
  | [] => Ok tt
  | name :: l => guard_err (U8_MAX <? blen name) (MethodTooLong (blen name)) ;? validate_method_lengths l
  end.

Definition validate_attested_contract (c : PendingRouteAttestation) : res CatalogError unit :=
  check_route_name (pa_route_name c) ;?
  map_err BadContract (validate_crm_tag (pa_crm_ns c) (pa_crm_name c) (pa_crm_ver c)) ;?
  map_err BadContract (validate_contract_hash "abi_hash" (pa_abi_hash c)) ;?
  map_err BadContract (validate_contract_hash "signature_hash" (pa_signature_hash c)) ;?
  check_route_uid (pa_route_uid c) ;?
  guard_err (pa_max_payload_size c =? 0) NoPayloadSize ;?
  guard_err (MAX_METHODS <? blen (pa_method_names c)) (MethodCount (blen (pa_method_names c))) ;?
  validate_method_lengths (pa_method_names c).

(** ** Payloads *)

Definition encode_json_payload `{!Json T} (tag : MsgType) (value : T) : res CatalogError bytes :=
  match to_vec value with
  | Some json => Ok (byte.of_Z (as_byte tag) :: json)
  | None => Err JsonFailed
  end.

Definition split_tag (payload : bytes) (tag : MsgType) : res CatalogError bytes :=
  match payload with
  | [] => Err PayloadEmpty
  | b :: body => guard_err (negb (u8 b =? as_byte tag)) TagMismatch ;? Ok body
  end.

(** The common part of the decoders. *)
Definition decode_checked `{!Json T} (tag : MsgType) (validate : T → res CatalogError unit) (payload : bytes) : res CatalogError T :=
  let? body := split_tag payload tag in
  match from_slice body with
  | None => Err JsonFailed
  | Some value => validate value ;? Ok value
  end.

Section Codecs.
Context `{!Json RouteListRequest, !Json RouteListResponse, !Json RouteLookupRequest, !Json RouteLookupResponse, !Json RouteNack,
          !Json PendingRouteAttestationRequest, !Json PendingRouteAttestationResponse}.

Definition encode_route_list_request (r : RouteListRequest) := encode_json_payload RouteList r.
Definition decode_route_list_request := decode_checked RouteList (fun r => validate_selector (selector r)).

Definition encode_route_list_response (r : RouteListResponse) := encode_json_payload RouteListAck r.
Definition decode_route_list_response := decode_checked RouteListAck validate_route_list_response.

Definition encode_route_lookup_request (r : RouteLookupRequest) := encode_json_payload RouteLookup r.
Definition decode_route_lookup_request := decode_checked RouteLookup validate_route_lookup_request.

Definition encode_route_lookup_response (r : RouteLookupResponse) := encode_json_payload RouteLookupAck r.
Definition decode_route_lookup_response := decode_checked RouteLookupAck validate_route_lookup_response.

Definition encode_route_nack (n : RouteNack) := encode_json_payload RouteNackMsg n.
Definition decode_route_nack := decode_checked RouteNackMsg (fun n => validate_error_envelope (nack_error n)).

Definition encode_pending_route_attestation_request (route_name token : str) :=
  encode_json_payload PendingRouteAttest {| ar_route_name := route_name; ar_registration_token := token |}.
Definition decode_pending_route_attestation_request :=
  decode_checked PendingRouteAttest
    (fun r => check_route_name (ar_route_name r) ;? validate_registration_token (ar_registration_token r)).

Definition encode_pending_route_attestation_response (r : PendingRouteAttestationResponse) :=
  encode_json_payload PendingRouteAttestAck r.
Definition decode_pending_route_attestation_response :=
  decode_checked PendingRouteAttestAck (fun r => match r with Attested c => validate_attested_contract c | Rejected _ _ => Ok tt end).
End Codecs.

(** ** Lemmas *)

Lemma decode_encoded `{!Json T} tag (validate : T → res CatalogError unit) v b :
  encode_json_payload tag v = Ok b → validate v = Ok tt → decode_checked tag validate b = Ok v.
Proof.
  unfold encode_json_payload, decode_checked, split_tag. destruct (to_vec v) as [json|] eqn:E; [|done].
  intros [= <-] Hv. rewrite u8_of_Z by (destruct tag; cbn; lia). rewrite Z.eqb_refl. cbn.
  by rewrite (json_round _ _ E), Hv.
Qed.

Lemma decode_checked_valid `{!Json T} tag (validate : T → res CatalogError unit) b v :
  decode_checked tag validate b = Ok v → validate v = Ok tt.
Proof.
  unfold decode_checked. intros (body & _ & E)%bind_ok. destruct (from_slice body) as [v'|]; [|done].
  by apply bind_ok in E as ([] & ? & [= <-]).
Qed.

Lemma validate_methods_ok names indexes l :
  Forall (fun m => rm_name m ≠ [] ∧ blen (rm_name m) <= U8_MAX ∧ rm_name m ∉ names ∧ rm_index m ∉ indexes) l →
  NoDup (rm_name <$> l) → NoDup (rm_index <$> l) → validate_methods names indexes l = Ok tt.
Proof.
  revert names indexes. induction l as [|m l IH]; intros names indexes Hl Hn Hi; cbn; [done|].
  apply Forall_cons in Hl as [(? & Hlen & ? & ?) Hl]. apply NoDup_cons in Hn as [Hn ?], Hi as [Hi ?].
  rewrite !bool_decide_false by done. rewrite (proj2 (Z.ltb_ge _ _) Hlen). cbn. apply IH; [|done..].
  rewrite Forall_forall in Hl |- *. intros m' Hm'. destruct (Hl m' Hm') as (? & ? & ? & ?).
  assert (rm_name m' ≠ rm_name m) by (intros E; apply Hn; rewrite <-E; by apply list_elem_of_fmap_2).
  assert (rm_index m' ≠ rm_index m) by (intros E; apply Hi; rewrite <-E; by apply list_elem_of_fmap_2).
  set_solver.
Qed.

Lemma validate_records_ok names uids l :
  Forall (fun r => validate_route_record r = Ok tt ∧ rr_route_name r ∉ names ∧ rr_route_uid r ∉ uids) l →
  NoDup (rr_route_name <$> l) → NoDup (rr_route_uid <$> l) → validate_records names uids l = Ok tt.
Proof.
  revert names uids. induction l as [|r l IH]; intros names uids Hl Hn Hi; cbn; [done|].
  apply Forall_cons in Hl as [(Hr & ? & ?) Hl]. apply NoDup_cons in Hn as [Hn ?], Hi as [Hi ?].
  rewrite Hr. cbn. rewrite !bool_decide_false by done. cbn. apply IH; [|done..].
  rewrite Forall_forall in Hl |- *. intros r' Hr'. destruct (Hl r' Hr') as (? & ? & ?).
  assert (rr_route_name r' ≠ rr_route_name r) by (intros E; apply Hn; rewrite <-E; by apply list_elem_of_fmap_2).
  assert (rr_route_uid r' ≠ rr_route_uid r) by (intros E; apply Hi; rewrite <-E; by apply list_elem_of_fmap_2).
  set_solver.
Qed.
