(* ===== verification/HostCatalog.v ===== *)
(** What a host tells its peers about its routes and how it admits their calls (c2-server,
    server.rs): the acknowledgement of a handshake, the answers of the route catalog, the
    attestation of pending routes, and the admission of a call by the identity it carries.
    Each handler reads the host at one point. *)

From S2P Require Import Prelude.
From S2P Require Import Text.
From S2P Require Import Control.
From S2P Require Import Frame.
From S2P Require Import Handshake.
From S2P Require Import Scheduler.
From S2P Require Import Errors.
From S2P Require Import Catalog.
From S2P Require Import Host.

Implicit Types (h : Host).

(** [Dispatcher::resolve] and [routes_snapshot], in some order of its map. *)
Definition dispatcher_resolve h (name : str) : option CrmRoute := ho_dispatcher h !! name ≫= fun n => ho_routes h !! n.
Definition routes_snapshot h : list CrmRoute := omap (fun p => ho_routes h !! p.2) (map_to_list (ho_dispatcher h)).

Definition contract_wire (spec : RouteBuildSpec) : RouteContractWire :=
  {| rc_route_name := rs_name spec; rc_crm_ns := rs_crm_ns spec; rc_crm_name := rs_crm_name spec; rc_crm_ver := rs_crm_ver spec;
     rc_abi_hash := rs_abi_hash spec; rc_signature_hash := rs_signature_hash spec |}.

(** [index as u16] *)
Definition as_u16 (index : nat) : Z := Z.of_nat index mod 2 ^ 16.

(** ** Admission of calls *)

Inductive RouteAdmissionError :=
| AdmNotFound (route_name : str)
| AdmRemoved (route_name : str) (route_uid : option str)
| AdmStale (route_name expected_uid actual_uid : str)
| AdmContractMismatch (route_name reason : str)
| AdmUnknownMethod (route_name : str) (method_idx : Z)
| AdmAcquire (e : SchedulerAcquireError).

Definition has_method_index (r : CrmRoute) (method_idx : Z) : bool := method_idx <? blen (rs_method_names (cr_spec r)).

Definition same_contract (r : CrmRoute) (i : RouteCallIdentity) : bool :=
  bool_decide (rs_crm_ns (cr_spec r) = crm_ns i) && bool_decide (rs_crm_name (cr_spec r) = crm_name i)
  && bool_decide (rs_crm_ver (cr_spec r) = crm_ver i) && bool_decide (rs_abi_hash (cr_spec r) = abi_hash i)
  && bool_decide (rs_signature_hash (cr_spec r) = signature_hash i).

Definition mismatch_reason (r : CrmRoute) (i : RouteCallIdentity) : str :=
  let slash := text "/" in
  text "expected " ++ crm_ns i ++ slash ++ crm_name i ++ slash ++ crm_ver i ++ text " abi_hash=" ++ abi_hash i
  ++ text " signature_hash=" ++ signature_hash i
  ++ text ", got " ++ rs_crm_ns (cr_spec r) ++ slash ++ rs_crm_name (cr_spec r) ++ slash ++ rs_crm_ver (cr_spec r)
  ++ text " abi_hash=" ++ rs_abi_hash (cr_spec r) ++ text " signature_hash=" ++ rs_signature_hash (cr_spec r).

(** [reserve_accepted_route_execution] after it took the generation [gen] of the gate: the
    scheduler of the route after the reservation, with the permit. *)
Definition reserve_accepted_route_execution (inner : SchedulerInner) h (gen : Z) (i : RouteCallIdentity) (method_idx : Z)
    : res RouteAdmissionError (SchedulerState * SchedulerPendingPermit) :=
  match dispatcher_resolve h (route_name i) with
  | None =>
      match ho_removed h !! route_name i with
      | Some uid => Err (AdmRemoved (route_name i) (Some uid))
      | None => Err (AdmNotFound (route_name i))
      end
  | Some r =>
      guard_err (negb (same_contract r i)) (AdmContractMismatch (route_name i) (mismatch_reason r i)) ;?
      guard_err (negb (bool_decide (cr_route_uid r = route_uid i))) (AdmStale (route_name i) (route_uid i) (cr_route_uid r)) ;?
      guard_err (negb (has_method_index r method_idx)) (AdmUnknownMethod (cr_name r) method_idx) ;?
      map_err AdmAcquire (reserve_pending_in_generation inner (ho_admission h) (cr_scheduler r) method_idx gen)
  end.

Definition error_wire `{!Json C2ErrorEnvelope} (code : ErrorCode) (message : str) : res C2ErrorDecodeError bytes :=
  to_wire_bytes {| er_code := code; er_message := message; er_details := ∅ |}.

(** The name of a route that is not found, or the code and the message of the refusal. *)
Definition admission_refusal (e : RouteAdmissionError) : str + ErrorCode * str :=
  match e with
  | AdmNotFound name => inl name
  | AdmRemoved name (Some uid) => inr (EResourceRemoved, text "route " ++ name ++ text " was removed: route_uid " ++ uid)
  | AdmRemoved name None => inr (EResourceRemoved, text "route " ++ name ++ text " was removed")
  | AdmStale name expected actual =>
      inr (ERouteStale, text "stale route token for " ++ name ++ text ": expected route_uid " ++ expected
                        ++ text ", current route_uid " ++ actual)
  | AdmContractMismatch name reason => inr (EContractMismatch, text "contract mismatch for route " ++ name ++ text ": " ++ reason)
  | AdmUnknownMethod name idx =>
      inr (EResourceFunctionExecuting, text "unknown method index " ++ decimal idx ++ text " for route " ++ name)
  | AdmAcquire AClosed => inr (EResourceClosed, text "route closed")
  | AdmAcquire AUnavailable => inr (EResourceUnavailable, text "host admission unavailable")
  | AdmAcquire (ACapacity field limit) =>
      inr (EResourceUnavailable, text "route concurrency capacity exceeded: " ++ text field ++ text "=" ++ decimal limit)
  end.

Definition route_admission_reply `{!Json C2ErrorEnvelope} (e : RouteAdmissionError) : res C2ErrorDecodeError ReplyControl :=
  match admission_refusal e with
  | inl name => Ok (RouteNotFound name)
  | inr (code, message) => let? b := error_wire code message in Ok (RError b)
  end.

(** ** Answers *)

Section Answers.
(** The identity and the payload limit the host was made with. *)
Context (identity : ServerIdentity) (max_payload_size : Z).

Definition route_record h (r : CrmRoute) : RouteRecordWire :=
  let admission := route_admission (cr_scheduler r) in
  {| rr_route_name := cr_name r;
     rr_route_uid := cr_route_uid r;
     rr_owner_server_id := server_id identity;
     rr_owner_server_instance_id := server_instance_id identity;
     rr_contract := contract_wire (cr_spec r);
     rr_methods := imap (fun index name => {| rm_name := name; rm_index := as_u16 index |}) (rs_method_names (cr_spec r));
     rr_max_payload_size := max_payload_size;
     rr_state := match admission with Opened => WireReady | CommittedPending | RouteClosed => WireClosed end;
     rr_state_reason :=
       match admission with
       | Opened | CommittedPending => RegisterCommitted
       | RouteClosed => if is_closed (ho_admission h) then ReasonShutdown else ExplicitUnregister
       end |}.

Definition route_records h : list RouteRecordWire := route_record h <$> routes_snapshot h.

Definition selected (s : RouteSelector) (r : RouteRecordWire) : bool :=
  match s with
  | SelectAll => true
  | SelectName name => bool_decide (name = rr_route_name r)
  | SelectContract expected => bool_decide (expected = rr_contract r)
  end.

Definition list_response h (req : RouteListRequest) : RouteListResponse :=
  {| routes := filter (fun r => selected (selector req) r = true) (route_records h) |}.

Definition lookup_response h (req : RouteLookupRequest) : RouteLookupResponse :=
  let name := rc_route_name (expected req) in
  match dispatcher_resolve h name with
  | Some r =>
      let current := route_record h r in
      if negb (bool_decide (rr_contract current = expected req)) then LookupContractMismatch current
      else if from_option (fun uid => negb (bool_decide (uid = rr_route_uid current))) false (observed_route_uid req)
      then LookupStale current
      else if negb (bool_decide (rr_state current = WireReady))
      then LookupClosed (rr_route_name current) (rr_route_uid current) (rr_state_reason current)
      else LookupReady current
  | None =>
      match ho_removed h !! name with
      | Some uid => LookupRemoved name (Some uid)
      | None => LookupNotFound name
      end
  end.

(** [PendingRouteInfo::into_attestation] *)
Definition into_attestation (info : PendingRouteInfo) : PendingRouteAttestation :=
  let spec := pi_spec info in
  {| pa_route_name := rs_name spec; pa_route_uid := pi_route_uid info; pa_crm_ns := rs_crm_ns spec; pa_crm_name := rs_crm_name spec;
     pa_crm_ver := rs_crm_ver spec; pa_abi_hash := rs_abi_hash spec; pa_signature_hash := rs_signature_hash spec;
     pa_method_names := rs_method_names spec; pa_max_payload_size := max_payload_size |}.

Definition attest_response h (req : PendingRouteAttestationRequest) : PendingRouteAttestationResponse :=
  let name := ar_route_name req in
  match attest_pending_route h name (ar_registration_token req) with
  | Ok info => Attested (into_attestation info)
  | Err PendingNotFound => Rejected (text "not_found") (text "pending route '" ++ name ++ text "' not found")
  | Err PendingTokenMismatch =>
      Rejected (text "token_mismatch") (text "pending route '" ++ name ++ text "' registration token mismatch")
  | Panic => Rejected (text "invalid") []
  end.

(** The last part of [handle_handshake]: the acknowledgement lists the open routes, and the
    directions of shared memory that the client offered and this stream can reach. *)
Definition negotiated (native_shm : bool) (client_flags : Z) : Z :=
  let cap direction := if native_shm && negb (Z.land client_flags direction =? 0) then direction else 0 in
  Z.lor (cap CAP_SHM_REQUEST) (cap CAP_SHM_RESPONSE).

Definition announced (r : CrmRoute) : RouteInfo :=
  let spec := cr_spec r in
  {| ri_name := rs_name spec; ri_route_uid := cr_route_uid r; ri_crm_ns := rs_crm_ns spec; ri_crm_name := rs_crm_name spec;
     ri_crm_ver := rs_crm_ver spec; ri_abi_hash := rs_abi_hash spec; ri_signature_hash := rs_signature_hash spec;
     ri_max_payload_size := max_payload_size;
     ri_methods := imap (fun index name => {| me_name := name; me_index := as_u16 index |}) (rs_method_names spec) |}.

Definition open_routes h : list RouteInfo :=
  announced <$> filter (fun r => route_admission (cr_scheduler r) = Opened) (routes_snapshot h).

Definition handshake_ack h (native_shm : bool) (client : Handshake) (server_prefix : str) : res EncodeError bytes :=
  encode_server_handshake (negotiated native_shm (capability_flags client)) (open_routes h) server_prefix identity.

(** ** Payloads *)

(** The texts of the errors of this module, and those of the JSON library, decide nothing
    here: [describe] stands for them. *)
Context (describe : CatalogError → str).
Context `{!Json RouteListRequest, !Json RouteListResponse, !Json RouteLookupRequest, !Json RouteLookupResponse, !Json RouteNack,
          !Json PendingRouteAttestationRequest, !Json PendingRouteAttestationResponse}.

(** [Result::unwrap_or_default] *)
Definition unwrap_or_default {E} (m : res E bytes) : bytes := match m with Ok b => b | _ => [] end.

Definition violation (e : CatalogError) : RouteNack :=
  {| nack_error := envelope {| er_code := EProtocolViolation; er_message := describe e; er_details := ∅ |} |}.
Definition route_catalog_nack_payload (e : CatalogError) : bytes := unwrap_or_default (encode_route_nack (violation e)).

Definition or_nack (m : res CatalogError bytes) : bytes :=
  match m with Ok b => b | Err e => route_catalog_nack_payload e | Panic => [] end.

Definition route_list_payload h (payload : bytes) : bytes :=
  or_nack (let? request := decode_route_list_request payload in encode_route_list_response (list_response h request)).

Definition route_lookup_payload h (payload : bytes) : bytes :=
  or_nack (let? request := decode_route_lookup_request payload in encode_route_lookup_response (lookup_response h request)).

Definition pending_route_attestation_payload h (payload : bytes) : bytes :=
  let invalid e := Rejected (text "invalid") (describe e) in
  let response :=
    match decode_pending_route_attestation_request payload with
    | Ok request => attest_response h request
    | Err e => invalid e
    | Panic => Rejected (text "invalid") []
    end in
  match encode_pending_route_attestation_response response with
  | Ok b => b
  | Err e => unwrap_or_default (encode_pending_route_attestation_response (invalid e))
  | Panic => []
  end.

(** [handle_ctrl]: the payload of the answer and the frame that is sent, if any. *)
Definition ctrl_response h (payload : bytes) : option bytes :=
  match head payload ≫= fun b => from_byte (u8 b) with
  | Some PendingRouteAttest => Some (pending_route_attestation_payload h payload)
  | Some RouteList => Some (route_list_payload h payload)
  | Some RouteLookup => Some (route_lookup_payload h payload)
  | _ => None
  end.

Definition handle_ctrl h (payload : bytes) (request_id : Z) : option bytes :=
  encode_frame request_id (Z.lor FLAG_RESPONSE FLAG_CTRL) <$> ctrl_response h payload.
End Answers.
