(* ===== verification/HostCatalogSafe.v ===== *)
(** What peers can rely on: every answer of a reachable host is accepted by the decoder of
    the peer and says what the host holds, the catalog and the admission of calls agree,
    and a name that was registered is never answered as unknown. *)

From S2P Require Import Prelude.
From S2P Require Import Text.
From S2P Require Import Control.
From S2P Require Import Frame.
From S2P Require Import Handshake.
From S2P Require Import Scheduler.
From S2P Require Import Errors.
From S2P Require Import Catalog.
From S2P Require Import Host.
From S2P Require Import HostSafe.
From S2P Require Import HostCatalog.

Implicit Types (h : Host).

(** ** Routes by their identities *)

Definition ident (r : CrmRoute) : RouteBuildSpec * str := (cr_spec r, cr_route_uid r).
Definition idents h : list (RouteBuildSpec * str) := ident <$> ho_routes h.

Lemma evolves_ident l l' : evolves l l' → length l' = length l → ident <$> l' = ident <$> l.
Proof.
  intros He Hlen. apply list_eq. intros i. rewrite !list_lookup_fmap. destruct (l !! i) as [r|] eqn:E.
  - destruct (He _ _ E) as (r' & -> & ? & ? & _). cbn. unfold ident. congruence.
  - apply lookup_ge_None in E. by rewrite (proj2 (lookup_ge_None l' i)) by lia.
Qed.

Lemma alter_ident f (n : nat) (l : list CrmRoute) : ident <$> alter (with_scheduler f) n l = ident <$> l.
Proof.
  apply list_eq. intros i. rewrite !list_lookup_fmap. destruct (decide (n = i)) as [->|].
  - rewrite list_lookup_alter_eq. by destruct (l !! i).
  - by rewrite list_lookup_alter_ne.
Qed.

(** What a step does to the catalog. *)
Inductive catalog_change h (c : HostCall) h' : Prop :=
| change_none : idents h' = idents h → ho_dispatcher h' = ho_dispatcher h → ho_removed h' = ho_removed h → ho_pending h' = ho_pending h →
    catalog_change h c h'
| change_reserve spec uid token :
    c = Reserve spec uid token → build_route spec = Ok tt → idents h' = idents h ++ [(spec, uid)] →
    ho_dispatcher h' = ho_dispatcher h → ho_removed h' = ho_removed h →
    ho_pending h' = <[rs_name spec := {| registration_token := token; pi_route_uid := uid; pi_spec := spec |}]> (ho_pending h) →
    catalog_change h c h'
| change_resolve name :
    idents h' = idents h → ho_dispatcher h' = ho_dispatcher h → ho_removed h' = ho_removed h →
    ho_pending h' = delete name (ho_pending h) → catalog_change h c h'
| change_register name n :
    idents h' = idents h → ho_dispatcher h' = <[name := n]> (ho_dispatcher h) → ho_removed h' = delete name (ho_removed h) →
    ho_pending h' = delete name (ho_pending h) → catalog_change h c h'
| change_remove name n :
    idents h' = idents h → ho_dispatcher h !! name = Some n → ho_dispatcher h' = delete name (ho_dispatcher h) →
    ho_removed h' = <[name := uid_of h n]> (ho_removed h) → ho_pending h' = ho_pending h → catalog_change h c h'
| change_take_all :
    idents h' = idents h → ho_dispatcher h' = ∅ → ho_removed h' = (uid_of h <$> ho_dispatcher h) ∪ ho_removed h →
    ho_pending h' = ho_pending h → catalog_change h c h'.

Lemma step_change h c h' : catalog_ok h → host_step h c = Ok h' → catalog_change h c h'.
Proof.
  intros Hc E. apply host_effect in E; [|by apply catalog_exist].
  destruct E as [h' []|spec uid token h' -> Hb E|i r f uid Hi _ _ Hd Hf|i r Hi|name n rest _ _ Hd|a l s e loop Hl|l _|n rest _|_].
  - apply change_none; [by apply evolves_ident|done..].
  - apply reserve_route_ok in E as (_ & _ & _ & ->). apply (change_reserve _ _ _ spec uid token); try done.
    unfold idents. cbn. by rewrite fmap_app.
  - apply (change_register _ _ _ (pr_name r) (pr_route r)); [apply alter_ident|done..].
  - by apply (change_resolve _ _ _ (pr_name r)).
  - apply (change_remove _ _ _ name n); [|exact Hd|..]; unfold idents, dispatcher_unregister; rewrite Hd; done.
  - by apply change_none.
  - by apply change_none.
  - apply change_none; [apply alter_ident|done..].
  - by apply change_take_all.
Qed.

(** ** What the host holds *)

(** What a run of the host is given: names and methods are strings of the language, the
    names of the methods of a route differ, and a route draws a well-formed identity. *)
Definition texts (spec : RouteBuildSpec) : list str :=
  [rs_name spec; rs_crm_ns spec; rs_crm_name spec; rs_crm_ver spec; rs_abi_hash spec; rs_signature_hash spec] ++ rs_method_names spec.
Definition given (spec : RouteBuildSpec) (uid : str) : Prop :=
  Forall (fun s => utf8_valid s = true) (texts spec) ∧ NoDup (rs_method_names spec)
  ∧ validate_route_uid uid = Ok tt ∧ utf8_valid uid = true.
Definition drawn (c : HostCall) : option str := match c with Reserve _ uid _ => Some uid | _ => None end.
Definition drawn_well (c : HostCall) : Prop := match c with Reserve spec uid _ => given spec uid | _ => True end.

Record held h : Prop := {
  held_routes : ∀ spec uid, (spec, uid) ∈ idents h → build_route spec = Ok tt ∧ given spec uid;
  held_removed : ∀ name uid, ho_removed h !! name = Some uid → uid ∈ (idents h).*2;
  held_pending : ∀ name info, ho_pending h !! name = Some info →
    rs_name (pi_spec info) = name ∧ (pi_spec info, pi_route_uid info) ∈ idents h }.

Lemma uid_of_idents h n : is_Some (ho_routes h !! n) → uid_of h n ∈ (idents h).*2.
Proof.
  intros [r Hr]. unfold uid_of, idents. rewrite Hr, <-list_fmap_compose. apply list_elem_of_fmap. exists r.
  split; [done|]. by eapply list_elem_of_lookup_2.
Qed.

Lemma held_new : held Server_new.
Proof. split; cbn; [by intros ? ? ?%elem_of_nil|done|done]. Qed.

Lemma held_step h c h' : catalog_ok h → drawn_well c → held h → host_step h c = Ok h' → held h'.
Proof.
  intros Hc Hd [Hr Hm Hp] E. pose proof (catalog_exist _ Hc) as Hex. apply step_change in E; [|done].
  destruct E as [Ei Ed Er Ep|spec uid token -> Hb Ei Ed Er Ep|name Ei Ed Er Ep|name n Ei Ed Er Ep|name n Ei Hn Ed Er Ep|Ei Ed Er Ep];
    split; rewrite ?Ei, ?Er, ?Ep; try done.
  - intros spec' uid' [?|[= -> ->]%list_elem_of_singleton]%elem_of_app; auto.
  - intros name' uid' ?%Hm. rewrite fmap_app. apply elem_of_app. auto.
  - intros name' info [[<- <-]|[_ [? ?]%Hp]]%lookup_insert_Some; cbn; rewrite elem_of_app, list_elem_of_singleton; auto.
  - intros name' info [_ ?]%lookup_delete_Some. auto.
  - intros name' uid [_ ?]%lookup_delete_Some. eauto.
  - intros name' info [_ ?]%lookup_delete_Some. auto.
  - intros name' uid [[_ <-]|[_ ?]]%lookup_insert_Some; [apply uid_of_idents|]; eauto.
  - intros name' uid [Hu|[_ ?]]%lookup_union_Some_raw; [|eauto].
    apply lookup_fmap_Some in Hu as (n & <- & Hn). apply uid_of_idents. eauto.
Qed.

(** A registered route, with its name. *)
Lemma resolve_named h name r : catalog_ok h → dispatcher_resolve h name = Some r → cr_name r = name ∧ ident r ∈ idents h.
Proof.
  intros [] (n & Hn & Hr)%bind_Some. destruct (c_registered _ _ Hn) as (uid & r' & Hr' & Hname & _). simplify_eq.
  split; [done|]. apply list_elem_of_fmap_2. by eapply list_elem_of_lookup_2.
Qed.

Lemma resolve_None h name : catalog_ok h → dispatcher_resolve h name = None → ho_dispatcher h !! name = None.
Proof.
  intros [] Hn. unfold dispatcher_resolve in Hn. destruct (ho_dispatcher h !! name) as [n|] eqn:E; [|done].
  destruct (c_registered _ _ E) as (uid & r' & Hr' & _). cbn in Hn. congruence.
Qed.

(** ** Runs *)

Lemma held_run l h h' : catalog_ok h → held h → Forall drawn_well l → host_run h l = Ok h' → catalog_ok h' ∧ held h'.
Proof.
  intros Hc Hh Hl. apply (host_run_inv (fun h => catalog_ok h ∧ held h) drawn_well); [|done|done].
  intros h1 c h2 [] ? E. split; [by eapply catalog_step|by eapply held_step].
Qed.

Lemma distinct_step h c l h' :
  catalog_ok h → NoDup ((idents h).*2 ++ omap drawn (c :: l)) → host_step h c = Ok h' → NoDup ((idents h').*2 ++ omap drawn l).
Proof.
  intros Hc Hnd E. assert (Hsub : NoDup ((idents h).*2 ++ omap drawn l)).
  { cbn in Hnd. destruct (drawn c); [|done]. eapply sublist_NoDup; [exact Hnd|]. by apply sublist_app, sublist_cons. }
  apply step_change in E; [|done]. destruct E as [Ei|spec uid token -> _ Ei|? Ei|? ? Ei|? ? Ei|Ei]; rewrite Ei; try done.
  rewrite fmap_app, <-app_assoc. exact Hnd.
Qed.

Lemma distinct_run_app l l' h h' :
  catalog_ok h → NoDup ((idents h).*2 ++ omap drawn (l ++ l')) → host_run h l = Ok h' → NoDup ((idents h').*2 ++ omap drawn l').
Proof.
  revert h. induction l as [|c l IH]; intros h Hc Hnd; cbn [host_run]; [by intros [= <-]|].
  intros (h1 & E & Hrun)%bind_ok. apply (IH h1); [by eapply catalog_step|by eapply distinct_step|done].
Qed.

Lemma distinct_run l h h' :
  catalog_ok h → NoDup ((idents h).*2 ++ omap drawn l) → host_run h l = Ok h' → NoDup (idents h').*2.
Proof. intros Hc Hnd Hrun. rewrite <-(app_nil_r l) in Hnd. apply (distinct_run_app l []) in Hrun; [|done..]. by rewrite app_nil_r in Hrun. Qed.

(** The host keeps every identity it drew. *)
Lemma step_idents h c h' x : catalog_ok h → host_step h c = Ok h' → x ∈ idents h → x ∈ idents h'.
Proof.
  intros Hc E Hx. apply step_change in E; [|done].
  destruct E as [Ei|spec uid token _ _ Ei|? Ei|? ? Ei|? ? Ei|Ei]; rewrite Ei; try done. apply elem_of_app. by left.
Qed.

Lemma reachable l h :
  Forall drawn_well l → NoDup (omap drawn l) → host_run Server_new l = Ok h → catalog_ok h ∧ held h ∧ NoDup (idents h).*2.
Proof.
  intros Hl Hnd Hrun. destruct (held_run l Server_new h catalog_new held_new Hl Hrun) as [Hc Hh].
  split; [exact Hc|]. split; [exact Hh|]. by apply (distinct_run l Server_new h catalog_new).
Qed.

(** ** Valid records *)

Lemma build_check_ok m : build_check m = Ok tt ↔ m = Ok tt.
Proof. destruct m as [[]| |]; cbn; naive_solver. Qed.

Lemma check_method_names_ok l : check_method_names l = Ok tt ↔ Forall (valid_text [ch_slash; ch_backslash]) l.
Proof.
  induction l as [|m l IH]; cbn [check_method_names]; [by split|].
  by rewrite seq_ok, build_check_ok, validate_contract_text_field_ok, Forall_cons, IH.
Qed.

(** What [build_route] checks, in the terms of the decoders of peers. *)
Lemma build_route_ok spec :
  build_route spec = Ok tt →
  (∀ f, validate_call_route_key f (rs_name spec) = Ok tt)
  ∧ validate_crm_tag (rs_crm_ns spec) (rs_crm_name spec) (rs_crm_ver spec) = Ok tt
  ∧ validate_contract_hash "abi_hash" (rs_abi_hash spec) = Ok tt
  ∧ validate_contract_hash "signature_hash" (rs_signature_hash spec) = Ok tt
  ∧ blen (rs_method_names spec) <= MAX_METHODS
  ∧ Forall (fun m => m ≠ [] ∧ blen m <= U8_MAX) (rs_method_names spec).
Proof.
  unfold build_route. rewrite !seq_ok, !build_check_ok, guard_err_ok, check_method_names_ok, Z.ltb_ge.
  intros (Hn & Hlen & Hm & Hc & Ha & Hs). split_and!; try done.
  - intros f. rewrite validate_call_route_key_ok in *. done.
  - eapply Forall_impl; [exact Hm|]. by intros m (? & ? & _).
Qed.

Lemma as_u16_small (n : nat) : Z.of_nat n < MAX_METHODS → as_u16 n = Z.of_nat n.
Proof. unfold as_u16, MAX_METHODS, MAX_CONTRACT_METHODS. intros. apply Z.mod_small. lia. Qed.

Lemma indexes_distinct {A} (f : nat → str → A) (index : A → Z) (l : list str) :
  (∀ i s, index (f i s) = as_u16 i) → blen l <= MAX_METHODS → NoDup (index <$> imap f l).
Proof.
  intros Hf Hlen. apply NoDup_alt. intros i j x. rewrite !list_lookup_fmap, !list_lookup_imap.
  destruct (l !! i) as [a|] eqn:Ei, (l !! j) as [b|] eqn:Ej; cbn; try done. rewrite !Hf. intros [= <-] [= E].
  apply lookup_lt_Some in Ei, Ej. unfold blen in Hlen. rewrite !as_u16_small in E by lia. lia.
Qed.

Lemma imap_names {A} (f : nat → str → A) (name : A → str) (l : list str) : (∀ i s, name (f i s) = s) → name <$> imap f l = l.
Proof.
  intros Hf. apply list_eq. intros i. rewrite list_lookup_fmap, list_lookup_imap. destruct (l !! i); cbn; by rewrite ?Hf.
Qed.

Lemma Forall_imap {A} (P : A → Prop) (f : nat → str → A) (l : list str) :
  (∀ i s, l !! i = Some s → P (f i s)) → Forall P (imap f l).
Proof.
  intros H. apply Forall_lookup. intros i x. rewrite list_lookup_imap. destruct (l !! i) eqn:E; cbn; [|done].
  intros [= <-]. auto.
Qed.

Section Host.
Context (identity : ServerIdentity) (max_payload_size : Z).

(** What [validate_server_identity] and the configuration ensure. *)
Definition configured : Prop := identity_part_wf identity ∧ 0 < max_payload_size < 2 ^ 64.

Lemma contract_valid spec : build_route spec = Ok tt → validate_contract (contract_wire spec) = Ok tt.
Proof.
  intros (Hn & Hc & Ha & Hs & _)%build_route_ok. unfold validate_contract, check_route_name. cbn.
  by rewrite Hn, Hc, Ha, Hs.
Qed.

Lemma record_valid h r :
  configured → build_route (cr_spec r) = Ok tt → given (cr_spec r) (cr_route_uid r) →
  validate_route_record (route_record identity max_payload_size h r) = Ok tt.
Proof.
  intros [(_ & _ & Hi1 & Hi2) Hp] Hb (_ & Hnd & Hu & _). pose proof Hb as (_ & _ & _ & _ & Hlen & Hm)%build_route_ok.
  unfold validate_route_record, check_route_uid. cbn -[validate_methods].
  rewrite Hu, Hi1, Hi2, (contract_valid _ Hb), bool_decide_true by done. cbn -[validate_methods].
  rewrite (proj2 (Z.eqb_neq _ _)) by lia. unfold blen. rewrite length_imap. fold (blen (rs_method_names (cr_spec r))).
  rewrite (proj2 (Z.ltb_ge _ _) Hlen). cbn -[validate_methods]. apply validate_methods_ok.
  - apply Forall_imap. intros i s Hs. cbn. rewrite Forall_lookup in Hm. destruct (Hm _ _ Hs).
    split_and!; [done|done|apply not_elem_of_empty..].
  - by rewrite imap_names.
  - by apply indexes_distinct.
Qed.

Lemma announced_wf r :
  configured → build_route (cr_spec r) = Ok tt → given (cr_spec r) (cr_route_uid r) → route_wf (announced max_payload_size r).
Proof.
  intros [_ Hp] Hb (Ht & _ & Hu & Huu). pose proof Hb as (Hn & Hc & Ha & Hs & Hlen & Hm)%build_route_ok.
  unfold texts in Ht. apply Forall_app in Ht as [Ht Htm]. rewrite !Forall_cons in Ht.
  destruct Ht as (? & ? & ? & ? & ? & ? & _).
  pose proof (Hn "") as (_ & Hln & _)%validate_call_route_key_ok.
  pose proof Hc as ((_ & Hl1 & _) & (_ & Hl2 & _) & (_ & Hl3 & _))%validate_crm_tag_ok.
  pose proof Ha as [Hla _]%validate_contract_hash_ok. pose proof Hs as [Hls _]%validate_contract_hash_ok.
  pose proof Hu as (_ & Hlu & _)%validate_route_uid_ok. change MAX_WIRE_TEXT_BYTES with U8_MAX in *.
  unfold CONTRACT_HASH_HEX_BYTES in *.
  unfold route_wf, ri_texts. cbn. split.
  { rewrite !Forall_cons. split_and!; try done; split; try done; unfold U8_MAX; lia. }
  split_and!; try done; try lia; [unfold blen in *; by rewrite length_imap|].
  apply Forall_imap. intros i s Hi. rewrite Forall_lookup in Hm, Htm. destruct (Hm _ _ Hi).
  split; [split; [done|by eapply Htm]|]. cbn. apply Z.mod_pos_bound. lia.
Qed.

(** ** The snapshot of the routes *)

Lemma snapshot_fmap {A} h (g : CrmRoute → A) (k : str * nat → A) :
  catalog_ok h → (∀ name n r, ho_dispatcher h !! name = Some n → ho_routes h !! n = Some r → g r = k (name, n)) →
  g <$> routes_snapshot h = k <$> map_to_list (ho_dispatcher h).
Proof.
  intros Hc Hg. unfold routes_snapshot.
  assert (Hin : ∀ p, p ∈ map_to_list (ho_dispatcher h) → ho_dispatcher h !! p.1 = Some p.2).
  { intros []. by apply elem_of_map_to_list. }
  induction (map_to_list (ho_dispatcher h)) as [|[name n] l IH]; [done|]. cbn.
  pose proof (Hin (name, n) ltac:(by left)) as Hn. destruct (catalog_exist _ Hc _ _ Hn) as [r Hr]. cbn in *. rewrite Hr. cbn.
  rewrite (Hg _ _ _ Hn Hr). f_equal. apply IH. intros p Hp. apply Hin. by right.
Qed.

Lemma snapshot_in h r : catalog_ok h → r ∈ routes_snapshot h ↔ ∃ name, dispatcher_resolve h name = Some r.
Proof.
  intros Hc. unfold routes_snapshot, dispatcher_resolve. rewrite list_elem_of_omap. split.
  - intros ([name n] & Hp%elem_of_map_to_list & Hr). exists name. by rewrite Hp.
  - intros (name & (n & Hn & Hr)%bind_Some). exists (name, n). by rewrite elem_of_map_to_list.
Qed.

Lemma snapshot_names h : catalog_ok h → NoDup (cr_name <$> routes_snapshot h).
Proof.
  intros Hc. rewrite (snapshot_fmap h _ fst Hc); [apply NoDup_fst_map_to_list|].
  intros name n r Hn Hr. destruct Hc. destruct (c_registered _ _ Hn) as (uid & r' & ? & ? & _). cbn. congruence.
Qed.

Lemma snapshot_uids h : catalog_ok h → NoDup (idents h).*2 → NoDup (cr_route_uid <$> routes_snapshot h).
Proof.
  intros Hc Hnd. rewrite (snapshot_fmap h _ (fun p => uid_of h p.2) Hc); [|intros name n r _ Hr; cbn; unfold uid_of; by rewrite Hr].
  apply NoDup_fmap_2_strong; [|apply NoDup_map_to_list].
  intros [name n] [name' n'] Hp%elem_of_map_to_list Hp'%elem_of_map_to_list Hu. cbn in Hu. destruct Hc.
  destruct (c_registered _ _ Hp) as (u & r & Hr & Hname & _), (c_registered _ _ Hp') as (u' & r' & Hr' & Hname' & _).
  unfold uid_of in Hu. rewrite Hr, Hr' in Hu. cbn in Hu.
  assert (n = n') as ->.
  { apply (NoDup_lookup _ _ _ (cr_route_uid r) Hnd); unfold idents;
      rewrite <-list_fmap_compose, list_lookup_fmap, ?Hr, ?Hr'; cbn; by rewrite ?Hu. }
  congruence.
Qed.

Lemma resolved_held h name r : catalog_ok h → held h → dispatcher_resolve h name = Some r →
  build_route (cr_spec r) = Ok tt ∧ given (cr_spec r) (cr_route_uid r).
Proof. intros Hc [Hh _ _] [_ Hr]%resolve_named; [|done]. by apply Hh. Qed.

Lemma list_response_valid h req :
  configured → catalog_ok h → held h → NoDup (idents h).*2 →
  validate_route_list_response (list_response identity max_payload_size h req) = Ok tt.
Proof.
  intros Hcfg Hc Hh Hnd. unfold validate_route_list_response, list_response. cbn [routes].
  pose proof (sublist_filter (fun r => selected (selector req) r = true) (route_records identity max_payload_size h)) as Hsub.
  apply validate_records_ok.
  - apply Forall_forall. intros x [_ Hx]%list_elem_of_filter. unfold route_records in Hx.
    apply list_elem_of_fmap in Hx as (r & -> & (name & Hr)%snapshot_in); [|done].
    destruct (resolved_held _ _ _ Hc Hh Hr). split_and!; [by apply record_valid|apply not_elem_of_empty..].
  - eapply sublist_NoDup; [|by apply fmap_sublist]. unfold route_records. rewrite <-list_fmap_compose. by apply snapshot_names.
  - eapply sublist_NoDup; [|by apply fmap_sublist]. unfold route_records. rewrite <-list_fmap_compose. by apply snapshot_uids.
Qed.

Lemma uid_held h uid : held h → uid ∈ (idents h).*2 → check_route_uid uid = Ok tt.
Proof.
  intros Hh ([spec uid'] & -> & Hin)%list_elem_of_fmap. destruct (held_routes _ Hh _ _ Hin) as (_ & _ & _ & Hu & _).
  unfold check_route_uid. cbn. by rewrite Hu.
Qed.

Lemma lookup_response_valid h req :
  configured → catalog_ok h → held h → validate_route_lookup_request req = Ok tt →
  validate_route_lookup_response (lookup_response identity max_payload_size h req) = Ok tt.
Proof.
  intros Hcfg Hc Hh Hreq. unfold lookup_response.
  assert (Hname : check_route_name (rc_route_name (expected req)) = Ok tt).
  { unfold validate_route_lookup_request, validate_contract in Hreq. rewrite !seq_ok in Hreq. apply Hreq. }
  destruct (dispatcher_resolve h _) as [r|] eqn:Er.
  - destruct (resolved_held _ _ _ Hc Hh Er) as [Hb Hg]. pose proof (record_valid h r Hcfg Hb Hg).
    destruct (negb _); [done|]. destruct (from_option _ _ _); [done|]. destruct (negb _); [|done].
    apply resolve_named in Er as [En _]; [|done]. cbn [validate_route_lookup_response rr_route_name rr_route_uid route_record].
    rewrite En, Hname. cbn. destruct Hg as (_ & _ & Hu & _). unfold check_route_uid. by rewrite Hu.
  - destruct (ho_removed h !! _) as [uid|] eqn:Em; cbn; rewrite Hname; [|done].
    cbn. apply (uid_held h); [done|]. by eapply held_removed.
Qed.

Lemma validate_method_lengths_ok l : Forall (fun m => blen m <= U8_MAX) l → validate_method_lengths l = Ok tt.
Proof. induction 1 as [|m l Hm _ IH]; cbn; [done|]. by rewrite (proj2 (Z.ltb_ge _ _) Hm). Qed.

Lemma attest_response_valid h req :
  configured → held h →
  match attest_response max_payload_size h req with Attested c => validate_attested_contract c | Rejected _ _ => Ok tt end = Ok tt.
Proof.
  intros [_ Hp] Hh. unfold attest_response, attest_pending_route.
  destruct (ho_pending h !! _) as [info|] eqn:Ei; [|done]. case_bool_decide; [|done].
  destruct (held_pending _ Hh _ _ Ei) as [_ (Hb & _ & _ & Hu & _)%(held_routes _ Hh)].
  apply build_route_ok in Hb as (Hn & Hc & Ha & Hs & Hlen & Hm).
  unfold validate_attested_contract, check_route_name, check_route_uid. cbn -[validate_method_lengths].
  rewrite Hn, Hc, Ha, Hs, Hu. cbn -[validate_method_lengths]. rewrite (proj2 (Z.eqb_neq _ _)) by lia.
  rewrite (proj2 (Z.ltb_ge _ _) Hlen). cbn -[validate_method_lengths].
  apply validate_method_lengths_ok. eapply Forall_impl; [exact Hm|]. by intros m [_ ?].
Qed.
End Host.

(** ** Catalog and calls *)

Lemma same_contract_iff r i : cr_name r = route_name i →
  same_contract r i = bool_decide (contract_wire (cr_spec r) = {| rc_route_name := route_name i; rc_crm_ns := crm_ns i;
    rc_crm_name := crm_name i; rc_crm_ver := crm_ver i; rc_abi_hash := abi_hash i; rc_signature_hash := signature_hash i |}).
Proof.
  intros Hn. apply eq_true_iff_eq. unfold same_contract. rewrite !andb_true_iff, !bool_decide_eq_true. unfold contract_wire, cr_name in *.
  split; [intros ((((-> & ->) & ->) & ->) & ->); by rewrite Hn|]. by intros [= _ -> -> -> -> ->].
Qed.

Lemma reserve_unopened inner a s m gen :
  route_admission s ≠ Opened → reserve_pending_in_generation inner a s m gen = Err AClosed.
Proof.
  intros Hs. unfold reserve_pending_in_generation, reserve_pending_with_generation, check_accepted_admission.
  by rewrite bool_decide_false.
Qed.

Lemma reserve_opened inner a s m gen :
  route_admission s = Opened → phase a ≠ Terminal → generation a = gen →
  (∃ x, reserve_pending_in_generation inner a s m gen = Ok x)
  ∨ ∃ field limit, reserve_pending_in_generation inner a s m gen = Err (ACapacity field limit).
Proof.
  intros Hs Ht Hg. unfold reserve_pending_in_generation, reserve_pending_with_generation, check_accepted_admission, check_accepted.
  rewrite bool_decide_true by done. rewrite bool_decide_false by done. rewrite (proj2 (Z.eqb_eq _ _) Hg). cbn.
  destruct (max_pending (limits inner)) as [limit|]; cbn; [|by eauto]. destruct (_ <=? _); cbn; eauto.
Qed.

(** The lookup a caller makes with the identity of its call. *)
Definition lookup_of (i : RouteCallIdentity) : RouteLookupRequest :=
  {| expected := {| rc_route_name := route_name i; rc_crm_ns := crm_ns i; rc_crm_name := crm_name i; rc_crm_ver := crm_ver i;
                    rc_abi_hash := abi_hash i; rc_signature_hash := signature_hash i |};
     observed_route_uid := Some (route_uid i) |}.

(** C27 The catalog and the admission of calls agree at every point of every run: a lookup
    with the identity of a call answers that the route is unknown, removed, of another
    contract or superseded exactly when the call is refused for that reason; after the
    answer that it is closed every call is refused, and after the answer that it is ready
    a call of a listed method, of the current generation of a host that is not closed for
    good, is refused for want of capacity only. *)
Theorem lookup_answers_calls (identity : ServerIdentity) (max_payload_size : Z) (l : list HostCall) (h : Host)
    (inner : SchedulerInner) (gen : Z) (i : RouteCallIdentity) (method_idx : Z) :
  host_run Server_new l = Ok h →
  let call := reserve_accepted_route_execution inner h gen i method_idx in
  match lookup_response identity max_payload_size h (lookup_of i) with
  | LookupNotFound name => call = Err (AdmNotFound name)
  | LookupRemoved name uid => call = Err (AdmRemoved name uid)
  | LookupContractMismatch current =>
      rr_contract current ≠ expected (lookup_of i) ∧ ∃ reason, call = Err (AdmContractMismatch (route_name i) reason)
  | LookupStale current =>
      rr_contract current = expected (lookup_of i) ∧ call = Err (AdmStale (route_name i) (route_uid i) (rr_route_uid current))
  | LookupClosed name uid reason =>
      name = route_name i ∧ uid = route_uid i
      ∧ (call = Err (AdmUnknownMethod name method_idx) ∨ call = Err (AdmAcquire AClosed))
  | LookupReady current =>
      rr_contract current = expected (lookup_of i) ∧ rr_route_uid current = route_uid i
      ∧ (method_idx < blen (rr_methods current) → phase (ho_admission h) ≠ Terminal → generation (ho_admission h) = gen →
           is_ok call = true ∨ ∃ field limit, call = Err (AdmAcquire (ACapacity field limit)))
      ∧ (blen (rr_methods current) <= method_idx → call = Err (AdmUnknownMethod (route_name i) method_idx))
  end.
Proof.
  intros Hc%catalog_run; [|apply catalog_new]. cbn zeta. unfold reserve_accepted_route_execution, lookup_response. cbn [expected lookup_of rc_route_name].
  destruct (dispatcher_resolve h (route_name i)) as [r|] eqn:Er; [|by destruct (ho_removed h !! _)].
  apply resolve_named in Er as [Hn _]; [|done]. rewrite (same_contract_iff r i Hn).
  cbn [rr_contract rr_route_uid rr_state rr_route_name rr_methods route_record observed_route_uid lookup_of from_option].
  case_bool_decide as Ec; cbn [negb]; [|by eauto].
  rewrite (bool_decide_ext (cr_route_uid r = route_uid i) (route_uid i = cr_route_uid r)) by (split; congruence).
  case_bool_decide as Eu; cbn [negb guard_err res_bind]; [|done]. rewrite Hn. unfold has_method_index.
  destruct (route_admission (cr_scheduler r)) eqn:Ea.
  1, 3: rewrite reserve_unopened by congruence; destruct (method_idx <? _); cbn; (split; [done|]); (split; [done|]); auto.
  rewrite bool_decide_true by done. cbn [negb]. split; [done|]. split; [done|].
  cbn [rr_methods route_record]. unfold blen. rewrite length_imap. split.
  - intros Hlt Ht Hg. rewrite (proj2 (Z.ltb_lt _ _) Hlt). cbn [negb guard_err res_bind].
    destruct (reserve_opened inner (ho_admission h) (cr_scheduler r) method_idx gen Ea Ht Hg) as [(x & ->)|(f & limit & ->)]; cbn; eauto.
  - intros Hge. by rewrite (proj2 (Z.ltb_ge _ _) Hge).
Qed.

(** The caller reads the code and the message of its refusal. *)
Lemma admission_reply_read `{!Json C2ErrorEnvelope} e code message b :
  admission_refusal e = inr (code, message) → route_admission_reply e = Ok (RError b) →
  from_wire_bytes b = Ok (Some {| er_code := code; er_message := message; er_details := ∅ |}).
Proof.
  unfold route_admission_reply. intros ->. intros (b' & Hb & [= <-])%bind_ok. by apply wire_read.
Qed.

(** ** Answers *)

Section Wire.
Context `{!Json RouteListRequest, !Json RouteListResponse, !Json RouteLookupRequest, !Json RouteLookupResponse, !Json RouteNack,
          !Json PendingRouteAttestationRequest, !Json PendingRouteAttestationResponse}.
Context `{!JsonTotal RouteListResponse, !JsonTotal RouteLookupResponse, !JsonTotal RouteNack,
          !JsonTotal PendingRouteAttestationResponse}.

Lemma encode_total {T} `{!Json T, !JsonTotal T} tag (v : T) : ∃ b, encode_json_payload tag v = Ok b.
Proof. unfold encode_json_payload. destruct (to_vec_total v) as [b ->]. eauto. Qed.

Lemma nack_readable describe e : decode_route_nack (route_catalog_nack_payload describe e) = Ok (violation describe e).
Proof.
  unfold route_catalog_nack_payload, encode_route_nack. destruct (encode_total RouteNackMsg (violation describe e)) as [b Eb].
  rewrite Eb. cbn. by apply (decode_encoded _ _ _ _ Eb).
Qed.

(** How the answer to a request that is understood reads. *)
Lemma list_answer_read identity max_payload_size describe h payload request :
  configured identity max_payload_size → catalog_ok h → held h → NoDup (idents h).*2 →
  decode_route_list_request payload = Ok request →
  decode_route_list_response (route_list_payload identity max_payload_size describe h payload)
  = Ok (list_response identity max_payload_size h request).
Proof.
  intros Hcfg Hc Hh Hd Hx. unfold route_list_payload. rewrite Hx. cbn [res_bind or_nack].
  destruct (encode_total RouteListAck (list_response identity max_payload_size h request)) as [b Eb].
  unfold encode_route_list_response. rewrite Eb. apply (decode_encoded _ _ _ _ Eb). by apply list_response_valid.
Qed.

Lemma lookup_answer_read identity max_payload_size describe h payload request :
  configured identity max_payload_size → catalog_ok h → held h →
  decode_route_lookup_request payload = Ok request →
  decode_route_lookup_response (route_lookup_payload identity max_payload_size describe h payload)
  = Ok (lookup_response identity max_payload_size h request).
Proof.
  intros Hcfg Hc Hh Hx. unfold route_lookup_payload. rewrite Hx. cbn [res_bind or_nack].
  destruct (encode_total RouteLookupAck (lookup_response identity max_payload_size h request)) as [b Eb].
  unfold encode_route_lookup_response. rewrite Eb. apply (decode_encoded _ _ _ _ Eb). apply lookup_response_valid; try done.
  by eapply decode_checked_valid.
Qed.

Lemma attest_answer_read identity max_payload_size describe h payload request :
  configured identity max_payload_size → held h →
  decode_pending_route_attestation_request payload = Ok request →
  decode_pending_route_attestation_response (pending_route_attestation_payload max_payload_size describe h payload)
  = Ok (attest_response max_payload_size h request).
Proof.
  intros Hcfg Hh Hx. unfold pending_route_attestation_payload. rewrite Hx.
  destruct (encode_total PendingRouteAttestAck (attest_response max_payload_size h request)) as [b Eb].
  unfold encode_pending_route_attestation_response. rewrite Eb. apply (decode_encoded _ _ _ _ Eb). by eapply attest_response_valid.
Qed.

Lemma attest_refusal_read max_payload_size describe h payload e :
  decode_pending_route_attestation_request payload = Err e →
  decode_pending_route_attestation_response (pending_route_attestation_payload max_payload_size describe h payload)
  = Ok (Rejected (text "invalid") (describe e)).
Proof.
  intros Hx. unfold pending_route_attestation_payload. rewrite Hx.
  destruct (encode_total PendingRouteAttestAck (Rejected (text "invalid") (describe e))) as [b Eb].
  unfold encode_pending_route_attestation_response. rewrite Eb. by apply (decode_encoded _ _ _ _ Eb).
Qed.

(** Every answer of a reachable host is accepted by the decoder of its peer and says what
    the host holds: a list request is answered by the registered routes it selects, a
    lookup by its classification, the attestation of a pending route by its contract or a
    rejection, and a request that is refused by a violation of the protocol that names the
    reason.  The host was configured, routes drew well-formed and distinct identities, and
    the methods of a route have distinct names. *)
Theorem catalog_answers_readable (identity : ServerIdentity) (max_payload_size : Z) (describe : CatalogError → str)
    (l : list HostCall) (h : Host) (payload : bytes) :
  configured identity max_payload_size → Forall drawn_well l → NoDup (omap drawn l) → host_run Server_new l = Ok h →
  (∀ request, decode_route_list_request payload = Ok request →
     decode_route_list_response (route_list_payload identity max_payload_size describe h payload)
     = Ok (list_response identity max_payload_size h request))
  ∧ (∀ request, decode_route_lookup_request payload = Ok request →
     decode_route_lookup_response (route_lookup_payload identity max_payload_size describe h payload)
     = Ok (lookup_response identity max_payload_size h request))
  ∧ (∀ request, decode_pending_route_attestation_request payload = Ok request →
     decode_pending_route_attestation_response (pending_route_attestation_payload max_payload_size describe h payload)
     = Ok (attest_response max_payload_size h request))
  ∧ (∀ e, decode_route_list_request payload = Err e →
     decode_route_nack (route_list_payload identity max_payload_size describe h payload) = Ok (violation describe e))
  ∧ (∀ e, decode_route_lookup_request payload = Err e →
     decode_route_nack (route_lookup_payload identity max_payload_size describe h payload) = Ok (violation describe e))
  ∧ (∀ e, decode_pending_route_attestation_request payload = Err e →
     decode_pending_route_attestation_response (pending_route_attestation_payload max_payload_size describe h payload)
     = Ok (Rejected (text "invalid") (describe e))).
Proof.
  intros Hcfg Hl Hnd Hrun. destruct (reachable l h Hl Hnd Hrun) as (Hc & Hh & Hd).
  split_and!; intros x Hx.
  - by apply list_answer_read.
  - by apply lookup_answer_read.
  - by apply (attest_answer_read identity).
  - unfold route_list_payload. rewrite Hx. apply nack_readable.
  - unfold route_lookup_payload. rewrite Hx. apply nack_readable.
  - by apply attest_refusal_read.
Qed.
End Wire.

Lemma negotiated_wf native flags : caps_wf (negotiated native flags).
Proof. unfold negotiated. repeat case_match; split; vm_compute; intuition congruence. Qed.

Lemma negotiated_offered native flags : Z.land (negotiated native flags) flags = negotiated native flags.
Proof.
  assert (Hbit : ∀ k, 0 <= k → negb (Z.land flags (Z.shiftl 1 k) =? 0) = true → Z.land (Z.shiftl 1 k) flags = Z.shiftl 1 k).
  { intros k Hk. rewrite land_bit by done. intros Ht. rewrite !Z.shiftl_1_l. apply Z.bits_inj'. intros j Hj.
    rewrite Z.land_spec, Z.pow2_bits_eqb by lia. destruct (k =? j) eqn:E; [apply Z.eqb_eq in E; subst; by rewrite Ht|done]. }
  unfold negotiated, CAP_SHM_REQUEST, CAP_SHM_RESPONSE. rewrite Z.land_lor_distr_l.
  destruct (native && negb (Z.land flags (Z.shiftl 1 3) =? 0)) eqn:E1, (native && negb (Z.land flags (Z.shiftl 1 4) =? 0)) eqn:E2;
    rewrite ?andb_true_iff in *; rewrite ?Z.land_0_l; destruct_and?; rewrite ?Hbit by (lia || done); done.
Qed.

Lemma open_routes_len max_payload_size h : catalog_ok h → blen (open_routes max_payload_size h) <= MAX_ROUTES.
Proof.
  intros Hc. unfold open_routes, blen. rewrite length_fmap.
  pose proof (sublist_length _ _ (sublist_filter (fun r => route_admission (cr_scheduler r) = Opened) (routes_snapshot h))) as Hf.
  pose proof (f_equal length (snapshot_fmap h (fun _ => tt) (fun _ => tt) Hc ltac:(done))) as Hs. rewrite !length_fmap in Hs.
  destruct Hc. unfold dispatcher_len, pending_len in c_size. rewrite <-length_map_to_list in c_size. lia.
Qed.

(** Whatever a client offers, the acknowledgement of its handshake is written and read
    back by the client as the identity of the host and exactly the routes that are open at
    that point, with their identities, contracts and methods, and no direction of shared
    memory the client did not offer. *)
Theorem handshake_announces_open_routes (identity : ServerIdentity) (max_payload_size : Z) (l : list HostCall) (h : Host)
    (native_shm : bool) (client : Handshake) (prefix : str) :
  configured identity max_payload_size → name_text prefix → Forall drawn_well l → host_run Server_new l = Ok h →
  ∃ ack caps, handshake_ack identity max_payload_size h native_shm client prefix = Ok ack
  ∧ decode_handshake ack true
    = Ok {| hs_prefix := prefix; capability_flags := caps; server_identity := Some identity; hs_routes := open_routes max_payload_size h |}
  ∧ Z.land caps (capability_flags client) = caps
  ∧ (∀ r, r ∈ open_routes max_payload_size h ↔
       ∃ name route, dispatcher_resolve h name = Some route ∧ route_admission (cr_scheduler route) = Opened
                     ∧ r = announced max_payload_size route).
Proof.
  intros Hcfg Hp Hl Hrun. destruct (held_run l Server_new h catalog_new held_new Hl Hrun) as [Hc Hh].
  assert (Hin : ∀ r, r ∈ open_routes max_payload_size h ↔
       ∃ name route, dispatcher_resolve h name = Some route ∧ route_admission (cr_scheduler route) = Opened
                     ∧ r = announced max_payload_size route).
  { intros r. unfold open_routes. rewrite list_elem_of_fmap. setoid_rewrite list_elem_of_filter. setoid_rewrite (snapshot_in h _ Hc).
    naive_solver. }
  exists (client_bytes (negotiated native_shm (capability_flags client)) prefix ++ server_part_bytes (identity, open_routes max_payload_size h)),
    (negotiated native_shm (capability_flags client)).
  assert (Hwf : server_part_wf (identity, open_routes max_payload_size h)).
  { split; [apply Hcfg|]. split; [by apply open_routes_len|]. apply Forall_forall.
    intros r (name & route & Hr & _ & ->)%Hin. destruct (resolved_held _ _ _ Hc Hh Hr). by apply (announced_wf identity). }
  split_and!; [by apply encode_server_eq| |apply negotiated_offered|exact Hin].
  apply decode_server_iff. exists identity. cbn. split_and!; try done; apply negotiated_wf.
Qed.

(** ** Names are remembered *)

Definition remembered (name : str) h : Prop :=
  is_Some (ho_dispatcher h !! name)
  ∨ ∃ spec uid, ho_removed h !! name = Some uid ∧ rs_name spec = name ∧ (spec, uid) ∈ idents h.

Lemma registered_ident h name n : catalog_ok h → ho_dispatcher h !! name = Some n →
  ∃ spec, rs_name spec = name ∧ (spec, uid_of h n) ∈ idents h.
Proof.
  intros [] Hn. destruct (c_registered _ _ Hn) as (uid & r & Hr & Hname & _). exists (cr_spec r). split; [done|].
  unfold uid_of. rewrite Hr. apply list_elem_of_fmap. exists r. split; [done|]. by eapply list_elem_of_lookup_2.
Qed.

Lemma remembered_step name h c h' : catalog_ok h → remembered name h → host_step h c = Ok h' → remembered name h'.
Proof.
  unfold remembered. intros Hc Hm E. apply step_change in E; [|done].
  destruct E as [-> -> -> _|spec uid token -> _ -> -> -> _|name' -> -> -> _|name' n -> -> -> _|name' n -> Hn -> -> _ | -> -> -> _]; try done.
  - destruct Hm as [?|(spec' & uid' & ? & ? & ?)]; [by left|right]. exists spec', uid'. rewrite elem_of_app. auto.
  - destruct (decide (name' = name)) as [->|]; [left; by rewrite lookup_insert_eq|].
    by rewrite lookup_insert_ne, lookup_delete_ne.
  - destruct (decide (name' = name)) as [->|]; [|by rewrite lookup_delete_ne, lookup_insert_ne]. right.
    destruct (registered_ident _ _ _ Hc Hn) as (spec & ? & ?). exists spec, (uid_of h n). by rewrite lookup_insert_eq.
  - right. destruct (ho_dispatcher h !! name) as [n|] eqn:En.
    + destruct (registered_ident _ _ _ Hc En) as (spec & ? & ?). exists spec, (uid_of h n). split; [|done].
      apply lookup_union_Some_l. by rewrite lookup_fmap, En.
    + destruct Hm as [[? ?]|(spec & uid & ? & ? & ?)]; [done|]. exists spec, uid. split; [|done].
      rewrite lookup_union_r; [done|]. by rewrite lookup_fmap, En.
Qed.

(** A host never forgets a name it registered: from then on a lookup of the name is never
    answered that it is unknown, whatever was removed, stopped or started again since, and
    the answer that it was removed carries the identity of a route that had this name. *)
Theorem registered_name_remembered (identity : ServerIdentity) (max_payload_size : Z) (l1 l2 : list HostCall) (h1 h2 : Host)
    (request : RouteLookupRequest) :
  host_run Server_new l1 = Ok h1 → is_Some (ho_dispatcher h1 !! rc_route_name (expected request)) → host_run h1 l2 = Ok h2 →
  match lookup_response identity max_payload_size h2 request with
  | LookupNotFound _ => False
  | LookupRemoved name uid =>
      name = rc_route_name (expected request)
      ∧ ∃ r, r ∈ ho_routes h2 ∧ cr_name r = name ∧ uid = Some (cr_route_uid r)
  | _ => True
  end.
Proof.
  intros Hc%catalog_run Hn Hrun; [|apply catalog_new]. set (name := rc_route_name (expected request)) in *.
  assert (catalog_ok h2 ∧ remembered name h2) as [Hc2 Hm].
  { revert Hrun. apply (host_run_inv (fun h => catalog_ok h ∧ remembered name h) (fun _ => True)); [|by apply Forall_true|by split; [|left]].
    intros h c h' [] _ E. split; [by eapply catalog_step|by eapply remembered_step]. }
  unfold lookup_response. fold name. destruct (dispatcher_resolve h2 name) as [r|] eqn:Er.
  { destruct (negb _); [done|]. destruct (from_option _ _ _); [done|]. by destruct (negb _). }
  apply resolve_None in Er; [|done]. destruct Hm as [[? ?]|(spec & uid & -> & Hs & Hin)]; [congruence|].
  split; [done|]. apply list_elem_of_fmap in Hin as (r & [= -> ->] & Hr). by exists r.
Qed.

(** ** Sample runs *)

#[export] Instance contract_countable : Countable RouteContractWire.
Proof.
  apply (inj_countable' (fun c => (rc_route_name c, rc_crm_ns c, rc_crm_name c, rc_crm_ver c, rc_abi_hash c, rc_signature_hash c))
    (fun '(a, b, c, d, e, f) => {| rc_route_name := a; rc_crm_ns := b; rc_crm_name := c; rc_crm_ver := d; rc_abi_hash := e; rc_signature_hash := f |})).
  by intros [].
Defined.
#[export] Instance state_countable : Countable RouteStateWire.
Proof.
  by apply (inj_countable' (fun s => bool_decide (s = WireReady)) (fun b : bool => if b then WireReady else WireClosed)); intros [].
Defined.
#[export] Instance reason_countable : Countable RouteStateReasonWire.
Proof.
  by apply (inj_countable' (fun s => match s with RegisterCommitted => None | ExplicitUnregister => Some true | ReasonShutdown => Some false end)
    (fun o => match o with None => RegisterCommitted | Some true => ExplicitUnregister | Some false => ReasonShutdown end)); intros [].
Defined.
#[export] Instance method_countable : Countable RouteMethodWire.
Proof. by apply (inj_countable' (fun m => (rm_name m, rm_index m)) (fun '(n, i) => {| rm_name := n; rm_index := i |})); intros []. Defined.
#[export] Instance record_countable : Countable RouteRecordWire.
Proof.
  apply (inj_countable'
    (fun r => (rr_route_name r, rr_route_uid r, rr_owner_server_id r, rr_owner_server_instance_id r, rr_contract r, rr_methods r,
               rr_max_payload_size r, rr_state r, rr_state_reason r))
    (fun '(a, b, c, d, e, f, g, s, t) => {| rr_route_name := a; rr_route_uid := b; rr_owner_server_id := c; rr_owner_server_instance_id := d;
       rr_contract := e; rr_methods := f; rr_max_payload_size := g; rr_state := s; rr_state_reason := t |})).
  by intros [].
Defined.

#[export] Instance attestation_eq : EqDecision PendingRouteAttestation.
Proof. solve_decision. Defined.
#[export] Instance attestation_countable : Countable PendingRouteAttestation.
Proof.
  apply (inj_countable'
    (fun c => (pa_route_name c, pa_route_uid c, pa_crm_ns c, pa_crm_name c, pa_crm_ver c, pa_abi_hash c, pa_signature_hash c,
               pa_method_names c, pa_max_payload_size c))
    (fun '(a, b, c, d, e, f, g, s, t) => {| pa_route_name := a; pa_route_uid := b; pa_crm_ns := c; pa_crm_name := d; pa_crm_ver := e;
       pa_abi_hash := f; pa_signature_hash := g; pa_method_names := s; pa_max_payload_size := t |})).
  by intros [].
Defined.

(** A codec of a type with the values of a countable one. *)
Program Definition via_json {T A} `{Countable A} (f : T → A) (g : A → T) (Hfg : ∀ v, g (f v) = v) : Json T :=
  {| to_vec v := Some (bits (encode (f v))); from_slice b := g <$> decode (unbits b) |}.
Next Obligation. intros T A ? ? f g Hfg v b [= <-]. by rewrite unbits_bits, decode_encode; cbn; rewrite Hfg. Qed.

Definition selector_code (s : RouteSelector) : option (str + RouteContractWire) :=
  match s with SelectAll => None | SelectName n => Some (inl n) | SelectContract c => Some (inr c) end.
Definition code_selector (o : option (str + RouteContractWire)) : RouteSelector :=
  match o with None => SelectAll | Some (inl n) => SelectName n | Some (inr c) => SelectContract c end.

Definition lookup_code (r : RouteLookupResponse)
    : RouteRecordWire + (str + (str * option str + (str * str * RouteStateReasonWire + (RouteRecordWire + RouteRecordWire)))) :=
  match r with
  | LookupReady c => inl c
  | LookupNotFound n => inr (inl n)
  | LookupRemoved n u => inr (inr (inl (n, u)))
  | LookupClosed n u x => inr (inr (inr (inl (n, u, x))))
  | LookupStale c => inr (inr (inr (inr (inl c))))
  | LookupContractMismatch c => inr (inr (inr (inr (inr c))))
  end.
Definition code_lookup
    (o : RouteRecordWire + (str + (str * option str + (str * str * RouteStateReasonWire + (RouteRecordWire + RouteRecordWire)))))
    : RouteLookupResponse :=
  match o with
  | inl c => LookupReady c
  | inr (inl n) => LookupNotFound n
  | inr (inr (inl (n, u))) => LookupRemoved n u
  | inr (inr (inr (inl (n, u, x)))) => LookupClosed n u x
  | inr (inr (inr (inr (inl c)))) => LookupStale c
  | inr (inr (inr (inr (inr c)))) => LookupContractMismatch c
  end.

#[local] Instance sample_list_request : Json RouteListRequest :=
  via_json (fun r => selector_code (selector r)) (fun o => {| selector := code_selector o |}) ltac:(by intros [[]]).
#[local] Instance sample_list_response : Json RouteListResponse :=
  via_json routes (fun l => {| routes := l |}) ltac:(by intros []).
#[local] Instance sample_lookup_request : Json RouteLookupRequest :=
  via_json (fun r => (expected r, observed_route_uid r)) (fun '(e, o) => {| expected := e; observed_route_uid := o |}) ltac:(by intros []).
#[local] Instance sample_lookup_response : Json RouteLookupResponse := via_json lookup_code code_lookup ltac:(by intros []).
#[local] Instance sample_nack : Json RouteNack := via_json nack_error (fun e => {| nack_error := e |}) ltac:(by intros []).
#[local] Instance sample_attest_request : Json PendingRouteAttestationRequest :=
  via_json (fun r => (ar_route_name r, ar_registration_token r)) (fun '(n, t) => {| ar_route_name := n; ar_registration_token := t |})
    ltac:(by intros []).
#[local] Instance sample_attest_response : Json PendingRouteAttestationResponse :=
  via_json (fun r => match r with Attested c => inl c | Rejected c m => inr (c, m) end)
    (fun o => match o with inl c => Attested c | inr (c, m) => Rejected c m end) ltac:(by intros []).

Lemma via_total {T A} `{Countable A} (f : T → A) g Hfg : @JsonTotal T (via_json f g Hfg).
Proof. intros v. by eexists. Qed.

#[local] Instance sample_list_total : JsonTotal RouteListResponse.
Proof. apply via_total. Qed.
#[local] Instance sample_lookup_total : JsonTotal RouteLookupResponse.
Proof. apply via_total. Qed.
#[local] Instance sample_nack_total : JsonTotal RouteNack.
Proof. apply via_total. Qed.
#[local] Instance sample_attest_total : JsonTotal PendingRouteAttestationResponse.
Proof. apply via_total. Qed.

Definition sample_identity : ServerIdentity := {| server_id := text "host"; server_instance_id := text "host-1" |}.
Definition sample_payload_limit : Z := 1024.

Lemma sample_configured : configured sample_identity sample_payload_limit.
Proof. split; [|unfold sample_payload_limit; lia]. repeat split; vm_compute; congruence. Qed.

Lemma sample_given name uid :
  utf8_valid name = true → utf8_valid uid = true → validate_route_uid uid = Ok tt → given (sample_spec name) uid.
Proof.
  intros. split; [|split; [apply NoDup_singleton|done]].
  repeat (apply Forall_cons; split; [done || (vm_compute; reflexivity)|]). apply Forall_nil_2.
Qed.

Lemma sample_drawn : Forall drawn_well sample_names ∧ NoDup (omap drawn sample_names).
Proof.
  split.
  - unfold sample_names. repeat (apply Forall_cons; split; [|]); try exact I; try (apply Forall_nil_2).
    + apply sample_given; vm_compute; reflexivity.
    + apply sample_given; vm_compute; reflexivity.
  - cbn. apply NoDup_cons. split; [by intros ?%list_elem_of_singleton|apply NoDup_singleton].
Qed.

Definition sample_host : Host := ran Server_new sample_names.
Lemma sample_ran : host_run Server_new sample_names = Ok sample_host.
Proof. apply ran_ok. vm_compute. reflexivity. Qed.

Definition sample_call : RouteCallIdentity :=
  {| route_name := sample_name; route_uid := [Byte.x31]; crm_ns := [Byte.x6e]; crm_name := [Byte.x6d]; crm_ver := [Byte.x31];
     abi_hash := repeat Byte.x61 64; signature_hash := repeat Byte.x62 64 |}.

(** A call of another registration is stale, in the catalog and when it is admitted. *)
Definition stale_call : RouteCallIdentity :=
  {| route_name := sample_name; route_uid := [Byte.x39]; crm_ns := [Byte.x6e]; crm_name := [Byte.x6d]; crm_ver := [Byte.x31];
     abi_hash := repeat Byte.x61 64; signature_hash := repeat Byte.x62 64 |}.

Definition sample_inner : SchedulerInner :=
  {| mode := MExclusive; access_map := ∅; limits := {| max_pending := None; max_workers := None |} |}.

Lemma lookup_answers_witness :
  reserve_accepted_route_execution sample_inner sample_host 0 stale_call 0 = Err (AdmStale sample_name [Byte.x39] [Byte.x31])
  ∧ (is_ok (reserve_accepted_route_execution sample_inner sample_host 0 sample_call 0) = true
     ∨ ∃ field limit, reserve_accepted_route_execution sample_inner sample_host 0 sample_call 0 = Err (AdmAcquire (ACapacity field limit))).
Proof.
  pose proof (lookup_answers_calls sample_identity sample_payload_limit sample_names sample_host sample_inner 0 stale_call 0 sample_ran) as Hs.
  pose proof (lookup_answers_calls sample_identity sample_payload_limit sample_names sample_host sample_inner 0 sample_call 0 sample_ran) as Hr.
  cbn zeta in Hs, Hr. split.
  - assert (∃ c, lookup_response sample_identity sample_payload_limit sample_host (lookup_of stale_call) = LookupStale c
                 ∧ rr_route_uid c = [Byte.x31]) as (c & E & Hu) by (eexists; split; vm_compute; reflexivity).
    rewrite E, Hu in Hs. apply Hs.
  - assert (∃ c, lookup_response sample_identity sample_payload_limit sample_host (lookup_of sample_call) = LookupReady c
                 ∧ blen (rr_methods c) = 1) as (c & E & Hu) by (eexists; split; vm_compute; reflexivity).
    rewrite E, Hu in Hr. destruct Hr as (_ & _ & Hr & _). apply Hr; [lia|vm_compute; discriminate|vm_compute; reflexivity].
Defined.

(** A request for every route, and one that is not a request. *)
Definition sample_request : bytes := byte.of_Z (as_byte RouteList) :: bits (encode (selector_code SelectAll)).

Lemma catalog_answers_witness :
  decode_route_list_response (route_list_payload sample_identity sample_payload_limit (fun _ => []) sample_host sample_request)
  = Ok (list_response sample_identity sample_payload_limit sample_host {| selector := SelectAll |})
  ∧ length (routes (list_response sample_identity sample_payload_limit sample_host {| selector := SelectAll |})) = 1%nat.
Proof.
  split; [|vm_compute; reflexivity]. destruct sample_drawn as [Hw Hd].
  destruct (catalog_answers_readable sample_identity sample_payload_limit (fun _ => []) sample_names sample_host sample_request sample_configured Hw Hd sample_ran)
    as (H & _). apply H. vm_compute. reflexivity.
Defined.

Definition sample_offer : Handshake :=
  {| hs_prefix := text "c"; capability_flags := CAP_SHM_REQUEST; server_identity := None; hs_routes := [] |}.

Lemma handshake_announces_witness :
  (∃ ack caps, handshake_ack sample_identity sample_payload_limit sample_host true sample_offer (text "p") = Ok ack
   ∧ decode_handshake ack true
     = Ok {| hs_prefix := text "p"; capability_flags := caps; server_identity := Some sample_identity;
             hs_routes := open_routes sample_payload_limit sample_host |})
  ∧ length (open_routes sample_payload_limit sample_host) = 1%nat.
Proof.
  split; [|vm_compute; reflexivity].
  destruct (handshake_announces_open_routes sample_identity sample_payload_limit sample_names sample_host true sample_offer (text "p"))
    as (ack & caps & H1 & H2 & _); [exact sample_configured|split; vm_compute; congruence|apply sample_drawn|exact sample_ran|].
  exists ack, caps. split; [exact H1|exact H2].
Defined.

Lemma registered_name_witness :
  ho_lifecycle (ran serving_host sample_stop) = Stopped
  ∧ match lookup_response sample_identity sample_payload_limit (ran serving_host sample_stop) (lookup_of sample_call) with
    | LookupNotFound _ => False
    | LookupRemoved name uid =>
        name = sample_name ∧ ∃ r, r ∈ ho_routes (ran serving_host sample_stop) ∧ cr_name r = name ∧ uid = Some (cr_route_uid r)
    | _ => True
    end.
Proof.
  split; [vm_compute; reflexivity|].
  apply (registered_name_remembered sample_identity sample_payload_limit sample_register sample_stop serving_host
    (ran serving_host sample_stop) (lookup_of sample_call)).
  - apply ran_ok. vm_compute. reflexivity.
  - exists 0%nat. vm_compute. reflexivity.
  - apply ran_ok. vm_compute. reflexivity.
Defined.
