(* ===== verification/RouteBinding.v ===== *)
(** The routes a client knows and the bindings it acquires (c2-ipc, client.rs): the directory
    of a connection, the exchanges that fill it, and the tasks that look routes up, rebuild
    the directory, attest and acquire, interleaved with each other and with the host. *)

From S2P Require Import Prelude.
From S2P Require Import Text.
From S2P Require Import Control.
From S2P Require Import Frame.
From S2P Require Import Handshake.
From S2P Require Import Errors.
From S2P Require Import Catalog.
From S2P Require Import Host.
From S2P Require Import HostCatalog.

(** ** Tables *)

(** The text fields of a [MethodTable] are those of [call_identity]. *)
Record MethodTable := { mt_identity : RouteCallIdentity; mt_max_payload_size : Z; name_to_idx : gmap str Z }.

Definition from_entries (entries : list MethodEntry) (i : RouteCallIdentity) (max_payload_size : Z) : MethodTable :=
  {| mt_identity := i; mt_max_payload_size := max_payload_size;
     name_to_idx := foldl (fun m e => <[me_name e := me_index e]> m) ∅ entries |}.

Definition from_route (r : RouteInfo) : MethodTable :=
  from_entries (ri_methods r)
    {| route_name := ri_name r; route_uid := ri_route_uid r; crm_ns := ri_crm_ns r; crm_name := ri_crm_name r;
       crm_ver := ri_crm_ver r; abi_hash := ri_abi_hash r; signature_hash := ri_signature_hash r |}
    (ri_max_payload_size r).

Definition from_record (r : RouteRecordWire) : MethodTable :=
  let c := rr_contract r in
  from_entries ((fun m => {| me_name := rm_name m; me_index := rm_index m |}) <$> rr_methods r)
    {| route_name := rr_route_name r; route_uid := rr_route_uid r; crm_ns := rc_crm_ns c; crm_name := rc_crm_name c;
       crm_ver := rc_crm_ver c; abi_hash := rc_abi_hash c; signature_hash := rc_signature_hash c |}
    (rr_max_payload_size r).

Definition method_table_from_attestation (c : PendingRouteAttestation) : MethodTable :=
  from_entries (imap (fun index name => {| me_name := name; me_index := as_u16 index |}) (pa_method_names c))
    {| route_name := pa_route_name c; route_uid := pa_route_uid c; crm_ns := pa_crm_ns c; crm_name := pa_crm_name c;
       crm_ver := pa_crm_ver c; abi_hash := pa_abi_hash c; signature_hash := pa_signature_hash c |}
    (pa_max_payload_size c).

(** The texts of the errors decide nothing. [Expired]: the deadline of the connect the
    operation is part of; [Failed]: the exchange with the host. *)
Inductive AcquireError :=
| MismatchedContract
| NotFound (route_name : str)
| Removed (route_name : str) (route_uid : option str)
| ClosedRoute (route_name route_uid : str) (reason : RouteStateReasonWire)
| StaleRoute (route_name current_route_uid : str)
| MethodNotFound (route_name method_name : str)
| ProtocolError
| Expired
| Failed.

(** [RouteBinding]: the table it was made from. *)
Definition RouteBinding := MethodTable.

Definition call_target_for (b : RouteBinding) (method_name : str) : res AcquireError (Z * RouteCallIdentity * Z) :=
  match name_to_idx b !! method_name with
  | None => Err (MethodNotFound (route_name (mt_identity b)) method_name)
  | Some idx => Ok (idx, mt_identity b, mt_max_payload_size b)
  end.

(** ** The directory *)

Notation RouteDirectory := (gmap str MethodTable).
Implicit Types (d : RouteDirectory).

Definition seed_from_handshake (routes : list RouteInfo) : RouteDirectory :=
  foldl (fun d r => <[ri_name r := from_route r]> d) ∅ routes.

Definition apply_record d (r : RouteRecordWire) : RouteDirectory :=
  match rr_state r with
  | WireReady => <[rr_route_name r := from_record r]> d
  | WireClosed => delete (rr_route_name r) d
  end.

Definition rebuild_from_list (response : RouteListResponse) : RouteDirectory := foldl apply_record ∅ (routes response).

Definition check_expected (e : ExpectedRouteContract) : res AcquireError unit :=
  map_err (fun _ => MismatchedContract) (validate_expected_route_contract e).

Definition validate_method_table_contract (t : MethodTable) (e : ExpectedRouteContract) : res AcquireError unit :=
  let i := mt_identity t in
  guard_err (negb (bool_decide (crm_ns i = erc_crm_ns e) && bool_decide (crm_name i = erc_crm_name e)
                   && bool_decide (crm_ver i = erc_crm_ver e) && bool_decide (abi_hash i = erc_abi_hash e)
                   && bool_decide (signature_hash i = erc_signature_hash e))) MismatchedContract.

(** [bound_route_table] *)
Definition bound_route_table d (name : str) : res AcquireError MethodTable :=
  match d !! name with Some t => Ok t | None => Err (NotFound name) end.

Definition bind_cached_route d (e : ExpectedRouteContract) : res AcquireError RouteBinding :=
  check_expected e ;?
  let? t := bound_route_table d (erc_route_name e) in
  validate_method_table_contract t e ;?
  Ok t.

Definition validate_route_contract d (e : ExpectedRouteContract) : res AcquireError unit :=
  let? _ := bind_cached_route d e in Ok tt.

Definition bind_cached_route_token d (e : ExpectedRouteContract) (uid : str) : res AcquireError RouteBinding :=
  let? t := bind_cached_route d e in
  guard_err (negb (bool_decide (route_uid (mt_identity t) = uid))) (StaleRoute (erc_route_name e) (route_uid (mt_identity t))) ;?
  Ok t.

(** ** Operations *)

Inductive Op :=
| LookupRoute (e : ExpectedRouteContract)
| AcquireRoute (e : ExpectedRouteContract)
| AcquireRouteToken (e : ExpectedRouteContract) (uid : str)
| RebuildCatalog
| AttestRegistration (e : ExpectedRouteContract)
| AcquirePending (name token : str).

(** Where an operation is: before its request, waiting for the answer, with the answer,
    after the record of a lookup went into the directory, before it binds, after the table
    of an attestation went in, at its end. *)
Inductive Pc :=
| Asking
| Waiting (payload : bytes)
| Answered (payload : bytes)
| Validating
| Binding
| BindingAttested (e : ExpectedRouteContract)
| Done (r : res AcquireError (option RouteBinding)).

(** The delays left to the loop of lookups and to the loop of bindings. *)
Record Task := { tk_op : Op; tk_pc : Pc; tk_lookups : list Z; tk_bindings : list Z }.

Definition ROUTE_PUBLICATION_LOOKUP_RETRY_DELAYS_MS : list Z := [10; 25; 50; 100; 200].

Definition at_pc (t : Task) (pc : Pc) : Task :=
  {| tk_op := tk_op t; tk_pc := pc; tk_lookups := tk_lookups t; tk_bindings := tk_bindings t |}.
Definition finish (t : Task) (r : res AcquireError (option RouteBinding)) : Task := at_pc t (Done r).

(** What an operation checks before anything else. *)
Definition begin_op (op : Op) : Task :=
  let t := {| tk_op := op; tk_pc := Asking; tk_lookups := ROUTE_PUBLICATION_LOOKUP_RETRY_DELAYS_MS;
              tk_bindings := ROUTE_PUBLICATION_LOOKUP_RETRY_DELAYS_MS |} in
  match op with
  | AcquireRouteToken e _ | AttestRegistration e =>
      match check_expected e with Ok _ => t | Err x => finish t (Err x) | Panic => finish t Panic end
  | _ => t
  end.

(** The end of [lookup_route_contract] and of [lookup_route_contract_for_acquire]: a lookup
    that finds no route is repeated after a delay. *)
Definition looked_up (t : Task) (r : res AcquireError unit) : Task :=
  match tk_op t, r with
  | LookupRoute _, Ok _ => finish t (Ok None)
  | LookupRoute _, Err x => finish t (Err x)
  | _, Ok _ => at_pc t Binding
  | _, Err (NotFound name) =>
      match tk_lookups t with
      | [] => finish t (Err (NotFound name))
      | _ :: delays => {| tk_op := tk_op t; tk_pc := Asking; tk_lookups := delays; tk_bindings := tk_bindings t |}
      end
  | _, Err x => finish t (Err x)
  | _, Panic => finish t Panic
  end.

(** The loops of [acquire_route] and [acquire_route_token]. *)
Definition bound (t : Task) (r : res AcquireError RouteBinding) : Task :=
  match r with
  | Ok b => finish t (Ok (Some b))
  | Err (NotFound name) =>
      match tk_bindings t with
      | [] => finish t (Err (NotFound name))
      | _ :: delays =>
          {| tk_op := tk_op t; tk_pc := Asking; tk_lookups := ROUTE_PUBLICATION_LOOKUP_RETRY_DELAYS_MS; tk_bindings := delays |}
      end
  | Err x => finish t (Err x)
  | Panic => finish t Panic
  end.

Definition expected_contract_wire (e : ExpectedRouteContract) : RouteContractWire :=
  {| rc_route_name := erc_route_name e; rc_crm_ns := erc_crm_ns e; rc_crm_name := erc_crm_name e; rc_crm_ver := erc_crm_ver e;
     rc_abi_hash := erc_abi_hash e; rc_signature_hash := erc_signature_hash e |}.

Definition expected_contract_from_attestation (c : PendingRouteAttestation) : ExpectedRouteContract :=
  {| erc_route_name := pa_route_name c; erc_crm_ns := pa_crm_ns c; erc_crm_name := pa_crm_name c; erc_crm_ver := pa_crm_ver c;
     erc_abi_hash := pa_abi_hash c; erc_signature_hash := pa_signature_hash c |}.

Definition observed_token_for d (name : str) : option str := (fun t => route_uid (mt_identity t)) <$> d !! name.

Definition payload_msg_type (payload : bytes) : option MsgType := head payload ≫= fun b => from_byte (u8 b).

(** The end of [attest_route_for_registration]. *)
Definition attested_binding (e : ExpectedRouteContract) (response : RouteListResponse) : res AcquireError RouteBinding :=
  match List.find (fun r => bool_decide (rr_route_name r = erc_route_name e)) (routes response) with
  | None => Err (NotFound (erc_route_name e))
  | Some record =>
      let table := from_record record in
      validate_method_table_contract table e ;?
      match rr_state record, rr_state_reason record with
      | WireReady, _ | WireClosed, RegisterCommitted => Ok table
      | WireClosed, reason => Err (ClosedRoute (rr_route_name record) (rr_route_uid record) reason)
      end
  end.

Section Exchanges.
Context `{!Json RouteListRequest, !Json RouteListResponse, !Json RouteLookupRequest, !Json RouteLookupResponse, !Json RouteNack,
          !Json PendingRouteAttestationRequest, !Json PendingRouteAttestationResponse}.

(** The request of an operation. *)
Definition request_payload d (op : Op) : res AcquireError bytes :=
  map_err (fun _ => ProtocolError)
    match op with
    | LookupRoute e | AcquireRoute e | AcquireRouteToken e _ =>
        encode_route_lookup_request
          {| expected := expected_contract_wire e; observed_route_uid := observed_token_for d (erc_route_name e) |}
    | RebuildCatalog => encode_route_list_request {| selector := SelectAll |}
    | AttestRegistration e => encode_route_list_request {| selector := SelectName (erc_route_name e) |}
    | AcquirePending name token => encode_pending_route_attestation_request name token
    end.

(** What a lookup does with its answer; a record that went in is validated next. *)
Definition apply_lookup d (t : Task) (payload : bytes) : RouteDirectory * Task :=
  if bool_decide (payload_msg_type payload = Some RouteNackMsg) then (d, looked_up t (Err ProtocolError))
  else
    match decode_route_lookup_response payload with
    | Ok (LookupReady current) | Ok (LookupStale current) => (apply_record d current, at_pc t Validating)
    | Ok (LookupNotFound name) => (delete name d, looked_up t (Err (NotFound name)))
    | Ok (LookupRemoved name uid) => (delete name d, looked_up t (Err (Removed name uid)))
    | Ok (LookupClosed name uid reason) => (delete name d, looked_up t (Err (ClosedRoute name uid reason)))
    | Ok (LookupContractMismatch current) => (apply_record d current, looked_up t (Err MismatchedContract))
    | Err _ => (d, looked_up t (Err ProtocolError))
    | Panic => (d, looked_up t Panic)
    end.

Definition decode_list (payload : bytes) : res AcquireError RouteListResponse :=
  guard_err (bool_decide (payload_msg_type payload = Some RouteNackMsg)) ProtocolError ;?
  map_err (fun _ => ProtocolError) (decode_route_list_response payload).

Definition apply_answer d (t : Task) (payload : bytes) : RouteDirectory * Task :=
  match tk_op t with
  | LookupRoute _ | AcquireRoute _ | AcquireRouteToken _ _ => apply_lookup d t payload
  | RebuildCatalog =>
      match decode_list payload with
      | Ok response => (rebuild_from_list response, finish t (Ok None))
      | Err x => (d, finish t (Err x))
      | Panic => (d, finish t Panic)
      end
  | AttestRegistration e =>
      (d, finish t (let? response := decode_list payload in let? b := attested_binding e response in Ok (Some b)))
  | AcquirePending name _ =>
      match decode_pending_route_attestation_response payload with
      | Ok (Attested c) =>
          (<[pa_route_name c := method_table_from_attestation c]> d, at_pc t (BindingAttested (expected_contract_from_attestation c)))
      | Ok (Rejected code _) =>
          (d, finish t (Err (if bool_decide (code = text "not_found") then NotFound name else MismatchedContract)))
      | Err _ => (d, finish t (Err ProtocolError))
      | Panic => (d, finish t Panic)
      end
  end.

(** What a task does next, with one access to the directory. [late]: the deadline of the
    connect passed before it. No operation gets to the last case. *)
Definition task_step d (t : Task) (late : bool) : option (RouteDirectory * Task) :=
  match tk_pc t with
  | Waiting _ | Done _ => None
  | pc =>
      Some (if late then (d, finish t (Err Expired))
            else
              match pc, tk_op t with
              | Asking, op =>
                  match request_payload d op with
                  | Ok payload => (d, at_pc t (Waiting payload))
                  | Err x => (d, finish t (Err x))
                  | Panic => (d, finish t Panic)
                  end
              | Answered payload, _ => apply_answer d t payload
              | Validating, LookupRoute e | Validating, AcquireRoute e | Validating, AcquireRouteToken e _ =>
                  (d, looked_up t (validate_route_contract d e))
              | Binding, AcquireRoute e => (d, bound t (bind_cached_route d e))
              | Binding, AcquireRouteToken e uid => (d, bound t (bind_cached_route_token d e uid))
              | BindingAttested e, _ =>
                  (d, finish t (let? b := bind_cached_route d e in Ok (Some b)))
              | _, _ => (d, finish t Panic)
              end)
  end.

(** ** Runs *)

Context (identity : ServerIdentity) (max_payload_size : Z) (describe : CatalogError → str).

(** One host and one connected client of it. *)
Record World := { host : Host; directory : RouteDirectory; tasks : list Task }.
Implicit Types (w : World).

(** [Answer]: the host answers the request of a task; [Abandon]: the exchange fails, or the
    deadline of the task passes where it waits. *)
Inductive Step :=
| HostStep (c : HostCall)
| Begin (op : Op)
| Advance (n : nat) (late : bool)
| Answer (n : nat)
| Abandon (n : nat) (e : AcquireError).

Definition is_done (pc : Pc) : bool := match pc with Done _ => true | _ => false end.

Definition set_task w (n : nat) d (t : Task) : World := {| host := host w; directory := d; tasks := <[n := t]> (tasks w) |}.

(** [None]: the step cannot be taken. *)
Definition bind_step w (s : Step) : option World :=
  match s with
  | HostStep c =>
      match host_step (host w) c with
      | Ok h => Some {| host := h; directory := directory w; tasks := tasks w |}
      | _ => None
      end
  | Begin op => Some {| host := host w; directory := directory w; tasks := tasks w ++ [begin_op op] |}
  | Advance n late =>
      t ← tasks w !! n; '(d, t) ← task_step (directory w) t late; Some (set_task w n d t)
  | Answer n =>
      t ← tasks w !! n;
      match tk_pc t with
      | Waiting payload =>
          answer ← ctrl_response identity max_payload_size describe (host w) payload;
          Some (set_task w n (directory w) (at_pc t (Answered answer)))
      | _ => None
      end
  | Abandon n e =>
      t ← tasks w !! n;
      if is_done (tk_pc t) then None else Some (set_task w n (directory w) (finish t (Err e)))
  end.

Fixpoint bind_run w (l : list Step) : option World :=
  match l with
  | [] => Some w
  | s :: l => w ← bind_step w s; bind_run w l
  end.

(** [connect_attempt]: the directory starts with the routes of the handshake. *)
Definition connected (h : Host) (hs : Handshake) : World :=
  {| host := h; directory := seed_from_handshake (hs_routes hs); tasks := [] |}.
End Exchanges.
