(* ===== verification/RouteBindingSafe.v ===== *)
(** What a client may rely on: every table of its directory and every binding describes one
    route the host holds or held, a call through a binding reaches that route and that
    method or is refused, an acquisition ends, and it gets a route that is open. *)

From S2P Require Import Prelude.
From S2P Require Import Text.
From S2P Require Import Control.
From S2P Require Import Frame.
From S2P Require Import Handshake.
From S2P Require Import Scheduler.
From S2P Require Import Errors.
From S2P Require Import Catalog.
From S2P Require Import Host.
From S2P Require Import HostSafe.
From S2P Require Import HostCatalog.
From S2P Require Import HostCatalogSafe.
From S2P Require Import RouteBinding.

(** ** Tags of payloads *)

Definition tagged (tag : MsgType) (payload : bytes) : Prop := ∃ b rest, payload = b :: rest ∧ u8 b = as_byte tag.

Lemma tagged_eq tag tag' p : tagged tag p → tagged tag' p → tag = tag'.
Proof. intros (b & rest & -> & Hb) (b' & rest' & [= <- <-] & Hb'). destruct tag, tag'; cbn in *; (reflexivity || lia). Qed.

Lemma tagged_type tag p : tagged tag p → payload_msg_type p = Some tag.
Proof. intros (b & rest & -> & Hb). unfold payload_msg_type. cbn. rewrite Hb. by destruct tag. Qed.

Lemma encoded_tagged `{!Json T} tag (v : T) p : encode_json_payload tag v = Ok p → tagged tag p.
Proof.
  unfold encode_json_payload. destruct (to_vec v) as [json|]; [|done]. intros [= <-]. eexists _, _. split; [done|].
  apply u8_of_Z. destruct tag; cbn; lia.
Qed.

Lemma decoded_tagged `{!Json T} tag (validate : T → res CatalogError unit) p v : decode_checked tag validate p = Ok v → tagged tag p.
Proof.
  unfold decode_checked. intros (body & E & _)%bind_ok. unfold split_tag in E. destruct p as [|b rest]; [done|].
  apply bind_ok in E as (u & E & _). apply guard_err_ok, negb_false_iff, Z.eqb_eq in E. by exists b, rest.
Qed.

Lemma nil_not_tagged tag : ~ tagged tag [].
Proof. by intros (? & ? & ? & _). Qed.

(** ** Tables *)

Section Binding.
Context `{!Json RouteListRequest, !Json RouteListResponse, !Json RouteLookupRequest, !Json RouteLookupResponse, !Json RouteNack,
          !Json PendingRouteAttestationRequest, !Json PendingRouteAttestationResponse}.
Context `{!JsonTotal RouteListResponse, !JsonTotal RouteLookupResponse, !JsonTotal RouteNack,
          !JsonTotal PendingRouteAttestationResponse}.
Context (identity : ServerIdentity) (max_payload_size : Z) (describe : CatalogError → str).
Notation response := (ctrl_response identity max_payload_size describe).

(** The identity of the calls of a route, and its table. *)
Definition identity_of (spec : RouteBuildSpec) (uid : str) : RouteCallIdentity :=
  {| route_name := rs_name spec; route_uid := uid; crm_ns := rs_crm_ns spec; crm_name := rs_crm_name spec; crm_ver := rs_crm_ver spec;
     abi_hash := rs_abi_hash spec; signature_hash := rs_signature_hash spec |}.
Definition table_of (spec : RouteBuildSpec) (uid : str) : MethodTable :=
  from_entries (imap (fun index name => {| me_name := name; me_index := as_u16 index |}) (rs_method_names spec))
    (identity_of spec uid) max_payload_size.

Lemma record_table h r : from_record (route_record identity max_payload_size h r) = table_of (cr_spec r) (cr_route_uid r).
Proof. unfold from_record, table_of, route_record. cbn. by rewrite fmap_imap. Qed.

Lemma indexes_of (l : list str) (k : nat) (m0 : gmap str Z) name idx :
  NoDup l → Z.of_nat (k + length l) <= MAX_METHODS → (∀ m, m ∈ l → m0 !! m = None) →
  foldl (fun m e => <[me_name e := me_index e]> m) m0 (imap (fun i n => {| me_name := n; me_index := as_u16 (k + i) |}) l) !! name = Some idx →
  m0 !! name = Some idx ∨ ∃ i, l !! i = Some name ∧ idx = Z.of_nat (k + i).
Proof.
  revert k m0. induction l as [|x l IH]; intros k m0 Hnd Hlen H0; cbn [imap foldl]; [auto|].
  apply NoDup_cons in Hnd as [Hx Hnd]. cbn [length] in Hlen. rewrite Nat.add_0_r. intros E.
  destruct (IH (S k) (<[x := as_u16 k]> m0)) as [Hl|(i & Hi & ->)]; [done|lia| | | |].
  - intros m Hm. rewrite lookup_insert_ne by congruence. apply H0. by right.
  - rewrite <-E. f_equal. f_equal. apply imap_ext. intros i n _. cbn. do 2 f_equal. lia.
  - apply lookup_insert_Some in Hl as [[<- <-]|[_ ?]]; [|by left]. right. exists 0%nat. split; [done|].
    rewrite as_u16_small by lia. f_equal. lia.
  - right. exists (S i). split; [done|]. f_equal. lia.
Qed.

(** A binding of a route names its methods. *)
Lemma table_index spec uid name idx :
  NoDup (rs_method_names spec) → blen (rs_method_names spec) <= MAX_METHODS →
  name_to_idx (table_of spec uid) !! name = Some idx → ∃ i, rs_method_names spec !! i = Some name ∧ idx = Z.of_nat i.
Proof.
  intros Hnd Hlen E. destruct (indexes_of (rs_method_names spec) 0 ∅ name idx Hnd Hlen) as [Hx|?]; [done|exact E|done|done].
Qed.

(** ** Answers *)

(** What is known of a host in every run. *)
Record sound (h : Host) : Prop := { s_catalog : catalog_ok h; s_held : held h; s_uids : NoDup (idents h).*2 }.
Context (Hcfg : configured identity max_payload_size).

(** A table, record or attestation of a route the host holds or held. *)
Definition genuine (h : Host) (name : str) (t : MethodTable) : Prop :=
  ∃ spec uid, (spec, uid) ∈ idents h ∧ rs_name spec = name ∧ t = table_of spec uid.
Definition record_ok (h : Host) (r : RouteRecordWire) : Prop := genuine h (rr_route_name r) (from_record r).
Definition lookup_ok (h : Host) (r : RouteLookupResponse) : Prop :=
  match r with LookupReady c | LookupStale c | LookupContractMismatch c => record_ok h c | _ => True end.

Lemma resolved_record h name r : catalog_ok h → dispatcher_resolve h name = Some r → record_ok h (route_record identity max_payload_size h r).
Proof.
  intros Hc [_ Hr]%resolve_named; [|done]. exists (cr_spec r), (cr_route_uid r). split_and!; [done|done|]. apply record_table.
Qed.

Lemma lookup_response_ok h req : catalog_ok h → lookup_ok h (lookup_response identity max_payload_size h req).
Proof.
  intros Hc. unfold lookup_response. destruct (dispatcher_resolve h _) as [r|] eqn:E; [|by destruct (ho_removed h !! _)].
  apply resolved_record in E; [|done]. repeat case_match; done.
Qed.

Lemma list_response_ok h req : catalog_ok h → Forall (record_ok h) (routes (list_response identity max_payload_size h req)).
Proof.
  intros Hc. apply Forall_forall. cbn. intros x [_ Hx]%list_elem_of_filter. unfold route_records in Hx.
  apply list_elem_of_fmap in Hx as (r & -> & (name & Hr)%snapshot_in); [|done]. by eapply resolved_record.
Qed.

Lemma attested_ok h req c :
  held h → attest_response max_payload_size h req = Attested c → genuine h (pa_route_name c) (method_table_from_attestation c).
Proof.
  intros Hh. unfold attest_response, attest_pending_route. destruct (ho_pending h !! _) as [info|] eqn:Ei; [|done].
  case_bool_decide; [|done]. intros [= <-]. destruct (held_pending _ Hh _ _ Ei) as [_ Hin]. by exists (pi_spec info), (pi_route_uid info).
Qed.

Lemma or_nack_tagged tag m : (∀ b, m = Ok b → tagged tag b) →
  or_nack describe m = [] ∨ tagged tag (or_nack describe m) ∨ tagged RouteNackMsg (or_nack describe m).
Proof.
  intros H. destruct m as [b|e|]; cbn; [auto| |auto]. right. right. unfold route_catalog_nack_payload, encode_route_nack.
  destruct (encode_total RouteNackMsg (violation describe e)) as [b Eb]. rewrite Eb. exact (encoded_tagged _ _ _ Eb).
Qed.

(** The three kinds of answers have tags of their own. *)
Lemma list_payload_tagged h p :
  let q := route_list_payload identity max_payload_size describe h p in q = [] ∨ tagged RouteListAck q ∨ tagged RouteNackMsg q.
Proof. apply or_nack_tagged. intros b (req & _ & E)%bind_ok. exact (encoded_tagged _ _ _ E). Qed.

Lemma lookup_payload_tagged h p :
  let q := route_lookup_payload identity max_payload_size describe h p in q = [] ∨ tagged RouteLookupAck q ∨ tagged RouteNackMsg q.
Proof. apply or_nack_tagged. intros b (req & _ & E)%bind_ok. exact (encoded_tagged _ _ _ E). Qed.

Lemma attest_payload_tagged h p :
  let q := pending_route_attestation_payload max_payload_size describe h p in tagged PendingRouteAttestAck q.
Proof.
  unfold pending_route_attestation_payload, encode_pending_route_attestation_response. cbn zeta.
  match goal with |- context [encode_json_payload ?tag ?v] => destruct (encode_total tag v) as [b Eb]; rewrite Eb end.
  exact (encoded_tagged _ _ _ Eb).
Qed.

(** The payload a decoder accepts has its tag, so it is an answer to a request of its kind. *)
Ltac other_tag :=
  match goal with
  | Ht : tagged _ ?q, H : ?q = [] ∨ tagged _ ?q ∨ tagged _ ?q |- _ =>
      exfalso; destruct H as [H|[H|H]]; [rewrite H in Ht; by apply nil_not_tagged in Ht|..]; by apply (tagged_eq _ _ _ Ht) in H
  | Ht : tagged _ ?q, H : tagged _ ?q |- _ => exfalso; by apply (tagged_eq _ _ _ Ht) in H
  end.

Lemma answer_lookup h p q resp :
  sound h → response h p = Some q → decode_route_lookup_response q = Ok resp → lookup_ok h resp.
Proof.
  intros [Hc Hh _] Hq Hd. pose proof (decoded_tagged _ _ _ _ Hd) as Ht. unfold ctrl_response in Hq.
  pose proof (list_payload_tagged h p) as Hl. pose proof (lookup_payload_tagged h p) as Hk. pose proof (attest_payload_tagged h p) as Ha.
  cbn zeta in *. repeat case_match; simplify_eq; [other_tag|other_tag|].
  destruct (decode_route_lookup_request p) as [req|e|] eqn:Er.
  - rewrite (lookup_answer_read _ _ _ _ _ _ Hcfg Hc Hh Er) in Hd. injection Hd as <-. by apply lookup_response_ok.
  - exfalso. unfold route_lookup_payload in Ht. rewrite Er in Ht. cbn in Ht.
    pose proof (decoded_tagged _ _ _ _ (nack_readable describe e)) as Hn. by apply (tagged_eq _ _ _ Ht) in Hn.
  - exfalso. unfold route_lookup_payload in Ht. rewrite Er in Ht. by apply nil_not_tagged in Ht.
Qed.

Lemma answer_list h p q resp :
  sound h → response h p = Some q → decode_route_list_response q = Ok resp → Forall (record_ok h) (routes resp).
Proof.
  intros [Hc Hh Hu] Hq Hd. pose proof (decoded_tagged _ _ _ _ Hd) as Ht. unfold ctrl_response in Hq.
  pose proof (list_payload_tagged h p) as Hl. pose proof (lookup_payload_tagged h p) as Hk. pose proof (attest_payload_tagged h p) as Ha.
  cbn zeta in *. repeat case_match; simplify_eq; [other_tag| |other_tag].
  destruct (decode_route_list_request p) as [req|e|] eqn:Er.
  - rewrite (list_answer_read _ _ _ _ _ _ Hcfg Hc Hh Hu Er) in Hd. injection Hd as <-. by apply list_response_ok.
  - exfalso. unfold route_list_payload in Ht. rewrite Er in Ht. cbn in Ht.
    pose proof (decoded_tagged _ _ _ _ (nack_readable describe e)) as Hn. by apply (tagged_eq _ _ _ Ht) in Hn.
  - exfalso. unfold route_list_payload in Ht. rewrite Er in Ht. by apply nil_not_tagged in Ht.
Qed.

Lemma answer_attest h p q c :
  sound h → response h p = Some q → decode_pending_route_attestation_response q = Ok (Attested c) →
  genuine h (pa_route_name c) (method_table_from_attestation c).
Proof.
  intros [Hc Hh _] Hq Hd. pose proof (decoded_tagged _ _ _ _ Hd) as Ht. unfold ctrl_response in Hq.
  pose proof (list_payload_tagged h p) as Hl. pose proof (lookup_payload_tagged h p) as Hk. cbn zeta in *.
  repeat case_match; simplify_eq; [|other_tag|other_tag].
  destruct (decode_pending_route_attestation_request p) as [req|e|] eqn:Er.
  - rewrite (attest_answer_read _ _ _ _ _ _ Hcfg Hh Er) in Hd. injection Hd as Hd. by eapply attested_ok.
  - by rewrite (attest_refusal_read _ _ _ _ _ Er) in Hd.
  - exfalso. unfold pending_route_attestation_payload in Hd. rewrite Er in Hd.
    destruct (encode_total PendingRouteAttestAck (Rejected (text "invalid") [])) as [b Eb].
    unfold encode_pending_route_attestation_response in Hd. rewrite Eb in Hd.
    unfold decode_pending_route_attestation_response in Hd. by rewrite (decode_encoded _ _ _ _ Eb) in Hd.
Qed.

(** ** The directory *)

Definition dir_ok (h : Host) (d : gmap str MethodTable) : Prop := map_Forall (genuine h) d.

Lemma genuine_mono h h' name t : (∀ x, x ∈ idents h → x ∈ idents h') → genuine h name t → genuine h' name t.
Proof using Type. intros H (spec & uid & Hin & ? & ?). exists spec, uid. auto. Qed.

Lemma seed_ok h : catalog_ok h → dir_ok h (seed_from_handshake (open_routes max_payload_size h)).
Proof using Type.
  intros Hc. unfold seed_from_handshake.
  assert (H : Forall (fun r => genuine h (ri_name r) (from_route r)) (open_routes max_payload_size h)).
  { apply Forall_fmap, Forall_forall. intros r [_ (name & Hr)%snapshot_in]%list_elem_of_filter; [|done]. cbn.
    apply resolve_named in Hr as [_ Hr]; [|done]. by exists (cr_spec r), (cr_route_uid r). }
  assert (H0 : dir_ok h ∅) by apply map_Forall_empty. revert H0. generalize (∅ : gmap str MethodTable).
  induction H as [|r l Hr _ IH]; intros d Hd; cbn [foldl]; [done|]. apply IH. by apply map_Forall_insert_2.
Qed.

Lemma apply_record_ok h d r : dir_ok h d → record_ok h r → dir_ok h (apply_record d r).
Proof using Type. intros Hd Hr. unfold apply_record. destruct (rr_state r); [by apply map_Forall_insert_2|by apply map_Forall_delete]. Qed.

Lemma rebuild_ok h resp : Forall (record_ok h) (routes resp) → dir_ok h (rebuild_from_list resp).
Proof using Type.
  unfold rebuild_from_list. assert (H0 : dir_ok h ∅) by apply map_Forall_empty. revert H0. generalize (∅ : gmap str MethodTable).
  intros d Hd Hl. revert d Hd. induction Hl as [|r l Hr _ IH]; intros d Hd; cbn [foldl]; [done|]. apply IH. by apply apply_record_ok.
Qed.

(** What a binding for a contract has. *)
Definition satisfies (b : RouteBinding) (e : ExpectedRouteContract) : Prop :=
  let i := mt_identity b in
  expected_contract_wire e = {| rc_route_name := route_name i; rc_crm_ns := crm_ns i; rc_crm_name := crm_name i; rc_crm_ver := crm_ver i;
                                rc_abi_hash := abi_hash i; rc_signature_hash := signature_hash i |}.

Lemma validated_satisfies t e :
  validate_method_table_contract t e = Ok tt → route_name (mt_identity t) = erc_route_name e → satisfies t e.
Proof using Type.
  unfold validate_method_table_contract. intros H%guard_err_ok%negb_false_iff Hn.
  rewrite !andb_true_iff, !bool_decide_eq_true in H. destruct H as ((((H1 & H2) & H3) & H4) & H5).
  unfold satisfies, expected_contract_wire. by rewrite H1, H2, H3, H4, H5, Hn.
Qed.

Lemma genuine_name h name t : genuine h name t → route_name (mt_identity t) = name.
Proof using Type. by intros (spec & uid & _ & ? & ->). Qed.

Lemma bind_cached_ok h d e b :
  dir_ok h d → bind_cached_route d e = Ok b → genuine h (erc_route_name e) b ∧ satisfies b e.
Proof using Type.
  intros Hd (u & _ & H)%bind_ok. apply bind_ok in H as (t & Ht & H). apply bind_ok in H as ([] & Hv & [= <-]).
  unfold bound_route_table in Ht. destruct (d !! _) as [t'|] eqn:E; [|done]. injection Ht as <-. pose proof (Hd _ _ E) as Hg. cbn in Hg.
  split; [done|]. apply validated_satisfies; [done|]. by eapply genuine_name.
Qed.

Lemma attested_binding_ok h resp e b :
  Forall (record_ok h) (routes resp) → attested_binding e resp = Ok b → genuine h (erc_route_name e) b ∧ satisfies b e.
Proof using Type.
  intros Hl. unfold attested_binding. destruct (List.find _ _) as [r|] eqn:E; [|done]. apply find_some in E as [Hr Hn%bool_decide_eq_true].
  rewrite Forall_forall in Hl. apply list_elem_of_In, Hl in Hr. unfold record_ok in Hr. rewrite Hn in Hr.
  intros ([] & Hv & H)%bind_ok. assert (b = from_record r) as -> by (repeat case_match; congruence).
  split; [done|]. apply validated_satisfies; [done|]. by eapply genuine_name.
Qed.

(** ** Tasks *)

Definition op_expected (op : Op) : option ExpectedRouteContract :=
  match op with
  | LookupRoute e | AcquireRoute e | AcquireRouteToken e _ | AttestRegistration e => Some e
  | RebuildCatalog | AcquirePending _ _ => None
  end.

Definition binding_ok (h : Host) (op : Op) (b : RouteBinding) : Prop :=
  genuine h (route_name (mt_identity b)) b ∧ (∀ e, op_expected op = Some e → satisfies b e)
  ∧ (∀ e uid, op = AcquireRouteToken e uid → route_uid (mt_identity b) = uid).

Definition task_ok (h : Host) (t : Task) : Prop :=
  match tk_pc t with
  | Waiting p => tagged RouteLookup p ∨ tagged RouteList p ∨ tagged PendingRouteAttest p
  | Answered q => ∃ h0 p, sound h0 ∧ response h0 p = Some q ∧ ∀ x, x ∈ idents h0 → x ∈ idents h
  | BindingAttested _ => op_expected (tk_op t) = None
  | Done (Ok (Some b)) => binding_ok h (tk_op t) b
  | _ => True
  end.

Lemma task_mono h h' t : (∀ x, x ∈ idents h → x ∈ idents h') → task_ok h t → task_ok h' t.
Proof using Type.
  intros H. unfold task_ok. destruct (tk_pc t) as [| |q| | | |[[b|]| |]]; try done.
  - intros (h0 & p & Hs & Hq & Hx). exists h0, p. auto.
  - intros [Hg Hb]. split; [by eapply genuine_mono|done].
Qed.

Lemma looked_up_ok h t r : task_ok h (looked_up t r).
Proof using Type. unfold looked_up. by destruct (tk_op t), r as [[]|[]|]; cbn; try done; destruct (tk_lookups t). Qed.

Lemma bound_ok h t r : (∀ b, r = Ok b → binding_ok h (tk_op t) b) → task_ok h (bound t r).
Proof using Type. intros H. unfold bound. destruct r as [b|[]|]; cbn; try done; [by apply H|by destruct (tk_bindings t)]. Qed.

Lemma finish_ok h t r : (∀ b, r = Ok (Some b) → binding_ok h (tk_op t) b) → task_ok h (finish t r).
Proof using Type. intros H. destruct r as [[b|]| |]; cbn; try done. by apply H. Qed.

Lemma begin_op_ok h op : task_ok h (begin_op op).
Proof using Type. destruct op; cbn; try done; by destruct (check_expected e). Qed.

Lemma request_tagged d op p : request_payload d op = Ok p → tagged RouteLookup p ∨ tagged RouteList p ∨ tagged PendingRouteAttest p.
Proof using Type.
  unfold request_payload. intros H%map_err_ok.
  destruct op; (try (left; exact (encoded_tagged _ _ _ H))); (try (right; left; exact (encoded_tagged _ _ _ H)));
    right; right; exact (encoded_tagged _ _ _ H).
Qed.

Lemma apply_lookup_ok h h0 d t p q :
  sound h0 → response h0 p = Some q → (∀ x, x ∈ idents h0 → x ∈ idents h) → dir_ok h d →
  dir_ok h (apply_lookup d t q).1 ∧ task_ok h (apply_lookup d t q).2.
Proof using All.
  intros Hs Hq Hx Hd. unfold apply_lookup. case_bool_decide; [split; [done|apply looked_up_ok]|].
  destruct (decode_route_lookup_response q) as [resp|e|] eqn:E; [|split; [done|apply looked_up_ok]..].
  pose proof (answer_lookup _ _ _ _ Hs Hq E) as Hok.
  destruct resp; cbn; (split; [|(done || apply looked_up_ok)]); try (by apply map_Forall_delete);
    apply apply_record_ok; try done; by eapply genuine_mono.
Qed.

Lemma decode_list_ok h h0 p q resp :
  sound h0 → response h0 p = Some q → (∀ x, x ∈ idents h0 → x ∈ idents h) → decode_list q = Ok resp → Forall (record_ok h) (routes resp).
Proof using All.
  intros Hs Hq Hx (u & _ & H%map_err_ok)%bind_ok. eapply Forall_impl; [by eapply answer_list|]. intros r. by apply genuine_mono.
Qed.

Lemma apply_answer_ok h h0 d t p q :
  sound h0 → response h0 p = Some q → (∀ x, x ∈ idents h0 → x ∈ idents h) → dir_ok h d →
  dir_ok h (apply_answer d t q).1 ∧ task_ok h (apply_answer d t q).2.
Proof using All.
  intros Hs Hq Hx Hd. unfold apply_answer. destruct (tk_op t) as [e|e|e uid| |e|name token] eqn:Eop; try (by eapply apply_lookup_ok).
  - destruct (decode_list q) as [resp|x|] eqn:E; (split; [|by apply finish_ok]); try done. cbn.
    apply rebuild_ok. by eapply decode_list_ok.
  - split; [done|]. apply finish_ok. intros b (resp & E & (b' & Hb & [= <-])%bind_ok)%bind_ok.
    destruct (attested_binding_ok h resp e b') as [Hg Hb']; [by eapply decode_list_ok|done|].
    rewrite Eop. split_and!; [by rewrite (genuine_name _ _ _ Hg)|by intros ? [= <-]|done].
  - destruct (decode_pending_route_attestation_response q) as [[c|code m]|x|] eqn:E; cbn; (split; [|done || (unfold task_ok; cbn; by rewrite Eop)]); try done.
    apply map_Forall_insert_2; [|done]. eapply genuine_mono; [exact Hx|]. by eapply answer_attest.
Qed.

Lemma looked_up_op t r : tk_op (looked_up t r) = tk_op t.
Proof using Type. unfold looked_up. destruct (tk_op t) eqn:E, r as [[]|[]|]; cbn; try done; by destruct (tk_lookups t); cbn. Qed.

Lemma bound_op t r : tk_op (bound t r) = tk_op t.
Proof using Type. unfold bound; destruct r as [|[]|]; try done; by destruct (tk_bindings t). Qed.

Lemma apply_answer_op d t q : tk_op (apply_answer d t q).2 = tk_op t.
Proof using Type. unfold apply_answer, apply_lookup. repeat case_match; cbn; try done; by rewrite looked_up_op. Qed.

Lemma task_step_op d t late d' t' : task_step d t late = Some (d', t') → tk_op t' = tk_op t.
Proof using Type.
  unfold task_step. intros H. destruct (tk_pc t) as [|p|q| | |e|r]; try done; injection H as H; destruct late; try (by injection H as <- <-).
  - repeat case_match; by simplify_eq.
  - by rewrite <-(apply_answer_op d t q), H.
  - repeat case_match; simplify_eq; try done; by rewrite looked_up_op.
  - repeat case_match; simplify_eq; try done; by rewrite bound_op.
Qed.

Lemma bound_binding h d t : dir_ok h d →
  (∀ e b, tk_op t = AcquireRoute e → bind_cached_route d e = Ok b → binding_ok h (tk_op t) b)
  ∧ (∀ e uid b, tk_op t = AcquireRouteToken e uid → bind_cached_route_token d e uid = Ok b → binding_ok h (tk_op t) b)
  ∧ (∀ e b, op_expected (tk_op t) = None → bind_cached_route d e = Ok b → binding_ok h (tk_op t) b).
Proof using Type.
  intros Hd. split_and!.
  - intros e b -> [Hg Hs]%(bind_cached_ok h); [|done]. split_and!; [by rewrite (genuine_name _ _ _ Hg)|by intros ? [= <-]|done].
  - intros e uid b -> (t1 & [Hg Hs]%(bind_cached_ok h) & H)%bind_ok; [|done].
    apply bind_ok in H as (u & Hu%guard_err_ok%negb_false_iff%bool_decide_eq_true & [= <-]).
    split_and!; [by rewrite (genuine_name _ _ _ Hg)|by intros ? [= <-]|by intros ? ? [= <- <-]].
  - intros e b Ho [Hg _]%(bind_cached_ok h); [|done]. split_and!; [by rewrite (genuine_name _ _ _ Hg)|congruence|by intros ? ? E; rewrite E in Ho].
Qed.

Lemma task_step_ok h d t late d' t' :
  dir_ok h d → task_ok h t → task_step d t late = Some (d', t') → dir_ok h d' ∧ task_ok h t'.
Proof using All.
  intros Hd Ht. destruct (bound_binding h d t Hd) as (Hb1 & Hb2 & Hb3). unfold task_step. unfold task_ok in Ht.
  destruct (tk_pc t) as [|p|q| | |e|r]; try done.
  all: intros H; injection H as H; destruct late; [injection H as <- <-; done|].
  - destruct (request_payload d (tk_op t)) as [p|x|] eqn:Er; injection H as <- <-; try done. split; [done|]. by apply request_tagged in Er.
  - destruct Ht as (h0 & p & Hs & Hq & Hx). pose proof (apply_answer_ok h h0 d t p q Hs Hq Hx Hd) as Hok. by rewrite H in Hok.
  - repeat case_match; simplify_eq; (split; [done|]); try done; apply looked_up_ok.
  - destruct (tk_op t) as [e|e|e uid| |e|name token] eqn:Eop; simplify_eq; (split; [done|]); try done; apply bound_ok; rewrite Eop; intros b Hb;
      [by apply (Hb1 e)|by apply (Hb2 e uid)].
  - injection H as <- <-. split; [done|]. apply finish_ok. intros b (b' & Hb & [= <-])%bind_ok. eauto.
Qed.

(** ** Runs *)

Notation step := (bind_step identity max_payload_size describe).
Notation run := (bind_run identity max_payload_size describe).

Record settled (w : World) : Prop := {
  w_sound : sound (host w);
  w_dir : dir_ok (host w) (directory w);
  w_tasks : Forall (task_ok (host w)) (tasks w) }.

Definition host_calls (l : list Step) : list HostCall := omap (fun s => match s with HostStep c => Some c | _ => None end) l.

Lemma settled_task w n d t : settled w → dir_ok (host w) d → task_ok (host w) t → settled (set_task w n d t).
Proof using Type. intros [Hs _ Ht] Hd Hn. split; cbn; [done|done|]. by apply Forall_insert. Qed.

Lemma task_at w n t : settled w → tasks w !! n = Some t → task_ok (host w) t.
Proof using Type. intros [_ _ Ht]. by apply Forall_lookup_1. Qed.

Lemma settled_client w s w' : (∀ c, s ≠ HostStep c) → settled w → step w s = Some w' → settled w' ∧ host w' = host w.
Proof using All.
  intros Hn Hw. pose proof Hw as [Hs Hd Ht]. destruct s as [c|op|n late|n|n e]; [by destruct (Hn c)|..]; cbn [bind_step].
  - intros [= <-]. split; [|done]. split; cbn; [done|done|]. apply Forall_app_2; [done|]. apply Forall_singleton, begin_op_ok.
  - intros (t & Et & H)%bind_Some. apply bind_Some in H as ([d t'] & E & [= <-]). split; [|done].
    destruct (task_step_ok (host w) _ _ _ _ _ Hd (task_at _ _ _ Hw Et) E). by apply settled_task.
  - intros (t & Et & H)%bind_Some. destruct (tk_pc t) as [|p| | | | |]; try done. apply bind_Some in H as (q & Eq & [= <-]).
    split; [|done]. apply settled_task; [done|done|]. exists (host w), p. auto.
  - intros (t & Et & H)%bind_Some. destruct (is_done _); [done|]. injection H as <-. split; [|done]. by apply settled_task.
Qed.

Lemma settled_host w c w' l :
  settled w → drawn_well c → NoDup ((idents (host w)).*2 ++ omap drawn (c :: l)) → step w (HostStep c) = Some w' →
  settled w' ∧ NoDup ((idents (host w')).*2 ++ omap drawn l) ∧ host_step (host w) c = Ok (host w').
Proof using Type.
  intros [[Hc Hh _] Hd Ht] Hw Hnd. cbn [bind_step]. destruct (host_step (host w) c) as [h'|[]|] eqn:E; [|done]. intros [= <-]. cbn.
  pose proof (distinct_step _ _ _ _ Hc Hnd E) as Hnd'. split_and!; [|done|done].
  assert (Hi : ∀ x, x ∈ idents (host w) → x ∈ idents h') by (intros x; by apply (step_idents _ _ _ _ Hc E)).
  split; cbn.
  - split; [by eapply catalog_step|by eapply held_step|by apply NoDup_app in Hnd' as [? _]].
  - eapply map_Forall_impl; [exact Hd|]. intros ? ?. by apply genuine_mono.
  - eapply Forall_impl; [exact Ht|]. intros ?. by apply task_mono.
Qed.

Lemma settled_run l w w' :
  settled w → Forall drawn_well (host_calls l) → NoDup ((idents (host w)).*2 ++ omap drawn (host_calls l)) →
  run w l = Some w' → settled w'.
Proof using All.
  revert w. induction l as [|s l IH]; intros w Hw Hl Hnd; cbn [bind_run]; [by intros [= <-]|].
  intros (w1 & E & Hrun)%bind_Some. destruct s as [c|op|n late|n|n e]; cbn in Hl.
  { apply Forall_cons in Hl as [Hc Hl]. destruct (settled_host w c w1 (host_calls l)) as (Hw1 & Hnd1 & _); [done..|]. by apply (IH w1). }
  all: apply settled_client in E as [Hw1 Eh]; [|done|done]; apply (IH w1); try done; by rewrite Eh.
Qed.

(** A client that connected to a host that has run: it read the acknowledgement the host
    wrote. *)
Definition joined (l : list HostCall) (w : World) : Prop :=
  ∃ h native client prefix ack hs,
    host_run Server_new l = Ok h ∧ name_text prefix
    ∧ handshake_ack identity max_payload_size h native client prefix = Ok ack ∧ decode_handshake ack true = Ok hs
    ∧ w = connected h hs.

Lemma joined_settled l w :
  Forall drawn_well l → NoDup (omap drawn l) → joined l w → settled w ∧ host_run Server_new l = Ok (host w).
Proof using All.
  intros Hl Hnd (h & native & client & prefix & ack & hs & Hrun & Hp & Ha & Hd & ->).
  destruct (reachable l h Hl Hnd Hrun) as (Hc & Hh & Hu). split; [|done].
  destruct (handshake_announces_open_routes identity max_payload_size l h native client prefix Hcfg Hp Hl Hrun)
    as (ack' & caps & Ha' & Hd' & _). rewrite Ha in Ha'. injection Ha' as <-. rewrite Hd in Hd'. injection Hd' as ->.
  split; cbn; [by split| |done]. by apply seed_ok.
Qed.

Lemma uid_names_spec (l : list (RouteBuildSpec * str)) s s' u : NoDup l.*2 → (s, u) ∈ l → (s', u) ∈ l → s = s'.
Proof using Type.
  intros Hnd [i Hi]%list_elem_of_lookup [j Hj]%list_elem_of_lookup.
  assert (i = j) as -> by (apply (NoDup_lookup _ _ _ u Hnd); rewrite list_lookup_fmap, ?Hi, ?Hj; done). congruence.
Qed.

Lemma reserve_no_panic inner a s m gen : reserve_pending_in_generation inner a s m gen ≠ Panic.
Proof using Type.
  unfold reserve_pending_in_generation, reserve_pending_with_generation, check_accepted_admission, check_accepted, guard_err.
  destruct (negb _); cbn; [done|]. destruct (bool_decide _); cbn; [done|]. destruct (negb _); cbn; [done|].
  destruct (max_pending _) as [limit|]; cbn; [|done]. by destruct (limit <=? _).
Qed.

(** A route of the dispatcher with the identity a call carries is the route it is meant for,
    and the admission of calls compares nothing else. *)
Lemma admission_of_target h spec uid inner gen idx :
  sound h → (spec, uid) ∈ idents h → 0 <= idx < blen (rs_method_names spec) →
  match reserve_accepted_route_execution inner h gen (identity_of spec uid) idx with
  | Ok _ | Err (AdmAcquire _) =>
      ∃ r, dispatcher_resolve h (rs_name spec) = Some r ∧ cr_spec r = spec ∧ cr_route_uid r = uid
  | Err (AdmStale _ _ _) | Err (AdmContractMismatch _ _) =>
      ∃ r, dispatcher_resolve h (rs_name spec) = Some r ∧ cr_route_uid r ≠ uid
  | Err (AdmRemoved _ _) | Err (AdmNotFound _) => dispatcher_resolve h (rs_name spec) = None
  | Err (AdmUnknownMethod _ _) | Panic => False
  end.
Proof using Type.
  intros [Hc Hh Hu] Hin Hidx. unfold reserve_accepted_route_execution. cbn [route_name identity_of].
  destruct (dispatcher_resolve h (rs_name spec)) as [r|] eqn:Er; [|by destruct (ho_removed h !! _)].
  pose proof (resolve_named _ _ _ Hc Er) as [Hn Hr].
  assert (Hsame : cr_route_uid r = uid → cr_spec r = spec).
  { intros <-. by apply (uid_names_spec (idents h) _ _ (cr_route_uid r)). }
  destruct (same_contract r (identity_of spec uid)) eqn:Ec; cbn [negb guard_err res_bind].
  - case_bool_decide as Eu; cbn [negb guard_err res_bind]; [|by exists r]. cbn in Eu. specialize (Hsame Eu).
    unfold has_method_index. rewrite Hsame, (proj2 (Z.ltb_lt _ _)) by lia. cbn [negb guard_err res_bind].
    unfold map_err. destruct (reserve_pending_in_generation _ _ _ _ _) as [x|e|] eqn:E; [by exists r|by exists r|].
    by apply reserve_no_panic in E.
  - exists r. split; [done|]. intros Eu. specialize (Hsame Eu). rewrite (same_contract_iff r (identity_of spec uid) Hn), bool_decide_eq_false in Ec.
    apply Ec. by rewrite Hsame.
Qed.

Lemma run_settled l w0 steps w :
  Forall drawn_well (l ++ host_calls steps) → NoDup (omap drawn (l ++ host_calls steps)) → joined l w0 → run w0 steps = Some w → settled w.
Proof using All.
  intros [Hl Hs]%Forall_app Hnd Hj Hrun. rewrite omap_app in Hnd. pose proof Hnd as (Hnd1 & _ & _)%NoDup_app.
  destruct (joined_settled l w0 Hl Hnd1 Hj) as [Hw0 Hrun0]. apply (settled_run steps w0); try done.
  apply (distinct_run_app l (host_calls steps) Server_new); [apply catalog_new| |done]. by rewrite omap_app.
Qed.

(** C21 A call through a binding goes to the method it names of the one route the binding was
    acquired for, or is refused. However lookups, acquisitions, attestations and rebuilds of
    a client interleave with each other and with the calls of its host, a binding has the
    contract and the identity that were asked for; the index it gives for a name is that of
    the name in the route; the call is admitted, or refused for the state of the route, only
    where that very route is registered, is refused as stale or of another contract only
    where another route has the name, and is never refused for its index. *)
Theorem binding_calls_its_route l w0 steps w n t b name idx i limit inner gen :
  Forall drawn_well (l ++ host_calls steps) → NoDup (omap drawn (l ++ host_calls steps)) → joined l w0 → run w0 steps = Some w →
  tasks w !! n = Some t → tk_pc t = Done (Ok (Some b)) → call_target_for b name = Ok (idx, i, limit) →
  ∃ spec,
    (spec, route_uid i) ∈ idents (host w) ∧ rs_method_names spec !! Z.to_nat idx = Some name ∧ limit = max_payload_size
    ∧ (∀ e, op_expected (tk_op t) = Some e → contract_wire spec = expected_contract_wire e)
    ∧ (∀ e uid, tk_op t = AcquireRouteToken e uid → route_uid i = uid)
    ∧ match reserve_accepted_route_execution inner (host w) gen i idx with
      | Ok _ | Err (AdmAcquire _) =>
          ∃ r, dispatcher_resolve (host w) (rs_name spec) = Some r ∧ cr_spec r = spec ∧ cr_route_uid r = route_uid i
      | Err (AdmStale _ _ _) | Err (AdmContractMismatch _ _) =>
          ∃ r, dispatcher_resolve (host w) (rs_name spec) = Some r ∧ cr_route_uid r ≠ route_uid i
      | Err (AdmRemoved _ _) | Err (AdmNotFound _) => dispatcher_resolve (host w) (rs_name spec) = None
      | Err (AdmUnknownMethod _ _) | Panic => False
      end.
Proof using All.
  intros Hl Hnd Hj Hrun Et Epc Ec. pose proof (run_settled _ _ _ _ Hl Hnd Hj Hrun) as Hw.
  pose proof (task_at _ _ _ Hw Et) as Ht. unfold task_ok in Ht. rewrite Epc in Ht. destruct Ht as ((spec & uid & Hin & Hn & ->) & He & Hu).
  unfold call_target_for in Ec. destruct (name_to_idx _ !! name) as [idx'|] eqn:Ei; [|done]. injection Ec as <- <- <-.
  destruct (held_routes _ (s_held _ (w_sound _ Hw)) _ _ Hin) as [(_ & _ & _ & _ & Hlen & _)%build_route_ok (_ & Hnd' & _)].
  apply table_index in Ei as (k & Hk & ->); [|done..]. exists spec. cbn [mt_identity table_of from_entries].
  split_and!; [done|by rewrite Nat2Z.id|done| |done|].
  - intros e Hop. rewrite (He e Hop). done.
  - apply admission_of_target; [apply Hw|done|]. apply lookup_lt_Some in Hk. unfold blen. lia.
Qed.

(** ** Ends *)

(** The turns a task has left: four for a lookup and one for a binding. *)
Definition rank (t : Task) : nat :=
  let stage :=
    match tk_pc t with
    | Done _ => 0 | Binding | BindingAttested _ => 1 | Validating => 2 | Answered _ => 3 | Waiting _ => 4 | Asking => 5
    end%nat in
  if is_done (tk_pc t) then 0 else (25 * length (tk_bindings t) + 4 * length (tk_lookups t) + stage)%nat.
Definition left_to (w : World) (n : nat) : nat := match tasks w !! n with Some t => rank t | None => 150 end.

Definition own (n : nat) (s : Step) : bool :=
  match s with Advance m _ | Answer m | Abandon m _ => (m =? n)%nat | HostStep _ | Begin _ => false end.
Definition turns (n : nat) (l : list Step) : nat := length (filter (fun s => own n s = true) l).

Lemma rank_looked_up t r : tk_pc t = Validating ∨ (∃ q, tk_pc t = Answered q) → (rank (looked_up t r) < rank t)%nat.
Proof using Type.
  intros H. assert (Hp : (2 <= rank t)%nat) by (unfold rank; destruct H as [->|[q ->]]; cbn; lia).
  assert (Hr : (25 * length (tk_bindings t) + 4 * length (tk_lookups t) + 2 <= rank t)%nat)
    by (unfold rank; destruct H as [->|[q ->]]; cbn; lia).
  unfold looked_up. destruct (tk_op t), r as [[]|[]|]; try (cbn; lia);
    try (destruct (tk_lookups t) eqn:El; [cbn; lia|]; unfold rank at 1; cbn [tk_pc tk_lookups tk_bindings is_done length] in *; lia);
    unfold rank at 1; cbn [tk_pc tk_lookups tk_bindings is_done at_pc] in *; lia.
Qed.

Lemma rank_bound t r : tk_pc t = Binding → (rank (bound t r) < rank t)%nat.
Proof using Type.
  intros H. unfold rank at 2. rewrite H. cbn [is_done]. unfold bound. destruct r as [b|[]|]; try (cbn; lia).
  destruct (tk_bindings t) eqn:El; [cbn; lia|]. unfold rank. cbn. lia.
Qed.

Lemma rank_step d t late d' t' : task_step d t late = Some (d', t') → (rank t' < rank t)%nat.
Proof using Type.
  unfold task_step. assert (Hf : ∀ r, rank (finish t r) = 0%nat) by done.
  assert (H0 : is_done (tk_pc t) = false → (0 < rank t)%nat).
  { intros Hd. unfold rank. rewrite Hd. destruct (tk_pc t); cbn in *; (done || lia). }
  intros H. destruct (tk_pc t) as [|p|q| | |e|r] eqn:Epc; try done; specialize (H0 ltac:(done)); injection H as H;
    (destruct late; [injection H as <- <-; rewrite ?Hf; done|]).
  - destruct (request_payload d _); injection H as <- <-; rewrite ?Hf; try done. unfold rank. rewrite Epc. cbn. lia.
  - unfold apply_answer, apply_lookup in H. repeat case_match; simplify_eq; rewrite ?Hf; try done;
      try (apply rank_looked_up; eauto); unfold rank; rewrite Epc; cbn; lia.
  - repeat case_match; simplify_eq; rewrite ?Hf; try done; apply rank_looked_up; auto.
  - repeat case_match; simplify_eq; rewrite ?Hf; try done; by apply rank_bound.
  - injection H as <- <-. by rewrite Hf.
Qed.

Lemma begin_rank op : (rank (begin_op op) <= 150)%nat.
Proof using Type. destruct op; cbn; try lia; destruct (check_expected e); cbn; lia. Qed.

Lemma left_set w m d t n : (rank t <= left_to w m)%nat → tasks w !! m <> None →
  (left_to (set_task w m d t) n <= if (m =? n)%nat then rank t else left_to w n)%nat.
Proof using Type.
  intros Hr Hm. unfold left_to, set_task. cbn. destruct (Nat.eqb_spec m n) as [->|Hne].
  - rewrite list_lookup_insert_eq; [done|]. apply not_eq_None_Some in Hm. by apply lookup_lt_is_Some.
  - by rewrite list_lookup_insert_ne.
Qed.

Lemma left_step w s w' n : step w s = Some w' → (left_to w' n + (if own n s then 1 else 0) <= left_to w n)%nat.
Proof using Type.
  assert (Hset : ∀ m d t t', tasks w !! m = Some t → (rank t' < rank t)%nat →
    (left_to (set_task w m d t') n + (if (m =? n)%nat then 1 else 0) <= left_to w n)%nat).
  { intros m d t t' Et Hr. assert (Hl : left_to w m = rank t) by (unfold left_to; by rewrite Et).
    pose proof (left_set w m d t' n ltac:(lia) ltac:(congruence)) as H. destruct (Nat.eqb_spec m n) as [->|]; lia. }
  destruct s as [c|op|m late|m|m e]; cbn [bind_step own].
  - destruct (host_step _ _); [|done..]. intros [= <-]. unfold left_to. cbn. lia.
  - intros [= <-]. unfold left_to. cbn. destruct (tasks w !! n) as [t|] eqn:E; [rewrite (lookup_app_l_Some _ _ _ _ E); lia|].
    destruct ((tasks w ++ [begin_op op]) !! n) as [t|] eqn:E'; [|lia]. rewrite lookup_app, E in E'. apply list_lookup_singleton_Some in E' as [_ <-].
    pose proof (begin_rank op). lia.
  - intros (t & Et & H)%bind_Some. apply bind_Some in H as ([d t'] & E & [= <-]). apply (Hset m d t t' Et). by eapply rank_step.
  - intros (t & Et & H)%bind_Some. destruct (tk_pc t) as [|p| | | | |] eqn:Epc; try done. apply bind_Some in H as (q & _ & [= <-]).
    apply (Hset m _ t _ Et). unfold rank. rewrite Epc. cbn. lia.
  - intros (t & Et & H)%bind_Some. destruct (is_done _) eqn:Ed; [done|]. injection H as <-. apply (Hset m _ t _ Et). cbn.
    unfold rank. rewrite Ed. destruct (tk_pc t); cbn in *; try done; lia.
Qed.

Lemma left_run l w w' n : run w l = Some w' → (left_to w' n + turns n l <= left_to w n)%nat.
Proof using Type.
  revert w. induction l as [|s l IH]; intros w; cbn [bind_run]; [intros [= <-]; cbn; lia|].
  intros (w1 & E & Hrun)%bind_Some. apply IH in Hrun. apply (left_step _ _ _ n) in E. unfold turns in *. rewrite filter_cons.
  destruct (decide (own n s = true)) as [Ho|Ho]; cbn [length]; [rewrite Ho in E; lia|]. apply not_true_iff_false in Ho. rewrite Ho in E. lia.
Qed.

Lemma waiting_answered w n t p : settled w → tasks w !! n = Some t → tk_pc t = Waiting p → is_Some (step w (Answer n)).
Proof using Type.
  intros Hw Et Epc. pose proof (task_at _ _ _ Hw Et) as Ht. unfold task_ok in Ht. rewrite Epc in Ht. cbn [bind_step]. rewrite Et. cbn. rewrite Epc.
  unfold ctrl_response. fold (payload_msg_type p).
  destruct Ht as [Ht|[Ht|Ht]]; apply tagged_type in Ht; rewrite Ht; by eexists.
Qed.

Lemma task_moves d t late :
  (match tk_pc t with Waiting _ | Done _ => false | _ => true end) = true → ∃ d' t', task_step d t late = Some (d', t').
Proof using Type.
  unfold task_step. intros H. destruct (tk_pc t); try done;
    match goal with |- ∃ d t, Some ?p = _ => exists p.1, p.2; by destruct p end.
Qed.

(** C33 Every operation of a client on its routes ends: it takes at most 150 turns of its own
    in any run, and until it ends its next one can be taken, the answer of the host to what
    it asks included. *)
Theorem operations_end l w0 steps w n t :
  Forall drawn_well (l ++ host_calls steps) → NoDup (omap drawn (l ++ host_calls steps)) → joined l w0 → run w0 steps = Some w →
  tasks w !! n = Some t →
  (turns n steps <= 150)%nat
  ∧ (is_done (tk_pc t) = true ∨ is_Some (step w (Advance n false)) ∨ is_Some (step w (Answer n))).
Proof using All.
  intros Hl Hnd Hj Hrun Et. pose proof (run_settled _ _ _ _ Hl Hnd Hj Hrun) as Hw. split.
  - destruct Hj as (h & ? & ? & ? & ? & hs & _ & _ & _ & _ & ->). apply (left_run _ _ _ n) in Hrun.
    change (left_to (connected h hs) n) with 150%nat in Hrun. lia.
  - destruct (tk_pc t) as [|p|q| | |e|r] eqn:Epc; try (by left).
    2: right; right; by eapply waiting_answered.
    all: right; left; destruct (task_moves (directory w) t false) as (d & t' & E); [by rewrite Epc..|];
      cbn [bind_step]; rewrite Et; cbn; rewrite E; by eexists.
Qed.

(** ** Acquiring an open route *)

Section Open.
Context `{!JsonTotal RouteLookupRequest}.
Context (h : Host) (Hs : sound h) (e : ExpectedRouteContract) (r : CrmRoute).
Context (Hr : dispatcher_resolve h (erc_route_name e) = Some r) (Ho : route_admission (cr_scheduler r) = Opened)
  (Hc : contract_wire (cr_spec r) = expected_contract_wire e).
Notation table := (table_of (cr_spec r) (cr_route_uid r)).

Lemma open_built : build_route (cr_spec r) = Ok tt ∧ given (cr_spec r) (cr_route_uid r).
Proof using Hs Hr. destruct Hs as [Hcat Hh _]. by apply (resolved_held h (erc_route_name e)). Qed.

Lemma expected_checked : check_expected e = Ok tt.
Proof using Hs Hr Hc.
  destruct open_built as [(Hn & Ht & Ha & Hsig & _)%build_route_ok _]. unfold check_expected, validate_expected_route_contract.
  unfold contract_wire, expected_contract_wire in Hc. injection Hc as E1 E2 E3 E4 E5 E6.
  by rewrite <-E1, <-E2, <-E3, <-E4, <-E5, <-E6, Hn, Ht, Ha, Hsig.
Qed.

Lemma lookup_asked d : dir_ok h d → ∃ p, request_payload d (AcquireRoute e) = Ok p
  ∧ decode_route_lookup_request p
    = Ok {| expected := expected_contract_wire e; observed_route_uid := observed_token_for d (erc_route_name e) |}.
Proof using All.
  intros Hd. unfold request_payload, encode_route_lookup_request.
  destruct (encode_total RouteLookup {| expected := expected_contract_wire e; observed_route_uid := observed_token_for d (erc_route_name e) |})
    as [p Ep]. rewrite Ep. exists p. split; [done|]. apply (decode_encoded _ _ _ _ Ep). unfold validate_route_lookup_request. cbn [expected].
  rewrite <-Hc, (contract_valid _ (proj1 open_built)). cbn. unfold observed_token_for.
  destruct (d !! erc_route_name e) as [t|] eqn:E; [|done]. destruct (Hd _ _ E) as (spec & uid & Hin & _ & ->). cbn.
  apply (uid_held h); [apply Hs|]. apply list_elem_of_fmap. by exists (spec, uid).
Qed.

Lemma lookup_current uid :
  let current := route_record identity max_payload_size h r in
  let answer := lookup_response identity max_payload_size h {| expected := expected_contract_wire e; observed_route_uid := uid |} in
  rr_state current = WireReady ∧ (answer = LookupReady current ∨ answer = LookupStale current).
Proof using Hr Ho Hc.
  cbn zeta. split; [cbn; by rewrite Ho|]. unfold lookup_response. cbn [expected observed_route_uid]. change (rc_route_name _) with (erc_route_name e).
  rewrite Hr. cbn [rr_contract rr_state rr_route_uid route_record]. rewrite Ho, bool_decide_true by done. cbn.
  destruct (from_option _ _ _); auto.
Qed.

(** The answer of the host puts the table of the route into the directory. *)
Lemma open_applied d d0 t p :
  tk_op t = AcquireRoute e →
  decode_route_lookup_request p = Ok {| expected := expected_contract_wire e; observed_route_uid := observed_token_for d0 (erc_route_name e) |} →
  apply_answer d t (route_lookup_payload identity max_payload_size describe h p) = (<[erc_route_name e := table]> d, at_pc t Validating).
Proof using All.
  intros Hop Hp. unfold apply_answer. rewrite Hop. unfold apply_lookup. destruct Hs as [Hcat Hh _].
  pose proof (lookup_answer_read identity max_payload_size describe h p _ Hcfg Hcat Hh Hp) as Hd. rewrite Hd.
  pose proof (decoded_tagged _ _ _ _ Hd) as Ht%tagged_type. rewrite Ht. rewrite bool_decide_false by done.
  destruct (lookup_current (observed_token_for d0 (erc_route_name e))) as [Hst [E|E]]; rewrite E; unfold apply_record; rewrite Hst, record_table;
    pose proof (resolve_named _ _ _ Hcat Hr) as [Hn _]; cbn [rr_route_name route_record]; by rewrite Hn.
Qed.

Lemma open_bound d : bind_cached_route (<[erc_route_name e := table]> d) e = Ok table.
Proof using Hs Hr Hc.
  unfold bind_cached_route. rewrite expected_checked. unfold bound_route_table. rewrite lookup_insert_eq. cbn [res_bind].
  unfold validate_method_table_contract. cbn. unfold contract_wire, expected_contract_wire in Hc. injection Hc as E1 E2 E3 E4 E5 E6.
  by rewrite !bool_decide_true.
Qed.
End Open.

Lemma advance_at w n t d t' :
  tasks w !! n = Some t → task_step (directory w) t false = Some (d, t') →
  step w (Advance n false) = Some (set_task w n d t') ∧ tasks (set_task w n d t') !! n = Some t'.
Proof using Type.
  intros Et E. cbn [bind_step]. rewrite Et. cbn. rewrite E. cbn. split; [done|]. apply list_lookup_insert_eq. by eapply lookup_lt_Some.
Qed.

Lemma answer_at w n t p q :
  tasks w !! n = Some t → tk_pc t = Waiting p → response (host w) p = Some q →
  step w (Answer n) = Some (set_task w n (directory w) (at_pc t (Answered q)))
  ∧ tasks (set_task w n (directory w) (at_pc t (Answered q))) !! n = Some (at_pc t (Answered q)).
Proof using Type.
  intros Et Epc E. cbn [bind_step]. rewrite Et. cbn. rewrite Epc. rewrite E. cbn. split; [done|]. apply list_lookup_insert_eq.
  by eapply lookup_lt_Some.
Qed.

(** C32 An acquisition gets a route that is open: whatever the directory of the client says, if
    the host has a route of the name and the contract that is asked for, and it is open,
    then the request, the answer and three more turns end the acquisition with the binding
    of that route. *)
Theorem open_route_acquired `{!JsonTotal RouteLookupRequest} l w0 steps w n t e r :
  Forall drawn_well (l ++ host_calls steps) → NoDup (omap drawn (l ++ host_calls steps)) → joined l w0 → run w0 steps = Some w →
  tasks w !! n = Some t → tk_op t = AcquireRoute e → tk_pc t = Asking →
  dispatcher_resolve (host w) (erc_route_name e) = Some r → route_admission (cr_scheduler r) = Opened →
  contract_wire (cr_spec r) = expected_contract_wire e →
  ∃ w' t', run w [Advance n false; Answer n; Advance n false; Advance n false; Advance n false] = Some w'
    ∧ tasks w' !! n = Some t' ∧ tk_pc t' = Done (Ok (Some (table_of (cr_spec r) (cr_route_uid r)))).
Proof using All.
  intros Hl Hnd Hj Hrun Et Eop Epc Hr Ho Hc. destruct (run_settled _ _ _ _ Hl Hnd Hj Hrun) as [Hs Hd _].
  destruct (lookup_asked (host w) Hs e r Hr Ho Hc (directory w) Hd) as (p & Ep & Hp).
  pose proof (decoded_tagged _ _ _ _ Hp) as Htag%tagged_type.
  assert (Hq : response (host w) p = Some (route_lookup_payload identity max_payload_size describe (host w) p)).
  { unfold ctrl_response. fold (payload_msg_type p). by rewrite Htag. }
  pose proof (open_applied (host w) Hs e r Hr Ho Hc (directory w) (directory w) (at_pc (at_pc t (Waiting p))
    (Answered (route_lookup_payload identity max_payload_size describe (host w) p))) p Eop Hp) as Ha.
  pose proof (open_bound (host w) Hs e r Hr Hc (directory w)) as Hb.
  destruct (advance_at w n t (directory w) (at_pc t (Waiting p)) Et) as [E1 L1].
  { unfold task_step. by rewrite Epc, Eop, Ep. }
  destruct (answer_at _ n _ p _ L1 eq_refl Hq) as [E2 L2].
  set (table := table_of (cr_spec r) (cr_route_uid r)) in *. set (d := <[erc_route_name e := table]> (directory w)) in *.
  destruct (advance_at _ n _ d (at_pc t Validating) L2) as [E3 L3]; [cbn -[apply_answer]; by rewrite Ha|].
  destruct (advance_at _ n _ d (at_pc t Binding) L3) as [E4 L4].
  { cbn -[bind_cached_route]. rewrite Eop. unfold validate_route_contract. rewrite Hb. cbn. unfold looked_up. cbn. by rewrite Eop. }
  destruct (advance_at _ n _ d (finish t (Ok (Some table))) L4) as [E5 L5]; [cbn -[bind_cached_route]; by rewrite Eop, Hb|].
  eexists _, _. split; [|split; [exact L5|done]]. cbn [bind_run]. rewrite E1. cbn [mbind option_bind]. rewrite E2. cbn [mbind option_bind].
  rewrite E3. cbn [mbind option_bind]. rewrite E4. cbn [mbind option_bind]. by rewrite E5.
Qed.
End Binding.

(** ** A sample run *)

#[local] Existing Instances sample_list_request sample_list_response sample_lookup_request sample_lookup_response sample_nack
  sample_attest_request sample_attest_response sample_list_total sample_lookup_total sample_nack_total sample_attest_total.

#[local] Instance sample_lookup_request_total : JsonTotal RouteLookupRequest.
Proof. apply via_total. Qed.

Definition sample_world : World :=
  {| host := sample_host; directory := seed_from_handshake (open_routes sample_payload_limit sample_host); tasks := [] |}.

Lemma sample_joined : joined sample_identity sample_payload_limit sample_names sample_world.
Proof.
  destruct (handshake_announces_open_routes sample_identity sample_payload_limit sample_names sample_host true
    {| hs_prefix := []; capability_flags := 0; server_identity := None; hs_routes := [] |} (text "p") sample_configured)
    as (ack & caps & Ha & Hd & _); [vm_compute; intuition congruence|apply sample_drawn|apply sample_ran|].
  eexists sample_host, true, _, (text "p"), ack, _. split_and!; [apply sample_ran|vm_compute; intuition congruence|exact Ha|exact Hd|done].
Qed.

Definition sample_expected : ExpectedRouteContract :=
  {| erc_route_name := sample_name; erc_crm_ns := [Byte.x6e]; erc_crm_name := [Byte.x6d]; erc_crm_ver := [Byte.x31];
     erc_abi_hash := repeat Byte.x61 64; erc_signature_hash := repeat Byte.x62 64 |}.

Notation sample_run := (bind_run sample_identity sample_payload_limit (fun _ => [])).
Definition sample_begin : list Step := [Begin (AcquireRoute sample_expected)].
Definition sample_steps : list Step := sample_begin ++ [Advance 0 false; Answer 0; Advance 0 false; Advance 0 false; Advance 0 false].
Definition sample_end (steps : list Step) : World := default sample_world (sample_run sample_world steps).
Definition sample_task (steps : list Step) : Task :=
  default (begin_op RebuildCatalog) (tasks (sample_end steps) !! 0%nat).
Definition sample_binding : RouteBinding := table_of sample_payload_limit (sample_spec sample_name) [Byte.x31].

Lemma sample_steps_drawn : Forall drawn_well (sample_names ++ host_calls sample_steps) ∧ NoDup (omap drawn (sample_names ++ host_calls sample_steps)).
Proof. exact sample_drawn. Qed.

(** The binding is acquired, and a call of its method is admitted on its route. *)
Lemma binding_calls_witness :
  ∃ spec r, dispatcher_resolve (host (sample_end sample_steps)) (rs_name spec) = Some r ∧ cr_spec r = spec ∧ cr_route_uid r = [Byte.x31]
    ∧ rs_method_names spec !! 0%nat = Some [Byte.x66] ∧ contract_wire spec = expected_contract_wire sample_expected.
Proof.
  destruct sample_steps_drawn as [Hw Hd].
  destruct (binding_calls_its_route sample_identity sample_payload_limit (fun _ => []) sample_configured sample_names sample_world sample_steps
    (sample_end sample_steps) 0 (sample_task sample_steps) sample_binding [Byte.x66] 0
    (identity_of (sample_spec sample_name) [Byte.x31]) sample_payload_limit sample_inner 0 Hw Hd sample_joined)
    as (spec & _ & Hm & _ & He & _ & Hr); [vm_compute; reflexivity..|].
  assert (Hok : is_ok (reserve_accepted_route_execution sample_inner (host (sample_end sample_steps)) 0
    (identity_of (sample_spec sample_name) [Byte.x31]) 0) = true) by (vm_compute; reflexivity).
  destruct (reserve_accepted_route_execution _ _ _ _ _) as [x|x|]; [|done..]. destruct Hr as (r & Hr & Hs & Hu). exists spec, r.
  split_and!; [done|done|done|done|]. apply (He sample_expected). vm_compute. reflexivity.
Defined.

Lemma operations_end_witness :
  (turns 0 sample_steps <= 150)%nat ∧ is_done (tk_pc (sample_task sample_steps)) = true.
Proof.
  destruct sample_steps_drawn as [Hw Hd]. split; [|vm_compute; reflexivity].
  apply (operations_end sample_identity sample_payload_limit (fun _ => []) sample_configured sample_names sample_world sample_steps
    (sample_end sample_steps) 0 (sample_task sample_steps) Hw Hd sample_joined); vm_compute; reflexivity.
Defined.

Lemma open_route_witness :
  ∃ w' t', sample_run (sample_end sample_begin) [Advance 0 false; Answer 0; Advance 0 false; Advance 0 false; Advance 0 false] = Some w'
    ∧ tasks w' !! 0%nat = Some t' ∧ tk_pc t' = Done (Ok (Some sample_binding)).
Proof.
  destruct sample_drawn as [Hw Hd].
  assert (∃ r, dispatcher_resolve sample_host sample_name = Some r ∧ cr_spec r = sample_spec sample_name ∧ cr_route_uid r = [Byte.x31]
    ∧ route_admission (cr_scheduler r) = Opened) as (r & Hr & Hs & Hu & Ho) by (eexists; split_and!; vm_compute; reflexivity).
  unfold sample_binding. rewrite <-Hs, <-Hu.
  apply (open_route_acquired sample_identity sample_payload_limit (fun _ => []) sample_configured sample_names sample_world sample_begin
    (sample_end sample_begin) 0 (sample_task sample_begin) sample_expected r Hw Hd sample_joined); try (vm_compute; reflexivity).
  - exact Hr.
  - exact Ho.
  - by rewrite Hs.
Defined.
