(* ===== verification/RelayClient.v ===== *)
(** Calls through a relay (c2-http, client/relay_aware.rs, client/http_client.rs, payload.rs):
    how a client resolves routes, chooses a target, posts a call, reads its response, and
    when it posts it again. *)

From S2P Require Import Prelude.
From S2P Require Import Text.
From S2P Require Import Errors.

(** ** Errors *)

(** The texts of invalid inputs and of failures of the network decide nothing. *)
Inductive HttpError :=
| LocalCallRejected (e : C2Error)
| InvalidInput
| CrmError (body : bytes)
| Transport
| ServerError (status : Z) (body : str).

Inductive HttpCallPhase := PreDispatch | DispatchUncertain.
#[export] Instance http_phase_eq : EqDecision HttpCallPhase.
Proof. solve_decision. Defined.

(** ** Texts *)

(** What [String::from_utf8_lossy] replaces: the longest start of a character that does not
    go on. *)
Definition broken_length (bs : bytes) : nat :=
  match bs with
  | b0 :: b1 :: r =>
      let x := u8 b0 in
      let y := u8 b1 in
      let third := match r with b2 :: _ => is_cont b2 | [] => false end in
      if (224 <=? x) && (x <? 240) then
        if is_cont b1 && negb ((x =? 224) && (y <? 160)) && negb ((x =? 237) && (160 <=? y)) then 2%nat else 1%nat
      else if (240 <=? x) && (x <? 245) then
        if is_cont b1 && negb ((x =? 240) && (y <? 144)) && negb ((x =? 244) && (144 <=? y)) then (if third then 3%nat else 2%nat) else 1%nat
      else 1%nat
  | _ => 1%nat
  end.

Definition replacement : bytes := [Byte.xef; Byte.xbf; Byte.xbd].

(** Every step consumes a byte, so the length is enough fuel. *)
Fixpoint lossy_fuel (fuel : nat) (bs : bytes) : str :=
  match fuel, bs with
  | S fuel, _ :: _ =>
      match next_char bs with
      | Some (_, rest) => take (length bs - length rest) bs ++ lossy_fuel fuel rest
      | None => replacement ++ lossy_fuel fuel (drop (broken_length bs) bs)
      end
  | _, _ => []
  end.
Definition from_utf8_lossy (bs : bytes) : str := lossy_fuel (length bs) bs.

(** [trim_end_matches('/')] *)
Fixpoint drop_slashes (l : str) : str :=
  match l with
  | b :: l' => if u8 b =? ch_slash then drop_slashes l' else l
  | [] => []
  end.
Definition trim_slashes (url : str) : str := reverse (drop_slashes (reverse url)).

(** ** Routes *)

Record RelayRouteInfo := {
  rri_name : str;
  rri_relay_url : str;
  rri_route_uid : str;
  rri_ipc_address : option str;
  rri_server_id : option str;
  rri_server_instance_id : option str;
  rri_crm_ns : str;
  rri_crm_name : str;
  rri_crm_ver : str;
  rri_abi_hash : str;
  rri_signature_hash : str;
  rri_max_payload_size : Z }.

Record RelayResolvedRoutes := { rr_routes : list RelayRouteInfo; rr_local_endpoint_namespace : option str }.

Record RelayLocalIpcCandidate := { lc_address : str; lc_server_id : str; lc_server_instance_id : str; lc_route_uid : str }.

Inductive RelayResolvedTarget :=
| TargetIpc (candidate : RelayLocalIpcCandidate)
| TargetHttp (relay_url route_uid : str).

Definition route_matches_expected_contract (r : RelayRouteInfo) (e : ExpectedRouteContract) : bool :=
  bool_decide (rri_name r = erc_route_name e) && bool_decide (rri_crm_ns r = erc_crm_ns e)
  && bool_decide (rri_crm_name r = erc_crm_name e) && bool_decide (rri_crm_ver r = erc_crm_ver e)
  && bool_decide (rri_abi_hash r = erc_abi_hash e) && bool_decide (rri_signature_hash r = erc_signature_hash e).

Definition filter_routes_by_expected_contract (l : list RelayRouteInfo) (e : ExpectedRouteContract) : list RelayRouteInfo :=
  filter (fun r => route_matches_expected_contract r e = true) l.

Definition route_matches_local_ipc_candidate (r : RelayRouteInfo) (failed : RelayLocalIpcCandidate) : bool :=
  bool_decide (rri_ipc_address r = Some (lc_address failed)) && bool_decide (rri_server_id r = Some (lc_server_id failed))
  && bool_decide (rri_server_instance_id r = Some (lc_server_instance_id failed)).

Definition filter_failed_local_ipc_candidates (l : list RelayRouteInfo) (failed : list RelayLocalIpcCandidate) : list RelayRouteInfo :=
  filter (fun r => existsb (route_matches_local_ipc_candidate r) failed = false) l.

(** [ipc_address.clone()?] and the fields after it. *)
Definition local_candidate (r : RelayRouteInfo) (e : ExpectedRouteContract) : option RelayLocalIpcCandidate :=
  if negb (route_matches_expected_contract r e) then None
  else
    address ← rri_ipc_address r; id ← rri_server_id r; instance ← rri_server_instance_id r;
    Some {| lc_address := address; lc_server_id := id; lc_server_instance_id := instance; lc_route_uid := rri_route_uid r |}.

Fixpoint find_candidate (l : list RelayRouteInfo) (e : ExpectedRouteContract) : option RelayLocalIpcCandidate :=
  match l with
  | [] => None
  | r :: l => match local_candidate r e with Some c => Some c | None => find_candidate l e end
  end.

Definition select_local_ipc_candidate (prefer_local_ipc allowed : bool) (l : list RelayRouteInfo) (e : ExpectedRouteContract)
    : option RelayLocalIpcCandidate :=
  if negb prefer_local_ipc || negb allowed then None else find_candidate l e.

(** [order_routes]: not the excluded relays, the current one first. *)
Definition order_routes (l : list RelayRouteInfo) (excluded : list str) (current : option str) : list RelayRouteInfo :=
  let l := filter (fun r => trim_slashes (rri_relay_url r) ∉ excluded) l in
  match current with
  | None => l
  | Some url =>
      filter (fun r => trim_slashes (rri_relay_url r) = url) l ++ filter (fun r => trim_slashes (rri_relay_url r) ≠ url) l
  end.

(** ** Responses *)

Section Relay.
Context `{!Json C2ErrorEnvelope}.

(** [json_text v]: the text of a JSON object with the members of an envelope, as [json!]
    writes it. *)
Context (json_text : C2ErrorEnvelope → str).

Definition relay_error_code_is (body : str) (code : ErrorCode) : bool :=
  match from_slice body with
  | None => false
  | Some v => match from_envelope v with Ok e => bool_decide (er_code e = code) | _ => false end
  end.

Definition route_is_stale (e : HttpError) : bool :=
  match e with
  | ServerError status body =>
      if status =? 404 then relay_error_code_is body EResourceNotFound
      else if status =? 409 then relay_error_code_is body ERouteStale
      else false
  | _ => false
  end.

Definition http_call_error_phase (e : HttpError) : HttpCallPhase :=
  match e with
  | InvalidInput | LocalCallRejected _ => PreDispatch
  | e => if route_is_stale e then PreDispatch else DispatchUncertain
  end.

Definition resolve_retryable (e : HttpError) : bool :=
  match e with Transport => true | ServerError status _ => (500 <=? status) && (status <=? 599) | _ => false end.

Definition response_protocol_error (reason : string) (max_payload_size : Z) (observed : str) : C2Error :=
  {| er_code := EProtocolViolation;
     er_message := text "HTTP response violates the selected route's message boundary";
     er_details := <[text "transport" := text "http"]> (<[text "reason" := text reason]>
       (<[text "max_payload_size" := decimal max_payload_size]> {[text "observed_payload_size" := observed]})) |}.

(** A response: its status, the size of its body where it is known, and what reading the body
    gives: pieces, with whether there is room where the body must grow, and perhaps the
    end of the connection. *)
Inductive Piece := Bytes (b : bytes) (room : bool) | Broken.
Record HttpResponse := { hr_status : Z; hr_content_length : option Z; hr_pieces : list Piece }.

Definition checked_response_length (current incoming max_payload_size : Z) : res C2Error Z :=
  match checked_add USIZE_MAX current incoming with
  | None => Err (response_protocol_error "response_payload_length_overflow" max_payload_size (text "overflow"))
  | Some length =>
      guard_err (max_payload_size <? length)
        (response_protocol_error "response_payload_too_large" max_payload_size (decimal length)) ;?
      Ok length
  end.

Definition append_response_chunk (body chunk : bytes) (room : bool) (max_payload_size : Z) : res C2Error bytes :=
  let? length := checked_response_length (blen body) (blen chunk) max_payload_size in
  guard_err (negb room) (response_protocol_error "response_payload_allocation_failed" max_payload_size (decimal length)) ;?
  Ok (body ++ chunk).

(** The envelope of a violation is always written. *)
Definition protocol_error (status : Z) (e : C2Error) : res HttpError bytes :=
  match to_vec (envelope e) with Some body => Err (ServerError status body) | None => Panic end.

Fixpoint read_pieces (status : Z) (body : bytes) (l : list Piece) (max_payload_size : Z) : res HttpError bytes :=
  match l with
  | [] => Ok body
  | Broken :: _ => Err Transport
  | Bytes chunk room :: l =>
      match append_response_chunk body chunk room max_payload_size with
      | Ok body => read_pieces status body l max_payload_size
      | Err e => protocol_error status e
      | Panic => Panic
      end
  end.

Definition read_http_response_body (r : HttpResponse) (max_payload_size : Z) : res HttpError bytes :=
  match hr_content_length r with
  | Some length =>
      if max_payload_size <? length then
        protocol_error (hr_status r) (response_protocol_error "response_payload_too_large" max_payload_size (decimal length))
      else read_pieces (hr_status r) [] (hr_pieces r) max_payload_size
  | None => read_pieces (hr_status r) [] (hr_pieces r) max_payload_size
  end.

Definition read_http_response (r : HttpResponse) (max_payload_size : Z) : res HttpError bytes :=
  let? body := read_http_response_body r max_payload_size in
  if hr_status r =? 200 then Ok body
  else if hr_status r =? 500 then Err (CrmError body)
  else Err (ServerError (hr_status r) (from_utf8_lossy body)).

(** [canonical_relay_error_body] *)
Definition relay_error_body (code : ErrorCode) (message route_name : str) : str :=
  json_text (envelope {| er_code := code; er_message := message; er_details := {[text "route" := route_name]} |}).
Definition resource_not_found_body (name : str) : str := relay_error_body EResourceNotFound (text "route not found: " ++ name) name.
Definition crm_contract_mismatch_body (name : str) : str :=
  relay_error_body EContractMismatch (text "CRM contract mismatch for route " ++ name) name.
Definition not_found (name : str) : HttpError := ServerError 404 (resource_not_found_body name).

Definition fallback_denied_body (name : str) (failed : list RelayLocalIpcCandidate) : str :=
  let details := <[text "route" := name]> (<[text "reason" := text "only_failed_local_ipc_candidates"]>
    {[text "failed_local_ipc_candidates" := decimal (blen failed)]}) in
  let details :=
    match last failed with
    | Some c => <[text "ipc_address" := lc_address c]> (<[text "server_id" := lc_server_id c]>
        (<[text "server_instance_id" := lc_server_instance_id c]> (<[text "route_uid" := lc_route_uid c]> details)))
    | None => details
    end in
  json_text (envelope {| er_code := EFallbackDenied; er_message := text "same local relay HTTP fallback denied for route " ++ name;
                         er_details := details |}).

(** ** The outside *)

(** What the outside answers: whether the owner of the call, or the deadline of a connect,
    rejects it; the routes a resolution gives; the current relay; the client of the pool;
    whether the request can be built; the gate before a dispatch; the response, if any. *)
Record Answer := {
  an_check : option C2Error;
  an_routes : RelayResolvedRoutes + HttpError;
  an_current : option str;
  an_client : option HttpError;
  an_built : bool;
  an_gate : option C2Error;
  an_response : option HttpResponse }.
Context (env : nat → Answer).

(** What goes out: business requests and probes. *)
Inductive Event :=
| Post (r : RelayRouteInfo) (method_name : str) (data : bytes) (previous : option HttpCallPhase) (result : res HttpError bytes)
| Probe (r : RelayRouteInfo) (result : res HttpError unit).

(** A computation asks questions from the [n]th on, and tells what went out. *)
Definition Ask (A : Type) : Type := nat → nat * list Event * res HttpError A.

Definition ret {A} (x : A) : Ask A := fun n => (n, [], Ok x).
Definition fail {A} (e : HttpError) : Ask A := fun n => (n, [], Err e).
Definition ask_bind {A B} (m : Ask A) (k : A → Ask B) : Ask B := fun n =>
  let '(n, out, r) := m n in
  match r with
  | Ok x => let '(n, out', r) := k x n in (n, out ++ out', r)
  | Err e => (n, out, Err e)
  | Panic => (n, out, Panic)
  end.
Definition catch {A} (m : Ask A) : Ask (A + HttpError) := fun n =>
  let '(n, out, r) := m n in
  (n, out, match r with Ok x => Ok (inl x) | Err e => Ok (inr e) | Panic => Panic end).
Notation "'let!' x := m 'in' k" := (ask_bind m (fun x => k)) (at level 200, x pattern, m at level 100, k at level 200).

Definition question {A} (f : Answer → res HttpError A) : Ask A := fun n => (S n, [], f (env n)).
Definition rejection (o : option C2Error) : res HttpError unit := match o with Some e => Err (LocalCallRejected e) | None => Ok tt end.
Definition check : Ask unit := question (fun a => rejection (an_check a)).

Definition acquire_route_client : Ask unit :=
  let! _ := check in
  let! c := question (fun a => Ok (an_client a)) in
  let! _ := check in
  match c with Some e => fail e | None => ret tt end.

(** ** Resolving *)

Context (expected : ExpectedRouteContract).
Notation name := (erc_route_name expected).

Definition resolve : Ask RelayResolvedRoutes := question (fun a => match an_routes a with inl r => Ok r | inr e => Err e end).

Definition matching (rs : RelayResolvedRoutes) : RelayResolvedRoutes :=
  {| rr_routes := filter_routes_by_expected_contract (rr_routes rs) expected;
     rr_local_endpoint_namespace := rr_local_endpoint_namespace rs |}.
Definition mismatched (rs : RelayResolvedRoutes) : bool :=
  negb (bool_decide (length (rr_routes rs) = 0%nat)) && bool_decide (length (rr_routes (matching rs)) = 0%nat).
Definition mismatch : HttpError := ServerError 409 (crm_contract_mismatch_body name).

(** A resolution and the checks around it; what the cache held is dropped first where
    [refresh] says so. *)
Definition resolve_checked (refresh : bool) : Ask RelayResolvedRoutes :=
  let! _ := check in
  let! _ := (if refresh then check else ret tt) in
  let! r := catch resolve in
  let! _ := check in
  match r with inl rs => ret rs | inr e => fail e end.

Definition resolve_routes (force_refresh : bool) : Ask RelayResolvedRoutes :=
  let! rs := resolve_checked force_refresh in
  if mismatched rs then
    if force_refresh then fail mismatch
    else
      let! rs := resolve_checked true in
      if mismatched rs then fail mismatch else ret (matching rs)
  else ret (matching rs).

(** ** Calls *)

Definition call_with_route_token (r : RelayRouteInfo) (method_name : str) (data : bytes) (previous : option HttpCallPhase) : Ask bytes :=
  let! _ := question (fun a => guard_err (negb (an_built a)) InvalidInput) in
  let! _ := check in
  let! _ := question (fun a => rejection (an_gate a)) in
  fun n =>
    let result :=
      match an_response (env n) with
      | None => Err Transport
      | Some resp => read_http_response resp (rri_max_payload_size r)
      end in
    (S n, [Post r method_name data previous result], result).

(** What becomes of the routes of one attempt. *)
Inductive Tried := Replied (body : bytes) | StaleAt (relay_url : str) (e : HttpError) | NoneLeft (last : option HttpError).

Fixpoint try_routes (l : list RelayRouteInfo) (method_name : str) (data : bytes) (last : option HttpError) (previous : option HttpCallPhase)
    : Ask Tried :=
  match l with
  | [] => ret (NoneLeft last)
  | r :: l =>
      let! c := catch acquire_route_client in
      match c with
      | inr (LocalCallRejected e) => fail (LocalCallRejected e)
      | inr e => try_routes l method_name data (Some e) previous
      | inl _ =>
          let! x := catch (call_with_route_token r method_name data previous) in
          match x with
          | inl body => ret (Replied body)
          | inr (CrmError body) => fail (CrmError body)
          | inr e =>
              if route_is_stale e then let! _ := check in ret (StaleAt (trim_slashes (rri_relay_url r)) e)
              else fail e
          end
      end
  end.

(** The sleep before another attempt. *)
Definition pause (more : nat) : Ask unit :=
  match more with O => ret tt | S _ => let! _ := check in check end.

(** [call_inner_async], with [more] attempts to go. *)
Fixpoint call_attempts (more : nat) (force_refresh : bool) (method_name : str) (data : bytes) (last : option HttpError)
    (excluded : list str) (previous : option HttpCallPhase) : Ask bytes :=
  match more with
  | O => fail (default (not_found name) last)
  | S more =>
      let! rs := catch (resolve_routes force_refresh) in
      match rs with
      | inr e =>
          if resolve_retryable e && negb (more =? 0)%nat then call_attempts more true method_name data (Some e) excluded previous
          else fail e
      | inl rs =>
          if bool_decide (length (rr_routes rs) = 0%nat) then fail (not_found name)
          else
            let! current := question (fun a => Ok (an_current a)) in
            let ordered := order_routes (rr_routes rs) excluded current in
            if bool_decide (length ordered = 0%nat) then fail (default (not_found name) last)
            else
              let! t := try_routes ordered method_name data last previous in
              match t with
              | Replied body => ret body
              | StaleAt url e =>
                  let! _ := pause more in
                  call_attempts more true method_name data (Some e) (url :: excluded) (Some PreDispatch)
              | NoneLeft last =>
                  let! _ := pause more in
                  call_attempts more true method_name data last excluded previous
              end
      end
  end.

Definition call_inner (max_attempts : nat) (method_name : str) (data : bytes) : Ask bytes :=
  call_attempts (Nat.max max_attempts 1) false method_name data None [] None.

(** ** Selecting a target *)

(** What the client was built with: whether the anchor relay allows local endpoints, the
    namespace of its local endpoints, and the attempts it makes. *)
Record Client := {
  cl_anchor_allows_local_ipc : bool;
  cl_namespace : option str;
  cl_max_attempts : nat }.
Context (cl : Client).

Definition namespace_allows_local_ipc (namespace : option str) : bool :=
  match cl_namespace cl, namespace with
  | Some local, Some n => bool_decide (local = n)
  | _, _ => false
  end.

Definition probe_route_with_token (r : RelayRouteInfo) : Ask unit :=
  fun n =>
    let result :=
      match an_response (env n) with
      | None => Err Transport
      | Some resp =>
          if (hr_status resp =? 200)%Z then Ok tt
          else let? body := read_http_response_body resp (rri_max_payload_size r) in
               Err (ServerError (hr_status resp) (from_utf8_lossy body))
      end in
    (S n, [Probe r result], result).

(** A probe under the deadline of the connect. *)
Definition probe (r : RelayRouteInfo) : Ask unit :=
  let! _ := check in
  let! x := catch (probe_route_with_token r) in
  let! _ := check in
  match x with inl _ => ret tt | inr e => fail e end.

Inductive Probed := Alive (relay_url route_uid : str) | NoneAlive (last : option HttpError) (excluded : list str).

Fixpoint probe_routes (l : list RelayRouteInfo) (last : option HttpError) (excluded : list str) : Ask Probed :=
  match l with
  | [] => ret (NoneAlive last excluded)
  | r :: l =>
      let url := trim_slashes (rri_relay_url r) in
      let! c := catch acquire_route_client in
      match c with
      | inr (LocalCallRejected e) => fail (LocalCallRejected e)
      | inr e => probe_routes l (Some e) excluded
      | inl _ =>
          let! x := catch (probe r) in
          match x with
          | inl _ => let! _ := check in ret (Alive url (rri_route_uid r))
          | inr (LocalCallRejected e) => fail (LocalCallRejected e)
          | inr e =>
              if route_is_stale e then
                let! _ := check in
                let! _ := check in
                probe_routes l (Some e) (url :: excluded)
              else probe_routes l (Some e) excluded
          end
      end
  end.

(** [select_target_with_local_exclusions_async], with [more] attempts to go. *)
Fixpoint select_attempts (more : nat) (refresh prefer : bool) (failed : list RelayLocalIpcCandidate) (denied : bool)
    (last : option HttpError) (excluded : list str) : Ask RelayResolvedTarget :=
  match more with
  | O => fail (default (not_found name) last)
  | S more =>
      let! _ := check in
      let! rs := catch (resolve_routes refresh) in
      match rs with
      | inr e =>
          if resolve_retryable e && negb (more =? 0)%nat then select_attempts more true prefer failed denied (Some e) excluded
          else fail e
      | inl rs =>
          if bool_decide (length (rr_routes rs) = 0%nat) then fail (not_found name)
          else
            let allowed := prefer && namespace_allows_local_ipc (rr_local_endpoint_namespace rs) in
            let routes := filter_failed_local_ipc_candidates (rr_routes rs) failed in
            if bool_decide (length routes = 0%nat) && denied then fail (ServerError 409 (fallback_denied_body name failed))
            else
              match select_local_ipc_candidate prefer (cl_anchor_allows_local_ipc cl && allowed) routes expected with
              | Some c => ret (TargetIpc c)
              | None =>
                  let! current := question (fun a => match an_check a with Some e => Err (LocalCallRejected e) | None => Ok (an_current a) end) in
                  let ordered := order_routes routes excluded current in
                  if bool_decide (length ordered = 0%nat) then fail (default (not_found name) last)
                  else
                    let! t := probe_routes ordered last excluded in
                    match t with
                    | Alive url uid => ret (TargetHttp url uid)
                    | NoneAlive last excluded =>
                        let! _ := pause more in
                        select_attempts more true prefer failed denied last excluded
                    end
              end
      end
  end.

Definition select_target_with_local_exclusions (prefer : bool) (failed : list RelayLocalIpcCandidate) (denied : bool) : Ask RelayResolvedTarget :=
  select_attempts (Nat.max (cl_max_attempts cl) 1) denied prefer failed denied None [].

(** The checks before a selection: the deadline, and that of the wait for the runtime. *)
Definition within_deadline (m : Ask RelayResolvedTarget) : Ask RelayResolvedTarget :=
  let! _ := check in
  let! _ := check in
  m.
Definition resolve_target : Ask RelayResolvedTarget :=
  within_deadline (select_target_with_local_exclusions true [] false).
Definition resolve_http_target : Ask RelayResolvedTarget :=
  within_deadline (select_target_with_local_exclusions false [] false).
Definition resolve_target_after_local_ipc_failures (failed : list RelayLocalIpcCandidate) : Ask RelayResolvedTarget :=
  within_deadline (select_target_with_local_exclusions true failed true).

Definition connect : Ask unit :=
  let! t := select_target_with_local_exclusions false [] false in
  match t with TargetHttp _ _ => ret tt | TargetIpc _ => fun n => (n, [], Panic) end.
End Relay.
