(* ===== verification/RelayClientSafe.v ===== *)
(** Guarantees of calls through a relay and of the choice of a target ([RelayClient]),
    whatever the outside answers. *)

From S2P Require Import Prelude.
From S2P Require Import Text.
From S2P Require Import Errors.
From S2P Require Import RelayClient.

(** ** Reasoning on computations *)

Section Wp.
Context (env : nat → Answer).

(** What holds after [m] asks from question [n] on. *)
Definition wp {A} (m : Ask A) (n : nat) (Q : nat → list Event → res HttpError A → Prop) : Prop :=
  let '(n', out, r) := m n in Q n' out r.

Lemma wp_mono {A} (m : Ask A) n (P Q : nat → list Event → res HttpError A → Prop) :
  wp m n P → (∀ n' out r, P n' out r → Q n' out r) → wp m n Q.
Proof. unfold wp. destruct (m n) as [[n' out] r]. auto. Qed.

Lemma wp_bind {A B} (m : Ask A) (k : A → Ask B) n Q :
  wp m n (fun n1 o1 r => match r with
                         | Ok x => wp (k x) n1 (fun n' o r' => Q n' (o1 ++ o) r')
                         | Err e => Q n1 o1 (Err e)
                         | Panic => Q n1 o1 Panic
                         end) →
  wp (ask_bind m k) n Q.
Proof.
  unfold wp, ask_bind. destruct (m n) as [[n1 o1] [x|e|]]; auto. destruct (k x n1) as [[n2 o2] r2]. auto.
Qed.

Lemma wp_catch {A} (m : Ask A) n Q :
  wp m n (fun n1 o r => Q n1 o match r with Ok x => Ok (inl x) | Err e => Ok (inr e) | Panic => Panic end) → wp (catch m) n Q.
Proof. unfold wp, catch. destruct (m n) as [[n1 o1] [x|e|]]; auto. Qed.

(** Computations that send nothing and do not panic. *)
Definition silent {A} (m : Ask A) : Prop := ∀ n, wp m n (fun n' o r => (n ≤ n')%nat ∧ o = [] ∧ r ≠ Panic).

Lemma silent_ret {A} (x : A) : silent (ret x).
Proof. by intros n. Qed.
Lemma silent_fail {A} e : silent (@fail A e).
Proof. by intros n. Qed.
Lemma silent_question {A} (f : Answer → res HttpError A) : (∀ a, f a ≠ Panic) → silent (question env f).
Proof. intros Hf n. split; [lia|]. auto. Qed.
Lemma silent_catch {A} (m : Ask A) : silent m → silent (catch m).
Proof. intros Hm n. apply wp_catch. eapply wp_mono; [apply Hm|]. intros n' o [x|e|]; naive_solver. Qed.
Lemma silent_bind {A B} (m : Ask A) (k : A → Ask B) : silent m → (∀ x, silent (k x)) → silent (ask_bind m k).
Proof.
  intros Hm Hk n. apply wp_bind. eapply wp_mono; [apply Hm|]. intros n1 o1 [x|e|] (H1 & -> & Hp); [|done..].
  eapply wp_mono; [apply Hk|]. intros n2 o2 r (H2 & -> & Hq). split_and!; [lia|done..].
Qed.

(** After a silent computation: its value, or its error. *)
Lemma wp_silent {A B} (m : Ask A) (k : A → Ask B) n Q :
  silent m →
  (∀ x n1, (n ≤ n1)%nat → wp (k x) n1 Q) →
  (∀ e n1, (n ≤ n1)%nat → Q n1 [] (Err e)) →
  wp (ask_bind m k) n Q.
Proof.
  intros Hm Hk He. apply wp_bind. eapply wp_mono; [apply Hm|]. intros n1 o1 [x|e|] (H1 & -> & Hp); [|auto|done].
  eapply wp_mono; [by apply Hk|]. auto.
Qed.

(** The same where an error is caught, so that there is always a value. *)
Lemma wp_silent_catch {A B} (m : Ask A) (k : A + HttpError → Ask B) n Q :
  silent m → (∀ x n1, (n ≤ n1)%nat → wp (k x) n1 Q) → wp (ask_bind (catch m) k) n Q.
Proof.
  intros Hm Hk. apply wp_bind, wp_catch. eapply wp_mono; [apply Hm|].
  intros n1 o1 [x|e|] (H1 & -> & Hp); [| |done]; (eapply wp_mono; [by apply Hk|]; auto).
Qed.

Lemma silent_check : silent (check env).
Proof. apply silent_question. intros a. unfold rejection. by destruct (an_check a). Qed.
End Wp.

Create HintDb asks.
#[export] Hint Resolve silent_ret silent_fail silent_catch silent_bind silent_check : asks.

Section Guarantees.
Context `{!Json C2ErrorEnvelope, !JsonTotal C2ErrorEnvelope}.
Context (json_text : C2ErrorEnvelope → str) (env : nat → Answer) (expected : ExpectedRouteContract).
Implicit Types (rt : RelayRouteInfo) (e : HttpError) (out : list Event).

Lemma silent_acquire : silent (acquire_route_client env).
Proof.
  unfold acquire_route_client. apply silent_bind; [auto with asks|intros _].
  apply silent_bind; [by apply silent_question|intros c]. apply silent_bind; [auto with asks|intros _]. destruct c; auto with asks.
Qed.

Lemma silent_pause more : silent (pause env more).
Proof. destruct more; cbn; auto with asks. Qed.

(** ** Resolution *)

(** [rt] was given by a resolution between two questions, and has the expected contract. *)
Definition given (lo hi : nat) rt : Prop :=
  ∃ j rs, (lo ≤ j < hi)%nat ∧ an_routes (env j) = inl rs ∧ rt ∈ rr_routes rs ∧ route_matches_expected_contract rt expected = true.

Lemma given_mono lo hi lo' hi' rt : (lo' ≤ lo)%nat → (hi ≤ hi')%nat → given lo hi rt → given lo' hi' rt.
Proof. intros ?? (j & rs & Hj & ?). exists j, rs. split; [lia|done]. Qed.

Lemma resolve_checked_spec refresh n :
  wp (resolve_checked env refresh) n (fun n' o r =>
    (n ≤ n')%nat ∧ o = [] ∧ r ≠ Panic ∧ ∀ rs, r = Ok rs → ∃ j, (n ≤ j < n')%nat ∧ an_routes (env j) = inl rs).
Proof.
  unfold resolve_checked. apply wp_silent; [auto with asks| |done]. intros _ n1 H1.
  apply wp_silent; [destruct refresh; auto with asks| |intros e n2 H2; split_and!; try done; lia]. intros _ n2 H2.
  apply wp_bind, wp_catch. unfold wp at 1, resolve, question. destruct (an_routes (env n2)) as [rs|e] eqn:Er.
  - apply wp_silent; [auto with asks| |intros e n3 H3; split_and!; try done; lia]. intros _ n3 H3.
    unfold wp, ret. split_and!; [lia|done..|]. intros rs' [= <-]. exists n2. split; [lia|done].
  - apply wp_silent; [auto with asks| |intros e' n3 H3; split_and!; try done; lia]. intros _ n3 H3.
    unfold wp, fail. split_and!; [lia|done..].
Qed.

Lemma matching_given j n n' rs : (n ≤ j < n')%nat → an_routes (env j) = inl rs → Forall (given n n') (rr_routes (matching expected rs)).
Proof.
  intros Hj Hr. apply Forall_forall. intros rt Hin. unfold matching, filter_routes_by_expected_contract in Hin. cbn in Hin.
  apply list_elem_of_filter in Hin as [Hm Hin]. by exists j, rs.
Qed.

(** The namespace of a resolution is that of its routes. *)
Definition resolved (n n' : nat) (rs : RelayResolvedRoutes) : Prop :=
  ∃ j raw, (n ≤ j < n')%nat ∧ an_routes (env j) = inl raw ∧ rs = matching expected raw.

Lemma resolved_given n n' rs : resolved n n' rs → Forall (given n n') (rr_routes rs).
Proof. intros (j & raw & Hj & Hr & ->). by eapply matching_given. Qed.

Lemma resolve_routes_spec force n :
  wp (resolve_routes json_text env expected force) n (fun n' o r =>
    (n ≤ n')%nat ∧ o = [] ∧ r ≠ Panic ∧ ∀ rs, r = Ok rs → resolved n n' rs).
Proof.
  unfold resolve_routes. apply wp_bind. eapply wp_mono; [apply resolve_checked_spec|].
  intros n1 o1 [rs|e|] (H1 & -> & Hp & Hr); [|done..]. destruct (Hr _ eq_refl) as (j & Hj & Hrs).
  destruct (mismatched expected rs).
  - destruct force; [done|]. apply wp_bind. eapply wp_mono; [apply resolve_checked_spec|].
    intros n2 o2 [rs2|e|] (H2 & -> & Hp2 & Hr2); [|split_and!; try done; lia|done].
    destruct (Hr2 _ eq_refl) as (j2 & Hj2 & Hrs2).
    destruct (mismatched expected rs2); unfold wp, fail, ret; (split_and!; [lia|done..|]); [done|].
    intros ? [= <-]. exists j2, rs2. split; [lia|done].
  - unfold wp, ret. split_and!; [lia|done..|]. intros ? [= <-]. exists j, rs. split; [lia|done].
Qed.

(** ** Responses *)

Lemma broken_length_pos bs : (0 < broken_length bs)%nat.
Proof. unfold broken_length. repeat case_match; lia. Qed.

(** The length of the text is enough fuel. *)
Lemma lossy_fuel_enough fuel : ∀ bs, (length bs ≤ fuel)%nat → ∀ fuel', (length bs ≤ fuel')%nat → lossy_fuel fuel bs = lossy_fuel fuel' bs.
Proof.
  induction fuel as [|fuel IH]; intros bs Hl [|fuel'] Hl'; [done|by destruct bs; cbn in *; [|lia]..|].
  destruct bs as [|b bs]; [done|]. cbn [lossy_fuel]. destruct (next_char (b :: bs)) as [[c rest]|] eqn:En.
  - apply next_char_shrinks in En. cbn [length] in *. f_equal. apply IH; lia.
  - pose proof (broken_length_pos (b :: bs)). f_equal. apply IH; rewrite length_drop; cbn [length] in *; lia.
Qed.

Lemma response_violation status reason max observed e :
  protocol_error status (response_protocol_error reason max observed) = Err e → http_call_error_phase e = DispatchUncertain.
Proof.
  unfold protocol_error. destruct (to_vec _) as [body|] eqn:Ev; [|done]. intros [= <-]. apply json_round in Ev.
  unfold http_call_error_phase, route_is_stale, relay_error_code_is. rewrite Ev, from_envelope_envelope.
  by destruct (status =? 404), (status =? 409).
Qed.

Lemma protocol_error_err status (v : C2Error) : ∃ err, protocol_error status v = Err err.
Proof. unfold protocol_error. destruct (to_vec_total (envelope v)) as [b ->]. eauto. Qed.

Lemma append_chunk_spec body chunk room max :
  (append_response_chunk body chunk room max = Ok (body ++ chunk) ∧ blen (body ++ chunk) ≤ max)
  ∨ ∃ reason observed, append_response_chunk body chunk room max = Err (response_protocol_error reason max observed).
Proof.
  unfold append_response_chunk, checked_response_length, checked_add. destruct (_ <=? USIZE_MAX); cbn; [|eauto].
  destruct (Z.ltb_spec max (blen body + blen chunk)); cbn; [eauto|]. destruct room; cbn; [|eauto]. left. split; [done|].
  unfold blen in *. rewrite length_app. lia.
Qed.

(** A body that is read is within the limit of its route, and what is wrong with a response
    is never taken for a failure before the dispatch. *)
Definition body_sound (max : Z) (r : res HttpError bytes) : Prop :=
  match r with Ok body => blen body ≤ Z.max 0 max | Err e => http_call_error_phase e = DispatchUncertain | Panic => False end.

Lemma violation_sound status reason max observed : body_sound max (protocol_error status (response_protocol_error reason max observed)).
Proof.
  destruct (protocol_error_err status (response_protocol_error reason max observed)) as [e He]. rewrite He. by eapply response_violation.
Qed.

Lemma read_pieces_sound status max l : ∀ body, blen body ≤ Z.max 0 max → body_sound max (read_pieces status body l max).
Proof.
  induction l as [|[chunk room|] l IH]; intros body Hb; [done| |done]. cbn.
  destruct (append_chunk_spec body chunk room max) as [[-> ?]|(reason & observed & ->)]; [apply IH; lia|apply violation_sound].
Qed.

Lemma read_body_sound resp max : body_sound max (read_http_response_body resp max).
Proof.
  assert (Hp : body_sound max (read_pieces (hr_status resp) [] (hr_pieces resp) max)) by (apply read_pieces_sound; unfold blen; cbn; lia).
  unfold read_http_response_body. destruct (hr_content_length resp) as [len|]; [|done].
  destruct (max <? len); [apply violation_sound|done].
Qed.

Definition reply_stale (r : res HttpError bytes) : bool := match r with Err e => route_is_stale e | _ => false end.

(** What a request came to where it was not answered by a stale route. *)
Definition settled (rt : RelayRouteInfo) (r : res HttpError bytes) : Prop :=
  match r with
  | Ok body => blen body ≤ Z.max 0 (rri_max_payload_size rt)
  | Err e => http_call_error_phase e = DispatchUncertain
  | Panic => False
  end.

Lemma reply_sound resp rt :
  let r := read_http_response resp (rri_max_payload_size rt) in reply_stale r = true ∨ settled rt r.
Proof.
  cbn. unfold read_http_response. pose proof (read_body_sound resp (rri_max_payload_size rt)) as Hb.
  destruct (read_http_response_body _ _) as [body|e|]; cbn; [|by right|done].
  destruct (hr_status resp =? 200); [by right|]. destruct (hr_status resp =? 500); [by right|].
  unfold reply_stale, settled, http_call_error_phase. destruct (route_is_stale _); auto.
Qed.

(** Only a reply received in full, with status 404 or 409 and the code of a stale route,
    says that a route is stale. *)
Lemma stale_reply_received resp max e :
  read_http_response resp max = Err e → route_is_stale e = true →
  ∃ body, read_http_response_body resp max = Ok body ∧ e = ServerError (hr_status resp) (from_utf8_lossy body)
    ∧ ((hr_status resp = 404 ∧ relay_error_code_is (from_utf8_lossy body) EResourceNotFound = true)
       ∨ (hr_status resp = 409 ∧ relay_error_code_is (from_utf8_lossy body) ERouteStale = true)).
Proof.
  unfold read_http_response. pose proof (read_body_sound resp max) as Hb.
  destruct (read_http_response_body resp max) as [body|e'|]; cbn; [|intros [= ->] Hs|done].
  - destruct (hr_status resp =? 200); [done|]. destruct (hr_status resp =? 500); [by intros [= <-]|]. intros [= <-] Hs.
    exists body. split_and!; [done..|]. cbn in Hs. destruct (Z.eqb_spec (hr_status resp) 404); [by left|].
    destruct (Z.eqb_spec (hr_status resp) 409); [by right|done].
  - cbn in Hb. unfold http_call_error_phase in Hb. rewrite Hs in Hb. by destruct e.
Qed.

(** ** Calls *)

Lemma post_spec rt method_name data previous n :
  wp (call_with_route_token env rt method_name data previous) n (fun n' o r =>
    (n ≤ n')%nat ∧ ((o = [] ∧ ∃ e, r = Err e ∧ route_is_stale e = false) ∨
                    (o = [Post rt method_name data previous r] ∧ (reply_stale r = true ∨ settled rt r)))).
Proof.
  unfold call_with_route_token, wp, ask_bind, question, check, question.
  destruct (an_built (env n)); cbn; [|split; [lia|left; eauto]].
  unfold rejection. destruct (an_check _); cbn; [split; [lia|left; eauto]|].
  destruct (an_gate _); cbn; [split; [lia|left; eauto]|]. split; [lia|]. right. split; [done|].
  destruct (an_response _) as [resp|]; [apply reply_sound|by right].
Qed.

(** What the routes of one attempt come to. *)
Definition tried (l : list RelayRouteInfo) (method_name : str) (data : bytes) (previous : option HttpCallPhase) out (r : res HttpError Tried) : Prop :=
  match r with
  | Ok (Replied body) => ∃ rt, rt ∈ l ∧ out = [Post rt method_name data previous (Ok body)] ∧ settled rt (Ok body)
  | Ok (StaleAt url e) =>
      ∃ rt, rt ∈ l ∧ url = trim_slashes (rri_relay_url rt) ∧ out = [Post rt method_name data previous (Err e)] ∧ route_is_stale e = true
  | Ok (NoneLeft _) => out = []
  | Err e =>
      out = [] ∨ ∃ rt x, rt ∈ l ∧ out = [Post rt method_name data previous x] ∧ (reply_stale x = true ∨ (x = Err e ∧ settled rt x))
  | Panic => False
  end.

Lemma tried_cons rt l method_name data previous out r : tried l method_name data previous out r → tried (rt :: l) method_name data previous out r.
Proof.
  destruct r as [[body|url e|last]|e|]; cbn; [| |done| |done].
  - intros (rt' & ? & ?). exists rt'. split; [by right|done].
  - intros (rt' & ? & ?). exists rt'. split; [by right|done].
  - intros [?|(rt' & x & ? & ?)]; [by left|]. right. exists rt', x. split; [by right|done].
Qed.

Lemma try_routes_spec method_name data previous l : ∀ last n,
  wp (try_routes env l method_name data last previous) n (fun n' out r => (n ≤ n')%nat ∧ tried l method_name data previous out r).
Proof.
  induction l as [|rt l IH]; intros last n; [done|]. cbn [try_routes]. apply wp_silent_catch; [apply silent_acquire|].
  intros [_|err] n1 H1.
  2:{ assert (Hnext : wp (try_routes env l method_name data (Some err) previous) n1
        (fun n' out r => (n ≤ n')%nat ∧ tried (rt :: l) method_name data previous out r)).
      { eapply wp_mono; [apply IH|]. intros n' out r [? ?]. split; [lia|by apply tried_cons]. }
      destruct err; [|exact Hnext..]. split; [lia|by left]. }
  apply wp_bind, wp_catch. eapply wp_mono; [apply post_spec|]. intros n2 o2 r2 [H2 [[-> (e & -> & Hs)]|[-> Hr]]].
  - destruct e; rewrite ?Hs; (split; [lia|by left]).
  - destruct r2 as [body|e|]; [| |by destruct Hr].
    + split; [lia|]. destruct Hr as [?|?]; [done|]. exists rt. split_and!; [by left|done..].
    + assert (Hfail : reply_stale (Err e) = false → wp (@fail Tried e) n2
        (fun n' out r => (n ≤ n')%nat ∧ tried (rt :: l) method_name data previous ([Post rt method_name data previous (Err e)] ++ out) r)).
      { intros Hn. split; [lia|]. right. exists rt, (Err e). split_and!; [by left|done|]. right. destruct Hr; [congruence|done]. }
      destruct e as [| | | |status body]; [by apply Hfail..|]. destruct (route_is_stale (ServerError status body)) eqn:Hs; [|by apply Hfail].
      apply wp_silent; [auto with asks| |].
      * intros _ n3 H3. split; [lia|]. exists rt. split_and!; [by left|done..].
      * intros e n3 H3. split; [lia|]. right. exists rt, (Err (ServerError status body)). split_and!; [by left|done|by left].
Qed.

(** The posts of a call with [more] attempts to go: each route is given and its relay new,
    and but for the last the route was stale. *)
Fixpoint accounted (P : RelayRouteInfo → Prop) (method_name : str) (data : bytes) (more : nat) (excluded : list str)
    (previous : option HttpCallPhase) out (r : res HttpError bytes) {struct out} : Prop :=
  match out with
  | [] => match r with Err _ => True | _ => False end
  | Probe _ _ :: _ => False
  | Post rt m d p x :: out =>
      m = method_name ∧ d = data ∧ p = previous ∧ P rt ∧ trim_slashes (rri_relay_url rt) ∉ excluded ∧
      match more with
      | O => False
      | S more =>
          (reply_stale x = true ∧ accounted P method_name data more (trim_slashes (rri_relay_url rt) :: excluded) (Some PreDispatch) out r)
          ∨ (out = [] ∧ x = r ∧ settled rt x)
      end
  end.

Lemma accounted_mono (P P' : RelayRouteInfo → Prop) method_name data out r : (∀ rt, P rt → P' rt) → ∀ more more' excluded previous,
  (more ≤ more')%nat → accounted P method_name data more excluded previous out r → accounted P' method_name data more' excluded previous out r.
Proof.
  intros HP. induction out as [|[rt m d p x|] out IH]; intros more more' excluded previous Hle; cbn; [tauto| |tauto].
  intros (-> & -> & -> & Hrt & Hex & Ho). split_and!; auto. destruct more as [|more]; [done|]. destruct more' as [|more']; [lia|].
  destruct Ho as [[Hs Ho]|?]; [|by right]. left. split; [done|]. eapply IH; [|done]. lia.
Qed.

Lemma order_routes_in l excluded current rt :
  rt ∈ order_routes l excluded current → rt ∈ l ∧ trim_slashes (rri_relay_url rt) ∉ excluded.
Proof.
  unfold order_routes. destruct current as [url|].
  - rewrite elem_of_app, !list_elem_of_filter. tauto.
  - rewrite list_elem_of_filter. tauto.
Qed.

Lemma pause_then {B} (k : Ask B) more n Q :
  (∀ n1, (n ≤ n1)%nat → wp k n1 Q) → (∀ e n1, (n ≤ n1)%nat → Q n1 [] (Err e)) → wp (ask_bind (pause env more) (fun _ => k)) n Q.
Proof. intros Hk He. apply wp_silent; [apply silent_pause|auto..]. Qed.

Lemma call_attempts_spec method_name data more : ∀ force last excluded previous n,
  wp (call_attempts json_text env expected more force method_name data last excluded previous) n (fun n' out r =>
    (n ≤ n')%nat ∧ accounted (given n n') method_name data more excluded previous out r).
Proof.
  induction more as [|more IH]; intros force last excluded previous n; [done|]. cbn [call_attempts].
  assert (Hagain : ∀ n1 last excluded previous, (n ≤ n1)%nat →
    wp (call_attempts json_text env expected more true method_name data last excluded previous) n1 (fun n' out r =>
      (n ≤ n')%nat ∧ (n1 ≤ n')%nat ∧ accounted (given n n') method_name data more excluded previous out r)).
  { intros n1 last' ex pr H1. eapply wp_mono; [apply IH|]. intros n' out r [H2 Ha]. split_and!; [lia..|].
    eapply accounted_mono; [|done|exact Ha]. intros rt. apply given_mono; lia. }
  apply wp_bind, wp_catch. eapply wp_mono; [apply resolve_routes_spec|]. intros n1 o1 [rs|err|] (H1 & -> & Hp & Hrs); [| |done].
  2:{ destruct (_ && _); [|done]. eapply wp_mono; [by apply Hagain|]. intros n' out r (H2 & _ & Ha). split; [done|].
      eapply accounted_mono; [done| |exact Ha]. lia. }
  destruct (bool_decide _); [done|]. apply wp_silent; [by apply silent_question| |intros; split; [lia|done]].
  intros current n2 H2. destruct (bool_decide _); [split; [lia|done]|].
  apply wp_bind. eapply wp_mono; [apply try_routes_spec|]. intros n3 o3 r3 [H3 Ht].
  assert (Hin : ∀ rt n', (n3 ≤ n')%nat → rt ∈ order_routes (rr_routes rs) excluded current →
    given n n' rt ∧ trim_slashes (rri_relay_url rt) ∉ excluded).
  { intros rt n' Hn [Hrt Hex]%order_routes_in. split; [|done]. pose proof (resolved_given _ _ _ (Hrs _ eq_refl)) as Hg.
    rewrite Forall_forall in Hg. eapply given_mono, Hg; [done|lia|done]. }
  destruct r3 as [[body|url e|last']|e|]; cbn in Ht; [| | | |done].
  - destruct Ht as (rt & Hrt & -> & Hb). destruct (Hin rt n3 ltac:(lia) Hrt). split; [lia|]. cbn. split_and!; try done. by right.
  - destruct Ht as (rt & Hrt & -> & -> & Hs). apply pause_then.
    + intros n4 H4. eapply wp_mono; [apply Hagain; lia|]. intros n' out r (H5 & H6 & Ha). split; [done|].
      destruct (Hin rt n' ltac:(lia) Hrt). cbn. split_and!; try done. by left.
    + intros e' n4 H4. destruct (Hin rt n4 ltac:(lia) Hrt). split; [lia|]. cbn. split_and!; try done. by left.
  - subst o3. apply pause_then; [|intros; split; [lia|done]]. intros n4 H4. eapply wp_mono; [apply Hagain; lia|].
    intros n' out r (H5 & H6 & Ha). split; [done|]. eapply accounted_mono; [done| |exact Ha]. lia.
  - split; [lia|]. destruct Ht as [->|(rt & x & Hrt & -> & Hx)]; [done|]. destruct (Hin rt n3 ltac:(lia) Hrt). cbn. split_and!; try done.
    destruct Hx as [Hx|[-> Hx]]; [by left|by right].
Qed.

(** What follows of posts that are accounted for. *)
Definition event_url (ev : Event) : str := match ev with Post rt _ _ _ _ | Probe rt _ => trim_slashes (rri_relay_url rt) end.
Definition event_stale (ev : Event) : bool := match ev with Post _ _ _ _ x => reply_stale x | Probe _ _ => false end.

Lemma accounted_urls P method_name data out r : ∀ more excluded previous,
  accounted P method_name data more excluded previous out r →
  NoDup (event_url <$> out) ∧ Forall (fun ev => event_url ev ∉ excluded) out ∧ (length out ≤ more)%nat.
Proof.
  induction out as [|[rt m d p x|] out IH]; intros more excluded previous; cbn; [intros _; split_and!; [constructor|constructor|lia]| |done].
  intros (_ & _ & _ & _ & Hex & Ho). destruct more as [|more]; [done|]. destruct Ho as [[_ Ho]|(-> & _)].
  - destruct (IH _ _ _ Ho) as (Hnd & Hf & Hl). split_and!; [|constructor; [done|]|lia].
    + constructor; [|done]. rewrite list_elem_of_fmap. intros (ev & Heq & Hin). rewrite Forall_forall in Hf.
      apply (Hf _ Hin). rewrite <-Heq. by left.
    + eapply Forall_impl; [exact Hf|]. cbn. set_solver.
  - split_and!; [apply NoDup_singleton|by repeat constructor|cbn; lia].
Qed.

Lemma accounted_each P method_name data out r : ∀ more excluded previous i ev,
  accounted P method_name data more excluded previous out r → out !! i = Some ev →
  ∃ rt x, ev = Post rt method_name data (if (i =? 0)%nat then previous else Some PreDispatch) x ∧ P rt
    ∧ (reply_stale x = true ∨ (S i = length out ∧ x = r ∧ settled rt x)).
Proof.
  induction out as [|[rt m d p x|] out IH]; intros more excluded previous i ev; cbn; [done| |done].
  intros (-> & -> & -> & Hrt & Hex & Ho) Hi. destruct more as [|more]; [done|]. destruct i as [|i]; cbn in Hi.
  - injection Hi as <-. exists rt, x. split_and!; [done..|]. destruct Ho as [[? _]|(-> & ? & ?)]; [by left|by right].
  - destruct Ho as [[_ Ho]|(-> & _)]; [|done]. destruct (IH _ _ _ _ _ Ho Hi) as (rt' & x' & -> & HP & Hx).
    exists rt', x'. split_and!; [by destruct i|done|]. destruct Hx as [?|(<- & ?)]; [by left|by right].
Qed.

Lemma accounted_result P method_name data out r : ∀ more excluded previous,
  accounted P method_name data more excluded previous out r →
  match r with
  | Ok body => ∃ rt p, last out = Some (Post rt method_name data p (Ok body)) ∧ blen body ≤ Z.max 0 (rri_max_payload_size rt)
  | Err e => http_call_error_phase e = PreDispatch → Forall (fun ev => event_stale ev = true) out
  | Panic => False
  end.
Proof.
  induction out as [|[rt m d p x|] out IH]; intros more excluded previous; cbn; [by destruct r| |done].
  intros (-> & -> & -> & Hrt & Hex & Ho). destruct more as [|more]; [done|]. destruct Ho as [[Hs Ho]|(-> & -> & Hf)].
  - specialize (IH _ _ _ Ho). destruct r as [body|e|]; [| |done].
    + destruct IH as (rt' & p' & Hl & Hb). exists rt', p'. split; [|done]. destruct out; [done|exact Hl].
    + intros Hp. constructor; [done|auto].
  - destruct r as [body|e|]; [by exists rt, previous| |done]. cbn in Hf. congruence.
Qed.

(** C24 A call through relays posts its request again only where no route could have run it.
    Whatever the outside answers, it makes at most as many posts as it has attempts, never
    two to one relay, each through a route of the expected contract that a resolution of
    this call gave; every post but the last was answered by a stale route, and is declared
    to the gate as undelivered by the next; a result is the body of the last response,
    within the limit of its route; and an error told as one before the dispatch means that
    every post was answered by a stale route.  The call never panics. *)
Theorem posted_again_only_if_stale max_attempts method_name data n n' out r :
  call_inner json_text env expected max_attempts method_name data n = (n', out, r) →
  (length out ≤ Nat.max max_attempts 1)%nat
  ∧ NoDup (event_url <$> out)
  ∧ (∀ i ev, out !! i = Some ev →
       ∃ rt x, ev = Post rt method_name data (if (i =? 0)%nat then None else Some PreDispatch) x ∧ given n n' rt
         ∧ ((S i < length out)%nat → reply_stale x = true))
  ∧ match r with
    | Ok body => ∃ rt p, last out = Some (Post rt method_name data p (Ok body)) ∧ blen body ≤ Z.max 0 (rri_max_payload_size rt)
    | Err e => http_call_error_phase e = PreDispatch → Forall (fun ev => event_stale ev = true) out
    | Panic => False
    end.
Proof.
  intros Hc. pose proof (call_attempts_spec method_name data (Nat.max max_attempts 1) false None [] None n) as Hw.
  unfold wp in Hw. unfold call_inner in Hc. rewrite Hc in Hw. destruct Hw as [_ Ha].
  destruct (accounted_urls _ _ _ _ _ _ _ _ Ha) as (Hnd & _ & Hl). split_and!; [done..| |by eapply accounted_result].
  intros i ev Hi. destruct (accounted_each _ _ _ _ _ _ _ _ _ _ Ha Hi) as (rt & x & -> & Hg & Hx). exists rt, x. split_and!; [done..|].
  intros Hlt. destruct Hx as [?|(? & _)]; [done|lia].
Qed.

(** An outside that is well: nothing is rejected, resolutions give a route of the expected
    contract, and every relay replies. *)
Definition well (a : Answer) : Prop :=
  an_check a = None ∧ an_client a = None ∧ an_built a = true ∧ an_gate a = None
  ∧ (∃ rs rt, an_routes a = inl rs ∧ rt ∈ rr_routes rs ∧ route_matches_expected_contract rt expected = true)
  ∧ ∃ resp, an_response a = Some resp ∧ ∀ max, ∃ body, read_http_response resp max = Ok body.

Lemma well_check n : well (env n) → check env n = (S n, [], Ok tt).
Proof. intros (Hc & _). unfold check, question. by rewrite Hc. Qed.

Lemma bind_quiet {A B} (m : Ask A) (k : A → Ask B) n n1 x : m n = (n1, [], Ok x) → ask_bind m k n = k x n1.
Proof. intros Hm. unfold ask_bind. rewrite Hm. by destruct (k x n1) as [[]]. Qed.

Lemma catch_quiet {A} (m : Ask A) n n1 x : m n = (n1, [], Ok x) → catch m n = (n1, [], Ok (inl x)).
Proof. intros Hm. unfold catch. by rewrite Hm. Qed.

Lemma matching_not_empty rs rt : rt ∈ rr_routes rs → route_matches_expected_contract rt expected = true →
  rt ∈ rr_routes (matching expected rs) ∧ mismatched expected rs = false.
Proof.
  intros Hin Hm. assert (Hf : rt ∈ rr_routes (matching expected rs)) by by apply list_elem_of_filter.
  split; [done|]. unfold mismatched. rewrite andb_false_iff. right. apply bool_decide_eq_false_2. by destruct (rr_routes (matching expected rs)); [inv Hf|].
Qed.

Lemma order_routes_none l current : ∀ rt, rt ∈ l → rt ∈ order_routes l [] current.
Proof.
  intros rt Hin. unfold order_routes. assert (Hf : rt ∈ filter (fun r => trim_slashes (rri_relay_url r) ∉ ([] : list str)) l).
  { apply list_elem_of_filter. split; [set_solver|done]. }
  destruct current as [url|]; [|done]. rewrite elem_of_app, !list_elem_of_filter in *.
  destruct (decide (trim_slashes (rri_relay_url rt) = url)); tauto.
Qed.

(** Where the outside is well a call is answered by its first post. *)
Theorem call_delivered max_attempts method_name data n : (∀ j, well (env j)) →
  ∃ n' rt body, call_inner json_text env expected max_attempts method_name data n = (n', [Post rt method_name data None (Ok body)], Ok body).
Proof.
  intros Hw. assert (Hc : ∀ j, check env j = (S j, [], Ok tt)) by (intros j; by apply well_check).
  unfold call_inner. destruct (Nat.max max_attempts 1) as [|more] eqn:Em; [lia|]. cbn [call_attempts].
  destruct (Hw (S n)) as (_ & _ & _ & _ & (rs & rt & Hrs & Hin & Hm) & _). destruct (matching_not_empty _ _ Hin Hm) as [Hin' Hmis].
  rewrite (bind_quiet (catch (resolve_routes json_text env expected false)) _ n (3 + n) (inl (matching expected rs))).
  2:{ apply catch_quiet. unfold resolve_routes. rewrite (bind_quiet (resolve_checked env false) _ n (3 + n) rs); [by rewrite Hmis|].
      unfold resolve_checked. rewrite (bind_quiet _ _ n (S n) tt) by done. rewrite (bind_quiet (ret tt) _ (S n) (S n) tt) by done.
      rewrite (bind_quiet (catch (resolve env)) _ (S n) (2 + n) (inl rs)); [by rewrite (bind_quiet _ _ _ (3 + n) tt)|].
      apply catch_quiet. unfold resolve, question. by rewrite Hrs. }
  rewrite bool_decide_eq_false_2 by (destruct (rr_routes (matching expected rs)); [inv Hin'|done]).
  set (cur := an_current (env (3 + n))). rewrite (bind_quiet _ _ _ (4 + n) cur) by done.
  pose proof (order_routes_none _ cur _ Hin') as Hord.
  destruct (order_routes (rr_routes (matching expected rs)) [] cur) as [|rt' l]; [inv Hord|].
  destruct (Hw (10 + n)%nat) as (_ & _ & _ & _ & _ & resp & Hresp & Hb). destruct (Hb (rri_max_payload_size rt')) as [body Hbody].
  exists (11 + n)%nat, rt', body. rewrite bool_decide_eq_false_2 by done. unfold ask_bind at 1. cbn [try_routes].
  rewrite (bind_quiet (catch (acquire_route_client env)) _ _ (7 + n) (inl tt)).
  2:{ apply catch_quiet. unfold acquire_route_client. rewrite (bind_quiet _ _ _ (5 + n) tt) by done.
      rewrite (bind_quiet _ _ _ (6 + n) None) by (unfold question; by destruct (Hw (5 + n)%nat) as (_ & -> & _)).
      by rewrite (bind_quiet _ _ _ (7 + n) tt). }
  unfold ask_bind at 1, catch, call_with_route_token.
  rewrite (bind_quiet _ _ _ (8 + n) tt) by (unfold question; by destruct (Hw (7 + n)%nat) as (_ & _ & -> & _)).
  rewrite (bind_quiet _ _ _ (9 + n) tt) by done.
  rewrite (bind_quiet _ _ _ (10 + n) tt) by (unfold question; by destruct (Hw (9 + n)%nat) as (_ & _ & _ & -> & _)).
  by rewrite Hresp, Hbody.
Qed.

(** ** The choice of a target *)

Context (cl : Client).

Definition usable (n n' : nat) (failed : list RelayLocalIpcCandidate) rt : Prop :=
  given n n' rt ∧ Forall (fun c => route_matches_local_ipc_candidate rt c = false) failed.

Lemma usable_mono lo hi lo' hi' failed rt : (lo' ≤ lo)%nat → (hi ≤ hi')%nat → usable lo hi failed rt → usable lo' hi' failed rt.
Proof. intros ?? [? ?]. split; [by eapply given_mono|done]. Qed.

Definition probed (P : RelayRouteInfo → Prop) (ev : Event) : Prop := match ev with Probe rt _ => P rt | _ => False end.

Lemma probe_token_spec rt n :
  wp (probe_route_with_token env rt) n (fun n' out r => n' = S n ∧ r ≠ Panic ∧ out = [Probe rt r]).
Proof.
  unfold wp, probe_route_with_token. split_and!; [done| |done]. destruct (an_response (env n)) as [resp|]; [|done].
  destruct (hr_status resp =? 200); [done|]. pose proof (read_body_sound resp (rri_max_payload_size rt)) as Hb.
  by destruct (read_http_response_body _ _).
Qed.

Lemma probe_spec rt n :
  wp (probe env rt) n (fun n' out r => (n ≤ n')%nat ∧ r ≠ Panic ∧ Forall (probed (eq rt)) out ∧ (r = Ok tt → out = [Probe rt (Ok tt)])).
Proof.
  unfold probe. apply wp_silent; [auto with asks| |intros; split_and!; try done]. intros _ n1 H1.
  apply wp_bind, wp_catch. eapply wp_mono; [apply probe_token_spec|]. intros n2 o2 r2 (-> & Hp & ->).
  assert (Hf : Forall (probed (eq rt)) [Probe rt r2]) by by repeat constructor.
  destruct r2 as [[]|e|]; [| |done]; (apply wp_silent; [auto with asks| |intros; split_and!; [lia|done..]]);
    intros _ n3 H3; split_and!; try done; lia.
Qed.

Definition alive (P : RelayRouteInfo → Prop) out (url uid : str) : Prop :=
  ∃ rt, P rt ∧ last out = Some (Probe rt (Ok tt)) ∧ url = trim_slashes (rri_relay_url rt) ∧ uid = rri_route_uid rt.

Lemma alive_app P o out url uid : alive P out url uid → alive P (o ++ out) url uid.
Proof. intros (rt & ? & Hl & ?). exists rt. split_and!; [done| |naive_solver..]. by rewrite last_app, Hl. Qed.

Lemma alive_mono (P Q : RelayRouteInfo → Prop) out url uid : (∀ rt, P rt → Q rt) → alive P out url uid → alive Q out url uid.
Proof. intros HPQ (rt & ? & ?). exists rt. auto. Qed.

Definition probes_sound (P : RelayRouteInfo → Prop) out (r : res HttpError Probed) : Prop :=
  Forall (probed P) out ∧ match r with Ok (Alive url uid) => alive P out url uid | Panic => False | _ => True end.

Lemma probe_routes_spec (P : RelayRouteInfo → Prop) l : Forall P l → ∀ last excluded n,
  wp (probe_routes env l last excluded) n (fun n' out r => (n ≤ n')%nat ∧ probes_sound P out r).
Proof.
  induction 1 as [|rt l Hrt Hl IH]; intros last excluded n; [by split_and!|]. cbn [probe_routes]. apply wp_silent_catch; [apply silent_acquire|].
  assert (Hnext : ∀ n1 o1 last excluded, (n ≤ n1)%nat → Forall (probed P) o1 → wp (probe_routes env l last excluded) n1
    (fun n' out r => (n ≤ n')%nat ∧ probes_sound P (o1 ++ out) r)).
  { intros n1 o1 la ex H1 Ho1. eapply wp_mono; [apply IH|]. intros n' out r (? & Hf & Hr). split; [lia|]. split; [by apply Forall_app|].
    destruct r as [[]|e|]; [by apply alive_app|done..]. }
  intros [_|err] n1 H1.
  2:{ destruct err; [split_and!; [lia|split; done]|..]; by apply (Hnext n1 []). }
  apply wp_bind, wp_catch. eapply wp_mono; [apply probe_spec|]. intros n2 o2 r2 (H2 & Hp & Hf & Hok).
  assert (Ho2 : Forall (probed P) o2). { eapply Forall_impl; [exact Hf|]. intros [|rt' x]; [done|]. by intros <-. }
  assert (Herr : ∀ A (x : A) (e : HttpError) n3, (n2 ≤ n3)%nat → (n ≤ n3)%nat ∧ probes_sound P (o2 ++ []) (Err e)).
  { intros A x e n3 H3. rewrite app_nil_r. split; [lia|by split]. }
  destruct r2 as [[]|e|]; [| |done].
  - rewrite (Hok eq_refl) in *. apply wp_silent; [auto with asks| |intros e n3 H3; by apply (Herr _ tt)].
    intros _ n3 H3. split; [lia|]. split; [done|]. by exists rt.
  - assert (Hcont : wp (if route_is_stale e then ask_bind (check env) (fun _ => ask_bind (check env) (fun _ =>
        probe_routes env l (Some e) (trim_slashes (rri_relay_url rt) :: excluded))) else probe_routes env l (Some e) excluded) n2
        (fun n' o r' => (n ≤ n')%nat ∧ probes_sound P (o2 ++ o) r')).
    { destruct (route_is_stale e); [|apply Hnext; [lia|done]].
      apply wp_silent; [auto with asks| |intros; by apply (Herr _ tt)]. intros _ n3 H3.
      apply wp_silent; [auto with asks| |intros; apply (Herr _ tt); lia]. intros _ n4 H4. apply Hnext; [lia|done]. }
    destruct e; [by apply (Herr _ tt)|exact Hcont..].
Qed.

(** A local endpoint is one of a usable route, in the namespace of the client, which asked
    for it under an anchor that allows it. *)
Definition local_choice (n n' : nat) (prefer : bool) (failed : list RelayLocalIpcCandidate) (c : RelayLocalIpcCandidate) : Prop :=
  prefer = true ∧ cl_anchor_allows_local_ipc cl = true ∧
  ∃ j raw rt namespace, (n ≤ j < n')%nat ∧ an_routes (env j) = inl raw
    ∧ rr_local_endpoint_namespace raw = Some namespace ∧ cl_namespace cl = Some namespace
    ∧ rt ∈ rr_routes raw ∧ route_matches_expected_contract rt expected = true
    ∧ rri_ipc_address rt = Some (lc_address c) ∧ rri_server_id rt = Some (lc_server_id c)
    ∧ rri_server_instance_id rt = Some (lc_server_instance_id c) ∧ rri_route_uid rt = lc_route_uid c
    ∧ Forall (fun f => route_matches_local_ipc_candidate rt f = false) failed.

Definition choice_sound (n n' : nat) (prefer : bool) (failed : list RelayLocalIpcCandidate) out (r : res HttpError RelayResolvedTarget) : Prop :=
  Forall (probed (usable n n' failed)) out ∧
  match r with
  | Ok (TargetIpc c) => local_choice n n' prefer failed c
  | Ok (TargetHttp url uid) => alive (usable n n' failed) out url uid
  | Err _ => True
  | Panic => False
  end.

Lemma choice_later n n1 n' prefer failed o out r :
  (n ≤ n1)%nat → (n1 ≤ n')%nat → Forall (probed (usable n n1 failed)) o →
  choice_sound n1 n' prefer failed out r → choice_sound n n' prefer failed (o ++ out) r.
Proof.
  intros H1 H2 Ho [Hf Hr].
  assert (Hm : ∀ rt, usable n1 n' failed rt → usable n n' failed rt) by (intros rt; apply usable_mono; lia).
  split.
  - apply Forall_app. split; (eapply Forall_impl; [eassumption|]); intros [|rt x]; try done; apply usable_mono; lia.
  - destruct r as [[c|url uid]|e|]; [|by eapply alive_app, alive_mono|done..].
    destruct Hr as (? & ? & j & raw & rt & ns & Hj & Hr). split_and!; [done..|]. exists j, raw, rt, ns. split; [lia|exact Hr].
Qed.

Lemma find_candidate_some l c : find_candidate l expected = Some c →
  ∃ rt, rt ∈ l ∧ rri_ipc_address rt = Some (lc_address c) ∧ rri_server_id rt = Some (lc_server_id c)
    ∧ rri_server_instance_id rt = Some (lc_server_instance_id c) ∧ rri_route_uid rt = lc_route_uid c.
Proof.
  induction l as [|rt l IH]; cbn; [done|]. destruct (local_candidate rt expected) as [c'|] eqn:Ec.
  - intros [= ->]. exists rt. split; [by left|]. unfold local_candidate in Ec. destruct (negb _); [done|].
    destruct (rri_ipc_address rt), (rri_server_id rt), (rri_server_instance_id rt); cbn in Ec; simplify_eq. done.
  - intros Hf. destruct (IH Hf) as (rt' & ? & ?). exists rt'. split; [by right|done].
Qed.

Lemma filter_failed_in l failed rt : rt ∈ filter_failed_local_ipc_candidates l failed →
  rt ∈ l ∧ Forall (fun c => route_matches_local_ipc_candidate rt c = false) failed.
Proof.
  unfold filter_failed_local_ipc_candidates. rewrite list_elem_of_filter. intros [Hf Hin]. split; [done|].
  clear -Hf. induction failed as [|c failed IH]; cbn in Hf; [done|]. apply orb_false_iff in Hf as [? ?]. constructor; auto.
Qed.

Lemma select_local_sound n n' rs prefer failed c : resolved n n' rs →
  select_local_ipc_candidate prefer (cl_anchor_allows_local_ipc cl && (prefer && namespace_allows_local_ipc cl (rr_local_endpoint_namespace rs)))
    (filter_failed_local_ipc_candidates (rr_routes rs) failed) expected = Some c →
  local_choice n n' prefer failed c.
Proof.
  intros (j & raw & Hj & Hraw & ->). unfold select_local_ipc_candidate. destruct prefer; [|done].
  destruct (cl_anchor_allows_local_ipc cl) eqn:Ea; [|done]. cbn. destruct (namespace_allows_local_ipc _ _) eqn:En; [|done]. cbn.
  intros (rt & [Hin Hnf]%filter_failed_in & Hc)%find_candidate_some. split_and!; [done..|].
  unfold namespace_allows_local_ipc in En. destruct (cl_namespace cl) as [ns|] eqn:Ecl; [|done].
  destruct (rr_local_endpoint_namespace raw) as [ns'|] eqn:Ens; [|done]. apply bool_decide_eq_true in En as <-.
  apply list_elem_of_filter in Hin as [Hm Hin]. exists j, raw, rt, ns. naive_solver.
Qed.

Lemma select_attempts_spec prefer failed denied more : ∀ refresh last excluded n,
  wp (select_attempts json_text env expected cl more refresh prefer failed denied last excluded) n (fun n' out r =>
    (n ≤ n')%nat ∧ choice_sound n n' prefer failed out r).
Proof.
  induction more as [|more IH]; intros refresh last excluded n; [done|]. cbn [select_attempts].
  assert (Hagain : ∀ n1 o last excluded, (n ≤ n1)%nat → Forall (probed (usable n n1 failed)) o →
    wp (select_attempts json_text env expected cl more true prefer failed denied last excluded) n1 (fun n' out r =>
      (n ≤ n')%nat ∧ choice_sound n n' prefer failed (o ++ out) r)).
  { intros n1 o la ex H1 Ho. eapply wp_mono; [apply IH|]. intros n' out r [H2 Hc]. split; [lia|]. by eapply (choice_later n n1). }
  apply wp_silent; [auto with asks| |done]. intros _ n0 H0.
  apply wp_bind, wp_catch. eapply wp_mono; [apply resolve_routes_spec|]. intros n1 o1 [rs|err|] (H1 & -> & Hp & Hrs); [| |done].
  2:{ destruct (_ && _); [|split; [lia|done]]. apply (Hagain n1 []); [lia|done]. }
  assert (Hres : resolved n n1 rs). { destruct (Hrs _ eq_refl) as (j & raw & Hj & ?). exists j, raw. split; [lia|done]. }
  destruct (bool_decide _); [split; [lia|done]|]. destruct (_ && denied); [split; [lia|done]|].
  destruct (select_local_ipc_candidate _ _ _ _) as [c|] eqn:Ec.
  { split; [lia|]. split; [done|]. by eapply select_local_sound. }
  apply wp_silent; [apply silent_question; intros a; by destruct (an_check a)| |intros; split; [lia|done]].
  intros current n2 H2. destruct (bool_decide _); [split; [lia|done]|].
  apply wp_bind. eapply wp_mono; [apply (probe_routes_spec (usable n n1 failed))|].
  { apply Forall_forall. intros rt [Hin _]%order_routes_in. apply filter_failed_in in Hin as [Hin Hnf]. split; [|done].
    pose proof (resolved_given _ _ _ Hres) as Hg. rewrite Forall_forall in Hg. auto. }
  intros n3 o3 r3 (H3 & Hf & Hr).
  assert (Hf3 : ∀ n', (n1 ≤ n')%nat → Forall (probed (usable n n' failed)) o3).
  { intros n' Hn. eapply Forall_impl; [exact Hf|]. intros [|rt x]; [done|]. apply usable_mono; lia. }
  destruct r3 as [[url uid|la ex]|e|]; [| | |done].
  - split; [lia|]. rewrite app_nil_r. split; [apply Hf3; lia|]. eapply alive_mono, Hr. intros rt. apply usable_mono; lia.
  - apply pause_then.
    + intros n4 H4. apply Hagain; [lia|]. apply Hf3. lia.
    + intros e n4 H4. rewrite app_nil_r. split; [lia|]. split; [apply Hf3; lia|done].
  - split; [lia|]. split; [apply Hf3; lia|done].
Qed.

Lemma select_target_sound prefer failed denied n n' out r :
  select_target_with_local_exclusions json_text env expected cl prefer failed denied n = (n', out, r) → choice_sound n n' prefer failed out r.
Proof.
  intros Hc. pose proof (select_attempts_spec prefer failed denied (Nat.max (cl_max_attempts cl) 1) denied None [] n) as Hw.
  unfold wp in Hw. unfold select_target_with_local_exclusions in Hc. rewrite Hc in Hw. by destruct Hw.
Qed.

(** C25 The target a client connects to is one it may use.  Whatever the outside answers, a
    local endpoint is chosen only where the client prefers it, its anchor relay allows it and
    the resolution is of its own namespace, and it is that of a route of the expected
    contract; a relay is chosen only after it answered the probe of such a route; no
    endpoint that has failed is chosen, over either transport; nothing but probes is sent.
    [connect], which takes a local endpoint to be impossible, never panics. *)
Theorem target_usable prefer failed denied n n' out r :
  select_target_with_local_exclusions json_text env expected cl prefer failed denied n = (n', out, r) →
  Forall (probed (usable n n' failed)) out
  ∧ match r with
    | Ok (TargetIpc c) => local_choice n n' prefer failed c
    | Ok (TargetHttp url uid) => alive (usable n n' failed) out url uid
    | Err _ => True
    | Panic => False
    end
  ∧ (connect json_text env expected cl n).2 ≠ Panic.
Proof.
  intros Hc. destruct (select_target_sound _ _ _ _ _ _ _ Hc) as [Hf Hr]. split_and!; [done..|].
  unfold connect, ask_bind. destruct (select_target_with_local_exclusions json_text env expected cl false [] false n) as [[n1 o1] r1] eqn:E.
  apply select_target_sound in E as [_ E]. destruct r1 as [[c|url uid]|e|]; [|done..]. by destruct E.
Qed.
End Guarantees.

(** ** Sample runs *)

#[local] Instance sample_relay_json : Json C2ErrorEnvelope := countable_json C2ErrorEnvelope.
#[local] Instance sample_relay_total : JsonTotal C2ErrorEnvelope.
Proof. intros v. by eexists. Qed.

Definition sample_text (v : C2ErrorEnvelope) : str := default [] (to_vec v).
Definition sample_expected : ExpectedRouteContract :=
  {| erc_route_name := text "grid"; erc_crm_ns := text "demo"; erc_crm_name := text "Grid"; erc_crm_ver := text "0.1.0";
     erc_abi_hash := text "a"; erc_signature_hash := text "b" |}.
Definition sample_route (url : string) : RelayRouteInfo :=
  {| rri_name := text "grid"; rri_relay_url := text url; rri_route_uid := text "uid"; rri_ipc_address := Some (text "ipc://grid");
     rri_server_id := Some (text "host"); rri_server_instance_id := Some (text "host-1"); rri_crm_ns := text "demo";
     rri_crm_name := text "Grid"; rri_crm_ver := text "0.1.0"; rri_abi_hash := text "a"; rri_signature_hash := text "b";
     rri_max_payload_size := 4096 |}.

Definition sample_body : bytes := text "done".
Definition sample_ok : HttpResponse := {| hr_status := 200; hr_content_length := Some 4; hr_pieces := [Bytes sample_body true] |}.
Definition sample_stale : HttpResponse :=
  {| hr_status := 409; hr_content_length := None; hr_pieces := [Bytes (sample_text (envelope sample_error)) true] |}.
Definition sample_answer (resp : HttpResponse) : Answer :=
  {| an_check := None; an_client := None; an_built := true; an_gate := None; an_current := Some (text "http://b");
     an_routes := inl {| rr_routes := [sample_route "http://a/"; sample_route "http://b/"];
                         rr_local_endpoint_namespace := Some (text "space") |};
     an_response := Some resp |}.

Lemma run_parts {A B C} (x : A * B * C) : x = (x.1.1, x.1.2, x.2).
Proof. by destruct x as [[]]. Qed.

(** The first relay says that its route is stale, the second replies. *)
Definition sample_outside (n : nat) : Answer := if (n <? 14)%nat then sample_answer sample_stale else sample_answer sample_ok.
Definition sample_call := call_inner sample_text sample_outside sample_expected 3%nat (text "step") (text "input") 0%nat.

Lemma posted_again_witness :
  sample_call.2 = Ok sample_body ∧ length sample_call.1.2 = 2%nat ∧ NoDup (event_url <$> sample_call.1.2).
Proof.
  split; [vm_compute; reflexivity|]. split; [vm_compute; reflexivity|].
  destruct (posted_again_only_if_stale sample_text sample_outside sample_expected 3%nat (text "step") (text "input") 0%nat
    sample_call.1.1 sample_call.1.2 sample_call.2 (run_parts _)) as (_ & Hd & _). exact Hd.
Defined.

Definition sample_client : Client := {| cl_anchor_allows_local_ipc := true; cl_namespace := Some (text "space"); cl_max_attempts := 3%nat |}.
Definition sample_choice := select_target_with_local_exclusions sample_text sample_outside sample_expected sample_client true [] false 0%nat.
Definition sample_candidate : RelayLocalIpcCandidate :=
  {| lc_address := text "ipc://grid"; lc_server_id := text "host"; lc_server_instance_id := text "host-1"; lc_route_uid := text "uid" |}.

Lemma target_usable_witness :
  sample_choice.2 = Ok (TargetIpc sample_candidate)
  ∧ (connect sample_text sample_outside sample_expected sample_client 0%nat).2 ≠ Panic.
Proof.
  split; [vm_compute; reflexivity|].
  destruct (target_usable sample_text sample_outside sample_expected sample_client true [] false 0%nat
    sample_choice.1.1 sample_choice.1.2 sample_choice.2 (run_parts _)) as (_ & _ & Hc). exact Hc.
Defined.
