(* ===== verification/RelayControl.v ===== *)
(** The control client of a relay (c2-http, client/control.rs): resolutions and their cache,
    shared by the calls and connects of a process, and registrations with their retries. *)

From S2P Require Import Prelude.
From S2P Require Import Text.
From S2P Require Import Errors.
From S2P Require Import RelayClient.

(** ** Data *)

#[export] Instance route_info_eq : EqDecision RelayRouteInfo.
Proof. solve_decision. Defined.
#[export] Instance expected_eq : EqDecision ExpectedRouteContract.
Proof. solve_decision. Defined.
#[export] Instance expected_countable : Countable ExpectedRouteContract.
Proof.
  apply (inj_countable' (fun e => (erc_route_name e, erc_crm_ns e, erc_crm_name e, erc_crm_ver e, erc_abi_hash e, erc_signature_hash e))
    (fun '(a, b, c, d, e, f) => {| erc_route_name := a; erc_crm_ns := b; erc_crm_name := c; erc_crm_ver := d; erc_abi_hash := e;
       erc_signature_hash := f |})).
  by intros [].
Defined.

Record ResolveCacheKey := { ck_expected : ExpectedRouteContract; ck_local_endpoint_namespace : option str }.
#[export] Instance cache_key_eq : EqDecision ResolveCacheKey.
Proof. solve_decision. Defined.
#[export] Instance cache_key_countable : Countable ResolveCacheKey.
Proof.
  apply (inj_countable' (fun k => (ck_expected k, ck_local_endpoint_namespace k))
    (fun '(e, n) => {| ck_expected := e; ck_local_endpoint_namespace := n |})).
  by intros [].
Defined.
Definition ck_route_name (k : ResolveCacheKey) : str := erc_route_name (ck_expected k).

Record CacheEntry := {
  ce_routes : list RelayRouteInfo;
  ce_local_endpoint_namespace : option str;
  ce_inserted_at : Z }.
Notation Cache := (gmap ResolveCacheKey CacheEntry).

(** Sixty-four lowercase hexadecimal digits. *)
Definition validate_local_endpoint_namespace (value : str) : res HttpError unit :=
  guard_err (negb (blen value =? 64) || negb (forallb (fun b => ((48 <=? u8 b) && (u8 b <=? 57)) || ((97 <=? u8 b) && (u8 b <=? 102))) value)) InvalidInput.

(** ** The cache *)

(** [elapsed] does not go below zero. *)
Definition elapsed (now since : Z) : Z := Z.max 0 (now - since).

Section Control.
Context (cache_ttl : Z).

Definition cached_with_namespace (c : Cache) (k : ResolveCacheKey) (now : Z) : Cache * option RelayResolvedRoutes :=
  match c !! k with
  | None => (c, None)
  | Some entry =>
      if cache_ttl <=? elapsed now (ce_inserted_at entry) then (delete k c, None)
      else (c, Some {| rr_routes := ce_routes entry; rr_local_endpoint_namespace := ce_local_endpoint_namespace entry |})
  end.

Definition publish (c : Cache) (k : ResolveCacheKey) (r : RelayResolvedRoutes) (inserted_at : Z) : Cache :=
  <[k := {| ce_routes := rr_routes r; ce_local_endpoint_namespace := rr_local_endpoint_namespace r; ce_inserted_at := inserted_at |}]> c.

Definition invalidate (c : Cache) (name : str) : Cache := filter (fun '(k, _) => ck_route_name k ≠ name) c.

(** ** Resolutions *)

(** The response to a resolution: its status, the values of the namespace header ([None]
    where one is not text), what its body reads as, and the body as text. *)
Record ResolveResponse := {
  sr_status : Z;
  sr_namespaces : list (option str);
  sr_routes : option (list RelayRouteInfo);
  sr_text : str }.

Definition response_namespace (l : list (option str)) : res HttpError (option str) :=
  match l with
  | [] => Ok None
  | [None] => Err Transport
  | [Some value] =>
      match validate_local_endpoint_namespace value with Ok _ => Ok (Some value) | Err _ => Err Transport | Panic => Panic end
  | _ => Err Transport
  end.

Definition validate_resolved_route (r : RelayRouteInfo) : res HttpError unit :=
  match validate_call_route_key "route_uid" (rri_route_uid r) with Ok _ => Ok tt | Err _ => Err Transport | Panic => Panic end.
Fixpoint validate_resolved_routes (l : list RelayRouteInfo) : res HttpError unit :=
  match l with [] => Ok tt | r :: l => validate_resolved_route r ;? validate_resolved_routes l end.

Definition read_resolution (resp : ResolveResponse) : res HttpError RelayResolvedRoutes :=
  let? namespace := response_namespace (sr_namespaces resp) in
  if sr_status resp =? 200 then
    match sr_routes resp with
    | None => Err Transport
    | Some routes =>
        validate_resolved_routes routes ;?
        Ok {| rr_routes := routes; rr_local_endpoint_namespace := namespace |}
    end
  else Err (ServerError (sr_status resp) (sr_text resp)).

(** [connect_deadline::exceeded]; an action says whether it finds the deadline of its connect
    passed. *)
Definition exceeded (stage : string) : HttpError :=
  LocalCallRejected {|
    er_code := ECallDeadlineExceeded; er_message := text "connection deadline exceeded during " ++ text stage;
    er_details := <[text "operation" := text "connect"]> (<[text "transport_phase" := text "pre_dispatch"]>
      (<[text "stage" := text stage]> (<[text "fallback_eligible" := text "false"]> {[text "route_withdrawal" := text "false"]}))) |}.

(** Resolutions that wait for the relay, by the task that makes them. *)
Record Control := { ct_cache : Cache; ct_waiting : gmap nat ResolveCacheKey }.
Definition control_new : Control := {| ct_cache := ∅; ct_waiting := ∅ |}.
Definition set_cache (w : Control) (c : Cache) : Control := {| ct_cache := c; ct_waiting := ct_waiting w |}.

Inductive Action :=
| Resolve (t : nat) (expected : ExpectedRouteContract) (context : option str) (expired : bool)
| Reply (t : nat) (resp : option ResolveResponse) (inserted_at : Z) (expired : bool)
| Cancel (t : nat)
| Invalidate (name : str)
| ClearCache.

(** [resolve_with_query_async] up to the request. *)
Definition resolve_begin (w : Control) (t : nat) (expected : ExpectedRouteContract) (context : option str) (expired : bool) (now : Z)
    : Control * option (res HttpError RelayResolvedRoutes) :=
  match validate_expected_route_contract expected with
  | Err _ => (w, Some (Err InvalidInput))
  | Panic => (w, Some Panic)
  | Ok _ =>
      if expired then (w, Some (Err (exceeded "relay_resolve")))
      else
        let k := {| ck_expected := expected; ck_local_endpoint_namespace := context |} in
        let '(c, hit) := cached_with_namespace (ct_cache w) k now in
        match hit with
        | Some r => (set_cache w c, Some (Ok r))
        | None => ({| ct_cache := c; ct_waiting := <[t := k]> (ct_waiting w) |}, None)
        end
  end.

(** ... and from the response on.  The time of the entry is taken before the lock. *)
Definition resolve_reply (w : Control) (t : nat) (resp : option ResolveResponse) (inserted_at : Z) (expired : bool)
    : Control * option (res HttpError RelayResolvedRoutes) :=
  match ct_waiting w !! t with
  | None => (w, None)
  | Some k =>
      let w := {| ct_cache := ct_cache w; ct_waiting := delete t (ct_waiting w) |} in
      match resp with
      | None => (w, Some (Err Transport))
      | Some resp =>
          match read_resolution resp with
          | Ok r => if expired then (w, Some (Err (exceeded "relay_resolve"))) else (set_cache w (publish (ct_cache w) k r inserted_at), Some (Ok r))
          | Err e => (w, Some (Err e))
          | Panic => (w, Some Panic)
          end
      end
  end.

Definition control_step (w : Control) (a : Action) (now : Z) : Control * option (res HttpError RelayResolvedRoutes) :=
  match a with
  | Resolve t e context expired => resolve_begin w t e context expired now
  | Reply t resp inserted_at expired => resolve_reply w t resp inserted_at expired
  | Cancel t => ({| ct_cache := ct_cache w; ct_waiting := delete t (ct_waiting w) |}, None)
  | Invalidate name => (set_cache w (invalidate (ct_cache w) name), None)
  | ClearCache => (set_cache w ∅, None)
  end.

(** ** Requests with retries *)

(** The answer to one request: its status and text, if any. *)
Definition post_json_once (success : list Z) (reply : option (Z * str)) : res HttpError unit :=
  match reply with
  | None => Err Transport
  | Some (status, body) => if bool_decide (status ∈ success) then Ok tt else Err (ServerError status body)
  end.

Definition retried (e : HttpError) : bool := match e with ServerError code _ => 500 <=? code | Transport => true | _ => false end.

(** The result, and how many requests were made; [reply i] is the answer to the [i]th. *)
Fixpoint post_attempts (more i : nat) (success : list Z) (reply : nat → option (Z * str)) (last : option HttpError)
    : res HttpError unit * nat :=
  match more with
  | O => (Err (default Transport last), i)
  | S more =>
      match post_json_once success (reply i) with
      | Err e => if retried e then post_attempts more (S i) success reply (Some e) else (Err e, S i)
      | r => (r, S i)
      end
  end.
Definition post_json_with_retry (retry_attempts : nat) (success : list Z) (reply : nat → option (Z * str)) : res HttpError unit * nat :=
  post_attempts (Nat.max retry_attempts 1) 0 success reply None.

(** Registration and removal: the cache is invalidated once the relay has accepted. *)
Definition control_request (w : Control) (retry_attempts : nat) (success : list Z) (reply : nat → option (Z * str)) (name : option str)
    : Control * res HttpError unit :=
  match (post_json_with_retry retry_attempts success reply).1 with
  | Ok _ => (match name with Some n => set_cache w (invalidate (ct_cache w) n) | None => w end, Ok tt)
  | r => (w, r)
  end.
Definition register (w : Control) (attempts : nat) (reply : nat → option (Z * str)) (e : ExpectedRouteContract) :=
  control_request w attempts [200; 201] reply (Some (erc_route_name e)).
Definition prepare_register (w : Control) (attempts : nat) (reply : nat → option (Z * str)) :=
  control_request w attempts [202] reply None.
Definition unregister_registration (w : Control) (attempts : nat) (reply : nat → option (Z * str)) (name : str) :=
  control_request w attempts [200; 202; 204; 404] reply (Some name).
Definition admin_unregister (w : Control) (attempts : nat) (reply : nat → option (Z * str)) (name : str) :=
  control_request w attempts [200; 204] reply (Some name).

(** ** Histories *)

(** What has happened to the cache, the latest first. *)
Inductive Past := Published (k : ResolveCacheKey) (r : RelayResolvedRoutes) (at_ : Z) | Invalidated (name : str) | Cleared.

Definition history_step (w : Control) (a : Action) (now : Z) (h : list Past) : list Past :=
  match a with
  | Reply t (Some resp) inserted_at false =>
      match ct_waiting w !! t, read_resolution resp with
      | Some k, Ok r => Published k r inserted_at :: h
      | _, _ => h
      end
  | Invalidate name => Invalidated name :: h
  | ClearCache => Cleared :: h
  | _ => h
  end.

(** The latest answer for a key that has not been invalidated since. *)
Fixpoint held (k : ResolveCacheKey) (h : list Past) : option (RelayResolvedRoutes * Z) :=
  match h with
  | [] => None
  | Published k' r t :: h => if decide (k' = k) then Some (r, t) else held k h
  | Invalidated name :: h => if decide (ck_route_name k = name) then None else held k h
  | Cleared :: _ => None
  end.

Definition answer (k : ResolveCacheKey) (now : Z) (h : list Past) : option RelayResolvedRoutes :=
  match held k h with
  | Some (r, t) => if cache_ttl <=? elapsed now t then None else Some r
  | None => None
  end.

(** Steps at times that do not go back. *)
Inductive control_run : list (Action * Z) → Z → Control → list Past → Prop :=
| run_new t : control_run [] t control_new []
| run_step l t w h a now : control_run l t w h → t <= now →
    control_run (l ++ [(a, now)]) now (control_step w a now).1 (history_step w a now h).

(** ** Properties *)

Definition entry_routes (e : CacheEntry) : RelayResolvedRoutes :=
  {| rr_routes := ce_routes e; rr_local_endpoint_namespace := ce_local_endpoint_namespace e |}.

(** An entry is the latest answer; one may be gone where it is too old at [t]. *)
Definition cache_follows (c : Cache) (t : Z) (h : list Past) : Prop := ∀ k,
  match c !! k with
  | Some e => held k h = Some (entry_routes e, ce_inserted_at e)
  | None => ∀ r s, held k h = Some (r, s) → cache_ttl <= elapsed t s
  end.

Lemma follows_later c t t' h : t <= t' → cache_follows c t h → cache_follows c t' h.
Proof. intros Ht Hc k. specialize (Hc k). destruct (c !! k); [done|]. intros r s Hs. specialize (Hc r s Hs). unfold elapsed in *. lia. Qed.

Lemma cached_exact c t h k : cache_follows c t h →
  (cached_with_namespace c k t).2 = answer k t h ∧ cache_follows (cached_with_namespace c k t).1 t h.
Proof.
  intros Hc. unfold cached_with_namespace, answer. pose proof (Hc k) as Hk. destruct (c !! k) as [e|] eqn:Ek.
  - rewrite Hk. destruct (Z.leb_spec cache_ttl (elapsed t (ce_inserted_at e))); [|done]. split; [done|]. intros k'. cbn [fst].
    destruct (decide (k' = k)) as [->|].
    + rewrite lookup_delete_eq. intros r s. rewrite Hk. by intros [= _ <-].
    + rewrite lookup_delete_ne by done. apply Hc.
  - split; [|done]. destruct (held k h) as [[r s]|] eqn:Eh; [|done]. specialize (Hk r s eq_refl). by destruct (Z.leb_spec cache_ttl (elapsed t s)); [|lia].
Qed.

Lemma publish_follows c t h k r s : cache_follows c t h → cache_follows (publish c k r s) t (Published k r s :: h).
Proof.
  intros Hc k'. unfold publish. cbn [held]. destruct (decide (k = k')) as [->|].
  - rewrite lookup_insert_eq. by destruct r.
  - rewrite lookup_insert_ne by done. apply Hc.
Qed.

Lemma invalidate_follows c t h name : cache_follows c t h → cache_follows (invalidate c name) t (Invalidated name :: h).
Proof.
  intros Hc k. unfold invalidate. cbn [held]. rewrite map_lookup_filter. specialize (Hc k). destruct (decide (ck_route_name k = name)) as [E|E].
  - destruct (c !! k); cbn; [|done]. by rewrite option_guard_False by tauto.
  - destruct (c !! k); cbn; [|done]. by rewrite option_guard_True.
Qed.

Lemma empty_follows t h : (∀ k, held k h = None) → cache_follows ∅ t h.
Proof. intros Hh k. rewrite lookup_empty. by rewrite Hh. Qed.

Lemma step_follows w a t now h : t <= now → cache_follows (ct_cache w) t h →
  cache_follows (ct_cache (control_step w a now).1) now (history_step w a now h).
Proof.
  intros Ht Hc%(follows_later _ t now); [|done]. destruct a as [u e context expired|u resp s expired|u|name|]; cbn; [| |done| |].
  - unfold resolve_begin. destruct (validate_expected_route_contract e); [|done..]. destruct expired; [done|].
    destruct (cached_exact _ _ _ {| ck_expected := e; ck_local_endpoint_namespace := context |} Hc) as [_ Hn].
    destruct (cached_with_namespace _ _ _) as [c [r|]]; done.
  - unfold resolve_reply. destruct resp as [resp|]; [|by destruct (ct_waiting w !! u)].
    destruct (ct_waiting w !! u) as [k|]; [|by destruct expired].
    destruct (read_resolution resp) as [r|e|]; destruct expired; try done. by apply publish_follows.
  - by apply invalidate_follows.
  - by apply empty_follows.
Qed.

(** What the relay is checked for before its answer is used. *)
Definition checked_routes (r : RelayResolvedRoutes) : Prop :=
  Forall (fun x => validate_call_route_key "route_uid" (rri_route_uid x) = Ok tt) (rr_routes r)
  ∧ ∀ n, rr_local_endpoint_namespace r = Some n → validate_local_endpoint_namespace n = Ok tt.

Lemma validate_routes_ok l u : validate_resolved_routes l = Ok u → Forall (fun x => validate_call_route_key "route_uid" (rri_route_uid x) = Ok tt) l.
Proof.
  induction l as [|r l IH]; cbn; [constructor|]. intros [Hr Hl]%seq_ok. constructor; [|auto].
  unfold validate_resolved_route in Hr. by destruct (validate_call_route_key _ _) as [[]| |].
Qed.

Lemma read_resolution_checked resp r : read_resolution resp = Ok r → checked_routes r ∧ sr_status resp = 200.
Proof.
  unfold read_resolution. intros (ns & Hns & Hr)%bind_ok. destruct (Z.eqb_spec (sr_status resp) 200); [|done]. split; [|done].
  destruct (sr_routes resp) as [l|]; [|done]. apply bind_ok in Hr as (u & Hv & [= <-]). split; [by eapply validate_routes_ok|].
  cbn. intros n ->. unfold response_namespace in Hns. destruct (sr_namespaces resp) as [|[v|] [|]]; try done.
  destruct (validate_local_endpoint_namespace v) as [[]| |] eqn:Ev; [|done..]. by injection Hns as <-.
Qed.

Definition past_checked (p : Past) : Prop := match p with Published _ r _ => checked_routes r | _ => True end.

Lemma held_checked k h r t : Forall past_checked h → held k h = Some (r, t) → checked_routes r.
Proof.
  induction 1 as [|p h Hp _ IH]; cbn; [done|]. destruct p as [k' r' t'|name|]; [|case_decide; [done|exact IH]|done].
  case_decide; [|exact IH]. by intros [= <- _].
Qed.

Lemma control_run_inv l t w h : control_run l t w h → cache_follows (ct_cache w) t h ∧ Forall past_checked h.
Proof.
  induction 1 as [t|l t w h a now _ [IHc IHh] Ht]; [split; [apply empty_follows; done|constructor]|].
  split; [by eapply step_follows|]. destruct a as [| u [resp|] s []| | |]; cbn; try done; [|by constructor..].
  destruct (ct_waiting w !! u); [|done]. destruct (read_resolution resp) as [x|err|] eqn:Er; [|done..]. constructor; [|done].
  by apply read_resolution_checked in Er as [? _].
Qed.

(** C26 The cache of resolutions is exact.  In every interleaving of resolutions, replies,
    cancellations and invalidations, a resolution of a well-formed contract is answered at
    once exactly where the latest answer of the relay for the same contract and namespace,
    not invalidated since by its route name, is younger than the time to live, and then
    with that answer, whose route identities and namespace have been checked; else it waits
    for the relay.  Dropping old entries is never observed. *)
Theorem resolution_follows_history l t w h now task e context :
  control_run l t w h → t <= now → validate_expected_route_contract e = Ok tt →
  let k := {| ck_expected := e; ck_local_endpoint_namespace := context |} in
  let '(w', reply) := control_step w (Resolve task e context false) now in
  reply = Ok <$> answer k now h
  ∧ (∀ r, answer k now h = Some r → checked_routes r)
  ∧ ct_waiting w' = match answer k now h with Some _ => ct_waiting w | None => <[task := k]> (ct_waiting w) end.
Proof.
  intros Hr Ht He k. destruct (control_run_inv _ _ _ _ Hr) as [Hc Hh]. cbn. unfold resolve_begin. rewrite He. fold k.
  destruct (cached_exact _ _ _ k (follows_later _ _ _ _ Ht Hc)) as [Ha _].
  assert (Hch : ∀ r, answer k now h = Some r → checked_routes r).
  { intros r. unfold answer. destruct (held k h) as [[r' s]|] eqn:E; [|done]. destruct (_ <=? _); [done|]. intros [= <-]. by eapply held_checked. }
  destruct (cached_with_namespace (ct_cache w) k now) as [c [r|]]; cbn in Ha; rewrite <-Ha in *; done.
Qed.

(** ** Retries *)

Lemma post_attempts_spec success reply more : ∀ i last r n,
  post_attempts more i success reply last = (r, n) →
  (∀ j, (i ≤ j)%nat → (S j < n)%nat → ∃ e, post_json_once success (reply j) = Err e ∧ retried e = true)
  ∧ ((n = i ∧ more = 0%nat ∧ r = Err (default Transport last))
     ∨ ((i < n ≤ i + more)%nat ∧ post_json_once success (reply (n - 1)%nat) = r
        ∧ ∀ e, r = Err e → retried e = true → n = (i + more)%nat)).
Proof.
  induction more as [|more IH]; intros i last r n; cbn [post_attempts].
  { intros [= <- <-]. split; [intros; lia|by left]. }
  destruct (post_json_once success (reply i)) as [u|e|] eqn:Ei.
  2: destruct (retried e) eqn:Er.
  - intros [= <- <-]. split; [intros; lia|]. right. split_and!; [lia..| |done]. by replace (S i - 1)%nat with i by lia.
  - intros [Hj Hn]%IH. split.
    + intros j Hij Hjn. destruct (decide (j = i)) as [->|]; [by exists e|]. apply Hj; lia.
    + right. destruct Hn as [(-> & -> & ->)|(Hb & Hp & He)].
      * split_and!; [lia..| |intros; lia]. by replace (S i - 1)%nat with i by lia.
      * split_and!; [lia..|done|]. intros e' ? ?. rewrite (He e') by done. lia.
  - intros [= <- <-]. split; [intros; lia|]. right. split_and!; [lia..| |congruence]. by replace (S i - 1)%nat with i by lia.
  - intros [= <- <-]. split; [intros; lia|]. right. split_and!; [lia..| |done]. by replace (S i - 1)%nat with i by lia.
Qed.

(** A request is repeated only after the network or the relay failed; its result is that of
    the last one, and it gives up on such a failure only after all attempts. *)
Theorem retries_exact attempts success reply r n : post_json_with_retry attempts success reply = (r, n) →
  (1 ≤ n ≤ Nat.max attempts 1)%nat ∧ post_json_once success (reply (n - 1)%nat) = r
  ∧ (∀ j, (S j < n)%nat → ∃ e, post_json_once success (reply j) = Err e ∧ retried e = true)
  ∧ (∀ e, r = Err e → retried e = true → n = Nat.max attempts 1).
Proof.
  unfold post_json_with_retry. intros [Hj [(-> & ? & _)|(Hb & Hp & He)]]%post_attempts_spec; [lia|].
  split_and!; [lia..|done| |done]. intros j Hlt. apply Hj; lia.
Qed.
End Control.

(** ** Sample run *)

Definition sample_hash : str := text "0123456789abcdef0123456789abcdef0123456789abcdef0123456789abcdef".
Definition sample_contract : ExpectedRouteContract :=
  {| erc_route_name := text "grid"; erc_crm_ns := text "demo"; erc_crm_name := text "Grid"; erc_crm_ver := text "0.1.0";
     erc_abi_hash := sample_hash; erc_signature_hash := sample_hash |}.
Definition sample_resolved_route : RelayRouteInfo :=
  {| rri_name := text "grid"; rri_relay_url := text "http://a/"; rri_route_uid := text "uid"; rri_ipc_address := None;
     rri_server_id := None; rri_server_instance_id := None; rri_crm_ns := text "demo"; rri_crm_name := text "Grid";
     rri_crm_ver := text "0.1.0"; rri_abi_hash := sample_hash; rri_signature_hash := sample_hash; rri_max_payload_size := 4096 |}.
Definition sample_resolution : ResolveResponse :=
  {| sr_status := 200; sr_namespaces := [Some sample_hash]; sr_routes := Some [sample_resolved_route]; sr_text := [] |}.
Definition sample_routes : RelayResolvedRoutes :=
  {| rr_routes := [sample_resolved_route]; rr_local_endpoint_namespace := Some sample_hash |}.
Definition sample_waiting : Control := (control_step 30 control_new (Resolve 0 sample_contract None false) 1).1.
Definition sample_filled : Control := (control_step 30 sample_waiting (Reply 0 (Some sample_resolution) 4 false) 5).1.

Lemma sample_filled_run :
  control_run 30 [(Resolve 0 sample_contract None false, 1); (Reply 0 (Some sample_resolution) 4 false, 5)] 5 sample_filled
    [Published {| ck_expected := sample_contract; ck_local_endpoint_namespace := None |} sample_routes 4].
Proof.
  apply (run_step 30 [(Resolve 0 sample_contract None false, 1)] 1 sample_waiting []
    (Reply 0 (Some sample_resolution) 4 false) 5); [|lia].
  apply (run_step 30 [] 0 control_new [] (Resolve 0 sample_contract None false) 1); [constructor|lia].
Qed.

Lemma resolution_follows_witness :
  (control_step 30 sample_filled (Resolve 1 sample_contract None false) 20).2 = Some (Ok sample_routes).
Proof.
  pose proof (resolution_follows_history 30 _ _ _ _ 20 1%nat sample_contract None sample_filled_run ltac:(lia) eq_refl) as H.
  cbv zeta in H. destruct (control_step 30 sample_filled _ 20) as [w reply]. destruct H as [H _]. cbn [snd]. rewrite H. vm_compute. reflexivity.
Defined.
